(* ===== verification/_CoqProject ===== *)
-Q . S2P
Prelude.v
Result.v
RustStr.v
Platform.v
Ids.v
Scope.v
Wire.v
Workflow.v
Usage.v
Events.v
Team.v
Projection.v
Transcript.v
Runs.v
Snapshot.v
RunTree.v
Permission.v
PermissionPlane.v
PlaneSpec.v
Identity.v
Pending.v
Text.v
WfModel.v
Compiler.v
Levels.v
GraphSpec.v
Render.v
NormalizeSpec.v
AuthorSpec.v
CompileSpec.v
CompilerSpec.v
CompilerErrors.v
RenderSpec.v
Revision.v
Effects.v
Iteration.v
TurnGate.v
Routing.v
Governor.v
WfRun.v
Executor.v
ExecutorSpec.v
ExecuteSpec.v
WfControl.v
RunSpec.v
RoutingSpec.v
StoreDb.v
StoreTx.v
Store.v
Claims.v
Journal.v
WfAdmission.v
Recovery.v
Mailbox.v
StoreBuilt.v
Concurrent.v
StorePool.v
StoreSpec.v
ReadSpec.v
ClaimSpec.v
JournalSpec.v
CloseSpec.v
HandoffSpec.v
AdmissionSpec.v
ResidentSpec.v
Processes.v
UpdMeta.v
UpdJournal.v
Updater.v
UpdSpec.v
UpdInv.v
UpdActivate.v
UpdStage.v
UpdRun.v
UpdDemo.v
RelayLink.v
RelayProxy.v
RelayInv.v
RelayStream.v
RelaySpec.v
