(* ===== verification/Prelude.v ===== *)
(** * A verification of the core of hya

    hya is an event-sourced coding agent that runs teams of agents.  Every session is an
    append-only log of [Event]s; the state everybody sees (server, terminal, relay clients, the
    engine itself when it resumes) is the fold of that log, [Projection::apply]; every effect a
    tool has on the machine first passes the permission plane; and a Workflow, a graph of stages
    written as a document, is compiled, executed by agents and recorded in the log.  The log itself, with
    the claims, admissions and resumes that several processes share, lives in one SQL database.  The program is
    itself replaced by an updater that trusts only signed releases, and clients reach it from outside through
    a relay that neither side has to trust with its traffic.  This library models these six cores from the
    Rust sources, with definitions that compute, and proves what they promise.

    ** How the program's parts interact

    The engine (hya-core) appends envelopes to the store (hya-store), which numbers them.  Server
    and clients fold them with hya-proto: [Projection::apply] dispatches each event to the session
    part (transcript, members, Workflow runs, usage, reverts) and to the team part (roster, mail,
    channels).  Live envelopes carry sequence 0 and are folded by clients only.  Reads of the store
    fold from a cached projection or a durable snapshot when its last event is still in the log, and
    many reads, writer transactions and restarts interleave.  Snapshots of a
    fold are stored and resumed.  Tools (hya-tool) ask the permission plane; the plane asks
    interceptors and then the human through the server's pending queue (hya-server), which saves
    "allow always" answers as rows and restores them at start-up.  Workflow documents are compiled
    (hya-workflow) to a plan; the control surface (hya-app) prepares and records a run; the
    executor (hya-core) renders each stage, has a resident agent work on it, drives loop stages
    through the iteration driver until a verifier accepts, and emits the run's events, which the
    fold of the lead session shows.  A turn of an agent opens its model stream through the router
    (hya-provider), along the model's fallback chain or the route the Workflow assigned; the
    governor bounds how many agents and turns a run may use, and the turn gate gives each session one turn at a time.
    The updater (hya-updater) shares nothing with the rest: processes of [hya update] work on the files of
    one directory, under a lease, and move a selector to a release they verified, staged and tested.
    The relay (hya-relay) connects a backend behind a firewall with its clients: the backend (the host)
    registers a room on a proxy with its key, a client (the opener) that holds the room's link presents the
    link's token, and the proxy splices the opener's stream with one the host opens for it.

    ** The files, in dependency order

    - [Prelude]: record update, list searches ([iter().find], [iter_mut().rev().find]), map
      entries, saturating integers, maps iterated in key order.  [Result]: [?] and loops that may fail.  [RustStr], [Text]: the string functions of the standard library the sources
      use, on bytes, with prefix codes and integers as text ([from_str_radix]).  [Platform]: the crates below the source (UUIDs, JSON
      values) as type classes with their documented laws, and a concrete instance ([Demo]).
    - [Ids] (hya-proto ids.rs, model.rs), [Scope] (scope.rs, mail.rs), [Wire] (message.rs, todo.rs,
      tokens.rs, revert.rs), [Workflow] (workflow.rs), [Usage] (usage.rs), [Events] (event.rs): the
      vocabulary, with parsing, printing, minting and counting.
    - [Team] (projection.rs, the team arms of [apply_event] and [TeamProjection]): one [on_*]
      function per event, the resolvers of addresses, the step relation [team_step].
    - [Projection] (projection.rs, projection/helpers.rs): the session state and one [on_*] function
      per arm; [apply_event] composes them as the source's match does, [apply] adds the sequence
      guard and the time stamps, [from_events] folds a log.
    - [Transcript], [Runs], [Snapshot], [RunTree] (projection.rs, projection_tree.rs): what the fold
      guarantees of transcripts and usage, of Workflow runs and archiving, of durable snapshots, and
      of the tree of sessions.
    - [Permission] (hya-tool permission.rs): the wildcard matcher, invocation policies,
      resource rules and remembered grants.
    - [PermissionPlane] (permission.rs; hya-server saved_permission.rs): the plane's operations as
      programs over the shared grant tables.  [PlaneSpec]: their sequential behaviour
      and all their interleavings.  [Identity]: the bytes of a plane's identity.
    - [Pending] (hya-server pending/permission.rs, hya-store interaction.rs and permission.rs): the
      server's queue of asks with its durable rows, and what it promises.
    - [WfModel], [Compiler], [Render] (hya-workflow model.rs, error.rs, compiler.rs, render.rs): the
      Workflow document, one definition per function of the compiler, the renderer.  [Levels],
      [GraphSpec], [NormalizeSpec], [AuthorSpec], [CompileSpec], [CompilerErrors],
      [CompilerSpec], [RenderSpec], [Revision]: their lemmas and theorems, with a document ([WorkflowDemo]).
    - [Effects]: asynchronous code as a tree of calls with loops ([Task]), and its program logic
      ([wp]).  [Iteration] (hya-core completion.rs, error.rs), [Routing] (hya-provider lib.rs,
      router.rs; hya-core workflow/mod.rs, engine/turn.rs, hooks.rs), [Governor] (orchestrator.rs),
      [TurnGate] (engine/turn_gate.rs: the lock's holds and what happens behind them as steps, with its theorems), [WfRun] and [Executor] (workflow/run.rs), [WfControl] (hya-app workflow_control.rs): the run
      stack, one definition per function.  [RoutingSpec],
      [ExecutorSpec], [ExecuteSpec], [RunSpec]: what they guarantee, with a run ([RunDemo]).
    - [StoreDb] (hya-store lib.rs, error.rs, the migrations): the tables as one record.  [StoreTx]
      (projection_cache.rs; lib.rs, materialize.rs: writer transactions, appends, folds),
      [Store] (lib.rs: reads, deletion, lists, the owner), [Claims] (resident_claim.rs), [Journal]
      (admission.rs), [WfAdmission] (workflow.rs), [Recovery] (recovery.rs, handoff.rs), [Mailbox]
      (mailbox.rs): the store's operations, a transaction as a function [Tx] of tables and cache, an
      operation as a [Task] whose calls are single statements and whole transactions.
    - [StoreBuilt]: the transactions as programs over a few primitive writes ([Built]), and the class
      [StoreRel] of relations between tables that every such write keeps, so that a relation is
      checked once per primitive.  [Concurrent]: pools of threads, their interleavings, and a
      rely-guarantee logic ([safe]) with its adequacy ([pool_safe]).  [StorePool]: the store as such a
      pool, with failing statements and restarts, and concrete runs ([StoreDemo]).  [StoreSpec]: bases of
      folds that stay valid, what appends do to logs and folds, deletion.  [ReadSpec], [ClaimSpec], [JournalSpec],
      [CloseSpec], [HandoffSpec], [AdmissionSpec], [ResidentSpec]: what the operations guarantee.
    - [Processes]: pools of processes
      that start, take steps, end and are killed, with a rely-guarantee logic ([psafe]).  [UpdMeta]
      (hya-updater metadata.rs, error.rs, layout.rs, trust.rs, verify.rs, parse_trust_root of cli.rs):
      the pure functions of the updater.  [UpdJournal] (journal.rs, lease.rs), over files, directories
      and the calls on them, and [Updater] (fetch.rs, stage.rs, smoke.rs, pipeline.rs, the
      Authorize command of cli.rs): its functions as tasks of such calls.  [UpdSpec], [UpdInv],
      [UpdActivate], [UpdStage], [UpdRun]: verification of metadata,
      the texts of the files, the invariant of a root ([inv]) and the logic of code under the lease
      ([dsafe]), recovery and activation, staging, the pool of processes, and what gets through;
      [UpdDemo]: a root and a signed release.
    - [RelayLink] (hya-relay link.rs, the tokens of keys.rs): links, proxy URLs, rooms, tokens.  [RelayProxy]
      (proxy/mod.rs, limits.rs, the errors of proto.rs): the proxy's shared state, with what the code shares through
      [Arc] as objects of a store, one definition per operation under the lock and per drop of a handle, and
      their interleavings ([proxy_step]).  [RelayInv]: what its counts count ([proxy_ok]).  [RelayStream]
      (proxy/host.rs, proxy/stream.rs): registration, the host's loop, the opener's wait and the splice,
      a turn of a loop at a time.  [RelaySpec]: the theorems, with a run ([RelayDemo]).

    ** What the theorems show

    - The fold: redelivered envelopes change nothing and live envelopes leave no trace once the
      durable rows arrive ([redelivery_is_noop], [live_text_converges]); identities stay unique
      ([transcript_identities]); reverts undo exactly ([revert_roundtrip]); compaction only moves
      its marker ([compaction_moves_marker]); bills are never lost ([billed_stays_billed]); a
      Workflow run only moves forward ([workflow_runs_progress]); archiving is a protocol
      ([session_archive_protocol]).
    - The team: the session fold refines the team's step relation ([fold_refines_team]), whose
      reachable states are well formed ([team_addresses_canonical]); mail is delivered exactly once
      to exactly its recipients ([mail_sent_delivery]) and never lost ([team_history_grows]);
      addresses resolve as the address tables say ([resolve_in_scope_spec],
      [resolve_channel_table]).
    - Codecs and minting: [session_id_roundtrip], [snapshot_resumes_replay],
      [semantic_preimage_injective], [revision_identifies].
    - Permissions: the matcher decides the wildcard language ([glob_match_spec]); policies and
      checks follow one precedence on every branch ([evaluate_by_model], [assert_precedence],
      [authorize_outcome], [authorized_call_reach]); a remembered directory covers exactly itself
      in its own scope ([directory_grant_exact]); saved rows carry grants over a restart and
      nothing else ([install_uninstall], [remembered_after_restart]); and in every interleaving of
      checks no grant appears that was not answered for ([grants_accounted]).
    - The queue: a reply answers exactly the asks it should ([reply_answers_group]), every ask is
      answered at most once in any order of operations ([asks_answered_once]), and a tree switched to
      [yolo] never waits ([yolo_tree_never_waits]).
    - The Workflow compiler: exactly the documents of a declarative description compile, to what it
      says ([compile_source_exact]); levels are longest-path depths and cycles are found
      ([topological_levels_exact]); compiled plans are well formed ([compiled_well_formed]); errors
      point into the document ([compile_error_located]).  The renderer: every branch
      ([render_stage_exact]) and the text of evidence ([evidence_text_exact]).
    - Workflow runs: the iteration driver always stops within its caps ([driver_exact]); an
      execution returns a whole account of the plan when the agents it waits for settle ([execute_exact]), its
      durable log folds to that account ([execution_projected]), and an admitted run is closed exactly once
      ([finished_run_closed]).
    - Models and budgets: a turn opens at most one stream ([model_fallback_exact]), a Workflow's
      route is walked forward ([workflow_route_exact]) and every stream group has one outcome
      ([route_outcomes_once]); no unit of a budget is lost, and more than
      the budget is granted only by what is refunded behind the release of its root ([governor_conserves]).  A session
      runs one turn at a time and no wake-up of a queued claim is lost ([one_turn_per_session]); the end of a turn is told
      once ([turn_ends_observed]); a cancellation reaches its turn ([cancels_reach_turns]) but in one race
      ([racing_bind_loses_cancel]).
    - The store: whatever base a read starts from and whatever runs beside it, it returns the replay of
      the log ([reads_are_replays]); a lost claim fences ([actor_claims_fenced]); admitted units are
      returned once ([admissions_released_once]); a session is deleted with exactly its descendants
      ([delete_session_exact]); open turns are closed and stay closed ([close_open_turns_exact]);
      resumes are taken once ([handoff_resumed_once]); Workflow runs are admitted once and, when
      another process left them running, ended once ([workflow_run_admitted_once],
      [workflow_runs_recovered_once]); a stopped resident leaves nothing open ([resident_stopped_once]).
    - The updater: exactly the releases that fit the declarative description are accepted
      ([accepted_release_exact]); whatever processes work on a root and wherever they are cut off, it stays
      on a complete, signed release and never goes back ([updates_crash_safe]); a recovery with a readable
      journal gets through ([recovery_completes]); trust roots read back as written
      ([trust_roots_roundtrip]).
    - The relay: links are read back as printed ([relay_link_roundtrip]) and their errors show nothing of
      the keys ([link_errors_reveal_nothing]); a room belongs to the key its id is made of
      ([registration_authentic]); without its token a room cannot be told from one that is offline
      ([wrong_token_is_offline]), with it a stream opens ([link_opens_its_room]); every count is exact and
      bounded in any order of operations ([proxy_counts_exact]); streams end with their room
      ([streams_follow_rooms]); a leg is delivered at most once ([accept_delivered_once]); and what either side
      sends arrives in order, unchanged ([relay_carries_in_order]).
    - Theorems that show where the code departs from what it means: [duplicate_row_drops_subtree],
      [exact_star_row_widens], [related_row_left_unresolved], [snapshot_drops_null_metadata],
      [stray_terminator_accepted], [parse_verdict_panics], [goal_without_verification],
      [torn_journal_blocks], [racing_bind_loses_cancel], [empty_frame_ends_direction], [scheme_error_shows_fragment].

    ** Modelling choices and bounds

    Strings are byte strings (Rust's UTF-8 bytes; every operation modelled works on bytes, on ASCII
    or on character boundaries).  u64 counters are [N] with saturation at [2 ^ 64 - 1];
    [saturating_sub] is the truncating subtraction of [N].  Hash maps and sets are [gmap] and
    [gset]; vectors are lists, in order.  Searches from the back are modelled from the back.  Time
    is the [ts_millis] of the envelope.  Fuel is used where the source loops or recurses without a
    structural measure: minting (a bound on rejected draws, under the hypothesis that each block of
    entropy holds an acceptable byte), the run tree ([size lookup + 2] levels), the matcher
    ([glob_fuel], quadratic) and Kahn's rounds (one more than the stages); each is proved to be
    enough.  Asynchronous loops need no fuel: they are nodes of a [Task], and [wp] in the mode
    [Total] asks for a well-founded measure, so that its theorems say the code returns whatever the
    environment answers; waiting for an agent is the one loop with no bound of its own, and
    [execute_exact] says that it returns wherever, from some call on, the roster shows the agent settled.  Random bytes, UUIDs, JSON, YAML, regular expressions,
    SHA-256, interceptors, hooks, providers and the human are parameters or the environment.  In
    [PermissionPlane] a node of a program is one critical section of one mutex, so interleaving
    happens exactly where the source awaits.  A panic of the source (an index or a slice out of
    range) is a value of the model ([None], [Panicked]), not a default.
    A SQL statement is the function of the tables its text describes, constraints and triggers of the
    migrations included; a writer transaction ([BEGIN IMMEDIATE]) is one step, which commits whole or
    not at all; a read outside one is one step per statement.  Any step may fail, and the process may
    restart, which loses the cache.  The recursive query of [delete_session] runs as many rounds as
    there are sessions, which is enough ([tree_keys_spec]).  The JSON codec of events is a
    parameter; theorems that read events back assume that it keeps the events just written, and the text search of the
    recovery of runs is assumed to find the starts of runs among payloads the store wrote, not among others
    ([StoreLaws]).
    A call on the file system is one step of its process; it may fail, a write then after any part of
    the bytes, a removal after any part of the files, and a process may be killed between any two calls.
    What was written stays, in the order it was written: the model has processes that die, not power
    failures.  The lease of a killed process is free again.  A path is the list of its components.  No
    other program changes the updater's directory, no symbolic link leads into it, asking whether a path
    exists does not fail, and the smoke test leaves the directory alone.  Capability files are written
    elsewhere; packages are read from elsewhere and may change at any time.  serde_json is a parameter
    whose law for journal records is that a proper prefix of an object, or an object followed by more, does
    not parse ([JournalLaws]); signatures and SHA-256 are parameters without laws.
    The relay's base64url and base32, SHA-256 and HMAC are parameters with the laws of [RelayLaws] (decoding inverts
    encoding, alphabets, lengths); Ed25519 is one without laws.  An atomic counter wraps at [2 ^ 64];
    [proxy_counts_exact] shows that none does, for limits that leave the buffered bytes below it.  A drawn stream id is any
    id that is not pending.  What happens behind the release of the proxy's lock (the cancellation of a replaced or
    evicted room) or of the turn gate's is a step of its own.  A loop's timer is an event that may come at any turn, and the
    branches of a [select!] may be taken in any order.

    ** Not modelled yet, or not at all

    Serde's tags on events; the SQL engine, migrations and the lock file; provider, MCP and plugin protocols; the HTTP and gRPC server; user
    interfaces; file system and process I/O of tools; the semaphores of provider streams; file modes, the
    printing of the update commands and the release installer (release_install.rs), which runs a shell script.
    Not modelled although it could be: the control surface's admission of Workflow runs, loop mode,
    the queue of pending questions and the handoff of replies to a successor process, compaction,
    the relay's reconnecting client, its Noise tunnel and the token bucket that paces a stream,
    and the edit and patch algorithms of the file tools. *)

From stdpp Require Export base numbers list gmap strings fin_maps.
From Stdlib Require Export Ascii ZifyBool.
From stdpp Require Import sorting.

Declare Scope hya_scope.
Delimit Scope hya_scope with hya.
#[global] Open Scope string_scope.
#[global] Open Scope list_scope.
#[global] Open Scope hya_scope.

(** ** Functional record update

    [EtaRecord R] gives the eta expansion of a record; [set proj f r] is [r] with the field
    [proj] replaced by its image under [f].  The setter of a field is computed from the eta
    expansion by abstracting the projection, so a structure declares one instance and every
    field has its [&mut] access. *)

Class EtaRecord (R : Type) := eta_record : R -> R.

Class Setter {R T : Type} (proj : R -> T) := set : (T -> T) -> R -> R.
#[global] Arguments set {R T} proj {_} _ _ / : simpl nomatch.

Ltac solve_setter :=
  lazymatch goal with
  | |- @Setter ?R ?T ?proj =>
      let inst := constr:(_ : EtaRecord R) in
      let eta := eval hnf in inst in
      lazymatch eval pattern proj in eta with
      | ?F _ => let g := eval cbv beta in (fun (f : T -> T) => F (fun r => f (proj r))) in
          exact g
      end
  end.
#[global] Hint Extern 1 (Setter _) => solve_setter : typeclass_instances.

Notation "r <| proj ::= f |>" := (set proj f r)
  (at level 1, proj at level 0, f at level 99, left associativity,
   format "r  <| proj  ::=  f |>") : hya_scope.
Notation "r <| proj := v |>" := (set proj (fun _ => v) r)
  (at level 1, proj at level 0, v at level 99, left associativity,
   format "r  <| proj  :=  v |>") : hya_scope.

(** ** Automation *)

Create HintDb hya discriminated.
Create Rewrite HintDb hya_str.

(** Splits every [match], [if] and [decide] of the goal, closing what computes. *)
Ltac split_cases :=
  repeat first [progress simplify_eq/= | case_decide | case_match]; try done.

(** Case analysis on the first boolean test or [match] of a hypothesis. *)
Ltac split_in H :=
  repeat (first [progress simplify_eq/= | case_decide | case_match]; try done).

(** ** Machine integers

    Unsigned integers are numbers of type [N]; [umax w] is the largest of width [w], and
    [sat_add w] is [uW::saturating_add].  [saturating_sub] is the truncating subtraction of
    [N] itself. *)

Definition umax (w : N) : N := 2 ^ w - 1.
Definition sat_add (w a b : N) : N := N.min (a + b) (umax w).
Abbreviation u64_max := (umax 64).
Abbreviation u32_max := (umax 32).

Definition fits (w a : N) : Prop := (a <= umax w)%N.
#[global] Instance fits_dec w a : Decision (fits w a) := decide (a <= umax w)%N.

Section sat_add.
  Local Open Scope N_scope.
  Context (w : N).
  Implicit Types a b c : N.

Lemma sat_add_comm a b : sat_add w a b = sat_add w b a.
Proof. unfold sat_add. lia. Qed.

Lemma sat_add_assoc a b c : sat_add w a (sat_add w b c) = sat_add w (sat_add w a b) c.
Proof. unfold sat_add. lia. Qed.

Lemma sat_add_0_l a : fits w a -> sat_add w 0 a = a.
Proof. unfold sat_add, fits. lia. Qed.

Lemma sat_add_0_r a : fits w a -> sat_add w a 0 = a.
Proof. unfold sat_add, fits. lia. Qed.

Lemma sat_add_fits a b : fits w (sat_add w a b).
Proof. unfold sat_add, fits. lia. Qed.

Lemma sat_add_le_l a b : fits w a -> a <= sat_add w a b.
Proof. unfold sat_add, fits. lia. Qed.

Lemma sat_add_exact a b : a + b <= umax w -> sat_add w a b = a + b.
Proof. unfold sat_add. lia. Qed.
End sat_add.

#[export] Hint Resolve sat_add_fits : hya.

(** ** Slices: the searches of [Iterator] and the writes through [find]'s [&mut] *)

Section search.
  Context {A : Type} (P : A -> Prop) `{!forall x, Decision (P x)}.
  Implicit Types (l : list A) (f : A -> A).

(** [iter().find(P)] *)
Fixpoint find_first l : option A :=
  match l with
  | [] => None
  | x :: l' => if decide (P x) then Some x else find_first l'
  end.

(** [iter().position(P)] *)
Fixpoint position l : option nat :=
  match l with
  | [] => None
  | x :: l' => if decide (P x) then Some 0 else S <$> position l'
  end.

(** [if let Some(x) = iter_mut().find(P) { *x = f(x) }] *)
Fixpoint update_first f l : list A :=
  match l with
  | [] => []
  | x :: l' => if decide (P x) then f x :: l' else x :: update_first f l'
  end.

(** [iter().rev().find(P)] *)
Definition find_last l : option A := find_first (reverse l).

(** [if let Some(x) = iter_mut().rev().find(P) { *x = f(x) }] *)
Definition update_last f l : list A := reverse (update_first f (reverse l)).

Lemma find_first_Some l x : find_first l = Some x -> x ∈ l /\ P x.
Proof.
  induction l as [|y l IH]; simpl; [done|].
  case_decide; intros; simplify_eq; [split; [left|done]|].
  destruct IH; [done|]. split; [by right|done].
Qed.

Lemma find_first_split l x :
  find_first l = Some x <-> exists l1 l2, l = l1 ++ x :: l2 /\ P x /\ forall y, y ∈ l1 -> ~ P y.
Proof.
  split.
  - induction l as [|y l IH]; simpl; [done|]. case_decide as Hy; intros Hx.
    + injection Hx as <-. exists [], l. split_and!; [done..|]. by intros z ?%elem_of_nil.
    + destruct (IH Hx) as (l1 & l2 & -> & Hp & Hno). exists (y :: l1), l2. split_and!; [done..|].
      intros z [->|Hz]%elem_of_cons; [done|by apply Hno].
  - intros (l1 & l2 & -> & Hp & Hno). induction l1 as [|y l1 IH]; simpl; [by rewrite decide_True|].
    rewrite decide_False by (apply Hno; left). apply IH. intros z Hz. apply Hno. by right.
Qed.

Lemma find_first_None l : find_first l = None <-> Forall (fun x => ~ P x) l.
Proof.
  induction l as [|y l IH]; simpl; [done|].
  rewrite Forall_cons, <- ?IH. case_decide; split; try done; tauto.
Qed.

Lemma find_first_is_Some l : is_Some (find_first l) <-> Exists P l.
Proof.
  induction l as [|y l IH]; simpl.
  - rewrite Exists_nil. split; [by intros []|done].
  - rewrite Exists_cons, <- IH. case_decide; [|tauto]. split; eauto.
Qed.

Lemma find_last_Some l x : find_last l = Some x -> x ∈ l /\ P x.
Proof. intros [Hx HP]%find_first_Some. by rewrite elem_of_reverse in Hx. Qed.

Lemma find_last_None l : find_last l = None <-> Forall (fun x => ~ P x) l.
Proof.
  unfold find_last. rewrite find_first_None, !Forall_forall.
  by setoid_rewrite elem_of_reverse.
Qed.

Lemma position_Some l i :
  position l = Some i <->
  exists x, l !! i = Some x /\ P x /\ Forall (fun y => ~ P y) (take i l).
Proof.
  revert i; induction l as [|y l IH]; intros i; simpl.
  { split; [done|]. by intros (? & ? & _). }
  case_decide as HP.
  - split; [intros; simplify_eq/=; eauto|].
    intros (x & Hx & HPx & Hall). destruct i; [done|].
    simpl in Hall. by apply Forall_cons in Hall as [? _].
  - destruct (position l) as [j|] eqn:E; simpl.
    + split.
      * intros [= <-]. destruct (proj1 (IH j) eq_refl) as (x & ? & ? & ?).
        exists x; simpl; auto using Forall_cons.
      * intros (x & Hx & HPx & Hall). destruct i as [|i]; simplify_eq/=; [done|].
        apply Forall_cons in Hall as [_ Hall].
        f_equal. assert (Some j = Some i) by (apply IH; eauto). by simplify_eq.
    + split; [done|].
      intros (x & Hx & HPx & Hall). destruct i as [|i]; simplify_eq/=; [done|].
      apply Forall_cons in Hall as [_ Hall].
      assert (None = Some i) by (apply IH; eauto). done.
Qed.

Lemma position_None l : position l = None <-> Forall (fun x => ~ P x) l.
Proof.
  induction l as [|y l IH]; simpl; [done|].
  rewrite Forall_cons, <- IH. case_decide; destruct (position l); simpl; (split; [try done|]);
    intros [??]; done.
Qed.

Lemma length_update_first f l : length (update_first f l) = length l.
Proof. induction l; simpl; [done|]. case_decide; simpl; congruence. Qed.

Lemma update_first_id l : update_first (fun x => x) l = l.
Proof. induction l; simpl; [done|]. case_decide; congruence. Qed.

Lemma update_first_not f l : Forall (fun x => ~ P x) l -> update_first f l = l.
Proof. induction 1; simpl; [done|]. rewrite decide_False by done. congruence. Qed.

(** A key the update keeps is kept position by position. *)
Lemma update_first_key {K} (key : A -> K) f l :
  (forall x, P x -> key (f x) = key x) -> key <$> update_first f l = key <$> l.
Proof.
  intros Hf. induction l; [done|]. cbn.
  case_decide; cbn; [by rewrite Hf|]. f_equal. apply IHl.
Qed.

Lemma update_last_key {K} (key : A -> K) f l :
  (forall x, P x -> key (f x) = key x) -> key <$> update_last f l = key <$> l.
Proof.
  intros Hf. unfold update_last.
  by rewrite fmap_reverse, (update_first_key key), fmap_reverse, reverse_involutive.
Qed.

Lemma length_update_last f l : length (update_last f l) = length l.
Proof. unfold update_last. by rewrite length_reverse, length_update_first, length_reverse. Qed.

Lemma update_last_not f l : Forall (fun x => ~ P x) l -> update_last f l = l.
Proof.
  intros Hl. unfold update_last. rewrite update_first_not, reverse_involutive; [done|].
  by apply Forall_reverse.
Qed.

Lemma Forall_update_first (Q : A -> Prop) f l :
  (forall x, P x -> Q x -> Q (f x)) -> Forall Q l -> Forall Q (update_first f l).
Proof.
  intros Hf. induction 1; simpl; [constructor|]. case_decide; constructor; eauto.
Qed.

Lemma Forall_update_last (Q : A -> Prop) f l :
  (forall x, P x -> Q x -> Q (f x)) -> Forall Q l -> Forall Q (update_last f l).
Proof.
  intros Hf Hl. unfold update_last. apply Forall_reverse, Forall_update_first; [done|].
  by apply Forall_reverse.
Qed.

Lemma Forall2_update_first (R : A -> A -> Prop) f l :
  (forall x, R x x) -> (forall x, P x -> R x (f x)) -> Forall2 R l (update_first f l).
Proof.
  intros Hr Hf. induction l; simpl; [constructor|].
  case_decide; constructor; auto. clear -Hr. induction l; constructor; auto.
Qed.

Lemma Forall2_update_last (R : A -> A -> Prop) f l :
  (forall x, R x x) -> (forall x, P x -> R x (f x)) -> Forall2 R l (update_last f l).
Proof.
  intros Hr Hf. rewrite <- (reverse_involutive l) at 1. unfold update_last.
  apply Forall2_reverse, Forall2_update_first; auto.
Qed.

Lemma update_first_compose f g l :
  (forall x, P x -> P (g x)) -> update_first f (update_first g l) = update_first (f ∘ g) l.
Proof.
  intros Hg. induction l as [|x l IH]; simpl; [done|].
  case_decide; simpl; [by rewrite decide_True by auto|].
  rewrite decide_False by done. by rewrite IH.
Qed.

Lemma update_last_compose f g l :
  (forall x, P x -> P (g x)) -> update_last f (update_last g l) = update_last (f ∘ g) l.
Proof.
  intros Hg. unfold update_last. by rewrite reverse_involutive, update_first_compose.
Qed.

Lemma update_last_snoc f l x : P x -> update_last f (l ++ [x]) = l ++ [f x].
Proof.
  intros Hx. unfold update_last. rewrite reverse_snoc. simpl. rewrite decide_True by done.
  by rewrite reverse_cons, reverse_involutive.
Qed.

Lemma find_last_snoc l x : P x -> find_last (l ++ [x]) = Some x.
Proof. intros Hx. unfold find_last. rewrite reverse_snoc. simpl. by rewrite decide_True. Qed.

Lemma update_first_ext f g l :
  (forall x, P x -> f x = g x) -> update_first f l = update_first g l.
Proof.
  intros Hfg. induction l; simpl; [done|]. case_decide; [by rewrite Hfg|congruence].
Qed.

Lemma update_last_ext f g l :
  (forall x, P x -> f x = g x) -> update_last f l = update_last g l.
Proof. intros. unfold update_last. by rewrite (update_first_ext f g). Qed.

Lemma find_first_update_first f l :
  (forall x, P x -> P (f x)) -> find_first (update_first f l) = f <$> find_first l.
Proof.
  intros Hf. induction l; simpl; [done|].
  case_decide; simpl; [by rewrite decide_True by auto|]. by rewrite decide_False.
Qed.

Lemma find_last_update_last f l :
  (forall x, P x -> P (f x)) -> find_last (update_last f l) = f <$> find_last l.
Proof.
  intros Hf. unfold find_last, update_last.
  by rewrite reverse_involutive, find_first_update_first.
Qed.
End search.

(** [map.entry(k).or_insert(d)] followed by an update in place *)
Definition entry_update `{Countable K} {A} (k : K) (d : A) (f : A -> A) (m : gmap K A) : gmap K A :=
  <[k := f (default d (m !! k))]> m.

Lemma lookup_entry_update `{Countable K} {A} (k i : K) (d : A) f (m : gmap K A) :
  entry_update k d f m !! i = if decide (k = i) then Some (f (default d (m !! k))) else m !! i.
Proof.
  unfold entry_update. case_decide; simplify_eq; [apply lookup_insert_eq|by apply lookup_insert_ne].
Qed.

Lemma map_Forall_entry_update `{Countable K} {A} (P : K -> A -> Prop) (k : K) (d : A) f m :
  map_Forall P m -> (forall x, P k x -> P k (f x)) -> P k (f d) ->
  map_Forall P (entry_update k d f m).
Proof.
  intros Hm Hf Hd. apply map_Forall_insert_2; [|done].
  destruct (m !! k) eqn:E; simpl; eauto.
Qed.

Lemma map_Forall_alter `{Countable K} {A} (P : K -> A -> Prop) (k : K) f (m : gmap K A) :
  map_Forall P m -> (forall x, P k x -> P k (f x)) -> map_Forall P (alter f k m).
Proof.
  intros Hm Hf i x. rewrite lookup_alter_Some. intros [(<- & y & Hy & ->)|[_ Hx]]; eauto.
Qed.

(** Two updates that select disjoint rows commute. *)
Lemma update_first_comm {A} (P Q : A -> Prop) `{!forall x, Decision (P x)}
    `{!forall x, Decision (Q x)} (f g : A -> A) l :
  (forall x, P x -> ~ Q x) -> (forall x, P x -> P (f x)) -> (forall x, Q x -> Q (g x)) ->
  update_first P f (update_first Q g l) = update_first Q g (update_first P f l).
Proof.
  intros HPQ Hf Hg. induction l as [|x l IH]; simpl; [done|].
  destruct (decide (P x)), (decide (Q x)); simpl; try naive_solver.
  - rewrite (decide_True (P := P x)) by done.
    rewrite (decide_False (P := Q (f x))) by naive_solver. done.
  - rewrite (decide_True (P := Q x)) by done.
    rewrite (decide_False (P := P (g x))) by naive_solver. done.
  - rewrite !decide_False by done. by rewrite IH.
Qed.

Lemma update_last_comm {A} (P Q : A -> Prop) `{!forall x, Decision (P x)}
    `{!forall x, Decision (Q x)} (f g : A -> A) l :
  (forall x, P x -> ~ Q x) -> (forall x, P x -> P (f x)) -> (forall x, Q x -> Q (g x)) ->
  update_last P f (update_last Q g l) = update_last Q g (update_last P f l).
Proof.
  intros. unfold update_last. rewrite !reverse_involutive. by rewrite update_first_comm.
Qed.

(** With unique keys the search from the back finds the row the search from the front does. *)
Lemma find_first_unique {A K} `{EqDecision K} (key : A -> K) k l x :
  NoDup (key <$> l) -> x ∈ l -> key x = k -> find_first (fun y => key y = k) l = Some x.
Proof.
  induction l as [|y l IH]; [by intros _ ?%not_elem_of_nil|].
  rewrite fmap_cons, NoDup_cons. intros [Hy Hnd] Hx Hk. simpl.
  apply elem_of_cons in Hx as [->|Hx]; [by rewrite decide_True|].
  rewrite decide_False; [by apply IH|].
  intros Heq. apply Hy. rewrite Heq, <- Hk. by apply list_elem_of_fmap_2.
Qed.

Lemma find_last_find_first {A K} `{EqDecision K} (key : A -> K) k (l : list A) :
  NoDup (key <$> l) ->
  find_last (fun y => key y = k) l = find_first (fun y => key y = k) l.
Proof.
  intros Hnd. destruct (find_first _ l) as [x|] eqn:E.
  - apply find_first_Some in E as [Hx Hk]. unfold find_last.
    apply find_first_unique; [|by rewrite elem_of_reverse|done].
    by rewrite fmap_reverse, reverse_Permutation.
  - apply find_first_None in E. by apply find_last_None.
Qed.

(** * Ordered maps ([std::collections::BTreeMap], [BTreeSet])

    A map is a [gmap]; iteration follows the order of the keys, which for [String] is the
    lexicographic order of the bytes. *)

Definition key_le {A} (x y : string * A) : Prop := String.leb x.1 y.1 = true.
#[global] Instance key_le_dec {A} : RelDecision (@key_le A) := fun x y => decide (_ = true).

(** [map.iter()] *)
Definition btree_list {A} (m : gmap string A) : list (string * A) := merge_sort key_le (map_to_list m).

(** [map.keys()] *)
Definition btree_keys {A} (m : gmap string A) : list string := (btree_list m).*1.

Section btree.
Context {A : Type}.
Implicit Types m : gmap string A.

Lemma btree_list_Permutation m : btree_list m ≡ₚ map_to_list m.
Proof. apply merge_sort_Permutation. Qed.

Lemma btree_list_elem m k x : (k, x) ∈ btree_list m <-> m !! k = Some x.
Proof. rewrite btree_list_Permutation. apply elem_of_map_to_list. Qed.

Lemma btree_keys_elem m k : k ∈ btree_keys m <-> is_Some (m !! k).
Proof.
  unfold btree_keys. rewrite list_elem_of_fmap. split.
  - intros ([k' x] & -> & H%btree_list_elem). eauto.
  - intros [x Hx]. exists (k, x). split; [done|]. by apply btree_list_elem.
Qed.

Lemma btree_keys_NoDup m : NoDup (btree_keys m).
Proof. unfold btree_keys. rewrite btree_list_Permutation. apply NoDup_fst_map_to_list. Qed.

Lemma btree_filter_elem (P : string * A -> Prop) `{!forall x, Decision (P x)} m k :
  k ∈ (filter P (btree_list m)).*1 <-> exists x, m !! k = Some x /\ P (k, x).
Proof.
  rewrite list_elem_of_fmap. split.
  - intros ([i x] & -> & [HP Hin]%list_elem_of_filter). apply btree_list_elem in Hin. eauto.
  - intros (x & Hx & HP). exists (k, x). split; [done|]. apply list_elem_of_filter.
    split; [done|]. by apply btree_list_elem.
Qed.

(** The listing determines the map. *)
Lemma btree_list_inj m1 m2 : btree_list m1 = btree_list m2 -> m1 = m2.
Proof.
  intros Heq. apply map_eq. intros k. apply option_eq. intros x.
  by rewrite <- !btree_list_elem, Heq.
Qed.

Lemma btree_list_nil m : btree_list m = [] <-> m = ∅.
Proof.
  split; [|by intros ->]. intros Heq. apply btree_list_inj. rewrite Heq. done.
Qed.
End btree.
