(* ===== verification/Result.v ===== *)
(** * Fallible code

    [Result<A, E>] is [A + E].  [let? p := e in k] is [let p = e?; k]; [try_fold] and [try_map] are
    loops whose body may leave the function with an error. *)

From S2P Require Import Prelude.

Notation "'let?' p ':=' e 'in' k" :=
  (match e with inl p => k | inr err => inr err end)
  (at level 200, p pattern, k at level 200, format "'[v' 'let?'  p  ':='  e  'in' '/' k ']'") : hya_scope.

Definition is_ok {A E} (r : A + E) : bool := match r with inl _ => true | inr _ => false end.

(** [ok_or]: the error [e] unless [b] *)
Definition ensure {E} (b : bool) (e : E) : unit + E := if b then inl tt else inr e.

Section loops.
Context {A S E : Type}.
Implicit Types (f : S -> A -> S + E) (xs : list A).

(** [for x in xs { s = f(s, x)? }] *)
Fixpoint try_fold f (s : S) xs : S + E :=
  match xs with
  | [] => inl s
  | x :: xs => let? s := f s x in try_fold f s xs
  end.

Lemma try_fold_app f s xs ys :
  try_fold f s (xs ++ ys) = let? s := try_fold f s xs in try_fold f s ys.
Proof. revert s; induction xs as [|x xs IH]; intros s; simpl; [done|]. by destruct (f s x). Qed.

(** An invariant of the successful iterations, with the part of the list done so far. *)
Lemma try_fold_invariant (P : list A -> S -> Prop) f s xs s' :
  P [] s ->
  (forall done x rest s s', xs = done ++ x :: rest -> P done s -> f s x = inl s' -> P (done ++ [x]) s') ->
  try_fold f s xs = inl s' -> P xs s'.
Proof.
  intros H0 Hstep. assert (forall pre post s, xs = pre ++ post -> P pre s ->
    try_fold f s post = inl s' -> P xs s') as Hgen; [|by apply (Hgen [] xs)].
  intros pre post; revert pre; induction post as [|x post IH]; intros pre s0 Heq HP; simpl.
  - intros [= <-]. by rewrite Heq, app_nil_r.
  - destruct (f s0 x) as [s1|] eqn:E1; [|done].
    apply (IH (pre ++ [x])); [by rewrite <- app_assoc|by eapply Hstep].
Qed.

Lemma try_fold_preserves (P : S -> Prop) f s xs s' :
  P s -> (forall s x s', x ∈ xs -> P s -> f s x = inl s' -> P s') ->
  try_fold f s xs = inl s' -> P s'.
Proof.
  intros H0 Hf. apply (try_fold_invariant (fun _ => P)); [done|].
  intros done x rest s1 s2 -> ? ?. eapply Hf; [|done..]. set_solver.
Qed.

(** An error comes from one iteration, after the ones before it succeeded. *)
Lemma try_fold_error f s xs e :
  try_fold f s xs = inr e ->
  exists pre x post s1, xs = pre ++ x :: post /\ try_fold f s pre = inl s1 /\ f s1 x = inr e.
Proof.
  revert s; induction xs as [|x xs IH]; intros s; simpl; [done|].
  destruct (f s x) as [s1|e1] eqn:E1.
  - intros (pre & y & post & s2 & -> & Hpre & Hy)%IH. exists (x :: pre), y, post, s2.
    simpl. by rewrite E1.
  - intros [= <-]. by exists [], x, xs, s.
Qed.
End loops.

(** [for x in xs { f(x)? }] *)
Definition try_each {A E} (f : A -> unit + E) (xs : list A) : unit + E :=
  try_fold (fun _ x => f x) tt xs.

Lemma try_each_ok {A E} (f : A -> unit + E) xs :
  try_each f xs = inl tt <-> Forall (fun x => f x = inl tt) xs.
Proof.
  unfold try_each. induction xs as [|x xs IH]; simpl; [done|].
  rewrite Forall_cons, <- IH. destruct (f x) as [[]|]; simpl; naive_solver.
Qed.

Lemma try_each_error {A E} (f : A -> unit + E) xs e :
  try_each f xs = inr e -> exists x, x ∈ xs /\ f x = inr e.
Proof.
  intros (pre & x & post & [] & -> & _ & Hx)%try_fold_error. exists x. split; [set_solver|done].
Qed.

(** [xs.iter().map(f).collect::<Result<Vec<_>, _>>()], and the [push] loops of the sources *)
Fixpoint try_map {A B E} (f : A -> B + E) (xs : list A) : list B + E :=
  match xs with
  | [] => inl []
  | x :: xs => let? y := f x in let? ys := try_map f xs in inl (y :: ys)
  end.

Lemma try_map_ok {A B E} (f : A -> B + E) xs ys :
  try_map f xs = inl ys <-> Forall2 (fun x y => f x = inl y) xs ys.
Proof.
  revert ys; induction xs as [|x xs IH]; intros ys; simpl.
  - split; [intros [= <-]; constructor|by inversion 1].
  - split.
    + destruct (f x) as [y|] eqn:Ex; [|done]. destruct (try_map f xs) as [zs|]; [|done].
      intros [= <-]. constructor; [done|]. by apply IH.
    + inversion 1 as [|? y ? zs Hy Hzs]; subst. rewrite Hy. apply IH in Hzs. by rewrite Hzs.
Qed.

Lemma try_map_error {A B E} (f : A -> B + E) xs e :
  try_map f xs = inr e -> exists x, x ∈ xs /\ f x = inr e.
Proof.
  induction xs as [|x xs IH]; simpl; [done|].
  destruct (f x) as [y|e1] eqn:Ex; [|intros [= <-]; exists x; split; [left|done]].
  destruct (try_map f xs); [done|]. intros [= <-]. destruct IH as (z & Hz & Hfz); [done|].
  exists z. split; [by right|done].
Qed.

(** [opt.map(f).transpose()] *)
Definition try_option {A B E} (f : A -> B + E) (x : option A) : option B + E :=
  match x with None => inl None | Some x => let? y := f x in inl (Some y) end.

Lemma try_option_ok {A B E} (f : A -> B + E) x y :
  try_option f x = inl y <-> option_Forall2 (fun x y => f x = inl y) x y.
Proof.
  destruct x as [x|]; simpl; [destruct (f x) as [z|] eqn:Ez|]; split; try done.
  - intros [= <-]. by constructor.
  - inversion 1; subst. congruence.
  - inversion 1; subst. congruence.
  - intros [= <-]. constructor.
  - by inversion 1.
Qed.
