(* ===== verification/RustStr.v ===== *)
(** * Rust string slices

    [&str] is the byte string of its UTF-8 encoding, as [str::as_bytes] gives it, so that a
    comparison, a prefix test, a split at an ASCII separator and [len] mean what they mean in
    the source.  This file holds the [std] methods the program calls ([contains], [rsplit_once],
    [split_once], [strip_prefix], [strip_suffix], [trim], [to_ascii_lowercase], the ASCII
    classes) and their lemmas. *)

From S2P Require Import Prelude.

#[global] Arguments String.append : simpl nomatch.

(** ** Bytes *)

Definition byte_val (c : ascii) : N := N_of_ascii c.

Definition in_range (lo hi : N) (c : ascii) : bool :=
  (lo <=? byte_val c)%N && (byte_val c <=? hi)%N.

Definition is_ascii_digit : ascii -> bool := in_range 48 57.
Definition is_ascii_uppercase : ascii -> bool := in_range 65 90.
Definition is_ascii_lowercase : ascii -> bool := in_range 97 122.
Definition is_ascii_alphabetic (c : ascii) : bool := is_ascii_uppercase c || is_ascii_lowercase c.
Definition is_ascii_alphanumeric (c : ascii) : bool := is_ascii_alphabetic c || is_ascii_digit c.
Definition is_ascii_hexdigit (c : ascii) : bool := is_ascii_digit c || in_range 97 102 c || in_range 65 70 c.

Definition ascii_lower (c : ascii) : ascii :=
  if is_ascii_uppercase c then ascii_of_N (byte_val c + 32) else c.

(** [s.bytes().all(p)] *)
Fixpoint bytes_all (p : ascii -> bool) (s : string) : bool :=
  match s with
  | EmptyString => true
  | String c s' => p c && bytes_all p s'
  end.

(** [s.to_ascii_lowercase()] *)
Fixpoint to_ascii_lowercase (s : string) : string :=
  match s with
  | EmptyString => EmptyString
  | String c s' => String (ascii_lower c) (to_ascii_lowercase s')
  end.

(** [s.is_empty()] *)
Definition is_empty (s : string) : bool := match s with EmptyString => true | _ => false end.

(** ** Searching and splitting *)

(** [s.contains(c)] for an ASCII [c] *)
Fixpoint contains (c : ascii) (s : string) : bool :=
  match s with
  | EmptyString => false
  | String d s' => bool_decide (d = c) || contains c s'
  end.

(** [s.split_once(c)]: at the first separator *)
Fixpoint split_once (c : ascii) (s : string) : option (string * string) :=
  match s with
  | EmptyString => None
  | String d s' =>
      if decide (d = c) then Some (EmptyString, s')
      else match split_once c s' with
           | Some (l, r) => Some (String d l, r)
           | None => None
           end
  end.

(** [s.rsplit_once(c)]: at the last separator *)
Fixpoint rsplit_once (c : ascii) (s : string) : option (string * string) :=
  match s with
  | EmptyString => None
  | String d s' =>
      match rsplit_once c s' with
      | Some (l, r) => Some (String d l, r)
      | None => if decide (d = c) then Some (EmptyString, s') else None
      end
  end.

(** [s.strip_prefix(p)] *)
Fixpoint strip_prefix (p s : string) : option string :=
  match p, s with
  | EmptyString, _ => Some s
  | String c p', String d s' => if decide (c = d) then strip_prefix p' s' else None
  | String _ _, EmptyString => None
  end.

(** [s.strip_suffix(p)] *)
Fixpoint strip_suffix (p s : string) : option string :=
  if decide (s = p) then Some EmptyString
  else match s with
       | EmptyString => None
       | String c s' => String c <$> strip_suffix p s'
       end.

(** ** Whitespace

    [char::is_whitespace] is the Unicode [White_Space] property.  Its 25 characters have UTF-8
    encodings of one byte (U+0009 to U+000D, U+0020), two bytes (U+0085, U+00A0) or three bytes
    (U+1680, U+2000 to U+200A, U+2028, U+2029, U+202F, U+205F, U+3000). *)

Definition ws1 (a : ascii) : bool := in_range 9 13 a || (byte_val a =? 32)%N.
Definition ws2 (a b : ascii) : bool :=
  (byte_val a =? 0xC2)%N && ((byte_val b =? 0x85)%N || (byte_val b =? 0xA0)%N).
Definition ws3 (a b c : ascii) : bool :=
  let a := byte_val a in let b := byte_val b in let c' := byte_val c in
  ((a =? 0xE1) && (b =? 0x9A) && (c' =? 0x80))%N
  || ((a =? 0xE2) && (b =? 0x80)
      && (in_range 0x80 0x8A c || (c' =? 0xA8) || (c' =? 0xA9) || (c' =? 0xAF)))%N
  || ((a =? 0xE2) && (b =? 0x81) && (c' =? 0x9F))%N
  || ((a =? 0xE3) && (b =? 0x80) && (c' =? 0x80))%N.

Fixpoint trim_start (s : string) : string :=
  match s with
  | EmptyString => s
  | String a s1 =>
      if ws1 a then trim_start s1
      else match s1 with
           | EmptyString => s
           | String b s2 =>
               if ws2 a b then trim_start s2
               else match s2 with
                    | EmptyString => s
                    | String c s3 => if ws3 a b c then trim_start s3 else s
                    end
           end
  end.

Fixpoint rev_append (s acc : string) : string :=
  match s with
  | EmptyString => acc
  | String c s' => rev_append s' (String c acc)
  end.
Definition rev_string (s : string) : string := rev_append s EmptyString.

(** Strips whitespace characters off the front of a reversed byte string. *)
Fixpoint trim_rev (s : string) : string :=
  match s with
  | EmptyString => s
  | String a s1 =>
      if ws1 a then trim_rev s1
      else match s1 with
           | EmptyString => s
           | String b s2 =>
               if ws2 b a then trim_rev s2
               else match s2 with
                    | EmptyString => s
                    | String c s3 => if ws3 c b a then trim_rev s3 else s
                    end
           end
  end.

Definition trim_end (s : string) : string := rev_string (trim_rev (rev_string s)).

(** [s.trim()] *)
Definition trim (s : string) : string := trim_end (trim_start s).

(** ** Lemmas *)

Lemma app_assoc_str (a b c : string) : a +:+ (b +:+ c) = (a +:+ b) +:+ c.
Proof. induction a; simpl; congruence. Qed.

Lemma app_nil_r_str (a : string) : a +:+ EmptyString = a.
Proof. induction a; simpl; congruence. Qed.

Lemma length_app_str (a b : string) :
  String.length (a +:+ b) = (String.length a + String.length b)%nat.
Proof. induction a; simpl; congruence. Qed.

Lemma app_inj_l_str (a b c : string) : a +:+ b = a +:+ c -> b = c.
Proof. induction a; simpl; [done|]. intros [= ?]; auto. Qed.

Lemma contains_app c a b : contains c (a +:+ b) = contains c a || contains c b.
Proof. induction a as [|d a IH]; simpl; [done|]. rewrite IH. by destruct (bool_decide _). Qed.

Lemma rsplit_once_app c l r :
  contains c r = false -> rsplit_once c (l +:+ String c r) = Some (l, r).
Proof.
  intros Hr. induction l as [|d l IH]; simpl; [|by rewrite IH].
  assert (rsplit_once c r = None) as ->.
  { clear -Hr. induction r as [|d r IH]; simpl in *; [done|].
    apply orb_false_iff in Hr as [Hd Hr]. apply bool_decide_eq_false in Hd.
    rewrite IH by done. by rewrite decide_False. }
  by rewrite decide_True.
Qed.

Lemma rsplit_once_None c s : rsplit_once c s = None <-> contains c s = false.
Proof.
  induction s as [|d s IH]; simpl; [done|].
  destruct (rsplit_once c s) as [[l r]|].
  - split; [done|]. intros [_ Hs]%orb_false_iff. apply IH in Hs. done.
  - rewrite (proj1 IH) by done. rewrite orb_false_r.
    case_decide; case_bool_decide; done.
Qed.

Lemma rsplit_once_Some c s l r :
  rsplit_once c s = Some (l, r) <-> s = l +:+ String c r /\ contains c r = false.
Proof.
  split.
  - revert l r; induction s as [|d s IH]; intros l r; simpl; [done|].
    destruct (rsplit_once c s) as [[l' r']|] eqn:E.
    + intros; simplify_eq/=. destruct (IH l' r) as [-> ?]; done.
    + case_decide; [|done]. intros; simplify_eq/=. split; [done|].
      by apply rsplit_once_None.
  - intros [-> Hr]. by apply rsplit_once_app.
Qed.

Lemma split_once_app c l r :
  contains c l = false -> split_once c (l +:+ String c r) = Some (l, r).
Proof.
  induction l as [|d l IH]; simpl; [by rewrite decide_True|].
  intros [Hd Hl]%orb_false_iff. apply bool_decide_eq_false in Hd.
  rewrite decide_False by done. by rewrite IH.
Qed.

Lemma split_once_Some c s l r :
  split_once c s = Some (l, r) <-> s = l +:+ String c r /\ contains c l = false.
Proof.
  split.
  - revert l r; induction s as [|d s IH]; intros l r; simpl; [done|].
    case_decide; [intros; simplify_eq/=; done|].
    destruct (split_once c s) as [[l' r']|] eqn:E; [|done].
    intros; simplify_eq/=. destruct (IH l' r) as [-> ->]; [done|].
    rewrite bool_decide_eq_false_2; done.
  - intros [-> Hl]. by apply split_once_app.
Qed.

Lemma split_once_None c s : split_once c s = None <-> contains c s = false.
Proof.
  induction s as [|d s IH]; simpl; [done|].
  case_decide; [rewrite bool_decide_eq_true_2; done|].
  rewrite bool_decide_eq_false_2 by done. simpl.
  destruct (split_once c s) as [[]|]; rewrite <- IH; done.
Qed.

Lemma strip_prefix_app p s : strip_prefix p (p +:+ s) = Some s.
Proof. induction p; simpl; [by destruct s|]. by rewrite decide_True. Qed.

Lemma strip_prefix_Some p s r : strip_prefix p s = Some r <-> s = p +:+ r.
Proof.
  split; [|intros ->; apply strip_prefix_app].
  revert s; induction p as [|c p IH]; intros s; simpl; [by intros [= ->]|].
  destruct s as [|d s]; [done|]. case_decide; [|done]. subst.
  intros ?%IH. by subst.
Qed.

Lemma strip_suffix_app p s : strip_suffix p (s +:+ p) = Some s.
Proof.
  induction s as [|c s IH]; simpl.
  - destruct p; simpl; [done|]. by case_decide.
  - rewrite decide_False; [by rewrite IH|].
    intros Heq%(f_equal String.length). simpl in Heq. rewrite length_app_str in Heq. lia.
Qed.

Lemma strip_suffix_Some p s r : strip_suffix p s = Some r <-> s = r +:+ p.
Proof.
  split; [|intros ->; apply strip_suffix_app].
  revert r; induction s as [|c s IH]; intros r; simpl.
  - case_decide; [|done]. intros [= <-]. done.
  - case_decide; [by intros [= <-]|].
    destruct (strip_suffix p s) eqn:E; simpl; [|done]. intros [= <-].
    simpl. f_equal. by apply IH.
Qed.

Lemma bytes_all_app p a b : bytes_all p (a +:+ b) = bytes_all p a && bytes_all p b.
Proof. induction a; simpl; [done|]. rewrite IHa. by rewrite andb_assoc. Qed.

Lemma bytes_all_contains p c s :
  bytes_all p s = true -> p c = false -> contains c s = false.
Proof.
  intros Hs Hc. induction s as [|d s IH]; simpl in *; [done|].
  apply andb_true_iff in Hs as [Hd Hs]. rewrite IH by done.
  rewrite bool_decide_eq_false_2; [done|]. intros ->. congruence.
Qed.

#[export] Hint Rewrite contains_app bytes_all_app strip_prefix_app strip_suffix_app : hya_str.

(** ** Trimming *)

Lemma rev_append_spec s acc : rev_append s acc = rev_string s +:+ acc.
Proof.
  unfold rev_string. revert acc. assert (forall acc acc',
    rev_append s (acc +:+ acc') = rev_append s acc +:+ acc') as H.
  { induction s as [|c s IH]; intros acc acc'; simpl; [done|]. by rewrite <- IH. }
  intros acc. by rewrite <- H.
Qed.

Lemma rev_string_cons c s : rev_string (String c s) = rev_string s +:+ String c EmptyString.
Proof. unfold rev_string at 1. simpl. apply rev_append_spec. Qed.

Lemma rev_string_app a b : rev_string (a +:+ b) = rev_string b +:+ rev_string a.
Proof.
  induction a as [|c a IH]; simpl; [by rewrite app_nil_r_str|].
  by rewrite !rev_string_cons, IH, app_assoc_str.
Qed.

Lemma rev_string_involutive s : rev_string (rev_string s) = s.
Proof.
  induction s as [|c s IH]; [done|].
  by rewrite rev_string_cons, rev_string_app, IH.
Qed.

Lemma bytes_all_rev p s : bytes_all p (rev_string s) = bytes_all p s.
Proof.
  induction s as [|c s IH]; [done|].
  rewrite rev_string_cons, bytes_all_app, IH. simpl. by rewrite andb_true_r, andb_comm.
Qed.

(** Visible ASCII: neither a space nor part of a multi-byte character. *)
Definition is_ascii_graphic : ascii -> bool := in_range 33 126.

Lemma graphic_not_ws a :
  is_ascii_graphic a = true ->
  ws1 a = false /\ (forall b, ws2 a b = false) /\ (forall b, ws2 b a = false)
  /\ (forall b c, ws3 a b c = false) /\ (forall b c, ws3 b c a = false).
Proof.
  unfold is_ascii_graphic, ws1, ws2, ws3, in_range. cbv zeta. intros Ha.
  split_and!; intros; lia.
Qed.

Lemma trim_start_graphic s : bytes_all is_ascii_graphic s = true -> trim_start s = s.
Proof.
  destruct s as [|a s]; [done|]. intros [Ha _]%andb_true_iff.
  apply graphic_not_ws in Ha as (H1 & H2 & _ & H3 & _). cbn [trim_start]. rewrite H1.
  destruct s as [|b [|c s]]; [done|by rewrite H2|by rewrite H2, H3].
Qed.

Lemma trim_rev_graphic s : bytes_all is_ascii_graphic s = true -> trim_rev s = s.
Proof.
  destruct s as [|a s]; [done|]. intros [Ha _]%andb_true_iff.
  apply graphic_not_ws in Ha as (H1 & _ & H2 & _ & H3). cbn [trim_rev]. rewrite H1.
  destruct s as [|b [|c s]]; [done|by rewrite H2|by rewrite H2, H3].
Qed.

Lemma trim_graphic s : bytes_all is_ascii_graphic s = true -> trim s = s.
Proof.
  intros Hs. unfold trim, trim_end. rewrite trim_start_graphic by done.
  rewrite trim_rev_graphic by (by rewrite bytes_all_rev). apply rev_string_involutive.
Qed.

Lemma bytes_all_impl (p q : ascii -> bool) s :
  (forall c, p c = true -> q c = true) -> bytes_all p s = true -> bytes_all q s = true.
Proof.
  intros Hpq. induction s; simpl; [done|]. rewrite !andb_true_iff. intros [Hp Hall]. auto.
Qed.

Lemma alphanumeric_graphic c : is_ascii_alphanumeric c = true -> is_ascii_graphic c = true.
Proof.
  unfold is_ascii_alphanumeric, is_ascii_alphabetic, is_ascii_uppercase, is_ascii_lowercase,
    is_ascii_digit, is_ascii_graphic, in_range. lia.
Qed.

(** ** Hexadecimal digits ([{:x}] of the formatting macros) *)

Definition hex_digit (d : N) : ascii :=
  ascii_of_N (if (d <? 10)%N then 48 + d else 87 + d).

(** [{n:0kx}] for [n < 16 ^ k] *)
Fixpoint hex_n (k : nat) (n : N) : string :=
  match k with
  | O => EmptyString
  | S k' => String (hex_digit ((n / 16 ^ N.of_nat k') `mod` 16)) (hex_n k' n)
  end.

Lemma length_hex_n k n : String.length (hex_n k n) = k.
Proof. induction k; simpl; congruence. Qed.

(** [write!(formatter, "{byte:02x}")] for each byte *)
Fixpoint hex_bytes (s : string) : string :=
  match s with
  | EmptyString => EmptyString
  | String b s' => hex_n 2 (byte_val b) +:+ hex_bytes s'
  end.

Lemma length_hex_bytes s : String.length (hex_bytes s) = 2 * String.length s.
Proof.
  induction s as [|b s IH]; [done|]. cbn [hex_bytes String.length].
  rewrite length_app_str, length_hex_n, IH. lia.
Qed.

(** A decoder that inverts [hex_digit] inverts [hex_n]. *)
Section unhex.
  Context (unhex : ascii -> option N).
  Hypothesis unhex_digit : forall d, (d < 16)%N -> unhex (hex_digit d) = Some d.

Fixpoint unhex_n (s : string) (acc : N) : option N :=
  match s with
  | EmptyString => Some acc
  | String c s' => d ← unhex c; unhex_n s' (acc * 16 + d)%N
  end.

Lemma unhex_hex_n k n acc :
  unhex_n (hex_n k n) acc = Some (acc * 16 ^ N.of_nat k + n `mod` 16 ^ N.of_nat k)%N.
Proof.
  revert acc; induction k as [|k IH]; intros acc.
  { simpl. f_equal. rewrite N.mod_1_r. lia. }
  cbn [hex_n unhex_n]. rewrite unhex_digit by (apply N.mod_lt; lia).
  cbn [mbind option_bind]. rewrite IH. f_equal.
  rewrite Nat2N.inj_succ, N.pow_succ_r'.
  assert (16 ^ N.of_nat k <> 0)%N by (apply N.pow_nonzero; lia).
  rewrite (N.mul_comm 16), N.Div0.mod_mul_r by done. lia.
Qed.
End unhex.

(** ** Big-endian bytes ([to_be_bytes]) *)

Fixpoint be_bytes (k : nat) (n : N) : string :=
  match k with
  | O => EmptyString
  | S k' => String (ascii_of_N ((n / 256 ^ N.of_nat k') `mod` 256)) (be_bytes k' n)
  end.

Lemma length_be_bytes k n : String.length (be_bytes k n) = k.
Proof. induction k; simpl; congruence. Qed.

Lemma be_bytes_mod k n m :
  be_bytes k n = be_bytes k m ->
  (n `mod` 256 ^ N.of_nat k = m `mod` 256 ^ N.of_nat k)%N.
Proof.
  induction k as [|k IH]; [by rewrite !N.mod_1_r|].
  cbn [be_bytes]. intros [= Hd Hr]. apply IH in Hr.
  apply (f_equal N_of_ascii) in Hd. rewrite !N_ascii_embedding in Hd by (apply N.mod_lt; lia).
  rewrite Nat2N.inj_succ, N.pow_succ_r'.
  assert (256 ^ N.of_nat k <> 0)%N by (apply N.pow_nonzero; lia).
  rewrite (N.mul_comm 256), !N.Div0.mod_mul_r by done. by rewrite Hr, Hd.
Qed.

Lemma be_bytes_inj k n m :
  (n < 256 ^ N.of_nat k)%N -> (m < 256 ^ N.of_nat k)%N -> be_bytes k n = be_bytes k m -> n = m.
Proof.
  intros Hn Hm Heq%be_bytes_mod. by rewrite !N.mod_small in Heq.
Qed.

(** * Prefix codes

    Byte encoders that append to an accumulator, [None] when a length does not fit in 64 bits: tags,
    counts, counted byte strings and lists.  Such an encoder is a [code] when what it appends can be
    read back whatever follows it; the combinators build the codes of records from those of their
    fields. *)

(** ** Encoders *)

Definition byte (n : N) : string := String (ascii_of_N n) EmptyString.

(** [u64::try_from(count).ok()?], then its bytes *)
Definition append_count (bytes : string) (count : nat) : option string :=
  if decide (N.of_nat count <= u64_max)%N then Some (bytes +:+ be_bytes 8 (N.of_nat count)) else None.

Definition append_bytes (bytes value : string) : option string :=
  bytes ← append_count bytes (String.length value); Some (bytes +:+ value).

(** [for x in xs { f(bytes, x)? }] *)
Fixpoint append_each {A} (f : string -> A -> option string) (bytes : string) (xs : list A) :
    option string :=
  match xs with
  | [] => Some bytes
  | x :: xs => bytes ← f bytes x; append_each f bytes xs
  end.

(** ** Every encoder is a prefix code

    An encoder extends its accumulator, and when two encodings after accumulators of one length
    agree up to what follows them, the accumulators, what was encoded (seen through [view]) and the
    outputs are the same. *)
Definition code {A B} (f : string -> A -> option string) (view : A -> B) : Prop :=
  (forall b x o, f b x = Some o -> exists e, o = b +:+ e)
  /\ forall b1 b2 x y o1 o2 r s, f b1 x = Some o1 -> f b2 y = Some o2 ->
     String.length b1 = String.length b2 -> o1 +:+ r = o2 +:+ s ->
     b1 = b2 /\ view x = view y /\ o1 = o2.

Lemma string_app_inj_length a1 a2 b1 b2 :
  String.length a1 = String.length a2 -> a1 +:+ b1 = a2 +:+ b2 -> a1 = a2 /\ b1 = b2.
Proof.
  revert a2. induction a1 as [|c a1 IH]; intros [|c2 a2] Hl Heq; simplify_eq/=; [done|].
  destruct (IH a2) as [-> ->]; done.
Qed.

Lemma byte_code {A} (c : A -> N) :
  (forall x y, c x = c y -> x = y) -> (forall x, c x < 256)%N ->
  code (fun b x => Some (b +:+ byte (c x))) id.
Proof.
  intros Hinj Hlt. split; [intros b x o [= <-]; eauto|].
  intros b1 b2 x y o1 o2 r s [= <-] [= <-] Hl Heq. rewrite <- !app_assoc_str in Heq.
  apply string_app_inj_length in Heq as [-> Heq]; [|done]. injection Heq as Heq _.
  assert (x = y) as ->; [|done]. apply Hinj.
  by rewrite <- (N_ascii_embedding (c x)), Heq, N_ascii_embedding by done.
Qed.

Lemma count_code : code append_count id.
Proof.
  unfold append_count. split.
  - intros b n o. case_decide; [|done]. intros [= <-]. eauto.
  - intros b1 b2 n m o1 o2 r s H1 H2 Hl Heq.
    case_decide as Hn; [|done]. case_decide as Hm; [|done]. simplify_eq.
    rewrite <- !app_assoc_str in Heq. apply string_app_inj_length in Heq as [-> Heq]; [|done].
    apply string_app_inj_length in Heq as [Heq _]; [|by rewrite !length_be_bytes].
    split; [done|]. rewrite Heq. split; [|done]. unfold id. apply Nat2N.inj, (be_bytes_inj 8); [| |done];
      change (256 ^ N.of_nat 8)%N with (u64_max + 1)%N; lia.
Qed.

Lemma bytes_code : code append_bytes id.
Proof.
  destruct count_code as [Hext Hdec]. unfold append_bytes. split.
  - intros b v o. destruct (append_count b _) as [c|] eqn:E; [|done]. intros [= <-].
    apply Hext in E as [e ->]. rewrite <- app_assoc_str. eauto.
  - intros b1 b2 v1 v2 o1 o2 r s H1 H2 Hl Heq.
    destruct (append_count b1 _) as [c1|] eqn:E1; [|done].
    destruct (append_count b2 _) as [c2|] eqn:E2; [|done]. simplify_eq/=.
    rewrite <- !app_assoc_str in Heq.
    destruct (Hdec _ _ _ _ _ _ _ _ E1 E2 Hl Heq) as (-> & Hv & ->).
    apply string_app_inj_length in Heq as [_ Heq]; [|done].
    by apply string_app_inj_length in Heq as [-> _].
Qed.

(** Encoding one component after another. *)
Lemma pair_code {A B C D E} (f : string -> B -> option string) (g : string -> D -> option string)
    (vf : B -> C) (vg : D -> E) (p : A -> B) (q : A -> D) :
  code f vf -> code g vg ->
  code (fun b x => c ← f b (p x); g c (q x)) (fun x => (vf (p x), vg (q x))).
Proof.
  intros [Hf1 Hf2] [Hg1 Hg2]. split.
  - intros b x o. destruct (f b (p x)) as [c|] eqn:Ec; [|done]. simpl. intros Ho.
    apply Hf1 in Ec as [e ->]. apply Hg1 in Ho as [e' ->]. rewrite <- app_assoc_str. eauto.
  - intros b1 b2 x y o1 o2 r s H1 H2 Hl Heq.
    destruct (f b1 (p x)) as [c1|] eqn:E1; [|done]. destruct (f b2 (p y)) as [c2|] eqn:E2; [|done].
    simpl in *. pose proof Heq as Heq'.
    destruct (Hg1 _ _ _ H1) as [e1 ->]. destruct (Hg1 _ _ _ H2) as [e2 ->].
    rewrite <- !app_assoc_str in Heq'.
    destruct (Hf2 _ _ _ _ _ _ _ _ E1 E2 Hl Heq') as (-> & -> & ->).
    by destruct (Hg2 _ _ _ _ _ _ _ _ H1 H2 eq_refl Heq) as (_ & -> & ->).
Qed.

Lemma code_ext {A B} (f g : string -> A -> option string) (view : A -> B) :
  (forall b x, f b x = g b x) -> code f view -> code g view.
Proof.
  intros H [Hf1 Hf2]. split; [intros *|intros *]; rewrite <- !H; [apply Hf1|apply Hf2].
Qed.

Lemma code_view {A B C} (f : string -> A -> option string) (view : A -> B) (view' : A -> C) :
  (forall x y, view x = view y -> view' x = view' y) -> code f view -> code f view'.
Proof.
  intros H [Hf1 Hf2]. split; [done|]. intros * H1 H2 Hl Heq.
  destruct (Hf2 _ _ _ _ _ _ _ _ H1 H2 Hl Heq) as (? & ? & ?). eauto.
Qed.

(** A counted list. *)
Lemma each_code {A B} (f : string -> A -> option string) (view : A -> B) :
  code f view ->
  (forall xs b o, append_each f b xs = Some o -> exists e, o = b +:+ e)
  /\ forall xs ys b o1 o2 r s, length xs = length ys ->
     append_each f b xs = Some o1 -> append_each f b ys = Some o2 ->
     o1 +:+ r = o2 +:+ s -> view <$> xs = view <$> ys /\ o1 = o2.
Proof.
  intros [Hf1 Hf2].
  assert (forall xs b o, append_each f b xs = Some o -> exists e, o = b +:+ e) as Hext.
  { induction xs as [|x xs IH]; simpl; intros b o Ho.
    - simplify_eq. exists "". clear. induction o; simpl; congruence.
    - destruct (f b x) as [c|] eqn:E; [|done]. apply Hf1 in E as [e ->]. apply IH in Ho as [e' ->].
      rewrite <- app_assoc_str. eauto. }
  split; [done|]. induction xs as [|x xs IH]; intros [|y ys] b o1 o2 r s Hl H1 H2 Heq;
    simplify_eq/=; [done|].
  destruct (f b x) as [c1|] eqn:E1; [|done]. destruct (f b y) as [c2|] eqn:E2; [|done]. simpl in *.
  pose proof Heq as Heq'. destruct (Hext _ _ _ H1) as [e1 ->]. destruct (Hext _ _ _ H2) as [e2 ->].
  rewrite <- !app_assoc_str in Heq'.
  destruct (Hf2 _ _ _ _ _ _ _ _ E1 E2 eq_refl Heq') as (_ & Hv & ->).
  destruct (IH _ _ _ _ _ _ Hl H1 H2 Heq) as [-> ->]. by rewrite Hv.
Qed.

Lemma list_code {A B} (f : string -> A -> option string) (view : A -> B) :
  code f view ->
  code (fun b xs => b ← append_count b (length xs); append_each f b xs) (fmap (M := list) view).
Proof.
  intros Hf. destruct (each_code f view Hf) as [Hext Hdec]. destruct count_code as [Hc1 Hc2]. split.
  - intros b xs o. destruct (append_count b _) as [c|] eqn:E; [|done]. intros Ho.
    apply Hc1 in E as [e ->]. apply Hext in Ho as [e' ->]. rewrite <- app_assoc_str. eauto.
  - intros b1 b2 xs ys o1 o2 r s H1 H2 Hl Heq.
    destruct (append_count b1 _) as [c1|] eqn:E1; [|done].
    destruct (append_count b2 _) as [c2|] eqn:E2; [|done]. simpl in *. pose proof Heq as Heq'.
    destruct (Hext _ _ _ H1) as [e1 ->]. destruct (Hext _ _ _ H2) as [e2 ->].
    rewrite <- !app_assoc_str in Heq'.
    destruct (Hc2 _ _ _ _ _ _ _ _ E1 E2 Hl Heq') as (-> & Hn & ->).
    destruct (Hdec _ _ _ _ _ _ _ Hn H1 H2 Heq) as [-> ->]. done.
Qed.

(** A tagged option: [0] for none, [1] and the encoding for some. *)
Lemma option_code {A B} (f : string -> A -> option string) (view : A -> B) :
  code f view ->
  code (fun b x => match x with None => Some (b +:+ byte 0) | Some x => f (b +:+ byte 1) x end)
       (fmap (M := option) view).
Proof.
  intros [Hf1 Hf2]. split.
  - intros b [x|] o; [|intros [= <-]; eauto]. intros [e ->]%Hf1. rewrite <- app_assoc_str. eauto.
  - intros b1 b2 x y o1 o2 r s H1 H2 Hl Heq.
    assert (forall (b : string) (x : option A) (o : string),
      match x with None => Some (b +:+ byte 0) | Some x => f (b +:+ byte 1) x end = Some o ->
      exists e, o = b +:+ (byte (match x with Some _ => 1 | None => 0 end)%N +:+ e)) as Hext.
    { intros b [z|] o Ho; [apply Hf1 in Ho as [e ->]; rewrite <- app_assoc_str; eauto|].
      simplify_eq. by exists "". }
    destruct (Hext _ _ _ H1) as [e1 E1], (Hext _ _ _ H2) as [e2 E2].
    pose proof Heq as Heq'. rewrite E1, E2, <- !app_assoc_str in Heq'.
    apply string_app_inj_length in Heq' as [-> Heq']; [|done].
    destruct x as [x|], y as [y|]; try (by injection Heq').
    + by destruct (Hf2 _ _ _ _ _ _ _ _ H1 H2 eq_refl Heq) as (_ & Hv & ->); simpl; rewrite Hv.
    + injection H1 as <-. by injection H2 as <-.
Qed.
