(* ===== verification/Platform.v ===== *)
(** * Third-party libraries

    The program stores values of the [uuid] and [serde_json] crates without looking into them.
    Their types and the few functions it calls are the members of [UuidLib] and [JsonLib];
    what it relies on of them is stated by [UuidLaws] and [JsonLaws], which restate the crates'
    documentation.  [f64] is the language's: it is Rocq's [spec_float].  The instances at the
    end are small concrete libraries that satisfy the laws; the examples compute with them. *)

From S2P Require Import Prelude RustStr.
From Stdlib Require Import SpecFloat.

(** ** The [uuid] crate *)

Class UuidLib := {
  Uuid : Type;
  #[global] uuid_eq_dec :: EqDecision Uuid;
  #[global] uuid_countable :: Countable Uuid;
  (** [Uuid::parse_str], without the error *)
  uuid_parse_str : string -> option Uuid;
  (** [uuid.simple().to_string()]: 32 lowercase hexadecimal digits *)
  uuid_simple : Uuid -> string;
  (** [uuid.as_bytes()]: the 16 bytes of the UUID *)
  uuid_as_bytes : Uuid -> string;
}.

Class UuidLaws (U : UuidLib) : Prop := {
  (** the simple format is one of the formats [parse_str] reads *)
  uuid_parse_simple : forall u, uuid_parse_str (uuid_simple u) = Some u;
  (** a UUID is its 16 bytes *)
  uuid_bytes_length : forall u, String.length (uuid_as_bytes u) = 16;
  uuid_bytes_inj : forall u v, uuid_as_bytes u = uuid_as_bytes v -> u = v;
}.

(** ** The [serde_json] crate *)

Class JsonLib := {
  Value : Type;
  value_null : Value;
  Number : Type;
  number_as_u64 : Number -> option N;
  number_as_i64 : Number -> option Z;
  number_as_f64 : Number -> option spec_float;
  (** [Number::from(i64)] *)
  number_from_i64 : Z -> Number;
}.

Definition f64_zero : spec_float := S754_zero false.
Definition i64_min : Z := (-2 ^ 63)%Z.
Definition i64_max : Z := (2 ^ 63 - 1)%Z.
Definition is_i64 (n : Z) : Prop := (i64_min <= n <= i64_max)%Z.

Class JsonLaws (J : JsonLib) : Prop := {
  (** an [i64] is read back as itself *)
  number_as_i64_from : forall n, is_i64 n -> number_as_i64 (number_from_i64 n) = Some n;
  (** and as a [u64] exactly when it is not negative *)
  number_as_u64_from : forall n, is_i64 n ->
    number_as_u64 (number_from_i64 n) = if decide (0 <= n)%Z then Some (Z.to_N n) else None;
  (** its [f64] is zero only for zero *)
  number_as_f64_from : forall n f, is_i64 n ->
    number_as_f64 (number_from_i64 n) = Some f -> SFeqb f f64_zero = true -> n = 0%Z;
}.

(** ** Concrete libraries for the examples *)

Module Demo.

(** A UUID as its 128 bits. *)
Record uuid128 := Uuid128 { bits : N; bits_ok : (bits <? 2 ^ 128)%N = true }.

Lemma uuid128_eq (u v : uuid128) : bits u = bits v -> u = v.
Proof.
  destruct u as [b Hb], v as [c Hc]. simpl. intros ->. f_equal. apply proof_irrel.
Qed.

#[global] Instance uuid128_eq_dec : EqDecision uuid128.
Proof.
  refine (fun u v => cast_if (decide (bits u = bits v))).
  - abstract (by apply uuid128_eq).
  - abstract (congruence).
Defined.

Definition of_bits (n : N) : option uuid128 :=
  match decide ((n <? 2 ^ 128)%N = true) with
  | left H => Some (Uuid128 n H)
  | right _ => None
  end.

Lemma of_bits_bits u : of_bits (bits u) = Some u.
Proof.
  unfold of_bits. destruct (decide _) as [H|H].
  - f_equal. by apply uuid128_eq.
  - destruct H. apply bits_ok.
Qed.

#[global] Instance uuid128_countable : Countable uuid128.
Proof. refine (inj_countable bits of_bits _). apply of_bits_bits. Defined.

Definition nibble (c : ascii) : option N :=
  if is_ascii_digit c then Some (byte_val c - 48)%N
  else if in_range 97 102 c then Some (byte_val c - 87)%N
  else None.

Lemma nibble_digit d : (d < 16)%N -> nibble (hex_digit d) = Some d.
Proof.
  intros Hd. rewrite <- (N2Nat.id d) in *. generalize (N.to_nat d) Hd. clear d Hd.
  intros k Hk. do 16 (destruct k as [|k]; [reflexivity|]). lia.
Qed.

#[global] Instance uuid_lib : UuidLib := {|
  Uuid := uuid128;
  uuid_parse_str s := if decide (String.length s = 32) then unhex_n nibble s 0 ≫= of_bits else None;
  uuid_simple u := hex_n 32 (bits u);
  uuid_as_bytes u := be_bytes 16 (bits u);
|}.

#[global] Instance uuid_laws : UuidLaws uuid_lib.
Proof.
  assert (forall u : uuid128, bits u < 2 ^ 128)%N as Hlt.
  { intros u. apply N.ltb_lt, bits_ok. }
  split.
  - intros u. cbn -[hex_n]. rewrite length_hex_n, decide_True by done.
    rewrite (unhex_hex_n nibble nibble_digit). cbn [mbind option_bind].
    rewrite N.mul_0_l, N.add_0_l, N.mod_small by apply Hlt. apply of_bits_bits.
  - intros u. apply length_be_bytes.
  - intros u v Huv. apply uuid128_eq. by apply (be_bytes_inj 16).
Qed.

(** JSON scalars; numbers are integers. *)
Inductive json :=
  | JNull
  | JBool (b : bool)
  | JNumber (n : Z)
  | JString (s : string).

Definition f64_of_Z (n : Z) : spec_float :=
  match n with
  | Z0 => S754_zero false
  | Zpos p => S754_finite false p 0
  | Zneg p => S754_finite true p 0
  end.

#[global] Instance json_lib : JsonLib := {|
  Value := json;
  value_null := JNull;
  Number := Z;
  number_as_u64 n := if decide (0 <= n)%Z then Some (Z.to_N n) else None;
  number_as_i64 n := Some n;
  number_as_f64 n := Some (f64_of_Z n);
  number_from_i64 n := n;
|}.

#[global] Instance json_laws : JsonLaws json_lib.
Proof.
  split; simpl; [done|done|].
  intros n f _ [= <-]. by destruct n.
Qed.
End Demo.
