(* ===== verification/Ids.v ===== *)
(** * Identifiers and names ([hya-proto/src/ids.rs], [hya-proto/src/model.rs])

    The macros [uuid_id!] and [str_newtype!] stamp out one newtype per name; here they are two
    record families indexed by the macro's prefix or name, so that two ids are different types.
    [SessionId] is the two-representation id with its own grammar. *)

From S2P Require Import Prelude RustStr Platform.

(** ** Names *)

(** [str_newtype!]: a wrapped [String] *)
Record str_newtype (name : string) := StrNewtype { as_str : string }.
#[global] Arguments StrNewtype {name}.
#[global] Arguments as_str {name}.

#[global] Instance str_newtype_eq_dec name : EqDecision (str_newtype name).
Proof. solve_decision. Defined.
#[global] Instance str_newtype_countable name : Countable (str_newtype name).
Proof. refine (inj_countable' as_str StrNewtype _). by intros []. Defined.

Definition AgentName : Type := str_newtype "AgentName".
Definition ModelRef : Type := str_newtype "ModelRef".
Definition ToolName : Type := str_newtype "ToolName".

(** ** Counters *)

Record ConfigGeneration := mkConfigGeneration { generation_get : N }.
#[global] Instance ConfigGeneration_eq_dec : EqDecision ConfigGeneration.
Proof. solve_decision. Defined.
Definition ConfigGeneration_INITIAL : ConfigGeneration := mkConfigGeneration 1.
Definition ConfigGeneration_checked_next (g : ConfigGeneration) : option ConfigGeneration :=
  if decide (fits 64 (generation_get g + 1)) then Some (mkConfigGeneration (generation_get g + 1))
  else None.

Record ActorEpoch := mkActorEpoch { epoch_get : N }.
#[global] Instance ActorEpoch_eq_dec : EqDecision ActorEpoch.
Proof. solve_decision. Defined.
Definition ActorEpoch_INITIAL : ActorEpoch := mkActorEpoch 1.
Definition ActorEpoch_checked_next (e : ActorEpoch) : option ActorEpoch :=
  if decide (fits 64 (epoch_get e + 1)) then Some (mkActorEpoch (epoch_get e + 1)) else None.

(** [EventSeq]: the [u64] row id of the event log; 0 is the live-only sentinel. *)
Definition EventSeq : Type := N.

(** ** Random suffixes

    Both minted identifiers draw a byte at a time from blocks the operating system fills
    ([fill_os_random]), reject 248 to 255 and map the rest to 62 symbols.  The blocks are the
    stream [entropy]; [buf] is the unread rest of the current one. *)

Definition CHARSET : string :=
  "ABCDEFGHIJKLMNOPQRSTUVWXYZabcdefghijklmnopqrstuvwxyz0123456789".

Definition charset_at (byte : N) : ascii :=
  match String.get (N.to_nat (byte `mod` 62)) CHARSET with Some c => c | None => zero end.

Fixpoint sample_suffix (fuel : nat) (entropy : nat -> list N) (block : nat) (buf : list N)
    (out : string) (missing : nat) : option string :=
  match missing with
  | O => Some out
  | S missing' =>
      match fuel with
      | O => None
      | S fuel' =>
          let '(buf, block) := match buf with
                               | [] => (entropy block, S block)
                               | _ => (buf, block)
                               end in
          match buf with
          | [] => None
          | byte :: rest =>
              if (byte <? 248)%N
              then sample_suffix fuel' entropy block rest
                     (out +:+ String (charset_at byte) EmptyString) missing'
              else sample_suffix fuel' entropy block rest out missing
          end
      end
  end.

Definition HYSEC_PREFIX : string := "hysec_".
Definition HYSEC_SUFFIX_LEN : nat := 20.

Definition generate_hysec_suffix (fuel : nat) (entropy : nat -> list N) : option string :=
  sample_suffix fuel entropy 0 [] EmptyString HYSEC_SUFFIX_LEN.

Section ids.
Context {U : UuidLib}.

(** ** [uuid_id!] *)

Record uuid_id (prefix : string) := from_uuid { as_uuid : Uuid }.
#[global] Arguments from_uuid {prefix}.
#[global] Arguments as_uuid {prefix}.

#[global] Instance uuid_id_eq_dec prefix : EqDecision (uuid_id prefix).
Proof. solve_decision. Defined.
#[global] Instance uuid_id_countable prefix : Countable (uuid_id prefix).
Proof. refine (inj_countable' as_uuid from_uuid _). by intros []. Defined.

(** [Display] *)
Definition uuid_id_to_string {prefix} (id : uuid_id prefix) : string :=
  prefix +:+ "_" +:+ uuid_simple (as_uuid id).

(** [FromStr]: [s.strip_prefix(concat!($prefix, "_")).unwrap_or(s)] then [Uuid::parse_str] *)
Definition uuid_id_from_str prefix (s : string) : option (uuid_id prefix) :=
  let raw := default s (strip_prefix (prefix +:+ "_") s) in
  from_uuid <$> uuid_parse_str raw.

Definition MessageId : Type := uuid_id "msg".
Definition PartId : Type := uuid_id "part".
Definition ToolCallId : Type := uuid_id "tc".
Definition WorkflowRunId : Type := uuid_id "wfrun".
Definition MemberId : Type := uuid_id "mbr".
Definition ProjectId : Type := uuid_id "prj".
Definition PermissionRequestId : Type := uuid_id "perm".

Record OwnerRunId := mkOwnerRunId { owner_uuid : Uuid }.
#[global] Instance OwnerRunId_eq_dec : EqDecision OwnerRunId.
Proof. solve_decision. Defined.

(** ** [SessionId] *)

Inductive SessionId :=
  | Hysec (suffix : string)
  | LegacyUuid (u : Uuid).

#[global] Instance SessionId_eq_dec : EqDecision SessionId.
Proof. solve_decision. Defined.
#[global] Instance SessionId_countable : Countable SessionId.
Proof.
  refine (inj_countable' (fun id => match id with Hysec s => inl s | LegacyUuid u => inr u end)
    (fun x => match x with inl s => Hysec s | inr u => LegacyUuid u end) _).
  by intros [].
Defined.

(** The suffix of a constructed id is a [[u8; 20]] of ASCII alphanumerics. *)
Definition hysec_suffix_ok (s : string) : bool :=
  bool_decide (String.length s = HYSEC_SUFFIX_LEN) && bytes_all is_ascii_alphanumeric s.

Definition SessionId_wf (id : SessionId) : Prop :=
  match id with Hysec s => hysec_suffix_ok s = true | LegacyUuid _ => True end.

(** [SessionId::new]; [None] when the fuel is spent *)
Definition SessionId_new (fuel : nat) (entropy : nat -> list N) : option SessionId :=
  Hysec <$> generate_hysec_suffix fuel entropy.

Definition SessionId_as_uuid (id : SessionId) : option Uuid :=
  match id with LegacyUuid u => Some u | Hysec _ => None end.

Definition SessionId_storage_key (id : SessionId) : string :=
  match id with
  | Hysec suffix => HYSEC_PREFIX +:+ suffix
  | LegacyUuid u => uuid_as_bytes u
  end.

Definition SessionId_to_string (id : SessionId) : string :=
  match id with
  | Hysec suffix => HYSEC_PREFIX +:+ suffix
  | LegacyUuid u => "ses_" +:+ uuid_simple u
  end.

(** The error of [from_str] carries a message; the model keeps which check failed. *)
Inductive SessionIdParseError :=
  | HysecLength (len : nat)
  | HysecCharset
  | InvalidLegacy
  | InvalidSession.

Definition SessionId_from_str (s : string) : SessionId + SessionIdParseError :=
  match strip_prefix HYSEC_PREFIX s with
  | Some suffix =>
      if decide (String.length suffix <> HYSEC_SUFFIX_LEN)
      then inr (HysecLength (String.length suffix))
      else if bytes_all is_ascii_alphanumeric suffix then inl (Hysec suffix)
      else inr HysecCharset
  | None =>
      match strip_prefix "ses_" s with
      | Some rest =>
          match uuid_parse_str rest with
          | Some u => inl (LegacyUuid u)
          | None => inr InvalidLegacy
          end
      | None =>
          match uuid_parse_str s with
          | Some u => inl (LegacyUuid u)
          | None => inr InvalidSession
          end
      end
  end.
End ids.

(** ** The sampling loop *)

Lemma charset_at_alphanumeric byte : is_ascii_alphanumeric (charset_at byte) = true.
Proof.
  unfold charset_at.
  assert (N.to_nat (byte `mod` 62) < 62) as Hlt.
  { pose proof (N.mod_lt byte 62). lia. }
  revert Hlt. generalize (N.to_nat (byte `mod` 62)). intros k Hk.
  do 62 (destruct k as [|k]; [reflexivity|]). lia.
Qed.

Lemma sample_suffix_spec fuel entropy block buf out missing s :
  sample_suffix fuel entropy block buf out missing = Some s ->
  exists t, s = out +:+ t /\ String.length t = missing
            /\ bytes_all is_ascii_alphanumeric t = true.
Proof.
  revert block buf out missing.
  induction fuel as [|fuel IH]; intros block buf out [|missing]; cbn [sample_suffix];
    try done; try (intros [= <-]; exists EmptyString; by rewrite app_nil_r_str).
  set (p := match buf with [] => _ | _ => _ end). destruct p as [[|byte rest] b]; [done|].
  case_match; intros Hs; apply IH in Hs as (t & Hs & Hlen & Hall); last by exists t.
  exists (String (charset_at byte) t). rewrite Hs, <- app_assoc_str. simpl.
  by rewrite Hlen, Hall, charset_at_alphanumeric.
Qed.

(** The loop ends: every block the system fills has at least one byte below 248. *)
Definition accepted (byte : N) : Prop := (byte < 248)%N.
Definition refills (len : nat) (entropy : nat -> list N) : Prop :=
  forall i, length (entropy i) = len /\ Exists accepted (entropy i).

Lemma sample_suffix_total len entropy : refills len entropy ->
  forall fuel block buf out missing,
  length buf + missing * len <= fuel \/
  (Exists accepted buf /\ 0 < missing /\ length buf + (missing - 1) * len <= fuel) ->
  is_Some (sample_suffix fuel entropy block buf out missing).
Proof.
  intros Hrefill fuel.
  induction fuel as [|fuel IH]; intros block buf out [|missing] Hfuel; cbn [sample_suffix];
    try by eauto.
  - exfalso. destruct Hfuel as [Hfuel|(Hex & _ & Hfuel)].
    + destruct (Hrefill 0) as [Hlen Hex]. destruct (entropy 0); [by inversion Hex|].
      simpl in *. lia.
    + destruct buf; [by inversion Hex|]. simpl in *. lia.
  - set (p := match buf with [] => _ | _ => _ end).
    assert (exists byte rest b, p = (byte :: rest, b) /\
      (length rest + S missing * len <= fuel \/
       (Exists accepted (byte :: rest) /\ length rest + missing * len <= fuel)))
      as (byte & rest & b & -> & Hp).
    { unfold p. destruct buf as [|byte rest].
      - destruct (Hrefill block) as [Hlen Hex].
        destruct (entropy block) as [|byte rest]; [by inversion Hex|].
        exists byte, rest, (S block). split; [done|]. right. split; [done|].
        destruct Hfuel as [Hfuel|(Hno & _)]; [simpl in *; lia|by inversion Hno].
      - exists byte, rest, block. split; [done|].
        destruct Hfuel as [Hfuel|(Hex & _ & Hfuel)]; simpl in *; [left; lia|].
        right. split; [done|]. rewrite Nat.sub_0_r in Hfuel. lia. }
    case_match eqn:Hb; apply IH.
    + left. destruct Hp as [Hp|[_ Hp]]; lia.
    + apply N.ltb_ge in Hb. destruct Hp as [Hp|[Hex Hp]]; [by left; lia|].
      right. apply Exists_cons in Hex as [Hbad|Hex]; [unfold accepted in Hbad; lia|].
      split; [done|]. split; [lia|]. replace (S missing - 1) with missing by lia. done.
Qed.

Lemma generate_hysec_suffix_ok fuel entropy s :
  generate_hysec_suffix fuel entropy = Some s -> hysec_suffix_ok s = true.
Proof.
  unfold generate_hysec_suffix.
  intros (t & -> & Hlen & Hall)%sample_suffix_spec. simpl.
  unfold hysec_suffix_ok. by rewrite Hall, Hlen.
Qed.

(** ** Printing and parsing *)

Section id_lemmas.
Context {U : UuidLib}.

Lemma SessionId_from_str_wf s id : SessionId_from_str s = inl id -> SessionId_wf id.
Proof.
  unfold SessionId_from_str. intros H. split_in H.
  simpl. unfold hysec_suffix_ok. apply andb_true_iff. split; [|done].
  by apply bool_decide_eq_true_2.
Qed.

Lemma SessionId_parse_print `{!UuidLaws U} id :
  SessionId_wf id -> SessionId_from_str (SessionId_to_string id) = inl id.
Proof.
  unfold SessionId_from_str, SessionId_to_string. destruct id as [s|u].
  - simpl SessionId_wf. unfold hysec_suffix_ok. intros [Hlen Hall]%andb_true_iff.
    apply bool_decide_eq_true_1 in Hlen.
    rewrite strip_prefix_app, decide_False by tauto. by rewrite Hall.
  - intros _. change (strip_prefix HYSEC_PREFIX ("ses_" +:+ uuid_simple u)) with (@None string).
    cbv iota. by rewrite strip_prefix_app, uuid_parse_simple.
Qed.

Lemma uuid_id_parse_print `{!UuidLaws U} prefix (id : uuid_id prefix) :
  uuid_id_from_str prefix (uuid_id_to_string id) = Some id.
Proof.
  unfold uuid_id_from_str, uuid_id_to_string. rewrite app_assoc_str, strip_prefix_app. simpl.
  rewrite uuid_parse_simple. by destruct id.
Qed.

Lemma SessionId_storage_key_inj `{!UuidLaws U} id id' :
  SessionId_wf id -> SessionId_wf id' -> SessionId_storage_key id = SessionId_storage_key id' -> id = id'.
Proof.
  intros Hid Hid' Hkey.
  assert (forall t u, hysec_suffix_ok t = true -> HYSEC_PREFIX +:+ t <> uuid_as_bytes u) as Hne.
  { intros t u [Hlen _]%andb_true_iff Heq. apply bool_decide_eq_true_1 in Hlen.
    apply (f_equal String.length) in Heq. rewrite length_app_str, uuid_bytes_length, Hlen in Heq.
    done. }
  destruct id as [t|u], id' as [t'|u']; simpl in *.
  + congruence.
  + by destruct (Hne t u').
  + by destruct (Hne t' u).
  + f_equal. by apply uuid_bytes_inj.
Qed.

(** a session id survives its display form.  Any id [SessionId::new] mints (the loop ends
    whenever each block of entropy holds an acceptable byte) and any id that was parsed is read
    back from its display form, and no two ids share a storage key. *)
Theorem session_id_roundtrip `{!UuidLaws U} (entropy : nat -> list N) (s : string)
    (id : SessionId) :
  (refills 32 entropy ->
     exists minted, SessionId_new (HYSEC_SUFFIX_LEN * 32) entropy = Some minted
                    /\ SessionId_from_str (SessionId_to_string minted) = inl minted)
  /\ (SessionId_from_str s = inl id ->
        SessionId_from_str (SessionId_to_string id) = inl id
        /\ forall id', SessionId_wf id' -> SessionId_storage_key id = SessionId_storage_key id' ->
                       id = id').
Proof.
  split.
  - intros Hrefill. unfold SessionId_new.
    destruct (sample_suffix_total 32 entropy Hrefill (HYSEC_SUFFIX_LEN * 32) 0 []
                EmptyString HYSEC_SUFFIX_LEN) as [t Ht]; [left; simpl; lia|].
    unfold generate_hysec_suffix. rewrite Ht. exists (Hysec t). split; [done|].
    apply SessionId_parse_print. by eapply generate_hysec_suffix_ok.
  - intros Hid%SessionId_from_str_wf. split; [by apply SessionId_parse_print|].
    intros id'. by apply SessionId_storage_key_inj.
Qed.
End id_lemmas.

Lemma session_id_roundtrip_witness :
  exists minted : SessionId,
    SessionId_new (HYSEC_SUFFIX_LEN * 32) (fun _ => replicate 32 7%N) = Some minted
    /\ SessionId_from_str (SessionId_to_string minted) = inl minted.
Proof.
  apply (session_id_roundtrip (U := Demo.uuid_lib) (fun _ => replicate 32 7%N)
           "hysec_ABCDEFGHIJKLMNOPQRST" (Hysec "ABCDEFGHIJKLMNOPQRST")).
  intros i. split; [reflexivity|]. left. reflexivity.
Defined.
