(* ===== verification/Scope.v ===== *)
(** * Addresses ([hya-proto/src/scope.rs], [hya-proto/src/mail.rs])

    Canonical agent paths, the scope rule, unit-qualified channel keys, mail endpoints and the
    ids of minted channels.  Everything here is string arithmetic; the roster-aware resolution
    is in [Team.v]. *)

From S2P Require Import Prelude RustStr Platform Ids.

Definition ROOT_HANDLE : string := "main".
Definition HARNESS_HANDLE : string := "harness".
Definition PATH_SEPARATOR : ascii := "/".
Definition CHANNEL_SEPARATOR : ascii := "#".
Definition ANNOUNCE_CHANNEL : string := "announce".

Module Relation.
Inductive t := Own | Parent | Peer | Report.
#[global] Instance eq_dec : EqDecision t.
Proof. solve_decision. Defined.

Definition is_addressable (r : t) : bool :=
  match r with Parent | Peer | Report => true | Own => false end.
End Relation.

(** ** Paths *)

Definition parent_path (path : string) : option string := fst <$> rsplit_once PATH_SEPARATOR path.

Definition leaf (path : string) : string :=
  match rsplit_once PATH_SEPARATOR path with
  | Some (_, leaf) => leaf
  | None => path
  end.

Definition join_path (parent leaf : string) : string := parent +:+ String PATH_SEPARATOR leaf.

Definition is_valid_leaf (leaf : string) : bool :=
  negb (is_empty leaf)
  && bool_decide (trim leaf = leaf)
  && negb (contains PATH_SEPARATOR leaf)
  && negb (contains CHANNEL_SEPARATOR leaf).

Definition is_valid_channel_name (name : string) : bool := is_valid_leaf name.

Definition relation (from to : string) : option Relation.t :=
  if decide (from = to) then Some Relation.Own
  else
    let from_parent := parent_path from in
    if decide (from_parent = Some to) then Some Relation.Parent
    else if decide (parent_path to = Some from) then Some Relation.Report
    else match from_parent, parent_path to with
         | Some left_, Some right_ => if decide (left_ = right_) then Some Relation.Peer else None
         | _, _ => None
         end.

Definition in_scope (from to : string) : bool :=
  match relation from to with Some r => Relation.is_addressable r | None => false end.

Definition home_unit (path : string) : option string := parent_path path.
Definition led_unit (path : string) : string := path.

(** ** Channel keys *)

Definition qualify_channel (unit name : string) : string := unit +:+ String CHANNEL_SEPARATOR name.
Definition split_channel_key (key : string) : option (string * string) :=
  rsplit_once CHANNEL_SEPARATOR key.
Definition announce_channel_of (unit : string) : string := qualify_channel unit ANNOUNCE_CHANNEL.

(** ** Mail *)

Module MailEndpoint.
Inductive t := Handle (handle : string) | Channel (channel : string).
#[global] Instance eq_dec : EqDecision t.
Proof. solve_decision. Defined.

Definition parse (addr : string) : t :=
  let addr := trim addr in
  match strip_prefix "#" addr with
  | Some channel => Channel channel
  | None => Handle addr
  end.
End MailEndpoint.

Module MailKind.
Inductive t := Message | Announcement.
#[global] Instance eq_dec : EqDecision t.
Proof. solve_decision. Defined.

Definition parse (kind : string) : t :=
  let kind := to_ascii_lowercase (trim kind) in
  if decide (kind = "announcement") then Announcement
  else if decide (kind = "announce") then Announcement
  else Message.
End MailKind.

Module ChannelKind.
Inductive t := Group | Dm.
#[global] Instance eq_dec : EqDecision t.
Proof. solve_decision. Defined.
End ChannelKind.

(** ** Minted channel ids *)

Definition CHANNEL_RANDOM_LEN : nat := 8.
Definition GROUP_CHANNEL_PREFIX : string := "announce-".
Definition DM_CHANNEL_PREFIX : string := "DM-".

Definition channel_prefix (kind : ChannelKind.t) : string :=
  match kind with
  | ChannelKind.Group => GROUP_CHANNEL_PREFIX
  | ChannelKind.Dm => DM_CHANNEL_PREFIX
  end.

(** The first block of entropy is drawn before the loop. *)
Definition mint_channel_id (fuel : nat) (entropy : nat -> list N) (kind : ChannelKind.t) :
    option string :=
  sample_suffix fuel entropy 1 (entropy 0) (channel_prefix kind) CHANNEL_RANDOM_LEN.

Definition is_minted_channel_id (key : string) : bool :=
  match (match strip_prefix GROUP_CHANNEL_PREFIX key with
         | Some suffix => Some suffix
         | None => strip_prefix DM_CHANNEL_PREFIX key
         end) with
  | Some suffix =>
      bool_decide (String.length suffix = CHANNEL_RANDOM_LEN)
      && bytes_all is_ascii_alphanumeric suffix
  | None => false
  end.

(** ** Lemmas on paths *)

Lemma parent_join p l : contains PATH_SEPARATOR l = false -> parent_path (join_path p l) = Some p.
Proof. intros Hl. unfold parent_path, join_path. by rewrite rsplit_once_app. Qed.

Lemma leaf_join p l : contains PATH_SEPARATOR l = false -> leaf (join_path p l) = l.
Proof. intros Hl. unfold leaf, join_path. by rewrite rsplit_once_app. Qed.

Lemma parent_path_Some path p :
  parent_path path = Some p <->
  exists l, path = join_path p l /\ contains PATH_SEPARATOR l = false.
Proof.
  unfold parent_path. split.
  - intros ([l r] & [-> Hr]%rsplit_once_Some & ->)%fmap_Some. by exists r.
  - intros (l & -> & Hl). unfold join_path. by rewrite rsplit_once_app.
Qed.

Lemma parent_path_None path : parent_path path = None <-> contains PATH_SEPARATOR path = false.
Proof. unfold parent_path. by rewrite fmap_None, rsplit_once_None. Qed.

Lemma leaf_no_separator path : contains PATH_SEPARATOR (leaf path) = false.
Proof.
  unfold leaf. destruct (rsplit_once _ path) as [[l r]|] eqn:E.
  - by apply rsplit_once_Some in E as [_ ?].
  - by apply rsplit_once_None.
Qed.

Lemma join_path_contains p l : contains PATH_SEPARATOR (join_path p l) = true.
Proof. unfold join_path. rewrite contains_app. simpl. by rewrite orb_true_r. Qed.

Lemma join_path_ne p l : join_path p l <> p.
Proof.
  unfold join_path. intros Heq%(f_equal String.length).
  rewrite length_app_str in Heq. simpl in Heq. lia.
Qed.

Lemma join_path_inj p q l m :
  contains PATH_SEPARATOR l = false -> contains PATH_SEPARATOR m = false ->
  join_path p l = join_path q m -> p = q /\ l = m.
Proof.
  intros Hl Hm Heq.
  assert (parent_path (join_path p l) = parent_path (join_path q m)) as H1 by congruence.
  assert (leaf (join_path p l) = leaf (join_path q m)) as H2 by congruence.
  rewrite !parent_join in H1 by done. rewrite !leaf_join in H2 by done. by simplify_eq.
Qed.

Lemma is_valid_leaf_spec l :
  is_valid_leaf l = true ->
  l <> "" /\ trim l = l
  /\ contains PATH_SEPARATOR l = false /\ contains CHANNEL_SEPARATOR l = false.
Proof.
  unfold is_valid_leaf. rewrite !andb_true_iff, !negb_true_iff.
  intros [[[Hne Htrim] Hp] Hc]. apply bool_decide_eq_true_1 in Htrim.
  split; [by destruct l|]. done.
Qed.

Lemma split_qualify unit name :
  contains CHANNEL_SEPARATOR name = false ->
  split_channel_key (qualify_channel unit name) = Some (unit, name).
Proof. apply rsplit_once_app. Qed.

Lemma qualify_channel_contains unit name :
  contains CHANNEL_SEPARATOR (qualify_channel unit name) = true.
Proof. unfold qualify_channel. rewrite contains_app. simpl. by rewrite orb_true_r. Qed.

Lemma alphanumeric_no_separator s :
  bytes_all is_ascii_alphanumeric s = true ->
  contains PATH_SEPARATOR s = false /\ contains CHANNEL_SEPARATOR s = false.
Proof. intros Hs. by split; apply (bytes_all_contains is_ascii_alphanumeric). Qed.

(** A minted id has no separator: it is never a path nor a qualified key. *)
Lemma minted_no_separator key :
  is_minted_channel_id key = true ->
  contains PATH_SEPARATOR key = false /\ contains CHANNEL_SEPARATOR key = false.
Proof.
  unfold is_minted_channel_id.
  destruct (strip_prefix GROUP_CHANNEL_PREFIX key) as [s|] eqn:E1;
    [|destruct (strip_prefix DM_CHANNEL_PREFIX key) as [s|] eqn:E2; [|done]].
  all: intros [_ Hs]%andb_true_iff; apply alphanumeric_no_separator in Hs as [Hp Hc].
  - apply strip_prefix_Some in E1 as ->. rewrite !contains_app, Hp, Hc. done.
  - apply strip_prefix_Some in E2 as ->. rewrite !contains_app, Hp, Hc. done.
Qed.

(** ** The scope rule *)

(** The unit rule in terms of the hierarchy: a parent, a report, or two children of one parent. *)
Definition same_unit (from to : string) : Prop :=
  (exists l, contains PATH_SEPARATOR l = false /\ from = join_path to l)
  \/ (exists l, contains PATH_SEPARATOR l = false /\ to = join_path from l)
  \/ (exists p a b, contains PATH_SEPARATOR a = false /\ contains PATH_SEPARATOR b = false
                    /\ a <> b /\ from = join_path p a /\ to = join_path p b).

Lemma parent_path_acyclic a b : parent_path a = Some b -> parent_path b <> Some a.
Proof.
  intros (l & -> & _)%parent_path_Some (m & Heq & _)%parent_path_Some.
  apply (f_equal String.length) in Heq. unfold join_path in Heq.
  rewrite !length_app_str in Heq. simpl in Heq. lia.
Qed.

(** The relation seen from the other side. *)
Definition opposite (r : Relation.t) : Relation.t :=
  match r with
  | Relation.Parent => Relation.Report
  | Relation.Report => Relation.Parent
  | r => r
  end.

Lemma relation_flip from to : relation to from = opposite <$> relation from to.
Proof.
  pose proof (parent_path_acyclic from to). pose proof (parent_path_acyclic to from).
  unfold relation. destruct (decide (from = to)) as [->|Hne]; [by rewrite decide_True|].
  rewrite decide_False by done.
  destruct (decide (parent_path from = Some to)) as [Hf|Hf].
  { by rewrite decide_False by auto. }
  destruct (decide (parent_path to = Some from)) as [Ht|Ht]; [done|].
  destruct (parent_path from) as [p|], (parent_path to) as [q|]; try done.
  destruct (decide (p = q)) as [->|]; [by rewrite decide_True|by rewrite decide_False].
Qed.

Lemma relation_Own from to : relation from to = Some Relation.Own <-> from = to.
Proof.
  unfold relation. split; [|intros ->; by rewrite decide_True].
  intros H. split_in H.
Qed.

Lemma in_scope_same_unit from to : in_scope from to = true -> same_unit from to.
Proof.
  unfold in_scope, relation, same_unit.
  destruct (decide (from = to)) as [|Hne]; [done|].
  destruct (decide (parent_path from = Some to)) as [Hf|Hf].
  { apply parent_path_Some in Hf as (l & ? & ?). left. by exists l. }
  destruct (decide (parent_path to = Some from)) as [Ht|Ht].
  { apply parent_path_Some in Ht as (l & ? & ?). right; left. by exists l. }
  destruct (parent_path from) as [p|] eqn:Hfp, (parent_path to) as [q|] eqn:Htq; try done.
  case_decide; [subst|done]. intros _. right; right.
  apply parent_path_Some in Hfp as (a & -> & ?), Htq as (b & -> & ?).
  exists q, a, b. split_and!; try done. by intros ->.
Qed.

Lemma same_unit_in_scope from to : same_unit from to -> in_scope from to = true.
Proof.
  unfold in_scope.
  intros [(l & Hl & ->)|[(l & Hl & ->)|(p & a & b & Ha & Hb & Hne & -> & ->)]].
  - unfold relation. rewrite decide_False by apply join_path_ne.
    by rewrite parent_join, decide_True.
  - rewrite relation_flip. unfold relation. rewrite decide_False by apply join_path_ne.
    by rewrite parent_join, decide_True.
  - unfold relation. rewrite !parent_join by done.
    rewrite decide_False
      by (intros Heq; apply Hne; by destruct (join_path_inj p p a b Ha Hb Heq)).
    do 2 rewrite decide_False by
      (intros Heq%(inj Some); exact (join_path_ne _ _ (eq_sym Heq))).
    by rewrite decide_True.
Qed.

(** [in_scope] admits exactly the sender's parent, its direct reports and its siblings, never
    itself, and the rule is symmetric; [relation] names the side: [to] is the parent of [from]
    exactly when [from] is a report of [to]. *)
Theorem scope_rule (from to : string) :
  (in_scope from to = true <-> same_unit from to)
  /\ in_scope from to = in_scope to from
  /\ (relation from to = Some Relation.Own <-> from = to)
  /\ (relation from to = Some Relation.Parent <-> relation to from = Some Relation.Report)
  /\ (relation from to = Some Relation.Peer <-> relation to from = Some Relation.Peer).
Proof.
  split_and!.
  - split; [apply in_scope_same_unit|apply same_unit_in_scope].
  - unfold in_scope. rewrite (relation_flip from to). by destruct (relation from to) as [[]|].
  - apply relation_Own.
  - rewrite (relation_flip from to). by destruct (relation from to) as [[]|].
  - rewrite (relation_flip from to). by destruct (relation from to) as [[]|].
Qed.

(** ** Minting *)

(** Minting terminates and its result is recognised.  When every 16-byte block of entropy
    holds an acceptable byte, [mint_channel_id] returns within [9 * 16] draws; whatever it
    returns is an id [is_minted_channel_id] accepts, free of path and channel separators. *)
Theorem mint_channel_id_recognized (entropy : nat -> list N) (kind : ChannelKind.t) :
  refills 16 entropy ->
  exists id, mint_channel_id (9 * 16) entropy kind = Some id
    /\ is_minted_channel_id id = true
    /\ contains PATH_SEPARATOR id = false /\ contains CHANNEL_SEPARATOR id = false
    /\ MailEndpoint.parse (String CHANNEL_SEPARATOR id) = MailEndpoint.Channel id.
Proof.
  intros Hrefill. unfold mint_channel_id.
  destruct (sample_suffix_total 16 entropy Hrefill (9 * 16) 1 (entropy 0)
              (channel_prefix kind) CHANNEL_RANDOM_LEN) as [id Hid].
  { left. destruct (Hrefill 0) as [-> _]. simpl. lia. }
  exists id. split; [done|].
  apply sample_suffix_spec in Hid as (t & -> & Hlen & Hall).
  assert (is_minted_channel_id (channel_prefix kind +:+ t) = true) as Hm.
  { unfold is_minted_channel_id. destruct kind; simpl channel_prefix.
    - rewrite strip_prefix_app. by rewrite Hall, bool_decide_eq_true_2.
    - change (strip_prefix GROUP_CHANNEL_PREFIX (DM_CHANNEL_PREFIX +:+ t)) with (@None string).
      rewrite strip_prefix_app. by rewrite Hall, bool_decide_eq_true_2. }
  split; [done|]. split_and!; [by apply minted_no_separator..|].
  unfold MailEndpoint.parse.
  assert (bytes_all is_ascii_graphic (String CHANNEL_SEPARATOR (channel_prefix kind +:+ t)) = true)
    as Hg.
  { apply (bytes_all_impl _ _ _ alphanumeric_graphic) in Hall.
    destruct kind; simpl; by rewrite Hall. }
  rewrite trim_graphic by done. done.
Qed.

Lemma mint_channel_id_recognized_witness :
  exists id, mint_channel_id (9 * 16) (fun _ => replicate 16 61%N) ChannelKind.Dm = Some id
    /\ is_minted_channel_id id = true.
Proof.
  destruct (mint_channel_id_recognized (fun _ => replicate 16 61%N) ChannelKind.Dm)
    as (id & Hid & Hm & _).
  - intros i. split; [reflexivity|]. left. reflexivity.
  - by exists id.
Defined.
