(* ===== verification/Wire.v ===== *)
(** * Value types of the wire ([message.rs], [tokens.rs], [todo.rs], [revert.rs] of [hya-proto])

    Each enum is a Module whose type is [t], so that constructors read as in the source
    ([Role.User]); each struct is a record whose fields carry the struct's initials. *)

From S2P Require Import Prelude RustStr Platform Ids.

(** ** Messages *)

Module Role.
Inductive t := User | Assistant | System.
#[global] Instance eq_dec : EqDecision t.
Proof. solve_decision. Defined.
End Role.

Module FinishReason.
Inductive t := Stop | ToolCalls | Length | Cancelled | Error.
#[global] Instance eq_dec : EqDecision t.
Proof. solve_decision. Defined.
End FinishReason.

Module FinishCause.
Inductive t :=
  | UserCancel | Shutdown | LeaderFailed | Interrupted | ProviderError | Archived | Handoff | Other.
#[global] Instance eq_dec : EqDecision t.
Proof. solve_decision. Defined.
End FinishCause.

(** ** Members and the roster *)

Module MemberRunStatus.
Inductive t := Spawning | Running | Done | Failed | Cancelled.
#[global] Instance eq_dec : EqDecision t.
Proof. solve_decision. Defined.
End MemberRunStatus.

Module SubagentMode.
Inductive t := Transient | Resident.
#[global] Instance eq_dec : EqDecision t.
Proof. solve_decision. Defined.

Definition parse (value : string) : t :=
  let value := to_ascii_lowercase (trim value) in
  if bool_decide (value = "resident") || bool_decide (value = "true")
     || bool_decide (value = "yes") || bool_decide (value = "1")
  then Resident else Transient.

Definition is_resident (m : t) : bool := match m with Resident => true | _ => false end.
End SubagentMode.

Module RosterStatus.
Inductive t := Idle | Busy | Done | Failed.
#[global] Instance eq_dec : EqDecision t.
Proof. solve_decision. Defined.
End RosterStatus.

(** ** Token counters *)

Record TokenUsage := mkTokenUsage {
  tu_input : N;
  tu_output : N;
  tu_reasoning : N;
  tu_cache_read : N;
  tu_cache_write : N;
  tu_reasoning_unknown : bool;
}.
#[global] Instance TokenUsage_eq_dec : EqDecision TokenUsage.
Proof. solve_decision. Defined.

Definition TokenUsage_is_zero (t : TokenUsage) : bool :=
  ((tu_input t =? 0) && (tu_output t =? 0) && (tu_reasoning t =? 0)
   && (tu_cache_read t =? 0) && (tu_cache_write t =? 0))%N.

Definition TokenUsage_prompt (t : TokenUsage) : N :=
  sat_add 64 (sat_add 64 (tu_input t) (tu_cache_read t)) (tu_cache_write t).

(** Providers re-report cumulative totals: the maximum of each counter. *)
Definition TokenUsage_merge (self other : TokenUsage) : TokenUsage :=
  {| tu_input := N.max (tu_input self) (tu_input other);
     tu_output := N.max (tu_output self) (tu_output other);
     tu_reasoning := N.max (tu_reasoning self) (tu_reasoning other);
     tu_cache_read := N.max (tu_cache_read self) (tu_cache_read other);
     tu_cache_write := N.max (tu_cache_write self) (tu_cache_write other);
     tu_reasoning_unknown := tu_reasoning_unknown self || tu_reasoning_unknown other |}.

(** Rounds of one message: the saturating sum of each counter. *)
Definition TokenUsage_add (self other : TokenUsage) : TokenUsage :=
  {| tu_input := sat_add 64 (tu_input self) (tu_input other);
     tu_output := sat_add 64 (tu_output self) (tu_output other);
     tu_reasoning := sat_add 64 (tu_reasoning self) (tu_reasoning other);
     tu_cache_read := sat_add 64 (tu_cache_read self) (tu_cache_read other);
     tu_cache_write := sat_add 64 (tu_cache_write self) (tu_cache_write other);
     tu_reasoning_unknown := tu_reasoning_unknown self || tu_reasoning_unknown other |}.

Module UsagePurpose.
Inductive t := Turn | Title | Compaction | Other.
#[global] Instance eq_dec : EqDecision t.
Proof. solve_decision. Defined.
#[global] Instance countable : Countable t.
Proof.
  refine (inj_countable'
    (fun p => match p with Turn => 0 | Title => 1 | Compaction => 2 | Other => 3 end)
    (fun n => match n with 0 => Turn | 1 => Title | 2 => Compaction | _ => Other end) _).
  by intros [].
Defined.
End UsagePurpose.

(** ** Accounting labels *)

Module TokenAccountingMode.
Inductive t := Auto | Provider | Estimate.
#[global] Instance eq_dec : EqDecision t.
Proof. solve_decision. Defined.

Definition as_str (m : t) : string :=
  match m with Auto => "auto" | Provider => "provider" | Estimate => "estimate" end.

Definition parse (value : string) : option t :=
  let value := to_ascii_lowercase (trim value) in
  if decide (value = "auto") then Some Auto
  else if decide (value = "provider") then Some Provider
  else if decide (value = "estimate") then Some Estimate
  else None.
End TokenAccountingMode.

Module TokenSource.
Inductive t := Provider | Estimate.
#[global] Instance eq_dec : EqDecision t.
Proof. solve_decision. Defined.
End TokenSource.

(** ** Todos *)

Module TodoStatus.
Inductive t := Pending | InProgress | Blocked | Completed.
#[global] Instance eq_dec : EqDecision t.
Proof. solve_decision. Defined.

Definition as_str (s : t) : string :=
  match s with
  | Pending => "pending" | InProgress => "in_progress"
  | Blocked => "blocked" | Completed => "completed"
  end.
End TodoStatus.

Record TodoItem := mkTodoItem {
  ti_id : string;
  ti_content : string;
  ti_status : TodoStatus.t;
}.

(** ** File states *)

Module FileState.
Inductive t :=
  | Absent
  | Stored (hash : string) (size : N)
  | Omitted (size : N) (reason : string).
#[global] Instance eq_dec : EqDecision t.
Proof. solve_decision. Defined.

Definition restorable (s : t) : bool := match s with Omitted _ _ => false | _ => true end.
End FileState.

Record FileChange := mkFileChange {
  fc_path : string;
  fc_before : FileState.t;
  fc_observed : bool;
}.

Record FileRestore := mkFileRestore {
  fr_path : string;
  fr_restored : FileState.t;
  fr_saved : FileState.t;
  fr_observed : bool;
  fr_error : option string;
}.
#[global] Instance FileRestore_eta : EtaRecord FileRestore := fun r =>
  mkFileRestore (fr_path r) (fr_restored r) (fr_saved r) (fr_observed r) (fr_error r).

(** ** Enums of the event stream *)

Module SessionKind.
Inductive t := Project | Temporary.
#[global] Instance eq_dec : EqDecision t.
Proof. solve_decision. Defined.
Definition as_str (k : t) : string :=
  match k with Project => "project" | Temporary => "temporary" end.
End SessionKind.

Module ReportOutcome.
Inductive t := Done | Failed.
#[global] Instance eq_dec : EqDecision t.
Proof. solve_decision. Defined.
End ReportOutcome.

Module ArchiveReason.
Inductive t := Reported | Killed | RootTeardown | ArchivedByParent | Shutdown.
#[global] Instance eq_dec : EqDecision t.
Proof. solve_decision. Defined.
End ArchiveReason.

Module CompactionStrategy.
Inductive t := Native | LocalSummarizer | SnapCompact | Handoff.
#[global] Instance eq_dec : EqDecision t.
Proof. solve_decision. Defined.
Definition as_str (s : t) : string :=
  match s with
  | Native => "native" | LocalSummarizer => "local_summarizer"
  | SnapCompact => "snap_compact" | Handoff => "handoff"
  end.
End CompactionStrategy.

Module ToolPartState.
Section tool_part_state.
Context {J : JsonLib}.
Inductive t :=
  | Pending (input : Value)
  | Running (input : Value)
  | Completed (input output : Value) (time_ms : N)
  | Error (input : Value) (message : string) (value : option Value).
End tool_part_state.
#[global] Arguments t {J}.
End ToolPartState.

Section wire.
Context {U : UuidLib} {J : JsonLib}.

(** A [FileChange] folded onto its message. *)
Record FileChangeRecord := mkFileChangeRecord {
  fcr_call : option ToolCallId;
  fcr_path : string;
  fcr_before : FileState.t;
  fcr_observed : bool;
}.

(** ** Parts *)

(** [Part] and [Message]: the model-facing forms.  Their reasoning parts carry no effort label
    and there is no media in the folded view. *)
Inductive Part :=
  | PartText (id : PartId) (text : string)
  | PartReasoning (id : PartId) (text : string) (provider_data : option Value)
  | PartMedia (id : PartId) (media_type data : string) (filename : option string)
  | PartTool (id : PartId) (call_id : ToolCallId) (name : ToolName) (state : ToolPartState.t).

Inductive Message :=
  | MessageUser (id : MessageId) (parts : list Part)
  | MessageAssistant (id : MessageId) (agent : AgentName) (model : ModelRef) (parts : list Part)
      (last_round : option TokenUsage) (finish : option FinishReason.t)
      (tokens : option TokenUsage)
  | MessageSystem (id : MessageId) (content : string).

Definition Message_id (m : Message) : MessageId :=
  match m with
  | MessageUser id _ | MessageAssistant id _ _ _ _ _ _ | MessageSystem id _ => id
  end.
End wire.

(** ** Token counters form a semilattice under [merge] and a commutative monoid under [add] *)

Lemma TokenUsage_merge_comm a b : TokenUsage_merge a b = TokenUsage_merge b a.
Proof. unfold TokenUsage_merge. f_equal; lia. Qed.

Lemma TokenUsage_merge_assoc a b c :
  TokenUsage_merge a (TokenUsage_merge b c) = TokenUsage_merge (TokenUsage_merge a b) c.
Proof. unfold TokenUsage_merge. simpl. f_equal; lia. Qed.

Lemma TokenUsage_merge_idemp a : TokenUsage_merge a a = a.
Proof. destruct a. unfold TokenUsage_merge. simpl. f_equal; lia. Qed.

Lemma TokenUsage_add_comm a b : TokenUsage_add a b = TokenUsage_add b a.
Proof. unfold TokenUsage_add. f_equal; auto using sat_add_comm. apply orb_comm. Qed.

Lemma TokenUsage_add_assoc a b c :
  TokenUsage_add a (TokenUsage_add b c) = TokenUsage_add (TokenUsage_add a b) c.
Proof. unfold TokenUsage_add. simpl. f_equal; auto using sat_add_assoc. apply orb_assoc. Qed.

Lemma TokenAccountingMode_parse_as_str m :
  TokenAccountingMode.parse (TokenAccountingMode.as_str m) = Some m.
Proof. by destruct m. Qed.
