(* ===== verification/Workflow.v ===== *)
(** * Workflow identities and projections ([hya-proto/src/workflow.rs])

    The digest newtype with its text form, the statuses of runs and stages, the plan captured at
    admission and the folded state of the newest run.  The command and catalog types of the file
    are not folded and not modelled. *)

From S2P Require Import Prelude RustStr Platform Ids Wire.

(** ** Revisions *)

Definition WorkflowSourceId : Type := str_newtype "WorkflowSourceId".

(** [WorkflowRevision([u8; 32])]: the digest as its 32 bytes. *)
Record WorkflowRevision := from_bytes { as_bytes : string }.
#[global] Instance WorkflowRevision_eq_dec : EqDecision WorkflowRevision.
Proof. solve_decision. Defined.

Definition WorkflowRevision_wf (r : WorkflowRevision) : Prop := String.length (as_bytes r) = 32.

Definition WorkflowRevision_to_string (r : WorkflowRevision) : string := hex_bytes (as_bytes r).

Definition hex_value (byte : ascii) : option N :=
  if in_range 48 57 byte then Some (byte_val byte - 48)%N
  else if in_range 97 102 byte then Some (byte_val byte - 97 + 10)%N
  else if in_range 65 70 byte then Some (byte_val byte - 65 + 10)%N
  else None.

(** The loop over the pairs of bytes. *)
Fixpoint unhex_pairs (s : string) : option string :=
  match s with
  | String a (String b s') =>
      high ← hex_value a; low ← hex_value b;
      rest ← unhex_pairs s';
      Some (String (ascii_of_N (N.lor (N.shiftl high 4) low)) rest)
  | _ => Some EmptyString
  end.

Inductive WorkflowRevisionParseError := RevisionLength | RevisionNonHex.

Definition WorkflowRevision_from_str (value : string) :
    WorkflowRevision + WorkflowRevisionParseError :=
  if decide (String.length value <> 64) then inr RevisionLength
  else match unhex_pairs value with
       | Some bytes => inl (from_bytes bytes)
       | None => inr RevisionNonHex
       end.

(** ** Statuses *)

Module WorkflowRunStatus.
Inductive t := Running | Completed | Failed | Cancelled | Interrupted.
#[global] Instance eq_dec : EqDecision t.
Proof. solve_decision. Defined.
Definition is_terminal (s : t) : bool := match s with Running => false | _ => true end.
End WorkflowRunStatus.

Module WorkflowStageStatus.
Inductive t := Pending | Running | Completed | Failed | Cancelled | Skipped.
#[global] Instance eq_dec : EqDecision t.
Proof. solve_decision. Defined.
Definition is_terminal (s : t) : bool :=
  match s with Pending | Running => false | _ => true end.
End WorkflowStageStatus.

Module WorkflowAvailability.
Inductive t := Available | Stale | Unavailable.
End WorkflowAvailability.

Module WorkflowMemberRole.
Inductive t := Worker | Verifier.
#[global] Instance eq_dec : EqDecision t.
Proof. solve_decision. Defined.
End WorkflowMemberRole.

Module WorkflowRouteFailureClass.
Inductive t :=
  | NoFailure | Transport | RateLimited | Server | UnknownModel | Auth | Incompatible | Http
  | Decode | Internal | Aborted | Cancelled.
#[global] Instance eq_dec : EqDecision t.
Proof. solve_decision. Defined.
End WorkflowRouteFailureClass.

(** ** Plans *)

Record WorkflowIdentity := mkWorkflowIdentity {
  wi_source : WorkflowSourceId;
  wi_name : string;
  wi_revision : WorkflowRevision;
}.

Record WorkflowModelCandidate := mkWorkflowModelCandidate {
  wmc_id : string;
  wmc_reasoning : option string;
}.

Record WorkflowModelAssignment := mkWorkflowModelAssignment {
  wma_id : string;
  wma_reasoning : option string;
  wma_fallback : list WorkflowModelCandidate;
}.

Record WorkflowModelResolvedCandidate := mkWorkflowModelResolvedCandidate {
  wmr_index : N;
  wmr_id : string;
  wmr_reasoning : string;
}.

Record WorkflowStagePlan := mkWorkflowStagePlan {
  wsp_id : string;
  wsp_title : option string;
  wsp_agent : AgentName;
  wsp_mode : string;
  wsp_level : N;
  wsp_worker_model : option WorkflowModelAssignment;
  wsp_selected_worker_model : option WorkflowModelResolvedCandidate;
  wsp_verifier_model : option WorkflowModelAssignment;
  wsp_selected_verifier_model : option WorkflowModelResolvedCandidate;
}.

Section workflow.
Context {U : UuidLib}.

(** ** Folded state *)

Record WorkflowMemberProjection := mkWorkflowMemberProjection {
  wm_member : MemberId;
  wm_role : WorkflowMemberRole.t;
  wm_iteration : N;
}.

Record WorkflowStageRouteOutcome := mkWorkflowStageRouteOutcome {
  wro_session : SessionId;
  wro_run : WorkflowRunId;
  wro_stage : string;
  wro_member : MemberId;
  wro_role : WorkflowMemberRole.t;
  wro_iteration : N;
  wro_step : N;
  wro_candidate_index : N;
  wro_model : ModelRef;
  wro_reasoning : string;
  wro_failure_class : WorkflowRouteFailureClass.t;
}.

Record WorkflowStageProjection := mkWorkflowStageProjection {
  ws_plan : WorkflowStagePlan;
  ws_status : WorkflowStageStatus.t;
  ws_members : list WorkflowMemberProjection;
  ws_route_outcomes : list WorkflowStageRouteOutcome;
}.

Record WorkflowRunProjection := mkWorkflowRunProjection {
  wr_id : WorkflowRunId;
  wr_workflow : WorkflowIdentity;
  wr_request_hash : string;
  wr_owner : OwnerRunId;
  wr_status : WorkflowRunStatus.t;
  wr_stages : list WorkflowStageProjection;
  wr_error : option string;
}.

(** [seen_runs] is replay-only: [#[serde(skip)]]. *)
Record WorkflowProjection := mkWorkflowProjection {
  wp_selection : option WorkflowIdentity;
  wp_run : option WorkflowRunProjection;
  wp_availability : option WorkflowAvailability.t;
  wp_seen_runs : gset WorkflowRunId;
}.

Definition WorkflowProjection_default : WorkflowProjection :=
  mkWorkflowProjection None None None ∅.

#[global] Instance WorkflowStageProjection_eta : EtaRecord WorkflowStageProjection := fun r =>
  mkWorkflowStageProjection (ws_plan r) (ws_status r) (ws_members r) (ws_route_outcomes r).
#[global] Instance WorkflowRunProjection_eta : EtaRecord WorkflowRunProjection := fun r =>
  mkWorkflowRunProjection (wr_id r) (wr_workflow r) (wr_request_hash r) (wr_owner r)
    (wr_status r) (wr_stages r) (wr_error r).
#[global] Instance WorkflowProjection_eta : EtaRecord WorkflowProjection := fun r =>
  mkWorkflowProjection (wp_selection r) (wp_run r) (wp_availability r) (wp_seen_runs r).
End workflow.

(** ** The text form of revisions *)

Lemma hex_value_digit d : (d < 16)%N -> hex_value (hex_digit d) = Some d.
Proof.
  intros Hd. rewrite <- (N2Nat.id d) in *. generalize (N.to_nat d) Hd. clear d Hd.
  intros k Hk. do 16 (destruct k as [|k]; [reflexivity|]). lia.
Qed.

(** One byte: the two digits [{:02x}] writes are the two nibbles the parser joins. *)
Lemma byte_nibbles b :
  exists h l, hex_n 2 (byte_val b) = String (hex_digit h) (String (hex_digit l) EmptyString)
    /\ (h < 16)%N /\ (l < 16)%N /\ ascii_of_N (N.lor (N.shiftl h 4) l) = b.
Proof.
  exists ((byte_val b / 16) `mod` 16)%N, (byte_val b `mod` 16)%N.
  destruct b as [[] [] [] [] [] [] [] []]; split_and!; done.
Qed.

Lemma unhex_pairs_hex_bytes s : unhex_pairs (hex_bytes s) = Some s.
Proof.
  induction s as [|b s IH]; [done|]. cbn [hex_bytes].
  destruct (byte_nibbles b) as (h & l & -> & Hh & Hl & Hb).
  cbn [String.append unhex_pairs]. rewrite !hex_value_digit by done.
  cbn [mbind option_bind]. rewrite IH. cbn [mbind option_bind]. by rewrite Hb.
Qed.

Lemma hex_value_Some c d :
  hex_value c = Some d -> (d < 16)%N /\ hex_digit d = ascii_lower c.
Proof.
  destruct c as [[] [] [] [] [] [] [] []]; vm_compute; intros H; try discriminate H;
    injection H as <-; done.
Qed.

Lemma join_nibbles h l :
  (h < 16)%N -> (l < 16)%N ->
  hex_n 2 (byte_val (ascii_of_N (N.lor (N.shiftl h 4) l)))
  = String (hex_digit h) (String (hex_digit l) EmptyString).
Proof.
  intros Hh Hl. rewrite <- (N2Nat.id h), <- (N2Nat.id l) in *.
  generalize (N.to_nat h) (N.to_nat l) Hh Hl. clear.
  intros i j Hi Hj.
  do 16 (destruct i as [|i]; [do 16 (destruct j as [|j]; [reflexivity|]); lia|]). lia.
Qed.

(** What the parser accepts is what it prints, up to the case of the digits. *)
Lemma unhex_pairs_lowercase n s bytes :
  String.length s = 2 * n -> unhex_pairs s = Some bytes ->
  hex_bytes bytes = to_ascii_lowercase s /\ String.length bytes = n.
Proof.
  revert s bytes. induction n as [|n IH]; intros s bytes Hlen.
  { destruct s; [|done]. by intros [= <-]. }
  destruct s as [|a [|b s]]; try (simpl in Hlen; lia). cbn [unhex_pairs].
  destruct (hex_value a) as [h|] eqn:Ha; [|done]. destruct (hex_value b) as [l|] eqn:Hb; [|done].
  cbn [mbind option_bind]. destruct (unhex_pairs s) as [rest|] eqn:Hs; [|done].
  intros [= <-]. apply hex_value_Some in Ha as [Hh Ha], Hb as [Hl Hb].
  destruct (IH s rest) as [Hrest Hn]; [simpl in Hlen; lia|done|].
  cbn [hex_bytes]. rewrite join_nibbles by done. simpl. by rewrite Hrest, Hn, Ha, Hb.
Qed.

(** A Workflow revision's text form is canonical.  Printing a 32-byte digest and parsing the
    text returns the digest; a text is accepted only when it is 64 hexadecimal digits, and then
    printing the result gives the same text in lower case. *)
Theorem workflow_revision_roundtrip (r : WorkflowRevision) (value : string) (q : WorkflowRevision) :
  (WorkflowRevision_wf r -> WorkflowRevision_from_str (WorkflowRevision_to_string r) = inl r)
  /\ (WorkflowRevision_from_str value = inl q ->
        WorkflowRevision_wf q /\ WorkflowRevision_to_string q = to_ascii_lowercase value).
Proof.
  unfold WorkflowRevision_from_str, WorkflowRevision_to_string, WorkflowRevision_wf. split.
  - intros Hlen. rewrite length_hex_bytes, Hlen, decide_False by (intros H; by apply H).
    rewrite unhex_pairs_hex_bytes. by destruct r.
  - destruct (decide _) as [|Hlen%dec_stable]; [done|].
    destruct (unhex_pairs value) as [bytes|] eqn:E; [|done]. intros [= <-].
    apply (unhex_pairs_lowercase 32) in E as [? ?]; done.
Qed.

Lemma workflow_revision_roundtrip_witness :
  let r := from_bytes "0123456789abcdef0123456789ABCDEF" in
  WorkflowRevision_from_str (WorkflowRevision_to_string r) = inl r.
Proof. by apply (workflow_revision_roundtrip _ "" (from_bytes "")). Defined.
