(* ===== verification/Usage.v ===== *)
(** * Session token usage ([hya-proto/src/usage.rs])

    Billed provider usage, summed by serving model and by call purpose with saturating [u64]
    counters. *)

From S2P Require Import Prelude RustStr Platform Ids Wire.

Definition UNATTRIBUTED_MODEL : string := "unattributed".

Record UsageTotals := mkUsageTotals {
  ut_input : N;
  ut_cache_read : N;
  ut_cache_write : N;
  ut_output : N;
  ut_reasoning : N;
  ut_reasoning_unknown_output : N;
  ut_rounds : N;
  ut_legacy_messages : N;
}.
#[global] Instance UsageTotals_eq_dec : EqDecision UsageTotals.
Proof. solve_decision. Defined.
#[global] Instance UsageTotals_eta : EtaRecord UsageTotals := fun r =>
  mkUsageTotals (ut_input r) (ut_cache_read r) (ut_cache_write r) (ut_output r) (ut_reasoning r)
    (ut_reasoning_unknown_output r) (ut_rounds r) (ut_legacy_messages r).

Definition UsageTotals_default : UsageTotals := mkUsageTotals 0 0 0 0 0 0 0 0.

Record OutputSplit := mkOutputSplit { os_thinking : N; os_visible : N; os_unknown : N }.

Definition thinking_exact (s : OutputSplit) : option N :=
  if (os_unknown s =? 0)%N then Some (os_thinking s) else None.
Definition visible_exact (s : OutputSplit) : option N :=
  if (os_unknown s =? 0)%N then Some (os_visible s) else None.

Definition add_usage (self : UsageTotals) (tokens : TokenUsage) (reasoning_unknown : bool) :
    UsageTotals :=
  let self := self
    <| ut_input ::= fun x => sat_add 64 x (tu_input tokens) |>
    <| ut_cache_read ::= fun x => sat_add 64 x (tu_cache_read tokens) |>
    <| ut_cache_write ::= fun x => sat_add 64 x (tu_cache_write tokens) |>
    <| ut_output ::= fun x => sat_add 64 x (tu_output tokens) |> in
  if reasoning_unknown
  then self <| ut_reasoning_unknown_output ::= fun x => sat_add 64 x (tu_output tokens) |>
  else self <| ut_reasoning ::=
         fun x => sat_add 64 x (N.min (tu_reasoning tokens) (tu_output tokens)) |>.

Definition add_round (self : UsageTotals) (tokens : TokenUsage) : UsageTotals :=
  (add_usage self tokens (tu_reasoning_unknown tokens)) <| ut_rounds ::= fun x => sat_add 64 x 1 |>.

Definition add_legacy (self : UsageTotals) (tokens : TokenUsage) : UsageTotals :=
  (add_usage self tokens true) <| ut_legacy_messages ::= fun x => sat_add 64 x 1 |>.

Definition UsageTotals_merge (self other : UsageTotals) : UsageTotals :=
  {| ut_input := sat_add 64 (ut_input self) (ut_input other);
     ut_cache_read := sat_add 64 (ut_cache_read self) (ut_cache_read other);
     ut_cache_write := sat_add 64 (ut_cache_write self) (ut_cache_write other);
     ut_output := sat_add 64 (ut_output self) (ut_output other);
     ut_reasoning := sat_add 64 (ut_reasoning self) (ut_reasoning other);
     ut_reasoning_unknown_output :=
       sat_add 64 (ut_reasoning_unknown_output self) (ut_reasoning_unknown_output other);
     ut_rounds := sat_add 64 (ut_rounds self) (ut_rounds other);
     ut_legacy_messages := sat_add 64 (ut_legacy_messages self) (ut_legacy_messages other) |}.

Definition UsageTotals_prompt (t : UsageTotals) : N :=
  sat_add 64 (sat_add 64 (ut_input t) (ut_cache_read t)) (ut_cache_write t).

(** The two plain subtractions of the source do not underflow: the subtrahends are minima. *)
Definition output_split (t : UsageTotals) : OutputSplit :=
  let known_output := (ut_output t - ut_reasoning_unknown_output t)%N in
  let thinking := N.min (ut_reasoning t) known_output in
  {| os_thinking := thinking;
     os_visible := (known_output - thinking)%N;
     os_unknown := (ut_output t - known_output)%N |}.

(** ** The session fold *)

Record SessionUsage := mkSessionUsage {
  su_by_model : gmap ModelRef UsageTotals;
  su_by_purpose : gmap UsagePurpose.t UsageTotals;
}.
#[global] Instance SessionUsage_eta : EtaRecord SessionUsage := fun r =>
  mkSessionUsage (su_by_model r) (su_by_purpose r).

Definition SessionUsage_default : SessionUsage := mkSessionUsage ∅ ∅.

Definition SessionUsage_is_empty (u : SessionUsage) : bool :=
  bool_decide (su_by_model u = ∅) && bool_decide (su_by_purpose u = ∅).

(** [map.entry(k).or_default()] then an update in place *)
Definition entry_or_default `{Countable K} (f : UsageTotals -> UsageTotals) (k : K)
    (m : gmap K UsageTotals) : gmap K UsageTotals :=
  <[k := f (default UsageTotals_default (m !! k))]> m.

Definition SessionUsage_record (self : SessionUsage) (model : ModelRef) (purpose : UsagePurpose.t)
    (tokens : TokenUsage) : SessionUsage :=
  self <| su_by_model ::= entry_or_default (fun t => add_round t tokens) model |>
       <| su_by_purpose ::= entry_or_default (fun t => add_round t tokens) purpose |>.

Definition SessionUsage_record_legacy (self : SessionUsage) (tokens : TokenUsage) : SessionUsage :=
  self <| su_by_model ::=
            entry_or_default (fun t => add_legacy t tokens) (StrNewtype UNATTRIBUTED_MODEL) |>
       <| su_by_purpose ::= entry_or_default (fun t => add_legacy t tokens) UsagePurpose.Turn |>.

(** The sum of a map's values, in any order. *)
Definition sum_values `{Countable K} (m : gmap K UsageTotals) : UsageTotals :=
  map_fold (fun _ totals acc => UsageTotals_merge acc totals) UsageTotals_default m.

Definition SessionUsage_total (self : SessionUsage) : UsageTotals := sum_values (su_by_model self).

Definition merge_into `{Countable K} (self other : gmap K UsageTotals) : gmap K UsageTotals :=
  map_fold (fun k totals acc => entry_or_default (fun t => UsageTotals_merge t totals) k acc)
    self other.

Definition SessionUsage_merge (self other : SessionUsage) : SessionUsage :=
  self <| su_by_model ::= fun m => merge_into m (su_by_model other) |>
       <| su_by_purpose ::= fun m => merge_into m (su_by_purpose other) |>.

(** ** Per-message usage *)

Record MessageUsage := mkMessageUsage {
  mu_model : ModelRef;
  mu_tokens : TokenUsage;
  mu_rounds : N;
  mu_last_round : TokenUsage;
}.

Definition MessageUsage_first (model : ModelRef) (tokens : TokenUsage) : MessageUsage :=
  {| mu_model := model; mu_tokens := tokens; mu_rounds := 1; mu_last_round := tokens |}.

Definition MessageUsage_add (self : MessageUsage) (model : ModelRef) (tokens : TokenUsage) :
    MessageUsage :=
  {| mu_model := model;
     mu_tokens := TokenUsage_add (mu_tokens self) tokens;
     mu_rounds := sat_add 32 (mu_rounds self) 1;
     mu_last_round := tokens |}.

(** ** Totals are a commutative monoid of saturated counters *)

Definition totals_fit (t : UsageTotals) : Prop :=
  fits 64 (ut_input t) /\ fits 64 (ut_cache_read t) /\ fits 64 (ut_cache_write t)
  /\ fits 64 (ut_output t) /\ fits 64 (ut_reasoning t)
  /\ fits 64 (ut_reasoning_unknown_output t)
  /\ fits 64 (ut_rounds t) /\ fits 64 (ut_legacy_messages t).

(** Counter by counter. *)
Definition totals_le (a b : UsageTotals) : Prop :=
  (ut_input a <= ut_input b /\ ut_cache_read a <= ut_cache_read b
   /\ ut_cache_write a <= ut_cache_write b /\ ut_output a <= ut_output b
   /\ ut_reasoning a <= ut_reasoning b
   /\ ut_reasoning_unknown_output a <= ut_reasoning_unknown_output b
   /\ ut_rounds a <= ut_rounds b /\ ut_legacy_messages a <= ut_legacy_messages b)%N.

#[global] Instance totals_le_preorder : PreOrder totals_le.
Proof. split; [intros ?|intros ???]; unfold totals_le; lia. Qed.

Lemma merge_comm a b : UsageTotals_merge a b = UsageTotals_merge b a.
Proof. unfold UsageTotals_merge. f_equal; apply sat_add_comm. Qed.

Lemma merge_assoc a b c :
  UsageTotals_merge a (UsageTotals_merge b c) = UsageTotals_merge (UsageTotals_merge a b) c.
Proof. unfold UsageTotals_merge. simpl. f_equal; apply sat_add_assoc. Qed.

Lemma merge_default_l a : totals_fit a -> UsageTotals_merge UsageTotals_default a = a.
Proof.
  destruct a. unfold totals_fit. simpl. intros (?&?&?&?&?&?&?&?).
  unfold UsageTotals_merge. simpl. f_equal; by apply sat_add_0_l.
Qed.

Lemma merge_fit a b : totals_fit (UsageTotals_merge a b).
Proof. unfold totals_fit, UsageTotals_merge. simpl. auto 10 with hya. Qed.

Lemma default_fit : totals_fit UsageTotals_default.
Proof. unfold totals_fit, fits. simpl. lia. Qed.

Lemma merge_le a b : totals_fit a -> totals_le a (UsageTotals_merge a b).
Proof.
  unfold totals_fit, totals_le, UsageTotals_merge. simpl. intros (?&?&?&?&?&?&?&?).
  split_and!; by apply sat_add_le_l.
Qed.

#[export] Hint Resolve merge_fit default_fit merge_le : hya.

(** What one call contributes to a total. *)
Definition round_totals (tokens : TokenUsage) : UsageTotals := add_round UsageTotals_default tokens.
Definition legacy_totals (tokens : TokenUsage) : UsageTotals :=
  add_legacy UsageTotals_default tokens.

Lemma sat_add_absorb w a b : sat_add w a (sat_add w 0 b) = sat_add w a b.
Proof. unfold sat_add. lia. Qed.

Lemma add_round_merge t tokens :
  totals_fit t -> add_round t tokens = UsageTotals_merge t (round_totals tokens).
Proof.
  destruct t. unfold totals_fit. simpl. intros (?&?&?&?&?&?&?&?).
  unfold round_totals, add_round, add_usage, UsageTotals_merge.
  destruct (tu_reasoning_unknown tokens); simpl; f_equal;
    rewrite ?sat_add_absorb, ?sat_add_0_r by done; done.
Qed.

Lemma add_legacy_merge t tokens :
  totals_fit t -> add_legacy t tokens = UsageTotals_merge t (legacy_totals tokens).
Proof.
  destruct t. unfold totals_fit. simpl. intros (?&?&?&?&?&?&?&?).
  unfold legacy_totals, add_legacy, add_usage, UsageTotals_merge. simpl.
  f_equal; rewrite ?sat_add_absorb, ?sat_add_0_r by done; done.
Qed.

Lemma round_totals_fit tokens : totals_fit (round_totals tokens).
Proof.
  unfold round_totals. rewrite add_round_merge by apply default_fit. apply merge_fit.
Qed.

Lemma legacy_totals_fit tokens : totals_fit (legacy_totals tokens).
Proof.
  unfold legacy_totals. rewrite add_legacy_merge by apply default_fit. apply merge_fit.
Qed.
#[export] Hint Resolve round_totals_fit legacy_totals_fit : hya.

(** ** Sums over the maps *)

Section sums.
  Context `{Countable K}.
  Implicit Types (m : gmap K UsageTotals).

Definition entries_fit m : Prop := map_Forall (fun _ t => totals_fit t) m.

Lemma sum_values_insert k t m :
  m !! k = None -> sum_values (<[k := t]> m) = UsageTotals_merge (sum_values m) t.
Proof.
  intros Hk. unfold sum_values. rewrite map_fold_insert_L; [done| |done].
  intros ?? a b c _ _ _. rewrite <- !merge_assoc. f_equal. apply merge_comm.
Qed.

Lemma sum_values_fit m : totals_fit (sum_values m).
Proof.
  unfold sum_values. apply (map_fold_weak_ind (fun t _ => totals_fit t)); auto with hya.
Qed.

(** Adding [x] to one entry adds it to the sum. *)
Lemma sum_values_entry (f : UsageTotals -> UsageTotals) x k m :
  entries_fit m -> totals_fit x ->
  (forall t, totals_fit t -> f t = UsageTotals_merge t x) ->
  sum_values (entry_or_default f k m) = UsageTotals_merge (sum_values m) x.
Proof.
  intros Hm Hx Hf. unfold entry_or_default. destruct (m !! k) as [t|] eqn:Hk; simpl.
  - rewrite <- insert_delete_eq, sum_values_insert by apply lookup_delete_eq.
    rewrite <- (insert_delete_id m k t) at 2 by done.
    rewrite sum_values_insert by apply lookup_delete_eq.
    rewrite Hf by eapply Hm, Hk. apply merge_assoc.
  - rewrite sum_values_insert, Hf by auto with hya. by rewrite merge_default_l.
Qed.

Lemma entries_fit_entry f x k m :
  entries_fit m -> (forall t, totals_fit t -> f t = UsageTotals_merge t x) ->
  entries_fit (entry_or_default f k m).
Proof.
  intros Hm Hf. unfold entries_fit, entry_or_default. apply map_Forall_insert_2; [|done].
  rewrite Hf; [apply merge_fit|]. destruct (m !! k) eqn:Hk; simpl; [by eapply Hm|apply default_fit].
Qed.

(** An entry never shrinks. *)
Lemma entry_le f x k m i t :
  entries_fit m -> (forall t, totals_fit t -> f t = UsageTotals_merge t x) ->
  m !! i = Some t ->
  exists t', entry_or_default f k m !! i = Some t' /\ totals_le t t'.
Proof.
  intros Hm Hf Hi. unfold entry_or_default. destruct (decide (k = i)) as [->|Hne].
  - rewrite lookup_insert_eq, Hi. simpl. eexists; split; [done|].
    rewrite Hf by eapply Hm, Hi. eapply merge_le, Hm, Hi.
  - rewrite lookup_insert_ne by done. exists t. by split.
Qed.
End sums.

(** ** Bills: what the fold has been given *)

Inductive bill :=
  | Round (model : ModelRef) (purpose : UsagePurpose.t) (tokens : TokenUsage)
  | Legacy (tokens : TokenUsage).

Definition record_bill (u : SessionUsage) (b : bill) : SessionUsage :=
  match b with
  | Round model purpose tokens => SessionUsage_record u model purpose tokens
  | Legacy tokens => SessionUsage_record_legacy u tokens
  end.

Definition bill_totals (b : bill) : UsageTotals :=
  match b with Round _ _ tokens => round_totals tokens | Legacy tokens => legacy_totals tokens end.

Definition usage_fit (u : SessionUsage) : Prop :=
  entries_fit (su_by_model u) /\ entries_fit (su_by_purpose u).

(** Both slices grow by the same bill. *)
Definition usage_le (u v : SessionUsage) : Prop :=
  (forall model t, su_by_model u !! model = Some t ->
     exists t', su_by_model v !! model = Some t' /\ totals_le t t')
  /\ (forall purpose t, su_by_purpose u !! purpose = Some t ->
     exists t', su_by_purpose v !! purpose = Some t' /\ totals_le t t').

#[global] Instance usage_le_preorder : PreOrder usage_le.
Proof.
  split.
  - intros u. split; intros k t Ht; exists t; by split.
  - intros u v w [H1 H2] [H3 H4]. split.
    + intros k t (t' & Ht' & ?)%H1. destruct (H3 k t' Ht') as (t'' & ? & ?).
      exists t''. split; [done|]. by etrans.
    + intros k t (t' & Ht' & ?)%H2. destruct (H4 k t' Ht') as (t'' & ? & ?).
      exists t''. split; [done|]. by etrans.
Qed.

Lemma record_bill_spec u b :
  usage_fit u ->
  usage_fit (record_bill u b)
  /\ sum_values (su_by_model (record_bill u b))
     = UsageTotals_merge (sum_values (su_by_model u)) (bill_totals b)
  /\ sum_values (su_by_purpose (record_bill u b))
     = UsageTotals_merge (sum_values (su_by_purpose u)) (bill_totals b)
  /\ usage_le u (record_bill u b).
Proof.
  intros [Hm Hp].
  assert (forall tokens t, totals_fit t -> add_round t tokens = UsageTotals_merge t (round_totals tokens))
    by (intros; by apply add_round_merge).
  assert (forall tokens t, totals_fit t -> add_legacy t tokens = UsageTotals_merge t (legacy_totals tokens))
    by (intros; by apply add_legacy_merge).
  destruct b; unfold record_bill, SessionUsage_record, SessionUsage_record_legacy, usage_fit,
    usage_le; simpl; split_and!; eauto using entries_fit_entry, sum_values_entry, entry_le with hya.
Qed.

(** Folding a list of bills into a fresh session. *)
Definition usage_of (bills : list bill) : SessionUsage :=
  foldl record_bill SessionUsage_default bills.

Definition bills_total (bills : list bill) : UsageTotals :=
  foldl UsageTotals_merge UsageTotals_default (bill_totals <$> bills).

Lemma usage_default_fit : usage_fit SessionUsage_default.
Proof. split; apply map_Forall_empty. Qed.

Lemma usage_of_snoc bills b : usage_of (bills ++ [b]) = record_bill (usage_of bills) b.
Proof. unfold usage_of. by rewrite foldl_app. Qed.

Lemma usage_of_fit bills : usage_fit (usage_of bills).
Proof.
  induction bills as [|b bills IH] using rev_ind; [apply usage_default_fit|].
  rewrite usage_of_snoc. by apply record_bill_spec.
Qed.

Lemma slices_agree bills :
  sum_values (su_by_model (usage_of bills)) = bills_total bills
  /\ sum_values (su_by_purpose (usage_of bills)) = bills_total bills.
Proof.
  induction bills as [|b bills [IH1 IH2]] using rev_ind; [by split; reflexivity|].
  rewrite usage_of_snoc. destruct (record_bill_spec (usage_of bills) b) as (_ & H1 & H2 & _);
    [apply usage_of_fit|].
  rewrite H1, H2, IH1, IH2. unfold bills_total. by rewrite fmap_app, foldl_app.
Qed.

(** The two slices of a session's usage sum the same provider calls.  Whatever rounds and
    legacy sums a session folded, in whatever order, the grand total over models equals the grand
    total over purposes, and both are the saturating sum of the calls' own counters. *)
Theorem usage_slices_agree (bills : list bill) :
  SessionUsage_total (usage_of bills) = bills_total bills
  /\ sum_values (su_by_purpose (usage_of bills)) = bills_total bills.
Proof.
  unfold SessionUsage_total. apply slices_agree.
Qed.

(** ** Splitting the output *)

Lemma sum_calls_bound bills :
  (ut_output (bills_total bills) < u64_max ->
   ut_reasoning (bills_total bills) + ut_reasoning_unknown_output (bills_total bills)
     <= ut_output (bills_total bills))%N.
Proof.
  unfold bills_total.
  induction bills as [|b bills IH] using rev_ind; [done|].
  rewrite fmap_app, foldl_app. simpl.
  set (t := foldl _ _ _) in *.
  assert (ut_reasoning (bill_totals b) + ut_reasoning_unknown_output (bill_totals b)
          <= ut_output (bill_totals b) \/ ut_output (bill_totals b) = u64_max)%N as Hb.
  { destruct b as [m p tokens|tokens]; simpl;
      unfold round_totals, legacy_totals, add_round, add_legacy, add_usage;
      [destruct (tu_reasoning_unknown tokens)|]; simpl; unfold sat_add; lia. }
  unfold sat_add. lia.
Qed.

(** [output_split] never invents or loses a token.  Its three parts add up to the output and
    the unknown part is at most what was billed without a split; for a session whose output
    counter has not saturated, the thinking part is exactly the thinking reported by the calls
    that split their output, and the unknown part exactly the output of those that did not. *)
Theorem output_split_partition (t : UsageTotals) (bills : list bill) :
  let s := output_split t in
  let total := SessionUsage_total (usage_of bills) in
  (os_thinking s + os_visible s + os_unknown s = ut_output t)%N
  /\ (os_unknown s <= ut_reasoning_unknown_output t)%N
  /\ ((ut_output total < u64_max)%N ->
      os_thinking (output_split total) = ut_reasoning total
      /\ os_unknown (output_split total) = ut_reasoning_unknown_output total).
Proof.
  cbv zeta. unfold SessionUsage_total. destruct (slices_agree bills) as [-> _].
  unfold output_split; simpl. split_and!; [lia..|].
  intros Hlt. pose proof (sum_calls_bound bills Hlt). lia.
Qed.

Lemma output_split_partition_witness :
  let m : ModelRef := StrNewtype "m" in
  let total := SessionUsage_total (usage_of
    [Round m UsagePurpose.Turn (mkTokenUsage 10 30 12 2 1 false);
     Round m UsagePurpose.Title (mkTokenUsage 0 50 0 0 0 true)]) in
  os_thinking (output_split total) = ut_reasoning total
  /\ os_unknown (output_split total) = ut_reasoning_unknown_output total.
Proof. apply (output_split_partition UsageTotals_default). vm_compute. reflexivity. Defined.
