(* ===== verification/Events.v ===== *)
(** * The event stream ([hya-proto/src/event.rs])

    [Event.t] has one constructor per variant of the source's [Event], with the variant's fields
    in order; [Envelope] is the unit of the log and of the live bus. *)

From S2P Require Import Prelude RustStr Platform Ids Scope Wire Workflow.

Module Event.
Section event.
Context {U : UuidLib} {J : JsonLib}.

Inductive t :=
  (* session lifecycle *)
  | SessionCreated (session : SessionId) (parent : option SessionId) (agent : AgentName)
      (model : ModelRef) (workdir : string) (project : option ProjectId) (kind : SessionKind.t)
  | SessionAgentModelOverrideSet (session : SessionId) (agent : AgentName)
      (model : option ModelRef)
  | SessionPermissionModeSet (session : SessionId) (mode : string)
  | SessionMoved (session : SessionId) (workdir : string)
  | SessionTitled (session : SessionId) (title : string)
  | SessionMetadataSet (session : SessionId) (metadata : Value)
  | SessionPermissionSet (session : SessionId) (permission : list Value)
  | SessionArchived (session : SessionId) (archived : Number)
  | SessionUnarchived (session : SessionId)
  | SessionEphemeralSet (session : SessionId) (ephemeral : bool)
  | SessionShareSet (session : SessionId) (url : string)
  | SessionShareCleared (session : SessionId)
  | AgentSwitched (session : SessionId) (message : option MessageId) (agent : AgentName)
  | ModelSwitched (session : SessionId) (message : option MessageId) (model : ModelRef)
  | SessionStatus (session : SessionId) (status : Value)
  | CommandExecuted (session : SessionId) (command arguments : string) (message : MessageId)
  (* workflow runs *)
  | WorkflowSelected (session : SessionId) (workflow : WorkflowIdentity)
  | WorkflowRunStarted (session : SessionId) (run : WorkflowRunId) (workflow : WorkflowIdentity)
      (request_hash : string) (owner : OwnerRunId) (stages : list WorkflowStagePlan)
  | WorkflowStageStarted (session : SessionId) (run : WorkflowRunId) (stage : string)
  | WorkflowStageMemberLinked (session : SessionId) (run : WorkflowRunId) (stage : string)
      (member : MemberId) (role : WorkflowMemberRole.t) (iteration : N)
  | WorkflowStageRouteOutcome (session : SessionId) (run : WorkflowRunId) (stage : string)
      (member : MemberId) (role : WorkflowMemberRole.t) (iteration step candidate_index : N)
      (model : ModelRef) (reasoning : string) (failure_class : WorkflowRouteFailureClass.t)
  | WorkflowStageFinished (session : SessionId) (run : WorkflowRunId) (stage : string)
      (status : WorkflowStageStatus.t)
  | WorkflowRunFinished (session : SessionId) (run : WorkflowRunId)
      (status : WorkflowRunStatus.t) (error : option string)
  (* message lifecycle *)
  | MessageStarted (session : SessionId) (message : MessageId) (role : Role.t)
      (agent : option AgentName) (model : option ModelRef)
  | TurnBindingRecorded (session : SessionId) (message : MessageId)
      (generation : ConfigGeneration)
  | UserPromptContextRecorded (session : SessionId) (message : MessageId)
      (files agents : list Value)
  | MessageFinished (session : SessionId) (message : MessageId) (role : Role.t)
      (finish : FinishReason.t) (tokens : option TokenUsage) (cause : option FinishCause.t)
  | MessageDeleted (session : SessionId) (message : MessageId)
  | PartDeleted (session : SessionId) (message : MessageId) (part : PartId)
  (* assistant streaming *)
  | StepStarted (session : SessionId) (message : MessageId) (step : N)
  | StepFinished (session : SessionId) (message : MessageId) (step : N) (finish : FinishReason.t)
  | TextStart (session : SessionId) (message : MessageId) (part : PartId)
  | TextDelta (session : SessionId) (message : MessageId) (part : PartId) (delta : string)
  | TextReplace (session : SessionId) (message : MessageId) (part : PartId) (text : string)
  | TextEnd (session : SessionId) (message : MessageId) (part : PartId)
  | ReasoningStart (session : SessionId) (message : MessageId) (part : PartId)
      (reason : option string)
  | ReasoningDelta (session : SessionId) (message : MessageId) (part : PartId) (delta : string)
  | ReasoningEnd (session : SessionId) (message : MessageId) (part : PartId)
      (provider_data : option Value)
  | ReasoningReplace (session : SessionId) (message : MessageId) (part : PartId) (text : string)
  (* tool lifecycle *)
  | ToolInputStart (session : SessionId) (message : MessageId) (part : PartId)
      (call : ToolCallId) (name : ToolName)
  | ToolInputDelta (session : SessionId) (message : MessageId) (part : PartId)
      (call : ToolCallId) (name : ToolName) (delta : string)
  | ToolCallRequested (session : SessionId) (message : MessageId) (part : PartId)
      (call : ToolCallId) (name : ToolName) (input : Value)
  | ToolResult (session : SessionId) (message : MessageId) (part : PartId) (call : ToolCallId)
      (output : Value) (time_ms : N)
  | ToolError (session : SessionId) (message : MessageId) (part : PartId) (call : ToolCallId)
      (message_text : string) (value : option Value)
  | ToolPartUpdated (session : SessionId) (message : MessageId) (part : PartId)
      (state : ToolPartState.t)
  (* subagent (member) lifecycle *)
  | MemberSpawned (session : SessionId) (member : MemberId) (child : option SessionId)
      (subagent_type : AgentName) (description : string) (depth : N) (directive : string)
      (tool_call : option ToolCallId)
  | MemberStatusChanged (session : SessionId) (member : MemberId) (status : MemberRunStatus.t)
  | MemberFinished (session : SessionId) (member : MemberId) (status : MemberRunStatus.t)
      (summary : string) (child : option SessionId)
  (* mailbox and channels *)
  | AgentRegistered (session agent_session : SessionId) (handle : string)
      (parent : option string) (agent_type : AgentName) (mode : SubagentMode.t)
  | AgentActivityChanged (session : SessionId) (handle : string) (status : RosterStatus.t)
      (current_task : option string)
  | ResidentWorkStarted (session actor_session : SessionId) (handle : string)
      (epoch : ActorEpoch) (inbox_through : N)
  | AgentHeartbeat (session : SessionId) (handle : string) (heartbeat_ms : N)
  | MailSent (session : SessionId) (from : string) (to : MailEndpoint.t) (kind : MailKind.t)
      (body : string)
  | ChannelJoined (session : SessionId) (channel member : string)
  | ChannelLeft (session : SessionId) (channel member : string)
  (* orchestration lifecycle *)
  | ChannelCreated (session : SessionId) (channel : string) (kind : ChannelKind.t)
      (unit : option string) (members : list string)
  | SubagentReported (session : SessionId) (member : MemberId) (child : SessionId)
      (handle : string) (outcome : ReportOutcome.t) (report : string)
  | HandoffCommitted (session : SessionId) (handle : string) (generation : N) (doc : string)
      (degraded : bool)
  | AgentArchived (session : SessionId) (handle : string) (child : SessionId)
      (reason : ArchiveReason.t)
  | MailConsumed (session : SessionId) (handle : string) (through : N)
  | AgentRestarted (session : SessionId) (handle : string) (child : SessionId)
      (epoch : ActorEpoch)
  (* context observability *)
  | ContextCompacted (session : SessionId) (message : MessageId)
      (strategy : CompactionStrategy.t) (from_message to_message : MessageId)
      (folded_count input_tokens_est threshold : N)
  | SessionForked (session source : SessionId) (before_message : option MessageId)
  | ContextEvicted (session : SessionId) (evicted_parts tokens_before tokens_after threshold : N)
  | ContextStatus (session : SessionId) (tokens : N) (source : TokenSource.t)
      (mode : TokenAccountingMode.t) (threshold : N)
  (* accounting, todos, files, errors *)
  | UsageRecorded (session : SessionId) (message : option MessageId) (step : option N)
      (model : ModelRef) (purpose : UsagePurpose.t) (tokens : TokenUsage)
  | TodosUpdated (session : SessionId) (todos : list TodoItem)
  | FilesChanged (session : SessionId) (message : MessageId) (call : option ToolCallId)
      (files : list FileChange)
  | SessionReverted (session : SessionId) (message : MessageId) (files : list FileRestore)
  | SessionUnreverted (session : SessionId) (files : list FileRestore)
  | Error (session : option SessionId) (code message : string)
      (failed_message : option MessageId)
  | Unknown.

(** [Event::session] *)
Definition session_of (e : t) : option SessionId :=
  match e with
  | SessionCreated session _ _ _ _ _ _
  | SessionAgentModelOverrideSet session _ _
  | SessionPermissionModeSet session _
  | SessionMoved session _
  | SessionTitled session _
  | SessionMetadataSet session _
  | SessionPermissionSet session _
  | SessionArchived session _
  | SessionUnarchived session
  | SessionEphemeralSet session _
  | SessionShareSet session _
  | SessionShareCleared session
  | AgentSwitched session _ _
  | ModelSwitched session _ _
  | SessionStatus session _
  | CommandExecuted session _ _ _
  | WorkflowSelected session _
  | WorkflowRunStarted session _ _ _ _ _
  | WorkflowStageStarted session _ _
  | WorkflowStageMemberLinked session _ _ _ _ _
  | WorkflowStageRouteOutcome session _ _ _ _ _ _ _ _ _ _
  | WorkflowStageFinished session _ _ _
  | WorkflowRunFinished session _ _ _
  | MessageStarted session _ _ _ _
  | TurnBindingRecorded session _ _
  | UserPromptContextRecorded session _ _ _
  | MessageFinished session _ _ _ _ _
  | MessageDeleted session _
  | PartDeleted session _ _
  | StepStarted session _ _
  | StepFinished session _ _ _
  | TextStart session _ _
  | TextDelta session _ _ _
  | TextReplace session _ _ _
  | TextEnd session _ _
  | ReasoningStart session _ _ _
  | ReasoningDelta session _ _ _
  | ReasoningEnd session _ _ _
  | ReasoningReplace session _ _ _
  | ToolInputStart session _ _ _ _
  | ToolInputDelta session _ _ _ _ _
  | ToolCallRequested session _ _ _ _ _
  | ToolResult session _ _ _ _ _
  | ToolError session _ _ _ _ _
  | ToolPartUpdated session _ _ _
  | MemberSpawned session _ _ _ _ _ _ _
  | MemberStatusChanged session _ _
  | MemberFinished session _ _ _ _
  | AgentRegistered session _ _ _ _ _
  | AgentActivityChanged session _ _ _
  | ResidentWorkStarted session _ _ _ _
  | AgentHeartbeat session _ _
  | MailSent session _ _ _ _
  | ChannelJoined session _ _
  | ChannelLeft session _ _
  | ChannelCreated session _ _ _ _
  | SubagentReported session _ _ _ _ _
  | HandoffCommitted session _ _ _ _
  | AgentArchived session _ _ _
  | AgentRestarted session _ _ _
  | MailConsumed session _ _
  | ContextCompacted session _ _ _ _ _ _ _
  | SessionForked session _ _
  | ContextEvicted session _ _ _ _
  | ContextStatus session _ _ _ _
  | UsageRecorded session _ _ _ _ _
  | TodosUpdated session _
  | FilesChanged session _ _ _
  | SessionReverted session _ _
  | SessionUnreverted session _ => Some session
  | Error session _ _ _ => session
  | Unknown => None
  end.
End event.
#[global] Arguments t {U J}.
End Event.

Section envelope.
Context {U : UuidLib} {J : JsonLib}.

Record Envelope := mkEnvelope {
  env_seq : EventSeq;
  env_ts_millis : Z;
  env_event : Event.t;
}.
End envelope.
