(* ===== verification/Team.v ===== *)
(** * The team mailbox ([hya-proto/src/projection.rs], [TeamProjection])

    Roster, inboxes, channels and archive of one team, the resolution of addresses against the
    roster, and one definition per team event of [Projection::apply_event].  A [BTreeMap] keyed by
    [String] is a [gmap string], a [BTreeSet] a [gset]. *)

From S2P Require Import Prelude RustStr Platform Ids Scope Wire.

Section team.
Context {U : UuidLib}.

(** ** State *)

Record MailMessage := mkMailMessage {
  mm_from : string;
  mm_to : MailEndpoint.t;
  mm_kind : MailKind.t;
  mm_body : string;
}.

Record ChannelProjection := mkChannelProjection {
  ch_kind : ChannelKind.t;
  ch_unit : option string;
  ch_members : gset string;
  ch_log : list MailMessage;
}.

(** The derived [Default]; [ChannelKind]'s default is [Group]. *)
Definition ChannelProjection_default : ChannelProjection :=
  mkChannelProjection ChannelKind.Group None ∅ [].

Record ResidentWorkProjection := mkResidentWorkProjection {
  rw_epoch : ActorEpoch;
  rw_inbox_through : N;
}.

Record RosterEntry := mkRosterEntry {
  re_handle : string;
  re_session : SessionId;
  re_agent_type : AgentName;
  re_mode : SubagentMode.t;
  re_status : RosterStatus.t;
  re_current_task : option string;
  re_resident_cursor : N;
  re_heartbeat_ms : N;
  re_resident_work : option ResidentWorkProjection;
}.

Record ArchivedEntry := mkArchivedEntry {
  ae_handle : string;
  ae_session : SessionId;
  ae_agent_type : AgentName;
  ae_reason : ArchiveReason.t;
}.

Record TeamProjection := mkTeamProjection {
  team_inboxes : gmap string (list MailMessage);
  team_channels : gmap string ChannelProjection;
  team_roster : gmap string RosterEntry;
  team_archived : gmap string ArchivedEntry;
}.

Definition TeamProjection_default : TeamProjection := mkTeamProjection ∅ ∅ ∅ ∅.

#[global] Instance ChannelProjection_eta : EtaRecord ChannelProjection := fun r =>
  mkChannelProjection (ch_kind r) (ch_unit r) (ch_members r) (ch_log r).
#[global] Instance RosterEntry_eta : EtaRecord RosterEntry := fun r =>
  mkRosterEntry (re_handle r) (re_session r) (re_agent_type r) (re_mode r) (re_status r)
    (re_current_task r) (re_resident_cursor r) (re_heartbeat_ms r) (re_resident_work r).
#[global] Instance TeamProjection_eta : EtaRecord TeamProjection := fun r =>
  mkTeamProjection (team_inboxes r) (team_channels r) (team_roster r) (team_archived r).

Definition team_is_empty (team : TeamProjection) : bool :=
  bool_decide (team_inboxes team = ∅) && bool_decide (team_channels team = ∅)
  && bool_decide (team_roster team = ∅) && bool_decide (team_archived team = ∅).

(** ** Address resolution *)

(** [map.keys()]; the order of the keys never matters below. *)
Definition roster_keys (team : TeamProjection) : list string := (map_to_list (team_roster team)).*1.

(** [match (matches.next(), matches.next()) { (Some(only), None) => .. }] *)
Definition only_match (matches : list string) : option string :=
  match matches with [only] => Some only | _ => None end.

Definition canonical_member (self : TeamProjection) (raw : string) : string :=
  if contains PATH_SEPARATOR raw
     || bool_decide (raw = ROOT_HANDLE)
     || bool_decide (raw = HARNESS_HANDLE)
     || bool_decide (is_Some (team_roster self !! raw))
  then raw
  else match only_match (filter (fun key => leaf key = raw) (roster_keys self)) with
       | Some only => only
       | None => join_path ROOT_HANDLE raw
       end.

Definition canonical_channel (self : TeamProjection) (raw : string) : string :=
  if is_minted_channel_id raw || contains CHANNEL_SEPARATOR raw then raw
  else qualify_channel ROOT_HANDLE raw.

Definition leads_a_unit (self : TeamProjection) (path : string) : bool :=
  existsb (fun key => bool_decide (parent_path key = Some path)) (roster_keys self).

(** The closure [vertical] of [resolve_in_scope]. *)
Definition vertical (from key : string) : Prop :=
  key = from \/ parent_path key = Some from \/ key = default "" (parent_path from).
#[global] Instance vertical_dec from key : Decision (vertical from key).
Proof. unfold vertical. apply _. Defined.

Definition resolve_in_scope (self : TeamProjection) (from raw : string) : option string :=
  let raw := trim raw in
  only_match
    (filter (fun key => key = raw \/ leaf key = raw) (filter (vertical from) (roster_keys self))).

Inductive ChannelResolveError :=
  | InvalidName (name : string)
  | Reserved
  | CaretWithoutReports
  | NoHomeUnit.

Definition resolve_channel (self : TeamProjection) (from raw : string) :
    string + ChannelResolveError :=
  let raw := trim raw in
  if is_minted_channel_id raw then inl raw
  else
    let '(name, want_home) := match strip_prefix "^" raw with
                              | Some name => (trim name, true)
                              | None => (raw, false)
                              end in
    if negb (is_valid_channel_name name) then inr (InvalidName name)
    else if decide (name = ANNOUNCE_CHANNEL) then inr Reserved
    else
      let leads := leads_a_unit self from in
      let unit_ : string + ChannelResolveError :=
        if want_home : bool then
          if negb leads then inr CaretWithoutReports
          else match home_unit from with Some u => inl u | None => inr NoHomeUnit end
        else if leads then inl (led_unit from)
        else match home_unit from with Some u => inl u | None => inr NoHomeUnit end in
      match unit_ with
      | inl u => inl (qualify_channel u name)
      | inr e => inr e
      end.

Definition canonical_registered_path (session agent_session : SessionId) (handle : string)
    (parent : option string) : string :=
  if decide (agent_session = session) then ROOT_HANDLE
  else match parent with
       | Some parent => join_path parent handle
       | None => join_path ROOT_HANDLE handle
       end.

(** ** The roster events *)

Definition new_roster_entry (path : string) (agent_session : SessionId) (agent_type : AgentName)
    (mode : SubagentMode.t) : RosterEntry :=
  {| re_handle := path; re_session := agent_session; re_agent_type := agent_type;
     re_mode := mode; re_status := RosterStatus.Idle; re_current_task := None;
     re_resident_cursor := 0; re_heartbeat_ms := 0; re_resident_work := None |}.

Definition on_agent_registered (session agent_session : SessionId) (handle : string)
    (parent : option string) (agent_type : AgentName) (mode : SubagentMode.t)
    (team : TeamProjection) : TeamProjection :=
  let path := canonical_registered_path session agent_session handle parent in
  team <| team_roster ::=
    entry_update path (new_roster_entry path agent_session agent_type mode) (fun entry =>
      entry <| re_session := agent_session |> <| re_agent_type := agent_type |>
            <| re_mode := mode |>) |>.

(** A turn that ends consumes the messages it had taken. *)
Definition finish_work (entry : RosterEntry) : RosterEntry :=
  match re_resident_work entry with
  | Some work => entry <| re_resident_work := None |>
                       <| re_resident_cursor ::= fun c => N.max c (rw_inbox_through work) |>
  | None => entry
  end.

(** The status and label of a row; a turn that is no longer running is finished. *)
Definition set_activity (status : RosterStatus.t) (current_task : option string)
    (entry : RosterEntry) : RosterEntry :=
  let entry := entry <| re_status := status |> in
  let entry := if decide (is_Some current_task)
               then entry <| re_current_task := current_task |> else entry in
  if decide (status <> RosterStatus.Busy) then finish_work entry else entry.

Definition explicit_stop (status : RosterStatus.t) (current_task : option string) : bool :=
  bool_decide (status = RosterStatus.Failed)
  && bool_decide (current_task = Some "resident stopped").

Definition on_agent_activity_changed (handle : string) (status : RosterStatus.t)
    (current_task : option string) (team : TeamProjection) : TeamProjection :=
  let handle := canonical_member team handle in
  let terminal :=
    match status with RosterStatus.Done | RosterStatus.Failed => true | _ => false end in
  let explicit_stop := explicit_stop status current_task in
  let terminal_inbox_len :=
    if explicit_stop : bool
    then match team_inboxes team !! handle with
         | Some inbox => N.of_nat (length inbox)
         | None => 0%N
         end
    else 0%N in
  team <| team_roster ::= alter (fun entry =>
    let entry := set_activity status current_task entry in
    if terminal && explicit_stop && SubagentMode.is_resident (re_mode entry)
    then entry <| re_resident_cursor ::= fun c => N.max c terminal_inbox_len |>
    else entry) handle |>.

Definition on_resident_work_started (actor_session : SessionId) (handle : string)
    (epoch : ActorEpoch) (inbox_through : N) (team : TeamProjection) : TeamProjection :=
  let handle := canonical_member team handle in
  team <| team_roster ::= alter (fun entry =>
    if bool_decide (re_session entry = actor_session) && SubagentMode.is_resident (re_mode entry)
    then entry <| re_resident_work := Some (mkResidentWorkProjection epoch inbox_through) |>
    else entry) handle |>.

Definition on_agent_heartbeat (handle : string) (heartbeat_ms : N) (team : TeamProjection) :
    TeamProjection :=
  let handle := canonical_member team handle in
  team <| team_roster ::= alter (fun entry =>
    entry <| re_heartbeat_ms ::= fun h => N.max h heartbeat_ms |>) handle |>.

Definition on_agent_archived (handle : string) (child : SessionId) (reason : ArchiveReason.t)
    (team : TeamProjection) : TeamProjection :=
  let handle := canonical_member team handle in
  let team := match team_roster team !! handle with
              | Some entry =>
                  team <| team_roster ::= delete handle |>
                       <| team_archived ::= insert handle
                            (mkArchivedEntry handle child (re_agent_type entry) reason) |>
              | None => team
              end in
  team <| team_channels ::= fmap (fun channel =>
    if decide (ch_kind channel = ChannelKind.Group)
    then channel <| ch_members ::= fun members => members ∖ {[handle]} |>
    else channel) |>.

Definition on_mail_consumed (handle : string) (through : N) (team : TeamProjection) :
    TeamProjection :=
  let handle := canonical_member team handle in
  team <| team_roster ::= alter (fun entry =>
    entry <| re_resident_cursor ::= fun c => N.max c through |>) handle |>.

Definition on_agent_restarted (handle : string) (team : TeamProjection) : TeamProjection :=
  let handle := canonical_member team handle in
  team <| team_archived ::= delete handle |>.

(** ** The channel events *)

Definition on_channel_joined (channel member : string) (team : TeamProjection) : TeamProjection :=
  let key := canonical_channel team channel in
  let member := canonical_member team member in
  team <| team_channels ::= entry_update key ChannelProjection_default (fun ch =>
    ch <| ch_members ::= fun members => {[member]} ∪ members |>) |>.

Definition on_channel_left (channel member : string) (team : TeamProjection) : TeamProjection :=
  let key := canonical_channel team channel in
  let member := canonical_member team member in
  team <| team_channels ::= alter (fun ch =>
    ch <| ch_members ::= fun members => members ∖ {[member]} |>) key |>.

Definition on_channel_created (channel : string) (kind : ChannelKind.t) (unit_ : option string)
    (members : list string) (team : TeamProjection) : TeamProjection :=
  let key := canonical_channel team channel in
  let members := map (canonical_member team) members in
  team <| team_channels ::= entry_update key ChannelProjection_default (fun ch =>
    let ch := ch <| ch_kind := kind |> in
    let ch := match unit_ with Some _ => ch <| ch_unit := unit_ |> | None => ch end in
    ch <| ch_members ::= fun old => list_to_set members ∪ old |>) |>.

(** ** Mail *)

Definition push_inbox (member : string) (message : MailMessage) (team : TeamProjection) :
    TeamProjection :=
  team <| team_inboxes ::= entry_update member [] (fun inbox => inbox ++ [message]) |>.

(** A resident that ended its work takes no channel mail. *)
Definition skips_channel_mail (team : TeamProjection) (member : string) : bool :=
  match team_roster team !! member with
  | Some entry =>
      SubagentMode.is_resident (re_mode entry)
      && match re_status entry with RosterStatus.Done | RosterStatus.Failed => true | _ => false end
  | None => false
  end.

Definition canonical_endpoint (team : TeamProjection) (to : MailEndpoint.t) : MailEndpoint.t :=
  match to with
  | MailEndpoint.Handle handle => MailEndpoint.Handle (canonical_member team handle)
  | MailEndpoint.Channel channel => MailEndpoint.Channel (canonical_channel team channel)
  end.

Definition fan_out (message : MailMessage) (members : list string) (team : TeamProjection) :
    TeamProjection :=
  foldl (fun team member =>
    if skips_channel_mail team member then team else push_inbox member message team) team members.

Definition on_mail_sent (from : string) (to : MailEndpoint.t) (kind : MailKind.t) (body : string)
    (team : TeamProjection) : TeamProjection :=
  let to := canonical_endpoint team to in
  let message := mkMailMessage (canonical_member team from) to kind body in
  match to with
  | MailEndpoint.Handle handle => push_inbox handle message team
  | MailEndpoint.Channel channel =>
      let channel_state :=
        (default ChannelProjection_default (team_channels team !! channel))
          <| ch_log ::= fun log => log ++ [message] |> in
      fan_out message (elements (ch_members channel_state))
        (team <| team_channels ::= insert channel channel_state |>)
  end.
End team.

(** ** Steps and histories *)

Section steps.
Context {U : UuidLib}.
Implicit Types t : TeamProjection.

(** One step per event that touches the team. *)
Inductive team_step t : TeamProjection -> Prop :=
  | step_registered session agent_session handle parent agent_type mode :
      team_step t (on_agent_registered session agent_session handle parent agent_type mode t)
  | step_activity handle status task : team_step t (on_agent_activity_changed handle status task t)
  | step_work session handle epoch through :
      team_step t (on_resident_work_started session handle epoch through t)
  | step_heartbeat handle ms : team_step t (on_agent_heartbeat handle ms t)
  | step_archived handle child reason : team_step t (on_agent_archived handle child reason t)
  | step_consumed handle through : team_step t (on_mail_consumed handle through t)
  | step_restarted handle : team_step t (on_agent_restarted handle t)
  | step_joined channel member : team_step t (on_channel_joined channel member t)
  | step_left channel member : team_step t (on_channel_left channel member t)
  | step_created channel kind unit_ members :
      team_step t (on_channel_created channel kind unit_ members t)
  | step_mail from to kind body : team_step t (on_mail_sent from to kind body t).

Definition team_reachable t : Prop := rtc team_step TeamProjection_default t.

(** ** Fan-out *)

Definition channel_of t (c : string) : ChannelProjection :=
  default ChannelProjection_default (team_channels t !! c).

Lemma on_mail_sent_eq from to kind body t :
  on_mail_sent from to kind body t =
  let m := mkMailMessage (canonical_member t from) (canonical_endpoint t to) kind body in
  match canonical_endpoint t to with
  | MailEndpoint.Handle h => push_inbox h m t
  | MailEndpoint.Channel c =>
      fan_out m (elements (ch_members (channel_of t c)))
        (t <| team_channels ::= entry_update c ChannelProjection_default
                (fun ch => ch <| ch_log ::= fun log => log ++ [m] |>) |>)
  end.
Proof. unfold on_mail_sent. by destruct (canonical_endpoint t to). Qed.

Lemma lookup_push_inbox member m t h :
  team_inboxes (push_inbox member m t) !! h
  = if decide (member = h) then Some (default [] (team_inboxes t !! h) ++ [m])
    else team_inboxes t !! h.
Proof.
  unfold push_inbox. simpl. rewrite lookup_entry_update. by case_decide; simplify_eq.
Qed.

Lemma fan_out_frame m members t :
  team_roster (fan_out m members t) = team_roster t
  /\ team_channels (fan_out m members t) = team_channels t
  /\ team_archived (fan_out m members t) = team_archived t.
Proof.
  unfold fan_out. revert t. induction members as [|h members IH]; intros t; simpl; [done|].
  destruct (IH (if skips_channel_mail t h then t else push_inbox h m t)) as (-> & -> & ->).
  by destruct (skips_channel_mail t h).
Qed.

Lemma skips_channel_mail_roster t t' h :
  team_roster t = team_roster t' -> skips_channel_mail t h = skips_channel_mail t' h.
Proof. unfold skips_channel_mail. by intros ->. Qed.

(** Each subscriber that takes channel mail gets the message once, in any order of the set. *)
Lemma fan_out_inboxes m members t h :
  NoDup members ->
  team_inboxes (fan_out m members t) !! h
  = if decide (h ∈ members /\ skips_channel_mail t h = false)
    then Some (default [] (team_inboxes t !! h) ++ [m])
    else team_inboxes t !! h.
Proof.
  unfold fan_out. revert t. induction members as [|x members IH]; intros t Hnd; simpl.
  { done. }
  apply NoDup_cons in Hnd as [Hx Hnd]. rewrite IH by done.
  set (t' := if skips_channel_mail t x then t else push_inbox x m t).
  assert (team_roster t' = team_roster t) as Hr by (unfold t'; by case_match).
  rewrite (skips_channel_mail_roster t' t h) by done.
  destruct (decide (h = x)) as [->|Hne].
  - rewrite decide_False by tauto. unfold t'.
    destruct (skips_channel_mail t x) eqn:E.
    + by rewrite decide_False by (intros [_ ?]; congruence).
    + rewrite lookup_push_inbox, !decide_True; [done| |done]. split; [left|done].
  - assert (team_inboxes t' !! h = team_inboxes t !! h) as ->.
    { unfold t'. case_match; [done|]. by rewrite lookup_push_inbox, decide_False by congruence. }
    apply decide_ext. rewrite elem_of_cons. tauto.
Qed.

(** ** Growth *)

Definition inboxes_le (i j : gmap string (list MailMessage)) : Prop :=
  forall h l, i !! h = Some l -> exists l', j !! h = Some l' /\ l `prefix_of` l'.

Definition channels_le (c d : gmap string ChannelProjection) : Prop :=
  forall k ch, c !! k = Some ch -> exists ch', d !! k = Some ch' /\ ch_log ch `prefix_of` ch_log ch'.

#[global] Instance inboxes_le_preorder : PreOrder inboxes_le.
Proof.
  split; [intros i h l ?; by exists l|].
  intros i j k Hij Hjk h l (l' & Hl' & ?)%Hij. destruct (Hjk h l' Hl') as (l'' & ? & ?).
  exists l''. split; [done|]. by etrans.
Qed.

#[global] Instance channels_le_preorder : PreOrder channels_le.
Proof.
  split; [intros c k ch ?; by exists ch|].
  intros c d e Hcd Hde k ch (ch' & Hch' & ?)%Hcd. destruct (Hde k ch' Hch') as (ch'' & ? & ?).
  exists ch''. split; [done|]. by etrans.
Qed.

Lemma inboxes_le_entry i h m : inboxes_le i (entry_update h [] (fun l => l ++ [m]) i).
Proof.
  intros k l Hk. rewrite lookup_entry_update. case_decide; simplify_eq.
  - rewrite Hk. simpl. eexists; split; [done|]. by apply prefix_app_r.
  - by exists l.
Qed.

Lemma channels_le_entry c k d f :
  (forall ch, ch_log ch `prefix_of` ch_log (f ch)) -> channels_le c (entry_update k d f c).
Proof.
  intros Hf i ch Hi. rewrite lookup_entry_update. case_decide; simplify_eq.
  - rewrite Hi. simpl. by eexists.
  - by exists ch.
Qed.

Lemma channels_le_alter c k f :
  (forall ch, ch_log ch `prefix_of` ch_log (f ch)) -> channels_le c (alter f k c).
Proof.
  intros Hf i ch Hi. destruct (decide (k = i)) as [->|Hne].
  - rewrite lookup_alter_eq, Hi. simpl. by eexists.
  - rewrite lookup_alter_ne by done. by exists ch.
Qed.

Lemma channels_le_fmap c f :
  (forall ch, ch_log ch `prefix_of` ch_log (f ch)) -> channels_le c (f <$> c).
Proof. intros Hf i ch Hi. rewrite lookup_fmap, Hi. simpl. by eexists. Qed.

Lemma fan_out_le m members t : inboxes_le (team_inboxes t) (team_inboxes (fan_out m members t)).
Proof.
  unfold fan_out. revert t. induction members as [|h members IH]; intros t; simpl; [done|].
  etrans; [|apply IH]. case_match; [done|]. apply inboxes_le_entry.
Qed.

(** No event takes a message out of an inbox or a channel log, or reorders one. *)
Lemma team_step_le t t' :
  team_step t t' ->
  inboxes_le (team_inboxes t) (team_inboxes t')
  /\ channels_le (team_channels t) (team_channels t').
Proof.
  destruct 1; try (split; reflexivity).
  - unfold on_agent_archived. case_match; simpl; (split; [done|]);
      apply channels_le_fmap; intros; by case_decide.
  - split; [done|]. by apply channels_le_entry.
  - split; [done|]. by apply channels_le_alter.
  - split; [done|]. apply channels_le_entry. intros. by case_match.
  - rewrite on_mail_sent_eq. cbv zeta. destruct (canonical_endpoint t to).
    + split; [apply inboxes_le_entry|done].
    + match goal with |- context [fan_out ?m ?l ?t'] =>
        destruct (fan_out_frame m l t') as (_ & -> & _);
        split; [apply (fan_out_le m l t')|] end.
      apply channels_le_entry. intros ch. by apply prefix_app_r.
Qed.
End steps.

(** ** Canonical addresses *)

(** A path has a separator or is one of the two reserved roots. *)
Definition canonical_path (p : string) : Prop :=
  contains PATH_SEPARATOR p = true \/ p = ROOT_HANDLE \/ p = HARNESS_HANDLE.

(** A channel key is a minted id or a unit-qualified name. *)
Definition channel_key (k : string) : Prop :=
  is_minted_channel_id k = true \/ contains CHANNEL_SEPARATOR k = true.

Section canonical.
Context {U : UuidLib}.
Implicit Types t : TeamProjection.

Definition keys_canonical {A} (m : gmap string A) : Prop := map_Forall (fun k _ => canonical_path k) m.

Lemma join_path_canonical p l : canonical_path (join_path p l).
Proof. left. apply join_path_contains. Qed.

Lemma roster_keys_elem t k : k ∈ roster_keys t <-> is_Some (team_roster t !! k).
Proof.
  unfold roster_keys. rewrite list_elem_of_fmap. split.
  - intros ([i e] & -> & He%elem_of_map_to_list). eauto.
  - intros [e He]. exists (k, e). by rewrite elem_of_map_to_list.
Qed.

Lemma roster_keys_NoDup t : NoDup (roster_keys t).
Proof. apply NoDup_fst_map_to_list. Qed.

Lemma only_match_Some (P : string -> Prop) `{!forall x, Decision (P x)} l k :
  NoDup l ->
  only_match (filter P l) = Some k <-> k ∈ l /\ P k /\ (forall j, j ∈ l -> P j -> j = k).
Proof.
  intros Hnd. split.
  - destruct (filter P l) as [|x [|y l']] eqn:E; try done. intros [= <-].
    assert (forall j, j ∈ filter P l <-> j = x) as Hx
      by (intros j; rewrite E; by rewrite list_elem_of_singleton).
    setoid_rewrite list_elem_of_filter in Hx. destruct (proj2 (Hx x) eq_refl) as [HP Hin].
    split_and!; [done..|]. intros j Hj HPj. apply Hx. by split.
  - intros (Hin & HP & Huniq).
    assert (NoDup (filter P l)) as Hnd' by by apply NoDup_filter.
    assert (forall j, j ∈ filter P l <-> j = k) as Hx.
    { intros j. rewrite list_elem_of_filter. split; [intros [? ?]; auto|by intros ->]. }
    destruct (filter P l) as [|x [|y l']].
    + exfalso. by apply (not_elem_of_nil k), Hx.
    + simpl. f_equal. apply Hx. left.
    + exfalso. assert (x = k /\ y = k) as [-> ->] by (split; apply Hx; rewrite !elem_of_cons; auto).
      apply NoDup_cons in Hnd' as [Hn _]. apply Hn. left.
Qed.

Lemma canonical_member_canonical t raw :
  keys_canonical (team_roster t) -> canonical_path (canonical_member t raw).
Proof.
  intros Hr. unfold canonical_member.
  destruct (contains _ raw) eqn:Hc; [by left|].
  destruct (decide (raw = ROOT_HANDLE)) as [->|Hroot]; [by right; left|].
  destruct (decide (raw = HARNESS_HANDLE)) as [->|Hh]; [by right; right|].
  rewrite !(bool_decide_eq_false_2 (raw = _)) by done. simpl.
  destruct (decide (is_Some (team_roster t !! raw))) as [[e He]|Hin].
  { rewrite bool_decide_eq_true_2 by eauto. by eapply Hr. }
  rewrite bool_decide_eq_false_2 by done.
  destruct (only_match _) as [k|] eqn:E; [|apply join_path_canonical].
  apply only_match_Some in E as ([e He]%roster_keys_elem & _ & _); [by eapply Hr|].
  apply roster_keys_NoDup.
Qed.

Lemma canonical_member_path t p : canonical_path p -> canonical_member t p = p.
Proof.
  unfold canonical_member. intros Hp.
  assert (contains PATH_SEPARATOR p || bool_decide (p = ROOT_HANDLE)
          || bool_decide (p = HARNESS_HANDLE) = true) as ->; [|done].
  rewrite !orb_true_iff, !bool_decide_eq_true. unfold canonical_path in Hp. tauto.
Qed.

Lemma canonical_channel_key t c : channel_key (canonical_channel t c).
Proof.
  unfold canonical_channel. destruct (is_minted_channel_id c) eqn:E; [by left|]. simpl.
  destruct (contains CHANNEL_SEPARATOR c) eqn:E'; [by right|].
  right. apply qualify_channel_contains.
Qed.

Lemma canonical_channel_id t c : channel_key c -> canonical_channel t c = c.
Proof. unfold canonical_channel. intros [-> | ->]; [done|]. by rewrite orb_true_r. Qed.

Lemma canonical_registered_path_canonical session agent_session handle parent :
  canonical_path (canonical_registered_path session agent_session handle parent).
Proof.
  unfold canonical_registered_path. case_decide; [by right; left|].
  case_match; apply join_path_canonical.
Qed.

(** ** Well-formed teams *)

Definition roster_ok (r : gmap string RosterEntry) : Prop :=
  map_Forall (fun k e => canonical_path k /\ re_handle e = k) r.
Definition archived_ok (a : gmap string ArchivedEntry) : Prop :=
  map_Forall (fun k e => canonical_path k /\ ae_handle e = k) a.

(** A channel's posts are addressed to it and written by canonical senders. *)
Definition channel_ok (c : string) (ch : ChannelProjection) : Prop :=
  channel_key c /\ set_Forall canonical_path (ch_members ch)
  /\ Forall (fun m => mm_to m = MailEndpoint.Channel c /\ canonical_path (mm_from m)) (ch_log ch).

(** What an inbox holds was sent to its owner, or is in the log of the channel it was sent to. *)
Definition delivered (cs : gmap string ChannelProjection) (owner : string) (m : MailMessage) : Prop :=
  canonical_path (mm_from m)
  /\ match mm_to m with
     | MailEndpoint.Handle h => h = owner
     | MailEndpoint.Channel c => exists ch, cs !! c = Some ch /\ m ∈ ch_log ch
     end.
Definition inbox_ok (cs : gmap string ChannelProjection) (owner : string) (l : list MailMessage) :
    Prop := canonical_path owner /\ Forall (delivered cs owner) l.

Record team_wf t : Prop := {
  wf_roster : roster_ok (team_roster t);
  wf_archived : archived_ok (team_archived t);
  wf_channels : map_Forall channel_ok (team_channels t);
  wf_inboxes : map_Forall (inbox_ok (team_channels t)) (team_inboxes t);
}.

Lemma roster_ok_keys r : roster_ok r -> keys_canonical r.
Proof. intros Hr k e He. by destruct (Hr k e He). Qed.

Lemma wf_canonical_member t raw : team_wf t -> canonical_path (canonical_member t raw).
Proof. intros Ht. by apply canonical_member_canonical, roster_ok_keys, wf_roster. Qed.
#[local] Hint Resolve wf_canonical_member canonical_channel_key : core.

Lemma inboxes_ok_mono cs cs' (i : gmap string (list MailMessage)) :
  channels_le cs cs' -> map_Forall (inbox_ok cs) i -> map_Forall (inbox_ok cs') i.
Proof.
  intros Hcs Hi h l Hl. destruct (Hi h l Hl) as [Hh Hall]. split; [done|].
  eapply Forall_impl; [exact Hall|]. intros m [Hfrom Hto]. split; [done|].
  destruct (mm_to m) as [|c]; [done|]. destruct Hto as (ch & Hch & Hm).
  destruct (Hcs c ch Hch) as (ch' & Hch' & [k Hk]). exists ch'. split; [done|].
  rewrite Hk. set_solver.
Qed.

(** Events of the roster change rows, not keys. *)
Lemma wf_set_roster t r : team_wf t -> roster_ok r -> team_wf (t <| team_roster := r |>).
Proof. intros [] ?. by split. Qed.

Lemma wf_alter_roster t h f :
  team_wf t -> (forall e, re_handle (f e) = re_handle e) ->
  team_wf (t <| team_roster ::= alter f h |>).
Proof.
  intros Ht Hf. apply wf_set_roster; [done|]. apply map_Forall_alter; [by apply wf_roster|].
  intros e [? He]. by rewrite Hf.
Qed.

Lemma wf_set_channels t cs :
  team_wf t -> channels_le (team_channels t) cs -> map_Forall channel_ok cs ->
  team_wf (t <| team_channels := cs |>).
Proof. intros [] ??. split; try done. by eapply inboxes_ok_mono. Qed.

Lemma wf_push_inbox t h m :
  team_wf t -> canonical_path h -> delivered (team_channels t) h m -> team_wf (push_inbox h m t).
Proof.
  intros [] Hh Hm. split; try done. unfold push_inbox. simpl.
  apply map_Forall_entry_update; [done| |].
  - intros l [_ Hl]. split; [done|]. apply Forall_app. auto.
  - split; [done|]. simpl. auto.
Qed.

Lemma wf_fan_out t m members :
  team_wf t -> Forall canonical_path members -> (forall h, delivered (team_channels t) h m) ->
  team_wf (fan_out m members t).
Proof.
  intros Ht Hall Hm. unfold fan_out. revert t Ht Hm.
  induction Hall as [|h members Hh _ IH]; intros t Ht Hm; simpl; [done|].
  destruct (skips_channel_mail t h); [by apply IH|]. apply IH; [|done].
  by apply wf_push_inbox.
Qed.

Lemma channel_default_ok c : channel_key c -> channel_ok c ChannelProjection_default.
Proof. split; [done|]. split; [by intros ? ?%not_elem_of_empty|constructor]. Qed.
#[local] Hint Resolve channel_default_ok : core.

(** An entry of the channel table is rewritten keeping it well formed and its log growing. *)
Lemma wf_entry_channel t c f :
  team_wf t -> channel_key c ->
  (forall ch, ch_log ch `prefix_of` ch_log (f ch)) ->
  (forall ch, channel_ok c ch -> channel_ok c (f ch)) ->
  team_wf (t <| team_channels ::= entry_update c ChannelProjection_default f |>).
Proof.
  intros Ht Hc Hle Hok. apply (wf_set_channels t (entry_update c _ f _)); [done| |].
  - by apply channels_le_entry.
  - apply map_Forall_entry_update; [by apply wf_channels|done|auto].
Qed.

Lemma wf_mail_sent t from to kind body : team_wf t -> team_wf (on_mail_sent from to kind body t).
Proof.
  intros Ht. rewrite on_mail_sent_eq. cbv zeta. destruct to as [h|c]; cbn [canonical_endpoint].
  { apply wf_push_inbox; [done|auto|]. split; simpl; auto. }
  apply wf_fan_out.
  - apply wf_entry_channel; [done..|intros; by apply prefix_app_r|].
    intros ch (? & ? & ?). split; [done|]. split; [done|]. apply Forall_app.
    split; [done|]. apply Forall_singleton. split; [done|]. simpl. auto.
  - apply Forall_forall. intros h. rewrite elem_of_elements. unfold channel_of.
    destruct (team_channels t !! _) as [ch|] eqn:E; simpl; [|by intros ?%not_elem_of_empty].
    destruct (wf_channels t Ht _ _ E) as (_ & Hm & _). apply Hm.
  - intros h. split; [simpl; auto|]. simpl. eexists. rewrite lookup_entry_update.
    rewrite decide_True by done. split; [done|]. simpl. set_solver.
Qed.

Lemma team_step_wf t t' : team_wf t -> team_step t t' -> team_wf t'.
Proof.
  intros Ht. destruct 1.
  - unfold on_agent_registered. apply (wf_set_roster t (entry_update _ _ _ _)); [done|].
    pose proof (canonical_registered_path_canonical session agent_session handle parent).
    apply map_Forall_entry_update; [by apply wf_roster|by intros e []|by split].
  - apply wf_alter_roster; [done|]. intros e.
    unfold set_activity, finish_work. by repeat case_match.
  - apply wf_alter_roster; [done|]. intros e. by case_match.
  - by apply wf_alter_roster.
  - unfold on_agent_archived. set (h := canonical_member t handle).
    set (t' := match _ with Some _ => _ | None => _ end).
    assert (team_wf t') as Ht'.
    { unfold t'. destruct (team_roster t !! h) as [e|] eqn:E; [|done].
      destruct Ht. split; simpl; try done.
      - by apply map_Forall_delete.
      - apply map_Forall_insert_2; [|done]. split; [|done].
        by destruct (wf_roster0 h e E). }
    apply (wf_set_channels t' (_ <$> team_channels t')); [done| |].
    + apply channels_le_fmap. intros. by case_decide.
    + intros k ch. rewrite lookup_fmap, fmap_Some. intros (ch0 & E & ->).
      destruct (wf_channels t' Ht' k ch0 E) as (? & ? & ?). case_decide; [|done].
      split; [done|]. split; [|done]. set_solver.
  - by apply wf_alter_roster.
  - destruct Ht. split; simpl; try done. by apply map_Forall_delete.
  - apply wf_entry_channel; [done|auto|done|]. intros ch (? & ? & ?). split; [done|].
    split; [|done]. intros x. simpl. rewrite elem_of_union, elem_of_singleton.
    intros [-> |]; auto.
  - apply (wf_set_channels t (alter _ _ _)); [done|by apply channels_le_alter|].
    apply map_Forall_alter; [by apply wf_channels|]. intros ch (? & ? & ?).
    split; [done|]. split; [|done]. set_solver.
  - apply wf_entry_channel; [done|auto|by intros; case_match|].
    intros ch (? & Hm & ?). split; [done|].
    split; [|by case_match]. intros x Hx.
    assert (x ∈ list_to_set (C := gset string) (map (canonical_member t) members) ∪ ch_members ch)
      as [Hin|]%elem_of_union by (by destruct unit_); [|auto].
    rewrite elem_of_list_to_set in Hin. apply list_elem_of_fmap in Hin as (y & -> & _). auto.
  - by apply wf_mail_sent.
Qed.
End canonical.

(** ** Properties of the team fold *)

Section properties.
Context {U : UuidLib}.
Implicit Types t : TeamProjection.

Lemma team_reachable_wf t : team_reachable t -> team_wf t.
Proof.
  unfold team_reachable. intros Ht.
  assert (team_wf TeamProjection_default) as H0 by (split; apply map_Forall_empty).
  revert H0. induction Ht; eauto using team_step_wf.
Qed.

(** every address the team fold stores is canonical.  In any state a log reaches, a roster or
    archive row is stored under its own handle, every handle is a canonical path, every channel
    key is minted or unit-qualified, a channel's log holds only posts addressed to it and an
    inbox only mail addressed to its owner or logged by the channel it names; resolving a
    resolved address changes nothing. *)
Theorem team_addresses_canonical t :
  team_reachable t ->
  team_wf t
  /\ (forall raw, canonical_path (canonical_member t raw)
        /\ canonical_member t (canonical_member t raw) = canonical_member t raw)
  /\ (forall raw, canonical_channel t (canonical_channel t raw) = canonical_channel t raw).
Proof.
  intros Ht%team_reachable_wf. split; [done|]. split.
  - intros raw. pose proof (wf_canonical_member t raw Ht). split; [done|].
    by apply canonical_member_path.
  - intros raw. apply canonical_channel_id, canonical_channel_key.
Qed.

(** Who takes delivery of a message with a canonical endpoint. *)
Definition receives t (to : MailEndpoint.t) (h : string) : Prop :=
  match to with
  | MailEndpoint.Handle r => r = h
  | MailEndpoint.Channel c =>
      h ∈ ch_members (channel_of t c) /\ skips_channel_mail t h = false
  end.
#[global] Instance receives_dec t to h : Decision (receives t to h).
Proof. unfold receives. destruct to; apply _. Defined.

(** a message is delivered exactly once to exactly its recipients.  The inbox of the addressed
    handle, or of each current subscriber of the addressed channel that is not a finished
    resident, grows by the message at its end; every other inbox is untouched; the addressed
    channel's log grows by the message whoever is subscribed; roster and archive are unchanged. *)
Theorem mail_sent_delivery t from to kind body :
  let t' := on_mail_sent from to kind body t in
  let m := mkMailMessage (canonical_member t from) (canonical_endpoint t to) kind body in
  (forall h, team_inboxes t' !! h =
     if decide (receives t (canonical_endpoint t to) h) then Some (default [] (team_inboxes t !! h) ++ [m])
     else team_inboxes t !! h)
  /\ (forall c, ch_log (channel_of t' c) =
        if decide (canonical_endpoint t to = MailEndpoint.Channel c)
        then ch_log (channel_of t c) ++ [m] else ch_log (channel_of t c))
  /\ (forall c, ch_members (channel_of t' c) = ch_members (channel_of t c))
  /\ team_roster t' = team_roster t /\ team_archived t' = team_archived t.
Proof.
  cbv zeta. rewrite on_mail_sent_eq. cbv zeta. destruct (canonical_endpoint t to) as [r|c].
  - split_and!; try done. intros h. rewrite lookup_push_inbox. by apply decide_ext.
  - set (m := mkMailMessage _ _ _ _). set (l := elements _). set (t1 := t <| team_channels ::= _ |>).
    destruct (fan_out_frame m l t1) as (Hr & Hc & Ha).
    assert (forall d, channel_of (fan_out m l t1) d = if decide (c = d)
              then (channel_of t c) <| ch_log ::= fun log => log ++ [m] |> else channel_of t d) as Hof.
    { intros d. unfold channel_of. rewrite Hc. unfold t1. simpl. rewrite lookup_entry_update.
      by case_decide. }
    split_and!; [..|by rewrite Hr|by rewrite Ha].
    + intros h. rewrite fan_out_inboxes by apply NoDup_elements. apply decide_ext.
      unfold l. by rewrite elem_of_elements.
    + intros d. rewrite Hof. destruct (decide (c = d)) as [->|]; [by rewrite decide_True|].
      by rewrite decide_False by congruence.
    + intros d. rewrite Hof. by destruct (decide (c = d)) as [->|].
Qed.

(** ** Rows of the roster *)

Definition row_le (e f : RosterEntry) : Prop :=
  re_handle e = re_handle f
  /\ (re_resident_cursor e <= re_resident_cursor f)%N
  /\ (re_heartbeat_ms e <= re_heartbeat_ms f)%N.

#[global] Instance row_le_preorder : PreOrder row_le.
Proof. unfold row_le. split; [intros ?|intros ??? (?&?&?) (?&?&?)]; split_and!; lia || congruence. Qed.

Lemma row_le_alter (r : gmap string RosterEntry) f h k e :
  (forall x, row_le x (f x)) -> r !! k = Some e ->
  exists e', alter f h r !! k = Some e' /\ row_le e e'.
Proof.
  intros Hf Hk. destruct (decide (h = k)) as [->|].
  - rewrite lookup_alter_eq, Hk. simpl. eauto.
  - rewrite lookup_alter_ne by done. by exists e.
Qed.

Lemma finish_work_le e : row_le e (finish_work e).
Proof. unfold finish_work, row_le. case_match; simpl; split_and!; done || lia. Qed.

Lemma set_activity_le status task e : row_le e (set_activity status task e).
Proof.
  unfold set_activity. set (x := e <| re_status := status |>).
  transitivity x; [done|]. transitivity (if decide (is_Some task)
    then x <| re_current_task := task |> else x); [by case_decide|].
  destruct (decide (status <> _)); [apply finish_work_le|done].
Qed.

Lemma team_step_rows t t' k e :
  team_step t t' -> team_roster t !! k = Some e ->
  (exists e', team_roster t' !! k = Some e' /\ row_le e e')
  \/ (team_roster t' !! k = None
      /\ exists a, team_archived t' !! k = Some a /\ ae_agent_type a = re_agent_type e).
Proof.
  intros Hstep Hk. destruct Hstep; try (left; exists e; by split).
  - left. unfold on_agent_registered. simpl. rewrite lookup_entry_update.
    case_decide; simplify_eq; [|by exists e]. rewrite Hk. simpl. by eexists.
  - left. apply row_le_alter; [|done]. intros x.
    destruct (set_activity_le status task x) as (? & ? & ?).
    cbv zeta. case_match; split_and!; simpl; done || lia.
  - left. apply row_le_alter; [|done]. intros x. by case_match.
  - left. apply row_le_alter; [|done]. intros x. split_and!; simpl; done || lia.
  - unfold on_agent_archived. destruct (decide (canonical_member t handle = k)) as [->|Hne].
    + right. rewrite Hk. simpl. rewrite lookup_delete_eq, lookup_insert_eq. by split; [|eexists].
    + left. exists e. split; [|done]. case_match; simpl; [by rewrite lookup_delete_ne|done].
  - left. apply row_le_alter; [|done]. intros x. split_and!; simpl; done || lia.
  - left. exists e. split; [|done]. rewrite on_mail_sent_eq. cbv zeta.
    case_match; [done|].
    match goal with |- context [fan_out ?m ?l ?t'] => by destruct (fan_out_frame m l t') as (-> & _) end.
Qed.

(** team history only grows.  Along any sequence of events, no message leaves or moves within
    an inbox or a channel log.  One event keeps a member's roster row under its key with its
    consumption cursor and heartbeat not lower, unless it archives the member, which removes the
    row and records its agent type in the archive. *)
Theorem team_history_grows t t' u k e :
  rtc team_step t t' -> team_step t' u -> team_roster t' !! k = Some e ->
  inboxes_le (team_inboxes t) (team_inboxes u)
  /\ channels_le (team_channels t) (team_channels u)
  /\ ((exists e', team_roster u !! k = Some e' /\ row_le e e')
      \/ (team_roster u !! k = None
          /\ exists a, team_archived u !! k = Some a /\ ae_agent_type a = re_agent_type e)).
Proof.
  intros Hsteps Hu Hk.
  assert (inboxes_le (team_inboxes t) (team_inboxes u)
          /\ channels_le (team_channels t) (team_channels u)) as [? ?].
  { clear k e Hk. induction Hsteps as [t|t t1 t' Hstep _ IH]; [by apply team_step_le|].
    destruct (IH Hu), (team_step_le _ _ Hstep). split; by etrans. }
  split_and!; [done..|]. by eapply team_step_rows.
Qed.

(** ** Addressing *)

(** [resolve_in_scope] answers with a roster member exactly when one member, and only one,
    both lies on the sender's vertical line and carries the address as its path or its leaf; in a
    state a log reaches the answer is the sender itself, its parent or a direct report, never a
    sibling. *)
Theorem resolve_in_scope_spec t from raw p :
  team_reachable t ->
  (resolve_in_scope t from raw = Some p <->
     (is_Some (team_roster t !! p) /\ vertical from p /\ (p = trim raw \/ leaf p = trim raw))
     /\ forall q, is_Some (team_roster t !! q) -> vertical from q ->
                  q = trim raw \/ leaf q = trim raw -> q = p)
  /\ (resolve_in_scope t from raw = Some p ->
        relation from p = Some Relation.Own \/ relation from p = Some Relation.Parent
        \/ relation from p = Some Relation.Report).
Proof.
  intros Ht%team_reachable_wf.
  assert (resolve_in_scope t from raw = Some p <->
     (is_Some (team_roster t !! p) /\ vertical from p /\ (p = trim raw \/ leaf p = trim raw))
     /\ forall q, is_Some (team_roster t !! q) -> vertical from q ->
                  q = trim raw \/ leaf q = trim raw -> q = p) as Hspec.
  { unfold resolve_in_scope.
    rewrite only_match_Some by apply NoDup_filter, roster_keys_NoDup.
    setoid_rewrite list_elem_of_filter. setoid_rewrite roster_keys_elem.
    split; [intros ([? ?] & ? & Hq)|intros ([? [? ?]] & Hq)]; split_and!; try done.
    - intros q ???. by apply Hq.
    - intros q [??] ?. by apply Hq. }
  split; [done|]. rewrite Hspec. intros [([e He] & Hv & _) _].
  destruct (wf_roster t Ht p e He) as [Hp _].
  unfold relation. destruct (decide (from = p)) as [|Hne]; [by left|]. right.
  destruct (decide (parent_path from = Some p)) as [|Hpar]; [by left|].
  destruct Hv as [?|[Hrep|Hdef]]; [congruence|right; by rewrite decide_True|].
  exfalso. destruct (parent_path from) as [q|]; simpl in Hdef; [congruence|].
  subst p. by destruct Hp as [?|[?|?]].
Qed.

(** The unit a bare or careted channel name addresses. *)
Definition addressed_unit t (from : string) (want_home : bool) : string + ChannelResolveError :=
  let home := match home_unit from with Some u => inl u | None => inr NoHomeUnit end in
  match want_home, leads_a_unit t from with
  | true, true => home
  | true, false => inr CaretWithoutReports
  | false, true => inl (led_unit from)
  | false, false => home
  end.

(** the channel address table.  Of a trimmed address that is no minted id, a bare or careted
    name is refused when it is no channel name, refused when it is the reserved announce name,
    and otherwise goes to the unit of the table; so whatever resolves is its own canonical key
    and is never a unit's announce channel. *)
Theorem resolve_channel_table t from raw :
  let addr := trim raw in
  let want_home := bool_decide (is_Some (strip_prefix "^" addr)) in
  let name := match strip_prefix "^" addr with Some n => trim n | None => addr end in
  (is_minted_channel_id addr = true -> resolve_channel t from raw = inl addr)
  /\ (is_minted_channel_id addr = false -> is_valid_channel_name name = false ->
        resolve_channel t from raw = inr (InvalidName name))
  /\ (is_minted_channel_id addr = false -> name = ANNOUNCE_CHANNEL ->
        resolve_channel t from raw = inr Reserved)
  /\ (is_minted_channel_id addr = false -> is_valid_channel_name name = true ->
        name <> ANNOUNCE_CHANNEL ->
        resolve_channel t from raw =
          match addressed_unit t from want_home with
          | inl u => inl (qualify_channel u name)
          | inr e => inr e
          end)
  /\ (forall key, resolve_channel t from raw = inl key ->
        canonical_channel t key = key /\ forall u, key <> announce_channel_of u).
Proof.
  cbv zeta. set (addr := trim raw). set (want_home := bool_decide _).
  set (name := match strip_prefix "^" addr with Some n => trim n | None => addr end).
  assert (resolve_channel t from raw =
    if is_minted_channel_id addr then inl addr
    else if negb (is_valid_channel_name name) then inr (InvalidName name)
    else if decide (name = ANNOUNCE_CHANNEL) then inr Reserved
    else match addressed_unit t from want_home with
         | inl u => inl (qualify_channel u name) | inr e => inr e end) as Heq.
  { unfold resolve_channel, addressed_unit. fold addr. unfold name, want_home.
    destruct (strip_prefix "^" addr) as [n|]; cbn [is_Some];
      [rewrite bool_decide_eq_true_2 by eauto|rewrite bool_decide_eq_false_2 by by intros []];
      (destruct (is_minted_channel_id addr); [done|]);
      (destruct (is_valid_channel_name _); [|done]); simpl; (case_decide; [done|]);
      by destruct (leads_a_unit t from), (home_unit from). }
  rewrite Heq. clear Heq. split_and!.
  - by intros ->.
  - by intros -> ->.
  - by intros -> ->.
  - intros -> -> ?. simpl. by rewrite decide_False.
  - intros key. destruct (is_minted_channel_id addr) eqn:Hm.
    + intros [= <-]. split; [apply canonical_channel_id; by left|].
      intros u ->. destruct (minted_no_separator _ Hm) as [_ Hc].
      unfold announce_channel_of in Hc. by rewrite qualify_channel_contains in Hc.
    + destruct (is_valid_channel_name name) eqn:Hv; simpl; [|done].
      case_decide as Hn; [done|]. destruct (addressed_unit _ _ _) as [u|]; [|done].
      intros [= <-]. split.
      * apply canonical_channel_id. right. apply qualify_channel_contains.
      * intros v Heq. apply Hn. apply is_valid_leaf_spec in Hv as (_ & _ & _ & Hc).
        assert (Some (u, name) = Some (v, ANNOUNCE_CHANNEL)) as [= _ ->]; [|done].
        rewrite <- !split_qualify by done. by f_equal.
Qed.

(** ** Logs from before scoping *)

(** A flat team: the root and its direct reports. *)
Definition flat t : Prop :=
  map_Forall (fun k _ => k = ROOT_HANDLE
    \/ exists l, contains PATH_SEPARATOR l = false /\ k = join_path ROOT_HANDLE l) (team_roster t).

Definition flat_path (raw : string) : string :=
  if contains PATH_SEPARATOR raw || bool_decide (raw = ROOT_HANDLE)
     || bool_decide (raw = HARNESS_HANDLE)
  then raw else join_path ROOT_HANDLE raw.

Lemma flat_canonical t raw : flat t -> canonical_member t raw = flat_path raw.
Proof.
  intros Hflat. unfold canonical_member, flat_path.
  destruct (contains PATH_SEPARATOR raw) eqn:Hc; [done|]. simpl.
  destruct (decide (raw = ROOT_HANDLE)) as [->|Hr]; [done|].
  rewrite (bool_decide_eq_false_2 (raw = ROOT_HANDLE)) by done. simpl.
  destruct (decide (raw = HARNESS_HANDLE)) as [->|Hh]; [done|].
  rewrite (bool_decide_eq_false_2 (raw = HARNESS_HANDLE)) by done. simpl.
  assert (forall k, is_Some (team_roster t !! k) -> k = raw -> False) as Hno.
  { intros k [e He] ->. destruct (Hflat _ _ He) as [?|(l & _ & ->)]; [done|].
    by rewrite join_path_contains in Hc. }
  rewrite bool_decide_eq_false_2 by (intros ?; by eapply Hno).
  destruct (only_match _) as [k|] eqn:E; [|done].
  apply only_match_Some in E as ([e He]%roster_keys_elem & <- & _); [|apply roster_keys_NoDup].
  destruct (Hflat _ _ He) as [->|(l & Hl & ->)]; [done|]. by rewrite leaf_join.
Qed.

Lemma flat_registered t session agent handle agent_type mode :
  flat t -> contains PATH_SEPARATOR handle = false ->
  flat (on_agent_registered session agent handle None agent_type mode t).
Proof.
  intros Hflat Hh. unfold on_agent_registered, flat. simpl.
  assert (canonical_registered_path session agent handle None = ROOT_HANDLE
    \/ exists l, contains PATH_SEPARATOR l = false
        /\ canonical_registered_path session agent handle None = join_path ROOT_HANDLE l)
    by (unfold canonical_registered_path; case_decide; eauto).
  by apply map_Forall_entry_update.
Qed.

(** Replaying a log from before scoping does not depend on whether a member's registration or
    the mail to it comes first.  In a flat team, mail to a handle and the parentless registration
    of any member commute, and mail to the bare handle of a child is delivered under the very
    path the registration of that child binds. *)
Theorem legacy_order_independent t session agent handle agent_type mode from to kind body :
  flat t -> contains PATH_SEPARATOR handle = false ->
  on_mail_sent from (MailEndpoint.Handle to) kind body
    (on_agent_registered session agent handle None agent_type mode t)
  = on_agent_registered session agent handle None agent_type mode
      (on_mail_sent from (MailEndpoint.Handle to) kind body t)
  /\ (agent <> session -> handle <> ROOT_HANDLE -> handle <> HARNESS_HANDLE ->
        canonical_member t handle = canonical_registered_path session agent handle None).
Proof.
  intros Hflat Hh. split.
  - unfold on_mail_sent, canonical_endpoint.
    rewrite !(flat_canonical t), !flat_canonical by auto using flat_registered. done.
  - intros Hne Hr Hha. rewrite flat_canonical by done.
    unfold flat_path, canonical_registered_path.
    by rewrite Hh, !bool_decide_eq_false_2, decide_False.
Qed.
End properties.

(** ** Examples *)

Definition demo_session : SessionId := Hysec "00000000000000000000".
Definition demo_child : SessionId := Hysec "11111111111111111111".

(** The root and one resident report. *)
Definition demo_team : TeamProjection :=
  on_agent_registered demo_session demo_child "lead-1" (Some "main") (StrNewtype "build")
    SubagentMode.Resident
    (on_agent_registered demo_session demo_session "main" None (StrNewtype "build")
       SubagentMode.Transient TeamProjection_default).

Lemma demo_team_reachable : team_reachable demo_team.
Proof. unfold team_reachable. do 2 (eapply rtc_r; [|apply step_registered]). done. Defined.

Lemma team_addresses_canonical_witness :
  canonical_member demo_team (canonical_member demo_team "lead-1") = "main/lead-1".
Proof.
  destruct (team_addresses_canonical demo_team demo_team_reachable) as (_ & Hc & _).
  destruct (Hc "lead-1") as [_ ->]. reflexivity.
Defined.

Lemma team_history_grows_witness :
  exists e', team_roster (on_agent_heartbeat "lead-1" 7 demo_team) !! "main/lead-1" = Some e'
             /\ (0 <= re_heartbeat_ms e')%N.
Proof.
  destruct (team_history_grows demo_team demo_team (on_agent_heartbeat "lead-1" 7 demo_team)
    "main/lead-1" (new_roster_entry "main/lead-1" demo_child (StrNewtype "build")
                     SubagentMode.Resident)) as (_ & _ & [(e' & He & Hle)|[Hno _]]).
  - apply rtc_refl.
  - apply step_heartbeat.
  - reflexivity.
  - exists e'. split; [exact He|apply Hle].
  - assert (is_Some (team_roster (on_agent_heartbeat "lead-1" 7 demo_team) !! "main/lead-1"))
      as [e He] by (eexists; reflexivity).
    rewrite He in Hno. discriminate Hno.
Defined.

Lemma resolve_in_scope_spec_witness : relation "main" "main/lead-1" = Some Relation.Report.
Proof.
  destruct (resolve_in_scope_spec demo_team "main" " lead-1 " "main/lead-1" demo_team_reachable)
    as [_ Hrel].
  destruct Hrel as [H|[H|H]]; [vm_compute; reflexivity|vm_compute in H; discriminate H..|exact H].
Defined.

Lemma resolve_channel_table_witness :
  resolve_channel demo_team "main/lead-1" "#bad" = inr (InvalidName "#bad")
  /\ resolve_channel demo_team "main/lead-1" "build" = inl "main#build"
  /\ canonical_channel demo_team "main#build" = "main#build".
Proof.
  destruct (resolve_channel_table demo_team "main/lead-1" "#bad") as (_ & Hbad & _).
  destruct (resolve_channel_table demo_team "main/lead-1" "build") as (_ & _ & _ & Hok & Hkey).
  assert (resolve_channel demo_team "main/lead-1" "build" = inl "main#build") as Hb.
  { rewrite Hok; [reflexivity|reflexivity|reflexivity|done]. }
  split_and!; [apply Hbad; reflexivity|exact Hb|apply (Hkey _ Hb)].
Defined.

Lemma legacy_order_independent_witness :
  canonical_member TeamProjection_default "worker" = "main/worker"
  /\ on_mail_sent "main" (MailEndpoint.Handle "worker") MailKind.Message "go"
       (on_agent_registered demo_session demo_child "worker" None (StrNewtype "build")
          SubagentMode.Transient TeamProjection_default)
     = on_agent_registered demo_session demo_child "worker" None (StrNewtype "build")
         SubagentMode.Transient
         (on_mail_sent "main" (MailEndpoint.Handle "worker") MailKind.Message "go"
            TeamProjection_default).
Proof.
  destruct (legacy_order_independent TeamProjection_default demo_session demo_child "worker"
    (StrNewtype "build") SubagentMode.Transient "main" "worker" MailKind.Message "go")
    as [Heq Hpath]; [intros k e He; discriminate He|reflexivity|].
  split; [|exact Heq]. rewrite Hpath; [reflexivity|discriminate..].
Defined.
