(* ===== verification/Projection.v ===== *)
(** * The session fold ([hya-proto/src/projection.rs], [projection/helpers.rs])

    [SessionProjection] and [Projection] are the folded view of one event log.  Each arm of
    [Projection::apply_event] that changes state is one definition [on_<event>]; [apply_event]
    dispatches, [apply] adds the sequence guard and the time stamps, and [from_events] folds a
    log.  Writes through [message_mut] and [find_part], which search from the back, are
    [update_last]. *)

From S2P Require Import Prelude RustStr Platform Ids Scope Wire Workflow Usage Events Team.
From Stdlib Require Import SpecFloat.

Section projection.
Context {U : UuidLib} {J : JsonLib}.

(** ** State *)

Record ContextStatusProjection := mkContextStatusProjection {
  cs_tokens : N;
  cs_source : TokenSource.t;
  cs_mode : TokenAccountingMode.t;
  cs_threshold : N;
}.

Record MemberProjection := mkMemberProjection {
  mp_member : MemberId;
  mp_child : option SessionId;
  mp_subagent_type : AgentName;
  mp_description : string;
  mp_depth : N;
  mp_status : MemberRunStatus.t;
  mp_summary : string;
  mp_directive : string;
  mp_tool_call : option ToolCallId;
}.

Record MessageError := mkMessageError { me_code : string; me_message : string }.

Inductive PartProjection :=
  | Text (id : PartId) (text : string)
  | Reasoning (id : PartId) (text : string) (reason : option string)
      (provider_data : option Value)
  | Tool (id : PartId) (call : ToolCallId) (name : ToolName) (state : ToolPartState.t).

Definition part_id (p : PartProjection) : PartId :=
  match p with Text id _ | Reasoning id _ _ _ | Tool id _ _ _ => id end.

Record MessageProjection := mkMessageProjection {
  msg_id : MessageId;
  msg_role : Role.t;
  msg_agent : option AgentName;
  msg_model : option ModelRef;
  msg_time_created : option Z;
  msg_time_updated : option Z;
  msg_config_generation : option ConfigGeneration;
  msg_finish : option FinishReason.t;
  msg_cause : option FinishCause.t;
  msg_tokens : option TokenUsage;
  msg_usage : option MessageUsage;
  msg_files : list Value;
  msg_agents : list Value;
  msg_parts : list PartProjection;
  msg_file_changes : list FileChangeRecord;
  msg_error : option MessageError;
}.

Definition served_model (m : MessageProjection) : option ModelRef :=
  match mu_model <$> msg_usage m with Some model => Some model | None => msg_model m end.

Record RevertProjection := mkRevertProjection {
  rv_message : MessageId;
  rv_hidden : list MessageProjection;
  rv_files : list FileRestore;
}.

Record HandoffProjection := mkHandoffProjection {
  ho_generation : N;
  ho_doc : string;
  ho_degraded : bool;
}.

Record SessionProjection := mkSessionProjection {
  sp_id : option SessionId;
  sp_parent : option SessionId;
  sp_agent : option AgentName;
  sp_model : option ModelRef;
  sp_workdir : option string;
  sp_project : option ProjectId;
  sp_kind : SessionKind.t;
  sp_agent_model_overrides : gmap string ModelRef;
  sp_permission_mode : option string;
  sp_title : option string;
  sp_metadata : option Value;
  sp_permission : option (list Value);
  sp_handoff : option HandoffProjection;
  sp_archived : option Number;
  sp_ephemeral : bool;
  sp_share : option string;
  sp_messages : list MessageProjection;
  sp_members : list MemberProjection;
  sp_workflow : option WorkflowProjection;
  sp_context_status : option ContextStatusProjection;
  sp_forked_from : option SessionId;
  sp_forked_before : option MessageId;
  sp_revert : option RevertProjection;
  sp_usage : SessionUsage;
  sp_todos : option (list TodoItem);
}.

Record Projection := mkProjection {
  p_session : SessionProjection;
  p_team : TeamProjection;
  p_last_seq : N;
}.

Definition SessionProjection_default : SessionProjection :=
  mkSessionProjection None None None None None None SessionKind.Project ∅ None None None None None
    None false None [] [] None None None None None SessionUsage_default None.

Definition Projection_default : Projection :=
  mkProjection SessionProjection_default TeamProjection_default 0.

#[global] Instance MemberProjection_eta : EtaRecord MemberProjection := fun r =>
  mkMemberProjection (mp_member r) (mp_child r) (mp_subagent_type r) (mp_description r)
    (mp_depth r) (mp_status r) (mp_summary r) (mp_directive r) (mp_tool_call r).
#[global] Instance MessageProjection_eta : EtaRecord MessageProjection := fun r =>
  mkMessageProjection (msg_id r) (msg_role r) (msg_agent r) (msg_model r) (msg_time_created r)
    (msg_time_updated r) (msg_config_generation r) (msg_finish r) (msg_cause r) (msg_tokens r)
    (msg_usage r) (msg_files r) (msg_agents r) (msg_parts r) (msg_file_changes r) (msg_error r).
#[global] Instance RevertProjection_eta : EtaRecord RevertProjection := fun r =>
  mkRevertProjection (rv_message r) (rv_hidden r) (rv_files r).
#[global] Instance SessionProjection_eta : EtaRecord SessionProjection := fun r =>
  mkSessionProjection (sp_id r) (sp_parent r) (sp_agent r) (sp_model r) (sp_workdir r)
    (sp_project r) (sp_kind r) (sp_agent_model_overrides r) (sp_permission_mode r) (sp_title r)
    (sp_metadata r) (sp_permission r) (sp_handoff r) (sp_archived r) (sp_ephemeral r)
    (sp_share r) (sp_messages r) (sp_members r) (sp_workflow r) (sp_context_status r)
    (sp_forked_from r) (sp_forked_before r) (sp_revert r) (sp_usage r) (sp_todos r).
#[global] Instance Projection_eta : EtaRecord Projection := fun r =>
  mkProjection (p_session r) (p_team r) (p_last_seq r).

(** ** Archiving *)

Definition is_zero_stamp (stamp : Number) : bool :=
  bool_decide (number_as_u64 stamp = Some 0%N)
  || bool_decide (number_as_i64 stamp = Some 0%Z)
  || match number_as_f64 stamp with Some f => SFeqb f f64_zero | None => false end.

Definition is_archived (s : SessionProjection) : bool := bool_decide (is_Some (sp_archived s)).

Definition is_finite (f : spec_float) : bool :=
  match f with S754_zero _ | S754_finite _ _ _ => true | _ => false end.

(** [value as i64]: towards zero, saturating, NaN to 0 *)
Definition f64_as_i64 (f : spec_float) : Z :=
  let clamp z := Z.max i64_min (Z.min i64_max z) in
  match f with
  | S754_zero _ | S754_nan => 0
  | S754_infinity s => if s then i64_min else i64_max
  | S754_finite s m e =>
      let n := Z.shiftl (Z.pos m) e in
      clamp (if s then - n else n)%Z
  end.

Definition archived_at_millis (s : SessionProjection) : option Z :=
  stamp ← sp_archived s;
  match number_as_i64 stamp with
  | Some n => Some n
  | None => f64_as_i64 <$> (f ← number_as_f64 stamp; if is_finite f then Some f else None)
  end.

Inductive SessionArchiveError := NotFound | NotRoot.

Definition session_archive_event (p : Projection) (archived : bool) (now_millis : Z) :
    option Event.t + SessionArchiveError :=
  match sp_id (p_session p) with
  | None => inr NotFound
  | Some session =>
      if Bool.eqb archived (is_archived (p_session p)) then inl None
      else if negb archived then inl (Some (Event.SessionUnarchived session))
      else if decide (is_Some (sp_parent (p_session p))) then inr NotRoot
      else inl (Some (Event.SessionArchived session (number_from_i64 (Z.max now_millis 1))))
  end.

(** ** Access to messages and parts *)

(** [message_mut(id)], read and written *)
Definition message_ref (p : Projection) (id : MessageId) : option MessageProjection :=
  find_last (fun m => msg_id m = id) (sp_messages (p_session p)).

Definition update_message (id : MessageId) (f : MessageProjection -> MessageProjection)
    (p : Projection) : Projection :=
  p <| p_session ::= fun s =>
    s <| sp_messages ::= update_last (fun m => msg_id m = id) f |> |>.

Definition push_part (msg : MessageId) (part : PartProjection) (p : Projection) : Projection :=
  update_message msg (fun m =>
    if existsb (fun x => bool_decide (part_id x = part_id part)) (msg_parts m) then m
    else m <| msg_parts ::= fun parts => parts ++ [part] |>) p.

(** [find_part(msg, part)], read and written *)
Definition find_part (p : Projection) (msg : MessageId) (part : PartId) : option PartProjection :=
  m ← message_ref p msg; find_last (fun x => part_id x = part) (msg_parts m).

Definition update_part (msg : MessageId) (part : PartId) (f : PartProjection -> PartProjection)
    (p : Projection) : Projection :=
  update_message msg (fun m =>
    m <| msg_parts ::= update_last (fun x => part_id x = part) f |>) p.

Definition set_tool_state (f : ToolPartState.t -> ToolPartState.t) (x : PartProjection) :
    PartProjection :=
  match x with Tool id call name state => Tool id call name (f state) | x => x end.

Definition upsert_tool (msg : MessageId) (part : PartId) (call : ToolCallId) (name : ToolName)
    (state : ToolPartState.t) (p : Projection) : Projection :=
  match find_part p msg part with
  | Some (Tool _ _ _ _) => update_part msg part (set_tool_state (fun _ => state)) p
  | _ => push_part msg (Tool part call name state) p
  end.

Definition tool_input (state : ToolPartState.t) : Value :=
  match state with
  | ToolPartState.Pending input
  | ToolPartState.Running input
  | ToolPartState.Completed input _ _
  | ToolPartState.Error input _ _ => input
  end.
End projection.

(** ** Session events *)

Section session_events.
Context {U : UuidLib} {J : JsonLib}.
Implicit Types (s : SessionProjection) (p : Projection).

Definition on_session_created (session : SessionId) (parent : option SessionId)
    (agent : AgentName) (model : ModelRef) (workdir : string) (project : option ProjectId)
    (kind : SessionKind.t) s : SessionProjection :=
  s <| sp_id := Some session |> <| sp_parent := parent |> <| sp_agent := Some agent |>
    <| sp_model := Some model |> <| sp_workdir := Some workdir |> <| sp_project := project |>
    <| sp_kind := kind |>.

Definition on_agent_model_override_set (agent : AgentName) (model : option ModelRef) s :
    SessionProjection :=
  match model with
  | Some model => s <| sp_agent_model_overrides ::= insert (as_str agent) model |>
  | None => s <| sp_agent_model_overrides ::= delete (as_str agent) |>
  end.

Definition on_session_titled (title : string) s : SessionProjection :=
  s <| sp_title := Some title |> <| sp_ephemeral := false |>.

Definition on_session_archived (archived : Number) s : SessionProjection :=
  let s := s <| sp_archived := if negb (is_zero_stamp archived) then Some archived else None |> in
  if decide (is_Some (sp_archived s)) then s <| sp_ephemeral := false |> else s.

Definition on_handoff_committed (generation : N) (doc : string) (degraded : bool) s :
    SessionProjection :=
  s <| sp_handoff := Some (mkHandoffProjection generation doc degraded) |>.

Definition on_session_forked (source : SessionId) (before_message : option MessageId) s :
    SessionProjection :=
  s <| sp_forked_from := Some source |> <| sp_forked_before := before_message |>.

Definition on_context_status (tokens : N) (source : TokenSource.t) (mode : TokenAccountingMode.t)
    (threshold : N) s : SessionProjection :=
  s <| sp_context_status := Some (mkContextStatusProjection tokens source mode threshold) |>.

(** ** Workflow events *)

(** [workflow.get_or_insert_with(WorkflowProjection::default)], then an update in place *)
Definition with_workflow (f : WorkflowProjection -> WorkflowProjection) s : SessionProjection :=
  s <| sp_workflow ::= fun w => Some (f (default WorkflowProjection_default w)) |>.

(** [if let Some(run) = self.workflow_run_mut(id) { f(run) }] *)
Definition update_workflow_run (id : WorkflowRunId)
    (f : WorkflowRunProjection -> WorkflowRunProjection) s : SessionProjection :=
  s <| sp_workflow ::= fmap (M := option) (fun w =>
    w <| wp_run ::= fmap (M := option) (fun run =>
      if decide (wr_id run = id) then f run else run) |>) |>.

(** Writes to a named stage of a run that is running. *)
Definition update_running_stage (id : WorkflowRunId) (stage : string)
    (f : WorkflowStageProjection -> WorkflowStageProjection) s : SessionProjection :=
  update_workflow_run id (fun run =>
    if decide (wr_status run = WorkflowRunStatus.Running)
    then run <| wr_stages ::= update_first (fun row => wsp_id (ws_plan row) = stage) f |>
    else run) s.

Definition on_workflow_selected (workflow : WorkflowIdentity) s : SessionProjection :=
  with_workflow (fun w => w <| wp_selection := Some workflow |>) s.

Definition new_stage (plan : WorkflowStagePlan) : WorkflowStageProjection :=
  {| ws_plan := plan; ws_status := WorkflowStageStatus.Pending; ws_members := [];
     ws_route_outcomes := [] |}.

Definition on_workflow_run_started (run : WorkflowRunId) (workflow : WorkflowIdentity)
    (request_hash : string) (owner : OwnerRunId) (stages : list WorkflowStagePlan) s :
    SessionProjection :=
  with_workflow (fun w =>
    if decide (run ∈ wp_seen_runs w) then w
    else w <| wp_seen_runs ::= fun seen => {[run]} ∪ seen |>
           <| wp_selection := Some workflow |>
           <| wp_run := Some {| wr_id := run; wr_workflow := workflow;
                                wr_request_hash := request_hash; wr_owner := owner;
                                wr_status := WorkflowRunStatus.Running;
                                wr_stages := map new_stage stages; wr_error := None |} |>) s.

Definition on_workflow_stage_started (run : WorkflowRunId) (stage : string) s :
    SessionProjection :=
  update_running_stage run stage (fun row =>
    if negb (WorkflowStageStatus.is_terminal (ws_status row))
    then row <| ws_status := WorkflowStageStatus.Running |> else row) s.

Definition same_link (member : MemberId) (role : WorkflowMemberRole.t) (iteration : N)
    (row : WorkflowMemberProjection) : bool :=
  bool_decide (wm_member row = member) && bool_decide (wm_role row = role)
  && (wm_iteration row =? iteration)%N.

Definition on_workflow_stage_member_linked (run : WorkflowRunId) (stage : string)
    (member : MemberId) (role : WorkflowMemberRole.t) (iteration : N) s : SessionProjection :=
  update_running_stage run stage (fun row =>
    if negb (existsb (same_link member role iteration) (ws_members row))
    then row <| ws_members ::= fun ms => ms ++ [mkWorkflowMemberProjection member role iteration] |>
    else row) s.

Definition same_outcome (stage : string) (member : MemberId) (role : WorkflowMemberRole.t)
    (iteration step : N) (o : WorkflowStageRouteOutcome) : bool :=
  bool_decide (wro_stage o = stage) && bool_decide (wro_member o = member)
  && bool_decide (wro_role o = role) && (wro_iteration o =? iteration)%N
  && (wro_step o =? step)%N.

Definition on_workflow_stage_route_outcome (session : SessionId) (run : WorkflowRunId)
    (stage_id : string) (member : MemberId) (role : WorkflowMemberRole.t)
    (iteration step candidate_index : N) (model : ModelRef) (reasoning : string)
    (failure_class : WorkflowRouteFailureClass.t) s : SessionProjection :=
  update_running_stage run stage_id (fun row =>
    if bool_decide (ws_status row = WorkflowStageStatus.Running)
       && negb (existsb (same_outcome stage_id member role iteration step) (ws_route_outcomes row))
    then row <| ws_route_outcomes ::= fun os => os ++
           [{| wro_session := session; wro_run := run; wro_stage := stage_id;
               wro_member := member; wro_role := role; wro_iteration := iteration;
               wro_step := step; wro_candidate_index := candidate_index; wro_model := model;
               wro_reasoning := reasoning; wro_failure_class := failure_class |}] |>
    else row) s.

Definition on_workflow_stage_finished (run : WorkflowRunId) (stage : string)
    (status : WorkflowStageStatus.t) s : SessionProjection :=
  if WorkflowStageStatus.is_terminal status
  then update_running_stage run stage (fun row =>
         if negb (WorkflowStageStatus.is_terminal (ws_status row))
         then row <| ws_status := status |> else row) s
  else s.

(** The stages of a run that stops short of completion. *)
Definition stop_stage (status : WorkflowRunStatus.t) (row : WorkflowStageProjection) :
    WorkflowStageProjection :=
  if decide (ws_status row = WorkflowStageStatus.Pending)
  then row <| ws_status := WorkflowStageStatus.Skipped |>
  else if decide (ws_status row = WorkflowStageStatus.Running)
  then row <| ws_status := if decide (status = WorkflowRunStatus.Cancelled)
                           then WorkflowStageStatus.Cancelled else WorkflowStageStatus.Failed |>
  else row.

Definition on_workflow_run_finished (run : WorkflowRunId) (status : WorkflowRunStatus.t)
    (error : option string) s : SessionProjection :=
  if WorkflowRunStatus.is_terminal status
  then update_workflow_run run (fun current =>
         if negb (WorkflowRunStatus.is_terminal (wr_status current))
         then let current := current <| wr_status := status |> <| wr_error := error |> in
              if decide (status <> WorkflowRunStatus.Completed)
              then current <| wr_stages ::= map (stop_stage status) |>
              else current
         else current) s
  else s.

(** ** Member events *)

Definition new_member (member : MemberId) : MemberProjection :=
  {| mp_member := member; mp_child := None; mp_subagent_type := StrNewtype "";
     mp_description := ""; mp_depth := 0; mp_status := MemberRunStatus.Spawning;
     mp_summary := ""; mp_directive := ""; mp_tool_call := None |}.

(** [member_mut]: the row of the member, inserted at the end when missing *)
Definition update_member (member : MemberId) (f : MemberProjection -> MemberProjection) s :
    SessionProjection :=
  match position (fun m => mp_member m = member) (sp_members s) with
  | Some idx => s <| sp_members ::= alter f idx |>
  | None => s <| sp_members ::= fun ms => ms ++ [f (new_member member)] |>
  end.

Definition on_member_spawned (member : MemberId) (child : option SessionId)
    (subagent_type : AgentName) (description : string) (depth : N) (directive : string)
    (tool_call : option ToolCallId) s : SessionProjection :=
  update_member member (fun entry =>
    let entry := entry <| mp_child := child |> <| mp_subagent_type := subagent_type |>
                       <| mp_description := description |> <| mp_depth := depth |>
                       <| mp_status := MemberRunStatus.Spawning |> in
    let entry := if negb (is_empty directive) then entry <| mp_directive := directive |>
                 else entry in
    if decide (is_Some tool_call) then entry <| mp_tool_call := tool_call |> else entry) s.

Definition on_member_status_changed (member : MemberId) (status : MemberRunStatus.t) s :
    SessionProjection :=
  update_member member (fun entry => entry <| mp_status := status |>) s.

Definition on_member_finished (member : MemberId) (status : MemberRunStatus.t) (summary : string)
    (child : option SessionId) s : SessionProjection :=
  update_member member (fun entry =>
    let entry := entry <| mp_status := status |> <| mp_summary := summary |> in
    if decide (is_Some child) then entry <| mp_child := child |> else entry) s.

Definition on_subagent_reported (member : MemberId) (outcome : ReportOutcome.t) (report : string)
    s : SessionProjection :=
  update_member member (fun entry =>
    entry <| mp_status := match outcome with
                          | ReportOutcome.Done => MemberRunStatus.Done
                          | ReportOutcome.Failed => MemberRunStatus.Failed
                          end |>
          <| mp_summary := report |>) s.
End session_events.

(** ** Transcript events *)

Section transcript_events.
Context {U : UuidLib} {J : JsonLib}.
Implicit Types (s : SessionProjection) (p : Projection).

Definition new_message (message : MessageId) (role : Role.t) (agent : option AgentName)
    (model : option ModelRef) : MessageProjection :=
  {| msg_id := message; msg_role := role; msg_agent := agent; msg_model := model;
     msg_time_created := None; msg_time_updated := None; msg_config_generation := None;
     msg_finish := None; msg_cause := None; msg_tokens := None; msg_usage := None;
     msg_files := []; msg_agents := []; msg_parts := []; msg_file_changes := [];
     msg_error := None |}.

Definition on_message_started (message : MessageId) (role : Role.t) (agent : option AgentName)
    (model : option ModelRef) p : Projection :=
  let p := p <| p_session ::= fun s => s <| sp_ephemeral := false |> |> in
  match message_ref p message with
  | Some _ => p
  | None => p <| p_session ::= fun s =>
      s <| sp_revert := None |>
        <| sp_messages ::= fun ms => ms ++ [new_message message role agent model] |> |>
  end.

Definition on_turn_binding_recorded (message : MessageId) (generation : ConfigGeneration) p :
    Projection :=
  update_message message (fun m => m <| msg_config_generation := Some generation |>) p.

Definition on_user_prompt_context_recorded (message : MessageId) (files agents : list Value) p :
    Projection :=
  update_message message (fun m => m <| msg_files := files |> <| msg_agents := agents |>) p.

(** The sum a finished message bills when it has no per-round records. *)
Definition legacy_sum p (message : MessageId) (tokens : option TokenUsage) : option TokenUsage :=
  m ← message_ref p message;
  sum ← tokens;
  if negb (TokenUsage_is_zero sum)
     && bool_decide (msg_usage m = None) && bool_decide (msg_tokens m = None)
     && negb (bool_decide (is_Some (sp_forked_from (p_session p))))
  then Some sum else None.

Definition on_message_finished (message : MessageId) (finish : FinishReason.t)
    (tokens : option TokenUsage) (cause : option FinishCause.t) p : Projection :=
  let legacy := legacy_sum p message tokens in
  let p := update_message message (fun m =>
    m <| msg_finish := Some finish |> <| msg_cause := cause |> <| msg_tokens := tokens |>) p in
  match legacy with
  | Some sum =>
      p <| p_session ::= fun s => s <| sp_usage ::= fun u => SessionUsage_record_legacy u sum |> |>
  | None => p
  end.

Definition on_message_deleted (message : MessageId) p : Projection :=
  p <| p_session ::= fun s =>
    s <| sp_messages ::= filter (fun item => msg_id item <> message) |>
      <| sp_revert ::= fmap (M := option) (fun r =>
           r <| rv_hidden ::= filter (fun item => msg_id item <> message) |>) |> |>.

Definition on_files_changed (message : MessageId) (call : option ToolCallId)
    (files : list FileChange) p : Projection :=
  update_message message (fun m =>
    m <| msg_file_changes ::= fun cs => cs ++ map (fun file =>
           mkFileChangeRecord call (fc_path file) (fc_before file) (fc_observed file)) files |>) p.

(** The loop over the files of the pending revert. *)
Fixpoint merge_files (merged previous : list FileRestore) : list FileRestore :=
  match previous with
  | [] => merged
  | old :: previous =>
      merge_files
        (match find_first (fun file => fr_path file = fr_path old) merged with
         | Some _ => update_first (fun file => fr_path file = fr_path old)
                       (fun file => file <| fr_saved := fr_saved old |>) merged
         | None => merged ++ [old]
         end) previous
  end.

Definition apply_revert (message : MessageId) (files : list FileRestore) p : Projection :=
  match position (fun item => msg_id item = message) (sp_messages (p_session p)) with
  | None => p
  | Some index =>
      p <| p_session ::= fun s =>
        let hidden := drop index (sp_messages s) in
        let '(hidden, merged) :=
          match sp_revert s with
          | Some previous => (hidden ++ rv_hidden previous, merge_files files (rv_files previous))
          | None => (hidden, files)
          end in
        s <| sp_messages ::= take index |>
          <| sp_revert := Some (mkRevertProjection message hidden merged) |> |>
  end.

Definition on_session_unreverted p : Projection :=
  p <| p_session ::= fun s =>
    match sp_revert s with
    | Some revert => s <| sp_revert := None |>
                       <| sp_messages ::= fun ms => ms ++ rv_hidden revert |>
    | None => s
    end |>.

Definition on_part_deleted (message : MessageId) (part : PartId) p : Projection :=
  update_message message (fun m =>
    m <| msg_parts ::= filter (fun item => part_id item <> part) |>) p.

Definition on_text_start (message : MessageId) (part : PartId) p : Projection :=
  push_part message (Text part "") p.

Definition on_text_delta (message : MessageId) (part : PartId) (delta : string) p : Projection :=
  update_part message part (fun x =>
    match x with Text id text => Text id (text +:+ delta) | x => x end) p.

Definition on_text_replace (message : MessageId) (part : PartId) (replacement : string) p :
    Projection :=
  update_part message part (fun x =>
    match x with Text id _ => Text id replacement | x => x end) p.

Definition on_reasoning_start (message : MessageId) (part : PartId) (reason : option string) p :
    Projection :=
  push_part message (Reasoning part "" reason None) p.

Definition on_reasoning_delta (message : MessageId) (part : PartId) (delta : string) p :
    Projection :=
  update_part message part (fun x =>
    match x with
    | Reasoning id text reason provider_data => Reasoning id (text +:+ delta) reason provider_data
    | x => x
    end) p.

Definition on_reasoning_replace (message : MessageId) (part : PartId) (replacement : string) p :
    Projection :=
  update_part message part (fun x =>
    match x with
    | Reasoning id _ reason provider_data => Reasoning id replacement reason provider_data
    | x => x
    end) p.

Definition on_reasoning_end (message : MessageId) (part : PartId) (provider_data : option Value)
    p : Projection :=
  update_part message part (fun x =>
    match x with
    | Reasoning id text reason _ => Reasoning id text reason provider_data
    | x => x
    end) p.

Definition on_tool_input_start (message : MessageId) (part : PartId) (call : ToolCallId)
    (name : ToolName) p : Projection :=
  push_part message (Tool part call name (ToolPartState.Pending value_null)) p.

Definition on_tool_call_requested (message : MessageId) (part : PartId) (call : ToolCallId)
    (name : ToolName) (input : Value) p : Projection :=
  upsert_tool message part call name (ToolPartState.Running input) p.

Definition on_tool_result (message : MessageId) (part : PartId) (output : Value) (time_ms : N) p :
    Projection :=
  update_part message part (set_tool_state (fun state =>
    ToolPartState.Completed (tool_input state) output time_ms)) p.

Definition on_tool_error (message : MessageId) (part : PartId) (message_text : string)
    (value : option Value) p : Projection :=
  update_part message part (set_tool_state (fun state =>
    ToolPartState.Error (tool_input state) message_text value)) p.

Definition on_tool_part_updated (message : MessageId) (part : PartId) (next : ToolPartState.t) p :
    Projection :=
  update_part message part (set_tool_state (fun _ => next)) p.

(** [Vec::insert]; the index is in bounds at each use *)
Definition list_insert_at {A} (i : nat) (x : A) (l : list A) : list A := take i l ++ x :: drop i l.

Definition on_context_compacted (marker to_message : MessageId) p : Projection :=
  let messages := sp_messages (p_session p) in
  match position (fun row => msg_id row = marker) messages with
  | None => p
  | Some marker_index =>
      match messages !! marker_index with
      | None => p
      | Some marker_row =>
          let rest := delete marker_index messages in
          let at_ := match position (fun row => msg_id row = to_message) rest with
                     | Some to_index => to_index + 1
                     | None => Nat.min marker_index (length rest)
                     end in
          p <| p_session ::= fun s => s <| sp_messages := list_insert_at at_ marker_row rest |> |>
      end
  end.

Definition on_error (failed_message : MessageId) (code text : string) p : Projection :=
  update_message failed_message (fun m => m <| msg_error := Some (mkMessageError code text) |>) p.

Definition on_usage_recorded (message : option MessageId) (model : ModelRef)
    (purpose : UsagePurpose.t) (tokens : TokenUsage) p : Projection :=
  let p := p <| p_session ::= fun s =>
    s <| sp_usage ::= fun u => SessionUsage_record u model purpose tokens |> |> in
  match message with
  | Some message =>
      update_message message (fun m =>
        m <| msg_usage ::= fun usage =>
               match usage with
               | Some existing => Some (MessageUsage_add existing model tokens)
               | None => Some (MessageUsage_first model tokens)
               end |>) p
  | None => p
  end.
End transcript_events.

(** ** The fold *)

Section fold.
Context {U : UuidLib} {J : JsonLib}.

Definition on_session (f : SessionProjection -> SessionProjection) (p : Projection) : Projection :=
  p <| p_session ::= f |>.
Definition on_team (f : TeamProjection -> TeamProjection) (p : Projection) : Projection :=
  p <| p_team ::= f |>.

Definition apply_event (e : Event.t) : Projection -> Projection :=
  match e with
  | Event.SessionCreated session parent agent model workdir project kind =>
      on_session (on_session_created session parent agent model workdir project kind)
  | Event.SessionAgentModelOverrideSet _ agent model =>
      on_session (on_agent_model_override_set agent model)
  | Event.SessionPermissionModeSet _ mode =>
      on_session (fun s => s <| sp_permission_mode := Some mode |>)
  | Event.SessionMoved _ workdir => on_session (fun s => s <| sp_workdir := Some workdir |>)
  | Event.SessionTitled _ title => on_session (on_session_titled title)
  | Event.SessionMetadataSet _ metadata =>
      on_session (fun s => s <| sp_metadata := Some metadata |>)
  | Event.SessionPermissionSet _ permission =>
      on_session (fun s => s <| sp_permission := Some permission |>)
  | Event.SessionArchived _ archived => on_session (on_session_archived archived)
  | Event.SessionUnarchived _ => on_session (fun s => s <| sp_archived := None |>)
  | Event.SessionEphemeralSet _ ephemeral => on_session (fun s => s <| sp_ephemeral := ephemeral |>)
  | Event.SessionShareSet _ url => on_session (fun s => s <| sp_share := Some url |>)
  | Event.SessionShareCleared _ => on_session (fun s => s <| sp_share := None |>)
  | Event.AgentSwitched _ _ agent => on_session (fun s => s <| sp_agent := Some agent |>)
  | Event.ModelSwitched _ _ model => on_session (fun s => s <| sp_model := Some model |>)
  | Event.WorkflowSelected _ workflow => on_session (on_workflow_selected workflow)
  | Event.WorkflowRunStarted _ run workflow request_hash owner stages =>
      on_session (on_workflow_run_started run workflow request_hash owner stages)
  | Event.WorkflowStageStarted _ run stage => on_session (on_workflow_stage_started run stage)
  | Event.WorkflowStageMemberLinked _ run stage member role iteration =>
      on_session (on_workflow_stage_member_linked run stage member role iteration)
  | Event.WorkflowStageRouteOutcome session run stage member role iteration step candidate_index
      model reasoning failure_class =>
      on_session (on_workflow_stage_route_outcome session run stage member role iteration step
                    candidate_index model reasoning failure_class)
  | Event.WorkflowStageFinished _ run stage status =>
      on_session (on_workflow_stage_finished run stage status)
  | Event.WorkflowRunFinished _ run status error =>
      on_session (on_workflow_run_finished run status error)
  | Event.MessageStarted _ message role agent model => on_message_started message role agent model
  | Event.TurnBindingRecorded _ message generation => on_turn_binding_recorded message generation
  | Event.UserPromptContextRecorded _ message files agents =>
      on_user_prompt_context_recorded message files agents
  | Event.MessageFinished _ message _ finish tokens cause =>
      on_message_finished message finish tokens cause
  | Event.MessageDeleted _ message => on_message_deleted message
  | Event.FilesChanged _ message call files => on_files_changed message call files
  | Event.SessionReverted _ message files => apply_revert message files
  | Event.SessionUnreverted _ _ => on_session_unreverted
  | Event.PartDeleted _ message part => on_part_deleted message part
  | Event.TextStart _ message part => on_text_start message part
  | Event.TextDelta _ message part delta => on_text_delta message part delta
  | Event.TextReplace _ message part text => on_text_replace message part text
  | Event.ReasoningStart _ message part reason => on_reasoning_start message part reason
  | Event.ReasoningDelta _ message part delta => on_reasoning_delta message part delta
  | Event.ReasoningReplace _ message part text => on_reasoning_replace message part text
  | Event.ReasoningEnd _ message part provider_data => on_reasoning_end message part provider_data
  | Event.ToolInputStart _ message part call name => on_tool_input_start message part call name
  | Event.ToolCallRequested _ message part call name input =>
      on_tool_call_requested message part call name input
  | Event.ToolResult _ message part _ output time_ms => on_tool_result message part output time_ms
  | Event.ToolError _ message part _ message_text value =>
      on_tool_error message part message_text value
  | Event.ToolPartUpdated _ message part state => on_tool_part_updated message part state
  | Event.MemberSpawned _ member child subagent_type description depth directive tool_call =>
      on_session (on_member_spawned member child subagent_type description depth directive tool_call)
  | Event.MemberStatusChanged _ member status => on_session (on_member_status_changed member status)
  | Event.MemberFinished _ member status summary child =>
      on_session (on_member_finished member status summary child)
  | Event.AgentRegistered session agent_session handle parent agent_type mode =>
      on_team (on_agent_registered session agent_session handle parent agent_type mode)
  | Event.AgentActivityChanged _ handle status current_task =>
      on_team (on_agent_activity_changed handle status current_task)
  | Event.ResidentWorkStarted _ actor_session handle epoch inbox_through =>
      on_team (on_resident_work_started actor_session handle epoch inbox_through)
  | Event.AgentHeartbeat _ handle heartbeat_ms => on_team (on_agent_heartbeat handle heartbeat_ms)
  | Event.ChannelJoined _ channel member => on_team (on_channel_joined channel member)
  | Event.ChannelLeft _ channel member => on_team (on_channel_left channel member)
  | Event.ChannelCreated _ channel kind unit_ members =>
      on_team (on_channel_created channel kind unit_ members)
  | Event.SubagentReported _ member _ _ outcome report =>
      on_session (on_subagent_reported member outcome report)
  | Event.HandoffCommitted _ _ generation doc degraded =>
      on_session (on_handoff_committed generation doc degraded)
  | Event.AgentArchived _ handle child reason => on_team (on_agent_archived handle child reason)
  | Event.MailConsumed _ handle through => on_team (on_mail_consumed handle through)
  | Event.AgentRestarted _ handle _ _ => on_team (on_agent_restarted handle)
  | Event.MailSent _ from to kind body => on_team (on_mail_sent from to kind body)
  | Event.ContextCompacted _ marker _ _ to_message _ _ _ => on_context_compacted marker to_message
  | Event.TextEnd _ _ _ | Event.SessionStatus _ _ | Event.ToolInputDelta _ _ _ _ _ _
  | Event.CommandExecuted _ _ _ _ | Event.StepStarted _ _ _ | Event.StepFinished _ _ _ _
  | Event.Error _ _ _ None | Event.ContextEvicted _ _ _ _ _ | Event.Unknown => fun p => p
  | Event.SessionForked _ source before_message =>
      on_session (on_session_forked source before_message)
  | Event.Error _ code text (Some message) => on_error message code text
  | Event.UsageRecorded _ message _ model purpose tokens =>
      on_usage_recorded message model purpose tokens
  | Event.TodosUpdated _ todos => on_session (fun s => s <| sp_todos := Some todos |>)
  | Event.ContextStatus _ tokens source mode threshold =>
      on_session (on_context_status tokens source mode threshold)
  end.

Definition changed_message (e : Event.t) : option MessageId :=
  match e with
  | Event.MessageStarted _ message _ _ _
  | Event.TurnBindingRecorded _ message _
  | Event.UserPromptContextRecorded _ message _ _
  | Event.MessageFinished _ message _ _ _ _
  | Event.PartDeleted _ message _
  | Event.TextStart _ message _
  | Event.TextDelta _ message _ _
  | Event.TextReplace _ message _ _
  | Event.TextEnd _ message _
  | Event.ReasoningStart _ message _ _
  | Event.ReasoningDelta _ message _ _
  | Event.ReasoningEnd _ message _ _
  | Event.ReasoningReplace _ message _ _
  | Event.ToolInputStart _ message _ _ _
  | Event.ToolInputDelta _ message _ _ _ _
  | Event.ToolCallRequested _ message _ _ _ _
  | Event.ToolResult _ message _ _ _ _
  | Event.ToolError _ message _ _ _ _
  | Event.ToolPartUpdated _ message _ _
  | Event.FilesChanged _ message _ _ => Some message
  | Event.UsageRecorded _ message _ _ _ _ => message
  | Event.Error _ _ _ failed_message => failed_message
  | _ => None
  end.

Definition is_message_started (e : Event.t) : bool :=
  match e with Event.MessageStarted _ _ _ _ _ => true | _ => false end.

Definition stamp (e : Event.t) (ts_millis : Z) (message : MessageProjection) : MessageProjection :=
  let message := if is_message_started e && bool_decide (msg_time_created message = None)
                 then message <| msg_time_created := Some ts_millis |> else message in
  message <| msg_time_updated ::= fun t =>
    Some (match t with Some t => Z.max t ts_millis | None => ts_millis end) |>.

Definition stamp_message_time (e : Event.t) (ts_millis : Z) (p : Projection) : Projection :=
  match changed_message e with
  | None => p
  | Some id => update_message id (stamp e ts_millis) p
  end.

Definition apply (p : Projection) (env : Envelope) : Projection :=
  let fold_event := fun p =>
    stamp_message_time (env_event env) (env_ts_millis env) (apply_event (env_event env) p) in
  if (env_seq env =? 0)%N then fold_event p
  else if (env_seq env <=? p_last_seq p)%N then p
  else (fold_event p) <| p_last_seq := env_seq env |>.

Definition from_events (envs : list Envelope) : Projection := foldl apply Projection_default envs.
End fold.
