(* ===== verification/Transcript.v ===== *)
(** * The transcript under the fold

    What the fold of [Projection.v] guarantees of messages and parts: identities stay unique,
    redelivery changes nothing, live streaming converges to the durable parts, reverts are
    undone exactly, compaction only moves its marker, and billed usage never shrinks. *)

From S2P Require Import Prelude RustStr Platform Ids Scope Wire Workflow Usage Events Team Projection.

Section transcript.
Context {U : UuidLib} {J : JsonLib}.
Implicit Types (p : Projection) (m : MessageProjection) (e : Event.t).

(** ** Steps of the transcript *)

Definition hidden_of (r : option RevertProjection) : list MessageProjection :=
  match r with Some r => rv_hidden r | None => [] end.

Definition transcript p : list MessageProjection * option RevertProjection :=
  (sp_messages (p_session p), sp_revert (p_session p)).

(** Every message the fold holds, visible or hidden by a pending revert. *)
Definition all_messages p : list MessageProjection :=
  sp_messages (p_session p) ++ hidden_of (sp_revert (p_session p)).

Definition parts_unique m : Prop := NoDup (part_id <$> msg_parts m).

(** An edit of a message in place: identity and times stay, part identities stay unique. *)
Record edit_ok (f : MessageProjection -> MessageProjection) : Prop := {
  edit_id : forall m, msg_id (f m) = msg_id m;
  edit_created : forall m, msg_time_created (f m) = msg_time_created m;
  edit_updated : forall m, msg_time_updated (f m) = msg_time_updated m;
  edit_parts : forall m, parts_unique m -> parts_unique (f m);
}.

(** A step is labelled with the message it may start. *)
Inductive transcript_step : option MessageId ->
    list MessageProjection * option RevertProjection ->
    list MessageProjection * option RevertProjection -> Prop :=
  | t_same o v : transcript_step o v v
  | t_edit ms r id f :
      edit_ok f -> transcript_step None (ms, r) (update_last (fun m => msg_id m = id) f ms, r)
  | t_start ms r id role agent model :
      Forall (fun m => msg_id m <> id) ms ->
      transcript_step (Some id) (ms, r) (ms ++ [new_message id role agent model], None)
  | t_delete ms r id :
      transcript_step None (ms, r)
        (filter (fun m => msg_id m <> id) ms,
         (fun r => r <| rv_hidden ::= filter (fun m => msg_id m <> id) |>) <$> r)
  | t_revert ms r i r' :
      rv_hidden r' = drop i ms ++ hidden_of r ->
      transcript_step None (ms, r) (take i ms, Some r')
  | t_unrevert ms r : transcript_step None (ms, r) (ms ++ hidden_of r, None)
  | t_move ms ms' r : ms ≡ₚ ms' -> transcript_step None (ms, r) (ms', r).

Lemma update_message_transcript id f p :
  transcript (update_message id f p)
  = (update_last (fun m => msg_id m = id) f (sp_messages (p_session p)), sp_revert (p_session p)).
Proof. done. Qed.

Lemma edit_step id f p :
  edit_ok f -> transcript_step None (transcript p) (transcript (update_message id f p)).
Proof. intros. rewrite update_message_transcript. by apply t_edit. Qed.

(** Edits that leave the parts alone. *)
Lemma edit_ok_fields f :
  (forall m, msg_id (f m) = msg_id m /\ msg_time_created (f m) = msg_time_created m
             /\ msg_time_updated (f m) = msg_time_updated m /\ msg_parts (f m) = msg_parts m) ->
  edit_ok f.
Proof.
  intros Hf. split; intros m; destruct (Hf m) as (? & ? & ? & Hp); try done.
  unfold parts_unique. by rewrite Hp.
Qed.

(** Edits of the part list alone. *)
Lemma edit_ok_parts (g : list PartProjection -> list PartProjection) :
  (forall l, NoDup (part_id <$> l) -> NoDup (part_id <$> g l)) ->
  edit_ok (fun m => m <| msg_parts ::= g |>).
Proof. intros Hg. split; try done. intros m. apply Hg. Qed.

Lemma push_part_ok (part : PartProjection) :
  edit_ok (fun m =>
    if existsb (fun x => bool_decide (part_id x = part_id part)) (msg_parts m) then m
    else m <| msg_parts ::= fun parts => parts ++ [part] |>).
Proof.
  split; try (intros m; by case_match).
  intros m Hm. destruct (existsb _ _) eqn:E; [done|].
  unfold parts_unique. simpl. rewrite fmap_app. apply NoDup_app.
  split; [done|]. split; [|apply NoDup_singleton].
  intros i Hi [= ->]%list_elem_of_singleton.
  apply list_elem_of_fmap in Hi as (x & Hx & Hin).
  apply not_true_iff_false in E. apply E. apply existsb_exists. exists x.
  split; [by apply list_elem_of_In|by apply bool_decide_eq_true].
Qed.

Lemma update_part_ok part (f : PartProjection -> PartProjection) :
  (forall x, part_id (f x) = part_id x) ->
  edit_ok (fun m => m <| msg_parts ::= update_last (fun x => part_id x = part) f |>).
Proof. intros Hf. apply edit_ok_parts. intros l Hl. by rewrite (update_last_key _ part_id). Qed.

Lemma set_tool_state_id g x : part_id (set_tool_state g x) = part_id x.
Proof. by destruct x. Qed.

Lemma filter_parts_ok part :
  edit_ok (fun m => m <| msg_parts ::= filter (fun item => part_id item <> part) |>).
Proof.
  apply edit_ok_parts. intros l. induction l as [|x l IH]; [done|].
  rewrite fmap_cons, NoDup_cons. intros [Hx Hl]. rewrite filter_cons. case_decide; [|by apply IH].
  rewrite fmap_cons, NoDup_cons. split; [|by apply IH].
  intros Hin. apply Hx. apply list_elem_of_fmap in Hin as (y & Hy & [_ Hyl]%list_elem_of_filter).
  rewrite Hy. by apply list_elem_of_fmap_2.
Qed.

Lemma message_ref_None p id :
  message_ref p id = None <-> Forall (fun m => msg_id m <> id) (sp_messages (p_session p)).
Proof. apply find_last_None. Qed.

Lemma start_step id role agent model p :
  transcript_step (Some id) (transcript p) (transcript (on_message_started id role agent model p)).
Proof.
  unfold on_message_started.
  set (q := p <| p_session ::= fun s => s <| sp_ephemeral := false |> |>).
  destruct (message_ref q id) eqn:E; [apply t_same|].
  apply message_ref_None in E. by apply t_start.
Qed.

Lemma list_insert_at_Permutation {A} i (x : A) l : list_insert_at i x l ≡ₚ x :: l.
Proof.
  unfold list_insert_at. rewrite <- Permutation_middle. by rewrite take_drop.
Qed.

Lemma compacted_step marker to_message p :
  transcript_step None (transcript p) (transcript (on_context_compacted marker to_message p)).
Proof.
  unfold on_context_compacted.
  destruct (position _ (sp_messages (p_session p))) as [i|]; [|apply t_same].
  destruct (_ !! i) as [row|] eqn:Hi; [|apply t_same].
  unfold transcript. simpl. apply t_move. rewrite list_insert_at_Permutation.
  by apply delete_Permutation.
Qed.

Lemma reverted_step message files p :
  transcript_step None (transcript p) (transcript (apply_revert message files p)).
Proof.
  unfold apply_revert. destruct (position _ _) as [i|]; [|apply t_same].
  unfold transcript. simpl. destruct (sp_revert (p_session p)) as [r|] eqn:E; simpl.
  - by apply t_revert.
  - apply t_revert. simpl. by rewrite app_nil_r.
Qed.

Lemma unreverted_step p : transcript_step None (transcript p) (transcript (on_session_unreverted p)).
Proof.
  unfold on_session_unreverted, transcript. simpl.
  destruct (sp_revert (p_session p)) as [r|] eqn:E; simpl; [|rewrite E; apply t_same].
  apply (t_unrevert _ (Some r)).
Qed.

Lemma finished_step message finish tokens cause p :
  transcript_step None (transcript p) (transcript (on_message_finished message finish tokens cause p)).
Proof.
  unfold on_message_finished.
  assert (forall q, transcript (match legacy_sum p message tokens with
      | Some sum => q <| p_session ::= fun s => s <| sp_usage ::= fun u =>
                      SessionUsage_record_legacy u sum |> |>
      | None => q end) = transcript q) as -> by (intros q; by case_match).
  apply edit_step. by apply edit_ok_fields.
Qed.

Lemma transcript_on_session (f : SessionProjection -> SessionProjection) p :
  (forall s, sp_messages (f s) = sp_messages s /\ sp_revert (f s) = sp_revert s) ->
  transcript_step None (transcript p) (transcript (on_session f p)).
Proof.
  intros Hf. unfold transcript, on_session. simpl. destruct (Hf (p_session p)) as [-> ->].
  apply t_same.
Qed.

Definition started e : option MessageId :=
  if is_message_started e then changed_message e else None.

Lemma apply_event_transcript e p :
  transcript_step (started e) (transcript p) (transcript (apply_event e p)).
Proof.
  destruct e; cbn [apply_event started is_message_started changed_message];
    try apply t_same;
    try (apply transcript_on_session; intros s; by split);
    try (apply edit_step; by apply edit_ok_fields);
    try (apply edit_step; by apply push_part_ok);
    try (apply edit_step; apply update_part_ok; by intros []);
    auto using start_step, compacted_step, reverted_step, unreverted_step, finished_step.
  - apply transcript_on_session. intros s. unfold on_agent_model_override_set. by case_match.
  - apply transcript_on_session. intros s. unfold on_session_archived. by repeat case_match.
  - apply transcript_on_session. intros s. unfold on_workflow_stage_finished. by case_match.
  - apply transcript_on_session. intros s. unfold on_workflow_run_finished. by case_match.
  - apply t_delete.
  - apply edit_step, filter_parts_ok.
  - unfold on_tool_call_requested, upsert_tool.
    destruct (find_part p message part) as [[]|]; try (apply edit_step; by apply push_part_ok).
    apply edit_step, update_part_ok. intros. apply set_tool_state_id.
  - apply transcript_on_session. intros s. unfold on_member_spawned, update_member. by case_match.
  - apply transcript_on_session. intros s. unfold on_member_status_changed, update_member.
    by case_match.
  - apply transcript_on_session. intros s. unfold on_member_finished, update_member. by case_match.
  - apply transcript_on_session. intros s. unfold on_subagent_reported, update_member.
    by case_match.
  - unfold on_usage_recorded. case_match; [|apply t_same].
    match goal with |- context [update_message _ _ ?q] =>
      change (transcript p) with (transcript q) end.
    apply edit_step. by apply edit_ok_fields.
  - case_match; [|apply t_same]. apply edit_step. by apply edit_ok_fields.
Qed.
End transcript.

(** ** The transcript invariant *)

Section invariant.
Context {U : UuidLib} {J : JsonLib}.
Implicit Types (p : Projection) (m : MessageProjection) (e : Event.t).

Definition view_wf (v : list MessageProjection * option RevertProjection) : Prop :=
  NoDup (msg_id <$> v.1 ++ hidden_of v.2) /\ Forall parts_unique (v.1 ++ hidden_of v.2).

(** A message carries its creation time and a later or equal update time. *)
Definition timed m : Prop :=
  exists c u, msg_time_created m = Some c /\ msg_time_updated m = Some u /\ (c <= u)%Z.

Definition view_timed (v : list MessageProjection * option RevertProjection) : Prop :=
  Forall timed (v.1 ++ hidden_of v.2).

Lemma NoDup_filter_ids (P : MessageProjection -> Prop) `{!forall x, Decision (P x)} ms :
  NoDup (msg_id <$> ms) -> NoDup (msg_id <$> filter P ms).
Proof.
  intros Hms. eapply sublist_NoDup; [exact Hms|].
  apply fmap_sublist. apply sublist_filter.
Qed.

Lemma Forall_filter_2 {A} (Q P : A -> Prop) `{!forall x, Decision (P x)} l :
  Forall Q l -> Forall Q (filter P l).
Proof. rewrite !Forall_forall. intros Hl x [_ Hx]%list_elem_of_filter. by apply Hl. Qed.

Lemma hidden_of_fmap (g : list MessageProjection -> list MessageProjection) r :
  g [] = [] -> hidden_of ((fun r => r <| rv_hidden ::= g |>) <$> r) = g (hidden_of r).
Proof. by destruct r. Qed.

(** What a step does to the whole list of messages. *)
Lemma step_Forall (Q : MessageProjection -> Prop) o v v' :
  transcript_step o v v' ->
  (forall f m, edit_ok f -> Q m -> Q (f m)) ->
  (forall id role agent model, o = Some id -> Q (new_message id role agent model)) ->
  Forall Q (v.1 ++ hidden_of v.2) -> Forall Q (v'.1 ++ hidden_of v'.2).
Proof.
  intros Hstep Hedit Hnew. destruct Hstep; cbn [fst snd hidden_of]; rewrite ?Forall_app; try tauto.
  - intros [? ?]. split; [|done]. apply Forall_update_last; auto.
  - intros [? ?]. split_and!; auto.
  - intros [? ?]. rewrite hidden_of_fmap by done. by split; apply Forall_filter_2.
  - rewrite H, Forall_app. intros [? ?]. split; [by apply Forall_take|].
    split; [by apply Forall_drop|done].
  - intros [? ?]. split_and!; auto.
  - rewrite H. tauto.
Qed.

Lemma step_ids o v v' :
  transcript_step o v v' ->
  NoDup (msg_id <$> v.1 ++ hidden_of v.2) -> NoDup (msg_id <$> v'.1 ++ hidden_of v'.2).
Proof.
  intros Hstep. destruct Hstep; cbn [fst snd hidden_of]; rewrite ?app_nil_r.
  - done.
  - rewrite !fmap_app, (update_last_key _ msg_id); [done|]. intros. by apply edit_id.
  - rewrite fmap_app, NoDup_app. intros [Hnd _].
    rewrite fmap_app. apply NoDup_app. split; [done|]. split; [|apply NoDup_singleton].
    intros x (m & -> & Hm)%list_elem_of_fmap Hid%list_elem_of_singleton.
    rewrite Forall_forall in H. exact (H m Hm Hid).
  - rewrite hidden_of_fmap by done. rewrite <- filter_app. apply NoDup_filter_ids.
  - by rewrite H, app_assoc, take_drop.
  - done.
  - by rewrite H.
Qed.

Lemma step_view_wf o v v' : transcript_step o v v' -> view_wf v -> view_wf v'.
Proof.
  intros Hstep [Hids Hparts]. split; [by eapply step_ids|].
  eapply (step_Forall parts_unique); [done|intros ? ? Hf; by apply edit_parts| |done].
  intros. apply NoDup_nil_2.
Qed.

(** The stamp edits only the times. *)
Lemma stamp_fields e ts m :
  msg_id (stamp e ts m) = msg_id m /\ msg_parts (stamp e ts m) = msg_parts m.
Proof. unfold stamp. by case_match. Qed.

Lemma stamp_timed e ts m : timed m -> timed (stamp e ts m).
Proof.
  intros (c & u & Hc & Hu & Hle). unfold stamp.
  rewrite bool_decide_eq_false_2, andb_false_r by congruence.
  exists c, (Z.max u ts). simpl. rewrite Hu. split_and!; [done..|lia].
Qed.

Lemma stamp_new_timed e ts id role agent model :
  is_message_started e = true -> timed (stamp e ts (new_message id role agent model)).
Proof. intros He. unfold stamp. rewrite He. exists ts, ts. by simpl. Qed.

Lemma stamp_view_wf e ts p : view_wf (transcript p) -> view_wf (transcript (stamp_message_time e ts p)).
Proof.
  unfold stamp_message_time. destruct (changed_message e) as [id|]; [|done].
  rewrite update_message_transcript. intros [Hids Hparts]. split; simpl in *.
  - rewrite !fmap_app, (update_last_key _ msg_id) in *; [done|].
    intros. apply stamp_fields.
  - rewrite Forall_app in *. destruct Hparts. split; [|done].
    apply Forall_update_last; [|done]. intros m _ Hm. unfold parts_unique.
    by destruct (stamp_fields e ts m) as [_ ->].
Qed.

Lemma step_timed o v v' :
  transcript_step o v v' -> view_timed v ->
  view_timed v'
  \/ exists ms id role agent model, o = Some id /\ v' = (ms ++ [new_message id role agent model], None)
       /\ Forall timed ms.
Proof.
  intros Hstep. destruct o as [id|].
  - inversion Hstep; subst; [by left|].
    intros [? _]%Forall_app. right. by eexists _, _, _, _, _.
  - intros Hv. left. eapply (step_Forall timed); [done| |done|done].
    intros f m Hf (c & u & ? & ? & ?). exists c, u. by rewrite edit_created, edit_updated.
Qed.

Lemma apply_event_timed e ts p :
  view_timed (transcript p) ->
  view_timed (transcript (stamp_message_time e ts (apply_event e p))).
Proof.
  intros Hp.
  destruct (step_timed _ _ _ (apply_event_transcript e p) Hp)
    as [Hv|(ms & id & role & agent & model & Ho & Hv & Hms)].
  - unfold stamp_message_time. destruct (changed_message e) as [id|]; [|done].
    rewrite update_message_transcript. unfold view_timed in *. simpl in *.
    rewrite Forall_app in *. destruct Hv. split; [|done].
    apply Forall_update_last; [|done]. intros m _. apply stamp_timed.
  - unfold started in Ho. destruct (is_message_started e) eqn:He; [|done].
    unfold stamp_message_time. rewrite Ho, update_message_transcript.
    unfold transcript in Hv. injection Hv as -> ->.
    unfold view_timed. simpl. rewrite update_last_snoc, app_nil_r by done.
    apply Forall_app. split; [done|]. apply Forall_singleton. by apply stamp_new_timed.
Qed.

Record transcript_wf p : Prop := {
  twf_view : view_wf (transcript p);
  twf_timed : view_timed (transcript p);
}.

Lemma apply_cases p env :
  apply p env = p
  \/ exists n, apply p env =
       (stamp_message_time (env_event env) (env_ts_millis env) (apply_event (env_event env) p))
         <| p_last_seq := n |>.
Proof.
  unfold apply. set (q := stamp_message_time _ _ _).
  case_match; [|case_match; [by left|right; by eexists]].
  right. exists (p_last_seq q). by destruct q.
Qed.

Lemma apply_transcript_wf p env : transcript_wf p -> transcript_wf (apply p env).
Proof.
  intros [Hv Ht]. destruct (apply_cases p env) as [->|[n ->]]; [done|]. split.
  - apply stamp_view_wf. eapply step_view_wf; [apply apply_event_transcript|done].
  - by apply apply_event_timed.
Qed.

Lemma from_events_ind (Q : Projection -> Prop) :
  Q Projection_default -> (forall p env, Q p -> Q (apply p env)) -> forall envs, Q (from_events envs).
Proof.
  intros H0 Hstep envs. unfold from_events. induction envs as [|env envs IH] using rev_ind; [done|].
  rewrite foldl_app. by apply Hstep.
Qed.

Lemma from_events_app l k : from_events (l ++ k) = foldl apply (from_events l) k.
Proof. apply foldl_app. Qed.

Lemma from_events_wf envs : transcript_wf (from_events envs).
Proof.
  apply from_events_ind; [|intros; by apply apply_transcript_wf].
  split; [split|]; simpl; constructor.
Qed.

(** identities in a folded transcript are unique, whatever the log.  No two messages, visible
    or hidden by a pending revert, share an id and no two parts of a message do, so the searches
    from the back ([message_mut], [find_part]) find the row a search from the front would; every
    message carries a creation time and an update time not before it. *)
Theorem transcript_identities (envs : list Envelope) :
  let p := from_events envs in
  NoDup (msg_id <$> all_messages p)
  /\ Forall (fun m => NoDup (part_id <$> msg_parts m)) (all_messages p)
  /\ (forall id, message_ref p id = find_first (fun m => msg_id m = id) (sp_messages (p_session p)))
  /\ (forall id part, find_part p id part =
        (m ← find_first (fun m => msg_id m = id) (sp_messages (p_session p));
         find_first (fun x => part_id x = part) (msg_parts m)))
  /\ Forall timed (all_messages p).
Proof.
  cbv zeta. destruct (from_events_wf envs) as [[Hids Hparts] Ht]. set (p := from_events envs) in *.
  assert (NoDup (msg_id <$> sp_messages (p_session p))) as Hms.
  { simpl in Hids. rewrite fmap_app, NoDup_app in Hids. apply Hids. }
  assert (forall id, message_ref p id
            = find_first (fun m => msg_id m = id) (sp_messages (p_session p))) as Hrefs
    by (intros id; by apply find_last_find_first).
  split_and!; [done..| |done]. intros id part. unfold find_part. rewrite Hrefs.
  destruct (find_first _ _) as [m|] eqn:E; simpl; [|done].
  apply find_last_find_first. apply find_first_Some in E as [Hm _].
  rewrite Forall_forall in Hparts. apply (Hparts m). simpl. apply elem_of_app. by left.
Qed.
End invariant.

(** ** Sequence numbers and redelivery *)

Section redelivery.
Context {U : UuidLib} {J : JsonLib}.
Implicit Types (p : Projection) (m : MessageProjection) (e : Event.t) (env : Envelope).
Implicit Types (session : SessionId) (message : MessageId) (part : PartId) (text : string).

Lemma apply_event_last_seq e p : p_last_seq (apply_event e p) = p_last_seq p.
Proof.
  destruct e; cbn [apply_event]; try reflexivity.
  - unfold on_message_started. by case_match.
  - unfold on_message_finished. by case_match.
  - unfold on_tool_call_requested, upsert_tool. by repeat case_match.
  - unfold on_context_compacted. by repeat case_match.
  - unfold on_usage_recorded. by case_match.
  - unfold apply_revert. by case_match.
  - by case_match.
Qed.

Lemma stamp_last_seq e ts p : p_last_seq (stamp_message_time e ts p) = p_last_seq p.
Proof. unfold stamp_message_time. by case_match. Qed.

Lemma apply_last_seq p env : p_last_seq (apply p env) = N.max (p_last_seq p) (env_seq env).
Proof.
  unfold apply. case_match eqn:H0; [|case_match eqn:H1; simpl; lia].
  rewrite stamp_last_seq, apply_event_last_seq. lia.
Qed.

Lemma foldl_last_seq p envs :
  p_last_seq (foldl apply p envs) = foldr N.max (p_last_seq p) (env_seq <$> envs).
Proof.
  induction envs as [|env envs IH] using rev_ind; [done|].
  rewrite foldl_app, fmap_app. simpl. rewrite apply_last_seq, IH, foldr_app. simpl. clear IH.
  induction envs as [|x envs IH]; cbn; [apply N.max_comm|]. by rewrite <- N.max_assoc, IH.
Qed.

Lemma last_seq_ge envs env :
  env ∈ envs -> (env_seq env <= p_last_seq (from_events envs))%N.
Proof.
  unfold from_events. rewrite foldl_last_seq.
  induction 1 as [|? ? ? ? IH]; cbn; [apply N.le_max_l|]. by etrans; [apply IH|apply N.le_max_r].
Qed.

Lemma apply_old p env : env_seq env <> 0%N -> (env_seq env <= p_last_seq p)%N -> apply p env = p.
Proof.
  intros H0 Hle. unfold apply. rewrite (proj2 (N.eqb_neq _ _) H0).
  by rewrite (proj2 (N.leb_le _ _) Hle).
Qed.

(** C3: redelivery is harmless.  After a log has been folded, any durable envelopes of it that
    arrive again, in any order and any number of times, leave the projection exactly as it was,
    so a client that reconnects from an earlier cursor ends where a client that never
    disconnected is; and the cursor a projection reports is the highest sequence it has seen,
    which live envelopes do not move. *)
Theorem redelivery_is_noop (log window rest : list Envelope) :
  Forall (fun env => env ∈ log /\ env_seq env <> 0%N) window ->
  from_events (log ++ window ++ rest) = from_events (log ++ rest)
  /\ p_last_seq (from_events log) = foldr N.max 0%N (env_seq <$> log)
  /\ (forall env, env_seq env = 0%N ->
        p_last_seq (from_events (log ++ [env])) = p_last_seq (from_events log)).
Proof.
  intros Hw. split_and!.
  - rewrite !from_events_app, foldl_app. f_equal.
    induction Hw as [|env window [Hin H0] _ IH]; [done|]. simpl.
    rewrite apply_old; [done|done|by apply last_seq_ge].
  - unfold from_events. by rewrite foldl_last_seq.
  - intros env Henv. rewrite from_events_app. simpl. rewrite apply_last_seq. lia.
Qed.

(** ** Live streaming *)

Definition text_event (session : SessionId) (message : MessageId) (part : PartId) e : Prop :=
  match e with
  | Event.TextStart s m q | Event.TextDelta s m q _ | Event.TextReplace s m q _
  | Event.TextEnd s m q => s = session /\ m = message /\ q = part
  | _ => False
  end.

(** What a text event does to its message. *)
Definition text_edit (part : PartId) e (m : MessageProjection) : MessageProjection :=
  match e with
  | Event.TextStart _ _ _ =>
      if existsb (fun x => bool_decide (part_id x = part)) (msg_parts m) then m
      else m <| msg_parts ::= fun parts => parts ++ [Text part ""] |>
  | Event.TextDelta _ _ _ delta =>
      m <| msg_parts ::= update_last (fun x => part_id x = part) (fun x =>
             match x with Text id text => Text id (text +:+ delta) | x => x end) |>
  | Event.TextReplace _ _ _ text =>
      m <| msg_parts ::= update_last (fun x => part_id x = part) (fun x =>
             match x with Text id _ => Text id text | x => x end) |>
  | _ => m
  end.

Lemma text_edit_id part e m : msg_id (text_edit part e m) = msg_id m.
Proof. destruct e; try done. simpl. by case_match. Qed.

Lemma update_message_id id p : update_message id (fun m => m) p = p.
Proof.
  destruct p as [s t n]. unfold update_message. simpl.
  assert (update_last (fun m => msg_id m = id) (fun m => m) (sp_messages s) = sp_messages s) as ->
    by (unfold update_last; by rewrite update_first_id, reverse_involutive).
  by destruct s.
Qed.

Lemma update_message_compose id f g p :
  (forall m, msg_id (g m) = msg_id m) ->
  update_message id f (update_message id g p) = update_message id (f ∘ g) p.
Proof.
  intros Hg. destruct p as [s t n]. unfold update_message. simpl.
  rewrite update_last_compose; [done|]. intros m Hm. by rewrite Hg.
Qed.

Lemma update_message_ext id f g p :
  (forall m, f m = g m) -> update_message id f p = update_message id g p.
Proof.
  intros Hfg. unfold update_message. destruct p as [s t n]. simpl.
  by rewrite (update_last_ext _ f g).
Qed.

Definition text_fold message part env p : Projection :=
  update_message message
    (stamp (env_event env) (env_ts_millis env) ∘ text_edit part (env_event env)) p.

Lemma apply_text session message part env p :
  text_event session message part (env_event env) ->
  stamp_message_time (env_event env) (env_ts_millis env) (apply_event (env_event env) p)
  = text_fold message part env p.
Proof.
  destruct env as [n ts e]. unfold text_fold, stamp_message_time. simpl.
  rewrite <- update_message_compose by (intros; apply text_edit_id).
  destruct e; simpl; try done; intros (-> & -> & ->); try done.
  f_equal. symmetry. apply (update_message_id message p).
Qed.

(** The durable rows of a finished text part ([persist_text_part] in
    [hya-core/src/engine/stream_round.rs]). *)
Definition durable_text session message part text (n1 n2 n3 : N) (t1 t2 t3 : Z) : list Envelope :=
  [mkEnvelope n1 t1 (Event.TextStart session message part);
   mkEnvelope n2 t2 (Event.TextReplace session message part text);
   mkEnvelope n3 t3 (Event.TextEnd session message part)].

Lemma foldl_live session message part live p :
  Forall (fun env => env_seq env = 0%N /\ text_event session message part (env_event env)) live ->
  foldl apply p live
  = update_message message (fun m => foldl (fun m env =>
      stamp (env_event env) (env_ts_millis env) (text_edit part (env_event env) m)) m live) p.
Proof.
  intros Hlive. revert p. induction Hlive as [|env live [H0 He] _ IH]; intros p; simpl.
  - by rewrite update_message_id.
  - rewrite IH. unfold apply. rewrite H0. simpl. rewrite (apply_text session message part) by done.
    unfold text_fold. rewrite update_message_compose; [done|].
    intros m. etrans; [apply stamp_fields|apply text_edit_id].
Qed.

(** The message the durable rows leave: the part is settled and the update time has reached the
    last of them. *)
Definition settle session message part text (t1 t2 t3 : Z) (m : MessageProjection) :
    MessageProjection :=
  foldl (fun m env => stamp (env_event env) (env_ts_millis env) (text_edit part (env_event env) m))
    m (durable_text session message part text 1 2 3 t1 t2 t3).

Definition set_text (text : string) (x : PartProjection) : PartProjection :=
  match x with Text id _ => Text id text | x => x end.

Definition settle_parts (part : PartId) (text : string) (l : list PartProjection) :
    list PartProjection :=
  update_last (fun x => part_id x = part) (set_text text)
    (if existsb (fun x => bool_decide (part_id x = part)) l then l else l ++ [Text part ""]).

Lemma settle_eq session message part text t1 t2 t3 m :
  settle session message part text t1 t2 t3 m =
  m <| msg_parts ::= settle_parts part text |>
    <| msg_time_updated ::= fun t => Some (Z.max (Z.max (match t with Some t => Z.max t t1 | None => t1 end) t2) t3) |>.
Proof. unfold settle, durable_text, settle_parts. simpl. by destruct (existsb _ _). Qed.

Lemma existsb_update_last (part : PartId) (f : PartProjection -> PartProjection) l :
  (forall x, part_id (f x) = part_id x) ->
  existsb (fun x => bool_decide (part_id x = part)) (update_last (fun x => part_id x = part) f l)
  = existsb (fun x => bool_decide (part_id x = part)) l.
Proof.
  intros Hf.
  assert (forall k, existsb (fun x => bool_decide (part_id x = part)) k
            = existsb (fun i => bool_decide (i = part)) (part_id <$> k)) as Hk.
  { induction k as [|x k IH]; [done|]. cbn. by rewrite IH. }
  by rewrite !Hk, (update_last_key _ part_id).
Qed.

Lemma settle_parts_edit part text (f : PartProjection -> PartProjection) l :
  (forall x, part_id (f x) = part_id x) ->
  (forall x, set_text text (f x) = set_text text x) ->
  settle_parts part text (update_last (fun x => part_id x = part) f l) = settle_parts part text l.
Proof.
  intros Hid Hf. unfold settle_parts. rewrite existsb_update_last by done.
  destruct (existsb _ l) eqn:E.
  - rewrite update_last_compose by (intros x; by rewrite Hid). apply update_last_ext.
    intros x _. apply Hf.
  - f_equal. f_equal. apply update_last_not. apply Forall_forall. intros x Hx Heq.
    apply not_true_iff_false in E. apply E, existsb_exists. exists x.
    split; [by apply list_elem_of_In|by apply bool_decide_eq_true].
Qed.

Lemma settle_parts_start part text l :
  existsb (fun x => bool_decide (part_id x = part)) l = false ->
  settle_parts part text (l ++ [Text part ""]) = settle_parts part text l.
Proof.
  intros E. unfold settle_parts. rewrite E, existsb_app, E. simpl.
  by rewrite bool_decide_eq_true_2.
Qed.

Lemma settle_live session message part text t1 t2 t3 e ts m :
  text_event session message part e -> (ts <= t3)%Z ->
  settle session message part text t1 t2 t3 (stamp e ts (text_edit part e m))
  = settle session message part text t1 t2 t3 m.
Proof.
  intros He Hts. rewrite !settle_eq.
  assert (settle_parts part text (msg_parts (text_edit part e m))
          = settle_parts part text (msg_parts m)) as Hparts.
  { destruct e; try done; simpl.
    - destruct (existsb _ _) eqn:E; [done|]. destruct He as (_ & _ & ->).
      by apply settle_parts_start.
    - apply settle_parts_edit; by intros [].
    - apply settle_parts_edit; by intros []. }
  assert (msg_time_updated (text_edit part e m) = msg_time_updated m) as Hu
    by (destruct e; try done; simpl; by destruct (existsb _ _)).
  assert (is_message_started e = false) as Hs by by destruct e.
  assert ((text_edit part e m) <| msg_parts := [] |> <| msg_time_updated := None |>
          = m <| msg_parts := [] |> <| msg_time_updated := None |>) as Hrest
    by (destruct e; try done; simpl; by destruct (existsb _ _)).
  unfold stamp. rewrite Hs. simpl in *. rewrite Hparts, Hu. injection Hrest as -> -> -> -> -> -> -> -> -> -> -> -> -> ->.
  f_equal. f_equal. destruct (msg_time_updated m); lia.
Qed.

Lemma apply_durable_text session message part env p :
  text_event session message part (env_event env) -> (p_last_seq p < env_seq env)%N ->
  apply p env
  = update_message message
      (stamp (env_event env) (env_ts_millis env) ∘ text_edit part (env_event env))
      (p <| p_last_seq := env_seq env |>).
Proof.
  intros He Hlt. unfold apply. rewrite (proj2 (N.eqb_neq _ 0%N)) by lia.
  rewrite (proj2 (N.leb_gt _ _)) by lia. by rewrite (apply_text session message part).
Qed.

Lemma foldl_durable session message part text n1 n2 n3 t1 t2 t3 p :
  (p_last_seq p < n1)%N -> (n1 < n2)%N -> (n2 < n3)%N ->
  foldl apply p (durable_text session message part text n1 n2 n3 t1 t2 t3)
  = update_message message (settle session message part text t1 t2 t3) (p <| p_last_seq := n3 |>).
Proof.
  intros H1 H2 H3. unfold durable_text. cbn [foldl].
  rewrite (apply_durable_text session message part (mkEnvelope n1 t1 _)) by (simpl; auto).
  rewrite (apply_durable_text session message part (mkEnvelope n2 t2 _)) by (simpl; auto).
  rewrite (apply_durable_text session message part (mkEnvelope n3 t3 _)) by (simpl; auto).
  assert (forall id f n q, (update_message id f q) <| p_last_seq := n |>
            = update_message id f (q <| p_last_seq := n |>)) as Hset by done.
  assert (forall e ts m, msg_id ((stamp e ts ∘ text_edit part e) m) = msg_id m) as Hid.
  { intros e ts m. etrans; [apply stamp_fields|apply text_edit_id]. }
  rewrite !Hset, !update_message_compose; [done|done|].
  intros m. apply Hid.
Qed.

(** C36: live streaming converges to the durable log.  Whatever live text events of a part a client
    has folded, none stamped after the durable rows of the part, folding those rows gives exactly
    the projection of a client that folded only the durable rows: deltas, replacements and a
    lost start leave no trace. *)
Theorem live_text_converges session message part text (n1 n2 n3 : N) (t1 t2 t3 : Z) live p :
  Forall (fun env => env_seq env = 0%N /\ text_event session message part (env_event env)
                     /\ (env_ts_millis env <= t3)%Z) live ->
  (p_last_seq p < n1)%N -> (n1 < n2)%N -> (n2 < n3)%N ->
  foldl apply p (live ++ durable_text session message part text n1 n2 n3 t1 t2 t3)
  = foldl apply p (durable_text session message part text n1 n2 n3 t1 t2 t3).
Proof.
  intros Hlive H1 H2 H3. rewrite foldl_app, (foldl_live session message part live p).
  2: { eapply Forall_impl; [exact Hlive|]. by intros env (? & ? & _). }
  rewrite !foldl_durable by done.
  match goal with |- update_message _ ?f (?q <| p_last_seq := _ |>) = _ =>
    change (update_message message f (q <| p_last_seq := n3 |>)) with
      (update_message message f (update_message message (fun m => foldl (fun m env =>
        stamp (env_event env) (env_ts_millis env) (text_edit part (env_event env) m)) m live)
         (p <| p_last_seq := n3 |>))) end.
  assert (forall m, msg_id (foldl (fun m env => stamp (env_event env) (env_ts_millis env)
            (text_edit part (env_event env) m)) m live) = msg_id m) as Hid.
  { clear. induction live as [|env live IH]; intros m; simpl; [done|].
    rewrite IH. etrans; [apply stamp_fields|apply text_edit_id]. }
  rewrite update_message_compose by done. apply update_message_ext. intros m. simpl. clear Hid.
  revert m. induction Hlive as [|env live (_ & He & Hts) _ IH]; intros m; simpl; [done|].
  rewrite IH. by apply settle_live.
Qed.
End redelivery.

(** ** Reverts *)

Section reverts.
Context {U : UuidLib} {J : JsonLib}.
Implicit Types (p : Projection) (files : list FileRestore).

Definition revert_all p (reverts : list (MessageId * list FileRestore)) : Projection :=
  foldl (fun p '(message, files) => apply_revert message files p) p reverts.

Lemma session_revert_eq (s : SessionProjection) r ms :
  s <| sp_revert := r |> <| sp_messages := ms |> = s <| sp_messages := ms |> <| sp_revert := r |>.
Proof. done. Qed.

Lemma unrevert_eq p :
  on_session_unreverted p = p <| p_session ::= fun s =>
    s <| sp_revert := None |> <| sp_messages := all_messages p |> |>.
Proof.
  destruct p as [s t n]. unfold on_session_unreverted, all_messages. simpl.
  destruct s, sp_revert; simpl; [done|]. by rewrite app_nil_r.
Qed.

Lemma revert_then_unrevert message files p :
  on_session_unreverted (apply_revert message files p) = on_session_unreverted p.
Proof.
  rewrite !unrevert_eq. unfold apply_revert. destruct (position _ _) as [i|]; [|done].
  destruct p as [s t n]. unfold all_messages. simpl.
  destruct (sp_revert s) as [r|]; simpl; by rewrite ?app_assoc, take_drop, ?app_nil_r.
Qed.

(** What is on disk for a path once a pending revert is undone. *)
Definition saved_state files (path : string) : option FileState.t :=
  fr_saved <$> find_first (fun file => fr_path file = path) files.

Lemma find_first_app_l {A} (P : A -> Prop) `{!forall x, Decision (P x)} l k :
  find_first P (l ++ k) = match find_first P l with Some x => Some x | None => find_first P k end.
Proof. induction l as [|x l IH]; simpl; [done|]. by case_decide. Qed.

Lemma saved_update files path q s :
  saved_state (update_first (fun file => fr_path file = path)
                 (fun file => file <| fr_saved := s |>) files) q
  = if decide (path = q) then (fun _ => s) <$> saved_state files q else saved_state files q.
Proof.
  unfold saved_state. induction files as [|file files IH]; simpl; [by case_decide|].
  destruct (decide (fr_path file = path)) as [<-|Hne]; simpl.
  - destruct (decide (fr_path file = q)) as [|]; simpl; [done|]. done.
  - destruct (decide (fr_path file = q)) as [<-|]; simpl; [|done].
    by rewrite decide_False by congruence.
Qed.

Lemma saved_step files old q :
  saved_state (match find_first (fun file => fr_path file = fr_path old) files with
               | Some _ => update_first (fun file => fr_path file = fr_path old)
                             (fun file => file <| fr_saved := fr_saved old |>) files
               | None => files ++ [old]
               end) q
  = if decide (fr_path old = q) then Some (fr_saved old) else saved_state files q.
Proof.
  destruct (find_first _ files) as [x|] eqn:E.
  - rewrite saved_update. destruct (decide (fr_path old = q)) as [<-|]; [|done].
    unfold saved_state. by rewrite E.
  - unfold saved_state. rewrite find_first_app_l. simpl.
    destruct (decide (fr_path old = q)) as [<-|]; [by rewrite E|].
    by destruct (find_first (fun file => fr_path file = q) files).
Qed.

Lemma merge_files_saved merged previous path :
  NoDup (fr_path <$> previous) ->
  saved_state (merge_files merged previous) path
  = match saved_state previous path with
    | Some s => Some s | None => saved_state merged path end.
Proof.
  revert merged. induction previous as [|old previous IH]; intros merged; [done|].
  rewrite fmap_cons, NoDup_cons. intros [Hold Hnd]. cbn [merge_files]. rewrite IH, saved_step by done.
  unfold saved_state at 3. simpl. case_decide as Hp; [|done]. simpl.
  assert (saved_state previous path = None) as ->; [|done].
  unfold saved_state. apply fmap_None, find_first_None, Forall_forall.
  intros x Hx Hxp. apply Hold. rewrite Hp, <- Hxp. by apply list_elem_of_fmap_2.
Qed.

Lemma merge_files_NoDup merged previous :
  NoDup (fr_path <$> merged) -> NoDup (fr_path <$> merge_files merged previous).
Proof.
  revert merged. induction previous as [|old previous IH]; intros merged Hnd; [done|].
  cbn [merge_files]. apply IH. destruct (find_first _ merged) as [x|] eqn:E.
  - by rewrite (update_first_key _ fr_path).
  - rewrite fmap_app. apply NoDup_app. split; [done|]. split; [|apply NoDup_singleton].
    intros y (x & -> & Hx)%list_elem_of_fmap Hy%list_elem_of_singleton.
    apply find_first_None in E. rewrite Forall_forall in E. exact (E x Hx Hy).
Qed.

Definition pending_files p : list FileRestore :=
  match sp_revert (p_session p) with Some r => rv_files r | None => [] end.

Lemma apply_revert_files message files p i :
  position (fun item => msg_id item = message) (sp_messages (p_session p)) = Some i ->
  pending_files (apply_revert message files p) = merge_files files (pending_files p).
Proof.
  intros Hi. unfold apply_revert, pending_files. rewrite Hi. simpl.
  by destruct (sp_revert (p_session p)).
Qed.

(** C34: a revert is undone exactly.  However many reverts extend a pending one, an unrevert
    restores the very projection an unrevert would have given before them, so with nothing
    pending the whole transcript returns in order; the visible transcript is a prefix of what it
    was; and a path an earlier revert of the pending range saved keeps that first saved state,
    the others getting theirs from the newer revert. *)
Theorem revert_roundtrip p (reverts : list (MessageId * list FileRestore)) message files path i :
  NoDup (fr_path <$> pending_files p) -> NoDup (fr_path <$> files) ->
  position (fun item => msg_id item = message) (sp_messages (p_session p)) = Some i ->
  on_session_unreverted (revert_all p reverts) = on_session_unreverted p
  /\ (sp_revert (p_session p) = None -> on_session_unreverted (revert_all p reverts) = p)
  /\ sp_messages (p_session (revert_all p reverts)) `prefix_of` sp_messages (p_session p)
  /\ saved_state (pending_files (apply_revert message files p)) path
     = match saved_state (pending_files p) path with
       | Some s => Some s | None => saved_state files path end
  /\ NoDup (fr_path <$> pending_files (apply_revert message files p)).
Proof.
  intros Hnd Hfiles Hi.
  assert (on_session_unreverted (revert_all p reverts) = on_session_unreverted p) as Hrt.
  { clear. unfold revert_all. revert p. induction reverts as [|[m fs] rs IH]; intros p; simpl; [done|].
    by rewrite IH, revert_then_unrevert. }
  rewrite (apply_revert_files _ _ _ i) by done. split_and!; [done| | | |].
  - intros Hno. rewrite Hrt. unfold on_session_unreverted. destruct p as [s t n].
    simpl in *. by rewrite Hno.
  - clear. unfold revert_all. revert p. induction reverts as [|[m fs] rs IH]; intros p; simpl; [done|].
    etrans; [apply IH|]. unfold apply_revert. destruct (position _ _) as [j|]; [|done]. simpl.
    destruct (sp_revert (p_session p)); simpl; apply prefix_take.
  - by apply merge_files_saved.
  - by apply merge_files_NoDup.
Qed.
End reverts.

(** ** Compaction markers *)

Section compaction.
Context {U : UuidLib} {J : JsonLib}.
Implicit Types (p : Projection).

Lemma unique_id (ms : list MessageProjection) x y :
  NoDup (msg_id <$> ms) -> x ∈ ms -> y ∈ ms -> msg_id x = msg_id y -> x = y.
Proof.
  intros Hnd Hx Hy Heq.
  assert (Some x = Some y) as [= ->]; [|done].
  rewrite <- (find_first_unique msg_id (msg_id x) ms x), <- (find_first_unique msg_id (msg_id x) ms y);
    auto.
Qed.

Lemma filter_id_delete (ms : list MessageProjection) i row :
  NoDup (msg_id <$> ms) -> ms !! i = Some row ->
  filter (fun m => msg_id m <> msg_id row) ms = delete i ms
  /\ Forall (fun m => msg_id m <> msg_id row) (delete i ms).
Proof.
  revert i. induction ms as [|m ms IH]; intros i; [done|].
  rewrite fmap_cons, NoDup_cons. intros [Hm Hnd] Hi. destruct i as [|i]; simplify_eq/=.
  - assert (Forall (fun m => msg_id m <> msg_id row) ms) as Hall.
    { apply Forall_forall. intros x Hx Heq. apply Hm. rewrite <- Heq. by apply list_elem_of_fmap_2. }
    split; [|done]. rewrite filter_cons, decide_False by tauto.
    clear -Hall. induction Hall; [done|]. rewrite filter_cons, decide_True by done. by f_equal.
  - destruct (IH i Hnd Hi) as [Hf Hall].
    assert (msg_id m <> msg_id row) as Hne.
    { intros Heq. apply Hm. rewrite Heq. apply list_elem_of_fmap_2. by eapply list_elem_of_lookup_2. }
    split; [|by constructor]. rewrite filter_cons, decide_True by done. by rewrite Hf.
Qed.

Lemma filter_id_insert i row (l : list MessageProjection) :
  Forall (fun m => msg_id m <> msg_id row) l ->
  filter (fun m => msg_id m <> msg_id row) (list_insert_at i row l) = l.
Proof.
  intros Hl. unfold list_insert_at. rewrite filter_app, filter_cons, decide_False by tauto.
  rewrite <- filter_app, take_drop.
  induction Hl; [done|]. rewrite filter_cons, decide_True by done. by f_equal.
Qed.

(** a compaction record only moves its marker.  In any folded session the transcript keeps its
    messages and the order of all but the marker; the marker ends directly behind the boundary
    message when that is another message of the transcript, and stays where it was otherwise. *)
Theorem compaction_moves_marker (envs : list Envelope) marker boundary :
  let p := from_events envs in
  let before := sp_messages (p_session p) in
  let after := sp_messages (p_session (on_context_compacted marker boundary p)) in
  after ≡ₚ before
  /\ filter (fun m => msg_id m <> marker) after = filter (fun m => msg_id m <> marker) before
  /\ (forall row target, row ∈ before -> msg_id row = marker ->
        target ∈ before -> msg_id target = boundary -> marker <> boundary ->
        exists l k, after = l ++ target :: row :: k)
  /\ (marker = boundary \/ Forall (fun m => msg_id m <> boundary) before -> after = before).
Proof.
  cbv zeta. set (p := from_events envs).
  destruct (from_events_wf envs) as [[Hids _] _]. fold p in Hids.
  cbn [transcript fst snd] in Hids. rewrite fmap_app, NoDup_app in Hids.
  destruct Hids as [Hnd _]. unfold on_context_compacted.
  set (ms := sp_messages (p_session p)) in *.
  destruct (position (fun row => msg_id row = marker) ms) as [i|] eqn:Hpos.
  2: { apply position_None in Hpos. rewrite Forall_forall in Hpos. split_and!; try done.
       intros row ? Hrow Hmark. by destruct (Hpos row Hrow). }
  apply position_Some in Hpos as (row & Hi & Hrow & _). rewrite Hi. cbn [p_session sp_messages set].
  destruct (filter_id_delete ms i row Hnd Hi) as [Hf Hall]. rewrite Hrow in *.
  set (at_ := match position _ (delete i ms) with Some _ => _ | None => _ end).
  split_and!.
  - rewrite list_insert_at_Permutation. symmetry. by apply delete_Permutation.
  - rewrite Hf, <- Hrow. apply filter_id_insert. by rewrite Hrow.
  - intros row' target Hrow' Hm' Htarget Hb Hne.
    assert (row' = row) as ->.
    { eapply unique_id; [exact Hnd|done|by eapply list_elem_of_lookup_2|congruence]. }
    assert (target ∈ delete i ms) as Ht.
    { rewrite <- Hf. apply list_elem_of_filter. split; [congruence|done]. }
    unfold at_. destruct (position _ (delete i ms)) as [k|] eqn:Hk.
    + apply position_Some in Hk as (target' & Hk & Hb' & _).
      assert (target' = target) as ->.
      { eapply unique_id; [exact Hnd| |done|congruence].
        apply list_elem_of_lookup_2 in Hk. rewrite <- Hf in Hk.
        by apply list_elem_of_filter in Hk as [_ Hk]. }
      exists (take k (delete i ms)), (drop (k + 1) (delete i ms)). unfold list_insert_at.
      rewrite Nat.add_1_r, (take_S_r _ _ _ Hk), <- app_assoc. done.
    + apply position_None in Hk. rewrite Forall_forall in Hk. by destruct (Hk target Ht).
  - intros Hsame.
    assert (position (fun row => msg_id row = boundary) (delete i ms) = None) as Hnone.
    { apply position_None. destruct Hsame as [->|Hno]; [done|].
      rewrite Forall_forall in *. intros x Hx. apply Hno.
      rewrite <- Hf in Hx. by apply list_elem_of_filter in Hx as [_ Hx]. }
    unfold at_. rewrite Hnone. pose proof (lookup_lt_Some _ _ _ Hi) as Hlt.
    rewrite length_delete by eauto. rewrite Nat.min_l by lia.
    unfold list_insert_at. rewrite delete_take_drop.
    rewrite take_app_le, take_take, Nat.min_id by (rewrite length_take; lia).
    rewrite drop_app_le, drop_ge by (rewrite length_take; lia). simpl.
    by rewrite take_drop_middle.
Qed.
End compaction.

(** ** Billing *)

Section billing.
Context {U : UuidLib} {J : JsonLib}.
Implicit Types (p : Projection) (e : Event.t) (env : Envelope).

(** What an event bills to the session it is folded into. *)
Definition event_bills p e : list bill :=
  match e with
  | Event.UsageRecorded _ _ _ model purpose tokens => [Round model purpose tokens]
  | Event.MessageFinished _ message _ _ tokens _ =>
      match legacy_sum p message tokens with Some sum => [Legacy sum] | None => [] end
  | _ => []
  end.

(** An envelope the projection has seen bills nothing. *)
Definition envelope_bills p env : list bill :=
  if (env_seq env =? 0)%N || (p_last_seq p <? env_seq env)%N then event_bills p (env_event env)
  else [].

Fixpoint log_bills p (envs : list Envelope) : list bill :=
  match envs with
  | [] => []
  | env :: envs => envelope_bills p env ++ log_bills (apply p env) envs
  end.

Lemma on_session_usage (f : SessionProjection -> SessionProjection) p :
  (forall s, sp_usage (f s) = sp_usage s) ->
  sp_usage (p_session (on_session f p)) = sp_usage (p_session p).
Proof. intros Hf. apply Hf. Qed.

Lemma apply_event_usage e p :
  sp_usage (p_session (apply_event e p))
  = foldl record_bill (sp_usage (p_session p)) (event_bills p e).
Proof.
  destruct e; cbn [apply_event event_bills foldl]; try reflexivity;
    try (apply on_session_usage; intros s;
         unfold on_agent_model_override_set, on_session_archived, on_workflow_stage_finished,
           on_workflow_run_finished, on_member_spawned, on_member_status_changed,
           on_member_finished, on_subagent_reported, update_member;
         by repeat case_match).
  - unfold on_message_started. by case_match.
  - unfold on_message_finished. by destruct (legacy_sum p message tokens).
  - unfold on_tool_call_requested, upsert_tool. by repeat case_match.
  - unfold on_context_compacted. by repeat case_match.
  - unfold on_usage_recorded. by case_match.
  - unfold apply_revert. case_match; [|done]. simpl. by destruct (sp_revert (p_session p)).
  - by case_match.
Qed.

Lemma apply_usage p env :
  sp_usage (p_session (apply p env))
  = foldl record_bill (sp_usage (p_session p)) (envelope_bills p env).
Proof.
  assert (forall e ts q, sp_usage (p_session (stamp_message_time e ts q)) = sp_usage (p_session q))
    as Hstamp by (intros; unfold stamp_message_time; by case_match).
  unfold apply, envelope_bills. destruct (env_seq env =? 0)%N; simpl.
  { by rewrite Hstamp, apply_event_usage. }
  destruct (env_seq env <=? p_last_seq p)%N eqn:E.
  - by rewrite (proj2 (N.ltb_ge _ _)) by (by apply N.leb_le).
  - rewrite (proj2 (N.ltb_lt _ _)) by (by apply N.leb_gt). simpl.
    by rewrite Hstamp, apply_event_usage.
Qed.

Lemma foldl_apply_usage p envs :
  sp_usage (p_session (foldl apply p envs))
  = foldl record_bill (sp_usage (p_session p)) (log_bills p envs).
Proof.
  revert p. induction envs as [|env envs IH]; intros p; simpl; [done|].
  by rewrite IH, apply_usage, foldl_app.
Qed.

Lemma record_bills_le u bills : usage_fit u -> usage_le u (foldl record_bill u bills).
Proof.
  revert u. induction bills as [|b bills IH]; intros u Hu; simpl; [done|].
  destruct (record_bill_spec u b Hu) as (Hfit & _ & _ & Hle). etrans; [exact Hle|by apply IH].
Qed.

Lemma log_bills_app p l k : log_bills p (l ++ k) = log_bills p l ++ log_bills (foldl apply p l) k.
Proof.
  revert p. induction l as [|env l IH]; intros p; simpl; [done|]. by rewrite IH, app_assoc.
Qed.

(** billed stays billed.  A session's usage is exactly the fold of the bills of its log, one
    per round recorded and one per finished message without records, envelopes seen again billing
    nothing; no later event, be it a deletion, a revert or a compaction, lowers any counter of any
    model or purpose, and the grand total is the saturating sum of the bills. *)
Theorem billed_stays_billed (log later : list Envelope) :
  let usage l := sp_usage (p_session (from_events l)) in
  let bills l := log_bills Projection_default l in
  usage log = usage_of (bills log)
  /\ usage_le (usage log) (usage (log ++ later))
  /\ bills log `prefix_of` bills (log ++ later)
  /\ SessionUsage_total (usage log) = bills_total (bills log).
Proof.
  cbv beta zeta.
  assert (forall l, sp_usage (p_session (from_events l)) = usage_of (log_bills Projection_default l))
    as Heq by (intros l; apply foldl_apply_usage).
  rewrite !Heq, log_bills_app. split_and!; [done| |by apply prefix_app_r|].
  - unfold usage_of. rewrite foldl_app. apply record_bills_le, usage_of_fit.
  - unfold SessionUsage_total. apply slices_agree.
Qed.

(** ** The team of a session log *)

Lemma apply_event_team e p :
  p_team (apply_event e p) = p_team p \/ team_step (p_team p) (p_team (apply_event e p)).
Proof.
  destruct e; cbn [apply_event]; try (by left);
    try (right; unfold on_team; cbn [p_team set]; by constructor).
  - unfold on_message_started. left. by case_match.
  - unfold on_message_finished. left. by case_match.
  - unfold on_tool_call_requested, upsert_tool. left. by repeat case_match.
  - unfold on_context_compacted. left. by repeat case_match.
  - unfold on_usage_recorded. left. by case_match.
  - unfold apply_revert. left. by case_match.
  - left. by case_match.
Qed.

(** C37: the session fold implements the team's step relation.  The team of any folded log is a
    reachable team, so it is well formed: every stored address is canonical and every piece of
    channel mail in an inbox is in the log of its channel. *)
Theorem fold_refines_team (envs : list Envelope) :
  team_reachable (p_team (from_events envs)) /\ team_wf (p_team (from_events envs)).
Proof.
  assert (team_reachable (p_team (from_events envs))) as Hr.
  { apply from_events_ind; [apply rtc_refl|]. intros p env Hp.
    assert (p_team (apply p env) = p_team p \/ team_step (p_team p) (p_team (apply p env))) as Hs.
    { assert (forall e ts q, p_team (stamp_message_time e ts q) = p_team q) as Hstamp
        by (intros; unfold stamp_message_time; by case_match).
      destruct (apply_cases p env) as [->|[n ->]]; [by left|].
      cbn [p_team set]. rewrite Hstamp. apply apply_event_team. }
    destruct Hs as [->|Hs]; [done|]. by eapply rtc_r. }
  split; [done|]. by apply team_reachable_wf.
Qed.
End billing.

(** ** Examples *)

Definition demo_message (n : N) (H : (n <? 2 ^ 128)%N = true) : MessageId :=
  from_uuid (Demo.Uuid128 n H).
Definition demo_m1 : MessageId := demo_message 1 eq_refl.
Definition demo_m2 : MessageId := demo_message 2 eq_refl.
Definition demo_part : PartId := from_uuid (Demo.Uuid128 3 eq_refl).

Definition demo_start (seq : N) (m : MessageId) : Envelope :=
  mkEnvelope seq 10 (Event.MessageStarted demo_session m Role.Assistant None None).

(** Two messages. *)
Definition demo_log : list Envelope := [demo_start 1 demo_m1; demo_start 2 demo_m2].

Lemma redelivery_is_noop_witness :
  from_events (demo_log ++ [demo_start 2 demo_m2; demo_start 1 demo_m1] ++ []) = from_events demo_log.
Proof.
  destruct (redelivery_is_noop demo_log [demo_start 2 demo_m2; demo_start 1 demo_m1] [])
    as (-> & _ & _); [|by rewrite app_nil_r].
  repeat constructor; try done; unfold demo_log; set_solver.
Defined.

Definition demo_live : list Envelope :=
  [mkEnvelope 0%N 11 (Event.TextStart demo_session demo_m2 demo_part);
   mkEnvelope 0%N 12 (Event.TextDelta demo_session demo_m2 demo_part "he");
   mkEnvelope 0%N 13 (Event.TextDelta demo_session demo_m2 demo_part "llo");
   mkEnvelope 0%N 14 (Event.TextEnd demo_session demo_m2 demo_part)].

(** After the live deltas the text is there already; after the durable rows nothing tells the two
    clients apart. *)
Lemma live_text_converges_witness :
  find_part (foldl apply (from_events demo_log) demo_live) demo_m2 demo_part
    = Some (Text demo_part "hello")
  /\ foldl apply (from_events demo_log)
       (demo_live ++ durable_text demo_session demo_m2 demo_part "hello!" 3 4 5 15 16 17)
     = foldl apply (from_events demo_log)
         (durable_text demo_session demo_m2 demo_part "hello!" 3 4 5 15 16 17).
Proof.
  split; [reflexivity|].
  apply live_text_converges; [|vm_compute; reflexivity|reflexivity|reflexivity].
  unfold demo_live. repeat (apply Forall_cons; split; [repeat split; discriminate|]). constructor.
Defined.

Definition demo_restore (path : string) (saved : FileState.t) : FileRestore :=
  mkFileRestore path FileState.Absent saved false None.

(** The second message is reverted, then the first. *)
Lemma revert_roundtrip_witness :
  let p := apply_revert demo_m2 [demo_restore "a" (FileState.Stored "x" 1)] (from_events demo_log) in
  on_session_unreverted (revert_all (from_events demo_log) [(demo_m2, []); (demo_m1, [])])
    = from_events demo_log
  /\ saved_state (pending_files (apply_revert demo_m1 [demo_restore "a" FileState.Absent] p)) "a"
     = Some (FileState.Stored "x" 1).
Proof.
  cbv zeta.
  destruct (revert_roundtrip (from_events demo_log) [(demo_m2, []); (demo_m1, [])] demo_m2 [] "a" 1)
    as (_ & Hrt & _); [constructor|constructor|reflexivity|].
  split; [apply Hrt; reflexivity|].
  destruct (revert_roundtrip
    (apply_revert demo_m2 [demo_restore "a" (FileState.Stored "x" 1)] (from_events demo_log)) []
    demo_m1 [demo_restore "a" FileState.Absent] "a" 0) as (_ & _ & _ & -> & _).
  - apply NoDup_singleton.
  - apply NoDup_singleton.
  - reflexivity.
  - reflexivity.
Defined.

Lemma compaction_moves_marker_witness :
  exists target row l k,
    sp_messages (p_session (on_context_compacted demo_m1 demo_m2 (from_events demo_log)))
    = l ++ target :: row :: k /\ msg_id row = demo_m1.
Proof.
  destruct (compaction_moves_marker demo_log demo_m1 demo_m2) as (_ & _ & Hmove & _).
  assert (is_Some (message_ref (from_events demo_log) demo_m1)) as [row Hrow]
    by (eexists; reflexivity).
  assert (is_Some (message_ref (from_events demo_log) demo_m2)) as [target Htarget]
    by (eexists; reflexivity).
  apply find_last_Some in Hrow as [Hin Hid], Htarget as [Htin Htid].
  destruct (Hmove row target) as (l & k & Hlk); [exact Hin|exact Hid|exact Htin|exact Htid| |].
  { intros Heq.
    apply (f_equal (fun m : MessageId => Demo.bits (as_uuid (U := Demo.uuid_lib) m))) in Heq.
    discriminate Heq. }
  by exists target, row, l, k.
Defined.
