(* ===== verification/Runs.v ===== *)
(** * Workflow runs and the archive under the fold

    The Workflow part of [Projection.v] as a state machine: stages only move forward, a finished
    run is frozen and never comes back once replaced, redelivered starts are ignored; and the
    archive protocol of a root session ([session_archive_event]). *)

From S2P Require Import Prelude RustStr Platform Ids Scope Wire Workflow Usage Events Team Projection Transcript.

Section runs.
Context {U : UuidLib} {J : JsonLib}.
Implicit Types (s : SessionProjection) (w : WorkflowProjection) (r : WorkflowRunProjection)
  (row : WorkflowStageProjection).

Definition workflow_of s : WorkflowProjection := default WorkflowProjection_default (sp_workflow s).

(** ** Progress of stages and runs *)

(** A stage keeps its plan, never leaves a terminal status or returns to pending, and only gains
    members and outcomes. *)
Record stage_le row row' : Prop := {
  sl_plan : ws_plan row' = ws_plan row;
  sl_terminal : WorkflowStageStatus.is_terminal (ws_status row) = true ->
    ws_status row' = ws_status row;
  sl_pending : ws_status row' = WorkflowStageStatus.Pending ->
    ws_status row = WorkflowStageStatus.Pending;
  sl_members : ws_members row `prefix_of` ws_members row';
  sl_outcomes : ws_route_outcomes row `prefix_of` ws_route_outcomes row';
}.

#[global] Instance stage_le_preorder : PreOrder stage_le.
Proof.
  split; [by split|]. intros a b c [P1 T1 Q1 M1 O1] [P2 T2 Q2 M2 O2].
  split; [congruence| |auto|by etrans..].
  intros Ha. rewrite T2; [auto|]. by rewrite T1.
Qed.

(** The same run later: identity and plan stay, stages progress, and a terminal run is frozen. *)
Record run_le r r' : Prop := {
  rl_id : wr_id r' = wr_id r;
  rl_workflow : wr_workflow r' = wr_workflow r /\ wr_request_hash r' = wr_request_hash r
    /\ wr_owner r' = wr_owner r;
  rl_stages : Forall2 stage_le (wr_stages r) (wr_stages r');
  rl_frozen : WorkflowRunStatus.is_terminal (wr_status r) = true -> r' = r;
}.

#[global] Instance run_le_preorder : PreOrder run_le.
Proof.
  split.
  - intros r. by split.
  - intros a b c [? (?&?&?) ? Hab] [? (?&?&?) ? Hbc]. split; [congruence|split_and!; congruence| |].
    + by etrans.
    + intros Ha. pose proof (Hab Ha). subst b. auto.
Qed.

(** Later states of the Workflow view: admitted runs stay admitted, and the current run either
    progresses or gives way to a run that had not been admitted. *)
Definition workflow_le w w' : Prop :=
  wp_seen_runs w ⊆ wp_seen_runs w'
  /\ forall r, wp_run w = Some r ->
       exists r', wp_run w' = Some r' /\ (run_le r r' \/ wr_id r' ∉ wp_seen_runs w).

#[global] Instance workflow_le_preorder : PreOrder workflow_le.
Proof.
  split.
  - intros w. split; [done|]. intros r Hr. exists r. split; [done|by left].
  - intros a b c [Hab Hra] [Hbc Hrb]. split; [by etrans|]. intros r Hr.
    destruct (Hra r Hr) as (r1 & Hr1 & H1). destruct (Hrb r1 Hr1) as (r2 & Hr2 & H2).
    exists r2. split; [done|]. destruct H2 as [H2|H2]; [|right; set_solver].
    destruct H1 as [H1|H1]; [left; by etrans|right]. by rewrite (rl_id _ _ H2).
Qed.

(** ** Well-formed views *)

Definition link_key (m : WorkflowMemberProjection) : MemberId * WorkflowMemberRole.t * N :=
  (wm_member m, wm_role m, wm_iteration m).
Definition outcome_key (o : WorkflowStageRouteOutcome) :
    string * MemberId * WorkflowMemberRole.t * N * N :=
  (wro_stage o, wro_member o, wro_role o, wro_iteration o, wro_step o).

Definition stage_wf row : Prop :=
  NoDup (link_key <$> ws_members row) /\ NoDup (outcome_key <$> ws_route_outcomes row).

Record run_wf r : Prop := {
  rw_stages : Forall stage_wf (wr_stages r);
  rw_stopped : WorkflowRunStatus.is_terminal (wr_status r) = true ->
    wr_status r <> WorkflowRunStatus.Completed ->
    Forall (fun row => WorkflowStageStatus.is_terminal (ws_status row) = true) (wr_stages r);
}.

Definition workflow_wf w : Prop :=
  forall r, wp_run w = Some r -> wr_id r ∈ wp_seen_runs w /\ run_wf r.

(** A write that a run admits. *)
Definition run_edit (f : WorkflowRunProjection -> WorkflowRunProjection) : Prop :=
  forall r, run_wf r -> run_le r (f r) /\ run_wf (f r).

Definition stage_edit (f : WorkflowStageProjection -> WorkflowStageProjection) : Prop :=
  forall row, stage_le row (f row) /\ (stage_wf row -> stage_wf (f row)).

Definition workflow_step s s' : Prop :=
  workflow_wf (workflow_of s) ->
  workflow_le (workflow_of s) (workflow_of s') /\ workflow_wf (workflow_of s').

Lemma workflow_step_same s s' : sp_workflow s' = sp_workflow s -> workflow_step s s'.
Proof. intros Heq Hs. unfold workflow_of. rewrite Heq. by split. Qed.

Lemma workflow_of_update id f s :
  workflow_of (update_workflow_run id f s)
  = (workflow_of s) <| wp_run ::= fmap (M := option) (fun run =>
      if decide (wr_id run = id) then f run else run) |>.
Proof. unfold workflow_of, update_workflow_run. simpl. by destruct (sp_workflow s). Qed.

Lemma update_workflow_run_step id f s : run_edit f -> workflow_step s (update_workflow_run id f s).
Proof.
  intros Hf Hs. rewrite workflow_of_update. set (w := workflow_of s) in *. split.
  - split; [done|]. intros r Hr. simpl. rewrite Hr. simpl. eexists. split; [done|]. left.
    case_decide; [|done]. destruct (Hs r Hr) as [_ Hwf]. by apply Hf.
  - intros r. simpl. rewrite fmap_Some. intros (r0 & Hr0 & ->).
    destruct (Hs r0 Hr0) as [Hin Hwf]. case_decide; [|done].
    destruct (Hf r0 Hwf) as [Hle Hwf']. by rewrite (rl_id _ _ Hle).
Qed.

Lemma update_running_stage_step id stage f s :
  stage_edit f -> workflow_step s (update_running_stage id stage f s).
Proof.
  intros Hf. apply update_workflow_run_step. intros r Hwf. case_decide as Hrun; [|by split].
  split; split; simpl; try done.
  - apply Forall2_update_first; [done|]. intros row _. apply Hf.
  - by rewrite Hrun.
  - apply Forall_update_first; [|by apply rw_stages]. intros row _. apply Hf.
  - by rewrite Hrun.
Qed.

(** ** The events *)

Lemma existsb_false_NoDup {A K} (key : A -> K) (same : A -> bool) x l :
  (forall y, key y = key x -> same y = true) -> existsb same l = false ->
  NoDup (key <$> l) -> NoDup (key <$> l ++ [x]).
Proof.
  intros Hsame Hno Hnd. rewrite fmap_app. apply NoDup_app. split; [done|].
  split; [|apply NoDup_singleton].
  intros k (y & -> & Hy)%list_elem_of_fmap Hk%list_elem_of_singleton.
  apply not_true_iff_false in Hno. apply Hno, existsb_exists. exists y.
  split; [by apply list_elem_of_In|auto].
Qed.

Lemma started_stage_edit : stage_edit (fun row =>
  if negb (WorkflowStageStatus.is_terminal (ws_status row))
  then row <| ws_status := WorkflowStageStatus.Running |> else row).
Proof.
  intros row. destruct (WorkflowStageStatus.is_terminal _) eqn:E; [by split|].
  split; [|done]. split; simpl; try done. by rewrite E.
Qed.

Lemma finished_stage_edit status :
  WorkflowStageStatus.is_terminal status = true ->
  stage_edit (fun row =>
    if negb (WorkflowStageStatus.is_terminal (ws_status row))
    then row <| ws_status := status |> else row).
Proof.
  intros Hst row. destruct (WorkflowStageStatus.is_terminal (ws_status row)) eqn:E; [by split|].
  split; [|done]. split; simpl; try done; [by rewrite E|]. intros ->. done.
Qed.

Lemma linked_stage_edit member role iteration : stage_edit (fun row =>
  if negb (existsb (same_link member role iteration) (ws_members row))
  then row <| ws_members ::= fun ms => ms ++ [mkWorkflowMemberProjection member role iteration] |>
  else row).
Proof.
  intros row. destruct (existsb _ _) eqn:E; [by split|]. split.
  - split; simpl; try done. by apply prefix_app_r.
  - intros [Hl Ho]. split; [|done]. eapply existsb_false_NoDup; [|exact E|done].
    intros y [= Hm Hr Hi]. simpl in *. unfold same_link.
    rewrite !bool_decide_eq_true_2 by done. by apply N.eqb_eq.
Qed.

Lemma outcome_stage_edit session run stage_id member role iteration step index model reasoning
    class : stage_edit (fun row =>
  if bool_decide (ws_status row = WorkflowStageStatus.Running)
     && negb (existsb (same_outcome stage_id member role iteration step) (ws_route_outcomes row))
  then row <| ws_route_outcomes ::= fun os => os ++
         [{| wro_session := session; wro_run := run; wro_stage := stage_id;
             wro_member := member; wro_role := role; wro_iteration := iteration;
             wro_step := step; wro_candidate_index := index; wro_model := model;
             wro_reasoning := reasoning; wro_failure_class := class |}] |>
  else row).
Proof.
  intros row. destruct (bool_decide _); [|by split]. destruct (existsb _ _) eqn:E; [by split|].
  split.
  - split; simpl; try done. by apply prefix_app_r.
  - intros [Hl Ho]. split; [done|]. eapply existsb_false_NoDup; [|exact E|done].
    intros y [= Hs Hm Hr Hi Hst]. simpl in *. unfold same_outcome.
    rewrite !bool_decide_eq_true_2 by done. by rewrite Hi, Hst, !N.eqb_refl.
Qed.

Lemma stop_stage_le status row : stage_le row (stop_stage status row).
Proof.
  unfold stop_stage. destruct (ws_status row) eqn:E; simpl; try done.
  - split; simpl; try done. by rewrite E.
  - split; simpl; try done; [by rewrite E|]. by case_decide.
Qed.

Lemma stop_stage_terminal status row :
  WorkflowStageStatus.is_terminal (ws_status (stop_stage status row)) = true.
Proof.
  unfold stop_stage. destruct (ws_status row) eqn:E; simpl; rewrite ?E; try done. by case_decide.
Qed.

Lemma finished_run_edit status error :
  WorkflowRunStatus.is_terminal status = true ->
  run_edit (fun current =>
    if negb (WorkflowRunStatus.is_terminal (wr_status current))
    then let current := current <| wr_status := status |> <| wr_error := error |> in
         if decide (status <> WorkflowRunStatus.Completed)
         then current <| wr_stages ::= map (stop_stage status) |>
         else current
    else current).
Proof.
  intros Hst r Hwf. destruct (WorkflowRunStatus.is_terminal (wr_status r)) eqn:E; [by split|].
  cbv zeta. simpl negb. cbv iota. destruct (decide (status <> _)) as [Hne|Hc].
  - split; split; simpl; try done.
    + clear. induction (wr_stages r); constructor; auto using stop_stage_le.
    + by rewrite E.
    + apply Forall_fmap. eapply Forall_impl; [by apply rw_stages|]. intros row. unfold compose.
      unfold stop_stage, stage_wf. by repeat case_decide.
    + intros _ _. apply Forall_fmap, Forall_true. intros row. apply stop_stage_terminal.
  - split; split; simpl; try done.
    + by rewrite E.
    + by apply rw_stages.
Qed.

Lemma workflow_of_with f s : workflow_of (with_workflow f s) = f (workflow_of s).
Proof. done. Qed.

Lemma run_started_step run workflow hash owner stages s :
  workflow_step s (on_workflow_run_started run workflow hash owner stages s).
Proof.
  intros Hs. unfold on_workflow_run_started. rewrite workflow_of_with. case_decide as Hseen; [by split|]. split.
  - split; simpl; [set_solver|]. intros r Hr. eexists. split; [done|]. by right.
  - intros r. simpl. intros [= <-]. simpl. split; [set_solver|]. split; simpl; [|done].
    apply Forall_fmap, Forall_true. intros plan. split; apply NoDup_nil_2.
Qed.

Lemma workflow_step_trans a b c : workflow_step a b -> workflow_step b c -> workflow_step a c.
Proof.
  intros Hab Hbc Ha. destruct (Hab Ha) as [? Hb]. destruct (Hbc Hb). split; [by etrans|done].
Qed.

Lemma apply_event_workflow e (p : Projection) :
  workflow_step (p_session p) (p_session (apply_event e p)).
Proof.
  destruct e; cbn [apply_event on_session on_team p_session set];
    try (by apply workflow_step_same);
    try (apply workflow_step_same;
         unfold on_agent_model_override_set, on_session_archived, on_member_spawned,
           on_member_status_changed, on_member_finished, on_subagent_reported, update_member,
           on_message_started, on_message_finished, on_tool_call_requested, upsert_tool,
           on_context_compacted, on_usage_recorded, apply_revert;
         by repeat (case_match || case_decide)).
  - intros Hs. unfold on_workflow_selected. rewrite workflow_of_with.
    split; [split; [done|]|done]. intros r Hr. exists r. split; [done|by left].
  - apply run_started_step.
  - apply update_running_stage_step, started_stage_edit.
  - apply update_running_stage_step, linked_stage_edit.
  - apply update_running_stage_step, outcome_stage_edit.
  - unfold on_workflow_stage_finished. destruct (WorkflowStageStatus.is_terminal _) eqn:E;
      [|by apply workflow_step_same]. by apply update_running_stage_step, finished_stage_edit.
  - unfold on_workflow_run_finished. destruct (WorkflowRunStatus.is_terminal _) eqn:E;
      [|by apply workflow_step_same]. by apply update_workflow_run_step, finished_run_edit.
  - apply workflow_step_same. unfold apply_revert. destruct (position _ _); [|done]. simpl.
    by destruct (sp_revert (p_session p)).
  - apply workflow_step_same. simpl. by destruct (sp_revert (p_session p)).
Qed.

Lemma apply_workflow (p : Projection) env : workflow_step (p_session p) (p_session (apply p env)).
Proof.
  assert (forall e ts q, sp_workflow (p_session (stamp_message_time e ts q))
            = sp_workflow (p_session q)) as Hstamp
    by (intros; unfold stamp_message_time; by case_match).
  destruct (apply_cases p env) as [->|[n ->]]; [by apply workflow_step_same|].
  eapply workflow_step_trans; [apply apply_event_workflow|].
  apply workflow_step_same. apply Hstamp.
Qed.

Lemma foldl_workflow (p : Projection) envs :
  workflow_step (p_session p) (p_session (foldl apply p envs)).
Proof.
  revert p. induction envs as [|env envs IH]; intros p; simpl; [by apply workflow_step_same|].
  eapply workflow_step_trans; [apply apply_workflow|apply IH].
Qed.

Lemma default_workflow_wf : workflow_wf (workflow_of SessionProjection_default).
Proof. intros r. done. Qed.

(** C4: a Workflow run is a state machine that cannot be turned back.  In any folded log the current
    run is an admitted one, its stages hold no member link and no route outcome twice, and if it
    stopped short of completion none of its stages is pending or running.  Whatever events follow,
    the current run either is the same run with its plan intact and every stage only further
    along, unchanged in every field once the run is terminal, or is a run that had never been
    admitted before. *)
Theorem workflow_runs_progress (log later : list Envelope) r :
  let view l := workflow_of (p_session (from_events l)) in
  wp_run (view log) = Some r ->
  wr_id r ∈ wp_seen_runs (view log)
  /\ run_wf r
  /\ exists r', wp_run (view (log ++ later)) = Some r'
       /\ (run_le r r' \/ wr_id r' ∉ wp_seen_runs (view log)).
Proof.
  cbv beta zeta. intros Hr.
  destruct (foldl_workflow Projection_default log default_workflow_wf) as [_ Hwf].
  destruct (Hwf r Hr) as [Hin Hrwf]. split_and!; [done..|].
  rewrite from_events_app.
  destruct (foldl_workflow (from_events log) later Hwf) as [[_ Hle] _]. by apply Hle.
Qed.

(** Starting a run is idempotent.  A redelivered or repeated start of a run that was ever
    admitted changes nothing of the Workflow view, and the first start of a new one installs it
    running with every stage pending. *)
Theorem workflow_start_once s run workflow hash owner stages :
  let view' := workflow_of (on_workflow_run_started run workflow hash owner stages s) in
  (run ∈ wp_seen_runs (workflow_of s) -> view' = workflow_of s)
  /\ (run ∉ wp_seen_runs (workflow_of s) ->
        exists r, wp_run view' = Some r /\ wr_id r = run
          /\ wr_status r = WorkflowRunStatus.Running
          /\ ws_plan <$> wr_stages r = stages
          /\ Forall (fun row => ws_status row = WorkflowStageStatus.Pending
                                /\ ws_members row = [] /\ ws_route_outcomes row = []) (wr_stages r)
          /\ run ∈ wp_seen_runs view').
Proof.
  cbv zeta. unfold on_workflow_run_started. rewrite workflow_of_with. split; intros Hseen.
  - by rewrite decide_True.
  - rewrite decide_False by done. eexists. split; [reflexivity|]. split_and!; try done.
    + simpl. clear. induction stages as [|plan stages IH]; [done|]. cbn. by f_equal.
    + apply Forall_fmap, Forall_true. done.
    + simpl. set_solver.
Qed.
End runs.

(** ** The archive *)

Section archive.
Context {U : UuidLib} {J : JsonLib} `{!JsonLaws J}.
Implicit Types (p : Projection).

Lemma stamp_nonzero n : is_i64 n -> (0 < n)%Z -> is_zero_stamp (number_from_i64 n) = false.
Proof.
  intros Hn Hpos. unfold is_zero_stamp.
  rewrite number_as_u64_from, number_as_i64_from by done. rewrite decide_True by lia.
  rewrite !bool_decide_eq_false_2 by (intros [= ?]; lia). simpl.
  destruct (number_as_f64 _) as [f|] eqn:E; [|done].
  apply not_true_iff_false. intros Hf. assert (n = 0%Z); [|lia].
  by eapply number_as_f64_from.
Qed.

(** [session_archive_event] does what it is asked, once.  An unknown session is refused, and so
    is archiving a child; a session already in the asked state gets no event; otherwise the event
    brings the session to the asked state, asking again then yields nothing, the stamp a new
    archive carries is the current time, at least one, and an archive makes the session
    non-ephemeral. *)
Theorem session_archive_protocol p (archived : bool) (now : Z) :
  is_i64 now ->
  match session_archive_event p archived now with
  | inr NotFound => sp_id (p_session p) = None
  | inr NotRoot => archived = true /\ is_Some (sp_parent (p_session p))
                   /\ is_archived (p_session p) = false
  | inl None => is_archived (p_session p) = archived
  | inl (Some e) =>
      let p' := apply_event e p in
      is_archived (p_session p) = negb archived
      /\ is_archived (p_session p') = archived
      /\ session_archive_event p' archived now = inl None
      /\ (archived = true -> archived_at_millis (p_session p') = Some (Z.max now 1)
                             /\ sp_ephemeral (p_session p') = false)
      /\ (archived = false -> archived_at_millis (p_session p') = None)
  end.
Proof.
  intros Hnow. unfold session_archive_event.
  destruct (sp_id (p_session p)) as [session|] eqn:Hid; [|done].
  destruct (Bool.eqb archived (is_archived (p_session p))) eqn:E;
    [by apply eqb_prop in E|]. apply eqb_false_iff in E.
  destruct archived; simpl.
  - destruct (decide (is_Some (sp_parent (p_session p)))) as [Hchild|Hroot];
      [by destruct (is_archived (p_session p))|].
    set (n := Z.max now 1).
    assert (is_i64 n) by (unfold is_i64, i64_min, i64_max in *; lia).
    assert (on_session_archived (number_from_i64 n) (p_session p)
            = (p_session p) <| sp_archived := Some (number_from_i64 n) |> <| sp_ephemeral := false |>)
      as Heq.
    { unfold on_session_archived. rewrite stamp_nonzero by (done || lia). done. }
    cbn [apply_event]. unfold on_session. cbn [p_session set]. rewrite Heq. simpl.
    rewrite Hid. unfold is_archived, archived_at_millis. simpl.
    rewrite number_as_i64_from by done.
    split_and!; try done. by destruct (bool_decide _) eqn:Eb in E |- *.
  - rewrite Hid. unfold is_archived, archived_at_millis. simpl.
    split_and!; try done.
    by destruct (bool_decide _) eqn:Eb in E |- *.
Qed.
End archive.

(** ** Examples *)

Definition demo_run : WorkflowRunId := from_uuid (Demo.Uuid128 9 eq_refl).
Definition demo_owner : OwnerRunId := mkOwnerRunId (U := Demo.uuid_lib) (Demo.Uuid128 8 eq_refl).
Definition demo_identity : WorkflowIdentity :=
  mkWorkflowIdentity (StrNewtype "src") "build" (from_bytes "").
Definition demo_plan : WorkflowStagePlan :=
  mkWorkflowStagePlan "s1" None (StrNewtype "build") "once" 0 None None None None.
Definition demo_run_log : list Envelope :=
  [mkEnvelope 1%N 1 (Event.WorkflowRunStarted demo_session demo_run demo_identity "h"
     demo_owner [demo_plan]);
   mkEnvelope 2%N 2 (Event.WorkflowStageStarted demo_session demo_run "s1");
   mkEnvelope 3%N 3 (Event.WorkflowRunFinished demo_session demo_run WorkflowRunStatus.Cancelled
     None)].

(** The cancelled run cancelled its running stage, and a late stage start changes nothing. *)
Lemma workflow_runs_progress_witness :
  exists r r', wp_run (workflow_of (p_session (from_events demo_run_log))) = Some r
    /\ wp_run (workflow_of (p_session (from_events (demo_run_log ++
         [mkEnvelope 4%N 4 (Event.WorkflowStageStarted demo_session demo_run "s1")])))) = Some r'
    /\ ws_status <$> wr_stages r = [WorkflowStageStatus.Cancelled]
    /\ (run_le r r' \/ wr_id r' ∉ wp_seen_runs (workflow_of (p_session (from_events demo_run_log)))).
Proof.
  assert (exists r, wp_run (workflow_of (p_session (from_events demo_run_log))) = Some r
            /\ ws_status <$> wr_stages r = [WorkflowStageStatus.Cancelled]) as (r & Hr & Hst)
    by (eexists; split; reflexivity).
  destruct (workflow_runs_progress demo_run_log
    [mkEnvelope 4%N 4 (Event.WorkflowStageStarted demo_session demo_run "s1")] r Hr)
    as (_ & _ & r' & Hr' & Hle).
  exists r, r'. split; [exact Hr|]. split; [exact Hr'|]. split; [exact Hst|exact Hle].
Defined.

Lemma workflow_start_once_witness :
  exists r, wp_run (workflow_of (on_workflow_run_started demo_run demo_identity "h"
      demo_owner [demo_plan] SessionProjection_default)) = Some r
    /\ ws_plan <$> wr_stages r = [demo_plan].
Proof.
  destruct (workflow_start_once SessionProjection_default demo_run demo_identity "h"
    demo_owner [demo_plan]) as [_ Hnew].
  destruct Hnew as (r & Hr & _ & _ & Hplans & _); [|by exists r].
  apply not_elem_of_empty.
Defined.

Definition demo_root : Projection :=
  apply_event (Event.SessionCreated demo_session None (StrNewtype "build") (StrNewtype "m") "/" None
                 SessionKind.Temporary) Projection_default.

Lemma session_archive_protocol_witness :
  exists e, session_archive_event demo_root true 1700 = inl (Some e)
    /\ archived_at_millis (p_session (apply_event e demo_root)) = Some 1700%Z.
Proof.
  pose proof (session_archive_protocol demo_root true 1700) as H.
  destruct (session_archive_event demo_root true 1700) as [[e|]|] eqn:E.
  - exists e. split; [reflexivity|].
    destruct H as (_ & _ & _ & Harch & _); [split; discriminate|]. apply Harch. reflexivity.
  - discriminate E.
  - discriminate E.
Defined.

(** * Stage statuses under the fold

    The ids and statuses of the stages of the current run are a function of the Workflow events of
    that run: the fold of [Projection] follows a small transition function on a list of pairs. *)

Definition StageView : Type := list (string * WorkflowStageStatus.t).

Definition set_status (id : string) (f : WorkflowStageStatus.t -> WorkflowStageStatus.t)
    (sts : StageView) : StageView :=
  update_first (fun x => x.1 = id) (fun x => (x.1, f x.2)) sts.

Definition start_status (s : WorkflowStageStatus.t) : WorkflowStageStatus.t :=
  if WorkflowStageStatus.is_terminal s then s else WorkflowStageStatus.Running.
Definition finish_status (status s : WorkflowStageStatus.t) : WorkflowStageStatus.t :=
  if WorkflowStageStatus.is_terminal s then s else status.
(** What a stage becomes when its run stops. *)
Definition stop_status (status : WorkflowRunStatus.t) (s : WorkflowStageStatus.t) : WorkflowStageStatus.t :=
  match s with
  | WorkflowStageStatus.Pending => WorkflowStageStatus.Skipped
  | WorkflowStageStatus.Running =>
      if decide (status = WorkflowRunStatus.Cancelled) then WorkflowStageStatus.Cancelled
      else WorkflowStageStatus.Failed
  | s => s
  end.

Section fold.
Context `{U : UuidLib} `{J : JsonLib}.
Implicit Types (p : Projection) (sts : StageView) (row : WorkflowStageProjection) (run : WorkflowRunId).

Definition row_view row : string * WorkflowStageStatus.t := (wsp_id (ws_plan row), ws_status row).
Definition view_of (r : WorkflowRunProjection) : StageView := row_view <$> wr_stages r.

(** The current run is [run], it is running, and its stages are [sts]. *)
Definition tracks run sts p : Prop :=
  exists r, wp_run (workflow_of (p_session p)) = Some r /\ wr_id r = run
    /\ wr_status r = WorkflowRunStatus.Running /\ view_of r = sts.

(** The transition of the view at an event. *)
Definition view_event run (e : Event.t) sts : StageView :=
  match e with
  | Event.WorkflowStageStarted _ r id => if decide (r = run) then set_status id start_status sts else sts
  | Event.WorkflowStageFinished _ r id status =>
      if decide (r = run) then
        if WorkflowStageStatus.is_terminal status then set_status id (finish_status status) sts else sts
      else sts
  | _ => sts
  end.

(** Events that neither start a run nor end [run]. *)
Definition inside_run run (e : Event.t) : Prop :=
  match e with
  | Event.WorkflowRunStarted _ _ _ _ _ _ => False
  | Event.WorkflowRunFinished _ r _ _ => r <> run
  | _ => True
  end.

Lemma update_first_view id (f : WorkflowStageProjection -> WorkflowStageProjection) g rows :
  (forall row, row_view (f row) = (wsp_id (ws_plan row), g (ws_status row))) ->
  row_view <$> update_first (fun row => wsp_id (ws_plan row) = id) f rows = set_status id g (row_view <$> rows).
Proof.
  intros Hf. unfold set_status. induction rows as [|row rows IH]; [done|].
  cbn [update_first fmap list_fmap]. destruct (decide (wsp_id (ws_plan row) = id)) as [Heq|Hne].
  - rewrite decide_True by done. cbn [fmap list_fmap]. by rewrite Hf.
  - rewrite decide_False by done. cbn [fmap list_fmap]. by f_equal.
Qed.

Lemma update_run_tracks run id f g sts p :
  (forall r, wr_id (f r) = wr_id r /\ wr_status (f r) = wr_status r) ->
  (forall r, wr_status r = WorkflowRunStatus.Running -> view_of (f r) = g (view_of r)) ->
  tracks run sts p ->
  tracks run (if decide (id = run) then g sts else sts)
    (on_session (update_workflow_run id f) p).
Proof.
  intros Hid Hg (r & Hr & <- & Hst & <-). unfold tracks. cbn [on_session p_session set].
  rewrite workflow_of_update. cbn. rewrite Hr. cbn. eexists. split; [done|].
  destruct (decide (id = wr_id r)) as [->|Hne].
  - rewrite decide_True by done. destruct (Hid r) as [-> ->]. by rewrite Hg.
  - by rewrite decide_False.
Qed.

Lemma update_stage_tracks run id stage f g sts p :
  (forall row, row_view (f row) = (wsp_id (ws_plan row), g (ws_status row))) ->
  tracks run sts p ->
  tracks run (if decide (id = run) then set_status stage g sts else sts)
    (on_session (update_running_stage id stage f) p).
Proof.
  intros Hf. apply (update_run_tracks run id _ (set_status stage g)).
  - intros r. by case_decide.
  - intros r Hr. rewrite decide_True by done. by apply update_first_view.
Qed.

Lemma tracks_same run sts p p' :
  sp_workflow (p_session p') = sp_workflow (p_session p) -> tracks run sts p -> tracks run sts p'.
Proof. intros Heq. unfold tracks, workflow_of. by rewrite Heq. Qed.

Lemma set_status_id id sts : set_status id (fun s => s) sts = sts.
Proof.
  unfold set_status. induction sts as [|[i s] sts IH]; [done|]. simpl. case_decide; [done|]. by rewrite IH.
Qed.

Lemma update_stage_quiet run id stage f sts p :
  (forall row, row_view (f row) = row_view row) ->
  tracks run sts p -> tracks run sts (on_session (update_running_stage id stage f) p).
Proof.
  intros Hf Ht. eapply (update_stage_tracks run id stage f (fun s => s)) in Ht; [|exact Hf].
  rewrite set_status_id in Ht. by case_decide.
Qed.

Lemma tracks_event run e sts p :
  inside_run run e -> tracks run sts p -> tracks run (view_event run e sts) (apply_event e p).
Proof.
  intros Hin Ht. destruct e; cbn [apply_event view_event];
    try (eapply tracks_same; [|exact Ht]; done);
    try (eapply tracks_same; [|exact Ht]; cbn [apply_event on_session on_team p_session set];
         unfold on_agent_model_override_set, on_session_archived, on_member_spawned,
           on_member_status_changed, on_member_finished, on_subagent_reported, update_member,
           on_message_started, on_message_finished, on_tool_call_requested, upsert_tool,
           on_context_compacted, on_usage_recorded, apply_revert;
         by repeat (case_match || case_decide)).
  - destruct Ht as (r & Hr & H). exists r. split; [|done].
    cbn [on_session p_session set]. unfold on_workflow_selected. rewrite workflow_of_with. by cbn.
  - apply update_stage_tracks; [|done]. intros row. unfold start_status, row_view.
    by destruct (WorkflowStageStatus.is_terminal (ws_status row)).
  - apply update_stage_quiet; [|done]. intros row. unfold row_view. by destruct (negb _).
  - apply update_stage_quiet; [|done]. intros row. unfold row_view. by destruct (_ && _).
  - unfold on_workflow_stage_finished. destruct (WorkflowStageStatus.is_terminal status) eqn:E.
    + apply update_stage_tracks; [|done]. intros row. unfold finish_status, row_view.
      by destruct (WorkflowStageStatus.is_terminal (ws_status row)).
    + by destruct (decide _).
  - unfold on_workflow_run_finished. destruct (WorkflowRunStatus.is_terminal status); [|done].
    destruct Ht as (r & Hr & <- & H). exists r. cbn [on_session p_session set].
    rewrite workflow_of_update. cbn. rewrite Hr. cbn. by rewrite decide_False by done.
  - eapply tracks_same; [|exact Ht]. cbn [on_session p_session set]. unfold apply_revert.
    destruct (position _ _); [|done]. simpl. by destruct (sp_revert (p_session p)).
  - eapply tracks_same; [|exact Ht]. simpl. by destruct (sp_revert (p_session p)).
Qed.

(** The view after a list of events inside the run. *)
Definition view_events run (tr : list Event.t) sts : StageView := foldl (fun sts e => view_event run e sts) sts tr.

Lemma tracks_events run tr sts p :
  Forall (inside_run run) tr -> tracks run sts p ->
  tracks run (view_events run tr sts) (foldl (fun p e => apply_event e p) p tr).
Proof.
  intros Hall. revert sts p. induction Hall as [|e tr He _ IH]; intros sts p Ht; [done|].
  simpl. by apply IH, tracks_event.
Qed.

(** The start of a run that was not admitted before, and its end. *)
Lemma tracks_started session run workflow hash owner stages p :
  run ∉ wp_seen_runs (workflow_of (p_session p)) ->
  tracks run ((fun plan => (wsp_id plan, WorkflowStageStatus.Pending)) <$> stages)
    (apply_event (Event.WorkflowRunStarted session run workflow hash owner stages) p).
Proof.
  intros Hno. cbn [apply_event on_session p_session set]. unfold tracks, on_workflow_run_started.
  cbn [on_session p_session set]. rewrite workflow_of_with. rewrite decide_False by done. cbn. eexists. split; [done|].
  cbn. split; [done|]. split; [done|]. unfold view_of. cbn [wr_stages].
  induction stages as [|plan stages IH]; [done|]. simpl. by f_equal.
Qed.

Definition run_ended run (status : WorkflowRunStatus.t) sts p : Prop :=
  exists r, wp_run (workflow_of (p_session p)) = Some r /\ wr_id r = run
    /\ wr_status r = status /\ view_of r = sts.

Lemma tracks_finished session run status error sts p :
  WorkflowRunStatus.is_terminal status = true -> tracks run sts p ->
  run_ended run status
    (if decide (status = WorkflowRunStatus.Completed) then sts
     else (fun x => (x.1, stop_status status x.2)) <$> sts)
    (apply_event (Event.WorkflowRunFinished session run status error) p).
Proof.
  intros Hst (r & Hr & <- & Hrun & <-). unfold run_ended. cbn [apply_event on_session p_session set].
  unfold on_workflow_run_finished. rewrite Hst, workflow_of_update. cbn. rewrite Hr. cbn.
  eexists. split; [done|]. rewrite decide_True by done. rewrite Hrun. cbn.
  destruct (decide (status = WorkflowRunStatus.Completed)) as [Hc|Hc].
  - rewrite decide_False by (by intros []). by cbn.
  - rewrite decide_True by done. cbn. split; [done|]. split; [done|]. unfold view_of. cbn [wr_stages].
    induction (wr_stages r) as [|row rows IH]; [done|]. simpl. f_equal; [|done].
    unfold row_view, stop_stage, stop_status.
    destruct (ws_status row) eqn:E; simpl; rewrite ?E; done.
Qed.
End fold.
