(* ===== verification/Snapshot.v ===== *)
(** * Durable snapshots ([Projection::encode_snapshot], [Projection::decode_snapshot])

    A snapshot is the wire form of a projection plus the run ids the wire form leaves out.  The
    JSON encoder and decoder are the parameters [to_vec] and [from_slice]; what the derived serde
    code of the source does to a projection on the way through JSON is [wire]: the field
    [seen_runs] is skipped, an optional value holding [null] comes back absent, and every other
    JSON value comes back as [reread], which need not be the identity (floating point numbers). *)

From S2P Require Import Prelude RustStr Platform Ids Scope Wire Workflow Usage Events Team Projection Transcript Runs.

Section snapshot.
Context {U : UuidLib} {J : JsonLib}.
Implicit Types (p : Projection).

(** A JSON value after it was printed and parsed. *)
Context (reread : Value -> Value) (reread_number : Number -> Number).
Context `{!forall v : Value, Decision (v = value_null)}.

(** ** What JSON does to a projection *)

(** [Option<Value>]: [null] is read as [None]. *)
Definition wire_option (v : option Value) : option Value :=
  v ← v; if decide (v = value_null) then None else Some (reread v).

Definition wire_state (s : ToolPartState.t) : ToolPartState.t :=
  match s with
  | ToolPartState.Pending input => ToolPartState.Pending (reread input)
  | ToolPartState.Running input => ToolPartState.Running (reread input)
  | ToolPartState.Completed input output time_ms =>
      ToolPartState.Completed (reread input) (reread output) time_ms
  | ToolPartState.Error input message value =>
      ToolPartState.Error (reread input) message (wire_option value)
  end.

Definition wire_part (x : PartProjection) : PartProjection :=
  match x with
  | Text id text => Text id text
  | Reasoning id text reason provider_data => Reasoning id text reason (wire_option provider_data)
  | Tool id call name state => Tool id call name (wire_state state)
  end.

Definition wire_message (m : MessageProjection) : MessageProjection :=
  m <| msg_files ::= map reread |> <| msg_agents ::= map reread |> <| msg_parts ::= map wire_part |>.

Definition clear_seen (w : WorkflowProjection) : WorkflowProjection := w <| wp_seen_runs := ∅ |>.

Definition wire p : Projection :=
  p <| p_session ::= fun s =>
    s <| sp_metadata ::= wire_option |>
      <| sp_permission ::= fmap (M := option) (map reread) |>
      <| sp_archived ::= fmap (M := option) reread_number |>
      <| sp_messages ::= map wire_message |>
      <| sp_workflow ::= fmap (M := option) clear_seen |>
      <| sp_revert ::= fmap (M := option) (fun r => r <| rv_hidden ::= map wire_message |>) |> |>.

(** ** The codec *)

(** [SnapshotRef] and [SnapshotOwned]: the same two fields. *)
Record Snapshot := mkSnapshot {
  sn_projection : Projection;
  sn_workflow_seen_runs : gset WorkflowRunId;
}.

Context {Bytes : Type} (to_vec : Snapshot -> option Bytes) (from_slice : Bytes -> option Snapshot).

(** What serde documents of the derived encoder and decoder. *)
Definition serde_law : Prop :=
  forall sn b, to_vec sn = Some b ->
    from_slice b = Some (mkSnapshot (wire (sn_projection sn)) (sn_workflow_seen_runs sn)).

Definition encode_snapshot p : option Bytes :=
  let workflow_seen_runs := match sp_workflow (p_session p) with
                            | Some workflow => wp_seen_runs workflow
                            | None => ∅
                            end in
  to_vec (mkSnapshot p workflow_seen_runs).

Definition decode_snapshot (bytes : Bytes) : option Projection :=
  sn ← from_slice bytes;
  Some ((sn_projection sn) <| p_session ::= fun s =>
    s <| sp_workflow ::= fmap (M := option) (fun workflow =>
           workflow <| wp_seen_runs := sn_workflow_seen_runs sn |>) |> |>).

(** ** Projections JSON keeps *)

Definition kept (v : Value) : Prop := reread v = v.
Definition kept_option (v : option Value) : Prop :=
  match v with Some v => v <> value_null /\ kept v | None => True end.

Definition kept_state (s : ToolPartState.t) : Prop :=
  match s with
  | ToolPartState.Pending input | ToolPartState.Running input => kept input
  | ToolPartState.Completed input output _ => kept input /\ kept output
  | ToolPartState.Error input _ value => kept input /\ kept_option value
  end.

Definition kept_part (x : PartProjection) : Prop :=
  match x with
  | Text _ _ => True
  | Reasoning _ _ _ provider_data => kept_option provider_data
  | Tool _ _ _ state => kept_state state
  end.

Definition kept_message (m : MessageProjection) : Prop :=
  Forall kept (msg_files m) /\ Forall kept (msg_agents m) /\ Forall kept_part (msg_parts m).

(** Every JSON value of the projection is read back as itself, and no optional one is [null]. *)
Record kept_projection p : Prop := {
  kp_metadata : kept_option (sp_metadata (p_session p));
  kp_permission : forall l, sp_permission (p_session p) = Some l -> Forall kept l;
  kp_archived : forall n, sp_archived (p_session p) = Some n -> reread_number n = n;
  kp_messages : Forall kept_message (all_messages p);
}.

Lemma wire_option_kept v : kept_option v -> wire_option v = v.
Proof. destruct v as [v|]; [|done]. intros [Hv Hk]. simpl. by rewrite decide_False, Hk. Qed.

Lemma map_kept l : Forall kept l -> map reread l = l.
Proof. induction 1 as [|v l Hv _ IH]; simpl; [done|]. by rewrite Hv, IH. Qed.

Lemma wire_part_kept x : kept_part x -> wire_part x = x.
Proof.
  destruct x as [id text|id text reason data|id call name [i|i|i o ms|i msg v]]; simpl; [done| |..].
  - intros Hk. by rewrite wire_option_kept.
  - by intros ->.
  - by intros ->.
  - by intros [-> ->].
  - intros [-> Hk]. by rewrite wire_option_kept.
Qed.

Lemma wire_message_kept m : kept_message m -> wire_message m = m.
Proof.
  intros (Hf & Ha & Hp). destruct m. unfold wire_message. simpl in *. f_equal;
    [by apply map_kept..|].
  clear -Hp. induction Hp as [|x l Hx _ IH]; simpl; [done|]. by rewrite wire_part_kept, IH.
Qed.

Lemma map_wire_message_kept l : Forall kept_message l -> map wire_message l = l.
Proof. induction 1 as [|m l Hm _ IH]; simpl; [done|]. by rewrite wire_message_kept, IH. Qed.

Lemma wire_kept p :
  kept_projection p ->
  wire p = p <| p_session ::= fun s =>
    s <| sp_workflow ::= fmap (M := option) clear_seen |> |>.
Proof.
  intros [Hmeta Hperm Harch Hms]. unfold all_messages in Hms. apply Forall_app in Hms as [Hms Hhid].
  destruct p as [s t n], s. unfold wire. simpl in *. f_equal. f_equal.
  - by apply wire_option_kept.
  - destruct sp_permission; simpl; [|done]. f_equal. by apply map_kept, Hperm.
  - destruct sp_archived; simpl; [|done]. f_equal. by apply Harch.
  - by apply map_wire_message_kept.
  - destruct sp_revert as [[]|]; simpl in *; [|done]. f_equal. f_equal.
    by apply map_wire_message_kept.
Qed.

(** What JSON keeps is decoded as it was encoded. *)
Lemma decode_encode_kept p (b : Bytes) :
  serde_law -> kept_projection p -> encode_snapshot p = Some b -> decode_snapshot b = Some p.
Proof.
  intros Hserde Hkept Henc. unfold decode_snapshot. rewrite (Hserde _ _ Henc).
  cbn [mbind option_bind sn_projection]. rewrite wire_kept by done. destruct p as [s t n], s. simpl. f_equal. f_equal.
  f_equal. by destruct sp_workflow as [[]|].
Qed.

(** a snapshot resumes a replay exactly.  When JSON keeps the values of a folded projection, the
    snapshot it encodes decodes to the same projection, the run ids the wire form omits included,
    so applying the later events to it is a full replay. *)
Theorem snapshot_resumes_replay (log : list Envelope) (b : Bytes) :
  serde_law -> kept_projection (from_events log) -> encode_snapshot (from_events log) = Some b ->
  decode_snapshot b = Some (from_events log)
  /\ forall tail, (fun q => foldl apply q tail) <$> decode_snapshot b
                  = Some (from_events (log ++ tail)).
Proof.
  intros Hserde Hkept Henc. pose proof (decode_encode_kept _ _ Hserde Hkept Henc) as Hdec.
  split; [done|]. intros tail. rewrite Hdec. cbn. by rewrite from_events_app.
Qed.

(** A [null] metadata does not survive.  Session metadata set to the JSON value [null] is folded
    as present and decoded as absent, so the decoded projection is not the one that was encoded. *)
Theorem snapshot_drops_null_metadata p (b : Bytes) :
  serde_law -> sp_metadata (p_session p) = Some value_null -> encode_snapshot p = Some b ->
  exists q, decode_snapshot b = Some q /\ sp_metadata (p_session q) = None /\ q <> p.
Proof.
  intros Hserde Hmeta Henc. unfold decode_snapshot. rewrite (Hserde _ _ Henc).
  assert (sp_metadata (p_session (wire p)) = None) as Hw.
  { unfold wire. simpl. rewrite Hmeta. simpl. by rewrite decide_True. }
  cbn [mbind option_bind sn_projection sn_workflow_seen_runs].
  revert Hw. generalize (wire p). intros q Hw. eexists. split; [reflexivity|].
  split; [exact Hw|]. intros Heq. apply (f_equal (fun q => sp_metadata (p_session q))) in Heq.
  simpl in Heq. congruence.
Qed.
End snapshot.

(** ** Example *)

#[local] Instance demo_value_null_dec (v : Value) : Decision (v = value_null).
Proof. destruct v; [by left|by right..]. Defined.

(** A codec that obeys the law: it stores the wire form. *)
Definition demo_from_slice (sn : Snapshot) : option Snapshot :=
  Some (mkSnapshot (wire (fun v => v) (fun n => n) (sn_projection sn)) (sn_workflow_seen_runs sn)).

Lemma snapshot_resumes_replay_witness :
  decode_snapshot demo_from_slice (mkSnapshot (from_events demo_run_log) {[demo_run]})
  = Some (from_events demo_run_log).
Proof.
  apply (snapshot_resumes_replay (fun v => v) (fun n => n) Some demo_from_slice).
  - intros sn b [= <-]. reflexivity.
  - split; [exact I|discriminate|discriminate|apply Forall_nil; exact I].
  - reflexivity.
Defined.

Lemma snapshot_drops_null_metadata_witness :
  exists b, encode_snapshot Some
              (Projection_default <| p_session ::= fun s => s <| sp_metadata := Some value_null |> |>)
            = Some b
    /\ exists q, decode_snapshot demo_from_slice b = Some q /\ sp_metadata (p_session q) = None
        /\ q <> Projection_default <| p_session ::= fun s => s <| sp_metadata := Some value_null |> |>.
Proof.
  eexists. split; [reflexivity|].
  eapply (snapshot_drops_null_metadata (fun v => v) (fun n => n) Some demo_from_slice).
  - intros sn b [= <-]. reflexivity.
  - reflexivity.
  - reflexivity.
Defined.
