(* ===== verification/RunTree.v ===== *)
(** * The run tree ([hya-proto/src/projection_tree.rs])

    The tree of sessions a root session spawned, joined from the member rows of the projections.
    The recursion follows child links, which may form a cycle; [fuel] bounds its depth and the
    visited set, threaded through the calls, is what makes it end. *)

From S2P Require Import Prelude RustStr Platform Ids Scope Wire Workflow Usage Events Team Projection Transcript.
From stdpp Require Import fin_sets.

Section run_tree.
Context {U : UuidLib} {J : JsonLib}.

Inductive RunTreeNode := mkRunTreeNode {
  rt_session : option SessionId;
  rt_agent : option AgentName;
  rt_model : option ModelRef;
  rt_title : option string;
  rt_member : option MemberProjection;
  rt_roster : option RosterEntry;
  rt_children : list RunTreeNode;
}.

Context (lookup : gmap SessionId SessionProjection) (roster : gmap SessionId RosterEntry).

(** The children collected so far and the visited set. *)
#[local] Abbreviation Building := (list RunTreeNode * gset SessionId)%type.

(** [node.children[idx] = child_node], or a push *)
Definition place_child (child : SessionId) (node : RunTreeNode) (children : list RunTreeNode) :
    list RunTreeNode :=
  match position (fun existing => rt_session existing = Some child) children with
  | Some idx => <[idx := node]> children
  | None => children ++ [node]
  end.

Definition pending_node (m : MemberProjection) : RunTreeNode :=
  mkRunTreeNode None None None None (Some m) None [].

(** One turn of the loop over the members; [build] is the recursive call. *)
Definition add_member
    (build : SessionId -> option MemberProjection -> gset SessionId ->
             option (RunTreeNode * gset SessionId))
    (acc : option Building) (m : MemberProjection) : option Building :=
  '(children, visited) ← acc;
  match mp_child m with
  | Some child =>
      '(child_node, visited) ← build child (Some m) visited;
      Some (place_child child child_node children, visited)
  | None => Some (children ++ [pending_node m], visited)
  end.

Fixpoint build_node (fuel : nat) (session : SessionId) (member : option MemberProjection)
    (visited : gset SessionId) : option (RunTreeNode * gset SessionId) :=
  match fuel with
  | O => None
  | S fuel =>
      let proj := lookup !! session in
      let node children := {|
        rt_session := Some session;
        rt_agent := proj ≫= sp_agent;
        rt_model := proj ≫= sp_model;
        rt_title := proj ≫= sp_title;
        rt_member := member;
        rt_roster := member ≫= (fun _ => roster !! session);
        rt_children := children;
      |} in
      if decide (session ∈ visited) then Some (node [], visited)
      else
        let visited := {[session]} ∪ visited in
        match proj with
        | Some proj =>
            '(children, visited) ← foldl (add_member (build_node fuel)) (Some ([], visited))
                                     (sp_members proj);
            Some (node children, visited)
        | None => Some (node [], visited)
        end
  end.

Definition build_run_tree (fuel : nat) (root : SessionId) : option RunTreeNode :=
  fst <$> build_node fuel root None ∅.

(** ** Termination *)

(** The sessions that may still be expanded. *)
Definition unvisited (visited : gset SessionId) : nat := size (dom lookup ∖ visited).

Lemma unvisited_mono v w : v ⊆ w -> unvisited w <= unvisited v.
Proof. intros Hvw. unfold unvisited. apply subseteq_size. set_solver. Qed.

Lemma unvisited_visit s v : s ∈ dom lookup -> s ∉ v -> unvisited ({[s]} ∪ v) < unvisited v.
Proof. intros Hs Hv. unfold unvisited. apply subset_size. set_solver. Qed.

Lemma fold_members_None build ms : foldl (add_member build) None ms = None.
Proof. induction ms; [done|]. simpl. done. Qed.

(** An accumulation that holds before the loop and is kept by each turn holds after it. *)
Lemma fold_members_ind (Q : Building -> Prop) build ms :
  (forall children v m, m ∈ ms -> Q (children, v) ->
     mp_child m = None -> Q (children ++ [pending_node m], v)) ->
  (forall children v m child node v', m ∈ ms -> Q (children, v) ->
     mp_child m = Some child -> build child (Some m) v = Some (node, v') ->
     Q (place_child child node children, v')) ->
  forall st st', Q st -> foldl (add_member build) (Some st) ms = Some st' -> Q st'.
Proof.
  induction ms as [|m ms IH]; intros Hpend Hchild [children v] st' HQ; simpl; [by intros [= <-]|].
  destruct (mp_child m) as [child|] eqn:Hm; simpl.
  - destruct (build child (Some m) v) as [[node v']|] eqn:Hb; simpl;
      [|by rewrite fold_members_None].
    apply IH.
    + intros ? ? m' Hm'. apply Hpend. by right.
    + intros ? ? m' ? ? ? Hm'. apply Hchild. by right.
    + eapply Hchild; [left|done..].
  - apply IH.
    + intros ? ? m' Hm'. apply Hpend. by right.
    + intros ? ? m' ? ? ? Hm'. apply Hchild. by right.
    + apply Hpend; [left|done..].
Qed.

Lemma build_node_visited fuel s m v node v' :
  build_node fuel s m v = Some (node, v') -> {[s]} ∪ v ⊆ v'.
Proof.
  revert s m v node v'. induction fuel as [|fuel IH]; intros s m v node v'; simpl; [done|].
  case_decide; [intros [= _ <-]; set_solver|].
  destruct (lookup !! s) as [proj|]; simpl; [|by intros [= _ <-]].
  destruct (foldl _ _ _) as [[children w]|] eqn:E; simpl; [|done]. intros [= _ <-].
  revert E. apply (fold_members_ind (fun st => {[s]} ∪ v ⊆ st.2)); simpl; try done.
  intros children' u m' child node' u' _ Hu _ Hb%IH. set_solver.
Qed.

Lemma build_node_total fuel s m v :
  unvisited v + 1 < fuel -> is_Some (build_node fuel s m v).
Proof.
  revert s m v. induction fuel as [|fuel IH]; intros s m v Hfuel; simpl; [lia|].
  case_decide as Hv; [by eauto|].
  destruct (lookup !! s) as [proj|] eqn:Hs; simpl; [|by eauto].
  assert (unvisited ({[s]} ∪ v) + 1 < fuel) as Hlt.
  { pose proof (unvisited_visit s v). rewrite elem_of_dom in H. specialize (H ltac:(eauto) Hv). lia. }
  assert (forall ms children w, {[s]} ∪ v ⊆ w ->
    is_Some (foldl (add_member (build_node fuel)) (Some (children, w)) ms)) as Hfold.
  { induction ms as [|m' ms IHms]; intros children w Hw; simpl; [by eauto|].
    destruct (mp_child m') as [child|]; [|by apply IHms].
    assert (unvisited w + 1 < fuel) as Hw' by (pose proof (unvisited_mono _ _ Hw); lia).
    destruct (IH child (Some m') w Hw') as [[node w'] Hb]. rewrite Hb. simpl.
    apply IHms. apply build_node_visited in Hb. set_solver. }
  destruct (Hfold (sp_members proj) [] ({[s]} ∪ v)) as [[children w] ->]; [done|]. simpl. eauto.
Qed.

(** More fuel changes nothing. *)
Lemma build_node_mono fuel k s m v r :
  build_node fuel s m v = Some r -> build_node (fuel + k) s m v = Some r.
Proof.
  revert s m v r. induction fuel as [|fuel IH]; intros s m v r; simpl; [done|].
  case_decide; [done|]. destruct (lookup !! s) as [proj|]; [|done].
  assert (forall ms st st', foldl (add_member (build_node fuel)) (Some st) ms = Some st' ->
    foldl (add_member (build_node (fuel + k))) (Some st) ms = Some st') as Hfold.
  { induction ms as [|m' ms IHms]; intros [children w] st'; simpl; [done|].
    destruct (mp_child m') as [child|]; [|apply IHms].
    destruct (build_node fuel child (Some m') w) as [[node w']|] eqn:Hb; simpl.
    - rewrite (IH _ _ _ _ Hb). simpl. apply IHms.
    - by rewrite fold_members_None. }
  destruct (foldl _ _ _) as [[children w]|] eqn:E; simpl; [|done].
  rewrite (Hfold _ _ _ E). done.
Qed.

(** ** Shape of the tree *)

(** The sessions whose members are shown somewhere in the tree. *)
Fixpoint expanded (n : RunTreeNode) : list SessionId :=
  match n with
  | mkRunTreeNode s _ _ _ _ _ children =>
      match s, children with
      | Some s, _ :: _ => [s]
      | _, _ => []
      end ++ concat (map expanded children)
  end.

Definition child_sessions (children : list RunTreeNode) : list SessionId :=
  omap rt_session children.

(** No session shown twice among the children, and no session expanded twice. *)
Definition forest_ok (v0 v : gset SessionId) (children : list RunTreeNode) : Prop :=
  NoDup (child_sessions children)
  /\ NoDup (concat (map expanded children))
  /\ (forall s, s ∈ concat (map expanded children) -> s ∈ v /\ s ∉ v0).

Lemma child_sessions_app l k : child_sessions (l ++ k) = child_sessions l ++ child_sessions k.
Proof. apply omap_app. Qed.

Lemma concat_map_app {A B} (f : A -> list B) l k :
  concat (map f (l ++ k)) = concat (map f l) ++ concat (map f k).
Proof. by rewrite map_app, concat_app. Qed.

(** Placing a freshly built child; [l ++ x :: r] is the forest around the row it replaces. *)
Lemma place_child_cases child node children :
  rt_session node = Some child ->
  (exists l x r, children = l ++ x :: r /\ rt_session x = Some child
     /\ place_child child node children = l ++ node :: r)
  \/ (child ∉ child_sessions children /\ place_child child node children = children ++ [node]).
Proof.
  intros Hnode. unfold place_child. destruct (position _ children) as [i|] eqn:E.
  - apply position_Some in E as (x & Hi & Hx & _). left.
    exists (take i children), x, (drop (S i) children).
    split; [by rewrite take_drop_middle|]. split; [done|].
    apply insert_take_drop. by apply lookup_lt_Some in Hi.
  - right. split; [|done]. apply position_None in E. rewrite Forall_forall in E.
    intros (y & Hy & Hs)%list_elem_of_omap. by apply (E y).
Qed.

Lemma forest_place v0 v v' child node children :
  rt_session node = Some child -> v ⊆ v' ->
  NoDup (expanded node) -> (forall s, s ∈ expanded node -> s ∈ v' /\ s ∉ v) -> v0 ⊆ v ->
  forest_ok v0 v children -> forest_ok v0 v' (place_child child node children).
Proof.
  intros Hnode Hv Hnd Hexp Hv0 (Hcs & Hce & Hin).
  destruct (place_child_cases child node children Hnode)
    as [(l & x & r & -> & Hx & ->)|[Hno ->]].
  - rewrite child_sessions_app in *. rewrite concat_map_app in *. simpl in *. rewrite Hx in Hcs.
    split; [by rewrite child_sessions_app; simpl; rewrite Hnode|].
    rewrite concat_map_app. simpl.
    assert (NoDup (concat (map expanded l) ++ concat (map expanded r))) as Hlr.
    { eapply sublist_NoDup; [exact Hce|]. apply sublist_app; [done|]. by apply sublist_inserts_l. }
    split; [|intros s; specialize (Hin s); specialize (Hexp s); set_solver].
    rewrite (Permutation_app_swap_app (concat (map expanded l))). apply NoDup_app.
    split; [done|]. split; [|done].
    intros s Hs Hs'. destruct (Hexp s Hs) as [_ Hnv]. apply Hnv, Hin. set_solver.
  - split; [|split].
    + rewrite child_sessions_app. simpl. rewrite Hnode. apply NoDup_app. split; [done|].
      split; [|apply NoDup_singleton]. intros s Hs ->%list_elem_of_singleton. done.
    + rewrite concat_map_app. simpl. rewrite app_nil_r. apply NoDup_app. split; [done|].
      split; [|done]. intros s Hs Hs'. destruct (Hexp s Hs') as [_ Hnv]. by apply Hnv, Hin.
    + intros s. rewrite concat_map_app. simpl. specialize (Hin s). specialize (Hexp s). set_solver.
Qed.

Lemma forest_pending v0 v m children :
  forest_ok v0 v children -> forest_ok v0 v (children ++ [pending_node m]).
Proof.
  intros (Hcs & Hce & Hin). unfold forest_ok.
  rewrite child_sessions_app, concat_map_app. simpl. by rewrite !app_nil_r.
Qed.

Lemma build_node_shape fuel s m v node v' :
  build_node fuel s m v = Some (node, v') ->
  rt_session node = Some s /\ NoDup (expanded node)
  /\ (forall x, x ∈ expanded node -> x ∈ v' /\ x ∉ v)
  /\ NoDup (child_sessions (rt_children node)).
Proof.
  revert s m v node v'. induction fuel as [|fuel IH]; intros s m v node v'; simpl; [done|].
  destruct (decide (s ∈ v)) as [Hv|Hv].
  { intros [= <- <-]. simpl. split_and!; [done|constructor|by intros x Hx%not_elem_of_nil|constructor]. }
  destruct (lookup !! s) as [proj|]; simpl;
    [|intros [= <- <-]; simpl; split_and!; [done|constructor|by intros x Hx%not_elem_of_nil|constructor]].
  destruct (foldl _ _ _) as [[children w]|] eqn:E; simpl; [|done]. intros [= <- <-].
  assert ({[s]} ∪ v ⊆ w /\ forest_ok ({[s]} ∪ v) w children) as [Hw (Hcs & Hce & Hin)].
  { revert E. apply (fold_members_ind (fun st => {[s]} ∪ v ⊆ st.2 /\ forest_ok ({[s]} ∪ v) st.2 st.1)).
    - intros ? ? ? _ [? ?] _. split; [done|]. by apply forest_pending.
    - intros children' u m' child node' u' _ [Hu Hf] _ Hb.
      pose proof (build_node_visited _ _ _ _ _ _ Hb) as Hsub.
      destruct (IH _ _ _ _ _ Hb) as (Hs & Hnd & Hexp & _). simpl in *.
      assert (u ⊆ u') as Hle by (clear -Hsub; set_solver).
      split; [by etrans|]. by eapply forest_place.
    - split; [done|]. split; [constructor|]. split; [constructor|].
      by intros x Hx%not_elem_of_nil. }
  simpl. split_and!; [done| | |done].
  - destruct children; simpl in *; [constructor|]. constructor; [|done].
    intros Hs. destruct (Hin s Hs) as [_ Hno]. apply Hno, elem_of_union_l, elem_of_singleton. done.
  - intros x. destruct children; simpl in *; [by intros Hx%not_elem_of_nil|]. rewrite elem_of_cons.
    intros [->|Hx].
    + split; [|done]. apply Hw, elem_of_union_l, elem_of_singleton. done.
    + destruct (Hin x Hx) as [? Hno]. split; [done|].
      intros Hxv. apply Hno, elem_of_union_r, Hxv.
Qed.

Lemma place_child_keeps child node children c x :
  rt_session node = Some child -> c <> child ->
  x ∈ children -> rt_session x = Some c -> x ∈ place_child child node children.
Proof.
  intros Hnode Hne Hx Hs. destruct (place_child_cases child node children Hnode)
    as [(l & y & r & -> & Hy & ->)|[_ ->]]; [|apply elem_of_app; by left].
  apply elem_of_app in Hx as [Hx|[->|Hx]%elem_of_cons]; [|congruence|];
    rewrite elem_of_app, elem_of_cons; auto.
Qed.

Lemma place_child_in child node children :
  rt_session node = Some child -> node ∈ place_child child node children.
Proof.
  intros Hnode. destruct (place_child_cases child node children Hnode)
    as [(l & y & r & -> & Hy & ->)|[_ ->]]; rewrite elem_of_app, elem_of_cons; auto.
Qed.

(** The row shown for a child session is the last member row that names it. *)
Lemma fold_members_last fuel v ms children w c m :
  foldl (add_member (build_node fuel)) (Some ([], v)) ms = Some (children, w) ->
  find_last (fun m => mp_child m = Some c) ms = Some m ->
  exists x, x ∈ children /\ rt_session x = Some c /\ rt_member x = Some m.
Proof.
  revert children w m. induction ms as [|m0 ms IH] using rev_ind; intros children w m; [done|].
  rewrite foldl_app. simpl.
  destruct (foldl _ _ ms) as [[cs u]|] eqn:E; simpl; [|done]. unfold find_last.
  rewrite reverse_snoc. simpl. destruct (mp_child m0) as [child|] eqn:Hm0; simpl.
  - destruct (build_node fuel child (Some m0) u) as [[node u']|] eqn:Hb; simpl; [|done].
    intros [= <- <-]. destruct (build_node_shape _ _ _ _ _ _ Hb) as [Hnode _].
    assert (rt_member node = Some m0) as Hmem.
    { clear -Hb. destruct fuel; simpl in Hb; [done|]. case_decide; [by simplify_eq|].
      destruct (lookup !! child); simpl in Hb; [|by simplify_eq].
      destruct (foldl _ _ _) as [[]|]; simpl in Hb; by simplify_eq. }
    case_decide as Hc.
    + intros [= <-]. simplify_eq. exists node. by split_and!; [apply place_child_in|..].
    + intros Hm. destruct (IH _ _ _ eq_refl Hm) as (x & Hx & Hxs & Hxm).
      exists x. split_and!; [|done..]. eapply place_child_keeps; try done. congruence.
  - intros [= <- <-] Hm. destruct (IH _ _ _ eq_refl Hm) as (x & Hx & Hxs & Hxm).
    exists x. split_and!; [|done..]. apply elem_of_app. by left.
Qed.

(** the run tree is always built, once per session.  Whatever child links the projections hold,
    cycles included, [size lookup + 2] levels of recursion are enough and more change nothing; the
    root node is the root session, no session's members are shown at two places of the tree, no
    two children of the root are the same session, and every child session the root's members name
    is shown with the last member row that names it. *)
Theorem run_tree_once (root : SessionId) :
  exists t, build_run_tree (size lookup + 2) root = Some t
    /\ (forall k, build_run_tree (size lookup + 2 + k) root = Some t)
    /\ rt_session t = Some root
    /\ NoDup (expanded t)
    /\ NoDup (child_sessions (rt_children t))
    /\ (forall proj c m, lookup !! root = Some proj ->
          find_last (fun m => mp_child m = Some c) (sp_members proj) = Some m ->
          exists x, x ∈ rt_children t /\ rt_session x = Some c /\ rt_member x = Some m).
Proof.
  destruct (build_node_total (size lookup + 2) root None ∅) as [[t v] Ht].
  { unfold unvisited. rewrite difference_empty_L, size_dom. lia. }
  destruct (build_node_shape _ _ _ _ _ _ Ht) as (Hs & Hnd & _ & Hcs).
  exists t. unfold build_run_tree. rewrite Ht. split_and!; try done.
  - intros k. by rewrite (build_node_mono _ k _ _ _ _ Ht).
  - intros proj c m Hp Hm.
    replace (size lookup + 2) with (S (size lookup + 1)) in Ht by lia.
    revert Ht. generalize (size lookup + 1). intros fuel Ht. simpl in Ht. rewrite Hp in Ht.
    destruct (foldl _ _ _) as [[children w]|] eqn:E; simpl in Ht; [|done].
    injection Ht as <- _. simpl. eapply fold_members_last; [exact E|exact Hm].
Qed.
End run_tree.

(** ** Examples *)

Definition demo_grandchild : SessionId := Hysec "22222222222222222222".

Definition demo_member_row (n : N) (H : (n <? 2 ^ 128)%N = true) (child : SessionId) :
    MemberProjection :=
  (new_member (from_uuid (Demo.Uuid128 n H))) <| mp_child := Some child |>.

Definition demo_session_with (members : list MemberProjection) : SessionProjection :=
  SessionProjection_default <| sp_members := members |>.

(** A root with the given rows for one child, which itself spawned a grandchild. *)
Definition demo_lookup (rows : list MemberProjection) : gmap SessionId SessionProjection :=
  {[ demo_session := demo_session_with rows;
     demo_child := demo_session_with [demo_member_row 7 eq_refl demo_grandchild] ]}.

Lemma run_tree_once_witness :
  exists t x, build_run_tree (demo_lookup [demo_member_row 5 eq_refl demo_child;
                                           demo_member_row 6 eq_refl demo_child]) ∅ 4 demo_session
              = Some t
    /\ x ∈ rt_children t /\ rt_member x = Some (demo_member_row 6 eq_refl demo_child).
Proof.
  destruct (run_tree_once (demo_lookup [demo_member_row 5 eq_refl demo_child;
    demo_member_row 6 eq_refl demo_child]) ∅ demo_session) as (t & Ht & _ & _ & _ & _ & Hlast).
  destruct (Hlast (demo_session_with [demo_member_row 5 eq_refl demo_child;
    demo_member_row 6 eq_refl demo_child]) demo_child (demo_member_row 6 eq_refl demo_child))
    as (x & Hx & _ & Hm); [reflexivity|reflexivity|].
  exists t, x. split; [exact Ht|]. by split.
Defined.

(** a second member row for a child hides what the child spawned.  With one row for the child its
    own child is shown; with a second row for the same session the node that replaces the first is
    built after the session was visited, and has no children. *)
Theorem duplicate_row_drops_subtree :
  (exists t, build_run_tree (demo_lookup [demo_member_row 5 eq_refl demo_child]) ∅ 4 demo_session
             = Some t /\ map (fun x => length (rt_children x)) (rt_children t) = [1])
  /\ (exists t, build_run_tree (demo_lookup [demo_member_row 5 eq_refl demo_child;
                                 demo_member_row 6 eq_refl demo_child]) ∅ 4 demo_session
                = Some t /\ map (fun x => length (rt_children x)) (rt_children t) = [0]).
Proof. split; (eexists; split; [reflexivity|reflexivity]). Qed.
