(* ===== verification/Permission.v ===== *)
(** * Permission rules and the permission plane ([hya-tool/src/permission.rs],
    [hya-server/src/pending/saved_permission.rs])

    The wildcard matcher, the invocation policy, the resource rules, the remembered grants and the plane that tools
    consult.  A plane is a handle ([PermissionPlane]) on a store that all planes derived from one
    another share ([Grants]: the three [Arc<Mutex<..>>] fields), so operations take and return the
    store.  An asynchronous check may interleave with other writers: [assert_check] takes the two
    grant tables as they are when it locks them, and the answer to an ask is applied to the store
    as it is when the answer arrives.  Regular expressions, the interceptor and the human are
    parameters. *)

From S2P Require Import Prelude RustStr Platform Ids.

(** * Wildcard matching ([hya-tool/src/permission.rs], [glob_match])

    The two-pointer matcher with a single backtrack point, over byte indices as in the source, and
    its equivalence with the declarative meaning of a [*] pattern. *)

Definition STAR : ascii := "*".

(** ** The matcher *)

(** The [while ti < t.len()] loop.  [None]: out of fuel; [Some None]: [return false];
    [Some (Some pi)]: the loop ended at pattern index [pi]. *)
Fixpoint glob_loop (fuel : nat) (p t : list ascii) (pi ti : nat) (star : option nat) (mark : nat) :
    option (option nat) :=
  match fuel with
  | O => None
  | S fuel =>
      if decide (ti < length t) then
        if decide (p !! pi = Some STAR) then glob_loop fuel p t (pi + 1) ti (Some pi) ti
        else if decide (pi < length p /\ p !! pi = t !! ti)
        then glob_loop fuel p t (pi + 1) (ti + 1) star mark
        else match star with
             | Some s => glob_loop fuel p t (s + 1) (mark + 1) star (mark + 1)
             | None => Some None
             end
      else Some (Some pi)
  end.

(** The [while pi < p.len() && p[pi] == b'*'] loop, on the rest of the pattern. *)
Fixpoint leading_stars (l : list ascii) : nat :=
  match l with
  | c :: l => if decide (c = STAR) then S (leading_stars l) else 0
  | [] => 0
  end.

Definition glob_fuel (p t : list ascii) : nat :=
  (length t + 2) * (length p + length t + 1).

Definition glob_match (pattern text : string) : bool :=
  let p := String.list_ascii_of_string pattern in
  let t := String.list_ascii_of_string text in
  match glob_loop (glob_fuel p t) p t 0 0 None 0 with
  | Some (Some pi) => Nat.eqb (pi + leading_stars (drop pi p)) (length p)
  | _ => false
  end.

(** ** The meaning of a pattern *)

Inductive matches : list ascii -> list ascii -> Prop :=
  | matches_nil : matches [] []
  | matches_star p s t : matches p t -> matches (STAR :: p) (s ++ t)
  | matches_char c p t : c <> STAR -> matches p t -> matches (c :: p) (c :: t).

Lemma matches_star_inv p t :
  matches (STAR :: p) t -> exists k, k <= length t /\ matches p (drop k t).
Proof.
  inversion 1 as [|? s u|]; subst; [|done]. exists (length s).
  rewrite length_app, drop_app_length. split; [lia|done].
Qed.

Lemma matches_star_drop p t k : matches p (drop k t) -> matches (STAR :: p) t.
Proof. intros Hm. rewrite <- (take_drop k t). by apply matches_star. Qed.

Lemma matches_char_inv c p t :
  c <> STAR -> matches (c :: p) t -> exists t', t = c :: t' /\ matches p t'.
Proof. intros Hc. inversion 1; subst; [done|eauto]. Qed.

Lemma matches_nil_r p : matches p [] <-> leading_stars p = length p.
Proof.
  induction p as [|c p IH]; simpl; [split; [done|constructor]|]. case_decide as Hc.
  - subst. split.
    + intros (k & _ & Hm)%matches_star_inv. rewrite drop_nil in Hm. f_equal. by apply IH.
    + intros [= Heq]. apply (matches_star_drop _ _ 0). by apply IH.
  - split; [|lia]. by intros (? & ? & _)%matches_char_inv.
Qed.

(** ** Correctness of the loop *)

Section loop.
Context (p t : list ascii).

Definition M (pi ti : nat) : Prop := matches (drop pi p) (drop ti t).

(** What is known of the backtrack point: however the segment since the star matches later in the
    text, the rest of the pattern follows it; and the whole matches iff it does from here or from
    a later start of the segment. *)
Definition loop_inv (pi ti : nat) (star : option nat) (mark : nat) : Prop :=
  ti <= length t /\
  match star with
  | None => M 0 0 <-> M pi ti
  | Some s =>
      mark <= ti /\ pi = s + 1 + (ti - mark)
      /\ (forall k, k <= length t -> M (s + 1) k ->
            k + (ti - mark) <= length t /\ M pi (k + (ti - mark)))
      /\ (M 0 0 <-> M pi ti \/ exists k, mark < k <= length t /\ M (s + 1) k)
  end.

Lemma M_star pi ti :
  p !! pi = Some STAR ->
  M pi ti <-> exists k, ti <= k /\ k <= Nat.max ti (length t) /\ M (pi + 1) k.
Proof.
  intros Hp. unfold M. rewrite (drop_S p STAR pi Hp), Nat.add_1_r. split.
  - intros (k & Hk & Hm)%matches_star_inv. rewrite drop_drop in Hm. rewrite length_drop in Hk.
    exists (ti + k). split_and!; [lia..|done].
  - intros (k & Hle & _ & Hm). apply (matches_star_drop _ _ (k - ti)).
    rewrite drop_drop. by replace (ti + (k - ti)) with k by lia.
Qed.

Lemma M_char pi ti c :
  p !! pi = Some c -> c <> STAR -> M pi ti <-> t !! ti = Some c /\ M (pi + 1) (ti + 1).
Proof.
  intros Hp Hc. unfold M. rewrite (drop_S p c pi Hp), !Nat.add_1_r. split.
  - intros (t' & Ht & Hm)%matches_char_inv; [|done].
    assert (t !! ti = Some c) as Hti by (rewrite <- (Nat.add_0_r ti), <- lookup_drop; by rewrite Ht).
    split; [done|]. rewrite (drop_S t c ti Hti) in Ht. by injection Ht as ->.
  - intros [Hti Hm]. rewrite (drop_S t c ti Hti). by constructor.
Qed.

Lemma M_end pi ti : p !! pi = None -> ti < length t -> ~ M pi ti.
Proof.
  intros Hp Hti. unfold M. rewrite (drop_ge p) by by apply lookup_ge_None.
  destruct (lookup_lt_is_Some_2 t ti Hti) as [c Hc]. rewrite (drop_S t c ti Hc). by inversion 1.
Qed.

(** A new star: the earlier one is no longer needed. *)
Lemma inv_star pi ti star mark :
  loop_inv pi ti star mark -> ti < length t -> p !! pi = Some STAR ->
  loop_inv (pi + 1) ti (Some pi) ti.
Proof.
  intros [Hti Hinv] Hlt Hp. split; [done|]. split; [done|]. split; [lia|].
  rewrite Nat.sub_diag. split; [intros k Hk Hm; by rewrite Nat.add_0_r|].
  assert (M 0 0 <-> M pi ti) as ->.
  { destruct star as [s|]; [|done]. destruct Hinv as (Hmark & Hpi & Hseg & ->).
    split; [|by left]. intros [Hm|(k & [Hk1 Hk2] & Hm)]; [done|].
    destruct (Hseg k Hk2 Hm) as [Hle Hm']. apply M_star in Hm'; [|done].
    destruct Hm' as (j & Hj1 & Hj2 & Hj). apply M_star; [done|]. exists j. split_and!; [lia..|done]. }
  rewrite M_star by done. split.
  - intros (k & Hk1 & Hk2 & Hm). destruct (decide (k = ti)) as [->|]; [by left|].
    right. exists k. split; [lia|done].
  - intros [Hm|(k & Hk & Hm)]; [exists ti|exists k]; split_and!; try done; lia.
Qed.

Lemma inv_char pi ti star mark c :
  loop_inv pi ti star mark -> p !! pi = Some c -> c <> STAR -> t !! ti = Some c ->
  loop_inv (pi + 1) (ti + 1) star mark.
Proof.
  intros [Hti Hinv] Hp Hc Ht. pose proof (lookup_lt_Some _ _ _ Ht) as Hlt.
  split; [lia|].
  assert (M pi ti <-> M (pi + 1) (ti + 1)) as Hm by (rewrite M_char by done; tauto).
  destruct star as [s|]; [|by rewrite <- Hm]. destruct Hinv as (Hmark & Hpi & Hseg & Heq).
  split; [lia|]. split; [lia|]. split; [|by rewrite <- Hm].
  intros k Hk Hm'. destruct (Hseg k Hk Hm') as [_ Hm''].
  apply (M_char _ _ c) in Hm'' as [Htk Hm'']; [|done..]. apply lookup_lt_Some in Htk.
  replace (k + (ti + 1 - mark)) with (k + (ti - mark) + 1) by lia. split; [lia|done].
Qed.

Lemma inv_back pi ti s mark :
  loop_inv pi ti (Some s) mark -> ti < length t -> ~ M pi ti ->
  loop_inv (s + 1) (mark + 1) (Some s) (mark + 1).
Proof.
  intros [Hti (Hmark & Hpi & Hseg & Heq)] Hlt Hno. split; [lia|]. split; [done|]. split; [lia|].
  rewrite Nat.sub_diag. split; [intros k Hk Hm; by rewrite Nat.add_0_r|].
  rewrite Heq. split.
  - intros [?|(k & Hk & Hm)]; [done|]. destruct (decide (k = mark + 1)) as [->|]; [by left|].
    right. exists k. split; [lia|done].
  - intros [Hm|(k & Hk & Hm)]; right; [exists (mark + 1)|exists k]; (split; [lia|done]).
Qed.

(** At the end of the text a later start of the segment no longer fits. *)
Lemma inv_end pi ti star mark :
  loop_inv pi ti star mark -> ~ ti < length t -> M 0 0 <-> leading_stars (drop pi p) = length (drop pi p).
Proof.
  intros [Hti Hinv] Hge. assert (ti = length t) as -> by lia.
  rewrite <- matches_nil_r.
  assert (M pi (length t) <-> matches (drop pi p) []) as <- by (unfold M; by rewrite drop_all).
  destruct star as [s|]; [|done]. destruct Hinv as (Hmark & Hpi & Hseg & ->).
  split; [|by left]. intros [?|(k & Hk & Hm)]; [done|].
  destruct (Hseg k) as [Hle _]; [lia|done|]. lia.
Qed.

Definition measure (pi ti mark : nat) : nat :=
  (length t - mark) * (length p + length t + 1) + (length p - pi) + (length t - ti).

(** Enough fuel: the loop ends with an index or a refusal, and either is right. *)
Lemma glob_loop_spec fuel pi ti star mark :
  loop_inv pi ti star mark -> pi <= length p -> mark <= ti ->
  match star with Some s => s < length p | None => True end ->
  measure pi ti mark < fuel ->
  exists r, glob_loop fuel p t pi ti star mark = Some r
    /\ match r with
       | Some q => q <= length p /\ (M 0 0 <-> leading_stars (drop q p) = length (drop q p))
       | None => ~ M 0 0
       end.
Proof.
  revert pi ti star mark. induction fuel as [|fuel IH]; intros pi ti star mark Hinv Hpi Hmark Hs Hm;
    [lia|]. cbn [glob_loop]. destruct (decide (ti < length t)) as [Hlt|Hge].
  2: { exists (Some pi). split; [done|]. split; [done|]. by eapply inv_end. }
  destruct (decide (p !! pi = Some STAR)) as [Hstar|Hstar].
  - pose proof (lookup_lt_Some _ _ _ Hstar) as Hplt.
    apply IH; [by eapply inv_star|lia|lia|done|]. unfold measure in *. nia.
  - destruct (decide (pi < length p /\ p !! pi = t !! ti)) as [[Hplt Heq]|Hne].
    + destruct (lookup_lt_is_Some_2 t ti Hlt) as [c Hc]. rewrite Hc in Heq.
      apply IH; [|lia|lia|done|unfold measure in *; lia].
      eapply inv_char; [done..| |done]. congruence.
    + assert (~ M pi ti) as Hno.
      { destruct (p !! pi) as [c|] eqn:Hp; [|by apply M_end].
        rewrite (M_char _ _ c) by (done || congruence). intros [Ht _]. apply Hne.
        split; [by eapply lookup_lt_Some|by rewrite Ht]. }
      destruct star as [s|].
      * apply IH; [by eapply inv_back|lia|lia|done|]. unfold measure in *.
        assert (length t - mark = S (length t - (mark + 1))) as E by lia. rewrite E in Hm. lia.
      * exists None. split; [done|]. destruct Hinv as [_ ->]. done.
Qed.
End loop.

(** C38: the permission matcher decides exactly the wildcard language.  [glob_match] ends on every
    pattern and text, and answers yes exactly when the text is the pattern with each [*] replaced
    by some string; backtracking to the last star only loses no match. *)
Theorem glob_match_spec (pattern text : string) :
  glob_match pattern text = true
  <-> matches (String.list_ascii_of_string pattern) (String.list_ascii_of_string text).
Proof.
  unfold glob_match. set (p := String.list_ascii_of_string pattern).
  set (t := String.list_ascii_of_string text).
  destruct (glob_loop_spec p t (glob_fuel p t) 0 0 None 0) as (r & -> & Hr).
  - split; [lia|done].
  - lia.
  - lia.
  - done.
  - unfold measure, glob_fuel. nia.
  - assert (M p t 0 0 <-> matches p t) as HM by (unfold M; by rewrite !drop_0).
    destruct r as [q|]; [|split; [done|intros Hm; exfalso; by apply Hr, HM]].
    destruct Hr as [Hq Hr]. rewrite <- HM, Hr, length_drop, Nat.eqb_eq. lia.
Qed.

(** ** Consequences for permission patterns *)

Lemma glob_match_star text : glob_match "*" text = true.
Proof.
  apply glob_match_spec. simpl. rewrite <- (app_nil_r (String.list_ascii_of_string text)).
  apply matches_star. constructor.
Qed.

(** * Rules, policies and grants *)

(** ** Vocabulary *)

Module Action.
Inductive t :=
  | Tool | Read | Edit | Glob | Grep | Bash | Task | Mcp | WebFetch | WebSearch | TodoWrite
  | Skill | Lsp | ExternalDirectory.
#[global] Instance eq_dec : EqDecision t.
Proof. solve_decision. Defined.
End Action.

Module Resource.
Inductive t :=
  | Tool (s : string) | Path (s : string) | Glob (s : string) | Command (s : string)
  | Subagent (s : string) | Url (s : string) | WebSearch (s : string) | Skill (s : string)
  | Any.
#[global] Instance eq_dec : EqDecision t.
Proof. solve_decision. Defined.

Definition pattern (r : t) : string :=
  match r with
  | Tool s | Path s | Glob s | Command s | Subagent s | Url s | WebSearch s | Skill s => s
  | Any => "*"
  end.
End Resource.

Module Mode.
Inductive t := Allow | Ask | Deny.
#[global] Instance eq_dec : EqDecision t.
Proof. solve_decision. Defined.
End Mode.

Module PermissionModel.
Inductive t := Allow | Default | Strict | Danger.
#[global] Instance eq_dec : EqDecision t.
Proof. solve_decision. Defined.
End PermissionModel.

Module PermissionTarget.
Inductive t := Tool | Mcp | Command.
#[global] Instance eq_dec : EqDecision t.
Proof. solve_decision. Defined.
End PermissionTarget.

(** ** Invocation policy *)

Record InvocationRule := mkInvocationRule {
  ir_target : PermissionTarget.t;
  ir_selector : string;
  ir_permission : Mode.t;
}.

Record ExactSubject := mkExactSubject {
  es_target : PermissionTarget.t;
  es_value : string;
}.
#[global] Instance ExactSubject_eq_dec : EqDecision ExactSubject.
Proof. solve_decision. Defined.
#[global] Instance ExactSubject_countable : Countable ExactSubject.
Proof.
  refine (inj_countable'
    (fun s => (match es_target s with
               | PermissionTarget.Tool => 0 | PermissionTarget.Mcp => 1
               | PermissionTarget.Command => 2 end, es_value s))
    (fun '(n, v) => mkExactSubject (match n with 0 => PermissionTarget.Tool
                                    | 1 => PermissionTarget.Mcp
                                    | _ => PermissionTarget.Command end) v) _).
  by intros [[] v].
Defined.

(** [ExactSubject::permission] *)
Definition subject_permission (s : ExactSubject) : Action.t * Resource.t :=
  match es_target s with
  | PermissionTarget.Tool => (Action.Tool, Resource.Tool (es_value s))
  | PermissionTarget.Mcp => (Action.Mcp, Resource.Command (es_value s))
  | PermissionTarget.Command => (Action.Bash, Resource.Command (es_value s))
  end.

Record Invocation := mkInvocation {
  inv_subjects : list ExactSubject;
  inv_primary : ExactSubject;
  inv_fallback : Mode.t;
}.

Definition Invocation_tool (name : string) (fallback : Mode.t) : Invocation :=
  let primary := mkExactSubject PermissionTarget.Tool name in
  mkInvocation [primary] primary fallback.

Definition Invocation_mcp (name : string) : Invocation :=
  let primary := mkExactSubject PermissionTarget.Mcp name in
  mkInvocation [primary] primary Mode.Ask.

Definition Invocation_command (tool command : string) : Invocation :=
  let primary := mkExactSubject PermissionTarget.Command command in
  mkInvocation [mkExactSubject PermissionTarget.Tool tool; primary] primary Mode.Ask.

Record InvocationDecision := mkInvocationDecision {
  id_mode : Mode.t;
  id_subject : ExactSubject;
}.

(** The [regex] crate: [Regex::new] and [Regex::is_match]. *)
Class RegexLib := {
  Regex : Type;
  regex_new : string -> option Regex;
  regex_is_match : Regex -> string -> bool;
  (** [Regex::as_str]: the source text *)
  regex_as_str : Regex -> string;
}.

(** A small instance: selectors that are literal strings, matched by equality. *)
Definition literal_regex : RegexLib := {|
  Regex := string;
  regex_new := Some;
  regex_is_match := fun selector value => bool_decide (selector = value);
  regex_as_str := fun selector => selector;
|}.

Section policy.
Context {R : RegexLib}.

Record CompiledInvocationRule := mkCompiledInvocationRule {
  cr_target : PermissionTarget.t;
  cr_selector : Regex;
  cr_permission : Mode.t;
}.

Record InvocationPolicy := mkInvocationPolicy {
  ip_model : PermissionModel.t;
  ip_rules : list CompiledInvocationRule;
}.

Definition InvocationPolicy_default : InvocationPolicy :=
  mkInvocationPolicy PermissionModel.Default [].

(** [collect::<Result<Vec<_>, _>>()]: the first selector that does not compile fails the whole *)
Fixpoint compile_rules (rules : list InvocationRule) : option (list CompiledInvocationRule) :=
  match rules with
  | [] => Some []
  | rule :: rules =>
      selector ← regex_new (ir_selector rule);
      rest ← compile_rules rules;
      Some (mkCompiledInvocationRule (ir_target rule) selector (ir_permission rule) :: rest)
  end.

Definition InvocationPolicy_compile (model : PermissionModel.t) (rules : list InvocationRule) :
    option InvocationPolicy :=
  mkInvocationPolicy model <$> compile_rules rules.

Definition with_model (model : PermissionModel.t) (policy : InvocationPolicy) : InvocationPolicy :=
  mkInvocationPolicy model (ip_rules policy).

(** The subject a rule selects, if any. *)
Definition rule_matches (rule : CompiledInvocationRule) (subject : ExactSubject) : Prop :=
  es_target subject = cr_target rule /\ regex_is_match (cr_selector rule) (es_value subject) = true.
#[global] Instance rule_matches_dec rule subject : Decision (rule_matches rule subject).
Proof. unfold rule_matches. apply _. Defined.

(** [rules.iter().filter_map(..)], in rule order *)
Definition policy_matches (policy : InvocationPolicy) (invocation : Invocation) :
    list (Mode.t * ExactSubject) :=
  omap (fun rule => pair (cr_permission rule)
          <$> find_first (rule_matches rule) (inv_subjects invocation)) (ip_rules policy).

Definition evaluate (policy : InvocationPolicy) (invocation : Invocation) : InvocationDecision :=
  let matches := policy_matches policy invocation in
  let deny_or mode :=
    match find_first (fun m => m.1 = Mode.Deny) matches with
    | Some (_, subject) => mkInvocationDecision Mode.Deny subject
    | None => mkInvocationDecision mode (inv_primary invocation)
    end in
  match ip_model policy with
  | PermissionModel.Allow => deny_or Mode.Allow
  | PermissionModel.Default =>
      match last matches with
      | Some (mode, subject) => mkInvocationDecision mode subject
      | None => mkInvocationDecision (inv_fallback invocation) (inv_primary invocation)
      end
  | PermissionModel.Strict => deny_or Mode.Ask
  | PermissionModel.Danger => mkInvocationDecision Mode.Allow (inv_primary invocation)
  end.
End policy.

(** ** Resource rules *)

Record Rule := mkRule {
  r_action : Action.t;
  r_resource_pattern : string;
  r_mode : Mode.t;
}.
#[global] Instance Rule_eq_dec : EqDecision Rule.
Proof. solve_decision. Defined.

Definition PermissionRules : Type := list Rule.

(** [PermissionRules::evaluate]: the loop over the rules, keeping the last match *)
Definition rules_evaluate (rules : PermissionRules) (action : Action.t) (resource : Resource.t) :
    Mode.t :=
  let target := Resource.pattern resource in
  foldl (fun mode rule =>
    if decide (r_action rule = action) then
      if glob_match (r_resource_pattern rule) target then r_mode rule else mode
    else mode) Mode.Ask rules.

Definition grant_directory (pattern : string) : string :=
  match strip_suffix "/*" pattern with
  | Some EmptyString => "/"
  | Some directory => directory
  | None => pattern
  end.

Definition external_directory_grant_matches (pattern target : string) : bool :=
  bool_decide (pattern = "*") || bool_decide (grant_directory pattern = grant_directory target).

Definition grants (rules : PermissionRules) (action : Action.t) (resource : Resource.t) : bool :=
  let target := Resource.pattern resource in
  existsb (fun rule =>
    bool_decide (r_action rule = action) && bool_decide (r_mode rule = Mode.Allow)
    && (if decide (action = Action.ExternalDirectory)
        then external_directory_grant_matches (r_resource_pattern rule) target
        else glob_match (r_resource_pattern rule) target)) rules.

Definition derive_child (rules extra : PermissionRules) : PermissionRules := rules ++ extra.

Definition push_allow (action : Action.t) (pattern : string) (rules : PermissionRules) :
    PermissionRules :=
  if existsb (fun rule => bool_decide (rule = mkRule action pattern Mode.Allow)) rules then rules
  else rules ++ [mkRule action pattern Mode.Allow].

Definition saved_subject (action : Action.t) (pattern : string) : option ExactSubject :=
  if decide (pattern = "*") then None
  else match action with
       | Action.Tool => Some (mkExactSubject PermissionTarget.Tool pattern)
       | Action.Mcp => Some (mkExactSubject PermissionTarget.Mcp pattern)
       | Action.Bash => Some (mkExactSubject PermissionTarget.Command pattern)
       | _ => None
       end.

(** ** Answers *)

Module Decision.
Inductive t :=
  | AllowOnce
  | AllowAlways
  | Reject (feedback : option string).
End Decision.

Module PermissionError.
Inductive t :=
  | Denied (action : Action.t) (resource : Resource.t) (feedback : option string)
  | Unavailable.
End PermissionError.

(** ** What the policy decides *)

Section policy_spec.
Context {R : RegexLib}.
Implicit Types (policy : InvocationPolicy) (invocation : Invocation).

(** A rule speaks about a call when its selector matches a subject in the rule's domain; it then
    names the first such subject. *)
Definition speaks (invocation : Invocation) (rule : CompiledInvocationRule) (subject : ExactSubject) :
    Prop :=
  find_first (rule_matches rule) (inv_subjects invocation) = Some subject.

Lemma speaks_matches invocation rule subject :
  speaks invocation rule subject -> rule_matches rule subject.
Proof. by intros [_ ?]%find_first_Some. Qed.

Lemma policy_matches_elem policy invocation mode subject :
  (mode, subject) ∈ policy_matches policy invocation
  <-> exists rule, rule ∈ ip_rules policy /\ cr_permission rule = mode /\ speaks invocation rule subject.
Proof.
  unfold policy_matches, speaks. rewrite list_elem_of_omap. split.
  - intros (rule & Hr & Hf). destruct (find_first _ _) eqn:E; simplify_eq/=. eauto.
  - intros (rule & Hr & <- & E). exists rule. split; [done|]. by rewrite E.
Qed.

Lemma find_deny_None policy invocation :
  find_first (fun m => m.1 = Mode.Deny) (policy_matches policy invocation) = None
  <-> forall rule subject, rule ∈ ip_rules policy -> speaks invocation rule subject ->
      cr_permission rule <> Mode.Deny.
Proof.
  rewrite find_first_None, Forall_forall. split.
  - intros H rule subject Hr Hs. apply (H (cr_permission rule, subject)), policy_matches_elem. eauto.
  - intros H [mode subject] (rule & Hr & <- & Hs)%policy_matches_elem. by eapply H.
Qed.

Lemma find_deny_Some policy invocation mode subject :
  find_first (fun m => m.1 = Mode.Deny) (policy_matches policy invocation) = Some (mode, subject) ->
  exists rule, rule ∈ ip_rules policy /\ cr_permission rule = Mode.Deny /\ speaks invocation rule subject.
Proof.
  intros [Hm Hd]%find_first_Some. simpl in Hd. subst. by apply policy_matches_elem in Hm.
Qed.

(** The last rule that speaks about the call, by its position. *)
Definition last_speaker policy invocation (rule : CompiledInvocationRule) (subject : ExactSubject) : Prop :=
  exists before after, ip_rules policy = before ++ rule :: after /\ speaks invocation rule subject
    /\ Forall (fun later => forall s, ~ speaks invocation later s) after.

Lemma policy_matches_app model before after invocation :
  policy_matches (mkInvocationPolicy model (before ++ after)) invocation
  = policy_matches (mkInvocationPolicy model before) invocation
    ++ policy_matches (mkInvocationPolicy model after) invocation.
Proof. unfold policy_matches. simpl. apply omap_app. Qed.

Lemma policy_matches_silent model rules invocation :
  policy_matches (mkInvocationPolicy model rules) invocation = []
  <-> Forall (fun rule => forall s, ~ speaks invocation rule s) rules.
Proof.
  unfold policy_matches, speaks. simpl. induction rules as [|rule rules IH]; simpl; [done|].
  rewrite Forall_cons, <- IH. destruct (find_first _ _) as [s|]; simpl; [|naive_solver].
  split; [done|]. intros [H _]. by destruct (H s).
Qed.

Lemma last_match_Some policy invocation mode subject :
  last (policy_matches policy invocation) = Some (mode, subject) ->
  exists rule, cr_permission rule = mode /\ last_speaker policy invocation rule subject.
Proof.
  destruct policy as [model rules]. induction rules as [|rule rules IH] using rev_ind; [done|].
  rewrite policy_matches_app.
  unfold policy_matches at 2. simpl. destruct (find_first _ _) as [s|] eqn:E; simpl.
  - rewrite last_snoc. intros [= <- <-]. exists rule. split; [done|]. by exists rules, [].
  - rewrite app_nil_r. intros (rule' & Hm & before & after & Heq & Hs & Hall)%IH.
    exists rule'. split; [done|]. exists before, (after ++ [rule]). simpl in *. subst rules.
    split; [by rewrite <- app_assoc|]. split; [done|]. apply Forall_app. split; [done|].
    constructor; [|done]. unfold speaks. by rewrite E.
Qed.

(** what a compiled policy answers, by model.  [danger] always allows; [allow] and [strict]
    deny exactly when some deny rule speaks about the call, naming the subject that rule matched,
    and otherwise allow, respectively ask, about the primary subject; [default] follows the last
    rule that speaks about the call, and the tool's fallback when none does. *)
Theorem evaluate_by_model policy invocation :
  let d := evaluate policy invocation in
  match ip_model policy with
  | PermissionModel.Danger => d = mkInvocationDecision Mode.Allow (inv_primary invocation)
  | PermissionModel.Default =>
      (exists rule, last_speaker policy invocation rule (id_subject d) /\ id_mode d = cr_permission rule)
      \/ (d = mkInvocationDecision (inv_fallback invocation) (inv_primary invocation)
          /\ Forall (fun rule => forall s, ~ speaks invocation rule s) (ip_rules policy))
  | model =>
      (id_mode d = Mode.Deny
       /\ exists rule, rule ∈ ip_rules policy /\ cr_permission rule = Mode.Deny
                       /\ speaks invocation rule (id_subject d))
      \/ (d = mkInvocationDecision
                (if decide (model = PermissionModel.Allow) then Mode.Allow else Mode.Ask)
                (inv_primary invocation)
          /\ forall rule s, rule ∈ ip_rules policy -> speaks invocation rule s ->
             cr_permission rule <> Mode.Deny)
  end.
Proof.
  cbv zeta. unfold evaluate. destruct (ip_model policy) eqn:Hmodel; [| | |done].
  1, 3: destruct (find_first _ _) as [[mode s]|] eqn:E;
        [left; split; [done|by eapply find_deny_Some]|right; split; [done|by apply find_deny_None]].
  destruct (last (policy_matches policy invocation)) as [[mode s]|] eqn:E.
  - left. apply last_match_Some in E as (rule & <- & Hl). by exists rule.
  - right. split; [done|]. apply last_None in E. destruct policy as [model rules].
    by apply (policy_matches_silent model) in E.
Qed.
End policy_spec.

(** ** What the resource rules decide *)

Definition rule_covers (action : Action.t) (resource : Resource.t) (rule : Rule) : Prop :=
  r_action rule = action /\ glob_match (r_resource_pattern rule) (Resource.pattern resource) = true.
#[global] Instance rule_covers_dec action resource rule : Decision (rule_covers action resource rule).
Proof. unfold rule_covers. apply _. Defined.

Lemma rules_evaluate_snoc rules rule action resource :
  rules_evaluate (rules ++ [rule]) action resource
  = if decide (rule_covers action resource rule) then r_mode rule
    else rules_evaluate rules action resource.
Proof.
  unfold rules_evaluate. rewrite foldl_app. simpl.
  destruct (decide (r_action rule = action)) as [Ha|Ha].
  - destruct (glob_match _ _) eqn:Hg.
    + by rewrite (decide_True (P := rule_covers action resource rule)).
    + rewrite (decide_False (P := rule_covers action resource rule)); [done|].
      intros [_ Hg']. congruence.
  - rewrite (decide_False (P := rule_covers action resource rule)); [done|]. by intros [? _].
Qed.

Lemma rules_evaluate_last rules action resource :
  rules_evaluate rules action resource
  = default Mode.Ask (r_mode <$> find_last (rule_covers action resource) rules).
Proof.
  induction rules as [|rule rules IH] using rev_ind; [done|].
  rewrite rules_evaluate_snoc, IH. unfold find_last. rewrite reverse_snoc. simpl.
  by case_decide.
Qed.

(** An overlay has the last word; where it is silent the base rules stand. *)
Lemma derive_child_evaluate rules extra action resource :
  rules_evaluate (derive_child rules extra) action resource
  = if decide (Exists (rule_covers action resource) extra)
    then rules_evaluate extra action resource else rules_evaluate rules action resource.
Proof.
  unfold derive_child. induction extra as [|rule extra IH] using rev_ind.
  { rewrite app_nil_r. case_decide as He; [by apply Exists_nil in He|done]. }
  rewrite app_assoc, !rules_evaluate_snoc, IH. clear IH.
  destruct (decide (rule_covers action resource rule)) as [Hc|Hc].
  - case_decide as He; [done|]. destruct He. apply Exists_app. right. by left.
  - do 2 case_decide; try done; rewrite !Exists_app, !Exists_cons, !Exists_nil in *; tauto.
Qed.

(** ** What a remembered grant covers *)

Definition grant_covers (action : Action.t) (resource : Resource.t) (pattern : string) : Prop :=
  if decide (action = Action.ExternalDirectory)
  then external_directory_grant_matches pattern (Resource.pattern resource) = true
  else glob_match pattern (Resource.pattern resource) = true.

Lemma grants_spec rules action resource :
  grants rules action resource = true
  <-> exists pattern, mkRule action pattern Mode.Allow ∈ rules /\ grant_covers action resource pattern.
Proof.
  unfold grants, grant_covers. rewrite existsb_exists. split.
  - intros ([a p m] & Hin & Hb). rewrite !andb_true_iff, !bool_decide_eq_true in Hb.
    destruct Hb as [[Ha Hm] Hb]. simpl in *. subst. exists p.
    split; [by apply list_elem_of_In|]. by case_decide.
  - intros (p & Hin & Hb). exists (mkRule action p Mode.Allow). split; [by apply list_elem_of_In|].
    rewrite !andb_true_iff, !bool_decide_eq_true. split; [done|]. by case_decide.
Qed.

Lemma push_allow_elem action pattern rules rule :
  rule ∈ push_allow action pattern rules <-> rule ∈ rules \/ rule = mkRule action pattern Mode.Allow.
Proof.
  unfold push_allow. destruct (existsb _ _) eqn:E.
  - apply existsb_exists in E as (rule' & Hin & Hb). rewrite bool_decide_eq_true in Hb. subst.
    apply list_elem_of_In in Hin. naive_solver.
  - rewrite elem_of_app, list_elem_of_singleton. done.
Qed.

Lemma push_allow_new action pattern rules :
  mkRule action pattern Mode.Allow ∉ rules ->
  push_allow action pattern rules = rules ++ [mkRule action pattern Mode.Allow].
Proof.
  intros Hnot. unfold push_allow. destruct (existsb _ _) eqn:E; [|done].
  apply existsb_exists in E as (rule & Hin & Hb). rewrite bool_decide_eq_true in Hb. subst.
  by apply list_elem_of_In in Hin.
Qed.

Lemma push_allow_nonempty action pattern rules : push_allow action pattern rules <> [].
Proof.
  unfold push_allow. destruct (existsb _ _) eqn:E; [|by destruct rules].
  by intros ->.
Qed.

(** The directory a grant names, as the code that asks writes it. *)
Lemma grant_directory_dir directory :
  directory <> "" -> grant_directory (directory +:+ "/*")%string = directory.
Proof. intros Hd. unfold grant_directory. rewrite strip_suffix_app. by destruct directory. Qed.
