(* ===== verification/PermissionPlane.v ===== *)
(** * The permission plane ([hya-tool/src/permission.rs],
    [hya-server/src/pending/saved_permission.rs])

    A [PermissionPlane] is a cheap handle that every session and call derives from one root plane;
    the three grant tables behind their mutexes ([Grants]) are shared by all of them.  A check is an
    asynchronous program: it holds a mutex only for one table access and is suspended while an
    interceptor or the human decides.  [Prog] is that program as a tree, one node per point at
    which other tasks may run, so the sequential behaviour ([run]) and every interleaving ([step])
    are two readings of the same definitions.  External interceptors are handles of a type [Hook]
    that only answer; what they answer, the fresh request ids and the human are the environment. *)

From stdpp Require Import gmap.
From S2P Require Import Prelude RustStr Platform Ids Permission.

(** ** Programs *)

Module GrantScope.
Section scope.
Context `{U : UuidLib}.
Inductive t :=
  | Project (project : string)
  | Session (session : SessionId).
#[global] Instance eq_dec : EqDecision t.
Proof. solve_decision. Defined.
#[global] Instance countable : Countable t.
Proof.
  refine (inj_countable'
    (fun s => match s with Project p => inl p | Session i => inr i end)
    (fun s => match s with inl p => Project p | inr i => Session i end) _).
  by intros [].
Defined.
End scope.
End GrantScope.

Module RememberScope.
Section scope.
Context `{U : UuidLib}.
Inductive t :=
  | LegacyAction
  | Exact (subject : ExactSubject)
  | Scoped (pattern : string) (scope : option GrantScope.t).
#[global] Instance eq_dec : EqDecision t.
Proof. solve_decision. Defined.

Definition pattern (r : t) : string :=
  match r with
  | LegacyAction => "*"
  | Exact subject => es_value subject
  | Scoped pattern _ => pattern
  end.
End scope.
End RememberScope.

Section plane.
Context {U : UuidLib} {R : RegexLib} {Hook : Type}.

Record AskRequest := mkAskRequest {
  ask_id : PermissionRequestId;
  ask_session : option SessionId;
  ask_message_id : option MessageId;
  ask_call_id : option ToolCallId;
  ask_action : Action.t;
  ask_resource : Resource.t;
  ask_remember : RememberScope.t;
}.

(** The tables the planes share: [persistent], [native_grants] and [scoped]. *)
Record Grants := mkGrants {
  g_persistent : PermissionRules;
  g_native : gset ExactSubject;
  g_scoped : gmap GrantScope.t PermissionRules;
}.
#[global] Instance Grants_eta : EtaRecord Grants :=
  fun r => mkGrants (g_persistent r) (g_native r) (g_scoped r).

Definition no_grants : Grants := mkGrants [] ∅ ∅.

(** [Lock f k]: one critical section, which applies [f]; [k] gets the tables it found.
    [Consult]: await an interceptor.  [FreshId]: [PermissionRequestId::new].  [Prompt]: send the
    request and await the oneshot, [None] when the channel is closed or the reply dropped. *)
Inductive Prog (A : Type) : Type :=
  | Done (a : A)
  | Lock (f : Grants -> Grants) (k : Grants -> Prog A)
  | Consult (hook : Hook) (session : option SessionId) (action : Action.t) (resource : Resource.t)
      (k : option Decision.t -> Prog A)
  | FreshId (k : PermissionRequestId -> Prog A)
  | Prompt (req : AskRequest) (k : option Decision.t -> Prog A).
#[global] Arguments Done {A} _.
#[global] Arguments Lock {A} _ _.
#[global] Arguments Consult {A} _ _ _ _ _.
#[global] Arguments FreshId {A} _.
#[global] Arguments Prompt {A} _ _.

Fixpoint prog_bind {A B} (f : A -> Prog B) (p : Prog A) : Prog B :=
  match p with
  | Done a => f a
  | Lock u k => Lock u (fun g => prog_bind f (k g))
  | Consult h s a r k => Consult h s a r (fun d => prog_bind f (k d))
  | FreshId k => FreshId (fun i => prog_bind f (k i))
  | Prompt req k => Prompt req (fun d => prog_bind f (k d))
  end.
#[global] Instance prog_mbind : MBind Prog := @prog_bind.
#[global] Instance prog_mret : MRet Prog := @Done.

(** A read-only critical section. *)
Definition read_grants : Prog Grants := Lock id Done.
Definition write_grants (f : Grants -> Grants) : Prog unit := Lock f (fun _ => Done tt).

(** ** Interceptors *)

(** [PrependInterceptor] chains two; any other implementation is outside. *)
Inductive Interceptor :=
  | External (hook : Hook)
  | PrependInterceptor (first next : Interceptor).

Fixpoint intercept (i : Interceptor) (session : option SessionId) (action : Action.t)
    (resource : Resource.t) : Prog (option Decision.t) :=
  match i with
  | External hook => Consult hook session action resource Done
  | PrependInterceptor first next =>
      d ← intercept first session action resource;
      match d with
      | Some decision => Done (Some decision)
      | None => intercept next session action resource
      end
  end.

(** ** The handle and its derivations *)

Record PermissionPlane := mkPermissionPlane {
  snapshot : PermissionRules;
  invocation_policy : option InvocationPolicy;
  plane_grant_scope : option GrantScope.t;
  session : option SessionId;
  message_id : option MessageId;
  call_id : option ToolCallId;
  call_grant : bool;
  interceptor : option Interceptor;
}.
#[global] Instance PermissionPlane_eta : EtaRecord PermissionPlane := fun r =>
  mkPermissionPlane (snapshot r) (invocation_policy r) (plane_grant_scope r) (session r)
    (message_id r) (call_id r) (call_grant r) (interceptor r).

(** [new_inner]; the shared tables start as [no_grants] *)
Definition new_inner (rules : PermissionRules) (policy : option InvocationPolicy) : PermissionPlane :=
  mkPermissionPlane rules policy None None None None false None.

Definition with_interceptor (i : Interceptor) (plane : PermissionPlane) : PermissionPlane :=
  plane <| interceptor := Some i |>.

Definition prepend_interceptor (i : Interceptor) (plane : PermissionPlane) : PermissionPlane :=
  plane <| interceptor := Some (match interceptor plane with
                                | Some next => PrependInterceptor i next
                                | None => i
                                end) |>.

Definition append_interceptor (i : Interceptor) (plane : PermissionPlane) : PermissionPlane :=
  plane <| interceptor := Some (match interceptor plane with
                                | Some first => PrependInterceptor first i
                                | None => i
                                end) |>.

Definition invocation_model (plane : PermissionPlane) : option PermissionModel.t :=
  ip_model <$> invocation_policy plane.

Definition with_invocation_model (plane : PermissionPlane) (model : PermissionModel.t) :
    PermissionPlane :=
  if decide (invocation_model plane = Some model) then plane
  else
    let policy := with_model model (default InvocationPolicy_default (invocation_policy plane)) in
    plane <| invocation_policy := Some policy |>.

Definition for_session (plane : PermissionPlane) (s : SessionId) : PermissionPlane :=
  plane <| session := Some s |>.

Definition with_grant_scope (plane : PermissionPlane) (scope : GrantScope.t) : PermissionPlane :=
  plane <| plane_grant_scope := Some scope |>.

Definition grant_scope (plane : PermissionPlane) : option GrantScope.t :=
  match plane_grant_scope plane with
  | Some scope => Some scope
  | None => GrantScope.Session <$> session plane
  end.

Definition for_tool_call (plane : PermissionPlane) (message : MessageId) (call : ToolCallId) :
    PermissionPlane :=
  plane <| message_id := Some message |> <| call_id := Some call |>.

Definition with_snapshot_rules (plane : PermissionPlane) (extra : list Rule) : PermissionPlane :=
  match extra with
  | [] => plane
  | _ => plane <| snapshot := derive_child (snapshot plane) extra |>
  end.

Definition authorized (plane : PermissionPlane) : PermissionPlane := plane <| call_grant := true |>.

(** ** The tables *)

Definition is_allow (action : Action.t) (pattern : string) (rule : Rule) : Prop :=
  r_action rule = action /\ r_resource_pattern rule = pattern /\ r_mode rule = Mode.Allow.
#[global] Instance is_allow_dec action pattern rule : Decision (is_allow action pattern rule).
Proof. unfold is_allow. apply _. Defined.

(** [rules.retain(|rule| !(..))] *)
Definition retain_other (action : Action.t) (pattern : string) (rules : PermissionRules) :
    PermissionRules :=
  filter (fun rule => ~ is_allow action pattern rule) rules.

Definition push_persistent (action : Action.t) (pattern : string) (g : Grants) : Grants :=
  g <| g_persistent ::= push_allow action pattern |>.

Definition insert_native (subject : ExactSubject) (g : Grants) : Grants :=
  g <| g_native ::= fun s => {[subject]} ∪ s |>.

Definition push_scoped (scope : GrantScope.t) (action : Action.t) (pattern : string) (g : Grants) :
    Grants :=
  g <| g_scoped ::= entry_update scope [] (push_allow action pattern) |>.

Definition remove_scoped (scope : GrantScope.t) (action : Action.t) (pattern : string) (g : Grants) :
    Grants :=
  match g_scoped g !! scope with
  | None => g
  | Some rules =>
      match retain_other action pattern rules with
      | [] => g <| g_scoped ::= delete scope |>
      | rest => g <| g_scoped ::= <[scope := rest]> |>
      end
  end.

Definition grant_scoped (scope : GrantScope.t) (action : Action.t) (pattern : string) : Prog unit :=
  write_grants (push_scoped scope action pattern).

Definition revoke_scoped (scope : GrantScope.t) (action : Action.t) (pattern : string) : Prog unit :=
  write_grants (remove_scoped scope action pattern).

Definition grant_saved (action : Action.t) (pattern : string) : Prog unit :=
  match saved_subject action pattern with
  | Some subject => write_grants (insert_native subject)
  | None => write_grants (push_persistent action pattern)
  end.

Definition revoke_saved (action : Action.t) (pattern : string) : Prog unit :=
  match saved_subject action pattern with
  | Some subject => write_grants (fun g => g <| g_native ::= fun s => s ∖ {[subject]} |>)
  | None => write_grants (fun g => g <| g_persistent ::= retain_other action pattern |>)
  end.

(** ** The checks *)

Definition denied {A} (action : Action.t) (resource : Resource.t) (feedback : option string) :
    Prog (A + PermissionError.t) :=
  Done (inr (PermissionError.Denied action resource feedback)).

Definition apply_decision (action : Action.t) (resource : Resource.t) (remember : RememberScope.t)
    (decision : Decision.t) : Prog (unit + PermissionError.t) :=
  match decision with
  | Decision.AllowOnce => Done (inl tt)
  | Decision.AllowAlways =>
      (match remember with
       | RememberScope.LegacyAction =>
           write_grants (fun g =>
             g <| g_persistent ::= fun rules => rules ++ [mkRule action "*" Mode.Allow] |>)
       | RememberScope.Exact subject => write_grants (insert_native subject)
       | RememberScope.Scoped pattern (Some scope) => grant_scoped scope action pattern
       | RememberScope.Scoped pattern None => write_grants (push_persistent action pattern)
       end) ≫= fun _ => Done (inl tt)
  | Decision.Reject feedback => denied action resource feedback
  end.

Definition ask (plane : PermissionPlane) (action : Action.t) (resource : Resource.t)
    (remember : RememberScope.t) : Prog (unit + PermissionError.t) :=
  FreshId (fun id =>
  let req := mkAskRequest id (session plane) (message_id plane) (call_id plane) action resource
               remember in
  Prompt req (fun reply =>
  match reply with
  | None => Done (inr PermissionError.Unavailable)
  | Some decision => apply_decision action resource remember decision
  end)).

(** The interceptor's answer if there is one, and the human's otherwise. *)
Definition decide_by (plane : PermissionPlane) (action : Action.t) (resource : Resource.t)
    (remember : RememberScope.t) : Prog (unit + PermissionError.t) :=
  match interceptor plane with
  | Some i =>
      d ← intercept i (session plane) action resource;
      match d with
      | Some decision => apply_decision action resource remember decision
      | None => ask plane action resource remember
      end
  | None => ask plane action resource remember
  end.

Definition authorize (plane : PermissionPlane) (invocation : Invocation) :
    Prog (PermissionPlane + PermissionError.t) :=
  match invocation_policy plane with
  | None => Done (inl plane)
  | Some policy =>
      let decision := evaluate policy invocation in
      let '(action, resource) := subject_permission (id_subject decision) in
      match id_mode decision with
      | Mode.Allow => Done (inl (authorized plane))
      | Mode.Deny => denied action resource None
      | Mode.Ask =>
          g ← read_grants;
          if decide (id_subject decision ∈ g_native g) then Done (inl (authorized plane))
          else
            r ← decide_by plane action resource (RememberScope.Exact (id_subject decision));
            Done (match r with inl _ => inl (authorized plane) | inr e => inr e end)
      end
  end.

(** The scope an answer is remembered under. *)
Definition remember_for (plane : PermissionPlane) (action : Action.t) (resource : Resource.t) :
    RememberScope.t :=
  if decide (action = Action.ExternalDirectory)
  then RememberScope.Scoped (Resource.pattern resource) (grant_scope plane)
  else RememberScope.LegacyAction.

Definition scoped_grants (g : Grants) (scope : option GrantScope.t) (action : Action.t)
    (resource : Resource.t) : bool :=
  match scope with
  | Some scope => match g_scoped g !! scope with
                  | Some rules => grants rules action resource
                  | None => false
                  end
  | None => false
  end.

(** The table lookups of [assert] and, when they miss, the decision. *)
Definition consult_grants (plane : PermissionPlane) (action : Action.t) (resource : Resource.t) :
    Prog (unit + PermissionError.t) :=
  let undecided := decide_by plane action resource (remember_for plane action resource) in
  g ← read_grants;
  if grants (g_persistent g) action resource then Done (inl tt)
  else match grant_scope plane with
       | None => undecided
       | Some scope =>
           g ← read_grants;
           if scoped_grants g (Some scope) action resource then Done (inl tt) else undecided
       end.

Definition assert_ (plane : PermissionPlane) (action : Action.t) (resource : Resource.t) :
    Prog (unit + PermissionError.t) :=
  let model := invocation_model plane in
  if decide (model = Some PermissionModel.Danger) then Done (inl tt)
  else match rules_evaluate (snapshot plane) action resource with
       | Mode.Allow => Done (inl tt)
       | Mode.Deny => denied action resource None
       | Mode.Ask =>
           if decide (model = Some PermissionModel.Allow) then Done (inl tt)
           else if decide (call_grant plane = true /\ action <> Action.ExternalDirectory)
           then Done (inl tt)
           else consult_grants plane action resource
       end.

(** ** Saved rows ([hya-server]) *)

(** [hya_store::SavedPermission], as the bridge reads it *)
Record SavedPermission := mkSavedPermission {
  sp_id : string;
  sp_project_id : string;
  sp_action : string;
  sp_resource : string;
  sp_time_created_ms : option Z;
}.

Definition GLOBAL_PROJECT : string := "global".

(** serde's [rename_all = "lowercase"] on [Action] *)
Definition action_name (action : Action.t) : string :=
  match action with
  | Action.Tool => "tool" | Action.Read => "read" | Action.Edit => "edit"
  | Action.Glob => "glob" | Action.Grep => "grep" | Action.Bash => "bash"
  | Action.Task => "task" | Action.Mcp => "mcp" | Action.WebFetch => "webfetch"
  | Action.WebSearch => "websearch" | Action.TodoWrite => "todowrite" | Action.Skill => "skill"
  | Action.Lsp => "lsp" | Action.ExternalDirectory => "externaldirectory"
  end.

Definition all_actions : list Action.t :=
  [Action.Tool; Action.Read; Action.Edit; Action.Glob; Action.Grep; Action.Bash; Action.Task;
   Action.Mcp; Action.WebFetch; Action.WebSearch; Action.TodoWrite; Action.Skill; Action.Lsp;
   Action.ExternalDirectory].

Definition parse_action (name : string) : option Action.t :=
  find_first (fun action => action_name action = name) all_actions.

Definition saved_row (remember : RememberScope.t) : option (string * string) :=
  match remember with
  | RememberScope.Scoped pattern (Some (GrantScope.Project project)) => Some (project, pattern)
  | RememberScope.Scoped _ _ => None
  | RememberScope.LegacyAction | RememberScope.Exact _ =>
      Some (GLOBAL_PROJECT, RememberScope.pattern remember)
  end.

(** The row [SavedPermissions::remember] writes. *)
Definition remember_row (request_id : string) (action : Action.t) (remember : RememberScope.t) :
    option SavedPermission :=
  '(project_id, resource) ← saved_row remember;
  Some (mkSavedPermission ("psv_" +:+ request_id) project_id (action_name action) resource None).

Definition install (row : SavedPermission) : Prog bool :=
  match parse_action (sp_action row) with
  | None => Done false
  | Some action =>
      (if decide (sp_project_id row = GLOBAL_PROJECT) then grant_saved action (sp_resource row)
       else grant_scoped (GrantScope.Project (sp_project_id row)) action (sp_resource row))
      ≫= fun _ => Done true
  end.

Definition uninstall (row : SavedPermission) : Prog unit :=
  match parse_action (sp_action row) with
  | None => Done tt
  | Some action =>
      if decide (sp_project_id row = GLOBAL_PROJECT) then revoke_saved action (sp_resource row)
      else revoke_scoped (GrantScope.Project (sp_project_id row)) action (sp_resource row)
  end.
End plane.

#[global] Arguments Grants U : clear implicits.
#[global] Arguments Prog U Hook A : clear implicits.
#[global] Arguments PermissionPlane U R Hook : clear implicits.
#[global] Arguments Interceptor Hook : clear implicits.
#[global] Arguments AskRequest U : clear implicits.
