(* ===== verification/PlaneSpec.v ===== *)
(** * What the permission plane promises

    Theorems about the programs of [PermissionPlane]: the precedence of the checks, the exactness
    of remembered directories (ADR-0026), the saved rows that carry grants over a restart, and a
    safety property of every interleaving of checks and host writes. *)

From stdpp Require Import gmap.
From S2P Require Import Prelude RustStr Platform Ids Permission PermissionPlane.

(** ** One task at a time *)

Section run.
Context {U : UuidLib} {R : RegexLib} {Hook : Type}.
Implicit Types (g : Grants U) (plane : PermissionPlane U R Hook).

(** The environment of one run: interceptors, fresh ids, and the human. *)
Record Env := mkEnv {
  env_consult : Hook -> option SessionId -> Action.t -> Resource.t -> option Decision.t;
  env_id : PermissionRequestId;
  env_human : AskRequest U -> option Decision.t;
}.

(** Running a program alone: its result, the final tables and the prompts sent. *)
Fixpoint run {A} (env : Env) (p : Prog U Hook A) (g : Grants U) : A * Grants U * list (AskRequest U) :=
  match p with
  | Done a => (a, g, [])
  | Lock f k => run env (k g) (f g)
  | Consult h s a r k => run env (k (env_consult env h s a r)) g
  | FreshId k => run env (k (env_id env)) g
  | Prompt req k =>
      let '(a, g', reqs) := run env (k (env_human env req)) g in (a, g', req :: reqs)
  end.

Lemma run_bind {A B} env (f : A -> Prog U Hook B) (p : Prog U Hook A) g :
  run env (p ≫= f) g
  = let '(a, g1, reqs1) := run env p g in
    let '(b, g2, reqs2) := run env (f a) g1 in (b, g2, reqs1 ++ reqs2).
Proof.
  revert g. induction p as [a|u k IH|h s a r k IH|k IH|req k IH]; intros g; simpl; try apply IH.
  - by destruct (run env (f a) g) as [[??]?].
  - unfold mbind, prog_mbind in IH. rewrite IH.
    destruct (run env (k _) g) as [[a1 g1] r1]. by destruct (run env (f a1) g1) as [[??]?].
Qed.

(** The answer of a chain of interceptors: the first that does not defer. *)
Fixpoint interceptor_answer (env : Env) (i : Interceptor Hook) s a r : option Decision.t :=
  match i with
  | External h => env_consult env h s a r
  | PrependInterceptor first next =>
      match interceptor_answer env first s a r with
      | Some d => Some d
      | None => interceptor_answer env next s a r
      end
  end.

Lemma run_intercept env i s a r g : run env (intercept i s a r) g = (interceptor_answer env i s a r, g, []).
Proof.
  revert g. induction i as [h|first IH1 next IH2]; intros g; [done|]. simpl.
  rewrite run_bind, IH1. destruct (interceptor_answer env first s a r); simpl; [done|].
  by rewrite IH2.
Qed.

(** ** The tables as sets of facts *)

Inductive Fact :=
  | FNative (subject : ExactSubject)
  | FPersistent (rule : Rule)
  | FScoped (scope : GrantScope.t) (rule : Rule).

Definition holds g (fact : Fact) : Prop :=
  match fact with
  | FNative subject => subject ∈ g_native g
  | FPersistent rule => rule ∈ g_persistent g
  | FScoped scope rule => exists rules, g_scoped g !! scope = Some rules /\ rule ∈ rules
  end.

(** What an answer "allow always" adds. *)
Definition remembered_fact (action : Action.t) (remember : RememberScope.t) : Fact :=
  match remember with
  | RememberScope.LegacyAction => FPersistent (mkRule action "*" Mode.Allow)
  | RememberScope.Exact subject => FNative subject
  | RememberScope.Scoped pattern (Some scope) => FScoped scope (mkRule action pattern Mode.Allow)
  | RememberScope.Scoped pattern None => FPersistent (mkRule action pattern Mode.Allow)
  end.

(** What installing a saved row adds. *)
Definition restored_fact (project_id : string) (action : Action.t) (resource : string) : Fact :=
  if decide (project_id = GLOBAL_PROJECT) then
    match saved_subject action resource with
    | Some subject => FNative subject
    | None => FPersistent (mkRule action resource Mode.Allow)
    end
  else FScoped (GrantScope.Project project_id) (mkRule action resource Mode.Allow).

Definition adds (f : Grants U -> Grants U) (fact : Fact) : Prop :=
  forall g fact', holds (f g) fact' <-> holds g fact' \/ fact' = fact.

Lemma adds_native subject : adds (insert_native subject) (FNative subject).
Proof.
  intros g [s|rule|scope rule]; simpl; [|naive_solver..].
  rewrite elem_of_union, elem_of_singleton. naive_solver.
Qed.

Lemma adds_persistent action pattern :
  adds (push_persistent action pattern) (FPersistent (mkRule action pattern Mode.Allow)).
Proof. intros g [s|rule|scope rule]; simpl; [naive_solver| |naive_solver]. rewrite push_allow_elem. naive_solver. Qed.

Lemma adds_legacy action :
  adds (fun g => g <| g_persistent ::= fun rules => rules ++ [mkRule action "*" Mode.Allow] |>)
       (FPersistent (mkRule action "*" Mode.Allow)).
Proof.
  intros g [s|rule|scope rule]; simpl; [naive_solver| |naive_solver].
  rewrite elem_of_app, list_elem_of_singleton. naive_solver.
Qed.

Lemma adds_scoped scope action pattern :
  adds (push_scoped scope action pattern) (FScoped scope (mkRule action pattern Mode.Allow)).
Proof.
  intros g [s|rule|scope' rule]; simpl; [naive_solver..|].
  setoid_rewrite lookup_entry_update. destruct (decide (scope = scope')) as [<-|Hne].
  - split.
    + intros (rules & [= <-] & [Hin| ->]%push_allow_elem); [left|by right].
      destruct (g_scoped g !! scope) as [rules|]; [by eauto|by apply elem_of_nil in Hin].
    + intros [(rules & -> & Hin)|[= ->]]; eexists; (split; [done|]); apply push_allow_elem; auto.
  - split; [by left|]. intros [?|[= <- _]]; done.
Qed.

Lemma run_write env f g : run env (write_grants (Hook := Hook) f) g = (tt, f g, []).
Proof. done. Qed.

Lemma run_apply_always env action resource remember g :
  exists f, adds f (remembered_fact action remember)
    /\ run env (apply_decision (Hook := Hook) action resource remember Decision.AllowAlways) g
       = (inl tt, f g, []).
Proof.
  destruct remember as [|subject|pattern [scope|]]; eexists; (split; [|done]).
  - apply adds_legacy.
  - apply adds_native.
  - apply adds_scoped.
  - apply adds_persistent.
Qed.

Lemma run_grant_saved env action resource g :
  exists f, adds f (restored_fact GLOBAL_PROJECT action resource)
    /\ run env (grant_saved (Hook := Hook) action resource) g = (tt, f g, []).
Proof.
  unfold grant_saved, restored_fact. rewrite decide_True by done.
  destruct (saved_subject action resource); eexists; (split; [|done]);
    [apply adds_native|apply adds_persistent].
Qed.
End run.

(** ** The precedence of a resource check *)

Section precedence.
Context {U : UuidLib} {R : RegexLib} {Hook : Type}.
Implicit Types (g : Grants U) (plane : PermissionPlane U R Hook).

(** The remembered grants a plane may use for a check. *)
Definition covers plane (action : Action.t) (resource : Resource.t) (fact : Fact) : Prop :=
  match fact with
  | FNative _ => False
  | FPersistent rule =>
      exists p, rule = mkRule action p Mode.Allow /\ grant_covers action resource p
  | FScoped scope rule =>
      grant_scope plane = Some scope
      /\ exists p, rule = mkRule action p Mode.Allow /\ grant_covers action resource p
  end.

Definition covered g plane action resource : Prop :=
  exists fact, holds g fact /\ covers plane action resource fact.

Lemma covered_spec g plane action resource :
  covered g plane action resource
  <-> grants (g_persistent g) action resource = true
      \/ scoped_grants g (grant_scope plane) action resource = true.
Proof.
  unfold covered, scoped_grants. rewrite grants_spec. split.
  - intros ([s|rule|scope rule] & Hh & Hc); simpl in *; [done| |].
    + destruct Hc as (p & -> & Hc). left. eauto.
    + destruct Hc as (-> & p & -> & Hc). destruct Hh as (rules & -> & Hin).
      right. apply grants_spec. eauto.
  - intros [(p & Hin & Hc)|Hs].
    + exists (FPersistent (mkRule action p Mode.Allow)). simpl. eauto.
    + destruct (grant_scope plane) as [scope|] eqn:Hscope; [|done].
      destruct (g_scoped g !! scope) as [rules|] eqn:E; [|done].
      apply grants_spec in Hs as (p & Hin & Hc).
      exists (FScoped scope (mkRule action p Mode.Allow)). simpl. eauto 10.
Qed.

#[global] Instance covered_dec g plane action resource : Decision (covered g plane action resource).
Proof.
  destruct (decide (grants (g_persistent g) action resource = true
    \/ scoped_grants g (grant_scope plane) action resource = true));
  [left|right]; by rewrite covered_spec.
Defined.

(** Who answers, and what the answer does. *)
Definition answered_by env plane action resource (remember : RememberScope.t)
    (answer : option Decision.t) (prompts : list (AskRequest U)) : Prop :=
  match i ← interceptor plane; interceptor_answer env i (session plane) action resource with
  | Some d => answer = Some d /\ prompts = []
  | None => exists req, prompts = [req] /\ answer = env_human env req
      /\ ask_session req = session plane /\ ask_message_id req = message_id plane
      /\ ask_call_id req = call_id plane /\ ask_action req = action
      /\ ask_resource req = resource /\ ask_remember req = remember
  end.

Definition answer_effect action resource (remember : RememberScope.t) (answer : option Decision.t) g
    (res : unit + PermissionError.t) (g' : Grants U) : Prop :=
  match answer with
  | None => res = inr PermissionError.Unavailable /\ g' = g
  | Some Decision.AllowOnce => res = inl tt /\ g' = g
  | Some Decision.AllowAlways =>
      res = inl tt
      /\ forall fact, holds g' fact <-> holds g fact \/ fact = remembered_fact action remember
  | Some (Decision.Reject feedback) =>
      res = inr (PermissionError.Denied action resource feedback) /\ g' = g
  end.

Definition decided env plane action resource remember g res g' prompts : Prop :=
  exists answer, answered_by env plane action resource remember answer prompts
    /\ answer_effect action resource remember answer g res g'.

Lemma apply_decision_effect (env : Env (Hook := Hook)) action resource remember d g :
  let '(res, g', prompts) := run env (apply_decision action resource remember d) g in
  prompts = [] /\ answer_effect action resource remember (Some d) g res g'.
Proof.
  destruct d as [| |feedback]; [done| |done].
  destruct (run_apply_always env action resource remember g) as (f & Hf & ->). naive_solver.
Qed.

Lemma ask_effect env plane action resource remember g :
  let '(res, g', prompts) := run env (ask plane action resource remember) g in
  exists req, prompts = [req]
    /\ req = mkAskRequest (env_id env) (session plane) (message_id plane) (call_id plane) action
               resource remember
    /\ answer_effect action resource remember (env_human env req) g res g'.
Proof.
  cbn [ask run]. set (req := mkAskRequest _ _ _ _ _ _ _).
  destruct (env_human env req) as [d|] eqn:E; [|simpl; exists req; rewrite E; done].
  pose proof (apply_decision_effect env action resource remember d g) as H.
  destruct (run env _ g) as [[res g'] prompts]. destruct H as [-> H].
  exists req. rewrite E. done.
Qed.

Lemma decide_by_decided env plane action resource remember g :
  let '(res, g', prompts) := run env (decide_by plane action resource remember) g in
  decided env plane action resource remember g res g' prompts.
Proof.
  pose proof (ask_effect env plane action resource remember g) as Hask.
  unfold decide_by, decided, answered_by. destruct (interceptor plane) as [i|] eqn:Ei;
    cbn [mbind option_bind].
  - rewrite run_bind, run_intercept. destruct (interceptor_answer _ _ _ _ _) as [d|].
    + clear Hask. pose proof (apply_decision_effect env action resource remember d g) as H.
      destruct (run env _ g) as [[res g'] prompts]. destruct H as [-> H]. simpl. eauto.
    + destruct (run env _ g) as [[res g'] prompts]. destruct Hask as (req & -> & Hr & H).
      exists (env_human env req). split; [|done]. exists req. by subst req.
  - destruct (run env _ g) as [[res g'] prompts]. destruct Hask as (req & -> & Hr & H).
    exists (env_human env req). split; [|done]. exists req. by subst req.
Qed.

Lemma run_consult_grants env plane action resource g :
  run env (consult_grants plane action resource) g
  = if decide (covered g plane action resource) then (inl tt, g, [])
    else run env (decide_by plane action resource (remember_for plane action resource)) g.
Proof.
  unfold consult_grants. simpl. pose proof (covered_spec g plane action resource) as Hc.
  destruct (grants (g_persistent g) action resource).
  { rewrite decide_True; [done|]. rewrite Hc. by left. }
  destruct (grant_scope plane) as [scope|].
  - simpl in *. case_decide as Hd.
    + apply Hc in Hd as [?|Hd]; [done|]. by rewrite Hd.
    + destruct (g_scoped g !! scope) as [rules|]; [|done].
      destruct (grants rules action resource); [|done]. destruct Hd. apply Hc. by right.
  - rewrite decide_False; [done|]. rewrite Hc. by intros [?|?].
Qed.

Definition silently_allowed g plane action resource : Prop :=
  invocation_model plane = Some PermissionModel.Danger
  \/ rules_evaluate (snapshot plane) action resource = Mode.Allow
  \/ rules_evaluate (snapshot plane) action resource = Mode.Ask
     /\ (invocation_model plane = Some PermissionModel.Allow
         \/ call_grant plane = true /\ action <> Action.ExternalDirectory
         \/ covered g plane action resource).

Lemma assert_cases env plane action resource g :
  let '(res, g', prompts) := run env (assert_ plane action resource) g in
  let verdict := rules_evaluate (snapshot plane) action resource in
  let danger := invocation_model plane = Some PermissionModel.Danger in
  (silently_allowed g plane action resource /\ res = inl tt /\ g' = g /\ prompts = [])
  \/ (~ danger /\ verdict = Mode.Deny
      /\ res = inr (PermissionError.Denied action resource None) /\ g' = g /\ prompts = [])
  \/ (~ danger /\ verdict = Mode.Ask /\ ~ silently_allowed g plane action resource
      /\ decided env plane action resource (remember_for plane action resource) g res g' prompts).
Proof.
  unfold silently_allowed, assert_. cbv zeta.
  destruct (decide (invocation_model plane = Some PermissionModel.Danger)) as [Hd|Hd]; [simpl; tauto|].
  destruct (rules_evaluate _ _ _) eqn:Hv; simpl; [tauto| |tauto].
  destruct (decide (invocation_model plane = Some PermissionModel.Allow)) as [Ha|Ha]; [simpl; tauto|].
  destruct (decide (call_grant plane = true /\ _)) as [Hc|Hc]; [simpl; tauto|].
  rewrite run_consult_grants. destruct (decide (covered _ _ _ _)) as [Hcov|Hcov]; [simpl; tauto|].
  pose proof (decide_by_decided env plane action resource (remember_for plane action resource) g) as H.
  destruct (run env _ g) as [[res g'] prompts]. right. right. split_and!; try done.
  intros [?|[?|[_ [?|[?|?]]]]]; tauto || done.
Qed.

(** C1: the precedence of a resource check, complete.  It passes silently, leaving the tables
    alone, exactly when the model is [danger], or a configured rule allows, or the rules leave it
    open and the model is [allow], the call was authorised (never for an outside directory), or a
    remembered grant of this plane's scope covers the resource; an explicit deny is final in every
    model but [danger]; in every other case exactly one party answers, the interceptors before the
    human, the human is asked at most once, and only "allow always" changes the tables, by exactly
    the one grant [remember_for] names. *)
Theorem assert_precedence env plane action resource g :
  let '(res, g', prompts) := run env (assert_ plane action resource) g in
  let verdict := rules_evaluate (snapshot plane) action resource in
  let danger := invocation_model plane = Some PermissionModel.Danger in
  (silently_allowed g plane action resource /\ res = inl tt /\ g' = g /\ prompts = [])
  \/ (~ danger /\ verdict = Mode.Deny
      /\ res = inr (PermissionError.Denied action resource None) /\ g' = g /\ prompts = [])
  \/ (~ danger /\ verdict = Mode.Ask /\ ~ silently_allowed g plane action resource
      /\ decided env plane action resource (remember_for plane action resource) g res g' prompts).
Proof. exact (assert_cases env plane action resource g). Qed.
End precedence.

(** ** Remembered directories (ADR-0026) *)

Section directories.
Context {U : UuidLib} {R : RegexLib} {Hook : Type}.
Implicit Types (g : Grants U) (plane : PermissionPlane U R Hook).

Lemma covered_add g g' fact plane action resource :
  (forall fact', holds g' fact' <-> holds g fact' \/ fact' = fact) ->
  covered g' plane action resource <-> covered g plane action resource \/ covers plane action resource fact.
Proof. intros H. unfold covered. setoid_rewrite H. naive_solver. Qed.

Lemma covers_directory plane action resource scope pattern :
  pattern <> "*" ->
  covers plane action resource (FScoped scope (mkRule Action.ExternalDirectory pattern Mode.Allow))
  <-> action = Action.ExternalDirectory /\ grant_scope plane = Some scope
      /\ grant_directory pattern = grant_directory (Resource.pattern resource).
Proof.
  intros Hp. simpl. unfold grant_covers, external_directory_grant_matches. split.
  - intros (Hs & p & [= <- <-] & Hc). rewrite decide_True in Hc by done.
    rewrite bool_decide_eq_false_2 in Hc by done.
    by apply bool_decide_eq_true in Hc.
  - intros (-> & Hs & Hd). split; [done|]. exists pattern. split; [done|].
    rewrite decide_True by done. apply orb_true_iff. right. by apply bool_decide_eq_true.
Qed.

Lemma grant_directory_Some p d :
  grant_directory p = d -> p = (d +:+ "/*")%string \/ p = d \/ d = "/" /\ p = "/*".
Proof.
  unfold grant_directory. destruct (strip_suffix "/*" p) as [s|] eqn:E; [|auto].
  apply strip_suffix_Some in E. subst p. destruct s; intros <-; auto.
Qed.

(** one check of an outside directory [d], whatever its answer, opens nothing but that directory,
    and only in the scope that asked: whatever any plane, in any scope, is covered for afterwards
    it was covered for before, unless it is a check of the resource that names exactly [d] by a
    plane of the same scope (no subdirectory, no parent, no [*] in a path read as a wildcard).  When
    the human answered "allow always", every such check is covered from then on. *)
Theorem directory_grant_exact env plane scope d resource g plane' action' resource' :
  grant_scope plane = Some scope -> d <> "" -> Resource.pattern resource = (d +:+ "/*")%string ->
  let '(res, g', prompts) := run env (assert_ plane Action.ExternalDirectory resource) g in
  let target := Resource.pattern resource' in
  (covered g' plane' action' resource' ->
     covered g plane' action' resource'
     \/ action' = Action.ExternalDirectory /\ grant_scope plane' = Some scope
        /\ (target = (d +:+ "/*")%string \/ target = d \/ d = "/" /\ target = "/*"))
  /\ ((exists req, prompts = [req] /\ env_human env req = Some Decision.AllowAlways) ->
      action' = Action.ExternalDirectory -> grant_scope plane' = Some scope ->
      target = (d +:+ "/*")%string -> covered g' plane' action' resource').
Proof.
  intros Hscope Hd Hpat. assert (Resource.pattern resource <> "*") as Hstar.
  { rewrite Hpat. destruct d as [|c [|c' d]]; [done|by intros [=]..]. }
  pose proof (assert_cases env plane Action.ExternalDirectory resource g) as H.
  destruct (run env _ g) as [[res g'] prompts]. cbv zeta in *.
  destruct H as [(_ & _ & -> & ->)|[(_ & _ & _ & -> & ->)|(_ & _ & _ & answer & Hby & Heff)]];
    [split; [by left|by intros (? & ? & _)]..|].
  unfold remember_for in *. rewrite decide_True, Hscope in * by done.
  unfold answer_effect in Heff. split.
  - intros Hcov. destruct answer as [[| |feedback]|]; destruct Heff as [_ Heff]; subst; auto.
    apply (covered_add _ _ _ _ _ _ Heff) in Hcov as [?|Hcov]; [by left|]. right.
    apply covers_directory in Hcov as (-> & Hs & Hdir); [|done]. split_and!; try done.
    rewrite Hpat, grant_directory_dir in Hdir by done. by apply grant_directory_Some.
  - intros (req & -> & Hreq) -> Hs Ht. unfold answered_by in Hby.
    destruct (interceptor plane ≫= _) as [x|]; [by destruct Hby|].
    destruct Hby as (req' & [= <-] & -> & _). rewrite Hreq in Heff. destruct Heff as [_ Heff].
    apply (covered_add _ _ _ _ _ _ Heff). right. apply covers_directory; [done|].
    by rewrite Hpat, Ht.
Qed.
End directories.

(** ** Authorised calls *)

Section calls.
Context {U : UuidLib} {R : RegexLib} {Hook : Type}.
Implicit Types (g : Grants U) (plane : PermissionPlane U R Hook).

(** the outcome of an invocation check, complete.  Without a policy the plane comes back as it
    is.  With one, the call is refused exactly on a deny verdict or a refusal, and authorised on an
    allow verdict, on an ask about a subject already granted, or on a positive answer; only the
    answer "allow always" changes the tables, by exactly the subject asked about. *)
Theorem authorize_outcome env plane invocation g :
  let '(res, g', prompts) := run env (authorize plane invocation) g in
  match invocation_policy plane with
  | None => res = inl plane /\ g' = g /\ prompts = []
  | Some policy =>
      let d := evaluate policy invocation in
      let '(action, resource) := subject_permission (id_subject d) in
      (res = inl (authorized plane) /\ g' = g /\ prompts = []
       /\ (id_mode d = Mode.Allow \/ id_mode d = Mode.Ask /\ id_subject d ∈ g_native g))
      \/ (id_mode d = Mode.Deny /\ res = inr (PermissionError.Denied action resource None)
          /\ g' = g /\ prompts = [])
      \/ (id_mode d = Mode.Ask /\ id_subject d ∉ g_native g
          /\ exists checked,
             decided env plane action resource (RememberScope.Exact (id_subject d)) g checked g' prompts
             /\ res = match checked with inl _ => inl (authorized plane) | inr e => inr e end)
  end.
Proof.
  unfold authorize. destruct (invocation_policy plane) as [policy|]; [|done]. cbv zeta.
  destruct (subject_permission _) as [action resource].
  destruct (id_mode _) eqn:Hm; [by left; auto| |by right; left].
  cbn [read_grants run mbind prog_mbind prog_bind]. unfold id at 1.
  destruct (decide (id_subject _ ∈ g_native g)) as [Hin|Hin];
    [cbn; left; split_and!; try done; by right|].
  change (prog_bind ?f ?p) with (p ≫= f). rewrite run_bind.
  pose proof (decide_by_decided env plane action resource
    (RememberScope.Exact (id_subject (evaluate policy invocation))) g) as H.
  change (id g) with g. destruct (run env (decide_by _ _ _ _) g) as [[res g'] prompts].
  cbn. rewrite app_nil_r. right. right. split_and!; try done. by exists res.
Qed.

(** what an authorised call may then do without asking: every resource check of the call passes
    silently unless a configured rule denies it, except a check of an outside directory, which
    behaves exactly as if the call had not been authorised. *)
Theorem authorized_call_reach env plane action resource g :
  run env (assert_ (authorized plane) action resource) g
  = if decide (action = Action.ExternalDirectory) then run env (assert_ plane action resource) g
    else (if decide (invocation_model plane <> Some PermissionModel.Danger
                     /\ rules_evaluate (snapshot plane) action resource = Mode.Deny)
          then inr (PermissionError.Denied action resource None) else inl tt, g, []).
Proof.
  unfold assert_. change (invocation_model (authorized plane)) with (invocation_model plane).
  change (snapshot (authorized plane)) with (snapshot plane).
  change (consult_grants (authorized plane)) with (consult_grants plane).
  destruct (decide (invocation_model plane = Some PermissionModel.Danger)) as [Hd|Hd].
  { case_decide; [done|]. rewrite decide_False by tauto. done. }
  destruct (rules_evaluate _ _ _) eqn:Hv.
  - case_decide; [done|]. rewrite decide_False by (intros [_ ?]; done). done.
  - destruct (decide (invocation_model plane = Some PermissionModel.Allow)); [|].
    { case_decide; [done|]. rewrite decide_False by (intros [_ ?]; done). done. }
    destruct (decide (action = Action.ExternalDirectory)) as [Ha|Ha].
    + by rewrite !decide_False by tauto.
    + rewrite decide_True by done. rewrite decide_False by (intros [_ ?]; done). done.
  - case_decide; [done|]. by rewrite decide_True.
Qed.
End calls.

(** ** Saved rows *)

Section rows.
Context {U : UuidLib} {R : RegexLib} {Hook : Type}.
Implicit Types g : Grants U.

Lemma parse_action_name action : parse_action (action_name action) = Some action.
Proof. by destruct action. Qed.

Lemma parse_action_Some name action : parse_action name = Some action -> name = action_name action.
Proof. by intros [_ <-]%find_first_Some. Qed.

Definition removes (f : Grants U -> Grants U) (fact : Fact) : Prop :=
  forall g fact', holds (f g) fact' <-> holds g fact' /\ fact' <> fact.

Lemma retain_other_elem action pattern rules rule :
  rule ∈ retain_other action pattern rules
  <-> rule ∈ rules /\ rule <> mkRule action pattern Mode.Allow.
Proof.
  unfold retain_other, is_allow. rewrite list_elem_of_filter. destruct rule as [a p m]. simpl.
  naive_solver.
Qed.

Lemma removes_native subject :
  removes (fun g => g <| g_native ::= fun s => s ∖ {[subject]} |>) (FNative subject).
Proof.
  intros g [s|rule|scope rule]; simpl; [|naive_solver..].
  rewrite elem_of_difference, elem_of_singleton. naive_solver.
Qed.

Lemma removes_persistent action pattern :
  removes (fun g => g <| g_persistent ::= retain_other action pattern |>)
          (FPersistent (mkRule action pattern Mode.Allow)).
Proof.
  intros g [s|rule|scope rule]; simpl; [naive_solver| |naive_solver].
  rewrite retain_other_elem. naive_solver.
Qed.

Lemma removes_scoped scope action pattern :
  removes (remove_scoped scope action pattern) (FScoped scope (mkRule action pattern Mode.Allow)).
Proof.
  intros g fact'. unfold remove_scoped.
  destruct (g_scoped g !! scope) as [rules|] eqn:E.
  2: { split; [|tauto]. intros H. split; [done|]. intros ->. simpl in H.
       destruct H as (rules & Hr & _). congruence. }
  pose proof (retain_other_elem action pattern rules) as Hrest.
  destruct (retain_other action pattern rules) as [|rule0 rest];
    (destruct fact' as [s|rule|scope' rule]; simpl; [naive_solver..|]);
    (destruct (decide (scope = scope')) as [<-|Hne];
      [rewrite ?lookup_delete_eq, ?lookup_insert_eq, E|
       rewrite ?lookup_delete_ne, ?lookup_insert_ne by done; naive_solver]).
  - split; [by intros (? & ? & ?)|]. intros [(? & [= <-] & Hin) Hne].
    exfalso. apply (not_elem_of_nil rule), Hrest. naive_solver.
  - split.
    + intros (? & [= <-] & Hin). apply Hrest in Hin as [Hin Hne]. naive_solver.
    + intros [(? & [= <-] & Hin) Hne]. eexists. split; [done|]. apply Hrest. naive_solver.
Qed.

(** installing a saved row adds exactly the grant the row stands for, and uninstalling it
    removes exactly that grant: no other grant of any table, Project or session appears or goes.  A
    row with an unknown action is not restored and changes nothing. *)
Theorem install_uninstall (env : Env (Hook := Hook)) row g :
  let '(installed, g1, prompts1) := run env (install row) g in
  let '(_, g2, prompts2) := run env (uninstall row) g in
  prompts1 = [] /\ prompts2 = [] /\
  match parse_action (sp_action row) with
  | None => installed = false /\ g1 = g /\ g2 = g
  | Some action =>
      let fact := restored_fact (sp_project_id row) action (sp_resource row) in
      installed = true
      /\ (forall fact', holds g1 fact' <-> holds g fact' \/ fact' = fact)
      /\ (forall fact', holds g2 fact' <-> holds g fact' /\ fact' <> fact)
  end.
Proof.
  unfold install, uninstall, restored_fact, grant_saved, revoke_saved.
  destruct (parse_action _) as [action|]; [|done]. cbv zeta.
  destruct (decide (sp_project_id row = GLOBAL_PROJECT)); [destruct (saved_subject _ _)|];
    cbn; split_and!; try done; intros fact'.
  - apply adds_native.
  - apply removes_native.
  - apply adds_persistent.
  - apply removes_persistent.
  - apply adds_scoped.
  - apply removes_scoped.
Qed.

(** The remembered answers whose saved row stands for the same grant. *)
Definition faithful_row (action : Action.t) (remember : RememberScope.t) : Prop :=
  match remember with
  | RememberScope.LegacyAction => True
  | RememberScope.Exact subject => (subject_permission subject).1 = action /\ es_value subject <> "*"
  | RememberScope.Scoped _ (Some (GrantScope.Project project)) => project <> GLOBAL_PROJECT
  | RememberScope.Scoped _ _ => True
  end.

Lemma saved_subject_exact subject :
  es_value subject <> "*" ->
  saved_subject (subject_permission subject).1 (es_value subject) = Some subject.
Proof. intros Hv. unfold saved_subject. rewrite decide_False by done. by destruct subject as [[] v]. Qed.

Lemma restored_is_remembered action remember project_id resource :
  faithful_row action remember -> saved_row remember = Some (project_id, resource) ->
  restored_fact project_id action resource = remembered_fact action remember.
Proof.
  intros Hf Hrow. unfold restored_fact.
  destruct remember as [|subject|pattern [[project|s]|]]; simplify_eq/=; try done.
  - destruct Hf as [<- Hv]. unfold RememberScope.pattern. by rewrite saved_subject_exact.
  - by rewrite decide_False.
Qed.

(** an "allow always" answer outlives a restart.  Its saved row, installed on the fresh tables
    of the next run, is the grant the live answer made, for a whole action, an exact subject or a
    Project's directory; a directory remembered for a session, or for no scope, is not saved.  The
    exact subject [*] is excepted: its row reads as a whole-action grant. *)
Theorem remembered_after_restart (env : Env (Hook := Hook)) request_id action resource remember g :
  faithful_row action remember ->
  match remember_row request_id action remember with
  | None => exists pattern scope, remember = RememberScope.Scoped pattern scope
            /\ forall project, scope <> Some (GrantScope.Project project)
  | Some row =>
      let '(res, live, _) := run env (apply_decision action resource remember Decision.AllowAlways) g in
      let '(installed, restored, _) := run env (install row) g in
      installed = true /\ forall fact, holds live fact <-> holds restored fact
  end.
Proof.
  intros Hf. unfold remember_row. destruct (saved_row remember) as [[project_id pattern]|] eqn:Hrow;
    cbn [mbind option_bind].
  - destruct (run_apply_always env action resource remember g) as (f & Hadds & ->).
    unfold install. cbn [sp_action sp_project_id sp_resource]. rewrite parse_action_name, run_bind.
    pose proof (restored_is_remembered _ _ _ _ Hf Hrow) as Hr. unfold restored_fact in Hr.
    destruct (decide (project_id = GLOBAL_PROJECT)) as [->|Hne].
    + destruct (run_grant_saved env action pattern g) as (f' & Hadds' & ->). cbn.
      unfold restored_fact in Hadds'. rewrite decide_True, Hr in Hadds' by done.
      split; [done|]. intros fact. by rewrite (Hadds g fact), (Hadds' g fact).
    + cbn. split; [done|]. intros fact. rewrite (Hadds g fact), <- Hr. symmetry. apply adds_scoped.
  - destruct remember as [|subject|p [[project|s]|]]; try done; by eexists _, _.
Qed.
End rows.

(** ** A concrete plane *)

Module PlaneDemo.
#[local] Existing Instance literal_regex.

Definition request_id : PermissionRequestId (U := Demo.uuid_lib) :=
  from_uuid (Demo.Uuid128 7 eq_refl).
(** No interceptor is installed, and the human always answers "allow always". *)
Definition env : Env (U := Demo.uuid_lib) (Hook := Empty_set) :=
  mkEnv (fun _ _ _ _ => None) request_id (fun _ => Some Decision.AllowAlways).
Definition scope : GrantScope.t (U := Demo.uuid_lib) := GrantScope.Project "prj_a".
Definition plane : PermissionPlane Demo.uuid_lib literal_regex Empty_set :=
  with_grant_scope (new_inner [] None) scope.
Definition dir : Resource.t := Resource.Path "/outside/a/*".
Definition nested : Resource.t := Resource.Path "/outside/a/nested/*".
End PlaneDemo.

Lemma directory_grant_exact_witness :
  grant_scope PlaneDemo.plane = Some PlaneDemo.scope
  /\ Resource.pattern PlaneDemo.dir = ("/outside/a" +:+ "/*")%string
  /\ let '(res, g', prompts) :=
       run PlaneDemo.env (assert_ PlaneDemo.plane Action.ExternalDirectory PlaneDemo.dir) no_grants in
     ~ covered g' PlaneDemo.plane Action.ExternalDirectory PlaneDemo.nested.
Proof.
  split; [reflexivity|]. split; [reflexivity|].
  pose proof (directory_grant_exact PlaneDemo.env PlaneDemo.plane PlaneDemo.scope "/outside/a"
    PlaneDemo.dir no_grants PlaneDemo.plane Action.ExternalDirectory PlaneDemo.nested eq_refl
    ltac:(discriminate) eq_refl) as T.
  destruct (run _ _ _) as [[res g'] prompts]. destruct T as [T _]. intros Hc.
  destruct (T Hc) as [H0|(_ & _ & [H0|[H0|[H0 _]]])]; [|discriminate H0..].
  apply covered_spec in H0 as [H0|H0]; vm_compute in H0; discriminate.
Defined.

Lemma remembered_after_restart_witness :
  faithful_row (U := Demo.uuid_lib) Action.Bash
    (RememberScope.Exact (mkExactSubject PermissionTarget.Command "git status"))
  /\ let '(res, live, _) := run PlaneDemo.env (apply_decision Action.Bash (Resource.Command "git status")
         (RememberScope.Exact (mkExactSubject PermissionTarget.Command "git status"))
         Decision.AllowAlways) no_grants in
     let '(installed, restored, _) := run PlaneDemo.env
         (install (mkSavedPermission "psv_x" "global" "bash" "git status" None)) no_grants in
     installed = true /\ forall fact, holds live fact <-> holds restored fact.
Proof.
  assert (H : faithful_row (U := Demo.uuid_lib) Action.Bash
    (RememberScope.Exact (mkExactSubject PermissionTarget.Command "git status"))) by (split; done).
  split; [exact H|].
  exact (remembered_after_restart PlaneDemo.env "x" Action.Bash (Resource.Command "git status")
    (RememberScope.Exact (mkExactSubject PermissionTarget.Command "git status")) no_grants H).
Defined.

(** the row of an exact grant is not always the grant.  "Allow always" on the shell command [*]
    remembers that one command; its saved row, installed by the next run, lets every shell command
    pass a resource check, which the live answer did not, and removing the row while the plane that
    gave the answer is live leaves the live grant in place. *)
Theorem exact_star_row_widens :
  let remember := RememberScope.Exact (mkExactSubject PermissionTarget.Command "*") in
  let answer := apply_decision Action.Bash (Resource.Command "*") remember Decision.AllowAlways in
  let row := mkSavedPermission "psv_x" "global" "bash" "*" None in
  let live := (run PlaneDemo.env answer no_grants).1.2 in
  let restored := (run PlaneDemo.env (install row) no_grants).1.2 in
  let removed := (run PlaneDemo.env (uninstall row) live).1.2 in
  let anything := Resource.Command "rm -rf build" in
  remember_row "x" Action.Bash remember = Some row
  /\ ~ covered live PlaneDemo.plane Action.Bash anything
  /\ covered restored PlaneDemo.plane Action.Bash anything
  /\ mkExactSubject PermissionTarget.Command "*" ∈ g_native removed.
Proof.
  cbv zeta. split; [reflexivity|]. split; [|split].
  - rewrite covered_spec. intros [H|H]; vm_compute in H; discriminate.
  - rewrite covered_spec. left. vm_compute. reflexivity.
  - cbn. set_solver.
Qed.

(** * Interleaved permission checks

    Many tasks run over one set of grant tables: tool calls of different sessions check resources
    and invocations, while the host installs and revokes saved rows.  A configuration is the tables,
    the program every task has left, and the log of the answers given so far; [step] runs any one
    task up to its next suspension.  The safety theorem holds for every interleaving. *)

Section safety.
Context {U : UuidLib} {R : RegexLib} {Hook : Type}.
Implicit Types (g : Grants U) (plane : PermissionPlane U R Hook).

(** ** Tasks and configurations *)

Inductive Task :=
  | TAssert plane (action : Action.t) (resource : Resource.t)
  | TAuthorize plane (invocation : Invocation)
  | TInstall (row : SavedPermission)
  | TUninstall (row : SavedPermission).

Definition discard {A} (p : Prog U Hook A) : Prog U Hook unit := p ≫= fun _ => Done tt.

Definition program_of (task : Task) : Prog U Hook unit :=
  match task with
  | TAssert plane action resource => discard (assert_ plane action resource)
  | TAuthorize plane invocation => discard (authorize plane invocation)
  | TInstall row => discard (install row)
  | TUninstall row => uninstall row
  end.

(** One answer given to a task: by an interceptor or by the human. *)
Record Answer := mkAnswer {
  a_task : nat;
  a_action : Action.t;
  a_resource : Resource.t;
  a_decision : option Decision.t;
}.

Record Config := mkConfig {
  c_store : Grants U;
  c_tasks : list (Prog U Hook unit);
  c_log : list Answer;
}.

Definition start g (tasks : list Task) : Config := mkConfig g (program_of <$> tasks) [].

Inductive step : Config -> Config -> Prop :=
  | step_lock g tasks log i f k :
      tasks !! i = Some (Lock f k) ->
      step (mkConfig g tasks log) (mkConfig (f g) (<[i := k g]> tasks) log)
  | step_consult g tasks log i h s a r k d :
      tasks !! i = Some (Consult h s a r k) ->
      step (mkConfig g tasks log) (mkConfig g (<[i := k d]> tasks) (log ++ [mkAnswer i a r d]))
  | step_id g tasks log i k id :
      tasks !! i = Some (FreshId k) ->
      step (mkConfig g tasks log) (mkConfig g (<[i := k id]> tasks) log)
  | step_prompt g tasks log i req k d :
      tasks !! i = Some (Prompt req k) ->
      step (mkConfig g tasks log)
        (mkConfig g (<[i := k d]> tasks) (log ++ [mkAnswer i (ask_action req) (ask_resource req) d])).

Inductive reachable (c0 : Config) : Config -> Prop :=
  | reachable_refl : reachable c0 c0
  | reachable_step c c' : reachable c0 c -> step c c' -> reachable c0 c'.

Lemma reachable_l c0 c1 c : step c0 c1 -> reachable c1 c -> reachable c0 c.
Proof.
  intros Hs. induction 1; [|by eapply reachable_step]. eapply reachable_step; [constructor|done].
Qed.

(** ** What accounts for a grant *)

(** The grants a task may make once the answers [approved] were "allow always". *)
Definition accounts (approved : Action.t -> Resource.t -> Prop) (task : Task) (fact : Fact) : Prop :=
  match task with
  | TAssert plane action resource =>
      approved action resource /\ fact = remembered_fact action (remember_for plane action resource)
  | TAuthorize plane invocation =>
      exists policy subject, invocation_policy plane = Some policy
        /\ subject = id_subject (evaluate policy invocation)
        /\ approved (subject_permission subject).1 (subject_permission subject).2
        /\ fact = FNative subject
  | TInstall row =>
      exists action, parse_action (sp_action row) = Some action
        /\ fact = restored_fact (sp_project_id row) action (sp_resource row)
  | TUninstall _ => False
  end.

Definition answered_always (log : list Answer) (i : nat) action resource : Prop :=
  mkAnswer i action resource (Some Decision.AllowAlways) ∈ log.

Definition approve (ok : Action.t -> Resource.t -> Prop) action resource (d : option Decision.t) :
    Action.t -> Resource.t -> Prop :=
  fun a r => ok a r \/ a = action /\ r = resource /\ d = Some Decision.AllowAlways.

Lemma accounts_monotone task (ok ok' : Action.t -> Resource.t -> Prop) fact :
  (forall a r, ok a r -> ok' a r) -> accounts ok task fact -> accounts ok' task fact.
Proof. intros Hok. destruct task; simpl; naive_solver. Qed.

(** A program all of whose writes add only grants accounted for by the answers given before them,
    and whose result satisfies [post] of those answers: a logic of triples over programs. *)
Fixpoint obeys {A} (just : (Action.t -> Resource.t -> Prop) -> Fact -> Prop)
    (ok : Action.t -> Resource.t -> Prop) (p : Prog U Hook A)
    (post : (Action.t -> Resource.t -> Prop) -> A -> Prop) : Prop :=
  match p with
  | Done a => post ok a
  | Lock f k => forall g, (forall fact, holds (f g) fact -> holds g fact \/ just ok fact)
                          /\ obeys just ok (k g) post
  | Consult h s a r k => forall d, obeys just (approve ok a r d) (k d) post
  | FreshId k => forall id, obeys just ok (k id) post
  | Prompt req k =>
      forall d, obeys just (approve ok (ask_action req) (ask_resource req) d) (k d) post
  end.

Section obeys.
Context (just : (Action.t -> Resource.t -> Prop) -> Fact -> Prop).
Implicit Types ok : Action.t -> Resource.t -> Prop.

Lemma obeys_bind {A B} (p : Prog U Hook A) (f : A -> Prog U Hook B) ok post post' :
  obeys just ok p post -> (forall ok' a, post ok' a -> obeys just ok' (f a) post') ->
  obeys just ok (p ≫= f) post'.
Proof.
  revert ok. induction p as [a|u k IH|h s a r k IH|k IH|req k IH]; simpl; intros ok Hp Hf; eauto.
  intros g. destruct (Hp g) as [Hw Hk]. split; [done|]. by apply IH.
Qed.

Lemma obeys_weaken {A} (p : Prog U Hook A) ok (post post' : _ -> A -> Prop) :
  obeys just ok p post -> (forall ok' a, post ok' a -> post' ok' a) -> obeys just ok p post'.
Proof.
  revert ok. induction p as [a|u k IH|h s a r k IH|k IH|req k IH]; simpl; intros ok Hp Hw; eauto.
  intros g. destruct (Hp g). split; [done|]. by apply IH.
Qed.

Lemma obeys_read ok (post : (Action.t -> Resource.t -> Prop) -> Grants U -> Prop) :
  (forall g, post ok g) -> obeys just ok (read_grants (Hook := Hook)) post.
Proof. intros Hpost g. split; [by left|apply Hpost]. Qed.

Lemma obeys_write ok f fact (post : (Action.t -> Resource.t -> Prop) -> unit -> Prop) :
  adds f fact -> just ok fact -> post ok tt ->
  obeys just ok (write_grants (U := U) (Hook := Hook) f) post.
Proof. intros Hf Hj Hpost g. split; [|done]. intros fact' [?| ->]%Hf; auto. Qed.

(** After a chain of interceptors its answer is among those given. *)
Lemma obeys_intercept i s a r ok :
  obeys just ok (intercept (Hook := Hook) i s a r)
    (fun ok' d => forall a' r', approve ok a r d a' r' -> ok' a' r').
Proof.
  revert ok. induction i as [h|first IH1 next IH2]; intros ok; simpl; [auto|].
  eapply obeys_bind; [apply IH1|]. intros ok1 [d|] H1; [exact H1|].
  eapply obeys_weaken; [apply IH2|]. intros ok2 d H2 a' r' [Hok|Hd]; apply H2; [|by right].
  left. apply H1. by left.
Qed.

Lemma obeys_apply_decision ok action resource remember d :
  (d = Decision.AllowAlways -> just ok (remembered_fact action remember)) ->
  obeys just ok (apply_decision (Hook := Hook) action resource remember d) (fun _ _ => True).
Proof.
  intros Hj. destruct d as [| |feedback]; [done| |done].
  eapply obeys_bind with (post := fun _ _ => True); [|done]. specialize (Hj eq_refl).
  destruct remember as [|subject|pattern [scope|]];
    (eapply obeys_write; [|exact Hj|done]).
  - apply adds_legacy.
  - apply adds_native.
  - apply adds_scoped.
  - apply adds_persistent.
Qed.

Lemma obeys_decide_by ok plane action resource remember :
  (forall ok', ok' action resource -> just ok' (remembered_fact action remember)) ->
  obeys just ok (decide_by plane action resource remember) (fun _ _ => True).
Proof.
  intros Hj.
  assert (forall ok', obeys just ok' (ask plane action resource remember) (fun _ _ => True)) as Hask.
  { intros ok' id [d|]; [|done]. apply obeys_apply_decision. intros ->. apply Hj. by right. }
  unfold decide_by. destruct (interceptor plane) as [i|]; [|apply Hask].
  eapply obeys_bind; [apply obeys_intercept|]. intros ok' [d|] Hok; [|apply Hask].
  apply obeys_apply_decision. intros ->. apply Hj, Hok. by right.
Qed.
End obeys.

(** ** Every task obeys *)

Lemma obeys_program task ok :
  obeys (fun ok => accounts ok task) ok (program_of task) (fun _ _ => True).
Proof.
  destruct task as [plane action resource|plane invocation|row|row]; simpl;
    try (eapply obeys_bind with (post := fun _ _ => True); [|done]).
  - assert (forall ok, obeys (fun ok => accounts ok (TAssert plane action resource)) ok
      (decide_by plane action resource (remember_for plane action resource)) (fun _ _ => True)) as Hd.
    { intros ok'. apply obeys_decide_by. intros ok2 Hok. by split. }
    unfold assert_. case_decide; [done|]. destruct (rules_evaluate _ _ _); try done.
    do 2 (case_decide; [done|]). apply obeys_bind with (post := fun _ _ => True); [by apply obeys_read|].
    intros ok' g _. destruct (grants _ _ _); [done|]. destruct (grant_scope plane); [|apply Hd].
    apply obeys_bind with (post := fun _ _ => True); [by apply obeys_read|].
    intros ok2 g' _. destruct (scoped_grants _ _ _ _); [done|apply Hd].
  - unfold authorize. destruct (invocation_policy plane) as [policy|] eqn:Hp; [|done].
    destruct (subject_permission _) as [action resource] eqn:Hs. destruct (id_mode _); try done.
    apply obeys_bind with (post := fun _ _ => True); [by apply obeys_read|]. intros ok' g _.
    case_decide; [done|]. apply obeys_bind with (post := fun _ _ => True); [|done].
    apply obeys_decide_by. intros ok2 Hok. exists policy, (id_subject (evaluate policy invocation)).
    by rewrite Hs.
  - unfold install. destruct (parse_action _) as [action|] eqn:Ha; [|done].
    apply obeys_bind with (post := fun _ _ => True); [|done].
    assert (accounts ok (TInstall row) (restored_fact (sp_project_id row) action (sp_resource row)))
      as Hj by (by exists action).
    unfold restored_fact in Hj. case_decide; [|eapply obeys_write; [apply adds_scoped|exact Hj|done]].
    unfold grant_saved. destruct (saved_subject _ _);
      (eapply obeys_write; [|exact Hj|done]); [apply adds_native|apply adds_persistent].
  - unfold uninstall. destruct (parse_action _) as [action|]; [|done].
    assert (forall f fact, removes f fact -> obeys (fun ok => accounts ok (TUninstall row)) ok
              (write_grants f) (fun _ (_ : unit) => True)) as Hr.
    { intros f fact Hf g. split; [|done]. intros fact' Hh%Hf. left. apply Hh. }
    unfold revoke_saved. case_decide; [destruct (saved_subject _ _)|]; eapply Hr;
      [apply removes_native|apply removes_persistent|apply removes_scoped].
Qed.

Lemma obeys_mono task (p : Prog U Hook unit) (ok ok' : Action.t -> Resource.t -> Prop) :
  (forall a r, ok a r -> ok' a r) ->
  obeys (fun ok => accounts ok task) ok p (fun _ _ => True) ->
  obeys (fun ok => accounts ok task) ok' p (fun _ _ => True).
Proof.
  revert ok ok'. induction p as [a|f k IH|h s a r k IH|k IH|req k IH]; simpl;
    intros ok ok' Hok Hp; [done| | | |].
  - intros g. destruct (Hp g) as [Hw Hk]. split; [|eauto].
    intros fact Hf. destruct (Hw fact Hf); [by left|right; by eapply accounts_monotone].
  - intros d. eapply IH; [|apply Hp]. unfold approve. naive_solver.
  - intros id. by eapply IH.
  - intros d. eapply IH; [|apply Hp]. unfold approve. naive_solver.
Qed.

(** ** Every interleaving *)

Definition accounted g0 (tasks : list Task) (log : list Answer) (fact : Fact) : Prop :=
  holds g0 fact
  \/ exists i task, tasks !! i = Some task /\ accounts (answered_always log i) task fact.

Definition config_inv g0 (tasks : list Task) (c : Config) : Prop :=
  (forall fact, holds (c_store c) fact -> accounted g0 tasks (c_log c) fact)
  /\ forall i p, c_tasks c !! i = Some p -> exists task, tasks !! i = Some task
       /\ obeys (fun ok => accounts ok task) (answered_always (c_log c) i) p (fun _ _ => True).

Lemma accounted_log g0 tasks log log' fact :
  accounted g0 tasks log fact -> accounted g0 tasks (log ++ log') fact.
Proof.
  intros [?|(i & task & Ht & Ha)]; [by left|]. right. exists i, task. split; [done|].
  eapply accounts_monotone; [|exact Ha]. unfold answered_always. set_solver.
Qed.

(** Task [i] moves on to [p]; the log grows by [entries]. *)
Lemma config_inv_advance g0 tasks g progs log i task p g' entries :
  config_inv g0 tasks (mkConfig g progs log) -> tasks !! i = Some task ->
  (forall fact, holds g' fact -> holds g fact \/ accounts (answered_always log i) task fact) ->
  obeys (fun ok => accounts ok task) (answered_always (log ++ entries) i) p (fun _ _ => True) ->
  config_inv g0 tasks (mkConfig g' (<[i := p]> progs) (log ++ entries)).
Proof.
  intros [Hst Hob] Ht Hg Hp. split; simpl in *.
  - intros fact [Hh|Ha]%Hg; [by apply accounted_log, Hst|].
    apply accounted_log. right. by exists i, task.
  - intros j q [(<- & <- & _)|[Hne Hq]]%list_lookup_insert_Some; [by exists task|].
    destruct (Hob j q Hq) as (task' & Ht' & Ho). exists task'. split; [done|].
    eapply obeys_mono; [|exact Ho]. unfold answered_always. set_solver.
Qed.

Lemma approve_log log i action resource d a r :
  approve (answered_always log i) action resource d a r ->
  answered_always (log ++ [mkAnswer i action resource d]) i a r.
Proof.
  unfold approve, answered_always. rewrite elem_of_app, list_elem_of_singleton.
  intros [?|(-> & -> & ->)]; [by left|by right].
Qed.

Lemma config_inv_step g0 tasks c c' : config_inv g0 tasks c -> step c c' -> config_inv g0 tasks c'.
Proof.
  intros Hinv Hstep. destruct Hstep as [g progs log i f k Hi|g progs log i h s a r k d Hi
    |g progs log i k id Hi|g progs log i req k d Hi];
    destruct (proj2 Hinv i _ Hi) as (task & Ht & Ho); simpl in Ho.
  - rewrite <- (app_nil_r log). destruct (Ho g) as [Hw Hk].
    eapply config_inv_advance; try done. by rewrite app_nil_r.
  - eapply config_inv_advance; [done..|by left|]. eapply obeys_mono; [|apply Ho]. apply approve_log.
  - rewrite <- (app_nil_r log). eapply config_inv_advance; [done..|by left|]. by rewrite app_nil_r.
  - eapply config_inv_advance; [done..|by left|]. eapply obeys_mono; [|apply Ho]. apply approve_log.
Qed.

Lemma config_inv_start g0 tasks : config_inv g0 tasks (start g0 tasks).
Proof.
  split; simpl; [by left|]. intros i p Hp. rewrite list_lookup_fmap in Hp.
  destruct (tasks !! i) as [task|]; simplify_eq/=. exists task. split; [done|]. apply obeys_program.
Qed.

(** C2: no interleaving invents a grant.  However the checks of any number of calls and the host's
    writes of saved rows are interleaved, every grant the shared tables ever hold was there at the
    start, or stands for a saved row being installed, or is the one grant a check remembers, and
    then that very check was answered "allow always" for exactly its action and resource. *)
Theorem grants_accounted g0 tasks c :
  reachable (start g0 tasks) c ->
  forall fact, holds (c_store c) fact -> accounted g0 tasks (c_log c) fact.
Proof.
  intros Hr. cut (config_inv g0 tasks c); [by intros []|].
  induction Hr as [|c c' _ IH Hstep]; [apply config_inv_start|by eapply config_inv_step].
Qed.
End safety.

(** A session checks an outside directory while the host restores a row; the check is answered
    "allow always". *)
Module SafetyDemo.
#[local] Existing Instance literal_regex.
Definition row : SavedPermission := mkSavedPermission "psv_w" "global" "webfetch" "*" None.
Definition tasks : list (Task (U := Demo.uuid_lib) (R := literal_regex) (Hook := Empty_set)) :=
  [TAssert PlaneDemo.plane Action.ExternalDirectory PlaneDemo.dir; TInstall row].
End SafetyDemo.

Lemma grants_accounted_witness :
  exists c, reachable (start no_grants SafetyDemo.tasks) c
    /\ c_log c = [mkAnswer 0 Action.ExternalDirectory PlaneDemo.dir (Some Decision.AllowAlways)]
    /\ holds (c_store c) (FScoped PlaneDemo.scope
         (mkRule Action.ExternalDirectory "/outside/a/*" Mode.Allow))
    /\ forall fact, holds (c_store c) fact -> accounted no_grants SafetyDemo.tasks (c_log c) fact.
Proof.
  cut (exists c, reachable (start no_grants SafetyDemo.tasks) c
    /\ c_log c = [mkAnswer 0 Action.ExternalDirectory PlaneDemo.dir (Some Decision.AllowAlways)]
    /\ holds (c_store c) (FScoped PlaneDemo.scope
         (mkRule Action.ExternalDirectory "/outside/a/*" Mode.Allow))).
  { intros (c & Hr & Hlog & Hh). exists c. split_and!; [exact Hr|exact Hlog|exact Hh|].
    exact (grants_accounted _ _ _ Hr). }
  eexists. split; [|split].
  - eapply reachable_l; [eapply (step_lock _ _ _ 0); reflexivity|].
    eapply reachable_l; [eapply (step_lock _ _ _ 1); reflexivity|].
    eapply reachable_l; [eapply (step_lock _ _ _ 0); reflexivity|].
    eapply reachable_l; [eapply (step_id _ _ _ 0 _ PlaneDemo.request_id); reflexivity|].
    eapply reachable_l; [eapply (step_prompt _ _ _ 0 _ _ (Some Decision.AllowAlways)); reflexivity|].
    eapply reachable_l; [eapply (step_lock _ _ _ 0); reflexivity|]. apply reachable_refl.
  - reflexivity.
  - cbn. eexists. split; [reflexivity|]. left.
Defined.
