(* ===== verification/Identity.v ===== *)
(** * Semantic identity of a permission plane ([semantic_identity_v1], [hya-tool/src/permission.rs])

    The bytes the identity hashes: a domain tag, the configured rules, the compiled policy and the
    interceptor's own identity.  Byte strings are [string]s; lengths are eight big-endian bytes.
    SHA-256 and the identities of external interceptors are parameters. *)

From S2P Require Import Prelude RustStr Platform Ids Permission PermissionPlane.

(** ** Encoders *)

Definition action_code (action : Action.t) : N :=
  match action with
  | Action.Tool => 0 | Action.Read => 1 | Action.Edit => 2 | Action.Glob => 3 | Action.Grep => 4
  | Action.Bash => 5 | Action.Task => 6 | Action.Mcp => 7 | Action.WebFetch => 8
  | Action.WebSearch => 9 | Action.TodoWrite => 10 | Action.Skill => 11 | Action.Lsp => 12
  | Action.ExternalDirectory => 13
  end.
Definition append_action (bytes : string) (action : Action.t) : string :=
  bytes +:+ byte (action_code action).

Definition mode_code (mode : Mode.t) : N :=
  match mode with Mode.Allow => 0 | Mode.Ask => 1 | Mode.Deny => 2 end.
Definition append_mode (bytes : string) (mode : Mode.t) : string := bytes +:+ byte (mode_code mode).

Definition model_code (model : PermissionModel.t) : N :=
  match model with
  | PermissionModel.Allow => 0 | PermissionModel.Default => 1
  | PermissionModel.Strict => 2 | PermissionModel.Danger => 3
  end.
Definition append_permission_model (bytes : string) (model : PermissionModel.t) : string :=
  bytes +:+ byte (model_code model).

Definition target_code (target : PermissionTarget.t) : N :=
  match target with
  | PermissionTarget.Tool => 0 | PermissionTarget.Mcp => 1 | PermissionTarget.Command => 2
  end.
Definition append_permission_target (bytes : string) (target : PermissionTarget.t) : string :=
  bytes +:+ byte (target_code target).

Definition append_rule (bytes : string) (rule : Rule) : option string :=
  bytes ← append_bytes (append_action bytes (r_action rule)) (r_resource_pattern rule);
  Some (append_mode bytes (r_mode rule)).

Definition append_permission_rules (bytes : string) (rules : PermissionRules) : option string :=
  bytes ← append_count bytes (length rules); append_each append_rule bytes rules.

Section identity.
Context {U : UuidLib} {R : RegexLib} {Hook : Type}.
(** SHA-256, and the identity an external interceptor reports. *)
Context (sha256 : string -> string) (hook_identity : Hook -> option string).
Implicit Types plane : PermissionPlane U R Hook.

Definition append_compiled_rule (bytes : string) (rule : CompiledInvocationRule) : option string :=
  let bytes := append_permission_target bytes (cr_target rule) in
  bytes ← append_bytes bytes (regex_as_str (cr_selector rule));
  Some (append_mode bytes (cr_permission rule)).

Definition append_policy (bytes : string) (policy : option InvocationPolicy) : option string :=
  match policy with
  | None => Some (bytes +:+ byte 0)
  | Some policy =>
      let bytes := append_permission_model (bytes +:+ byte 1) (ip_model policy) in
      bytes ← append_count bytes (length (ip_rules policy));
      append_each append_compiled_rule bytes (ip_rules policy)
  end.

Definition INTERCEPTOR_CHAIN_DOMAIN : string := "hya.permission.interceptor-chain/v1".
Definition PERMISSION_SEMANTIC_IDENTITY_DOMAIN_V1 : string := "hya.permission.semantic-identity/v1".

Fixpoint interceptor_identity (i : Interceptor Hook) : option string :=
  match i with
  | External hook => hook_identity hook
  | PrependInterceptor first next =>
      first ← interceptor_identity first;
      bytes ← append_bytes INTERCEPTOR_CHAIN_DOMAIN first;
      next ← interceptor_identity next;
      bytes ← append_bytes bytes next;
      Some (sha256 bytes)
  end.

Definition append_interceptor_identity (bytes : string) (i : option (Interceptor Hook)) : option string :=
  match i with
  | None => Some (bytes +:+ byte 0)
  | Some i =>
      identity ← interceptor_identity i;
      append_bytes (bytes +:+ byte 1) identity
  end.

(** The bytes [semantic_identity_v1] hashes. *)
Definition semantic_preimage plane : option string :=
  bytes ← append_permission_rules PERMISSION_SEMANTIC_IDENTITY_DOMAIN_V1 (snapshot plane);
  bytes ← append_policy bytes (invocation_policy plane);
  append_interceptor_identity bytes (interceptor plane).

Definition semantic_identity_v1 plane : option string := sha256 <$> semantic_preimage plane.
End identity.

(** ** The encoders *)

Ltac code_table := apply byte_code; [by intros [] []|by intros []].

Lemma action_code_code : code (fun b x => Some (append_action b x)) id.
Proof. code_table. Qed.
Lemma mode_code_code : code (fun b x => Some (append_mode b x)) id.
Proof. code_table. Qed.
Lemma model_code_code : code (fun b x => Some (append_permission_model b x)) id.
Proof. code_table. Qed.
Lemma target_code_code : code (fun b x => Some (append_permission_target b x)) id.
Proof. code_table. Qed.

Lemma rule_code : code append_rule id.
Proof.
  eapply code_view, code_ext; [| |exact (pair_code (A := Rule) _ _ _ _
    (fun rule => rule) r_mode
    (pair_code (A := Rule) _ _ _ _ r_action r_resource_pattern action_code_code bytes_code)
    mode_code_code)].
  - intros [? ? ?] [? ? ?]. unfold id. simpl. congruence.
  - intros b rule. unfold append_rule. simpl. by destruct (append_bytes _ _).
Qed.

Section injective.
Context {U : UuidLib} {R : RegexLib} {Hook : Type}.
Context (sha256 : string -> string) (hook_identity : Hook -> option string).

(** A compiled rule seen through the source text of its selector. *)
Definition rule_source (rule : CompiledInvocationRule) : PermissionTarget.t * string * Mode.t :=
  (cr_target rule, regex_as_str (cr_selector rule), cr_permission rule).
Definition policy_source (policy : InvocationPolicy) :=
  (ip_model policy, rule_source <$> ip_rules policy).

Lemma compiled_rule_code : code append_compiled_rule rule_source.
Proof.
  eapply code_view, code_ext; [| |exact (pair_code (A := CompiledInvocationRule) _ _ _ _
    (fun rule => rule) cr_permission
    (pair_code (A := CompiledInvocationRule) _ _ _ _ cr_target (fun r => regex_as_str (cr_selector r))
       target_code_code bytes_code) mode_code_code)].
  - intros [? ? ?] [? ? ?]. unfold rule_source, id. simpl. congruence.
  - intros b rule. unfold append_compiled_rule. simpl. by destruct (append_bytes _ _).
Qed.

Lemma some_policy_code :
  code (fun b policy => let bytes := append_permission_model b (ip_model policy) in
          bytes ← append_count bytes (length (ip_rules policy));
          append_each append_compiled_rule bytes (ip_rules policy)) policy_source.
Proof.
  exact (pair_code (A := InvocationPolicy) _ _ _ _ ip_model ip_rules model_code_code
           (list_code _ _ compiled_rule_code)).
Qed.

Definition optional_bytes (i : option (Interceptor Hook)) : option (option string) :=
  match i with
  | None => Some None
  | Some i => Some <$> interceptor_identity sha256 hook_identity i
  end.

Lemma append_interceptor_identity_spec b i :
  append_interceptor_identity sha256 hook_identity b i
  = (identity ← optional_bytes i;
     match identity with None => Some (b +:+ byte 0) | Some x => append_bytes (b +:+ byte 1) x end).
Proof. destruct i as [i|]; [|done]. simpl. by destruct (interceptor_identity _ _ i). Qed.

(** The whole encoding, of the rules, the policy and the interceptor's identity. *)
Definition encode (b : string) (x : PermissionRules * option InvocationPolicy * option string) :
    option string :=
  b ← (b ← append_permission_rules b x.1.1; append_policy b x.1.2);
  match x.2 with None => Some (b +:+ byte 0) | Some i => append_bytes (b +:+ byte 1) i end.

Lemma encode_code : code encode (fun x => (x.1.1, policy_source <$> x.1.2, x.2)).
Proof.
  eapply code_view, code_ext; [| |exact (pair_code
    (A := PermissionRules * option InvocationPolicy * option string) _ _ _ _ fst snd
    (pair_code (A := PermissionRules * option InvocationPolicy) _ _ _ _ fst snd
      (list_code _ _ rule_code) (option_code _ _ some_policy_code))
    (option_code _ _ bytes_code))].
  - intros [[r1 p1] i1] [[r2 p2] i2]. simpl. rewrite !list_fmap_id, !option_fmap_id. congruence.
  - intros b [[rules policy] i]. done.
Qed.

Lemma semantic_preimage_encode (plane : PermissionPlane U R Hook) :
  semantic_preimage sha256 hook_identity plane
  = (i ← optional_bytes (interceptor plane);
     encode PERMISSION_SEMANTIC_IDENTITY_DOMAIN_V1 (snapshot plane, invocation_policy plane, i)).
Proof.
  unfold semantic_preimage, encode. simpl.
  destruct (append_permission_rules _ _) as [b|]; simpl; [|by destruct (optional_bytes _)].
  destruct (append_policy _ _) as [b'|]; simpl; [|by destruct (optional_bytes _)].
  apply append_interceptor_identity_spec.
Qed.

(** the hashed bytes determine the policy.  Two planes whose identities hash the same bytes have
    the same configured rules in the same order, the same invocation model and the same selectors,
    targets and modes, and interceptors of the same identity: no field can run into the next one. *)
Theorem semantic_preimage_injective (p1 p2 : PermissionPlane U R Hook) bytes :
  semantic_preimage sha256 hook_identity p1 = Some bytes ->
  semantic_preimage sha256 hook_identity p2 = Some bytes ->
  snapshot p1 = snapshot p2
  /\ policy_source <$> invocation_policy p1 = policy_source <$> invocation_policy p2
  /\ optional_bytes (interceptor p1) = optional_bytes (interceptor p2).
Proof.
  rewrite !semantic_preimage_encode. destruct encode_code as [_ Hcode].
  destruct (optional_bytes (interceptor p1)) as [i1|]; [|done].
  destruct (optional_bytes (interceptor p2)) as [i2|]; [|done]. simpl. intros H1 H2.
  destruct (Hcode _ _ _ _ _ _ "" "" H1 H2 eq_refl eq_refl) as (_ & Hv & _). by simplify_eq/=.
Qed.
End injective.

Module IdentityDemo.
#[local] Existing Instance literal_regex.
Definition plane : PermissionPlane Demo.uuid_lib literal_regex string :=
  mkPermissionPlane [mkRule Action.Bash "git *" Mode.Allow; mkRule Action.Edit "*" Mode.Deny]
    (InvocationPolicy_compile PermissionModel.Strict [mkInvocationRule PermissionTarget.Tool "^bash$" Mode.Deny])
    None None None None false (Some (External "mode")).
(** The same policy, derived for a Project. *)
Definition derived := with_grant_scope plane (GrantScope.Project "prj_a").
Definition bytes : string := default "" (semantic_preimage id Some plane).
End IdentityDemo.

Lemma semantic_preimage_injective_witness :
  semantic_preimage id Some IdentityDemo.plane = Some IdentityDemo.bytes
  /\ semantic_preimage id Some IdentityDemo.derived = Some IdentityDemo.bytes
  /\ optional_bytes id Some (interceptor IdentityDemo.plane)
     = optional_bytes id Some (interceptor IdentityDemo.derived).
Proof.
  assert (H1 : semantic_preimage id Some IdentityDemo.plane = Some IdentityDemo.bytes)
    by (vm_compute; reflexivity).
  assert (H2 : semantic_preimage id Some IdentityDemo.derived = Some IdentityDemo.bytes)
    by (vm_compute; reflexivity).
  split; [exact H1|]. split; [exact H2|].
  exact (proj2 (proj2 (semantic_preimage_injective id Some IdentityDemo.plane IdentityDemo.derived
    IdentityDemo.bytes H1 H2))).
Defined.
