(* ===== verification/Pending.v ===== *)
(** * The queue of pending asks, and what it promises

    The operations of the queue, and theorems about them: whom a reply answers and with what, that every ask
    is answered at most once whatever operations run in whatever order, and that no ask of a tree
    switched to [yolo] is left waiting. *)

From stdpp Require Import gmap sorting.
From S2P Require Import Prelude RustStr Platform Ids Scope Wire Workflow Usage Events Team Projection Permission PermissionPlane.

(** * The queue of pending permission asks ([hya-server/src/pending/permission.rs],
    [hya-store/src/interaction.rs], [hya-store/src/permission.rs])

    The server holds every ask of the permission plane until a client answers it, with a durable
    row beside it.  A request id stands for the ask's oneshot: [q_answers] holds what was sent
    through it.  The map of pending asks is iterated in id order ([btree_list]).  The display view
    of an ask (its JSON payload, the tool call it is correlated with) does not influence any answer
    and is left out; whether a store call succeeds, whether an asker still waits and what the
    projections say are the environment of an operation. *)

Module PermissionReply.
Inductive t := Once | Always | Reject.
#[global] Instance eq_dec : EqDecision t.
Proof. solve_decision. Defined.
End PermissionReply.

Section queue.
Context {U : UuidLib} {J : JsonLib}.

(** ** State *)

(** [PendingPermission] without its view; the oneshot is known by the request id. *)
Record PendingPermission := mkPendingPermission {
  pp_session : option SessionId;
  pp_action : Action.t;
  pp_resource : Resource.t;
  pp_remember : RememberScope.t;
}.

(** A row of [pending_interaction]; [pi_resolved] is [resolved_at IS NOT NULL]. *)
Record PendingInteraction := mkPendingInteraction {
  pi_session : option SessionId;
  pi_kind : string;
  pi_resolved : bool;
}.
#[global] Instance PendingInteraction_eta : EtaRecord PendingInteraction :=
  fun r => mkPendingInteraction (pi_session r) (pi_kind r) (pi_resolved r).

(** A row of [pending_interaction_reply], its payload decoded. *)
Record PendingInteractionReply := mkPendingInteractionReply {
  pr_kind : string;
  pr_reply : PermissionReply.t;
  pr_message : option string;
  pr_session : SessionId;
}.

(** What the bridge publishes. *)
Inductive Published :=
  | Asked (id : string) (entry : PendingPermission)
  | Replied (session : option SessionId) (id : string) (reply : PermissionReply.t).

Record Queue := mkQueue {
  q_inner : gmap string PendingPermission;
  q_answers : gmap string Decision.t;
  q_rows : gmap string PendingInteraction;
  q_replies : gmap string PendingInteractionReply;
  q_saved : gmap string SavedPermission;
  q_published : list Published;
}.
#[global] Instance Queue_eta : EtaRecord Queue := fun r =>
  mkQueue (q_inner r) (q_answers r) (q_rows r) (q_replies r) (q_saved r) (q_published r).

Definition empty_queue : Queue := mkQueue ∅ ∅ ∅ ∅ ∅ [].

(** What an operation finds outside: which store calls succeed, which askers still wait for their
    oneshot, and the folded projections ([None]: the read failed). *)
Record StoreEnv := mkStoreEnv {
  save_ok : bool;
  list_ok : bool;
  queue_ok : bool;
  resolve_ok : bool;
  remember_ok : bool;
  waiting : string -> bool;
  projection_of : SessionId -> option Projection;
}.

Inductive StoreError := StoreFailed.

(** ** Lineage *)

(** The loop of [lineage_root], at most [fuel] parents up. *)
Fixpoint lineage_loop (env : StoreEnv) (fuel : nat) (current : SessionId) : option SessionId :=
  match fuel with
  | 0 => Some current
  | S fuel =>
      match projection_of env current with
      | None => None
      | Some projection =>
          match sp_parent (p_session projection) with
          | Some parent => lineage_loop env fuel parent
          | None => Some current
          end
      end
  end.

Definition lineage_root (env : StoreEnv) (session : SessionId) : option SessionId :=
  lineage_loop env (N.to_nat 1024) session.

Definition YOLO : string := "yolo".

Definition tree_is_yolo (env : StoreEnv) (session : SessionId) : bool :=
  match lineage_root env session with
  | None => false
  | Some root =>
      match projection_of env root with
      | Some projection => bool_decide (sp_permission_mode (p_session projection) = Some YOLO)
      | None => false
      end
  end.

(** ** Store calls *)

(** [INSERT .. ON CONFLICT(id) DO UPDATE SET .. resolved_at=NULL] *)
Definition save_pending_interaction (id : string) (session : option SessionId) (kind : string)
    (q : Queue) : Queue :=
  q <| q_rows ::= <[id := mkPendingInteraction session kind false]> |>.

Definition resolve_pending_interaction (id : string) (q : Queue) : Queue :=
  q <| q_rows ::= alter (fun row => row <| pi_resolved := true |>) id |>.

(** [list_pending_interactions().any(..)]: an unresolved permission row of this session *)
Definition has_pending_row (id : string) (session : SessionId) (q : Queue) : bool :=
  match q_rows q !! id with
  | Some row => negb (pi_resolved row)
                && bool_decide (pi_kind row = "permission" /\ pi_session row = Some session)
  | None => false
  end.

(** [ON CONFLICT(id) DO NOTHING] *)
Definition queue_pending_interaction_reply (id : string) (reply : PendingInteractionReply) (q : Queue) :
    Queue :=
  match q_replies q !! id with
  | Some _ => q
  | None => q <| q_replies ::= <[id := reply]> |>
  end.

(** [INSERT OR IGNORE] *)
Definition save_permission (row : SavedPermission) (q : Queue) : Queue :=
  match q_saved q !! sp_id row with
  | Some _ => q
  | None => q <| q_saved ::= <[sp_id row := row]> |>
  end.

(** ** Answers *)

Definition decision (reply : PermissionReply.t) (message : option string) : Decision.t :=
  match reply with
  | PermissionReply.Once => Decision.AllowOnce
  | PermissionReply.Always => Decision.AllowAlways
  | PermissionReply.Reject => Decision.Reject message
  end.

Definition related_decision (reply : PermissionReply.t) : Decision.t :=
  match reply with
  | PermissionReply.Once => Decision.AllowOnce
  | PermissionReply.Always => Decision.AllowAlways
  | PermissionReply.Reject => Decision.Reject None
  end.

(** [entry.reply.send(d).is_ok()] *)
Definition send (env : StoreEnv) (id : string) (d : Decision.t) (q : Queue) : bool * Queue :=
  if waiting env id then (true, q <| q_answers ::= <[id := d]> |>) else (false, q).

Definition publish (p : Published) (q : Queue) : Queue := q <| q_published ::= fun l => l ++ [p] |>.

(** ** The bridge *)

(** One turn of the loop of [spawn], under the pending lock from the mode check to the insertion. *)
Definition on_ask (env : StoreEnv) (req : AskRequest U) (q : Queue) : Queue :=
  let entry := mkPendingPermission (ask_session req) (ask_action req) (ask_resource req)
                 (ask_remember req) in
  let request_id := uuid_id_to_string (ask_id req) in
  if match pp_session entry with Some session => tree_is_yolo env session | None => false end
  then (send env request_id Decision.AllowOnce q).2
  else if save_ok env then
    let q := save_pending_interaction request_id (pp_session entry) "permission" q in
    publish (Asked request_id entry) (q <| q_inner ::= <[request_id := entry]> |>)
  else (send env request_id (Decision.Reject None) q).2.

(** The filter of [take_related]. *)
Definition in_scope_of (session : SessionId) (scope : option (RememberScope.t * Action.t))
    (entry : PendingPermission) : Prop :=
  pp_session entry = Some session
  /\ match scope with
     | None => True
     | Some (RememberScope.LegacyAction, action) =>
         pp_action entry = action /\ pp_remember entry = RememberScope.LegacyAction
     | Some (remember, _) => pp_remember entry = remember
     end.
#[global] Instance in_scope_of_dec session scope entry : Decision (in_scope_of session scope entry).
Proof. unfold in_scope_of. destruct scope as [[[] ?]|]; apply _. Defined.

(** The entries taken, with their ids for their oneshots, and what stays. *)
Definition take_related (pending : gmap string PendingPermission) (session : SessionId)
    (scope : option (RememberScope.t * Action.t)) :
    list (string * PendingPermission) * gmap string PendingPermission :=
  (filter (fun x => in_scope_of session scope x.2) (btree_list pending),
   filter (fun x => ~ in_scope_of session scope x.2) pending).

Definition take_related_for_reply (pending : gmap string PendingPermission) (session : SessionId)
    (reply : PermissionReply.t) (remember : RememberScope.t) (action : Action.t) :
    list (string * PendingPermission) * gmap string PendingPermission :=
  match reply, remember with
  | PermissionReply.Once, _ => ([], pending)
  | PermissionReply.Always, _ | PermissionReply.Reject, RememberScope.Exact _ =>
      take_related pending session (Some (remember, action))
  | PermissionReply.Reject, _ => take_related pending session None
  end.

(** [SavedPermissions::remember] *)
Definition remember (request_id : string) (action : Action.t) (remember : RememberScope.t) (q : Queue) :
    Queue :=
  match remember_row request_id action remember with
  | None => q
  | Some row => save_permission row q
  end.

(** The tail [reply] and [reply_any] share, once the entry and its related entries are taken. *)
Definition finish_reply (env : StoreEnv) (id : string) (entry : PendingPermission)
    (related : list (string * PendingPermission)) (reply : PermissionReply.t)
    (message : option string) (q : Queue) : (bool + StoreError) * Queue :=
  let '(ok, q) := send env id (decision reply message) q in
  let q := if ok && resolve_ok env then resolve_pending_interaction id q else q in
  let remembering := ok && bool_decide (reply = PermissionReply.Always) in
  if remembering && bool_decide (is_Some (saved_row (pp_remember entry))) && negb (remember_ok env)
  then (inr StoreFailed, q)
  else
    let q := if remembering then remember id (pp_action entry) (pp_remember entry) q else q in
    let q := foldl (fun q item => (send env item.1 (related_decision reply) q).2) q related in
    (inl ok, if ok then publish (Replied (pp_session entry) id reply) q else q).

Definition reply (env : StoreEnv) (session : SessionId) (id : string) (reply : PermissionReply.t)
    (message : option string) (q : Queue) : (bool + StoreError) * Queue :=
  match q_inner q !! id with
  | None =>
      if list_ok env then
        if has_pending_row id session q then
          if queue_ok env then
            (inl true, queue_pending_interaction_reply id
                         (mkPendingInteractionReply "permission" reply message session) q)
          else (inr StoreFailed, q)
        else (inl false, q)
      else (inr StoreFailed, q)
  | Some entry =>
      if decide (pp_session entry = Some session) then
        let '(related, rest) := take_related_for_reply (delete id (q_inner q)) session reply
                                  (pp_remember entry) (pp_action entry) in
        finish_reply env id entry related reply message (q <| q_inner := rest |>)
      else (inl false, q)
  end.

Definition reply_any (env : StoreEnv) (id : string) (reply : PermissionReply.t)
    (message : option string) (q : Queue) : (bool + StoreError) * Queue :=
  match q_inner q !! id with
  | None => (inl false, q)
  | Some entry =>
      let pending := delete id (q_inner q) in
      let '(related, rest) :=
        match pp_session entry with
        | Some session => take_related_for_reply pending session reply (pp_remember entry) (pp_action entry)
        | None => ([], pending)
        end in
      finish_reply env id entry related reply message (q <| q_inner := rest |>)
  end.

(** The entries of the tree of [root]. *)
Definition in_tree (env : StoreEnv) (root : SessionId) (entry : PendingPermission) : Prop :=
  exists session, pp_session entry = Some session /\ lineage_root env session = Some root.
#[global] Instance in_tree_dec env root entry : Decision (in_tree env root entry).
Proof.
  unfold in_tree. destruct (pp_session entry) as [s|].
  - destruct (decide (lineage_root env s = Some root)); [left; eauto|right; naive_solver].
  - right. naive_solver.
Defined.

Definition allow_tree_once (env : StoreEnv) (root : SessionId) (q : Queue) : nat * Queue :=
  let taken := filter (fun x => in_tree env root x.2) (btree_list (q_inner q)) in
  let q := q <| q_inner ::= filter (fun x => ~ in_tree env root x.2) |> in
  foldl (fun '(allowed, q) item =>
    let '(ok, q) := send env item.1 Decision.AllowOnce q in
    if ok then (allowed + 1, publish (Replied (pp_session item.2) item.1 PermissionReply.Once) q)
    else (allowed, q)) (0, q) taken.
End queue.

(** * What the queue of pending asks promises *)

Section spec.
Context {U : UuidLib} {J : JsonLib}.
Implicit Types (env : StoreEnv) (q : Queue) (entry : PendingPermission) (id : string).

(** ** Sending to a list of askers *)

(** Answers [d] to the askers in [ids] that still wait. *)
Definition answered env (ids : list string) (d : Decision.t) (old : gmap string Decision.t) id :
    option Decision.t :=
  if decide (id ∈ ids /\ waiting env id = true) then Some d else old !! id.

Lemma answered_send env i ids d (old : gmap string Decision.t) id :
  waiting env i = true -> answered env ids d (<[i := d]> old) id = answered env (i :: ids) d old id.
Proof.
  intros Hw. unfold answered. destruct (decide (id = i)) as [->|Hne].
  - rewrite lookup_insert_eq, (decide_True (P := i ∈ i :: ids /\ _)) by (by split; [left|]).
    by case_decide.
  - rewrite lookup_insert_ne by done. apply decide_ext. rewrite elem_of_cons. naive_solver.
Qed.

Lemma answered_gone env i ids d (old : gmap string Decision.t) id :
  waiting env i = false -> answered env ids d old id = answered env (i :: ids) d old id.
Proof.
  intros Hw. unfold answered. apply decide_ext. rewrite elem_of_cons. split; [tauto|].
  intros [[->|?] ?]; [congruence|done].
Qed.

Lemma foldl_send env d (items : list (string * PendingPermission)) q :
  let q' := foldl (fun q item => (send env item.1 d q).2) q items in
  q_inner q' = q_inner q /\ q_rows q' = q_rows q /\ q_replies q' = q_replies q
  /\ q_saved q' = q_saved q
  /\ forall id, q_answers q' !! id = answered env items.*1 d (q_answers q) id.
Proof.
  cbv zeta. revert q. induction items as [|[i e] items IH]; intros q; [done|].
  cbn [foldl fst fmap list_fmap]. destruct (IH (send env i d q).2) as (-> & -> & -> & -> & Ha).
  unfold send in *. destruct (waiting env i) eqn:Hw; simpl in *; split_and!; try done;
    intros id; rewrite Ha; [by apply answered_send|by apply answered_gone].
Qed.

Lemma fold_sweep env (items : list (string * PendingPermission)) n q :
  let r := foldl (fun '(allowed, q) (item : string * PendingPermission) =>
    let '(ok, q) := send env item.1 Decision.AllowOnce q in
    if ok then (allowed + 1, publish (Replied (pp_session item.2) item.1 PermissionReply.Once) q)
    else (allowed, q)) (n, q) items in
  q_inner r.2 = q_inner q /\ q_rows r.2 = q_rows q
  /\ forall id, q_answers r.2 !! id = answered env items.*1 Decision.AllowOnce (q_answers q) id.
Proof.
  cbv zeta. revert n q. induction items as [|[i e] items IH]; intros n q; [done|].
  cbn [foldl fst snd fmap list_fmap]. unfold send at 2 4 6. destruct (waiting env i) eqn:Hw.
  - destruct (IH (n + 1) (publish (Replied (pp_session e) i PermissionReply.Once)
      (q <| q_answers ::= <[i := Decision.AllowOnce]> |>))) as (-> & -> & Ha).
    split_and!; try done. intros id. rewrite Ha. by apply answered_send.
  - destruct (IH n q) as (-> & -> & Ha). split_and!; try done. intros id. rewrite Ha.
    by apply answered_gone.
Qed.

(** ** Whom a reply answers *)

(** The pending asks a reply to [entry] also settles. *)
Definition settles (r : PermissionReply.t) entry (other : PendingPermission) : Prop :=
  pp_session other = pp_session entry
  /\ match r, pp_remember entry with
     | PermissionReply.Once, _ => False
     | PermissionReply.Always, RememberScope.LegacyAction =>
         pp_remember other = RememberScope.LegacyAction /\ pp_action other = pp_action entry
     | PermissionReply.Always, scope => pp_remember other = scope
     | PermissionReply.Reject, RememberScope.Exact subject =>
         pp_remember other = RememberScope.Exact subject
     | PermissionReply.Reject, _ => True
     end.
#[global] Instance settles_dec r entry other : Decision (settles r entry other).
Proof. unfold settles. destruct r, (pp_remember entry); apply _. Defined.

Lemma take_related_for_reply_spec (pending : gmap string PendingPermission) session r entry :
  pp_session entry = Some session ->
  let '(related, rest) :=
    take_related_for_reply pending session r (pp_remember entry) (pp_action entry) in
  (forall id, id ∈ related.*1 <-> exists e, pending !! id = Some e /\ settles r entry e)
  /\ rest = filter (fun x => ~ settles r entry x.2) pending.
Proof.
  intros Hs.
  assert (Hrel : forall scope, (forall e, in_scope_of session scope e <-> settles r entry e) ->
    let '(related, rest) := take_related pending session scope in
    (forall id, id ∈ related.*1 <-> exists e, pending !! id = Some e /\ settles r entry e)
    /\ rest = filter (fun x => ~ settles r entry x.2) pending).
  { intros scope Hscope. simpl. split.
    - intros id. rewrite btree_filter_elem. simpl. by setoid_rewrite Hscope.
    - apply map_filter_ext. intros i e _. simpl. by rewrite Hscope. }
  unfold take_related_for_reply. destruct r.
  - split.
    + intros id. split; [by intros ?%elem_of_nil|]. by intros (e & _ & _ & []).
    + symmetry. apply map_filter_id. by intros i e _ [_ []].
  - apply Hrel. intros e. unfold in_scope_of, settles. rewrite Hs. destruct (pp_remember entry); tauto.
  - destruct (pp_remember entry) eqn:E; apply Hrel; intros e; unfold in_scope_of, settles;
      rewrite Hs, E; tauto.
Qed.

(** The answers after the reply itself. *)
Definition after_send env id d (old : gmap string Decision.t) : gmap string Decision.t :=
  if waiting env id then <[id := d]> old else old.

Lemma finish_reply_spec env id entry related r message q :
  let '(res, q') := finish_reply env id entry related r message q in
  q_inner q' = q_inner q
  /\ match res with
     | inr _ => waiting env id = true /\ r = PermissionReply.Always /\ remember_ok env = false
                /\ q_answers q' = after_send env id (decision r message) (q_answers q)
     | inl ok => ok = waiting env id
         /\ forall i, q_answers q' !! i
              = answered env related.*1 (related_decision r)
                  (after_send env id (decision r message) (q_answers q)) i
     end.
Proof.
  unfold finish_reply. set (sent := send env id (decision r message) q).
  assert (sent = (waiting env id, q <| q_answers ::= after_send env id (decision r message) |>)) as ->.
  { unfold sent, send, after_send. destruct (waiting env id); [done|]. by destruct q. }
  set (q1 := q <| q_answers ::= _ |>).
  assert (forall q2, q_inner q2 = q_inner q1 -> q_answers q2 = q_answers q1 ->
    let q3 := foldl (fun q item => (send env item.1 (related_decision r) q).2) q2 related in
    let q4 := if waiting env id then publish (Replied (pp_session entry) id r) q3 else q3 in
    q_inner q4 = q_inner q /\ waiting env id = waiting env id
    /\ forall i, q_answers q4 !! i = answered env related.*1 (related_decision r)
                  (after_send env id (decision r message) (q_answers q)) i) as Hfin.
  { intros q2 Hi Ha. cbv zeta. destruct (foldl_send env (related_decision r) related q2)
      as (Hi' & _ & _ & _ & Ha'). rewrite Ha in Ha'.
    destruct (waiting env id); (split; [exact (eq_trans Hi' Hi)|]); (split; [done|]); exact Ha'. }
  set (q2 := if waiting env id && resolve_ok env then _ else q1).
  assert (q_inner q2 = q_inner q1 /\ q_answers q2 = q_answers q1) as [Hi Ha]
    by (unfold q2; by destruct (_ && _)).
  destruct (_ && negb (remember_ok env)) eqn:Hfail.
  - rewrite !andb_true_iff, !bool_decide_eq_true, negb_true_iff in Hfail.
    destruct Hfail as [[[Hw ->] _] Hr]. by rewrite Hi, Ha.
  - apply Hfin; destruct (_ && bool_decide (r = _)); try done; unfold remember;
      (destruct (remember_row _ _ _); [|done]); unfold save_permission; by destruct (q_saved _ !! _).
Qed.

(** whom a reply answers.  A reply to a pending ask of the session leaves the queue without that
    ask and the asks it settles, and with nothing else changed; every asker that still waits gets
    the answer, the related ones without the human's feedback; nobody else gets anything.  "Once"
    settles only the ask itself, "always" the asks of the session that would be remembered the
    same way, and "reject" of an exact subject the same subject, of anything else every ask of the
    session. *)
Theorem reply_answers_group env session id r message q entry :
  q_inner q !! id = Some entry -> pp_session entry = Some session -> remember_ok env = true ->
  let '(res, q') := reply env session id r message q in
  let settled i := exists e, delete id (q_inner q) !! i = Some e /\ settles r entry e in
  res = inl (waiting env id)
  /\ q_inner q' = filter (fun x => ~ settles r entry x.2) (delete id (q_inner q))
  /\ (waiting env id = true -> q_answers q' !! id = Some
       match r with
       | PermissionReply.Once => Decision.AllowOnce
       | PermissionReply.Always => Decision.AllowAlways
       | PermissionReply.Reject => Decision.Reject message
       end)
  /\ (forall i, settled i -> waiting env i = true -> q_answers q' !! i = Some
       match r with
       | PermissionReply.Always => Decision.AllowAlways
       | _ => Decision.Reject None
       end)
  /\ (forall i, i <> id -> ~ settled i -> q_answers q' !! i = q_answers q !! i).
Proof.
  intros Hid Hs Hrem. unfold reply. rewrite Hid, decide_True by done.
  pose proof (take_related_for_reply_spec (delete id (q_inner q)) session r entry Hs) as Ht.
  destruct (take_related_for_reply _ _ _ _ _) as [related rest]. destruct Ht as [Hrel ->].
  pose proof (finish_reply_spec env id entry related r message
    (q <| q_inner := filter (fun x => ~ settles r entry x.2) (delete id (q_inner q)) |>)) as Hf.
  destruct (finish_reply _ _ _ _ _ _ _) as [res q']. destruct Hf as [Hi Hres].
  destruct res as [ok|e]; [|destruct Hres as (_ & _ & ? & _); congruence].
  destruct Hres as [-> Ha]. cbv zeta. split; [done|]. split; [exact Hi|].
  split_and!.
  - intros Hw. rewrite Ha. unfold answered, after_send. rewrite Hw, decide_False.
    { by rewrite lookup_insert_eq. }
    intros [Hin _]. apply Hrel in Hin as (e & He & _). by rewrite lookup_delete_eq in He.
  - intros i Hset Hw. rewrite Ha. unfold answered. rewrite decide_True.
    { destruct r; [|done..]. by destruct Hset as (e & _ & _ & []). }
    split; [by apply Hrel|done].
  - intros i Hne Hset. rewrite Ha. unfold answered, after_send. rewrite decide_False.
    + destruct (waiting env id); [by rewrite lookup_insert_ne|done].
    + intros [Hin _]. by apply Hset, Hrel.
Qed.

(** ** Every ask is answered at most once *)

(** The operations, in any order, each in its environment; the ids of asks are fresh. *)
Inductive queue_step env q : Queue -> Prop :=
  | step_ask req :
      q_inner q !! uuid_id_to_string (ask_id req) = None ->
      q_answers q !! uuid_id_to_string (ask_id req) = None ->
      queue_step env q (on_ask env req q)
  | step_reply session id r message : queue_step env q (reply env session id r message q).2
  | step_reply_any id r message : queue_step env q (reply_any env id r message q).2
  | step_sweep root : queue_step env q (allow_tree_once env root q).2.

Inductive queue_reachable : Queue -> Prop :=
  | queue_empty : queue_reachable empty_queue
  | queue_next env q q' : queue_reachable q -> queue_step env q q' -> queue_reachable q'.

(** An operation leaves an ask and its answer alone, or takes it out of the queue. *)
Definition takes q q' : Prop :=
  forall i, (q_inner q' !! i = q_inner q !! i /\ q_answers q' !! i = q_answers q !! i)
            \/ (is_Some (q_inner q !! i) /\ q_inner q' !! i = None).

Lemma takes_refl q q' : q_inner q' = q_inner q -> q_answers q' = q_answers q -> takes q q'.
Proof. intros Hi Ha i. left. by rewrite Hi, Ha. Qed.

Lemma takes_finish env id entry related rest r message q :
  q_inner q !! id = Some entry -> rest !! id = None ->
  (forall i, rest !! i = q_inner q !! i /\ i ∉ related.*1
             \/ is_Some (q_inner q !! i) /\ rest !! i = None) ->
  takes q (finish_reply env id entry related r message (q <| q_inner := rest |>)).2.
Proof.
  intros Hid Hrest Hsplit i.
  pose proof (finish_reply_spec env id entry related r message (q <| q_inner := rest |>)) as Hf.
  destruct (finish_reply _ _ _ _ _ _ _) as [res q']. destruct Hf as [Hi Hres]. cbn in *. rewrite Hi.
  destruct (Hsplit i) as [[Hkeep Hnot]|Htaken]; [|by right].
  destruct (decide (i = id)) as [->|Hne]; [right; by rewrite Hid|]. left. split; [done|].
  assert (after_send env id (decision r message) (q_answers q) !! i = q_answers q !! i) as Hsend
    by (unfold after_send; destruct (waiting env id); [by apply lookup_insert_ne|done]).
  destruct res as [ok|e].
  - destruct Hres as [_ ->]. unfold answered. rewrite decide_False; [done|]. by intros [? _].
  - by destruct Hres as (_ & _ & _ & ->).
Qed.

Lemma takes_related env id entry session r message q :
  q_inner q !! id = Some entry -> pp_session entry = Some session ->
  let '(related, rest) := take_related_for_reply (delete id (q_inner q)) session r
                            (pp_remember entry) (pp_action entry) in
  takes q (finish_reply env id entry related r message (q <| q_inner := rest |>)).2.
Proof.
  intros Hid Hs. pose proof (take_related_for_reply_spec (delete id (q_inner q)) session r entry Hs) as Ht.
  destruct (take_related_for_reply _ _ _ _ _) as [related rest]. destruct Ht as [Hrel ->].
  apply takes_finish; [done| |].
  - apply map_lookup_filter_None. left. apply lookup_delete_eq.
  - intros i. destruct (decide (i = id)) as [->|Hne].
    { right. rewrite Hid. split; [done|]. apply map_lookup_filter_None. left. apply lookup_delete_eq. }
    destruct (q_inner q !! i) as [e|] eqn:E.
    + destruct (decide (settles r entry e)) as [Hset|Hset].
      * right. split; [done|]. apply map_lookup_filter_None. right. intros e' He'.
        rewrite lookup_delete_ne, E in He' by done. simplify_eq. by intros [].
      * left. split; [apply map_lookup_filter_Some; by rewrite lookup_delete_ne|].
        intros (e' & He' & ?)%Hrel. rewrite lookup_delete_ne, E in He' by done. by simplify_eq.
    + left. split; [apply map_lookup_filter_None; left; by rewrite lookup_delete_ne|].
      intros (e' & He' & ?)%Hrel. by rewrite lookup_delete_ne, E in He' by done.
Qed.

Lemma takes_reply env session id r message q : takes q (reply env session id r message q).2.
Proof.
  unfold reply. destruct (q_inner q !! id) as [entry|] eqn:Hid.
  - destruct (decide (pp_session entry = Some session)) as [Hs|]; [|by apply takes_refl].
    pose proof (takes_related env id entry session r message q Hid Hs) as Ht.
    by destruct (take_related_for_reply _ _ _ _ _).
  - unfold queue_pending_interaction_reply. apply takes_refl; by repeat case_match.
Qed.

Lemma takes_reply_any env id r message q : takes q (reply_any env id r message q).2.
Proof.
  unfold reply_any. destruct (q_inner q !! id) as [entry|] eqn:Hid; [|by apply takes_refl].
  destruct (pp_session entry) as [session|] eqn:Hs.
  - pose proof (takes_related env id entry session r message q Hid Hs) as Ht.
    by destruct (take_related_for_reply _ _ _ _ _).
  - apply takes_finish; [done|apply lookup_delete_eq|]. intros i.
    destruct (decide (i = id)) as [->|]; [right; by rewrite Hid, lookup_delete_eq|].
    left. split; [by apply lookup_delete_ne|apply not_elem_of_nil].
Qed.

(** What a sweep takes, and its answers. *)
Lemma allow_tree_once_spec env root q :
  let q' := (allow_tree_once env root q).2 in
  q_inner q' = filter (fun x => ~ in_tree env root x.2) (q_inner q)
  /\ q_rows q' = q_rows q
  /\ (forall i e, q_inner q !! i = Some e -> in_tree env root e -> waiting env i = true ->
       q_answers q' !! i = Some Decision.AllowOnce)
  /\ (forall i, (forall e, q_inner q !! i = Some e -> ~ in_tree env root e) ->
       q_answers q' !! i = q_answers q !! i).
Proof.
  cbv zeta. unfold allow_tree_once. set (items := filter _ (btree_list (q_inner q))).
  destruct (fold_sweep env items 0 (q <| q_inner ::= filter (fun x => ~ in_tree env root x.2) |>))
    as (-> & -> & Ha).
  split_and!; try done; intros i.
  - intros e He Ht Hw. rewrite Ha. unfold answered. rewrite decide_True; [done|]. split; [|done].
    apply btree_filter_elem. eauto.
  - intros Hout. rewrite Ha. unfold answered. rewrite decide_False; [done|].
    intros [(e & He & Ht)%btree_filter_elem _]. by eapply Hout.
Qed.

Lemma takes_sweep env root q : takes q (allow_tree_once env root q).2.
Proof.
  intros i. destruct (allow_tree_once_spec env root q) as (-> & _ & _ & Ha).
  destruct (q_inner q !! i) as [e|] eqn:E.
  - destruct (decide (in_tree env root e)) as [Ht|Ht].
    + right. split; [done|]. apply map_lookup_filter_None. right. intros e' He'. rewrite E in He'.
      simplify_eq. by intros [].
    + left. split; [by apply map_lookup_filter_Some|]. apply Ha. intros e' He'. by simplify_eq.
  - left. split; [apply map_lookup_filter_None; by left|]. apply Ha. congruence.
Qed.

(** An ask goes straight to an answer, or into the queue unanswered. *)
Lemma on_ask_cases env req q i :
  let id := uuid_id_to_string (ask_id req) in
  (i <> id -> q_inner (on_ask env req q) !! i = q_inner q !! i
              /\ q_answers (on_ask env req q) !! i = q_answers q !! i)
  /\ (q_inner q !! id = None -> q_answers q !! id = None ->
      q_inner (on_ask env req q) !! id = None \/ q_answers (on_ask env req q) !! id = None).
Proof.
  cbv zeta. unfold on_ask. cbn [pp_session].
  destruct (match ask_session req with Some _ => _ | None => false end); [|destruct (save_ok env)];
    unfold send; try destruct (waiting env _); cbn; (split; [intros Hne|intros Hi Ha]);
    rewrite ?lookup_insert_ne by done; auto.
Qed.

Definition unanswered_pending q : Prop :=
  forall i, is_Some (q_inner q !! i) -> q_answers q !! i = None.

Lemma unanswered_step env q q' : unanswered_pending q -> queue_step env q q' -> unanswered_pending q'.
Proof.
  intros Hinv Hstep i.
  assert (takes q q' -> is_Some (q_inner q' !! i) -> q_answers q' !! i = None) as Htakes.
  { intros Ht Hi. destruct (Ht i) as [[Hi' ->]|[_ Hi']]; rewrite Hi' in Hi; [by apply Hinv|by inversion Hi]. }
  destruct Hstep as [req Hi Ha|s id r m|id r m|root];
    [|apply Htakes; auto using takes_reply, takes_reply_any, takes_sweep..].
  clear Htakes. destruct (on_ask_cases env req q i) as [Hother Hself].
  destruct (decide (i = uuid_id_to_string (ask_id req))) as [->|Hne].
  - intros Hp. destruct (Hself Hi Ha) as [Hn|Hn]; [|done]. rewrite Hn in Hp. by inversion Hp.
  - destruct (Hother Hne) as [-> ->]. apply Hinv.
Qed.

Lemma reachable_unanswered q : queue_reachable q -> unanswered_pending q.
Proof. induction 1; [by intros i [? ?]|by eapply unanswered_step]. Qed.

Lemma step_keeps env q q' :
  unanswered_pending q -> queue_step env q q' ->
  (forall i d, q_answers q !! i = Some d -> q_answers q' !! i = Some d)
  /\ (forall i e, q_inner q !! i = Some e -> q_inner q' !! i = Some e \/ q_inner q' !! i = None).
Proof.
  intros Hinv Hstep.
  assert (takes q q' -> (forall i d, q_answers q !! i = Some d -> q_answers q' !! i = Some d)
    /\ (forall i e, q_inner q !! i = Some e -> q_inner q' !! i = Some e \/ q_inner q' !! i = None))
    as Htakes.
  { intros Ht. split; intros i x Hx; destruct (Ht i) as [[Hi Ha]|[Hi Hn]]; rewrite ?Hi, ?Ha; auto.
    by rewrite (Hinv i Hi) in Hx. }
  destruct Hstep as [req Hi Ha|s id r m|id r m|root];
    [|auto using takes_reply, takes_reply_any, takes_sweep..].
  clear Htakes. split; intros i x Hx; destruct (on_ask_cases env req q i) as [Hother _];
    (destruct (decide (i = uuid_id_to_string (ask_id req))) as [->|Hne]; [congruence|]);
    destruct (Hother Hne) as [Hi' Ha']; rewrite ?Hi', ?Ha'; auto.
Qed.

(** every ask is answered at most once, in any order of operations.  In every state the server
    reaches by asks, replies and sweeps, a pending ask has not been answered; and one more
    operation never replaces or withdraws an answer, and never changes a pending ask other than by
    taking it out of the queue. *)
Theorem asks_answered_once env q q' :
  queue_reachable q -> queue_step env q q' ->
  unanswered_pending q
  /\ (forall i d, q_answers q !! i = Some d -> q_answers q' !! i = Some d)
  /\ (forall i e, q_inner q !! i = Some e -> q_inner q' !! i = Some e \/ q_inner q' !! i = None).
Proof.
  intros Hr Hs. pose proof (reachable_unanswered q Hr) as Hu. split; [done|by eapply step_keeps].
Qed.

(** ** Trees switched to [yolo] *)

Lemma in_tree_ext env env' root entry :
  projection_of env = projection_of env' -> in_tree env root entry <-> in_tree env' root entry.
Proof.
  intros Heq. assert (forall fuel s, lineage_loop env fuel s = lineage_loop env' fuel s) as Hl.
  { induction fuel as [|fuel IH]; intros s; simpl; [done|]. rewrite Heq.
    destruct (projection_of env' s) as [p|]; [|done]. by destruct (sp_parent (p_session p)). }
  unfold in_tree, lineage_root. by setoid_rewrite Hl.
Qed.

(** Steps of any environments that read the same projections. *)
Definition step_reading (reads : SessionId -> option Projection) q q' : Prop :=
  exists env, projection_of env = reads /\ queue_step env q q'.

Definition tree_empty env root q : Prop :=
  forall i e, q_inner q !! i = Some e -> ~ in_tree env root e.

Lemma send_inner env id d q : q_inner (send env id d q).2 = q_inner q.
Proof. unfold send. by destruct (waiting env id). Qed.

(** An ask of a [yolo] tree is not queued. *)
Lemma on_ask_yolo env root projection req q :
  projection_of env root = Some projection ->
  sp_permission_mode (p_session projection) = Some YOLO ->
  in_tree env root (mkPendingPermission (ask_session req) (ask_action req) (ask_resource req)
                      (ask_remember req)) ->
  on_ask env req q = (send env (uuid_id_to_string (ask_id req)) Decision.AllowOnce q).2.
Proof.
  intros Hroot Hyolo (session & Hs & Hl). simpl in Hs. unfold on_ask, tree_is_yolo. simpl.
  by rewrite Hs, Hl, Hroot, bool_decide_eq_true_2.
Qed.

Lemma tree_empty_step env root projection q q' :
  projection_of env root = Some projection ->
  sp_permission_mode (p_session projection) = Some YOLO ->
  queue_step env q q' -> tree_empty env root q -> tree_empty env root q'.
Proof.
  intros Hroot Hyolo Hstep Hempty.
  assert (takes q q' -> tree_empty env root q') as Htakes.
  { intros Ht i e He. destruct (Ht i) as [[Hi _]|[_ Hn]]; [|congruence]. rewrite Hi in He. eauto. }
  destruct Hstep as [req Hi Ha|s id r m|id r m|r];
    [|apply Htakes; auto using takes_reply, takes_reply_any, takes_sweep..].
  clear Htakes. intros i e He Ht. destruct (on_ask_cases env req q i) as [Hother _].
  destruct (decide (i = uuid_id_to_string (ask_id req))) as [->|Hne].
  - set (new := mkPendingPermission (ask_session req) (ask_action req) (ask_resource req)
                  (ask_remember req)).
    destruct (decide (in_tree env root new)) as [Hin|Hin].
    + rewrite (on_ask_yolo env root projection), send_inner in He by done. congruence.
    + unfold on_ask in He. fold new in He.
      destruct (match pp_session new with Some _ => _ | None => false end);
        [rewrite send_inner in He; congruence|].
      destruct (save_ok env); [|rewrite send_inner in He; congruence].
      cbn in He. rewrite lookup_insert_eq in He. by simplify_eq.
  - destruct (Hother Hne) as [Hi' _]. rewrite Hi' in He. by eapply Hempty.
Qed.

Lemma steps_reading_keep env root projection q q' :
  projection_of env root = Some projection ->
  sp_permission_mode (p_session projection) = Some YOLO ->
  rtc (step_reading (projection_of env)) q q' -> unanswered_pending q -> tree_empty env root q ->
  tree_empty env root q'
  /\ forall i d, q_answers q !! i = Some d -> q_answers q' !! i = Some d.
Proof.
  intros Hroot Hyolo. induction 1 as [q|q q1 q' (env' & Henv & Hs) _ IH]; intros Hu He; [done|].
  destruct IH as [He' Hk].
  - by eapply unanswered_step.
  - assert (tree_empty env' root q1) as He1.
    { eapply tree_empty_step; [by rewrite Henv|done|exact Hs|].
      intros i e Hi. rewrite (in_tree_ext env' env) by done. by eapply He. }
    intros i e Hi. rewrite (in_tree_ext env env') by done. by eapply He1.
  - split; [done|]. intros i d Ha. by eapply Hk, step_keeps.
Qed.

(** C35: a tree switched to [yolo] never waits.  Once its mode is durable and the sweep has run, in
    whatever order asks, replies and further sweeps interleave with it before and after, no ask of
    the tree is pending; every ask the sweep found whose asker still waited is answered "allow
    once", for good; and a new ask of the tree is answered so at once. *)
Theorem yolo_tree_never_waits env root projection q q' :
  queue_reachable q -> projection_of env root = Some projection ->
  sp_permission_mode (p_session projection) = Some YOLO ->
  rtc (step_reading (projection_of env)) (allow_tree_once env root q).2 q' ->
  (forall i e, q_inner q' !! i = Some e -> ~ in_tree env root e)
  /\ (forall i e, q_inner q !! i = Some e -> in_tree env root e -> waiting env i = true ->
       q_answers q' !! i = Some Decision.AllowOnce)
  /\ (forall req, in_tree env root (mkPendingPermission (ask_session req) (ask_action req)
                                      (ask_resource req) (ask_remember req)) ->
       waiting env (uuid_id_to_string (ask_id req)) = true ->
       q_answers (on_ask env req q') !! uuid_id_to_string (ask_id req) = Some Decision.AllowOnce
       /\ q_inner (on_ask env req q') = q_inner q').
Proof.
  intros Hr Hroot Hyolo Hsteps.
  destruct (allow_tree_once_spec env root q) as (Hinner & _ & Hswept & _).
  assert (Hempty0 : tree_empty env root (allow_tree_once env root q).2).
  { intros i e He. rewrite Hinner in He. by apply map_lookup_filter_Some in He as [_ ?]. }
  assert (Hr0 : queue_reachable (allow_tree_once env root q).2)
    by (eapply queue_next; [exact Hr|constructor]).
  assert (Hend : tree_empty env root q'
    /\ forall i d, q_answers (allow_tree_once env root q).2 !! i = Some d -> q_answers q' !! i = Some d).
  { eapply steps_reading_keep; [done..|by apply reachable_unanswered|done]. }
  destruct Hend as [Hempty Hkeep]. split; [exact Hempty|]. split; [by eauto|].
  intros req Hin Hw. rewrite (on_ask_yolo env root projection req q') by done.
  split; [|apply send_inner]. unfold send. rewrite Hw. apply lookup_insert_eq.
Qed.
End spec.

(** ** A concrete queue *)

Module QueueDemo.
Definition session : SessionId (U := Demo.uuid_lib) := Hysec "00000000000000000000".
Definition request (n : N) (H : (n <? 2 ^ 128)%N = true) (path : string) : AskRequest Demo.uuid_lib :=
  mkAskRequest (from_uuid (Demo.Uuid128 n H)) (Some session) None None Action.Edit
    (Resource.Path path) RememberScope.LegacyAction.
Definition first := request 1 eq_refl "a.rs".
Definition second := request 2 eq_refl "b.rs".
Definition first_id : string := uuid_id_to_string (ask_id first).
Definition second_id : string := uuid_id_to_string (ask_id second).
(** Every store call succeeds and every asker waits; [mode] is the root's permission mode. *)
Definition env (mode : option string) : StoreEnv (U := Demo.uuid_lib) (J := Demo.json_lib) :=
  mkStoreEnv true true true true true (fun _ => true)
    (fun _ => Some (Projection_default <| p_session ::= fun s => s <| sp_permission_mode := mode |> |>)).
Definition entry : PendingPermission :=
  mkPendingPermission (Some session) Action.Edit (Resource.Path "a.rs") RememberScope.LegacyAction.
(** Two edits of one session wait. *)
Definition queue1 : Queue := on_ask (env None) first empty_queue.
Definition queue : Queue := on_ask (env None) second queue1.
End QueueDemo.

(** Closed equations, by conversion alone (the types of the tables have large normal forms). *)
Ltac compute_eq := lazymatch goal with |- _ = ?b => vm_cast_no_check (eq_refl b) end.

Lemma demo_queue_reachable : queue_reachable (J := Demo.json_lib) QueueDemo.queue.
Proof.
  apply (queue_next (QueueDemo.env None) QueueDemo.queue1).
  - apply (queue_next (QueueDemo.env None) empty_queue); [apply queue_empty|].
    apply (step_ask (QueueDemo.env None) empty_queue QueueDemo.first); compute_eq.
  - apply (step_ask (QueueDemo.env None) QueueDemo.queue1 QueueDemo.second); compute_eq.
Qed.

Lemma reply_answers_group_witness :
  q_answers (reply (QueueDemo.env None) QueueDemo.session QueueDemo.first_id PermissionReply.Always
               None QueueDemo.queue).2 !! QueueDemo.second_id = Some Decision.AllowAlways.
Proof.
  pose proof (reply_answers_group (QueueDemo.env None) QueueDemo.session QueueDemo.first_id
    PermissionReply.Always None QueueDemo.queue QueueDemo.entry ltac:(compute_eq)
    eq_refl eq_refl) as H.
  destruct (reply _ _ _ _ _ _) as [res q']. destruct H as (_ & _ & _ & H & _).
  apply H; [|reflexivity].
  exists (mkPendingPermission (Some QueueDemo.session) Action.Edit (Resource.Path "b.rs")
            RememberScope.LegacyAction).
  split; [compute_eq|]. repeat split.
Defined.

Lemma asks_answered_once_witness :
  q_answers QueueDemo.queue !! QueueDemo.first_id = None
  /\ unanswered_pending QueueDemo.queue.
Proof.
  destruct (asks_answered_once (QueueDemo.env None) QueueDemo.queue
    (reply_any (QueueDemo.env None) QueueDemo.first_id PermissionReply.Once None QueueDemo.queue).2
    demo_queue_reachable ltac:(constructor)) as [H _].
  split; [|exact H]. apply H. exists QueueDemo.entry. compute_eq.
Defined.

Lemma yolo_tree_never_waits_witness :
  tree_is_yolo (QueueDemo.env (Some YOLO)) QueueDemo.session = true
  /\ forall i e, q_inner (allow_tree_once (QueueDemo.env (Some YOLO)) QueueDemo.session
                         QueueDemo.queue).2 !! i = Some e ->
    ~ in_tree (QueueDemo.env (Some YOLO)) QueueDemo.session e.
Proof.
  split; [vm_compute; reflexivity|].
  exact (proj1 (yolo_tree_never_waits (QueueDemo.env (Some YOLO)) QueueDemo.session
    (Projection_default <| p_session ::= fun s => s <| sp_permission_mode := Some YOLO |> |>)
    QueueDemo.queue
    (allow_tree_once (QueueDemo.env (Some YOLO)) QueueDemo.session QueueDemo.queue).2
    demo_queue_reachable eq_refl eq_refl (rtc_refl _ _))).
Defined.

(** an ask answered along with another keeps its durable row.  Two edits of one session wait;
    "always" for the first also answers the second, but only the first's row is resolved and only
    its answer is published: the second is still listed as pending, a late reply to it reports
    success and is queued for a successor process, which would continue a call that already went
    on.  A sweep for [yolo] leaves the rows of all asks it answered. *)
Theorem related_row_left_unresolved :
  let env := QueueDemo.env None in
  let answered := (reply env QueueDemo.session QueueDemo.first_id PermissionReply.Always None
                     QueueDemo.queue).2 in
  let late := reply env QueueDemo.session QueueDemo.second_id PermissionReply.Reject None answered in
  let swept := (allow_tree_once env QueueDemo.session QueueDemo.queue).2 in
  q_answers answered !! QueueDemo.second_id = Some Decision.AllowAlways
  /\ has_pending_row QueueDemo.first_id QueueDemo.session answered = false
  /\ has_pending_row QueueDemo.second_id QueueDemo.session answered = true
  /\ late.1 = inl true
  /\ is_Some (q_replies late.2 !! QueueDemo.second_id)
  /\ q_answers swept !! QueueDemo.first_id = Some Decision.AllowOnce
  /\ has_pending_row QueueDemo.first_id QueueDemo.session swept = true.
Proof.
  cbv zeta. split_and!; try compute_eq.
  exists (mkPendingInteractionReply "permission" PermissionReply.Reject None QueueDemo.session).
  compute_eq.
Qed.
