(* ===== verification/Text.v ===== *)
(** * More string functions of the standard library: lines, substrings, characters

    [str::lines], [str::split], [str::find] of a substring, [trim_end_matches] and the counting
    of characters, on UTF-8 bytes. *)

From stdpp Require Import pretty.
From S2P Require Import Prelude RustStr.

Definition LF : ascii := ascii_of_nat 10.
Definition CR : ascii := ascii_of_nat 13.

(** [s.starts_with(p)] and [s.ends_with(p)] *)
Definition starts_with (p s : string) : bool :=
  match strip_prefix p s with Some _ => true | None => false end.
Definition ends_with (p s : string) : bool :=
  match strip_suffix p s with Some _ => true | None => false end.

(** What precedes and what follows the first occurrence of [p]: [s.find(p)] is the length of the
    first part. *)
Fixpoint split_str (p s : string) : option (string * string) :=
  match strip_prefix p s with
  | Some r => Some (EmptyString, r)
  | None =>
      match s with
      | EmptyString => None
      | String c s' => '(l, r) ← split_str p s'; Some (String c l, r)
      end
  end.

(** [s.contains(p)] *)
Definition contains_str (p s : string) : bool :=
  match split_str p s with Some _ => true | None => false end.

(** [s.split(c)] *)
Fixpoint split_char (c : ascii) (s : string) : list string :=
  match s with
  | EmptyString => [EmptyString]
  | String d s' =>
      if decide (d = c) then EmptyString :: split_char c s'
      else match split_char c s' with
           | x :: xs => String d x :: xs
           | [] => [String d EmptyString]
           end
  end.

(** [s.lines()]: a line feed, or a carriage return and a line feed, ends a line; the end of the last
    line is optional. *)
Definition strip_cr (line : string) : string := default line (strip_suffix (String CR EmptyString) line).
Fixpoint terminated_lines (segments : list string) : list string :=
  match segments with
  | [] => []
  | [rest] => if is_empty rest then [] else [rest]
  | line :: segments => strip_cr line :: terminated_lines segments
  end.
Definition lines (s : string) : list string := terminated_lines (split_char LF s).

(** [s.trim_end_matches(c)] *)
Fixpoint trim_start_matches (c : ascii) (s : string) : string :=
  match s with
  | EmptyString => EmptyString
  | String d s' => if decide (d = c) then trim_start_matches c s' else s
  end.
Definition trim_end_matches (c : ascii) (s : string) : string :=
  rev_string (trim_start_matches c (rev_string s)).

(** [s.bytes().take_while(|b| b == c).count()] *)
Fixpoint leading_count (c : ascii) (s : string) : nat :=
  match s with
  | EmptyString => 0
  | String d s' => if decide (d = c) then S (leading_count c s') else 0
  end.

(** The bytes that continue a character of more than one byte: [0x80 ..= 0xBF]. *)
Definition is_continuation : ascii -> bool := in_range 128 191.

(** [s.chars().count()] *)
Fixpoint chars_count (s : string) : nat :=
  match s with
  | EmptyString => 0
  | String c s' => (if is_continuation c then 0 else 1) + chars_count s'
  end.

(** [value.chars().take(n).collect()] *)
Fixpoint chars_take (n : nat) (s : string) : string :=
  match s with
  | EmptyString => EmptyString
  | String c s' =>
      if is_continuation c then String c (chars_take n s')
      else match n with O => EmptyString | S n => String c (chars_take n s') end
  end.

(** [s.is_char_boundary(n)]: the ends of the string, and the bytes that start a character. *)
Fixpoint is_char_boundary (s : string) (n : nat) : bool :=
  match n, s with
  | O, _ => true
  | S _, EmptyString => false
  | S O, String _ EmptyString => true
  | S O, String _ (String c _) => negb (is_continuation c)
  | S n', String _ s' => is_char_boundary s' n'
  end.

(** [&s[..n]] *)
Fixpoint str_take (n : nat) (s : string) : string :=
  match n, s with
  | S n', String c s' => String c (str_take n' s')
  | _, _ => EmptyString
  end.

(** The column of the first character that is not whitespace, one-based; 1 on a blank line. *)
Definition first_non_whitespace_column (line : string) : nat :=
  let rest := trim_start line in
  if is_empty rest then 1 else String.length line - String.length rest + 1.

(** ** Lemmas *)

Lemma split_str_Some p s l r : split_str p s = Some (l, r) -> s = l +:+ (p +:+ r).
Proof.
  revert l r; induction s as [|c s IH]; intros l r; simpl.
  - destruct (strip_prefix p "") as [r'|] eqn:E; [|done]. intros [= <- <-].
    by apply strip_prefix_Some in E.
  - destruct (strip_prefix p (String c s)) as [r'|] eqn:E.
    + intros [= <- <-]. by apply strip_prefix_Some in E.
    + destruct (split_str p s) as [[l' r']|]; [|done]. intros [= <- <-]. simpl. f_equal. by apply IH.
Qed.

Lemma split_str_None p s : split_str p s = None <-> forall l r, s <> l +:+ (p +:+ r).
Proof.
  induction s as [|c s IH]; simpl.
  - destruct (strip_prefix p "") as [r|] eqn:E.
    + split; [done|]. intros H. apply strip_prefix_Some in E. by destruct (H "" r).
    + split; [|done]. intros _ [|d l] r Heq; [|done]. simpl in Heq.
      by rewrite Heq, strip_prefix_app in E.
  - destruct (strip_prefix p (String c s)) as [r|] eqn:E.
    + split; [done|]. intros H. apply strip_prefix_Some in E. by destruct (H "" r).
    + split.
      * destruct (split_str p s) as [[l' r']|]; [done|]. intros _ [|d l] r Heq; simpl in Heq.
        -- by rewrite Heq, strip_prefix_app in E.
        -- injection Heq as <- Heq. by destruct (proj1 IH eq_refl l r).
      * intros H. destruct (split_str p s) as [[l' r']|] eqn:Es; [|done].
        apply split_str_Some in Es. by destruct (H (String c l') r'); rewrite Es.
Qed.

(** The occurrence found is the first. *)
Lemma split_str_first p s l r l' r' :
  split_str p s = Some (l, r) -> s = l' +:+ (p +:+ r') -> String.length l <= String.length l'.
Proof.
  revert l r l'; induction s as [|c s IH]; intros l r l' H Heq.
  - simpl in H. destruct (strip_prefix p "") eqn:E; [|done]. injection H as <- <-. simpl. lia.
  - simpl in H. destruct (strip_prefix p (String c s)) as [x|] eqn:E.
    + injection H as <- <-. simpl. lia.
    + destruct (split_str p s) as [[a b]|] eqn:Es; [|done]. injection H as <- <-.
      destruct l' as [|d l']; simpl in Heq.
      * by rewrite Heq, strip_prefix_app in E.
      * injection Heq as <- Heq. apply le_n_S. by eapply IH.
Qed.

Lemma split_str_length p s l r :
  split_str p s = Some (l, r) -> String.length s = String.length l + String.length p + String.length r.
Proof. intros ->%split_str_Some. rewrite !length_app_str. lia. Qed.

Lemma contains_str_spec p s : contains_str p s = true <-> exists l r, s = l +:+ (p +:+ r).
Proof.
  unfold contains_str. destruct (split_str p s) as [[l r]|] eqn:E.
  - apply split_str_Some in E. split; eauto.
  - split; [done|]. intros (l & r & Heq). by destruct (proj1 (split_str_None p s) E l r).
Qed.

Lemma split_char_nonempty c s : split_char c s <> [].
Proof. destruct s; simpl; [done|]. case_decide; [done|]. by destruct (split_char c s). Qed.

(** Joining what was split gives the string back. *)
Lemma split_char_concat c s : String.concat (String c EmptyString) (split_char c s) = s.
Proof.
  induction s as [|d s IH]; [done|]. simpl split_char. pose proof (split_char_nonempty c s).
  case_decide as Hd; destruct (split_char c s) as [|x xs]; try done.
  - subst d. change (String c (String.concat (String c "") (x :: xs)) = String c s). by rewrite IH.
  - destruct xs; simpl in *; by rewrite IH.
Qed.

Lemma split_char_plain c s : contains c s = false -> split_char c s = [s].
Proof.
  induction s as [|d s IH]; cbn [contains split_char]; [done|]. intros [Hd Hs]%orb_false_iff.
  apply bool_decide_eq_false in Hd. by rewrite decide_False, IH.
Qed.

Lemma split_char_app c a b : split_char c (a +:+ String c b) = split_char c a ++ split_char c b.
Proof.
  induction a as [|d a IH]; cbn [String.append split_char].
  - by rewrite decide_True.
  - case_decide; [by rewrite IH|]. rewrite IH.
    destruct (split_char c a) as [|x xs] eqn:E; [by apply split_char_nonempty in E|]. done.
Qed.

Lemma split_char_contains c s x : x ∈ split_char c s -> contains c x = false.
Proof.
  revert x; induction s as [|d s IH]; intros x; simpl; [by intros ->%list_elem_of_singleton|].
  case_decide as Hd; [intros [->|]%elem_of_cons; eauto|].
  pose proof (split_char_nonempty c s). destruct (split_char c s) as [|y ys]; [done|].
  intros [->|]%elem_of_cons; [|apply IH; set_solver].
  simpl. rewrite bool_decide_eq_false_2 by done. apply IH. set_solver.
Qed.

Lemma length_rev_string s : String.length (rev_string s) = String.length s.
Proof.
  induction s as [|c s IH]; [done|]. rewrite rev_string_cons, length_app_str, IH. simpl. lia.
Qed.

Lemma trim_start_suffix s : exists w, s = w +:+ trim_start s.
Proof.
  induction s as [s IH] using (induction_ltof1 _ String.length). unfold ltof in IH.
  destruct s as [|a s1]; [by exists ""|]. cbn [trim_start].
  destruct (ws1 a).
  { destruct (IH s1) as [w Hw]; [simpl; lia|]. exists (String a w). simpl. by rewrite <- Hw. }
  destruct s1 as [|b s2]; [by exists ""|]. destruct (ws2 a b).
  { destruct (IH s2) as [w Hw]; [simpl; lia|]. exists (String a (String b w)). simpl. by rewrite <- Hw. }
  destruct s2 as [|c s3]; [by exists ""|]. destruct (ws3 a b c).
  { destruct (IH s3) as [w Hw]; [simpl; lia|].
    exists (String a (String b (String c w))). simpl. by rewrite <- Hw. }
  by exists "".
Qed.

Lemma length_trim_start s : String.length (trim_start s) <= String.length s.
Proof. destruct (trim_start_suffix s) as [w Hw]. rewrite Hw at 2. rewrite length_app_str. lia. Qed.

(** Trimming a trimmed string changes nothing. *)
Lemma trim_start_idem s : trim_start (trim_start s) = trim_start s.
Proof.
  induction s as [s IH] using (induction_ltof1 _ String.length). unfold ltof in IH.
  destruct s as [|a s1]; [done|]. cbn [trim_start]. destruct (ws1 a) eqn:E1; [apply IH; simpl; lia|].
  destruct s1 as [|b s2]; [cbn [trim_start]; by rewrite E1|]. destruct (ws2 a b) eqn:E2; [apply IH; simpl; lia|].
  destruct s2 as [|c s3]; [cbn [trim_start]; by rewrite E1, E2|]. destruct (ws3 a b c) eqn:E3; [apply IH; simpl; lia|].
  cbn [trim_start]. by rewrite E1, E2, E3.
Qed.

Lemma trim_rev_idem s : trim_rev (trim_rev s) = trim_rev s.
Proof.
  induction s as [s IH] using (induction_ltof1 _ String.length). unfold ltof in IH.
  destruct s as [|a s1]; [done|]. cbn [trim_rev]. destruct (ws1 a) eqn:E1; [apply IH; simpl; lia|].
  destruct s1 as [|b s2]; [cbn [trim_rev]; by rewrite E1|]. destruct (ws2 b a) eqn:E2; [apply IH; simpl; lia|].
  destruct s2 as [|c s3]; [cbn [trim_rev]; by rewrite E1, E2|]. destruct (ws3 c b a) eqn:E3; [apply IH; simpl; lia|].
  cbn [trim_rev]. by rewrite E1, E2, E3.
Qed.

Lemma trim_rev_suffix s : exists w, s = w +:+ trim_rev s.
Proof.
  induction s as [s IH] using (induction_ltof1 _ String.length). unfold ltof in IH.
  destruct s as [|a s1]; [by exists ""|]. cbn [trim_rev]. destruct (ws1 a).
  { destruct (IH s1) as [w Hw]; [simpl; lia|]. exists (String a w). simpl. by rewrite <- Hw. }
  destruct s1 as [|b s2]; [by exists ""|]. destruct (ws2 b a).
  { destruct (IH s2) as [w Hw]; [simpl; lia|]. exists (String a (String b w)). simpl. by rewrite <- Hw. }
  destruct s2 as [|c s3]; [by exists ""|]. destruct (ws3 c b a); [|by exists ""].
  destruct (IH s3) as [w Hw]; [simpl; lia|]. exists (String a (String b (String c w))). simpl. by rewrite <- Hw.
Qed.

Lemma trim_start_prefix r w : trim_start (r +:+ w) = r +:+ w -> trim_start r = r.
Proof.
  assert (forall t u : string, trim_start t = u -> String.length t < String.length u -> False) as Hlen.
  { intros t u <- H. pose proof (length_trim_start t). lia. }
  destruct r as [|a r]; [done|]. cbn [String.append trim_start]. destruct (ws1 a) eqn:E1; [intros H; exfalso; eapply Hlen; [exact H|simpl; lia]|].
  destruct r as [|b r]; [done|]. cbn [String.append]. destruct (ws2 a b) eqn:E2; [intros H; exfalso; eapply Hlen; [exact H|simpl; lia]|].
  destruct r as [|c r]; [done|]. cbn [String.append]. destruct (ws3 a b c) eqn:E3; [intros H; exfalso; eapply Hlen; [exact H|simpl; lia]|done].
Qed.

Lemma trim_idem s : trim (trim s) = trim s.
Proof.
  unfold trim. set (t := trim_start s). assert (trim_start (trim_end t) = trim_end t) as ->.
  - destruct (trim_rev_suffix (rev_string t)) as [w Hw]. apply (f_equal rev_string) in Hw.
    rewrite rev_string_app, rev_string_involutive in Hw. apply (trim_start_prefix _ (rev_string w)).
    unfold trim_end. rewrite <- Hw. apply trim_start_idem.
  - unfold trim_end. by rewrite rev_string_involutive, trim_rev_idem.
Qed.

Lemma first_non_whitespace_column_bound line :
  1 <= first_non_whitespace_column line <= String.length line + 1.
Proof. unfold first_non_whitespace_column. destruct (is_empty _); lia. Qed.

Lemma length_str_take n s : String.length (str_take n s) = Nat.min n (String.length s).
Proof. revert s; induction n as [|n IH]; intros [|c s]; simpl; [done..|]. by rewrite IH. Qed.

Lemma str_take_app n s : exists r, s = str_take n s +:+ r.
Proof.
  revert s; induction n as [|n IH]; intros [|c s]; simpl; [by eexists..|].
  destruct (IH s) as [r Hr]. exists r. by rewrite <- Hr.
Qed.

(** * Integers as text

    [str::parse] for unsigned integers, with the errors it gives, and the decimal digits that
    formatting writes. *)

(** [IntErrorKind] of [ParseIntError] *)
Inductive ParseIntError := IntEmpty | IntInvalidDigit | IntPosOverflow.

(** [ParseIntError]'s [Display::fmt] *)
Definition parse_int_error_text (e : ParseIntError) : string :=
  match e with
  | IntEmpty => "cannot parse integer from empty string"
  | IntInvalidDigit => "invalid digit found in string"
  | IntPosOverflow => "number too large to fit in target type"
  end.

(** [char::to_digit(radix)], for a radix of at most 16 *)
Definition to_digit (radix : N) (c : ascii) : option N :=
  let v := byte_val c in
  let d := (if is_ascii_digit c then v - 48
            else if in_range 97 122 c then v - 87
            else if in_range 65 90 c then v - 55 else radix)%N in
  if decide (d < radix)%N then Some d else None.

(** The digits after an optional sign; at each character an invalid digit is seen before an overflow. *)
Fixpoint parse_digits (width radix : N) (s : string) (acc : N) : N + ParseIntError :=
  match s with
  | EmptyString => inl acc
  | String c s =>
      match to_digit radix c with
      | None => inr IntInvalidDigit
      | Some d =>
          let n := (acc * radix + d)%N in
          if decide (n <= umax width)%N then parse_digits width radix s n else
          inr IntPosOverflow
      end
  end.

(** [uN::from_str_radix(s, radix)]: one [+] may precede the digits. *)
Definition from_str_radix (width radix : N) (s : string) : N + ParseIntError :=
  match s with
  | EmptyString => inr IntEmpty
  | String "+" EmptyString | String "-" EmptyString => inr IntInvalidDigit
  | String "+" digits => parse_digits width radix digits 0
  | _ => parse_digits width radix s 0
  end.

(** [s.parse::<u64>()] *)
Definition parse_u64 (s : string) : N + ParseIntError := from_str_radix 64 10 s.

(** ** Round trip *)

Lemma pretty_N_go_app x s : pretty_N_go x s = pretty_N_go x "" +:+ s.
Proof.
  revert s. induction (N.lt_wf_0 x) as [x _ IH]. intros s.
  destruct (decide (x = 0)%N) as [->|Hx]; [done|].
  rewrite (pretty_N_go_step x s), (pretty_N_go_step x "") by lia.
  pose proof (N.div_lt x 10 ltac:(lia) ltac:(lia)) as Hlt.
  rewrite (IH _ Hlt (String _ s)), (IH _ Hlt (String _ "")). by rewrite <- app_assoc_str.
Qed.

Lemma pretty_N_char_digit d : (d < 10)%N -> to_digit 10 (pretty_N_char d) = Some d.
Proof.
  intros Hd. assert (d = 0 \/ d = 1 \/ d = 2 \/ d = 3 \/ d = 4 \/ d = 5 \/ d = 6 \/ d = 7 \/ d = 8 \/ d = 9)%N as Hc by lia.
  naive_solver.
Qed.

Lemma pretty_N_char_is_digit d : (d < 10)%N -> is_ascii_digit (pretty_N_char d) = true.
Proof.
  intros Hd. assert (d = 0 \/ d = 1 \/ d = 2 \/ d = 3 \/ d = 4 \/ d = 5 \/ d = 6 \/ d = 7 \/ d = 8 \/ d = 9)%N as Hc by lia.
  naive_solver.
Qed.

Lemma parse_digits_app width radix a b acc :
  parse_digits width radix (a +:+ b) acc
  = match parse_digits width radix a acc with inl n => parse_digits width radix b n | inr e => inr e end.
Proof.
  revert acc. induction a as [|c a IH]; intros acc; simpl; [done|].
  destruct (to_digit radix c) as [d|]; [|done]. case_decide; [apply IH|done].
Qed.

Lemma parse_pretty_go width x : fits width x -> parse_digits width 10 (pretty_N_go x "") 0 = inl x.
Proof.
  unfold fits. induction (N.lt_wf_0 x) as [x _ IH]. intros Hx.
  destruct (decide (x = 0)%N) as [->|Hx0]; [done|].
  pose proof (N.div_mod x 10 ltac:(done)). pose proof (N.mod_lt x 10 ltac:(done)).
  pose proof (N.div_lt x 10 ltac:(lia) ltac:(lia)).
  rewrite pretty_N_go_step by lia. rewrite pretty_N_go_app, parse_digits_app.
  rewrite IH by lia. cbn [parse_digits].
  rewrite pretty_N_char_digit by done. cbv zeta.
  replace (x `div` 10 * 10 + x `mod` 10)%N with x by lia. by rewrite decide_True.
Qed.

Lemma pretty_go_digits x : bytes_all is_ascii_digit (pretty_N_go x "") = true.
Proof.
  induction (N.lt_wf_0 x) as [x _ IH]. destruct (decide (x = 0)%N) as [->|Hx0]; [done|].
  pose proof (N.div_lt x 10 ltac:(lia) ltac:(lia)).
  rewrite pretty_N_go_step, pretty_N_go_app, bytes_all_app, IH by lia.
  cbn [bytes_all]. by rewrite pretty_N_char_is_digit by (apply N.mod_lt; lia).
Qed.

Lemma pretty_N_digits (n : N) : bytes_all is_ascii_digit (pretty n) = true.
Proof. unfold pretty, pretty_N. case_decide; [done|apply pretty_go_digits]. Qed.

Lemma pretty_N_nonempty (n : N) : pretty n <> "".
Proof.
  unfold pretty, pretty_N. case_decide; [done|]. rewrite pretty_N_go_step, pretty_N_go_app by lia.
  by destruct (pretty_N_go _ _).
Qed.

Lemma parse_digits_only width radix s : bytes_all is_ascii_digit s = true -> s <> "" ->
  from_str_radix width radix s = parse_digits width radix s 0.
Proof.
  destruct s as [|c s]; [done|]. simpl. intros [Hc _]%andb_true_iff _.
  destruct c as [[] [] [] [] [] [] [] []]; try discriminate; reflexivity.
Qed.

(** What formatting an unsigned integer writes is read back as it was. *)
Lemma from_str_radix_pretty width (n : N) : fits width n -> from_str_radix width 10 (pretty n) = inl n.
Proof.
  intros Hn. rewrite parse_digits_only by (apply pretty_N_digits || apply pretty_N_nonempty).
  unfold pretty, pretty_N. case_decide as H; [|by apply parse_pretty_go].
  subst. cbn [parse_digits]. change (to_digit 10 "0") with (Some 0%N). cbv zeta. cbn match. by rewrite decide_True.
Qed.

Lemma parse_u64_pretty (n : N) : fits 64 n -> parse_u64 (pretty n) = inl n.
Proof. apply from_str_radix_pretty. Qed.

Lemma parse_digits_fits width radix s acc n : fits width acc -> parse_digits width radix s acc = inl n -> fits width n.
Proof.
  revert acc. induction s as [|c s IH]; intros acc; simpl; [by intros ? [= <-]|].
  destruct (to_digit radix c) as [d|]; [|done]. case_decide; [|done]. intros _. by apply IH.
Qed.

Lemma from_str_radix_fits width radix s n : from_str_radix width radix s = inl n -> fits width n.
Proof.
  assert (fits width 0) as H0 by (unfold fits; lia).
  destruct s as [|c s]; [done|]. unfold from_str_radix.
  destruct c as [[] [] [] [] [] [] [] []]; try (intros H; exact (parse_digits_fits _ _ _ _ _ H0 H));
    (destruct s as [|c s]; [done|intros H; exact (parse_digits_fits _ _ _ _ _ H0 H)]).
Qed.

Lemma parse_u64_fits s n : parse_u64 s = inl n -> fits 64 n.
Proof. apply from_str_radix_fits. Qed.

(** A number on a line of its own, as the sources write and read it. *)
Lemma trim_line s : bytes_all is_ascii_graphic s = true -> trim (s +:+ String (ascii_of_nat 10) EmptyString) = s.
Proof.
  intros Hs. destruct s as [|c s]; [done|]. unfold trim, trim_end.
  assert (trim_start (String c s +:+ String (ascii_of_nat 10) EmptyString) = String c s +:+ String (ascii_of_nat 10) EmptyString) as ->.
  { pose proof Hs as [Hc _]%andb_true_iff. apply graphic_not_ws in Hc as (H1 & H2 & _ & H3 & _). cbn [trim_start String.append].
    rewrite H1. destruct s as [|b [|d s]]; cbn [String.append]; by rewrite ?H2, ?H3. }
  rewrite rev_string_app. change (rev_string (String (ascii_of_nat 10) EmptyString)) with (String (ascii_of_nat 10) EmptyString).
  change (trim_rev (String (ascii_of_nat 10) EmptyString +:+ rev_string (String c s))) with (trim_rev (rev_string (String c s))).
  rewrite trim_rev_graphic by (by rewrite bytes_all_rev). apply rev_string_involutive.
Qed.

Lemma trim_number (n : N) : trim (pretty n +:+ String (ascii_of_nat 10) EmptyString) = pretty n.
Proof.
  apply trim_line. eapply bytes_all_impl; [|apply pretty_N_digits]. intros c Hc. apply alphanumeric_graphic.
  unfold is_ascii_alphanumeric. by rewrite Hc, orb_true_r.
Qed.
