(* ===== verification/WfModel.v ===== *)
(** * Workflow documents: what the author writes, errors, and the compiled plan
      ([hya-workflow/src/{compiler,error,model}.rs])

    The author's records as the YAML frontmatter declares them, source-located errors, and the
    normalized plan.  Line, column and index counts are [nat]; a [u32] field is an [N]. *)

From S2P Require Import Prelude Result RustStr Text.

Definition MAX_WORKFLOW_MODEL_ID_CHARS : nat := 256.
Definition MAX_WORKFLOW_REASONING_CHARS : nat := 64.

(** ** Errors *)

Inductive WorkflowCompileErrorKind := Frontmatter | Graph | Validation.

Record WorkflowCompileError := mkWorkflowCompileError {
  source_name : string;
  error_kind : WorkflowCompileErrorKind;
  error_line : nat;
  error_column : nat;
  error_message : string;
}.

Definition with_kind kind (source : string) (line column : nat) (message : string) :
    WorkflowCompileError :=
  mkWorkflowCompileError source kind (Nat.max line 1) (Nat.max column 1) message.
(** [new], [frontmatter] and [graph] *)
Definition validation_error := with_kind Validation.
Definition frontmatter_error := with_kind Frontmatter.
Definition graph_error := with_kind Graph.

Record SourcePoint := mkSourcePoint { sp_line : nat; sp_column : nat }.

(** [WorkflowCompileError::kind(source, location.line, location.column, message)] *)
Definition error_at (mk : string -> nat -> nat -> string -> WorkflowCompileError)
    (source : string) (location : SourcePoint) (message : string) : WorkflowCompileError :=
  mk source (sp_line location) (sp_column location) message.

(** ** Model routes, verifiers and modes *)

Inductive FailurePolicy := FailFast | CollectAll.
Inductive StageMode := Once | Loop.
#[global] Instance FailurePolicy_eq_dec : EqDecision FailurePolicy.
Proof. solve_decision. Defined.
#[global] Instance StageMode_eq_dec : EqDecision StageMode.
Proof. solve_decision. Defined.

Record WorkflowModelCandidate := mkCandidate { mc_id : string; mc_reasoning : option string }.

Record WorkflowModelAssignment := mkAssignment {
  ma_id : string;
  ma_reasoning : option string;
  ma_fallback : list WorkflowModelCandidate;
}.

Record VerifySpec := mkVerifySpec {
  vs_agent : string;
  vs_until : string;
  vs_max_iterations : N;
  vs_model : option WorkflowModelAssignment;
}.

(** ** The author's document *)

Record AuthorNode := mkAuthorNode {
  an_title : option string;
  an_agent : string;
  an_directive : string;
  an_mode : StageMode;
  an_verify : option VerifySpec;
  an_model : option WorkflowModelAssignment;
  an_actor : option string;
}.

Record AuthorWorkflow := mkAuthorWorkflow {
  aw_kind : string;
  aw_name : string;
  aw_description : string;
  aw_inputs : gmap string string;
  aw_on_failure : FailurePolicy;
  aw_nodes : gmap string AuthorNode;
}.

(** ** The graph *)

Record GraphEdge := mkGraphEdge {
  ge_from : string;
  ge_to : string;
  ge_from_location : SourcePoint;
  ge_to_location : SourcePoint;
}.

Record GraphEndpoint := mkGraphEndpoint { ep_id : string; ep_location : SourcePoint }.

Record ParsedGraph := mkParsedGraph {
  pg_order : list string;
  pg_node_locations : gmap string SourcePoint;
  pg_edges : list GraphEdge;
}.

(** ** The compiled plan *)

Record WorkflowDefinition := mkWorkflowDefinition {
  wd_name : string;
  wd_description : string;
  wd_inputs : gmap string string;
  wd_on_failure : FailurePolicy;
}.

Record WorkflowStage := mkWorkflowStage {
  st_id : string;
  st_title : option string;
  st_agent : string;
  st_directive : string;
  st_level : nat;
  st_mode : StageMode;
  st_verify : option VerifySpec;
  st_model : option WorkflowModelAssignment;
  st_actor : option string;
  st_predecessor_indices : list nat;
}.

Record WorkflowLevel := mkWorkflowLevel { stage_indices : list nat }.

Record WorkflowPlan := mkWorkflowPlan {
  plan_stages : list WorkflowStage;
  plan_levels : list WorkflowLevel;
}.

(** [WorkflowPlan::stage_index] *)
Definition stage_index (plan : WorkflowPlan) (id : string) : option nat :=
  position (fun stage => st_id stage = id) (plan_stages plan).

Record CompiledWorkflow := mkCompiledWorkflow {
  cw_definition : WorkflowDefinition;
  cw_plan : WorkflowPlan;
  cw_revision : string;
}.

(** ** The crates below

    [serde_norway] reads the frontmatter; a deserialized [u32] is in its range.  SHA-256 is a
    function on byte strings. *)
Class WorkflowLib := {
  yaml_from_str : string -> AuthorWorkflow + string;
  sha256 : string -> string;
  yaml_u32 s author id node verify :
    yaml_from_str s = inl author -> aw_nodes author !! id = Some node ->
    an_verify node = Some verify -> fits 32 (vs_max_iterations verify);
}.
