(* ===== verification/Compiler.v ===== *)
(** * The Workflow compiler ([hya-workflow/src/compiler.rs])

    One definition per function of the file, in its order: the frontmatter split and scan, the
    author's validation, the flowchart parser, topological levels, normalization and the
    canonical bytes whose SHA-256 is the revision. *)

From stdpp Require Import sorting pretty.
From S2P Require Import Prelude Result RustStr Text WfModel.

(** ** Identifiers *)

Definition is_identifier_byte (byte : ascii) : bool :=
  is_ascii_lowercase byte || is_ascii_digit byte
  || bool_decide (byte = "-"%char) || bool_decide (byte = "_"%char).

Definition valid_identifier (value : string) : bool :=
  negb (is_empty value) && bytes_all is_identifier_byte value.

(** ** Frontmatter *)

(** [lines] is the whole document.  The text between the fences, and the index of the line behind
    the closing fence. *)
Definition split_frontmatter (source : string) (lines : list string) :
    (string * nat) + WorkflowCompileError :=
  if decide (trim_end_matches CR <$> head lines <> Some "---") then
    inr (frontmatter_error source 1 1 "Workflow document must start with YAML frontmatter")
  else match position (fun line => trim_end_matches CR line = "---") (tail lines) with
       | None => inr (frontmatter_error source 1 1 "Workflow frontmatter has no closing `---` fence")
       | Some before =>
           let closing := S before in
           inl (String.concat (String LF EmptyString) (take before (tail lines)), closing + 1)
       end.

(** One line of the scan: [None] leaves the loop ([break]). *)
Definition scan_line (source : string) (line_number : nat) (raw : string)
    (in_nodes : bool) (locations : gmap string SourcePoint) :
    option (bool * gmap string SourcePoint) + WorkflowCompileError :=
  let trimmed := trim raw in
  if is_empty trimmed || starts_with "#" trimmed then inl (Some (in_nodes, locations))
  else
    let indentation := leading_count " " raw in
    if negb in_nodes then
      inl (Some (bool_decide (indentation = 0) && bool_decide (trimmed = "nodes:"), locations))
    else if decide (indentation = 0) then inl None
    else if negb (bool_decide (indentation = 2)) || negb (ends_with ":" trimmed)
    then inl (Some (in_nodes, locations))
    else
      let id := trim_end_matches ":" trimmed in
      let location := mkSourcePoint line_number 3 in
      match locations !! id with
      | Some _ => inr (error_at frontmatter_error source location ("duplicate node `" +:+ id +:+ "`"))
      | None => inl (Some (in_nodes, <[id := location]> locations))
      end.

Fixpoint scan_lines (source : string) (line_number : nat) (lines : list string)
    (in_nodes : bool) (locations : gmap string SourcePoint) :
    gmap string SourcePoint + WorkflowCompileError :=
  match lines with
  | [] => inl locations
  | raw :: lines =>
      let? next := scan_line source line_number raw in_nodes locations in
      match next with
      | None => inl locations
      | Some (in_nodes, locations) => scan_lines source (S line_number) lines in_nodes locations
      end
  end.

Definition scan_frontmatter_nodes (source : string) (lines : list string) (first_line_number : nat) :
    gmap string SourcePoint + WorkflowCompileError :=
  scan_lines source first_line_number lines false ∅.

(** ** Model routes *)

Definition normalize_model_id (source stage role entry value : string) (location : SourcePoint) :
    string + WorkflowCompileError :=
  let trimmed := trim value in
  let where_ := "node `" +:+ stage +:+ "` " +:+ role +:+ " " +:+ entry in
  if is_empty trimmed then
    inr (error_at validation_error source location (where_ +:+ " model id must not be empty"))
  else if decide (MAX_WORKFLOW_MODEL_ID_CHARS < chars_count trimmed) then
    inr (error_at validation_error source location
           (where_ +:+ " model id exceeds " +:+ pretty MAX_WORKFLOW_MODEL_ID_CHARS +:+ " characters"))
  else if contains "#" trimmed then
    inr (error_at validation_error source location
           (where_ +:+ " model id `" +:+ trimmed +:+ "` must not include a variant suffix"))
  else inl trimmed.

Definition normalize_reasoning (source stage role entry : string) (value : option string)
    (location : SourcePoint) : option string + WorkflowCompileError :=
  let where_ := "node `" +:+ stage +:+ "` " +:+ role +:+ " " +:+ entry in
  try_option (fun value =>
    let trimmed := trim value in
    if is_empty trimmed then
      inr (error_at validation_error source location (where_ +:+ " reasoning must not be empty"))
    else if decide (MAX_WORKFLOW_REASONING_CHARS < chars_count trimmed) then
      inr (error_at validation_error source location
             (where_ +:+ " reasoning exceeds " +:+ pretty MAX_WORKFLOW_REASONING_CHARS +:+ " characters"))
    else inl trimmed) value.

Definition duplicate_model_route_error (source stage role id : string) (reasoning : option string)
    (location : SourcePoint) : WorkflowCompileError :=
  error_at validation_error source location
    ("node `" +:+ stage +:+ "` " +:+ role +:+ " model route contains duplicate pair (`" +:+ id
     +:+ "`, `" +:+ default "<omitted>" reasoning +:+ "`)").

(** One fallback candidate: the route pairs seen so far, and the candidates kept. *)
Definition normalize_candidate (source stage role : string) (location : SourcePoint)
    (state : gset (string * option string) * list WorkflowModelCandidate)
    (item : nat * WorkflowModelCandidate) :
    (gset (string * option string) * list WorkflowModelCandidate) + WorkflowCompileError :=
  let '(seen, fallback) := state in
  let '(index, candidate) := item in
  let entry := "fallback[" +:+ pretty index +:+ "]" in
  let? id := normalize_model_id source stage role entry (mc_id candidate) location in
  let? reasoning := normalize_reasoning source stage role entry (mc_reasoning candidate) location in
  if decide ((id, reasoning) ∈ seen)
  then inr (duplicate_model_route_error source stage role id reasoning location)
  else inl ({[ (id, reasoning) ]} ∪ seen, fallback ++ [mkCandidate id reasoning]).

Definition normalize_model_assignment (source stage role : string)
    (assignment : WorkflowModelAssignment) (location : SourcePoint) :
    WorkflowModelAssignment + WorkflowCompileError :=
  let? preferred_id :=
    normalize_model_id source stage role "preferred" (ma_id assignment) location in
  let? preferred_reasoning :=
    normalize_reasoning source stage role "preferred" (ma_reasoning assignment) location in
  let? kept :=
    try_fold (normalize_candidate source stage role location)
      ({[ (preferred_id, preferred_reasoning) ]}, []) (imap pair (ma_fallback assignment)) in
  inl (mkAssignment preferred_id preferred_reasoning kept.2).

Definition validate_model_assignment (source stage role : string)
    (assignment : WorkflowModelAssignment) (location : SourcePoint) : unit + WorkflowCompileError :=
  let? _ := normalize_model_assignment source stage role assignment location in inl tt.

(** ** Input placeholders *)

(** The scan of [validate_input_template]: [rest] shrinks in every turn, and [fuel] bounds its
    length ([template_fuel_enough]). *)
Fixpoint template_loop (fuel : nat) (source stage : string) (inputs : gmap string string)
    (location : SourcePoint) (rest : string) : unit + WorkflowCompileError :=
  let fail message := inr (error_at validation_error source location ("node `" +:+ stage +:+ message)) in
  match fuel, split_str "{{" rest with
  | S fuel, Some (_, after) =>
      match split_str "}}" after with
      | None => fail "` has an unclosed input placeholder"
      | Some (inner, after_token) =>
          let token := trim inner in
          match strip_prefix "input." token with
          | None =>
              fail ("` uses `{{" +:+ token +:+ "}}`; only `{{input.<name>}}` placeholders are public")
          | Some input =>
              if negb (valid_identifier input) || bool_decide (inputs !! input = None)
              then fail ("` references undeclared input `" +:+ input +:+ "`")
              else template_loop fuel source stage inputs location after_token
          end
      end
  | _, _ =>
      if contains_str "}}" rest then fail "` has an unmatched placeholder terminator" else inl tt
  end.

Definition validate_input_template (source stage template : string) (inputs : gmap string string)
    (location : SourcePoint) : unit + WorkflowCompileError :=
  template_loop (S (String.length template)) source stage inputs location template.

(** ** The author's declarations *)

(** The checks on one node's verifier and mode. *)
Definition validate_mode (source id : string) (node : AuthorNode) (inputs : gmap string string)
    (location : SourcePoint) : unit + WorkflowCompileError :=
  let fail message := inr (error_at validation_error source location ("node `" +:+ id +:+ message)) in
  match an_mode node, an_verify node with
  | Loop, None => fail "` mode `loop` requires a verifier"
  | Once, Some _ => fail "` declares verify but mode is `once`"
  | Loop, Some verify =>
      if is_empty (trim (vs_agent verify)) || is_empty (trim (vs_until verify))
      then fail "` verifier requires Agent and until"
      else if decide (vs_max_iterations verify = 0%N)
      then fail "` verifier max_iterations must be at least 1"
      else validate_input_template source id (vs_until verify) inputs location
  | Once, None => inl tt
  end.

(** The actor keys declared so far, with their agents. *)
Definition validate_actor (source id : string) (node : AuthorNode) (location : SourcePoint)
    (actor_agents : gmap string string) : gmap string string + WorkflowCompileError :=
  let fail message := inr (error_at validation_error source location message) in
  match an_actor node with
  | None => inl actor_agents
  | Some actor =>
      if negb (valid_identifier actor)
      then fail ("node `" +:+ id +:+ "` has invalid actor key `" +:+ actor +:+ "`")
      else match actor_agents !! actor with
           | Some previous_agent =>
               if decide (previous_agent <> an_agent node)
               then fail ("actor key `" +:+ actor +:+ "` targets both `" +:+ previous_agent
                          +:+ "` and `" +:+ an_agent node +:+ "`")
               else inl (<[actor := an_agent node]> actor_agents)
           | None => inl (<[actor := an_agent node]> actor_agents)
           end
  end.

Definition validate_node (source : string) (inputs : gmap string string)
    (node_locations : gmap string SourcePoint) (actor_agents : gmap string string)
    (entry : string * AuthorNode) : gmap string string + WorkflowCompileError :=
  let '(id, node) := entry in
  let location := default (mkSourcePoint 2 1) (node_locations !! id) in
  let fail message := error_at validation_error source location ("node `" +:+ id +:+ message) in
  let? _ := ensure (valid_identifier id)
    (error_at validation_error source location ("invalid node identifier `" +:+ id +:+ "`")) in
  let? _ := ensure (negb (is_empty (trim (an_agent node)))) (fail "` must declare an Agent") in
  let? _ := ensure (negb (is_empty (trim (an_directive node)))) (fail "` must declare a directive") in
  let? _ := validate_input_template source id (an_directive node) inputs location in
  let? _ := try_option (fun model =>
    validate_model_assignment source id "worker" model location) (an_model node) in
  let? _ := try_option (fun model =>
    validate_model_assignment source id "verifier" model location) (an_verify node ≫= vs_model) in
  let? _ := validate_mode source id node inputs location in
  let? _ := ensure (bool_decide (an_actor node = None) || negb (bool_decide (an_mode node = Loop)))
    (fail "` cannot combine actor and loop modes") in
  validate_actor source id node location actor_agents.

Definition validate_author (source : string) (author : AuthorWorkflow)
    (node_locations : gmap string SourcePoint) : unit + WorkflowCompileError :=
  let? _ := ensure (bool_decide (aw_kind author = "Workflow"))
    (validation_error source 2 1 "frontmatter `kind` must be `Workflow`") in
  let? _ := ensure (valid_identifier (aw_name author))
    (validation_error source 2 1 ("invalid Workflow name `" +:+ aw_name author +:+ "`")) in
  let? _ := ensure (negb (is_empty (trim (aw_description author))))
    (validation_error source 2 1 "Workflow description must not be empty") in
  let? _ := ensure (negb (bool_decide (aw_nodes author = ∅)))
    (validation_error source 2 1 "Workflow must declare at least one node") in
  let? _ := try_each (fun input =>
    ensure (valid_identifier input)
      (validation_error source 2 1 ("invalid input identifier `" +:+ input +:+ "`")))
    (btree_keys (aw_inputs author)) in
  let? _ := try_fold (validate_node source (aw_inputs author) node_locations) ∅
    (btree_list (aw_nodes author)) in
  inl tt.

(** ** The flowchart *)

(** The endpoints of [value.split('&')], the first at column [base_offset + cursor + 1]. *)
Fixpoint group_endpoints (line_number base_offset cursor : nat) (parts : list string) :
    list GraphEndpoint :=
  match parts with
  | [] => []
  | part :: parts =>
      let leading := String.length part - String.length (trim_start part) in
      mkGraphEndpoint (trim part) (mkSourcePoint line_number (base_offset + cursor + leading + 1))
      :: group_endpoints line_number base_offset (cursor + String.length part + 1) parts
  end.

(** [endpoints.iter().find(|endpoint| !unique.insert(endpoint.id))] *)
Fixpoint first_repeated (unique : gset string) (endpoints : list GraphEndpoint) : option GraphEndpoint :=
  match endpoints with
  | [] => None
  | endpoint :: endpoints =>
      if decide (ep_id endpoint ∈ unique) then Some endpoint
      else first_repeated ({[ ep_id endpoint ]} ∪ unique) endpoints
  end.

Definition parse_endpoint_group (source : string) (line_number : nat) (value : string)
    (base_offset : nat) : list GraphEndpoint + WorkflowCompileError :=
  let endpoints := group_endpoints line_number base_offset 0 (split_char "&" value) in
  match find_first (fun endpoint => valid_identifier (ep_id endpoint) = false) endpoints with
  | Some endpoint =>
      inr (error_at graph_error source (ep_location endpoint) "edge endpoints must be stable identifiers")
  | None =>
      match first_repeated ∅ endpoints with
      | Some endpoint =>
          inr (error_at graph_error source (ep_location endpoint)
                 "an endpoint group cannot repeat a node")
      | None => inl endpoints
      end
  end.

(** The variables of the loop of [parse_graph]. *)
Record GraphState := mkGraphState {
  gs_header_seen : bool;
  gs_order : list string;
  gs_node_locations : gmap string SourcePoint;
  gs_edges : list GraphEdge;
  gs_seen_edges : gset (string * string);
}.
#[global] Instance eta_GraphState : EtaRecord GraphState :=
  fun r => mkGraphState (gs_header_seen r) (gs_order r) (gs_node_locations r) (gs_edges r)
             (gs_seen_edges r).
Definition graph_start_state : GraphState := mkGraphState false [] ∅ [] ∅.

Definition record_node (id : string) (location : SourcePoint) (st : GraphState) : GraphState :=
  match gs_node_locations st !! id with
  | Some _ => st
  | None => (st <| gs_node_locations ::= <[id := location]> |>)
              <| gs_order := gs_order st ++ [id] |>
  end.

Definition record_edge (from to : GraphEndpoint) (st : GraphState) : GraphState :=
  if decide ((ep_id from, ep_id to) ∈ gs_seen_edges st) then st
  else (st <| gs_seen_edges ::= union {[ (ep_id from, ep_id to) ]} |>)
         <| gs_edges := gs_edges st
              ++ [mkGraphEdge (ep_id from) (ep_id to) (ep_location from) (ep_location to)] |>.

(** [for s in from { for t in to { .. } }] *)
Definition record_edges (from to : list GraphEndpoint) (st : GraphState) : GraphState :=
  foldl (fun st s => foldl (fun st t => record_edge s t st) st to) st from.

Definition parse_edge_line (source : string) (line_number : nat) (raw before after : string)
    (st : GraphState) : GraphState + WorkflowCompileError :=
  let column := first_non_whitespace_column raw in
  let arrow_offset := String.length before in
  if contains_str "-->" after then
    inr (graph_error source line_number column
           "one graph line may contain only one `-->` edge operator")
  else
    let? from := parse_endpoint_group source line_number before 0 in
    let? to := parse_endpoint_group source line_number after (arrow_offset + 3) in
    if decide (1 < length from /\ 1 < length to) then
      inr (graph_error source line_number column "fan sugar may appear on only one side of an edge")
    else
      let st := foldl (fun st e => record_node (ep_id e) (ep_location e) st) st (from ++ to) in
      inl (record_edges from to st).

Definition parse_graph_line (source : string) (first_line_number : nat) (st : GraphState)
    (item : nat * string) : GraphState + WorkflowCompileError :=
  let '(offset, raw) := item in
  let line_number := first_line_number + offset in
  let line := trim raw in
  let column := first_non_whitespace_column raw in
  if is_empty line || starts_with "%%" line then inl st
  else if negb (gs_header_seen st) then
    if decide (line <> "flowchart TD")
    then inr (graph_error source line_number column "first graph line must be `flowchart TD`")
    else inl (st <| gs_header_seen := true |>)
  else match split_str "-->" raw with
       | None =>
           if valid_identifier line
           then inl (record_node line (mkSourcePoint line_number column) st)
           else inr (graph_error source line_number column
                       "expected a standalone identifier or `a --> b` edge")
       | Some (before, after) => parse_edge_line source line_number raw before after st
       end.

Definition parse_graph (source : string) (lines : list string) (first_line_number : nat) :
    ParsedGraph + WorkflowCompileError :=
  let? st := try_fold (parse_graph_line source first_line_number) graph_start_state
               (imap pair lines) in
  if negb (gs_header_seen st) then
    inr (graph_error source first_line_number 1 "Workflow body must contain `flowchart TD`")
  else if decide (gs_order st = []) then
    inr (graph_error source first_line_number 1 "Workflow graph must contain at least one node")
  else inl (mkParsedGraph (gs_order st) (gs_node_locations st) (gs_edges st)).

(** ** Topological levels *)

(** [xs[i]]; every index of a normalized graph is in range ([normalized_in_range]). *)
Definition row (xs : list (list nat)) (i : nat) : list nat := default [] (xs !! i).

(** The variables of the loop of [topological_levels]. *)
Record Kahn := mkKahn {
  k_indegree : list nat;
  k_ready : list nat;
  k_visited : nat;
  k_levels : list WorkflowLevel;
}.

(** [indegree[s] -= 1; if indegree[s] == 0 { next.push(s) }] *)
Definition release (state : list nat * list nat) (successor : nat) : list nat * list nat :=
  let '(indegree, next) := state in
  let count := default 0 (indegree !! successor) - 1 in
  (<[successor := count]> indegree, if decide (count = 0) then next ++ [successor] else next).

Definition kahn_round (successors : list (list nat)) (st : Kahn) : Kahn :=
  let current := k_ready st in
  let '(indegree, next) :=
    foldl (fun state index => foldl release state (row successors index))
      (k_indegree st, []) current in
  mkKahn indegree (merge_sort le next) (k_visited st + length current)
    (k_levels st ++ [mkWorkflowLevel current]).

Fixpoint kahn_loop (fuel : nat) (successors : list (list nat)) (st : Kahn) : Kahn :=
  match fuel with
  | O => st
  | S fuel =>
      if decide (k_ready st = []) then st else kahn_loop fuel successors (kahn_round successors st)
  end.

Definition kahn_start (predecessors : list (list nat)) : Kahn :=
  let indegree := length <$> predecessors in
  mkKahn indegree (filter (fun i => indegree !! i = Some 0) (seq 0 (length predecessors))) 0 [].

(** [S (length predecessors)] rounds empty [ready] on every normalized graph
    ([topological_levels_spec]). *)
Definition topological_levels (source : string) (cycle_location : SourcePoint)
    (predecessors successors : list (list nat)) : list WorkflowLevel + WorkflowCompileError :=
  let st := kahn_loop (S (length predecessors)) successors (kahn_start predecessors) in
  if decide (k_visited st <> length predecessors)
  then inr (error_at validation_error source cycle_location "Workflow graph contains a cycle")
  else inl (k_levels st).

(** ** Normalization *)

(** The checks that graph and frontmatter declare the same nodes. *)
Definition check_nodes (source : string) (author : AuthorWorkflow)
    (frontmatter_locations : gmap string SourcePoint) (graph : ParsedGraph) :
    unit + WorkflowCompileError :=
  let? _ := try_each (fun id =>
    match aw_nodes author !! id with
    | Some _ => inl tt
    | None =>
        inr (error_at validation_error source
               (default (mkSourcePoint 1 1) (pg_node_locations graph !! id))
               ("graph node `" +:+ id +:+ "` has no frontmatter definition"))
    end) (pg_order graph) in
  match find_first (fun id => id ∉ pg_order graph) (btree_keys (aw_nodes author)) with
  | Some id =>
      inr (error_at validation_error source
             (default (mkSourcePoint 1 1) (frontmatter_locations !! id))
             ("frontmatter node `" +:+ id +:+ "` does not occur in the graph"))
  | None => inl tt
  end.

(** [order.iter().enumerate().map(|(index, id)| (id, index)).collect()] *)
Definition index_by_id (order : list string) : gmap string nat :=
  foldl (fun m '(index, id) => <[id := index]> m) ∅ (imap pair order).

(** [xs[i].push(x)] *)
Definition push_at (i x : nat) (xs : list (list nat)) : list (list nat) :=
  alter (fun row => row ++ [x]) i xs.

(** One edge, over [(predecessors, successors)]. *)
Definition link_edge (source : string) (indices : gmap string nat)
    (rows : list (list nat) * list (list nat)) (edge : GraphEdge) :
    (list (list nat) * list (list nat)) + WorkflowCompileError :=
  let '(predecessors, successors) := rows in
  match indices !! ge_from edge with
  | None =>
      inr (error_at validation_error source (ge_from_location edge)
             ("unknown graph node `" +:+ ge_from edge +:+ "`"))
  | Some from_index =>
      match indices !! ge_to edge with
      | None =>
          inr (error_at validation_error source (ge_to_location edge)
                 ("unknown graph node `" +:+ ge_to edge +:+ "`"))
      | Some to_index =>
          if decide (from_index = to_index)
          then inr (error_at validation_error source (ge_to_location edge)
                      ("node `" +:+ ge_from edge +:+ "` cannot depend on itself"))
          else inl (push_at to_index from_index predecessors,
                    push_at from_index to_index successors)
      end
  end.

Definition stage_levels_of (n : nat) (levels : list WorkflowLevel) : list nat :=
  foldl (fun stage_levels '(level_index, level) =>
           foldl (fun stage_levels i => <[i := level_index]> stage_levels) stage_levels
             (stage_indices level))
    (replicate n 0) (imap pair levels).

(** One stage of a level: the actors seen in the level. *)
Definition check_actor (source : string) (author : AuthorWorkflow)
    (frontmatter_locations : gmap string SourcePoint) (order : list string)
    (actors : gset string) (index : nat) : gset string + WorkflowCompileError :=
  match order !! index with
  | None => inl actors
  | Some id =>
      match aw_nodes author !! id ≫= an_actor with
      | None => inl actors
      | Some actor =>
          if decide (actor ∈ actors)
          then inr (error_at validation_error source
                      (default (mkSourcePoint 1 1) (frontmatter_locations !! id))
                      ("same actor key `" +:+ actor +:+ "` in one level is ambiguous"))
          else inl ({[ actor ]} ∪ actors)
      end
  end.

Definition check_level_actors (source : string) (author : AuthorWorkflow)
    (frontmatter_locations : gmap string SourcePoint) (order : list string)
    (level : WorkflowLevel) : unit + WorkflowCompileError :=
  let? _ := try_fold (check_actor source author frontmatter_locations order) ∅
              (stage_indices level) in
  inl tt.

Definition normalize_verify (source id : string) (location : SourcePoint) (verify : VerifySpec) :
    VerifySpec + WorkflowCompileError :=
  let? model := try_option (fun assignment =>
    normalize_model_assignment source id "verifier" assignment location) (vs_model verify) in
  inl (mkVerifySpec (vs_agent verify) (vs_until verify) (vs_max_iterations verify) model).

Definition build_stage (source : string) (author : AuthorWorkflow)
    (frontmatter_locations : gmap string SourcePoint) (stage_levels : list nat)
    (predecessors : list (list nat)) (item : nat * string) : WorkflowStage + WorkflowCompileError :=
  let '(index, id) := item in
  match aw_nodes author !! id with
  | None =>
      inr (validation_error source 1 1 ("graph node `" +:+ id +:+ "` has no frontmatter definition"))
  | Some node =>
      let location := default (mkSourcePoint 1 1) (frontmatter_locations !! id) in
      let? model := try_option (fun assignment =>
        normalize_model_assignment source id "worker" assignment location) (an_model node) in
      let? verify := try_option (normalize_verify source id location) (an_verify node) in
      inl (mkWorkflowStage id (an_title node) (an_agent node) (an_directive node)
             (default 0 (stage_levels !! index)) (an_mode node) verify model (an_actor node)
             (row predecessors index))
  end.

(** ** The canonical revision

    The hasher's state is the bytes it was given. *)

Definition hash_byte (hash : string) (value : N) : string :=
  hash +:+ String (ascii_of_N value) EmptyString.
Definition hash_usize (hash : string) (value : nat) : string :=
  hash +:+ be_bytes 8 (if decide (N.of_nat value <= u64_max)%N then N.of_nat value else u64_max).
Definition hash_string (hash value : string) : string := hash_usize hash (String.length value) +:+ value.
Definition hash_optional_string (hash : string) (value : option string) : string :=
  match value with
  | Some value => hash_string (hash_byte hash 1) value
  | None => hash_byte hash 0
  end.

(** [for x in xs { f(hash, x) }] *)
Definition hash_each {A} (f : string -> A -> string) (hash : string) (xs : list A) : string :=
  foldl f hash xs.
(** [hash_usize(hash, xs.len())] and the loop *)
Definition hash_list {A} (f : string -> A -> string) (hash : string) (xs : list A) : string :=
  hash_each f (hash_usize hash (length xs)) xs.

Definition hash_candidate (hash : string) (candidate : WorkflowModelCandidate) : string :=
  hash_optional_string (hash_string hash (mc_id candidate)) (mc_reasoning candidate).

Definition hash_optional_assignment (hash : string) (assignment : option WorkflowModelAssignment) :
    string :=
  match assignment with
  | Some assignment =>
      hash_list hash_candidate
        (hash_optional_string (hash_string (hash_byte hash 1) (ma_id assignment))
           (ma_reasoning assignment))
        (ma_fallback assignment)
  | None => hash_byte hash 0
  end.

Definition on_failure_code (policy : FailurePolicy) : N :=
  match policy with FailFast => 0 | CollectAll => 1 end.
Definition stage_mode_code (mode : StageMode) : N := match mode with Once => 0 | Loop => 1 end.

Definition hash_verify (hash : string) (verify : option VerifySpec) : string :=
  match verify with
  | Some verify =>
      hash_string (hash_string (hash_byte hash 1) (vs_agent verify)) (vs_until verify)
      +:+ be_bytes 4 (vs_max_iterations verify)
  | None => hash_byte hash 0
  end.

Definition hash_input (hash : string) (input : string * string) : string :=
  hash_string (hash_string hash input.1) input.2.

Definition hash_stage (hash : string) (stage : WorkflowStage) : string :=
  let hash := hash_string hash (st_id stage) in
  let hash := hash_optional_string hash (st_title stage) in
  let hash := hash_string hash (st_agent stage) in
  let hash := hash_string hash (st_directive stage) in
  let hash := hash_usize hash (st_level stage) in
  let hash := hash_byte hash (stage_mode_code (st_mode stage)) in
  let hash := hash_verify hash (st_verify stage) in
  let hash := hash_optional_string hash (st_actor stage) in
  hash_list hash_usize hash (st_predecessor_indices stage).

(** [stage.verify.as_ref().and_then(|verify| verify.model.as_ref())] *)
Definition verifier_model (stage : WorkflowStage) : option WorkflowModelAssignment :=
  st_verify stage ≫= vs_model.

Definition routes_models (stage : WorkflowStage) : bool :=
  negb (bool_decide (st_model stage = None)) || negb (bool_decide (verifier_model stage = None)).

Definition hash_routes (hash : string) (stage : WorkflowStage) : string :=
  hash_optional_assignment (hash_optional_assignment hash (st_model stage)) (verifier_model stage).

Definition NUL : string := String (ascii_of_nat 0) EmptyString.
Definition REVISION_DOMAIN : string := "hya.workflow.revision.v1" +:+ NUL.
Definition MODEL_ROUTING_DOMAIN : string := "hya.workflow.model-routing.v1" +:+ NUL.

(** The bytes [canonical_revision] hashes. *)
Definition revision_preimage (definition : WorkflowDefinition) (plan : WorkflowPlan) : string :=
  let hash := hash_string REVISION_DOMAIN (wd_name definition) in
  let hash := hash_string hash (wd_description definition) in
  let hash := hash_byte hash (on_failure_code (wd_on_failure definition)) in
  let hash := hash_list hash_input hash (btree_list (wd_inputs definition)) in
  let hash := hash_list hash_stage hash (plan_stages plan) in
  if existsb routes_models (plan_stages plan)
  then hash_each hash_routes (hash +:+ MODEL_ROUTING_DOMAIN) (plan_stages plan)
  else hash.

Section compile.
Context {L : WorkflowLib}.

Definition canonical_revision (definition : WorkflowDefinition) (plan : WorkflowPlan) : string :=
  sha256 (revision_preimage definition plan).

Definition normalize (source : string) (author : AuthorWorkflow)
    (frontmatter_locations : gmap string SourcePoint) (graph : ParsedGraph) :
    CompiledWorkflow + WorkflowCompileError :=
  let order := pg_order graph in
  let? _ := check_nodes source author frontmatter_locations graph in
  let empty := replicate (length order) [] in
  let? (predecessors, successors) :=
    try_fold (link_edge source (index_by_id order)) (empty, empty) (pg_edges graph) in
  let cycle_location := default (mkSourcePoint 1 1) (ge_from_location <$> last (pg_edges graph)) in
  let? levels := topological_levels source cycle_location predecessors successors in
  let stage_levels := stage_levels_of (length order) levels in
  let? _ := try_each (check_level_actors source author frontmatter_locations order) levels in
  let? stages :=
    try_map (build_stage source author frontmatter_locations stage_levels predecessors)
      (imap pair order) in
  let definition :=
    mkWorkflowDefinition (aw_name author) (aw_description author) (aw_inputs author)
      (aw_on_failure author) in
  let plan := mkWorkflowPlan stages levels in
  inl (mkCompiledWorkflow definition plan (canonical_revision definition plan)).

(** [compile_source]: [source] is the display name, [text] the document. *)
Definition compile_source (source text : string) : CompiledWorkflow + WorkflowCompileError :=
  let lines := lines text in
  let? (frontmatter, graph_start) := split_frontmatter source lines in
  let? node_locations :=
    scan_frontmatter_nodes source (take (graph_start - 2) (tail lines)) 2 in
  let? author :=
    match yaml_from_str frontmatter with
    | inl author => inl author
    | inr error =>
        inr (frontmatter_error source 2 1 ("invalid Workflow frontmatter: " +:+ error))
    end in
  let? _ := validate_author source author node_locations in
  let? graph := parse_graph source (drop graph_start lines) (graph_start + 1) in
  normalize source author node_locations graph.
End compile.
