(* ===== verification/Levels.v ===== *)
(** * Topological levels ([topological_levels], [hya-workflow/src/compiler.rs])

    The rounds of Kahn's algorithm against a declarative reading: a graph is accepted exactly when
    it has no cycle, and then the levels are the nodes by the length of the longest path that leads
    to them, in index order. *)

From stdpp Require Import sorting relations.
From S2P Require Import Prelude Result RustStr Text WfModel Compiler.

Lemma length_filter_split {A} (P Q : A -> Prop) `{!forall x, Decision (P x), !forall x, Decision (Q x)}
    (l : list A) :
  length (filter P l)
  = length (filter (fun x => P x /\ Q x) l) + length (filter (fun x => P x /\ ~ Q x) l).
Proof.
  induction l as [|x l IH]; [done|]. rewrite !filter_cons.
  destruct (decide (P x)), (decide (Q x));
    repeat (first [rewrite (decide_True (P := _ /\ _)) by tauto
                  |rewrite (decide_False (P := _ /\ _)) by tauto]); simpl; lia.
Qed.

Lemma filter_ext_elem {A} (P Q : A -> Prop) `{!forall x, Decision (P x), !forall x, Decision (Q x)}
    (l : list A) : (forall x, x ∈ l -> P x <-> Q x) -> filter P l = filter Q l.
Proof.
  intros Hl. induction l as [|x l IH]; [done|]. rewrite !filter_cons, IH by set_solver.
  destruct (Hl x) as [H1 H2]; [left|].
  destruct (decide (P x)), (decide (Q x)); naive_solver.
Qed.

Lemma length_filter_0 {A} (P : A -> Prop) `{!forall x, Decision (P x)} (l : list A) :
  length (filter P l) = 0 <-> forall x, x ∈ l -> ~ P x.
Proof.
  split.
  - intros Hl%nil_length_inv x Hx HP. assert (x ∈ @nil A) as Hin; [|by apply elem_of_nil in Hin].
    rewrite <- Hl. by apply list_elem_of_filter.
  - intros Hl. destruct (filter P l) as [|x l'] eqn:E; [done|].
    assert (x ∈ filter P l) as [HP Hx]%list_elem_of_filter by (rewrite E; left).
    by destruct (Hl x Hx).
Qed.

Lemma length_filter_full {A} (P : A -> Prop) `{!forall x, Decision (P x)} (l : list A) :
  length (filter P l) = length l <-> forall x, x ∈ l -> P x.
Proof.
  induction l as [|y l IH]; [split; [by intros _ x ?%elem_of_nil|done]|].
  rewrite filter_cons. pose proof (length_filter P l). case_decide as Hy; simpl.
  - split; [|intros Hl; f_equal; apply IH; set_solver].
    intros [= Hl]. intros x [->|Hx]%elem_of_cons; [done|by apply IH].
  - split; [lia|]. intros Hl. destruct Hy. apply Hl. left.
Qed.

Lemma count_occ_filter {A} `{EqDecision A} (f : A -> list A) (l : list A) x :
  (forall y, NoDup (f y)) ->
  count_occ (fun a b => decide (a = b)) (concat (f <$> l)) x = length (filter (fun y => x ∈ f y) l).
Proof.
  intros Hf. induction l as [|y l IH]; [done|]. rewrite fmap_cons. simpl concat.
  rewrite count_occ_app, IH, filter_cons.
  case_decide as Hx.
  - rewrite (proj1 (NoDup_count_occ' _ (f y))); [done|by apply NoDup_ListNoDup|by apply list_elem_of_In].
  - rewrite (proj1 (count_occ_not_In _ (f y) x)); [done|by rewrite <- list_elem_of_In].
Qed.

Lemma foldl_concat {A B C} (f : C -> B -> C) (g : A -> list B) l s :
  foldl (fun s x => foldl f s (g x)) s l = foldl f s (concat (g <$> l)).
Proof. revert s; induction l as [|x l IH]; intros s; simpl; [done|]. by rewrite IH, foldl_app. Qed.

Lemma filter_seq_lt (P : nat -> Prop) `{!forall x, Decision (P x)} a n :
  StronglySorted lt (filter P (seq a n)).
Proof.
  revert a; induction n as [|n IH]; intros a; simpl; [constructor|].
  rewrite filter_cons. case_decide; [|apply IH]. constructor; [apply IH|].
  apply Forall_forall. intros x [_ Hx%elem_of_seq]%list_elem_of_filter. lia.
Qed.

Lemma filter_seq_sorted (P : nat -> Prop) `{!forall x, Decision (P x)} a n :
  StronglySorted le (filter P (seq a n)).
Proof.
  pose proof (filter_seq_lt P a n) as Hlt. induction Hlt as [|x l _ IH Hall]; constructor; [done|].
  eapply Forall_impl; [exact Hall|]. lia.
Qed.

Section levels.
Context (preds succs : list (list nat)).
Abbreviation n := (length preds).

(** [predecessors] and [successors] are the two sides of one set of edges between the nodes. *)
Record wf_rows : Prop := {
  wf_length : length succs = n;
  wf_dual u v : u ∈ row preds v <-> v ∈ row succs u;
  wf_range u v : u ∈ row preds v -> u < n;
  wf_preds v : NoDup (row preds v);
  wf_succs u : NoDup (row succs u);
}.

Definition acyclic : Prop := forall v, ~ tc (fun u v => u ∈ row preds v) v v.

(** [within k v]: every path that ends in [v] has less than [k] edges. *)
Fixpoint within (k v : nat) : bool :=
  match k with
  | O => false
  | S k => forallb (within k) (row preds v)
  end.

Lemma within_S k v : within (S k) v = true <-> forall u, u ∈ row preds v -> within k u = true.
Proof.
  simpl. rewrite forallb_forall. by setoid_rewrite list_elem_of_In.
Qed.

Lemma within_mono k k' v : k <= k' -> within k v = true -> within k' v = true.
Proof.
  revert k' v; induction k as [|k IH]; intros k' v Hk; [done|]. destruct k' as [|k']; [lia|].
  rewrite !within_S. intros H u Hu. apply IH; [lia|auto].
Qed.

(** The nodes whose longest path has exactly [k] edges. *)
Definition exact_level (k : nat) : list nat :=
  filter (fun v => within (S k) v = true /\ within k v = false) (seq 0 n).

Lemma exact_level_elem k v :
  v ∈ exact_level k <-> v < n /\ within (S k) v = true /\ within k v = false.
Proof. unfold exact_level. rewrite list_elem_of_filter, elem_of_seq. naive_solver lia. Qed.

Lemma row_range (rows : list (list nat)) u v : u ∈ row rows v -> v < length rows.
Proof.
  unfold row. destruct (rows !! v) eqn:E; [intros _; by eapply lookup_lt_Some|].
  by intros ?%elem_of_nil.
Qed.

(** ** One round *)

Abbreviation occ := (count_occ (fun a b : nat => decide (a = b))).

(** Releasing successors one by one, each at most as often as it has predecessors left. *)
Lemma release_all indegree (L : list nat) :
  (forall v, v ∈ L -> v < length indegree) ->
  (forall v, occ L v <= default 0 (indegree !! v)) ->
  let '(indegree', next) := foldl release (indegree, []) L in
  length indegree' = length indegree
  /\ (forall v, v < length indegree -> indegree' !! v = Some (default 0 (indegree !! v) - occ L v))
  /\ NoDup next
  /\ (forall v, v ∈ next <-> 0 < occ L v /\ occ L v = default 0 (indegree !! v)).
Proof.
  induction L as [|x L IH] using rev_ind; intros Hin Hocc.
  - simpl. split; [done|]. split; [|split; [constructor|]].
    + intros v Hv. rewrite Nat.sub_0_r. destruct (lookup_lt_is_Some_2 indegree v Hv) as [c Hc].
      by rewrite Hc.
    + intros v. split; [by intros ?%elem_of_nil|lia].
  - assert (forall v, occ (L ++ [x]) v = occ L v + if decide (x = v) then 1 else 0) as Hsnoc.
    { intros v. rewrite count_occ_app. simpl. by destruct (decide (x = v)). }
    setoid_rewrite Hsnoc in Hocc. rewrite foldl_snoc.
    destruct (foldl release (indegree, []) L) as [ind next] eqn:E.
    destruct IH as (Hlen & Hind & Hnd & Hnext).
    { intros v Hv. apply Hin. set_solver. }
    { intros v. specialize (Hocc v). lia. }
    assert (x < length indegree) as Hx by (apply Hin; set_solver).
    pose proof (Hocc x) as Hcx. rewrite decide_True in Hcx by done.
    unfold release. rewrite (Hind x Hx). simpl. rewrite length_insert. split; [done|]. split; [|split].
    + intros v Hv. rewrite Hsnoc. destruct (decide (x = v)) as [<-|Hne].
      * rewrite list_lookup_insert_eq by lia. f_equal. lia.
      * rewrite list_lookup_insert_ne by done. rewrite Hind by done. f_equal. lia.
    + case_decide; [|done]. apply NoDup_app. split; [done|]. split; [|apply NoDup_singleton].
      intros v Hv ->%list_elem_of_singleton. apply Hnext in Hv. lia.
    + intros v. rewrite Hsnoc. case_decide as Hz; rewrite ?elem_of_app, ?list_elem_of_singleton, Hnext;
        destruct (decide (x = v)) as [<-|Hne]; naive_solver lia.
Qed.

Context (wf : wf_rows).

(** The state after [k] rounds. *)
Record kahn_inv (k : nat) (st : Kahn) : Prop := {
  ki_ready : k_ready st = exact_level k;
  ki_levels : k_levels st = (fun j => mkWorkflowLevel (exact_level j)) <$> seq 0 k;
  ki_visited : k_visited st = length (filter (fun v => within k v = true) (seq 0 n));
  ki_length : length (k_indegree st) = n;
  ki_indegree v : v < n ->
    k_indegree st !! v = Some (length (filter (fun u => within k u <> true) (row preds v)));
}.

Lemma kahn_start_inv : kahn_inv 0 (kahn_start preds).
Proof.
  unfold kahn_start. split; simpl; [|done| |by rewrite length_fmap|].
  - apply filter_ext_elem. intros v [_ Hv]%elem_of_seq. rewrite list_lookup_fmap.
    destruct (lookup_lt_is_Some_2 preds v Hv) as [l Hl]. simpl. unfold row. rewrite Hl. simpl.
    destruct l; simpl; (split; [try done|intros [? ?]; done]).
  - induction (seq 0 n); [done|]. rewrite filter_cons. by rewrite decide_False.
  - intros v Hv. rewrite list_lookup_fmap. unfold row.
    destruct (lookup_lt_is_Some_2 preds v Hv) as [l Hl]. rewrite Hl.
    cbn [fmap option_fmap option_map default from_option]. unfold id. f_equal. clear.
    induction l as [|u l IH]; [done|]. rewrite filter_cons, decide_True by done. simpl. by f_equal.
Qed.

#[local] Arguments within : simpl never.

(** How often the round releases [v]: once for each predecessor on the level. *)
Lemma occ_released k v :
  occ (concat (row succs <$> exact_level k)) v
  = length (filter (fun u => within k u <> true /\ within (S k) u = true) (row preds v)).
Proof.
  rewrite count_occ_filter by apply wf. apply Permutation_length, NoDup_Permutation.
  - unfold exact_level. apply NoDup_filter, NoDup_filter, NoDup_seq.
  - apply NoDup_filter, wf.
  - intros u. rewrite !list_elem_of_filter, exact_level_elem, <- (wf_dual wf), not_true_iff_false.
    split; [tauto|]. intros [[? ?] Hu]. split; [done|]. split; [by eapply (wf_range wf)|done].
Qed.

Lemma ready_next k st next :
  kahn_inv k st ->
  NoDup next ->
  (forall v, v ∈ next <-> 0 < occ (concat (row succs <$> exact_level k)) v
     /\ occ (concat (row succs <$> exact_level k)) v = default 0 (k_indegree st !! v)) ->
  merge_sort le next = exact_level (S k).
Proof.
  intros Hinv Hnd Hnext. apply (StronglySorted_unique le);
    [apply (StronglySorted_merge_sort le)|apply filter_seq_sorted|].
  rewrite merge_sort_Permutation. apply NoDup_Permutation; [done|apply NoDup_filter, NoDup_seq|].
  intros v. rewrite Hnext, occ_released, exact_level_elem.
  destruct (decide (v < n)) as [Hv|Hv].
  - rewrite (ki_indegree _ _ Hinv v Hv). simpl.
    rewrite (length_filter_split (fun u => within k u <> true) (fun u => within (S k) u = true)).
    set (a := length (filter (fun u => _ /\ within (S k) u = true) _)).
    set (b := length (filter (fun u => _ /\ ~ _) _)).
    assert (b = 0 <-> within (S (S k)) v = true) as Hb.
    { subst b. rewrite within_S, length_filter_0. split; intros H u Hu; specialize (H u Hu).
      - destruct (within (S k) u) eqn:E; [done|]. destruct H. split; [|done].
        intros Hk. by rewrite (within_mono k (S k) u) in E by (done || lia).
      - tauto. }
    assert (a + b = 0 <-> within (S k) v = true) as Hab.
    { subst a b. rewrite <- (length_filter_split (fun u => within k u <> true)
        (fun u => within (S k) u = true)), within_S, length_filter_0.
      split; intros H u Hu; specialize (H u Hu); [|tauto]. destruct (within k u); [done|]. by destruct H. }
    rewrite <- Hb, <- not_true_iff_false, <- Hab. lia.
  - split; [|tauto]. rewrite (proj2 (lookup_ge_None (k_indegree st) v)) by (rewrite (ki_length _ _ Hinv); lia).
    simpl. lia.
Qed.

(** The predecessors that a round leaves to a node. *)
Lemma left_after k v :
  length (filter (fun u => within k u <> true) (row preds v))
  = occ (concat (row succs <$> exact_level k)) v
    + length (filter (fun u => within (S k) u <> true) (row preds v)).
Proof.
  rewrite occ_released.
  rewrite (length_filter_split (fun u => within k u <> true) (fun u => within (S k) u = true)).
  f_equal. apply (f_equal length), filter_ext_elem. intros u _. split; [tauto|].
  intros HS. split; [|done]. intros Hk. by apply HS, (within_mono k); [lia|].
Qed.

Lemma released_le k st v :
  kahn_inv k st ->
  occ (concat (row succs <$> exact_level k)) v <= default 0 (k_indegree st !! v).
Proof.
  intros Hinv. destruct (decide (v < n)) as [Hv|Hv].
  - rewrite (ki_indegree _ _ Hinv v Hv). simpl. rewrite (left_after k v). lia.
  - rewrite occ_released. unfold row. rewrite (proj2 (lookup_ge_None preds v)) by lia. simpl. lia.
Qed.

Lemma visited_next k :
  length (filter (fun v => within (S k) v = true) (seq 0 n))
  = length (filter (fun v => within k v = true) (seq 0 n)) + length (exact_level k).
Proof.
  rewrite (length_filter_split _ (fun v => within k v = true)). f_equal.
  - apply (f_equal length), filter_ext_elem. intros v _. split; [tauto|]. intros Hv.
    split; [|done]. by apply (within_mono k); [lia|].
  - apply (f_equal length), filter_ext_elem. intros v _. by rewrite not_true_iff_false.
Qed.

Lemma kahn_round_inv k st : kahn_inv k st -> kahn_inv (S k) (kahn_round succs st).
Proof.
  intros Hinv. unfold kahn_round. rewrite foldl_concat, (ki_ready _ _ Hinv).
  pose proof (release_all (k_indegree st) (concat (row succs <$> exact_level k))) as Hrel.
  destruct (foldl release _ _) as [ind next]. destruct Hrel as (Hlen & Hind & Hnd & Hnext).
  { intros v Hv. apply list_elem_of_In, in_concat in Hv as (l & Hl & Hv).
    apply list_elem_of_In, list_elem_of_fmap in Hl as (u & -> & _). apply list_elem_of_In in Hv.
    rewrite (ki_length _ _ Hinv). apply (wf_dual wf) in Hv. by eapply row_range. }
  { intros v. by apply released_le. }
  split; cbn [k_ready k_levels k_visited k_indegree].
  - by eapply ready_next.
  - by rewrite (ki_levels _ _ Hinv), seq_S, fmap_app.
  - rewrite (ki_visited _ _ Hinv). symmetry. apply visited_next.
  - by rewrite Hlen, (ki_length _ _ Hinv).
  - intros v Hv. rewrite Hind by (by rewrite (ki_length _ _ Hinv)).
    rewrite (ki_indegree _ _ Hinv v Hv). simpl. f_equal. rewrite (left_after k v). lia.
Qed.

(** ** The whole loop *)

Lemma kahn_loop_inv fuel k st :
  kahn_inv k st -> n < k_visited st + fuel ->
  exists k', kahn_inv k' (kahn_loop fuel succs st) /\ k_ready (kahn_loop fuel succs st) = []
    /\ forall j, k <= j < k' -> exact_level j <> [].
Proof.
  revert k st; induction fuel as [|fuel IH]; intros k st Hinv Hlt; simpl.
  - exfalso. rewrite (ki_visited _ _ Hinv) in Hlt.
    pose proof (length_filter (fun v => within k v = true) (seq 0 n)). rewrite length_seq in *. lia.
  - case_decide as Hr; [exists k; split; [done|split; [done|lia]]|].
    destruct (IH (S k) (kahn_round succs st)) as (k' & Hinv' & Hr' & Hne).
    + by apply kahn_round_inv.
    + rewrite (ki_visited _ _ (kahn_round_inv k st Hinv)), visited_next.
      rewrite <- (ki_ready _ _ Hinv), <- (ki_visited _ _ Hinv).
      destruct (k_ready st); [done|]. simpl. lia.
    + exists k'. split; [done|]. split; [done|]. intros j Hj.
      destruct (decide (j = k)) as [->|]; [by rewrite <- (ki_ready _ _ Hinv)|apply Hne; lia].
Qed.

(** An empty level is the end of the acyclic part. *)
Lemma within_stable k j v :
  exact_level k = [] -> v < n -> within j v = true -> within k v = true.
Proof.
  intros He. revert v. induction j as [|j IH]; intros v Hv; [done|].
  rewrite within_S. intros Hall. destruct (within k v) eqn:Hk; [done|].
  assert (v ∈ exact_level k) as Hin; [|rewrite He in Hin; by apply elem_of_nil in Hin].
  apply exact_level_elem. split; [done|]. split; [|done]. apply within_S.
  intros u Hu. apply IH; [by eapply (wf_range wf)|auto].
Qed.

Lemma acyclic_within : acyclic -> forall v, exists k, within k v = true.
Proof.
  intros Hac v. assert (sn (fun v u => u ∈ row preds v) v) as Hsn.
  { apply tc_finite_sn.
    - assert (forall x y, tc (fun v u => u ∈ row preds v) x y ->
        tc (fun u v => u ∈ row preds v) y x) as Hflip; [|intros x Hx; by apply (Hac x), Hflip].
      intros x y Hxy. induction Hxy as [x y Hxy|x y z Hxy _ IH]; [by apply tc_once|].
      by eapply tc_r.
    - exists (seq 0 n). intros u Hu. apply elem_of_seq. split; [lia|].
      induction Hu; [by eapply (wf_range wf)|lia]. }
  induction Hsn as [v _ IH].
  assert (exists k, forall u, u ∈ row preds v -> within k u = true) as [k Hk].
  { assert (forall l, l ⊆ row preds v -> exists k, forall u, u ∈ l -> within k u = true) as H;
      [|by apply (H _)].
    induction l as [|u l IHl]; intros Hl; [exists 0; by intros u ?%elem_of_nil|].
    destruct IHl as [k Hk]; [set_solver|]. destruct (IH u) as [k' Hk']; [apply Hl; left|].
    exists (Nat.max k k'). intros w [->|Hw]%elem_of_cons.
    - by apply (within_mono k'); [lia|].
    - apply (within_mono k); [lia|auto]. }
  exists (S k). by apply within_S.
Qed.

(** The levels of a graph whose loop ran to its end, by a depth function. *)
Record layered (depth : nat -> nat) (levels : list WorkflowLevel) : Prop := {
  ly_longest v : v < n -> depth v = max_list ((fun u => S (depth u)) <$> row preds v);
  ly_levels : levels = (fun k => mkWorkflowLevel (filter (fun v => depth v = k) (seq 0 n)))
                         <$> seq 0 (length levels);
  ly_nonempty k level : levels !! k = Some level -> stage_indices level <> [];
  ly_bound v : v < n -> depth v < length levels;
}.

(** The least [k] with [within (S k) v], up to [bound]. *)
Fixpoint depth_of (bound v : nat) : nat :=
  match bound with
  | O => 0
  | S bound => if within bound v then depth_of bound v else bound
  end.

Lemma depth_of_spec bound v :
  within bound v = true ->
  depth_of bound v < bound /\ within (S (depth_of bound v)) v = true
  /\ within (depth_of bound v) v = false.
Proof.
  induction bound as [|k IH]; [done|]. intros Hk. cbn [depth_of].
  destruct (within k v) eqn:E; [|by repeat split; [lia|..]].
  destruct IH as (? & ? & ?); [done|]. by repeat split; [lia|..].
Qed.

Lemma depth_unique k v d :
  within (S d) v = true -> within d v = false -> within k v = true <-> d < k.
Proof.
  intros H1 H2. split; [|intros ?; by apply (within_mono (S d)); [lia|]].
  intros Hk. destruct (decide (d < k)); [done|].
  by rewrite (within_mono k d) in H2 by (done || lia).
Qed.

Lemma depth_longest K v :
  (forall v, v < n -> within K v = true) -> v < n ->
  depth_of K v = max_list ((fun u => S (depth_of K u)) <$> row preds v).
Proof.
  intros HK Hv. destruct (depth_of_spec K v) as (Hlt & Hin & Hout); [auto|].
  set (l := (fun u => S (depth_of K u)) <$> row preds v).
  assert (forall k, within (S k) v = true <-> max_list l <= k) as Hmax.
  { intros k. rewrite within_S. subst l. split.
    - intros Hall. destruct (decide (row preds v = [])) as [->|Hne]; [simpl; lia|].
      assert (max_list ((fun u => S (depth_of K u)) <$> row preds v)
              ∈ (fun u => S (depth_of K u)) <$> row preds v) as Hm.
      { apply max_list_elem_of. by destruct (row preds v). }
      apply list_elem_of_fmap in Hm as (u & -> & Hu).
      destruct (depth_of_spec K u) as (_ & H1 & H2); [by eapply HK, (wf_range wf)|].
      by apply (depth_unique _ _ _ H1 H2), Hall.
    - intros Hle u Hu.
      destruct (depth_of_spec K u) as (_ & H1 & H2); [by eapply HK, (wf_range wf)|].
      apply (depth_unique _ _ _ H1 H2).
      assert (S (depth_of K u) <= max_list ((fun u => S (depth_of K u)) <$> row preds v)); [|lia].
      apply max_list_elem_of_le, list_elem_of_fmap. eauto. }
  apply Hmax in Hin. destruct (depth_of K v) as [|d] eqn:Ed; [lia|].
  assert (~ max_list l <= d); [|lia]. by rewrite <- Hmax, Hout.
Qed.

(** What the loop leaves behind, for any graph: every level in order, and nothing ready. *)
Lemma kahn_result :
  exists K, kahn_inv K (kahn_loop (S n) succs (kahn_start preds))
    /\ exact_level K = [] /\ forall j, j < K -> exact_level j <> [].
Proof.
  destruct (kahn_loop_inv (S n) 0 (kahn_start preds)) as (K & Hinv & Hr & Hne).
  { apply kahn_start_inv. }
  { lia. }
  exists K. split; [done|]. split; [by rewrite <- (ki_ready _ _ Hinv)|]. intros j Hj. apply Hne. lia.
Qed.

Lemma layered_within depth levels :
  layered depth levels -> forall v, v < n -> within (S (depth v)) v = true.
Proof.
  intros Hl v. remember (depth v) as d eqn:Hd. revert v Hd.
  induction d as [d IH] using lt_wf_ind. intros v -> Hv. apply within_S. intros u Hu.
  assert (S (depth u) <= depth v) as Hlt.
  { rewrite (ly_longest _ _ Hl v Hv). apply max_list_elem_of_le, list_elem_of_fmap. eauto. }
  apply (within_mono (S (depth u))); [done|]. apply (IH (depth u)); [lia|done|].
  by eapply (wf_range wf).
Qed.

Lemma layered_acyclic depth levels : layered depth levels -> acyclic.
Proof.
  intros Hl v Hv. assert (forall a b, tc (fun u v => u ∈ row preds v) a b -> depth a < depth b) as Hlt;
    [|apply Hlt in Hv; lia].
  assert (forall a b, a ∈ row preds b -> depth a < depth b) as Hone.
  { intros a b Hab. pose proof (row_range _ _ _ Hab) as Hb. apply Nat.le_succ_l.
    rewrite (ly_longest _ _ Hl b Hb). apply max_list_elem_of_le, list_elem_of_fmap. eauto. }
  intros a b Hab. induction Hab as [a b Hab|a b c Hab _ IH]; [auto|]. apply Hone in Hab. lia.
Qed.

Lemma topological_levels_cases source location :
  match topological_levels source location preds succs with
  | inl levels => exists depth, layered depth levels
  | inr e =>
      ~ acyclic /\ e = error_at validation_error source location "Workflow graph contains a cycle"
  end.
Proof.
  unfold topological_levels. destruct kahn_result as (K & Hinv & He & Hne).
  rewrite (ki_visited _ _ Hinv).
  pose proof (length_filter_full (fun v => within K v = true) (seq 0 n)) as Hfull.
  rewrite length_seq in Hfull. case_decide as Hd; rewrite Hfull in Hd.
  - split; [|done]. intros Hac. apply Hd. intros v [_ Hv]%elem_of_seq.
    destruct (acyclic_within Hac v) as [j Hj]. by apply (within_stable K j).
  - assert (forall v, v < n -> within K v = true) as HK.
    { intros v Hv. apply Hd, elem_of_seq. lia. }
    exists (depth_of K). rewrite (ki_levels _ _ Hinv). split.
    + intros v Hv. by apply depth_longest.
    + rewrite length_fmap, length_seq. apply list_fmap_ext. intros _ k _. f_equal.
      apply filter_ext_elem. intros v [_ Hv]%elem_of_seq.
      destruct (depth_of_spec K v) as (_ & H1 & H2); [by apply HK|].
      rewrite <- not_true_iff_false, !(depth_unique _ _ _ H1 H2). lia.
    + intros k level (j & -> & Hj)%list_lookup_fmap_Some. simpl.
      apply lookup_seq in Hj as [-> Hj]. by apply Hne.
    + intros v Hv. rewrite length_fmap, length_seq. by apply depth_of_spec, HK.
Qed.
End levels.

(** C27: the level loop ends and finds the longest paths.  On rows that are the two sides of one set of
    edges, [n + 1] rounds leave nothing ready; the result is an error exactly when the graph has a
    cycle, and otherwise level [k] lists, in index order, the nodes whose longest incoming path has
    [k] edges, with no empty level and every node on one. *)
Theorem topological_levels_exact preds succs source location :
  wf_rows preds succs ->
  k_ready (kahn_loop (S (length preds)) succs (kahn_start preds)) = []
  /\ match topological_levels source location preds succs with
     | inl levels =>
         acyclic preds
         /\ exists depth,
              (forall v, v < length preds ->
                 depth v = max_list ((fun u => S (depth u)) <$> row preds v)
                 /\ depth v < length levels)
              /\ levels = (fun k => mkWorkflowLevel (filter (fun v => depth v = k) (seq 0 (length preds))))
                            <$> seq 0 (length levels)
              /\ forall k level, levels !! k = Some level -> stage_indices level <> []
     | inr e =>
         ~ acyclic preds
         /\ e = error_at validation_error source location "Workflow graph contains a cycle"
     end.
Proof.
  intros wf. split.
  { destruct (kahn_loop_inv preds succs wf (S (length preds)) 0 (kahn_start preds)) as (K & _ & Hr & _);
      [apply kahn_start_inv|lia|done]. }
  pose proof (topological_levels_cases preds succs wf source location) as Hc.
  destruct (topological_levels _ _ _ _) as [levels|e]; [|done]. destruct Hc as [depth Hl].
  split; [by eapply layered_acyclic|]. exists depth. split; [|split].
  - intros v Hv. split; [by apply (ly_longest _ _ _ Hl)|by apply (ly_bound _ _ _ Hl)].
  - apply (ly_levels _ _ _ Hl).
  - apply (ly_nonempty _ _ _ Hl).
Qed.

Lemma topological_levels_exact_witness :
  wf_rows [[]; [0]; [0; 1]] [[1; 2]; [2]; []]
  /\ k_ready (kahn_loop 4 [[1; 2]; [2]; []] (kahn_start [[]; [0]; [0; 1]])) = []
  /\ topological_levels "w" (mkSourcePoint 1 1) [[]; [0]; [0; 1]] [[1; 2]; [2]; []]
     = inl [mkWorkflowLevel [0]; mkWorkflowLevel [1]; mkWorkflowLevel [2]].
Proof.
  assert (Hwf : wf_rows [[]; [0]; [0; 1]] [[1; 2]; [2]; []]).
  { split; [reflexivity| | | |].
    - intros u [|[|[|v]]]; destruct u as [|[|[|u]]]; unfold row; simpl; set_solver by lia.
    - intros u [|[|[|v]]]; unfold row; simpl; rewrite ?elem_of_cons, ?elem_of_nil; lia.
    - intros [|[|[|v]]]; unfold row; simpl; repeat constructor; set_solver.
    - intros [|[|[|v]]]; unfold row; simpl; repeat constructor; set_solver. }
  split; [exact Hwf|].
  split; [exact (proj1 (topological_levels_exact _ _ "w" (mkSourcePoint 1 1) Hwf))|].
  vm_compute. reflexivity.
Defined.
