(* ===== verification/GraphSpec.v ===== *)
(** * What the flowchart parser guarantees ([parse_graph], [hya-workflow/src/compiler.rs])

    Endpoints, nodes and edges of a parsed graph, and where errors and nodes are located. *)

From S2P Require Import Prelude Result RustStr Text WfModel Compiler.

(** ** Locations *)

(** A position in [lines], which start at line [first]: in a line, or just behind it. *)
Definition in_lines (first : nat) (lines : list string) (location : SourcePoint) : Prop :=
  exists i raw, lines !! i = Some raw /\ sp_line location = first + i
    /\ 1 <= sp_column location <= String.length raw + 1.

(** ** Endpoint groups *)

Lemma length_concat_sep (c : ascii) (x : string) xs :
  String.length (String.concat (String c EmptyString) (x :: xs))
  = String.length x + match xs with
                      | [] => 0
                      | _ => 1 + String.length (String.concat (String c EmptyString) xs)
                      end.
Proof. destruct xs; simpl; [lia|]. by rewrite length_app_str. Qed.

Lemma group_endpoints_location c ln base cursor parts e :
  e ∈ group_endpoints ln base cursor parts ->
  sp_line (ep_location e) = ln
  /\ base + cursor + 1 <= sp_column (ep_location e)
     <= base + cursor + String.length (String.concat (String c EmptyString) parts) + 1.
Proof.
  revert cursor; induction parts as [|part parts IH]; intros cursor; [by intros ?%elem_of_nil|].
  rewrite length_concat_sep. simpl. pose proof (length_trim_start part).
  intros [->|He]%elem_of_cons; simpl; [split; [done|lia]|].
  destruct parts; [by apply elem_of_nil in He|]. apply IH in He as [-> He]. split; [done|lia].
Qed.

Lemma group_endpoints_ids ln base cursor parts :
  ep_id <$> group_endpoints ln base cursor parts = trim <$> parts.
Proof. revert cursor; induction parts; intros; simpl; [done|]. f_equal. auto. Qed.

Lemma first_repeated_None unique endpoints :
  first_repeated unique endpoints = None <->
  NoDup (ep_id <$> endpoints) /\ forall e, e ∈ endpoints -> ep_id e ∉ unique.
Proof.
  revert unique; induction endpoints as [|e es IH]; intros unique; simpl.
  { split; [intros _; split; [constructor|by intros ? ?%elem_of_nil]|done]. }
  case_decide as He; [split; [done|]; intros [_ H]; by destruct (H e (list_elem_of_here _ _))|].
  rewrite IH, NoDup_cons. split.
  - intros [Hnd Hes]. split; [split; [|done]|].
    + intros (e' & Heq & He')%list_elem_of_fmap. apply Hes in He'. set_solver.
    + intros e' [->|He']%elem_of_cons; [done|]. apply Hes in He'. set_solver.
  - intros [[Hnin Hnd] Hes]. split; [done|]. intros e' He'.
    apply not_elem_of_union. split; [|by apply Hes; right].
    intros Heq%elem_of_singleton. apply Hnin. rewrite <- Heq. by apply list_elem_of_fmap_2.
Qed.

Lemma first_repeated_elem unique endpoints e :
  first_repeated unique endpoints = Some e -> e ∈ endpoints.
Proof.
  revert unique; induction endpoints as [|x xs IH]; intros unique; simpl; [done|].
  case_decide; [intros [= ->]; left|right; eauto].
Qed.

(** A group is a list of distinct identifiers, in the order of the text. *)
Lemma parse_endpoint_group_ok source ln value base es :
  parse_endpoint_group source ln value base = inl es ->
  ep_id <$> es = trim <$> split_char "&" value
  /\ NoDup (ep_id <$> es)
  /\ (forall e, e ∈ es -> valid_identifier (ep_id e) = true)
  /\ forall e, e ∈ es -> sp_line (ep_location e) = ln
       /\ base + 1 <= sp_column (ep_location e) <= base + String.length value + 1.
Proof.
  unfold parse_endpoint_group. destruct (find_first _ _) eqn:E1; [done|].
  destruct (first_repeated _ _) eqn:E2; [done|]. intros [= <-].
  split; [apply group_endpoints_ids|].
  split; [by apply first_repeated_None in E2 as [? _]|]. split.
  - intros e He. apply find_first_None in E1. rewrite Forall_forall in E1.
    apply E1 in He. by apply not_false_is_true.
  - intros e He. apply (group_endpoints_location "&") in He as [? He].
    rewrite split_char_concat in He. split; [done|lia].
Qed.

(** Its error is located in the group's text. *)
Lemma parse_endpoint_group_error source ln value base err :
  parse_endpoint_group source ln value base = inr err ->
  exists location message, err = error_at graph_error source location message
    /\ sp_line location = ln
    /\ base + 1 <= sp_column location <= base + String.length value + 1.
Proof.
  unfold parse_endpoint_group. intros H.
  assert (exists e message, e ∈ group_endpoints ln base 0 (split_char "&" value)
    /\ err = error_at graph_error source (ep_location e) message) as (e & message & He & ->).
  { destruct (find_first _ _) as [e|] eqn:E1.
    - apply find_first_Some in E1 as [? _]. simplify_eq. eauto.
    - destruct (first_repeated _ _) as [e|] eqn:E2; [|done]. apply first_repeated_elem in E2.
      simplify_eq. eauto. }
  exists (ep_location e), message. split; [done|].
  apply (group_endpoints_location "&") in He as [? He]. rewrite split_char_concat in He.
  split; [done|lia].
Qed.

(** ** The state of the parser *)

Definition edge_pair (e : GraphEdge) : string * string := (ge_from e, ge_to e).

Section parse.
Context (good : SourcePoint -> Prop).

Record graph_inv (st : GraphState) : Prop := {
  gi_nodup : NoDup (gs_order st);
  gi_known id : is_Some (gs_node_locations st !! id) <-> id ∈ gs_order st;
  gi_valid id : id ∈ gs_order st -> valid_identifier id = true;
  gi_ends e : e ∈ gs_edges st -> ge_from e ∈ gs_order st /\ ge_to e ∈ gs_order st;
  gi_seen p : p ∈ gs_seen_edges st <-> p ∈ edge_pair <$> gs_edges st;
  gi_distinct : NoDup (edge_pair <$> gs_edges st);
  gi_located id location : gs_node_locations st !! id = Some location -> good location;
  gi_edge_located e : e ∈ gs_edges st -> good (ge_from_location e) /\ good (ge_to_location e);
}.

Lemma graph_start_inv : graph_inv graph_start_state.
Proof.
  split; simpl; try by intros ? ?%elem_of_nil.
  - constructor.
  - intros id. rewrite lookup_empty. split; [by intros []|by intros ?%elem_of_nil].
  - set_solver.
  - constructor.
  - done.
Qed.

Lemma record_node_inv id location st :
  valid_identifier id = true -> good location -> graph_inv st ->
  graph_inv (record_node id location st)
  /\ id ∈ gs_order (record_node id location st)
  /\ gs_order st ⊆ gs_order (record_node id location st).
Proof.
  intros Hv Hg Hi. unfold record_node.
  destruct (gs_node_locations st !! id) as [l|] eqn:E.
  { split; [done|]. split; [|done]. apply (gi_known _ Hi). by rewrite E. }
  assert (id ∉ gs_order st) as Hnew by (rewrite <- (gi_known _ Hi), E; by intros []).
  simpl. split; [|set_solver]. split; simpl; try apply Hi.
  - apply NoDup_app. split; [apply Hi|]. split; [set_solver|apply NoDup_singleton].
  - intros i. rewrite lookup_insert_is_Some, (gi_known _ Hi). set_solver.
  - intros i [Hin| ->%list_elem_of_singleton]%elem_of_app; [by apply (gi_valid _ Hi)|done].
  - intros e He. apply (gi_ends _ Hi) in He. set_solver.
  - intros i l [[-> <-]|[_ Hl]]%lookup_insert_Some; [done|]. by eapply (gi_located _ Hi).
Qed.

Lemma record_nodes_inv (es : list GraphEndpoint) st :
  (forall e, e ∈ es -> valid_identifier (ep_id e) = true /\ good (ep_location e)) -> graph_inv st ->
  let st' := foldl (fun st e => record_node (ep_id e) (ep_location e) st) st es in
  graph_inv st' /\ (forall e, e ∈ es -> ep_id e ∈ gs_order st') /\ gs_order st ⊆ gs_order st'.
Proof.
  revert st; induction es as [|e es IH]; intros st Hes Hi; simpl.
  { split; [done|]. split; [by intros ? ?%elem_of_nil|done]. }
  destruct (Hes e) as [Hv Hg]; [left|].
  destruct (record_node_inv (ep_id e) (ep_location e) st Hv Hg Hi) as (Hi' & Hin & Hsub).
  destruct (IH _ (fun e' He' => Hes e' (list_elem_of_further _ _ _ He')) Hi') as (Hi'' & Hall & Hsub').
  split; [done|]. split; [|set_solver]. intros e' [->|He']%elem_of_cons; auto.
Qed.

Lemma record_edge_inv from to st :
  ep_id from ∈ gs_order st -> ep_id to ∈ gs_order st ->
  good (ep_location from) -> good (ep_location to) -> graph_inv st ->
  graph_inv (record_edge from to st) /\ gs_order (record_edge from to st) = gs_order st.
Proof.
  intros Hf Ht Hgf Hgt Hi. unfold record_edge. case_decide as Hs; [done|]. simpl. split; [|done].
  split; simpl; try apply Hi.
  - intros e [He| ->%list_elem_of_singleton]%elem_of_app; [by apply (gi_ends _ Hi)|done].
  - intros p. rewrite elem_of_union, (gi_seen _ Hi), fmap_app. set_solver.
  - rewrite fmap_app. apply NoDup_app. split; [apply Hi|]. split; [|apply NoDup_singleton].
    intros p Hp ->%list_elem_of_singleton. apply Hs, (gi_seen _ Hi), Hp.
  - intros e [He| ->%list_elem_of_singleton]%elem_of_app; [by apply (gi_edge_located _ Hi)|done].
Qed.

Lemma record_edges_inv from to st :
  (forall e, e ∈ from ++ to -> ep_id e ∈ gs_order st /\ good (ep_location e)) -> graph_inv st ->
  graph_inv (record_edges from to st) /\ gs_order (record_edges from to st) = gs_order st.
Proof.
  unfold record_edges. revert st.
  assert (forall s es st, ep_id s ∈ gs_order st -> good (ep_location s) ->
    (forall e, e ∈ es -> ep_id e ∈ gs_order st /\ good (ep_location e)) -> graph_inv st ->
    let st' := foldl (fun st t => record_edge s t st) st es in
    graph_inv st' /\ gs_order st' = gs_order st) as Hinner.
  { intros s es; induction es as [|t es IH]; intros st Hs Hgs Hes Hi; simpl; [done|].
    destruct (Hes t) as [Ht Hgt]; [left|].
    destruct (record_edge_inv s t st) as [Hi' Ho]; [done..|].
    destruct (IH (record_edge s t st)) as [Hi'' Ho']; [by rewrite Ho|done| |done|].
    - intros e He. rewrite Ho. apply Hes. by right.
    - split; [done|congruence]. }
  induction from as [|s from IH]; intros st Hall Hi; simpl; [done|].
  destruct (Hinner s to st) as [Hi' Ho]; [apply Hall; left|apply Hall; left| |done|].
  { intros e He. apply Hall. set_solver. }
  destruct (IH (foldl (fun st t => record_edge s t st) st to)) as [Hi'' Ho']; [|done|].
  - intros e He. rewrite Ho. apply Hall. set_solver.
  - split; [done|congruence].
Qed.
End parse.

(** ** What a line says *)

(** The identifiers a line mentions, in order, and the edges it draws. *)
Definition group_ids (value : string) : list string := trim <$> split_char "&" value.
Definition line_ids (raw : string) : list string :=
  let line := trim raw in
  if is_empty line || starts_with "%%" line then []
  else match split_str "-->" raw with
       | None => [line]
       | Some (before, after) => group_ids before ++ group_ids after
       end.
Definition line_edges (raw : string) : list (string * string) :=
  let line := trim raw in
  if is_empty line || starts_with "%%" line then []
  else match split_str "-->" raw with
       | None => []
       | Some (before, after) => s ← group_ids before; t ← group_ids after; [(s, t)]
       end.

(** Each element once, where it occurs first. *)
Definition add_new {A} `{EqDecision A} (acc : list A) (x : A) : list A :=
  if decide (x ∈ acc) then acc else acc ++ [x].
Definition first_occurrences {A} `{EqDecision A} : list A -> list A := foldl add_new [].

Lemma record_nodes_order good es st :
  (forall e, e ∈ es -> valid_identifier (ep_id e) = true /\ good (ep_location e)) ->
  graph_inv good st ->
  gs_order (foldl (fun st e => record_node (ep_id e) (ep_location e) st) st es)
  = foldl add_new (gs_order st) (ep_id <$> es)
  /\ gs_edges (foldl (fun st e => record_node (ep_id e) (ep_location e) st) st es) = gs_edges st
  /\ gs_header_seen (foldl (fun st e => record_node (ep_id e) (ep_location e) st) st es)
     = gs_header_seen st.
Proof.
  revert st; induction es as [|e es IH]; intros st Hes Hi; simpl; [done|].
  destruct (Hes e) as [Hv Hg]; [left|].
  destruct (record_node_inv good (ep_id e) (ep_location e) st Hv Hg Hi) as (Hi' & _).
  destruct (IH _ (fun e' He' => Hes e' (list_elem_of_further _ _ _ He')) Hi') as (-> & -> & ->).
  assert (gs_order (record_node (ep_id e) (ep_location e) st) = add_new (gs_order st) (ep_id e)
    /\ gs_edges (record_node (ep_id e) (ep_location e) st) = gs_edges st
    /\ gs_header_seen (record_node (ep_id e) (ep_location e) st) = gs_header_seen st) as (-> & -> & ->);
    [|done].
  unfold record_node, add_new. pose proof (gi_known _ _ Hi (ep_id e)) as Hk.
  destruct (gs_node_locations st !! ep_id e) as [l|].
  - rewrite decide_True; [done|]. apply Hk. eauto.
  - rewrite decide_False; [done|]. rewrite <- Hk. by intros [].
Qed.

Lemma record_edges_pairs good from to st :
  (forall e, e ∈ from ++ to -> ep_id e ∈ gs_order st /\ good (ep_location e)) -> graph_inv good st ->
  edge_pair <$> gs_edges (record_edges from to st)
  = foldl add_new (edge_pair <$> gs_edges st)
      (s ← ep_id <$> from; t ← ep_id <$> to; [(s, t)])
  /\ gs_header_seen (record_edges from to st) = gs_header_seen st.
Proof.
  assert (forall s t st, ep_id s ∈ gs_order st -> ep_id t ∈ gs_order st -> graph_inv good st ->
    edge_pair <$> gs_edges (record_edge s t st) = add_new (edge_pair <$> gs_edges st) (ep_id s, ep_id t)
    /\ gs_header_seen (record_edge s t st) = gs_header_seen st) as Hone.
  { intros s t st' _ _ Hi. unfold record_edge, add_new. pose proof (gi_seen _ _ Hi (ep_id s, ep_id t)) as Hs.
    destruct (decide (_ ∈ gs_seen_edges st')) as [Hin|Hin].
    - rewrite decide_True; [done|by apply Hs].
    - rewrite decide_False; [simpl; by rewrite fmap_app|by rewrite <- Hs]. }
  assert (forall s es st, ep_id s ∈ gs_order st -> good (ep_location s) ->
    (forall e, e ∈ es -> ep_id e ∈ gs_order st /\ good (ep_location e)) -> graph_inv good st ->
    edge_pair <$> gs_edges (foldl (fun st t => record_edge s t st) st es)
    = foldl add_new (edge_pair <$> gs_edges st) (t ← ep_id <$> es; [(ep_id s, t)])
    /\ gs_header_seen (foldl (fun st t => record_edge s t st) st es) = gs_header_seen st
    /\ graph_inv good (foldl (fun st t => record_edge s t st) st es)
    /\ gs_order (foldl (fun st t => record_edge s t st) st es) = gs_order st) as Hinner.
  { intros s es; induction es as [|t es IH]; intros st0 Hs Hgs Hes Hi; simpl; [done|].
    destruct (Hes t) as [Ht Hgt]; [left|].
    destruct (record_edge_inv good s t st0) as [Hi' Ho]; [done..|].
    destruct (Hone s t st0 Hs Ht Hi) as [E1 E2].
    destruct (IH (record_edge s t st0)) as (-> & -> & ? & ->); [by rewrite Ho|done| |done|].
    - intros e He. rewrite Ho. apply Hes. by right.
    - by rewrite E1, E2. }
  unfold record_edges. revert st. induction from as [|s from IH]; intros st Hall Hi; simpl; [done|].
  destruct (Hinner s to st) as (E1 & E2 & Hi' & Ho); [apply Hall; left|apply Hall; left| |done|].
  { intros e He. apply Hall. set_solver. }
  destruct (IH (foldl (fun st t => record_edge s t st) st to)) as [-> ->]; [|done|].
  - intros e He. rewrite Ho. apply Hall. set_solver.
  - by rewrite foldl_app, E1, E2.
Qed.

(** ** Which lines are accepted *)

(** A group: distinct identifiers. *)
Definition group_ok (value : string) : Prop :=
  NoDup (group_ids value) /\ Forall (fun id => valid_identifier id = true) (group_ids value).

(** A blank line, a comment, an identifier, or an edge with at most one group of several nodes. *)
Definition line_ok (raw : string) : Prop :=
  let line := trim raw in
  if is_empty line || starts_with "%%" line then True
  else match split_str "-->" raw with
       | None => valid_identifier line = true
       | Some (before, after) =>
           contains_str "-->" after = false /\ group_ok before /\ group_ok after
           /\ (length (group_ids before) <= 1 \/ length (group_ids after) <= 1)
       end.

Lemma parse_endpoint_group_group_ok source ln value base :
  (exists es, parse_endpoint_group source ln value base = inl es) <-> group_ok value.
Proof.
  unfold group_ok. split.
  - intros [es Hes]. apply parse_endpoint_group_ok in Hes as (Hids & Hnd & Hv & _).
    unfold group_ids. rewrite <- Hids. split; [done|]. apply Forall_forall.
    intros id (e & -> & He)%list_elem_of_fmap. auto.
  - unfold group_ids. rewrite <- (group_endpoints_ids ln base 0). intros [Hnd Hv].
    unfold parse_endpoint_group. destruct (find_first _ _) as [e|] eqn:E1.
    + apply find_first_Some in E1 as [He Hno]. rewrite Forall_forall in Hv.
      rewrite Hv in Hno; [done|]. by apply list_elem_of_fmap_2.
    + rewrite (proj2 (first_repeated_None ∅ _)); [eauto|]. split; [done|set_solver].
Qed.

Lemma parse_graph_line_accepts source first st i raw :
  gs_header_seen st = true ->
  (exists st', parse_graph_line source first st (i, raw) = inl st') <-> line_ok raw.
Proof.
  intros Hh. unfold parse_graph_line, line_ok. rewrite Hh.
  destruct (is_empty _ || _); [split; eauto|]. simpl negb. cbv iota.
  destruct (split_str "-->" raw) as [[before after]|].
  2: { destruct (valid_identifier (trim raw)); split; eauto; try done. by intros []. }
  unfold parse_edge_line. destruct (contains_str "-->" after).
  { split; [by intros []|by intros []]. }
  rewrite <- (parse_endpoint_group_group_ok source (first + i) before 0),
    <- (parse_endpoint_group_group_ok source (first + i) after (String.length before + 3)).
  destruct (parse_endpoint_group _ _ before _) as [from|] eqn:Ef.
  2: { split; [by intros []|]. by intros (_ & [? ?] & _). }
  destruct (parse_endpoint_group _ _ after _) as [to|] eqn:Et.
  2: { split; [by intros []|]. by intros (_ & _ & [? ?] & _). }
  apply parse_endpoint_group_ok in Ef as (Hf & _), Et as (Ht & _).
  unfold group_ids. rewrite <- Hf, <- Ht, !length_fmap.
  case_decide as Hfan; [split; [by intros []|]; intros (_ & _ & _ & [?|?]); lia|].
  split; [intros _|eauto]. split; [done|]. split; [eauto|]. split; [eauto|]. lia.
Qed.

(** ** One line *)

Section line.
Context (source : string) (first : nat) (lines : list string).
Abbreviation good := (in_lines first lines).

Lemma parse_edge_line_ok i raw before after st st' :
  lines !! i = Some raw -> raw = before +:+ ("-->" +:+ after) -> graph_inv good st ->
  parse_edge_line source (first + i) raw before after st = inl st' ->
  graph_inv good st'
  /\ gs_order st' = foldl add_new (gs_order st) (group_ids before ++ group_ids after)
  /\ edge_pair <$> gs_edges st'
     = foldl add_new (edge_pair <$> gs_edges st)
         (s ← group_ids before; t ← group_ids after; [(s, t)])
  /\ gs_header_seen st' = gs_header_seen st.
Proof.
  intros Hi -> Hinv. unfold parse_edge_line. destruct (contains_str _ _); [done|].
  destruct (parse_endpoint_group _ _ before _) as [from|] eqn:Ef; [|done].
  destruct (parse_endpoint_group _ _ after _) as [to|] eqn:Et; [|done].
  case_decide; [done|]. intros [= <-].
  apply parse_endpoint_group_ok in Ef as (Hf & _ & Hfv & Hfl).
  apply parse_endpoint_group_ok in Et as (Ht & _ & Htv & Htl).
  assert (forall e, e ∈ from ++ to -> valid_identifier (ep_id e) = true /\ good (ep_location e)) as Hes.
  { intros e He. apply elem_of_app in He as [He|He].
    - split; [auto|]. destruct (Hfl e He) as [? ?]. do 2 eexists. split; [done|].
      rewrite !length_app_str. simpl. split; [done|lia].
    - split; [auto|]. destruct (Htl e He) as [? ?]. do 2 eexists. split; [done|].
      rewrite !length_app_str. simpl. split; [done|lia]. }
  destruct (record_nodes_inv good (from ++ to) st Hes Hinv) as (Hi1 & Hall & _).
  destruct (record_nodes_order good (from ++ to) st Hes Hinv) as (Ho & He & Hh).
  set (st1 := foldl _ st _) in *.
  assert (forall e, e ∈ from ++ to -> ep_id e ∈ gs_order st1 /\ good (ep_location e)) as Hes1.
  { intros e Hin. split; [by apply Hall|by apply Hes]. }
  destruct (record_edges_inv good from to st1 Hes1 Hi1) as [Hi2 Ho2].
  destruct (record_edges_pairs good from to st1 Hes1 Hi1) as [Hp Hh2].
  unfold group_ids. rewrite <- Hf, <- Ht, Ho2, Ho, Hp, He, Hh2, Hh, fmap_app. done.
Qed.

(** A line after the header. *)
Lemma parse_graph_line_ok i raw st st' :
  lines !! i = Some raw -> graph_inv good st -> gs_header_seen st = true ->
  parse_graph_line source first st (i, raw) = inl st' ->
  graph_inv good st' /\ gs_header_seen st' = true
  /\ gs_order st' = foldl add_new (gs_order st) (line_ids raw)
  /\ edge_pair <$> gs_edges st' = foldl add_new (edge_pair <$> gs_edges st) (line_edges raw).
Proof.
  intros Hl Hinv Hh. unfold parse_graph_line, line_ids, line_edges. rewrite Hh.
  destruct (is_empty _ || _); [by intros [= <-]|]. simpl negb. cbv iota.
  destruct (split_str "-->" raw) as [[before after]|] eqn:Es.
  - intros H. apply split_str_Some in Es.
    destruct (parse_edge_line_ok i raw before after st st') as (? & ? & ? & ->); done.
  - destruct (valid_identifier (trim raw)) eqn:Ev; [|done]. intros [= <-].
    assert (good (mkSourcePoint (first + i) (first_non_whitespace_column raw))) as Hg.
    { exists i, raw. split; [done|]. split; [done|]. apply first_non_whitespace_column_bound. }
    destruct (record_node_inv good _ _ st Ev Hg Hinv) as (? & _).
    destruct (record_nodes_order good
      [mkGraphEndpoint (trim raw) (mkSourcePoint (first + i) (first_non_whitespace_column raw))] st)
      as (Ho & He & Hh'); [|done|].
    { by intros e ->%list_elem_of_singleton. }
    simpl in Ho, He, Hh'. by rewrite Ho, He, Hh'.
Qed.
End line.

(** ** The whole graph *)

Definition is_skipped (raw : string) : bool := is_empty (trim raw) || starts_with "%%" (trim raw).

Lemma imap_pair_snd {A} (l : list A) : (imap pair l).*2 = l.
Proof.
  apply list_eq. intros j. rewrite list_lookup_fmap, list_lookup_imap. by destruct (l !! j).
Qed.

Lemma imap_pair_split (lines : list string) pre i raw post :
  imap pair lines = pre ++ (i, raw) :: post -> lines !! i = Some raw /\ pre.*2 = take i lines.
Proof.
  intros Heq. assert (imap pair lines !! length pre = Some (i, raw)) as Hl.
  { rewrite Heq. by rewrite list_lookup_middle. }
  rewrite list_lookup_imap in Hl. destruct (lines !! length pre) as [x|] eqn:E; [|done].
  injection Hl as <- <-. split; [done|].
  rewrite <- (imap_pair_snd lines), Heq, fmap_app, take_app_length'; [done|]. by rewrite length_fmap.
Qed.

Lemma first_occurrences_elem {A} `{EqDecision A} (l : list A) x : x ∈ first_occurrences l <-> x ∈ l.
Proof.
  assert (forall acc, x ∈ foldl add_new acc l <-> x ∈ acc \/ x ∈ l) as Hgen.
  { induction l as [|y l IH]; intros acc; simpl; [rewrite elem_of_nil; tauto|].
    rewrite IH. unfold add_new. case_decide; set_solver. }
  unfold first_occurrences. rewrite Hgen, elem_of_nil. tauto.
Qed.

Lemma first_occurrences_NoDup {A} `{EqDecision A} (l : list A) : NoDup (first_occurrences l).
Proof.
  assert (forall acc, NoDup acc -> NoDup (foldl add_new acc l)) as Hgen; [|apply Hgen; constructor].
  induction l as [|y l IH]; intros acc Hacc; simpl; [done|]. apply IH. unfold add_new.
  case_decide as Hy; [done|]. apply NoDup_app. split; [done|]. split; [|apply NoDup_singleton].
  by intros x Hx ->%list_elem_of_singleton.
Qed.

(** The header is the first line that is not skipped. *)
Lemma header_unique blank1 header1 body1 blank2 header2 body2 :
  blank1 ++ header1 :: body1 = blank2 ++ header2 :: body2 ->
  Forall (fun raw => is_skipped raw = true) blank1 -> Forall (fun raw => is_skipped raw = true) blank2 ->
  is_skipped header1 = false -> is_skipped header2 = false ->
  blank1 = blank2 /\ header1 = header2 /\ body1 = body2.
Proof.
  revert blank2; induction blank1 as [|x b1 IH]; intros [|y b2] Heq H1 H2 Hh1 Hh2; simplify_eq/=.
  - done.
  - apply Forall_cons in H2 as [? _]. congruence.
  - apply Forall_cons in H1 as [? _]. congruence.
  - apply Forall_cons in H1 as [_ H1], H2 as [_ H2].
    by destruct (IH b2) as (-> & -> & ->).
Qed.

Lemma header_not_skipped header : trim header = "flowchart TD" -> is_skipped header = false.
Proof. unfold is_skipped. by intros ->. Qed.

Section graph.
Context (source : string) (first : nat) (lines : list string).
Abbreviation good := (in_lines first lines).

(** The parser's state after the lines [done]. *)
Definition parsed_lines (done : list string) (st : GraphState) : Prop :=
  graph_inv good st
  /\ if gs_header_seen st then
       exists blank header body, done = blank ++ header :: body
         /\ Forall (fun raw => is_skipped raw = true) blank /\ trim header = "flowchart TD"
         /\ Forall line_ok body
         /\ gs_order st = first_occurrences (body ≫= line_ids)
         /\ edge_pair <$> gs_edges st = first_occurrences (body ≫= line_edges)
     else st = graph_start_state /\ Forall (fun raw => is_skipped raw = true) done.

Lemma parsed_lines_step i raw st st' done :
  lines !! i = Some raw -> parsed_lines done st ->
  parse_graph_line source first st (i, raw) = inl st' -> parsed_lines (done ++ [raw]) st'.
Proof.
  intros Hl [Hinv Hst] Hp. destruct (gs_header_seen st) eqn:Hh.
  - destruct (parse_graph_line_ok source first lines i raw st st' Hl Hinv Hh Hp)
      as (Hinv' & Hh' & Ho & He).
    destruct Hst as (blank & header & body & -> & Hblank & Hhead & Hok & Hord & Hedg).
    split; [done|]. rewrite Hh'. exists blank, header, (body ++ [raw]).
    rewrite <- app_assoc. split; [done|]. split; [done|]. split; [done|]. split.
    { apply Forall_app. split; [done|]. constructor; [|done].
      apply (parse_graph_line_accepts source first st i); eauto. }
    unfold first_occurrences in *. rewrite !bind_app, !foldl_app, <- Hord, <- Hedg. simpl.
    by rewrite !app_nil_r.
  - destruct Hst as [-> Hblank]. unfold parse_graph_line in Hp. cbn [gs_header_seen graph_start_state] in Hp.
    destruct (is_empty _ || _) eqn:Eb.
    + injection Hp as <-. split; [done|]. simpl. split; [done|]. apply Forall_app. by split; [|constructor].
    + simpl in Hp. case_decide as Ht; [done|]. injection Hp as <-.
      split.
      * split; simpl; apply Hinv.
      * simpl. exists done, raw, []. by repeat split.
Qed.

Lemma parsed_prefix pre post st :
  imap pair lines = pre ++ post ->
  try_fold (parse_graph_line source first) graph_start_state pre = inl st -> parsed_lines pre.*2 st.
Proof.
  intros Heq. apply (try_fold_invariant (fun pre st => parsed_lines pre.*2 st)).
  - split; [apply graph_start_inv|done].
  - intros done [i raw] rest s s' -> Hs Hstep. rewrite fmap_app. simpl.
    eapply parsed_lines_step; [|done..]. rewrite <- app_assoc in Heq. by eapply imap_pair_split.
Qed.

Lemma parse_graph_ok graph :
  parse_graph source lines first = inl graph ->
  exists blank header body,
    lines = blank ++ header :: body
    /\ Forall (fun raw => is_skipped raw = true) blank /\ trim header = "flowchart TD"
    /\ Forall line_ok body
    /\ pg_order graph = first_occurrences (body ≫= line_ids) /\ body ≫= line_ids <> []
    /\ edge_pair <$> pg_edges graph = first_occurrences (body ≫= line_edges)
    /\ graph_inv good (mkGraphState true (pg_order graph) (pg_node_locations graph) (pg_edges graph)
                         (list_to_set (edge_pair <$> pg_edges graph))).
Proof.
  unfold parse_graph. destruct (try_fold _ _ _) as [st|] eqn:Ef; [|done].
  apply (parsed_prefix _ []) in Ef; [|by rewrite app_nil_r].
  rewrite imap_pair_snd in Ef. destruct Ef as [Hinv Hst]. destruct (gs_header_seen st) eqn:Hh; [|done].
  simpl. case_decide as Ho; [done|]. intros [= <-]. simpl.
  destruct Hst as (blank & header & body & -> & ? & ? & ? & Hord & ?).
  exists blank, header, body. do 5 (split; [done|]).
  split; [intros Hnil; by rewrite Hord, Hnil in Ho|]. split; [done|].
  split; simpl; try apply Hinv. intros p. by rewrite elem_of_list_to_set.
Qed.

(** A line that fails is not one of an acceptable graph. *)
Lemma failing_line i raw st pre post e blank header body :
  imap pair lines = pre ++ (i, raw) :: post ->
  try_fold (parse_graph_line source first) graph_start_state pre = inl st ->
  parse_graph_line source first st (i, raw) = inr e ->
  lines = blank ++ header :: body -> Forall (fun raw => is_skipped raw = true) blank ->
  trim header = "flowchart TD" -> ~ Forall line_ok body.
Proof.
  intros Heq Hpre Hline Hlines Hblank Hhead Hbody.
  apply (parsed_prefix _ _ _ Heq) in Hpre as [_ Hst].
  apply (f_equal (fmap snd)) in Heq. rewrite imap_pair_snd, fmap_app, fmap_cons in Heq. simpl in Heq.
  pose proof (header_not_skipped _ Hhead) as Hns.
  destruct (gs_header_seen st) eqn:Hh.
  - destruct Hst as (b1 & h1 & body1 & E1 & Hb1 & Hh1 & _). rewrite E1, Hlines, <- app_assoc in Heq.
    apply header_unique in Heq as (_ & _ & ->); [|done..|by apply header_not_skipped].
    apply Forall_app in Hbody as [_ [Hok _]%Forall_cons].
    apply (parse_graph_line_accepts source first st i raw Hh) in Hok as [st' Hst']. congruence.
  - destruct Hst as [-> Hall]. unfold parse_graph_line in Hline.
    destruct (is_skipped raw) eqn:Hs; [by unfold is_skipped in Hs; rewrite Hs in Hline|].
    rewrite Hlines in Heq. apply header_unique in Heq as (_ & <- & _); [|done..].
    unfold is_skipped in Hs. rewrite Hs in Hline. simpl in Hline. by rewrite decide_False in Hline by tauto.
Qed.

(** Everything of that shape is parsed. *)
Lemma parse_graph_accepts blank header body :
  lines = blank ++ header :: body ->
  Forall (fun raw => is_skipped raw = true) blank -> trim header = "flowchart TD" ->
  Forall line_ok body -> body ≫= line_ids <> [] ->
  exists graph, parse_graph source lines first = inl graph.
Proof.
  intros Hlines Hblank Hhead Hbody Hne. unfold parse_graph.
  destruct (try_fold _ _ _) as [st|e] eqn:Ef.
  - apply (parsed_prefix _ []) in Ef; [|by rewrite app_nil_r].
    rewrite imap_pair_snd in Ef. destruct Ef as [_ Hst]. pose proof (header_not_skipped _ Hhead) as Hns.
    destruct (gs_header_seen st); simpl.
    + destruct Hst as (b1 & h1 & body1 & E1 & Hb1 & Hh1 & _ & Hord & _).
      rewrite Hlines in E1. apply header_unique in E1 as (-> & -> & ->); [|done..|by apply header_not_skipped].
      case_decide as Ho; [|eauto]. destruct Hne. rewrite Hord in Ho.
      destruct (body1 ≫= line_ids) as [|x l] eqn:E; [done|].
      assert (x ∈ first_occurrences (x :: l)) as Hin by (apply first_occurrences_elem; left).
      rewrite Ho in Hin. by apply elem_of_nil in Hin.
    + destruct Hst as [_ Hall]. rewrite Hlines in Hall. apply Forall_app in Hall as [_ [? _]%Forall_cons].
      congruence.
  - exfalso. apply try_fold_error in Ef as (pre & [i raw] & post & st & Heq & Hpre & Hline).
    by eapply failing_line.
Qed.

(** The parser's errors are located in its lines, or on the line where the body starts. *)
Lemma parse_graph_error err :
  parse_graph source lines first = inr err ->
  exists location message, err = error_at graph_error source location message
    /\ (in_lines first lines location \/ location = mkSourcePoint first 1).
Proof.
  unfold parse_graph. destruct (try_fold _ _ _) as [st|e] eqn:Ef.
  - destruct (gs_header_seen st); simpl.
    + case_decide; [|done]. intros [= <-]. exists (mkSourcePoint first 1). eauto.
    + intros [= <-]. exists (mkSourcePoint first 1). eauto.
  - intros [= <-]. apply try_fold_error in Ef as (pre & [i raw] & post & st & Heq & _ & Hline).
    apply imap_pair_split in Heq as [Hl _].
    assert (forall message, exists location msg,
      graph_error source (first + i) (first_non_whitespace_column raw) message
      = error_at graph_error source location msg
      /\ (in_lines first lines location \/ location = mkSourcePoint first 1)) as Hcol.
    { intros message. exists (mkSourcePoint (first + i) (first_non_whitespace_column raw)), message.
      split; [done|]. left. exists i, raw. split; [done|]. split; [done|].
      apply first_non_whitespace_column_bound. }
    unfold parse_graph_line in Hline. destruct (is_empty _ || _); [done|].
    destruct (gs_header_seen st); simpl in Hline; [|case_decide; simplify_eq; apply Hcol].
    destruct (split_str "-->" raw) as [[before after]|] eqn:Es;
      [|destruct (valid_identifier _); simplify_eq; apply Hcol].
    apply split_str_Some in Es. unfold parse_edge_line in Hline.
    destruct (contains_str _ _); [simplify_eq; apply Hcol|].
    assert (String.length raw = String.length before + 3 + String.length after) as Hlen.
    { rewrite Es, !length_app_str. simpl. lia. }
    destruct (parse_endpoint_group _ _ before _) as [from|e1] eqn:Ef.
    2: { apply parse_endpoint_group_error in Ef as (loc & msg & -> & ? & ?). injection Hline as <-.
      exists loc, msg. split; [done|]. left. exists i, raw. repeat (split; [done|]). lia. }
    destruct (parse_endpoint_group _ _ after _) as [to|e1] eqn:Et.
    2: { apply parse_endpoint_group_error in Et as (loc & msg & -> & ? & ?). injection Hline as <-.
      exists loc, msg. split; [done|]. left. exists i, raw. repeat (split; [done|]). lia. }
    case_decide; simplify_eq; apply Hcol.
Qed.
End graph.
