(* ===== verification/Render.v ===== *)
(** * Rendering a Workflow stage ([hya-workflow/src/render.rs])

    A stage's directive with its inputs filled in and the bounded, escaped evidence of its direct
    predecessors appended. *)

From stdpp Require Import pretty.
From S2P Require Import Prelude Result RustStr Text WfModel.

Definition MAX_PREDECESSOR_OUTPUT_BYTES : nat := 4000.

Module StageEvidenceStatus.
Inductive t := Done | Failed | Cancelled | Skipped.
#[global] Instance eq_dec : EqDecision t.
Proof. solve_decision. Defined.
Definition as_str (s : t) : string :=
  match s with Done => "done" | Failed => "failed" | Cancelled => "cancelled" | Skipped => "skipped" end.
End StageEvidenceStatus.

Record StageEvidence := mkStageEvidence {
  se_status : StageEvidenceStatus.t;
  se_output : string;
}.

Record RenderedStage := mkRenderedStage {
  rs_directive : string;
  rs_system_context : string;
  rs_verification_condition : option string;
}.

Module WorkflowRenderError.
Inductive t :=
  | MissingInput (key : string)
  | UnknownInput (key : string)
  | UnknownStageIndex (index : nat)
  | EvidenceShape (actual expected : nat)
  | MissingPredecessorEvidence (id : string).
End WorkflowRenderError.

Definition validate_inputs (workflow : CompiledWorkflow) (inputs : gmap string string) :
    unit + WorkflowRenderError.t :=
  let declared := wd_inputs (cw_definition workflow) in
  match find_first (fun key => inputs !! key = None) (btree_keys declared) with
  | Some key => inr (WorkflowRenderError.MissingInput key)
  | None =>
      match find_first (fun key => declared !! key = None) (btree_keys inputs) with
      | Some key => inr (WorkflowRenderError.UnknownInput key)
      | None => inl tt
      end
  end.

(** The loop of [interpolate_inputs]: [fuel] bounds the length of [rest]. *)
Fixpoint interpolate_loop (fuel : nat) (inputs : gmap string string) (rendered rest : string) : string :=
  match fuel, split_str "{{" rest with
  | S fuel, Some (before, after) =>
      match split_str "}}" after with
      | None => rendered +:+ rest
      | Some (inner, after_token) =>
          let token := trim inner in
          let value := default "" (key ← strip_prefix "input." token; inputs !! key) in
          interpolate_loop fuel inputs (rendered +:+ before +:+ value) after_token
      end
  | _, _ => rendered +:+ rest
  end.

Definition interpolate_inputs (template : string) (inputs : gmap string string) : string :=
  interpolate_loop (S (String.length template)) inputs "" template.

(** [while end > 0 && !value.is_char_boundary(end) { end -= 1 }] *)
Fixpoint floor_boundary (value : string) (end_ : nat) : nat :=
  match end_ with
  | O => O
  | S end' => if is_char_boundary value (S end') then S end' else floor_boundary value end'
  end.

Definition truncate_utf8 (value : string) (limit : nat) : string :=
  if decide (String.length value <= limit) then value
  else str_take (floor_boundary value limit) value.

(** Bytes of longer characters are none of the three. *)
Fixpoint push_xml_text (target value : string) : string :=
  match value with
  | EmptyString => target
  | String c value =>
      let text :=
        if decide (c = "&"%char) then "&amp;"
        else if decide (c = "<"%char) then "&lt;"
        else if decide (c = ">"%char) then "&gt;"
        else String c EmptyString in
      push_xml_text (target +:+ text) value
  end.

Definition QUOTE : string := String (ascii_of_nat 34) EmptyString.
Definition NEWLINE : string := String LF EmptyString.

(** One predecessor's element. *)
Definition push_stage (directive : string) (predecessor : WorkflowStage) (item : StageEvidence) : string :=
  push_xml_text
    (directive +:+ "<stage id=" +:+ QUOTE +:+ st_id predecessor +:+ QUOTE
     +:+ " agent=" +:+ QUOTE +:+ st_agent predecessor +:+ QUOTE
     +:+ " status=" +:+ QUOTE +:+ StageEvidenceStatus.as_str (se_status item) +:+ QUOTE +:+ ">" +:+ NEWLINE)
    (truncate_utf8 (se_output item) MAX_PREDECESSOR_OUTPUT_BYTES)
  +:+ NEWLINE +:+ "</stage>" +:+ NEWLINE.

(** The loop over the direct predecessors; [None] is the panic of an index outside the plan. *)
Fixpoint push_predecessors (stages : list WorkflowStage) (evidence : list (option StageEvidence))
    (directive : string) (indices : list nat) : option (string + WorkflowRenderError.t) :=
  match indices with
  | [] => Some (inl directive)
  | index :: indices =>
      predecessor ← stages !! index;
      item ← evidence !! index;
      match item with
      | None => Some (inr (WorkflowRenderError.MissingPredecessorEvidence (st_id predecessor)))
      | Some item =>
          push_predecessors stages evidence (push_stage directive predecessor item) indices
      end
  end.

Definition UPSTREAM_OPEN : string := NEWLINE +:+ NEWLINE +:+ "<workflow-upstream>" +:+ NEWLINE.
Definition UPSTREAM_CLOSE : string := "</workflow-upstream>".

Definition system_context_of (workflow : CompiledWorkflow) (stage : WorkflowStage) : string :=
  "<workflow-context>" +:+ NEWLINE +:+ "workflow: " +:+ wd_name (cw_definition workflow) +:+ NEWLINE
  +:+ "stage: " +:+ st_id stage +:+ NEWLINE +:+ "level: " +:+ pretty (st_level stage) +:+ NEWLINE
  +:+ "</workflow-context>".

Definition render_stage (workflow : CompiledWorkflow) (index : nat) (inputs : gmap string string)
    (evidence : list (option StageEvidence)) : option (RenderedStage + WorkflowRenderError.t) :=
  let stages := plan_stages (cw_plan workflow) in
  match validate_inputs workflow inputs with
  | inr error => Some (inr error)
  | inl _ =>
      match stages !! index with
      | None => Some (inr (WorkflowRenderError.UnknownStageIndex index))
      | Some stage =>
          if decide (length evidence <> length stages)
          then Some (inr (WorkflowRenderError.EvidenceShape (length evidence) (length stages)))
          else
            let directive := interpolate_inputs (st_directive stage) inputs in
            directive ←
              (if decide (st_predecessor_indices stage = []) then Some (inl directive)
               else
                 pushed ← push_predecessors stages evidence (directive +:+ UPSTREAM_OPEN)
                            (st_predecessor_indices stage);
                 Some (let? directive := pushed in inl (directive +:+ UPSTREAM_CLOSE)));
            Some (let? directive := directive in
                  inl (mkRenderedStage directive (system_context_of workflow stage)
                         ((fun verify => interpolate_inputs (vs_until verify) inputs)
                            <$> st_verify stage)))
      end
  end.
