(* ===== verification/NormalizeSpec.v ===== *)
(** * What normalization guarantees ([normalize], [hya-workflow/src/compiler.rs])

    The predecessor and successor rows are the edges of the graph by index, levels and stages are
    consistent with them, and model routes come out normalized. *)

From stdpp Require Import sorting.
From S2P Require Import Prelude Result RustStr Text WfModel Compiler Levels GraphSpec.

(** ** Indices *)

Lemma index_by_id_snoc order id :
  index_by_id (order ++ [id]) = <[id := length order]> (index_by_id order).
Proof.
  unfold index_by_id. rewrite imap_app, foldl_app. simpl. by rewrite Nat.add_0_r.
Qed.

Lemma index_by_id_lookup order id i :
  NoDup order -> index_by_id order !! id = Some i <-> order !! i = Some id.
Proof.
  revert i; induction order as [|x order IH] using rev_ind; intros i Hnd.
  { unfold index_by_id. simpl. by rewrite lookup_empty. }
  apply NoDup_app in Hnd as (Hnd & Hx & _). rewrite index_by_id_snoc, lookup_insert_Some, IH by done.
  rewrite lookup_snoc_Some. split.
  - intros [[-> <-]|[Hne Hi]]; [by right|]. left. split; [by eapply lookup_lt_Some|done].
  - intros [[Hlt Hi]|[-> ->]]; [|by left]. right. split; [|done]. intros ->.
    apply (Hx id); [by eapply list_elem_of_lookup_2|set_solver].
Qed.

(** ** Rows *)

Lemma length_push_at i x rows : length (push_at i x rows) = length rows.
Proof. apply length_alter. Qed.

Lemma row_push_at i x rows j :
  i < length rows -> row (push_at i x rows) j = if decide (i = j) then row rows j ++ [x] else row rows j.
Proof.
  intros Hi. unfold row, push_at. case_decide as Hij.
  - subst j. rewrite list_lookup_alter_eq. destruct (lookup_lt_is_Some_2 rows i Hi) as [l ->]. done.
  - by rewrite list_lookup_alter_ne.
Qed.

Lemma row_replicate n v : row (replicate n []) v = [].
Proof.
  unfold row. destruct (replicate n [] !! v) as [l|] eqn:E; [|done].
  by apply lookup_replicate in E as [-> _].
Qed.

(** The edges by index. *)
Definition sources_of (pairs : list (nat * nat)) (v : nat) : list nat :=
  (filter (fun p => p.2 = v) pairs).*1.
Definition targets_of (pairs : list (nat * nat)) (u : nat) : list nat :=
  (filter (fun p => p.1 = u) pairs).*2.

Lemma sources_of_snoc pairs i j v :
  sources_of (pairs ++ [(i, j)]) v
  = if decide (j = v) then sources_of pairs v ++ [i] else sources_of pairs v.
Proof.
  unfold sources_of. rewrite filter_app, fmap_app, filter_cons. simpl.
  case_decide; simpl; [done|by rewrite app_nil_r].
Qed.

Lemma targets_of_snoc pairs i j u :
  targets_of (pairs ++ [(i, j)]) u
  = if decide (i = u) then targets_of pairs u ++ [j] else targets_of pairs u.
Proof.
  unfold targets_of. rewrite filter_app, fmap_app, filter_cons. simpl.
  case_decide; simpl; [done|by rewrite app_nil_r].
Qed.

Lemma sources_of_elem pairs u v : u ∈ sources_of pairs v <-> (u, v) ∈ pairs.
Proof.
  unfold sources_of. rewrite list_elem_of_fmap. split.
  - intros ([a b] & -> & [Hb Hin]%list_elem_of_filter). simpl in *. by subst.
  - intros Hin. exists (u, v). split; [done|]. by apply list_elem_of_filter.
Qed.

Lemma targets_of_elem pairs u v : v ∈ targets_of pairs u <-> (u, v) ∈ pairs.
Proof.
  unfold targets_of. rewrite list_elem_of_fmap. split.
  - intros ([a b] & -> & [Hb Hin]%list_elem_of_filter). simpl in *. by subst.
  - intros Hin. exists (u, v). split; [done|]. by apply list_elem_of_filter.
Qed.

Lemma sources_of_NoDup pairs v : NoDup pairs -> NoDup (sources_of pairs v).
Proof.
  intros Hnd. unfold sources_of. apply NoDup_fmap_2_strong; [|by apply NoDup_filter].
  intros [a b] [c d] [Hb _]%list_elem_of_filter [Hd _]%list_elem_of_filter. simpl in *. congruence.
Qed.

Lemma targets_of_NoDup pairs u : NoDup pairs -> NoDup (targets_of pairs u).
Proof.
  intros Hnd. unfold targets_of. apply NoDup_fmap_2_strong; [|by apply NoDup_filter].
  intros [a b] [c d] [Hb _]%list_elem_of_filter [Hd _]%list_elem_of_filter. simpl in *. congruence.
Qed.

Section link.
Context (source : string) (order : list string) (Hnd : NoDup order).
Abbreviation n := (length order).

Definition indexed (e : GraphEdge) (p : nat * nat) : Prop :=
  order !! p.1 = Some (ge_from e) /\ order !! p.2 = Some (ge_to e) /\ p.1 <> p.2.

(** The rows are those of the edges [pairs]. *)
Definition rows_of (pairs : list (nat * nat)) (rows : list (list nat) * list (list nat)) : Prop :=
  length rows.1 = n /\ length rows.2 = n
  /\ (forall v, row rows.1 v = sources_of pairs v) /\ (forall u, row rows.2 u = targets_of pairs u).

Lemma link_edges_ok edges rows :
  try_fold (link_edge source (index_by_id order)) (replicate n [], replicate n []) edges = inl rows ->
  exists pairs, Forall2 indexed edges pairs /\ rows_of pairs rows.
Proof.
  apply (try_fold_invariant (fun done rows => exists pairs, Forall2 indexed done pairs /\ rows_of pairs rows)).
  - exists []. split; [constructor|]. unfold rows_of. simpl. rewrite !length_replicate.
    repeat split; [intros v; apply row_replicate..].
  - intros done e rest [p s] rows' _ (pairs & Hall & Hp & Hs & Hsrc & Htgt) Hstep.
    unfold link_edge in Hstep. simpl in Hp, Hs, Hsrc, Htgt.
    destruct (index_by_id order !! ge_from e) as [i|] eqn:Ei; [|done].
    destruct (index_by_id order !! ge_to e) as [j|] eqn:Ej; [|done].
    case_decide as Hij; [done|]. injection Hstep as <-.
    apply index_by_id_lookup in Ei, Ej; [|done..].
    exists (pairs ++ [(i, j)]). split; [apply Forall2_app; [done|by repeat constructor]|].
    pose proof (lookup_lt_Some _ _ _ Ei). pose proof (lookup_lt_Some _ _ _ Ej).
    unfold rows_of. simpl. rewrite !length_push_at. split; [done|]. split; [done|]. split.
    + intros v. by rewrite row_push_at, sources_of_snoc, Hsrc by lia.
    + intros u. by rewrite row_push_at, targets_of_snoc, Htgt by lia.
Qed.

(** It refuses exactly self-edges, when the nodes are known. *)
Lemma link_edges_error edges err :
  (forall e, e ∈ edges -> ge_from e ∈ order /\ ge_to e ∈ order) ->
  try_fold (link_edge source (index_by_id order)) (replicate n [], replicate n []) edges = inr err ->
  exists e, e ∈ edges /\ ge_from e = ge_to e
    /\ err = error_at validation_error source (ge_to_location e)
               ("node `" +:+ ge_from e +:+ "` cannot depend on itself").
Proof.
  intros Hends (pre & e & post & [p s] & -> & _ & Hstep)%try_fold_error.
  destruct (Hends e) as [[i Hi]%list_elem_of_lookup_1 [j Hj]%list_elem_of_lookup_1]; [set_solver|].
  unfold link_edge in Hstep. rewrite (proj2 (index_by_id_lookup order _ i Hnd)) in Hstep by done.
  rewrite (proj2 (index_by_id_lookup order _ j Hnd)) in Hstep by done.
  case_decide as Hij; [|done]. injection Hstep as <-. exists e. split; [set_solver|].
  split; [congruence|done].
Qed.

Lemma indexed_inj e1 e2 p1 p2 : indexed e1 p1 -> indexed e2 p2 -> edge_pair e1 = edge_pair e2 <-> p1 = p2.
Proof.
  destruct p1 as [i1 j1], p2 as [i2 j2]. intros (H1 & H2 & _) (H3 & H4 & _). unfold edge_pair. simpl in *.
  split; intros Heq; simplify_eq.
  - f_equal; (eapply NoDup_lookup; [exact Hnd|done|congruence]).
  - congruence.
Qed.

Lemma indexed_NoDup edges pairs :
  Forall2 indexed edges pairs -> NoDup (edge_pair <$> edges) -> NoDup pairs.
Proof.
  induction 1 as [|e p edges pairs He Hall IH]; [constructor|].
  rewrite fmap_cons, !NoDup_cons. intros [Hnin Hrest]. split; [|auto].
  intros Hp. apply Hnin. apply list_elem_of_lookup_1 in Hp as [k Hk].
  destruct (Forall2_lookup_r _ _ _ _ _ Hall Hk) as (e' & He' & Hi').
  apply list_elem_of_fmap. exists e'. split; [by apply (indexed_inj e e' p p)|].
  by eapply list_elem_of_lookup_2.
Qed.

Lemma rows_wf edges pairs p s :
  Forall2 indexed edges pairs -> NoDup (edge_pair <$> edges) -> rows_of pairs (p, s) -> wf_rows p s.
Proof.
  intros Hall Hd (Hp & Hs & Hsrc & Htgt). simpl in *.
  pose proof (indexed_NoDup _ _ Hall Hd) as Hndp. split.
  - congruence.
  - intros u v. by rewrite Hsrc, Htgt, sources_of_elem, targets_of_elem.
  - intros u v. rewrite Hsrc, sources_of_elem. intros Hin.
    apply list_elem_of_lookup_1 in Hin as [k Hk].
    destruct (Forall2_lookup_r _ _ _ _ _ Hall Hk) as (e & _ & He & _). simpl in He.
    apply lookup_lt_Some in He. lia.
  - intros v. rewrite Hsrc. by apply sources_of_NoDup.
  - intros u. rewrite Htgt. by apply targets_of_NoDup.
Qed.
End link.

(** ** The level of each stage *)

Lemma insert_level_lookup k l (acc : list nat) v :
  foldl (fun acc i => <[i := k]> acc) acc l !! v
  = if decide (v ∈ l /\ v < length acc) then Some k else acc !! v.
Proof.
  revert acc; induction l as [|i l IH]; intros acc; simpl.
  { done. }
  rewrite IH, length_insert. destruct (decide (v ∈ l /\ v < length acc)) as [Hl|Hl].
  - rewrite (decide_True (P := v ∈ i :: l /\ _)); [done|]. set_solver.
  - destruct (decide (v = i)) as [->|Hne].
    + destruct (decide (i < length acc)).
      * rewrite list_lookup_insert_eq by done. rewrite decide_True; [done|]. set_solver.
      * rewrite decide_False by naive_solver. by rewrite list_insert_ge by lia.
    + rewrite list_lookup_insert_ne by done. rewrite decide_False; [done|].
      intros [[?|?]%elem_of_cons ?]; naive_solver.
Qed.

Lemma length_insert_level k l (acc : list nat) :
  length (foldl (fun acc i => <[i := k]> acc) acc l) = length acc.
Proof. revert acc; induction l; intros acc; simpl; [done|]. by rewrite IHl, length_insert. Qed.

Lemma stage_levels_of_snoc n levels level :
  stage_levels_of n (levels ++ [level])
  = foldl (fun acc i => <[i := length levels]> acc) (stage_levels_of n levels) (stage_indices level).
Proof.
  unfold stage_levels_of. rewrite imap_app, foldl_app. simpl. by rewrite Nat.add_0_r.
Qed.

Lemma length_stage_levels_of n levels : length (stage_levels_of n levels) = n.
Proof.
  induction levels as [|level levels IH] using rev_ind; [apply length_replicate|].
  by rewrite stage_levels_of_snoc, length_insert_level.
Qed.

Lemma stage_levels_of_lookup n levels (depth : nat -> nat) v :
  (forall k level, levels !! k = Some level -> v ∈ stage_indices level -> depth v = k) ->
  (exists k level, levels !! k = Some level /\ v ∈ stage_indices level) -> v < n ->
  stage_levels_of n levels !! v = Some (depth v).
Proof.
  intros Hdepth Hin Hv. induction levels as [|level levels IH] using rev_ind.
  { by destruct Hin as (? & ? & ? & _). }
  rewrite stage_levels_of_snoc, insert_level_lookup, length_stage_levels_of.
  case_decide as Hd.
  - f_equal. symmetry. apply (Hdepth _ level); [apply list_lookup_middle; done|tauto].
  - apply IH.
    + intros k l Hl. apply Hdepth. by apply lookup_app_l_Some.
    + destruct Hin as (k & l & [Hl|[-> ->]]%lookup_snoc_Some & Hvl); [naive_solver|tauto].
Qed.

Lemma layered_level preds depth levels :
  layered preds depth levels ->
  forall k level, levels !! k = Some level <->
    k < length levels
    /\ level = mkWorkflowLevel (filter (fun v => depth v = k) (seq 0 (length preds))).
Proof.
  intros Hl k level. destruct (decide (k < length levels)) as [Hk|Hk].
  - assert (levels !! k = Some (mkWorkflowLevel (filter (fun v => depth v = k) (seq 0 (length preds)))))
      as ->; [|naive_solver].
    rewrite (ly_levels _ _ _ Hl) at 1. by rewrite list_lookup_fmap, lookup_seq_lt by done.
  - rewrite (proj2 (lookup_ge_None levels k)) by lia. naive_solver.
Qed.

Lemma layered_stage_levels preds depth levels v :
  layered preds depth levels -> v < length preds ->
  stage_levels_of (length preds) levels !! v = Some (depth v).
Proof.
  intros Hl Hv. apply stage_levels_of_lookup; [| |done].
  - intros k level [_ ->]%(layered_level _ _ _ Hl). simpl. by intros [? _]%list_elem_of_filter.
  - exists (depth v). eexists. split.
    + apply (layered_level _ _ _ Hl). split; [by apply (ly_bound _ _ _ Hl)|done].
    + simpl. apply list_elem_of_filter. split; [done|]. apply elem_of_seq. lia.
Qed.

(** ** Model routes *)

Definition routes_of (a : WorkflowModelAssignment) : list (string * option string) :=
  (ma_id a, ma_reasoning a) :: ((fun c => (mc_id c, mc_reasoning c)) <$> ma_fallback a).

Definition trim_route (r : string * option string) : string * option string :=
  (trim r.1, trim <$> r.2).

Definition model_id_ok (id : string) : Prop :=
  id <> "" /\ chars_count id <= MAX_WORKFLOW_MODEL_ID_CHARS /\ contains "#" id = false.
Definition reasoning_ok (label : string) : Prop :=
  label <> "" /\ chars_count label <= MAX_WORKFLOW_REASONING_CHARS.
Definition route_ok (r : string * option string) : Prop :=
  model_id_ok r.1 /\ forall label, r.2 = Some label -> reasoning_ok label.

Lemma is_empty_true s : is_empty s = true <-> s = "".
Proof. by destruct s. Qed.
Lemma is_empty_false s : is_empty s = false <-> s <> "".
Proof. by destruct s. Qed.

Section routes.
Context (source stage role : string) (location : SourcePoint).

Lemma normalize_model_id_spec entry value id :
  normalize_model_id source stage role entry value location = inl id
  <-> id = trim value /\ model_id_ok id.
Proof.
  unfold normalize_model_id, model_id_ok. destruct (is_empty (trim value)) eqn:E.
  { apply is_empty_true in E. split; [done|]. intros (-> & ? & _). done. }
  apply is_empty_false in E. case_decide; [split; [done|intros (-> & ? & ? & _); lia]|].
  destruct (contains _ _) eqn:Ec; split;
    [done|intros (-> & _ & _ & ?); congruence|intros [= <-]|by intros [-> _]].
  repeat split; [done|lia|done].
Qed.

Lemma normalize_reasoning_spec entry value label :
  normalize_reasoning source stage role entry value location = inl label
  <-> label = trim <$> value /\ forall l, label = Some l -> reasoning_ok l.
Proof.
  unfold normalize_reasoning, reasoning_ok. destruct value as [value|]; simpl; [|naive_solver].
  destruct (is_empty (trim value)) eqn:E.
  { apply is_empty_true in E. split; [done|]. intros [-> H]. by destruct (H _ eq_refl). }
  apply is_empty_false in E. case_decide as Hc; split; [done|intros [-> H]; destruct (H _ eq_refl); lia|..].
  - intros [= <-]. split; [done|]. intros l [= <-]. split; [done|lia].
  - by intros [-> _].
Qed.

Lemma normalize_candidates_spec (l : list (nat * WorkflowModelCandidate)) seen kept kept' :
  (exists seen', try_fold (normalize_candidate source stage role location) (seen, kept) l
                 = inl (seen', kept'))
  <-> let routes := (fun c => trim_route (mc_id c, mc_reasoning c)) <$> l.*2 in
      kept' = kept ++ ((fun r => mkCandidate r.1 r.2) <$> routes)
      /\ Forall route_ok routes /\ NoDup routes /\ forall r, r ∈ routes -> r ∉ seen.
Proof.
  revert seen kept; induction l as [|[i c] l IH]; intros seen kept; cbn [try_fold fmap list_fmap].
  { cbn zeta. rewrite app_nil_r. split.
    - intros [? [= _ <-]]. repeat split; [constructor|constructor|set_solver].
    - intros [-> _]. eauto. }
  cbn zeta. set (r := trim_route _). unfold normalize_candidate at 1.
  destruct (normalize_model_id _ _ _ _ _ _) as [id|] eqn:E1.
  2: { split; [by intros []|]. intros (_ & [[Hid _] _]%Forall_cons & _).
    rewrite (proj2 (normalize_model_id_spec _ _ (trim (mc_id c)))) in E1; [done|by split]. }
  destruct (normalize_reasoning _ _ _ _ _ _) as [label|] eqn:E2.
  2: { split; [by intros []|]. intros (_ & [[_ Hl] _]%Forall_cons & _).
    rewrite (proj2 (normalize_reasoning_spec _ _ (trim <$> mc_reasoning c))) in E2; [done|by split]. }
  apply normalize_model_id_spec in E1 as [-> H1]. apply normalize_reasoning_spec in E2 as [-> H2].
  change (trim (mc_id c), trim <$> mc_reasoning c) with r.
  change (mkCandidate (trim (mc_id c)) (trim <$> mc_reasoning c)) with (mkCandidate r.1 r.2).
  assert (route_ok r) as Hr by (by split).
  case_decide as Hs.
  { split; [by intros []|]. intros (_ & _ & _ & Hn). by destruct (Hn r); [left|]. }
  rewrite IH. cbn zeta. rewrite Forall_cons, NoDup_cons, <- (assoc_L (++)). simpl. split.
  - intros (-> & Hall & Hnd & Hn). repeat (split; [done|]). split; [split; [|done]|].
    + intros Hin. apply (Hn r Hin). by apply elem_of_union_l, elem_of_singleton.
    + intros r' [->|Hr']%elem_of_cons; [done|]. intros Hs'. apply (Hn r' Hr').
      by apply elem_of_union_r.
  - intros (-> & [_ Hall] & [Hnin Hnd] & Hn). repeat (split; [done|]).
    intros r' Hr'. apply not_elem_of_union. split; [|apply Hn; by right].
    intros Heq%elem_of_singleton. apply Hnin. by rewrite <- Heq.
Qed.

(** Whether a route is accepted, and what comes out, depends on the authored route alone. *)
Lemma normalize_model_assignment_spec a a' :
  normalize_model_assignment source stage role a location = inl a'
  <-> routes_of a' = trim_route <$> routes_of a
      /\ Forall route_ok (routes_of a') /\ NoDup (routes_of a').
Proof.
  unfold normalize_model_assignment.
  set (routes := (fun c => trim_route (mc_id c, mc_reasoning c)) <$> ma_fallback a).
  assert (forall b, routes_of b = trim_route <$> routes_of a <->
    b = mkAssignment (trim (ma_id a)) (trim <$> ma_reasoning a)
          ((fun r => mkCandidate r.1 r.2) <$> routes)) as Heq.
  { intros [bid bre bfb]. unfold routes_of. rewrite fmap_cons. subst routes. simpl.
    generalize (ma_fallback a) as l. split.
    - intros [= -> -> Hfb]. f_equal. revert bfb Hfb. induction l as [|c l IH]; intros [|[i r] bfb];
        try done. intros [= -> -> Hfb]. simpl. f_equal. auto.
    - intros [= -> -> ->]. unfold trim_route at 1. simpl. f_equal. induction l; [done|]. simpl.
      by f_equal. }
  destruct (normalize_model_id _ _ _ _ _ _) as [id|] eqn:E1.
  2: { split; [done|]. rewrite Heq. intros (-> & [[Hid _] _]%Forall_cons & _).
    rewrite (proj2 (normalize_model_id_spec _ _ (trim (ma_id a)))) in E1; [done|by split]. }
  destruct (normalize_reasoning _ _ _ _ _ _) as [label|] eqn:E2.
  2: { split; [done|]. rewrite Heq. intros (-> & [[_ Hl] _]%Forall_cons & _).
    rewrite (proj2 (normalize_reasoning_spec _ _ (trim <$> ma_reasoning a))) in E2; [done|by split]. }
  apply normalize_model_id_spec in E1 as [-> H1]. apply normalize_reasoning_spec in E2 as [-> H2].
  pose proof (normalize_candidates_spec (imap pair (ma_fallback a))
    {[ (trim (ma_id a), trim <$> ma_reasoning a) ]} []) as Hspec.
  rewrite imap_pair_snd in Hspec. cbn zeta in Hspec. fold routes in Hspec.
  rewrite Heq. clear Heq. set (pref := (trim (ma_id a), trim <$> ma_reasoning a)) in *.
  set (X := mkAssignment _ _ _).
  assert (routes_of X = pref :: routes) as HX.
  { unfold routes_of. simpl. f_equal. clear. induction routes as [|[] l IH]; [done|].
    simpl. by f_equal. }
  assert (route_ok pref) as Hpref by done.
  destruct (try_fold _ _ _) as [[seen' kept']|] eqn:Ef.
  - destruct (proj1 (Hspec kept')) as (-> & Hall & Hnd & Hn); [eauto|]. split; [|by intros [-> _]].
    intros [= Ha]. change (X = a') in Ha. rewrite <- Ha, HX. split; [done|]. split; [by constructor|].
    apply NoDup_cons. split; [|done]. intros Hin. apply (Hn _ Hin). by apply elem_of_singleton.
  - split; [done|]. intros (-> & Hall & Hnd). rewrite HX in Hall, Hnd.
    apply Forall_cons in Hall as [_ Hall]. apply NoDup_cons in Hnd as [Hnin Hnd].
    destruct (proj2 (Hspec ([] ++ ((fun r => mkCandidate r.1 r.2) <$> routes)))) as [? ?]; [|done].
    repeat (split; [done|]). intros r Hr Heq%elem_of_singleton. apply Hnin. by rewrite <- Heq.
Qed.
End routes.
