(* ===== verification/AuthorSpec.v ===== *)
(** * What an accepted author record is ([validate_author], [hya-workflow/src/compiler.rs])

    Templates; then: the checks on the frontmatter decide one declarative predicate, [author_ok]. *)

From S2P Require Import Prelude Result RustStr Text WfModel Compiler Render NormalizeSpec.

(** * Directive templates ([validate_input_template], [interpolate_inputs])

    A declarative reading of templates, which the compiler's check accepts exactly and the
    renderer's substitution follows. *)

(** ** The first occurrence of a pattern *)

Lemma app_prefix (a1 b1 a2 b2 : string) :
  a1 +:+ b1 = a2 +:+ b2 -> String.length a1 <= String.length a2 -> exists d, a2 = a1 +:+ d.
Proof.
  revert a2; induction a1 as [|c a1 IH]; intros a2 Heq Hl; [by exists a2|].
  destruct a2 as [|c2 a2]; simpl in *; [lia|]. injection Heq as <- Heq.
  destruct (IH a2) as [d ->]; [done|lia|by exists d].
Qed.

(** [q] is the pattern without its last byte. *)
Lemma split_str_iff q c s l r :
  split_str (q +:+ String c EmptyString) s = Some (l, r)
  <-> s = l +:+ ((q +:+ String c EmptyString) +:+ r)
      /\ contains_str (q +:+ String c EmptyString) (l +:+ q) = false.
Proof.
  set (p := q +:+ String c EmptyString).
  assert (String.length p = S (String.length q)) as Hp by (subst p; rewrite length_app_str; simpl; lia).
  split.
  - intros Hs. split; [by apply split_str_Some|]. apply not_true_iff_false. rewrite contains_str_spec.
    intros (l' & r' & Heq). pose proof (split_str_Some _ _ _ _ Hs) as Hs'.
    assert (String.length l <= String.length l') as Hle.
    { apply (split_str_first _ _ _ _ l' (r' +:+ (String c EmptyString +:+ r)) Hs). rewrite Hs'. subst p.
      rewrite <- (app_assoc_str q), (app_assoc_str l q), Heq. by rewrite !app_assoc_str. }
    apply (f_equal String.length) in Heq. rewrite !length_app_str in Heq. lia.
  - intros [Hs Hno]. destruct (split_str p s) as [[l2 r2]|] eqn:E.
    2: { by destruct (proj1 (split_str_None p s) E l r). }
    pose proof (split_str_first _ _ _ _ _ _ E Hs) as Hle. apply split_str_Some in E.
    destruct (decide (String.length l2 = String.length l)) as [Hl|Hl].
    + rewrite Hs in E. apply string_app_inj_length in E as [-> E]; [|done].
      apply string_app_inj_length in E as [_ ->]; done.
    + destruct (app_prefix (l2 +:+ p) r2 (l +:+ q) (String c EmptyString +:+ r)) as [d Hd].
      * rewrite <- !app_assoc_str, <- E, Hs. subst p. by rewrite !app_assoc_str.
      * rewrite !length_app_str. lia.
      * apply not_true_iff_false in Hno. destruct Hno. apply contains_str_spec.
        exists l2, d. by rewrite Hd, app_assoc_str.
Qed.

(** ** Templates *)

Inductive segment := Literal (text : string) | Input (key : string).

(** [reads declared template segments]: the template is literal text and placeholders
    [{{ input.key }}] of declared keys.  A literal ends where the first double brace opens, and a
    placeholder at the first double brace that closes. *)
Inductive reads (declared : gmap string string) : string -> list segment -> Prop :=
  | reads_end text :
      contains_str "{{" text = false -> contains_str "}}" text = false ->
      reads declared text [Literal text]
  | reads_input text inner key rest segments :
      contains_str "{{" (text +:+ "{") = false -> contains_str "}}" (inner +:+ "}") = false ->
      trim inner = "input." +:+ key -> valid_identifier key = true -> is_Some (declared !! key) ->
      reads declared rest segments ->
      reads declared (text +:+ ("{{" +:+ (inner +:+ ("}}" +:+ rest))))
        (Literal text :: Input key :: segments).

(** What a template stands for. *)
Fixpoint fill (inputs : gmap string string) (segments : list segment) : string :=
  match segments with
  | [] => EmptyString
  | Literal text :: segments => text +:+ fill inputs segments
  | Input key :: segments => default EmptyString (inputs !! key) +:+ fill inputs segments
  end.

Lemma contains_split_None p s : contains_str p s = false <-> split_str p s = None.
Proof. unfold contains_str. by destruct (split_str p s). Qed.

(** Where the first placeholder of a readable template opens and closes. *)
Lemma reads_open declared rest segments text after :
  reads declared rest segments -> split_str "{{" rest = Some (text, after) ->
  exists inner key after_token segments',
    split_str "}}" after = Some (inner, after_token)
    /\ segments = Literal text :: Input key :: segments'
    /\ trim inner = "input." +:+ key /\ valid_identifier key = true
    /\ is_Some (declared !! key) /\ reads declared after_token segments'.
Proof.
  intros Hr Eo. destruct Hr as [t Ht _|t i key r segs Ht Hi Hkey Hv Hd Hr].
  - apply contains_split_None in Ht. by rewrite Ht in Eo.
  - rewrite (proj2 (split_str_iff "{" "{" _ t (i +:+ ("}}" +:+ r)))) in Eo by done.
    injection Eo as <- <-. exists i, key, r, segs. split; [|done].
    by apply (split_str_iff "}" "}").
Qed.

Lemma reads_step declared rest text after inner after_token key segments :
  split_str "{{" rest = Some (text, after) -> split_str "}}" after = Some (inner, after_token) ->
  trim inner = "input." +:+ key -> valid_identifier key = true -> is_Some (declared !! key) ->
  reads declared after_token segments ->
  reads declared rest (Literal text :: Input key :: segments).
Proof.
  intros [-> Hno]%(split_str_iff "{" "{") [-> Hno']%(split_str_iff "}" "}"). by apply reads_input.
Qed.

Lemma reads_closed declared rest segments :
  split_str "{{" rest = None ->
  reads declared rest segments <-> contains_str "}}" rest = false /\ segments = [Literal rest].
Proof.
  intros Eo. split.
  - intros Hr. destruct Hr as [t Ht Hc|t i key r segs Ht Hi Hkey Hv Hd Hr]; [done|].
    by rewrite (proj2 (split_str_iff "{" "{" _ t (i +:+ ("}}" +:+ r)))) in Eo.
  - intros [Hc ->]. apply reads_end; [by apply contains_split_None|done].
Qed.

Section template.
Context (source stage : string) (declared : gmap string string) (location : SourcePoint).

Lemma template_loop_ok fuel rest :
  String.length rest < fuel ->
  template_loop fuel source stage declared location rest = inl tt
  <-> exists segments, reads declared rest segments.
Proof.
  revert rest; induction fuel as [|fuel IH]; intros rest Hlt; [lia|]. cbn [template_loop].
  destruct (split_str "{{" rest) as [[text after]|] eqn:Eo.
  2: { setoid_rewrite (reads_closed declared rest _ Eo). destruct (contains_str "}}" rest); naive_solver. }
  destruct (split_str "}}" after) as [[inner after_token]|] eqn:Ec.
  2: { split; [done|]. intros [segs Hr]. by destruct (reads_open _ _ _ _ _ Hr Eo) as (? & ? & ? & ? & ? & _); simplify_eq. }
  assert (String.length after_token < fuel) as Hlt'.
  { apply split_str_length in Eo, Ec. simpl in Eo, Ec. lia. }
  destruct (strip_prefix "input." (trim inner)) as [input|] eqn:Ep.
  2: { split; [done|]. intros [segs Hr].
    destruct (reads_open _ _ _ _ _ Hr Eo) as (? & key & ? & ? & ? & _ & Hkey & _). simplify_eq.
    by rewrite Hkey, strip_prefix_app in Ep. }
  pose proof Ep as Hin%strip_prefix_Some.
  assert ((exists segments, reads declared rest segments) <->
    valid_identifier input = true /\ is_Some (declared !! input)
    /\ exists segments, reads declared after_token segments) as ->.
  { split.
    - intros [segs Hr].
      destruct (reads_open _ _ _ _ _ Hr Eo) as (? & key & ? & segs' & ? & _ & Hkey & Hv & Hd & Hr').
      simplify_eq. rewrite Hkey, strip_prefix_app in Ep. injection Ep as <-. eauto.
    - intros (Hv & Hd & segs & Hr). eexists. by eapply reads_step. }
  destruct (valid_identifier input); cbn [negb orb]; [|naive_solver].
  case_bool_decide as Hnone; [rewrite Hnone; split; [done|by intros (_ & [] & _)]|].
  rewrite IH by done. apply not_eq_None_Some in Hnone. naive_solver.
Qed.

(** The compiler accepts exactly the templates that read. *)
Lemma validate_input_template_ok template :
  validate_input_template source stage template declared location = inl tt
  <-> exists segments, reads declared template segments.
Proof. apply template_loop_ok. lia. Qed.
End template.

(** A template that reads is filled as it reads, whatever the values contain. *)
Lemma interpolate_loop_reads declared inputs fuel rendered rest segments :
  String.length rest < fuel -> reads declared rest segments ->
  interpolate_loop fuel inputs rendered rest = rendered +:+ fill inputs segments.
Proof.
  revert rendered rest segments; induction fuel as [|fuel IH]; intros rendered rest segments Hlt Hr; [lia|].
  cbn [interpolate_loop]. destruct (split_str "{{" rest) as [[text after]|] eqn:Eo.
  - destruct (reads_open _ _ _ _ _ Hr Eo) as (inner & key & after_token & segs' & Ec & -> & Hkey & _ & _ & Hr').
    rewrite Ec, Hkey, strip_prefix_app. cbn [mbind option_bind fill].
    rewrite (IH _ _ segs'); [by rewrite !app_assoc_str| |done].
    apply split_str_length in Eo, Ec. simpl in Eo, Ec. lia.
  - apply reads_closed in Hr as [_ ->]; [|done]. simpl. by rewrite app_nil_r_str.
Qed.

Lemma interpolate_reads declared inputs template segments :
  reads declared template segments -> interpolate_inputs template inputs = fill inputs segments.
Proof. intros Hr. unfold interpolate_inputs. by rewrite (interpolate_loop_reads declared _ _ _ _ segments); [|lia|]. Qed.

(** A terminator in front of a placeholder is let through; behind the last one it is refused. *)
Lemma stray_terminator_accepted source stage location :
  validate_input_template source stage "}} {{input.a}}" {[ "a" := "" ]} location = inl tt
  /\ validate_input_template source stage "{{input.a}} }}" {[ "a" := "" ]} location
     = inr (error_at validation_error source location
              ("node `" +:+ stage +:+ "` has an unmatched placeholder terminator")).
Proof. split; vm_compute; reflexivity. Qed.

(** * What an accepted author record is ([validate_author], [hya-workflow/src/compiler.rs]) *)

Definition assignment_ok (a : WorkflowModelAssignment) : Prop :=
  Forall route_ok (trim_route <$> routes_of a) /\ NoDup (trim_route <$> routes_of a).

Definition verify_ok (inputs : gmap string string) (verify : VerifySpec) : Prop :=
  trim (vs_agent verify) <> "" /\ trim (vs_until verify) <> "" /\ vs_max_iterations verify <> 0%N
  /\ exists segments, reads inputs (vs_until verify) segments.

(** A verifier exactly on loops. *)
Definition mode_ok (inputs : gmap string string) (mode : StageMode) (verify : option VerifySpec) : Prop :=
  match mode, verify with
  | Once, None => True
  | Loop, Some verify => verify_ok inputs verify
  | _, _ => False
  end.

Record node_ok (inputs : gmap string string) (id : string) (node : AuthorNode) : Prop := {
  no_id : valid_identifier id = true;
  no_agent : trim (an_agent node) <> "";
  no_directive : trim (an_directive node) <> "";
  no_template : exists segments, reads inputs (an_directive node) segments;
  no_model a : an_model node = Some a -> assignment_ok a;
  no_verifier_model a : an_verify node ≫= vs_model = Some a -> assignment_ok a;
  no_mode : mode_ok inputs (an_mode node) (an_verify node);
  no_actor_once : an_actor node = None \/ an_mode node = Once;
  no_actor actor : an_actor node = Some actor -> valid_identifier actor = true;
}.

Record author_ok (author : AuthorWorkflow) : Prop := {
  ao_kind : aw_kind author = "Workflow";
  ao_name : valid_identifier (aw_name author) = true;
  ao_description : trim (aw_description author) <> "";
  ao_nonempty : aw_nodes author <> ∅;
  ao_inputs key : is_Some (aw_inputs author !! key) -> valid_identifier key = true;
  ao_nodes id node : aw_nodes author !! id = Some node -> node_ok (aw_inputs author) id node;
  (** One actor key names one Agent in the whole Workflow. *)
  ao_actors id1 id2 node1 node2 actor :
    aw_nodes author !! id1 = Some node1 -> aw_nodes author !! id2 = Some node2 ->
    an_actor node1 = Some actor -> an_actor node2 = Some actor -> an_agent node1 = an_agent node2;
}.

Lemma ensure_ok {E} (b : bool) (e : E) : ensure b e = inl tt <-> b = true.
Proof. by destruct b. Qed.

(** Sequencing of checks. *)
Lemma let_ok {A B E} (r : A + E) (k : A -> B + E) y :
  (let? x := r in k x) = inl y <-> exists x, r = inl x /\ k x = inl y.
Proof. destruct r; naive_solver. Qed.

Lemma let_unit_ok {B E} (r : unit + E) (k : B + E) y :
  (let? _ := r in k) = inl y <-> r = inl tt /\ k = inl y.
Proof. destruct r as [[]|]; naive_solver. Qed.

Lemma let_ignore_ok {A B E} (r : A + E) (k : B + E) y :
  (let? _ := r in k) = inl y <-> (exists x, r = inl x) /\ k = inl y.
Proof. destruct r; naive_solver. Qed.

Section checks.
Context (source : string).

Lemma validate_model_assignment_ok stage role a location :
  validate_model_assignment source stage role a location = inl tt <-> assignment_ok a.
Proof.
  unfold validate_model_assignment. rewrite let_ok.
  setoid_rewrite normalize_model_assignment_spec. split.
  - intros (a' & (Hr & Hok & Hnd) & _). unfold assignment_ok. by rewrite <- Hr.
  - intros [Hok Hnd].
    exists (mkAssignment (trim (ma_id a)) (trim <$> ma_reasoning a)
      ((fun c => mkCandidate (trim (mc_id c)) (trim <$> mc_reasoning c)) <$> ma_fallback a)).
    assert (routes_of (mkAssignment (trim (ma_id a)) (trim <$> ma_reasoning a)
      ((fun c => mkCandidate (trim (mc_id c)) (trim <$> mc_reasoning c)) <$> ma_fallback a))
      = trim_route <$> routes_of a) as ->; [|done].
    unfold routes_of, trim_route. simpl. f_equal. induction (ma_fallback a); [done|]. simpl. by f_equal.
Qed.

Lemma try_option_check stage role location (model : option WorkflowModelAssignment) :
  (exists x, try_option (fun m => validate_model_assignment source stage role m location) model = inl x)
  <-> forall a, model = Some a -> assignment_ok a.
Proof.
  destruct model as [a|]; simpl; [|split; [done|eauto]].
  pose proof (validate_model_assignment_ok stage role a location) as H.
  destruct (validate_model_assignment _ _ _ _ _) as [[]|].
  - split; [|eauto]. intros _ b [= <-]. by apply H.
  - split; [by intros []|]. intros Hok. by pose proof (proj2 H (Hok a eq_refl)).
Qed.

Lemma validate_mode_ok id node inputs location :
  validate_mode source id node inputs location = inl tt <-> mode_ok inputs (an_mode node) (an_verify node).
Proof.
  unfold validate_mode, mode_ok, verify_ok.
  destruct (an_mode node), (an_verify node) as [v|]; try done.
  destruct (is_empty (trim (vs_agent v))) eqn:Ea; simpl.
  { apply is_empty_true in Ea. naive_solver. }
  destruct (is_empty (trim (vs_until v))) eqn:Eu.
  { apply is_empty_true in Eu. naive_solver. }
  apply is_empty_false in Ea, Eu. case_decide; [naive_solver|].
  rewrite validate_input_template_ok. naive_solver.
Qed.

(** What one node adds to the actors declared so far. *)
Definition with_actor (node : AuthorNode) (actors : gmap string string) : gmap string string :=
  match an_actor node with Some actor => <[actor := an_agent node]> actors | None => actors end.

Lemma validate_actor_ok id node location actors actors' :
  validate_actor source id node location actors = inl actors'
  <-> (forall actor, an_actor node = Some actor -> valid_identifier actor = true)
      /\ (forall actor agent, an_actor node = Some actor -> actors !! actor = Some agent ->
          agent = an_agent node)
      /\ actors' = with_actor node actors.
Proof.
  unfold validate_actor, with_actor. destruct (an_actor node) as [actor|]; [|naive_solver].
  destruct (valid_identifier actor) eqn:Ev; simpl.
  2: { split; [done|]. intros (H & _). by rewrite H in Ev. }
  destruct (actors !! actor) as [agent|] eqn:Em.
  - case_decide as Ha; [split; [done|]|].
    + intros (_ & H & _). destruct Ha. by apply (H actor).
    + subst agent. split; [intros [= <-]|intros (_ & _ & ->); done].
      split; [naive_solver|]. split; [|done]. intros a g [= <-]. congruence.
  - split; [intros [= <-]|intros (_ & _ & ->); done].
    split; [naive_solver|]. split; [|done]. intros a g [= <-]. congruence.
Qed.

Lemma validate_node_ok inputs locations actors id node actors' :
  validate_node source inputs locations actors (id, node) = inl actors'
  <-> node_ok inputs id node
      /\ (forall actor agent, an_actor node = Some actor -> actors !! actor = Some agent ->
          agent = an_agent node)
      /\ actors' = with_actor node actors.
Proof.
  unfold validate_node. rewrite !let_unit_ok, !ensure_ok, validate_input_template_ok.
  rewrite 2!let_ignore_ok, !try_option_check, !let_unit_ok, !ensure_ok, validate_mode_ok,
    validate_actor_ok.
  rewrite !negb_true_iff, !is_empty_false, orb_true_iff, negb_true_iff, bool_decide_eq_true,
    bool_decide_eq_false.
  assert (an_mode node <> Loop <-> an_mode node = Once) as -> by (destruct (an_mode node); naive_solver).
  split.
  - intros (? & ? & ? & ? & ? & ? & ? & ? & ? & ? & ?). by split.
  - intros ([] & Hag & ->). by repeat (split; [done|]).
Qed.

(** The whole list of nodes. *)
Lemma validate_nodes_ok inputs locations (l : list (string * AuthorNode)) actors :
  (exists actors', try_fold (validate_node source inputs locations) actors l = inl actors')
  <-> (forall e, e ∈ l -> node_ok inputs e.1 e.2)
      /\ (forall e actor agent, e ∈ l -> an_actor e.2 = Some actor -> actors !! actor = Some agent ->
          agent = an_agent e.2)
      /\ (forall e1 e2 actor, e1 ∈ l -> e2 ∈ l -> an_actor e1.2 = Some actor -> an_actor e2.2 = Some actor ->
          an_agent e1.2 = an_agent e2.2).
Proof.
  revert actors; induction l as [|[id node] l IH]; intros actors; cbn [try_fold].
  { split; [intros _|eauto]. split; [|split]; by intros ? *; rewrite ?elem_of_nil. }
  transitivity (exists actors1, validate_node source inputs locations actors (id, node) = inl actors1
    /\ exists actors', try_fold (validate_node source inputs locations) actors1 l = inl actors').
  { split; [intros [a (s & H1 & H2)%let_ok]; eauto|]. intros (s & H1 & a & H2). exists a. apply let_ok. eauto. }
  setoid_rewrite validate_node_ok. setoid_rewrite IH. split.
  - intros (? & (Hn & Hag & ->) & Hall & Hpre & Hpair).
    assert (forall e actor, e ∈ l -> an_actor node = Some actor -> an_actor e.2 = Some actor ->
      an_agent node = an_agent e.2) as Hnew.
    { intros e actor He Hx Hy. apply (Hpre e actor); [done..|]. unfold with_actor. rewrite Hx.
      apply lookup_insert_eq. }
    split; [|split].
    + intros e [->|He]%elem_of_cons; [done|auto].
    + intros e actor agent [->|He]%elem_of_cons Hx Hy; [by eapply Hag|].
      destruct (an_actor node) as [a|] eqn:Ea.
      * destruct (decide (a = actor)) as [->|Hne].
        -- rewrite (Hag actor agent) by done. by apply (Hnew e actor).
        -- apply (Hpre e actor); [done..|]. unfold with_actor. rewrite Ea.
           by rewrite lookup_insert_ne.
      * apply (Hpre e actor); [done..|]. unfold with_actor. by rewrite Ea.
    + intros e1 e2 actor [->|H1]%elem_of_cons [->|H2]%elem_of_cons Hx Hy; [done|by eapply Hnew| |eauto].
      symmetry. by eapply Hnew.
  - intros (Hall & Hpre & Hpair). exists (with_actor node actors). split; [split|split; [|split]].
    + apply (Hall (id, node)). left.
    + split; [|done]. intros actor agent. apply (Hpre (id, node)). left.
    + intros e He. apply Hall. by right.
    + intros e actor agent He Hx. unfold with_actor. destruct (an_actor node) as [a|] eqn:Ea.
      * intros [[-> <-]|[_ Hy]]%lookup_insert_Some; [|apply (Hpre e actor); [by right|done..]].
        apply (Hpair (id, node) e actor); [left|by right|done..].
      * intros Hy. apply (Hpre e actor); [by right|done..].
    + intros e1 e2 actor He1 He2. apply Hpair; by right.
Qed.

Lemma validate_author_ok author locations :
  validate_author source author locations = inl tt <-> author_ok author.
Proof.
  unfold validate_author. rewrite !let_unit_ok, !ensure_ok, let_ok, try_each_ok, Forall_forall.
  setoid_rewrite ensure_ok. setoid_rewrite btree_keys_elem.
  rewrite !negb_true_iff, is_empty_false, bool_decide_eq_true, bool_decide_eq_false.
  transitivity (aw_kind author = "Workflow" /\ valid_identifier (aw_name author) = true
    /\ trim (aw_description author) <> "" /\ aw_nodes author <> ∅
    /\ (forall key, is_Some (aw_inputs author !! key) -> valid_identifier key = true)
    /\ exists actors', try_fold (validate_node source (aw_inputs author) locations) ∅
                         (btree_list (aw_nodes author)) = inl actors').
  { naive_solver. }
  rewrite validate_nodes_ok. split.
  - intros (? & ? & ? & ? & ? & Hn & _ & Hp). split; try done.
    + intros id node Hid. apply (Hn (id, node)). by apply btree_list_elem.
    + intros id1 id2 n1 n2 actor Hi1 Hi2. apply (Hp (id1, n1) (id2, n2)); by apply btree_list_elem.
  - intros []. repeat (split; [done|]). split; [|split].
    + intros [id node] Hin%btree_list_elem. auto.
    + intros e actor agent _ _. by rewrite lookup_empty.
    + intros [id1 n1] [id2 n2] actor H1%btree_list_elem H2%btree_list_elem. eauto.
Qed.
End checks.
