(* ===== verification/CompileSpec.v ===== *)
(** * What the Workflow compiler produces ([compile_source], [hya-workflow/src/compiler.rs])

    A document compiles exactly when its two sections declare the same nodes, the graph has a depth
    function and no level holds an actor twice; the plan then is the author's nodes in the order of
    the text, with the graph's edges as predecessors and the longest-path depths as levels. *)

From stdpp Require Import sorting.
From stdpp Require Import sorting pretty.
From S2P Require Import Prelude Result RustStr Text WfModel Compiler Levels GraphSpec Render NormalizeSpec AuthorSpec.

(** ** The single checks *)

Lemma check_nodes_ok source author locations graph :
  check_nodes source author locations graph = inl tt
  <-> forall id, id ∈ pg_order graph <-> is_Some (aw_nodes author !! id).
Proof.
  unfold check_nodes. rewrite let_unit_ok, try_each_ok, Forall_forall. split.
  - intros [H1 H2] id. split.
    + intros Hid. apply H1 in Hid. by destruct (aw_nodes author !! id).
    + intros Hid. destruct (find_first _ _) eqn:E; [done|]. apply find_first_None in E.
      rewrite Forall_forall in E. apply dec_stable, E. by apply btree_keys_elem.
  - intros H. split.
    + intros id Hid. apply H in Hid as [node ->]. done.
    + destruct (find_first _ _) as [id|] eqn:E; [|done].
      apply find_first_Some in E as [Hin%btree_keys_elem Hno]. by apply H in Hin.
Qed.

Definition actor_at (author : AuthorWorkflow) (order : list string) (i : nat) : option string :=
  id ← order !! i; aw_nodes author !! id ≫= an_actor.

Lemma check_actors_ok source author locations order l actors :
  (exists actors', try_fold (check_actor source author locations order) actors l = inl actors')
  <-> NoDup (omap (actor_at author order) l)
      /\ forall a, a ∈ omap (actor_at author order) l -> a ∉ actors.
Proof.
  revert actors; induction l as [|i l IH]; intros actors; cbn [try_fold].
  { simpl. split; [intros _; split; [constructor|set_solver]|eauto]. }
  assert (exists e, check_actor source author locations order actors i
    = match actor_at author order i with
      | Some a => if decide (a ∈ actors) then inr e else inl ({[ a ]} ∪ actors)
      | None => inl actors
      end) as [e ->].
  { unfold check_actor, actor_at. set (any := validation_error "" 1 1 "").
    destruct (order !! i) as [id|]; simpl; [|by exists any].
    destruct (aw_nodes author !! id ≫= an_actor) as [a|]; [|by exists any].
    case_decide; [by eexists|by exists any]. }
  cbn [omap list_omap].
  destruct (actor_at author order i) as [a|]; [|apply IH].
  case_decide as Hin.
  - split; [by intros []|]. intros [_ H]. by destruct (H a (list_elem_of_here _ _)).
  - rewrite IH, NoDup_cons. split.
    + intros [Hnd Hno]. split; [split; [|done]|].
      * intros Hx. by apply (Hno a Hx), elem_of_union_l, elem_of_singleton.
      * intros b [->|Hb]%elem_of_cons; [done|]. intros Hx. by apply (Hno b Hb), elem_of_union_r.
    + intros [[Hx Hnd] Hno]. split; [done|]. intros b Hb. apply not_elem_of_union.
      split; [intros ->%elem_of_singleton; done|]. apply Hno. by right.
Qed.

Lemma check_level_ok source author locations order level :
  check_level_actors source author locations order level = inl tt
  <-> NoDup (omap (actor_at author order) (stage_indices level)).
Proof.
  unfold check_level_actors. rewrite let_ignore_ok, check_actors_ok. set_solver.
Qed.

(** ** Stages *)

Record normalized (a a' : option WorkflowModelAssignment) : Prop := {
  nm_some : is_Some a <-> is_Some a';
  nm_routes x x' : a = Some x -> a' = Some x' ->
    routes_of x' = trim_route <$> routes_of x /\ Forall route_ok (routes_of x') /\ NoDup (routes_of x');
}.

(** [stage] is the author's [node] with its model routes normalized. *)
Record stage_of (id : string) (node : AuthorNode) (stage : WorkflowStage) : Prop := {
  so_id : st_id stage = id;
  so_title : st_title stage = an_title node;
  so_agent : st_agent stage = an_agent node;
  so_directive : st_directive stage = an_directive node;
  so_mode : st_mode stage = an_mode node;
  so_actor : st_actor stage = an_actor node;
  so_model : normalized (an_model node) (st_model stage);
  so_verify : (fun v => (vs_agent v, vs_until v, vs_max_iterations v)) <$> st_verify stage
              = (fun v => (vs_agent v, vs_until v, vs_max_iterations v)) <$> an_verify node;
  so_verifier : normalized (an_verify node ≫= vs_model) (verifier_model stage);
}.

Lemma normalize_option_ok source id role location a a' :
  try_option (fun a => normalize_model_assignment source id role a location) a = inl a' ->
  normalized a a'.
Proof.
  destruct a as [a|]; simpl; [|intros [= <-]; split; [done|by intros]].
  intros (x & Hx%normalize_model_assignment_spec & [= <-])%let_ok. split; [by split; eauto|].
  by intros y y' [= <-] [= <-].
Qed.

Lemma normalize_option_exists source id role location a :
  (forall x, a = Some x -> assignment_ok x) ->
  exists a', try_option (fun a => normalize_model_assignment source id role a location) a = inl a'.
Proof.
  intros Hok. destruct a as [a|]; simpl; [|eauto].
  apply (validate_model_assignment_ok source id role a location) in Hok; [|done].
  unfold validate_model_assignment in Hok.
  destruct (normalize_model_assignment _ _ _ _ _) as [x|]; [eauto|done].
Qed.

Section build.
Context (source : string) (author : AuthorWorkflow) (locations : gmap string SourcePoint).
Context (levels : list nat) (predecessors : list (list nat)).

Lemma build_stage_ok index id stage :
  build_stage source author locations levels predecessors (index, id) = inl stage ->
  exists node, aw_nodes author !! id = Some node /\ stage_of id node stage
    /\ st_level stage = default 0 (levels !! index)
    /\ st_predecessor_indices stage = row predecessors index.
Proof.
  unfold build_stage. destruct (aw_nodes author !! id) as [node|]; [|done].
  intros (model & Hm%normalize_option_ok & (verify & Hv & [= <-])%let_ok)%let_ok.
  exists node. split; [done|]. split; [|done]. split; try done.
  - simpl. destruct (an_verify node) as [v|]; simpl in Hv; [|by injection Hv as <-].
    apply let_ok in Hv as (v' & (x & _ & [= <-])%let_ok & [= <-]). done.
  - unfold verifier_model. simpl. destruct (an_verify node) as [v|]; simpl in *.
    + apply let_ok in Hv as (v' & (x & Hx%normalize_option_ok & [= <-])%let_ok & [= <-]). done.
    + injection Hv as <-. simpl. by split.
Qed.

Lemma build_stage_exists index id node :
  aw_nodes author !! id = Some node -> node_ok (aw_inputs author) id node ->
  exists stage, build_stage source author locations levels predecessors (index, id) = inl stage.
Proof.
  intros Hn Hok. unfold build_stage. rewrite Hn.
  destruct (normalize_option_exists source id "worker"
    (default (mkSourcePoint 1 1) (locations !! id)) (an_model node)) as [m ->]; [apply Hok|].
  assert (exists v, try_option (normalize_verify source id (default (mkSourcePoint 1 1) (locations !! id)))
    (an_verify node) = inl v) as [v ->]; [|eauto].
  destruct (an_verify node) as [v|] eqn:Ev; simpl; [|eauto]. unfold normalize_verify.
  destruct (normalize_option_exists source id "verifier"
    (default (mkSourcePoint 1 1) (locations !! id)) (vs_model v)) as [a ->]; [|eauto].
  intros a Ha. apply (no_verifier_model _ _ _ Hok). by rewrite Ev.
Qed.
End build.

(** ** Depths by name *)

(** The nodes with an edge to [id], in the order of the edges. *)
Definition sources (edges : list (string * string)) (id : string) : list string :=
  (filter (fun e => e.2 = id) edges).*1.

(** [depth] is the length of the longest path that leads to a node; on a cycle there is none. *)
Definition depth_function (order : list string) (edges : list (string * string)) (depth : string -> nat) : Prop :=
  forall id, id ∈ order -> depth id = max_list ((fun u => S (depth u)) <$> sources edges id).

Definition actors_apart (author : AuthorWorkflow) (order : list string) (depth : string -> nat) : Prop :=
  forall id1 id2 node1 node2 actor, id1 ∈ order -> id2 ∈ order ->
    aw_nodes author !! id1 = Some node1 -> aw_nodes author !! id2 = Some node2 ->
    an_actor node1 = Some actor -> an_actor node2 = Some actor -> depth id1 = depth id2 -> id1 = id2.

Lemma fmap_Forall2_eq {A B C} (f : A -> C) (g : B -> C) (R : A -> B -> Prop) l k :
  Forall2 R l k -> (forall x y, R x y -> f x = g y) -> f <$> l = g <$> k.
Proof. induction 1; intros H'; [done|]. rewrite !fmap_cons. f_equal; auto. Qed.

Lemma NoDup_omap_iff {A B} (f : A -> option B) l :
  NoDup l -> NoDup (omap f l)
  <-> forall x y b, x ∈ l -> y ∈ l -> f x = Some b -> f y = Some b -> x = y.
Proof.
  induction l as [|z l IH]; [split; [by intros _ x ? ? ?%elem_of_nil|constructor]|].
  intros [Hz Hnd]%NoDup_cons. specialize (IH Hnd). cbn [omap list_omap].
  destruct (f z) as [c|] eqn:Ez.
  - rewrite NoDup_cons, IH, list_elem_of_omap. split.
    + intros [Hno Hall] x y b [->|Hx]%elem_of_cons [->|Hy]%elem_of_cons Hfx Hfy; [done| | |eauto].
      * destruct Hno. exists y. split; congruence.
      * destruct Hno. exists x. split; congruence.
    + intros Hall. split; [|intros x y b ? ?; apply Hall; by right].
      intros (x & Hx & Hfx). assert (x = z) as ->; [|done]. apply (Hall x z c); [by right|left|done..].
  - rewrite IH. split.
    + intros Hall x y b [->|Hx]%elem_of_cons [->|Hy]%elem_of_cons Hfx Hfy; [done|congruence..|eauto].
    + intros Hall x y b ? ?. apply Hall; by right.
Qed.

Section order.
Context (order : list string) (Hnd : NoDup order).

Lemma sources_names edges pairs v id :
  Forall2 (indexed order) edges pairs -> order !! v = Some id ->
  Forall2 (fun u name => order !! u = Some name) (sources_of pairs v) (sources (edge_pair <$> edges) id).
Proof.
  intros Hall Hv. unfold sources_of, sources.
  induction Hall as [|e [i j] edges pairs (Hi & Hj & _) Hall IH]; [constructor|].
  rewrite fmap_cons, !filter_cons. simpl in *.
  destruct (decide (j = v)) as [->|Hne].
  - rewrite decide_True by congruence. by constructor.
  - rewrite decide_False; [done|]. intros <-. apply Hne. by eapply NoDup_lookup.
Qed.

(** A depth function on indices is one on names. *)
Lemma layered_depth_function preds edges pairs levels (di : nat -> nat) (d : string -> nat) :
  Forall2 (indexed order) edges pairs -> (forall v, row preds v = sources_of pairs v) ->
  length preds = length order -> (forall i id, order !! i = Some id -> d id = di i) ->
  layered preds di levels -> depth_function order (edge_pair <$> edges) d.
Proof.
  intros Hall Hrow Hlen Hd Hl id [i Hi]%list_elem_of_lookup_1. rewrite (Hd i id Hi).
  rewrite (ly_longest _ _ _ Hl i) by (apply lookup_lt_Some in Hi; lia). f_equal. rewrite Hrow.
  eapply fmap_Forall2_eq; [by eapply sources_names|]. intros u name Hu. simpl. f_equal. symmetry. auto.
Qed.

(** Depth functions agree on the nodes. *)
Lemma depth_function_unique edges d1 d2 :
  (forall e, e ∈ edges -> e.1 ∈ order) ->
  depth_function order edges d1 -> depth_function order edges d2 ->
  forall id, id ∈ order -> d1 id = d2 id.
Proof.
  intros Hends H1 H2 id. remember (d1 id) as k eqn:Hk. revert id Hk.
  induction k as [k IH] using lt_wf_ind. intros id -> Hid.
  rewrite (H1 id Hid), (H2 id Hid). f_equal. apply Forall_fmap_ext_1. apply Forall_forall.
  intros u Hu. f_equal. apply (IH (d1 u)); [|done|].
  - rewrite (H1 id Hid). apply max_list_elem_of_le, list_elem_of_fmap. eauto.
  - unfold sources in Hu. apply list_elem_of_fmap in Hu as (e & -> & [_ He]%list_elem_of_filter). auto.
Qed.

(** A graph with a depth function has no cycle. *)
Lemma depth_function_acyclic preds edges pairs (d : string -> nat) :
  Forall2 (indexed order) edges pairs -> (forall v, row preds v = sources_of pairs v) ->
  length preds = length order -> depth_function order (edge_pair <$> edges) d -> acyclic preds.
Proof.
  intros Hall Hrow Hlen Hd v Hv.
  set (di := fun i => default 0 (d <$> order !! i)).
  assert (forall a b, a ∈ row preds b -> di a < di b) as Hone.
  { intros a b Hab. pose proof (row_range _ _ _ Hab) as Hb. rewrite Hlen in Hb.
    destruct (lookup_lt_is_Some_2 order b Hb) as [id Hid]. rewrite Hrow in Hab.
    pose proof (sources_names edges pairs b id Hall Hid) as Hf.
    apply list_elem_of_lookup_1 in Hab as [k Hk].
    destruct (Forall2_lookup_l _ _ _ _ _ Hf Hk) as (name & Hname & Ha).
    unfold di. rewrite Hid, Ha. simpl. apply Nat.le_succ_l. rewrite (Hd id).
    - apply max_list_elem_of_le, list_elem_of_fmap. exists name. split; [done|].
      by eapply list_elem_of_lookup_2.
    - by eapply list_elem_of_lookup_2. }
  assert (forall a b, tc (fun u v => u ∈ row preds v) a b -> di a < di b) as Htc.
  { intros a b Hab. induction Hab as [a b Hab|a b c Hab _ IH]; [auto|]. apply Hone in Hab. lia. }
  apply Htc in Hv. lia.
Qed.

(** No level holds an actor twice. *)
Lemma levels_actors author preds levels (di : nat -> nat) (d : string -> nat) :
  length preds = length order -> layered preds di levels ->
  (forall i id, order !! i = Some id -> d id = di i) ->
  Forall (fun level => NoDup (omap (actor_at author order) (stage_indices level))) levels
  <-> actors_apart author order d.
Proof.
  intros Hlen Hl Hd. rewrite Forall_lookup. split.
  - intros Hall id1 id2 n1 n2 a [i Hi]%list_elem_of_lookup_1 [j Hj]%list_elem_of_lookup_1 Hn1 Hn2 Ha1 Ha2 Heq.
    rewrite (Hd i id1 Hi), (Hd j id2 Hj) in Heq.
    pose proof (lookup_lt_Some _ _ _ Hi). pose proof (lookup_lt_Some _ _ _ Hj).
    specialize (Hall (di i) _ (proj2 (layered_level _ _ _ Hl _ _)
      (conj (ly_bound _ _ _ Hl i ltac:(lia)) eq_refl))). simpl in Hall.
    assert (i = j) as <-; [|congruence].
    assert (actor_at author order i = Some a /\ actor_at author order j = Some a) as [Hai Haj].
    { unfold actor_at. rewrite Hi, Hj. simpl. rewrite Hn1, Hn2. done. }
    assert (i ∈ filter (fun v => di v = di i) (seq 0 (length preds))
      /\ j ∈ filter (fun v => di v = di i) (seq 0 (length preds))) as [Hini Hinj].
    { rewrite !list_elem_of_filter, !elem_of_seq. lia. }
    rewrite NoDup_omap_iff in Hall by apply NoDup_filter, NoDup_seq. by apply (Hall i j a).
  - intros Hap k level [_ ->]%(layered_level _ _ _ Hl). simpl.
    apply NoDup_omap_iff; [apply NoDup_filter, NoDup_seq|].
    intros i j a [Hi _]%list_elem_of_filter [Hj _]%list_elem_of_filter. unfold actor_at.
    destruct (order !! i) as [id1|] eqn:Ei; [|done]. destruct (order !! j) as [id2|] eqn:Ej; [|done]. simpl.
    destruct (aw_nodes author !! id1) as [n1|] eqn:E1; [|done].
    destruct (aw_nodes author !! id2) as [n2|] eqn:E2; [|done]. simpl. intros Ha1 Ha2.
    assert (id1 = id2) as <-; [|by eapply NoDup_lookup].
    eapply Hap; [by eapply list_elem_of_lookup_2|by eapply list_elem_of_lookup_2|done..|].
    by rewrite (Hd i id1), (Hd j id2), Hi, Hj by done.
Qed.
End order.

(** ** Normalization *)

Definition same_nodes (author : AuthorWorkflow) (order : list string) : Prop :=
  forall id, id ∈ order <-> is_Some (aw_nodes author !! id).

(** What makes author and graph compile. *)
Definition compilable (author : AuthorWorkflow) (order : list string) (edges : list (string * string)) : Prop :=
  same_nodes author order
  /\ exists depth, depth_function order edges depth /\ actors_apart author order depth.

Section normalize.
Context {L : WorkflowLib}.

(** The compiled Workflow of an author's record and a graph. *)
Record compiled_from (author : AuthorWorkflow) (order : list string) (edges : list (string * string))
    (cw : CompiledWorkflow) : Prop := {
  cf_definition : cw_definition cw
    = mkWorkflowDefinition (aw_name author) (aw_description author) (aw_inputs author)
        (aw_on_failure author);
  cf_stages : Forall2 (fun id stage => exists node, aw_nodes author !! id = Some node /\ stage_of id node stage)
                order (plan_stages (cw_plan cw));
  (** The predecessors of a stage are the sources of its edges, in the order of the text. *)
  cf_predecessors stage : stage ∈ plan_stages (cw_plan cw) ->
    Forall2 (fun u name => order !! u = Some name) (st_predecessor_indices stage)
      (sources edges (st_id stage));
  cf_depth : exists depth, depth_function order edges depth /\ actors_apart author order depth
    /\ forall stage, stage ∈ plan_stages (cw_plan cw) -> st_level stage = depth (st_id stage);
  (** Each level lists the indices of its stages, ascending; none is empty. *)
  cf_levels k level : plan_levels (cw_plan cw) !! k = Some level <->
    k < length (plan_levels (cw_plan cw))
    /\ level = mkWorkflowLevel
        (filter (fun i => st_level <$> plan_stages (cw_plan cw) !! i = Some k)
           (seq 0 (length (plan_stages (cw_plan cw)))));
  cf_nonempty k level : plan_levels (cw_plan cw) !! k = Some level -> stage_indices level <> [];
  cf_bound stage : stage ∈ plan_stages (cw_plan cw) ->
    st_level stage < length (plan_levels (cw_plan cw));
  cf_revision : cw_revision cw = canonical_revision (cw_definition cw) (cw_plan cw);
}.

Context (source : string) (author : AuthorWorkflow) (locations : gmap string SourcePoint).
Context (graph : ParsedGraph).
Abbreviation order := (pg_order graph).
Abbreviation edges := (edge_pair <$> pg_edges graph).
Context (Hauthor : author_ok author) (Hnd : NoDup order) (Hdistinct : NoDup edges).
Context (Hends : forall e, e ∈ pg_edges graph -> ge_from e ∈ order /\ ge_to e ∈ order).

(** The index of a name, and a depth function on names from one on indices. *)
Definition depth_by_name (di : nat -> nat) (id : string) : nat :=
  match position (fun x => x = id) order with Some i => di i | None => 0 end.

Lemma depth_by_name_index di i id : order !! i = Some id -> depth_by_name di id = di i.
Proof.
  intros Hi. unfold depth_by_name. destruct (position _ _) as [j|] eqn:E.
  - apply position_Some in E as (x & Hj & -> & _). f_equal.
    by apply (NoDup_lookup order j i id).
  - apply position_None in E. rewrite Forall_forall in E. destruct (E id); [|done].
    by eapply list_elem_of_lookup_2.
Qed.

Lemma stages_lookup levels preds stages i stage :
  try_map (build_stage source author locations levels preds) (imap pair order) = inl stages ->
  stages !! i = Some stage ->
  exists id node, order !! i = Some id /\ aw_nodes author !! id = Some node /\ stage_of id node stage
    /\ st_level stage = default 0 (levels !! i) /\ st_predecessor_indices stage = row preds i.
Proof.
  intros Hmap%try_map_ok Hi. destruct (Forall2_lookup_r _ _ _ _ _ Hmap Hi) as ([j id] & Hj & Hb).
  rewrite list_lookup_imap in Hj. destruct (order !! i) as [x|]; [|done]. injection Hj as <- <-.
  apply build_stage_ok in Hb as (node & ? & ? & ? & ?). eauto 10.
Qed.

Lemma stages_compiled preds levels di pairs stages :
  Forall2 (indexed order) (pg_edges graph) pairs -> (forall v, row preds v = sources_of pairs v) ->
  length preds = length order -> layered preds di levels ->
  Forall (fun level => NoDup (omap (actor_at author order) (stage_indices level))) levels ->
  try_map (build_stage source author locations (stage_levels_of (length order) levels) preds)
    (imap pair order) = inl stages ->
  let definition := mkWorkflowDefinition (aw_name author) (aw_description author)
                      (aw_inputs author) (aw_on_failure author) in
  let plan := mkWorkflowPlan stages levels in
  compiled_from author order edges
    (mkCompiledWorkflow definition plan (canonical_revision definition plan)).
Proof.
  intros Hall Hrow Hlen Hl Hactors Hmap definition plan.
  assert (length stages = length order) as Hls.
  { apply try_map_ok, Forall2_length in Hmap. by rewrite length_imap in Hmap. }
  assert (forall i stage, stages !! i = Some stage -> st_level stage = di i) as Hlevel.
  { intros i stage Hi. destruct (stages_lookup _ _ _ _ _ Hmap Hi) as (id & node & Hid & _ & _ & -> & _).
    rewrite <- Hlen, (layered_stage_levels _ _ _ i Hl); [done|]. apply lookup_lt_Some in Hid. lia. }
  split; simpl; try done.
  - apply Forall2_same_length_lookup_2; [done|]. intros i id stage Hid Hi.
    destruct (stages_lookup _ _ _ _ _ Hmap Hi) as (id' & node & Hid' & Hn & Hs & _). simplify_eq. eauto.
  - intros stage [i Hi]%list_elem_of_lookup_1.
    destruct (stages_lookup _ _ _ _ _ Hmap Hi) as (id & node & Hid & _ & Hs & _ & ->).
    rewrite Hrow, (so_id _ _ _ Hs). by eapply sources_names.
  - exists (depth_by_name di). split; [|split].
    + apply (layered_depth_function order Hnd preds (pg_edges graph) pairs levels di); try done.
      apply depth_by_name_index.
    + apply (levels_actors order Hnd author preds levels di); [done..| |done].
      intros. by apply depth_by_name_index.
    + intros stage [i Hi]%list_elem_of_lookup_1. rewrite (Hlevel i stage Hi).
      destruct (stages_lookup _ _ _ _ _ Hmap Hi) as (id & node & Hid & _ & Hs & _).
      rewrite (so_id _ _ _ Hs). symmetry. by apply depth_by_name_index.
  - intros k level. rewrite (layered_level _ _ _ Hl). f_equiv. rewrite Hls, Hlen.
    assert (filter (fun v => di v = k) (seq 0 (length order))
      = filter (fun i => st_level <$> stages !! i = Some k) (seq 0 (length order))) as ->; [|done].
    apply filter_ext_elem. intros i [_ Hi]%elem_of_seq.
    destruct (lookup_lt_is_Some_2 stages i) as [stage Hst]; [lia|]. rewrite Hst. simpl.
    rewrite (Hlevel i stage Hst). naive_solver.
  - apply (ly_nonempty _ _ _ Hl).
  - intros stage [i Hi]%list_elem_of_lookup_1. rewrite (Hlevel i stage Hi).
    apply (ly_bound _ _ _ Hl). apply lookup_lt_Some in Hi. lia.
Qed.

(** Accepted exactly when it is compilable; and then the result is the one described. *)
Lemma normalize_spec :
  match normalize source author locations graph with
  | inl cw => compilable author order edges /\ compiled_from author order edges cw
  | inr _ => ~ compilable author order edges
  end.
Proof.
  unfold normalize. destruct (check_nodes _ _ _ _) as [[]|] eqn:Ec.
  2: { intros [Hsame _]. by rewrite (proj2 (check_nodes_ok _ _ _ _) Hsame) in Ec. }
  pose proof (proj1 (check_nodes_ok _ _ _ _) Ec) as Hsame.
  destruct (try_fold (link_edge _ _) _ _) as [[preds succs]|err] eqn:El.
  2: { intros (_ & d & Hd & _).
    destruct (link_edges_error source order Hnd _ _ Hends El) as (e & He & Hself & _).
    destruct (Hends e He) as [_ Hto]. specialize (Hd _ Hto).
    assert (S (d (ge_to e)) <= d (ge_to e)); [|lia]. rewrite Hd at 2.
    apply max_list_elem_of_le, list_elem_of_fmap. exists (ge_from e).
    split; [by rewrite Hself|]. apply list_elem_of_fmap. exists (edge_pair e). split; [done|].
    apply list_elem_of_filter. split; [done|]. by apply list_elem_of_fmap_2. }
  destruct (link_edges_ok source order Hnd _ _ El) as (pairs & Hall & Hrows).
  pose proof (rows_wf order Hnd _ _ _ _ Hall Hdistinct Hrows) as Hwf.
  destruct Hrows as (Hlen & _ & Hrow & _). simpl in Hlen, Hrow.
  pose proof (topological_levels_cases preds succs Hwf source
    (default (mkSourcePoint 1 1) (ge_from_location <$> last (pg_edges graph)))) as Hcases.
  destruct (topological_levels _ _ _ _) as [levels|].
  2: { intros (_ & d & Hd & _). apply Hcases. by eapply depth_function_acyclic. }
  destruct Hcases as [di Hl].
  assert (depth_function order edges (depth_by_name di)) as Hdf.
  { apply (layered_depth_function order Hnd preds (pg_edges graph) pairs levels di); try done.
      apply depth_by_name_index. }
  pose proof (levels_actors order Hnd author preds levels di (depth_by_name di) Hlen Hl
    (depth_by_name_index di)) as Hactors.
  destruct (try_each _ levels) as [[]|] eqn:Ea.
  2: { intros (_ & d & Hd & Hap). apply try_each_error in Ea as (level & Hin & Hcheck).
    assert (actors_apart author order (depth_by_name di)) as Hap'.
    { intros id1 id2 n1 n2 a H1 H2 ? ? ? ? Heq. apply (Hap id1 id2 n1 n2 a); try done.
      rewrite <- !(depth_function_unique order edges (depth_by_name di) d); try done.
      all: intros e (e' & -> & He')%list_elem_of_fmap; by apply Hends. }
    apply Hactors in Hap'. rewrite Forall_forall in Hap'. apply Hap' in Hin.
    by rewrite (proj2 (check_level_ok _ _ _ _ _) Hin) in Hcheck. }
  apply try_each_ok in Ea.
  assert (Forall (fun level => NoDup (omap (actor_at author order) (stage_indices level))) levels) as Hap.
  { eapply Forall_impl; [exact Ea|]. intros level. by apply check_level_ok. }
  destruct (try_map _ _) as [stages|] eqn:Em.
  - split; [split; [done|]|by eapply stages_compiled]. exists (depth_by_name di). split; [done|].
    by apply Hactors.
  - exfalso. apply try_map_error in Em as ([i id] & Hin & Hb).
    apply list_elem_of_lookup_1 in Hin as [k Hk]. rewrite list_lookup_imap in Hk.
    destruct (order !! k) as [x|] eqn:Ek; [|done]. injection Hk as <- <-.
    destruct (proj1 (Hsame x)) as [node Hnode]; [by eapply list_elem_of_lookup_2|].
    destruct (build_stage_exists source author locations (stage_levels_of (length order) levels) preds
      k x node) as [stage Hs]; [done|by apply Hauthor|]. by rewrite Hs in Hb.
Qed.
End normalize.

(** * A concrete Workflow document

    One document with inputs, a loop, an actor and a model route, and a frontmatter reader that knows
    it; used to evaluate the compiler's theorems. *)

Module WorkflowDemo.
Definition unlines (ls : list string) : string := String.concat (String LF EmptyString) ls.

Definition front : list string :=
  ["kind: Workflow"; "name: ship"; "description: plan, build and review"; "nodes:";
   "  plan:"; "    agent: planner"; "  build:"; "    agent: coder"; "  review:"; "    agent: critic"].

Definition node (agent directive : string) : AuthorNode := mkAuthorNode None agent directive Once None None None.

Definition author : AuthorWorkflow :=
  mkAuthorWorkflow "Workflow" "ship" "plan, build and review" {[ "topic" := "what to ship" ]} FailFast
    {[ "plan" := node "planner" "Plan {{ input.topic }}";
       "build" := mkAuthorNode (Some "Build") "coder" "Build it" Loop
                    (Some (mkVerifySpec "tester" "{{input.topic}} passes" 3
                             (Some (mkAssignment "glm" (Some "high") []))))
                    (Some (mkAssignment " gpt " None [mkCandidate "gpt" (Some "low")])) None;
       "review" := mkAuthorNode None "critic" "Review" Once None None (Some "critic") ]}.

Definition body : list string :=
  [""; "%% the graph"; "flowchart TD"; "  plan --> build & review"; "  build"; "  build --> review"].

Definition text : string := unlines (["---"] ++ front ++ ["---"] ++ body).
(** The same document with a cycle. *)
Definition cyclic : string := unlines (["---"] ++ front ++ ["---"] ++ body ++ ["review --> plan"]).

Definition reader (s : string) : AuthorWorkflow + string :=
  if decide (s = unlines front) then inl author else inr "unexpected document".

#[export] Program Instance lib : WorkflowLib := {| yaml_from_str := reader; sha256 s := s |}.
Next Obligation.
  intros s a id n v Hs Hn Hv. unfold reader in Hs. case_decide; [|done]. injection Hs as <-.
  unfold author in Hn. simpl in Hn.
  repeat (apply lookup_insert_Some in Hn as [[<- <-]|[_ Hn]];
    [try done; simpl in Hv; injection Hv as <-; vm_compute; done|]).
  apply lookup_singleton_Some in Hn as [<- <-]. done.
Qed.

Definition compiled : option CompiledWorkflow :=
  match compile_source "ship.md" text with inl cw => Some cw | inr _ => None end.
Definition workflow : CompiledWorkflow :=
  default (mkCompiledWorkflow (mkWorkflowDefinition "" "" ∅ FailFast) (mkWorkflowPlan [] []) "") compiled.

Definition inputs : gmap string string := {[ "topic" := "the release {{input.topic}}" ]}.
Definition evidence : list (option StageEvidence) :=
  [Some (mkStageEvidence StageEvidenceStatus.Done "a <plan> & more"); None; None].
End WorkflowDemo.
