(* ===== verification/CompilerSpec.v ===== *)
(** * Theorems of the Workflow compiler

    Which documents compile and to what ([compile_source_exact]), what every compiled Workflow
    satisfies ([compiled_well_formed]), and where errors point ([compile_error_located]). *)

From stdpp Require Import sorting.
From S2P Require Import Prelude Result RustStr Text WfModel Compiler Levels GraphSpec Render NormalizeSpec AuthorSpec CompileSpec.

(** ** The frontmatter scan *)

Definition skipped_front (raw : string) : bool := is_empty (trim raw) || starts_with "#" (trim raw).
Definition indentation (raw : string) : nat := leading_count " " raw.

(** The lines below [nodes:], up to the next line without indentation. *)
Fixpoint until_top_level (lines : list string) : list string :=
  match lines with
  | [] => []
  | raw :: lines =>
      if negb (skipped_front raw) && bool_decide (indentation raw = 0) then []
      else raw :: until_top_level lines
  end.
Fixpoint nodes_section (lines : list string) : list string :=
  match lines with
  | [] => []
  | raw :: lines =>
      if negb (skipped_front raw) && bool_decide (indentation raw = 0) && bool_decide (trim raw = "nodes:")
      then until_top_level lines
      else nodes_section lines
  end.

(** The key a line of the section opens. *)
Definition heading (raw : string) : option string :=
  if negb (skipped_front raw) && bool_decide (indentation raw = 2) && ends_with ":" (trim raw)
  then Some (trim_end_matches ":" (trim raw)) else None.

Lemma scan_section_ok source n lines locations :
  (exists l, scan_lines source n lines true locations = inl l)
  <-> NoDup (omap heading (until_top_level lines))
      /\ forall id, id ∈ omap heading (until_top_level lines) -> locations !! id = None.
Proof.
  revert n locations; induction lines as [|raw lines IH]; intros n locations; cbn [scan_lines until_top_level].
  { split; [intros _; split; [constructor|by intros ? ?%elem_of_nil]|eauto]. }
  unfold scan_line. fold (skipped_front raw) (indentation raw).
  destruct (skipped_front raw) eqn:Es.
  { simpl negb. cbv iota. cbn [andb]. rewrite (IH (S n) locations). cbn [omap list_omap].
    assert (heading raw = None) as -> by (unfold heading; by rewrite Es). done. }
  cbn [negb andb]. cbv iota. destruct (decide (indentation raw = 0)) as [H0|H0].
  { rewrite bool_decide_eq_true_2 by done. simpl. split; [intros _; split; [constructor|set_solver]|eauto]. }
  rewrite (bool_decide_eq_false_2 (indentation raw = 0)) by done. cbn [omap list_omap].
  assert (heading raw = if negb (bool_decide (indentation raw = 2)) || negb (ends_with ":" (trim raw))
                        then None else Some (trim_end_matches ":" (trim raw))) as ->.
  { unfold heading. rewrite Es. by destruct (bool_decide _), (ends_with _ _). }
  destruct (negb _ || negb _); [apply IH|]. set (id := trim_end_matches _ _).
  destruct (locations !! id) eqn:El.
  { split; [by intros []|]. intros [_ H]. rewrite H in El; [done|left]. }
  rewrite IH, NoDup_cons. split.
  - intros [Hnd Hno]. split; [split; [|done]|].
    + intros Hin. specialize (Hno id Hin). by rewrite lookup_insert_eq in Hno.
    + intros i [->|Hin]%elem_of_cons; [done|]. by apply Hno, lookup_insert_None in Hin as [? _].
  - intros [[Hin Hnd] Hno]. split; [done|]. intros i Hi. apply lookup_insert_None.
    split; [apply Hno; by right|]. by intros <-.
Qed.

(** The scan succeeds when no node is headed twice. *)
Lemma scan_frontmatter_ok source n lines :
  (exists l, scan_frontmatter_nodes source lines n = inl l) <-> NoDup (omap heading (nodes_section lines)).
Proof.
  unfold scan_frontmatter_nodes. revert n.
  induction lines as [|raw lines IH]; intros n; cbn [scan_lines nodes_section].
  { split; [constructor|eauto]. }
  unfold scan_line. fold (skipped_front raw) (indentation raw).
  destruct (skipped_front raw); simpl; [apply IH|].
  destruct (bool_decide (indentation raw = 0)); simpl; [|apply IH].
  destruct (bool_decide (trim raw = "nodes:")); [|apply IH].
  rewrite scan_section_ok. set_solver.
Qed.

(** ** The sections of a document *)

Lemma split_frontmatter_ok source lines front graph_start :
  split_frontmatter source lines = inl (front, graph_start)
  <-> exists opening block closing rest,
        lines = opening :: block ++ closing :: rest
        /\ trim_end_matches CR opening = "---" /\ trim_end_matches CR closing = "---"
        /\ Forall (fun line => trim_end_matches CR line <> "---") block
        /\ front = String.concat (String LF EmptyString) block /\ graph_start = length block + 2.
Proof.
  unfold split_frontmatter. destruct lines as [|opening lines]; simpl.
  { split; [done|]. by intros (? & ? & ? & ? & ? & _). }
  case_decide as Ho.
  { split; [done|]. intros (? & ? & ? & ? & [= -> _] & Hf & _). congruence. }
  assert (trim_end_matches CR opening = "---") as Hopen by (apply dec_stable; congruence).
  destruct (position _ lines) as [i|] eqn:Ep.
  - apply position_Some in Ep as (closing & Hl & Hc & Hb). split.
    + intros [= <- <-]. exists opening, (take i lines), closing, (drop (S i) lines).
      rewrite take_drop_middle by done. repeat (split; [done|]).
      rewrite length_take_le by (apply lookup_lt_Some in Hl; lia). lia.
    + intros (o & block & c & rest & [= -> ->] & _ & Hc' & Hb' & -> & ->).
      assert (i = length block) as ->; [|by rewrite take_app_length; f_equal; f_equal; lia].
      rewrite Forall_lookup in Hb'. rewrite Forall_forall in Hb.
      destruct (lt_eq_lt_dec i (length block)) as [[Hlt|]|Hgt]; [|done|].
      * rewrite lookup_app_l in Hl by done. by apply Hb' in Hl.
      * destruct (Hb c); [|done]. rewrite take_app_ge by lia. apply elem_of_app. right.
        replace (i - length block) with (S (i - length block - 1)) by lia. left.
  - apply position_None in Ep. split; [done|].
    intros (o & block & c & rest & [= -> ->] & _ & Hc & _). rewrite Forall_forall in Ep.
    destruct (Ep c); [set_solver|done].
Qed.

Lemma drop_S_middle {A} (l : list A) x k : drop (S (length l)) (l ++ x :: k) = k.
Proof. by induction l. Qed.

Section compiler.
Context {L : WorkflowLib}.

(** What an acceptable document says: the author's record its frontmatter holds, and the nodes and
    edges of its flowchart, each where it is first mentioned. *)
Definition document (text : string) (author : AuthorWorkflow) (order : list string)
    (edges : list (string * string)) : Prop :=
  exists opening front closing blank header body,
    lines text = opening :: front ++ closing :: blank ++ header :: body
    /\ trim_end_matches CR opening = "---" /\ trim_end_matches CR closing = "---"
    /\ Forall (fun line => trim_end_matches CR line <> "---") front
    /\ NoDup (omap heading (nodes_section front))
    /\ yaml_from_str (String.concat (String LF EmptyString) front) = inl author /\ author_ok author
    /\ Forall (fun raw => is_skipped raw = true) blank /\ trim header = "flowchart TD"
    /\ Forall line_ok body /\ body ≫= line_ids <> []
    /\ order = first_occurrences (body ≫= line_ids)
    /\ edges = first_occurrences (body ≫= line_edges).

(** The steps of [compile_source], with what each decides. *)
Lemma compile_steps source text cw :
  compile_source source text = inl cw <->
  exists front graph_start locations author graph,
    split_frontmatter source (lines text) = inl (front, graph_start)
    /\ scan_frontmatter_nodes source (take (graph_start - 2) (tail (lines text))) 2 = inl locations
    /\ yaml_from_str front = inl author
    /\ validate_author source author locations = inl tt
    /\ parse_graph source (drop graph_start (lines text)) (graph_start + 1) = inl graph
    /\ normalize source author locations graph = inl cw.
Proof.
  unfold compile_source. split.
  - intros H. destruct (split_frontmatter _ _) as [[front start]|] eqn:E1; [|done].
    destruct (scan_frontmatter_nodes _ _ _) as [locations|] eqn:E2; [|done].
    destruct (yaml_from_str front) as [author|] eqn:E3; [|done].
    destruct (validate_author _ _ _) as [[]|] eqn:E4; [|done].
    destruct (parse_graph _ _ _) as [graph|] eqn:E5; [|done]. eauto 12.
  - intros (front & start & locations & author & graph & -> & -> & -> & -> & -> & H). done.
Qed.

Lemma graph_inv_edges good graph order edges :
  graph_inv good (mkGraphState true (pg_order graph) (pg_node_locations graph) (pg_edges graph)
                    (list_to_set (edge_pair <$> pg_edges graph))) ->
  pg_order graph = order -> edge_pair <$> pg_edges graph = edges ->
  NoDup order /\ NoDup edges
  /\ forall e, e ∈ pg_edges graph -> ge_from e ∈ pg_order graph /\ ge_to e ∈ pg_order graph.
Proof. intros Hi <- <-. split; [apply (gi_nodup _ _ Hi)|]. split; [apply (gi_distinct _ _ Hi)|apply (gi_ends _ _ Hi)]. Qed.

Lemma compile_source_cases source text :
  match compile_source source text with
  | inl cw => exists author order edges, document text author order edges
      /\ compilable author order edges /\ compiled_from author order edges cw
  | inr _ => forall author order edges, document text author order edges ->
      ~ compilable author order edges
  end.
Proof.
  destruct (compile_source source text) as [cw|err] eqn:Hc.
  - apply compile_steps in Hc as (front & start & locations & author & graph & H1 & H2 & H3 & H4 & H5 & H6).
    apply split_frontmatter_ok in H1 as (op & block & cl & rest & Hl & Ho & Hcl & Hb & -> & ->).
    assert (take (length block + 2 - 2) (tail (lines text)) = block) as Et.
    { rewrite Hl. simpl. rewrite Nat.add_sub. apply take_app_length. }
    assert (drop (length block + 2) (lines text) = rest) as Ed.
    { rewrite Hl, Nat.add_comm. simpl. apply drop_S_middle. }
    rewrite Et in H2. rewrite Ed in H5.
    apply parse_graph_ok in H5 as (blank & header & body & -> & ? & ? & ? & Hord & ? & Hedg & Hinv).
    destruct (graph_inv_edges _ _ _ _ Hinv eq_refl eq_refl) as (Hnd & Hdist & Hends).
    apply validate_author_ok in H4.
    pose proof (normalize_spec source author locations graph H4 Hnd Hdist Hends) as Hn.
    rewrite H6 in Hn. destruct Hn as [Hcomp Hfrom].
    exists author, (pg_order graph), (edge_pair <$> pg_edges graph). split; [|done].
    exists op, block, cl, blank, header, body. repeat (split; [done|]).
    split; [by apply (scan_frontmatter_ok source 2); eauto|]. by repeat (split; [done|]).
  - intros author order edges (op & block & cl & blank & header & body & Hl & Ho & Hcl & Hb & Hheads & Hy
      & Hauthor & Hblank & Hhead & Hbody & Hne & -> & ->) Hcomp.
    assert (exists cw, compile_source source text = inl cw) as [cw Hcw]; [|congruence].
    destruct (proj2 (scan_frontmatter_ok source 2 block) Hheads) as [locations Hscan].
    destruct (parse_graph_accepts source (length block + 2 + 1) (blank ++ header :: body) blank header body)
      as [graph Hg]; [done..|].
    destruct (parse_graph_ok _ _ _ _ Hg) as (b' & h' & body' & Heq & ? & ? & ? & Hord & ? & Hedg & Hinv).
    apply header_unique in Heq as (<- & <- & <-); [|done|done|by apply header_not_skipped..].
    destruct (graph_inv_edges _ _ _ _ Hinv eq_refl eq_refl) as (Hnd & Hdist & Hends).
    pose proof (normalize_spec source author locations graph Hauthor Hnd Hdist Hends) as Hn.
    rewrite Hord, Hedg in Hn.
    destruct (normalize source author locations graph) as [cw|] eqn:En; [|done]. exists cw.
    apply compile_steps. exists (String.concat (String LF EmptyString) block), (length block + 2), locations,
      author, graph.
    assert (take (length block + 2 - 2) (tail (lines text)) = block) as ->.
    { rewrite Hl. simpl. rewrite Nat.add_sub. apply take_app_length. }
    assert (drop (length block + 2) (lines text) = blank ++ header :: body) as ->.
    { rewrite Hl, Nat.add_comm. simpl. apply drop_S_middle. }
    repeat split; try done.
    + apply split_frontmatter_ok. by exists op, block, cl, (blank ++ header :: body).
    + by apply validate_author_ok.
Qed.
(** A document says one thing. *)
Lemma document_unique text a1 o1 e1 a2 o2 e2 :
  document text a1 o1 e1 -> document text a2 o2 e2 -> a1 = a2 /\ o1 = o2 /\ e1 = e2.
Proof.
  intros (op & f1 & c1 & b1 & h1 & y1 & Hl1 & Ho1 & Hc1 & Hf1 & _ & Hy1 & _ & Hb1 & Hh1 & _ & _ & -> & ->)
    (op2 & f2 & c2 & b2 & h2 & y2 & Hl2 & Ho2 & Hc2 & Hf2 & _ & Hy2 & _ & Hb2 & Hh2 & _ & _ & -> & ->).
  pose proof (proj2 (split_frontmatter_ok "" (lines text) _ _)
    (ex_intro _ op (ex_intro _ f1 (ex_intro _ c1 (ex_intro _ (b1 ++ h1 :: y1)
      (conj Hl1 (conj Ho1 (conj Hc1 (conj Hf1 (conj eq_refl eq_refl)))))))))) as S1.
  pose proof (proj2 (split_frontmatter_ok "" (lines text) _ _)
    (ex_intro _ op2 (ex_intro _ f2 (ex_intro _ c2 (ex_intro _ (b2 ++ h2 :: y2)
      (conj Hl2 (conj Ho2 (conj Hc2 (conj Hf2 (conj eq_refl eq_refl)))))))))) as S2.
  rewrite S1 in S2. injection S2 as Hfront Hlen. rewrite Hfront in Hy1.
  assert (drop (length f1 + 2) (lines text) = b1 ++ h1 :: y1) as D1.
  { rewrite Hl1, Nat.add_comm. simpl. apply drop_S_middle. }
  assert (drop (length f2 + 2) (lines text) = b2 ++ h2 :: y2) as D2.
  { rewrite Hl2, Nat.add_comm. simpl. apply drop_S_middle. }
  rewrite Hlen, D2 in D1.
  apply header_unique in D1 as (-> & -> & ->); [|done|done|by apply header_not_skipped..].
  split; [congruence|done].
Qed.

(** C26: exactly the documents whose two sections agree compile.  A successful compilation comes from a
    document with accepted frontmatter and flowchart whose nodes are the same, with a longest-path
    depth (so no cycle) and no actor twice on one depth; and every such document compiles.  The
    compiled stages are the author's nodes in order of first mention, with model routes trimmed, the
    sources of their edges as predecessors, depths as levels and the canonical revision. *)
Theorem compile_source_exact source text :
  (forall cw, compile_source source text = inl cw ->
   exists author order edges, document text author order edges
     /\ compilable author order edges /\ compiled_from author order edges cw)
  /\ (forall author order edges, document text author order edges -> compilable author order edges ->
      exists cw, compile_source source text = inl cw /\ compiled_from author order edges cw).
Proof.
  pose proof (compile_source_cases source text) as Hc.
  destruct (compile_source source text) as [cw|err].
  - split; [by intros cw' [= <-]|]. intros author order edges Hdoc _.
    destruct Hc as (a & o & e & Hdoc' & _ & Hfrom).
    destruct (document_unique _ _ _ _ _ _ _ Hdoc Hdoc') as (-> & -> & ->). eauto.
  - split; [done|]. intros author order edges Hdoc Hcomp. by destruct (Hc _ _ _ Hdoc).
Qed.

(** ** Well-formed plans *)

Definition names_at (stages : list WorkflowStage) (u : nat) : option string := st_id <$> stages !! u.

Lemma trim_route_idem r : trim_route (trim_route r) = trim_route r.
Proof. destruct r as [id [label|]]; unfold trim_route; simpl; by rewrite !trim_idem. Qed.

(** Routes that went through normalization are trimmed, admissible and distinct. *)
Lemma normalized_routes a a' x : normalized a a' -> a' = Some x ->
  Forall (fun route => route_ok route /\ trim_route route = route) (routes_of x) /\ NoDup (routes_of x).
Proof.
  intros [Hsome Hr] Ha. destruct (proj2 Hsome) as [y Hy]; [eauto|]. destruct (Hr _ _ Hy Ha) as (Heq & Hok & Hnd). split; [|done].
  apply Forall_and. split; [done|]. rewrite Heq. apply Forall_fmap, Forall_true. intros r. apply trim_route_idem.
Qed.

Record workflow_wf (cw : CompiledWorkflow) : Prop := {
  ww_nonempty : plan_stages (cw_plan cw) <> [];
  ww_ids : NoDup (st_id <$> plan_stages (cw_plan cw));
  ww_valid stage : stage ∈ plan_stages (cw_plan cw) ->
    valid_identifier (st_id stage) = true
    /\ trim (st_agent stage) <> ""
    /\ (exists segments, reads (wd_inputs (cw_definition cw)) (st_directive stage) segments)
    /\ mode_ok (wd_inputs (cw_definition cw)) (st_mode stage) (st_verify stage)
    /\ (st_actor stage = None \/ st_mode stage = Once);
  ww_routes stage a : stage ∈ plan_stages (cw_plan cw) ->
    st_model stage = Some a \/ verifier_model stage = Some a ->
    Forall (fun route => route_ok route /\ trim_route route = route) (routes_of a) /\ NoDup (routes_of a);
  ww_actor_ids stage actor : stage ∈ plan_stages (cw_plan cw) -> st_actor stage = Some actor -> valid_identifier actor = true;
  (** Predecessors are earlier stages; a level is one more than the highest of them. *)
  ww_predecessors stage : stage ∈ plan_stages (cw_plan cw) ->
    NoDup (st_predecessor_indices stage)
    /\ exists preds, Forall2 (fun u p => plan_stages (cw_plan cw) !! u = Some p)
                       (st_predecessor_indices stage) preds
       /\ st_level stage = max_list (S ∘ st_level <$> preds);
  ww_levels k level : plan_levels (cw_plan cw) !! k = Some level <->
    k < length (plan_levels (cw_plan cw))
    /\ level = mkWorkflowLevel
        (filter (fun i => st_level <$> plan_stages (cw_plan cw) !! i = Some k)
           (seq 0 (length (plan_stages (cw_plan cw)))));
  ww_levels_nonempty k level : plan_levels (cw_plan cw) !! k = Some level -> stage_indices level <> [];
  ww_bound stage : stage ∈ plan_stages (cw_plan cw) -> st_level stage < length (plan_levels (cw_plan cw));
  (** An actor names one Agent, at most once per level. *)
  ww_actors s1 s2 actor : s1 ∈ plan_stages (cw_plan cw) -> s2 ∈ plan_stages (cw_plan cw) ->
    st_actor s1 = Some actor -> st_actor s2 = Some actor ->
    st_agent s1 = st_agent s2 /\ (st_level s1 = st_level s2 -> s1 = s2);
}.

Section wf.
Context (author : AuthorWorkflow) (order : list string) (edges : list (string * string)).
Context (cw : CompiledWorkflow) (Hfrom : compiled_from author order edges cw).
Context (Hauthor : author_ok author) (Hnd : NoDup order) (Hedges : NoDup edges) (Hne : order <> []).
Abbreviation stages := (plan_stages (cw_plan cw)).

Lemma stage_node stage : stage ∈ stages ->
  exists node, aw_nodes author !! st_id stage = Some node /\ stage_of (st_id stage) node stage
    /\ st_id stage ∈ order.
Proof.
  intros [i Hi]%list_elem_of_lookup_1.
  destruct (Forall2_lookup_r _ _ _ _ _ (cf_stages _ _ _ _ Hfrom) Hi) as (id & Hid & node & Hn & Hs).
  rewrite (so_id _ _ _ Hs). exists node. split; [done|]. split; [done|]. by eapply list_elem_of_lookup_2.
Qed.

Lemma stage_ids : st_id <$> stages = order.
Proof.
  pose proof (cf_stages _ _ _ _ Hfrom) as H. revert H. generalize stages as l. clear. intros l H.
  induction H as [|id stage o l (node & _ & Hs) _ IH]; [done|].
  rewrite fmap_cons, IH. by rewrite (so_id _ _ _ Hs).
Qed.

Lemma stage_mode_ok inputs id node stage :
  stage_of id node stage -> mode_ok inputs (an_mode node) (an_verify node) ->
  mode_ok inputs (st_mode stage) (st_verify stage).
Proof.
  intros Hs. rewrite (so_mode _ _ _ Hs). pose proof (so_verify _ _ _ Hs) as Hv. unfold mode_ok, verify_ok.
  destruct (st_verify stage) as [v|], (an_verify node) as [w|]; try done. injection Hv as Ha Hu Hm.
  destruct (an_mode node); [done|]. by rewrite Ha, Hu, Hm.
Qed.

Lemma stage_predecessors stage : stage ∈ stages ->
  NoDup (st_predecessor_indices stage)
  /\ exists preds, Forall2 (fun u p => stages !! u = Some p) (st_predecessor_indices stage) preds
     /\ st_level stage = max_list (S ∘ st_level <$> preds).
Proof.
  intros Hin. pose proof (cf_predecessors _ _ _ _ Hfrom stage Hin) as Hp.
  destruct (cf_depth _ _ _ _ Hfrom) as (depth & Hd & _ & Hlevel).
  destruct (stage_node stage Hin) as (node & _ & _ & Hid). split.
  - assert (NoDup (sources edges (st_id stage))) as Hs.
    { unfold sources. apply NoDup_fmap_2_strong; [|by apply NoDup_filter].
      intros [a b] [c d] [Hb _]%list_elem_of_filter [Hc _]%list_elem_of_filter. simpl in *. congruence. }
    clear -Hp Hs. induction Hp as [|u name l k Hu Hall IH]; [constructor|].
    apply NoDup_cons in Hs as [Hno Hs]. apply NoDup_cons. split; [|auto].
    intros [j Hj]%list_elem_of_lookup_1. destruct (Forall2_lookup_l _ _ _ _ _ Hall Hj) as (name' & Hk & Hu').
    apply Hno. assert (name' = name) as <- by congruence. by eapply list_elem_of_lookup_2.
  - rewrite (Hlevel stage Hin), (Hd _ Hid).
    assert (forall l k, Forall2 (fun u name => order !! u = Some name) l k ->
      exists preds, Forall2 (fun u p => stages !! u = Some p) l preds
        /\ S ∘ st_level <$> preds = (fun u => S (depth u)) <$> k) as Hgen.
    { intros l k Hall. induction Hall as [|u name l k Hu _ (preds & IH & Heq)]; [by exists []; repeat constructor|].
      destruct (Forall2_lookup_l _ _ _ _ _ (cf_stages _ _ _ _ Hfrom) Hu) as (p & Hst & n' & _ & Hs).
      exists (p :: preds). split; [by constructor|]. rewrite !fmap_cons, Heq. f_equal.
      unfold compose. f_equal. rewrite <- (so_id _ _ _ Hs). apply Hlevel. by eapply list_elem_of_lookup_2. }
    destruct (Hgen _ _ Hp) as (preds & H1 & H2). exists preds. split; [done|]. by rewrite H2.
Qed.

Lemma compiled_from_wf : workflow_wf cw.
Proof.
  split.
  - intros Hnil. apply Hne. by rewrite <- stage_ids, Hnil.
  - by rewrite stage_ids.
  - intros stage Hin. destruct (stage_node stage Hin) as (node & Hn & Hs & _).
    pose proof (ao_nodes _ Hauthor _ _ Hn) as Hok. rewrite (cf_definition _ _ _ _ Hfrom). simpl.
    split; [apply (no_id _ _ _ Hok)|]. rewrite (so_agent _ _ _ Hs). split; [apply (no_agent _ _ _ Hok)|].
    rewrite (so_directive _ _ _ Hs). split; [apply (no_template _ _ _ Hok)|].
    split; [eapply stage_mode_ok; [done|apply (no_mode _ _ _ Hok)]|].
    rewrite (so_actor _ _ _ Hs), (so_mode _ _ _ Hs). apply (no_actor_once _ _ _ Hok).
  - intros stage a Hin Ha. destruct (stage_node stage Hin) as (node & _ & Hs & _).
    destruct Ha as [Ha|Ha]; [eapply normalized_routes, Ha; apply (so_model _ _ _ Hs)|eapply normalized_routes, Ha; apply (so_verifier _ _ _ Hs)].
  - intros stage actor Hin. destruct (stage_node stage Hin) as (node & Hn & Hs & _). rewrite (so_actor _ _ _ Hs).
    apply (no_actor _ _ _ (ao_nodes _ Hauthor _ _ Hn)).
  - apply stage_predecessors.
  - apply (cf_levels _ _ _ _ Hfrom).
  - apply (cf_nonempty _ _ _ _ Hfrom).
  - apply (cf_bound _ _ _ _ Hfrom).
  - intros s1 s2 actor H1 H2 A1 A2.
    destruct (stage_node s1 H1) as (n1 & Hn1 & Hs1 & Ho1), (stage_node s2 H2) as (n2 & Hn2 & Hs2 & Ho2).
    rewrite (so_actor _ _ _ Hs1) in A1. rewrite (so_actor _ _ _ Hs2) in A2. split.
    + rewrite (so_agent _ _ _ Hs1), (so_agent _ _ _ Hs2). by eapply (ao_actors _ Hauthor).
    + intros Hl. destruct (cf_depth _ _ _ _ Hfrom) as (depth & _ & Hap & Hlevel).
      rewrite (Hlevel s1 H1), (Hlevel s2 H2) in Hl.
      assert (st_id s1 = st_id s2) as Hid by (by eapply Hap).
      apply list_elem_of_lookup_1 in H1 as [i Hi], H2 as [j Hj].
      assert (i = j) as <-; [|congruence]. apply (NoDup_lookup (st_id <$> stages) i j (st_id s1)).
      * by rewrite stage_ids.
      * by rewrite list_lookup_fmap, Hi.
      * by rewrite list_lookup_fmap, Hj, Hid.
Qed.
End wf.
Lemma compile_wf source text cw : compile_source source text = inl cw -> workflow_wf cw.
Proof.
  intros Hc. pose proof (compile_source_cases source text) as H. rewrite Hc in H.
  destruct H as (author & order & edges & Hdoc & _ & Hfrom).
  destruct Hdoc as (? & ? & ? & ? & ? & body & _ & _ & _ & _ & _ & _ & Hauthor & _ & _ & _ & Hne & -> & ->).
  apply (compiled_from_wf author _ _ cw Hfrom Hauthor).
  - apply first_occurrences_NoDup.
  - apply first_occurrences_NoDup.
  - destruct (body ≫= line_ids) as [|id ids] eqn:E; [done|]. intros Hnil.
    assert (id ∈ first_occurrences (id :: ids)) as Hin by (apply first_occurrences_elem; left).
    rewrite Hnil in Hin. by apply elem_of_nil in Hin.
Qed.

(** C28: every compiled Workflow is well formed.  Stage ids are distinct identifiers, agents are named, directives are
    readable templates, loops and no other stages have a verifier (and no actor), actors are identifiers; the model routes of a
    stage and of its verifier are trimmed, admissible (nonempty, bounded, no [#] in the id) and distinct, the preferred one and
    its fallbacks together; each predecessor is a
    stage of the plan and a level is one more than the highest level among the predecessors; the
    levels list every stage exactly under its own level, ascending and never empty; an actor key
    stands for one Agent and occurs once per level. *)
Theorem compiled_well_formed source text cw :
  compile_source source text = inl cw ->
  plan_stages (cw_plan cw) <> []
  /\ NoDup (st_id <$> plan_stages (cw_plan cw))
  /\ (forall stage, stage ∈ plan_stages (cw_plan cw) ->
        valid_identifier (st_id stage) = true
        /\ trim (st_agent stage) <> ""
        /\ (exists segments, reads (wd_inputs (cw_definition cw)) (st_directive stage) segments)
        /\ (forall assignment, st_model stage = Some assignment \/ verifier_model stage = Some assignment ->
              NoDup (routes_of assignment)
              /\ Forall (fun route => trim_route route = route /\ route_ok route) (routes_of assignment))
        /\ (forall actor, st_actor stage = Some actor -> valid_identifier actor = true)
        /\ match st_mode stage, st_verify stage with
           | Once, None => True
           | Loop, Some verify => verify_ok (wd_inputs (cw_definition cw)) verify /\ st_actor stage = None
           | _, _ => False
           end
        /\ exists preds,
             Forall2 (fun u p => plan_stages (cw_plan cw) !! u = Some p) (st_predecessor_indices stage) preds
             /\ NoDup (st_predecessor_indices stage)
             /\ st_level stage = max_list (S ∘ st_level <$> preds))
  /\ (forall k i, (exists level, plan_levels (cw_plan cw) !! k = Some level /\ i ∈ stage_indices level)
        <-> exists stage, plan_stages (cw_plan cw) !! i = Some stage /\ st_level stage = k)
  /\ (forall level, level ∈ plan_levels (cw_plan cw) ->
        stage_indices level <> [] /\ StronglySorted lt (stage_indices level))
  /\ (forall s1 s2 actor, s1 ∈ plan_stages (cw_plan cw) -> s2 ∈ plan_stages (cw_plan cw) ->
        st_actor s1 = Some actor -> st_actor s2 = Some actor ->
        st_agent s1 = st_agent s2 /\ (st_level s1 = st_level s2 -> s1 = s2)).
Proof.
  intros Hwf%compile_wf. split; [apply Hwf|]. split; [apply Hwf|]. split; [|split; [|split; [|apply Hwf]]].
  - intros stage Hin. destruct (ww_valid _ Hwf stage Hin) as (? & ? & ? & Hmode & Hactor).
    split_and!; [done|done|done| |by intros actor; apply (ww_actor_ids _ Hwf)| |].
    + intros a Ha. destruct (ww_routes _ Hwf stage a Hin Ha) as [Hr Hnd]. split; [done|]. eapply Forall_impl; [exact Hr|]. by intros r [].
    + unfold mode_ok in Hmode. destruct (st_mode stage), (st_verify stage); naive_solver.
    + destruct (ww_predecessors _ Hwf stage Hin) as (? & preds & ? & ?). eauto.
  - intros k i. split.
    + intros (level & [_ ->]%(ww_levels _ Hwf) & [Hi _]%list_elem_of_filter).
      destruct (_ !! i) as [stage|]; [|done]. exists stage. split; [done|]. by injection Hi.
    + intros (stage & Hi & <-). eexists. split.
      * apply (ww_levels _ Hwf). split; [apply (ww_bound _ Hwf); by eapply list_elem_of_lookup_2|done].
      * simpl. apply list_elem_of_filter. rewrite Hi. split; [done|]. apply elem_of_seq.
        apply lookup_lt_Some in Hi. lia.
  - intros level [k Hk]%list_elem_of_lookup_1. split; [by eapply (ww_levels_nonempty _ Hwf)|].
    apply (ww_levels _ Hwf) in Hk as [_ ->]. apply filter_seq_lt.
Qed.
End compiler.

(** ** The theorems on a document *)

Lemma demo_compiles : compile_source (L := WorkflowDemo.lib) "ship.md" WorkflowDemo.text = inl WorkflowDemo.workflow.
Proof. vm_compute. reflexivity. Qed.

Lemma compiled_well_formed_witness :
  compile_source (L := WorkflowDemo.lib) "ship.md" WorkflowDemo.text = inl WorkflowDemo.workflow
  /\ NoDup (st_id <$> plan_stages (cw_plan WorkflowDemo.workflow)).
Proof.
  split; [exact demo_compiles|].
  exact (proj1 (proj2 (compiled_well_formed _ _ _ demo_compiles))).
Defined.

Lemma compile_source_exact_witness :
  compile_source (L := WorkflowDemo.lib) "ship.md" WorkflowDemo.text = inl WorkflowDemo.workflow
  /\ exists author order edges, document (L := WorkflowDemo.lib) WorkflowDemo.text author order edges
       /\ compilable author order edges
       /\ compiled_from (L := WorkflowDemo.lib) author order edges WorkflowDemo.workflow.
Proof.
  split; [exact demo_compiles|].
  exact (proj1 (compile_source_exact (L := WorkflowDemo.lib) "ship.md" WorkflowDemo.text)
    WorkflowDemo.workflow demo_compiles).
Defined.
