(* ===== verification/CompilerErrors.v ===== *)
(** * Where compilation errors point

    Every error of the compiler names its source and a position inside the document, or the end of
    it. *)

From S2P Require Import Prelude Result RustStr Text WfModel Compiler CompileSpec GraphSpec NormalizeSpec CompilerSpec.

Section errors.
Context (source : string).

Definition points_at (location : SourcePoint) (e : WorkflowCompileError) : Prop :=
  source_name e = source /\ error_line e = Nat.max (sp_line location) 1
  /\ error_column e = Nat.max (sp_column location) 1.

Lemma error_at_points kind location message :
  points_at location (error_at (with_kind kind) source location message).
Proof. done. Qed.

Lemma validation_points line column message :
  points_at (mkSourcePoint line column) (validation_error source line column message).
Proof. done. Qed.

(** Case analysis down to the error a branch returns. *)
Ltac error_cases H :=
  repeat (first [done | progress simplify_eq/= | case_decide | case_match]);
  try apply error_at_points; try apply validation_points.

Lemma let_error {A B E} (r : A + E) (k : A -> B + E) e :
  (let? x := r in k x) = inr e -> r = inr e \/ exists x, r = inl x /\ k x = inr e.
Proof. destruct r; naive_solver. Qed.

Lemma normalize_model_id_points stage role entry value location e :
  normalize_model_id source stage role entry value location = inr e -> points_at location e.
Proof. unfold normalize_model_id. intros H. error_cases H. Qed.

Lemma normalize_reasoning_points stage role entry value location e :
  normalize_reasoning source stage role entry value location = inr e -> points_at location e.
Proof. unfold normalize_reasoning, try_option. intros H. error_cases H. Qed.

Lemma normalize_model_assignment_points stage role a location e :
  normalize_model_assignment source stage role a location = inr e -> points_at location e.
Proof.
  unfold normalize_model_assignment. intros [H|(id & _ & H)]%let_error.
  { by eapply normalize_model_id_points. }
  apply let_error in H as [H|(label & _ & H)]; [by eapply normalize_reasoning_points|].
  apply let_error in H as [H|(kept & _ & H)]; [|done].
  apply try_fold_error in H as (pre & [i c] & post & [seen kept] & _ & _ & H).
  unfold normalize_candidate in H.
  apply let_error in H as [H|(id' & _ & H)]; [by eapply normalize_model_id_points|].
  apply let_error in H as [H|(label' & _ & H)]; [by eapply normalize_reasoning_points|].
  case_decide; [|done]. by injection H as <-.
Qed.

Lemma validate_model_assignment_points stage role a location e :
  validate_model_assignment source stage role a location = inr e -> points_at location e.
Proof.
  unfold validate_model_assignment. intros [H|(? & _ & H)]%let_error; [|done].
  by eapply normalize_model_assignment_points.
Qed.

Lemma template_points fuel stage inputs location rest e :
  template_loop fuel source stage inputs location rest = inr e -> points_at location e.
Proof.
  revert rest; induction fuel as [|fuel IH]; intros rest; cbn [template_loop].
  { destruct (contains_str _ _); [|done]. by intros [= <-]. }
  destruct (split_str "{{" rest) as [[text after]|].
  2: { destruct (contains_str _ _); [|done]. by intros [= <-]. }
  destruct (split_str "}}" after) as [[inner after_token]|]; [|by intros [= <-]].
  destruct (strip_prefix _ _); [|by intros [= <-]]. destruct (negb _ || _); [by intros [= <-]|apply IH].
Qed.

Lemma validate_mode_points id node inputs location e :
  validate_mode source id node inputs location = inr e -> points_at location e.
Proof.
  unfold validate_mode. intros H. destruct (an_mode node), (an_verify node); try done; try by injection H as <-.
  destruct (_ || _); [by injection H as <-|]. case_decide; [by injection H as <-|].
  by eapply template_points.
Qed.

Lemma validate_actor_points id node location actors e :
  validate_actor source id node location actors = inr e -> points_at location e.
Proof. unfold validate_actor. intros H. error_cases H. Qed.

Lemma ensure_error {E} b (e e' : E) : ensure b e = inr e' -> e' = e.
Proof. destruct b; [done|]. by intros [= <-]. Qed.

Lemma try_option_error {A B E} (f : A -> B + E) x e :
  try_option f x = inr e -> exists a, x = Some a /\ f a = inr e.
Proof. destruct x as [a|]; [|done]. intros [H|(? & _ & H)]%let_error; [eauto|done]. Qed.

Lemma validate_node_points inputs locations actors id node e :
  validate_node source inputs locations actors (id, node) = inr e ->
  points_at (default (mkSourcePoint 2 1) (locations !! id)) e.
Proof.
  unfold validate_node. set (location := default _ _).
  intros [->%ensure_error|(_ & _ & H)]%let_error; [done|].
  apply let_error in H as [->%ensure_error|(_ & _ & H)]; [done|].
  apply let_error in H as [->%ensure_error|(_ & _ & H)]; [done|].
  apply let_error in H as [H|(_ & _ & H)]; [by eapply template_points|].
  apply let_error in H as [(a & _ & H)%try_option_error|(_ & _ & H)].
  { by eapply validate_model_assignment_points. }
  apply let_error in H as [(a & _ & H)%try_option_error|(_ & _ & H)].
  { by eapply validate_model_assignment_points. }
  apply let_error in H as [H|(_ & _ & H)]; [by eapply validate_mode_points|].
  apply let_error in H as [->%ensure_error|(_ & _ & H)]; [done|].
  by eapply validate_actor_points.
Qed.

(** Errors about the author's record point at the second line, or at a node. *)
Lemma validate_author_points author locations e :
  validate_author source author locations = inr e ->
  points_at (mkSourcePoint 2 1) e
  \/ exists id location, locations !! id = Some location /\ points_at location e.
Proof.
  unfold validate_author. intros [->%ensure_error|(_ & _ & H)]%let_error; [by left|].
  apply let_error in H as [->%ensure_error|(_ & _ & H)]; [by left|].
  apply let_error in H as [->%ensure_error|(_ & _ & H)]; [by left|].
  apply let_error in H as [->%ensure_error|(_ & _ & H)]; [by left|].
  apply let_error in H as [(key & _ & ->%ensure_error)%try_each_error|(_ & _ & H)]; [by left|].
  apply let_error in H as [H|(_ & _ & H)]; [|done].
  apply try_fold_error in H as (pre & [id node] & post & actors & _ & _ & H%validate_node_points).
  destruct (locations !! id) as [location|] eqn:El; [right; eauto|by left].
Qed.

(** Errors of normalization point at the first line, at a node or at an edge. *)
Lemma normalize_points `{L : WorkflowLib} author locations graph e :
  normalize source author locations graph = inr e ->
  points_at (mkSourcePoint 1 1) e
  \/ (exists id location, locations !! id = Some location /\ points_at location e)
  \/ (exists id location, pg_node_locations graph !! id = Some location /\ points_at location e)
  \/ exists edge, edge ∈ pg_edges graph
     /\ (points_at (ge_from_location edge) e \/ points_at (ge_to_location edge) e).
Proof.
  assert (forall (m : gmap string SourcePoint) id, points_at (default (mkSourcePoint 1 1) (m !! id)) e ->
    points_at (mkSourcePoint 1 1) e \/ exists id location, m !! id = Some location /\ points_at location e)
    as Hdef.
  { intros m id. destruct (m !! id) eqn:Em; [right; eauto|by left]. }
  unfold normalize. intros [H|(_ & _ & H)]%let_error.
  { unfold check_nodes in H. apply let_error in H as [(id & _ & H)%try_each_error|(_ & _ & H)].
    - destruct (aw_nodes author !! id); [done|]. injection H as <-.
      destruct (Hdef (pg_node_locations graph) id) as [Hp|Hp]; [done|by left|by right; right; left].
    - destruct (find_first _ _) as [id|]; [|done]. injection H as <-.
      destruct (Hdef locations id) as [Hp|Hp]; [done|by left|by right; left]. }
  apply let_error in H as [H|([preds succs] & _ & H)].
  { apply try_fold_error in H as (pre & edge & post & [p s] & Heq & _ & H). do 3 right. exists edge.
    split; [rewrite Heq; set_solver|]. unfold link_edge in H.
    destruct (_ !! ge_from edge); [|injection H as <-; by left].
    destruct (_ !! ge_to edge); [|injection H as <-; by right]. case_decide; [|done].
    injection H as <-. by right. }
  apply let_error in H as [H|(levels & _ & H)].
  { unfold topological_levels in H. case_decide; [|done]. injection H as <-.
    destruct (last (pg_edges graph)) as [edge|] eqn:El; simpl; [|by left]. do 3 right. exists edge.
    split; [by apply last_Some_elem_of|by left]. }
  apply let_error in H as [(level & _ & H)%try_each_error|(_ & _ & H)].
  { unfold check_level_actors in H. apply let_error in H as [H|(_ & _ & H)]; [|done].
    apply try_fold_error in H as (pre & i & post & actors & _ & _ & H). unfold check_actor in H.
    destruct (pg_order graph !! i) as [id|]; [|done]. destruct (_ ≫= an_actor); [|done].
    case_decide; [|done]. injection H as <-.
    destruct (Hdef locations id) as [Hp|Hp]; [done|by left|by right; left]. }
  apply let_error in H as [([i id] & _ & H)%try_map_error|(stages & _ & H)]; [|done].
  unfold build_stage in H. destruct (aw_nodes author !! id) as [node|]; [|injection H as <-; by left].
  assert (points_at (default (mkSourcePoint 1 1) (locations !! id)) e) as Hp;
    [|destruct (Hdef locations id) as [Hq|Hq]; [done|by left|by right; left]].
  apply let_error in H as [(a & _ & H)%try_option_error|(? & _ & H)].
  { by eapply normalize_model_assignment_points. }
  apply let_error in H as [(v & _ & H)%try_option_error|(? & _ & H)]; [|done].
  unfold normalize_verify in H. apply let_error in H as [(a & _ & H)%try_option_error|(? & _ & H)]; [|done].
  by eapply normalize_model_assignment_points.
Qed.
End errors.

(** ** Positions of a document *)

(** A line of the text or the one behind it, and a column of that line or the one behind it. *)
Definition in_document (text : string) (line column : nat) : Prop :=
  1 <= line <= length (lines text) + 1 /\ 1 <= column
  /\ forall raw, lines text !! (line - 1) = Some raw -> column <= String.length raw + 1.

Definition location_in (text : string) (location : SourcePoint) : Prop :=
  in_document text (Nat.max (sp_line location) 1) (Nat.max (sp_column location) 1).

Lemma points_in source text location e :
  points_at source location e -> location_in text location ->
  source_name e = source /\ in_document text (error_line e) (error_column e).
Proof. by intros (-> & -> & ->). Qed.

Lemma first_column_in text line : line <= length (lines text) + 1 -> location_in text (mkSourcePoint line 1).
Proof. unfold location_in, in_document. simpl. intros ?. split; [lia|]. split; [lia|]. intros; lia. Qed.

Lemma leading_count_length c s : leading_count c s <= String.length s.
Proof. induction s; simpl; [lia|]. case_decide; lia. Qed.

Lemma line_in text i raw column :
  lines text !! i = Some raw -> column <= String.length raw + 1 ->
  location_in text (mkSourcePoint (i + 1) column).
Proof.
  intros Hi Hc. pose proof (lookup_lt_Some _ _ _ Hi). unfold location_in, in_document. simpl.
  split; [lia|]. split; [lia|]. intros raw'. replace (_ - 1) with i by lia. intros. simplify_eq. lia.
Qed.

(** A step of the scan keeps every location in place. *)
Lemma scan_line_in source text i raw in_nodes locations :
  lines text !! i = Some raw ->
  (forall id location, locations !! id = Some location -> location_in text location) ->
  match scan_line source (i + 1) raw in_nodes locations with
  | inl None => True
  | inl (Some (_, locations')) =>
      forall id location, locations' !! id = Some location -> location_in text location
  | inr e => exists location, points_at source location e /\ location_in text location
  end.
Proof.
  intros Hi Hl. unfold scan_line. destruct (_ || _); [done|]. destruct (negb in_nodes); [done|].
  case_decide; [done|]. destruct (bool_decide (leading_count " " raw = 2)) eqn:E2; [|done].
  apply bool_decide_eq_true in E2. simpl negb. cbn [orb]. destruct (negb _); [done|].
  pose proof (leading_count_length " " raw) as Hlen.
  assert (location_in text (mkSourcePoint (i + 1) 3)) as Hloc by (apply (line_in text i raw); [done|lia]).
  destruct (locations !! _) eqn:Ei; [by eexists|].
  intros id location [[<- <-]|[_ Hx]]%lookup_insert_Some; [done|eauto].
Qed.

Lemma scan_lines_in source text pre block post in_nodes locations :
  lines text = pre ++ block ++ post ->
  (forall id location, locations !! id = Some location -> location_in text location) ->
  match scan_lines source (length pre + 1) block in_nodes locations with
  | inl locations' => forall id location, locations' !! id = Some location -> location_in text location
  | inr e => exists location, points_at source location e /\ location_in text location
  end.
Proof.
  revert pre in_nodes locations; induction block as [|raw block IH]; intros pre in_nodes locations Heq Hl;
    cbn [scan_lines]; [done|].
  assert (lines text !! length pre = Some raw) as Hi by (rewrite Heq; by apply list_lookup_middle).
  pose proof (scan_line_in source text (length pre) raw in_nodes locations Hi Hl) as Hstep.
  destruct (scan_line _ _ _ _ _) as [[[b l]|]|e]; [|done|done].
  replace (S (length pre + 1)) with (length (pre ++ [raw]) + 1) by (rewrite length_app; simpl; lia).
  apply IH; [|done]. by rewrite <- app_assoc.
Qed.

Lemma in_lines_in text first rest location :
  lines text = take first (lines text) ++ rest -> first <= length (lines text) ->
  in_lines (first + 1) rest location -> location_in text location.
Proof.
  intros Heq Hfirst (i & raw & Hi & Hline & Hcol). destruct location as [line column]. simpl in *.
  replace line with (first + i + 1) by lia. apply (line_in text _ raw); [|lia].
  rewrite Heq, lookup_app_r by (rewrite length_take; lia). rewrite length_take_le by done.
  by replace (first + i - first) with i by lia.
Qed.

Lemma compile_error_cases `{L : WorkflowLib} source text e :
  compile_source source text = inr e -> exists location, points_at source location e /\ location_in text location.
Proof.
  unfold compile_source. intros [H|([front start] & Hs & H)]%let_error.
  { unfold split_frontmatter in H. exists (mkSourcePoint 1 1). split; [|apply first_column_in; lia].
    case_decide; [by injection H as <-|]. destruct (position _ _); [done|]. by injection H as <-. }
  apply split_frontmatter_ok in Hs as (op & block & cl & rest & Hl & _ & _ & _ & -> & ->).
  assert (take (length block + 2 - 2) (tail (lines text)) = block) as Et.
  { rewrite Hl. simpl. rewrite Nat.add_sub. apply take_app_length. }
  assert (drop (length block + 2) (lines text) = rest) as Ed.
  { rewrite Hl, Nat.add_comm. simpl. apply drop_S_middle. }
  assert (length (lines text) = length block + 2 + length rest) as Hlen.
  { rewrite Hl. simpl. rewrite length_app. simpl. lia. }
  rewrite Et, Ed in H.
  pose proof (scan_lines_in source text [op] block (cl :: rest) false ∅ Hl
    (fun id location Hno => match lookup_empty_Some _ _ Hno with end)) as Hscan.
  change (length [op] + 1) with 2 in Hscan. fold (scan_frontmatter_nodes source block 2) in Hscan.
  destruct (scan_frontmatter_nodes source block 2) as [locations|e1]; [|by injection H as <-].
  apply let_error in H as [H|(author & _ & H)].
  { exists (mkSourcePoint 2 1). split; [|apply first_column_in; lia].
    destruct (yaml_from_str _); [done|]. by injection H as <-. }
  apply let_error in H as [[?|(id & location & Hid & ?)]%validate_author_points|(_ & _ & H)].
  { exists (mkSourcePoint 2 1). split; [done|apply first_column_in; lia]. }
  { eauto. }
  assert (forall location, in_lines (length block + 2 + 1) rest location -> location_in text location) as Hin.
  { intros location. apply in_lines_in; [|lia]. rewrite <- Ed. symmetry. apply take_drop. }
  apply let_error in H as [H|(graph & Hg & H)].
  { apply parse_graph_error in H as (location & message & -> & Hloc). exists location. split; [done|].
    destruct Hloc as [?| ->]; [auto|apply first_column_in; lia]. }
  apply parse_graph_ok in Hg as (? & ? & ? & _ & _ & _ & _ & _ & _ & _ & Hinv).
  apply normalize_points in H as [?|[(id & location & Hid & ?)|[(id & location & Hid & ?)|(edge & He & Hp)]]].
  - exists (mkSourcePoint 1 1). split; [done|apply first_column_in; lia].
  - eauto.
  - exists location. split; [done|]. by eapply Hin, (gi_located _ _ Hinv).
  - destruct (gi_edge_located _ _ Hinv edge He) as [? ?]. destruct Hp; eauto.
Qed.

(** every compilation error points into its document.  It carries the display name of the source,
    a one-based line that exists or is the one behind the last, and a one-based column of that line
    or the one behind it. *)
Theorem compile_error_located `{L : WorkflowLib} source text e :
  compile_source source text = inr e ->
  source_name e = source
  /\ 1 <= error_line e <= length (lines text) + 1
  /\ 1 <= error_column e
  /\ forall raw, lines text !! (error_line e - 1) = Some raw -> error_column e <= String.length raw + 1.
Proof. intros (location & Hp & Hin)%compile_error_cases. by eapply points_in. Qed.

Lemma compile_error_located_witness :
  let e := error_at validation_error "ship.md" (mkSourcePoint 19 1) "Workflow graph contains a cycle" in
  compile_source (L := WorkflowDemo.lib) "ship.md" WorkflowDemo.cyclic = inr e
  /\ 1 <= error_line e <= 20.
Proof.
  cbv zeta. assert (H : compile_source (L := WorkflowDemo.lib) "ship.md" WorkflowDemo.cyclic
    = inr (error_at validation_error "ship.md" (mkSourcePoint 19 1) "Workflow graph contains a cycle"))
    by (vm_compute; reflexivity).
  split; [exact H|].
  exact (proj1 (proj2 (compile_error_located (L := WorkflowDemo.lib) _ _ _ H))).
Defined.
