(* ===== verification/RenderSpec.v ===== *)
(** * What rendering guarantees ([render_stage], [hya-workflow/src/render.rs])

    A stage of a compiled Workflow always renders once its predecessors have evidence, each
    placeholder replaced by its input, and a predecessor's output stays inside its element. *)

From stdpp Require Import sorting pretty.
From S2P Require Import Prelude Result RustStr Text WfModel Compiler GraphSpec Render NormalizeSpec AuthorSpec CompileSpec CompilerSpec.

(** ** Text of predecessors *)

(** The escaped text of a byte, and reading it back. *)
Definition escape_byte (c : ascii) : string :=
  if decide (c = "&"%char) then "&amp;"
  else if decide (c = "<"%char) then "&lt;"
  else if decide (c = ">"%char) then "&gt;"
  else String c EmptyString.
Fixpoint escape (value : string) : string :=
  match value with EmptyString => EmptyString | String c value => escape_byte c +:+ escape value end.

Fixpoint unescape (fuel : nat) (text : string) : string :=
  match fuel, text with
  | S fuel, String c text' =>
      match strip_prefix "&amp;" text, strip_prefix "&lt;" text, strip_prefix "&gt;" text with
      | Some rest, _, _ => String "&" (unescape fuel rest)
      | _, Some rest, _ => String "<" (unescape fuel rest)
      | _, _, Some rest => String ">" (unescape fuel rest)
      | _, _, _ => String c (unescape fuel text')
      end
  | _, _ => EmptyString
  end.

Lemma push_xml_text_escape target value : push_xml_text target value = target +:+ escape value.
Proof.
  revert target; induction value as [|c value IH]; intros target; simpl; [by rewrite app_nil_r_str|].
  fold (escape_byte c). by rewrite IH, app_assoc_str.
Qed.

Lemma escape_no_markup value : contains "<" (escape value) = false /\ contains ">" (escape value) = false.
Proof.
  induction value as [|c value [IH1 IH2]]; [done|]. cbn [escape]. rewrite !contains_app, IH1, IH2.
  unfold escape_byte. repeat case_decide; try done. simpl.
  rewrite !bool_decide_eq_false_2 by done. done.
Qed.

Lemma unescape_escape fuel value : String.length value <= fuel -> unescape fuel (escape value) = value.
Proof.
  revert fuel; induction value as [|c value IH]; intros [|fuel] Hf; simpl in Hf; try done; [lia|].
  cbn [escape]. unfold escape_byte. repeat case_decide; subst.
  - cbn [String.append unescape]. change (String "&" (String "a" (String "m" (String "p" (String ";" (escape value))))))
      with ("&amp;" +:+ escape value). rewrite strip_prefix_app. f_equal. apply IH. lia.
  - cbn -[escape]. f_equal. apply IH. lia.
  - cbn -[escape]. f_equal. apply IH. lia.
  - cbn [String.append unescape]. cbn [strip_prefix]. rewrite !decide_False by congruence. f_equal. apply IH. lia.
Qed.

Lemma floor_boundary_spec value limit :
  floor_boundary value limit <= limit /\ is_char_boundary value (floor_boundary value limit) = true
  /\ forall n, n <= limit -> is_char_boundary value n = true -> n <= floor_boundary value limit.
Proof.
  induction limit as [|limit (IH1 & IH2 & IH3)]; cbn [floor_boundary].
  { split; [done|]. split; [by destruct value|done]. }
  destruct (is_char_boundary value (S limit)) eqn:E; [done|]. split; [lia|]. split; [done|].
  intros n Hn Hb. destruct (decide (n = S limit)) as [->|]; [congruence|]. apply IH3; [lia|done].
Qed.

Lemma is_char_boundary_length value : is_char_boundary value (String.length value) = true.
Proof.
  induction value as [|c value IH]; [done|]. simpl. destruct value as [|d value]; [done|]. exact IH.
Qed.

Lemma is_char_boundary_le value n : is_char_boundary value n = true -> n <= String.length value.
Proof.
  revert n; induction value as [|c value IH]; intros [|[|n]] Hb; simpl in *; try done; try lia.
  apply le_n_S. by apply IH.
Qed.

(** a predecessor's output cannot leave its element.  What is appended is the longest prefix of whole
    characters within the byte cap, the whole output when it fits, escaped so that it holds no angle
    bracket and reads back as that prefix. *)
Theorem evidence_text_exact target output limit :
  exists kept rest, output = kept +:+ rest
    /\ truncate_utf8 output limit = kept
    /\ String.length kept <= limit
    /\ (String.length output <= limit -> kept = output)
    /\ is_char_boundary output (String.length kept) = true
    /\ (forall n, n <= limit -> is_char_boundary output n = true -> n <= String.length kept)
    /\ exists text, push_xml_text target (truncate_utf8 output limit) = target +:+ text
       /\ contains "<" text = false /\ contains ">" text = false
       /\ unescape (String.length kept) text = kept.
Proof.
  destruct (floor_boundary_spec output limit) as (H1 & H2 & H3).
  assert (exists text, push_xml_text target (truncate_utf8 output limit) = target +:+ text
    /\ contains "<" text = false /\ contains ">" text = false
    /\ unescape (String.length (truncate_utf8 output limit)) text = truncate_utf8 output limit) as Htext.
  { exists (escape (truncate_utf8 output limit)). split; [apply push_xml_text_escape|].
    destruct (escape_no_markup (truncate_utf8 output limit)) as [??]. repeat (split; [done|]).
    by apply unescape_escape. }
  unfold truncate_utf8 in *. case_decide as Hfit.
  - exists output, EmptyString. rewrite app_nil_r_str. repeat (split; [done|]).
    split; [apply is_char_boundary_length|]. split; [|done]. intros n _. apply is_char_boundary_le.
  - destruct (str_take_app (floor_boundary output limit) output) as [rest Hrest].
    assert (String.length (str_take (floor_boundary output limit) output) = floor_boundary output limit) as Hlen.
    { rewrite length_str_take. lia. }
    exists (str_take (floor_boundary output limit) output), rest. rewrite Hlen in *.
    split; [done|]. split; [done|]. split; [done|]. split; [by intros ?|]. done.
Qed.

(** ** Inputs *)

Definition same_keys (declared inputs : gmap string string) : Prop :=
  forall key, is_Some (declared !! key) <-> is_Some (inputs !! key).

Lemma validate_inputs_cases cw inputs :
  match validate_inputs cw inputs with
  | inl _ => same_keys (wd_inputs (cw_definition cw)) inputs
  | inr (WorkflowRenderError.MissingInput key) =>
      is_Some (wd_inputs (cw_definition cw) !! key) /\ inputs !! key = None
  | inr (WorkflowRenderError.UnknownInput key) =>
      (forall k, is_Some (wd_inputs (cw_definition cw) !! k) -> is_Some (inputs !! k))
      /\ is_Some (inputs !! key) /\ wd_inputs (cw_definition cw) !! key = None
  | inr _ => False
  end.
Proof.
  unfold validate_inputs. set (declared := wd_inputs _).
  destruct (find_first _ (btree_keys declared)) as [key|] eqn:E1.
  { by apply find_first_Some in E1 as [?%btree_keys_elem ?]. }
  assert (forall k, is_Some (declared !! k) -> is_Some (inputs !! k)) as Hall.
  { apply find_first_None in E1. rewrite Forall_forall in E1. intros k Hk%btree_keys_elem.
    apply not_eq_None_Some. by apply E1. }
  destruct (find_first _ (btree_keys inputs)) as [key|] eqn:E2.
  { by apply find_first_Some in E2 as [?%btree_keys_elem ?]. }
  apply find_first_None in E2. rewrite Forall_forall in E2. intros k. split; [apply Hall|].
  intros Hk%btree_keys_elem. apply not_eq_None_Some. by apply E2.
Qed.

Lemma validate_inputs_same cw inputs :
  same_keys (wd_inputs (cw_definition cw)) inputs -> validate_inputs cw inputs = inl tt.
Proof.
  intros Hsame. pose proof (validate_inputs_cases cw inputs) as Hc.
  destruct (validate_inputs cw inputs) as [[]|[key|key|?|? ?|?]]; try done.
  - destruct Hc as [Hd Hn]. apply Hsame in Hd. rewrite Hn in Hd. by destruct Hd.
  - destruct Hc as (_ & Hi & Hn). apply Hsame in Hi. rewrite Hn in Hi. by destruct Hi.
Qed.

(** ** Upstream blocks *)

(** The longest prefix of whole characters within the byte cap. *)
Record kept_of (output kept : string) : Prop := {
  ko_prefix : exists rest, output = kept +:+ rest;
  ko_cap : String.length kept <= MAX_PREDECESSOR_OUTPUT_BYTES;
  ko_boundary : is_char_boundary output (String.length kept) = true;
  ko_longest : forall n, n <= MAX_PREDECESSOR_OUTPUT_BYTES -> is_char_boundary output n = true -> n <= String.length kept;
}.

Lemma kept_unique output kept kept' : kept_of output kept -> kept_of output kept' -> kept = kept'.
Proof.
  intros [[rest Hp] Hc Hb Hl] [[rest' Hp'] Hc' Hb' Hl']. specialize (Hl _ Hc' Hb'). specialize (Hl' _ Hc Hb).
  rewrite Hp in Hp'. apply string_app_inj_length in Hp' as [Heq _]; [done|lia].
Qed.

Lemma truncate_kept output : kept_of output (truncate_utf8 output MAX_PREDECESSOR_OUTPUT_BYTES).
Proof.
  destruct (evidence_text_exact EmptyString output MAX_PREDECESSOR_OUTPUT_BYTES) as (kept & rest & Ho & -> & H1 & _ & H2 & H3 & _).
  split; [by exists rest|done..].
Qed.

(** A predecessor's element. *)
Definition element (predecessor : WorkflowStage) (item : StageEvidence) (text : string) : Prop :=
  exists kept, kept_of (se_output item) kept
    /\ text = String.concat EmptyString
         ["<stage id="; QUOTE; st_id predecessor; QUOTE; " agent="; QUOTE; st_agent predecessor; QUOTE;
          " status="; QUOTE; StageEvidenceStatus.as_str (se_status item); QUOTE; ">"; NEWLINE;
          escape kept; NEWLINE; "</stage>"; NEWLINE].

Definition stage_element (predecessor : WorkflowStage) (item : StageEvidence) : string :=
  push_stage EmptyString predecessor item.

Lemma element_spec predecessor item text : element predecessor item text <-> text = stage_element predecessor item.
Proof.
  assert (forall kept, kept = truncate_utf8 (se_output item) MAX_PREDECESSOR_OUTPUT_BYTES ->
    String.concat EmptyString
      ["<stage id="; QUOTE; st_id predecessor; QUOTE; " agent="; QUOTE; st_agent predecessor; QUOTE;
       " status="; QUOTE; StageEvidenceStatus.as_str (se_status item); QUOTE; ">"; NEWLINE;
       escape kept; NEWLINE; "</stage>"; NEWLINE] = stage_element predecessor item) as Htext.
  { intros kept ->. unfold stage_element, push_stage. rewrite push_xml_text_escape. cbn [String.concat]. rewrite <- !app_assoc_str.
    reflexivity. }
  split.
  - intros (kept & Hk & ->). apply Htext. eapply kept_unique; [exact Hk|apply truncate_kept].
  - intros ->. eexists. split; [apply truncate_kept|]. symmetry. by apply Htext.
Qed.

Lemma push_stage_app directive predecessor item :
  push_stage directive predecessor item = directive +:+ stage_element predecessor item.
Proof. unfold stage_element, push_stage. by rewrite !push_xml_text_escape, <- !app_assoc_str. Qed.

Lemma push_predecessors_all stages evidence directive indices items :
  Forall2 (fun u x => stages !! u = Some x.1 /\ evidence !! u = Some (Some x.2)) indices items ->
  push_predecessors stages evidence directive indices
  = Some (inl (directive +:+ String.concat EmptyString ((fun x => stage_element x.1 x.2) <$> items))).
Proof.
  intros Hall. revert directive. induction Hall as [|u [p item] indices items [Hp Hi] _ IH]; intros directive.
  { simpl. by rewrite app_nil_r_str. }
  cbn [push_predecessors]. rewrite Hp, Hi. cbn [mbind option_bind]. rewrite IH, push_stage_app, fmap_cons.
  rewrite <- app_assoc_str. simpl. do 3 f_equal. destruct (_ <$> items); simpl; [by rewrite app_nil_r_str|done].
Qed.

Lemma push_predecessors_missing stages evidence directive indices before u p after :
  indices = before ++ u :: after -> stages !! u = Some p -> evidence !! u = Some None ->
  Forall (fun v => is_Some (stages !! v) /\ exists item, evidence !! v = Some (Some item)) before ->
  push_predecessors stages evidence directive indices
  = Some (inr (WorkflowRenderError.MissingPredecessorEvidence (st_id p))).
Proof.
  intros -> Hp Hu Hall. revert directive.
  induction Hall as [|v before [[q Hq] [item Hitem]] _ IH]; intros directive; cbn [app push_predecessors].
  - by rewrite Hp, Hu.
  - rewrite Hq, Hitem. cbn [mbind option_bind]. apply IH.
Qed.

(** ** Stages *)

Definition upstream (items : list (WorkflowStage * StageEvidence)) : string :=
  match items with
  | [] => EmptyString
  | _ => UPSTREAM_OPEN +:+ String.concat EmptyString ((fun x => stage_element x.1 x.2) <$> items)
         +:+ UPSTREAM_CLOSE
  end.

(** A template of the compiled Workflow, filled. *)
Definition filled (declared inputs : gmap string string) (template text : string) : Prop :=
  exists segments, reads declared template segments /\ text = fill inputs segments.

(** The answers of rendering, in the order of the checks.  Keys are compared in the order of the map, predecessors in compiled order. *)
Inductive render_outcome (cw : CompiledWorkflow) (index : nat) (inputs : gmap string string) (evidence : list (option StageEvidence)) :
    RenderedStage + WorkflowRenderError.t -> Prop :=
  | outcome_missing_input before key after :
      btree_keys (wd_inputs (cw_definition cw)) = before ++ key :: after -> inputs !! key = None ->
      (forall k, k ∈ before -> is_Some (inputs !! k)) ->
      render_outcome cw index inputs evidence (inr (WorkflowRenderError.MissingInput key))
  | outcome_unknown_input before key after :
      (forall k, is_Some (wd_inputs (cw_definition cw) !! k) -> is_Some (inputs !! k)) ->
      btree_keys inputs = before ++ key :: after -> wd_inputs (cw_definition cw) !! key = None ->
      (forall k, k ∈ before -> is_Some (wd_inputs (cw_definition cw) !! k)) ->
      render_outcome cw index inputs evidence (inr (WorkflowRenderError.UnknownInput key))
  | outcome_index :
      same_keys (wd_inputs (cw_definition cw)) inputs -> length (plan_stages (cw_plan cw)) <= index ->
      render_outcome cw index inputs evidence (inr (WorkflowRenderError.UnknownStageIndex index))
  | outcome_shape :
      same_keys (wd_inputs (cw_definition cw)) inputs -> index < length (plan_stages (cw_plan cw)) ->
      length evidence <> length (plan_stages (cw_plan cw)) ->
      render_outcome cw index inputs evidence
        (inr (WorkflowRenderError.EvidenceShape (length evidence) (length (plan_stages (cw_plan cw)))))
  | outcome_missing_evidence stage before u predecessor after :
      same_keys (wd_inputs (cw_definition cw)) inputs -> length evidence = length (plan_stages (cw_plan cw)) ->
      plan_stages (cw_plan cw) !! index = Some stage -> st_predecessor_indices stage = before ++ u :: after ->
      plan_stages (cw_plan cw) !! u = Some predecessor -> evidence !! u = Some None ->
      (forall v, v ∈ before -> exists item, evidence !! v = Some (Some item)) ->
      render_outcome cw index inputs evidence (inr (WorkflowRenderError.MissingPredecessorEvidence (st_id predecessor)))
  | outcome_rendered stage body (items : list (WorkflowStage * StageEvidence)) elements condition :
      same_keys (wd_inputs (cw_definition cw)) inputs -> length evidence = length (plan_stages (cw_plan cw)) ->
      plan_stages (cw_plan cw) !! index = Some stage ->
      filled (wd_inputs (cw_definition cw)) inputs (st_directive stage) body ->
      Forall2 (fun u x => plan_stages (cw_plan cw) !! u = Some x.1 /\ evidence !! u = Some (Some x.2))
        (st_predecessor_indices stage) items ->
      Forall2 (fun x text => element x.1 x.2 text) items elements ->
      option_Forall2 (fun verify text => filled (wd_inputs (cw_definition cw)) inputs (vs_until verify) text) (st_verify stage) condition ->
      render_outcome cw index inputs evidence (inl (mkRenderedStage
        (body +:+ match elements with
                  | [] => EmptyString
                  | _ => NEWLINE +:+ NEWLINE +:+ "<workflow-upstream>" +:+ NEWLINE
                         +:+ String.concat EmptyString elements +:+ "</workflow-upstream>"
                  end)
        (String.concat NEWLINE
          ["<workflow-context>"; "workflow: " +:+ wd_name (cw_definition cw); "stage: " +:+ st_id stage;
           "level: " +:+ pretty (st_level stage); "</workflow-context>"])
        condition)).

Section stage.
Context (cw : CompiledWorkflow) (Hwf : workflow_wf cw).
Abbreviation stages := (plan_stages (cw_plan cw)).

Lemma stage_filled inputs stage : stage ∈ stages ->
  filled (wd_inputs (cw_definition cw)) inputs (st_directive stage)
    (interpolate_inputs (st_directive stage) inputs).
Proof.
  intros Hin. destruct (ww_valid _ Hwf stage Hin) as (_ & _ & [segments Hr] & _).
  exists segments. split; [done|]. by apply (interpolate_reads (wd_inputs (cw_definition cw))).
Qed.

Lemma condition_filled inputs stage : stage ∈ stages ->
  option_Forall2 (fun verify text => filled (wd_inputs (cw_definition cw)) inputs (vs_until verify) text)
    (st_verify stage) ((fun verify => interpolate_inputs (vs_until verify) inputs) <$> st_verify stage).
Proof.
  intros Hin. destruct (ww_valid _ Hwf stage Hin) as (_ & _ & _ & Hmode & _).
  destruct (st_verify stage) as [v|]; simpl; [|constructor]. constructor.
  unfold mode_ok in Hmode. destruct (st_mode stage); [done|]. destruct Hmode as (_ & _ & _ & segments & Hr).
  exists segments. split; [done|]. by apply (interpolate_reads (wd_inputs (cw_definition cw))).
Qed.

(** Either every predecessor has evidence, or there is a first one without. *)
Lemma evidence_cases evidence indices preds :
  Forall2 (fun u p => stages !! u = Some p) indices preds -> length evidence = length stages ->
  (exists items : list (WorkflowStage * StageEvidence),
     Forall2 (fun u x => stages !! u = Some x.1 /\ evidence !! u = Some (Some x.2)) indices items)
  \/ exists before u p after, indices = before ++ u :: after /\ stages !! u = Some p
     /\ evidence !! u = Some None
     /\ Forall (fun v => is_Some (stages !! v) /\ exists item, evidence !! v = Some (Some item)) before.
Proof.
  intros Hall Hlen. induction Hall as [|u p indices preds Hu _ IH]; [left; by exists []|].
  destruct (lookup_lt_is_Some_2 evidence u) as [[item|] He].
  { rewrite Hlen. by eapply lookup_lt_Some. }
  - destruct IH as [[items IH]|(before & v & q & after & -> & Hq & Hv & Hb)].
    + left. exists ((p, item) :: items). by constructor.
    + right. exists (u :: before), v, q, after. repeat (split; [done|]). constructor; [|done]. eauto.
  - right. exists [], u, p, indices. by repeat split.
Qed.

Lemma upstream_items stage (items : list (WorkflowStage * StageEvidence)) evidence directive :
  Forall2 (fun u x => stages !! u = Some x.1 /\ evidence !! u = Some (Some x.2))
    (st_predecessor_indices stage) items ->
  (if decide (st_predecessor_indices stage = []) then Some (inl directive)
   else pushed ← push_predecessors stages evidence (directive +:+ UPSTREAM_OPEN)
                   (st_predecessor_indices stage);
        Some (let? directive := pushed in inl (directive +:+ UPSTREAM_CLOSE))
   : option (string + WorkflowRenderError.t))
  = Some (inl (directive +:+ upstream items)).
Proof.
  intros Hall. case_decide as Hn.
  - rewrite Hn in Hall. apply Forall2_nil_inv_l in Hall as ->. simpl. by rewrite app_nil_r_str.
  - rewrite (push_predecessors_all _ _ _ _ _ Hall). simpl. destruct items as [|x items].
    { by apply Forall2_nil_inv_r in Hall. }
    unfold upstream. by rewrite !app_assoc_str.
Qed.

Lemma outcome_exists index inputs evidence : exists r, render_outcome cw index inputs evidence r.
Proof.
  set (declared := wd_inputs (cw_definition cw)).
  destruct (find_first (fun key => inputs !! key = None) (btree_keys declared)) as [key|] eqn:E1.
  { apply find_first_split in E1 as (l1 & l2 & Hl & Hk & Hno). eexists. eapply outcome_missing_input; [exact Hl|exact Hk|].
    intros k Hin. by apply not_eq_None_Some, Hno. }
  assert (forall k, is_Some (declared !! k) -> is_Some (inputs !! k)) as Hall.
  { apply find_first_None in E1. rewrite Forall_forall in E1. intros k Hk%btree_keys_elem. by apply not_eq_None_Some, E1. }
  destruct (find_first (fun key => declared !! key = None) (btree_keys inputs)) as [key|] eqn:E2.
  { apply find_first_split in E2 as (l1 & l2 & Hl & Hk & Hno). eexists. eapply outcome_unknown_input; [exact Hall|exact Hl|exact Hk|].
    intros k Hin. by apply not_eq_None_Some, Hno. }
  assert (same_keys declared inputs) as Hsame.
  { intros k. split; [apply Hall|]. apply find_first_None in E2. rewrite Forall_forall in E2. intros Hk%btree_keys_elem.
    by apply not_eq_None_Some, E2. }
  destruct (stages !! index) as [stage|] eqn:Hi; [|eexists; apply outcome_index; [done|by apply lookup_ge_None in Hi]].
  destruct (decide (length evidence = length stages)) as [Hlen|Hlen];
    [|eexists; apply outcome_shape; [done|by eapply lookup_lt_Some|done]].
  pose proof (list_elem_of_lookup_2 _ _ _ Hi) as Hin. destruct (ww_predecessors _ Hwf stage Hin) as (_ & preds & Hpreds & _).
  destruct (evidence_cases evidence _ _ Hpreds Hlen) as [[items Hitems]|(before & u & p & after & Heq & Hp & Hu & Hb)].
  - eexists. eapply (outcome_rendered _ _ _ _ stage _ items ((fun x => stage_element x.1 x.2) <$> items)); [done..| | | |].
    + by apply stage_filled.
    + done.
    + apply Forall2_fmap_r, Forall_Forall2_diag, Forall_true. intros x. by apply element_spec.
    + by apply condition_filled.
  - eexists. eapply outcome_missing_evidence; [done..|]. rewrite Forall_forall in Hb. intros v Hv. by destruct (Hb v Hv).
Qed.

Lemma filled_interpolate inputs template text :
  filled (wd_inputs (cw_definition cw)) inputs template text -> text = interpolate_inputs template inputs.
Proof. intros (segments & Hr & ->). symmetry. by apply (interpolate_reads (wd_inputs (cw_definition cw))). Qed.

Lemma elements_texts (items : list (WorkflowStage * StageEvidence)) elements :
  Forall2 (fun x text => element x.1 x.2 text) items elements -> elements = (fun x => stage_element x.1 x.2) <$> items.
Proof. induction 1 as [|x text items elements Hx _ ->]; [done|]. simpl. f_equal. by apply element_spec. Qed.

Lemma outcome_renders index inputs evidence r :
  render_outcome cw index inputs evidence r -> render_stage cw index inputs evidence = Some r.
Proof.
  intros Hr. unfold render_stage. destruct Hr as [before key after Hk Hn Hb|before key after Hall Hk Hn Hb|Hsame Hi|Hsame Hi Hlen
    |stage before u p after Hsame Hlen Hi Hpreds Hp Hu Hb|stage body items elements condition Hsame Hlen Hi Hbody Hitems Hels Hcond].
  - unfold validate_inputs. rewrite (proj2 (find_first_split _ _ key)); [done|]. exists before, after. split_and!; [done..|].
    intros k Hin%Hb. by rewrite <- not_eq_None_Some in Hin.
  - unfold validate_inputs. rewrite (proj2 (find_first_None _ _)).
    2: { apply Forall_forall. intros k Hin%btree_keys_elem%Hall. by rewrite <- not_eq_None_Some in Hin. }
    rewrite (proj2 (find_first_split _ _ key)); [done|]. exists before, after. split_and!; [done..|].
    intros k Hin%Hb. by rewrite <- not_eq_None_Some in Hin.
  - by rewrite validate_inputs_same, (proj2 (lookup_ge_None _ _)) by done.
  - rewrite validate_inputs_same by done. apply lookup_lt_is_Some in Hi as [stage ->]. by rewrite decide_True.
  - rewrite validate_inputs_same, Hi, decide_False by (done || by intros ?).
    rewrite decide_False by (rewrite Hpreds; by destruct before).
    rewrite (push_predecessors_missing _ _ _ _ before u p after Hpreds Hp Hu); [done|]. apply Forall_forall. intros v Hv.
    split; [|by apply Hb]. destruct (Hb v Hv) as [item Hv']. apply lookup_lt_is_Some. rewrite <- Hlen. by eapply lookup_lt_Some.
  - rewrite validate_inputs_same, Hi, decide_False by (done || by intros ?). rewrite (upstream_items _ _ _ _ Hitems). cbn [mbind option_bind].
    apply filled_interpolate in Hbody as ->. apply elements_texts in Hels as ->. apply (f_equal Some), (f_equal inl). f_equal.
    + unfold upstream, UPSTREAM_OPEN, UPSTREAM_CLOSE. destruct items; [done|]. rewrite fmap_cons, <- !app_assoc_str. done.
    + destruct Hcond as [verify text Hf|]; [|done]. simpl. by rewrite (filled_interpolate _ _ _ Hf).
Qed.

Lemma render_outcome_iff index inputs evidence r :
  render_stage cw index inputs evidence = Some r <-> render_outcome cw index inputs evidence r.
Proof.
  split; [|apply outcome_renders]. destruct (outcome_exists index inputs evidence) as [r' Hr'].
  intros Hr. by rewrite (outcome_renders _ _ _ _ Hr') in Hr; injection Hr as <-.
Qed.

Lemma render_stage_runs index inputs evidence :
  same_keys (wd_inputs (cw_definition cw)) inputs -> length evidence = length stages ->
  forall stage, stages !! index = Some stage ->
  (forall u, u ∈ st_predecessor_indices stage -> evidence !! u <> Some None) ->
  exists r, render_stage cw index inputs evidence = Some (inl r).
Proof.
  intros Hsame Hlen stage Hi Hev. destruct (outcome_exists index inputs evidence) as [r Hr].
  rewrite (outcome_renders _ _ _ _ Hr). destruct Hr as [before key after Hk Hn _|before key after Hall Hk Hn _|_ Hi'|_ _ Hlen'
    |stage' before u p after _ _ Hi' Hpreds Hp Hu _|]; [exfalso..|by eexists].
  - assert (is_Some (inputs !! key)) as [? ?]; [|congruence]. apply Hsame, btree_keys_elem. rewrite Hk. set_solver.
  - assert (is_Some (wd_inputs (cw_definition cw) !! key)) as [? ?]; [|congruence]. apply Hsame, btree_keys_elem. rewrite Hk. set_solver.
  - apply lookup_lt_Some in Hi. lia.
  - done.
  - simplify_eq. apply (Hev u); [rewrite Hpreds; set_solver|done].
Qed.
End stage.

(** C29: rendering a stage of a compiled Workflow never panics, and its answer is exactly the one of the first check that fails, or the
    rendered stage.  First the inputs: the first declared key without a value, then the first key that is not declared; then the index;
    then the length of the evidence; then the first direct predecessor, in compiled order, without evidence.  When all
    is there the directive is the template with each placeholder replaced by its value (values are not scanned
    again), followed by one element per predecessor in compiled order, with its output cut to whole characters within the cap
    and escaped; the system context names Workflow, stage and level, and the condition of a loop is filled the same way. *)
Theorem render_stage_exact `{L : WorkflowLib} source text cw index inputs evidence :
  compile_source source text = inl cw ->
  (exists r, render_outcome cw index inputs evidence r)
  /\ forall r, render_stage cw index inputs evidence = Some r <-> render_outcome cw index inputs evidence r.
Proof.
  intros Hwf%compile_wf. split; [by apply outcome_exists|]. intros r. by apply render_outcome_iff.
Qed.

Lemma demo_compiled : compile_source (L := WorkflowDemo.lib) "ship.md" WorkflowDemo.text = inl WorkflowDemo.workflow.
Proof. vm_compute. reflexivity. Qed.

Lemma demo_inputs : same_keys (wd_inputs (cw_definition WorkflowDemo.workflow)) WorkflowDemo.inputs.
Proof.
  assert (wd_inputs (cw_definition WorkflowDemo.workflow) = {[ "topic" := "what to ship" ]}) as ->
    by (vm_compute; reflexivity).
  intros key. unfold WorkflowDemo.inputs.
  split; intros [x [<- _]%lookup_singleton_Some]; rewrite lookup_singleton_eq; eauto.
Qed.

Definition demo_build : WorkflowStage :=
  nth 1 (plan_stages (cw_plan WorkflowDemo.workflow))
    (mkWorkflowStage "" None "" "" 0 Once None None None []).

Lemma render_stage_exact_witness :
  compile_source (L := WorkflowDemo.lib) "ship.md" WorkflowDemo.text = inl WorkflowDemo.workflow
  /\ exists r, render_stage WorkflowDemo.workflow 1 WorkflowDemo.inputs WorkflowDemo.evidence = Some (inl r)
       /\ render_outcome WorkflowDemo.workflow 1 WorkflowDemo.inputs WorkflowDemo.evidence (inl r).
Proof.
  split; [exact demo_compiled|].
  pose proof (render_stage_exact (L := WorkflowDemo.lib) "ship.md" WorkflowDemo.text
    WorkflowDemo.workflow 1 WorkflowDemo.inputs WorkflowDemo.evidence demo_compiled) as [_ H].
  destruct (render_stage WorkflowDemo.workflow 1 WorkflowDemo.inputs WorkflowDemo.evidence) as [[r|e]|] eqn:E.
  - exists r. split; [reflexivity|]. by apply H.
  - exfalso. revert E. vm_compute. discriminate.
  - exfalso. revert E. vm_compute. discriminate.
Defined.
