(* ===== verification/Revision.v ===== *)
(** * The canonical revision ([canonical_revision], [hya-workflow/src/compiler.rs])

    The hashed bytes determine the Workflow: definition, stages, model routes and levels. *)

From stdpp Require Import sorting.
From S2P Require Import Prelude Result RustStr Text WfModel Compiler Levels GraphSpec Render NormalizeSpec AuthorSpec CompileSpec CompilerSpec.

(** ** Sizes

    A [usize] hashed as 64 bits is exact up to [u64::MAX], which every length is on the platforms
    Rust has. *)
Definition fits64 (n : nat) : Prop := (N.of_nat n <= u64_max)%N.
Definition str_fits (s : string) : Prop := fits64 (String.length s).
Definition opt_fits {A} (P : A -> Prop) (x : option A) : Prop := forall y, x = Some y -> P y.
Definition list_fits {A} (P : A -> Prop) (l : list A) : Prop := fits64 (length l) /\ forall x, x ∈ l -> P x.

Definition candidate_fits (c : WorkflowModelCandidate) : Prop :=
  str_fits (mc_id c) /\ opt_fits str_fits (mc_reasoning c).
Definition assignment_fits (a : WorkflowModelAssignment) : Prop :=
  str_fits (ma_id a) /\ opt_fits str_fits (ma_reasoning a) /\ list_fits candidate_fits (ma_fallback a).
Definition verify_fits (v : VerifySpec) : Prop :=
  str_fits (vs_agent v) /\ str_fits (vs_until v) /\ fits 32 (vs_max_iterations v)
  /\ opt_fits assignment_fits (vs_model v).
Definition stage_fits (s : WorkflowStage) : Prop :=
  str_fits (st_id s) /\ opt_fits str_fits (st_title s) /\ str_fits (st_agent s)
  /\ str_fits (st_directive s) /\ fits64 (st_level s) /\ opt_fits verify_fits (st_verify s)
  /\ opt_fits str_fits (st_actor s) /\ list_fits fits64 (st_predecessor_indices s)
  /\ opt_fits assignment_fits (st_model s).
Definition input_fits (i : string * string) : Prop := str_fits i.1 /\ str_fits i.2.
Definition workflow_fits (d : WorkflowDefinition) (p : WorkflowPlan) : Prop :=
  str_fits (wd_name d) /\ str_fits (wd_description d)
  /\ list_fits input_fits (btree_list (wd_inputs d)) /\ list_fits stage_fits (plan_stages p).

#[export] Instance fits64_dec n : Decision (fits64 n) := decide (_ <= _)%N.
#[export] Instance str_fits_dec s : Decision (str_fits s) := fits64_dec _.
#[export] Instance opt_fits_dec {A} (P : A -> Prop) `{!forall x, Decision (P x)} x : Decision (opt_fits P x).
Proof.
  refine (match x with None => left _ | Some y => cast_if (decide (P y)) end); unfold opt_fits; naive_solver.
Defined.
#[export] Instance list_fits_dec {A} (P : A -> Prop) `{!forall x, Decision (P x)} l : Decision (list_fits P l).
Proof.
  refine (cast_if (decide (fits64 (length l) /\ Forall P l))); unfold list_fits; by rewrite <- Forall_forall.
Defined.

Ltac solve_fits_dec :=
  repeat first [apply _ | simple apply opt_fits_dec; intros | simple apply list_fits_dec; intros | apply and_dec].
#[export] Instance candidate_fits_dec c : Decision (candidate_fits c).
Proof. solve_fits_dec. Defined.
#[export] Instance assignment_fits_dec a : Decision (assignment_fits a).
Proof. solve_fits_dec. Defined.
#[export] Instance verify_fits_dec v : Decision (verify_fits v).
Proof. solve_fits_dec. Defined.
#[export] Instance stage_fits_dec s : Decision (stage_fits s).
Proof. solve_fits_dec. Defined.
#[export] Instance input_fits_dec i : Decision (input_fits i).
Proof. solve_fits_dec. Defined.
#[export] Instance workflow_fits_dec d p : Decision (workflow_fits d p).
Proof. solve_fits_dec. Defined.

(** ** The hash functions as codes

    [f] hashes what the encoder [g] appends, for values of a size that fits. *)
Definition hashes {A} (f : string -> A -> string) (g : string -> A -> option string) (P : A -> Prop) : Prop :=
  forall b x, P x -> g b x = Some (f b x).

Lemma usize_hashes : hashes hash_usize append_count fits64.
Proof. intros b n Hn. unfold append_count, hash_usize. by rewrite !decide_True. Qed.

Lemma string_hashes : hashes hash_string append_bytes str_fits.
Proof. intros b s Hs. unfold append_bytes. by rewrite (usize_hashes b) by done. Qed.

Definition append_option {A} (g : string -> A -> option string) (b : string) (x : option A) : option string :=
  match x with None => Some (b +:+ byte 0) | Some x => g (b +:+ byte 1) x end.
Definition append_list {A} (g : string -> A -> option string) (b : string) (xs : list A) : option string :=
  b ← append_count b (length xs); append_each g b xs.

Lemma option_string_hashes :
  hashes hash_optional_string (append_option append_bytes) (opt_fits str_fits).
Proof. intros b [s|] Hs; [|done]. simpl. apply string_hashes. by apply Hs. Qed.

Lemma each_hashes {A} (f : string -> A -> string) g (P : A -> Prop) :
  hashes f g P -> hashes (hash_each f) (append_each g) (Forall P).
Proof.
  intros Hf b xs. revert b. induction xs as [|x xs IH]; intros b; [done|].
  intros [Hx Hxs]%Forall_cons. cbn [append_each]. rewrite Hf by done. simpl. by apply IH.
Qed.

Lemma list_hashes {A} (f : string -> A -> string) g (P : A -> Prop) :
  hashes f g P -> hashes (hash_list f) (append_list g) (list_fits P).
Proof.
  intros Hf b xs [Hl Hxs]. unfold append_list, hash_list. rewrite usize_hashes by done. simpl.
  apply each_hashes with (P := P); [done|]. by apply Forall_forall.
Qed.

(** One encoder after another. *)
Lemma seq_hashes {A B D} (f1 : string -> B -> string) g1 P1 (f2 : string -> D -> string) g2 P2
    (p : A -> B) (q : A -> D) :
  hashes f1 g1 P1 -> hashes f2 g2 P2 ->
  hashes (fun b x => f2 (f1 b (p x)) (q x)) (fun b x => c ← g1 b (p x); g2 c (q x))
    (fun x => P1 (p x) /\ P2 (q x)).
Proof. intros H1 H2 b x [HP HQ]. rewrite H1 by done. simpl. by apply H2. Qed.

Lemma hash_byte_eq b n : hash_byte b n = b +:+ byte n.
Proof. done. Qed.

(** ** Encoders of the records *)

Definition append_u32 (b : string) (n : N) : option string :=
  if decide (fits 32 n) then Some (b +:+ be_bytes 4 n) else None.

Lemma u32_code : code append_u32 id.
Proof.
  unfold append_u32. split.
  - intros b n o. case_decide; [|done]. intros [= <-]. eauto.
  - intros b1 b2 n m o1 o2 r s H1 H2 Hl Heq.
    case_decide as Hn; [|done]. case_decide as Hm; [|done]. simplify_eq.
    rewrite <- !app_assoc_str in Heq. apply string_app_inj_length in Heq as [-> Heq]; [|done].
    apply string_app_inj_length in Heq as [Heq _]; [|by rewrite !length_be_bytes].
    split; [done|]. rewrite Heq. split; [|done]. unfold id. unfold fits in *.
    apply (be_bytes_inj 4); [| |done]; change (256 ^ N.of_nat 4)%N with (u32_max + 1)%N; lia.
Qed.

Definition append_candidate (b : string) (c : WorkflowModelCandidate) : option string :=
  b ← append_bytes b (mc_id c); append_option append_bytes b (mc_reasoning c).
Definition append_assignment (b : string) (a : WorkflowModelAssignment) : option string :=
  b ← (b ← append_bytes b (ma_id a); append_option append_bytes b (ma_reasoning a));
  append_list append_candidate b (ma_fallback a).
Definition append_verify (b : string) (v : VerifySpec) : option string :=
  b ← (b ← append_bytes b (vs_agent v); append_bytes b (vs_until v));
  append_u32 b (vs_max_iterations v).
Definition append_input (b : string) (i : string * string) : option string :=
  b ← append_bytes b i.1; append_bytes b i.2.
Definition append_routes (b : string) (s : WorkflowStage) : option string :=
  b ← append_option append_assignment b (st_model s);
  append_option append_assignment b (verifier_model s).
Definition append_stage (b : string) (s : WorkflowStage) : option string :=
  b ← (b ← (b ← (b ← (b ← (b ← (b ← (b ← append_bytes b (st_id s);
    append_option append_bytes b (st_title s));
    append_bytes b (st_agent s));
    append_bytes b (st_directive s));
    append_count b (st_level s));
    Some (b +:+ byte (stage_mode_code (st_mode s))));
    append_option append_verify b (st_verify s));
    append_option append_bytes b (st_actor s));
  append_list append_count b (st_predecessor_indices s).

Lemma option_bytes_code : code (append_option append_bytes) id.
Proof.
  eapply code_view, (option_code _ _ bytes_code). intros [x|] [y|]; simpl; unfold id; congruence.
Qed.
Lemma counts_code : code (append_list append_count) id.
Proof.
  eapply code_view, (list_code _ _ count_code). intros x y. by rewrite !list_fmap_id.
Qed.

Lemma candidate_code : code append_candidate id.
Proof.
  eapply code_view, (pair_code (A := WorkflowModelCandidate) _ _ _ _ mc_id mc_reasoning
    bytes_code option_bytes_code).
  intros [? ?] [? ?]. unfold id. simpl. congruence.
Qed.

Lemma assignment_code : code append_assignment id.
Proof.
  eapply code_view, (pair_code (A := WorkflowModelAssignment) _ _ _ _ (fun a => a) ma_fallback
    (pair_code (A := WorkflowModelAssignment) _ _ _ _ ma_id ma_reasoning bytes_code option_bytes_code)
    (list_code _ _ candidate_code)).
  intros [? ? ?] [? ? ?]. rewrite !list_fmap_id. unfold id. simpl. congruence.
Qed.

(** What a stage's bytes tell of its verifier, and of the stage. *)
Definition verify_view (v : VerifySpec) := (vs_agent v, vs_until v, vs_max_iterations v).
Definition stage_view (s : WorkflowStage) :=
  (st_id s, st_title s, st_agent s, st_directive s, st_level s, st_mode s,
   verify_view <$> st_verify s, st_actor s, st_predecessor_indices s).

Lemma verify_code : code append_verify verify_view.
Proof.
  eapply code_view, (pair_code (A := VerifySpec) _ _ _ _ (fun v => v) vs_max_iterations
    (pair_code (A := VerifySpec) _ _ _ _ vs_agent vs_until bytes_code bytes_code) u32_code).
  intros x y Heq. unfold verify_view, id in *. congruence.
Qed.

Lemma mode_byte_code : code (fun b m => Some (b +:+ byte (stage_mode_code m))) id.
Proof. apply byte_code; [by intros [] []|by intros []]. Qed.

Lemma stage_code : code append_stage stage_view.
Proof.
  pose proof (pair_code (A := WorkflowStage) _ _ _ _ st_id st_title bytes_code option_bytes_code) as C.
  pose proof (pair_code (A := WorkflowStage) _ _ _ _ (fun s => s) st_agent C bytes_code) as C2.
  pose proof (pair_code (A := WorkflowStage) _ _ _ _ (fun s => s) st_directive C2 bytes_code) as C3.
  pose proof (pair_code (A := WorkflowStage) _ _ _ _ (fun s => s) st_level C3 count_code) as C4.
  pose proof (pair_code (A := WorkflowStage) _ _ _ _ (fun s => s) st_mode C4 mode_byte_code) as C5.
  pose proof (pair_code (A := WorkflowStage) _ _ _ _ (fun s => s) st_verify C5
    (option_code _ _ verify_code)) as C6.
  pose proof (pair_code (A := WorkflowStage) _ _ _ _ (fun s => s) st_actor C6 option_bytes_code) as C7.
  pose proof (pair_code (A := WorkflowStage) _ _ _ _ (fun s => s) st_predecessor_indices C7 counts_code) as C8.
  eapply code_view; [|exact C8]. intros x y Heq. unfold stage_view, id in *. congruence.
Qed.

Lemma routes_code : code append_routes (fun s => (st_model s, verifier_model s)).
Proof.
  eapply code_view, (pair_code (A := WorkflowStage) _ _ _ _ st_model verifier_model
    (option_code _ _ assignment_code) (option_code _ _ assignment_code)).
  intros x y.
  cbv beta. by rewrite !option_fmap_id.
Qed.

Lemma input_code : code append_input id.
Proof.
  eapply code_view, (pair_code (A := string * string) _ _ _ _ fst snd bytes_code bytes_code).
  intros [] []. unfold id. simpl. congruence.
Qed.

(** ** The hash functions hash what the encoders append *)

Lemma candidate_hashes : hashes hash_candidate append_candidate candidate_fits.
Proof. exact (seq_hashes _ _ _ _ _ _ mc_id mc_reasoning string_hashes option_string_hashes). Qed.

Lemma assignment_hashes :
  hashes hash_optional_assignment (append_option append_assignment) (opt_fits assignment_fits).
Proof.
  intros b [a|] Ha; [|done]. destruct (Ha a eq_refl) as (H1 & H2 & H3). cbn [append_option].
  unfold append_assignment. rewrite string_hashes by done. cbn [mbind option_bind].
  rewrite option_string_hashes by done. cbn [mbind option_bind].
  by rewrite (list_hashes _ _ _ candidate_hashes).
Qed.

Lemma verify_hashes : hashes hash_verify (append_option append_verify) (opt_fits verify_fits).
Proof.
  intros b [v|] Hv; [|done]. destruct (Hv v eq_refl) as (H1 & H2 & H3 & _). cbn [append_option].
  unfold append_verify. rewrite string_hashes by done. cbn [mbind option_bind].
  rewrite string_hashes by done. cbn [mbind option_bind].
  unfold append_u32. by rewrite decide_True.
Qed.

Lemma input_hashes : hashes hash_input append_input input_fits.
Proof. exact (seq_hashes _ _ _ _ _ _ fst snd string_hashes string_hashes). Qed.

Lemma stage_hashes : hashes hash_stage append_stage stage_fits.
Proof.
  intros b s (H1 & H2 & H3 & H4 & H5 & H6 & H7 & H8 & _). unfold append_stage.
  rewrite string_hashes by done. cbn [mbind option_bind].
  rewrite option_string_hashes by done. cbn [mbind option_bind].
  rewrite string_hashes by done. cbn [mbind option_bind].
  rewrite string_hashes by done. cbn [mbind option_bind].
  rewrite usize_hashes by done. cbn [mbind option_bind].
  rewrite verify_hashes by done. cbn [mbind option_bind].
  rewrite option_string_hashes by done. cbn [mbind option_bind].
  by rewrite (list_hashes _ _ _ usize_hashes).
Qed.

Lemma routes_hashes : hashes hash_routes append_routes stage_fits.
Proof.
  intros b s (_ & _ & _ & _ & _ & H6 & _ & _ & H9). unfold append_routes, hash_routes.
  rewrite assignment_hashes by done. cbn [mbind option_bind].
  rewrite assignment_hashes; [done|]. intros a Ha. unfold verifier_model in Ha.
  destruct (st_verify s) as [v|]; [|done]. destruct (H6 v eq_refl) as (_ & _ & _ & Hm). by apply Hm.
Qed.

(** ** The preimage *)

(** What precedes the routes. *)
Definition base_preimage (d : WorkflowDefinition) (p : WorkflowPlan) : string :=
  hash_list hash_stage
    (hash_list hash_input
       (hash_byte (hash_string (hash_string REVISION_DOMAIN (wd_name d)) (wd_description d))
          (on_failure_code (wd_on_failure d)))
       (btree_list (wd_inputs d)))
    (plan_stages p).

Definition append_base (b : string) (x : WorkflowDefinition * WorkflowPlan) : option string :=
  b ← (b ← (b ← (b ← append_bytes b (wd_name x.1); append_bytes b (wd_description x.1));
    Some (b +:+ byte (on_failure_code (wd_on_failure x.1))));
    append_list append_input b (btree_list (wd_inputs x.1)));
  append_list append_stage b (plan_stages x.2).

Lemma base_hashes d p :
  workflow_fits d p -> append_base REVISION_DOMAIN (d, p) = Some (base_preimage d p).
Proof.
  intros (H1 & H2 & H3 & H4). unfold append_base, fst, snd, base_preimage.
  rewrite string_hashes by done. cbn [mbind option_bind].
  rewrite string_hashes by done. cbn [mbind option_bind].
  rewrite (list_hashes _ _ _ input_hashes) by done. cbn [mbind option_bind].
  by rewrite (list_hashes _ _ _ stage_hashes).
Qed.

Lemma on_failure_byte_code : code (fun b m => Some (b +:+ byte (on_failure_code m))) id.
Proof. apply byte_code; [by intros [] []|by intros []]. Qed.

Lemma base_code : code append_base (fun x => (x.1, stage_view <$> plan_stages x.2)).
Proof.
  pose proof (pair_code (A := WorkflowDefinition * WorkflowPlan) _ _ _ _ (fun x => wd_name x.1)
    (fun x => wd_description x.1) bytes_code bytes_code) as C1.
  pose proof (pair_code (A := WorkflowDefinition * WorkflowPlan) _ _ _ _ (fun x => x)
    (fun x => wd_on_failure x.1) C1 on_failure_byte_code) as C2.
  pose proof (pair_code (A := WorkflowDefinition * WorkflowPlan) _ _ _ _ (fun x => x)
    (fun x => btree_list (wd_inputs x.1)) C2 (list_code _ _ input_code)) as C3.
  pose proof (pair_code (A := WorkflowDefinition * WorkflowPlan) _ _ _ _ (fun x => x)
    (fun x => plan_stages x.2) C3 (list_code _ _ stage_code)) as C4.
  eapply code_view; [|exact C4]. intros [d1 p1] [d2 p2] Heq. cbn [fst snd] in *.
  rewrite !list_fmap_id in Heq. injection Heq as Hn Hd Hf Hi Hs. apply btree_list_inj in Hi.
  destruct d1, d2. simpl in *. unfold id in *. congruence.
Qed.

(** Stages agree when their bytes and their routes do. *)
Lemma stages_agree (l1 l2 : list WorkflowStage) :
  stage_view <$> l1 = stage_view <$> l2 ->
  (fun s => (st_model s, verifier_model s)) <$> l1 = (fun s => (st_model s, verifier_model s)) <$> l2 ->
  l1 = l2.
Proof.
  revert l2; induction l1 as [|s1 l1 IH]; intros [|s2 l2] Hv Hr; try done.
  cbn [fmap list_fmap] in Hv, Hr. injection Hv as H1 H2 H3 H4 H5 H6 H7 H8 H9 Hv. injection Hr as Hm Hvm Hr.
  f_equal; [|by apply IH]. destruct s1 as [? ? ? ? ? ? v1 ? ? ?], s2 as [? ? ? ? ? ? v2 ? ? ?].
  unfold verifier_model, verify_view in *. simpl in *. subst. f_equal.
  destruct v1 as [[? ? ? ?]|], v2 as [[? ? ? ?]|]; simplify_eq/=; try done.
Qed.

Lemma no_routes (l : list WorkflowStage) : existsb routes_models l = false ->
  (fun s => (st_model s, verifier_model s)) <$> l = (fun _ => (None, None)) <$> l.
Proof.
  induction l as [|s l IH]; [done|]. cbn [existsb]. intros [Hs Hl]%orb_false_iff.
  rewrite !fmap_cons, IH by done. unfold routes_models in Hs. apply orb_false_iff in Hs as [H1 H2].
  apply negb_false_iff, bool_decide_eq_true in H1, H2. by rewrite H1, H2.
Qed.

Lemma preimage_stages d1 p1 d2 p2 :
  workflow_fits d1 p1 -> workflow_fits d2 p2 ->
  revision_preimage d1 p1 = revision_preimage d2 p2 ->
  d1 = d2 /\ plan_stages p1 = plan_stages p2.
Proof.
  intros Hf1 Hf2 Heq. unfold revision_preimage in Heq.
  fold (base_preimage d1 p1) (base_preimage d2 p2) in Heq.
  destruct base_code as [_ Hcode]. destruct routes_code as [Hext Hdec].
  assert (forall l b, Forall stage_fits l -> exists e, hash_each hash_routes b l = b +:+ e) as Hpre.
  { intros l b Hl. pose proof (each_hashes _ _ _ routes_hashes b l Hl) as He.
    destruct (each_code _ _ routes_code) as [H _]. by apply H in He. }
  assert (Forall stage_fits (plan_stages p1) /\ Forall stage_fits (plan_stages p2)) as [Hs1 Hs2].
  { split; apply Forall_forall; [apply Hf1|apply Hf2]. }
  assert (exists r1 r2, base_preimage d1 p1 +:+ r1 = base_preimage d2 p2 +:+ r2) as (r1 & r2 & Hb).
  { destruct (Hpre _ (base_preimage d1 p1 +:+ MODEL_ROUTING_DOMAIN) Hs1) as [e1 He1].
    destruct (Hpre _ (base_preimage d2 p2 +:+ MODEL_ROUTING_DOMAIN) Hs2) as [e2 He2].
    rewrite He1, He2, <- !app_assoc_str in Heq.
    destruct (existsb _ (plan_stages p1)), (existsb _ (plan_stages p2)).
    - by exists (MODEL_ROUTING_DOMAIN +:+ e1), (MODEL_ROUTING_DOMAIN +:+ e2).
    - exists (MODEL_ROUTING_DOMAIN +:+ e1), "". by rewrite (app_nil_r_str (base_preimage d2 p2)).
    - exists "", (MODEL_ROUTING_DOMAIN +:+ e2). by rewrite (app_nil_r_str (base_preimage d1 p1)).
    - exists "", "". by rewrite !app_nil_r_str. }
  destruct (Hcode _ _ _ _ _ _ _ _ (base_hashes _ _ Hf1) (base_hashes _ _ Hf2) eq_refl Hb) as (_ & Hv & Hbase).
  cbn [fst snd] in Hv. injection Hv as -> Hview. split; [done|]. apply stages_agree; [done|].
  rewrite Hbase in Heq.
  destruct (existsb routes_models (plan_stages p1)) eqn:E1, (existsb routes_models (plan_stages p2)) eqn:E2.
  - destruct (each_code _ _ routes_code) as [_ Hd].
    destruct (Hd (plan_stages p1) (plan_stages p2) (base_preimage d2 p2 +:+ MODEL_ROUTING_DOMAIN)
      _ _ "" "" ltac:(by apply (f_equal length) in Hview; rewrite !length_fmap in Hview)
      (each_hashes _ _ _ routes_hashes _ _ Hs1) (each_hashes _ _ _ routes_hashes _ _ Hs2)) as [-> _]; [|done].
    by rewrite Heq.
  - destruct (Hpre _ (base_preimage d2 p2 +:+ MODEL_ROUTING_DOMAIN) Hs1) as [e He]. rewrite He in Heq.
    apply (f_equal String.length) in Heq. rewrite !length_app_str in Heq. simpl in Heq. lia.
  - destruct (Hpre _ (base_preimage d2 p2 +:+ MODEL_ROUTING_DOMAIN) Hs2) as [e He]. rewrite He in Heq.
    apply (f_equal String.length) in Heq. rewrite !length_app_str in Heq. simpl in Heq. lia.
  - rewrite !no_routes by done. clear -Hview. revert Hview. generalize (plan_stages p1), (plan_stages p2).
    induction l as [|x l IH]; intros [|y k] Hk; try done. rewrite !fmap_cons in *.
    injection Hk as _ _ _ _ _ _ _ _ _ Hk. f_equal. by apply IH.
Qed.

(** The stages of a well-formed plan determine its levels. *)
Lemma wf_levels c1 c2 :
  workflow_wf c1 -> workflow_wf c2 -> plan_stages (cw_plan c1) = plan_stages (cw_plan c2) ->
  cw_plan c1 = cw_plan c2.
Proof.
  intros H1 H2 Hst.
  assert (forall c k, workflow_wf c -> k < length (plan_levels (cw_plan c)) <->
    exists stage, stage ∈ plan_stages (cw_plan c) /\ st_level stage = k) as Hlt.
  { intros c k Hc. split.
    - intros Hk. destruct (lookup_lt_is_Some_2 _ _ Hk) as [level Hl].
      pose proof (ww_levels_nonempty _ Hc _ _ Hl) as Hne. apply (ww_levels _ Hc) in Hl as [_ ->]. simpl in Hne.
      destruct (filter _ _) as [|i l] eqn:E; [done|].
      assert (i ∈ i :: l) as Hi by left. rewrite <- E in Hi. apply list_elem_of_filter in Hi as [Hi _].
      destruct (_ !! i) as [stage|] eqn:Es; [|done]. exists stage. split; [by eapply list_elem_of_lookup_2|].
      by injection Hi.
    - intros (stage & Hin & <-). by apply (ww_bound _ Hc). }
  assert (plan_levels (cw_plan c1) = plan_levels (cw_plan c2)) as Hlv.
  { apply list_eq. intros k. apply option_eq. intros level.
    rewrite (ww_levels _ H1), (ww_levels _ H2), (Hlt c1), (Hlt c2), Hst by done. done. }
  destruct (cw_plan c1), (cw_plan c2). simpl in *. congruence.
Qed.

(** C39: a revision identifies a compiled Workflow.  Two compiled Workflows with the same revision have
    the same name, description, inputs and policy and the same plan (stages with their directives,
    verifiers, actors, predecessors and model routes, and levels), unless their different hashed
    bytes collide under SHA-256; and equal Workflows have equal revisions. *)
Theorem revision_identifies `{L : WorkflowLib} s1 t1 c1 s2 t2 c2 :
  compile_source s1 t1 = inl c1 -> compile_source s2 t2 = inl c2 ->
  workflow_fits (cw_definition c1) (cw_plan c1) -> workflow_fits (cw_definition c2) (cw_plan c2) ->
  cw_revision c1 = cw_revision c2 <->
  (cw_definition c1 = cw_definition c2 /\ cw_plan c1 = cw_plan c2)
  \/ (revision_preimage (cw_definition c1) (cw_plan c1) <> revision_preimage (cw_definition c2) (cw_plan c2)
      /\ sha256 (revision_preimage (cw_definition c1) (cw_plan c1))
         = sha256 (revision_preimage (cw_definition c2) (cw_plan c2))).
Proof.
  intros Hc1 Hc2 Hf1 Hf2. pose proof (compile_wf _ _ _ Hc1) as W1. pose proof (compile_wf _ _ _ Hc2) as W2.
  assert (forall s t c, compile_source s t = inl c ->
    cw_revision c = sha256 (revision_preimage (cw_definition c) (cw_plan c))) as Hrev.
  { intros s t c Hc. pose proof (compile_source_cases s t) as H. rewrite Hc in H.
    destruct H as (? & ? & ? & _ & _ & Hfrom). apply (cf_revision _ _ _ _ Hfrom). }
  rewrite (Hrev _ _ _ Hc1), (Hrev _ _ _ Hc2). split.
  - intros Hsha. destruct (decide (revision_preimage (cw_definition c1) (cw_plan c1)
      = revision_preimage (cw_definition c2) (cw_plan c2))) as [Heq|]; [left|by right].
    apply preimage_stages in Heq as [Hd Hs]; [|done..]. split; [done|]. by apply wf_levels.
  - by intros [[-> ->]|[_ ?]].
Qed.

Lemma demo_fits : workflow_fits (cw_definition WorkflowDemo.workflow) (cw_plan WorkflowDemo.workflow).
Proof. apply (bool_decide_unpack _). vm_compute. exact I. Qed.

Lemma revision_identifies_witness :
  compile_source (L := WorkflowDemo.lib) "ship.md" WorkflowDemo.text = inl WorkflowDemo.workflow
  /\ compile_source (L := WorkflowDemo.lib) "copy.md" WorkflowDemo.text = inl WorkflowDemo.workflow
  /\ cw_revision WorkflowDemo.workflow = cw_revision WorkflowDemo.workflow.
Proof.
  assert (H2 : compile_source (L := WorkflowDemo.lib) "copy.md" WorkflowDemo.text = inl WorkflowDemo.workflow)
    by (vm_compute; reflexivity).
  split; [exact demo_compiles|]. split; [exact H2|].
  apply (revision_identifies (L := WorkflowDemo.lib) _ _ _ _ _ _ demo_compiles H2 demo_fits demo_fits).
  left. split; reflexivity.
Defined.
