(* ===== verification/Effects.v ===== *)
(** * Effectful code as task trees

    An asynchronous function of hya awaits: it calls into the engine, and what comes back is decided
    by other tasks, the provider, the store and the human.  [Task E A] is such a function as a tree:
    a call [e : E X] and what the code does with every answer of type [X]; [Iter] is a [loop] of the
    source, whose body either goes round again with a new state or breaks with a value, so loops are
    kept without fuel.  A world [W] and a relation [step] say which answers are possible and how the
    world changes at a call.

    [wp] is the program logic: after every sequence of possible answers the result satisfies the
    postcondition; for [Total] the code moreover returns, for [Partial] it may loop forever.
    [run_task] executes a task against a handler, and [wp_adequate] and [wp_returns] connect the two. *)

From S2P Require Import Prelude Result.

Inductive Task (E : Type -> Type) : Type -> Type :=
  | Ret {A} (a : A) : Task E A
  | Call {A X} (e : E X) (k : X -> Task E A) : Task E A
  | Iter {A S B} (body : S -> Task E (S + B)) (s : S) (k : B -> Task E A) : Task E A.
Arguments Ret {E A} a.
Arguments Call {E A X} e k.
Arguments Iter {E A S B} body s k.

Fixpoint bind_task {E A B} (t : Task E A) : (A -> Task E B) -> Task E B :=
  match t in Task _ A return (A -> Task E B) -> Task E B with
  | Ret a => fun f => f a
  | Call e k => fun f => Call e (fun x => bind_task (k x) f)
  | Iter body s k => fun f => Iter body s (fun b => bind_task (k b) f)
  end.

Definition call {E X} (e : E X) : Task E X := Call e Ret.

Notation "'let*' p ':=' t 'in' k" := (bind_task t (fun p => k))
  (at level 200, p pattern, k at level 200, format "'[v' 'let*'  p  ':='  t  'in' '/' k ']'") : hya_scope.

(** [let p = t.await?; k] *)
Definition try_bind {E A B Err} (t : Task E (A + Err)) (f : A -> Task E (B + Err)) : Task E (B + Err) :=
  bind_task t (fun r => match r with inl a => f a | inr err => Ret (inr err) end).

Notation "'let!' p ':=' t 'in' k" := (try_bind t (fun p => k))
  (at level 200, p pattern, k at level 200, format "'[v' 'let!'  p  ':='  t  'in' '/' k ']'") : hya_scope.

(** [t.await.map_err(f)] *)
Definition map_error {E A Err Err'} (f : Err -> Err') (t : Task E (A + Err)) : Task E (A + Err') :=
  bind_task t (fun r => Ret (match r with inl a => inl a | inr err => inr (f err) end)).

(** [for x in xs { s = f(s, x).await? }] *)
Fixpoint fold_task {E A S Err} (f : S -> A -> Task E (S + Err)) (s : S) (xs : list A) : Task E (S + Err) :=
  match xs with
  | [] => Ret (inl s)
  | x :: xs => try_bind (f s x) (fun s => fold_task f s xs)
  end.

Definition each_task {E A Err} (f : A -> Task E (unit + Err)) (xs : list A) : Task E (unit + Err) :=
  fold_task (fun _ x => f x) tt xs.

(** ** Execution *)

Section run.
Context {E : Type -> Type} {W : Type}.
Implicit Types (h : forall X, E X -> W -> X * W).

(** The loop rounds of one [Iter], at most [fuel] of them. *)
Fixpoint run_loop {A S B} (body : S -> W -> option ((S + B) * W)) (k : B -> W -> option (A * W))
    (fuel : nat) (s : S) (w : W) : option (A * W) :=
  match fuel with
  | O => None
  | Datatypes.S fuel =>
      match body s w with
      | None => None
      | Some (inl s, w) => run_loop body k fuel s w
      | Some (inr b, w) => k b w
      end
  end.

(** [None]: some loop went round more than [fuel] times. *)
Fixpoint run_task h (fuel : nat) {A} (t : Task E A) (w : W) : option (A * W) :=
  match t in Task _ A return option (A * W) with
  | Ret a => Some (a, w)
  | Call e k => let '(x, w) := h _ e w in run_task h fuel (k x) w
  | Iter body s k =>
      run_loop (fun s => run_task h fuel (body s)) (fun b => run_task h fuel (k b)) fuel s w
  end.
End run.

(** ** The program logic *)

Inductive Mode := Total | Partial.

Section logic.
Context {E : Type -> Type} {W : Type} (step : forall X, E X -> W -> X -> W -> Prop).
Implicit Types (m : Mode).

(** A loop whose body transforms postconditions by [body]: with [Total] every sequence of rounds
    ends, with [Partial] an invariant is enough. *)
Inductive ends {S B} (body : S -> (S + B -> W -> Prop) -> W -> Prop) (Q : B -> W -> Prop) :
    S -> W -> Prop :=
  | ends_round (R : S -> W -> Prop) s w :
      (forall s w, R s w -> ends body Q s w) ->
      body s (fun r w => match r with inl s => R s w | inr b => Q b w end) w ->
      ends body Q s w.

Definition keeps {S B} (body : S -> (S + B -> W -> Prop) -> W -> Prop) (Q : B -> W -> Prop)
    (s : S) (w : W) : Prop :=
  exists Inv : S -> W -> Prop, Inv s w /\ forall s w, Inv s w ->
    body s (fun r w => match r with inl s => Inv s w | inr b => Q b w end) w.

Definition loops m {S B} (body : S -> (S + B -> W -> Prop) -> W -> Prop) (Q : B -> W -> Prop) :
    S -> W -> Prop :=
  match m with Total => ends body Q | Partial => keeps body Q end.

Fixpoint wp m {A} (t : Task E A) : (A -> W -> Prop) -> W -> Prop :=
  match t in Task _ A return (A -> W -> Prop) -> W -> Prop with
  | Ret a => fun Q w => Q a w
  | Call e k => fun Q w => forall x w', step _ e w x w' -> wp m (k x) Q w'
  | Iter body s k => fun Q w => loops m (fun s => wp m (body s)) (fun b => wp m (k b) Q) s w
  end.

Lemma ends_mono {S B} (body : S -> (S + B -> W -> Prop) -> W -> Prop) (Q Q' : B -> W -> Prop) s w :
  (forall s (P P' : S + B -> W -> Prop) w, (forall r w, P r w -> P' r w) -> body s P w -> body s P' w) ->
  (forall b w, Q b w -> Q' b w) -> ends body Q s w -> ends body Q' s w.
Proof.
  intros Hbody HQ. induction 1 as [R s w _ IH Hb].
  apply (ends_round _ _ R); [exact IH|]. revert Hb. apply Hbody. intros [|]; auto.
Qed.

Lemma loops_mono m {S B} (body : S -> (S + B -> W -> Prop) -> W -> Prop) (Q Q' : B -> W -> Prop) s w :
  (forall s (P P' : S + B -> W -> Prop) w, (forall r w, P r w -> P' r w) -> body s P w -> body s P' w) ->
  (forall b w, Q b w -> Q' b w) -> loops m body Q s w -> loops m body Q' s w.
Proof.
  intros Hbody HQ. destruct m; [by apply ends_mono|]. intros (Inv & Hs & HI). exists Inv. split; [done|].
  intros s' w' Hw. apply (Hbody _ _ _ _) with (2 := HI _ _ Hw). intros [|]; auto.
Qed.

Lemma wp_mono m {A} (t : Task E A) (Q Q' : A -> W -> Prop) w :
  (forall a w, Q a w -> Q' a w) -> wp m t Q w -> wp m t Q' w.
Proof.
  revert Q Q' w. induction t as [A a|A X e k IH|A S B body IHb s k IHk]; intros Q Q' w HQ; simpl; [auto| |].
  - intros H x w' Hx. by eapply IH, H.
  - apply loops_mono; [intros; by eapply IHb|]. intros b w'. by apply IHk.
Qed.

Lemma wp_bind m {A B} (t : Task E A) (f : A -> Task E B) (Q : B -> W -> Prop) w :
  wp m t (fun a => wp m (f a) Q) w -> wp m (bind_task t f) Q w.
Proof.
  revert f Q w. induction t as [A a|A X e k IH|A S C body IHb s k IHk]; intros f Q w; simpl; [done| |].
  - intros H x w' Hx. by apply IH, H.
  - apply loops_mono; [intros; by eapply wp_mono|]. intros b w'. apply IHk.
Qed.

Lemma wp_try m {A B Err} (t : Task E (A + Err)) (f : A -> Task E (B + Err)) (Q : B + Err -> W -> Prop) w :
  wp m t (fun r w => match r with inl a => wp m (f a) Q w | inr err => Q (inr err) w end) w ->
  wp m (try_bind t f) Q w.
Proof. intros H. apply wp_bind. revert H. apply wp_mono. by intros []. Qed.

(** [let x = e.await; ..] and [let x = e.await?; ..] *)
Lemma wp_do m {X B} (e : E X) (f : X -> Task E B) (Q : B -> W -> Prop) w :
  (forall x w', step X e w x w' -> wp m (f x) Q w') -> wp m (bind_task (call e) f) Q w.
Proof. done. Qed.

Lemma wp_do_try m {A B Err} (e : E (A + Err)%type) (f : A -> Task E (B + Err)) (Q : B + Err -> W -> Prop) w :
  (forall r w', step _ e w r w' -> match r with inl a => wp m (f a) Q w' | inr err => Q (inr err) w' end) ->
  wp m (try_bind (call e) f) Q w.
Proof. intros H [a|err] w' Hs; apply (H _ _ Hs). Qed.

Lemma wp_map_error m {A Err Err'} (g : Err -> Err') (t : Task E (A + Err)) (Q : A + Err' -> W -> Prop) w :
  wp m t (fun r w => Q (match r with inl a => inl a | inr err => inr (g err) end) w) w ->
  wp m (map_error g t) Q w.
Proof. intros H. by apply wp_bind. Qed.

(** A [for] loop by an invariant over the elements done; an error leaves the loop. *)
Lemma wp_fold_task m {A S Err} (f : S -> A -> Task E (S + Err)) (P : list A -> S -> W -> Prop)
    (QE : Err -> W -> Prop) s xs w (Q : S + Err -> W -> Prop) :
  P [] s w ->
  (forall done x rest s w, xs = done ++ x :: rest -> P done s w ->
    wp m (f s x) (fun r w => match r with inl s => P (done ++ [x]) s w | inr e => QE e w end) w) ->
  (forall s w, P xs s w -> Q (inl s) w) -> (forall e w, QE e w -> Q (inr e) w) ->
  wp m (fold_task f s xs) Q w.
Proof.
  intros H0 Hstep HQ HE. assert (forall post pre s w, xs = pre ++ post -> P pre s w ->
    wp m (fold_task f s post) Q w) as Hgen; [|by apply (Hgen xs [])].
  clear s w H0. induction post as [|x post IH]; intros pre s w Heq HP; simpl.
  - apply HQ. by rewrite Heq, app_nil_r.
  - apply wp_try. eapply wp_mono; [|by eapply Hstep]. intros [s'|e] w'; [|apply HE].
    apply IH. by rewrite <- app_assoc.
Qed.

Lemma wp_each_task m {A Err} (f : A -> Task E (unit + Err)) (P : list A -> W -> Prop)
    (QE : Err -> W -> Prop) xs w (Q : unit + Err -> W -> Prop) :
  P [] w ->
  (forall done x rest w, xs = done ++ x :: rest -> P done w ->
    wp m (f x) (fun r w => match r with inl _ => P (done ++ [x]) w | inr e => QE e w end) w) ->
  (forall w, P xs w -> Q (inl tt) w) -> (forall e w, QE e w -> Q (inr e) w) ->
  wp m (each_task f xs) Q w.
Proof.
  intros H0 Hstep HQ HE. apply (wp_fold_task m _ (fun done _ => P done) QE); [done| |by intros []|done].
  intros done x rest [] w' Heq HP. eapply wp_mono; [|by eapply Hstep]. by intros [[]|].
Qed.

(** A terminating loop by a variant in [nat]. *)
Lemma wp_iter_variant {A S B} (body : S -> Task E (S + B)) (k : B -> Task E A) (Q : A -> W -> Prop)
    (Inv : S -> W -> Prop) (f : S -> W -> nat) s w :
  Inv s w ->
  (forall s w, Inv s w -> wp Total (body s) (fun r w' => match r with
    | inl s' => Inv s' w' /\ f s' w' < f s w
    | inr b => wp Total (k b) Q w' end) w) ->
  wp Total (Iter body s k) Q w.
Proof.
  intros Hs Hbody. simpl.
  assert (forall n s w, f s w < n -> Inv s w ->
    ends (fun s => wp Total (body s)) (fun b => wp Total (k b) Q) s w) as Hall.
  - clear - Hbody. induction n as [|n IH]; intros s w Hlt HI; [lia|].
    apply (ends_round _ _ (fun s' w' => Inv s' w' /\ f s' w' < n)); [intros; by apply IH; destruct_and?|].
    eapply wp_mono; [|by apply Hbody]. intros [s'|b] w'; [|done]. intros [? ?]. split; [done|lia].
  - apply (Hall (Datatypes.S (f s w))); [lia|done].
Qed.

Lemma wp_iter_measure {A S B} (body : S -> Task E (S + B)) (k : B -> Task E A) (Q : A -> W -> Prop)
    (Inv : S -> W -> Prop) (f : S -> nat) s w :
  Inv s w ->
  (forall s w, Inv s w -> wp Total (body s) (fun r w => match r with
    | inl s' => Inv s' w /\ f s' < f s
    | inr b => wp Total (k b) Q w end) w) ->
  wp Total (Iter body s k) Q w.
Proof. apply (wp_iter_variant body k Q Inv (fun s _ => f s)). Qed.

Lemma wp_iter_invariant {A S B} (body : S -> Task E (S + B)) (k : B -> Task E A) (Q : A -> W -> Prop)
    (Inv : S -> W -> Prop) s w :
  Inv s w ->
  (forall s w, Inv s w -> wp Partial (body s) (fun r w => match r with
    | inl s' => Inv s' w
    | inr b => wp Partial (k b) Q w end) w) ->
  wp Partial (Iter body s k) Q w.
Proof. intros Hs Hbody. exists Inv. by split. Qed.

(** What holds whenever the code returns, for code that does return. *)
Lemma wp_partial {A} (t : Task E A) (Q : A -> W -> Prop) w : wp Total t Q w -> wp Partial t Q w.
Proof.
  revert Q w. induction t as [A a|A X e k IH|A S B body IHb s k IHk]; intros Q w; simpl; [done| |].
  - intros H x w' Hx. by eapply IH, H.
  - intros H. exists (ends (fun s => wp Total (body s)) (fun b => wp Total (k b) Q)). split; [done|].
    clear s w H. intros s w H. destruct H as [R s w HR Hb]. apply IHb. revert Hb. apply wp_mono.
    intros [s'|b] w'; [apply HR|apply IHk].
Qed.

(** ** Adequacy for handlers that only give possible answers *)

Context (h : forall X, E X -> W -> X * W).
Hypothesis h_step : forall X (e : E X) w, step X e w (h X e w).1 (h X e w).2.

Lemma run_loop_partial {A S B} (body : S -> Task E (S + B)) (k : B -> Task E A) fuel n (Q : A -> W -> Prop)
    (Inv : S -> W -> Prop) s w a w' :
  (forall s (P : S + B -> W -> Prop) w r w', wp Partial (body s) P w ->
     run_task h fuel (body s) w = Some (r, w') -> P r w') ->
  (forall b w a w', wp Partial (k b) Q w -> run_task h fuel (k b) w = Some (a, w') -> Q a w') ->
  (forall s w, Inv s w -> wp Partial (body s) (fun r w => match r with
    | inl s => Inv s w | inr b => wp Partial (k b) Q w end) w) ->
  Inv s w ->
  run_loop (fun s => run_task h fuel (body s)) (fun b => run_task h fuel (k b)) n s w = Some (a, w') ->
  Q a w'.
Proof.
  intros Hbody Hk HI. revert s w. induction n as [|n IH]; intros s w Hs; simpl; [done|].
  destruct (run_task h fuel (body s) w) as [[r w1]|] eqn:E1; [|done].
  pose proof (Hbody _ _ _ _ _ (HI _ _ Hs) E1) as Hr. destruct r as [s1|b]; [by apply IH|by apply Hk].
Qed.

Lemma wp_adequate fuel {A} (t : Task E A) (Q : A -> W -> Prop) w a w' :
  wp Partial t Q w -> run_task h fuel t w = Some (a, w') -> Q a w'.
Proof.
  revert Q w a w'. induction t as [A a0|A X e k IH|A S B body IHb s k IHk]; intros Q w a w'; simpl.
  - by intros ? [= <- <-].
  - intros H. pose proof (H _ _ (h_step X e w)) as H1. destruct (h X e w) as [x w1]. by apply IH.
  - intros (Inv & Hs & HI). apply (run_loop_partial body k fuel fuel Q Inv s w); [| |done|done].
    + intros s1 P w1 r w2. by apply IHb.
    + intros b w1 a1 w2. by apply IHk.
Qed.

Lemma run_loop_mono {A S B} (f g : S -> W -> option ((S + B) * W)) (k l : B -> W -> option (A * W)) n n' s w r :
  n <= n' -> (forall s w r, f s w = Some r -> g s w = Some r) ->
  (forall b w r, k b w = Some r -> l b w = Some r) ->
  run_loop f k n s w = Some r -> run_loop g l n' s w = Some r.
Proof.
  intros Hn Hf Hk. revert n' s w Hn. induction n as [|n IH]; intros n' s w Hn; simpl; [done|].
  destruct n' as [|n']; [lia|]. simpl. destruct (f s w) as [[[s1|b] w1]|] eqn:E1; [| |done];
    rewrite (Hf _ _ _ E1); [apply IH; lia|apply Hk].
Qed.

Lemma run_task_mono {A} (t : Task E A) n n' w r :
  n <= n' -> run_task h n t w = Some r -> run_task h n' t w = Some r.
Proof.
  revert n n' w r. induction t as [A a|A X e k IH|A S B body IHb s k IHk]; intros n n' w r Hn; simpl; [done| |].
  - destruct (h X e w) as [x w1]. by apply IH.
  - apply run_loop_mono; [done|..]; intros; eauto.
Qed.

(** Code that is proved to return does return, with a result of the postcondition. *)
Lemma wp_returns {A} (t : Task E A) (Q : A -> W -> Prop) w :
  wp Total t Q w -> exists fuel a w', run_task h fuel t w = Some (a, w') /\ Q a w'.
Proof.
  revert Q w. induction t as [A a|A X e k IH|A S B body IHb s k IHk]; intros Q w; simpl.
  - intros H. by exists 0, a, w.
  - intros H. pose proof (H _ _ (h_step X e w)) as H1. destruct (h X e w) as [x w1]. by apply IH.
  - induction 1 as [R s w _ IH Hb]. destruct (IHb _ _ _ Hb) as (n1 & r & w1 & E1 & Hr).
    destruct r as [s1|b].
    + destruct (IH _ _ Hr) as (n2 & a & w2 & E2 & HQ). exists (Datatypes.S (n1 + n2)), a, w2. split; [|done].
      simpl. rewrite (run_task_mono _ n1 (Datatypes.S (n1 + n2)) _ _ ltac:(lia) E1).
      revert E2. apply run_loop_mono; [lia|..]; intros; (eapply run_task_mono; [|done]); lia.
    + destruct (IHk _ _ _ Hr) as (n2 & a & w2 & E2 & HQ). exists (Datatypes.S (n1 + n2)), a, w2. split; [|done].
      simpl. rewrite (run_task_mono _ n1 (Datatypes.S (n1 + n2)) _ _ ltac:(lia) E1). eapply run_task_mono; [|done]. lia.
Qed.
End logic.
