(* ===== verification/Iteration.v ===== *)
(** * The iteration driver and goal mode ([hya-core/src/completion.rs], [error.rs])

    [IterationDriver::run] alternates an executor and an independent gate under [SafetyCaps].  The
    executor and the gate are trait objects with a state of their own: the driver is defined over
    any two tasks on a shared state [X], failing with any error [Err].  [DriverEff] is the most general pair, which may answer
    anything; against it the driver's behaviour is a trace of calls. *)

From stdpp Require Import pretty.
From S2P Require Import Prelude Result RustStr Platform Ids Text Effects.

(** ** [CoreError] *)

(** The payload of a variant that wraps another crate's error is the text it displays. *)
Inductive CoreError `{UuidLib} :=
  | CoreBundle (text : string)
  | CoreProvider (text : string)
  | CoreTool (text : string)
  | CoreStore (text : string)
  | CoreRuntimeRefresh (text : string)
  | CoreCancelled
  | CoreAgentDefinitionMissing (agent_id : string)
  | CoreInvalid (text : string)
  | CoreBundleRuntime (bundle_id : string) (source : CoreError)
  | CoreTurnAlreadyActive (session : SessionId).

Fixpoint CoreError_to_string `{UuidLib} (e : CoreError) : string :=
  match e with
  | CoreBundle text | CoreProvider text | CoreTool text | CoreStore text | CoreRuntimeRefresh text => text
  | CoreCancelled => "cancelled"
  | CoreAgentDefinitionMissing agent_id => "AGENT_DEFINITION_MISSING: `" +:+ agent_id +:+ "`"
  | CoreInvalid text => "invalid: " +:+ text
  | CoreBundleRuntime bundle_id source => "bundle `" +:+ bundle_id +:+ "`: " +:+ CoreError_to_string source
  | CoreTurnAlreadyActive session =>
      "TURN_ALREADY_ACTIVE: session `" +:+ SessionId_to_string session +:+ "` already has an active turn"
  end.

(** ** Caps and outcomes *)

(** Durations are in seconds. *)
Record SafetyCaps := mkSafetyCaps {
  max_iterations : N;
  max_wall_clock : N;
  max_tokens : N;
}.
Definition SafetyCaps_default : SafetyCaps := mkSafetyCaps 50 1800 2000000.

Inductive RunOutcome :=
  | Achieved (iterations : N) (reason : string)
  | Capped (iterations : N) (which : string)
  | BudgetLimited (iterations : N) (which : string)
  | Stalled (iterations : N)
  | RunCancelled.

Inductive GateOutcome :=
  | Stop (reason : string)
  | Continue (directive : string).

Definition wrap_up_directive (which : string) : string :=
  "BUDGET LIMIT REACHED (" +:+ which +:+ "). Do not start any new substantive work. "
  +:+ "Wrap up now: report what was completed, the current verifiable state, "
  +:+ "and the remaining work as a handoff. Budget exhaustion is not completion.".

(** [DefaultHasher] of the standard library on a string: some [u64]. *)
Class Fingerprint := { default_hash : string -> N }.

(** ** The driver *)

Section driver.
Context `{F : Fingerprint} {E : Type -> Type} {X Err : Type}.
Context (run_iteration : X -> string -> Task E (X * (string + Err))).
Context (judge : X -> string -> Task E (X * (GateOutcome + Err))).
(** [cancel.is_cancelled()] and [start.elapsed() >= self.caps.max_wall_clock] *)
Context (is_cancelled wall_clock_over : Task E bool).

Record DriverState := mkDriverState {
  ds_state : X;
  ds_directive : string;
  ds_iterations : N;
  ds_previous_transcript : option string;
  ds_previous_activity : option N;
}.

(** The cap that fired. *)
Definition cap_fired (caps : SafetyCaps) (iterations : N) : Task E (option string) :=
  if decide (max_iterations caps <= iterations)%N then Ret (Some "max_iterations")
  else let* over := wall_clock_over in Ret (if over then Some "max_wall_clock" else None).

(** What an iteration appended to the transcript of the one before. *)
Definition activity_of (previous : option string) (transcript : string) : string :=
  default transcript (previous ≫= fun p => strip_prefix p transcript).

Definition driver_round (caps : SafetyCaps) (stall_guard : bool) (st : DriverState) :
    Task E (DriverState + X * (RunOutcome + Err)) :=
  let* cancelled := is_cancelled in
  if (cancelled : bool) then Ret (inr (ds_state st, inl RunCancelled)) else
  let* which := cap_fired caps (ds_iterations st) in
  match which with
  | Some which =>
      if decide (ds_iterations st = 0)%N
      then Ret (inr (ds_state st, inl (Capped (ds_iterations st) which)))
      else
        let* r := run_iteration (ds_state st) (wrap_up_directive which) in
        Ret (inr (r.1, inl (BudgetLimited (ds_iterations st) which)))
  | None =>
      let iterations := (ds_iterations st + 1)%N in
      let* r := run_iteration (ds_state st) (ds_directive st) in
      match r with
      | (x, inr e) => Ret (inr (x, inr e))
      | (x, inl transcript) =>
          let activity := default_hash (activity_of (ds_previous_transcript st) transcript) in
          if stall_guard && bool_decide (ds_previous_activity st = Some activity)
          then Ret (inr (x, inl (Stalled iterations)))
          else
            let* r := judge x transcript in
            match r with
            | (x, inr e) => Ret (inr (x, inr e))
            | (x, inl (Stop reason)) => Ret (inr (x, inl (Achieved iterations reason)))
            | (x, inl (Continue next)) =>
                Ret (inl (mkDriverState x next iterations (Some transcript) (Some activity)))
            end
      end
  end.

(** [IterationDriver::run] *)
Definition driver_run (caps : SafetyCaps) (stall_guard : bool) (x : X) (initial_directive : string) :
    Task E (X * (RunOutcome + Err)) :=
  Iter (driver_round caps stall_guard) (mkDriverState x initial_directive 0 None None) Ret.
End driver.

Arguments DriverState X : clear implicits.

(** ** Any executor and gate *)

Inductive DriverEff `{UuidLib} : Type -> Type :=
  | RunIteration (directive : string) : DriverEff (string + CoreError)
  | Judge (transcript : string) : DriverEff (GateOutcome + CoreError)
  | IsCancelled : DriverEff bool
  | WallClockOver : DriverEff bool.

(** One call of the executor or of the gate, one look at the cancellation or at the clock, with its answer. *)
Inductive DriverCall `{UuidLib} :=
  | Polled (cancelled : bool)
  | Clocked (over : bool)
  | Worked (directive : string) (r : string + CoreError)
  | Judged (transcript : string) (r : GateOutcome + CoreError).

(** Every answer is possible; the world is the calls so far. *)
Definition driver_step `{UuidLib} A (e : DriverEff A) (tr : list DriverCall) : A -> list DriverCall -> Prop :=
  match e in DriverEff A return A -> list DriverCall -> Prop with
  | RunIteration d => fun r tr' => tr' = tr ++ [Worked d r]
  | Judge t => fun r tr' => tr' = tr ++ [Judged t r]
  | IsCancelled => fun b tr' => tr' = tr ++ [Polled b]
  | WallClockOver => fun b tr' => tr' = tr ++ [Clocked b]
  end.

Definition any_driver_run `{UuidLib} `{Fingerprint} (caps : SafetyCaps) (stall_guard : bool)
    (initial_directive : string) : Task DriverEff (unit * (RunOutcome + CoreError)) :=
  driver_run (fun x d => let* r := call (RunIteration d) in Ret (x, r))
    (fun x t => let* r := call (Judge t) in Ret (x, r))
    (call IsCancelled) (call WallClockOver) caps stall_guard tt initial_directive.

(** ** Goal conditions *)

Definition GOAL_CONTRACT_SECTIONS : list string :=
  ["objective"; "success criteria"; "verification"; "boundaries"; "stop conditions"].

(** A [## ] line whose heading starts with the section's name. *)
Definition section_line (condition section : string) : bool :=
  existsb (fun line =>
    match strip_prefix "## " (trim_start line) with
    | Some heading => starts_with section (to_ascii_lowercase (trim heading))
    | None => false
    end) (lines condition).

(** [skip_while] and [take_while] of an iterator *)
Fixpoint skip_while {A} (p : A -> bool) (xs : list A) : list A :=
  match xs with
  | [] => []
  | x :: rest => if p x then skip_while p rest else xs
  end.
Fixpoint take_while {A} (p : A -> bool) (xs : list A) : list A :=
  match xs with
  | [] => []
  | x :: rest => if p x then x :: take_while p rest else []
  end.

(** The text under the [## Verification] heading. *)
Definition verification_section (condition : string) : string :=
  String.concat (String LF EmptyString)
    (take_while (fun line => negb (starts_with "## " (trim_start line)))
      (drop 1 (skip_while (fun line =>
         negb (starts_with "## verification" (to_ascii_lowercase (trim_start line)))) (lines condition)))).

Definition has_executable_signal (verification : string) : bool :=
  contains_str "```" verification || contains_str "`" verification
  || existsb (fun line => starts_with "$ " (trim_start line)) (lines verification).

Definition validate_goal_condition `{UuidLib} (condition : string) : unit + CoreError :=
  let present := length (filter (fun section => section_line condition section = true)
                           GOAL_CONTRACT_SECTIONS) in
  if decide (present = 0) then inl tt
  else if decide (present < 4) then inr (CoreInvalid
    ("structured goal condition carries only " +:+ pretty (N.of_nat present)
     +:+ "/5 contract sections              (objective, success criteria, verification, boundaries, stop conditions);              either complete the structure or drop the `##` headers"))
  else if negb (has_executable_signal (verification_section condition)) then inr (CoreInvalid
    "structured goal condition has a `## Verification` section without an              executable signal; add the exact command (fenced block, backticks, or a              `$ ` line)")
  else inl tt.

(** ** Goal evaluation *)

Record Verdict := mkVerdict { vd_met : bool; vd_reason : string }.

Section goal.
Context `{U : UuidLib} {E : Type -> Type} {X : Type}.

(** [GoalGate::judge] over an evaluator *)
Definition goal_judge (evaluate : string -> string -> Task E (Verdict + CoreError)) (condition : string)
    (x : X) (transcript : string) : Task E (X * (GateOutcome + CoreError)) :=
  let* r := evaluate condition transcript in
  Ret (x, match r with
          | inr e => inr e
          | inl verdict =>
              inl (if vd_met verdict then Stop (vd_reason verdict)
                   else Continue (condition +:+ String LF (String LF EmptyString)
                          +:+ "The goal is not yet met: " +:+ vd_reason verdict
                          +:+ String LF EmptyString +:+ "Continue working toward it."))
          end).

(** The reply of a [goal.evaluate] hook. *)
Inductive GoalEvaluateReply :=
  | GoalVerdict (met : bool) (reason : string)
  | GoalMalformed.

Definition PLUGIN_MALFORMED_REASON : string := "evaluator returned malformed output".
Definition PLUGIN_HOOK_ERROR_REASON : string := "goal.evaluate hook error".

(** [PluginGoalEvaluator::evaluate] *)
Definition plugin_evaluate (goal_evaluate : string -> string -> Task E (GoalEvaluateReply + CoreError))
    (fallback : option (string -> string -> Task E (Verdict + CoreError)))
    (condition transcript : string) : Task E (Verdict + CoreError) :=
  let* r := goal_evaluate condition transcript in
  match r with
  | inl (GoalVerdict met reason) => Ret (inl (mkVerdict met reason))
  | inl GoalMalformed =>
      match fallback with
      | Some fallback => fallback condition transcript
      | None => Ret (inl (mkVerdict false PLUGIN_MALFORMED_REASON))
      end
  | inr _ =>
      match fallback with
      | Some fallback => fallback condition transcript
      | None => Ret (inl (mkVerdict false PLUGIN_HOOK_ERROR_REASON))
      end
  end.
End goal.

(** * What the iteration driver guarantees

    [wp_driver] is the rule for runs of the driver over any executor and gate; [driver_exact] lists
    every behaviour of the driver as a trace of calls. *)

(** ** A rule for the driver *)

Section rule.
Context `{F : Fingerprint} {E : Type -> Type} {X W Err : Type}.
Context (step : forall A, E A -> W -> A -> W -> Prop).
Context (run_iteration : X -> string -> Task E (X * (string + Err))).
Context (judge : X -> string -> Task E (X * (GateOutcome + Err))).
Context (is_cancelled wall_clock_over : Task E bool) (caps : SafetyCaps) (stall_guard : bool).

(** The fingerprint of an iteration that returned [t], whether the stall guard stops on it, and the next round. *)
Definition round_activity (st : DriverState X) (t : string) : N := default_hash (activity_of (ds_previous_transcript st) t).
Definition stalls (st : DriverState X) (t : string) : bool :=
  stall_guard && bool_decide (ds_previous_activity st = Some (round_activity st t)).
Definition next_round (st : DriverState X) (x : X) (d t : string) : DriverState X :=
  mkDriverState x d (ds_iterations st + 1) (Some t) (Some (round_activity st t)).

(** [before st]: at the head of the loop; [polled st]: not cancelled; [ready st]: no cap fired; [fired st which]: one did;
    [worked st x t]: the worker returned the transcript [t]. *)
Context (before polled ready : DriverState X -> W -> Prop) (fired : DriverState X -> string -> W -> Prop).
Context (worked : DriverState X -> X -> string -> W -> Prop) (Q : X * (RunOutcome + Err) -> W -> Prop).
Hypothesis reads_flag : forall st w, before st w ->
  wp step Total is_cancelled (fun c w => if c then Q (ds_state st, inl RunCancelled) w else polled st w) w.
Hypothesis at_max : forall st w, polled st w -> ds_iterations st = max_iterations caps -> fired st "max_iterations" w.
Hypothesis reads_clock : forall st w, polled st w -> (ds_iterations st < max_iterations caps)%N ->
  wp step Total wall_clock_over (fun over w => if over then fired st "max_wall_clock" w else ready st w) w.
Hypothesis works : forall st w, ready st w -> (ds_iterations st < max_iterations caps)%N ->
  wp step Total (run_iteration (ds_state st) (ds_directive st)) (fun r w => match r with
    | (x, inl t) => worked st x t w
    | (x, inr e) => Q (x, inr e) w end) w.
Hypothesis stalled : forall st x t w, worked st x t w -> stalls st t = true -> Q (x, inl (Stalled (ds_iterations st + 1))) w.
Hypothesis judges : forall st x t w, worked st x t w -> stalls st t = false ->
  wp step Total (judge x t) (fun r w => match r with
    | (x, inl (Stop reason)) => Q (x, inl (Achieved (ds_iterations st + 1) reason)) w
    | (x, inl (Continue d)) => before (next_round st x d t) w
    | (x, inr e) => Q (x, inr e) w end) w.
Hypothesis capped : forall st which w, fired st which w -> ds_iterations st = 0%N -> Q (ds_state st, inl (Capped 0 which)) w.
Hypothesis wraps_up : forall st which w, fired st which w -> (0 < ds_iterations st)%N ->
  wp step Total (run_iteration (ds_state st) (wrap_up_directive which)) (fun r w =>
    Q (r.1, inl (BudgetLimited (ds_iterations st) which)) w) w.

Lemma wp_driver x directive w :
  before (mkDriverState x directive 0 None None) w ->
  wp step Total (driver_run run_iteration judge is_cancelled wall_clock_over caps stall_guard x directive) Q w.
Proof using All.
  intros H0. unfold driver_run.
  apply (wp_iter_measure step _ _ _
    (fun st w => before st w /\ (ds_iterations st <= max_iterations caps)%N)
    (fun st => N.to_nat (max_iterations caps - ds_iterations st))); [split; [done|simpl; lia]|].
  clear x directive w H0. intros st w [Hb Hi]. unfold driver_round.
  apply wp_bind. eapply wp_mono; [|by apply reads_flag]. clear w Hb. cbn beta. intros [|] w Hb; [done|].
  assert (forall which w, fired st which w -> wp step Total
    (if decide (ds_iterations st = 0)%N
     then Ret (inr (ds_state st, inl (Capped (ds_iterations st) which)))
     else let* r := run_iteration (ds_state st) (wrap_up_directive which) in
          Ret (inr (r.1, inl (BudgetLimited (ds_iterations st) which))))
    (fun r w' => match r with
      | inl s' => (before s' w' /\ (ds_iterations s' <= max_iterations caps)%N)
          /\ N.to_nat (max_iterations caps - ds_iterations s') < N.to_nat (max_iterations caps - ds_iterations st)
      | inr b => wp step Total (Ret b) Q w' end) w) as Hcap.
  { clear w Hb. intros which w Hw. case_decide as H0; [simpl; rewrite H0; by eapply capped|].
    apply wp_bind. eapply wp_mono; [|eapply wraps_up; [done|lia]]. intros [x' r'] w'. done. }
  apply wp_bind. unfold cap_fired. destruct (decide (max_iterations caps <= ds_iterations st)%N) as [Hmax|Hmax]; [apply Hcap, at_max; [done|lia]|].
  apply wp_bind. eapply wp_mono; [|apply reads_clock; [done|lia]]. clear w Hb. cbn beta.
  intros [|] w Hb; [by apply Hcap|]. cbn [wp].
  apply wp_bind. eapply wp_mono; [|eapply works; [done|lia]]. cbn beta.
  intros [x1 [t|e]] w1 Hw; [|done]. fold (round_activity st t). fold (stalls st t).
  destruct (stalls st t) eqn:Es; [by eapply stalled|].
  apply wp_bind. eapply wp_mono; [|by eapply judges].
  intros [x2 [[reason|next]|e]] w2; [done| |done]. simpl. intros ?. split; [split; [done|simpl; lia]|simpl; lia].
Qed.
End rule.

(** What every call keeps, a run keeps. *)
Lemma wp_driver_keeps `{Fingerprint} {E X W Err} (step : forall A, E A -> W -> A -> W -> Prop)
    (run_iteration : X -> string -> Task E (X * (string + Err))) (judge : X -> string -> Task E (X * (GateOutcome + Err)))
    (is_cancelled wall_clock_over : Task E bool) caps stall_guard (I : W -> Prop) x directive w :
  (forall w, I w -> wp step Total is_cancelled (fun _ w => I w) w) ->
  (forall w, I w -> wp step Total wall_clock_over (fun _ w => I w) w) ->
  (forall x d w, I w -> wp step Total (run_iteration x d) (fun _ w => I w) w) ->
  (forall x t w, I w -> wp step Total (judge x t) (fun _ w => I w) w) ->
  I w -> wp step Total (driver_run run_iteration judge is_cancelled wall_clock_over caps stall_guard x directive) (fun _ w => I w) w.
Proof.
  intros Hflag Hclock Hrun Hjudge Hw.
  apply (wp_driver step _ _ _ _ _ _ (fun _ => I) (fun _ => I) (fun _ => I) (fun _ _ => I) (fun _ _ _ => I)); try done; intros.
  - eapply wp_mono; [|by apply Hflag]. by intros [].
  - eapply wp_mono; [|by apply Hclock]. by intros [].
  - eapply wp_mono; [|by apply Hrun]. by intros [? []].
  - eapply wp_mono; [|by apply Hjudge]. by intros [? [[]|]].
  - by apply Hrun.
Qed.

(** ** The traces of a run *)

Section traces.
Context `{U : UuidLib} `{F : Fingerprint}.
Implicit Types (tr : list DriverCall) (caps : SafetyCaps).

(** What an iteration with transcript [t] added to the transcript before it. *)
Definition appended (previous : option string) (t act : string) : Prop :=
  match previous with
  | Some p => t = p +:+ act \/ (~ exists rest, t = p +:+ rest) /\ act = t
  | None => act = t
  end.

(** The stall guard is on and an iteration that added [act] came after one that added the same, up to the fingerprint. *)
Definition repeats (stall_guard : bool) (before : option string) (act : string) : Prop :=
  stall_guard = true /\ exists act0, before = Some act0 /\ default_hash act0 = default_hash act.

(** [rounds i d p a tr]: [i] iterations that the gate continued; the gate asks for [d] next; the last
    transcript is [p], and [a] is what the last iteration added. *)
Inductive rounds caps (stall_guard : bool) (d0 : string) : N -> string -> option string -> option string -> list DriverCall -> Prop :=
  | rounds_none : rounds caps stall_guard d0 0 d0 None None []
  | rounds_more i d p a tr t act d' :
      rounds caps stall_guard d0 i d p a tr -> (i < max_iterations caps)%N -> appended p t act -> ~ repeats stall_guard a act ->
      rounds caps stall_guard d0 (i + 1) d' (Some t) (Some act)
        (tr ++ [Polled false; Clocked false; Worked d (inl t); Judged t (inl (Continue d'))]).

(** The cap that fires after [i] iterations, and the look at the clock. *)
Definition cap_fires caps (i : N) (which : string) (look : list DriverCall) : Prop :=
  (which = "max_iterations" /\ i = max_iterations caps /\ look = [])
  \/ (which = "max_wall_clock" /\ (i < max_iterations caps)%N /\ look = [Clocked true]).

(** The behaviours of a run. *)
Definition driver_behaviour caps (stall_guard : bool) (d0 : string) (out : RunOutcome + CoreError) tr : Prop :=
  exists i d p a tr0, rounds caps stall_guard d0 i d p a tr0 /\ (i <= max_iterations caps)%N /\
  match out with
  | inl RunCancelled => tr = tr0 ++ [Polled true]
  | inl (Capped n which) => n = 0%N /\ i = 0%N /\ exists look, cap_fires caps 0 which look /\ tr = Polled false :: look
  | inl (BudgetLimited n which) =>
      n = i /\ (0 < i)%N /\ exists look r, cap_fires caps i which look
        /\ tr = tr0 ++ Polled false :: look ++ [Worked (wrap_up_directive which) r]
  | inl (Achieved n reason) =>
      (n = i + 1 /\ i < max_iterations caps)%N
      /\ exists t act, appended p t act /\ ~ repeats stall_guard a act
        /\ tr = tr0 ++ [Polled false; Clocked false; Worked d (inl t); Judged t (inl (Stop reason))]
  | inl (Stalled n) =>
      (n = i + 1 /\ i < max_iterations caps)%N
      /\ exists t act, appended p t act /\ repeats stall_guard a act /\ tr = tr0 ++ [Polled false; Clocked false; Worked d (inl t)]
  | inr e =>
      (i < max_iterations caps)%N
      /\ (tr = tr0 ++ [Polled false; Clocked false; Worked d (inr e)]
          \/ exists t act, appended p t act /\ ~ repeats stall_guard a act
             /\ tr = tr0 ++ [Polled false; Clocked false; Worked d (inl t); Judged t (inr e)])
  end.

Lemma activity_appended p t : appended p t (activity_of p t).
Proof.
  unfold activity_of, appended. destruct p as [p|]; [|done]. simpl. destruct (strip_prefix p t) as [rest|] eqn:E; simpl.
  - left. by apply strip_prefix_Some.
  - right. split; [|done]. intros [rest ->]. rewrite (proj2 (strip_prefix_Some p (p +:+ rest) rest)) in E; done.
Qed.

(** The state of the driver after [i] rounds. *)
Record reached caps stall_guard d0 (st : DriverState unit) (a : option string) tr : Prop := {
  re_rounds : rounds caps stall_guard d0 (ds_iterations st) (ds_directive st) (ds_previous_transcript st) a tr;
  re_bound : (ds_iterations st <= max_iterations caps)%N;
  re_activity : ds_previous_activity st = default_hash <$> a;
}.

Lemma stalls_repeats caps stall_guard d0 st a tr t :
  reached caps stall_guard d0 st a tr ->
  stalls stall_guard st t = true <-> repeats stall_guard a (activity_of (ds_previous_transcript st) t).
Proof.
  intros Hr. unfold stalls, repeats. rewrite andb_true_iff, bool_decide_eq_true, (re_activity _ _ _ _ _ _ Hr), fmap_Some.
  unfold round_activity. naive_solver.
Qed.

Ltac give_rounds Hr := eexists _, _, _, _, _; split; [exact Hr|split; [done|simpl]].

Lemma any_driver_cases caps stall_guard d0 :
  wp driver_step Total (any_driver_run caps stall_guard d0)
    (fun r tr => driver_behaviour caps stall_guard d0 r.2 tr) [].
Proof.
  apply (wp_driver driver_step _ _ _ _ caps stall_guard
    (fun st tr => exists a, reached caps stall_guard d0 st a tr)
    (fun st tr => exists a tr0, reached caps stall_guard d0 st a tr0 /\ tr = tr0 ++ [Polled false])
    (fun st tr => exists a tr0, reached caps stall_guard d0 st a tr0 /\ tr = tr0 ++ [Polled false; Clocked false])
    (fun st which tr => exists a tr0 look, reached caps stall_guard d0 st a tr0
       /\ cap_fires caps (ds_iterations st) which look /\ tr = tr0 ++ Polled false :: look)
    (fun st _ t tr => exists a tr0, reached caps stall_guard d0 st a tr0 /\ (ds_iterations st < max_iterations caps)%N
       /\ tr = tr0 ++ [Polled false; Clocked false; Worked (ds_directive st) (inl t)])).
  - intros st tr [a [Hr Hb Ha]]. simpl. intros [] tr' ->; [by give_rounds Hr|by exists a, tr].
  - intros st tr (a & tr0 & Hr & ->) Hm. exists a, tr0, []. split_and!; [done|by left|done].
  - intros st tr (a & tr0 & Hr & ->) Hlt. simpl. intros [] tr' ->; rewrite <- app_assoc; [|by exists a, tr0].
    exists a, tr0, [Clocked true]. split_and!; [done|by right|done].
  - intros st tr (a & tr0 & Hr & ->) Hlt. simpl. intros [t|e] tr' ->; rewrite <- app_assoc; [by exists a, tr0|].
    destruct Hr as [Hr Hb _]. give_rounds Hr. split; [done|by left].
  - intros st x t tr (a & tr0 & Hr & Hlt & ->) Hs. apply (stalls_repeats caps stall_guard d0 st a tr0 t Hr) in Hs. destruct Hr as [Hr Hb _].
    give_rounds Hr. split; [done|]. eexists t, _. split; [apply activity_appended|by split].
  - intros st x t tr (a & tr0 & Hr & Hlt & ->) Hs.
    assert (~ repeats stall_guard a (activity_of (ds_previous_transcript st) t)) as Hno.
    { rewrite <- (stalls_repeats caps stall_guard d0 st a tr0 t Hr). congruence. }
    pose proof (activity_appended (ds_previous_transcript st) t) as Happ. destruct Hr as [Hr Hb _].
    simpl. intros r tr' ->. rewrite <- app_assoc. cbn [app]. destruct r as [[reason|d']|e].
    + give_rounds Hr. split; [done|]. by eexists t, _.
    + exists (Some (activity_of (ds_previous_transcript st) t)). split; simpl; [by eapply rounds_more|lia|done].
    + give_rounds Hr. split; [done|right]. by eexists t, _.
  - intros st which tr (a & tr0 & look & [Hr Hb _] & Hc & ->) H0. rewrite H0 in Hr, Hc.
    inversion Hr as [|i ? ? ? ? ? ? ? ? ? ? ? Hi]; [|lia]. subst. eexists 0%N, _, _, None, []. split; [constructor|]. split; [lia|]. simpl. split_and!; [done..|by exists look].
  - intros st which tr (a & tr0 & look & [Hr Hb _] & Hc & ->) H0. simpl. intros r tr' ->. rewrite <- app_assoc.
    give_rounds Hr. split_and!; [done|lia|by exists look, r].
  - exists None. split; [constructor|simpl; lia|done].
Qed.

(** ** Every run *)

(** Calls of the executor and of the gate in a trace. *)
Fixpoint workers tr : nat :=
  match tr with [] => 0 | Worked _ _ :: tr => S (workers tr) | _ :: tr => workers tr end.
Fixpoint verdicts tr : nat :=
  match tr with [] => 0 | Judged _ _ :: tr => S (verdicts tr) | _ :: tr => verdicts tr end.

Lemma counts_app tr calls :
  workers (tr ++ calls) = workers tr + workers calls /\ verdicts (tr ++ calls) = verdicts tr + verdicts calls.
Proof. induction tr as [|[] tr [IH1 IH2]]; simpl; rewrite ?IH1, ?IH2; lia. Qed.

Lemma rounds_counts caps stall_guard d0 i d p a tr :
  rounds caps stall_guard d0 i d p a tr -> workers tr = N.to_nat i /\ verdicts tr = N.to_nat i.
Proof.
  induction 1 as [|i d p a tr t act d' _ [IH1 IH2] _ _ _]; [done|].
  rewrite (proj1 (counts_app _ _)), (proj2 (counts_app _ _)), IH1, IH2. simpl. lia.
Qed.

Lemma behaviour_counts caps stall_guard d0 out tr :
  driver_behaviour caps stall_guard d0 out tr ->
  workers tr <= N.to_nat (max_iterations caps) + 1
  /\ verdicts tr <= N.to_nat (max_iterations caps)
  /\ match out with
     | inl (Achieved n _) | inl (Capped n _) => workers tr = N.to_nat n /\ verdicts tr = N.to_nat n
     | inl (BudgetLimited n _) => workers tr = N.to_nat n + 1 /\ verdicts tr = N.to_nat n
     | inl (Stalled n) => workers tr = N.to_nat n /\ verdicts tr = N.to_nat n - 1
     | inl RunCancelled | inr _ => workers tr <= N.to_nat (max_iterations caps)
     end.
Proof.
  intros (i & d & p & a & tr0 & Hr & Hi & Hout). apply rounds_counts in Hr as [Hw Hv].
  assert (forall calls, workers (tr0 ++ calls) = N.to_nat i + workers calls) as Ww
    by (intros; by rewrite (proj1 (counts_app _ _)), Hw).
  assert (forall calls, verdicts (tr0 ++ calls) = N.to_nat i + verdicts calls) as Vv
    by (intros; by rewrite (proj2 (counts_app _ _)), Hv).
  destruct out as [[n reason|n which|n which|n|]|e].
  - destruct Hout as (Hn & t & act & _ & _ & ->). rewrite Ww, Vv. simpl. lia.
  - destruct Hout as (-> & -> & look & [(_ & _ & ->)|(_ & _ & ->)] & ->); simpl; lia.
  - destruct Hout as (-> & H0 & look & r & [(_ & _ & ->)|(_ & _ & ->)] & ->); rewrite Ww, Vv; simpl; lia.
  - destruct Hout as (Hn & t & act & _ & _ & ->). rewrite Ww, Vv. simpl. lia.
  - subst tr. rewrite Ww, Vv. simpl. lia.
  - destruct Hout as [Hn [->|(t & act & _ & _ & ->)]]; rewrite Ww, Vv; simpl; lia.
Qed.

(** An executor, a gate, a clock and a cancellation that may decide by the whole history. *)
Definition Strategy : Type := forall A, DriverEff A -> list DriverCall -> A.

Definition play (answers : Strategy) A (e : DriverEff A) (tr : list DriverCall) : A * list DriverCall :=
  let a := answers A e tr in
  (a, match e in DriverEff A return A -> list DriverCall with
      | RunIteration d => fun r => tr ++ [Worked d r]
      | Judge t => fun r => tr ++ [Judged t r]
      | IsCancelled => fun b => tr ++ [Polled b]
      | WallClockOver => fun b => tr ++ [Clocked b]
      end a).

Lemma play_step answers A (e : DriverEff A) tr :
  driver_step A e tr (play answers A e tr).1 (play answers A e tr).2.
Proof. by destruct e. Qed.

(** C31: the driver always stops, within its caps, and reports truthfully.  Whatever the executor, the
    gate, the clock and the cancellation do: the run returns after at most [max_iterations] verdicts
    and at most one worker call more.  Its trace is a sequence of rounds, each a look at the cancellation and
    one at the clock that found neither, one worker call that did not repeat what the iteration before had added (with
    the stall guard, up to a fingerprint) and one verdict that asked to continue, each directive being the one the
    gate gave; and it ends as the outcome says: [RunCancelled] with a look that found the run cancelled,
    [Achieved] with a verdict to stop on the last transcript, [Stalled] with a worker call that repeated the one before,
    [BudgetLimited] with the cap it names, reached in rounds or on the clock, and
    exactly one wrap-up call whose result is not judged, [Capped] with such a cap before any iteration, and an
    error with the error of the last call. *)
Theorem driver_exact caps stall_guard d0 (answers : Strategy) :
  exists fuel out tr,
    run_task (play answers) fuel (any_driver_run caps stall_guard d0) [] = Some ((tt, out), tr)
    /\ driver_behaviour caps stall_guard d0 out tr
    /\ workers tr <= N.to_nat (max_iterations caps) + 1
    /\ verdicts tr <= N.to_nat (max_iterations caps)
    /\ match out with
       | inl (Achieved n _) | inl (Capped n _) => workers tr = N.to_nat n /\ verdicts tr = N.to_nat n
       | inl (BudgetLimited n _) => workers tr = N.to_nat n + 1 /\ verdicts tr = N.to_nat n
       | inl (Stalled n) => workers tr = N.to_nat n /\ verdicts tr = N.to_nat n - 1
       | inl RunCancelled | inr _ => workers tr <= N.to_nat (max_iterations caps)
       end.
Proof.
  destruct (wp_returns driver_step (play answers) (play_step answers) _ _ _
              (any_driver_cases caps stall_guard d0)) as (fuel & [[] out] & tr & Hrun & Hb).
  exists fuel, out, tr. split; [done|]. split; [done|]. by eapply behaviour_counts.
Qed.
End traces.

(** ** Goal conditions *)

(** A goal of four of the five sections without a Verification section is refused for the missing
    signal of that section; so is a Verification heading with two spaces. *)
Definition newline_join (xs : list string) : string := String.concat (String LF EmptyString) xs.

Lemma goal_without_verification `{UuidLib} :
  exists text,
    validate_goal_condition (newline_join
      ["## Objective"; "a"; "## Success criteria"; "b"; "## Boundaries"; "c"; "## Stop conditions"; "d"])
    = inr (CoreInvalid text)
  /\ validate_goal_condition (newline_join
      ["## Objective"; "a"; "## Success criteria"; "b"; "##  Verification"; "`make test`"; "## Boundaries"; "c"])
    = inr (CoreInvalid text)
  /\ validate_goal_condition (newline_join
      ["## Objective"; "a"; "## Success criteria"; "b"; "## Verification"; "`make test`"; "## Boundaries"; "c"])
    = inl tt.
Proof. eexists. split_and!; vm_compute; reflexivity. Qed.
