(* ===== verification/TurnGate.v ===== *)
(** * The turn gate ([hya-core/src/engine/turn_gate.rs])

    One session runs one turn at a time: every turn holds the session's lease, a second claim is refused or queues, and a
    drain or a quiesce refuses every claim.  An operation is what the code does under one hold of the state lock; what it
    does behind the lock (cancelling tokens, waking the queue) is a step of its own, and [gate_step] interleaves them. *)

From stdpp Require Import pretty.
From S2P Require Import Prelude Result RustStr Platform Ids Scope Wire Text Effects Iteration.

Section gate.
Context `{UuidLib}.

(** ** State *)

Record ActiveTurn := mkActiveTurn { at_id : N; at_cancel : N; at_cause : option FinishCause.t }.

Record GateState := mkGateState {
  gs_active : gmap SessionId ActiveTurn;
  gs_draining : option FinishCause.t;
  gs_holding : bool;
  gs_handoff_started : gset SessionId;
}.
#[export] Instance GateState_eta : EtaRecord GateState := fun s => {| gs_active := gs_active s; gs_draining := gs_draining s;
  gs_holding := gs_holding s; gs_handoff_started := gs_handoff_started s |}.

(** A cancellation token: its own cancellation, and the token it is a child of *)
Record Token := mkToken { tk_parent : option N; tk_cancelled : bool }.

(** A queued claim: between its check and its wake-up it is parked on the [Notified] it enabled before the check. *)
Record Waiter := mkWaiter { wa_session : SessionId; wa_parked : bool; wa_notified : bool }.

(** [TurnGate] with the tokens, the live leases, the queued claims and what operations still do once they gave the lock back:
    [gt_cancelling] are tokens cloned and not yet cancelled, [gt_notifying] the calls of [notify_waiters] to come (with the session
    whose turn [release] ended), [gt_observing] the sessions whose observer is then told, [gt_lifting] the second halves of
    [lift_quiesce].  [gt_boundaries] are the [turn_released] calls made. *)
Record Gate := mkGate {
  gt_state : GateState;
  gt_next_id : N;
  gt_token : gmap N Token;
  gt_next_token : N;
  gt_lease : gset (SessionId * N);
  gt_cancelling : list N;
  gt_notifying : list (option SessionId);
  gt_observing : list SessionId;
  gt_lifting : nat;
  gt_waiting : gmap N Waiter;
  gt_observer : bool;
  gt_boundaries : list SessionId;
}.
#[export] Instance Gate_eta : EtaRecord Gate := fun g => {| gt_state := gt_state g; gt_next_id := gt_next_id g; gt_token := gt_token g;
  gt_next_token := gt_next_token g; gt_lease := gt_lease g; gt_cancelling := gt_cancelling g; gt_notifying := gt_notifying g;
  gt_observing := gt_observing g; gt_lifting := gt_lifting g; gt_waiting := gt_waiting g; gt_observer := gt_observer g; gt_boundaries := gt_boundaries g |}.

Definition TurnGate_default : Gate := mkGate (mkGateState ∅ None false ∅) 0 ∅ 0 ∅ [] [] [] 0 ∅ false [].

(** [token.is_cancelled()]: of the token itself or of one it descends from; a parent is older than its child. *)
Fixpoint cancelled_from (fuel : nat) (tokens : gmap N Token) (token : N) : bool :=
  match fuel with
  | O => false
  | S fuel =>
      match tokens !! token with
      | Some t => tk_cancelled t || match tk_parent t with Some parent => cancelled_from fuel tokens parent | None => false end
      | None => false
      end
  end.
Definition is_cancelled (g : Gate) (token : N) : bool := cancelled_from (S (N.to_nat token)) (gt_token g) token.

Definition new_token (g : Gate) (token : Token) : Gate := g <| gt_token ::= <[gt_next_token g := token]> |> <| gt_next_token ::= N.add 1 |>.

(** ** Claims *)

(** The granting half of [try_acquire] *)
Definition grant (g : Gate) (session : SessionId) : Gate :=
  let id := gt_next_id g in
  let token := gt_next_token g in
  (new_token g (mkToken None false)) <| gt_next_id ::= fun id => ((id + 1) `mod` 2 ^ 64)%N |>
    <| gt_state ::= fun state => state <| gs_active ::= <[session := mkActiveTurn id token None]> |> |>
    <| gt_lease ::= union {[(session, id)]} |>.

Definition try_acquire (g : Gate) (session : SessionId) : Gate * (N + CoreError) :=
  let state := gt_state g in
  if bool_decide (is_Some (gs_draining state)) || gs_holding state then (g, inr CoreCancelled)
  else if bool_decide (is_Some (gs_active state !! session)) then (g, inr (CoreTurnAlreadyActive session))
  else (grant g session, inl (gt_next_id g)).

(** [HELD_TURNS] of a future run with [session] *)
Definition scope_held_turn (held : list SessionId) (session : SessionId) : list SessionId := held ++ [session].

(** [acquire]: a claim of a task that holds [held] is refused or queues. *)
Definition acquire (g : Gate) (held : list SessionId) (waiter : N) (session : SessionId) : Gate * (unit + CoreError) :=
  if decide (session ∈ held) then (g, inr (CoreTurnAlreadyActive session))
  else (g <| gt_waiting ::= <[waiter := mkWaiter session false false]> |>, inl tt).

(** The check of a queued claim: its lease, [Ok(None)], or it parks. *)
Definition acquire_check (g : Gate) (waiter : N) (session : SessionId) : Gate * option (option N) :=
  match try_acquire g session with
  | (g, inl id) => (g <| gt_waiting ::= delete waiter |>, Some (Some id))
  | (g, inr (CoreTurnAlreadyActive _)) => (g <| gt_waiting ::= alter (fun w => mkWaiter (wa_session w) true (wa_notified w)) waiter |>, None)
  | (g, inr _) => (g <| gt_waiting ::= delete waiter |>, Some None)
  end.

(** A parked claim that was notified enables a new [Notified] and checks again; one whose caller cancels leaves. *)
Definition acquire_wake (g : Gate) (waiter : N) (session : SessionId) : Gate :=
  g <| gt_waiting ::= <[waiter := mkWaiter session false false]> |>.
Definition acquire_leave (g : Gate) (waiter : N) : Gate := g <| gt_waiting ::= delete waiter |>.

(** [released.notify_waiters()] *)
Definition notify_waiters (g : Gate) : Gate := g <| gt_waiting ::= fmap (fun w => mkWaiter (wa_session w) (wa_parked w) true) |>.

Definition is_active (g : Gate) (session : SessionId) : bool := bool_decide (is_Some (gs_active (gt_state g) !! session)).
Definition active_sessions (g : Gate) : gset SessionId := dom (gs_active (gt_state g)).

(** [release] and the drop of a lease *)
Definition release (g : Gate) (session : SessionId) (id : N) : Gate :=
  match gs_active (gt_state g) !! session with
  | Some turn =>
      if decide (at_id turn = id)
      then g <| gt_state ::= fun state => state <| gs_active ::= delete session |> |> <| gt_notifying ::= cons (Some session) |>
      else g
  | None => g
  end.
Definition drop_lease (g : Gate) (session : SessionId) (id : N) : Gate :=
  (release g session id) <| gt_lease ::= fun leases => leases ∖ {[(session, id)]} |>.

(** What [release] does behind the lock: it wakes the queue, then has an installed observer told. *)
Definition release_notify (g : Gate) (reason : option SessionId) : Gate :=
  (notify_waiters g) <| gt_observing ::= app (from_option (fun session => [session]) [] reason) |>.
Definition release_observe (g : Gate) (session : SessionId) : Gate :=
  if gt_observer g then g <| gt_boundaries ::= fun l => l ++ [session] |> else g.
Definition set_observer (g : Gate) (installed : bool) : Gate := g <| gt_observer := installed |>.

(** ** Cancellation *)

Definition record_cause (cause : FinishCause.t) (turn : ActiveTurn) : ActiveTurn :=
  mkActiveTurn (at_id turn) (at_cancel turn) (Some (default cause (at_cause turn))).

(** [cancel] up to the release of the lock *)
Definition cancel (g : Gate) (session : SessionId) (cause : FinishCause.t) : Gate * bool :=
  match gs_active (gt_state g) !! session with
  | None => (g, false)
  | Some turn =>
      (g <| gt_state ::= fun state => state <| gs_active ::= <[session := record_cause cause turn]> |> |>
         <| gt_cancelling ::= cons (at_cancel turn) |>, true)
  end.

(** [token.cancel()] *)
Definition cancel_token (g : Gate) (token : N) : Gate :=
  g <| gt_token ::= alter (fun t => mkToken (tk_parent t) true) token |>.

Definition cancel_cause (g : Gate) (session : SessionId) : option FinishCause.t := gs_active (gt_state g) !! session ≫= at_cause.

(** [bind_cancel]: the turn's token becomes a child of the caller's. *)
Definition bind_cancel (g : Gate) (session : SessionId) (id caller : N) : Gate * N :=
  let token := gt_next_token g in
  let g := new_token g (mkToken (Some caller) false) in
  match gs_active (gt_state g) !! session with
  | Some turn =>
      if decide (at_id turn = id) then
        ((if is_cancelled g (at_cancel turn) then cancel_token g token else g)
           <| gt_state ::= fun state => state <| gs_active ::= <[session := mkActiveTurn (at_id turn) token (at_cause turn)]> |> |>, token)
      else (g, token)
  | None => (g, token)
  end.

(** ** Drain and quiesce *)

Definition begin_drain (g : Gate) (cause : FinishCause.t) : Gate * gset SessionId :=
  (g <| gt_state ::= fun state => state <| gs_draining ::= fun d => Some (default cause d) |> <| gs_active ::= fmap (record_cause cause) |> |>
     <| gt_cancelling ::= app (at_cancel <$> (map_to_list (gs_active (gt_state g))).*2) |> <| gt_notifying ::= cons None |>,
   active_sessions g).

Definition begin_quiesce (g : Gate) : Gate * gset SessionId :=
  (g <| gt_state ::= fun state => state <| gs_holding := true |> <| gs_handoff_started ::= union (active_sessions g) |> |>
     <| gt_notifying ::= cons None |>, active_sessions g).

Definition clear_handoff_started (g : Gate) : Gate := g <| gt_state ::= fun state => state <| gs_handoff_started := ∅ |> |>.

(** The two holds of the lock of [lift_quiesce] *)
Definition lift_quiesce (g : Gate) : Gate * bool :=
  if bool_decide (is_Some (gs_draining (gt_state g))) then (g, false) else (g <| gt_lifting ::= S |>, true).
Definition lift_quiesce_set (g : Gate) : Gate :=
  g <| gt_state ::= fun state => state <| gs_holding := false |> |> <| gt_lifting ::= pred |> <| gt_notifying ::= cons None |>.

(** Under the lock it also notifies. *)
Definition clear_handoff_drain (g : Gate) : Gate :=
  if decide (gs_draining (gt_state g) = Some FinishCause.Handoff)
  then notify_waiters (g <| gt_state ::= fun state => state <| gs_draining := None |> |>) else g.

Definition handoff_started (g : Gate) : gset SessionId := gs_handoff_started (gt_state g).
Definition quiescing (g : Gate) : bool := gs_holding (gt_state g).
Definition draining (g : Gate) : option FinishCause.t := gs_draining (gt_state g).

(** [wait_idle] and [wait_released]: each round looks at the gate; when the wait for a wake-up times out it looks once more.
    [None]: still waiting after these rounds. *)
Fixpoint wait_for (ended : Gate -> bool) (rounds : list (Gate * option Gate)) : option bool :=
  match rounds with
  | [] => None
  | (look, timeout) :: rounds =>
      if ended look then Some true else match timeout with Some late => Some (ended late) | None => wait_for ended rounds end
  end.
Definition wait_idle : list (Gate * option Gate) -> option bool := wait_for (fun g => bool_decide (gs_active (gt_state g) = ∅)).
Definition wait_released (session : SessionId) : list (Gate * option Gate) -> option bool := wait_for (fun g => negb (is_active g session)).

(** ** Steps *)

(** [LBind] says whether a cancellation of the turn's token is still to come. *)
Inductive Label :=
  | LClaim (session : SessionId) (reply : N + CoreError)
  | LQueue (waiter : N)
  | LCheck (waiter : N) (reply : option (option N))
  | LWake (waiter : N)
  | LLeave (waiter : N)
  | LNotify
  | LObserve (session : SessionId)
  | LDrop (session : SessionId) (id : N)
  | LCancel (session : SessionId) (cause : FinishCause.t)
  | LCancelled (token : N)
  | LCaller (token : N)
  | LBind (session : SessionId) (raced : bool)
  | LDrain (cause : FinishCause.t)
  | LQuiesce
  | LLift
  | LLifted
  | LClear
  | LClearStarted
  | LObserver (installed : bool).

Definition raced (g : Gate) (session : SessionId) : bool :=
  match gs_active (gt_state g) !! session with Some turn => bool_decide (at_cancel turn ∈ gt_cancelling g) | None => false end.

Inductive gate_step (g : Gate) : Label -> Gate -> Prop :=
  | step_claim session g' r : try_acquire g session = (g', r) -> gate_step g (LClaim session r) g'
  | step_queue held waiter session g' r : gt_waiting g !! waiter = None -> acquire g held waiter session = (g', r) ->
      gate_step g (LQueue waiter) g'
  | step_check waiter w g' r : gt_waiting g !! waiter = Some w -> wa_parked w = false ->
      acquire_check g waiter (wa_session w) = (g', r) -> gate_step g (LCheck waiter r) g'
  | step_wake waiter w : gt_waiting g !! waiter = Some w -> wa_parked w = true -> wa_notified w = true ->
      gate_step g (LWake waiter) (acquire_wake g waiter (wa_session w))
  | step_leave waiter : gate_step g (LLeave waiter) (acquire_leave g waiter)
  | step_notify l1 reason l2 : gt_notifying g = l1 ++ reason :: l2 ->
      gate_step g LNotify ((release_notify g reason) <| gt_notifying := l1 ++ l2 |>)
  | step_observe l1 session l2 : gt_observing g = l1 ++ session :: l2 ->
      gate_step g (LObserve session) ((release_observe g session) <| gt_observing := l1 ++ l2 |>)
  | step_drop session id : (session, id) ∈ gt_lease g -> gate_step g (LDrop session id) (drop_lease g session id)
  | step_cancel session cause : gate_step g (LCancel session cause) (cancel g session cause).1
  | step_cancelled token l1 l2 : gt_cancelling g = l1 ++ token :: l2 ->
      gate_step g (LCancelled token) ((cancel_token g token) <| gt_cancelling := l1 ++ l2 |>)
  | step_new_caller : gate_step g (LCaller (gt_next_token g)) (new_token g (mkToken None false))
  | step_caller token : gate_step g (LCaller token) (cancel_token g token)
  | step_bind session id caller : (session, id) ∈ gt_lease g -> is_Some (gt_token g !! caller) ->
      gate_step g (LBind session (raced g session)) (bind_cancel g session id caller).1
  | step_drain cause : gate_step g (LDrain cause) (begin_drain g cause).1
  | step_quiesce : gate_step g LQuiesce (begin_quiesce g).1
  | step_lift : gate_step g LLift (lift_quiesce g).1
  | step_lifted n : gt_lifting g = S n -> gate_step g LLifted (lift_quiesce_set g)
  | step_clear : gate_step g LClear (clear_handoff_drain g)
  | step_clear_started : gate_step g LClearStarted (clear_handoff_started g)
  | step_observer installed : gate_step g (LObserver installed) (set_observer g installed).

Inductive gate_run : Gate -> list Label -> Gate -> Prop :=
  | run_nil g : gate_run g [] g
  | run_snoc g g' g'' labels label : gate_run g labels g' -> gate_step g' label g'' -> gate_run g (labels ++ [label]) g''.

(** ** Leases and active turns *)

Definition admits (g : Gate) : Prop := draining g = None /\ quiescing g = false.

Lemma admits_or (g : Gate) : admits g \/ (is_Some (draining g) \/ quiescing g = true).
Proof. unfold admits. destruct (draining g), (quiescing g); naive_solver. Qed.

Lemma try_acquire_cases (g : Gate) (session : SessionId) :
  (try_acquire g session = (grant g session, inl (gt_next_id g)) /\ admits g /\ gs_active (gt_state g) !! session = None) \/
  (try_acquire g session = (g, inr CoreCancelled) /\ (is_Some (draining g) \/ quiescing g = true)) \/
  (try_acquire g session = (g, inr (CoreTurnAlreadyActive session)) /\ admits g /\ is_Some (gs_active (gt_state g) !! session)).
Proof.
  unfold admits, draining, quiescing, try_acquire.
  destruct (gs_draining (gt_state g)) as [cause|]; cbn; [right; left; naive_solver|].
  destruct (gs_holding (gt_state g)); cbn; [right; left; naive_solver|].
  case_bool_decide as Hs; [right; right; naive_solver|].
  apply eq_None_not_Some in Hs. naive_solver.
Qed.

(** The leases are the ids of the active turns; a parked claim that was not woken waits for a turn, or a wake-up is due. *)
Record turns_inv (g : Gate) : Prop := {
  ti_lease : forall session id, (session, id) ∈ gt_lease g <-> at_id <$> gs_active (gt_state g) !! session = Some id;
  ti_parked : forall waiter w, gt_waiting g !! waiter = Some w -> wa_parked w = true -> wa_notified w = false ->
    gt_notifying g = [] -> admits g /\ is_Some (gs_active (gt_state g) !! wa_session w);
}.

Lemma turns_inv_default : turns_inv TurnGate_default.
Proof. split; [intros; cbn; rewrite lookup_empty; set_solver | intros * Hw; cbn in Hw; by rewrite lookup_empty in Hw]. Qed.

(** What does not touch leases, active turns, admission or the queue keeps the invariant. *)
Lemma turns_inv_ext (g g' : Gate) :
  turns_inv g -> gt_lease g' = gt_lease g -> (forall session, at_id <$> gs_active (gt_state g') !! session = at_id <$> gs_active (gt_state g) !! session) ->
  (gt_notifying g' = [] -> gt_notifying g = [] /\ draining g' = draining g /\ quiescing g' = quiescing g) ->
  (forall waiter w, gt_waiting g' !! waiter = Some w -> wa_parked w = true -> wa_notified w = false -> gt_waiting g !! waiter = Some w) ->
  turns_inv g'.
Proof.
  intros [Hl Hp] El Ea En Ew. split.
  - intros session id. by rewrite El, Ea.
  - intros waiter w Hw Hk Hn Hq. destruct (En Hq) as (Hq' & Ed & Eh). destruct (Hp waiter w) as [[Hd Hh] Ha]; eauto.
    split; [by split; congruence|]. rewrite <- (fmap_is_Some at_id), Ea. by rewrite fmap_is_Some.
Qed.

(** The same when a wake-up is due or every claim was woken. *)
Lemma turns_inv_awake (g g' : Gate) :
  turns_inv g -> gt_lease g' = gt_lease g -> (forall session, at_id <$> gs_active (gt_state g') !! session = at_id <$> gs_active (gt_state g) !! session) ->
  (gt_notifying g' = [] -> forall waiter w, gt_waiting g' !! waiter = Some w -> wa_notified w = true) ->
  turns_inv g'.
Proof.
  intros [Hl _] El Ea En. split; [intros session id; by rewrite El, Ea|]. intros waiter w Hw _ Hn Hq. by rewrite (En Hq _ _ Hw) in Hn.
Qed.

Lemma turns_inv_grant (g : Gate) session : turns_inv g -> gs_active (gt_state g) !! session = None -> turns_inv (grant g session).
Proof.
  intros [Hl Hp] Hno. split.
  - intros s id. simpl. rewrite elem_of_union, elem_of_singleton, (Hl s id). destruct (decide (s = session)) as [->|Hne].
    + rewrite lookup_insert_eq, Hno. simpl. naive_solver.
    + rewrite lookup_insert_ne by done. naive_solver.
  - intros waiter w Hw Hk Hn Hq. destruct (Hp waiter w Hw Hk Hn Hq) as [Ha Hs]. split; [exact Ha|]. simpl.
    destruct (decide (wa_session w = session)) as [->|Hne]; [by rewrite lookup_insert_eq|by rewrite lookup_insert_ne].
Qed.

(** A claim is dropped from the queue, or is no longer parked. *)
Lemma turns_inv_unparked (g : Gate) (f : gmap N Waiter -> gmap N Waiter) :
  (forall waiter w, f (gt_waiting g) !! waiter = Some w -> wa_parked w = true -> gt_waiting g !! waiter = Some w) ->
  turns_inv g -> turns_inv (g <| gt_waiting ::= f |>).
Proof. intros Hf Hg. apply (turns_inv_ext g); [done..|]. intros waiter w Hw Hk _. by apply Hf. Qed.

Lemma turns_inv_delete (g : Gate) waiter : turns_inv g -> turns_inv (g <| gt_waiting ::= delete waiter |>).
Proof. apply turns_inv_unparked. by intros k w [_ Hk]%lookup_delete_Some. Qed.

Lemma turns_inv_insert (g : Gate) waiter session : turns_inv g -> turns_inv (g <| gt_waiting ::= <[waiter := mkWaiter session false false]> |>).
Proof. apply turns_inv_unparked. by intros k w [[<- <-]|[_ Hk]]%lookup_insert_Some. Qed.

Lemma turns_inv_check (g : Gate) waiter w :
  turns_inv g -> gt_waiting g !! waiter = Some w -> turns_inv (acquire_check g waiter (wa_session w)).1.
Proof.
  intros Hg Hw. unfold acquire_check. destruct (try_acquire_cases g (wa_session w)) as [(-> & _ & Hno)|[[-> _]|(-> & Had & Hact)]]; simpl.
  - apply (turns_inv_delete (grant g (wa_session w)) waiter). by apply turns_inv_grant.
  - by apply (turns_inv_delete g waiter).
  - destruct Hg as [Hl Hp]. split; [done|]. intros k w' Hk Hpark Hn Hq. destruct (decide (k = waiter)) as [->|Hne].
    + simpl in Hk. rewrite lookup_alter_eq, Hw in Hk. injection Hk as <-. by split.
    + simpl in Hk. rewrite lookup_alter_ne in Hk by done. by apply (Hp k).
Qed.

Lemma turns_inv_drop (g : Gate) session id : turns_inv g -> (session, id) ∈ gt_lease g -> turns_inv (drop_lease g session id).
Proof.
  intros [Hl Hp] Hin. pose proof Hin as Hact. apply Hl in Hact. unfold drop_lease, release.
  destruct (gs_active (gt_state g) !! session) as [turn|] eqn:Et; [|done]. injection Hact as Hid. rewrite decide_True by done. split; [|done].
  intros s i. simpl. rewrite elem_of_difference, elem_of_singleton, (Hl s i). destruct (decide (s = session)) as [->|Hne].
  - rewrite lookup_delete_eq, Et. simpl. naive_solver.
  - rewrite lookup_delete_ne by done. naive_solver.
Qed.

(** The ids of the active turns survive a change of a turn that keeps its id. *)
Lemma ids_insert (m : gmap SessionId ActiveTurn) session turn turn' :
  m !! session = Some turn -> at_id turn' = at_id turn -> forall s, at_id <$> <[session := turn']> m !! s = at_id <$> m !! s.
Proof.
  intros Hm Hid s. destruct (decide (s = session)) as [->|Hne]; [rewrite lookup_insert_eq, Hm; simpl; by rewrite Hid|by rewrite lookup_insert_ne].
Qed.

Lemma bind_cancel_keeps (g : Gate) session id caller :
  gt_lease (bind_cancel g session id caller).1 = gt_lease g /\ gt_notifying (bind_cancel g session id caller).1 = gt_notifying g
  /\ gt_waiting (bind_cancel g session id caller).1 = gt_waiting g
  /\ draining (bind_cancel g session id caller).1 = draining g /\ quiescing (bind_cancel g session id caller).1 = quiescing g
  /\ forall s, at_id <$> gs_active (gt_state (bind_cancel g session id caller).1) !! s = at_id <$> gs_active (gt_state g) !! s.
Proof.
  unfold bind_cancel, draining, quiescing. simpl. destruct (gs_active (gt_state g) !! session) as [turn|] eqn:Et; [|done].
  destruct (decide (at_id turn = id)) as [Hid|]; [|done]. destruct (is_cancelled _ _); simpl; split_and!; try done; by apply (ids_insert _ _ turn).
Qed.

Lemma turns_inv_step (g g' : Gate) label : turns_inv g -> gate_step g label g' -> turns_inv g'.
Proof.
  intros Hg Hstep. destruct Hstep as [session g' r Hc|held waiter session g' r _ Hc|waiter w g' r Hw _ Hc|waiter w|waiter|l1 reason l2|l1 session l2
    |session id Hin|session cause|token l1 l2|token|token|session id caller|cause| | |n| | |installed].
  - destruct (try_acquire_cases g session) as [(E & _ & Hno)|[[E _]|(E & _)]]; rewrite E in Hc; injection Hc as <- <-; [by apply turns_inv_grant|done..].
  - unfold acquire in Hc. case_decide; injection Hc as <- <-; [done|by apply turns_inv_insert].
  - replace g' with (acquire_check g waiter (wa_session w)).1 by (by rewrite Hc). by apply turns_inv_check.
  - by apply turns_inv_insert.
  - by apply turns_inv_delete.
  - apply (turns_inv_awake g); [done..|]. intros _ k w. simpl. by intros (w' & <- & _)%lookup_fmap_Some.
  - unfold release_observe. destruct (gt_observer g); by apply (turns_inv_ext g).
  - by apply turns_inv_drop.
  - unfold cancel. destruct (gs_active (gt_state g) !! session) as [turn|] eqn:Et; [|done].
    apply (turns_inv_ext g); [done|done|by apply (ids_insert _ _ turn)|done|done].
  - by apply (turns_inv_ext g).
  - by apply (turns_inv_ext g).
  - by apply (turns_inv_ext g).
  - destruct (bind_cancel_keeps g session id caller) as (E1 & E2 & E3 & E4 & E5 & E6). apply (turns_inv_ext g); try done.
    + by rewrite E2, E4, E5.
    + by rewrite E3.
  - apply (turns_inv_awake g); [done..| |done]. intros s. simpl. rewrite lookup_fmap. by destruct (gs_active (gt_state g) !! s).
  - by apply (turns_inv_awake g).
  - unfold lift_quiesce. destruct (bool_decide _); [done|by apply (turns_inv_ext g)].
  - by apply (turns_inv_awake g).
  - unfold clear_handoff_drain. case_decide; [|done]. apply (turns_inv_awake g); [done..|]. intros _ k w. simpl. by intros (w' & <- & _)%lookup_fmap_Some.
  - by apply (turns_inv_ext g).
  - by apply (turns_inv_ext g).
Qed.

Lemma turns_inv_run labels (g0 g : Gate) : gate_run g0 labels g -> turns_inv g0 -> turns_inv g.
Proof. induction 1 as [g|g g' g'' labels label _ IH Hs]; [done|]. intros H0. eapply turns_inv_step; [by apply IH|exact Hs]. Qed.

(** No lease appears while the gate drains or holds. *)
Lemma closed_gate_step (g g' : Gate) label :
  gate_step g label g' -> is_Some (draining g) \/ quiescing g = true -> gt_lease g' ⊆ gt_lease g.
Proof.
  intros Hstep Hclosed. assert (~ admits g) as Hno.
  { unfold admits. destruct Hclosed as [[c Hc]|Hc]; [rewrite Hc|rewrite Hc]; naive_solver. }
  destruct Hstep as [session g' r Hc|held waiter session g' r _ Hc|waiter w g' r Hw _ Hc|waiter w|waiter|l1 reason l2|l1 session l2
    |session id Hin|session cause|token l1 l2|token|token|session id caller|cause| | |n| | |installed]; try done.
  - destruct (try_acquire_cases g session) as [(_ & Had & _)|[[E _]|(E & _)]]; [done|rewrite E in Hc; by injection Hc as <- <-..].
  - unfold acquire in Hc. case_decide; by injection Hc as <- <-.
  - unfold acquire_check in Hc. destruct (try_acquire_cases g (wa_session w)) as [(_ & Had & _)|[[E _]|(E & _)]]; [done|rewrite E in Hc; by injection Hc as <- <-..].
  - unfold release_observe. by destruct (gt_observer g).
  - unfold drop_lease, release. destruct (gs_active (gt_state g) !! session) as [turn|]; [destruct (decide (at_id turn = id))|]; simpl; set_solver.
  - unfold cancel. by destruct (gs_active (gt_state g) !! session).
  - by rewrite (proj1 (bind_cancel_keeps g session id caller)).
  - unfold lift_quiesce. by destruct (bool_decide _).
  - unfold clear_handoff_drain. by case_decide.
Qed.

(** What a claim answers, and what it leaves. *)
Definition claim_answer (g : Gate) (session : SessionId) (g' : Gate) (r : N + CoreError) : Prop :=
  match r with
  | inl id => admits g /\ (forall i, (session, i) ∉ gt_lease g) /\ gt_lease g' = {[(session, id)]} ∪ gt_lease g
      /\ cancel_cause g' session = None
  | inr CoreCancelled => g' = g /\ (is_Some (draining g) \/ quiescing g = true)
  | inr (CoreTurnAlreadyActive s) => g' = g /\ s = session /\ admits g /\ exists i, (session, i) ∈ gt_lease g
  | inr _ => False
  end.

Lemma claim_answers (g : Gate) session : turns_inv g -> claim_answer g session (try_acquire g session).1 (try_acquire g session).2.
Proof.
  intros [Hl _]. destruct (try_acquire_cases g session) as [(-> & Had & Hno)|[[-> Hc]|(-> & Had & turn & Ht)]]; simpl.
  - split_and!; [apply Had..| |done|].
    + intros i Hi%Hl. by rewrite Hno in Hi.
    + unfold cancel_cause. simpl. by rewrite lookup_insert_eq.
  - by split.
  - split; [done|]. split; [done|]. split; [exact Had|]. exists (at_id turn). apply Hl. by rewrite Ht.
Qed.

Lemma drop_ends_turn (g : Gate) session id : turns_inv g -> (session, id) ∈ gt_lease g ->
  forall s, is_active (drop_lease g session id) s = if decide (s = session) then false else is_active g s.
Proof.
  intros [Hl _] Hin s. apply Hl in Hin. unfold drop_lease, release, is_active.
  destruct (gs_active (gt_state g) !! session) as [turn|] eqn:Et; [|done]. injection Hin as Hid. rewrite decide_True by done. simpl.
  destruct (decide (s = session)) as [->|Hne].
  - apply bool_decide_eq_false. rewrite lookup_delete_eq. by intros [].
  - by rewrite lookup_delete_ne.
Qed.

(** C40: one turn per session.  In every run of the gate, with claims, releases, cancellations, drains and quiesces interleaved in
    any way: a session has at most one lease, and it is active exactly while there is one.  A claim is granted only to an open gate and
    to a session without a lease, and gives it the one; otherwise it changes nothing and says whether the gate was closed or the
    session busy.  Dropping a lease ends the turn of its session and of no other.  While the gate drains or holds no step
    grants a lease.  And no wake-up is lost: a queued claim that sleeps and was not woken waits, with the gate open, for a turn of
    its session that is still active, or a wake-up is on its way. *)
Theorem one_turn_per_session labels (g : Gate) :
  gate_run TurnGate_default labels g ->
  (forall session i j, (session, i) ∈ gt_lease g -> (session, j) ∈ gt_lease g -> i = j)
  /\ (forall session, is_active g session = true <-> exists i, (session, i) ∈ gt_lease g)
  /\ (forall session, claim_answer g session (try_acquire g session).1 (try_acquire g session).2)
  /\ (forall session i, (session, i) ∈ gt_lease g ->
        forall s, is_active (drop_lease g session i) s = if decide (s = session) then false else is_active g s)
  /\ (forall label g', gate_step g label g' -> is_Some (draining g) \/ quiescing g = true -> gt_lease g' ⊆ gt_lease g)
  /\ (forall waiter w, gt_waiting g !! waiter = Some w -> wa_parked w = true -> wa_notified w = false -> gt_notifying g = [] ->
        draining g = None /\ quiescing g = false /\ is_active g (wa_session w) = true).
Proof.
  intros Hrun. pose proof (turns_inv_run _ _ _ Hrun turns_inv_default) as Hg. destruct (Hg) as [Hl Hp]. split_and!.
  - intros s i j Hi%Hl Hj%Hl. congruence.
  - intros s. unfold is_active. rewrite bool_decide_eq_true. setoid_rewrite Hl. destruct (gs_active (gt_state g) !! s); simpl; [|by split; intros [? ?]].
    split; [by eexists|by intros _; eexists].
  - intros s. by apply claim_answers.
  - intros s i Hi. by apply drop_ends_turn.
  - intros label g'. apply closed_gate_step.
  - intros waiter w Hw Hk Hn Hq. destruct (Hp waiter w Hw Hk Hn Hq) as [[Hd Hh] Ha]. split_and!; [done..|by apply bool_decide_eq_true].
Qed.

(** ** Turn boundaries *)

(** The turns that ended in a run. *)
Definition ended (labels : list Label) : list SessionId := omap (fun label => match label with LDrop session _ => Some session | _ => None end) labels.

Record observed (labels : list Label) (g : Gate) : Prop := {
  ob_turns : turns_inv g;
  ob_installed : gt_observer g = true;
  ob_told : gt_boundaries g ++ gt_observing g ++ omap id (gt_notifying g) ≡ₚ ended labels;
}.

Lemma observed_same labels label (g g' : Gate) :
  observed labels g -> turns_inv g' -> gt_observer g' = gt_observer g -> gt_boundaries g' = gt_boundaries g -> gt_observing g' = gt_observing g ->
  omap id (gt_notifying g') = omap id (gt_notifying g) -> ended [label] = [] -> observed (labels ++ [label]) g'.
Proof.
  intros [_ Ho Ht] Hi E1 E2 E3 E4 El. split; [done|congruence|]. unfold ended in *. rewrite omap_app, El, app_nil_r, E2, E3, E4. exact Ht.
Qed.

Lemma observed_step labels label (g g' : Gate) :
  observed labels g -> gate_step g label g' -> (forall b, label <> LObserver b) -> observed (labels ++ [label]) g'.
Proof.
  intros Hob Hstep Hno. pose proof (turns_inv_step _ _ _ (ob_turns _ _ Hob) Hstep) as Hi.
  destruct Hstep as [session g' r Hc|held waiter session g' r _ Hc|waiter w g' r Hw _ Hc|waiter w|waiter|l1 reason l2 Hq|l1 session l2 Hq
    |session id Hin|session cause|token l1 l2|token|token|session id caller|cause| | |n| | |installed].
  - apply (observed_same labels _ g); try done;
      (destruct (try_acquire_cases g session) as [(E & _ & _)|[[E _]|(E & _)]]; rewrite E in Hc; by injection Hc as <- <-).
  - apply (observed_same labels _ g); try done; (unfold acquire in Hc; case_decide; by injection Hc as <- <-).
  - apply (observed_same labels _ g); try done; unfold acquire_check in Hc;
      (destruct (try_acquire_cases g (wa_session w)) as [(E & _ & _)|[[E _]|(E & _)]]; rewrite E in Hc; by injection Hc as <- <-).
  - by apply (observed_same labels _ g).
  - by apply (observed_same labels _ g).
  - destruct Hob as [_ Ho Ht]. split; [done|done|]. unfold ended in *. rewrite omap_app, app_nil_r, <- Ht, Hq. simpl.
    rewrite !omap_app. destruct reason as [session|]; simpl; solve_Permutation.
  - destruct Hob as [_ Ho Ht]. unfold release_observe in *. rewrite Ho in *. split; [done|done|]. unfold ended in *.
    rewrite omap_app, app_nil_r, <- Ht, Hq. simpl. solve_Permutation.
  - destruct Hob as [[Hl _] Ho Ht]. apply Hl in Hin. unfold drop_lease, release in *. destruct (gs_active (gt_state g) !! session) as [turn|]; [|done].
    injection Hin as Hid. rewrite decide_True in * by done. split; [done|done|]. unfold ended in *. rewrite omap_app, <- Ht. simpl. solve_Permutation.
  - apply (observed_same labels _ g); try done; unfold cancel; by destruct (gs_active (gt_state g) !! session).
  - by apply (observed_same labels _ g).
  - by apply (observed_same labels _ g).
  - by apply (observed_same labels _ g).
  - apply (observed_same labels _ g); try done; unfold bind_cancel; simpl; destruct (gs_active (gt_state g) !! session) as [turn|]; try done;
      (destruct (decide (at_id turn = id)); [|done]); by destruct (is_cancelled _ _).
  - by apply (observed_same labels _ g).
  - by apply (observed_same labels _ g).
  - apply (observed_same labels _ g); try done; unfold lift_quiesce; by destruct (bool_decide _).
  - by apply (observed_same labels _ g).
  - apply (observed_same labels _ g); try done; unfold clear_handoff_drain; by case_decide.
  - by apply (observed_same labels _ g).
  - by destruct (Hno installed).
Qed.

(** With an observer installed from the start, the turns that ended are those it was told of and those it is about to be told of, each once. *)
Theorem turn_ends_observed labels (g : Gate) :
  gate_run (set_observer TurnGate_default true) labels g -> (forall b, LObserver b ∉ labels) ->
  gt_boundaries g ++ gt_observing g ++ omap id (gt_notifying g) ≡ₚ ended labels.
Proof.
  intros Hrun Hno. assert (observed labels g) as []; [|done].
  remember (set_observer TurnGate_default true) as g0 eqn:E0. induction Hrun as [g|g0' g g' labels label _ IH Hs].
  - subst g. split; [|done|done]. apply (turns_inv_ext TurnGate_default); [apply turns_inv_default|done..].
  - apply (observed_step _ _ g); [|exact Hs|intros b ->; apply (Hno b); set_solver]. apply IH; [done|]. intros b Hin. apply (Hno b). set_solver.
Qed.

(** ** Cancellations *)

(** Tokens stay, under their parents, and cancelled. *)
Definition tokens_le (m m' : gmap N Token) : Prop :=
  forall t x, m !! t = Some x -> exists x', m' !! t = Some x' /\ tk_parent x' = tk_parent x /\ (tk_cancelled x = true -> tk_cancelled x' = true).

Lemma tokens_le_refl m : tokens_le m m.
Proof. intros t x Hx. by exists x. Qed.

Lemma cancelled_from_mono fuel m m' token : tokens_le m m' -> cancelled_from fuel m token = true -> cancelled_from fuel m' token = true.
Proof.
  intros Hle. revert token. induction fuel as [|fuel IH]; intros token; [done|]. simpl. destruct (m !! token) as [x|] eqn:E; [|done].
  destruct (Hle _ _ E) as (x' & -> & -> & Hc). intros [Hx|Hx]%orb_prop; [by rewrite Hc|]. destruct (tk_parent x) as [parent|]; [|done].
  rewrite (IH parent) by done. apply orb_true_r.
Qed.

Lemma tokens_le_cancel m token : tokens_le m (alter (fun t => mkToken (tk_parent t) true) token m).
Proof.
  intros t x Hx. destruct (decide (t = token)) as [->|Hne]; [|rewrite lookup_alter_ne by done; by exists x].
  rewrite lookup_alter_eq, Hx. by eexists.
Qed.

Lemma tokens_le_new m token x : m !! token = None -> tokens_le m (<[token := x]> m).
Proof. intros Hno t y Hy. exists y. by rewrite lookup_insert_ne by (intros ->; congruence). Qed.

Lemma tokens_le_trans m1 m2 m3 : tokens_le m1 m2 -> tokens_le m2 m3 -> tokens_le m1 m3.
Proof.
  intros H1 H2 t x Hx. destruct (H1 _ _ Hx) as (y & Hy & Hp & Hc). destruct (H2 _ _ Hy) as (z & Hz & Hp' & Hc').
  exists z. split_and!; [done|congruence|auto].
Qed.

(** The token is cancelled or about to be. *)
Definition cancelling (g : Gate) (token : N) : Prop := is_cancelled g token = true \/ token ∈ gt_cancelling g.

Record tokens_inv (g : Gate) : Prop := {
  tv_fresh : forall t, is_Some (gt_token g !! t) -> (t < gt_next_token g)%N;
  tv_pending : forall t, t ∈ gt_cancelling g -> is_Some (gt_token g !! t);
  tv_turn : forall session turn, gs_active (gt_state g) !! session = Some turn ->
    is_Some (gt_token g !! at_cancel turn) /\ (is_Some (at_cause turn) -> cancelling g (at_cancel turn));
}.

Lemma tokens_inv_default : tokens_inv TurnGate_default.
Proof. split; simpl; [intros t|intros t Ht|intros s turn]; rewrite ?lookup_empty; [by intros []|set_solver|done]. Qed.

Lemma fresh_token (g : Gate) : tokens_inv g -> gt_token g !! gt_next_token g = None.
Proof. intros Hg. apply eq_None_not_Some. intros Hs%(tv_fresh _ Hg). lia. Qed.

(** A change that keeps tokens and what is pending of them, and leaves every turn as it was or with a token in order. *)
Lemma tokens_inv_ext (g g' : Gate) :
  tokens_inv g -> tokens_le (gt_token g) (gt_token g') -> (forall t, is_Some (gt_token g' !! t) -> (t < gt_next_token g')%N) ->
  (forall t, t ∈ gt_cancelling g' -> is_Some (gt_token g' !! t)) -> (forall t, t ∈ gt_cancelling g -> cancelling g' t) ->
  (forall session turn, gs_active (gt_state g') !! session = Some turn -> gs_active (gt_state g) !! session = Some turn
     \/ (is_Some (gt_token g' !! at_cancel turn) /\ (is_Some (at_cause turn) -> cancelling g' (at_cancel turn)))) ->
  tokens_inv g'.
Proof.
  intros [Hf Hp Ht] Hle Hf' Hp' Hc Ha. split; [done|done|]. intros s turn Hs. destruct (Ha s turn Hs) as [Hs'|Hok]; [|done].
  destruct (Ht s turn Hs') as [[x Hx] Hcause]. split.
  - destruct (Hle _ _ Hx) as (x' & Hx' & _). by eexists.
  - intros Hsome. destruct (Hcause Hsome) as [Hyes|Hyes]; [|by apply Hc]. left. revert Hyes. by apply cancelled_from_mono.
Qed.

(** Nothing but the tokens of the turns concerns the invariant. *)
Lemma tokens_inv_same (g g' : Gate) :
  tokens_inv g -> gt_token g' = gt_token g -> gt_next_token g' = gt_next_token g -> gt_cancelling g' = gt_cancelling g ->
  (forall session turn, gs_active (gt_state g') !! session = Some turn -> gs_active (gt_state g) !! session = Some turn) -> tokens_inv g'.
Proof.
  intros [Hf Hp Ht] Et En Ec Ha. split; [by rewrite Et, En|by rewrite Et, Ec|]. intros s turn Hs%Ha. unfold cancelling, is_cancelled. rewrite Et, Ec.
  by apply (Ht s turn).
Qed.

Lemma own_cancelled (m : gmap N Token) token x fuel : m !! token = Some x -> tk_cancelled x = true -> cancelled_from (S fuel) m token = true.
Proof. intros Hx Hc. simpl. by rewrite Hx, Hc. Qed.

Lemma tokens_inv_new (g : Gate) x : tokens_inv g -> tokens_inv (new_token g x).
Proof.
  intros Hg. pose proof (fresh_token g Hg) as Hno. apply (tokens_inv_ext g); [done|by apply tokens_le_new|..].
  - intros t. simpl. intros [y [[<- _]|[_ Hy]]%lookup_insert_Some]; [lia|]. assert (t < gt_next_token g)%N; [apply (tv_fresh _ Hg); by eexists|lia].
  - intros t Ht%(tv_pending _ Hg). simpl. rewrite lookup_insert_ne; [done|]. intros <-. rewrite Hno in Ht. by destruct Ht.
  - intros t Ht. by right.
  - intros s turn Hs. by left.
Qed.

Lemma tokens_inv_grant (g : Gate) session : tokens_inv g -> tokens_inv (grant g session).
Proof.
  intros Hg. pose proof (tokens_inv_new g (mkToken None false) Hg) as Hn.
  apply (tokens_inv_ext (new_token g (mkToken None false))); [done|apply tokens_le_refl|apply (tv_fresh _ Hn)|apply (tv_pending _ Hn)|by right|].
  intros s turn. simpl. intros [[<- <-]|[_ Hs]]%lookup_insert_Some; [|by left]. right. split; [|by intros []].
  simpl. rewrite lookup_insert_eq. by eexists.
Qed.

Lemma tokens_inv_cancel (g : Gate) token pending :
  tokens_inv g -> (forall t, t ∈ gt_cancelling g -> t = token \/ t ∈ pending) -> (forall t, t ∈ pending -> t ∈ gt_cancelling g) ->
  tokens_inv ((cancel_token g token) <| gt_cancelling := pending |>).
Proof.
  intros Hg H1 H2. apply (tokens_inv_ext g); [done|apply tokens_le_cancel|..].
  - intros t. simpl. rewrite lookup_alter_is_Some. apply (tv_fresh _ Hg).
  - intros t Ht. simpl. rewrite lookup_alter_is_Some. by apply (tv_pending _ Hg), H2.
  - intros t Ht. destruct (H1 t Ht) as [->|Hin]; [|by right]. left. apply (tv_pending _ Hg) in Ht as [x Hx].
    unfold is_cancelled. eapply own_cancelled; [simpl; by rewrite lookup_alter_eq, Hx|done].
  - intros s turn Hs. by left.
Qed.

Lemma tokens_inv_record (g : Gate) (active : gmap SessionId ActiveTurn) more (f : GateState -> GateState) :
  tokens_inv g -> gs_active (f (gt_state g)) = active ->
  (forall session turn, active !! session = Some turn -> exists old, gs_active (gt_state g) !! session = Some old /\ at_cancel turn = at_cancel old
     /\ (turn = old \/ at_cancel old ∈ more)) ->
  (forall t, t ∈ more -> is_Some (gt_token g !! t)) ->
  tokens_inv (g <| gt_state ::= f |> <| gt_cancelling ::= app more |>).
Proof.
  intros Hg Hf Ha Hm. apply (tokens_inv_ext g); [done|apply tokens_le_refl|apply (tv_fresh _ Hg)|..]; simpl.
  - intros t [Ht|Ht]%elem_of_app; [by apply Hm|by apply (tv_pending _ Hg)].
  - intros t Ht. right. simpl. apply elem_of_app. by right.
  - intros s turn Hs. rewrite Hf in Hs. destruct (Ha s turn Hs) as (old & Hold & Hid & Hor). destruct Hor as [->|Hin]; [by left|]. right.
    rewrite Hid. split; [by apply (tv_turn _ Hg s old)|]. intros _. right. simpl. apply elem_of_app. by left.
Qed.

Lemma tokens_inv_bind (g : Gate) session id caller :
  tokens_inv g -> raced g session = false -> tokens_inv (bind_cancel g session id caller).1.
Proof.
  intros Hg Hrace. unfold bind_cancel. set (token := gt_next_token g). pose proof (tokens_inv_new g (mkToken (Some caller) false) Hg) as Hn.
  set (g1 := new_token g _) in *. change (gs_active (gt_state g1)) with (gs_active (gt_state g)).
  destruct (gs_active (gt_state g) !! session) as [turn|] eqn:Et; [|exact Hn]. destruct (decide (at_id turn = id)); [|exact Hn]. cbn [fst].
  assert (gt_token g1 !! token = Some (mkToken (Some caller) false)) as Htok by apply lookup_insert_eq.
  unfold raced in Hrace. rewrite Et in Hrace. apply bool_decide_eq_false in Hrace.
  destruct (tv_turn _ Hn session turn Et) as [_ Hcause].
  assert (forall g2, tokens_inv g2 -> gs_active (gt_state g2) = gs_active (gt_state g) -> is_Some (gt_token g2 !! token) ->
    (is_cancelled g1 (at_cancel turn) = true -> is_cancelled g2 token = true) ->
    tokens_inv (g2 <| gt_state ::= fun state => state <| gs_active ::= <[session := mkActiveTurn (at_id turn) token (at_cause turn)]> |> |>)) as Hset.
  { intros g2 H2 Ea Hs2 Hc2. apply (tokens_inv_ext g2); [done|apply tokens_le_refl|apply (tv_fresh _ H2)|apply (tv_pending _ H2)|by right|].
    intros s t. simpl. intros [[<- <-]|[_ Ht]]%lookup_insert_Some; [|by left]. right. split; [done|]. simpl. intros Hsome. left.
    destruct (Hcause Hsome) as [Hyes|Hyes]; [by apply Hc2|by destruct Hrace]. }
  destruct (is_cancelled g1 (at_cancel turn)) eqn:Ec; [|by apply Hset].
  apply Hset; [|done|simpl; rewrite lookup_alter_is_Some; by eexists|].
  - apply (tokens_inv_cancel g1 token (gt_cancelling g1)); [done|by right|done].
  - intros _. unfold is_cancelled. eapply own_cancelled; [etrans; [apply lookup_alter_eq|by rewrite Htok]|done].
Qed.

Lemma tokens_inv_step (g g' : Gate) label :
  tokens_inv g -> gate_step g label g' -> (forall session, label <> LBind session true) -> tokens_inv g'.
Proof.
  intros Hg Hstep Hno. destruct Hstep as [session g' r Hc|held waiter session g' r _ Hc|waiter w g' r Hw _ Hc|waiter w|waiter|l1 reason l2|l1 session l2
    |session id Hin|session cause|token l1 l2 Hq|token|token|session id caller|cause| | |n| | |installed]; try by apply (tokens_inv_same g).
  - destruct (try_acquire_cases g session) as [(E & _ & Hnone)|[[E _]|(E & _)]]; rewrite E in Hc; injection Hc as <- <-; [|done..]. by apply tokens_inv_grant.
  - unfold acquire in Hc. case_decide; injection Hc as <- <-; [done|by apply (tokens_inv_same g)].
  - unfold acquire_check in Hc. destruct (try_acquire_cases g (wa_session w)) as [(E & _ & Hnone)|[[E _]|(E & _)]]; rewrite E in Hc; injection Hc as <- <-.
    + by apply (tokens_inv_same (grant g (wa_session w))); [apply tokens_inv_grant|..].
    + by apply (tokens_inv_same g).
    + by apply (tokens_inv_same g).
  - unfold release_observe. destruct (gt_observer g); by apply (tokens_inv_same g).
  - unfold drop_lease, release. destruct (gs_active (gt_state g) !! session) as [turn|]; [|by apply (tokens_inv_same g)].
    destruct (decide (at_id turn = id)); [|by apply (tokens_inv_same g)]. apply (tokens_inv_same g); [done..|]. intros s t. simpl. by intros [_ Ht]%lookup_delete_Some.
  - unfold cancel. destruct (gs_active (gt_state g) !! session) as [turn|] eqn:Et; [|done].
    apply (tokens_inv_record g (<[session := record_cause cause turn]> (gs_active (gt_state g))) [at_cancel turn]); [done|done|..].
    + intros s t [[<- <-]|[_ Ht]]%lookup_insert_Some; [exists turn; split_and!; [done|done|right; set_solver]|exists t; by split_and!; [..|left]].
    + intros t ->%list_elem_of_singleton. by apply (tv_turn _ Hg session turn).
  - apply tokens_inv_cancel; [done|..]; rewrite Hq; set_solver.
  - by apply tokens_inv_new.
  - apply (tokens_inv_cancel g token (gt_cancelling g)); [done|by right|done].
  - apply tokens_inv_bind; [done|]. destruct (raced g session); [by destruct (Hno session)|done].
  - apply (tokens_inv_same ((g <| gt_state ::= fun state => state <| gs_draining ::= fun d => Some (default cause d) |> <| gs_active ::= fmap (record_cause cause) |> |>)
      <| gt_cancelling ::= app (at_cancel <$> (map_to_list (gs_active (gt_state g))).*2) |>)); [|done..].
    apply (tokens_inv_record g (record_cause cause <$> gs_active (gt_state g))); [done|done|..].
    + intros s t (old & <- & Hold)%lookup_fmap_Some. exists old. split_and!; [done|done|right]. apply list_elem_of_fmap. exists old. split; [done|].
      apply list_elem_of_fmap. exists (s, old). split; [done|]. by apply elem_of_map_to_list.
    + intros t (turn & -> & (kv & -> & Hin)%list_elem_of_fmap)%list_elem_of_fmap. destruct kv as [s turn]. apply elem_of_map_to_list in Hin.
      by apply (tv_turn _ Hg s turn).
  - unfold lift_quiesce. destruct (bool_decide _); by apply (tokens_inv_same g).
  - unfold clear_handoff_drain. case_decide; by apply (tokens_inv_same g).
Qed.

(** A cancellation reaches its turn: unless a turn binds its token while the cancellation of the old one is under way, a turn with
    a recorded cause has a cancelled token or one about to be. *)
Theorem cancels_reach_turns labels (g : Gate) :
  gate_run TurnGate_default labels g -> (forall session, LBind session true ∉ labels) ->
  forall session turn, gs_active (gt_state g) !! session = Some turn -> is_Some (at_cause turn) -> cancelling g (at_cancel turn).
Proof.
  intros Hrun Hno. assert (tokens_inv g) as Hg; [|intros s turn Hs; apply (tv_turn _ Hg s turn Hs)].
  remember TurnGate_default as g0 eqn:E0. induction Hrun as [g|g0' g g' labels label _ IH Hs]; [subst g; apply tokens_inv_default|].
  apply (tokens_inv_step g _ label); [|exact Hs|intros s ->; apply (Hno s); set_solver]. apply IH; [done|]. intros s Hin. apply (Hno s). set_solver.
Qed.

(** The race loses the cancellation: a claim, its cancellation, the binding of a caller's token, and then the cancellation of the token
    the turn had; the cause stays recorded and nothing will cancel the turn. *)
Theorem racing_bind_loses_cancel (session : SessionId) (cause : FinishCause.t) :
  exists g turn, gate_run TurnGate_default
      [LClaim session (inl 0%N); LCancel session cause; LCaller 1; LBind session true; LCancelled 0] g
    /\ gs_active (gt_state g) !! session = Some turn /\ at_cause turn = Some cause /\ gt_cancelling g = [] /\ is_cancelled g (at_cancel turn) = false.
Proof.
  set (g1 := grant TurnGate_default session). set (g2 := (cancel g1 session cause).1). set (g3 := new_token g2 (mkToken None false)).
  set (g4 := (bind_cancel g3 session 0 1).1). set (g5 := (cancel_token g4 0) <| gt_cancelling := [] |>).
  assert (g2 = g1 <| gt_state ::= fun state => state <| gs_active ::= <[session := mkActiveTurn 0 0 (Some cause)]> |> |> <| gt_cancelling := [0%N] |>) as E2.
  { unfold g2, cancel. simpl. by rewrite lookup_insert_eq. }
  assert (gs_active (gt_state g3) !! session = Some (mkActiveTurn 0 0 (Some cause))) as H3.
  { unfold g3. rewrite E2. simpl. by rewrite lookup_insert_eq. }
  assert (g4 = (new_token g3 (mkToken (Some 1%N) false))
      <| gt_state ::= fun state => state <| gs_active ::= <[session := mkActiveTurn 0 2 (Some cause)]> |> |>) as E4.
  { unfold g4, bind_cancel. change (gs_active (gt_state (new_token g3 ?t))) with (gs_active (gt_state g3)). rewrite H3. unfold g3. by rewrite E2. }
  assert (gt_token g4 = <[2 := mkToken (Some 1) false]> (<[1 := mkToken None false]> {[0 := mkToken None false]}))%N as Et4.
  { rewrite E4. unfold g3. by rewrite E2. }
  exists g5, (mkActiveTurn 0 2 (Some cause)). split; [|split; [|split; [|split]]]; [|..|unfold is_cancelled, g5; simpl; by rewrite Et4]; try done.
  - apply (run_snoc _ g4 _ [_; _; _; _]); [apply (run_snoc _ g3 _ [_; _; _]); [apply (run_snoc _ g2 _ [_; _]); [apply (run_snoc _ g1 _ [_]);
      [apply (run_snoc _ TurnGate_default _ []); [constructor|by apply step_claim]|]|]|]|].
    + apply step_cancel.
    + assert (gt_next_token g2 = 1%N) as <- by (by rewrite E2). apply step_new_caller.
    + assert (raced g3 session = true) as <-.
      { unfold raced. rewrite H3. unfold g3. by rewrite E2. }
      apply step_bind; unfold g3; rewrite E2; simpl; [set_solver|by eexists].
    + apply (step_cancelled _ 0 []). by rewrite E4; unfold g3; rewrite E2.
  - unfold g5. simpl. rewrite E4. simpl. by rewrite lookup_insert_eq.
Qed.
End gate.

(** ** A concrete run: a queued claim sleeps behind an active turn. *)
Module TurnGateDemo.
Import Demo.

Definition lead : SessionId := Hysec "00000000000000000000".
Definition first_gate : Gate := grant TurnGate_default lead.
Definition queued_gate : Gate := (acquire first_gate [] 3 lead).1.
Definition busy_gate : Gate := (acquire_check queued_gate 3 lead).1.

Lemma first_gate_claim : try_acquire TurnGate_default lead = (first_gate, inl 0%N).
Proof. reflexivity. Qed.
Lemma queued_gate_queue : acquire first_gate [] 3 lead = (queued_gate, inl tt).
Proof. reflexivity. Qed.
Lemma busy_gate_check : acquire_check queued_gate 3 lead = (busy_gate, None).
Proof. reflexivity. Qed.
Lemma queued_gate_waiter : gt_waiting queued_gate !! 3%N = Some (mkWaiter lead false false).
Proof. reflexivity. Qed.

Lemma busy_gate_run : gate_run TurnGate_default [LClaim lead (inl 0%N); LQueue 3; LCheck 3 None] busy_gate.
Proof.
  apply (run_snoc _ queued_gate _ [_; _]); [apply (run_snoc _ first_gate _ [_]); [apply (run_snoc _ TurnGate_default _ []); [constructor|]|]|].
  - exact (step_claim _ _ _ _ first_gate_claim).
  - exact (step_queue first_gate [] 3%N lead _ _ eq_refl queued_gate_queue).
  - exact (step_check queued_gate 3%N _ _ _ queued_gate_waiter eq_refl busy_gate_check).
Qed.

Lemma busy_gate_parked : gt_waiting busy_gate !! 3%N = Some (mkWaiter lead true false) /\ gt_notifying busy_gate = [].
Proof. split; reflexivity. Qed.
Lemma busy_gate_lease : (lead, 0%N) ∈ gt_lease busy_gate.
Proof. change (gt_lease busy_gate) with ({[(lead, 0%N)]} ∪ ∅ : gset (SessionId * N)). set_solver. Qed.
End TurnGateDemo.

(** The sleeping claim waits for the one active turn, whose end ends it. *)
Lemma one_turn_per_session_witness :
  gt_waiting TurnGateDemo.busy_gate !! 3%N = Some (mkWaiter TurnGateDemo.lead true false) /\ gt_notifying TurnGateDemo.busy_gate = []
  /\ is_active TurnGateDemo.busy_gate TurnGateDemo.lead = true
  /\ is_active (drop_lease TurnGateDemo.busy_gate TurnGateDemo.lead 0) TurnGateDemo.lead = false.
Proof.
  destruct (one_turn_per_session _ _ TurnGateDemo.busy_gate_run) as (_ & Hactive & _ & Hdrop & _ & Hpark).
  destruct TurnGateDemo.busy_gate_parked as [Hw Hq]. pose proof (Hpark _ _ Hw eq_refl eq_refl Hq) as (_ & _ & Hact).
  split; [exact Hw|]. split; [exact Hq|]. split; [exact Hact|].
  rewrite (Hdrop TurnGateDemo.lead 0%N); [by rewrite decide_True|]. exact TurnGateDemo.busy_gate_lease.
Defined.
