(* ===== verification/Routing.v ===== *)
(** * Model routes and failover ([hya-provider/src/{lib,router}.rs], [hya-core/src/workflow/mod.rs],
      [hya-core/src/engine/turn.rs], [hya-core/src/hooks.rs])

    A request for a completion goes to the first provider that claims the model and fails over only
    while no event stream exists.  Above the router a turn walks either the configured fallback chain
    of its model and then the [model.fallback] hooks, or the route a Workflow assigned to it;
    [WorkflowTurnRoute] keeps what it did for one durable outcome. *)

From stdpp Require Import pretty.
From S2P Require Import Prelude Result RustStr Text Platform Ids Scope Wire Workflow Usage Events Effects Iteration.

(** ** Reasoning efforts *)

Inductive ReasoningEffort := EffortOff | Minimal | Low | Medium | High | XHigh | Max.
#[global] Instance ReasoningEffort_eq_dec : EqDecision ReasoningEffort.
Proof. solve_decision. Defined.
#[global] Instance ReasoningEffort_countable : Countable ReasoningEffort.
Proof.
  refine (inj_countable'
    (fun e => match e with EffortOff => 0 | Minimal => 1 | Low => 2 | Medium => 3 | High => 4 | XHigh => 5 | Max => 6 end)
    (fun n => match n with 0 => EffortOff | 1 => Minimal | 2 => Low | 3 => Medium | 4 => High | 5 => XHigh | _ => Max end) _).
  by intros [].
Defined.

Definition effort_parse (s : string) : option ReasoningEffort :=
  let name := to_ascii_lowercase (trim s) in
  if decide (name = "off" \/ name = "none") then Some EffortOff
  else if decide (name = "minimal") then Some Minimal
  else if decide (name = "low") then Some Low
  else if decide (name = "medium" \/ name = "med") then Some Medium
  else if decide (name = "high") then Some High
  else if decide (name = "xhigh") then Some XHigh
  else if decide (name = "max") then Some Max
  else None.

Definition effort_as_str (e : ReasoningEffort) : string :=
  match e with
  | EffortOff => "none" | Minimal => "minimal" | Low => "low" | Medium => "medium"
  | High => "high" | XHigh => "xhigh" | Max => "max"
  end.

(** ** Provider errors *)

Inductive ProviderError :=
  | PeJson (text : string)
  | PeHttp (text : string)
  | PeTransport (text : string)
  | PeHttpStatus (status : N) (message : string) (retry_after : option N)
  | PeUnknownModel (model : string)
  | PeIncompatible (text : string)
  | PeDecode (text : string)
  | PeAuthExpired (provider hint : string).

Definition ProviderError_to_string (e : ProviderError) : string :=
  match e with
  | PeJson text => "json: " +:+ text
  | PeHttp text => "http: " +:+ text
  | PeTransport text => "transport: " +:+ text
  | PeHttpStatus status message _ => "http status " +:+ pretty status +:+ ": " +:+ message
  | PeUnknownModel model => "unknown provider for model: " +:+ model
  | PeIncompatible text => "incompatible route: " +:+ text
  | PeDecode text => "decode: " +:+ text
  | PeAuthExpired provider hint => "auth expired for provider '" +:+ provider +:+ "': " +:+ hint
  end.

Definition is_server_status (status : N) : bool := (500 <=? status)%N && (status <=? 599)%N.

Definition is_retryable_before_stream (e : ProviderError) : bool :=
  match e with
  | PeTransport _ => true
  | PeHttpStatus status _ _ => (status =? 429)%N || is_server_status status
  | _ => false
  end.

Definition is_unknown_model (e : ProviderError) : bool :=
  match e with PeUnknownModel _ => true | _ => false end.

Definition workflow_provider_failure_class (e : ProviderError) : WorkflowRouteFailureClass.t :=
  match e with
  | PeTransport _ => WorkflowRouteFailureClass.Transport
  | PeHttpStatus status _ _ =>
      if (status =? 429)%N then WorkflowRouteFailureClass.RateLimited
      else if is_server_status status then WorkflowRouteFailureClass.Server
      else WorkflowRouteFailureClass.Http
  | PeUnknownModel _ => WorkflowRouteFailureClass.UnknownModel
  | PeAuthExpired _ _ => WorkflowRouteFailureClass.Auth
  | PeIncompatible _ => WorkflowRouteFailureClass.Incompatible
  | PeDecode _ => WorkflowRouteFailureClass.Decode
  | PeJson _ | PeHttp _ => WorkflowRouteFailureClass.Http
  end.

Module ModelFailureClass.
Inductive t := Retryable | UnknownModel | Auth | InvalidRequest | Other.

Definition of_error (e : ProviderError) : t :=
  if is_retryable_before_stream e then Retryable else
  match e with
  | PeUnknownModel _ => UnknownModel
  | PeAuthExpired _ _ => Auth
  | PeHttpStatus status _ _ =>
      if (status =? 401)%N || (status =? 403)%N then Auth
      else if (400 <=? status)%N && (status <? 500)%N then InvalidRequest
      else Other
  | PeIncompatible _ => InvalidRequest
  | _ => Other
  end.
End ModelFailureClass.

(** ** Requests and providers *)

Record Capabilities := mkCapabilities {
  streaming_tool_calls : bool;
  parallel_tool_calls : bool;
  usage_reporting : bool;
  json_output : bool;
  reasoning_stream : bool;
  reasoning_request : bool;
  max_context : N;
  max_output : N;
  image_input : option bool;
  prompt_caching : bool;
}.

Section routing.
Context `{U : UuidLib} `{J : JsonLib}.
(** [ToolSchema]; the other fields of a request that routing only hands on; an open event stream *)
Context {Tool Body Stream : Type}.

Record CompletionRequest := mkCompletionRequest {
  cr_model : ModelRef;
  cr_tools : list Tool;
  cr_reasoning : option ReasoningEffort;
  cr_body : Body;
}.

(** [trait Provider], without its stream: the provider at position [i] of the router opens one by the
    call [ProviderStream i]. *)
Record Provider := mkProvider {
  pv_capabilities : ModelRef -> option Capabilities;
  pv_reasoning_default : ModelRef -> option ReasoningEffort;
  pv_supports_reasoning_effort : ModelRef -> ReasoningEffort -> option bool;
}.

(** [ProviderRouter] *)
Definition Router : Type := list Provider.

(** The first provider that claims the model. *)
Definition claiming (router : Router) (model : ModelRef) : option Provider :=
  find_first (fun p => is_Some (pv_capabilities p model)) router.
Definition router_capabilities (router : Router) (model : ModelRef) : option Capabilities :=
  p ← claiming router model; pv_capabilities p model.
Definition reasoning_default (router : Router) (model : ModelRef) : option ReasoningEffort :=
  p ← claiming router model; pv_reasoning_default p model.
Definition supports_reasoning_effort (router : Router) (model : ModelRef) (effort : ReasoningEffort) :
    option bool :=
  p ← claiming router model; pv_supports_reasoning_effort p model effort.

Definition preflight (caps : Capabilities) (req : CompletionRequest) : unit + ProviderError :=
  if negb (bool_decide (length (cr_tools req) = 0)) && negb (streaming_tool_calls caps)
  then inr (PeIncompatible "route does not support streaming tool calls")
  else inl tt.

(** ** Calls of a turn *)

Record ModelFallbackInput := mkModelFallbackInput {
  mf_session : SessionId;
  mf_root_session : SessionId;
  mf_agent : option AgentName;
  mf_message : MessageId;
  mf_model : ModelRef;
  mf_error_class : ModelFailureClass.t;
  mf_error_message : string;
  mf_attempt : N;
  mf_tried : list ModelRef;
}.

Inductive ModelFallbackOutcome :=
  | Retry (model : ModelRef)
  | GiveUp.

Inductive RouteEff : Type -> Type :=
  | ProviderStream (provider : nat) (req : CompletionRequest) : RouteEff (Stream + ProviderError)
  | RequestRootSession (session : SessionId) : RouteEff SessionId
  | HookFallback (dispatcher : nat) (input : ModelFallbackInput) : RouteEff ModelFallbackOutcome.

(** [ProviderRouter::stream] from the provider at position [index] on *)
Fixpoint stream_from (index : nat) (providers : list Provider) (last_retryable_error : option ProviderError)
    (req : CompletionRequest) : Task RouteEff (Stream + ProviderError) :=
  match providers with
  | [] => Ret (inr (default (PeUnknownModel (as_str (cr_model req))) last_retryable_error))
  | provider :: rest =>
      match pv_capabilities provider (cr_model req) with
      | None => stream_from (S index) rest last_retryable_error req
      | Some caps =>
          match preflight caps req with
          | inr e => Ret (inr e)
          | inl _ =>
              let routed := if reasoning_request caps then req
                            else mkCompletionRequest (cr_model req) (cr_tools req) None (cr_body req) in
              let* r := call (ProviderStream index routed) in
              match r with
              | inl stream => Ret (inl stream)
              | inr e => if is_retryable_before_stream e then stream_from (S index) rest (Some e) req
                         else Ret (inr e)
              end
          end
      end
  end.

Definition router_stream (router : Router) (req : CompletionRequest) : Task RouteEff (Stream + ProviderError) :=
  stream_from 0 router None req.

(** ** The configured chain and the hooks *)

(** [SessionEngine::with_model_fallbacks] and [model_fallback_chain] *)
Definition with_model_fallbacks (fallbacks : gmap ModelRef (list ModelRef)) : gmap ModelRef (list ModelRef) :=
  filter (fun '(preferred, chain) => head chain = Some preferred) fallbacks.

Definition reasoning_for_model (model : ModelRef) (fallback : option ReasoningEffort) :
    option ReasoningEffort :=
  match rsplit_once "#"%char (as_str model) with
  | Some (_, variant) => effort_parse variant
  | None => fallback
  end.

Definition with_model_request (req : CompletionRequest) (model : ModelRef) (reasoning : option ReasoningEffort) :
    CompletionRequest :=
  mkCompletionRequest model (cr_tools req) reasoning (cr_body req).

Definition stream_model_candidate (router : Router) (req : CompletionRequest) (model : ModelRef) :
    Task RouteEff (Stream + ProviderError) :=
  router_stream router (with_model_request req model (reasoning_for_model model (cr_reasoning req))).

Definition MODEL_FALLBACK_MAX_ATTEMPTS : nat := 8.

(** What the chain leaves: the stream, or the candidates tried and the last failure. *)
Fixpoint walk_chain (router : Router) (req : CompletionRequest) (tried candidates : list ModelRef) :
    Task RouteEff (Stream * ModelRef + list ModelRef * option (ModelRef * ProviderError)) :=
  match candidates with
  | [] => Ret (inr (tried, None))
  | candidate :: rest =>
      let tried := tried ++ [candidate] in
      let* r := stream_model_candidate router req candidate in
      match r with
      | inl stream => Ret (inl (stream, candidate))
      | inr e =>
          if bool_decide (rest <> []) && (is_retryable_before_stream e || is_unknown_model e)
          then walk_chain router req tried rest
          else Ret (inr (tried, Some (candidate, e)))
      end
  end.

(** The composite dispatcher asks its dispatchers in order. *)
Fixpoint dispatch_fallback (dispatcher : nat) (count : nat) (input : ModelFallbackInput) :
    Task RouteEff ModelFallbackOutcome :=
  match count with
  | O => Ret GiveUp
  | S count =>
      let* outcome := call (HookFallback dispatcher input) in
      match outcome with
      | Retry model => Ret (Retry model)
      | GiveUp => dispatch_fallback (S dispatcher) count input
      end
  end.

(** [request_root_session] *)
Definition request_root_session (session : SessionId) (cache : option SessionId) :
    Task RouteEff (SessionId * option SessionId) :=
  match cache with
  | Some root => Ret (root, cache)
  | None => let* root := call (RequestRootSession session) in Ret (root, Some root)
  end.

Record HookRound := mkHookRound {
  hr_tried : list ModelRef;
  hr_failed : ModelRef;
  hr_error : ProviderError;
  hr_root : option SessionId;
}.

(** One round of [while tried.len() < MODEL_FALLBACK_MAX_ATTEMPTS]; [hooks] dispatchers are active. *)
Definition hook_round (router : Router) (req : CompletionRequest) (session : SessionId)
    (message : MessageId) (agent : AgentName) (hooks : nat) (st : HookRound) :
    Task RouteEff (HookRound + (Stream * ModelRef + ProviderError)) :=
  if decide (length (hr_tried st) < MODEL_FALLBACK_MAX_ATTEMPTS) then
    let* (root, cache) := request_root_session session (hr_root st) in
    let* outcome := dispatch_fallback 0 hooks
      (mkModelFallbackInput session root (Some agent) message (hr_failed st)
         (ModelFailureClass.of_error (hr_error st)) (ProviderError_to_string (hr_error st))
         (N.min (N.of_nat (length (hr_tried st))) (umax 32)) (hr_tried st)) in
    match outcome with
    | GiveUp => Ret (inr (inr (hr_error st)))
    | Retry model =>
        if decide (model ∈ hr_tried st) then Ret (inr (inr (hr_error st)))
        else
          let* r := stream_model_candidate router req model in
          match r with
          | inl stream => Ret (inr (inl (stream, model)))
          | inr e => Ret (inl (mkHookRound (hr_tried st ++ [model]) model e cache))
          end
    end
  else Ret (inr (inr (hr_error st))).

(** [stream_with_model_fallback]; [hooks] is [None] without an active dispatcher. *)
Definition stream_with_model_fallback (router : Router) (fallbacks : gmap ModelRef (list ModelRef))
    (req : CompletionRequest) (session : SessionId) (message : MessageId) (agent : AgentName)
    (root_session_cache : option SessionId) (hooks : option nat) :
    Task RouteEff (Stream * ModelRef + ProviderError) :=
  let candidates := default [cr_model req] (fallbacks !! cr_model req) in
  let* r := walk_chain router req [] candidates in
  match r with
  | inl opened => Ret (inl opened)
  | inr (_, None) => Ret (inr (PeUnknownModel (as_str (cr_model req))))
  | inr (tried, Some (failed, error)) =>
      match hooks with
      | None => Ret (inr error)
      | Some hooks =>
          Iter (hook_round router req session message agent hooks)
            (mkHookRound tried failed error root_session_cache) Ret
      end
  end.

(** ** Workflow routes *)

Record WorkflowModelRouteCandidate := mkRouteCandidate {
  rc_model : ModelRef;
  rc_reasoning : ReasoningEffort;
}.

Record WorkflowModelRoute := mkWorkflowModelRoute {
  candidates : list WorkflowModelRouteCandidate;
  selected_index : nat;
}.
#[global] Instance WorkflowModelRouteCandidate_eq_dec : EqDecision WorkflowModelRouteCandidate.
Proof. solve_decision. Defined.
#[global] Instance WorkflowModelRoute_eq_dec : EqDecision WorkflowModelRoute.
Proof. solve_decision. Defined.

(** [WorkflowModelRoute::selected] *)
Definition route_selected (route : WorkflowModelRoute) : option WorkflowModelRouteCandidate :=
  candidates route !! selected_index route.

Record WorkflowRouteAttempt := mkWorkflowRouteAttempt {
  at_step : N;
  at_candidate_index : option nat;
  at_pending_failure : option WorkflowRouteFailureClass.t;
}.
Definition WorkflowRouteAttempt_default : WorkflowRouteAttempt := mkWorkflowRouteAttempt 0 None None.

(** The attempt is behind a mutex that every clone of the route shares. *)
Record WorkflowTurnRoute := mkWorkflowTurnRoute {
  tr_route : WorkflowModelRoute;
  tr_session : SessionId;
  tr_run : option WorkflowRunId;
  tr_stage : string;
  tr_member : MemberId;
  tr_role : WorkflowMemberRole.t;
  tr_iteration : N;
  tr_recorder : bool;
}.

Definition begin_attempt (candidate_index : nat) (a : WorkflowRouteAttempt) : WorkflowRouteAttempt :=
  mkWorkflowRouteAttempt (at_step a) (Some candidate_index)
    (match at_candidate_index a with None => None | Some _ => at_pending_failure a end).

Definition record_failure (candidate_index : nat) (failure : WorkflowRouteFailureClass.t)
    (a : WorkflowRouteAttempt) : WorkflowRouteAttempt :=
  mkWorkflowRouteAttempt (at_step a) (Some candidate_index) (Some failure).

Definition attempt_selected (candidate_index : nat) (pending_failure : option WorkflowRouteFailureClass.t)
    (a : WorkflowRouteAttempt) : WorkflowRouteAttempt :=
  mkWorkflowRouteAttempt (at_step a) (Some candidate_index) pending_failure.

(** [finalize]: the attempt afterwards and the event handed to the recorder. *)
Definition finalize (route : WorkflowTurnRoute) (failure : option WorkflowRouteFailureClass.t)
    (a : WorkflowRouteAttempt) : WorkflowRouteAttempt * (option Event.t + CoreError) :=
  match at_candidate_index a with
  | None => (a, inl None)
  | Some candidate_index =>
      let step := at_step a in
      let pending_failure := at_pending_failure a in
      (mkWorkflowRouteAttempt (sat_add 32 step 1) None None,
       match candidates (tr_route route) !! candidate_index with
       | None => inr (CoreInvalid "Workflow route selected candidate is out of bounds")
       | Some candidate =>
           match tr_run route with
           | None => inl None
           | Some run =>
               if tr_recorder route then
                 inl (Some (Event.WorkflowStageRouteOutcome (tr_session route) run (tr_stage route)
                   (tr_member route) (tr_role route) (tr_iteration route) step
                   (N.min (N.of_nat candidate_index) (umax 32)) (rc_model candidate)
                   (effort_as_str (rc_reasoning candidate))
                   (default WorkflowRouteFailureClass.NoFailure
                      (match failure with Some _ => failure | None => pending_failure end))))
               else inl None
           end
       end)
  end.

(** [stream_with_workflow_route] from the candidate [index] on *)
Fixpoint walk_route (router : Router) (req : CompletionRequest) (index : nat)
    (rest : list WorkflowModelRouteCandidate) (pending_failure : option WorkflowRouteFailureClass.t)
    (a : WorkflowRouteAttempt) :
    Task RouteEff (WorkflowRouteAttempt * (Stream * ModelRef + ProviderError)) :=
  match rest with
  | [] => Ret (a, inr (PeUnknownModel "Workflow route has no candidate"))
  | candidate :: rest =>
      let a := begin_attempt index a in
      let* r := router_stream router
        (with_model_request req (rc_model candidate) (Some (rc_reasoning candidate))) in
      match r with
      | inl stream => Ret (attempt_selected index pending_failure a, inl (stream, rc_model candidate))
      | inr e =>
          let failure := workflow_provider_failure_class e in
          let advance := (is_retryable_before_stream e || is_unknown_model e) && bool_decide (rest <> []) in
          let a := record_failure index failure a in
          if negb advance then Ret (a, inr e)
          else walk_route router req (S index) rest (Some failure) a
      end
  end.

Definition stream_with_workflow_route (router : Router) (req : CompletionRequest)
    (route : WorkflowModelRoute) (a : WorkflowRouteAttempt) :
    Task RouteEff (WorkflowRouteAttempt * (Stream * ModelRef + ProviderError)) :=
  walk_route router req (selected_index route) (drop (selected_index route) (candidates route)) None a.
End routing.
