(* ===== verification/Governor.v ===== *)
(** * The subagent governor ([hya-core/src/orchestrator.rs])

    Budgets per top-level run: members drawn from [per_run_budget], debits of durable operations that
    are made once and released once, and the counters that kill a runaway team.  Every operation
    holds one mutex, so the operations interleave as a sequence of state changes.  The semaphores of
    provider streams belong to the runtime. *)

From S2P Require Import Prelude RustStr Platform Ids.

Definition DEFAULT_GENERAL_STREAM_PERMITS : N := 100.
Definition MAX_GENERAL_STREAM_PERMITS : N := DEFAULT_GENERAL_STREAM_PERMITS.
Definition RESERVED_STREAM_PERMITS : N := 28.

Record SubagentLimits := mkSubagentLimits {
  max_concurrency : N;
  per_run_budget : N;
  per_team_turn_budget : N;
  per_team_message_budget : N;
}.
#[global] Instance SubagentLimits_eta : EtaRecord SubagentLimits := fun r =>
  mkSubagentLimits (max_concurrency r) (per_run_budget r) (per_team_turn_budget r) (per_team_message_budget r).

Definition SubagentLimits_default : SubagentLimits :=
  mkSubagentLimits DEFAULT_GENERAL_STREAM_PERMITS 1024 1024 1024.

Inductive TeamBudget := BudgetOk | BudgetExceeded.

Module OperationReservation.
Inductive t := Acquired | Existing | Conflict | Overloaded.
End OperationReservation.

Section governor.
Context `{U : UuidLib}.
(** [OperationId]; the cancellation token of an operation is not needed for the budgets. *)
Context {OperationId : Type} `{!EqDecision OperationId} `{!Countable OperationId}.

Record OperationDebit := mkOperationDebit { od_root : SessionId; od_units : N }.
#[global] Instance OperationDebit_eq_dec : EqDecision OperationDebit.
Proof. solve_decision. Defined.

Record Governor := mkGovernor {
  gv_limits : SubagentLimits;
  gv_remaining : gmap SessionId N;
  gv_operations : gmap OperationId OperationDebit;
  gv_team_turns : gmap SessionId N;
  gv_team_messages : gmap SessionId N;
}.
#[global] Instance Governor_eta : EtaRecord Governor := fun r =>
  mkGovernor (gv_limits r) (gv_remaining r) (gv_operations r) (gv_team_turns r) (gv_team_messages r).

Definition governor_new (limits : SubagentLimits) : Governor :=
  mkGovernor (limits <| max_concurrency ::= fun n => N.max 1 (N.min n MAX_GENERAL_STREAM_PERMITS) |>) ∅ ∅ ∅ ∅.

(** [remaining_budget], and what [entry(root).or_insert(per_run_budget)] reads *)
Definition remaining_budget (g : Governor) (root : SessionId) : N :=
  default (per_run_budget (gv_limits g)) (gv_remaining g !! root).

Definition set_remaining (root : SessionId) (units : N) (g : Governor) : Governor :=
  g <| gv_remaining ::= <[root := units]> |>.

Definition reserve (root : SessionId) (want : N) (g : Governor) : Governor * N :=
  let remaining := remaining_budget g root in
  let granted := N.min want remaining in
  (set_remaining root (remaining - granted) g, granted).

Definition try_reserve_exact (root : SessionId) (want : N) (g : Governor) : Governor * bool :=
  let remaining := remaining_budget g root in
  if decide (remaining < want)%N then (set_remaining root remaining g, false)
  else (set_remaining root (remaining - want) g, true).

Definition try_reserve_operation (root : SessionId) (operation : OperationId) (units : N) (g : Governor) :
    Governor * OperationReservation.t :=
  match gv_operations g !! operation with
  | Some existing =>
      (g, if decide (existing = mkOperationDebit root units) then OperationReservation.Existing
          else OperationReservation.Conflict)
  | None =>
      let remaining := remaining_budget g root in
      if decide (units = 0 \/ remaining < units)%N
      then (set_remaining root remaining g, OperationReservation.Overloaded)
      else ((set_remaining root (remaining - units) g)
              <| gv_operations ::= <[operation := mkOperationDebit root units]> |>,
            OperationReservation.Acquired)
  end.

(** [remaining.saturating_add(units).min(per_run_budget)] *)
Definition credit (g : Governor) (remaining units : N) : N :=
  N.min (sat_add 64 remaining units) (per_run_budget (gv_limits g)).

Definition release_operation (operation : OperationId) (g : Governor) : Governor * bool :=
  match gv_operations g !! operation with
  | None => (g, false)
  | Some debit =>
      let g := g <| gv_operations ::= delete operation |> in
      (g <| gv_remaining ::= alter (fun remaining => credit g remaining (od_units debit)) (od_root debit) |>, true)
  end.

(** The operations that [cancel_operations] cancels; their debits stay. *)
Definition cancel_operations (root : SessionId) (g : Governor) : list OperationId :=
  (filter (fun '(_, debit) => od_root debit = root) (map_to_list (gv_operations g))).*1.

Definition has_operations (g : Governor) (root : SessionId) : bool :=
  negb (bool_decide (filter (fun '(_, debit) => od_root debit = root) (gv_operations g) = ∅)).

Definition refund_reserved (root : SessionId) (units : N) (g : Governor) : Governor :=
  match gv_remaining g !! root with
  | None => g
  | Some remaining =>
      let remaining := credit g remaining units in
      if bool_decide (remaining = per_run_budget (gv_limits g)) && negb (has_operations g root)
      then g <| gv_remaining ::= delete root |>
      else set_remaining root remaining g
  end.

Definition release (root : SessionId) (g : Governor) : Governor :=
  g <| gv_remaining ::= delete root |>
    <| gv_operations ::= filter (fun '(_, debit) => od_root debit <> root) |>.

(** [charge]: a budget of zero never trips. *)
Definition charge (counters : gmap SessionId N) (root : SessionId) (budget : N) :
    gmap SessionId N * TeamBudget :=
  if decide (budget = 0)%N then (counters, BudgetOk)
  else
    let count := sat_add 64 (default 0%N (counters !! root)) 1 in
    (<[root := count]> counters, if decide (budget < count)%N then BudgetExceeded else BudgetOk).

Definition charge_team_turn (root : SessionId) (g : Governor) : Governor * TeamBudget :=
  let '(counters, r) := charge (gv_team_turns g) root (per_team_turn_budget (gv_limits g)) in
  (g <| gv_team_turns := counters |>, r).
Definition charge_team_message (root : SessionId) (g : Governor) : Governor * TeamBudget :=
  let '(counters, r) := charge (gv_team_messages g) root (per_team_message_budget (gv_limits g)) in
  (g <| gv_team_messages := counters |>, r).
Definition release_team (root : SessionId) (g : Governor) : Governor :=
  g <| gv_team_turns ::= delete root |> <| gv_team_messages ::= delete root |>.
End governor.

(** * What the governor guarantees

    The clients of the governor hold what they reserved until they refund it; an operation's debit is
    held by the governor.  Whatever the order of their calls, the budget of every root is conserved. *)

Section conservation.
Context `{U : UuidLib} {OperationId : Type} `{!EqDecision OperationId} `{!Countable OperationId}.
Local Abbreviation Governor := (Governor (OperationId := OperationId)).
Implicit Types (g : Governor) (root : SessionId) (held : gmap SessionId N).

(** The units of the live operations of a root. *)
Definition add_debit root (_ : OperationId) (debit : OperationDebit) (total : N) : N :=
  if decide (od_root debit = root) then (od_units debit + total)%N else total.
Definition debits g root : N := map_fold (add_debit root) 0%N (gv_operations g).

Lemma add_debit_comm root (m : gmap OperationId OperationDebit) j1 j2 z1 z2 y :
  j1 <> j2 -> m !! j1 = Some z1 -> m !! j2 = Some z2 ->
  add_debit root j1 z1 (add_debit root j2 z2 y) = add_debit root j2 z2 (add_debit root j1 z1 y).
Proof. intros _ _ _. unfold add_debit. repeat case_decide; lia. Qed.

Definition total_of root (m : gmap OperationId OperationDebit) : N := map_fold (add_debit root) 0%N m.

Lemma total_insert root m operation debit : m !! operation = None ->
  total_of root (<[operation := debit]> m) = add_debit root operation debit (total_of root m).
Proof. intros Hm. unfold total_of. apply map_fold_insert_L; [|done]. intros. by eapply add_debit_comm. Qed.

Lemma total_delete root m operation debit : m !! operation = Some debit ->
  total_of root m = add_debit root operation debit (total_of root (delete operation m)).
Proof.
  intros Hm. rewrite <- (insert_delete_id m operation debit) at 1 by done.
  apply total_insert, lookup_delete_eq.
Qed.

Lemma total_zero root m : (forall operation debit, m !! operation = Some debit -> od_root debit <> root) ->
  total_of root m = 0%N.
Proof.
  induction m as [|operation debit m Hno IH] using map_ind; intros H; [done|].
  rewrite total_insert by done. unfold add_debit. rewrite decide_False by (eapply H, lookup_insert_eq).
  apply IH. intros op d Hop. eapply H. rewrite lookup_insert_ne; [done|congruence].
Qed.

Lemma total_filter_other root r m : root <> r ->
  total_of root (filter (fun '(_, debit) => od_root debit <> r) m) = total_of root m.
Proof.
  intros Hne. induction m as [|operation debit m Hno IH] using map_ind; [done|].
  rewrite total_insert by done. destruct (decide (od_root debit <> r)) as [Hd|Hd].
  - rewrite map_filter_insert_True by done. rewrite total_insert; [by rewrite IH|].
    apply map_lookup_filter_None. by left.
  - rewrite map_filter_insert_not' by (intros; congruence || done). rewrite IH. unfold add_debit.
    apply dec_stable in Hd. by rewrite decide_False by congruence.
Qed.

(** What the clients of a root hold of its present budget, what they still hold of budgets that were released under them,
    and what of the latter came back since the last release. *)
Record Clients := mkClients { cl_held : gmap SessionId N; cl_stale : gmap SessionId N; cl_late : gmap SessionId N }.
#[global] Instance Clients_eta : EtaRecord Clients := fun c => mkClients (cl_held c) (cl_stale c) (cl_late c).

Definition units_of (m : gmap SessionId N) root : N := default 0%N (m !! root).
Definition hold root (units : N) (m : gmap SessionId N) : gmap SessionId N := <[root := (units_of m root + units)%N]> m.
Definition unhold root (units : N) (m : gmap SessionId N) : gmap SessionId N := <[root := (units_of m root - units)%N]> m.

(** The calls of the clients: what was granted is held, for ever (a team) or until it is refunded (a Workflow); a root may be
    released whatever is held of it, and a refund may come after that. *)
Inductive governor_step : Governor * Clients -> Governor * Clients -> Prop :=
  | step_reserve g c root want :
      governor_step (g, c) ((reserve root want g).1, c <| cl_held ::= hold root (reserve root want g).2 |>)
  | step_reserve_exact g c root want :
      governor_step (g, c) ((try_reserve_exact root want g).1,
        if (try_reserve_exact root want g).2 then c <| cl_held ::= hold root want |> else c)
  | step_reserve_operation g c root operation units :
      governor_step (g, c) ((try_reserve_operation root operation units g).1, c)
  | step_release_operation g c operation :
      governor_step (g, c) ((release_operation operation g).1, c)
  | step_refund g c root units : (units <= units_of (cl_held c) root)%N ->
      governor_step (g, c) (refund_reserved root units g, c <| cl_held ::= unhold root units |>)
  | step_refund_late g c root units : (units <= units_of (cl_stale c) root)%N ->
      governor_step (g, c) (refund_reserved root units g, c <| cl_stale ::= unhold root units |> <| cl_late ::= hold root units |>)
  | step_release g c root :
      governor_step (g, c) (release root g,
        c <| cl_held ::= delete root |> <| cl_stale ::= hold root (units_of (cl_held c) root) |> <| cl_late ::= delete root |>).

(** What remains of a root, what is held of it and what its live operations are debited. *)
Definition accounted (s : Governor * Clients) root : N :=
  (remaining_budget s.1 root + units_of (cl_held s.2) root + debits s.1 root)%N.

Record conserved (limits : SubagentLimits) (s : Governor * Clients) : Prop := {
  co_limits : gv_limits s.1 = gv_limits (governor_new (OperationId := OperationId) limits);
  co_tracked operation debit : gv_operations s.1 !! operation = Some debit ->
    is_Some (gv_remaining s.1 !! od_root debit);
  co_bound root : (remaining_budget s.1 root <= per_run_budget limits)%N;
  co_sum root : (per_run_budget limits <= accounted s root <= per_run_budget limits + units_of (cl_late s.2) root)%N;
}.

Lemma remaining_set root r units g :
  remaining_budget (set_remaining root units g) r = if decide (r = root) then units else remaining_budget g r.
Proof.
  unfold remaining_budget, set_remaining. simpl. case_decide as H; [subst; by rewrite lookup_insert_eq|].
  by rewrite lookup_insert_ne.
Qed.

Lemma units_insert root r units (m : gmap SessionId N) :
  units_of (<[root := units]> m) r = if decide (r = root) then units else units_of m r.
Proof.
  unfold units_of. case_decide as H; [subst; by rewrite lookup_insert_eq|]. by rewrite lookup_insert_ne.
Qed.

Lemma units_delete root r (m : gmap SessionId N) :
  units_of (delete root m) r = if decide (r = root) then 0%N else units_of m r.
Proof.
  unfold units_of. case_decide as H; [subst; by rewrite lookup_delete_eq|]. by rewrite lookup_delete_ne.
Qed.

Lemma is_Some_set root r units g :
  is_Some (gv_remaining g !! r) -> is_Some (gv_remaining (set_remaining root units g) !! r).
Proof. intros H. simpl. destruct (decide (root = r)) as [->|]; [by rewrite lookup_insert_eq|by rewrite lookup_insert_ne]. Qed.

Section steps.
Context (limits : SubagentLimits) (Hfits : fits 64 (per_run_budget limits)).

Lemma budget_limits g c : conserved limits (g, c) -> per_run_budget (gv_limits g) = per_run_budget limits.
Proof. intros Hc. by rewrite (co_limits _ _ Hc : gv_limits g = _). Qed.

Lemma conserved_new : conserved limits (governor_new limits, mkClients ∅ ∅ ∅).
Proof.
  split; [done|by intros; simplify_map_eq|..]; intros root; unfold accounted, remaining_budget, units_of, debits; simpl;
    rewrite lookup_empty; simpl; rewrite ?map_fold_empty; lia.
Qed.

(** The clients change what one root's accounts say, and the governor what remains of it. *)
Definition only_root root (c c' : Clients) : Prop :=
  forall r, r <> root -> units_of (cl_held c') r = units_of (cl_held c) r /\ units_of (cl_late c') r = units_of (cl_late c) r.

Lemma conserved_set root units g c c' :
  conserved limits (g, c) -> only_root root c c' -> (units <= per_run_budget limits)%N ->
  (per_run_budget limits <= units + units_of (cl_held c') root + debits g root <= per_run_budget limits + units_of (cl_late c') root)%N ->
  conserved limits (set_remaining root units g, c').
Proof.
  intros Hc Honly Hle Hsum. split; [apply (co_limits _ _ Hc)|..].
  - intros op d Hop. apply is_Some_set. by eapply (co_tracked _ _ Hc).
  - intros r. pose proof (co_bound _ _ Hc r). cbn [fst] in *. rewrite remaining_set. by case_decide.
  - intros r. pose proof (co_sum _ _ Hc r) as Hr. unfold accounted in *. cbn [fst snd] in *. rewrite remaining_set.
    change (debits (set_remaining root units g) r) with (debits g r). case_decide as E; [by subst r|].
    destruct (Honly r E) as [-> ->]. lia.
Qed.

Lemma conserved_keep root g c : conserved limits (g, c) -> conserved limits (set_remaining root (remaining_budget g root) g, c).
Proof.
  intros Hc. apply (conserved_set root _ _ c); [done|by intros r _|apply (co_bound _ _ Hc)|apply (co_sum _ _ Hc)].
Qed.

Lemma debits_insert g root operation units : gv_operations g !! operation = None ->
  forall r, debits (g <| gv_operations ::= <[operation := mkOperationDebit root units]> |>) r
  = if decide (r = root) then (units + debits g r)%N else debits g r.
Proof.
  intros Hno r. unfold debits. simpl. etrans; [by apply (total_insert r)|]. unfold add_debit. simpl.
  destruct (decide (root = r)); [by rewrite decide_True by done|by rewrite decide_False by congruence].
Qed.

Lemma conserved_reserve_operation root operation units g c :
  conserved limits (g, c) -> conserved limits ((try_reserve_operation root operation units g).1, c).
Proof.
  intros Hc. unfold try_reserve_operation. destruct (gv_operations g !! operation) as [existing|] eqn:Hop; [done|].
  case_decide as Hd; [by apply conserved_keep|]. cbn [fst]. set (g1 := set_remaining _ _ g).
  assert (forall r, remaining_budget (g1 <| gv_operations ::= <[operation := mkOperationDebit root units]> |>) r
    = if decide (r = root) then (remaining_budget g root - units)%N else remaining_budget g r) as Hrem by (intros r; apply (remaining_set root r _ g)).
  split; [apply (co_limits _ _ Hc)|..].
  - simpl. intros op d [[<- <-]|[Hne Hd']]%lookup_insert_Some; simpl; [by rewrite lookup_insert_eq|].
    apply (is_Some_set root). by eapply (co_tracked _ _ Hc).
  - intros r. pose proof (co_bound _ _ Hc r) as Hr. cbn [fst] in *. rewrite Hrem. case_decide; [subst r|]; lia.
  - intros r. pose proof (co_sum _ _ Hc r) as Hr. unfold accounted in *. cbn [fst snd] in *. rewrite Hrem, (debits_insert g1) by done.
    change (debits g1 r) with (debits g r). case_decide; [subst r|]; lia.
Qed.

Lemma credit_units g c remaining units : conserved limits (g, c) -> (remaining <= per_run_budget limits)%N ->
  credit g remaining units = N.min (remaining + units) (per_run_budget limits).
Proof. intros Hc Hle. unfold credit, sat_add. rewrite (budget_limits g c) by done. unfold fits, umax in *. lia. Qed.

Lemma conserved_release_operation operation g c :
  conserved limits (g, c) -> conserved limits ((release_operation operation g).1, c).
Proof.
  intros Hc. unfold release_operation. destruct (gv_operations g !! operation) as [debit|] eqn:Hop; [|done].
  destruct (co_tracked _ _ Hc _ _ Hop) as [remaining Hrem]. cbn [fst].
  pose proof (co_bound _ _ Hc (od_root debit)) as Hle. unfold remaining_budget in Hle. cbn [fst] in Hle, Hrem. rewrite Hrem in Hle.
  assert (forall r, remaining_budget (g <| gv_operations ::= delete operation |>
      <| gv_remaining ::= alter (fun remaining => credit g remaining (od_units debit)) (od_root debit) |>) r
    = if decide (r = od_root debit) then N.min (remaining + od_units debit) (per_run_budget limits) else remaining_budget g r) as Heq.
  { intros r. unfold remaining_budget. simpl. case_decide as E; [subst r|by rewrite lookup_alter_ne].
    rewrite lookup_alter_eq, Hrem. simpl. by apply (credit_units g c). }
  split; [apply (co_limits _ _ Hc)|..].
  - simpl. intros op d [_ Hd]%lookup_delete_Some. rewrite lookup_alter_is_Some. by eapply (co_tracked _ _ Hc).
  - intros r. pose proof (co_bound _ _ Hc r) as Hr. cbn [fst] in *. etrans; [apply N.eq_le_incl, Heq|]. case_decide; lia.
  - intros r. pose proof (co_sum _ _ Hc r) as Hr. pose proof (total_delete r _ _ _ Hop) as Ht. unfold add_debit in Ht.
    unfold accounted in *. cbn [fst snd] in *.
    match goal with |- context [(remaining_budget ?g' r + _ + debits ?g' r)%N] =>
      change (debits g' r) with (total_of r (delete operation (gv_operations g)));
      replace (remaining_budget g' r) with (if decide (r = od_root debit) then N.min (remaining + od_units debit) (per_run_budget limits)
        else remaining_budget g r) by (symmetry; apply Heq) end.
    change (debits g r) with (total_of r (gv_operations g)) in Hr.
    destruct (decide (od_root debit = r)) as [<-|Hne]; [|rewrite decide_False by congruence; lia].
    rewrite decide_True by done. unfold remaining_budget in Hr. rewrite Hrem in Hr. simpl in Hr. lia.
Qed.

Lemma has_operations_debits g root : has_operations g root = false -> debits g root = 0%N.
Proof.
  unfold has_operations. rewrite negb_false_iff, bool_decide_eq_true. intros Hf. apply total_zero.
  intros op d Hop Hroot. apply (map_filter_empty_not_lookup _ _ op d) in Hf; [by apply Hf|done].
Qed.

(** An entry that is full and has no operations reads the same when it is dropped. *)
Lemma conserved_drop_full root g c :
  conserved limits (g, c) -> remaining_budget g root = per_run_budget limits -> has_operations g root = false ->
  conserved limits (g <| gv_remaining ::= delete root |>, c).
Proof.
  intros Hc Hfull Hno.
  assert (forall r, remaining_budget (g <| gv_remaining ::= delete root |>) r = remaining_budget g r) as Heq.
  { intros r. destruct (decide (r = root)) as [->|Hne]; [rewrite Hfull|]; unfold remaining_budget; simpl;
      [rewrite lookup_delete_eq; by apply (budget_limits g c)|by rewrite lookup_delete_ne]. }
  split; [apply (co_limits _ _ Hc)|..].
  - simpl. intros op d Hop. rewrite lookup_delete_ne; [by eapply (co_tracked _ _ Hc)|]. intros Heqr.
    unfold has_operations in Hno. rewrite negb_false_iff, bool_decide_eq_true in Hno.
    by apply (map_filter_empty_not_lookup _ _ op d) in Hno.
  - intros r. cbn [fst]. rewrite Heq. apply (co_bound _ _ Hc).
  - intros r. pose proof (co_sum _ _ Hc r) as Hr. unfold accounted in *. cbn [fst snd] in *. by rewrite Heq.
Qed.

(** A refund: the accounts of the clients lose at most the units, or say that as much came late. *)
Lemma conserved_refund root units g c c' :
  conserved limits (g, c) -> only_root root c c' ->
  (units_of (cl_held c) root <= units_of (cl_held c') root + units)%N -> (units_of (cl_held c') root <= units_of (cl_held c) root)%N ->
  (units_of (cl_late c) root <= units_of (cl_late c') root)%N ->
  (units_of (cl_held c') root + units + units_of (cl_late c) root <= units_of (cl_held c) root + units_of (cl_late c') root)%N ->
  conserved limits (refund_reserved root units g, c').
Proof.
  intros Hc Honly H1 H2 H3 H4. pose proof (co_sum _ _ Hc root) as Hr. pose proof (co_bound _ _ Hc root) as Hb.
  unfold accounted in Hr. cbn [fst snd] in Hr, Hb. unfold refund_reserved.
  destruct (gv_remaining g !! root) as [remaining|] eqn:Hrem.
  - assert (remaining_budget g root = remaining) as Heq by (unfold remaining_budget; by rewrite Hrem). rewrite Heq in Hr, Hb.
    rewrite (credit_units g c), (budget_limits g c) by done. set (rem := N.min _ _).
    assert (conserved limits (set_remaining root rem g, c')) as Hset.
    { apply (conserved_set root rem g c); [done..| |]; subst rem; lia. }
    destruct (bool_decide _ && negb _) eqn:E; [|done]. apply andb_true_iff in E as [Hfull%bool_decide_eq_true Hno%negb_true_iff].
    pose proof (conserved_drop_full root _ _ Hset) as Hd. rewrite remaining_set, decide_True in Hd by done.
    specialize (Hd Hfull Hno). assert (g <| gv_remaining ::= delete root |> = (set_remaining root rem g) <| gv_remaining ::= delete root |>) as ->; [|exact Hd].
    unfold set_remaining. cbn. by rewrite delete_insert_eq.
  - assert (remaining_budget g root = per_run_budget limits) as Heq.
    { unfold remaining_budget. rewrite Hrem. by apply (budget_limits g c). }
    split; [apply (co_limits _ _ Hc)|apply (co_tracked _ _ Hc)|apply (co_bound _ _ Hc)|].
    intros r. pose proof (co_sum _ _ Hc r) as Hs. unfold accounted in *. cbn [fst snd] in *.
    destruct (decide (r = root)) as [->|Hne]; [rewrite Heq in *; lia|]. destruct (Honly r Hne) as [-> ->]. lia.
Qed.

Lemma conserved_release root g c c' :
  conserved limits (g, c) -> only_root root c c' -> units_of (cl_held c') root = 0%N -> conserved limits (release root g, c').
Proof.
  intros Hc Honly Hh.
  assert (forall r, remaining_budget (release root g) r = if decide (r = root) then per_run_budget limits else remaining_budget g r) as Heq.
  { intros r. unfold remaining_budget, release. simpl. case_decide as E; [subst r; rewrite lookup_delete_eq; by apply (budget_limits g c)|].
    by rewrite lookup_delete_ne. }
  assert (forall r, debits (release root g) r = if decide (r = root) then 0%N else debits g r) as Hd.
  { intros r. change (debits (release root g) r) with (total_of r (filter (fun '(_, debit) => od_root debit <> root) (gv_operations g))).
    case_decide as E; [subst r|by apply total_filter_other]. apply total_zero. by intros op d [_ Hd]%map_lookup_filter_Some. }
  split; [apply (co_limits _ _ Hc)|..].
  - simpl. intros op d [Hop Hroot]%map_lookup_filter_Some. simpl in Hroot. rewrite lookup_delete_ne by congruence.
    by eapply (co_tracked _ _ Hc).
  - intros r. pose proof (co_bound _ _ Hc r). cbn [fst] in *. rewrite Heq. case_decide; lia.
  - intros r. pose proof (co_sum _ _ Hc r) as Hs. unfold accounted in *. cbn [fst snd] in *. rewrite Heq, Hd.
    case_decide as E; [subst r; lia|]. destruct (Honly r E) as [-> ->]. lia.
Qed.

Lemma conserved_step s s' : governor_step s s' -> conserved limits s -> conserved limits s'.
Proof.
  destruct 1 as [g c root want|g c root want|g c root op units|g c op|g c root units Hle|g c root units Hle|g c root]; intros Hc.
  all: pose proof (fun r => co_sum _ _ Hc r) as Hsum; pose proof (fun r => co_bound _ _ Hc r) as Hb; unfold accounted in Hsum; cbn [fst snd] in Hsum, Hb.
  - unfold reserve. cbn [fst snd]. specialize (Hsum root). specialize (Hb root).
    apply (conserved_set root _ g c); [done|split; [|done]|lia|]; simpl; unfold hold; rewrite units_insert.
    + by rewrite decide_False.
    + rewrite decide_True by done. lia.
  - unfold try_reserve_exact. case_decide; cbn [fst snd]; [by apply conserved_keep|]. specialize (Hsum root). specialize (Hb root).
    apply (conserved_set root _ g c); [done|split; [|done]|lia|]; simpl; unfold hold; rewrite units_insert.
    + by rewrite decide_False.
    + rewrite decide_True by done. lia.
  - by apply conserved_reserve_operation.
  - by apply conserved_release_operation.
  - apply (conserved_refund root units g c); [done|split; [|done]|..]; simpl; unfold unhold; rewrite ?units_insert, ?decide_False, ?decide_True by done; lia.
  - apply (conserved_refund root units g c); [done|split; [done|]|..]; simpl; unfold hold; rewrite ?units_insert, ?decide_False, ?decide_True by done; lia.
  - apply (conserved_release root g c); [done|split|]; simpl; rewrite units_delete, ?decide_False, ?decide_True by done; done.
Qed.
End steps.

(** C32: no unit of a run's budget is lost, and none is granted twice unless a refund comes late.  In any interleaving of
    reservations, operation debits, releases, refunds and releases of whole roots, with reservations that
    are never returned, roots released under them and refunds that come after that, what remains of a root,
    what its clients hold of it since its last release and the debits of its live operations are together its
    budget, and at most as much more as was refunded late, that is, out of a budget released before.  What
    remains never exceeds the budget, so neither does a grant; and releasing an operation again changes nothing. *)
Theorem governor_conserves limits s :
  fits 64 (per_run_budget limits) ->
  rtc governor_step (governor_new limits, mkClients ∅ ∅ ∅) s ->
  (forall root, (per_run_budget limits <= accounted s root <= per_run_budget limits + units_of (cl_late s.2) root)%N)
  /\ (forall root, units_of (cl_late s.2) root = 0%N -> accounted s root = per_run_budget limits)
  /\ (forall root, (remaining_budget s.1 root <= per_run_budget limits)%N)
  /\ (forall root want, let granted := (reserve root want s.1).2 in
       (granted <= per_run_budget limits)%N
       /\ (granted + units_of (cl_held s.2) root + debits s.1 root <= per_run_budget limits + units_of (cl_late s.2) root)%N)
  /\ (forall operation, let g := (release_operation operation s.1).1 in release_operation operation g = (g, false)).
Proof.
  intros Hfits Hsteps. assert (conserved limits s) as Hc.
  { remember (governor_new limits, mkClients ∅ ∅ ∅) as s0 eqn:Hs0. assert (conserved limits s0) as H0 by (subst; apply conserved_new).
    clear Hs0. induction Hsteps as [|s1 s2 s3 Hstep _ IH]; [done|]. by apply IH, (conserved_step limits Hfits s1). }
  split_and!; [apply (co_sum _ _ Hc)| |apply (co_bound _ _ Hc)|..].
  - intros root Hl. pose proof (co_sum _ _ Hc root). lia.
  - intros root want. pose proof (co_sum _ _ Hc root). pose proof (co_bound _ _ Hc root). unfold accounted in *. simpl. lia.
  - intros operation g. assert (gv_operations g !! operation = None) as Hno.
    { subst g. unfold release_operation. destruct (gv_operations s.1 !! operation) as [debit|] eqn:Hop; simpl; [|done].
      apply lookup_delete_eq. }
    unfold release_operation. by rewrite Hno.
Qed.
End conservation.

(** Ten units of a root are reserved when the root is released; 1020 units are reserved and the first ten are refunded:
    the root lends ten units it does not have. *)
Definition lent_root : SessionId (U := Demo.uuid_lib) := Hysec "root".
Definition lent : Governor (OperationId := nat) * Clients :=
  let g := (try_reserve_exact lent_root 10 (governor_new SubagentLimits_default)).1 in
  let c := (mkClients ∅ ∅ ∅) <| cl_held ::= hold lent_root 10 |> in
  let g := release lent_root g in
  let c := c <| cl_held ::= delete lent_root |> <| cl_stale ::= hold lent_root (units_of (cl_held c) lent_root) |> <| cl_late ::= delete lent_root |> in
  let g := (try_reserve_exact lent_root 1020 g).1 in
  let c := c <| cl_held ::= hold lent_root 1020 |> in
  (refund_reserved lent_root 10 g, c <| cl_stale ::= unhold lent_root 10 |> <| cl_late ::= hold lent_root 10 |>).

Lemma lent_steps : rtc governor_step (governor_new SubagentLimits_default, mkClients ∅ ∅ ∅) lent.
Proof.
  eapply rtc_l; [apply (step_reserve_exact _ _ lent_root 10)|]. eapply rtc_l; [apply (step_release _ _ lent_root)|].
  eapply rtc_l; [apply (step_reserve_exact _ _ lent_root 1020)|]. apply rtc_once. apply (step_refund_late _ _ lent_root 10).
  vm_compute. discriminate.
Qed.

Lemma governor_conserves_witness :
  (1024 <= accounted lent lent_root <= 1024 + 10)%N /\ (remaining_budget lent.1 lent_root <= 1024)%N
  /\ remaining_budget lent.1 lent_root = 14%N /\ units_of (cl_held lent.2) lent_root = 1020%N.
Proof.
  assert (Hfits : fits 64 (per_run_budget SubagentLimits_default)) by (vm_compute; discriminate).
  destruct (governor_conserves SubagentLimits_default lent Hfits lent_steps) as (H1 & _ & H3 & _).
  split; [exact (H1 lent_root)|]. split; [exact (H3 lent_root)|]. split; vm_compute; reflexivity.
Defined.
