(* ===== verification/WfRun.v ===== *)
(** * Preparing a Workflow run and its reports ([hya-core/src/workflow/{mod,run}.rs],
      [hya-core/src/orchestrator.rs])

    What a run is before anything is spawned: the stage agents and their model routes are resolved,
    their worst-case number of activations is reserved, and every stage has a pending report.  The
    agent catalog behind [resolve_agent] (the runtime registry) is an interface. *)

From stdpp Require Import pretty.
From S2P Require Import Prelude Result RustStr Text Platform Ids Scope Wire Workflow Usage Events Team Projection WfModel Compiler Render Effects Iteration Routing Governor.

Definition BACKQUOTE (s : string) : string := "`" +:+ s +:+ "`".

(** ** Errors *)

Inductive TeamAdmissionError := MaxDepth | BudgetExhausted.

Inductive WorkflowError `{UuidLib} :=
  | WeSource (source_name detail : string)
  | WeCompile (e : WorkflowCompileError)
  | WeRender (e : WorkflowRenderError.t)
  | WeInvalid (workflow detail : string)
  | WeAdmission (e : TeamAdmissionError)
  | WeUnauthorized (caller agent_id detail : string)
  | WeEngine (e : CoreError).

(** ** Reports *)

Module StageStatus.
Inductive t := Pending | Done | Failed | Cancelled | Skipped.
#[global] Instance eq_dec : EqDecision t.
Proof. solve_decision. Defined.
End StageStatus.

Record StageReport := mkStageReport {
  sr_stage : string;
  sr_agent : string;
  sr_status : StageStatus.t;
  sr_session : option string;
  sr_output : string;
}.
#[global] Instance StageReport_eta : EtaRecord StageReport := fun r =>
  mkStageReport (sr_stage r) (sr_agent r) (sr_status r) (sr_session r) (sr_output r).

Module RunStatus.
Inductive t := Completed | Failed | Cancelled.
#[global] Instance eq_dec : EqDecision t.
Proof. solve_decision. Defined.
End RunStatus.

Record WorkflowRunReport := mkWorkflowRunReport {
  wrr_status : RunStatus.t;
  wrr_stages : list StageReport;
}.

Definition pending_report (stage : WorkflowStage) : StageReport :=
  mkStageReport (st_id stage) (st_agent stage) StageStatus.Pending None EmptyString.

Definition report_evidence (report : StageReport) : option StageEvidence :=
  match sr_status report with
  | StageStatus.Pending => None
  | StageStatus.Done => Some (mkStageEvidence StageEvidenceStatus.Done (sr_output report))
  | StageStatus.Failed => Some (mkStageEvidence StageEvidenceStatus.Failed (sr_output report))
  | StageStatus.Cancelled => Some (mkStageEvidence StageEvidenceStatus.Cancelled (sr_output report))
  | StageStatus.Skipped => Some (mkStageEvidence StageEvidenceStatus.Skipped (sr_output report))
  end.

Definition mark_pending (reports : list StageReport) (status : StageStatus.t) : list StageReport :=
  map (fun report => if decide (sr_status report = StageStatus.Pending)
                     then report <| sr_status := status |> else report) reports.

(** [reports[index]] is in range for every index of a level of a compiled plan. *)
Definition level_failed (reports : list StageReport) (level : list nat) : bool :=
  existsb (fun index => bool_decide (sr_status <$> reports !! index = Some StageStatus.Failed)) level.

Definition protocol_stage_status (status : StageStatus.t) : WorkflowStageStatus.t :=
  match status with
  | StageStatus.Pending => WorkflowStageStatus.Pending
  | StageStatus.Done => WorkflowStageStatus.Completed
  | StageStatus.Failed => WorkflowStageStatus.Failed
  | StageStatus.Cancelled => WorkflowStageStatus.Cancelled
  | StageStatus.Skipped => WorkflowStageStatus.Skipped
  end.

(** The same loop as [truncate_utf8], with the bound of the evidence. *)
Definition clamp (text : string) : string :=
  if decide (String.length text <= MAX_PREDECESSOR_OUTPUT_BYTES) then text
  else str_take (floor_boundary text MAX_PREDECESSOR_OUTPUT_BYTES) text.

Section text.
Context `{U : UuidLib} `{J : JsonLib}.

Definition message_text (parts : list PartProjection) : string :=
  foldl (fun text part => match part with Projection.Text _ t => text +:+ t | _ => text end) EmptyString parts.

Definition final_assistant_text (projection : Projection) : string :=
  match find_last (fun m => msg_role m = Role.Assistant) (sp_messages (p_session projection)) with
  | Some message => clamp (message_text (msg_parts message))
  | None => EmptyString
  end.
End text.

(** ** Routes *)

Section resolve.
Context `{U : UuidLib}.
Implicit Types (router : Router) (workflow stage role : string).

Definition invalid workflow (detail : string) : WorkflowError := WeInvalid workflow detail.

(** The loop body of [resolve_model_route]. *)
Definition resolve_candidate workflow stage role router
    (state : list WorkflowModelRouteCandidate * gset (string * ReasoningEffort))
    (item : nat * (string * option string)) :
    list WorkflowModelRouteCandidate * gset (string * ReasoningEffort) + WorkflowError :=
  let '(candidates, seen) := state in
  let '(entry_index, (model_id, authored_reasoning)) := item in
  if contains "#"%char model_id || is_empty (trim model_id) then
    inr (invalid workflow ("Stage " +:+ BACKQUOTE stage +:+ " " +:+ role
      +:+ " route has invalid model id at index " +:+ pretty entry_index))
  else
    let model : ModelRef := StrNewtype model_id in
    let? reasoning := match authored_reasoning with
      | Some label =>
          match effort_parse label with
          | Some effort => inl effort
          | None => inr (invalid workflow ("Stage " +:+ BACKQUOTE stage +:+ " " +:+ role
              +:+ " route has unknown reasoning effort " +:+ BACKQUOTE label +:+ " at index " +:+ pretty entry_index))
          end
      | None => inl (default EffortOff (reasoning_default router model))
      end in
    if decide ((model_id, reasoning) ∈ seen) then
      inr (invalid workflow ("Stage " +:+ BACKQUOTE stage +:+ " " +:+ role
        +:+ " route contains duplicate effective candidate " +:+ BACKQUOTE model_id +:+ " / "
        +:+ BACKQUOTE (effort_as_str reasoning)))
    else
      let? _ := match supports_reasoning_effort router model reasoning with
        | Some supported =>
            if supported then inl tt
            else inr (invalid workflow ("Stage " +:+ BACKQUOTE stage +:+ " " +:+ role +:+ " candidate "
              +:+ BACKQUOTE model_id +:+ " does not support reasoning " +:+ BACKQUOTE (effort_as_str reasoning)))
        | None =>
            if bool_decide (reasoning <> EffortOff)
               && match router_capabilities router model with
                  | Some caps => negb (reasoning_request caps)
                  | None => false
                  end
            then inr (invalid workflow ("Stage " +:+ BACKQUOTE stage +:+ " " +:+ role +:+ " candidate "
              +:+ BACKQUOTE model_id +:+ " does not support reasoning requests"))
            else inl tt
        end in
      inl (candidates ++ [mkRouteCandidate model reasoning], {[ (model_id, reasoning) ]} ∪ seen).

Definition route_entries (assignment : WorkflowModelAssignment) : list (string * option string) :=
  (ma_id assignment, ma_reasoning assignment)
  :: ((fun c => (mc_id c, mc_reasoning c)) <$> ma_fallback assignment).

Definition resolve_model_route workflow stage role (assignment : WorkflowModelAssignment) router :
    WorkflowModelRoute + WorkflowError :=
  let entries := route_entries assignment in
  let? (candidates, _) := try_fold (resolve_candidate workflow stage role router) ([], ∅)
    (zip (seq 0 (length entries)) entries) in
  match position (fun c => is_Some (claiming router (rc_model c))) candidates with
  | None => inr (invalid workflow ("Stage " +:+ BACKQUOTE stage +:+ " " +:+ role
      +:+ " route has no routable candidate"))
  | Some selected_index => inl (mkWorkflowModelRoute candidates selected_index)
  end.
End resolve.

(** ** Resolved agents *)

Section prepare.
Context `{U : UuidLib}.
(** The fields of [AgentSpec] a run only hands on, and what the target agent is granted: its roster,
    resource policy and sidecar factory. *)
Context {SpecRest Grants OperationId : Type} `{!EqDecision OperationId} `{!Countable OperationId}.

Record AgentSpec := mkAgentSpec {
  as_model : ModelRef;
  as_reasoning : option ReasoningEffort;
  as_rest : SpecRest;
}.

Record ResolvedAgent := mkResolvedAgent {
  ra_spec : AgentSpec;
  ra_grants : Grants;
  ra_route : option WorkflowModelRoute;
}.

(** The runtime binding of the caller: the spec of a spawnable agent with the normal model policy,
    and the grants of the target ([resolve_spawn], [agent_spec_for_binding], [category], the
    roster, the resource policy and the sidecar environment).  Both may refuse. *)
Record Catalog := mkCatalog {
  spawn_spec : string -> AgentSpec + WorkflowError;
  spawn_grants : string -> Grants + WorkflowError;
}.

Definition resolve_agent (catalog : Catalog) (router : Router) (agent_id workflow role : string)
    (assignment : option WorkflowModelAssignment) : ResolvedAgent + WorkflowError :=
  let? spec := spawn_spec catalog agent_id in
  let? route := try_option (fun a => resolve_model_route workflow agent_id role a router) assignment in
  let? spec := match route with
    | None => inl spec
    | Some route =>
        match route_selected route with
        | None => inr (invalid workflow ("Stage " +:+ BACKQUOTE agent_id +:+ " " +:+ role
            +:+ " route selected no candidate"))
        | Some selected => inl (mkAgentSpec (rc_model selected) (Some (rc_reasoning selected)) (as_rest spec))
        end
    end in
  let? grants := spawn_grants catalog agent_id in
  inl (mkResolvedAgent spec grants route).

(** ** The budget *)

Definition stage_units (stage : WorkflowStage) : N :=
  match st_verify stage with
  | Some verify => N.min (vs_max_iterations verify * 2) (umax 64)
  | None => 1
  end.
Definition worst_case_admission_units (stages : list WorkflowStage) : N :=
  foldl (fun total stage => sat_add 64 total (stage_units stage)) 0%N stages.

Definition MAX_SUBAGENT_DEPTH : N := 2.

(** What the guard of a reservation gives back when it is dropped. *)
Record WorkflowBudgetReservation := mkReservation { wb_root : SessionId; wb_units : N }.

(** [lineage]: the answer of [session_lineage(lead)], the root session and the depth. *)
Definition reserve_workflow_budget (governor : option (Governor (OperationId := OperationId)))
    (lineage : SessionId * N + CoreError) (workflow : string) (wanted : N) :
    option (Governor (OperationId := OperationId)) * (option WorkflowBudgetReservation + WorkflowError) :=
  match governor with
  | None => (None, inl None)
  | Some g =>
      match lineage with
      | inr e => (Some g, inr (WeEngine e))
      | inl (root, depth) =>
          if decide (MAX_SUBAGENT_DEPTH < sat_add 32 depth 1)%N then (Some g, inr (WeAdmission MaxDepth))
          else
            let remaining := remaining_budget g root in
            if decide (remaining < wanted)%N then
              (Some g, inr (invalid workflow ("worst-case " +:+ pretty wanted
                +:+ " Stage activations exceed the per-run budget (remaining " +:+ pretty remaining +:+ ")")))
            else
              let '(g, reserved) := try_reserve_exact root wanted g in
              (Some g, if reserved then inl (Some (mkReservation root wanted))
                       else inr (WeAdmission BudgetExhausted))
      end
  end.

(** ** Preflight *)

(** The loop body of [validate_resolved_semantics]. *)
Definition check_resolved (workflow : string) (has_supervisor : bool)
    (actor_routes : gmap string (option WorkflowModelRoute)) (item : WorkflowStage * ResolvedAgent) :
    gmap string (option WorkflowModelRoute) + WorkflowError :=
  let '(stage, worker) := item in
  let? actor_routes := match st_actor stage with
    | None => inl actor_routes
    | Some actor =>
        match actor_routes !! actor with
        | Some existing =>
            if decide (existing <> ra_route worker)
            then inr (invalid workflow ("Stages sharing actor " +:+ BACKQUOTE actor
                   +:+ " must use an identical effective worker route"))
            else inl actor_routes
        | None => inl (<[actor := ra_route worker]> actor_routes)
        end
    end in
  match st_actor stage with
  | None => inl actor_routes
  | Some actor =>
      if negb has_supervisor
      then inr (invalid workflow ("Stage " +:+ BACKQUOTE (st_id stage)
             +:+ " requires a resident supervisor for actor " +:+ BACKQUOTE actor))
      else if decide (st_mode stage = Loop)
      then inr (invalid workflow ("Stage " +:+ BACKQUOTE (st_id stage) +:+ " cannot combine actor and loop modes"))
      else inl actor_routes
  end.

Definition validate_resolved_semantics (workflow : string) (stages : list WorkflowStage)
    (resolved : list ResolvedAgent) (has_supervisor : bool) : unit + WorkflowError :=
  let? _ := try_fold (check_resolved workflow has_supervisor) ∅ (zip stages resolved) in inl tt.

Record PreparedWorkflowRun := mkPreparedWorkflowRun {
  pr_lead : SessionId;
  pr_workflow : CompiledWorkflow;
  pr_inputs : gmap string string;
  pr_has_supervisor : bool;
  pr_resolved : list ResolvedAgent;
  pr_verifiers : list (option ResolvedAgent);
  pr_budget : option WorkflowBudgetReservation;
  pr_durable_run : option WorkflowRunId;
}.

(** One stage of the resolution loop. *)
Definition resolve_stage (catalog : Catalog) (router : Router) (name : string)
    (state : list ResolvedAgent * list (option ResolvedAgent)) (stage : WorkflowStage) :
    list ResolvedAgent * list (option ResolvedAgent) + WorkflowError :=
  let? worker := resolve_agent catalog router (st_agent stage) name "worker" (st_model stage) in
  let? verifier := try_option (fun verify =>
    resolve_agent catalog router (vs_agent verify) name "verifier" (vs_model verify)) (st_verify stage) in
  inl (state.1 ++ [worker], state.2 ++ [verifier]).

(** [prepare_workflow_run_for_actor]; the governor is charged only when everything else succeeded. *)
Definition prepare_workflow_run (catalog : Catalog) (router : Router)
    (governor : option (Governor (OperationId := OperationId))) (lineage : SessionId * N + CoreError)
    (lead : SessionId) (workflow : CompiledWorkflow) (inputs : gmap string string) (has_supervisor : bool)
    (durable_run : option WorkflowRunId) :
    option (Governor (OperationId := OperationId)) * (PreparedWorkflowRun + WorkflowError) :=
  match validate_inputs workflow inputs with
  | inr e => (governor, inr (WeRender e))
  | inl _ =>
      let stages := plan_stages (cw_plan workflow) in
      let name := wd_name (cw_definition workflow) in
      let wanted := worst_case_admission_units stages in
      match try_fold (resolve_stage catalog router name) ([], []) stages with
      | inr e => (governor, inr e)
      | inl (resolved, verifiers) =>
          match validate_resolved_semantics name stages resolved has_supervisor with
          | inr e => (governor, inr e)
          | inl _ =>
              let '(governor, budget) := reserve_workflow_budget governor lineage name wanted in
              (governor, let? budget := budget in
                 inl (mkPreparedWorkflowRun lead workflow inputs has_supervisor resolved verifiers
                        budget durable_run))
          end
      end
  end.

Definition worker_route (prepared : PreparedWorkflowRun) (stage_index : nat) : option WorkflowModelRoute :=
  agent ← pr_resolved prepared !! stage_index; ra_route agent.
Definition verifier_route (prepared : PreparedWorkflowRun) (stage_index : nat) : option WorkflowModelRoute :=
  verifier ← pr_verifiers prepared !! stage_index; agent ← verifier; ra_route agent.
Definition has_explicit_routes (prepared : PreparedWorkflowRun) : bool :=
  existsb (fun agent => bool_decide (is_Some (ra_route agent))) (pr_resolved prepared)
  || existsb (fun agent => bool_decide (is_Some (agent ≫= ra_route))) (pr_verifiers prepared).
End prepare.
