(* ===== verification/Executor.v ===== *)
(** * Executing a Workflow ([hya-core/src/workflow/run.rs])

    [execute] walks the levels of the plan: it renders and starts the stages of a level, delivers each
    to a resident actor, waits for all of them, drives the loop stages of the level to their verified
    condition, and records every transition in the lead session's log.  Everything outside is a call
    ([ExecEff], [ActEff]) whose answer the environment chooses. *)

From stdpp Require Import pretty.
From S2P Require Import Prelude Result RustStr Text Platform Ids Scope Wire Workflow Usage Events Team Projection WfModel Compiler Render Effects Iteration Routing Governor WfRun.

(** What leaves a function of the executor: an error, or a panic ([None] of an indexing). *)
Inductive Fault (Err : Type) := Raised (e : Err) | Panicked.
Arguments Raised {Err} e.
Arguments Panicked {Err}.

(** ** Verdicts of a verifier *)

(** [serde_json::from_str::<Value>], then [get("met").as_bool()] and [get("reason").as_str()] *)
Class VerdictJson := { json_verdict : string -> option (option bool * option string) }.

(** [s.find(c)] and [s.rfind(c)] for an ASCII character *)
Fixpoint find_byte (c : ascii) (s : string) : option nat :=
  match s with
  | EmptyString => None
  | String d s => if decide (d = c) then Some 0 else S <$> find_byte c s
  end.
Fixpoint rfind_byte (c : ascii) (s : string) : option nat :=
  match s with
  | EmptyString => None
  | String d s =>
      match rfind_byte c s with
      | Some i => Some (S i)
      | None => if decide (d = c) then Some 0 else None
      end
  end.

(** [&s[start..=end]]: out of order, it panics. *)
Definition slice_inclusive (s : string) (start end_ : nat) : option string :=
  if decide (start <= S end_) then Some (String.substring start (S end_ - start) s) else None.

Definition MALFORMED : Verdict := mkVerdict false "verifier returned malformed output".

Definition parse_verdict `{VerdictJson} (text : string) : option Verdict :=
  let trimmed := trim text in
  match find_byte "{" trimmed with
  | None => Some MALFORMED
  | Some start =>
      match rfind_byte "}" trimmed with
      | None => Some MALFORMED
      | Some end_ =>
          slice ← slice_inclusive trimmed start end_;
          Some match json_verdict slice with
               | Some (met, reason) => mkVerdict (default false met) (default "no reason given" reason)
               | None => MALFORMED
               end
      end
  end.

Section executor.
Context `{U : UuidLib} `{J : JsonLib} `{F : Fingerprint} `{V : VerdictJson} {SpecRest Grants : Type}.

Local Abbreviation AgentSpec := (AgentSpec (SpecRest := SpecRest)).
Local Abbreviation ResolvedAgent := (ResolvedAgent (SpecRest := SpecRest) (Grants := Grants)).
Local Abbreviation PreparedWorkflowRun := (PreparedWorkflowRun (SpecRest := SpecRest) (Grants := Grants)).

Record ResidentActor := mkResidentActor {
  rs_session : SessionId;
  rs_handle : string;
  rs_member : MemberId;
}.

Record PreparedActivation := mkPreparedActivation {
  pa_index : nat;
  pa_directive : string;
  pa_system_context : string;
}.

Record ResidentActivation := mkResidentActivation {
  rv_actor : ResidentActor;
  rv_prepared : PreparedActivation;
  rv_route : option WorkflowTurnRoute;
}.

(** ** One resident activation *)

Inductive Received := Event_received | Bus_closed | Cancel_seen.

Inductive ActEff : Type -> Type :=
  | AcSetActivation (session : SessionId) (system_context : string) (route : option WorkflowTurnRoute) :
      ActEff (unit + CoreError)
  | AcMailSend (handle directive : string) : ActEff (unit + CoreError)
  | AcLineage : ActEff (SessionId + CoreError)
  | AcReadProjection (session : SessionId) : ActEff (Projection + CoreError)
  (** [events.recv()] alone, or raced against [cancel.cancelled()] *)
  | AcReceive (race_cancel : bool) : ActEff Received
  | AcStopResident (root : SessionId) (handle : string) : ActEff (unit + CoreError)
  | AcClearRoute (session : SessionId) : ActEff unit.

(** The inbox boundary that the directive reached. *)
Definition inbox_boundary (projection : Projection) (handle : string) : N :=
  match team_inboxes (p_team projection) !! handle with
  | Some inbox => if decide (fits 64 (N.of_nat (length inbox))) then N.of_nat (length inbox) else umax 64
  | None => umax 64
  end.

Definition resident_failed_output (entry : RosterEntry) : string :=
  clamp (default "resident actor failed" (re_current_task entry)).

Definition stage_report (stage : WorkflowStage) (status : StageStatus.t) (session : SessionId)
    (output : string) : StageReport :=
  mkStageReport (st_id stage) (st_agent stage) status (Some (SessionId_to_string session)) output.

(** The settled entry of the actor, when the boundary is consumed and nothing is in flight. *)
Definition settled_entry (projection : Projection) (handle : string) (boundary : N) : option RosterEntry :=
  entry ← team_roster (p_team projection) !! handle;
  if bool_decide (boundary <= re_resident_cursor entry)%N && bool_decide (re_resident_work entry = None)
  then Some entry else None.

(** One turn of the waiting loop; its state is [stop_requested]. *)
Definition wait_round (stage : WorkflowStage) (actor : ResidentActor) (root : SessionId) (boundary : N)
    (stop_requested : bool) : Task ActEff (bool + (StageReport + CoreError)) :=
  let* r := call (AcReadProjection root) in
  match r with
  | inr e => Ret (inr (inr e))
  | inl projection =>
      let wait :=
        let* event := call (AcReceive (negb stop_requested)) in
        match event with
        | Event_received => Ret (inl stop_requested)
        | Bus_closed => Ret (inr (inr (CoreInvalid "event bus closed before resident Stage settled")))
        | Cancel_seen =>
            let* r := call (AcStopResident root (rs_handle actor)) in
            match r with
            | inr e => Ret (inr (inr e))
            | inl _ => Ret (inl true)
            end
        end in
      match settled_entry projection (rs_handle actor) boundary with
      | None => wait
      | Some entry =>
          match re_status entry with
          | RosterStatus.Idle =>
              let* r := call (AcReadProjection (rs_session actor)) in
              match r with
              | inr e => Ret (inr (inr e))
              | inl own => Ret (inr (inl (stage_report stage StageStatus.Done (rs_session actor)
                                            (final_assistant_text own))))
              end
          | RosterStatus.Failed | RosterStatus.Done =>
              Ret (inr (inl (stage_report stage
                (if stop_requested then StageStatus.Cancelled else StageStatus.Failed)
                (rs_session actor) (resident_failed_output entry))))
          | RosterStatus.Busy => wait
          end
      end
  end.

Definition activate_resident_stage (stage : WorkflowStage) (activation : ResidentActivation) :
    Task ActEff (StageReport + CoreError) :=
  let actor := rv_actor activation in
  let! _ := call (AcSetActivation (rs_session actor) (pa_system_context (rv_prepared activation))
                    (rv_route activation)) in
  let! _ := call (AcMailSend (rs_handle actor) (pa_directive (rv_prepared activation))) in
  let! root := call AcLineage in
  let! projection := call (AcReadProjection root) in
  let boundary := inbox_boundary projection (rs_handle actor) in
  let* report := Iter (wait_round stage actor root boundary) false Ret in
  let* _ := call (AcClearRoute (rs_session actor)) in
  Ret report.

(** ** Calls of the executor *)

(** One member of a governed team: a worker iteration or a verification. *)
Record MemberRun := mkMemberRun {
  mr_member : MemberId;
  mr_agent : ResolvedAgent;
  mr_guidance : string;
  mr_directive : string;
  mr_description : string;
  mr_session : option SessionId;
  mr_route : option WorkflowTurnRoute;
}.

Record MemberEvidence := mkMemberEvidence {
  me_member : string;
  me_session : string;
  me_done : bool;
  me_summary : string;
}.

Inductive ExecEff : Type -> Type :=
  | ExIsCancelled : ExecEff bool
  | ExWallClockOver : ExecEff bool
  (** [emit_for_actor] on the lead session *)
  | ExEmit (e : Event.t) : ExecEff (unit + CoreError)
  | ExSpawnParked (agent : ResolvedAgent) (label system_context : string) :
      ExecEff (ResidentActor + CoreError)
  (** [join_all] of [activate_resident_stage] over the activations of a level *)
  | ExActivateAll (activations : list (WorkflowStage * ResidentActivation)) :
      ExecEff (list (StageReport + CoreError))
  | ExNewMember : ExecEff MemberId
  (** the first row of [run_pre_admitted_team_with_workflow] *)
  | ExRunMember (member : MemberRun) : ExecEff (option MemberEvidence)
  | ExReadProjection (session : SessionId) : ExecEff (Projection + CoreError)
  (** [RoutePersistence::finish] *)
  | ExFinishRoutes : ExecEff (unit + WorkflowError).

Definition is_workflow_event (e : Event.t) : bool :=
  match e with
  | Event.WorkflowSelected _ _ | Event.WorkflowRunStarted _ _ _ _ _ _ | Event.WorkflowStageStarted _ _ _
  | Event.WorkflowStageMemberLinked _ _ _ _ _ _ | Event.WorkflowStageRouteOutcome _ _ _ _ _ _ _ _ _ _ _
  | Event.WorkflowStageFinished _ _ _ _ | Event.WorkflowRunFinished _ _ _ _ => true
  | _ => false
  end.

Definition record_workflow_event (session : SessionId) (e : Event.t) : Task ExecEff (unit + CoreError) :=
  if negb (is_workflow_event e) || negb (bool_decide (Event.session_of e = Some session))
  then Ret (inr (CoreInvalid "Workflow event Session mismatch or unsupported event"))
  else call (ExEmit e).

(** Records the event of a durable run. *)
Definition record_durable (durable_run : option WorkflowRunId) (lead : SessionId)
    (event : WorkflowRunId -> Event.t) : Task ExecEff (unit + CoreError) :=
  match durable_run with
  | None => Ret (inl tt)
  | Some run => record_workflow_event lead (event run)
  end.

(** [error.into()] at a [?] of the executor *)
Definition engine_fault (e : CoreError) : Fault WorkflowError := Raised (WeEngine e).

Definition turn_route (prepared : PreparedWorkflowRun) (stage : WorkflowStage) (member : MemberId)
    (role : WorkflowMemberRole.t) (iteration : N) (route : option WorkflowModelRoute) :
    option WorkflowTurnRoute :=
  (fun route => mkWorkflowTurnRoute route (pr_lead prepared) (pr_durable_run prepared) (st_id stage)
     member role iteration
     (bool_decide (is_Some (pr_durable_run prepared)) && has_explicit_routes prepared)) <$> route.

(** ** Loop stages *)

(** The mutable fields of [LoopWorkerExecutor] and [VerifierGate]. *)
Record LoopState := mkLoopState {
  lo_session : option SessionId;
  lo_first : option string;
  lo_latest : string;
  lo_next_worker : N;
  lo_next_verifier : N;
}.
#[global] Instance LoopState_eta : EtaRecord LoopState := fun r =>
  mkLoopState (lo_session r) (lo_first r) (lo_latest r) (lo_next_worker r) (lo_next_verifier r).

Record LoopStage := mkLoopStage {
  ls_prepared : PreparedWorkflowRun;
  ls_stage : WorkflowStage;
  ls_worker : ResolvedAgent;
  ls_verifier : ResolvedAgent;
  ls_until : string;
  ls_guidance : string;
}.

Definition loop_label (ls : LoopStage) : string :=
  "Workflow " +:+ wd_name (cw_definition (pr_workflow (ls_prepared ls))) +:+ " / " +:+ st_id (ls_stage ls).

Definition link_member (ls : LoopStage) (member : MemberId) (role : WorkflowMemberRole.t) (iteration : N) :
    Task ExecEff (unit + CoreError) :=
  record_durable (pr_durable_run (ls_prepared ls)) (pr_lead (ls_prepared ls)) (fun run =>
    Event.WorkflowStageMemberLinked (pr_lead (ls_prepared ls)) run (st_id (ls_stage ls)) member role iteration).

Local Abbreviation Outcome A := (A + Fault CoreError)%type.

(** [LoopWorkerExecutor::run_iteration] *)
Definition loop_run_iteration (ls : LoopStage) (x : LoopState) (directive : string) :
    Task ExecEff (LoopState * Outcome string) :=
  match lo_first x with
  | Some first => Ret (x <| lo_first := None |>, inl first)
  | None =>
      let* member := call ExNewMember in
      let iteration := lo_next_worker x in
      let x := x <| lo_next_worker := sat_add 32 iteration 1 |> in
      let* linked := link_member ls member WorkflowMemberRole.Worker iteration in
      match linked with
      | inr e => Ret (x, inr (Raised (CoreInvalid (CoreError_to_string e))))
      | inl _ =>
          let* evidence := call (ExRunMember (mkMemberRun member (ls_worker ls) (ls_guidance ls) directive
            (loop_label ls +:+ " (iteration)") (lo_session x)
            (turn_route (ls_prepared ls) (ls_stage ls) member WorkflowMemberRole.Worker iteration
               (ra_route (ls_worker ls))))) in
          match evidence with
          | None => Ret (x, inr (Raised (CoreInvalid "workflow worker produced no evidence")))
          | Some entry =>
              if negb (me_done entry) then Ret (x, inr (Raised CoreCancelled)) else
              match SessionId_from_str (me_session entry) with
              | inr _ => Ret (x, inr (Raised (CoreInvalid "unparsable member session")))
              | inl session =>
                  let x := x <| lo_session := Some session |> in
                  let* r := call (ExReadProjection session) in
                  match r with
                  | inr e => Ret (x, inr (Raised e))
                  | inl projection =>
                      let text := final_assistant_text projection in
                      Ret (x <| lo_latest := text |>, inl text)
                  end
              end
          end
      end
  end.

Definition LINE : string := String LF EmptyString.

Definition verifier_directive (until transcript : string) : string :=
  "You are an independent verifier with no stake in the work. Judge ONLY "
  +:+ "whether the condition below is satisfied by the latest worker output." +:+ LINE
  +:+ "CONDITION: " +:+ until +:+ LINE +:+ LINE +:+ "LATEST WORKER OUTPUT:" +:+ LINE
  +:+ clamp transcript +:+ LINE +:+ LINE +:+ "Respond with ONLY a JSON "
  +:+ "object: {" +:+ QUOTE +:+ "met" +:+ QUOTE +:+ ": true|false, " +:+ QUOTE +:+ "reason" +:+ QUOTE
  +:+ ": " +:+ QUOTE +:+ "..." +:+ QUOTE +:+ "}. If you cannot see "
  +:+ "evidence the condition holds, answer met=false.".

Definition gate_outcome (until : string) (verdict : Verdict) : GateOutcome :=
  if vd_met verdict then Stop (vd_reason verdict)
  else Continue (until +:+ LINE +:+ LINE +:+ "The verifier reports the condition is not yet met: "
                 +:+ vd_reason verdict +:+ LINE +:+ "Continue working toward it.").

(** [VerifierGate::judge] *)
Definition loop_judge (ls : LoopStage) (x : LoopState) (transcript : string) :
    Task ExecEff (LoopState * Outcome GateOutcome) :=
  let* member := call ExNewMember in
  let iteration := lo_next_verifier x in
  let x := x <| lo_next_verifier := sat_add 32 iteration 1 |> in
  let* linked := link_member ls member WorkflowMemberRole.Verifier iteration in
  match linked with
  | inr e => Ret (x, inr (Raised e))
  | inl _ =>
      let* evidence := call (ExRunMember (mkMemberRun member (ls_verifier ls) (ls_guidance ls)
        (verifier_directive (ls_until ls) transcript) (loop_label ls +:+ " verify") None
        (turn_route (ls_prepared ls) (ls_stage ls) member WorkflowMemberRole.Verifier iteration
           (ra_route (ls_verifier ls))))) in
      match evidence with
      | None => Ret (x, inr (Raised (CoreInvalid "verifier produced no evidence")))
      | Some entry =>
          if negb (me_done entry) then Ret (x, inr (Raised CoreCancelled)) else
          let judge_text text :=
            match parse_verdict text with
            | Some verdict => (x, inl (gate_outcome (ls_until ls) verdict))
            | None => (x, inr Panicked)
            end in
          match SessionId_from_str (me_session entry) with
          | inr _ => Ret (judge_text (me_summary entry))
          | inl session =>
              let* r := call (ExReadProjection session) in
              match r with
              | inr e => Ret (x, inr (Raised e))
              | inl projection => Ret (judge_text (final_assistant_text projection))
              end
          end
      end
  end.

(** What the outcome adds to the latest output. *)
Definition loop_output (latest : string) (outcome : RunOutcome) : string :=
  clamp latest +:+ LINE +:+ LINE +:+
  match outcome with
  | Achieved _ reason => "[verified: " +:+ reason +:+ "]"
  | BudgetLimited iterations _ =>
      "[loop budget limited after " +:+ pretty iterations +:+ " iterations without verification]"
  | Stalled iterations => "[loop stalled after " +:+ pretty iterations +:+ " identical iterations]"
  | Capped iterations _ =>
      "[loop capped after " +:+ pretty iterations +:+ " iterations without verification]"
  | RunCancelled => "[loop cancelled]"
  end.

Definition loop_report (first_report : StageReport) (latest : string) (outcome : RunOutcome) : StageReport :=
  let report := match outcome with
                | RunCancelled => first_report <| sr_status := StageStatus.Cancelled |>
                | _ => first_report
                end in
  report <| sr_output := loop_output latest outcome |>.

Definition drive_loop_stage (ls : LoopStage) (verify : VerifySpec) (directive : string)
    (first_report : StageReport) : Task ExecEff (StageReport + Fault CoreError) :=
  let worker_session :=
    s ← sr_session first_report;
    match SessionId_from_str s with inl id => Some id | inr _ => None end in
  let caps := mkSafetyCaps (vs_max_iterations verify) (max_wall_clock SafetyCaps_default)
                (max_tokens SafetyCaps_default) in
  let* r := driver_run (loop_run_iteration ls) (loop_judge ls) (call ExIsCancelled) (call ExWallClockOver)
    caps false
    (mkLoopState worker_session (Some (sr_output first_report)) (sr_output first_report) 1 0)
    (directive +:+ LINE +:+ "Continue working toward the verified condition.") in
  match r with
  | (_, inr e) => Ret (inr e)
  | (x, inl outcome) => Ret (inl (loop_report first_report (lo_latest x) outcome))
  end.

(** ** Levels *)

(** How the walk over the levels stops early. *)
Inductive Exit := Returned (report : WorkflowRunReport) | Faulted (fault : Fault WorkflowError).

Definition fault_exit (e : CoreError) : Exit := Faulted (engine_fault e).

Record ExecState := mkExecState {
  ex_reports : list StageReport;
  ex_actors : gmap string ResidentActor;
}.

Definition render_activation (prepared : PreparedWorkflowRun) (reports : list StageReport) (index : nat) :
    PreparedActivation + Exit :=
  match render_stage (pr_workflow prepared) index (pr_inputs prepared) (report_evidence <$> reports) with
  | None => inr (Faulted Panicked)
  | Some (inr e) => inr (Faulted (Raised (WeRender e)))
  | Some (inl rendered) => inl (mkPreparedActivation index (rs_directive rendered) (rs_system_context rendered))
  end.

(** [plan.stages()[index]] *)
Definition stage_at (prepared : PreparedWorkflowRun) (index : nat) : WorkflowStage + Exit :=
  match plan_stages (cw_plan (pr_workflow prepared)) !! index with
  | Some stage => inl stage
  | None => inr (Faulted Panicked)
  end.

Definition emit_started (prepared : PreparedWorkflowRun) (index : nat) : Task ExecEff (unit + Exit) :=
  let! stage := Ret (stage_at prepared index) in
  map_error fault_exit (record_durable (pr_durable_run prepared) (pr_lead prepared) (fun run =>
    Event.WorkflowStageStarted (pr_lead prepared) run (st_id stage))).

Definition spawn_label (prepared : PreparedWorkflowRun) (stage : WorkflowStage) : string :=
  let name := wd_name (cw_definition (pr_workflow prepared)) in
  match st_actor stage with
  | Some actor_key => "Workflow " +:+ name +:+ " resident actor " +:+ BACKQUOTE actor_key
  | None => "Workflow " +:+ name +:+ " / stage " +:+ st_id stage
  end.

(** The actor of a stage: the one its key stands for, or a new one. *)
Definition actor_for (prepared : PreparedWorkflowRun) (actors : gmap string ResidentActor)
    (stage : WorkflowStage) (agent : ResolvedAgent) (system_context : string) :
    Task ExecEff (ResidentActor * gmap string ResidentActor + Exit) :=
  match st_actor stage ≫= (actors !!.) with
  | Some existing => Ret (inl (existing, actors))
  | None =>
      let! actor := map_error fault_exit (call (ExSpawnParked agent (spawn_label prepared stage) system_context)) in
      Ret (inl (actor, match st_actor stage with
                       | Some actor_key => <[actor_key := actor]> actors
                       | None => actors
                       end))
  end.

Definition prepare_activation (prepared : PreparedWorkflowRun)
    (state : list (WorkflowStage * ResidentActivation) * gmap string ResidentActor)
    (activation : PreparedActivation) :
    Task ExecEff (list (WorkflowStage * ResidentActivation) * gmap string ResidentActor + Exit) :=
  let '(activations, actors) := state in
  let! stage := Ret (stage_at prepared (pa_index activation)) in
  match pr_resolved prepared !! pa_index activation with
  | None => Ret (inr (Faulted Panicked))
  | Some agent =>
      if negb (pr_has_supervisor prepared)
      then Ret (inr (Faulted (Raised (WeInvalid (wd_name (cw_definition (pr_workflow prepared)))
                  "resident supervisor disappeared after preflight"))))
      else
        let! (actor, actors) := actor_for prepared actors stage agent (pa_system_context activation) in
        let! _ := map_error fault_exit (record_durable (pr_durable_run prepared) (pr_lead prepared) (fun run =>
          Event.WorkflowStageMemberLinked (pr_lead prepared) run (st_id stage) (rs_member actor)
            WorkflowMemberRole.Worker 0)) in
        Ret (inl (activations ++ [(stage, mkResidentActivation actor activation
                   (turn_route prepared stage (rs_member actor) WorkflowMemberRole.Worker 0 (ra_route agent)))],
                  actors))
  end.

(** [for result in resident_results { let (index, report) = result?; reports[index] = report; }] *)
Definition collect_result (reports : list StageReport) (item : nat * (StageReport + CoreError)) :
    list StageReport + Exit :=
  match item.2 with
  | inl report => inl (<[item.1 := report]> reports)
  | inr e => inr (fault_exit e)
  end.

(** The verification of one stage of the level. *)
Definition verify_stage (prepared : PreparedWorkflowRun) (reports : list StageReport) (index : nat) :
    Task ExecEff (list StageReport + Exit) :=
  let! stage := Ret (stage_at prepared index) in
  match st_verify stage with
  | None => Ret (inl reports)
  | Some verify =>
      match reports !! index, pr_resolved prepared !! index, pr_verifiers prepared !! index with
      | Some report, Some worker, Some verifier =>
          if decide (sr_status report <> StageStatus.Done) then Ret (inl reports) else
          match verifier with
          | None => Ret (inl reports)
          | Some verifier =>
              match render_stage (pr_workflow prepared) index (pr_inputs prepared)
                      (report_evidence <$> reports) with
              | None => Ret (inr (Faulted Panicked))
              | Some (inr e) => Ret (inr (Faulted (Raised (WeRender e))))
              | Some (inl rendered) =>
                  let until := default (vs_until verify) (rs_verification_condition rendered) in
                  let* r := drive_loop_stage
                    (mkLoopStage prepared stage worker verifier until (rs_system_context rendered))
                    verify (rs_directive rendered) report in
                  match r with
                  | inl completed => Ret (inl (<[index := completed]> reports))
                  | inr Panicked => Ret (inr (Faulted Panicked))
                  | inr (Raised error) =>
                      let* cancelled := call ExIsCancelled in
                      Ret (inl (<[index := report
                        <| sr_status := if (cancelled : bool) then StageStatus.Cancelled else StageStatus.Failed |>
                        <| sr_output := clamp ("loop Stage failed: " +:+ CoreError_to_string error) |>]> reports))
                  end
              end
          end
      | _, _, _ => Ret (inr (Faulted Panicked))
      end
  end.

Definition emit_finished (prepared : PreparedWorkflowRun) (reports : list StageReport) (index : nat) :
    Task ExecEff (unit + Exit) :=
  match reports !! index with
  | None => Ret (inr (Faulted Panicked))
  | Some report =>
      map_error fault_exit (record_durable (pr_durable_run prepared) (pr_lead prepared) (fun run =>
        Event.WorkflowStageFinished (pr_lead prepared) run (sr_stage report)
          (protocol_stage_status (sr_status report))))
  end.

(** [if cancel.is_cancelled() { mark_pending(Cancelled); return Ok(..) }] *)
Definition check_cancelled (reports : list StageReport) : Task ExecEff (unit + Exit) :=
  let* cancelled := call ExIsCancelled in
  Ret (if (cancelled : bool)
       then inr (Returned (mkWorkflowRunReport RunStatus.Cancelled (mark_pending reports StageStatus.Cancelled)))
       else inl tt).

Definition check_fail_fast (prepared : PreparedWorkflowRun) (reports : list StageReport) (level : WorkflowLevel) :
    unit + Exit :=
  if bool_decide (wd_on_failure (cw_definition (pr_workflow prepared)) = FailFast)
     && level_failed reports (stage_indices level)
  then inr (Returned (mkWorkflowRunReport RunStatus.Failed (mark_pending reports StageStatus.Skipped)))
  else inl tt.

Definition execute_level (prepared : PreparedWorkflowRun) (state : ExecState) (level : WorkflowLevel) :
    Task ExecEff (ExecState + Exit) :=
  let! _ := check_cancelled (ex_reports state) in
  let! activations := Ret (try_map (render_activation prepared (ex_reports state)) (stage_indices level)) in
  let! _ := match pr_durable_run prepared with
            | None => Ret (inl tt)
            | Some _ => each_task (emit_started prepared) (stage_indices level)
            end in
  let! (residents, actors) := fold_task (prepare_activation prepared) ([], ex_actors state) activations in
  let* results := call (ExActivateAll residents) in
  let! reports := Ret (try_fold collect_result (ex_reports state)
                         (zip (pa_index ∘ rv_prepared ∘ snd <$> residents) results)) in
  let! reports := fold_task (verify_stage prepared) reports (stage_indices level) in
  let! _ := match pr_durable_run prepared with
            | None => Ret (inl tt)
            | Some _ => each_task (emit_finished prepared reports) (stage_indices level)
            end in
  let! _ := check_cancelled reports in
  let! _ := Ret (check_fail_fast prepared reports level) in
  Ret (inl (mkExecState reports actors)).

(** [PreparedWorkflowRun::execute] *)
Definition execute (prepared : PreparedWorkflowRun) : Task ExecEff (WorkflowRunReport + Fault WorkflowError) :=
  let plan := cw_plan (pr_workflow prepared) in
  let* r := fold_task (execute_level prepared)
    (mkExecState (pending_report <$> plan_stages plan) ∅) (plan_levels plan) in
  match r with
  | inr (Returned report) => Ret (inl report)
  | inr (Faulted fault) => Ret (inr fault)
  | inl state =>
      let reports := ex_reports state in
      let status := if existsb (fun report => bool_decide (sr_status report = StageStatus.Failed)) reports
                    then RunStatus.Failed else RunStatus.Completed in
      let! _ := if bool_decide (is_Some (pr_durable_run prepared)) && has_explicit_routes prepared
                then map_error Raised (call ExFinishRoutes) else Ret (inl tt) in
      Ret (inl (mkWorkflowRunReport status reports))
  end.
End executor.
