(* ===== verification/ExecutorSpec.v ===== *)
(** * Executions of a Workflow

    The world of an execution is the lead session's log and the cancellation token; the environment
    may append events of other tasks and cancel at any call, and answers every call as it likes, an
    activation with a result that [activate_resident_stage] returns where its actor settles; that it returns
    there is proved ([settling_returns]).  The invariant of the walk
    over the levels relates the reports to the plan and the log to the reports. *)

From stdpp Require Import sorting.
From S2P Require Import Prelude Result RustStr Text Platform Ids Scope Wire Workflow Usage Events Team Projection Transcript Runs WfModel Compiler Levels GraphSpec Render NormalizeSpec AuthorSpec CompileSpec CompilerSpec RenderSpec Effects Iteration Routing Governor WfRun Executor.

Section spec.
Context `{U : UuidLib} `{J : JsonLib} `{F : Fingerprint} `{V : VerdictJson} {SpecRest Grants : Type}.

Local Abbreviation PreparedWorkflowRun := (PreparedWorkflowRun (SpecRest := SpecRest) (Grants := Grants)).
Local Abbreviation ExecEff := (ExecEff (SpecRest := SpecRest) (Grants := Grants)).

(** ** What an activation can return *)

(** The surroundings of one activation: the calls so far, and the session and the inbox boundary of its first read, which is of the root. *)
Record ActWorld := mkActWorld { aw_time : nat; aw_told : option (SessionId * N) }.
Definition act_start : ActWorld := mkActWorld 0 None.

(** Any answers, in surroundings where the actor settles: from the [T]-th call on, a read of the root that succeeds shows it with the
    boundary consumed, no work in flight and not busy. *)
Definition settles (handle : string) (T : nat) X (e : ActEff X) (w : ActWorld) : X -> ActWorld -> Prop :=
  match e in ActEff X return X -> ActWorld -> Prop with
  | AcReadProjection session => fun r w' =>
      match r with
      | inl p =>
          w' = mkActWorld (S (aw_time w)) (Some (default (session, inbox_boundary p handle) (aw_told w)))
          /\ forall boundary, aw_told w = Some (session, boundary) -> T <= aw_time w ->
               exists entry, settled_entry p handle boundary = Some entry /\ re_status entry <> RosterStatus.Busy
      | inr _ => w' = mkActWorld (S (aw_time w)) (aw_told w)
      end
  | _ => fun _ w' => w' = mkActWorld (S (aw_time w)) (aw_told w)
  end.

(** A scheduler of the answers, and what an activation returns under it. *)
Definition Surroundings : Type := forall X, ActEff X -> ActWorld -> X * ActWorld.
Definition settling (handle : string) (T : nat) (h : Surroundings) : Prop :=
  forall X (e : ActEff X) w, settles handle T X e w (h X e w).1 (h X e w).2.

Definition settled_return (stage : WorkflowStage) (activation : ResidentActivation) (r : StageReport + CoreError) : Prop :=
  exists T h fuel w, settling (rs_handle (rv_actor activation)) T h
    /\ run_task h fuel (activate_resident_stage stage activation) act_start = Some (r, w).

(** The stage ran: it is neither pending nor skipped. *)
Definition ran_status (status : StageStatus.t) : Prop :=
  status = StageStatus.Done \/ status = StageStatus.Failed \/ status = StageStatus.Cancelled.

Definition report_of (stage : WorkflowStage) (report : StageReport) : Prop :=
  sr_stage report = st_id stage /\ sr_agent report = st_agent stage.

Lemma clamp_truncates text : clamp text = truncate_utf8 text MAX_PREDECESSOR_OUTPUT_BYTES.
Proof. done. Qed.

Definition activation_post (stage : WorkflowStage) (actor : ResidentActor) (r : StageReport + CoreError) : Prop :=
  match r with
  | inl report => report_of stage report /\ ran_status (sr_status report)
      /\ sr_session report = Some (SessionId_to_string (rs_session actor))
  | inr _ => True
  end.

(** A round either answers or waits, and it does not wait once the actor settled. *)
Lemma wait_round_post stage actor root boundary T stop w :
  aw_told w = Some (root, boundary) ->
  wp (settles (rs_handle actor) T) Total (wait_round stage actor root boundary stop) (fun r w' =>
    match r with
    | inl _ => aw_told w' = Some (root, boundary) /\ aw_time w < aw_time w' /\ aw_time w < T
    | inr r => activation_post stage actor r
    end) w.
Proof.
  intros Htold.
  assert (aw_time w < T -> wp (settles (rs_handle actor) T) Total
    (let* event := call (AcReceive (negb stop)) in
     match event with
     | Event_received => Ret (inl stop)
     | Bus_closed => Ret (inr (inr (CoreInvalid "event bus closed before resident Stage settled")))
     | Cancel_seen =>
         let* r := call (AcStopResident root (rs_handle actor)) in
         match r with inr e => Ret (inr (inr e)) | inl _ => Ret (inl true) end
     end) (fun r w' => match r with
    | inl _ => aw_told w' = Some (root, boundary) /\ aw_time w < aw_time w' /\ aw_time w < T
    | inr r => activation_post stage actor r
    end) (mkActWorld (S (aw_time w)) (Some (root, boundary)))) as Hwait.
  { intros HT. apply wp_do. intros [| |] w1 ->; [by simpl; split_and!; [|lia|]|done|]. apply wp_do.
    intros [[]|e] w2 ->; [|done]. simpl. by split_and!; [|lia|]. }
  unfold wait_round. apply wp_do. intros [own|e] w1; [|done]. intros [-> Hsettled]. rewrite Htold. cbn [default from_option]. cbn zeta.
  destruct (decide (T <= aw_time w)) as [HT|HT].
  - destruct (Hsettled boundary Htold HT) as (entry & -> & Hbusy). destruct (re_status entry); [|done|..].
    + apply wp_do. intros [own'|e] w5 _; [|done]. repeat (split; [done|]). split; [by left|done].
    + split; [done|]. split; [|done]. destruct stop; [by right; right|by right; left].
    + split; [done|]. split; [|done]. destruct stop; [by right; right|by right; left].
  - apply Nat.nle_gt in HT. specialize (Hwait HT). destruct (settled_entry own (rs_handle actor) boundary) as [entry|]; [|exact Hwait].
    destruct (re_status entry); [|exact Hwait|..].
    + apply wp_do. intros [own'|e] w5 _; [|done]. repeat (split; [done|]). split; [by left|done].
    + split; [done|]. split; [|done]. destruct stop; [by right; right|by right; left].
    + split; [done|]. split; [|done]. destruct stop; [by right; right|by right; left].
Qed.

(** An activation whose actor settles returns, and reports its own stage. *)
Lemma activation_returns stage activation T :
  wp (settles (rs_handle (rv_actor activation)) T) Total (activate_resident_stage stage activation)
    (fun r _ => activation_post stage (rv_actor activation) r) act_start.
Proof.
  unfold activate_resident_stage.
  apply wp_do_try. intros [[]|e] w ->; [|done]. apply wp_do_try. intros [[]|e] w ->; [|done].
  apply wp_do_try. intros [root|e] w ->; [|done]. apply wp_do_try. intros [projection|e] w; [|done]. intros [-> _]. cbv zeta.
  apply wp_bind.
  apply (wp_iter_variant _ _ _ _
    (fun _ w => aw_told w = Some (root, inbox_boundary projection (rs_handle (rv_actor activation)))) (fun _ w => T - aw_time w)); [done|].
  intros stop w Htold. eapply wp_mono; [|by apply wait_round_post]. intros [|r] w' H; [split; [apply H|lia]|].
  simpl. by intros [] w2 _.
Qed.

Lemma settling_returns stage activation T h :
  settling (rs_handle (rv_actor activation)) T h ->
  exists fuel r w, run_task h fuel (activate_resident_stage stage activation) act_start = Some (r, w)
    /\ activation_post stage (rv_actor activation) r.
Proof.
  intros Hh. destruct (wp_returns _ h Hh _ _ _ (activation_returns stage activation T)) as (fuel & r & w & Hrun & Hr). by exists fuel, r, w.
Qed.

Lemma settled_return_post stage activation r :
  settled_return stage activation r -> activation_post stage (rv_actor activation) r.
Proof.
  intros (T & h & fuel & w & Hh & Hrun).
  by apply (wp_adequate _ h Hh fuel _ _ _ _ _ (wp_partial _ _ _ _ (activation_returns stage activation T))) in Hrun.
Qed.

(** The wait has no bound of its own: while the actor is busy and events come, the activation does not return. *)
Definition stays_busy (handle : string) (h : Surroundings) : Prop :=
  forall X (e : ActEff X) w, match e in ActEff X return X -> Prop with
    | AcSetActivation _ _ _ | AcMailSend _ _ => fun r => r = inl tt
    | AcLineage => fun r => exists root, r = inl root
    | AcReadProjection _ => fun r => exists p, r = inl p /\
        forall entry, team_roster (p_team p) !! handle = Some entry -> re_status entry = RosterStatus.Busy
    | AcReceive _ => fun r => r = Event_received
    | AcStopResident _ _ | AcClearRoute _ => fun _ => True
    end (h X e w).1.

Lemma busy_activation_waits stage activation h fuel :
  stays_busy (rs_handle (rv_actor activation)) h ->
  run_task h fuel (activate_resident_stage stage activation) act_start = None.
Proof.
  intros Hh. set (actor := rv_actor activation) in *. unfold activate_resident_stage. cbn [try_bind bind_task call run_task].
  pose proof (Hh _ (AcSetActivation (rs_session actor) (pa_system_context (rv_prepared activation)) (rv_route activation)) act_start) as H1.
  fold actor. destruct (h _ (AcSetActivation _ _ _) act_start) as [r1 w1]. simpl in H1. subst r1. cbn [run_task].
  pose proof (Hh _ (AcMailSend (rs_handle actor) (pa_directive (rv_prepared activation))) w1) as H2.
  destruct (h _ (AcMailSend _ _) w1) as [r2 w2]. simpl in H2. subst r2. cbn [run_task].
  pose proof (Hh _ AcLineage w2) as H3. destruct (h _ AcLineage w2) as [r3 w3]. destruct H3 as [root H3]. simpl in H3. subst r3. cbn [run_task].
  pose proof (Hh _ (AcReadProjection root) w3) as H4. destruct (h _ (AcReadProjection root) w3) as [r4 w4]. destruct H4 as (p & H4 & _). simpl in H4. subst r4.
  cbn [run_task bind_task]. generalize (inbox_boundary p (rs_handle actor)) as boundary. intros boundary. clear w1 w2 w3 p.
  match goal with |- run_loop ?body ?k fuel false w4 = None =>
    assert (forall n stop w, run_loop body k n stop w = None) as Hloop; [|apply Hloop] end.
  intros n. induction n as [|n IH]; intros stop w; [done|]. simpl.
  pose proof (Hh _ (AcReadProjection root) w) as H5. destruct (h _ (AcReadProjection root) w) as [r5 w5]. destruct H5 as (p & H5 & Hbusy). simpl in H5. subst r5.
  assert (forall w, run_task h fuel (let* event := call (AcReceive (negb stop)) in
     match event with
     | Event_received => Ret (inl stop)
     | Bus_closed => Ret (inr (inr (CoreInvalid "event bus closed before resident Stage settled")))
     | Cancel_seen =>
         let* r := call (AcStopResident root (rs_handle actor)) in
         match r with inr e => Ret (inr (inr e)) | inl _ => Ret (inl true) end
     end : Task ActEff (bool + (StageReport + CoreError))) w = Some (inl stop, (h _ (AcReceive (negb stop)) w).2)) as Hwait.
  { intros w6. simpl. pose proof (Hh _ (AcReceive (negb stop)) w6) as H6. destruct (h _ (AcReceive (negb stop)) w6) as [r6 w7]. simpl in H6. by subst r6. }
  simpl in Hwait. unfold settled_entry. destruct (team_roster (p_team p) !! rs_handle actor) as [entry|] eqn:Ee; simpl.
  - destruct (_ && _); [rewrite (Hbusy entry eq_refl)|]; simpl; rewrite Hwait; apply IH.
  - rewrite Hwait. apply IH.
Qed.

(** ** The world *)

Record ExecWorld := mkExecWorld { ew_log : list Event.t; ew_cancelled : bool }.

(** Events of other tasks: they never start, finish or stop a stage of the run, nor start a run
    while this one is running. *)
Definition outside (run : WorkflowRunId) (e : Event.t) : Prop :=
  match e with
  | Event.WorkflowRunStarted _ _ _ _ _ _ => False
  | Event.WorkflowStageStarted _ r _ | Event.WorkflowStageFinished _ r _ _ | Event.WorkflowRunFinished _ r _ _ =>
      r <> run
  | _ => True
  end.

Context (prepared : PreparedWorkflowRun).
Abbreviation stages := (plan_stages (cw_plan (pr_workflow prepared))).
Abbreviation levels := (plan_levels (cw_plan (pr_workflow prepared))).

Definition others (e : Event.t) : Prop :=
  match pr_durable_run prepared with Some run => outside run e | None => True end.

(** What other tasks do between two calls. *)
Definition evolves (w w' : ExecWorld) : Prop :=
  exists more, ew_log w' = ew_log w ++ more /\ Forall others more
    /\ (ew_cancelled w = true -> ew_cancelled w' = true).

Definition exec_step A (e : ExecEff A) (w : ExecWorld) : A -> ExecWorld -> Prop :=
  match e in Executor.ExecEff A return A -> ExecWorld -> Prop with
  | ExIsCancelled => fun cancelled w' => evolves w w' /\ cancelled = ew_cancelled w'
  | ExEmit e => fun r w' => exists w1, evolves w w1 /\
      match r with
      | inl _ => w' = mkExecWorld (ew_log w1 ++ [e]) (ew_cancelled w1)
      | inr _ => w' = w1
      end
  | ExActivateAll activations => fun results w' => evolves w w' /\
      Forall2 (fun a r => settled_return a.1 a.2 r) activations results
  | _ => fun _ w' => evolves w w'
  end.

(** ** The log *)

(** The view of the run when the stage at index [i] has status [f i]. *)
Definition plan_view (f : nat -> WorkflowStageStatus.t) : list (string * WorkflowStageStatus.t) :=
  imap (fun i stage => (st_id stage, f i)) stages.

Context (log0 : list Event.t).

(** The run has only events of its own and of others since [log0], and they give the view [f]. *)
Definition logged (f : nat -> WorkflowStageStatus.t) (w : ExecWorld) : Prop :=
  match pr_durable_run prepared with
  | None => True
  | Some run => exists tr, ew_log w = log0 ++ tr /\ Forall (inside_run run) tr
      /\ view_events run tr (plan_view (fun _ => WorkflowStageStatus.Pending)) = plan_view f
  end.

Lemma plan_view_ext f g : (forall i, i < length stages -> f i = g i) -> plan_view f = plan_view g.
Proof.
  intros H. unfold plan_view. apply list_eq. intros i. rewrite !list_lookup_imap.
  destruct (stages !! i) eqn:E; [|done]. simpl. by rewrite H by by eapply lookup_lt_Some.
Qed.

Lemma logged_ext f g w : (forall i, i < length stages -> f i = g i) -> logged f w -> logged g w.
Proof.
  intros H. unfold logged. destruct (pr_durable_run prepared); [|done].
  by rewrite (plan_view_ext f g).
Qed.

Lemma view_events_app run tr1 tr2 sts :
  view_events run (tr1 ++ tr2) sts = view_events run tr2 (view_events run tr1 sts).
Proof. apply foldl_app. Qed.

Lemma outside_view run e sts : outside run e -> view_event run e sts = sts /\ inside_run run e.
Proof. destruct e; simpl; try done; intros H; split; try done; by rewrite decide_False. Qed.

Lemma outside_views run tr sts :
  Forall (outside run) tr -> view_events run tr sts = sts /\ Forall (inside_run run) tr.
Proof.
  intros H. induction H as [|e tr He _ [IH1 IH2]]; [by repeat constructor|].
  destruct (outside_view run e sts He) as [Hv Hi]. split; [|by constructor]. simpl. by rewrite Hv.
Qed.

Lemma logged_evolves f w w' : evolves w w' -> logged f w -> logged f w'.
Proof.
  intros (more & Hlog & Hmore & _). unfold logged, others in *. destruct (pr_durable_run prepared) as [run|]; [|done].
  intros (tr & Htr & Hin & Hv). destruct (outside_views run more (plan_view f) Hmore) as [Hm Hi].
  exists (tr ++ more). split; [by rewrite Hlog, Htr, app_assoc|]. split; [by apply Forall_app|].
  by rewrite view_events_app, Hv.
Qed.

(** An event recorded for a durable run. *)
Lemma wp_record_durable m f g (event : WorkflowRunId -> Event.t) (Q : unit + CoreError -> ExecWorld -> Prop) w :
  logged f w ->
  (forall run, pr_durable_run prepared = Some run -> is_workflow_event (event run) = true
     /\ Event.session_of (event run) = Some (pr_lead prepared) /\ inside_run run (event run)
     /\ view_event run (event run) (plan_view f) = plan_view g) ->
  (forall w', logged g w' -> Q (inl tt) w') -> (forall e w', logged f w' -> Q (inr e) w') ->
  wp exec_step m (record_durable (pr_durable_run prepared) (pr_lead prepared) event) Q w.
Proof.
  intros Hlog Hev Hok Herr. unfold record_durable. destruct (pr_durable_run prepared) as [run|] eqn:Hrun.
  2: { simpl. apply Hok. unfold logged. by rewrite Hrun. }
  destruct (Hev run eq_refl) as (Hw & Hs & Hi & Hg). unfold record_workflow_event.
  rewrite Hw, bool_decide_eq_true_2 by done. simpl. intros r w' (w1 & Hevo & Hr).
  pose proof (logged_evolves _ _ _ Hevo Hlog) as H1. destruct r as [[]|e]; subst w'; [|by apply Herr].
  apply Hok. unfold logged in *. rewrite Hrun in *. destruct H1 as (tr & Htr & Hin & Hv).
  exists (tr ++ [event run]). simpl.
  split; [by rewrite Htr, app_assoc|]. split; [by apply Forall_app; repeat constructor|].
  by rewrite view_events_app, Hv.
Qed.

(** ** Events of the plan *)

Lemma update_first_alter {A B} `{EqDecision B} (key : A -> B) (h : A -> A) (l : list A) i x :
  NoDup (key <$> l) -> l !! i = Some x -> update_first (fun y => key y = key x) h l = alter h i l.
Proof.
  revert i. induction l as [|y l IH]; intros i Hnd Hi; [done|]. apply NoDup_cons in Hnd as [Hy Hnd].
  destruct i as [|i]; simpl in *; [injection Hi as ->; by rewrite decide_True|].
  rewrite decide_False; [by rewrite (IH i)|]. intros Heq. apply Hy. rewrite Heq.
  apply list_elem_of_fmap. exists x. split; [done|]. by eapply list_elem_of_lookup_2.
Qed.

(** Status [i] of [f] becomes [s]. *)
Definition at_index (i : nat) (s : WorkflowStageStatus.t) (f : nat -> WorkflowStageStatus.t) (j : nat) :
    WorkflowStageStatus.t :=
  if decide (j = i) then s else f j.

Lemma plan_view_set f i stage g :
  NoDup (st_id <$> stages) -> stages !! i = Some stage ->
  set_status (st_id stage) g (plan_view f) = plan_view (at_index i (g (f i)) f).
Proof.
  intros Hnd Hi. assert (plan_view f !! i = Some (st_id stage, f i)) as Hv.
  { unfold plan_view. by rewrite list_lookup_imap, Hi. }
  unfold set_status. assert ((fst <$> plan_view f) = (st_id <$> stages)) as Hids.
  { unfold plan_view. rewrite fmap_imap. apply list_eq. intros j. rewrite list_lookup_imap, list_lookup_fmap.
    by destruct (stages !! j). }
  change (fun x : string * WorkflowStageStatus.t => x.1 = st_id stage)
    with (fun x : string * WorkflowStageStatus.t => x.1 = (st_id stage, f i).1).
  rewrite (update_first_alter fst _ _ i (st_id stage, f i)) by (done || by rewrite Hids).
  apply list_eq. intros j. unfold plan_view, at_index. destruct (decide (j = i)) as [->|Hne].
  - rewrite list_lookup_alter_eq, !list_lookup_imap, Hi. simpl. by rewrite decide_True.
  - rewrite list_lookup_alter_ne by done. rewrite !list_lookup_imap. destruct (stages !! j); [|done]. simpl.
    by rewrite decide_False.
Qed.
End spec.

(** A verifier answer whose last closing brace precedes its first opening one has no slice. *)
Lemma parse_verdict_panics `{VerdictJson} : parse_verdict "} {" = None.
Proof. reflexivity. Qed.
