(* ===== verification/ExecuteSpec.v ===== *)
(** * What an execution of a Workflow guarantees ([execute])

    The invariant of the walk over the levels: before level [k] the stages below [k] ran and the
    others still have their pending reports, and the log of a durable run folds to the statuses of
    the reports.  The theorems read the invariant at every way out of the walk. *)

From stdpp Require Import sorting.
From S2P Require Import Prelude Result RustStr Text Platform Ids Scope Wire Workflow Usage Events Team Projection Transcript Runs WfModel Compiler Levels GraphSpec Render NormalizeSpec AuthorSpec CompileSpec CompilerSpec RenderSpec Effects Iteration Routing Governor WfRun Executor ExecutorSpec.

Section spec.
Context `{U : UuidLib} `{J : JsonLib} `{F : Fingerprint} `{V : VerdictJson} {SpecRest Grants : Type}.

Local Abbreviation PreparedWorkflowRun := (PreparedWorkflowRun (SpecRest := SpecRest) (Grants := Grants)).
Local Abbreviation ExecEff := (ExecEff (SpecRest := SpecRest) (Grants := Grants)).

Context (prepared : PreparedWorkflowRun) (log0 : list Event.t).
Abbreviation stages := (plan_stages (cw_plan (pr_workflow prepared))).
Abbreviation levels := (plan_levels (cw_plan (pr_workflow prepared))).
Local Abbreviation logged := (logged prepared log0).
Local Abbreviation exec_step := (exec_step prepared).

(** ** Calls that leave the view of the run alone *)

Lemma kept f w w' : evolves prepared w w' -> logged f w -> logged f w'.
Proof. apply logged_evolves. Qed.

Lemma wp_quiet m f (event : WorkflowRunId -> Event.t) (Q : unit + CoreError -> ExecWorld -> Prop) w :
  logged f w ->
  (forall run sts, is_workflow_event (event run) = true
     /\ Event.session_of (event run) = Some (pr_lead prepared) /\ inside_run run (event run)
     /\ view_event run (event run) sts = sts) ->
  (forall r w', logged f w' -> Q r w') ->
  wp exec_step m (record_durable (pr_durable_run prepared) (pr_lead prepared) event) Q w.
Proof.
  intros Hlog Hev HQ. apply (wp_record_durable prepared log0 m f f); [done| |by intros; apply HQ..].
  intros run _. apply Hev.
Qed.

(** ** Loop stages *)

Lemma loop_run_iteration_kept ls x directive f w :
  ls_prepared ls = prepared -> logged f w ->
  wp exec_step Total (loop_run_iteration ls x directive) (fun _ w => logged f w) w.
Proof.
  intros Hls Hlog. unfold loop_run_iteration. destruct (lo_first x); [done|].
  apply wp_do. intros member w1 Hw1. apply wp_bind. unfold link_member. rewrite Hls.
  apply (wp_quiet _ f); [by eapply kept|done|]. intros [[]|e] w2 H2; [|done].
  apply wp_do. intros [entry|] w3 Hw3; pose proof (kept _ _ _ Hw3 H2) as H3; [|done].
  destruct (negb _); [done|]. destruct (SessionId_from_str _) as [session|]; [|done].
  apply wp_do. intros [projection|e] w4 Hw4; by eapply kept.
Qed.

Lemma loop_judge_kept ls x transcript f w :
  ls_prepared ls = prepared -> logged f w ->
  wp exec_step Total (loop_judge ls x transcript) (fun _ w => logged f w) w.
Proof.
  intros Hls Hlog. unfold loop_judge.
  apply wp_do. intros member w1 Hw1. apply wp_bind. unfold link_member. rewrite Hls.
  apply (wp_quiet _ f); [by eapply kept|done|]. intros [[]|e] w2 H2; [|done].
  apply wp_do. intros [entry|] w3 Hw3; pose proof (kept _ _ _ Hw3 H2) as H3; [|done].
  destruct (negb _); [done|]. destruct (SessionId_from_str _) as [session|]; [|done].
  apply wp_do. intros [projection|e] w4 Hw4; by eapply kept.
Qed.

(** The report of a driven stage is of the same stage, and done or cancelled when the first was done. *)
Definition driven (first_report : StageReport) (r : StageReport + Fault CoreError) : Prop :=
  match r with
  | inl report => sr_stage report = sr_stage first_report /\ sr_agent report = sr_agent first_report
      /\ sr_session report = sr_session first_report
      /\ (sr_status report = sr_status first_report \/ sr_status report = StageStatus.Cancelled)
  | inr _ => True
  end.

Lemma drive_loop_stage_post ls verify directive first_report f w :
  ls_prepared ls = prepared -> logged f w ->
  wp exec_step Total (drive_loop_stage ls verify directive first_report)
    (fun r w => logged f w /\ driven first_report r) w.
Proof.
  intros Hls Hlog. unfold drive_loop_stage. apply wp_bind.
  apply (wp_mono _ _ _ (fun _ w => logged f w)).
  { intros [x [outcome|e]] w' H; split; try done. unfold loop_report. destruct outcome; simpl; auto. }
  apply (wp_driver_keeps exec_step _ _ _ _ _ _ (logged f)); [..|done]; intros.
  - simpl. intros c w' [Hev _]. by eapply kept.
  - simpl. intros c w' Hev. by eapply kept.
  - by eapply loop_run_iteration_kept.
  - by eapply loop_judge_kept.
Qed.
(** ** The invariant *)

(** What [prepare_workflow_run] leaves: a compiled plan, its inputs, and an agent per member. *)
Record prepared_ok : Prop := {
  po_wf : workflow_wf (pr_workflow prepared);
  po_inputs : same_keys (wd_inputs (cw_definition (pr_workflow prepared))) (pr_inputs prepared);
  po_resolved : length (pr_resolved prepared) = length stages;
  po_verifiers : length (pr_verifiers prepared) = length stages;
}.
Hypothesis Hok : prepared_ok.

(** The stage ran, in some session. *)
Definition ran (report : StageReport) : Prop := ran_status (sr_status report) /\ is_Some (sr_session report).

(** The report of a stage before level [k]. *)
Definition row_at (k : nat) (stage : WorkflowStage) (report : StageReport) : Prop :=
  if decide (st_level stage < k) then report_of stage report /\ ran report
  else report = pending_report stage.

Definition at_level (k : nat) (reports : list StageReport) : Prop := Forall2 (row_at k) stages reports.

Definition status_at (reports : list StageReport) (i : nat) : WorkflowStageStatus.t :=
  default WorkflowStageStatus.Pending (protocol_stage_status <$> (sr_status <$> reports !! i)).

(** The stages of [running] are running. *)
Definition running_at (running : list nat) (reports : list StageReport) (i : nat) : WorkflowStageStatus.t :=
  if decide (i ∈ running) then WorkflowStageStatus.Running else status_at reports i.

Lemma at_level_0 : at_level 0 (pending_report <$> stages).
Proof. apply Forall2_fmap_r, Forall_Forall2_diag, Forall_forall. intros stage _.
  unfold compose, row_at. destruct (decide (st_level stage < 0)); [lia|done].
Qed.

Lemma row_report_of k stage report : row_at k stage report -> report_of stage report.
Proof. unfold row_at. case_decide; [by intros []|by intros ->]. Qed.

Lemma ran_evidence report : ran report -> report_evidence report <> None.
Proof. unfold report_evidence. intros [[->|[->| ->]] _]; done. Qed.

(** ** Ways out *)

Definition no_supervisor : WorkflowError :=
  WeInvalid (wd_name (cw_definition (pr_workflow prepared))) "resident supervisor disappeared after preflight".

Definition walk_fault (fault : Fault WorkflowError) : Prop :=
  match fault with
  | Panicked => exists stage, stage ∈ stages /\ is_Some (st_verify stage)
  | Raised (WeEngine _) => True
  | Raised e => pr_has_supervisor prepared = false /\ e = no_supervisor
  end.

Definition exits (R : WorkflowRunReport -> ExecWorld -> Prop) (x : Exit) (w : ExecWorld) : Prop :=
  match x with
  | Returned report => R report w
  | Faulted fault => (exists f, logged f w) /\ walk_fault fault
  end.

Lemma exits_engine R f e w : logged f w -> exits R (fault_exit e) w.
Proof. intros Hf. split; [by exists f|done]. Qed.

Section level.
Context (k : nat) (level : WorkflowLevel) (Hk : levels !! k = Some level).

Lemma level_elem i : i ∈ stage_indices level <-> exists stage, stages !! i = Some stage /\ st_level stage = k.
Proof.
  apply (ww_levels _ (po_wf Hok)) in Hk as [_ ->]. simpl. rewrite list_elem_of_filter, elem_of_seq.
  split.
  - intros [Hs _]. destruct (stages !! i) as [stage|]; [|done]. exists stage. naive_solver.
  - intros (stage & Hi & <-). rewrite Hi. split; [done|]. apply lookup_lt_Some in Hi. lia.
Qed.

Lemma level_NoDup : NoDup (stage_indices level).
Proof. apply (ww_levels _ (po_wf Hok)) in Hk as [_ ->]. apply NoDup_filter, NoDup_seq. Qed.

(** [reports'] are the reports of the level over [reports]. *)
Definition settled (reports reports' : list StageReport) : Prop :=
  length reports' = length reports
  /\ (forall i, i ∉ stage_indices level -> reports' !! i = reports !! i)
  /\ (forall i, i ∈ stage_indices level -> exists stage report,
        stages !! i = Some stage /\ reports' !! i = Some report /\ report_of stage report /\ ran report).

Lemma settled_next reports reports' :
  at_level k reports -> settled reports reports' -> at_level (S k) reports'.
Proof.
  intros Hat (Hlen & Hout & Hin). apply Forall2_same_length_lookup.
  pose proof (Forall2_length _ _ _ Hat) as Hl. split; [congruence|].
  intros i stage report Hs Hr. destruct (decide (i ∈ stage_indices level)) as [Hi|Hi].
  - destruct (Hin i Hi) as (stage' & report' & ? & ? & ? & ?). simplify_eq.
    apply level_elem in Hi as (s & ? & Hsk). simplify_eq. unfold row_at. by rewrite decide_True by lia.
  - rewrite (Hout i Hi) in Hr. pose proof (Forall2_lookup_lr _ _ _ _ _ _ Hat Hs Hr) as Hrow.
    assert (st_level stage <> k) as Hne by (intros Heq; apply Hi, level_elem; eauto).
    unfold row_at in *. destruct (decide (st_level stage < k)); [by rewrite decide_True by lia|].
    by rewrite decide_False by lia.
Qed.

(** Every predecessor of a stage of the level has evidence. *)
Lemma level_evidence reports reports' index stage :
  at_level k reports -> settled reports reports' \/ reports' = reports ->
  index ∈ stage_indices level -> stages !! index = Some stage ->
  length (report_evidence <$> reports') = length stages
  /\ forall u, u ∈ st_predecessor_indices stage -> (report_evidence <$> reports') !! u <> Some None.
Proof.
  intros Hat Hs Hi Hstage. pose proof (Forall2_length _ _ _ Hat) as Hl. rewrite length_fmap.
  split; [by destruct Hs as [[? _]| ->]; congruence|]. intros u Hu.
  destruct (ww_predecessors _ (po_wf Hok) stage) as (_ & preds & Hpreds & Hlevel).
  { by eapply list_elem_of_lookup_2. }
  apply list_elem_of_lookup in Hu as [j Hj]. destruct (Forall2_lookup_l _ _ _ _ _ Hpreds Hj) as (p & Hp & Hu).
  assert (st_level p < k) as Hlt.
  { apply level_elem in Hi as (s & Hs' & Hsk). assert (s = stage) as -> by congruence. rewrite <- Hsk, Hlevel.
    apply max_list_elem_of_le, list_elem_of_fmap. exists p. split; [done|]. by eapply list_elem_of_lookup_2. }
  rewrite list_lookup_fmap. assert (reports' !! u = reports !! u) as ->.
  { destruct Hs as [(_ & Hout & _)| ->]; [|done]. apply Hout. intros (p' & Hp' & Hpk)%level_elem. assert (p' = p) as -> by congruence. lia. }
  destruct (Forall2_lookup_l _ _ _ _ _ Hat Hu) as (report & Hr & Hrow). rewrite Hr. simpl.
  unfold row_at in Hrow. rewrite decide_True in Hrow by lia. destruct Hrow as [_ Hran]. intros [=He]. by apply (ran_evidence report).
Qed.
(** *** Rendering and starting *)

Lemma level_renders reports :
  at_level k reports ->
  exists activations, try_map (render_activation prepared reports) (stage_indices level) = inl activations
    /\ Forall2 (fun i a => pa_index a = i) (stage_indices level) activations.
Proof.
  intros Hat. destruct (try_map _ _) as [activations|x] eqn:E.
  - exists activations. split; [done|]. apply try_map_ok in E. eapply Forall2_impl; [exact E|].
    intros i a. unfold render_activation. destruct (render_stage _ _ _ _) as [[r|]|]; [|done..]. by intros [= <-].
  - exfalso. apply try_map_error in E as (i & Hi & E). pose proof Hi as (stage & Hs & _)%level_elem.
    destruct (level_evidence reports reports i stage Hat (or_intror eq_refl) Hi Hs) as [Hlen Hev].
    destruct (render_stage_runs _ (po_wf Hok) i (pr_inputs prepared) _ (po_inputs Hok) Hlen stage Hs Hev) as (r & Hr).
    unfold render_activation in E. by rewrite Hr in E.
Qed.

Lemma started_next reports done i rest :
  at_level k reports -> stage_indices level = done ++ i :: rest -> forall stage, stages !! i = Some stage ->
  set_status (st_id stage) start_status (plan_view prepared (running_at done reports))
  = plan_view prepared (running_at (done ++ [i]) reports).
Proof.
  intros Hat Heq stage Hi. pose proof level_NoDup as Hnd. rewrite Heq in Hnd.
  apply NoDup_app in Hnd as (_ & Hnd & _).
  rewrite (plan_view_set prepared _ i stage) by (done || apply (ww_ids _ (po_wf Hok))).
  apply plan_view_ext. intros j _. unfold at_index, running_at. destruct (decide (j = i)) as [->|Hne].
  - rewrite (decide_True (P := i ∈ done ++ [i])) by set_solver. rewrite decide_False by (intros ?; set_solver).
    assert (exists s, stages !! i = Some s /\ st_level s = k) as (s & Hs & Hsk).
    { apply level_elem. rewrite Heq. set_solver. }
    assert (s = stage) as -> by congruence.
    destruct (Forall2_lookup_l _ _ _ _ _ Hat Hi) as (report & Hr & Hrow). unfold row_at in Hrow.
    rewrite decide_False in Hrow by lia. unfold status_at. by rewrite Hr, Hrow.
  - destruct (decide (j ∈ done)); [by rewrite decide_True by set_solver|by rewrite decide_False by set_solver].
Qed.

Lemma emit_started_all R reports w (Q : unit + Exit -> ExecWorld -> Prop) :
  at_level k reports -> logged (status_at reports) w ->
  (forall w, logged (running_at (stage_indices level) reports) w -> Q (inl tt) w) ->
  (forall x w, exits R x w -> Q (inr x) w) ->
  wp exec_step Total (match pr_durable_run prepared with
                      | None => Ret (inl tt)
                      | Some _ => each_task (emit_started prepared) (stage_indices level)
                      end) Q w.
Proof.
  intros Hat Hlog HQ HE. destruct (pr_durable_run prepared) as [run|] eqn:Hrun.
  2: { simpl. apply HQ. unfold ExecutorSpec.logged. by rewrite Hrun. }
  apply (wp_each_task _ _ _ (fun done w => logged (running_at done reports) w) (exits R)); [|..|done|done].
  - revert Hlog. apply logged_ext. intros i _. unfold running_at. by rewrite decide_False by set_solver.
  - clear w Hlog. intros done i rest w Heq Hlog.
    assert (exists s, stages !! i = Some s /\ st_level s = k) as (stage & Hi & _).
    { apply level_elem. rewrite Heq. set_solver. }
    unfold emit_started, stage_at. rewrite Hi. apply wp_map_error.
    apply (wp_record_durable prepared log0 _ (running_at done reports) (running_at (done ++ [i]) reports)); [done| |done|].
    + intros run' Hrun'. repeat (split; [done|]). simpl. rewrite decide_True by done. by eapply started_next.
    + intros e w' Hw. by eapply exits_engine.
Qed.
(** *** Activations *)

(** The activation is for the stage at [i]. *)
Definition for_stage (i : nat) (a : WorkflowStage * ResidentActivation) : Prop :=
  stages !! i = Some a.1 /\ pa_index (rv_prepared a.2) = i.

Lemma actor_for_kept R actors stage agent system_context f w Q :
  logged f w -> (forall r w, logged f w -> Q (inl r) w) -> (forall x w, exits R x w -> Q (inr x) w) ->
  wp exec_step Total (actor_for prepared actors stage agent system_context) Q w.
Proof.
  intros Hlog HQ HE. unfold actor_for. destruct (_ ≫= _) as [existing|]; [by apply HQ|].
  apply wp_try, wp_map_error. simpl. intros [actor|e] w' Hw; pose proof (kept _ _ _ Hw Hlog); [by apply HQ|].
  by eapply HE, exits_engine.
Qed.

Lemma prepare_all R f activations actors w (Q : list (WorkflowStage * ResidentActivation) * gmap string ResidentActor + Exit -> ExecWorld -> Prop) :
  Forall2 (fun i a => pa_index a = i) (stage_indices level) activations -> logged f w ->
  (forall residents actors w, logged f w -> Forall2 for_stage (stage_indices level) residents -> Q (inl (residents, actors)) w) ->
  (forall x w, exits R x w -> Q (inr x) w) ->
  wp exec_step Total (fold_task (prepare_activation prepared) ([], actors) activations) Q w.
Proof.
  intros Hall Hlog HQ HE. assert (pa_index <$> activations = stage_indices level) as Hind.
  { clear -Hall. induction Hall; simpl; by f_equal. }
  apply (wp_fold_task _ _ _ (fun done s w => logged f w /\ Forall2 for_stage (pa_index <$> done) s.1) (exits R));
    [by split| | |done].
  2: { intros [residents actors'] w' [Hl Hr]. rewrite Hind in Hr. by apply HQ. }
  clear w Hlog actors. intros done a rest [residents actors] w Heq [Hlog Hres]. unfold prepare_activation.
  assert (pa_index a ∈ stage_indices level) as Hin by (rewrite <- Hind, Heq; set_solver).
  apply level_elem in Hin as (stage & Hs & _). unfold stage_at. rewrite Hs. cbn [try_bind bind_task].
  destruct (lookup_lt_is_Some_2 (pr_resolved prepared) (pa_index a)) as [agent ->].
  { rewrite (po_resolved Hok). by eapply lookup_lt_Some. }
  destruct (pr_has_supervisor prepared) eqn:Hsup; cbn [negb].
  2: { split; [by exists f|by split]. }
  apply wp_try. apply (actor_for_kept R _ _ _ _ f); [done| |by intros x w' H; apply H].
  clear w Hlog. intros [actor actors'] w Hlog. apply wp_try, wp_map_error.
  apply (wp_quiet _ f); [done|done|]. intros [[]|e] w' Hw; [|by eapply exits_engine].
  simpl. split; [done|]. rewrite fmap_app. apply Forall2_app; [done|]. by repeat constructor.
Qed.

(** *** Results *)

Lemma collect_all (items : list (nat * (StageReport + CoreError))) (good : nat -> StageReport -> Prop) reports :
  NoDup items.*1 -> Forall (fun item => item.1 < length reports
    /\ forall report, item.2 = inl report -> good item.1 report) items ->
  match try_fold collect_result reports items with
  | inl reports' => length reports' = length reports
      /\ (forall i, i ∉ items.*1 -> reports' !! i = reports !! i)
      /\ (forall i, i ∈ items.*1 -> exists report, reports' !! i = Some report /\ good i report)
  | inr x => exists e, x = fault_exit e
  end.
Proof.
  revert reports. induction items as [|[i [report|e]] items IH]; intros reports Hnd Hall; simpl; [set_solver| |by eexists].
  apply NoDup_cons in Hnd as [Hi Hnd]. apply Forall_cons in Hall as [[Hlt Hgood] Hall]. simpl in *.
  specialize (IH (<[i := report]> reports) Hnd). rewrite length_insert in IH. specialize (IH Hall).
  destruct (try_fold _ _ _) as [reports'|x']; [|done]. destruct IH as (Hlen & Hout & Hin).
  split; [done|]. split.
  - intros j Hj%not_elem_of_cons. rewrite Hout by naive_solver. apply list_lookup_insert_ne. naive_solver.
  - intros j [->|Hj]%elem_of_cons; [|by apply Hin]. exists report.
    rewrite Hout by done. split; [by apply list_lookup_insert_eq|by apply Hgood].
Qed.

Lemma activated reports residents results :
  at_level k reports -> Forall2 for_stage (stage_indices level) residents ->
  Forall2 (fun a r => settled_return a.1 a.2 r) residents results ->
  match try_fold collect_result reports (zip (pa_index ∘ rv_prepared ∘ snd <$> residents) results) with
  | inl reports' => settled reports reports'
  | inr x => exists e, x = fault_exit e
  end.
Proof.
  intros Hat Hres Hall. pose proof (Forall2_length _ _ _ Hat) as Hl. pose proof (Forall2_length _ _ _ Hall) as Hl2.
  assert (pa_index ∘ rv_prepared ∘ snd <$> residents = stage_indices level) as ->.
  { clear -Hres. induction Hres as [|i a ? ? []]; simpl; by f_equal. }
  pose proof (Forall2_length _ _ _ Hres) as Hl1.
  assert ((zip (stage_indices level) results).*1 = stage_indices level) as Hfst by (apply fst_zip; lia).
  pose proof (collect_all (zip (stage_indices level) results)
    (fun i report => exists stage, stages !! i = Some stage /\ report_of stage report /\ ran report) reports) as Hc.
  rewrite Hfst in Hc. specialize (Hc level_NoDup).
  assert (Forall (fun item => item.1 < length reports /\ forall report, item.2 = inl report ->
    exists stage, stages !! item.1 = Some stage /\ report_of stage report /\ ran report)
    (zip (stage_indices level) results)) as Hgood.
  { apply Forall_lookup. intros j [i r] Hj. apply lookup_zip_Some in Hj as [Hi Hr]. simpl in *.
    destruct (Forall2_lookup_l _ _ _ _ _ Hres Hi) as (a & Ha & Hs & _).
    split; [rewrite <- Hl; by eapply lookup_lt_Some|]. intros report ->.
    pose proof (Forall2_lookup_lr _ _ _ _ _ _ Hall Ha Hr) as Hmay. apply settled_return_post in Hmay as (? & ? & Hsess).
    exists a.1. do 3 (split; [done|]). rewrite Hsess. by eexists. }
  specialize (Hc Hgood). destruct (try_fold _ _ _) as [reports'|x]; [|done].
  destruct Hc as (Hlen & Hout & Hin). split; [done|]. split; [done|].
  intros i Hi. destruct (Hin i Hi) as (report & ? & stage & ? & ? & ?). by exists stage, report.
Qed.
(** *** Verification *)

Lemma settled_insert reports reports1 i stage report :
  settled reports reports1 -> i ∈ stage_indices level -> i < length reports -> stages !! i = Some stage ->
  report_of stage report -> ran report -> settled reports (<[i := report]> reports1).
Proof.
  intros (Hlen & Hout & Hin) Hi Hlt Hs Hof Hran. split; [by rewrite length_insert|]. split.
  - intros j Hj. rewrite list_lookup_insert_ne by (intros ->; done). by apply Hout.
  - intros j Hj. destruct (decide (j = i)) as [->|Hne].
    + exists stage, report. rewrite list_lookup_insert_eq by lia. done.
    + rewrite list_lookup_insert_ne by done. by apply Hin.
Qed.

Lemma verify_stage_post R reports reports1 i f w :
  at_level k reports -> i ∈ stage_indices level -> settled reports reports1 -> logged f w ->
  wp exec_step Total (verify_stage prepared reports1 i) (fun r w => match r with
    | inl reports2 => settled reports reports2 /\ logged f w
    | inr x => exits R x w end) w.
Proof.
  intros Hat Hi Hset Hlog. pose proof (Forall2_length _ _ _ Hat) as Hl.
  destruct (proj2 (proj2 Hset) i Hi) as (stage & report & Hs & Hr & Hof & Hran).
  pose proof (lookup_lt_Some _ _ _ Hs) as Hlt. unfold verify_stage, stage_at. rewrite Hs. cbn [try_bind bind_task].
  destruct (st_verify stage) as [verify|] eqn:Hv; [|by split].
  destruct (lookup_lt_is_Some_2 (pr_resolved prepared) i) as [worker ->]; [by rewrite (po_resolved Hok)|].
  destruct (lookup_lt_is_Some_2 (pr_verifiers prepared) i) as [verifier ->]; [by rewrite (po_verifiers Hok)|].
  rewrite Hr. destruct (decide (sr_status report <> StageStatus.Done)) as [|Hdone]; [by split|].
  destruct verifier as [verifier|]; [|by split].
  destruct (level_evidence reports reports1 i stage Hat (or_introl Hset) Hi Hs) as [Hlen Hev].
  destruct (render_stage_runs _ (po_wf Hok) i (pr_inputs prepared) _ (po_inputs Hok) Hlen stage Hs Hev)
    as (r & ->).
  apply wp_bind. eapply wp_mono; [|by apply (drive_loop_stage_post _ _ _ _ f)].
  clear w Hlog. intros [completed|[error|]] w [Hlog Hd].
  - split; [|done]. destruct Hd as (Hst & Hag & Hsess & Hstatus). destruct Hof as [Hof1 Hof2].
    eapply settled_insert; [done..|lia|done|by split; congruence|]. apply dec_stable in Hdone.
    destruct Hran as [Hran Hsome]. split; [|by rewrite Hsess].
    destruct Hstatus as [->| ->]; [done|by right; right].
  - apply wp_do. intros cancelled w' [Hw _]. split; [|by eapply kept].
    eapply settled_insert; [done..|lia|done|done|]. split; [|apply Hran].
    destruct cancelled; [by right; right|by right; left].
  - split; [by exists f|]. exists stage. rewrite Hv. split; [by eapply list_elem_of_lookup_2|done].
Qed.

Lemma verify_all R reports reports1 f w (Q : list StageReport + Exit -> ExecWorld -> Prop) :
  at_level k reports -> settled reports reports1 -> logged f w ->
  (forall reports2 w, settled reports reports2 -> logged f w -> Q (inl reports2) w) ->
  (forall x w, exits R x w -> Q (inr x) w) ->
  wp exec_step Total (fold_task (verify_stage prepared) reports1 (stage_indices level)) Q w.
Proof.
  intros Hat Hset Hlog HQ HE.
  apply (wp_fold_task _ _ _ (fun _ reports2 w => settled reports reports2 /\ logged f w) (exits R)); [done| |naive_solver|done].
  clear w Hlog. intros done i rest reports2 w Heq [Hset2 Hlog].
  eapply wp_mono; [|apply (verify_stage_post R reports); [done| |done..]]; [done|rewrite Heq; set_solver].
Qed.

(** *** Finishing *)

Lemma ran_terminal report : ran report ->
  WorkflowStageStatus.is_terminal (protocol_stage_status (sr_status report)) = true.
Proof. by intros [[->|[->| ->]] _]. Qed.

Lemma running_others reports reports1 i :
  settled reports reports1 -> running_at (stage_indices level) reports i = running_at (stage_indices level) reports1 i.
Proof.
  intros (_ & Hout & _). unfold running_at, status_at. case_decide; [done|]. by rewrite Hout.
Qed.

Lemma emit_finished_all R reports reports1 w (Q : unit + Exit -> ExecWorld -> Prop) :
  at_level k reports -> settled reports reports1 -> logged (running_at (stage_indices level) reports) w ->
  (forall w, logged (status_at reports1) w -> Q (inl tt) w) ->
  (forall x w, exits R x w -> Q (inr x) w) ->
  wp exec_step Total (match pr_durable_run prepared with
                      | None => Ret (inl tt)
                      | Some _ => each_task (emit_finished prepared reports1) (stage_indices level)
                      end) Q w.
Proof.
  intros Hat Hset Hlog HQ HE. destruct (pr_durable_run prepared) as [run|] eqn:Hrun.
  2: { simpl. apply HQ. unfold ExecutorSpec.logged. by rewrite Hrun. }
  apply (wp_each_task _ _ _ (fun done w => exists rest, stage_indices level = done ++ rest
    /\ logged (running_at rest reports1) w) (exits R)); [| | |done].
  - exists (stage_indices level). split; [done|]. revert Hlog. apply logged_ext. intros i _. by apply running_others.
  - clear w Hlog. intros done i rest w Heq (rest' & Heq' & Hlog). rewrite Heq in Heq'.
    apply app_inv_head in Heq' as <-. assert (i ∈ stage_indices level) as Hi by (rewrite Heq; set_solver).
    destruct (proj2 (proj2 Hset) i Hi) as (stage & report & Hs & Hr & [Hof _] & Hran).
    unfold emit_finished. rewrite Hr. apply wp_map_error.
    apply (wp_record_durable prepared log0 _ (running_at (i :: rest) reports1) (running_at rest reports1)); [done| | |].
    + intros run' Hrun'. repeat (split; [done|]). simpl. rewrite decide_True, ran_terminal by done.
      rewrite Hof, (plan_view_set prepared _ i stage) by (done || apply (ww_ids _ (po_wf Hok))).
      apply plan_view_ext. intros j _. pose proof level_NoDup as Hnd. rewrite Heq in Hnd.
      apply NoDup_app in Hnd as (_ & _ & [Hni _]%NoDup_cons). unfold at_index, running_at.
      destruct (decide (j = i)) as [->|Hne].
      * rewrite decide_True by set_solver. rewrite decide_False by done. unfold status_at. by rewrite Hr.
      * destruct (decide (j ∈ rest)); [by rewrite decide_True by set_solver|by rewrite decide_False by set_solver].
    + intros w' Hw. exists rest. split; [by rewrite <- app_assoc|done].
    + intros e w' Hw. by eapply exits_engine.
  - clear w Hlog. intros w (rest & Heq & Hlog). apply HQ. assert (rest = []) as ->.
    { apply (app_inv_head (stage_indices level)). by rewrite <- Heq, app_nil_r. }
    revert Hlog. apply logged_ext. intros i _. unfold running_at. by rewrite decide_False by set_solver.
Qed.
(** *** The level *)

(** With [FailFast] no stage below level [j] failed. *)
Definition clean (j : nat) (reports : list StageReport) : Prop :=
  wd_on_failure (cw_definition (pr_workflow prepared)) = FailFast ->
  forall i stage report, stages !! i = Some stage -> reports !! i = Some report ->
  sr_status report = StageStatus.Failed -> j <= st_level stage.

(** The walk stopped after the levels below [j], and reported so. *)
Definition stopped (j : nat) (reports : list StageReport) (report : WorkflowRunReport) (w : ExecWorld) : Prop :=
  j <= length levels /\ at_level j reports /\ clean (pred j) reports /\ logged (status_at reports) w
  /\ match wrr_status report with
     | RunStatus.Completed => j = length levels /\ wrr_stages report = reports
         /\ Forall (fun r => sr_status r <> StageStatus.Failed) reports
     | RunStatus.Failed =>
         (j = length levels \/ wd_on_failure (cw_definition (pr_workflow prepared)) = FailFast)
         /\ Exists (fun r => sr_status r = StageStatus.Failed) reports
         /\ wrr_stages report = mark_pending reports StageStatus.Skipped
     | RunStatus.Cancelled => ew_cancelled w = true
         /\ wrr_stages report = mark_pending reports StageStatus.Cancelled
     end.
Definition returned (report : WorkflowRunReport) (w : ExecWorld) : Prop :=
  exists j reports, stopped j reports report w.

Lemma check_cancelled_post j reports w (Q : unit + Exit -> ExecWorld -> Prop) :
  j <= length levels -> at_level j reports -> clean (pred j) reports -> logged (status_at reports) w ->
  (forall w, logged (status_at reports) w -> Q (inl tt) w) ->
  (forall x w, exits returned x w -> Q (inr x) w) ->
  wp exec_step Total (check_cancelled reports) Q w.
Proof.
  intros Hj Hat Hcl Hlog HQ HE. apply wp_do. intros cancelled w' [Hev Hc].
  pose proof (kept _ _ _ Hev Hlog) as Hlog'. destruct cancelled; simpl; [|by apply HQ].
  apply HE. exists j, reports. by repeat split.
Qed.

Lemma level_failed_spec reports :
  level_failed reports (stage_indices level) = true <->
  exists i report, i ∈ stage_indices level /\ reports !! i = Some report /\ sr_status report = StageStatus.Failed.
Proof.
  unfold level_failed. rewrite existsb_exists. split.
  - intros (i & Hi & Hf%bool_decide_eq_true). apply list_elem_of_In in Hi.
    destruct (reports !! i) as [report|] eqn:E; [|done]. exists i, report. naive_solver.
  - intros (i & report & Hi & Hr & Hf). exists i. split; [by apply list_elem_of_In|].
    apply bool_decide_eq_true. by rewrite Hr; simpl; rewrite Hf.
Qed.

Lemma clean_settled reports reports1 :
  at_level k reports -> clean k reports -> settled reports reports1 -> clean k reports1.
Proof.
  intros Hat Hcl (_ & Hout & _) Hff i stage report Hs Hr Hf. destruct (decide (i ∈ stage_indices level)) as [Hi|Hi].
  - apply level_elem in Hi as (stage' & Hs' & Hk'). assert (stage' = stage) as -> by congruence. lia.
  - rewrite Hout in Hr by done. by eapply Hcl.
Qed.

Lemma execute_level_post state w :
  at_level k (ex_reports state) -> clean k (ex_reports state) -> logged (status_at (ex_reports state)) w ->
  wp exec_step Total (execute_level prepared state level) (fun r w => match r with
    | inl state => at_level (S k) (ex_reports state) /\ clean (S k) (ex_reports state)
        /\ logged (status_at (ex_reports state)) w
    | inr x => exits returned x w end) w.
Proof.
  destruct state as [reports actors]. cbn [ex_reports]. intros Hat Hcl Hlog.
  pose proof (lookup_lt_Some _ _ _ Hk) as Hklt.
  assert (clean (pred k) reports) as Hpred by (intros ? i ? ? ? ? ?; etrans; [|by eapply Hcl]; lia).
  unfold execute_level. cbn [ex_reports ex_actors].
  apply wp_try, (check_cancelled_post k reports); [lia|done|done|done| |done]. clear w Hlog. intros w Hlog.
  destruct (level_renders reports Hat) as (activations & -> & Hact). cbn [try_bind bind_task].
  apply wp_try, (emit_started_all returned reports); [done|done| |done]. clear w Hlog. intros w Hlog.
  apply wp_try, (prepare_all returned (running_at (stage_indices level) reports)); [done|done| |done].
  clear w Hlog. intros residents actors' w Hlog Hres. apply wp_do. intros results w1 [Hev Hmay].
  pose proof (kept _ _ _ Hev Hlog) as Hlog1. pose proof (activated reports residents results Hat Hres Hmay) as Hset.
  destruct (try_fold collect_result _ _) as [reports1|x]; cbn [try_bind bind_task].
  2: { destruct Hset as [e ->]. by eapply exits_engine. }
  apply wp_try, (verify_all returned reports reports1 (running_at (stage_indices level) reports) w1); [done|done|done| |done].
  clear w w1 reports1 Hev Hlog Hlog1 Hset. intros reports1 w Hset Hlog.
  apply wp_try, (emit_finished_all returned reports reports1); [done|done|done| |done]. clear w Hlog. intros w Hlog.
  pose proof (settled_next _ _ Hat Hset) as Hat'. pose proof (clean_settled _ _ Hat Hcl Hset) as Hcl'.
  apply wp_try, (check_cancelled_post (S k) reports1); [lia|done|done|done| |done].
  clear w Hlog. intros w Hlog. unfold check_fail_fast.
  destruct (bool_decide (wd_on_failure (cw_definition (pr_workflow prepared)) = FailFast)) eqn:Hff; simpl.
  - apply bool_decide_eq_true in Hff. destruct (level_failed reports1 (stage_indices level)) eqn:Hf; simpl.
    + exists (S k), reports1. split; [lia|]. split; [done|]. split; [exact Hcl'|]. split; [done|].
      split; [by right|]. split; [|done].
      apply level_failed_spec in Hf as (i & report & _ & Hr & Hf). apply Exists_exists. exists report.
      split; [by eapply list_elem_of_lookup_2|done].
    + split; [done|]. split; [|done]. intros _ i stage report Hs Hr Hfail.
      pose proof (Hcl' Hff i stage report Hs Hr Hfail) as Hle. destruct (decide (st_level stage = k)) as [He|]; [|lia].
      exfalso. assert (level_failed reports1 (stage_indices level) = true) as Hx; [|congruence].
      apply level_failed_spec. exists i, report. split; [apply level_elem; by exists stage|done].
  - apply bool_decide_eq_false in Hff. split; [done|]. split; [|done]. by intros ?.
Qed.
End level.

(** ** The walk *)

Definition run_fault (fault : Fault WorkflowError) : Prop :=
  walk_fault fault
  \/ (is_Some (pr_durable_run prepared) /\ has_explicit_routes prepared = true /\ exists e, fault = Raised e).

Definition execution_post (r : WorkflowRunReport + Fault WorkflowError) (w : ExecWorld) : Prop :=
  match r with
  | inl report => returned report w
  | inr fault => (exists f, logged f w) /\ run_fault fault
  end.

Lemma mark_pending_none reports status :
  Forall (fun r => sr_status r <> StageStatus.Pending) reports -> mark_pending reports status = reports.
Proof.
  intros H. unfold mark_pending. induction H as [|r reports Hr _ IH]; [done|]. simpl.
  rewrite decide_False by done. by f_equal.
Qed.

Lemma all_ran j reports : length levels <= j -> at_level j reports ->
  Forall (fun r => ran r) reports.
Proof.
  intros Hj Hat. apply Forall_lookup. intros i r Hr.
  destruct (Forall2_lookup_r _ _ _ _ _ Hat Hr) as (stage & Hs & Hrow). unfold row_at in Hrow.
  pose proof (ww_bound _ (po_wf Hok) stage (list_elem_of_lookup_2 _ _ _ Hs)) as Hb.
  rewrite decide_True in Hrow by lia. apply Hrow.
Qed.

Lemma finish_routes_post f report w :
  logged f w -> (forall w, logged f w -> returned report w) ->
  wp exec_step Total
    (let! _ := if bool_decide (is_Some (pr_durable_run prepared)) && has_explicit_routes prepared
               then map_error Raised (call ExFinishRoutes) else Ret (inl tt) in
     Ret (inl report)) execution_post w.
Proof.
  intros Hlog Hret. apply wp_try. destruct (bool_decide _ && has_explicit_routes prepared) eqn:E; [|by apply Hret].
  apply andb_true_iff in E as [Hd%bool_decide_eq_true Hr]. apply wp_map_error. simpl.
  intros [[]|e] w' Hw; pose proof (kept _ _ _ Hw Hlog); [by apply Hret|]. split; [by exists f|]. right. eauto.
Qed.

Lemma execute_post w :
  logged (fun _ => WorkflowStageStatus.Pending) w -> wp exec_step Total (execute prepared) execution_post w.
Proof.
  intros Hlog. unfold execute. apply wp_bind.
  apply (wp_fold_task _ _ _ (fun done state w => at_level (length done) (ex_reports state)
    /\ clean (length done) (ex_reports state) /\ logged (status_at (ex_reports state)) w) (exits returned)).
  - simpl. split; [apply at_level_0|]. split; [intros _ i stage report _ _ _; lia|].
    revert Hlog. apply logged_ext. intros i Hi. unfold status_at. rewrite list_lookup_fmap.
    by destruct (stages !! i).
  - clear w Hlog. intros done level rest state w Heq (Hat & Hcl & Hlog).
    assert (levels !! length done = Some level) as Hk by (rewrite Heq; by apply list_lookup_middle).
    eapply wp_mono; [|by apply (execute_level_post (length done) level Hk)].
    intros [state'|x] w'; [|done]. by rewrite length_app, Nat.add_1_r.
  - clear w Hlog. intros state w (Hat & Hcl & Hlog). pose proof (all_ran _ _ (le_n _) Hat) as Hran.
    set (status := if existsb _ _ then _ else _).
    apply (finish_routes_post (status_at (ex_reports state))); [done|]. clear w Hlog. intros w Hlog.
    exists (length levels), (ex_reports state). split; [done|]. split; [done|]. split.
    { intros Hff i stage report Hs Hr Hf. pose proof (Hcl Hff i stage report Hs Hr Hf). lia. }
    split; [done|]. cbn [wrr_status wrr_stages]. subst status.
    destruct (existsb _ (ex_reports state)) eqn:E.
    + split; [by left|]. apply existsb_exists in E as (r & Hr%list_elem_of_In & Hf%bool_decide_eq_true).
      split; [apply Exists_exists; eauto|]. symmetry. apply mark_pending_none. eapply Forall_impl; [exact Hran|].
      cbn beta. intros r' [[->|[->| ->]] _]; done.
    + split; [done|]. split; [done|]. apply Forall_forall. intros r Hr Hf.
      assert (existsb (fun report => bool_decide (sr_status report = StageStatus.Failed)) (ex_reports state) = true)
        as Hx; [|congruence].
      apply existsb_exists. exists r. split; [by apply list_elem_of_In|by apply bool_decide_eq_true].
  - intros [report|fault] w'; [done|]. intros [Hl Hf]. split; [done|by left].
Qed.
End spec.
