(* ===== verification/WfControl.v ===== *)
(** * Controlling a Workflow run ([hya-app/src/workflow_control.rs])

    What surrounds an execution: the error a surface sees, the plan recorded at admission and the
    terminal event that ends a run. *)

From stdpp Require Import pretty.
From S2P Require Import Prelude Result RustStr Text Platform Ids Scope Wire Workflow Usage Events Team Projection WfModel Compiler Render Effects Iteration Routing Governor WfRun Executor.

(** ** Errors as text *)

Definition TeamAdmissionError_to_string (e : TeamAdmissionError) : string :=
  match e with
  | MaxDepth => "max recursion depth reached"
  | BudgetExhausted => "run agent budget exhausted"
  end.

Definition WorkflowCompileError_to_string (e : WorkflowCompileError) : string :=
  source_name e +:+ ":" +:+ pretty (error_line e) +:+ ":" +:+ pretty (error_column e) +:+ ": " +:+ error_message e.

Definition WorkflowRenderError_to_string (e : WorkflowRenderError.t) : string :=
  match e with
  | WorkflowRenderError.MissingInput key => "required Workflow input " +:+ BACKQUOTE key +:+ " was not provided"
  | WorkflowRenderError.UnknownInput key => "Workflow input " +:+ BACKQUOTE key +:+ " is not declared"
  | WorkflowRenderError.UnknownStageIndex index =>
      "Workflow Stage index " +:+ pretty index +:+ " is outside the compiled plan"
  | WorkflowRenderError.EvidenceShape actual expected =>
      "Workflow evidence has " +:+ pretty actual +:+ " entries; expected " +:+ pretty expected
  | WorkflowRenderError.MissingPredecessorEvidence id =>
      "direct predecessor " +:+ BACKQUOTE id +:+ " has no terminal evidence"
  end.

Definition bounded_error (value : string) : string := chars_take 2048 value.

Section control.
Context `{U : UuidLib} `{J : JsonLib} `{F : Fingerprint} `{V : VerdictJson} {SpecRest Grants : Type}.

Local Abbreviation PreparedWorkflowRun := (PreparedWorkflowRun (SpecRest := SpecRest) (Grants := Grants)).
Local Abbreviation ExecEff := (ExecEff (SpecRest := SpecRest) (Grants := Grants)).

Definition WorkflowError_to_string (e : WorkflowError) : string :=
  match e with
  | WeSource source_name detail => "Workflow source " +:+ BACKQUOTE source_name +:+ ": " +:+ detail
  | WeCompile e => WorkflowCompileError_to_string e
  | WeRender e => WorkflowRenderError_to_string e
  | WeInvalid workflow detail => "invalid workflow " +:+ BACKQUOTE workflow +:+ ": " +:+ detail
  | WeAdmission e => "workflow admission: " +:+ TeamAdmissionError_to_string e
  | WeUnauthorized caller agent_id detail =>
      "workflow stage agent " +:+ BACKQUOTE agent_id +:+ " not spawnable by " +:+ BACKQUOTE caller +:+ ": " +:+ detail
  | WeEngine e => CoreError_to_string e
  end.

Inductive WorkflowControlError :=
  | WcNotFound (name : string)
  | WcInvalidSource (detail : string)
  | WcStaleRevision (expected actual : WorkflowRevision)
  | WcSessionNotFound (session : SessionId)
  | WcMissingSelection (session : SessionId)
  | WcInvalidInput (detail : string)
  | WcUnauthorized (detail : string)
  | WcBusy (session : SessionId) (run : WorkflowRunId)
  | WcRuntimeUnavailable
  | WcOperationConflict (run : WorkflowRunId)
  | WcExecution (detail : string)
  | WcCore (e : CoreError).

Definition WorkflowControlError_code (e : WorkflowControlError) : string :=
  match e with
  | WcNotFound _ => "WORKFLOW_NOT_FOUND"
  | WcInvalidSource _ => "WORKFLOW_INVALID_SOURCE"
  | WcStaleRevision _ _ => "WORKFLOW_STALE_REVISION"
  | WcSessionNotFound _ => "SESSION_NOT_FOUND"
  | WcMissingSelection _ => "WORKFLOW_NOT_SELECTED"
  | WcInvalidInput _ => "WORKFLOW_INVALID_INPUT"
  | WcUnauthorized _ => "WORKFLOW_UNAUTHORIZED"
  | WcBusy _ _ => "WORKFLOW_BUSY"
  | WcRuntimeUnavailable => "WORKFLOW_RUNTIME_UNAVAILABLE"
  | WcOperationConflict _ => "WORKFLOW_OPERATION_CONFLICT"
  | WcExecution _ | WcCore _ => "WORKFLOW_INTERNAL"
  end.

Definition map_workflow_preflight_error (error : WorkflowError) : WorkflowControlError :=
  let detail := bounded_error (WorkflowError_to_string error) in
  match error with
  | WeUnauthorized _ _ _ => WcUnauthorized detail
  | WeRender _ => WcInvalidInput detail
  | WeSource _ _ | WeCompile _ | WeInvalid _ _ => WcInvalidSource detail
  | WeEngine error => WcCore error
  | WeAdmission _ => WcExecution detail
  end.

Definition map_workflow_error_with_detail (error : WorkflowError) (detail : string) : WorkflowControlError :=
  match error with
  | WeUnauthorized _ _ _ => WcUnauthorized detail
  | WeRender _ => WcInvalidInput detail
  | WeEngine error => WcCore error
  | WeSource _ _ | WeCompile _ | WeInvalid _ _ | WeAdmission _ => WcExecution detail
  end.

(** ** The recorded plan *)

Definition workflow_selected_candidate (route : WorkflowModelRoute) : option WorkflowModelResolvedCandidate :=
  selected ← route_selected route;
  Some (mkWorkflowModelResolvedCandidate
    (let index := N.of_nat (selected_index route) in if decide (fits 32 index) then index else umax 32)
    (as_str (rc_model selected)) (effort_as_str (rc_reasoning selected))).

Definition workflow_model_assignment (assignment : WfModel.WorkflowModelAssignment) :
    Workflow.WorkflowModelAssignment :=
  mkWorkflowModelAssignment (ma_id assignment) (ma_reasoning assignment)
    ((fun candidate => mkWorkflowModelCandidate (mc_id candidate) (mc_reasoning candidate))
       <$> ma_fallback assignment).

Definition StageMode_to_string (mode : StageMode) : string :=
  match mode with Once => "once" | Loop => "loop" end.

Definition workflow_stage_plan (workflow : CompiledWorkflow) (prepared : PreparedWorkflowRun) :
    list WorkflowStagePlan :=
  imap (fun index stage =>
    mkWorkflowStagePlan (st_id stage) (st_title stage) (StrNewtype (st_agent stage))
      (StageMode_to_string (st_mode stage)) (N.of_nat (st_level stage))
      (workflow_model_assignment <$> st_model stage)
      (worker_route prepared index ≫= workflow_selected_candidate)
      (workflow_model_assignment <$> (st_verify stage ≫= vs_model))
      (verifier_route prepared index ≫= workflow_selected_candidate))
    (plan_stages (cw_plan workflow)).

(** ** The end of a run *)

Record WorkflowRunResult := mkWorkflowRunResult {
  rr_run : WorkflowRunProjection;
  rr_replayed : bool;
}.

Definition run_status (status : RunStatus.t) : WorkflowRunStatus.t :=
  match status with
  | RunStatus.Completed => WorkflowRunStatus.Completed
  | RunStatus.Failed => WorkflowRunStatus.Failed
  | RunStatus.Cancelled => WorkflowRunStatus.Cancelled
  end.

Definition control_fault (e : CoreError) : Fault WorkflowControlError := Raised (WcCore e).

(** [state_inner(..).await?.run.filter(|current| current.id == run).ok_or_else(..)?] *)
Definition current_run (state : WorkflowProjection) (run : WorkflowRunId) (missing : string) :
    WorkflowRunProjection + WorkflowControlError :=
  match wp_run state with
  | Some current => if decide (wr_id current = run) then inl current else inr (WcExecution missing)
  | None => inr (WcExecution missing)
  end.

(** [state_inner]: the session's Workflow state, read again after the terminal event. *)
Definition finish_prepared_run (state_inner : Task ExecEff (WorkflowProjection + WorkflowControlError))
    (session : SessionId) (run : WorkflowRunId) (prepared : PreparedWorkflowRun) :
    Task ExecEff (WorkflowRunResult + Fault WorkflowControlError) :=
  let* outcome := execute prepared in
  match outcome with
  | inr Panicked => Ret (inr Panicked)
  | inr (Raised error) =>
      let detail := bounded_error (WorkflowError_to_string error) in
      let! _ := map_error control_fault (record_workflow_event session
        (Event.WorkflowRunFinished session run WorkflowRunStatus.Failed (Some detail))) in
      Ret (inr (Raised (map_workflow_error_with_detail error detail)))
  | inl report =>
      let! _ := map_error control_fault (record_workflow_event session
        (Event.WorkflowRunFinished session run (run_status (wrr_status report)) None)) in
      let! state := map_error Raised state_inner in
      match current_run state run "terminal Workflow run missing from Session projection" with
      | inr e => Ret (inr (Raised e))
      | inl current => Ret (inl (mkWorkflowRunResult current false))
      end
  end.
End control.
