(* ===== verification/RunSpec.v ===== *)
(** * A Workflow run from its preparation to its terminal event

    A concrete run ([RunDemo]).  [execute_exact]: what an execution of a compiled and prepared Workflow returns.
    [execution_projected] and [finished_run_closed]: what the fold of the session's log shows
    afterwards. *)

From stdpp Require Import sorting pretty.
From S2P Require Import Prelude Result RustStr Platform Ids Scope Wire Workflow Usage Events Team Projection Transcript Runs Text WfModel Compiler Levels GraphSpec Render NormalizeSpec AuthorSpec CompileSpec CompilerSpec RenderSpec Effects Iteration Routing Governor WfRun Executor ExecutorSpec ExecuteSpec WfControl.

(** * A concrete Workflow run

    The document of [WorkflowDemo], prepared with a catalog that knows every agent and a router that
    serves every model, and an environment that lets every stage succeed. *)

Module RunDemo.
#[export] Instance fingerprint : Fingerprint := {| default_hash s := N.of_nat (String.length s) |}.
(** A verdict is met when it is there. *)
#[export] Instance verdicts : VerdictJson := {| json_verdict s := Some (Some true, None) |}.

Definition provider : Provider :=
  mkProvider (fun _ => Some (mkCapabilities true true true true true true 1000 1000 None true))
    (fun _ => Some Medium) (fun _ _ => Some true).

Definition catalog : Catalog (SpecRest := unit) (Grants := unit) :=
  mkCatalog (fun agent => inl (mkAgentSpec (StrNewtype agent) None tt)) (fun _ => inl tt).

Definition lead : SessionId := Hysec "00000000000000000000".
Definition member : MemberId := from_uuid (Demo.Uuid128 7 eq_refl).
Definition run : WorkflowRunId := from_uuid (Demo.Uuid128 9 eq_refl).

Definition prepare : option (Governor (OperationId := nat)) * (PreparedWorkflowRun (SpecRest := unit) (Grants := unit) + WorkflowError) :=
  prepare_workflow_run catalog [provider] None (inr CoreCancelled) lead WorkflowDemo.workflow
    WorkflowDemo.inputs true (Some run).
Definition prepared : PreparedWorkflowRun (SpecRest := unit) (Grants := unit) :=
  match prepare.2 with
  | inl prepared => prepared
  | inr _ => mkPreparedWorkflowRun lead WorkflowDemo.workflow ∅ true [] [] None None
  end.

Lemma prepares : prepare = (None, inl prepared).
Proof.
  assert (match prepare with (None, inl _) => true | _ => false end = true) as H by (vm_compute; reflexivity).
  unfold prepared. by destruct prepare as [[g|] [p|e]].
Qed.

(** ** An environment in which every stage succeeds *)

Definition actor : ResidentActor := mkResidentActor lead "worker" member.

(** The roster says that the actor is idle and has read its inbox up to [cursor]. *)
Definition idle (a : ResidentActor) (cursor : N) : Projection :=
  Projection_default <| p_team ::= fun t => t <| team_roster := {[ rs_handle a :=
    mkRosterEntry (rs_handle a) (rs_session a) (StrNewtype "agent") SubagentMode.Resident RosterStatus.Idle
      None cursor 0 None ]} |> |>.

Definition idle_now (a : ResidentActor) (w : ActWorld) : Projection :=
  idle a (match aw_told w with Some (_, boundary) => boundary | None => 0%N end).

Definition activity (a : ResidentActor) : Surroundings := fun X e w =>
  match e in ActEff X return X * ActWorld with
  | AcSetActivation _ _ _ | AcMailSend _ _ | AcStopResident _ _ => (inl tt, mkActWorld (S (aw_time w)) (aw_told w))
  | AcLineage => (inl lead, mkActWorld (S (aw_time w)) (aw_told w))
  | AcReadProjection session => (inl (idle_now a w),
      mkActWorld (S (aw_time w)) (Some (default (session, inbox_boundary (idle_now a w) (rs_handle a)) (aw_told w))))
  | AcReceive _ => (Event_received, mkActWorld (S (aw_time w)) (aw_told w))
  | AcClearRoute _ => (tt, mkActWorld (S (aw_time w)) (aw_told w))
  end.

Lemma idle_settled a boundary : exists entry, settled_entry (idle a boundary) (rs_handle a) boundary = Some entry /\ re_status entry <> RosterStatus.Busy.
Proof.
  unfold settled_entry. simpl. rewrite lookup_singleton_eq. simpl. rewrite bool_decide_eq_true_2 by lia. by eexists.
Qed.

Lemma activity_settles a : settling (rs_handle a) 0 (activity a).
Proof.
  intros X e w. destruct e; try done. simpl. split; [done|]. intros boundary Htold _. unfold idle_now. rewrite Htold. apply idle_settled.
Qed.

Definition done_report (stage : WorkflowStage) (session : SessionId) : StageReport :=
  stage_report stage StageStatus.Done session "".

Definition stage_succeeds (a : WorkflowStage * ResidentActivation) : StageReport + CoreError := 
  inl (done_report a.1 (rs_session (rv_actor a.2))).

Definition environment X (e : ExecEff (SpecRest := unit) (Grants := unit) X) (w : ExecWorld) : X * ExecWorld :=
  match e in Executor.ExecEff X return X * ExecWorld with
  | ExIsCancelled => (ew_cancelled w, w)
  | ExWallClockOver => (false, w)
  | ExEmit e => (inl tt, mkExecWorld (ew_log w ++ [e]) (ew_cancelled w))
  | ExSpawnParked _ _ _ => (inl actor, w)
  | ExActivateAll activations => (stage_succeeds <$> activations, w)
  | ExNewMember => (member, w)
  | ExRunMember _ => (Some (mkMemberEvidence "m" "not a session" true "{}"), w)
  | ExReadProjection _ => (inl Projection_default, w)
  | ExFinishRoutes => (inl tt, w)
  end.

Lemma stage_can_succeed a : settled_return a.1 a.2 (stage_succeeds a).
Proof.
  destruct a as [stage [[session handle m] [index directive context] route]].
  exists 0, (activity (mkResidentActor session handle m)), 1, (mkActWorld 7 (Some (lead, umax 64))).
  split; [apply activity_settles|]. unfold activate_resident_stage. cbn -[idle_now inbox_boundary wait_round umax].
  assert (inbox_boundary (idle_now (mkResidentActor session handle m) (mkActWorld 3 None)) handle = umax 64) as ->
    by (unfold inbox_boundary; cbn; by rewrite lookup_empty).
  unfold wait_round. cbn -[idle_now settled_entry umax]. unfold idle_now, settled_entry. cbn -[umax]. rewrite lookup_insert_eq. cbn -[umax].
  rewrite (bool_decide_eq_true_2 (umax 64 <= umax 64)%N) by lia. reflexivity.
Qed.

Lemma environment_possible X (e : ExecEff X) w :
  exec_step prepared X e w (environment X e w).1 (environment X e w).2.
Proof.
  assert (forall w : ExecWorld, evolves prepared w w) as Hrefl.
  { intros w0. exists []. by rewrite app_nil_r. }
  destruct e; simpl; try done.
  - by exists w.
  - split; [done|]. apply Forall2_fmap_r, Forall_Forall2_diag, Forall_forall. intros a _. apply stage_can_succeed.
Qed.

Definition identity : WorkflowIdentity := mkWorkflowIdentity (StrNewtype "user:ship.md") "ship" (from_bytes "").
Definition owner : OwnerRunId := mkOwnerRunId (Demo.Uuid128 1 eq_refl).
Definition started : Event.t :=
  Event.WorkflowRunStarted lead run identity "hash" owner (workflow_stage_plan WorkflowDemo.workflow prepared).
Definition world : ExecWorld := mkExecWorld [started] false.

(** The run completes, and its log shows it. *)
Definition outcome : option ((WorkflowRunReport + Fault WorkflowError) * ExecWorld) :=
  run_task environment 5 (execute prepared) world.

Definition summary : option (RunStatus.t * list (string * StageStatus.t * string) * nat) :=
  match outcome with
  | Some (inl report, w) =>
      Some (wrr_status report, (fun row => (sr_stage row, sr_status row, sr_output row)) <$> wrr_stages report,
            length (ew_log w))
  | _ => None
  end.

Lemma completes :
  summary = Some (RunStatus.Completed,
    [("plan", StageStatus.Done, ""); ("build", StageStatus.Done, LINE +:+ LINE +:+ "[verified: no reason given]");
     ("review", StageStatus.Done, "")], 11).
Proof. vm_compute. reflexivity. Qed.

Lemma outcome_returns : exists report w, outcome = Some (inl report, w).
Proof.
  pose proof completes as H. unfold summary in H. destruct outcome as [[[report|fault] w]|]; try discriminate.
  by exists report, w.
Qed.

(** Finishing the run, when its state cannot be read back. *)
Definition unreadable : Task (ExecEff (SpecRest := unit) (Grants := unit)) (WorkflowProjection + WorkflowControlError) :=
  Ret (inr WcRuntimeUnavailable).
Definition finish_outcome : option ((WorkflowRunResult + Fault WorkflowControlError) * ExecWorld) :=
  run_task environment 5 (finish_prepared_run unreadable lead run prepared) world.

Lemma finish_returns : exists w, finish_outcome = Some (inr (Raised WcRuntimeUnavailable), w).
Proof.
  assert (match finish_outcome with Some (inr (Raised WcRuntimeUnavailable), _) => true | _ => false end = true) as H
    by (vm_compute; reflexivity).
  destruct finish_outcome as [[[|[[]|]] w]|]; try discriminate. by exists w.
Qed.
End RunDemo.

(** * A Workflow run from its preparation to its terminal event *)

Section spec.
Context `{U : UuidLib} `{J : JsonLib} `{F : Fingerprint} `{V : VerdictJson} {SpecRest Grants OperationId : Type}.
Context `{!EqDecision OperationId} `{!Countable OperationId}.

Local Abbreviation PreparedWorkflowRun := (PreparedWorkflowRun (SpecRest := SpecRest) (Grants := Grants)).
Local Abbreviation Catalog := (Catalog (SpecRest := SpecRest) (Grants := Grants)).
Local Abbreviation Governor := (Governor (OperationId := OperationId)).
Implicit Types (catalog : Catalog) (governor : option Governor) (prepared : PreparedWorkflowRun).

(** ** Preparation *)

Lemma resolve_stages_lengths catalog router name stages resolved verifiers :
  try_fold (resolve_stage catalog router name) ([], []) stages = inl (resolved, verifiers) ->
  length resolved = length stages /\ length verifiers = length stages.
Proof.
  intros H. apply (try_fold_invariant (fun done s => length s.1 = length done /\ length s.2 = length done)) in H; [done|done|].
  clear. intros done stage rest [r v] s' _ [Hr Hv] H. simpl in *. unfold resolve_stage in H.
  destruct (resolve_agent _ _ _ _ _ _) as [worker|]; [|done].
  destruct (try_option _ _) as [verifier|]; [|done]. injection H as <-. simpl. rewrite !length_app. simpl. lia.
Qed.

Lemma prepare_ok catalog router governor lineage lead workflow inputs has_supervisor durable_run governor' prepared :
  workflow_wf workflow ->
  prepare_workflow_run catalog router governor lineage lead workflow inputs has_supervisor durable_run
    = (governor', inl prepared) ->
  prepared_ok prepared /\ pr_workflow prepared = workflow /\ pr_durable_run prepared = durable_run
  /\ pr_lead prepared = lead /\ pr_has_supervisor prepared = has_supervisor.
Proof.
  intros Hwf H. unfold prepare_workflow_run in H. pose proof (validate_inputs_cases workflow inputs) as Hin.
  destruct (validate_inputs workflow inputs) as [[]|]; [|done].
  destruct (try_fold _ _ _) as [[resolved verifiers]|] eqn:Hres; [|done].
  destruct (validate_resolved_semantics _ _ _ _) as [[]|]; [|done].
  destruct (reserve_workflow_budget _ _ _ _) as [g [budget|]]; [|done]. injection H as <- <-.
  apply resolve_stages_lengths in Hres as [Hr Hv]. split; [by constructor|done].
Qed.

(** ** What an execution returns *)

(** The report of a stage when the walk stopped before level [k]. *)
Definition final_row (k : nat) (status : RunStatus.t) (stage : WorkflowStage) (row : StageReport) : Prop :=
  report_of stage row
  /\ if decide (st_level stage < k) then ran row
     else sr_session row = None /\ sr_output row = EmptyString
          /\ sr_status row = match status with
                             | RunStatus.Cancelled => StageStatus.Cancelled
                             | _ => StageStatus.Skipped
                             end.

Lemma final_rows prepared k reports (status : RunStatus.t) :
  at_level prepared k reports ->
  Forall2 (final_row k status) (plan_stages (cw_plan (pr_workflow prepared)))
    (mark_pending reports (match status with RunStatus.Cancelled => StageStatus.Cancelled | _ => StageStatus.Skipped end)).
Proof.
  intros Hat. unfold mark_pending. apply Forall2_fmap_r. eapply Forall2_impl; [exact Hat|].
  intros stage row Hrow. unfold compose, row_at, final_row in *. destruct (decide (st_level stage < k)).
  - destruct Hrow as [[??] Hran]. rewrite decide_False; [done|]. by destruct Hran as [[->|[->| ->]] _].
  - subst row. simpl. by split.
Qed.

Lemma mark_failed reports status i row : status <> StageStatus.Failed ->
  mark_pending reports status !! i = Some row -> sr_status row = StageStatus.Failed -> reports !! i = Some row.
Proof.
  intros Hne Hi Hf. unfold mark_pending in Hi. rewrite list_lookup_fmap in Hi.
  destruct (reports !! i) as [row'|]; [|done]. injection Hi as <-. by case_decide.
Qed.

Lemma execute_returns prepared w :
  prepared_ok prepared ->
  wp (exec_step prepared) Total (execute prepared) (execution_post prepared (ew_log w)) w.
Proof.
  intros Hok. apply execute_post; [done|]. unfold logged. destruct (pr_durable_run prepared); [|done].
  exists []. by rewrite app_nil_r.
Qed.

(** C24: an execution returns a whole account of the plan when the actors it waits for settle.  An activation waits for
    its actor without a bound of its own; in any surroundings where, from some call on, the reads of the roster show that the actor has read
    its inbox up to the boundary, has no work in flight and is not busy, the activation returns, with a report of its stage when it
    does not fail.  Given that of every activation, and whatever else the other tasks, the agents,
    the store and the cancellation do, the execution of a prepared Workflow returns (the loop stages end by their
    caps), and its report has one row per stage in plan order, none of them pending: the stages of the
    first [k] levels ran, the others were cancelled or skipped untouched.  A completed run executed
    every level without a failure; a failed run has a failed stage, and under [FailFast] no level ran
    after the first failing one; a cancelled run saw the cancellation.  An execution only faults with an
    engine error, for a missing supervisor, in the closing route record, or, when a stage has a verifier,
    by its panic. *)
Theorem execute_exact `{L : WorkflowLib} source text catalog router governor lineage lead workflow inputs
    has_supervisor durable_run governor' prepared w :
  compile_source source text = inl workflow ->
  prepare_workflow_run catalog router governor lineage lead workflow inputs has_supervisor durable_run
    = (governor', inl prepared) ->
  (forall stage activation T h, settling (rs_handle (rv_actor activation)) T h ->
     exists fuel r w', run_task h fuel (activate_resident_stage stage activation) act_start = Some (r, w')
       /\ activation_post stage (rv_actor activation) r)
  /\ wp (exec_step prepared) Total (execute prepared) (fun r w' =>
    match r with
    | inl report => exists k, k <= length (plan_levels (cw_plan workflow))
        /\ Forall2 (final_row k (wrr_status report)) (plan_stages (cw_plan workflow)) (wrr_stages report)
        /\ (wd_on_failure (cw_definition workflow) = FailFast -> forall i stage row,
              plan_stages (cw_plan workflow) !! i = Some stage -> wrr_stages report !! i = Some row ->
              sr_status row = StageStatus.Failed -> S (st_level stage) = k)
        /\ match wrr_status report with
           | RunStatus.Completed => k = length (plan_levels (cw_plan workflow))
               /\ forall row, row ∈ wrr_stages report -> sr_status row <> StageStatus.Failed
           | RunStatus.Failed => (exists row, row ∈ wrr_stages report /\ sr_status row = StageStatus.Failed)
               /\ (k = length (plan_levels (cw_plan workflow)) \/ wd_on_failure (cw_definition workflow) = FailFast)
           | RunStatus.Cancelled => ew_cancelled w' = true
           end
    | inr fault => run_fault prepared fault
    end) w.
Proof.
  intros Hwf%compile_wf Hprep. destruct (prepare_ok _ _ _ _ _ _ _ _ _ _ _ Hwf Hprep) as (Hok & Heq & _ & _ & _).
  split; [by intros stage activation T h; apply settling_returns|].
  clear Hprep. subst workflow. eapply wp_mono; [|by apply execute_returns].
  intros [report|fault] w'; [|by intros []].
  intros (k & reports & Hk & Hat & Hclean & _ & Hst). exists k. split; [done|].
  assert (Forall2 (final_row k (wrr_status report)) (plan_stages (cw_plan (pr_workflow prepared))) (wrr_stages report)
    /\ forall i row, wrr_stages report !! i = Some row -> sr_status row = StageStatus.Failed -> reports !! i = Some row) as [Hrows Hfailed].
  { pose proof (final_rows prepared k reports (wrr_status report) Hat) as Hrows.
    destruct (wrr_status report) eqn:Es; [destruct Hst as (-> & -> & _)|destruct Hst as (_ & _ & ->)|destruct Hst as (_ & ->)].
    - rewrite mark_pending_none in Hrows; [done|]. eapply Forall_impl; [by eapply all_ran|].
      cbn beta. intros r [[->|[->| ->]] _]; done.
    - split; [done|]. intros i row. by apply mark_failed.
    - split; [done|]. intros i row. by apply mark_failed. }
  split; [done|]. split.
  - intros Hff i stage row Hs Hr Hf. pose proof (Hfailed i row Hr Hf) as Hr0.
    pose proof (Hclean Hff i stage row Hs Hr0 Hf) as Hle.
    pose proof (Forall2_lookup_lr _ _ _ _ _ _ Hat Hs Hr0) as Hrow. unfold row_at in Hrow.
    destruct (decide (st_level stage < k)); [lia|]. by rewrite Hrow in Hf.
  - destruct (wrr_status report) eqn:Es.
    + destruct Hst as (-> & -> & Hnf). split; [done|]. intros row Hr. by eapply Forall_forall in Hnf.
    + destruct Hst as (Hor & Hex & Heq). split; [|done]. apply Exists_exists in Hex as (row & Hin & Hf).
      exists row. split; [|done]. rewrite Heq. unfold mark_pending. apply list_elem_of_In, in_map_iff.
      exists row. rewrite decide_False by congruence. split; [done|]. by apply list_elem_of_In.
    + by destruct Hst.
Qed.

(** ** What the fold shows *)

Definition folded (log : list Event.t) : Projection := foldl (fun p e => apply_event e p) Projection_default log.

(** A stage as the fold shows it after the run: skipped when no session ever worked on it. *)
Definition projected_row (stage : WorkflowStage) (row : StageReport) : string * WorkflowStageStatus.t :=
  (st_id stage, match sr_session row with
                | None => WorkflowStageStatus.Skipped
                | Some _ => protocol_stage_status (sr_status row)
                end).

Lemma plan_view_pending workflow prepared :
  pr_workflow prepared = workflow ->
  (fun plan => (wsp_id plan, WorkflowStageStatus.Pending)) <$> workflow_stage_plan workflow prepared
  = plan_view prepared (fun _ => WorkflowStageStatus.Pending).
Proof.
  intros <-. unfold workflow_stage_plan, plan_view. rewrite fmap_imap. apply imap_ext. by intros.
Qed.

Lemma started_tracks prepared run identity hash owner before :
  run ∉ wp_seen_runs (workflow_of (p_session (folded before))) ->
  tracks run (plan_view prepared (fun _ => WorkflowStageStatus.Pending))
    (folded (before ++ [Event.WorkflowRunStarted (pr_lead prepared) run identity hash owner
                          (workflow_stage_plan (pr_workflow prepared) prepared)])).
Proof.
  intros Hno. unfold folded. rewrite foldl_app. cbn [foldl].
  rewrite <- (plan_view_pending (pr_workflow prepared)) by done. by apply tracks_started.
Qed.

(** The fold of a log with view [f], ended by its terminal event. *)
Lemma logged_ended prepared run f log0 w status error :
  pr_durable_run prepared = Some run ->
  tracks run (plan_view prepared (fun _ => WorkflowStageStatus.Pending)) (folded log0) ->
  logged prepared log0 f w -> WorkflowRunStatus.is_terminal status = true ->
  run_ended run status
    (if decide (status = WorkflowRunStatus.Completed) then plan_view prepared f
     else plan_view prepared (stop_status status ∘ f))
    (folded (ew_log w ++ [Event.WorkflowRunFinished (pr_lead prepared) run status error])).
Proof.
  intros Hrun Ht Hlog Hst. unfold logged in Hlog. rewrite Hrun in Hlog. destruct Hlog as (tr & -> & Hin & Hv).
  apply (tracks_events run tr) in Ht; [|done]. rewrite Hv in Ht.
  apply (tracks_finished (pr_lead prepared) run status error) in Ht; [|done].
  unfold folded in *. rewrite !foldl_app. cbn [foldl]. destruct (decide (status = WorkflowRunStatus.Completed)); [done|].
  replace (plan_view prepared (stop_status status ∘ f)) with
    ((fun x => (x.1, stop_status status x.2)) <$> plan_view prepared f); [done|].
  unfold plan_view. rewrite fmap_imap. by apply imap_ext.
Qed.

Lemma stop_ran status report : ran report ->
  stop_status status (protocol_stage_status (sr_status report)) = protocol_stage_status (sr_status report).
Proof. by intros [[->|[->| ->]] _]. Qed.

Lemma projected_rows prepared k reports status stop :
  at_level prepared k reports ->
  plan_view prepared (stop_status status ∘ status_at reports)
  = zip_with projected_row (plan_stages (cw_plan (pr_workflow prepared))) (mark_pending reports stop).
Proof.
  intros Hat. apply list_eq. intros i. unfold plan_view, mark_pending.
  rewrite list_lookup_imap, lookup_zip_with, list_lookup_fmap.
  destruct (plan_stages (cw_plan (pr_workflow prepared)) !! i) as [stage|] eqn:Hs; [|done]. simpl.
  destruct (Forall2_lookup_l _ _ _ _ _ Hat Hs) as (row & Hr & Hrow). unfold status_at. rewrite Hr. simpl.
  unfold projected_row. unfold row_at in Hrow. destruct (decide (st_level stage < k)).
  - destruct Hrow as [_ Hran]. rewrite stop_ran by done. destruct Hran as [Hst [session Hsess]].
    rewrite decide_False by (by destruct Hst as [->|[->| ->]]). by rewrite Hsess.
  - subst row. by simpl.
Qed.

Lemma completed_rows prepared reports :
  at_level prepared (length (plan_levels (cw_plan (pr_workflow prepared)))) reports -> prepared_ok prepared ->
  plan_view prepared (status_at reports)
  = zip_with projected_row (plan_stages (cw_plan (pr_workflow prepared))) reports.
Proof.
  intros Hat Hok. apply list_eq. intros i. unfold plan_view. rewrite list_lookup_imap, lookup_zip_with.
  destruct (plan_stages (cw_plan (pr_workflow prepared)) !! i) as [stage|] eqn:Hs; [|done]. simpl.
  destruct (Forall2_lookup_l _ _ _ _ _ Hat Hs) as (row & Hr & _). unfold status_at. rewrite Hr. simpl.
  pose proof (all_ran prepared Hok _ _ (le_n _) Hat) as Hall. eapply Forall_lookup_1 in Hall; [|exact Hr].
  destruct Hall as [_ [session Hsess]]. unfold projected_row. by rewrite Hsess.
Qed.

(** C25: the log of a durable run folds to the report.  A run is started by recording its plan; other tasks may
    append meanwhile whatever they like but the start of a run and stage or terminal events of this one.  Once its terminal event
    is appended the projection shows the run ended with the report's status, every stage that a session worked on with the status of its
    row, and every other stage skipped, also in a cancelled run, whose report calls it cancelled.  After a
    fault the recorded failure leaves every stage of the plan in a terminal status. *)
Theorem execution_projected `{L : WorkflowLib} source text catalog router governor lineage lead workflow inputs
    has_supervisor run governor' prepared identity hash owner before w :
  compile_source source text = inl workflow ->
  prepare_workflow_run catalog router governor lineage lead workflow inputs has_supervisor (Some run)
    = (governor', inl prepared) ->
  run ∉ wp_seen_runs (workflow_of (p_session (folded before))) ->
  ew_log w = before ++ [Event.WorkflowRunStarted lead run identity hash owner (workflow_stage_plan workflow prepared)] ->
  wp (exec_step prepared) Total (execute prepared) (fun r w' =>
    match r with
    | inl report => forall error,
        run_ended run (run_status (wrr_status report))
          (zip_with projected_row (plan_stages (cw_plan workflow)) (wrr_stages report))
          (folded (ew_log w' ++ [Event.WorkflowRunFinished lead run (run_status (wrr_status report)) error]))
    | inr _ => forall error, exists rows,
        run_ended run WorkflowRunStatus.Failed rows
          (folded (ew_log w' ++ [Event.WorkflowRunFinished lead run WorkflowRunStatus.Failed error]))
        /\ rows.*1 = st_id <$> plan_stages (cw_plan workflow)
        /\ Forall (fun row => WorkflowStageStatus.is_terminal row.2 = true) rows
    end) w.
Proof.
  intros Hwf%compile_wf Hprep Hno Hlog.
  destruct (prepare_ok _ _ _ _ _ _ _ _ _ _ _ Hwf Hprep) as (Hok & Heq & Hrun & Hlead & _). clear Hprep. subst workflow lead.
  assert (tracks run (plan_view prepared (fun _ => WorkflowStageStatus.Pending)) (folded (ew_log w))) as Ht.
  { rewrite Hlog. by apply started_tracks. }
  eapply wp_mono; [|by apply execute_returns]. intros [report|fault] w'.
  - intros (k & reports & Hk & Hat & _ & Hl & Hst) error.
    pose proof (logged_ended prepared run _ _ w' (run_status (wrr_status report)) error Hrun Ht Hl
      ltac:(by destruct (wrr_status report))) as Hend.
    destruct (wrr_status report); simpl in *.
    + destruct Hst as (-> & -> & _). by rewrite <- completed_rows.
    + destruct Hst as (_ & _ & ->). by rewrite <- (projected_rows prepared k reports WorkflowRunStatus.Failed).
    + destruct Hst as (_ & ->). by rewrite <- (projected_rows prepared k reports WorkflowRunStatus.Cancelled).
  - intros [[f Hl] _] error. eexists. split; [by eapply (logged_ended prepared run f _ w' WorkflowRunStatus.Failed error)|].
    simpl. unfold plan_view. split.
    + rewrite fmap_imap. apply list_eq. intros i. rewrite list_lookup_imap, list_lookup_fmap. by destruct (_ !! i).
    + apply Forall_lookup. intros i row Hi. rewrite list_lookup_imap in Hi.
      destruct (_ !! i); [|done]. injection Hi as <-. simpl. by destruct (f i).
Qed.

(** ** The terminal event *)

(** Between [w] and [w'] the run got its one terminal event, and the fold up to it shows the end. *)
Definition run_closed prepared run (w w' : ExecWorld) (status : WorkflowRunStatus.t) : Prop :=
  exists tr error more rows,
    ew_log w' = ew_log w ++ tr ++ Event.WorkflowRunFinished (pr_lead prepared) run status error :: more
    /\ Forall (inside_run run) tr /\ Forall (outside run) more
    /\ run_ended run status rows
         (folded (ew_log w ++ tr ++ [Event.WorkflowRunFinished (pr_lead prepared) run status error]))
    /\ rows.*1 = st_id <$> plan_stages (cw_plan (pr_workflow prepared))
    /\ Forall (fun row => WorkflowStageStatus.is_terminal row.2 = true) rows.

Lemma plan_view_ids prepared f :
  (plan_view prepared f).*1 = st_id <$> plan_stages (cw_plan (pr_workflow prepared)).
Proof.
  unfold plan_view. rewrite fmap_imap. apply list_eq. intros i. rewrite list_lookup_imap, list_lookup_fmap.
  by destruct (_ !! i).
Qed.

Lemma plan_view_terminal prepared f :
  (forall i, i < length (plan_stages (cw_plan (pr_workflow prepared))) -> WorkflowStageStatus.is_terminal (f i) = true) ->
  Forall (fun row => WorkflowStageStatus.is_terminal row.2 = true) (plan_view prepared f).
Proof.
  intros Hf. apply Forall_lookup. intros i row Hi. unfold plan_view in Hi. rewrite list_lookup_imap in Hi.
  destruct (_ !! i) eqn:Hs; [|done]. injection Hi as <-. by eapply Hf, lookup_lt_Some.
Qed.

Lemma run_closed_evolves prepared run w w1 w2 status :
  pr_durable_run prepared = Some run ->
  evolves prepared w1 w2 -> run_closed prepared run w w1 status -> run_closed prepared run w w2 status.
Proof.
  intros Hrun (later & Hlog & Hlater & _) (tr & error & more & rows & Heq & Htr & Hmore & H).
  exists tr, error, (more ++ later), rows. split.
  { rewrite Hlog, Heq. by rewrite <- !app_assoc. }
  split; [done|]. split; [|done]. apply Forall_app. split; [done|].
  eapply Forall_impl; [exact Hlater|]. intros e. unfold others. by rewrite Hrun.
Qed.

(** The record of the terminal event after an execution whose log has view [f]. *)
Lemma wp_record_finished prepared run f w0 w status error (Q : unit + CoreError -> ExecWorld -> Prop) :
  pr_durable_run prepared = Some run ->
  tracks run (plan_view prepared (fun _ => WorkflowStageStatus.Pending)) (folded (ew_log w0)) ->
  logged prepared (ew_log w0) f w -> WorkflowRunStatus.is_terminal status = true ->
  (status = WorkflowRunStatus.Completed ->
     forall i, i < length (plan_stages (cw_plan (pr_workflow prepared))) -> WorkflowStageStatus.is_terminal (f i) = true) ->
  (forall w', run_closed prepared run w0 w' status -> Q (inl tt) w') -> (forall e w', Q (inr e) w') ->
  wp (exec_step prepared) Total
    (record_workflow_event (pr_lead prepared) (Event.WorkflowRunFinished (pr_lead prepared) run status error)) Q w.
Proof.
  intros Hrun Ht Hlog Hst Hf HQ HE. unfold record_workflow_event. cbn [is_workflow_event negb orb Event.session_of].
  rewrite bool_decide_eq_true_2 by done. simpl. intros [[]|e] w' (w1 & Hevo & ->); [|apply HE].
  pose proof (logged_evolves _ _ _ _ _ Hevo Hlog) as H1. apply HQ.
  pose proof (logged_ended prepared run f _ w1 status error Hrun Ht H1 Hst) as Hend.
  unfold logged in H1. rewrite Hrun in H1. destruct H1 as (tr & Htr & Hin & _).
  eexists tr, error, [], _. split; [simpl; by rewrite Htr, <- app_assoc|]. split; [done|]. split; [done|].
  rewrite Htr, <- app_assoc in Hend. split; [exact Hend|].
  destruct (decide (status = WorkflowRunStatus.Completed)) as [Hc|Hc]; (split; [apply plan_view_ids|]);
    apply plan_view_terminal; [by apply Hf|]. intros i _. unfold compose, stop_status.
  destruct (f i); simpl; try done. by case_decide.
Qed.

Lemma completed_terminal prepared reports i :
  prepared_ok prepared -> at_level prepared (length (plan_levels (cw_plan (pr_workflow prepared)))) reports ->
  i < length (plan_stages (cw_plan (pr_workflow prepared))) ->
  WorkflowStageStatus.is_terminal (status_at reports i) = true.
Proof.
  intros Hok Hat [stage Hs]%lookup_lt_is_Some_2. destruct (Forall2_lookup_l _ _ _ _ _ Hat Hs) as (row & Hr & _).
  pose proof (all_ran prepared Hok _ _ (le_n _) Hat) as Hall. eapply Forall_lookup_1 in Hall; [|exact Hr].
  unfold status_at. rewrite Hr. simpl. by apply ran_terminal.
Qed.

(** an admitted run is always closed.  Finishing a prepared durable run returns, and unless the store
    refuses the terminal event (a core error) or a verifier panics, exactly one terminal event of the run
    is in the log, after which the projection shows the run ended with every stage of its plan in a
    terminal status: with a result, the run has the returned identity and is not a replay; after any
    other error it is recorded as failed. *)
Theorem finished_run_closed `{L : WorkflowLib} source text catalog router governor lineage lead workflow inputs
    has_supervisor run governor' prepared identity hash owner before w state_inner :
  compile_source source text = inl workflow ->
  prepare_workflow_run catalog router governor lineage lead workflow inputs has_supervisor (Some run)
    = (governor', inl prepared) ->
  run ∉ wp_seen_runs (workflow_of (p_session (folded before))) ->
  ew_log w = before ++ [Event.WorkflowRunStarted lead run identity hash owner (workflow_stage_plan workflow prepared)] ->
  (forall w, wp (exec_step prepared) Total state_inner (fun _ w' => evolves prepared w w') w) ->
  wp (exec_step prepared) Total (finish_prepared_run state_inner lead run prepared) (fun r w' =>
    match r with
    | inl result => wr_id (rr_run result) = run /\ rr_replayed result = false
        /\ exists status, run_closed prepared run w w' status
    | inr Panicked => exists stage, stage ∈ plan_stages (cw_plan workflow) /\ is_Some (st_verify stage)
    | inr (Raised (WcCore _)) => True
    | inr (Raised _) => exists status, run_closed prepared run w w' status
    end) w.
Proof.
  intros Hwf%compile_wf Hprep Hno Hlog Hstate.
  destruct (prepare_ok _ _ _ _ _ _ _ _ _ _ _ Hwf Hprep) as (Hok & Heq & Hrun & Hlead & _). clear Hprep. subst workflow lead.
  assert (tracks run (plan_view prepared (fun _ => WorkflowStageStatus.Pending)) (folded (ew_log w))) as Ht.
  { rewrite Hlog. by apply started_tracks. }
  unfold finish_prepared_run. apply wp_bind. eapply wp_mono; [|by apply execute_returns].
  intros [report|[error|]] w1.
  - intros (k & reports & Hk & Hat & _ & Hl & Hst). apply wp_try, wp_map_error.
    apply (wp_record_finished prepared run (status_at reports) w); [done..| | | |done].
    + by destruct (wrr_status report).
    + intros Hc. destruct (wrr_status report); try done. destruct Hst as (-> & _).
      intros i. by apply completed_terminal.
    + intros w2 Hclosed. apply wp_try, wp_map_error. eapply wp_mono; [|apply Hstate].
      intros [state|e] w3 Hev; pose proof (run_closed_evolves _ _ _ _ _ _ Hrun Hev Hclosed) as H3.
      * unfold current_run. destruct (wp_run state) as [current|]; [|by eexists].
        destruct (decide (wr_id current = run)); [|by eexists]. split; [done|]. split; [done|]. by eexists.
      * destruct e; by try eexists.
  - intros [[f Hl] Hf]. apply wp_try, wp_map_error.
    apply (wp_record_finished prepared run f w); [done..| |done].
    intros w2 Hclosed. simpl. destruct error; by try eexists.
  - intros [_ [(stage & Hs & Hv)|(_ & _ & e & ?)]]; [|done]. by exists stage.
Qed.
End spec.

(** ** The concrete run *)

Import RunDemo.

Lemma execute_exact_witness :
  compile_source (L := WorkflowDemo.lib) "ship.md" WorkflowDemo.text = inl WorkflowDemo.workflow
  /\ prepare = (None, inl prepared)
  /\ exists report w', outcome = Some (inl report, w')
     /\ exists k, Forall2 (final_row k (wrr_status report)) (plan_stages (cw_plan WorkflowDemo.workflow)) (wrr_stages report).
Proof.
  split; [exact demo_compiled|]. split; [exact prepares|].
  destruct outcome_returns as (report & w' & Hout). exists report, w'. split; [exact Hout|].
  pose proof (execute_exact (L := WorkflowDemo.lib) "ship.md" WorkflowDemo.text catalog [provider] None (inr CoreCancelled) lead
       WorkflowDemo.workflow WorkflowDemo.inputs true (Some run) None prepared world demo_compiled prepares) as [_ Hwp].
  apply wp_partial in Hwp. unfold outcome in Hout.
  pose proof (wp_adequate _ environment environment_possible 5 _ _ _ _ _ Hwp Hout) as Hpost.
  destruct Hpost as (k & _ & Hrows & _). exists k. exact Hrows.
Defined.

Lemma execution_projected_witness :
  compile_source (L := WorkflowDemo.lib) "ship.md" WorkflowDemo.text = inl WorkflowDemo.workflow
  /\ prepare = (None, inl prepared)
  /\ exists report w', outcome = Some (inl report, w')
     /\ run_ended run (run_status (wrr_status report))
          (zip_with projected_row (plan_stages (cw_plan WorkflowDemo.workflow)) (wrr_stages report))
          (folded (ew_log w' ++ [Event.WorkflowRunFinished lead run (run_status (wrr_status report)) None])).
Proof.
  split; [exact demo_compiled|]. split; [exact prepares|].
  destruct outcome_returns as (report & w' & Hout). exists report, w'. split; [exact Hout|].
  pose proof (execution_projected (L := WorkflowDemo.lib) "ship.md" WorkflowDemo.text catalog [provider] None (inr CoreCancelled) lead
       WorkflowDemo.workflow WorkflowDemo.inputs true run None prepared identity "hash" owner [] world
       demo_compiled prepares (not_elem_of_empty _) eq_refl) as Hwp.
  apply wp_partial in Hwp. unfold outcome in Hout.
  pose proof (wp_adequate _ environment environment_possible 5 _ _ _ _ _ Hwp Hout) as Hpost.
  exact (Hpost None).
Defined.

Lemma finished_run_closed_witness :
  compile_source (L := WorkflowDemo.lib) "ship.md" WorkflowDemo.text = inl WorkflowDemo.workflow
  /\ prepare = (None, inl prepared)
  /\ exists w', finish_outcome = Some (inr (Raised WcRuntimeUnavailable), w')
     /\ exists status, run_closed prepared run world w' status.
Proof.
  split; [exact demo_compiled|]. split; [exact prepares|].
  destruct finish_returns as (w' & Hout). exists w'. split; [exact Hout|].
  assert (forall w, wp (exec_step prepared) Total unreadable (fun _ w' => evolves prepared w w') w) as Hstate.
  { intros w. exists []. rewrite app_nil_r. split; [reflexivity|]. split; [constructor|]. intros Hc. exact Hc. }
  pose proof (finished_run_closed (L := WorkflowDemo.lib) "ship.md" WorkflowDemo.text catalog [provider] None (inr CoreCancelled) lead
       WorkflowDemo.workflow WorkflowDemo.inputs true run None prepared identity "hash" owner [] world unreadable
       demo_compiled prepares (not_elem_of_empty _) eq_refl Hstate) as Hwp.
  apply wp_partial in Hwp. unfold finish_outcome in Hout.
  exact (wp_adequate _ environment environment_possible 5 _ _ _ _ _ Hwp Hout).
Defined.
