(* ===== verification/RoutingSpec.v ===== *)
(** * What model failover guarantees

    The trace of a turn is its provider calls and hook calls with their answers, any of which is
    possible.  A stream is opened at most once and never replayed; a Workflow route walks forward from
    its selected candidate and records each outcome once. *)

From S2P Require Import Prelude Result RustStr Text Platform Ids Scope Wire Workflow Usage Events Effects Iteration Routing.

Section spec.
Context `{U : UuidLib} `{J : JsonLib} {Tool Body Stream : Type}.
Local Abbreviation CompletionRequest := (CompletionRequest (Tool := Tool) (Body := Body)).
Local Abbreviation RouteEff := (RouteEff (Tool := Tool) (Body := Body) (Stream := Stream)).
Implicit Types (router : Router) (req : CompletionRequest).

Inductive RouteCall :=
  | Streamed (provider : nat) (req : CompletionRequest) (r : Stream + ProviderError)
  | Hooked (input : ModelFallbackInput) (outcome : ModelFallbackOutcome).

Definition route_step A (e : RouteEff A) (tr : list RouteCall) : A -> list RouteCall -> Prop :=
  match e in Routing.RouteEff A return A -> list RouteCall -> Prop with
  | ProviderStream provider req => fun r tr' => tr' = tr ++ [Streamed provider req r]
  | RequestRootSession _ => fun _ tr' => tr' = tr
  | HookFallback _ input => fun outcome tr' => tr' = tr ++ [Hooked input outcome]
  end.

(** The call opened no stream. *)
Definition failed_call (c : RouteCall) : Prop :=
  match c with Streamed _ _ (inl _) => False | _ => True end.

Definition is_stream (c : RouteCall) : bool := match c with Streamed _ _ _ => true | _ => false end.
Definition streams (tr : list RouteCall) : nat := length (filter (fun c => is_stream c = true) tr).

(** The calls [more] ended with the answer [r] of a request for [model]. *)
Definition answered (model : ModelRef) (r : Stream + ProviderError) (more : list RouteCall) : Prop :=
  match r with
  | inl stream => exists pre provider req, more = pre ++ [Streamed provider req (inl stream)]
      /\ cr_model req = model /\ Forall failed_call pre
  | inr _ => Forall failed_call more
  end.

Lemma answered_app model r more pre :
  Forall failed_call pre -> answered model r more -> answered model r (pre ++ more).
Proof.
  intros Hpre. destruct r as [stream|e]; simpl; [|by intros; apply Forall_app].
  intros (pre' & p & q & -> & Hq & Hall). exists (pre ++ pre'), p, q.
  split; [by rewrite <- app_assoc|]. split; [done|]. by apply Forall_app.
Qed.

Lemma streams_app tr1 tr2 : streams (tr1 ++ tr2) = streams tr1 + streams tr2.
Proof. unfold streams. by rewrite filter_app, length_app. Qed.

(** ** The router *)

(** What a failover over [n] providers adds to the trace. *)
Definition routed (model : ModelRef) (n : nat) (tr : list RouteCall) (r : Stream + ProviderError)
    (tr' : list RouteCall) : Prop :=
  exists more, tr' = tr ++ more /\ streams more <= n /\ answered model r more.

Lemma stream_from_post index providers last req tr :
  wp route_step Total (stream_from index providers last req)
    (routed (cr_model req) (length providers) tr) tr.
Proof.
  revert index last tr. induction providers as [|provider rest IH]; intros index last tr; cbn [stream_from].
  { exists []. rewrite app_nil_r. split; [done|]. split; [unfold streams; simpl; lia|]. constructor. }
  assert (forall index last pre, Forall failed_call pre -> streams pre <= 1 ->
    wp route_step Total (stream_from index rest last req)
      (routed (cr_model req) (length (provider :: rest)) tr) (tr ++ pre)) as Hrest.
  { intros index' last' pre Hpre Hlen. eapply wp_mono; [|apply IH].
    intros r tr' (more & -> & Hs & Ha). exists (pre ++ more). split; [by rewrite app_assoc|].
    split; [rewrite streams_app; simpl; lia|by apply answered_app]. }
  destruct (pv_capabilities provider (cr_model req)) as [caps|].
  2: { specialize (Hrest (S index) last []). rewrite app_nil_r in Hrest. apply Hrest; [done|]. unfold streams. simpl. lia. }
  destruct (preflight caps req); [|exists []; rewrite app_nil_r; split; [done|]; split; [unfold streams; simpl; lia|constructor]].
  apply wp_do. intros [stream|e] tr' ->.
  - exists [Streamed index (if reasoning_request caps then req
      else mkCompletionRequest (cr_model req) (cr_tools req) None (cr_body req)) (inl stream)].
    split; [done|]. split; [unfold streams; simpl; lia|]. eexists [], index, _. split; [done|].
    split; [by destruct (reasoning_request caps)|done].
  - destruct (is_retryable_before_stream e); [apply Hrest; [by repeat constructor|unfold streams; simpl; lia]|].
    eexists. split; [done|]. split; [unfold streams; simpl; lia|]. by repeat constructor.
Qed.

Lemma router_stream_post router req tr :
  wp route_step Total (router_stream router req) (routed (cr_model req) (length router) tr) tr.
Proof. apply stream_from_post. Qed.

(** ** The configured chain and the hooks *)

Definition opened_or_failed (r : Stream * ModelRef + ProviderError) (tr : list RouteCall) : Prop :=
  match r with
  | inl (stream, model) => answered model (inl stream) tr
  | inr _ => Forall failed_call tr
  end.

Lemma candidate_post router req model tr :
  wp route_step Total (stream_model_candidate router req model) (routed model (length router) tr) tr.
Proof. apply router_stream_post. Qed.

Definition chain_post router (tried chain : list ModelRef) (tr : list RouteCall)
    (r : Stream * ModelRef + list ModelRef * option (ModelRef * ProviderError)) (tr' : list RouteCall) : Prop :=
  exists more, tr' = tr ++ more /\ streams more <= length router * length chain
  /\ match r with
     | inl (stream, model) => answered model (inl stream) more
     | inr (tried', last) => Forall failed_call more /\ (chain <> [] -> is_Some last)
         /\ length tried <= length tried' <= length tried + length chain
         /\ streams more <= length router * (length tried' - length tried)
     end.

Lemma walk_chain_post router req tried chain tr :
  wp route_step Total (walk_chain router req tried chain) (chain_post router tried chain tr) tr.
Proof.
  revert tried tr. induction chain as [|model rest IH]; intros tried tr; cbn [walk_chain].
  { exists []. rewrite app_nil_r. split; [done|]. split; [unfold streams; simpl; lia|].
    split; [constructor|]. split; [done|]. unfold streams. simpl. lia. }
  apply wp_bind. eapply wp_mono; [|apply candidate_post]. intros [stream|e] tr1 (more & -> & Hs & Ha).
  { exists more. split; [done|]. split; [simpl; lia|done]. }
  destruct (bool_decide (rest <> []) && _) eqn:E.
  - eapply wp_mono; [|apply IH]. intros r tr2 (more2 & -> & Hs2 & H2). exists (more ++ more2).
    split; [by rewrite app_assoc|]. rewrite streams_app. split; [simpl; lia|].
    destruct r as [[stream m]|[tried' last]]; [by apply answered_app|].
    destruct H2 as (Hf & Hsome & Hlen & Hst). rewrite length_app in Hlen, Hst. simpl in *.
    split; [by apply Forall_app|]. split.
    { intros _. apply Hsome. apply andb_true_iff in E as [E _]. by apply bool_decide_eq_true in E. }
    split; [lia|].
    replace (length tried' - length tried) with (S (length tried' - (length tried + 1))) by lia. lia.
  - exists more. rewrite length_app. simpl. split; [done|]. split; [lia|].
    split; [done|]. split; [by eexists|]. split; [lia|]. replace (length tried + 1 - length tried) with 1 by lia. lia.
Qed.

Lemma dispatch_post count dispatcher input (tr : list RouteCall) (Q : ModelFallbackOutcome -> list RouteCall -> Prop) :
  (forall outcome more, Forall failed_call more -> streams more = 0 -> Q outcome (tr ++ more)) ->
  wp route_step Total (dispatch_fallback dispatcher count input) Q tr.
Proof.
  revert dispatcher tr. induction count as [|count IH]; intros dispatcher tr HQ; cbn [dispatch_fallback].
  { specialize (HQ GiveUp []). rewrite app_nil_r in HQ. by apply HQ. }
  apply wp_do. intros [model|] tr' ->; [by apply HQ; repeat constructor|].
  apply IH. intros outcome more Hf Hs. rewrite <- app_assoc. apply HQ; [by constructor|done].
Qed.

(** The rounds of the hook: no stream so far, and the calls are those of the models tried. *)
Definition hook_inv router (st : HookRound) (tr : list RouteCall) : Prop :=
  Forall failed_call tr /\ streams tr <= length router * length (hr_tried st).

Lemma hook_round_post router req session message agent hooks st tr :
  hook_inv router st tr ->
  wp route_step Total (hook_round router req session message agent hooks st) (fun r tr' => match r with
    | inl st' => hook_inv router st' tr' /\ length (hr_tried st') = S (length (hr_tried st))
        /\ length (hr_tried st) < MODEL_FALLBACK_MAX_ATTEMPTS
    | inr r => opened_or_failed r tr'
        /\ streams tr' <= length router * Nat.max (length (hr_tried st)) MODEL_FALLBACK_MAX_ATTEMPTS
    end) tr.
Proof.
  intros [Hf Hs]. unfold hook_round. case_decide as Hlt; [|split; [done|nia]].
  apply wp_bind. apply (wp_mono _ _ _ (fun _ tr' => tr' = tr)).
  2: { unfold request_root_session. destruct (hr_root st); [done|]. apply wp_do. by intros root tr' ->. }
  intros [root cache] tr' ->. apply wp_bind, dispatch_post. intros outcome more Hmore Hms.
  assert (Forall failed_call (tr ++ more)) as Hall by by apply Forall_app.
  assert (streams (tr ++ more) <= length router * length (hr_tried st)) as Hle by (rewrite streams_app; lia).
  destruct outcome as [model|]; [|split; [done|nia]]. case_decide; [split; [done|nia]|].
  apply wp_bind. eapply wp_mono; [|apply candidate_post]. intros [stream|e] tr2 (more2 & -> & Hs2 & Ha).
  - split; [by apply answered_app|]. rewrite streams_app. nia.
  - split; [|split; [simpl; rewrite length_app; simpl; lia|done]].
    split; [by apply Forall_app|]. rewrite streams_app. simpl. rewrite length_app. simpl. lia.
Qed.

(** C30: a turn opens at most one stream and never replays.  Whatever the providers and the hooks answer,
    the failover returns, after at most [max(chain, 8)] model attempts of one call per provider; if it
    returns a stream, that stream was opened by the very last call, for the model it names, and every
    call before it failed; if it returns an error, no call opened a stream. *)
Theorem model_fallback_exact router fallbacks req session message agent cache hooks :
  wp route_step Total (stream_with_model_fallback router fallbacks req session message agent cache hooks)
    (fun r tr =>
       streams tr <= length router
         * Nat.max (length (default [cr_model req] (fallbacks !! cr_model req))) MODEL_FALLBACK_MAX_ATTEMPTS
       /\ match r with
          | inl (stream, model) => exists pre provider q, tr = pre ++ [Streamed provider q (inl stream)]
              /\ cr_model q = model /\ Forall failed_call pre
          | inr _ => Forall failed_call tr
          end) [].
Proof.
  unfold stream_with_model_fallback. set (chain := default _ _). apply wp_bind.
  eapply wp_mono; [|apply walk_chain_post]. intros [[stream model]|[tried last]] tr (more & -> & Hs & H); simpl in *.
  { split; [nia|done]. }
  destruct H as (Hf & _ & Hlen & Hst). destruct last as [[failed e]|]; [|by split; [nia|]].
  destruct hooks as [hooks|]; [|by split; [nia|]].
  apply (wp_iter_measure _ _ _ _ (fun st tr => hook_inv router st tr
      /\ length (hr_tried st) <= Nat.max (length chain) MODEL_FALLBACK_MAX_ATTEMPTS)
    (fun st => MODEL_FALLBACK_MAX_ATTEMPTS - length (hr_tried st))).
  { split; [split; [done|simpl; nia]|]. simpl. lia. }
  clear tried failed e more Hs Hf Hlen Hst. intros st tr [Hinv Hle].
  eapply wp_mono; [|by apply hook_round_post]. intros [st'|[[stream model]|e]] tr'.
  - intros (Hinv' & Hl & Hlt). split; [split; [done|lia]|lia].
  - intros [Ho Hs]. simpl. split; [nia|done].
  - intros [Ho Hs]. simpl. split; [nia|done].
Qed.

(** ** Workflow routes *)

(** The failures that move on to the next declared candidate. *)
Definition advances (e : ProviderError) : bool := is_retryable_before_stream e || is_unknown_model e.

(** Why the walk left the candidate before [index], when it did not start there. *)
Definition pending_of (first index : nat) (pending : option WorkflowRouteFailureClass.t) : Prop :=
  if decide (index = first) then pending = None
  else exists e, advances e = true /\ pending = Some (workflow_provider_failure_class e).

Definition walked (route : WorkflowModelRoute) (first : nat) (step : N)
    (r : WorkflowRouteAttempt * (Stream * ModelRef + ProviderError)) (tr : list RouteCall) : Prop :=
  at_step r.1 = step /\ match r.2 with
  | inl (stream, model) => exists index candidate, first <= index
      /\ candidates route !! index = Some candidate /\ model = rc_model candidate
      /\ answered model (inl stream) tr
      /\ at_candidate_index r.1 = Some index /\ pending_of first index (at_pending_failure r.1)
  | inr e => Forall failed_call tr
      /\ (first < length (candidates route) -> exists index, first <= index < length (candidates route)
          /\ (advances e = true -> S index = length (candidates route))
          /\ at_candidate_index r.1 = Some index
          /\ at_pending_failure r.1 = Some (workflow_provider_failure_class e))
  end.

Lemma walk_route_post router req route first index rest pending a tr :
  first <= index -> rest = drop index (candidates route) -> pending_of first index pending ->
  (first < index -> rest <> []) -> Forall failed_call tr ->
  wp route_step Total (walk_route router req index rest pending a) (walked route first (at_step a)) tr.
Proof.
  intros Hle. revert index pending a tr Hle. induction rest as [|candidate rest IH]; intros index pending a tr Hle Heq Hp Hne Hf;
    cbn [walk_route].
  { simpl. split; [done|]. simpl. split; [done|]. intros Hlt. exfalso. symmetry in Heq.
    pose proof (length_drop (candidates route) index) as Hl. rewrite Heq in Hl. simpl in Hl.
    destruct (decide (first < index)); [by apply Hne|]. lia. }
  assert (candidates route !! index = Some candidate) as Hc.
  { pose proof (lookup_drop (candidates route) index 0) as H. rewrite <- Heq, Nat.add_0_r in H. by simpl in H. }
  apply wp_bind. eapply wp_mono; [|apply router_stream_post]. intros [stream|e] tr' (more & -> & _ & Ha); simpl in Ha.
  { split; [done|]. exists index, candidate. split; [done|]. split; [done|]. split; [done|].
    split; [by apply (answered_app (rc_model candidate) (inl stream))|done]. }
  assert (Forall failed_call (tr ++ more)) as Hall by by apply Forall_app.
  assert (rest = drop (S index) (candidates route)) as Hrest.
  { rewrite <- Nat.add_1_r, <- drop_drop, <- Heq. done. }
  cbn zeta. fold (advances e). destruct (advances e && bool_decide (rest <> [])) eqn:E; cbn [negb].
  - apply andb_true_iff in E as [Hadv Hr%bool_decide_eq_true].
    apply (IH (S index) (Some (workflow_provider_failure_class e))
      (record_failure index (workflow_provider_failure_class e) (begin_attempt index a))); [lia|done| |done|done].
    unfold pending_of. rewrite decide_False by lia. by exists e.
  - split; [done|]. simpl. split; [done|]. intros _. exists index. apply lookup_lt_Some in Hc as Hlt.
    split; [lia|]. split; [|done]. intros Hadv. rewrite Hadv in E. simpl in E. apply bool_decide_eq_false in E.
    apply dec_stable in E. pose proof (length_drop (candidates route) (S index)) as Hl.
    rewrite <- Hrest, E in Hl. simpl in Hl. lia.
Qed.

(** a Workflow stage's request walks its declared route forward.  From the candidate selected at
    admission on, candidates are tried in declaration order and left only for a retryable or unknown-model
    failure before any stream; a returned stream was opened by the last call, for the candidate that the
    attempt then names, and an error comes from the last candidate tried, which the attempt names with
    the error's class.  The step of the attempt does not move. *)
Theorem workflow_route_exact router req route a :
  wp route_step Total (stream_with_workflow_route router req route a) (fun r tr =>
    at_step r.1 = at_step a /\ match r.2 with
    | inl (stream, model) => exists index candidate pre provider q,
        selected_index route <= index /\ candidates route !! index = Some candidate
        /\ model = rc_model candidate /\ cr_model q = model
        /\ tr = pre ++ [Streamed provider q (inl stream)] /\ Forall failed_call pre
        /\ at_candidate_index r.1 = Some index
        /\ pending_of (selected_index route) index (at_pending_failure r.1)
    | inr e => Forall failed_call tr
        /\ (selected_index route < length (candidates route) -> exists index,
              selected_index route <= index < length (candidates route)
              /\ (advances e = true -> S index = length (candidates route))
              /\ at_candidate_index r.1 = Some index
              /\ at_pending_failure r.1 = Some (workflow_provider_failure_class e))
    end) [].
Proof.
  unfold stream_with_workflow_route. eapply wp_mono; [|apply (walk_route_post router req route (selected_index route));
    [done|done|unfold pending_of; by rewrite decide_True|lia|done]].
  intros [a' [[stream model]|e]] tr [Hstep H]; split; [done| |done|done].
  destruct H as (index & candidate & ? & ? & ? & (pre & p & q & ? & ? & ?) & ? & ?).
  exists index, candidate, pre, p, q. by repeat split.
Qed.
End spec.

(** ** Route outcomes *)

Section outcomes.
Context `{U : UuidLib} `{J : JsonLib} (route : WorkflowTurnRoute).

(** The operations of a route on its shared attempt, in any order (a turn may be dropped between any
    two), and the events handed to the recorder. *)
Inductive turn_step : WorkflowRouteAttempt * list Event.t -> WorkflowRouteAttempt * list Event.t -> Prop :=
  | turn_begin a evs index : index < length (candidates (tr_route route)) ->
      turn_step (a, evs) (begin_attempt index a, evs)
  | turn_failure a evs index failure : index < length (candidates (tr_route route)) ->
      turn_step (a, evs) (record_failure index failure a, evs)
  | turn_selected a evs index pending : index < length (candidates (tr_route route)) ->
      turn_step (a, evs) (attempt_selected index pending a, evs)
  | turn_finalize a evs failure a' e : finalize route failure a = (a', inl e) ->
      turn_step (a, evs) (a', evs ++ match e with Some e => [e] | None => [] end)
  | turn_finalize_error a evs failure a' error : finalize route failure a = (a', inr error) ->
      turn_step (a, evs) (a', evs).

(** The [step]th outcome of this route. *)
Definition outcome_of (step : N) (e : Event.t) : Prop :=
  exists run candidate_index candidate class, tr_run route = Some run
    /\ candidates (tr_route route) !! candidate_index = Some candidate
    /\ e = Event.WorkflowStageRouteOutcome (tr_session route) run (tr_stage route) (tr_member route) (tr_role route)
          (tr_iteration route) step (N.min (N.of_nat candidate_index) (umax 32)) (rc_model candidate)
          (effort_as_str (rc_reasoning candidate)) class.

Definition saturated (n : nat) : N := N.min (N.of_nat n) (umax 32).

Definition records : bool := bool_decide (is_Some (tr_run route)) && tr_recorder route.

Definition outcomes_inv (s : WorkflowRouteAttempt * list Event.t) : Prop :=
  (forall index, at_candidate_index s.1 = Some index -> index < length (candidates (tr_route route)))
  /\ (if records then at_step s.1 = saturated (length s.2) else s.2 = [])
  /\ forall i e, s.2 !! i = Some e -> outcome_of (saturated i) e.

Lemma saturated_S n : sat_add 32 (saturated n) 1 = saturated (S n).
Proof. unfold sat_add, saturated, umax. lia. Qed.

Lemma finalize_cases failure a : (forall index, at_candidate_index a = Some index -> index < length (candidates (tr_route route))) ->
  match finalize route failure a with
  | (a', inl None) => at_candidate_index a' = None
      /\ (records = true -> a' = a)
  | (a', inl (Some e)) => at_candidate_index a' = None /\ records = true
      /\ at_step a' = sat_add 32 (at_step a) 1 /\ outcome_of (at_step a) e
  | (_, inr _) => False
  end.
Proof.
  intros Hin. unfold finalize, records. destruct (at_candidate_index a) as [index|] eqn:Ei; [|done].
  destruct (lookup_lt_is_Some_2 _ _ (Hin index eq_refl)) as [candidate Hc]. rewrite Hc.
  destruct (tr_run route) as [run|] eqn:Er; [|done]. destruct (tr_recorder route); [|done].
  repeat (split; [done|]). by exists run, index, candidate, (default WorkflowRouteFailureClass.NoFailure
    (match failure with Some _ => failure | None => at_pending_failure a end)).
Qed.

Lemma outcomes_step s s' : turn_step s s' -> outcomes_inv s -> outcomes_inv s'.
Proof.
  destruct 1 as [a evs index Hi|a evs index failure Hi|a evs index pending Hi|a evs failure a' e Hf|a evs failure a' error Hf];
    intros (Hin & Hstep & Hevs); simpl in *.
  - split; [|done]. by intros ? [= <-].
  - split; [|done]. by intros ? [= <-].
  - split; [|done]. by intros ? [= <-].
  - pose proof (finalize_cases failure a Hin) as Hc. rewrite Hf in Hc. destruct e as [e|].
    + destruct Hc as (Hn & Hr & Hs & Ho). rewrite Hr in Hstep. split; [intros index; simpl; rewrite Hn; done|]. simpl. rewrite Hr. split.
      * rewrite Hs, Hstep, length_app, Nat.add_1_r. apply saturated_S.
      * intros i e' [Hl|[Hge Hl]]%lookup_app_Some; [by apply Hevs|].
        apply list_lookup_singleton_Some in Hl as [Hz <-]. assert (i = length evs) as -> by lia. by rewrite <- Hstep.
    + destruct Hc as (Hn & Ha). rewrite app_nil_r. split; [intros index; simpl; rewrite Hn; done|]. split; [|done]. simpl.
      destruct records; [by rewrite Ha|done].
  - pose proof (finalize_cases failure a Hin) as Hc. by rewrite Hf in Hc.
Qed.

(** every stream group of a Workflow stage has one outcome.  Whatever the order in which a turn and its
    clones begin, fail, select and finalize attempts, the recorded outcomes carry the consecutive steps
    0, 1, 2, ... (up to the 32-bit counter), each names a declared candidate with its model and effort,
    finalizing never fails, and finalizing again without a new attempt records nothing. *)
Theorem route_outcomes_once s :
  rtc turn_step (WorkflowRouteAttempt_default, []) s ->
  (forall i e, s.2 !! i = Some e -> outcome_of (saturated i) e)
  /\ forall failure, exists a' e, finalize route failure s.1 = (a', inl e)
     /\ forall failure', finalize route failure' a' = (a', inl None).
Proof.
  intros Hsteps. assert (outcomes_inv s) as (Hin & _ & Hevs).
  { remember (WorkflowRouteAttempt_default, []) as s0 eqn:Hs0. assert (outcomes_inv s0) as H0.
    { subst. split; [done|]. split; [by destruct records|done]. }
    clear Hs0. induction Hsteps as [|s1 s2 s3 Hstep _ IH]; [done|]. by apply IH, (outcomes_step s1). }
  split; [done|]. intros failure. pose proof (finalize_cases failure s.1 Hin) as Hc.
  destruct (finalize route failure s.1) as [a' [[e|]|]]; [| |done].
  - destruct Hc as (Hn & _). exists a', (Some e). split; [done|]. intros failure'. unfold finalize. by rewrite Hn.
  - destruct Hc as (Hn & _). exists a', None. split; [done|]. intros failure'. unfold finalize. by rewrite Hn.
Qed.
End outcomes.

Module RouteDemo.
Definition route : WorkflowTurnRoute (U := Demo.uuid_lib) :=
  mkWorkflowTurnRoute (mkWorkflowModelRoute [mkRouteCandidate (StrNewtype "glm") High] 0)
    (Hysec "00000000000000000000") (Some (from_uuid (Demo.Uuid128 9 eq_refl))) "plan"
    (from_uuid (Demo.Uuid128 7 eq_refl)) WorkflowMemberRole.Worker 0 true.
End RouteDemo.

Lemma route_outcomes_once_witness :
  rtc (turn_step RouteDemo.route) (WorkflowRouteAttempt_default, []) (begin_attempt 0 WorkflowRouteAttempt_default, [])
  /\ forall failure, exists a' e,
     finalize RouteDemo.route failure (begin_attempt 0 WorkflowRouteAttempt_default) = (a', inl e)
     /\ forall failure', finalize RouteDemo.route failure' a' = (a', inl None).
Proof.
  assert (H : rtc (turn_step RouteDemo.route) (WorkflowRouteAttempt_default, [])
    (begin_attempt 0 WorkflowRouteAttempt_default, [])).
  { apply rtc_once. apply turn_begin. simpl. lia. }
  split; [exact H|]. exact (proj2 (route_outcomes_once RouteDemo.route _ H)).
Defined.
