(* ===== verification/StoreDb.v ===== *)
(** * The database of the session store ([hya-store/src/{lib,error,materialize}.rs], [migrations/])

    The tables of the SQLite file as finite maps and lists, a writer transaction as a program over
    them that keeps everything or nothing ([Tx]), and the one way events enter the log: an insert
    that SQLite numbers, with the side tables materialized in the same transaction. *)

From S2P Require Import Prelude RustStr Platform Ids Scope Wire Workflow Usage Events Team Projection Snapshot Result Text.

(** ** UTF-8 ([std::str::from_utf8]) *)

(** The well-formed byte sequences of the Unicode standard, table 3-7. *)
Fixpoint utf8_valid (s : string) : bool :=
  match s with
  | EmptyString => true
  | String a s1 =>
      if in_range 0 127 a then utf8_valid s1
      else match s1 with
      | EmptyString => false
      | String b s2 =>
          if in_range 194 223 a then is_continuation b && utf8_valid s2
          else match s2 with
          | EmptyString => false
          | String c s3 =>
              if (in_range 224 224 a && in_range 160 191 b)
                 || (in_range 225 236 a && is_continuation b)
                 || (in_range 237 237 a && in_range 128 159 b)
                 || (in_range 238 239 a && is_continuation b)
              then is_continuation c && utf8_valid s3
              else match s3 with
              | EmptyString => false
              | String d s4 =>
                  ((in_range 240 240 a && in_range 144 191 b)
                   || (in_range 241 243 a && is_continuation b)
                   || (in_range 244 244 a && in_range 128 143 b))
                  && is_continuation c && is_continuation d && utf8_valid s4
              end
          end
      end
  end.

(** ** Lifecycles *)

Module ClaimState.
Inductive t := Active | Released.
#[global] Instance eq_dec : EqDecision t.
Proof. solve_decision. Defined.
End ClaimState.

Module AdmissionState.
Inductive t := Queued | Accepted | Started | Waiting | Completed | Cancelled | Aborted.
#[global] Instance eq_dec : EqDecision t.
Proof. solve_decision. Defined.
Definition as_str (s : t) : string :=
  match s with
  | Queued => "queued" | Accepted => "accepted" | Started => "started" | Waiting => "waiting"
  | Completed => "completed" | Cancelled => "cancelled" | Aborted => "aborted"
  end.
Definition parse (value : string) : option t :=
  if decide (value = "queued") then Some Queued
  else if decide (value = "accepted") then Some Accepted
  else if decide (value = "started") then Some Started
  else if decide (value = "waiting") then Some Waiting
  else if decide (value = "completed") then Some Completed
  else if decide (value = "cancelled") then Some Cancelled
  else if decide (value = "aborted") then Some Aborted
  else None.
Definition is_terminal (s : t) : bool :=
  match s with Completed | Cancelled | Aborted => true | _ => false end.
End AdmissionState.

(** ** What the store calls of other crates *)

Class StoreLib {U : UuidLib} {J : JsonLib} := {
  (** [serde_json::to_string(event)] and [serde_json::from_str] *)
  event_to_string : Event.t -> option string;
  event_from_str : string -> option Event.t;
  (** [serde_json::to_string] of a mail body *)
  json_string : string -> string;
  (** [Uuid]'s serde form, and [Uuid::to_string]: hyphenated *)
  uuid_hyphenated : Uuid -> string;
  (** [Uuid::from_slice] *)
  uuid_from_slice : string -> option Uuid;
  (** [serde_json::to_vec] and [from_slice] of a snapshot, and what printing and parsing does to a value *)
  snapshot_to_vec : Snapshot -> option string;
  snapshot_from_slice : string -> option Snapshot;
  json_reread : Value -> Value;
  json_reread_number : Number -> Number;
  #[global] json_null_dec :: forall v : Value, Decision (v = value_null);
  (** [payload LIKE '{"type":"workflow_run_started"%' AND json_extract(payload, '$.type') = ..] *)
  sql_run_started : string -> bool;
  (** [json!({ "code": code })], and the status of a handoff's continuation *)
  code_value : string -> Value;
  resume_value : string -> N -> Value;
  (** what [now_millis] reads when the log row of this sequence is inserted *)
  append_time : N -> Z;
}.

Class StoreLaws {U : UuidLib} {J : JsonLib} (L : StoreLib) : Prop := {
  uuid_from_slice_bytes : forall u, uuid_from_slice (uuid_as_bytes u) = Some u;
  uuid_hyphenated_inj : forall u v, uuid_hyphenated u = uuid_hyphenated v -> u = v;
  (** the derived snapshot codec, as [Snapshot] documents it *)
  snapshot_serde : serde_law json_reread json_reread_number snapshot_to_vec snapshot_from_slice;
  (** the text search finds a payload the store wrote when it decodes to a run's start: an event is written with its tag first *)
  sql_finds_written : forall event payload session run workflow hash owner stages,
    event_to_string event = Some payload ->
    event_from_str payload = Some (Event.WorkflowRunStarted session run workflow hash owner stages) -> sql_run_started payload = true;
}.

Section db.
Context `{U : UuidLib} `{J : JsonLib} `{L : !StoreLib}.

(** ** Identities of the store *)

Record OperationId := from_storage_uuid { operation_uuid : Uuid }.
#[global] Instance OperationId_eq_dec : EqDecision OperationId.
Proof. solve_decision. Defined.
#[global] Instance OperationId_countable : Countable OperationId.
Proof. refine (inj_countable' operation_uuid from_storage_uuid _). by intros []. Defined.

Definition ResumeId : Type := uuid_id "resume".

Record ActorClaim := mkActorClaim {
  ac_actor_id : SessionId;
  ac_epoch : ActorEpoch;
  ac_owner_run_id : OwnerRunId;
}.
#[global] Instance ActorClaim_eq_dec : EqDecision ActorClaim.
Proof. solve_decision. Defined.

(** A UUID is tried as text first. *)
Definition decode_session_key (key : string) : option SessionId :=
  if utf8_valid key
  then match SessionId_from_str key with inl session => Some session | inr _ => None end
  else LegacyUuid <$> uuid_from_slice key.

(** ** Errors: the variants of [StoreError] these modules return *)

Inductive StoreError :=
  | SeSqlite
  | SeJson
  | OperationIdConflict (operation : OperationId)
  | AdmissionNotFound (operation : OperationId)
  | AdmissionTransitionConflict (operation : OperationId) (from to : string)
  | AdmissionData (detail : string)
  | ActorAlreadyClaimed (actor : SessionId)
  | StaleActorClaim (actor : SessionId)
  | ActorClaimUnavailable (actor : SessionId)
  | ActorClaimData (detail : string)
  | RuntimeOwnerBusy
  | RuntimeOwnerClaimRequired
  | RuntimeOwnerLock
  | WorkflowData (detail : string)
  | MailboxRejected (detail : string)
  | ResumeAlreadyPending (session : SessionId)
  | HandoffBoundaryUnsafe (session : SessionId)
  | ResumeData (detail : string).
#[global] Instance StoreError_eq_dec : EqDecision StoreError.
Proof. solve_decision. Defined.

(** ** Tables *)

Record LogRow := mkLogRow {
  lr_seq : N;
  lr_session : string;
  lr_payload : string;
  lr_ts : Z;
}.
#[global] Instance LogRow_eq_dec : EqDecision LogRow.
Proof. solve_decision. Defined.

(** [session] rows, without the columns no code of the store reads back. *)
Record SessionRow := mkSessionRow {
  sr_parent_id : option string;
  sr_row_agent : string;
  sr_model : string;
  sr_workdir : string;
  sr_created_at : Z;
  sr_project_id : option string;
  sr_kind : string;
}.
#[global] Instance SessionRow_eta : EtaRecord SessionRow := fun r =>
  mkSessionRow (sr_parent_id r) (sr_row_agent r) (sr_model r) (sr_workdir r) (sr_created_at r)
    (sr_project_id r) (sr_kind r).

Record TeamMemberRow := mkTeamMemberRow { tm_team : string; tm_role : string; tm_created_at : Z }.

(** [mail] rows; the random primary key is left out. *)
Record MailRow := mkMailRow {
  ml_team : string;
  ml_from : string;
  ml_to : string;
  ml_kind : string;
  ml_body_json : string;
  ml_created_at : Z;
}.

Record TaskRow := mkTaskRow {
  tk_team : string;
  tk_title : string;
  tk_status : string;
  tk_assignee : option string;
  tk_created_at : Z;
  tk_updated_at : Z;
}.
#[global] Instance TaskRow_eta : EtaRecord TaskRow := fun r =>
  mkTaskRow (tk_team r) (tk_title r) (tk_status r) (tk_assignee r) (tk_created_at r) (tk_updated_at r).

Record SnapshotRow := mkSnapshotRow {
  sn_reducer_version : N;
  sn_last_seq : N;
  sn_payload : string;
}.

Record ClaimRow := mkClaimRow {
  cl_epoch : N;
  cl_owner : OwnerRunId;
  cl_state : ClaimState.t;
}.
#[global] Instance ClaimRow_eta : EtaRecord ClaimRow := fun r =>
  mkClaimRow (cl_epoch r) (cl_owner r) (cl_state r).

(** The five binding columns, which a check keeps all null or all set. *)
Record AdmissionBinding := mkAdmissionBinding {
  ab_runtime_version : N;
  ab_runtime_fingerprint : string;
  ab_binding_version : N;
  ab_binding_fingerprint : string;
  ab_spawn_intent : string;
}.

(** One [admission_journal] row but its primary key (operation, ordinal); session keys are bytes. *)
Record JournalRow := mkJournalRow {
  jr_source : ToolCallId;
  jr_root : string;
  jr_fingerprint : string;
  jr_batch_size : N;
  jr_state : AdmissionState.t;
  jr_units : N;
  jr_released : bool;
  jr_reason : option string;
  jr_created_at : Z;
  jr_updated_at : Z;
  jr_actor : option (string * N);
  jr_binding : option AdmissionBinding;
}.
#[global] Instance JournalRow_eta : EtaRecord JournalRow := fun r =>
  mkJournalRow (jr_source r) (jr_root r) (jr_fingerprint r) (jr_batch_size r) (jr_state r) (jr_units r)
    (jr_released r) (jr_reason r) (jr_created_at r) (jr_updated_at r) (jr_actor r) (jr_binding r).

Record ResumeRow := mkResumeRow {
  rr_id : ResumeId;
  rr_session_key : string;
  rr_owner : OwnerRunId;
  rr_generation : N;
  rr_prompt : string;
  rr_taken : option (OwnerRunId * Z);
  rr_created_at : Z;
}.
#[global] Instance ResumeRow_eta : EtaRecord ResumeRow := fun r =>
  mkResumeRow (rr_id r) (rr_session_key r) (rr_owner r) (rr_generation r) (rr_prompt r) (rr_taken r)
    (rr_created_at r).

Record LedgerEntry := mkLedgerEntry {
  le_session : string;
  le_role : string;
  le_iteration : option Z;
  le_completion_run : option string;
  le_prompt_tokens : Z;
  le_completion_tokens : Z;
  le_confidence : string;
  le_provider : option string;
  le_model : option string;
  le_ts : Z;
}.

(** The log is kept in the order of its primary key; [db_last_seq] is the row of [sqlite_sequence]:
    the largest key ever given out. *)
Record Db := mkDb {
  db_log : list LogRow;
  db_last_seq : N;
  db_sessions : gmap string SessionRow;
  db_team_runs : gmap string Z;
  db_team_members : gmap string TeamMemberRow;
  db_mail : list MailRow;
  db_tasks : gmap string TaskRow;
  db_open : gset (string * string);
  db_snapshots : gmap string SnapshotRow;
  db_claims : gmap string ClaimRow;
  db_journal : gmap (OperationId * N) JournalRow;
  db_resumes : list ResumeRow;
  db_ledger : list LedgerEntry;
  db_blobs : gmap (string * string) string;
}.
#[global] Instance Db_eta : EtaRecord Db := fun r =>
  mkDb (db_log r) (db_last_seq r) (db_sessions r) (db_team_runs r) (db_team_members r) (db_mail r) (db_tasks r)
    (db_open r) (db_snapshots r) (db_claims r) (db_journal r) (db_resumes r) (db_ledger r) (db_blobs r).

Definition Db_empty : Db := mkDb [] 0 ∅ ∅ ∅ [] ∅ ∅ ∅ ∅ ∅ [] [] ∅.
End db.
