(* ===== verification/StoreTx.v ===== *)
(** * Transactions on the event log ([hya-store/src/{lib,projection_cache,materialize}.rs])

    The projection cache; then: a writer transaction is a program over the tables ([Tx]): it keeps all of its writes or, when it
    fails, none.  It also reads the projection cache, whose time stamps outlive a rollback.  Code that
    runs on a transaction and on a plain connection alike is written over [Conn], the interface of
    one read statement. *)

From S2P Require Import Prelude Result RustStr Platform Ids Scope Wire Workflow Usage Events Team Projection Snapshot StoreDb.

(** * The projection cache in memory ([hya-store/src/projection_cache.rs])

    The folded projections of the sessions read last, shared by every clone of a store.  Each
    operation holds the one mutex, so operations are functions of the whole cache.  The clock and the
    interval are atomics of their own. *)

(** [DEFAULT_SNAPSHOT_INTERVAL], [MAX_CACHED_PROJECTIONS] *)
Definition DEFAULT_SNAPSHOT_INTERVAL : N := 1024.
Definition MAX_CACHED_PROJECTIONS : nat := 256.

Section cache.
Context `{U : UuidLib} `{J : JsonLib}.

Record Entry := mkEntry {
  en_projection : Projection;
  en_persisted_seq : N;
  en_unpersisted : N;
  en_last_used : N;
}.
#[global] Instance Entry_eta : EtaRecord Entry := fun r =>
  mkEntry (en_projection r) (en_persisted_seq r) (en_unpersisted r) (en_last_used r).

Record Base := mkBase {
  ba_projection : Projection;
  ba_persisted_seq : N;
  ba_unpersisted : N;
}.

Record ProjectionCache := mkProjectionCache {
  pc_entries : gmap SessionId Entry;
  pc_clock : N;
  pc_snapshot_interval : N;
}.
#[global] Instance ProjectionCache_eta : EtaRecord ProjectionCache := fun r =>
  mkProjectionCache (pc_entries r) (pc_clock r) (pc_snapshot_interval r).

Definition cache_new : ProjectionCache := mkProjectionCache ∅ 0 DEFAULT_SNAPSHOT_INTERVAL.

(** [fetch_add] wraps around. *)
Definition tick (c : ProjectionCache) : N * ProjectionCache :=
  (pc_clock c, c <| pc_clock := ((pc_clock c + 1) `mod` 2 ^ 64)%N |>).

Definition set_snapshot_interval (events : N) (c : ProjectionCache) : ProjectionCache :=
  c <| pc_snapshot_interval := N.max events 1 |>.

Definition cache_get (session : SessionId) (c : ProjectionCache) : option Base * ProjectionCache :=
  let '(now, c) := tick c in
  match pc_entries c !! session with
  | None => (None, c)
  | Some entry =>
      (Some (mkBase (en_projection entry) (en_persisted_seq entry) (en_unpersisted entry)),
       c <| pc_entries ::= <[session := entry <| en_last_used := now |>]> |>)
  end.

(** [iter().min_by_key(last_used)]: the ticks differ, so the order of the iteration is immaterial. *)
Definition oldest (entries : gmap SessionId Entry) : option SessionId :=
  fst <$> foldr (fun (x : SessionId * Entry) best =>
    match best with
    | Some y => if decide (en_last_used x.2 <= en_last_used y.2)%N then Some x else Some y
    | None => Some x
    end) None (map_to_list entries).

Definition cache_put (session : SessionId) (projection : Projection) (persisted_seq unpersisted : N)
    (c : ProjectionCache) : ProjectionCache :=
  let '(now, c) := tick c in
  let newer := match pc_entries c !! session with
               | Some existing => bool_decide (p_last_seq projection < p_last_seq (en_projection existing))%N
               | None => false
               end in
  if newer then c
  else
    let entries := pc_entries c in
    let entries :=
      if bool_decide (entries !! session = None) && bool_decide (MAX_CACHED_PROJECTIONS <= size entries)
      then match oldest entries with Some key => delete key entries | None => entries end
      else entries in
    c <| pc_entries := <[session := mkEntry projection persisted_seq unpersisted now]> entries |>.

Definition cache_remove (session : SessionId) (c : ProjectionCache) : ProjectionCache :=
  c <| pc_entries ::= delete session |>.

Definition cache_remove_all (sessions : list SessionId) (c : ProjectionCache) : ProjectionCache :=
  foldr cache_remove c sessions.

(** ** What the operations keep *)

(** Every entry of [c'] has the projection [c] has for the session, or is [extra]. *)
Definition cache_within (c : ProjectionCache) (extra : option (SessionId * Projection)) (c' : ProjectionCache) : Prop :=
  forall session entry, pc_entries c' !! session = Some entry ->
    extra = Some (session, en_projection entry)
    \/ exists entry', pc_entries c !! session = Some entry' /\ en_projection entry' = en_projection entry.

Lemma cache_within_refl c extra : cache_within c extra c.
Proof. intros session entry H. right. by exists entry. Qed.

Lemma cache_get_within session c : cache_within c None (cache_get session c).2.
Proof.
  unfold cache_get, tick. simpl. destruct (pc_entries c !! session) as [entry|] eqn:E; simpl;
    [|intros s e He; right; by exists e].
  intros s e. simpl. destruct (decide (s = session)) as [->|Hne].
  - rewrite lookup_insert_eq. intros [= <-]. right. by exists entry.
  - rewrite lookup_insert_ne by done. intros He. right. by exists e.
Qed.

Lemma cache_get_base session c base :
  (cache_get session c).1 = Some base ->
  exists entry, pc_entries c !! session = Some entry /\ ba_projection base = en_projection entry.
Proof.
  unfold cache_get, tick. simpl. destruct (pc_entries c !! session) as [entry|]; [|done].
  intros [= <-]. by exists entry.
Qed.

Lemma cache_put_within session projection n m c :
  cache_within c (Some (session, projection)) (cache_put session projection n m c).
Proof.
  unfold cache_put, tick. simpl. destruct (match _ with Some _ => _ | None => _ end) eqn:E; simpl.
  { intros s e He. right. by exists e. }
  intros s e. simpl. destruct (decide (s = session)) as [->|Hne].
  - rewrite lookup_insert_eq. intros [= <-]. by left.
  - rewrite lookup_insert_ne by done. intros He. right. exists e. split; [|done].
    destruct (bool_decide _ && bool_decide _); [|done]. destruct (oldest _); [|done].
    by apply lookup_delete_Some in He as [_ He].
Qed.

Lemma cache_remove_all_within sessions c : cache_within c None (cache_remove_all sessions c).
Proof.
  induction sessions as [|s sessions IH]; simpl; [apply cache_within_refl|].
  intros t e. unfold cache_remove. simpl. intros [_ He]%lookup_delete_Some. by apply IH.
Qed.

(** ** The cache never holds more than its capacity *)

Lemma oldest_in entries key : oldest entries = Some key -> is_Some (entries !! key).
Proof.
  unfold oldest. intros H. apply fmap_Some in H as ([k e] & H & ->). simpl. exists e.
  apply elem_of_map_to_list. revert H. generalize (map_to_list entries). intros l. revert k e.
  induction l as [|x l IH]; intros k e; simpl; [done|].
  destruct (foldr _ None l) as [y|] eqn:E.
  - case_decide; intros [= Hy]; subst; [by left|right]. by apply IH.
  - intros [= Hx]; subst. by left.
Qed.

Lemma oldest_some entries : entries <> ∅ -> is_Some (oldest entries).
Proof.
  intros Hne. unfold oldest. destruct (map_to_list entries) as [|x l] eqn:E.
  - by apply map_to_list_empty_iff in E.
  - simpl. destruct (foldr _ None l); [case_decide|]; simpl; by eexists.
Qed.

Lemma cache_put_bounded session projection n m c :
  size (pc_entries c) <= MAX_CACHED_PROJECTIONS ->
  size (pc_entries (cache_put session projection n m c)) <= MAX_CACHED_PROJECTIONS.
Proof.
  intros Hc. unfold cache_put, tick. simpl. destruct (match _ with Some _ => _ | None => _ end); simpl; [done|].
  destruct (pc_entries c !! session) as [old|] eqn:Hs.
  { rewrite bool_decide_false by done. simpl. by rewrite map_size_insert_Some by (by eexists). }
  rewrite (bool_decide_true (None = None)) by done. simpl. case_bool_decide as Hfull.
  - destruct (oldest_some (pc_entries c)) as [key Hkey].
    { intros Hnil. rewrite Hnil in Hfull. unfold MAX_CACHED_PROJECTIONS in Hfull.
      rewrite map_size_empty in Hfull. lia. }
    rewrite Hkey. pose proof (oldest_in _ _ Hkey) as Hin.
    rewrite map_size_insert_None by (apply lookup_delete_None; by right).
    rewrite map_size_delete_Some by done. destruct Hin as [e He].
    pose proof (map_size_non_empty_iff (pc_entries c)) as Hn. unfold MAX_CACHED_PROJECTIONS in *. lia.
  - rewrite map_size_insert_None by done. lia.
Qed.
End cache.

(** * Transactions on the event log ([hya-store/src/{lib,projection_cache,materialize}.rs]) *)

(** ** Connections *)

Class Conn {U : UuidLib} {J : JsonLib} (M : Type -> Type) := {
  conn_ret : forall {A : Type}, A -> M A;
  conn_fail : forall {A : Type}, StoreError -> M A;
  conn_bind : forall {A B : Type}, M A -> (A -> M B) -> M B;
  (** one [SELECT]: a function of the committed tables, and of a transaction's own writes *)
  conn_read : forall {A : Type}, (Db -> A) -> M A;
}.

Section tx.
Context `{U : UuidLib} `{J : JsonLib} `{L : !StoreLib}.

(** ** Transactions *)

Record TxState := mkTxState {
  tx_db : Db;
  tx_cache : ProjectionCache;
}.
#[global] Instance TxState_eta : EtaRecord TxState := fun r => mkTxState (tx_db r) (tx_cache r).

Definition Tx (A : Type) : Type := TxState -> (A + StoreError) * TxState.

Definition tx_ret {A} (a : A) : Tx A := fun st => (inl a, st).
Definition tx_fail {A} (e : StoreError) : Tx A := fun st => (inr e, st).
Definition tx_bind {A B} (t : Tx A) (f : A -> Tx B) : Tx B := fun st =>
  match t st with
  | (inl a, st) => f a st
  | (inr e, st) => (inr e, st)
  end.
Definition tx_read {A} (f : Db -> A) : Tx A := fun st => (inl (f (tx_db st)), st).
Definition tx_write (f : Db -> Db) : Tx unit := fun st => (inl tt, st <| tx_db ::= f |>).
(** [r?] *)
Definition tx_try {A} (r : A + StoreError) : Tx A :=
  match r with inl a => tx_ret a | inr e => tx_fail e end.

Fixpoint tx_map {A B} (f : A -> Tx B) (xs : list A) : Tx (list B) :=
  match xs with
  | [] => tx_ret []
  | x :: xs => tx_bind (f x) (fun y => tx_bind (tx_map f xs) (fun ys => tx_ret (y :: ys)))
  end.

(** [begin], the program, and [commit] or the rollback of a dropped transaction. *)
Definition transact {A} (t : Tx A) : Tx A := fun st =>
  match t st with
  | (inl a, st') => (inl a, st')
  | (inr e, st') => (inr e, mkTxState (tx_db st) (tx_cache st'))
  end.

#[global] Instance tx_conn : Conn Tx := {|
  conn_ret := @tx_ret;
  conn_fail := @tx_fail;
  conn_bind := @tx_bind;
  conn_read := @tx_read;
|}.
End tx.

Notation "'let^' p ':=' t 'in' k" := (tx_bind t (fun p => k))
  (at level 200, p pattern, k at level 200, format "'[v' 'let^'  p  ':='  t  'in' '/' k ']'") : hya_scope.

Section store.
Context `{U : UuidLib} `{J : JsonLib} `{L : !StoreLib}.

(** ** Side tables ([materialize.rs]) *)

(** [INSERT OR IGNORE INTO session]: ignoring covers the primary key, not the foreign key. *)
Definition insert_session (id : string) (row : SessionRow) : Tx unit := fun st =>
  let sessions := db_sessions (tx_db st) in
  match sessions !! id with
  | Some _ => (inl tt, st)
  | None =>
      let parent_ok := match sr_parent_id row with
                       | None => true
                       | Some parent => bool_decide (parent = id) || bool_decide (is_Some (sessions !! parent))
                       end in
      if parent_ok then (inl tt, st <| tx_db ::= fun db => db <| db_sessions ::= <[id := row]> |> |>)
      else (inr SeSqlite, st)
  end.

Definition ensure_session_stub (session : SessionId) (agent_hint : string) (ts : Z) : Tx unit :=
  insert_session (SessionId_storage_key session)
    (mkSessionRow None agent_hint "" "." ts None "project").

Definition ensure_team_run (root : SessionId) (ts : Z) : Tx unit :=
  let^ _ := ensure_session_stub root "" ts in
  tx_write (fun db => db <| db_team_runs ::= fun runs =>
    let key := SessionId_storage_key root in
    if decide (is_Some (runs !! key)) then runs else <[key := ts]> runs |>).

(** The hyphenated UUID a message id is in JSON. *)
Definition open_message_key (message : MessageId) : string := uuid_hyphenated (as_uuid message).

Definition materialize_event_side_tables (root : SessionId) (event : Event.t) (ts : Z) : Tx unit :=
  let root_key := SessionId_storage_key root in
  match event with
  | Event.SessionCreated session parent agent model workdir project kind =>
      let key := SessionId_storage_key session in
      let project := (fun p => uuid_id_to_string p) <$> project in
      let^ _ := insert_session key
        (mkSessionRow (SessionId_storage_key <$> parent) (as_str agent) (as_str model) workdir ts
           project (SessionKind.as_str kind)) in
      tx_write (fun db => db <| db_sessions ::=
        alter (fun row => row <| sr_project_id := project |> <| sr_kind := SessionKind.as_str kind |>) key |>)
  | Event.AgentRegistered _ agent_session _ _ agent_type _ =>
      let^ _ := ensure_team_run root ts in
      let^ _ := ensure_session_stub agent_session (as_str agent_type) ts in
      tx_write (fun db => db <| db_team_members ::= fun members =>
        let key := SessionId_storage_key agent_session in
        if decide (is_Some (members !! key)) then members
        else <[key := mkTeamMemberRow root_key (as_str agent_type) ts]> members |>)
  | Event.MailSent _ from to kind body =>
      let^ _ := ensure_team_run root ts in
      let to_ep := match to with
                   | MailEndpoint.Channel channel => "#" +:+ channel
                   | MailEndpoint.Handle handle => handle
                   end in
      let kind_label := match kind with
                        | MailKind.Announcement => "announcement"
                        | MailKind.Message => "message"
                        end in
      tx_write (fun db => db <| db_mail ::= fun rows =>
        rows ++ [mkMailRow root_key from to_ep kind_label (json_string body) ts] |>)
  | Event.MemberSpawned _ member child _ description _ _ _ =>
      let^ _ := ensure_team_run root ts in
      tx_write (fun db => db <| db_tasks ::=
        <[uuid_as_bytes (as_uuid member) :=
            mkTaskRow root_key description "pending" (SessionId_storage_key <$> child) ts ts]> |>)
  | Event.SubagentReported _ member _ _ outcome _ =>
      let status := match outcome with ReportOutcome.Done => "done" | ReportOutcome.Failed => "failed" end in
      tx_write (fun db => db <| db_tasks ::=
        alter (fun row => if decide (tk_team row = root_key)
                          then row <| tk_status := status |> <| tk_updated_at := ts |> else row)
          (uuid_as_bytes (as_uuid member)) |>)
  | Event.MessageStarted _ message Role.Assistant _ _ =>
      tx_write (fun db => db <| db_open ::= fun rows => {[(root_key, open_message_key message)]} ∪ rows |>)
  | Event.MessageFinished _ message _ _ _ _ | Event.MessageDeleted _ message =>
      tx_write (fun db => db <| db_open ::= fun rows => rows ∖ {[(root_key, open_message_key message)]} |>)
  | _ => tx_ret tt
  end.

(** ** The log *)

(** The largest row id of SQLite; with it in use an [AUTOINCREMENT] insert fails. *)
Definition MAX_ROWID : N := 2 ^ 63 - 1.

(** [INSERT INTO event_log ... RETURNING seq, ts] *)
Definition insert_log (session : SessionId) (payload : string) : Tx (N * Z) := fun st =>
  let seq := (db_last_seq (tx_db st) + 1)%N in
  if decide (seq <= MAX_ROWID)%N then
    let row := mkLogRow seq (SessionId_storage_key session) payload (append_time seq) in
    (inl (seq, append_time seq),
     st <| tx_db ::= fun db => db <| db_log ::= fun log => log ++ [row] |> <| db_last_seq := seq |> |>)
  else (inr SeSqlite, st).

Definition json_event (event : Event.t) : string + StoreError :=
  match event_to_string event with Some payload => inl payload | None => inr SeJson end.

Definition append_event_in_transaction (session : SessionId) (event : Event.t) : Tx Envelope :=
  let^ payload := tx_try (json_event event) in
  let^ (seq, ts) := insert_log session payload in
  let^ _ := materialize_event_side_tables session event ts in
  tx_ret (mkEnvelope seq ts event).

(** The same with the payload read back by [SessionStore::append_event]. *)
Definition append_event_tx (session : SessionId) (event : Event.t) : Tx (EventSeq * Z) :=
  let^ envelope := append_event_in_transaction session event in
  tx_ret (env_seq envelope, env_ts_millis envelope).

(** [seq_param]: saturates at the signed maximum. *)
Definition seq_param (seq : N) : N := N.min seq MAX_ROWID.

Definition decode_row (row : LogRow) : Envelope + StoreError :=
  match event_from_str (lr_payload row) with
  | Some event => inl (mkEnvelope (lr_seq row) (lr_ts row) event)
  | None => inr SeJson
  end.

(** [SELECT seq, ts, payload FROM event_log WHERE session_id = ? ORDER BY seq] *)
Definition rows_of (key : string) (db : Db) : list LogRow :=
  filter (fun row => lr_session row = key) (db_log db).

Definition select_from (key : string) (from : N) (db : Db) : list LogRow :=
  filter (fun row => from <= lr_seq row)%N (rows_of key db).

(** [SessionStore::replay] *)
Definition replay (session : SessionId) (db : Db) : list Envelope + StoreError :=
  try_map decode_row (rows_of (SessionId_storage_key session) db).

(** ** Folding ([projection_cache::fold]) *)

Record Folded := mkFolded {
  fo_projection : Projection;
  fo_applied : N;
  fo_rebuilt : bool;
}.

(** [while let Some(row) = rows.try_next().await? { projection.apply(&decode_row(&row)?); applied += 1 }] *)
Fixpoint fold_rows (rows : list LogRow) (projection : Projection) (applied : N) : Projection * N + StoreError :=
  match rows with
  | [] => inl (projection, applied)
  | row :: rows =>
      let? envelope := decode_row row in
      fold_rows rows (apply projection envelope) (applied + 1)%N
  end.

(** The first row must be the anchor, which is not applied again. *)
Definition fold_anchored (base : Projection) (rows : list LogRow) : option (Projection * N + StoreError) :=
  match rows with
  | [] => None
  | row :: rows => if decide (lr_seq row = p_last_seq base) then Some (fold_rows rows base 0) else None
  end.

Section conn.
Context {M : Type -> Type} `{!Conn M}.

(** [r?] *)
Definition conn_try {A} (r : A + StoreError) : M A :=
  match r with inl a => conn_ret a | inr e => conn_fail e end.

Definition fold_full (key : string) : M Folded :=
  conn_bind (conn_read (rows_of key)) (fun rows =>
  conn_bind (conn_try (fold_rows rows Projection_default 0)) (fun '(projection, applied) =>
  conn_ret (mkFolded projection applied true))).

Definition fold (session : SessionId) (base : option Projection) : M Folded :=
  let key := SessionId_storage_key session in
  match base with
  | None => fold_full key
  | Some base =>
      if decide (0 < p_last_seq base)%N then
        conn_bind (conn_read (select_from key (seq_param (p_last_seq base)))) (fun rows =>
          match fold_anchored base rows with
          | Some r =>
              conn_bind (conn_try r) (fun '(projection, applied) =>
              conn_ret (mkFolded projection applied false))
          | None => fold_full key
          end)
      else fold_full key
  end.

(** [PROJECTION_REDUCER_VERSION] *)
Definition PROJECTION_REDUCER_VERSION : N := 9.

Definition usable_snapshot (row : SnapshotRow) : option Projection :=
  if decide (sn_reducer_version row <> PROJECTION_REDUCER_VERSION) then None
  else
    projection ← decode_snapshot snapshot_from_slice (sn_payload row);
    if decide (seq_param (p_last_seq projection) = sn_last_seq row) then Some projection else None.

Definition load_snapshot (session : SessionId) : M (option Projection) :=
  conn_bind (conn_read (fun db => db_snapshots db !! SessionId_storage_key session)) (fun row =>
    conn_ret (row ≫= usable_snapshot)).
End conn.

(** The upsert writes only while the anchor row exists. *)
Definition persist_snapshot (session : SessionId) (projection : Projection) : Tx unit :=
  match encode_snapshot snapshot_to_vec projection with
  | None => tx_fail SeJson
  | Some payload =>
      let key := SessionId_storage_key session in
      let last_seq := seq_param (p_last_seq projection) in
      tx_write (fun db =>
        if existsb (fun row => bool_decide (lr_seq row = last_seq)) (rows_of key db)
        then db <| db_snapshots ::= <[key := mkSnapshotRow PROJECTION_REDUCER_VERSION last_seq payload]> |>
        else db)
  end.

(** [ProjectionCache::get] from inside a transaction *)
Definition tx_cache_get (session : SessionId) : Tx (option Base) := fun st =>
  let '(base, cache) := cache_get session (tx_cache st) in
  (inl base, st <| tx_cache := cache |>).

Definition transaction_base (session : SessionId) : Tx (option Projection) :=
  let^ base := tx_cache_get session in
  match base with
  | Some base => tx_ret (Some (ba_projection base))
  | None => load_snapshot session
  end.

Definition replay_projection (session : SessionId) : Tx Projection :=
  let^ base := transaction_base session in
  let^ folded := fold session base in
  tx_ret (fo_projection folded).
End store.
