(* ===== verification/Store.v ===== *)
(** * The session store ([hya-store/src/lib.rs])

    The operations of [SessionStore] as tasks: a call is one statement on a pooled connection, one
    writer transaction, or one access to the shared cache, and other tasks run between any two calls.
    Every statement may fail on its own; a failed one leaves the tables as they are. *)

From stdpp Require Import sorting.
From S2P Require Import Prelude RustStr Platform Ids Scope Wire Workflow Usage Events Team Projection Result Effects StoreDb StoreTx.

Section calls.
Context `{U : UuidLib} `{J : JsonLib} `{L : !StoreLib}.

Inductive StoreEff : Type -> Type :=
  (** one [SELECT] *)
  | Query {A : Type} (f : Db -> A) : StoreEff (A + StoreError)
  (** one writer transaction, or one writing statement *)
  | Transact {A : Type} (t : Tx A) : StoreEff (A + StoreError)
  (** one access to the projection cache *)
  | CacheCall {A : Type} (f : ProjectionCache -> A * ProjectionCache) : StoreEff A
  (** one access to the claim of the runtime owner *)
  | OwnerCall {A : Type} (f : option OwnerRunId -> A * option OwnerRunId) : StoreEff A.

Definition StoreTask (A : Type) : Type := Task StoreEff (A + StoreError).

#[global] Instance task_conn : Conn StoreTask := {|
  conn_ret A a := Ret (inl a);
  conn_fail A e := Ret (inr e);
  conn_bind A B t f := try_bind t f;
  conn_read A f := call (Query f);
|}.

(** ** The runtime owner *)

(** [RuntimeOwnerState::claim]; [lock] is what taking the lock file gives. *)
Definition owner_claim (lock : unit + StoreError) (owner : OwnerRunId) (claim : option OwnerRunId) :
    (unit + StoreError) * option OwnerRunId :=
  match claim with
  | Some existing => (if decide (existing = owner) then inl tt else inr RuntimeOwnerBusy, claim)
  | None => match lock with
            | inl _ => (inl tt, Some owner)
            | inr e => (inr e, None)
            end
  end.

Definition owner_require (owner : OwnerRunId) (claim : option OwnerRunId) : unit + StoreError :=
  if decide (claim = Some owner) then inl tt else inr RuntimeOwnerClaimRequired.

Definition owner_release (owner : OwnerRunId) (claim : option OwnerRunId) :
    (unit + StoreError) * option OwnerRunId :=
  match claim with
  | Some existing => if decide (existing = owner) then (inl tt, None) else (inr RuntimeOwnerBusy, claim)
  | None => (inl tt, None)
  end.

Definition require_runtime_owner (owner : OwnerRunId) : StoreTask unit :=
  call (OwnerCall (fun claim => (owner_require owner claim, claim))).

(** ** The log *)

Definition append_event (session : SessionId) (event : Event.t) : StoreTask (EventSeq * Z) :=
  let! _ := Ret (json_event event) in
  call (Transact (transact (append_event_tx session event))).

Definition session_exists (session : SessionId) : StoreTask bool :=
  call (Query (fun db => bool_decide (rows_of (SessionId_storage_key session) db <> []))).

(** ** Reading projections *)

(** The end of a read: a durable snapshot when one is due, and the entry of the cache.  A failed
    snapshot only means that a later read folds more. *)
Definition write_back (session : SessionId) (projection : Projection) (persisted_seq unpersisted : N) :
    StoreTask Projection :=
  let last_seq := p_last_seq projection in
  if decide (last_seq = 0)%N then
    let* _ := call (CacheCall (fun c => (tt, cache_remove session c))) in
    Ret (inl projection)
  else
    let* interval := call (CacheCall (fun c => (pc_snapshot_interval c, c))) in
    let* (persisted_seq, unpersisted) :=
      if bool_decide (persisted_seq < last_seq)%N && bool_decide (interval <= unpersisted)%N then
        let* r := call (Transact (persist_snapshot session projection)) in
        Ret (match r with inl _ => (last_seq, 0%N) | inr _ => (persisted_seq, unpersisted) end)
      else Ret (persisted_seq, unpersisted) in
    let* _ := call (CacheCall (fun c => (tt, cache_put session projection persisted_seq unpersisted c))) in
    Ret (inl projection).

(** The fold from a base. *)
Definition read_from (session : SessionId) (base : option Base) : StoreTask Projection :=
  let '(persisted_seq, unpersisted) := match base with
                                       | Some base => (ba_persisted_seq base, ba_unpersisted base)
                                       | None => (0%N, 0%N)
                                       end in
  let! folded := (fold session (ba_projection <$> base) : StoreTask _) in
  let '(persisted_seq, unpersisted) := if fo_rebuilt folded then (0%N, fo_applied folded)
                                       else (persisted_seq, sat_add 64 unpersisted (fo_applied folded)) in
  write_back session (fo_projection folded) persisted_seq unpersisted.

(** [SessionStore::cached_projection] *)
Definition cached_projection (session : SessionId) : StoreTask Projection :=
  let* cached := call (CacheCall (cache_get session)) in
  let! base := match cached with
               | Some base => Ret (inl (Some base))
               | None =>
                   let! snapshot := (load_snapshot session : StoreTask _) in
                   Ret (inl ((fun projection => mkBase projection (p_last_seq projection) 0) <$> snapshot))
               end in
  read_from session base.

(** [read_projection], [read_projection_shared] and [with_projection] are this read. *)
Definition read_projection (session : SessionId) : StoreTask Projection := cached_projection session.

Definition warm_projection (session : SessionId) : StoreTask unit :=
  let! _ := cached_projection session in Ret (inl tt).

(** ** Deleting sessions *)

Definition child_of (tree : gset string) (row : SessionRow) : bool :=
  match sr_parent_id row with Some parent => bool_decide (parent ∈ tree) | None => false end.

(** The recursive query over [session.parent_id]; [UNION] keeps each key once. *)
Fixpoint session_tree (fuel : nat) (sessions : gmap string SessionRow) (tree : gset string) : gset string :=
  match fuel with
  | O => tree
  | S fuel =>
      let children := dom (filter (fun entry => child_of tree entry.2 = true) sessions) in
      session_tree fuel sessions (tree ∪ children)
  end.

Definition tree_keys (key : string) (db : Db) : gset string :=
  session_tree (size (db_sessions db)) (db_sessions db) {[key]}.

(** The deletes of one key over the six tables. *)
Definition delete_key (key : string) (db : Db) : Db :=
  db <| db_log ::= filter (fun row => lr_session row <> key) |>
     <| db_ledger ::= filter (fun row => le_session row <> key) |>
     <| db_open ::= filter (fun row => row.1 <> key) |>
     <| db_resumes ::= filter (fun row => rr_session_key row <> key) |>
     <| db_snapshots ::= delete key |>
     <| db_blobs ::= filter (fun blob => blob.1.1 <> key) |>.

(** [SELECT MAX(seq)]: null without rows. *)
Definition max_seq (rows : list LogRow) : option N := lr_seq <$> last rows.

(** The transaction of [delete_session_where]: the keys to drop from the cache, and the answer;
    [None] when the log grew. *)
Definition delete_session_tx (session : SessionId) (last_seq : option EventSeq) : Tx (option (list string * bool)) :=
  let key := SessionId_storage_key session in
  let^ rows := tx_read (rows_of key) in
  let matches := match last_seq with
                 | None => true
                 | Some n => bool_decide (max_seq rows = Some (seq_param n))
                 end in
  let^ _ := if matches
            then tx_write (fun db => db <| db_log ::= filter (fun row => lr_session row <> key) |>)
            else tx_ret tt in
  let deleted := matches && bool_decide (rows <> []) in
  if negb deleted && bool_decide (is_Some last_seq) then tx_ret None
  else
    let^ keys := tx_read (fun db => elements (tree_keys key db)) in
    let^ _ := tx_write (fun db => foldr delete_key db keys) in
    tx_ret (Some (keys, deleted)).

Definition delete_session_where (session : SessionId) (last_seq : option EventSeq) : StoreTask bool :=
  let! r := call (Transact (transact (delete_session_tx session last_seq))) in
  match r with
  | None => Ret (inl false)
  | Some (keys, deleted) =>
      let* _ := call (CacheCall (fun c => (tt, cache_remove_all (omap decode_session_key keys) c))) in
      Ret (inl deleted)
  end.

Definition delete_session (session : SessionId) : StoreTask bool := delete_session_where session None.
Definition delete_session_at (session : SessionId) (last_seq : EventSeq) : StoreTask bool :=
  delete_session_where session (Some last_seq).

(** ** Listing sessions *)

Record SessionInfo := mkSessionInfo {
  si_session : SessionId;
  si_started_millis : Z;
  si_updated_millis : Z;
  si_events : N;
}.

(** One group of the log, with its key. *)
Record InfoRow := mkInfoRow { ir_key : string; ir_started : Z; ir_updated : Z; ir_n : N }.

Definition info_row (key : string) (rows : list LogRow) : option InfoRow :=
  match rows with
  | [] => None
  | row :: rest => Some (mkInfoRow key (foldr Z.min (lr_ts row) (lr_ts <$> rest))
                           (foldr Z.max (lr_ts row) (lr_ts <$> rest)) (N.of_nat (length rows)))
  end.

(** [ORDER BY updated DESC, session_id DESC] *)
Definition newest_first (a b : InfoRow) : Prop :=
  (ir_updated b < ir_updated a)%Z
  \/ (ir_updated b = ir_updated a /\ String.leb (ir_key b) (ir_key a) = true).
#[global] Instance newest_first_dec a b : Decision (newest_first a b).
Proof. unfold newest_first. apply _. Defined.

(** Rows whose key does not decode are skipped. *)
Definition session_infos (rows : list InfoRow) : list SessionInfo :=
  omap (fun row => (fun session => mkSessionInfo session (ir_started row) (ir_updated row) (ir_n row))
                     <$> decode_session_key (ir_key row)) rows.

Definition list_sessions : StoreTask (list SessionInfo) :=
  let! rows := call (Query (fun db =>
    merge_sort newest_first (omap (fun key => info_row key (rows_of key db))
      (remove_dups (lr_session <$> db_log db))))) in
  Ret (inl (session_infos rows)).

Definition session_info (session : SessionId) : StoreTask (option SessionInfo) :=
  let! row := call (Query (fun db =>
    let key := SessionId_storage_key session in info_row key (rows_of key db))) in
  Ret (inl ((fun row => mkSessionInfo session (ir_started row) (ir_updated row) (ir_n row)) <$> row)).

(** ** The token ledger *)

Definition record_usage (entry : LedgerEntry) : StoreTask unit :=
  call (Transact (tx_write (fun db => db <| db_ledger ::= fun rows => rows ++ [entry] |>))).

Definition earlier (a b : LedgerEntry) : Prop := (le_ts a <= le_ts b)%Z.
#[global] Instance earlier_dec a b : Decision (earlier a b) := decide (le_ts a <= le_ts b)%Z.

Definition read_usage (session : SessionId) : StoreTask (list LedgerEntry) :=
  call (Query (fun db => merge_sort earlier
    (filter (fun row => le_session row = SessionId_storage_key session) (db_ledger db)))).
End calls.
