(* ===== verification/Claims.v ===== *)
(** * Resident actor claims ([hya-store/src/resident_claim.rs])

    One row per resident actor names the process that may drive it: an epoch that only grows, the
    owner's run id, and whether the claim is active.  Every write made for an actor first fences its
    claim inside the writing transaction. *)

From S2P Require Import Prelude RustStr Platform Ids Scope Wire Workflow Usage Events Team Projection Result Effects StoreDb StoreTx Store.

Section claims.
Context `{U : UuidLib} `{J : JsonLib} `{L : !StoreLib}.

Record RecoveredActorClaim := mkRecoveredActorClaim {
  rc_claim : ActorClaim;
  rc_previous_epoch : ActorEpoch;
}.

(** [i64::try_from(claim.epoch.get())] *)
Definition epoch_param (epoch : ActorEpoch) (err : string -> StoreError) : N + StoreError :=
  if decide (epoch_get epoch <= MAX_ROWID)%N then inl (epoch_get epoch)
  else inr (err "actor epoch exceeds SQLite INTEGER range").

(** [WHERE actor_id = ? AND epoch = ? AND owner_run_id = ?] *)
Definition claim_row (claim : ActorClaim) (db : Db) : option ClaimRow :=
  row ← db_claims db !! SessionId_storage_key (ac_actor_id claim);
  if bool_decide (cl_epoch row = epoch_get (ac_epoch claim)) && bool_decide (cl_owner row = ac_owner_run_id claim)
  then Some row else None.

Definition is_current (claim : ActorClaim) (db : Db) : bool :=
  match claim_row claim db with Some row => bool_decide (cl_state row = ClaimState.Active) | None => false end.

Definition fence_actor_claim (claim : ActorClaim) : Tx unit :=
  let^ _ := tx_try (epoch_param (ac_epoch claim) ActorClaimData) in
  let^ current := tx_read (is_current claim) in
  if (current : bool) then tx_ret tt else tx_fail (StaleActorClaim (ac_actor_id claim)).

Definition fence_optional (claim : option ActorClaim) : Tx unit :=
  match claim with Some claim => fence_actor_claim claim | None => tx_ret tt end.

Definition decode_claim (key : string) (row : ClaimRow) : ActorClaim + StoreError :=
  match decode_session_key key with
  | None => inr (ActorClaimData "invalid actor session key")
  | Some actor =>
      if decide (0 < cl_epoch row)%N then inl (mkActorClaim actor (mkActorEpoch (cl_epoch row)) (cl_owner row))
      else inr (ActorClaimData "invalid actor epoch")
  end.

(** [SELECT .. WHERE state = 'active' ORDER BY actor_id] *)
Definition active_actor_ids : StoreTask (list SessionId) :=
  let! keys := call (Query (fun db =>
    filter (fun key => cl_state <$> db_claims db !! key = Some ClaimState.Active)
      (fst <$> btree_list (db_claims db)))) in
  Ret (try_map (fun key => match decode_session_key key with
                           | Some actor => inl actor
                           | None => inr (ActorClaimData "invalid actor session key")
                           end) keys).

(** The conditional upsert: an active row is never overwritten. *)
Definition try_claim_new_tx (actor : SessionId) (owner : OwnerRunId) : Tx (option ClaimRow) := fun st =>
  let key := SessionId_storage_key actor in
  let write row := (inl (Some row), st <| tx_db ::= fun db => db <| db_claims ::= <[key := row]> |> |>) in
  match db_claims (tx_db st) !! key with
  | None => write (mkClaimRow 1 owner ClaimState.Active)
  | Some row =>
      if bool_decide (cl_state row = ClaimState.Released) && bool_decide (cl_epoch row < MAX_ROWID)%N
      then write (mkClaimRow (cl_epoch row + 1) owner ClaimState.Active)
      else (inl None, st)
  end.

Definition try_claim_new (actor : SessionId) (owner : OwnerRunId) : StoreTask ActorClaim :=
  let! row := call (Transact (try_claim_new_tx actor owner)) in
  Ret (match row with
       | Some row => decode_claim (SessionId_storage_key actor) row
       | None => inr (ActorAlreadyClaimed actor)
       end).

(** The conditional update: the linearization point of a takeover. *)
Definition recover_claim_tx (actor : SessionId) (owner : OwnerRunId) : Tx (option ClaimRow) := fun st =>
  let key := SessionId_storage_key actor in
  match db_claims (tx_db st) !! key with
  | Some row =>
      if bool_decide (cl_state row = ClaimState.Active) && bool_decide (cl_epoch row < MAX_ROWID)%N
      then let row := row <| cl_epoch := (cl_epoch row + 1)%N |> <| cl_owner := owner |> in
           (inl (Some row), st <| tx_db ::= fun db => db <| db_claims ::= <[key := row]> |> |>)
      else (inl None, st)
  | None => (inl None, st)
  end.

Definition recover_claim (actor : SessionId) (owner : OwnerRunId) : StoreTask RecoveredActorClaim :=
  let! row := call (Transact (recover_claim_tx actor owner)) in
  Ret (match row with
       | None => inr (ActorClaimUnavailable actor)
       | Some row =>
           let? claim := decode_claim (SessionId_storage_key actor) row in
           inl (mkRecoveredActorClaim claim (mkActorEpoch (epoch_get (ac_epoch claim) - 1)))
       end).

Definition validate_actor_claim (claim : ActorClaim) : StoreTask unit :=
  let key := SessionId_storage_key (ac_actor_id claim) in
  let! row := call (Query (fun db =>
    row ← db_claims db !! key; if decide (cl_state row = ClaimState.Active) then Some row else None)) in
  Ret (let? current := try_option (decode_claim key) row in
       if decide (current = Some claim) then inl tt else inr (StaleActorClaim (ac_actor_id claim))).

(** [UPDATE resident_actor_claim SET state = 'released' WHERE .. AND state = 'active'], and how many
    rows it changed. *)
Definition set_released (claim : ActorClaim) : Tx bool := fun st =>
  if is_current claim (tx_db st)
  then (inl true, st <| tx_db ::= fun db => db <| db_claims ::=
          alter (fun row => row <| cl_state := ClaimState.Released |>) (SessionId_storage_key (ac_actor_id claim)) |> |>)
  else (inl false, st).

(** The fenced append of a resident's own events. *)
Definition commit_resident_mutation_tx (claim : ActorClaim) (session : SessionId) (events : list Event.t) :
    Tx (list Envelope) :=
  let^ _ := fence_actor_claim claim in
  tx_map (append_event_in_transaction session) events.

Definition commit_resident_mutation (claim : ActorClaim) (session : SessionId) (events : list Event.t) :
    StoreTask (list Envelope) :=
  if existsb (fun event => negb (bool_decide (Event.session_of event = Some session))) events
  then Ret (inr (ActorClaimData "resident mutation event session mismatch"))
  else call (Transact (transact (commit_resident_mutation_tx claim session events))).
End claims.
