(* ===== verification/Journal.v ===== *)
(** * The spawn admission journal ([hya-store/src/admission.rs], [resident_claim.rs])

    One row per member of a spawn operation, from its claim through start to a terminal state; the
    flag [logical_released] is set when a started row is terminalized, and whoever set it returns the
    operation's units to the governor. *)

From stdpp Require Import sorting.
From S2P Require Import Prelude RustStr Platform Ids Scope Wire Workflow Usage Events Team Projection Result Effects StoreDb StoreTx Store Claims.

Module AdmissionTerminal.
Inductive t := Completed | Cancelled | Aborted.
#[global] Instance eq_dec : EqDecision t.
Proof. solve_decision. Defined.
Definition state (terminal : t) : AdmissionState.t :=
  match terminal with
  | Completed => AdmissionState.Completed
  | Cancelled => AdmissionState.Cancelled
  | Aborted => AdmissionState.Aborted
  end.
End AdmissionTerminal.

Section journal.
Context `{U : UuidLib} `{J : JsonLib} `{L : !StoreLib}.

Record AdmissionCounts := mkAdmissionCounts { an_active : N; an_non_active : N; an_total : N }.

Record AdmissionClaim := mkAdmissionClaim {
  am_operation : OperationId;
  am_source : ToolCallId;
  am_root : SessionId;
  am_fingerprint : string;
  am_units : N;
  am_actor_claim : option ActorClaim;
}.

Record AdmissionRecord := mkAdmissionRecord {
  ad_operation : OperationId;
  ad_source : ToolCallId;
  ad_root : SessionId;
  ad_fingerprint : string;
  ad_ordinal : N;
  ad_batch_size : N;
  ad_state : AdmissionState.t;
  ad_units : N;
  ad_actor : option (SessionId * ActorEpoch);
  ad_released : bool;
  ad_reason : option string;
  ad_created_at : Z;
  ad_updated_at : Z;
}.

Inductive AdmissionClaimOutcome := Claimed (record : AdmissionRecord) | ClaimExisting (record : AdmissionRecord).
Inductive AdmissionStartOutcome := Started (record : AdmissionRecord) | StartExisting (record : AdmissionRecord).
Record AdmissionFinalizeOutcome := mkFinalizeOutcome { fi_record : AdmissionRecord; fi_release_required : bool }.

(** ** Rows *)

Definition JournalKey : Type := OperationId * N.

Definition decode_actor (actor : option (string * N)) : option (SessionId * ActorEpoch) + StoreError :=
  match actor with
  | None => inl None
  | Some (key, epoch) =>
      match decode_session_key key with
      | None => inr (AdmissionData "invalid actor session key")
      | Some actor => if decide (0 < epoch)%N then inl (Some (actor, mkActorEpoch epoch))
                      else inr (AdmissionData "invalid actor epoch")
      end
  end.

Definition decode_record (entry : JournalKey * JournalRow) : AdmissionRecord + StoreError :=
  let '((operation, ordinal), row) := entry in
  let? _ := ensure (bool_decide (fits 32 ordinal)) (AdmissionData "member ordinal exceeds u32 range") in
  let? _ := ensure (bool_decide (fits 32 (jr_batch_size row))) (AdmissionData "batch size exceeds u32 range") in
  let? _ := ensure (bool_decide (jr_batch_size row <> 0)%N) (AdmissionData "batch size must be greater than zero") in
  let? _ := ensure (bool_decide (ordinal < jr_batch_size row)%N)
              (AdmissionData "member ordinal must be less than batch size") in
  let? _ := ensure (bool_decide (String.length (jr_fingerprint row) = 32))
              (AdmissionData "request fingerprint must contain 32 bytes") in
  match decode_session_key (jr_root row) with
  | None => inr (AdmissionData "invalid root session key")
  | Some root =>
      let? actor := decode_actor (jr_actor row) in
      let? _ := ensure (bool_decide (fits 32 (jr_units row))) (AdmissionData "admission units exceed u32 range") in
      inl (mkAdmissionRecord operation (jr_source row) root (jr_fingerprint row) ordinal (jr_batch_size row)
             (jr_state row) (jr_units row) actor (jr_released row) (jr_reason row) (jr_created_at row)
             (jr_updated_at row))
  end.

(** [UPDATE admission_journal SET .. WHERE .. RETURNING ..]: the changed rows, in no given order. *)
Definition update_journal (where_ : JournalKey -> JournalRow -> bool) (set_ : JournalRow -> JournalRow) :
    Tx (list (JournalKey * JournalRow)) := fun st =>
  let hit := filter (fun entry => where_ entry.1 entry.2 = true) (db_journal (tx_db st)) in
  (inl (map_to_list (set_ <$> hit)),
   st <| tx_db ::= fun db => db <| db_journal ::= fun rows => (set_ <$> hit) ∪ rows |> |>).

(** [WHERE operation_id = ? AND member_ordinal = 0 AND batch_size = 1] *)
Definition single_row (operation : OperationId) (db : Db) : option (JournalKey * JournalRow) :=
  row ← db_journal db !! (operation, 0%N);
  if decide (jr_batch_size row = 1)%N then Some ((operation, 0%N), row) else None.

Definition is_single (operation : OperationId) (key : JournalKey) (row : JournalRow) : bool :=
  bool_decide (key = (operation, 0%N)) && bool_decide (jr_batch_size row = 1)%N.

(** [(? IS NULL AND actor_id IS NULL) OR (actor_id = ? AND actor_epoch = ?)] *)
Definition bound_to (claim : option (string * N)) (row : JournalRow) : bool := bool_decide (jr_actor row = claim).

Definition actor_param (claim : option ActorClaim) : option (string * N) + StoreError :=
  try_option (fun claim =>
    let? epoch := epoch_param (ac_epoch claim) AdmissionData in
    inl (SessionId_storage_key (ac_actor_id claim), epoch)) claim.

Definition in_states (states : list AdmissionState.t) (row : JournalRow) : bool :=
  existsb (fun state => bool_decide (jr_state row = state)) states.
Definition is_started (row : JournalRow) : bool := in_states [AdmissionState.Started] row.

(** ** Claim, start, finalize *)

Definition matches_claim (record : AdmissionRecord) (claim : AdmissionClaim) : bool :=
  bool_decide (ad_operation record = am_operation claim)
  && bool_decide (ad_source record = am_source claim)
  && bool_decide (ad_root record = am_root claim)
  && bool_decide (ad_fingerprint record = am_fingerprint claim)
  && bool_decide (ad_units record = am_units claim)
  && bool_decide (ad_ordinal record = 0%N) && bool_decide (ad_batch_size record = 1%N)
  && bool_decide (ad_actor record = (fun actor => (ac_actor_id actor, ac_epoch actor)) <$> am_actor_claim claim).

(** [INSERT OR IGNORE]: a taken primary key, or a taken pair of tool call and ordinal, is ignored. *)
Definition insert_journal (key : JournalKey) (row : JournalRow) : Tx bool := fun st =>
  let rows := db_journal (tx_db st) in
  if bool_decide (is_Some (rows !! key))
     || existsb (fun entry => bool_decide ((jr_source entry.2, entry.1.2) = (jr_source row, key.2))) (map_to_list rows)
  then (inl false, st)
  else (inl true, st <| tx_db ::= fun db => db <| db_journal ::= <[key := row]> |> |>).

Definition claim_admission_tx (claim : AdmissionClaim) (now : Z) : Tx AdmissionClaimOutcome :=
  let^ _ := fence_optional (am_actor_claim claim) in
  let^ actor := tx_try (actor_param (am_actor_claim claim)) in
  let^ inserted := insert_journal (am_operation claim, 0%N)
    (mkJournalRow (am_source claim) (SessionId_storage_key (am_root claim)) (am_fingerprint claim) 1
       AdmissionState.Accepted (am_units claim) false None now now actor None) in
  let^ row := tx_read (single_row (am_operation claim)) in
  let^ record := tx_try (try_option decode_record row) in
  match record with
  | None => tx_fail (OperationIdConflict (am_operation claim))
  | Some record =>
      if matches_claim record claim
      then tx_ret (if (inserted : bool) then Claimed record else ClaimExisting record)
      else tx_fail (OperationIdConflict (am_operation claim))
  end.

Definition claim_admission (claim : AdmissionClaim) (now : Z) : StoreTask AdmissionClaimOutcome :=
  if decide (am_units claim = 0)%N
  then Ret (inr (AdmissionData "admission units must be greater than zero"))
  else call (Transact (transact (claim_admission_tx claim now))).

(** The record that is there after an update that matched nothing. *)
Definition existing_record (operation : OperationId) : Tx AdmissionRecord :=
  let^ row := tx_read (single_row operation) in
  let^ record := tx_try (try_option decode_record row) in
  match record with Some record => tx_ret record | None => tx_fail (AdmissionNotFound operation) end.

Definition start_admission_tx (operation : OperationId) (claim : option ActorClaim) (now : Z) :
    Tx AdmissionStartOutcome :=
  let^ _ := fence_optional claim in
  let^ actor := tx_try (actor_param claim) in
  let^ rows := update_journal
    (fun key row => is_single operation key row && in_states [AdmissionState.Accepted] row && bound_to actor row)
    (fun row => row <| jr_state := AdmissionState.Started |> <| jr_updated_at := now |>) in
  match rows with
  | entry :: _ => let^ record := tx_try (decode_record entry) in tx_ret (Started record)
  | [] => let^ record := existing_record operation in tx_ret (StartExisting record)
  end.

Definition start_admission (operation : OperationId) (claim : option ActorClaim) (now : Z) :
    StoreTask AdmissionStartOutcome :=
  call (Transact (transact (start_admission_tx operation claim now))).

(** [SET state = .., logical_released = CASE WHEN state = 'started' THEN 1 ELSE logical_released END, ..] *)
Definition terminalize (target : AdmissionState.t) (reason : string) (now : Z) (row : JournalRow) : JournalRow :=
  row <| jr_state := target |> <| jr_released := is_started row || jr_released row |>
      <| jr_reason := Some reason |> <| jr_updated_at := now |>.

Definition finalize_admission_tx (operation : OperationId) (terminal : AdmissionTerminal.t) (reason : string)
    (claim : option ActorClaim) (now : Z) : Tx AdmissionFinalizeOutcome :=
  let target := AdmissionTerminal.state terminal in
  let^ _ := fence_optional claim in
  let^ actor := tx_try (actor_param claim) in
  let^ rows := update_journal
    (fun key row => is_single operation key row
       && in_states [AdmissionState.Accepted; AdmissionState.Started] row
       && (bool_decide (target <> AdmissionState.Completed) || is_started row) && bound_to actor row)
    (terminalize target reason now) in
  match rows with
  | entry :: _ =>
      let^ record := tx_try (decode_record entry) in
      tx_ret (mkFinalizeOutcome record (ad_released record))
  | [] =>
      let^ record := existing_record operation in
      if decide (ad_state record = target) then tx_ret (mkFinalizeOutcome record false)
      else tx_fail (AdmissionTransitionConflict operation (AdmissionState.as_str (ad_state record))
                      (AdmissionState.as_str target))
  end.

Definition finalize_admission (operation : OperationId) (terminal : AdmissionTerminal.t) (reason : string)
    (claim : option ActorClaim) (now : Z) : StoreTask AdmissionFinalizeOutcome :=
  call (Transact (transact (finalize_admission_tx operation terminal reason claim now))).

(** ** Recovery and release *)

Definition is_bound (row : JournalRow) : bool := bool_decide (is_Some (jr_binding row)).

Definition recover_row (reason : string) (now : Z) (row : JournalRow) : JournalRow :=
  let requeue := in_states [AdmissionState.Accepted] row && is_bound row in
  row <| jr_state := if requeue then AdmissionState.Queued else AdmissionState.Aborted |>
      <| jr_released := is_started row |>
      <| jr_reason := if requeue then None else Some reason |>
      <| jr_updated_at := now |>.

(** The statement of [recover_nonterminal_admissions]. *)
Definition recover_admissions_tx (reason : string) (now : Z) : Tx (list (JournalKey * JournalRow)) :=
  update_journal
    (fun _ row => bool_decide (jr_actor row = None)
       && in_states [AdmissionState.Accepted; AdmissionState.Started; AdmissionState.Waiting] row)
    (recover_row reason now).

Definition recover_nonterminal_admissions (reason : string) (now : Z) : StoreTask (list AdmissionRecord) :=
  let! rows := call (Transact (recover_admissions_tx reason now)) in
  Ret (try_map decode_record rows).

(** The rows of the actor's epochs up to the fenced one. *)
Definition abort_recovered_in_transaction (recovered : RecoveredActorClaim) (reason : string) (now : Z) :
    Tx (list AdmissionRecord) :=
  let^ epoch := tx_try (epoch_param (rc_previous_epoch recovered) AdmissionData) in
  let key := SessionId_storage_key (ac_actor_id (rc_claim recovered)) in
  let^ rows := update_journal
    (fun _ row => match jr_actor row with
                  | Some (actor, e) => bool_decide (actor = key) && bool_decide (e <= epoch)%N
                  | None => false
                  end && in_states [AdmissionState.Accepted; AdmissionState.Started] row)
    (terminalize AdmissionState.Aborted reason now) in
  tx_try (try_map decode_record rows).

Definition abort_recovered_actor_admissions (recovered : RecoveredActorClaim) (reason : string) (now : Z) :
    StoreTask (list AdmissionRecord) :=
  call (Transact (transact (
    let^ _ := fence_actor_claim (rc_claim recovered) in
    abort_recovered_in_transaction recovered reason now))).

(** The rows bound to one incarnation of an actor. *)
Definition abort_bound (actor : string) (epoch : N) (reason : string) (now : Z) : Tx (list AdmissionRecord) :=
  let^ rows := update_journal
    (fun _ row => bound_to (Some (actor, epoch)) row
       && in_states [AdmissionState.Accepted; AdmissionState.Started] row)
    (terminalize AdmissionState.Aborted reason now) in
  tx_try (try_map decode_record rows).

(** [release_claim] ([resident_claim.rs]) *)
Definition release_claim_tx (claim : ActorClaim) (now : Z) : Tx (list AdmissionRecord) :=
  let key := SessionId_storage_key (ac_actor_id claim) in
  let^ current := tx_read (is_current claim) in
  if negb current then
    let^ row := tx_read (claim_row claim) in
    match row with
    | Some row => if decide (cl_state row = ClaimState.Released) then tx_ret []
                  else tx_fail (StaleActorClaim (ac_actor_id claim))
    | None => tx_fail (StaleActorClaim (ac_actor_id claim))
    end
  else
    let^ records := abort_bound key (epoch_get (ac_epoch claim)) "resident actor released" now in
    let^ _ := set_released claim in
    tx_ret records.

Definition release_claim (claim : ActorClaim) (now : Z) : StoreTask (list AdmissionRecord) :=
  let! _ := Ret (epoch_param (ac_epoch claim) ActorClaimData) in
  call (Transact (transact (release_claim_tx claim now))).

(** ** Queries *)

Definition admission (operation : OperationId) : StoreTask (option AdmissionRecord) :=
  let! row := call (Query (single_row operation)) in Ret (try_option decode_record row).

Definition by_ordinal (a b : JournalKey * JournalRow) : Prop := (a.1.2 <= b.1.2)%N.
#[global] Instance by_ordinal_dec a b : Decision (by_ordinal a b) := decide (_ <= _)%N.

Definition operation_rows (operation : OperationId) (db : Db) : list (JournalKey * JournalRow) :=
  merge_sort by_ordinal (filter (fun entry => entry.1.1 = operation) (map_to_list (db_journal db))).

Definition admissions (operation : OperationId) : StoreTask (list AdmissionRecord) :=
  let! rows := call (Query (operation_rows operation)) in Ret (try_map decode_record rows).

Definition count_states (states : list AdmissionState.t) (db : Db) : N :=
  N.of_nat (length (filter (fun entry => in_states states entry.2 = true) (map_to_list (db_journal db)))).

Definition counts_of (db : Db) : AdmissionCounts + StoreError :=
  let? active := let n := count_states [AdmissionState.Accepted; AdmissionState.Started] db in
    if decide (fits 32 n) then inl n else inr (AdmissionData "admission active count exceeds u32 range") in
  let? non_active := let n := count_states [AdmissionState.Queued; AdmissionState.Waiting] db in
    if decide (fits 32 n) then inl n else inr (AdmissionData "admission non-active count exceeds u32 range") in
  let? total := let n := count_states [AdmissionState.Queued; AdmissionState.Accepted; AdmissionState.Started;
                                       AdmissionState.Waiting] db in
    if decide (fits 32 n) then inl n else inr (AdmissionData "admission total count exceeds u32 range") in
  inl (mkAdmissionCounts active non_active total).

Definition admission_counts : StoreTask AdmissionCounts :=
  let! r := call (Query counts_of) in Ret r.

(** [HAVING COUNT( * ) = MAX(batch_size) AND .. AND MAX(logical_released) = 1] *)
Definition released_operation (rows : list (JournalKey * JournalRow)) : bool :=
  bool_decide (N.of_nat (length rows) = foldr N.max 0 ((fun entry => jr_batch_size entry.2) <$> rows))%N
  && forallb (fun entry => AdmissionState.is_terminal (jr_state entry.2)) rows
  && existsb (fun entry => jr_released entry.2) rows.

Record OperationGroup := mkOperationGroup { og_operation : OperationId; og_created : Z }.
Definition group_order (a b : OperationGroup) : Prop :=
  (og_created a < og_created b)%Z
  \/ (og_created a = og_created b
      /\ String.leb (uuid_as_bytes (operation_uuid (og_operation a))) (uuid_as_bytes (operation_uuid (og_operation b))) = true).
#[global] Instance group_order_dec a b : Decision (group_order a b).
Proof. unfold group_order. apply _. Defined.

Definition first_created (rows : list (JournalKey * JournalRow)) : option Z :=
  match rows with
  | [] => None
  | entry :: rows => Some (foldr Z.min (jr_created_at entry.2) ((fun entry => jr_created_at entry.2) <$> rows))
  end.

Definition released_operations (root : SessionId) (db : Db) : list OperationId :=
  let rows := filter (fun entry => jr_root entry.2 = SessionId_storage_key root) (map_to_list (db_journal db)) in
  let group operation := filter (fun entry => entry.1.1 = operation) rows in
  og_operation <$> merge_sort group_order (omap (fun operation =>
    if released_operation (group operation) then mkOperationGroup operation <$> first_created (group operation) else None)
    (remove_dups ((fun entry => entry.1.1) <$> rows))).

Definition terminal_released_operations_for_root (root : SessionId) : StoreTask (list OperationId) :=
  call (Query (released_operations root)).

Definition by_creation (a b : JournalKey * JournalRow) : Prop :=
  group_order (mkOperationGroup a.1.1 (jr_created_at a.2)) (mkOperationGroup b.1.1 (jr_created_at b.2)).
#[global] Instance by_creation_dec a b : Decision (by_creation a b) := group_order_dec _ _.

Definition nonterminal_admissions_for_root (root : SessionId) : StoreTask (list AdmissionRecord) :=
  let! rows := call (Query (fun db => merge_sort by_creation (filter (fun entry =>
      jr_root entry.2 = SessionId_storage_key root /\ jr_actor entry.2 = None
      /\ in_states [AdmissionState.Accepted; AdmissionState.Started] entry.2 = true)
    (map_to_list (db_journal db))))) in
  Ret (try_map decode_record rows).
End journal.
