(* ===== verification/WfAdmission.v ===== *)
(** * Admitting, selecting and recovering Workflow runs ([hya-store/src/workflow.rs])

    A run is admitted, and a selection changed, inside one writer transaction that folds the session's
    log first; at start-up every run another process left running is marked interrupted. *)

From S2P Require Import Prelude RustStr Text Platform Ids Scope Wire Workflow Usage Events Team Projection Result Effects StoreDb StoreTx Store Claims.

Section admission.
Context `{U : UuidLib} `{J : JsonLib} `{L : !StoreLib}.

Inductive WorkflowAdmissionOutcome :=
  | RunAdmitted (envelope : Envelope)
  | AdmissionExisting
  | AdmissionConflict
  | AdmissionBusy (run : WorkflowRunId).

Inductive WorkflowSelectionOutcome :=
  | Selected (envelope : Envelope)
  | SelectionBusy (run : WorkflowRunId).

Definition run_projection (projection : Projection) : option WorkflowRunProjection :=
  sp_workflow (p_session projection) ≫= wp_run.

(** [projection.session.workflow.run] when its status is [Running] *)
Definition active_run (projection : Projection) : option WorkflowRunProjection :=
  run ← run_projection projection;
  if decide (wr_status run = WorkflowRunStatus.Running) then Some run else None.

(** [replay_workflow_events] *)
Definition replay_workflow_events (session : SessionId) : Tx (list Envelope) :=
  let^ rows := tx_read (rows_of (SessionId_storage_key session)) in
  tx_try (try_map decode_row rows).

(** The hash of the run's start, when the log has one. *)
Definition existing_hash (run : WorkflowRunId) (events : list Envelope) : option string :=
  head (omap (fun envelope =>
    match env_event envelope with
    | Event.WorkflowRunStarted _ existing _ request_hash _ _ =>
        if decide (existing = run) then Some request_hash else None
    | _ => None
    end) events).

Definition admit_tx (claim : option ActorClaim) (session : SessionId) (event : Event.t)
    (run : WorkflowRunId) (request_hash : string) : Tx WorkflowAdmissionOutcome :=
  let^ _ := fence_optional claim in
  let^ events := replay_workflow_events session in
  match existing_hash run events with
  | Some hash => tx_ret (if decide (hash = request_hash) then AdmissionExisting else AdmissionConflict)
  | None =>
      match active_run (from_events events) with
      | Some active => tx_ret (AdmissionBusy (wr_id active))
      | None =>
          let^ envelope := append_event_in_transaction session event in
          tx_ret (RunAdmitted envelope)
      end
  end.

Definition admit_workflow_run (claim : option ActorClaim) (session : SessionId) (event : Event.t) :
    StoreTask WorkflowAdmissionOutcome :=
  match event with
  | Event.WorkflowRunStarted event_session run _ request_hash _ _ =>
      if decide (event_session = session)
      then call (Transact (transact (admit_tx claim session event run request_hash)))
      else Ret (inr (WorkflowData "run admission requires a matching WorkflowRunStarted event"))
  | _ => Ret (inr (WorkflowData "run admission requires a matching WorkflowRunStarted event"))
  end.

Definition select_tx (claim : option ActorClaim) (session : SessionId) (event : Event.t) :
    Tx WorkflowSelectionOutcome :=
  let^ _ := fence_optional claim in
  let^ projection := replay_projection session in
  match active_run projection with
  | Some active => tx_ret (SelectionBusy (wr_id active))
  | None =>
      let^ envelope := append_event_in_transaction session event in
      tx_ret (Selected envelope)
  end.

Definition select_workflow (claim : option ActorClaim) (session : SessionId) (event : Event.t) :
    StoreTask WorkflowSelectionOutcome :=
  match event with
  | Event.WorkflowSelected event_session _ =>
      if decide (event_session = session) then call (Transact (transact (select_tx claim session event)))
      else Ret (inr (WorkflowData "selection requires a matching WorkflowSelected event"))
  | _ => Ret (inr (WorkflowData "selection requires a matching WorkflowSelected event"))
  end.

(** [SELECT DISTINCT session_id .. ORDER BY session_id] over the rows of run starts *)
Definition started_keys (db : Db) : list string :=
  btree_keys (list_to_map ((fun row => (lr_session row, tt)) <$>
    filter (fun row => sql_run_started (lr_payload row) = true) (db_log db))).

(** One session of the recovery loop. *)
Definition recover_session (current_owner : OwnerRunId) (reason : string) (key : string) : Tx (option Envelope) :=
  match decode_session_key key with
  | None => tx_ret None
  | Some session =>
      let^ projection := replay_projection session in
      match run_projection projection with
      | None => tx_ret None
      | Some run =>
          if bool_decide (wr_status run <> WorkflowRunStatus.Running) || bool_decide (wr_owner run = current_owner)
          then tx_ret None
          else
            let^ envelope := append_event_in_transaction session
              (Event.WorkflowRunFinished session (wr_id run) WorkflowRunStatus.Interrupted
                 (Some (chars_take 2048 reason))) in
            tx_ret (Some envelope)
      end
  end.

Definition recover_workflows_tx (current_owner : OwnerRunId) (reason : string) : Tx (list Envelope) :=
  let^ keys := tx_read started_keys in
  let^ recovered := tx_map (recover_session current_owner reason) keys in
  tx_ret (omap id recovered).

Definition recover_nonterminal_workflows (current_owner : OwnerRunId) (reason : string) :
    StoreTask (list Envelope) :=
  let! _ := require_runtime_owner current_owner in
  call (Transact (transact (recover_workflows_tx current_owner reason))).
End admission.
