(* ===== verification/Recovery.v ===== *)
(** * Closing turns: crash recovery and handoff ([hya-store/src/{recovery,handoff}.rs])

    A turn that its process will not finish is closed in the log: every open tool part fails, every
    member the turn owns is cancelled, and every open assistant message is finished.  Crash recovery
    does so at start-up, a handoff before a restart; the handoff also queues one resume, which is
    acknowledged once. *)

From stdpp Require Import sorting.
From S2P Require Import Prelude RustStr Platform Ids Scope Wire Workflow Usage Events Team Projection Result Effects StoreDb StoreTx Store Claims WfAdmission.

Section recovery.
Context `{U : UuidLib} `{J : JsonLib} `{L : !StoreLib}.

Definition INTERRUPTED_REASON : string := "interrupted: the process stopped before this turn finished".
Definition HANDOFF_REASON : string :=
  "handed off: the runtime is restarting and a successor will resume this session".

Record InterruptedTurnRecovery := mkRecoveryReport { ir_sessions : nat; ir_messages : nat; ir_events : nat }.
#[global] Instance InterruptedTurnRecovery_eta : EtaRecord InterruptedTurnRecovery := fun r =>
  mkRecoveryReport (ir_sessions r) (ir_messages r) (ir_events r).

(** ** Open turns *)

(** [message.role == Role::Assistant && message.finish.is_none()] *)
Definition is_open_message (m : MessageProjection) : bool :=
  bool_decide (msg_role m = Role.Assistant) && bool_decide (msg_finish m = None).

(** The part and the call of a pending or running tool. *)
Definition open_tool (part : PartProjection) : option (PartId * ToolCallId) :=
  match part with
  | Tool id call _ (ToolPartState.Pending _) | Tool id call _ (ToolPartState.Running _) => Some (id, call)
  | _ => None
  end.

Definition open_tools (m : MessageProjection) : list (PartId * ToolCallId) := omap open_tool (msg_parts m).

Definition is_live_status (status : MemberRunStatus.t) : bool :=
  match status with MemberRunStatus.Spawning | MemberRunStatus.Running => true | _ => false end.

Definition open_calls (projection : Projection) : list ToolCallId :=
  (filter (fun m => is_open_message m = true) (sp_messages (p_session projection)) ≫= open_tools).*2.

(** [member.tool_call.is_none_or(|call| open_calls.contains(&call))] *)
Definition closes_member (calls : list ToolCallId) (member : MemberProjection) : bool :=
  is_live_status (mp_status member)
  && match mp_tool_call member with None => true | Some call => bool_decide (call ∈ calls) end.

Definition member_close_event (session : SessionId) (reason : string) (member : MemberProjection) : Event.t :=
  Event.MemberFinished session (mp_member member) MemberRunStatus.Cancelled reason (mp_child member).

Definition message_close_events (session : SessionId) (reason code : string) (cause : option FinishCause.t)
    (m : MessageProjection) : list Event.t :=
  if is_open_message m then
    ((fun tool => Event.ToolError session (msg_id m) tool.1 tool.2 reason (Some (code_value code))) <$> open_tools m)
    ++ [Event.MessageFinished session (msg_id m) Role.Assistant FinishReason.Cancelled None cause]
  else [].

Definition open_turn_terminal_events (session : SessionId) (projection : Projection) (reason code : string)
    (cause : option FinishCause.t) (close_members : bool) : list Event.t :=
  let calls := open_calls projection in
  (if close_members
   then member_close_event session reason <$>
          filter (fun member => closes_member calls member = true) (sp_members (p_session projection))
   else [])
  ++ (sp_messages (p_session projection) ≫= message_close_events session reason code cause).

(** [DELETE FROM open_assistant_message WHERE session_id = ?] *)
Definition clear_open (key : string) : Tx unit :=
  tx_write (fun db => db <| db_open ::= filter (fun row => row.1 <> key) |>).

(** ** Crash recovery *)

Definition cause_code (cause : FinishCause.t) : string :=
  match cause with
  | FinishCause.Interrupted => "INTERRUPTED"
  | FinishCause.Handoff => "HANDOFF"
  | _ => "CANCELLED"
  end.

Definition has_open_message (projection : Projection) : bool :=
  existsb is_open_message (sp_messages (p_session projection)).

Definition close_open_turns_tx (session : SessionId) (cause : FinishCause.t) (reason : string) : Tx (list Envelope) :=
  let^ projection := replay_projection session in
  let events := if has_open_message projection
                then open_turn_terminal_events session projection reason (cause_code cause) (Some cause) true
                else [] in
  let^ envelopes := tx_map (append_event_in_transaction session) events in
  let^ _ := clear_open (SessionId_storage_key session) in
  tx_ret envelopes.

Definition close_open_turns (session : SessionId) (cause : FinishCause.t) (reason : string) : StoreTask (list Envelope) :=
  let! _ := warm_projection session in
  call (Transact (transact (close_open_turns_tx session cause reason))).

Definition is_finish (envelope : Envelope) : bool :=
  match env_event envelope with Event.MessageFinished _ _ _ _ _ _ => true | _ => false end.

(** One key of the index. *)
Definition recover_key (report : InterruptedTurnRecovery) (key : string) : StoreTask InterruptedTurnRecovery :=
  match decode_session_key key with
  | None =>
      let! _ := call (Transact (clear_open key)) in
      Ret (inl report)
  | Some session =>
      let! envelopes := close_open_turns session FinishCause.Interrupted INTERRUPTED_REASON in
      let messages := length (filter (fun envelope => is_finish envelope = true) envelopes) in
      let report := if decide (0 < messages)
                    then report <| ir_sessions ::= S |> <| ir_messages ::= plus messages |> else report in
      Ret (inl (report <| ir_events ::= plus (length envelopes) |>))
  end.

Definition recover_interrupted_turns (owner : OwnerRunId) : StoreTask InterruptedTurnRecovery :=
  let! _ := require_runtime_owner owner in
  let! keys := call (Query (fun db => remove_dups (fst <$> elements (db_open db)))) in
  fold_task recover_key (mkRecoveryReport 0 0 0) keys.

(** ** Handoff *)

Record PendingResume := mkPendingResume {
  pr_id : ResumeId;
  pr_session : SessionId;
  pr_owner : OwnerRunId;
  pr_generation : N;
  pr_prompt : string;
  pr_created_at : Z;
}.
Record HandoffCheckpoint := mkHandoffCheckpoint { hc_resume : PendingResume; hc_envelopes : list Envelope }.
Record HandoffResumeStart := mkHandoffResumeStart { hs_resume : PendingResume; hs_envelope : Envelope }.

(** [WHERE session_id = ? AND taken_at IS NULL] *)
Definition live_resume (key : string) (row : ResumeRow) : bool :=
  bool_decide (rr_session_key row = key) && bool_decide (rr_taken row = None).

Definition has_open_tools (projection : Projection) : bool :=
  existsb (fun m => is_open_message m && bool_decide (open_tools m <> [])) (sp_messages (p_session projection)).

(** [INSERT INTO pending_resume]: the id is the primary key, and a unique index allows one live row
    of a session. *)
Definition insert_resume (row : ResumeRow) : Tx unit := fun st =>
  let rows := db_resumes (tx_db st) in
  if existsb (fun old => bool_decide (rr_id old = rr_id row)) rows || existsb (live_resume (rr_session_key row)) rows
  then (inr SeSqlite, st)
  else (inl tt, st <| tx_db ::= fun db => db <| db_resumes ::= fun rows => rows ++ [row] |> |>).

(** [resume] is the minted id, [now] the creation time. *)
Definition checkpoint_tx (session : SessionId) (owner : OwnerRunId) (generation : N) (prompt : string)
    (resume : ResumeId) (now : Z) : Tx HandoffCheckpoint :=
  let key := SessionId_storage_key session in
  let^ conflict := tx_read (fun db => existsb (live_resume key) (db_resumes db)) in
  if (conflict : bool) then tx_fail (ResumeAlreadyPending session) else
  let^ projection := replay_projection session in
  if has_open_tools projection then tx_fail (HandoffBoundaryUnsafe session) else
  let events := open_turn_terminal_events session projection HANDOFF_REASON "HANDOFF" (Some FinishCause.Handoff) false in
  let^ envelopes := tx_map (append_event_in_transaction session) events in
  let^ _ := if decide (envelopes = []) then tx_ret tt else clear_open key in
  let^ _ := insert_resume (mkResumeRow resume key owner generation prompt None now) in
  tx_ret (mkHandoffCheckpoint (mkPendingResume resume session owner generation prompt now) envelopes).

Definition checkpoint_for_handoff (session : SessionId) (owner : OwnerRunId) (generation : N) (prompt : string)
    (resume : ResumeId) (now : Z) : StoreTask HandoffCheckpoint :=
  let! _ := require_runtime_owner owner in
  if decide (MAX_ROWID < generation)%N then Ret (inr (ResumeData "generation exceeds i64")) else
  let! _ := warm_projection session in
  call (Transact (transact (checkpoint_tx session owner generation prompt resume now))).

Definition decode_pending_resume (row : ResumeRow) : PendingResume + StoreError :=
  match decode_session_key (rr_session_key row) with
  | None => inr (ResumeData "invalid session key")
  | Some session =>
      inl (mkPendingResume (rr_id row) session (rr_owner row) (rr_generation row) (rr_prompt row) (rr_created_at row))
  end.

(** [ORDER BY generation, created_at, id] *)
Definition resume_order (a b : ResumeRow) : Prop :=
  (rr_generation a < rr_generation b)%N
  \/ (rr_generation a = rr_generation b /\ (rr_created_at a < rr_created_at b)%Z)
  \/ (rr_generation a = rr_generation b /\ rr_created_at a = rr_created_at b
      /\ String.leb (uuid_hyphenated (as_uuid (rr_id a))) (uuid_hyphenated (as_uuid (rr_id b))) = true).
#[global] Instance resume_order_dec a b : Decision (resume_order a b).
Proof. unfold resume_order. apply _. Defined.

Definition first_live (key : string) (db : Db) : option ResumeRow :=
  head (merge_sort resume_order (filter (fun row => live_resume key row = true) (db_resumes db))).

Definition take_resume (resume : ResumeId) (owner : OwnerRunId) (now : Z) (db : Db) : Db :=
  db <| db_resumes ::= map (fun row => if decide (rr_id row = resume)
                                       then row <| rr_taken := Some (owner, now) |> else row) |>.

(** [UPDATE pending_resume SET taken_by = ?, taken_at = ? WHERE id = (SELECT ...) RETURNING ...] *)
Definition take_first_live (key : string) (owner : OwnerRunId) (now : Z) : Tx (option ResumeRow) := fun st =>
  match first_live key (tx_db st) with
  | None => (inl None, st)
  | Some row => (inl (Some row), st <| tx_db ::= take_resume (rr_id row) owner now |>)
  end.

Definition begin_handoff_tx (session : SessionId) (owner : OwnerRunId) (now : Z) : Tx (option HandoffResumeStart) :=
  let^ row := take_first_live (SessionId_storage_key session) owner now in
  match row with
  | None => tx_ret None
  | Some row =>
      let^ resume := tx_try (decode_pending_resume row) in
      let^ envelope := append_event_in_transaction session
        (Event.SessionStatus session (resume_value (uuid_hyphenated (as_uuid (pr_id resume))) (pr_generation resume))) in
      tx_ret (Some (mkHandoffResumeStart resume envelope))
  end.

Definition begin_handoff_resume (session : SessionId) (owner : OwnerRunId) (now : Z) :
    StoreTask (option HandoffResumeStart) :=
  let! _ := require_runtime_owner owner in
  call (Transact (transact (begin_handoff_tx session owner now))).

Definition list_pending_resumes : StoreTask (list PendingResume) :=
  let! rows := call (Query (fun db =>
    merge_sort resume_order (filter (fun row => rr_taken row = None) (db_resumes db)))) in
  Ret (try_map decode_pending_resume rows).

(** The sessions whose fold still shows a running Workflow. *)
Definition sessions_with_running_workflows : StoreTask (list SessionId) :=
  let! keys := call (Query started_keys) in
  fold_task (fun running session =>
    let! projection := read_projection session in
    Ret (inl (if decide (is_Some (active_run projection)) then running ++ [session] else running)))
    [] (omap decode_session_key keys).
End recovery.
