(* ===== verification/Mailbox.v ===== *)
(** * Mail gates and resident actors ([hya-store/src/mailbox.rs])

    Team mail is validated and appended under the writer lock, against the fold of the root's log as
    the lock holder sees it; a resident actor is recovered after a takeover, and stopped, in one
    transaction over its log, its parent's log, the root's log, the admission journal and its claim. *)

From S2P Require Import Prelude RustStr Platform Ids Scope Wire Workflow Usage Events Team Projection Result Effects StoreDb StoreTx Store Claims Journal WfAdmission Recovery.

Section mailbox.
Context `{U : UuidLib} `{J : JsonLib} `{L : !StoreLib}.

Inductive RecoveredResidentWork :=
  | WorkIdle
  | WorkQueued (inbox_cursor : N)
  | WorkAbortedRunning (inbox_cursor : N) (queued_after : bool).

Record RecoveredResidentOutcome := mkRecoveredResidentOutcome {
  ro_work : RecoveredResidentWork;
  ro_envelopes : list Envelope;
  ro_admissions : list AdmissionRecord;
}.

Definition quoted (name : string) : string := "`" +:+ name +:+ "`".

(** [Display] of [ChannelResolveError] *)
Definition ChannelResolveError_to_string (e : ChannelResolveError) : string :=
  match e with
  | InvalidName name => quoted name +:+ " is not a usable channel name (it must be non-empty and free of `/`, `#`, and surrounding spaces)"
  | Reserved => quoted ("#" +:+ ANNOUNCE_CHANNEL) +:+ " is reserved for one-way announcements; use the `announce` tool to post to your reports"
  | CaretWithoutReports => "`#^name` addresses your parent's unit and is only meaningful for an agent that leads a unit of its own; use `#name`"
  | NoHomeUnit => "the team root has no parent unit, so `#^name` has nothing to address"
  end.

(** ** Eligibility *)

Definition has_active_claim (actor : SessionId) (db : Db) : bool :=
  bool_decide (cl_state <$> db_claims db !! SessionId_storage_key actor = Some ClaimState.Active).

Definition resident_member_is_eligible (entry : RosterEntry) (db : Db) : bool :=
  match re_status entry with
  | RosterStatus.Done | RosterStatus.Failed => false
  | _ => has_active_claim (re_session entry) db
  end.

(** ** Direct mail *)

Definition out_of_scope (address : string) : StoreError :=
  MailboxRejected (quoted address +:+ " is not a teammate you can message; you may message your parent, your same-parent teammates, and the agents you lead — run `list_channel` to see them").

Definition direct_mail_tx (root : SessionId) (from address : string) (kind : MailKind.t) (body : string)
    (claim : option ActorClaim) : Tx Envelope :=
  let^ _ := fence_optional claim in
  let^ projection := replay_projection root in
  match resolve_in_scope (p_team projection) from address with
  | None => tx_fail (out_of_scope address)
  | Some handle =>
      match team_roster (p_team projection) !! handle with
      | None => tx_fail (MailboxRejected ("unknown mail target " +:+ quoted handle))
      | Some entry =>
          let^ eligible := tx_read (resident_member_is_eligible entry) in
          let is_root := bool_decide (re_session entry = root) in
          if negb is_root && bool_decide (re_mode entry = SubagentMode.Transient)
          then tx_fail (MailboxRejected ("mail target " +:+ quoted handle +:+ " is transient"))
          else if negb is_root && bool_decide (re_mode entry = SubagentMode.Resident) && negb eligible
          then tx_fail (MailboxRejected ("mail target " +:+ quoted handle +:+ " is stopped or terminal"))
          else append_event_in_transaction root
                 (Event.MailSent root from (MailEndpoint.Handle handle) kind body)
      end
  end.

Definition append_direct_mail (root : SessionId) (from address : string) (kind : MailKind.t) (body : string)
    (claim : option ActorClaim) : StoreTask Envelope :=
  call (Transact (transact (direct_mail_tx root from address kind body claim))).

Definition harness_mail_tx (root : SessionId) (handle body : string) : Tx Envelope :=
  let^ projection := replay_projection root in
  let handle := canonical_member (p_team projection) handle in
  match team_roster (p_team projection) !! handle with
  | None => tx_fail (MailboxRejected ("unknown mail target " +:+ quoted handle))
  | Some entry =>
      let^ eligible := tx_read (resident_member_is_eligible entry) in
      if bool_decide (re_session entry = root) || bool_decide (re_mode entry <> SubagentMode.Resident) || negb eligible
      then tx_fail (MailboxRejected ("mail target " +:+ quoted handle +:+ " is not a live resident member"))
      else append_event_in_transaction root
             (Event.MailSent root HARNESS_HANDLE (MailEndpoint.Handle handle) MailKind.Message body)
  end.

Definition append_harness_mail (root : SessionId) (handle body : string) : StoreTask Envelope :=
  call (Transact (transact (harness_mail_tx root handle body))).

(** ** Channel mail *)

(** The subscribers that count: only a resident that is down does not. *)
Definition counts_as_recipient (team : TeamProjection) (db : Db) (member : string) : bool :=
  match team_roster team !! member with
  | Some entry => if decide (re_mode entry = SubagentMode.Resident)
                  then resident_member_is_eligible entry db else true
  | None => true
  end.

Definition recipients (team : TeamProjection) (key : string) (db : Db) : nat :=
  match team_channels team !! key with
  | Some channel => size (filter (fun member => counts_as_recipient team db member = true) (ch_members channel))
  | None => 0
  end.

Definition append_resolved_channel_mail (root : SessionId) (from key : string) (kind : MailKind.t) (body : string)
    (projection : Projection) : Tx (Envelope * nat) :=
  let^ recipients := tx_read (recipients (p_team projection) key) in
  let^ envelope := append_event_in_transaction root
    (Event.MailSent root from (MailEndpoint.Channel key) kind body) in
  tx_ret (envelope, recipients).

Definition channel_mail_tx (root : SessionId) (from channel : string) (kind : MailKind.t) (body : string)
    (claim : option ActorClaim) : Tx (Envelope * nat) :=
  let^ _ := fence_optional claim in
  let^ projection := replay_projection root in
  match resolve_channel (p_team projection) from channel with
  | inr e => tx_fail (MailboxRejected (ChannelResolveError_to_string e))
  | inl key => append_resolved_channel_mail root from key kind body projection
  end.

Definition append_channel_mail (root : SessionId) (from channel : string) (kind : MailKind.t) (body : string)
    (claim : option ActorClaim) : StoreTask (Envelope * nat) :=
  call (Transact (transact (channel_mail_tx root from channel kind body claim))).

(** ** Residents *)

Definition append_resident_effects (actor : SessionId) (reason : string) : Tx (list Envelope) :=
  let^ projection := replay_projection actor in
  tx_map (append_event_in_transaction actor)
    (open_turn_terminal_events actor projection reason "STALE_ACTOR_CLAIM" None true).

Definition activity_failed (root : SessionId) (handle reason : string) : Event.t :=
  Event.AgentActivityChanged root handle RosterStatus.Failed (Some reason).

(** [messages.last().is_some_and(|message| message.role == Role::User)] *)
Definition pending_user_turn (projection : Projection) : bool :=
  match last (sp_messages (p_session projection)) with
  | Some m => bool_decide (msg_role m = Role.User)
  | None => false
  end.

Definition recover_resident_tx (recovered : RecoveredActorClaim) (root : SessionId) (handle : string) (now : Z) :
    Tx RecoveredResidentOutcome :=
  let actor := ac_actor_id (rc_claim recovered) in
  let mismatch := ActorClaimData "resident recovery roster mismatch" in
  let reason := "aborted by resident recovery" in
  let^ _ := fence_actor_claim (rc_claim recovered) in
  let^ projection := replay_projection root in
  let handle := canonical_member (p_team projection) handle in
  match team_roster (p_team projection) !! handle with
  | None => tx_fail mismatch
  | Some entry =>
      if bool_decide (re_session entry <> actor) || bool_decide (re_mode entry <> SubagentMode.Resident)
      then tx_fail mismatch else
      let^ admissions := abort_recovered_in_transaction recovered "resident actor takeover" now in
      let inbox_len := N.of_nat (length (default [] (team_inboxes (p_team projection) !! handle))) in
      match re_resident_work entry with
      | Some work =>
          if decide (epoch_get (rc_previous_epoch recovered) < epoch_get (rw_epoch work))%N
          then tx_fail (ActorClaimData "resident recovery work epoch mismatch") else
          let^ effects := append_resident_effects actor reason in
          let^ activity := append_event_in_transaction root (activity_failed root handle reason) in
          tx_ret (mkRecoveredResidentOutcome
            (WorkAbortedRunning (rw_inbox_through work) (bool_decide (rw_inbox_through work < inbox_len)%N))
            (effects ++ [activity]) admissions)
      | None =>
          let^ own := replay_projection actor in
          tx_ret (mkRecoveredResidentOutcome
            (if bool_decide (re_resident_cursor entry < inbox_len)%N
                || (pending_user_turn own && bool_decide (re_status entry = RosterStatus.Idle))
             then WorkQueued (re_resident_cursor entry) else WorkIdle)
            [] admissions)
      end
  end.

Definition recover_resident_actor (recovered : RecoveredActorClaim) (root : SessionId) (handle : string) (now : Z) :
    StoreTask RecoveredResidentOutcome :=
  let! _ := warm_projection root in
  let! _ := warm_projection (ac_actor_id (rc_claim recovered)) in
  call (Transact (transact (recover_resident_tx recovered root handle now))).

(** The actor's own open rows on its parent's log. *)
Definition close_parent_member_rows (actor : SessionId) (status : MemberRunStatus.t) (reason : string) :
    Tx (list Envelope) :=
  let^ own := replay_projection actor in
  match sp_parent (p_session own) with
  | None => tx_ret []
  | Some parent =>
      let^ projection := replay_projection parent in
      tx_map (fun row => append_event_in_transaction parent
                (Event.MemberFinished parent (mp_member row) status reason (Some actor)))
        (filter (fun row => (bool_decide (mp_child row = Some actor) && is_live_status (mp_status row)) = true)
           (sp_members (p_session projection)))
  end.

Definition released_resident_matches (claim : ActorClaim) (root : SessionId) (handle : string) : Tx bool :=
  let^ _ := tx_try (epoch_param (ac_epoch claim) ActorClaimData) in
  let^ row := tx_read (claim_row claim) in
  if decide (cl_state <$> row = Some ClaimState.Released) then
    let^ projection := replay_projection root in
    tx_ret (match team_roster (p_team projection) !! canonical_member (p_team projection) handle with
            | Some entry => bool_decide (re_session entry = ac_actor_id claim)
                            && bool_decide (re_mode entry = SubagentMode.Resident)
                            && bool_decide (re_status entry = RosterStatus.Failed)
            | None => false
            end)
  else tx_ret false.

Definition stop_resident_tx (claim : ActorClaim) (root : SessionId) (handle reason : string)
    (member_status : MemberRunStatus.t) (now : Z) : Tx (list Envelope * list AdmissionRecord) :=
  let actor := ac_actor_id claim in
  let^ projection := replay_projection root in
  let handle := canonical_member (p_team projection) handle in
  match team_roster (p_team projection) !! handle with
  | None => tx_fail (ActorClaimData "resident stop handle is not registered")
  | Some entry =>
      if bool_decide (re_session entry <> actor) || bool_decide (re_mode entry <> SubagentMode.Resident)
      then tx_fail (ActorClaimData "resident stop handle does not match actor claim") else
      let^ effects := append_resident_effects actor reason in
      let^ closed := close_parent_member_rows actor member_status reason in
      let^ epoch := tx_try (epoch_param (ac_epoch claim) ActorClaimData) in
      let^ admissions := abort_bound (SessionId_storage_key actor) epoch reason now in
      let^ activity := append_event_in_transaction root (activity_failed root handle reason) in
      let^ released := set_released claim in
      if (released : bool) then tx_ret (effects ++ closed ++ [activity], admissions)
      else tx_fail (StaleActorClaim actor)
  end.

Definition finalize_resident_tx (claim : ActorClaim) (root : SessionId) (handle reason : string)
    (member_status : MemberRunStatus.t) (now : Z) : Tx (list Envelope * list AdmissionRecord) := fun st =>
  match fence_actor_claim claim st with
  | (inl _, st) => stop_resident_tx claim root handle reason member_status now st
  | (inr error, st) =>
      if decide (error = StaleActorClaim (ac_actor_id claim)) then
        (let^ matches := released_resident_matches claim root handle in
         if (matches : bool) then tx_ret ([], []) else tx_fail error) st
      else (inr error, st)
  end.

Definition finalize_resident_with_reason (claim : ActorClaim) (root : SessionId) (handle reason : string)
    (member_status : MemberRunStatus.t) (now : Z) : StoreTask (list Envelope * list AdmissionRecord) :=
  call (Transact (transact (finalize_resident_tx claim root handle reason member_status now))).

Definition finalize_resident_stop (claim : ActorClaim) (root : SessionId) (handle : string) (now : Z) :
    StoreTask (list Envelope * list AdmissionRecord) :=
  finalize_resident_with_reason claim root handle "resident stopped" MemberRunStatus.Cancelled now.

Definition finalize_resident_failure (claim : ActorClaim) (root : SessionId) (handle reason : string) (now : Z) :
    StoreTask (list Envelope * list AdmissionRecord) :=
  finalize_resident_with_reason claim root handle reason MemberRunStatus.Failed now.
End mailbox.
