(* ===== verification/StoreBuilt.v ===== *)
(** * What the transactions of the store are built from

    Every writer transaction of [Store], [Claims], [Journal], [WfAdmission], [Recovery] and [Mailbox]
    is a program over a dozen kinds of writes: [Built].  A relation between tables that allows these
    writes ([StoreRel]) therefore relates the tables before and after every transaction. *)

From S2P Require Import Prelude RustStr Platform Ids Scope Wire Workflow Usage Events Team Projection Result Effects StoreDb StoreTx Store Claims Journal WfAdmission Recovery Mailbox.

Section built.
Context `{U : UuidLib} `{J : JsonLib} `{L : !StoreLib}.
Implicit Types (db : Db) (st : TxState).

(** ** The moves of an admission row *)

Record same_admission (row row' : JournalRow) : Prop := {
  sa_source : jr_source row' = jr_source row;
  sa_root : jr_root row' = jr_root row;
  sa_fingerprint : jr_fingerprint row' = jr_fingerprint row;
  sa_batch : jr_batch_size row' = jr_batch_size row;
  sa_units : jr_units row' = jr_units row;
  sa_created : jr_created_at row' = jr_created_at row;
  sa_actor : jr_actor row' = jr_actor row;
  sa_binding : jr_binding row' = jr_binding row;
}.

Inductive admission_move (row row' : JournalRow) : Prop :=
  | move_start :
      jr_state row = AdmissionState.Accepted -> jr_state row' = AdmissionState.Started ->
      jr_released row' = jr_released row -> admission_move row row'
  | move_end :
      jr_state row = AdmissionState.Accepted \/ jr_state row = AdmissionState.Started ->
      AdmissionState.is_terminal (jr_state row') = true ->
      (jr_state row' = AdmissionState.Completed -> jr_state row = AdmissionState.Started) ->
      jr_released row' = is_started row || jr_released row -> admission_move row row'
  | move_recover :
      jr_state row = AdmissionState.Accepted \/ jr_state row = AdmissionState.Started
        \/ jr_state row = AdmissionState.Waiting ->
      jr_state row' = AdmissionState.Aborted -> jr_released row' = is_started row -> admission_move row row'
  | move_requeue :
      jr_state row = AdmissionState.Accepted -> is_bound row = true -> jr_state row' = AdmissionState.Queued ->
      jr_released row' = false -> admission_move row row'.

Definition journal_step (row row' : JournalRow) : Prop := same_admission row row' /\ admission_move row row'.

(** ** Programs *)

(** Writes to tables nothing below speaks of. *)
Record same_core db db' : Prop := {
  sc_log : db_log db' = db_log db;
  sc_last : db_last_seq db' = db_last_seq db;
  sc_snapshots : db_snapshots db' = db_snapshots db;
  sc_claims : db_claims db' = db_claims db;
  sc_journal : db_journal db' = db_journal db;
  sc_resumes : db_resumes db' = db_resumes db;
}.

(** A payload the store wrote for an event. *)
Definition written (payload : string) : Prop := exists event, event_to_string event = Some payload.

Inductive Built : forall A, Tx A -> Prop :=
  | built_ret A (a : A) : Built A (tx_ret a)
  | built_fail A e : Built A (tx_fail e)
  | built_read A (f : Db -> A) : Built A (tx_read f)
  | built_cache session : Built _ (tx_cache_get session)
  | built_bind A B (t : Tx A) (f : A -> Tx B) :
      Built A t -> (forall a, (exists st st', t st = (inl a, st')) -> Built B (f a)) -> Built B (tx_bind t f)
  | built_transact A (t : Tx A) : Built A t -> Built A (transact t)
  | built_catch A B (t : Tx A) (f : A -> Tx B) (g : StoreError -> Tx B) (t' : Tx B) :
      Built A t -> (forall a, Built B (f a)) -> (forall e, Built B (g e)) ->
      (forall st, t' st = match t st with (inl a, st) => f a st | (inr e, st) => g e st end) -> Built B t'
  | built_aside f : (forall db, same_core db (f db)) -> Built unit (tx_write f)
  | built_session id row : Built unit (insert_session id row)
  | built_log session payload : written payload -> Built _ (insert_log session payload)
  | built_drop_log key :
      Built unit (tx_write (fun db => db <| db_log ::= filter (fun row => lr_session row <> key) |>))
  | built_drop_keys keys : Built unit (tx_write (fun db => foldr delete_key db keys))
  | built_claim_new actor owner : Built _ (try_claim_new_tx actor owner)
  | built_claim_recover actor owner : Built _ (recover_claim_tx actor owner)
  | built_claim_release claim : Built _ (set_released claim)
  | built_journal_insert key row :
      jr_state row = AdmissionState.Accepted -> jr_released row = false -> Built _ (insert_journal key row)
  | built_journal_update where_ set_ :
      (forall key row, where_ key row = true -> journal_step row (set_ row)) -> Built _ (update_journal where_ set_)
  | built_resume_add row :
      rr_taken row = None -> Built unit (insert_resume row)
  | built_resume_take key owner now : Built _ (take_first_live key owner now).

Lemma alter_as_insert {A} (m : gmap string A) k x f : m !! k = Some x -> alter f k m = <[k := f x]> m.
Proof.
  intros Hm. apply map_eq. intros i. destruct (decide (i = k)) as [->|Hne].
  - by rewrite lookup_alter_eq, lookup_insert_eq, Hm.
  - by rewrite lookup_alter_ne, lookup_insert_ne.
Qed.

(** ** Steps of a program that succeeded *)

Lemma tx_try_ok {A} (r : A + StoreError) st a st' : tx_try r st = (inl a, st') -> r = inl a /\ st' = st.
Proof. destruct r; [by intros [= <- <-]|done]. Qed.

Lemma tx_bind_ok {A B} (t : Tx A) (f : A -> Tx B) st b st' :
  tx_bind t f st = (inl b, st') -> exists a st1, t st = (inl a, st1) /\ f a st1 = (inl b, st').
Proof. unfold tx_bind. destruct (t st) as [[a|e] st1]; [|done]. eauto. Qed.

(** ** Relations that allow every write *)

Class StoreRel (R : Db -> Db -> Prop) : Prop := {
  #[global] sr_preorder :: PreOrder R;
  sr_aside : forall db db', same_core db db' -> R db db';
  sr_log : forall db row, lr_seq row = (db_last_seq db + 1)%N -> (lr_seq row <= MAX_ROWID)%N -> written (lr_payload row) ->
    R db (db <| db_log ::= fun log => log ++ [row] |> <| db_last_seq := lr_seq row |>);
  sr_drop_log : forall db key, R db (db <| db_log ::= filter (fun row => lr_session row <> key) |>);
  sr_drop_key : forall db key, R db (delete_key key db);
  (** a claim row is written with a larger epoch, or released *)
  sr_claim : forall db key row,
    (match db_claims db !! key with
     | None => cl_epoch row = 1%N
     | Some old => cl_epoch row = (cl_epoch old + 1)%N
                   \/ cl_epoch row = cl_epoch old /\ cl_owner row = cl_owner old /\ cl_state row = ClaimState.Released
     end) -> R db (db <| db_claims ::= <[key := row]> |>);
  sr_journal_insert : forall db key row, db_journal db !! key = None ->
    jr_state row = AdmissionState.Accepted -> jr_released row = false -> R db (db <| db_journal ::= <[key := row]> |>);
  sr_journal_update : forall db rows,
    (forall key row', rows !! key = Some row' -> exists row, db_journal db !! key = Some row /\ journal_step row row') ->
    R db (db <| db_journal ::= fun old => rows ∪ old |>);
  (** a pending resume is added when its id is new and its session has none that is live *)
  sr_resume_add : forall db row, rr_taken row = None ->
    Forall (fun old => rr_id old <> rr_id row /\ live_resume (rr_session_key row) old = false) (db_resumes db) ->
    R db (db <| db_resumes ::= fun rows => rows ++ [row] |>);
  (** and taken while it is live *)
  sr_resume_take : forall db key row owner now, first_live key db = Some row -> R db (take_resume (rr_id row) owner now db);
}.

Context (R : Db -> Db -> Prop) `{!StoreRel R}.

Lemma rel_insert_session id row st : R (tx_db st) (tx_db (insert_session id row st).2).
Proof.
  unfold insert_session. destruct (db_sessions _ !! id); [done|].
  destruct (match sr_parent_id row with None => true | Some _ => _ end); [|done]. by apply sr_aside.
Qed.

Lemma rel_insert_log session payload st : written payload -> R (tx_db st) (tx_db (insert_log session payload st).2).
Proof. intros Hw. unfold insert_log. case_decide; [|done]. simpl. by apply (sr_log _ (mkLogRow _ _ _ _)). Qed.

Lemma rel_claims actor owner claim st :
  R (tx_db st) (tx_db (try_claim_new_tx actor owner st).2)
  /\ R (tx_db st) (tx_db (recover_claim_tx actor owner st).2)
  /\ R (tx_db st) (tx_db (set_released claim st).2).
Proof.
  unfold try_claim_new_tx, recover_claim_tx, set_released. split_and!.
  - destruct (db_claims _ !! _) as [row|] eqn:E.
    + destruct (_ && _); [|done]. apply sr_claim. rewrite E. by left.
    + apply sr_claim. by rewrite E.
  - destruct (db_claims _ !! _) as [row|] eqn:E; [|done]. destruct (_ && _); [|done].
    apply sr_claim. rewrite E. by left.
  - destruct (is_current _ _) eqn:E; [|done]. unfold is_current, claim_row in E. simpl.
    destruct (db_claims (tx_db st) !! _) as [row|] eqn:Er; [|done]. simpl.
    erewrite (alter_as_insert (db_claims (tx_db st))) by exact Er. apply sr_claim. rewrite Er. by right.
Qed.

Lemma rel_insert_resume row st : rr_taken row = None -> R (tx_db st) (tx_db (insert_resume row st).2).
Proof.
  intros Hrow. unfold insert_resume. destruct (_ || _) eqn:E; [done|]. apply orb_false_iff in E as [Hid Hlive]. simpl.
  apply sr_resume_add; [done|]. apply Forall_forall. intros old Hold. split.
  - intros Heq. apply not_true_iff_false in Hid. apply Hid, existsb_exists. exists old. split; [by apply list_elem_of_In|by apply bool_decide_eq_true].
  - apply not_true_iff_false. intros Hl. apply not_true_iff_false in Hlive. apply Hlive, existsb_exists. exists old. split; [by apply list_elem_of_In|done].
Qed.

Lemma built_rel A (t : Tx A) : Built A t -> forall st, R (tx_db st) (tx_db (t st).2).
Proof.
  induction 1 as [A a|A e|A f|session|A B t f _ IHt _ IHf|A t _ IH|A B t f g t' _ IHt _ IHf _ IHg Ht'|f Hf|id row
    |session payload Hw|key|keys|actor owner|actor owner|claim|key row Hs Hr|where_ set_ Hset|row Hrow|key owner now]; intros st;
    simpl; try done.
  - unfold tx_cache_get. by destruct (cache_get _ _).
  - unfold tx_bind. specialize (IHt st). destruct (t st) as [[a|e] st'] eqn:Et; [|done]. etrans; [exact IHt|apply IHf; by eexists _, _].
  - specialize (IH st). unfold transact. by destruct (t st) as [[a|e] st'].
  - rewrite Ht'. specialize (IHt st). destruct (t st) as [[a|e] st']; (etrans; [exact IHt|]); [apply IHf|apply IHg].
  - apply sr_aside, Hf.
  - apply rel_insert_session.
  - by apply rel_insert_log.
  - apply sr_drop_log.
  - induction keys as [|k keys IH]; simpl; [done|]. etrans; [exact IH|apply sr_drop_key].
  - by apply (rel_claims actor owner (mkActorClaim actor (mkActorEpoch 1) owner)).
  - by apply (rel_claims actor owner (mkActorClaim actor (mkActorEpoch 1) owner)).
  - by apply (rel_claims (ac_actor_id claim) (ac_owner_run_id claim) claim).
  - unfold insert_journal. destruct (bool_decide _) eqn:E; [done|]. simpl. destruct (existsb _ _); [done|]. simpl.
    apply bool_decide_eq_false in E. apply sr_journal_insert; [by apply eq_None_not_Some|done..].
  - apply sr_journal_update. intros key row' (row & <- & [Hrow Hw]%map_lookup_filter_Some)%lookup_fmap_Some.
    exists row. split; [done|]. eapply Hset, Hw.
  - by apply rel_insert_resume.
  - unfold take_first_live. destruct (first_live key (tx_db st)) eqn:E; [|done]. by eapply sr_resume_take.
Qed.
End built.

(** ** The transactions *)

Arguments Built {U J L A} t.

Section derived.
Context `{U : UuidLib} `{J : JsonLib} `{L : !StoreLib}.

Lemma built_try {A} (r : A + StoreError) : Built (tx_try r).
Proof. destruct r; constructor. Qed.

Lemma built_conn_try {A} (r : A + StoreError) : Built (conn_try (M := Tx) r).
Proof. destruct r; [apply built_ret|apply built_fail]. Qed.

Lemma built_map {A B} (f : A -> Tx B) xs : (forall x, Built (f x)) -> Built (tx_map f xs).
Proof.
  intros Hf. induction xs as [|x xs IH]; simpl; [apply built_ret|]. apply built_bind; [done|intros y _].
  apply built_bind; [done|intros ys _; apply built_ret].
Qed.
End derived.

Create HintDb built discriminated.
#[export] Hint Resolve built_ret built_fail built_read built_cache built_try built_conn_try built_session built_drop_log built_drop_keys built_claim_new built_claim_recover built_claim_release built_resume_take : built.
#[export] Hint Extern 3 (Built (tx_write _)) => apply built_aside; intros; split; reflexivity : built.

(** Walks through a program. *)
Ltac built_step :=
  match goal with
  | |- Built (tx_bind _ _) => apply built_bind; [|intros ? _]
  | |- Built (conn_bind _ _) => apply built_bind; [|intros ? _]
  | |- Built (conn_read _) => apply built_read
  | |- Built (conn_ret _) => apply built_ret
  | |- Built (tx_map _ _) => apply built_map; intros ?
  | |- Built (transact _) => apply built_transact
  | |- Built (match ?x with _ => _ end) => destruct x
  | |- Built _ => solve [eauto with built]
  end.
Ltac solve_built := repeat built_step.

Section transactions.
Context `{U : UuidLib} `{J : JsonLib} `{L : !StoreLib}.

(** *** The log *)

Lemma ensure_session_stub_built session hint ts : Built (ensure_session_stub session hint ts).
Proof. apply built_session. Qed.
Hint Resolve ensure_session_stub_built : built.

Lemma ensure_team_run_built root ts : Built (ensure_team_run root ts).
Proof. unfold ensure_team_run. solve_built. Qed.
Hint Resolve ensure_team_run_built : built.

Lemma materialize_built root event ts : Built (materialize_event_side_tables root event ts).
Proof. unfold materialize_event_side_tables. solve_built. Qed.
Hint Resolve materialize_built : built.

Lemma append_built session event : Built (append_event_in_transaction session event).
Proof.
  unfold append_event_in_transaction. apply built_bind; [solve_built|intros payload (st & st' & [Hj _]%tx_try_ok)].
  unfold json_event in Hj. destruct (event_to_string event) eqn:E; [|done]. injection Hj as ->.
  apply built_bind; [apply built_log; by exists event|intros [seq ts] _]. solve_built.
Qed.
Hint Resolve append_built : built.

Lemma append_tx_built session event : Built (append_event_tx session event).
Proof. unfold append_event_tx. solve_built. Qed.

Lemma replay_projection_built session : Built (replay_projection session).
Proof. unfold replay_projection, transaction_base, load_snapshot, fold, fold_full. solve_built. Qed.
Hint Resolve replay_projection_built : built.

Lemma delete_session_built session n : Built (delete_session_tx session n).
Proof. unfold delete_session_tx. solve_built. Qed.

(** *** Claims and the journal *)

Lemma fence_built claim : Built (fence_actor_claim claim).
Proof. unfold fence_actor_claim. solve_built. Qed.
Hint Resolve fence_built : built.

Lemma fence_optional_built claim : Built (fence_optional claim).
Proof. unfold fence_optional. solve_built. Qed.
Hint Resolve fence_optional_built : built.

Lemma commit_resident_built claim session events : Built (commit_resident_mutation_tx claim session events).
Proof. unfold commit_resident_mutation_tx. solve_built. Qed.

Lemma existing_record_built operation : Built (existing_record operation).
Proof. unfold existing_record. solve_built. Qed.
Hint Resolve existing_record_built : built.

Lemma in_states_spec states row : in_states states row = true <-> jr_state row ∈ states.
Proof.
  unfold in_states. rewrite existsb_exists. setoid_rewrite bool_decide_eq_true. split.
  - intros (state & Hin & ->). by apply list_elem_of_In.
  - intros Hin. exists (jr_state row). split; [by apply list_elem_of_In|done].
Qed.

Lemma terminalize_step target reason now row :
  in_states [AdmissionState.Accepted; AdmissionState.Started] row = true -> AdmissionState.is_terminal target = true ->
  (target = AdmissionState.Completed -> is_started row = true) -> journal_step row (terminalize target reason now row).
Proof.
  intros Hs%in_states_spec Ht Hc. split; [done|]. apply move_end; simpl; [|done| |done].
  - apply elem_of_cons in Hs as [?|?%list_elem_of_singleton]; auto.
  - intros Hd%Hc. unfold is_started in Hd. by apply in_states_spec, list_elem_of_singleton in Hd.
Qed.

Lemma start_built operation actor now :
  Built (update_journal
    (fun key row => is_single operation key row && in_states [AdmissionState.Accepted] row && bound_to actor row)
    (fun row => row <| jr_state := AdmissionState.Started |> <| jr_updated_at := now |>)).
Proof.
  apply built_journal_update. intros key row [[_ Hs]%andb_prop _]%andb_prop. apply in_states_spec, list_elem_of_singleton in Hs.
  split; [done|]. by apply move_start.
Qed.

Lemma recover_admissions_built reason now : Built (recover_admissions_tx reason now).
Proof.
  apply built_journal_update. intros key row [_ Hs%in_states_spec]%andb_prop. split; [done|]. unfold recover_row.
  destruct (in_states [AdmissionState.Accepted] row && is_bound row) eqn:E.
  - apply andb_prop in E as [Ha%in_states_spec Hb]. apply list_elem_of_singleton in Ha. apply move_requeue; simpl; [done..|].
    unfold is_started. apply not_true_is_false. intros Hst%in_states_spec%list_elem_of_singleton. congruence.
  - apply move_recover; simpl; [|done..]. set_solver.
Qed.

Lemma abort_rows_built where_ reason now :
  Built (update_journal
    (fun key row => where_ key row && in_states [AdmissionState.Accepted; AdmissionState.Started] row)
    (terminalize AdmissionState.Aborted reason now)).
Proof. apply built_journal_update. intros key row [_ Hs]%andb_prop. by apply terminalize_step. Qed.

Lemma finish_rows_built operation target actor reason now :
  Built (update_journal
    (fun key row => is_single operation key row
       && in_states [AdmissionState.Accepted; AdmissionState.Started] row
       && (bool_decide (AdmissionTerminal.state target <> AdmissionState.Completed) || is_started row) && bound_to actor row)
    (terminalize (AdmissionTerminal.state target) reason now)).
Proof.
  apply built_journal_update. intros key row [[[_ Hs]%andb_prop Hc]%andb_prop _]%andb_prop.
  apply terminalize_step; [done|by destruct target|]. intros Heq. apply orb_prop in Hc as [Hc%bool_decide_eq_true|Hc]; done.
Qed.

Lemma insert_admission_built key source root fingerprint units now actor :
  Built (insert_journal key (mkJournalRow source root fingerprint 1 AdmissionState.Accepted units false None now now actor None)).
Proof. by apply built_journal_insert. Qed.

Lemma resume_added_built resume key owner generation prompt now :
  Built (insert_resume (mkResumeRow resume key owner generation prompt None now)).
Proof. by apply built_resume_add. Qed.
Hint Resolve start_built finish_rows_built insert_admission_built resume_added_built : built.

Lemma claim_admission_built claim now : Built (claim_admission_tx claim now).
Proof. unfold claim_admission_tx. solve_built. Qed.

Lemma start_admission_built operation claim now : Built (start_admission_tx operation claim now).
Proof. unfold start_admission_tx. solve_built. Qed.

Lemma finalize_admission_built operation terminal reason claim now :
  Built (finalize_admission_tx operation terminal reason claim now).
Proof. unfold finalize_admission_tx. solve_built. Qed.

Lemma abort_recovered_built recovered reason now : Built (abort_recovered_in_transaction recovered reason now).
Proof. unfold abort_recovered_in_transaction. solve_built. apply (abort_rows_built (fun _ row => _)). Qed.
Hint Resolve abort_recovered_built : built.

Lemma abort_bound_built actor epoch reason now : Built (abort_bound actor epoch reason now).
Proof. unfold abort_bound. solve_built. apply (abort_rows_built (fun _ row => _)). Qed.
Hint Resolve abort_bound_built : built.

Lemma release_claim_built claim now : Built (release_claim_tx claim now).
Proof. unfold release_claim_tx. solve_built. Qed.

(** *** Workflow runs *)

Lemma admit_built claim session event run hash : Built (admit_tx claim session event run hash).
Proof. unfold admit_tx, replay_workflow_events. solve_built. Qed.

Lemma select_built claim session event : Built (select_tx claim session event).
Proof. unfold select_tx. solve_built. Qed.

Lemma recover_workflows_built owner reason : Built (recover_workflows_tx owner reason).
Proof. unfold recover_workflows_tx, recover_session. solve_built. Qed.

(** *** Turns and handoff *)

Lemma clear_open_built key : Built (clear_open key).
Proof. unfold clear_open. solve_built. Qed.
Hint Resolve clear_open_built : built.

Lemma close_open_turns_built session cause reason : Built (close_open_turns_tx session cause reason).
Proof. unfold close_open_turns_tx. solve_built. Qed.

Lemma checkpoint_built session owner generation prompt resume now :
  Built (checkpoint_tx session owner generation prompt resume now).
Proof. unfold checkpoint_tx. solve_built. Qed.

Lemma begin_handoff_built session owner now : Built (begin_handoff_tx session owner now).
Proof. unfold begin_handoff_tx. solve_built. Qed.

(** *** Mail and residents *)

Lemma direct_mail_built root from address kind body claim : Built (direct_mail_tx root from address kind body claim).
Proof. unfold direct_mail_tx. solve_built. Qed.

Lemma harness_mail_built root handle body : Built (harness_mail_tx root handle body).
Proof. unfold harness_mail_tx. solve_built. Qed.

Lemma channel_mail_built root from channel kind body claim : Built (channel_mail_tx root from channel kind body claim).
Proof. unfold channel_mail_tx, append_resolved_channel_mail. solve_built. Qed.

Lemma resident_effects_built actor reason : Built (append_resident_effects actor reason).
Proof. unfold append_resident_effects. solve_built. Qed.
Hint Resolve resident_effects_built : built.

Lemma recover_resident_built recovered root handle now : Built (recover_resident_tx recovered root handle now).
Proof. unfold recover_resident_tx. solve_built. Qed.

Lemma close_member_rows_built actor status reason : Built (close_parent_member_rows actor status reason).
Proof. unfold close_parent_member_rows. solve_built. Qed.
Hint Resolve close_member_rows_built : built.

Lemma released_matches_built claim root handle : Built (released_resident_matches claim root handle).
Proof. unfold released_resident_matches. solve_built. Qed.
Hint Resolve released_matches_built : built.

Lemma stop_resident_built claim root handle reason status now :
  Built (stop_resident_tx claim root handle reason status now).
Proof. unfold stop_resident_tx. solve_built. Qed.

Lemma finalize_resident_built claim root handle reason status now :
  Built (finalize_resident_tx claim root handle reason status now).
Proof.
  eapply (built_catch _ _ (fence_actor_claim claim) (fun _ => stop_resident_tx claim root handle reason status now)
    (fun e => if decide (e = StaleActorClaim (ac_actor_id claim)) then
       let^ matches := released_resident_matches claim root handle in
       if (matches : bool) then tx_ret ([], []) else tx_fail e
     else tx_fail e)); [solve_built|intros _; apply stop_resident_built|intros e; solve_built|].
  intros st. unfold finalize_resident_tx. destruct (fence_actor_claim claim st) as [[u|e] st']; [done|]. by case_decide.
Qed.
End transactions.

#[export] Hint Resolve recover_admissions_built ensure_session_stub_built ensure_team_run_built materialize_built append_built append_tx_built replay_projection_built delete_session_built fence_built fence_optional_built commit_resident_built existing_record_built start_built finish_rows_built insert_admission_built resume_added_built claim_admission_built start_admission_built finalize_admission_built abort_recovered_built abort_bound_built release_claim_built admit_built select_built recover_workflows_built clear_open_built close_open_turns_built checkpoint_built begin_handoff_built direct_mail_built harness_mail_built channel_mail_built resident_effects_built recover_resident_built close_member_rows_built released_matches_built stop_resident_built finalize_resident_built : built.
