(* ===== verification/Concurrent.v ===== *)
(** * Pools of tasks over a shared world

    Tasks run side by side; between two calls of one task the others take any number of steps, a new
    task may start at any time, and a restart drops all tasks and changes the world by [restart].
    [safe] is a rely-guarantee logic for one task of such a pool: what others do is within [R] and
    keeps [I], and every call of the task does the same.  [K] is assumed of every world of the run. *)

From S2P Require Import Prelude Result Effects.

Section pool.
Context {E : Type -> Type} {W : Type} (step : forall X, E X -> W -> X -> W -> Prop) (restart : W -> W -> Prop).
Context {Op A : Type} (run : Op -> Task E A).

(** ** Execution *)

Definition thread_step {B} (t : Task E B) (w : W) (t' : Task E B) (w' : W) : Prop :=
  match t in Task _ B return Task E B -> Prop with
  | Ret _ => fun _ => False
  | Call e k => fun t' => exists x, step _ e w x w' /\ t' = k x
  | Iter body s k => fun t' =>
      w' = w /\ t' = bind_task (body s) (fun r => match r with inl s => Iter body s k | inr b => k b end)
  end t'.

(** A task with the operation it runs and the world it started in. *)
Record Thread := mkThread {
  th_op : Op;
  th_born : W;
  th_task : Task E A;
}.

(** Threads by number. *)
Record Config := mkConfig {
  cf_threads : nat -> option Thread;
  cf_world : W;
}.

Definition no_threads : nat -> option Thread := fun _ => None.
Definition set_thread (i : nat) (th : Thread) (ts : nat -> option Thread) : nat -> option Thread :=
  fun j => if decide (j = i) then Some th else ts j.

Inductive pool_step : Config -> Config -> Prop :=
  | pool_spawn i op ts w :
      ts i = None -> pool_step (mkConfig ts w) (mkConfig (set_thread i (mkThread op w (run op)) ts) w)
  | pool_call i th t' ts w w' :
      ts i = Some th -> thread_step (th_task th) w t' w' ->
      pool_step (mkConfig ts w) (mkConfig (set_thread i (mkThread (th_op th) (th_born th) t') ts) w')
  | pool_restart ts w w' : restart w w' -> pool_step (mkConfig ts w) (mkConfig no_threads w').

(** What can happen from [w] on. *)
Inductive pool_run (w : W) : Config -> Prop :=
  | pool_start : pool_run w (mkConfig no_threads w)
  | pool_next c c' : pool_run w c -> pool_step c c' -> pool_run w c'.

(** ** The logic *)

Context (I K : W -> Prop) (R : W -> W -> Prop) `{!PreOrder R}.

Fixpoint safe {B} (t : Task E B) : (B -> W -> Prop) -> W -> Prop :=
  match t in Task _ B return (B -> W -> Prop) -> W -> Prop with
  | Ret b => fun Q w => Q b w
  | Call e k => fun Q w =>
      forall w1, R w w1 -> I w1 -> K w1 -> forall x w2, step _ e w1 x w2 -> K w2 ->
        I w2 /\ R w1 w2 /\ safe (k x) Q w2
  | Iter _ _ _ => fun _ _ => False
  end.

Lemma safe_mono {B} (t : Task E B) (Q Q' : B -> W -> Prop) w :
  (forall b w, Q b w -> Q' b w) -> safe t Q w -> safe t Q' w.
Proof.
  intros HQ. revert Q Q' w HQ. induction t as [B b|B X e k IH|B S C body IHb s k IHk]; intros Q Q' w HQ; simpl; [auto| |done].
  intros H w1 Hw HI HK x w2 Hx HK2. destruct (H w1 Hw HI HK x w2 Hx HK2) as (? & ? & Hk). split_and!; [done..|].
  by eapply IH.
Qed.

Lemma safe_bind {B C} (t : Task E B) (f : B -> Task E C) (Q : C -> W -> Prop) w :
  safe t (fun b w => safe (f b) Q w) w -> safe (bind_task t f) Q w.
Proof.
  revert f Q w. induction t as [B b|B X e k IH|B S D body IHb s k IHk]; intros f Q w; simpl; [done| |done].
  intros H w1 Hw HI HK x w2 Hx HK2. destruct (H w1 Hw HI HK x w2 Hx HK2) as (? & ? & Hk). split_and!; [done..|].
  by apply IH.
Qed.

Lemma safe_try {B C Err} (t : Task E (B + Err)) (f : B -> Task E (C + Err)) (Q : C + Err -> W -> Prop) w :
  safe t (fun r w => match r with inl b => safe (f b) Q w | inr err => Q (inr err) w end) w ->
  safe (try_bind t f) Q w.
Proof. intros H. apply safe_bind. revert H. apply safe_mono. by intros []. Qed.

Definition stable {B} (Q : B -> W -> Prop) : Prop := forall b w w', R w w' -> Q b w -> Q b w'.

Lemma safe_stable {B} (t : Task E B) (Q : B -> W -> Prop) w w' :
  stable Q -> R w w' -> safe t Q w -> safe t Q w'.
Proof.
  intros HQ Hw. destruct t as [B b|B X e k|B S C body s k]; simpl; [by apply HQ| |done].
  intros H w1 Hw1. apply H. by etrans.
Qed.

(** A task only goes where [R] allows. *)
Lemma safe_grows {B} (t : Task E B) (Q : B -> W -> Prop) w0 w :
  R w0 w -> safe t Q w -> safe t (fun b w' => Q b w' /\ R w0 w') w.
Proof.
  revert Q w. induction t as [B b|B X e k IH|B S C body IHb s k IHk]; intros Q w H0; simpl; [done| |done].
  intros H w1 Hw HI HK x w2 Hx HK2. destruct (H w1 Hw HI HK x w2 Hx HK2) as (? & ? & Hk). split_and!; [done..|].
  apply IH; [|done]. etrans; [exact H0|]. by etrans.
Qed.

(** A loop over a list whose body has no postcondition. *)
Lemma safe_fold {B S Err} (f : S -> B -> Task E (S + Err)) s xs w :
  (forall s x w, safe (f s x) (fun _ _ => True) w) -> safe (fold_task f s xs) (fun _ _ => True) w.
Proof.
  intros Hf. revert s w. induction xs as [|x xs IH]; intros s w; simpl; [done|]. apply safe_try.
  eapply safe_mono; [|apply Hf]. intros [s'|e] w' _; [apply IH|done].
Qed.

Lemma thread_step_safe {B} (t t' : Task E B) (Q : B -> W -> Prop) w w' :
  I w -> K w -> K w' -> safe t Q w -> thread_step t w t' w' -> I w' /\ R w w' /\ safe t' Q w'.
Proof.
  intros HI HK HK'. destruct t as [B b|B X e k|B S C body s k]; simpl; [done| |done].
  intros H (x & Hx & ->). by apply (H w).
Qed.

(** ** Runs *)

Context (Q : Op -> W -> A -> W -> Prop).
Hypothesis Q_stable : forall op born, stable (Q op born).
Hypothesis I_restart : forall w w', I w -> restart w w' -> I w'.
Hypothesis run_safe : forall op w, I w -> K w -> safe (run op) (Q op w) w.

(** [K] says of a world that it and all worlds before it are as assumed. *)
Hypothesis K_step : forall c c', pool_step c c' -> K (cf_world c') -> K (cf_world c).

Definition config_safe (c : Config) : Prop :=
  I (cf_world c)
  /\ forall i th, cf_threads c i = Some th -> safe (th_task th) (Q (th_op th) (th_born th)) (cf_world c).

Lemma pool_step_safe c c' : config_safe c -> pool_step c c' -> K (cf_world c) -> K (cf_world c') -> config_safe c'.
Proof.
  intros (HI & Hts) Hstep HK HK'. destruct Hstep as [i op ts w Hi|i th t' ts w w' Hi Ht|ts w w' Hr]; simpl in *.
  - split; [done|]. intros j th. simpl. unfold set_thread. case_decide; [|by apply Hts]. intros [= <-]. by apply run_safe.
  - destruct (thread_step_safe _ _ _ _ _ HI HK HK' (Hts _ _ Hi) Ht) as (HI' & HR & Ht').
    split; [done|]. intros j th'. simpl. unfold set_thread. case_decide; [by intros [= <-]|]. intros Hj.
    eapply safe_stable; [apply Q_stable|exact HR|by eapply Hts].
  - split; [by eapply I_restart|done].
Qed.

(** What every finished task of a run satisfies. *)
Lemma pool_safe w0 c :
  I w0 -> pool_run w0 c -> K (cf_world c) ->
  I (cf_world c)
  /\ forall i th a, cf_threads c i = Some th -> th_task th = Ret a -> Q (th_op th) (th_born th) a (cf_world c).
Proof.
  intros HI Hrun HK. assert (config_safe c) as (HI' & Hts).
  { induction Hrun as [|c c' _ IH Hstep]; [by split|]. eapply pool_step_safe; eauto. }
  split; [done|]. intros i th a Hth Ha. specialize (Hts _ _ Hth). simpl in Hts. by rewrite Ha in Hts.
Qed.
End pool.

(** ** Running one task of a pool alone *)

Section drive.
Context {E : Type -> Type} {W : Type} (step : forall X, E X -> W -> X -> W -> Prop) (restart : W -> W -> Prop).
Context {Op A : Type} (run : Op -> Task E A).
Context (h : forall X, E X -> W -> X * W).
Hypothesis h_step : forall X (e : E X) w, step X e w (h X e w).1 (h X e w).2.

Inductive steps {B} : Task E B -> W -> Task E B -> W -> Prop :=
  | steps_refl t w : steps t w t w
  | steps_next t w t1 w1 t2 w2 : thread_step step t w t1 w1 -> steps t1 w1 t2 w2 -> steps t w t2 w2.

Lemma run_task_steps {B} (t : Task E B) w b w' : run_task h 0 t w = Some (b, w') -> steps t w (Ret b) w'.
Proof.
  clear run. revert w. induction t as [B b0|B X e k IH|B S C body IHb s k IHk]; intros w; simpl; [| |done].
  - intros [= <- <-]. constructor.
  - pose proof (h_step X e w) as Hs. destruct (h X e w) as [x w1]. intros H%IH. econstructor; [|exact H]. by exists x.
Qed.

Lemma pool_steps w0 ts w i th t' w' :
  pool_run step restart run w0 (mkConfig ts w) -> ts i = Some th -> steps (th_task th) w t' w' ->
  exists ts', pool_run step restart run w0 (mkConfig ts' w') /\ ts' i = Some (mkThread (th_op th) (th_born th) t')
    /\ forall j, j <> i -> ts' j = ts j.
Proof.
  intros Hrun Hi Hs. remember (th_task th) as t eqn:Ht. revert ts th Hrun Hi Ht.
  induction Hs as [t w|t w t1 w1 t2 w2 Hs _ IH]; intros ts th Hrun Hi ->.
  - exists ts. split_and!; [done| |done]. rewrite Hi. by destruct th.
  - destruct (IH (set_thread i (mkThread (th_op th) (th_born th) t1) ts) (mkThread (th_op th) (th_born th) t1))
      as (ts' & Hrun' & Hi' & Hj); [|unfold set_thread; by rewrite decide_True|done|].
    + eapply pool_next; [exact Hrun|]. by eapply pool_call.
    + exists ts'. split_and!; [done..|]. intros j Hne. rewrite Hj by done. unfold set_thread. by rewrite decide_False.
Qed.

(** An operation that starts now and runs to its end. *)
Lemma pool_drive w0 ts w i op a w' :
  pool_run step restart run w0 (mkConfig ts w) -> ts i = None -> run_task h 0 (run op) w = Some (a, w') ->
  exists ts', pool_run step restart run w0 (mkConfig ts' w') /\ ts' i = Some (mkThread op w (Ret a))
    /\ forall j, j <> i -> ts' j = ts j.
Proof.
  intros Hrun Hi Ht. destruct (pool_steps w0 (set_thread i (mkThread op w (run op)) ts) w i (mkThread op w (run op)) (Ret a) w')
    as (ts' & Hrun' & Hi' & Hj).
  - eapply pool_next; [exact Hrun|by constructor].
  - unfold set_thread. by rewrite decide_True.
  - by apply run_task_steps.
  - exists ts'. split_and!; [done..|]. intros j Hne. rewrite Hj by done. unfold set_thread. by rewrite decide_False.
Qed.
End drive.
