(* ===== verification/StorePool.v ===== *)
(** * The store under concurrency

    The operations of [Store], [Claims], [Journal], [WfAdmission], [Recovery] and [Mailbox] as tasks of
    one process over the shared tables, the shared cache and the owner's claim, in any interleaving of
    their statements; statements fail and the process restarts at any time.  Every relation that allows
    the writes of [StoreBuilt] orders the states the tables go through. *)

From S2P Require Import Prelude Result RustStr Platform Ids Scope Wire Workflow Usage Events Team Projection Runs Snapshot Effects StoreDb StoreTx Store Claims Journal WfAdmission Recovery Mailbox StoreBuilt Concurrent.

Section world.
Context `{U : UuidLib} `{J : JsonLib} `{L : !StoreLib}.

(** ** One process *)

(** [sw_past]: the tables after every call so far, the present ones last. *)
Record World := mkWorld {
  sw_tx : TxState;
  sw_owner : option OwnerRunId;
  sw_past : list Db;
}.

(** One call: a failed statement leaves the tables alone and has at most read the cache. *)
Definition store_step X (e : StoreEff X) (w : World) (x : X) (w' : World) : Prop :=
  sw_past w' = sw_past w ++ [tx_db (sw_tx w')]
  /\ match e in StoreEff X return X -> Prop with
     | Query f => fun r =>
         (r = inl (f (tx_db (sw_tx w))) \/ r = inr SeSqlite) /\ sw_tx w' = sw_tx w /\ sw_owner w' = sw_owner w
     | Transact t => fun r =>
         sw_owner w' = sw_owner w
         /\ ((r, sw_tx w') = t (sw_tx w)
             \/ r = inr SeSqlite /\ tx_db (sw_tx w') = tx_db (sw_tx w)
                /\ cache_within (tx_cache (sw_tx w)) None (tx_cache (sw_tx w')))
     | CacheCall f => fun r =>
         sw_owner w' = sw_owner w /\ tx_db (sw_tx w') = tx_db (sw_tx w)
         /\ (r, tx_cache (sw_tx w')) = f (tx_cache (sw_tx w))
     | OwnerCall f => fun r => sw_tx w' = sw_tx w /\ (r, sw_owner w') = f (sw_owner w)
     end x.

(** A new process has the tables only. *)
Definition store_restart (w w' : World) : Prop :=
  tx_db (sw_tx w') = tx_db (sw_tx w) /\ tx_cache (sw_tx w') = cache_new /\ sw_owner w' = None
  /\ sw_past w' = sw_past w ++ [tx_db (sw_tx w')].

(** The operations, with the times and ids the process draws. *)
Inductive StoreOp :=
  | OpRead (session : SessionId)
  | OpAppend (session : SessionId) (event : Event.t)
  | OpDelete (session : SessionId) (last_seq : option EventSeq)
  | OpList
  | OpInfo (session : SessionId)
  | OpRecordUsage (entry : LedgerEntry)
  | OpReadUsage (session : SessionId)
  | OpClaimOwner (lock : unit + StoreError) (owner : OwnerRunId)
  | OpReleaseOwner (owner : OwnerRunId)
  | OpClaimActor (actor : SessionId) (owner : OwnerRunId)
  | OpRecoverClaim (actor : SessionId) (owner : OwnerRunId)
  | OpReleaseClaim (claim : ActorClaim) (now : Z)
  | OpCommit (claim : ActorClaim) (session : SessionId) (events : list Event.t)
  | OpAdmission (claim : AdmissionClaim) (now : Z)
  | OpStart (operation : OperationId) (claim : option ActorClaim) (now : Z)
  | OpFinalize (operation : OperationId) (terminal : AdmissionTerminal.t) (reason : string) (claim : option ActorClaim) (now : Z)
  | OpRecoverAdmissions (reason : string) (now : Z)
  | OpAdmitRun (claim : option ActorClaim) (session : SessionId) (event : Event.t)
  | OpSelect (claim : option ActorClaim) (session : SessionId) (event : Event.t)
  | OpRecoverRuns (owner : OwnerRunId) (reason : string)
  | OpRecoverTurns (owner : OwnerRunId)
  | OpCloseTurns (session : SessionId) (cause : FinishCause.t) (reason : string)
  | OpCheckpoint (session : SessionId) (owner : OwnerRunId) (generation : N) (prompt : string) (resume : ResumeId) (now : Z)
  | OpResume (session : SessionId) (owner : OwnerRunId) (now : Z)
  | OpDirectMail (root : SessionId) (from address : string) (kind : MailKind.t) (body : string) (claim : option ActorClaim)
  | OpHarnessMail (root : SessionId) (handle body : string)
  | OpChannelMail (root : SessionId) (from channel : string) (kind : MailKind.t) (body : string) (claim : option ActorClaim)
  | OpRecoverResident (recovered : RecoveredActorClaim) (root : SessionId) (handle : string) (now : Z)
  | OpStopResident (claim : ActorClaim) (root : SessionId) (handle reason : string) (status : MemberRunStatus.t) (now : Z).

(** What a read answers, and of the other operations whether they failed. *)
Inductive StoreAnswer :=
  | AnRead (r : Projection + StoreError)
  | AnDone (error : option StoreError).

Definition quiet {X} (t : StoreTask X) : Task StoreEff StoreAnswer :=
  let* r := t in Ret (AnDone (match r with inl _ => None | inr e => Some e end)).

Definition run_op (op : StoreOp) : Task StoreEff StoreAnswer :=
  match op with
  | OpRead session => let* r := read_projection session in Ret (AnRead r)
  | OpAppend session event => quiet (append_event session event)
  | OpDelete session last_seq => quiet (delete_session_where session last_seq)
  | OpList => quiet list_sessions
  | OpInfo session => quiet (session_info session)
  | OpRecordUsage entry => quiet (record_usage entry)
  | OpReadUsage session => quiet (read_usage session)
  | OpClaimOwner lock owner => quiet (call (OwnerCall (owner_claim lock owner)))
  | OpReleaseOwner owner => quiet (call (OwnerCall (owner_release owner)))
  | OpClaimActor actor owner => quiet (try_claim_new actor owner)
  | OpRecoverClaim actor owner => quiet (recover_claim actor owner)
  | OpReleaseClaim claim now => quiet (release_claim claim now)
  | OpCommit claim session events => quiet (commit_resident_mutation claim session events)
  | OpAdmission claim now => quiet (claim_admission claim now)
  | OpStart operation claim now => quiet (start_admission operation claim now)
  | OpFinalize operation terminal reason claim now => quiet (finalize_admission operation terminal reason claim now)
  | OpRecoverAdmissions reason now => quiet (recover_nonterminal_admissions reason now)
  | OpAdmitRun claim session event => quiet (admit_workflow_run claim session event)
  | OpSelect claim session event => quiet (select_workflow claim session event)
  | OpRecoverRuns owner reason => quiet (recover_nonterminal_workflows owner reason)
  | OpRecoverTurns owner => quiet (recover_interrupted_turns owner)
  | OpCloseTurns session cause reason => quiet (close_open_turns session cause reason)
  | OpCheckpoint session owner generation prompt resume now =>
      quiet (checkpoint_for_handoff session owner generation prompt resume now)
  | OpResume session owner now => quiet (begin_handoff_resume session owner now)
  | OpDirectMail root from address kind body claim => quiet (append_direct_mail root from address kind body claim)
  | OpHarnessMail root handle body => quiet (append_harness_mail root handle body)
  | OpChannelMail root from channel kind body claim => quiet (append_channel_mail root from channel kind body claim)
  | OpRecoverResident recovered root handle now => quiet (recover_resident_actor recovered root handle now)
  | OpStopResident claim root handle reason status now =>
      quiet (finalize_resident_with_reason claim root handle reason status now)
  end.

(** A store that was just created. *)
Definition new_store : World := mkWorld (mkTxState Db_empty cache_new) None [Db_empty].

(** The tables from the moment of [born] to the moment of [w], both included. *)
Definition since (born w : World) : list Db := drop (pred (length (sw_past born))) (sw_past w).

(** ** What the operations write *)

Inductive Writer : forall A, Tx A -> Prop :=
  | writer_built A (t : Tx A) : Built t -> Writer A t
  | writer_snapshot session p : Writer unit (persist_snapshot session p).

Definition call_ok {X} (e : StoreEff X) : Prop := match e with Transact t => Writer _ t | _ => True end.

Fixpoint writes_ok {A} (t : Task StoreEff A) : Prop :=
  match t with
  | Ret _ => True
  | Call e k => call_ok e /\ forall x, writes_ok (k x)
  | Iter _ _ _ => False
  end.

Lemma writes_bind {A B} (t : Task StoreEff A) (f : A -> Task StoreEff B) :
  writes_ok t -> (forall a, writes_ok (f a)) -> writes_ok (bind_task t f).
Proof. induction t as [A a|A X e k IH|A S C body IHb s k IHk]; simpl; [auto|naive_solver|done]. Qed.

Lemma writes_try {A B} (t : StoreTask A) (f : A -> StoreTask B) :
  writes_ok t -> (forall a, writes_ok (f a)) -> writes_ok (try_bind t f).
Proof. intros Ht Hf. apply writes_bind; [done|]. by intros []. Qed.

Lemma writes_fold {A S} (f : S -> A -> StoreTask S) s xs :
  (forall s x, writes_ok (f s x)) -> writes_ok (fold_task f s xs).
Proof. intros Hf. revert s. induction xs as [|x xs IH]; intros s; simpl; [done|]. by apply writes_try. Qed.

Lemma writes_transact {A} (t : Tx A) : Built t -> writes_ok (call (Transact t)).
Proof. intros Ht. split; [by apply writer_built|done]. Qed.
End world.

Ltac writes_step :=
  match goal with
  | |- writes_ok (try_bind _ _) => apply writes_try; [|intros ?]
  | |- writes_ok (conn_bind _ _) => apply writes_try; [|intros ?]
  | |- writes_ok (bind_task _ _) => apply writes_bind; [|intros ?]
  | |- writes_ok (fold_task _ _ _) => apply writes_fold; intros ? ?
  | |- writes_ok (call (Transact (persist_snapshot _ _))) => split; [apply writer_snapshot|done]
  | |- writes_ok (call (Transact _)) => apply writes_transact; solve_built
  | |- writes_ok (call _) => split; [exact I|done]
  | |- writes_ok (conn_read _) => split; [exact I|done]
  | |- writes_ok (conn_ret _) => exact I
  | |- writes_ok (conn_fail _) => exact I
  | |- writes_ok (Ret _) => exact I
  | |- writes_ok (match ?x with _ => _ end) => destruct x
  end.
Ltac solve_writes := repeat writes_step.

Section operations.
Context `{U : UuidLib} `{J : JsonLib} `{L : !StoreLib}.

Lemma cached_projection_writes session : writes_ok (cached_projection session).
Proof.
  unfold cached_projection, load_snapshot, read_from, fold, fold_full, conn_try, write_back. solve_writes.
Qed.

Lemma run_op_writes op : writes_ok (run_op op).
Proof.
  pose proof cached_projection_writes as Hread. destruct op; cbn [run_op]; unfold quiet.
  all: unfold read_projection, append_event, delete_session_where, list_sessions, session_info, record_usage, read_usage.
  all: unfold try_claim_new, recover_claim, release_claim, commit_resident_mutation.
  all: unfold claim_admission, start_admission, finalize_admission, recover_nonterminal_admissions.
  all: unfold admit_workflow_run, select_workflow, recover_nonterminal_workflows, recover_interrupted_turns, recover_key.
  all: unfold close_open_turns, checkpoint_for_handoff, begin_handoff_resume.
  all: unfold append_direct_mail, append_harness_mail, append_channel_mail, recover_resident_actor, finalize_resident_with_reason.
  all: unfold warm_projection, require_runtime_owner; solve_writes; try apply Hread.
Qed.
End operations.

(** ** Runs *)

Section runs.
Context `{U : UuidLib} `{J : JsonLib} `{L : !StoreLib}.

Definition past_grows (w w' : World) : Prop := sw_past w `prefix_of` sw_past w'.
#[global] Instance past_grows_preorder : PreOrder past_grows.
Proof. unfold past_grows. split; [intros w|intros w1 w2 w3 H1 H2]; [done|by etrans]. Qed.

Lemma step_past X (e : StoreEff X) w x w' : store_step X e w x w' -> past_grows w w'.
Proof. intros [Hp _]. unfold past_grows. rewrite Hp. by eexists. Qed.

(** The run of a pool of store operations. *)
Definition store_run (c : Config (E := StoreEff) (A := StoreAnswer) (Op := StoreOp)) : Prop :=
  pool_run store_step store_restart run_op new_store c.

Lemma pool_step_past (c c' : Config (E := StoreEff) (A := StoreAnswer)) :
  pool_step store_step store_restart run_op c c' -> past_grows (cf_world c) (cf_world c').
Proof.
  intros Hs. destruct Hs as [i op ts w _|i th t' ts w w' _ Ht|ts w w' (_ & _ & _ & Hp)]; simpl; [done| |].
  - destruct (th_task th) as [A a|A X e k|A S B body s k]; simpl in Ht; [done| |by destruct Ht as [-> _]].
    destruct Ht as (x & Hx & _). by eapply step_past.
  - unfold past_grows. rewrite Hp. by eexists.
Qed.

Lemma since_grows born w w' db : past_grows w w' -> db ∈ since born w -> db ∈ since born w'.
Proof.
  intros [tail Hp]. unfold since. rewrite Hp. intros Hdb. rewrite drop_app. apply elem_of_app. by left.
Qed.

(** The present tables are the last of the past. *)
Definition current (w : World) : Prop := last (sw_past w) = Some (tx_db (sw_tx w)).

Lemma current_nonempty w : current w -> sw_past w <> [].
Proof. intros Hl Hn. unfold current in Hl. by rewrite Hn in Hl. Qed.

Lemma since_now born w : past_grows born w -> current w -> sw_past born <> [] -> tx_db (sw_tx w) ∈ since born w.
Proof.
  intros [tail Hp] Hlast Hne. apply last_Some in Hlast as [l Hl]. unfold since. rewrite Hl, drop_app.
  apply elem_of_app. right. assert (length (sw_past born) <= S (length l)) as Hlen.
  { apply (f_equal length) in Hl. rewrite Hp, !length_app in Hl. simpl in Hl. lia. }
  assert (pred (length (sw_past born)) - length l = 0) as -> by lia. set_solver.
Qed.

(** *** Relations along a run: the tables start empty, and each is related to the later ones *)

Section related.
Context (R : Db -> Db -> Prop) `{!StoreRel R}.
Hypothesis R_snapshot : forall db key sn, R db (db <| db_snapshots ::= <[key := sn]> |>).

Record chained (w : World) : Prop := {
  ch_current : current w;
  ch_first : sw_past w !! 0 = Some Db_empty;
  ch_related : forall i j a b, i <= j -> sw_past w !! i = Some a -> sw_past w !! j = Some b -> R a b;
}.

Lemma writer_rel A (t : Tx A) : Writer A t -> forall st, R (tx_db st) (tx_db (t st).2).
Proof.
  intros [B t' Ht|session p] st; [by apply built_rel|]. unfold persist_snapshot. destruct (encode_snapshot snapshot_to_vec p); [|done].
  simpl. destruct (existsb _ _); [apply R_snapshot|done].
Qed.

Lemma chained_next w w' :
  sw_past w' = sw_past w ++ [tx_db (sw_tx w')] -> R (tx_db (sw_tx w)) (tx_db (sw_tx w')) -> chained w -> chained w'.
Proof.
  intros Hp HR [Hc H0 Hr]. split; [unfold current; by rewrite Hp, last_snoc|rewrite Hp; by apply lookup_app_l_Some|].
  intros i j a b Hij Ha Hb. rewrite Hp in Ha, Hb.
  assert (forall k x, sw_past w !! k = Some x -> R x (tx_db (sw_tx w'))) as Hend.
  { intros k x Hx. etrans; [|exact HR]. unfold current in Hc. rewrite last_lookup in Hc.
    eapply (Hr k (pred (length (sw_past w)))); [|exact Hx|exact Hc]. apply lookup_lt_Some in Hx. lia. }
  apply lookup_app_Some in Hb as [Hb|[Hlen Hb]].
  - apply lookup_app_Some in Ha as [Ha|[Hlen Ha]]; [by eapply Hr|]. apply lookup_lt_Some in Hb. lia.
  - apply list_lookup_singleton_Some in Hb as [_ <-]. apply lookup_app_Some in Ha as [Ha|[_ Ha]]; [by eapply Hend|].
    by apply list_lookup_singleton_Some in Ha as [_ <-].
Qed.

Lemma chained_step X (e : StoreEff X) w x w' : call_ok e -> chained w -> store_step X e w x w' -> chained w'.
Proof.
  intros He Hc [Hp Hs]. eapply chained_next; [done| |done]. destruct e as [A f|A t|A f|A f]; simpl in *.
  - by destruct Hs as (_ & -> & _).
  - destruct Hs as (_ & [Ht|(_ & -> & _)]); [|done]. pose proof (writer_rel _ _ He (sw_tx w)) as HR. by rewrite <- Ht in HR.
  - by destruct Hs as (_ & -> & _).
  - by destruct Hs as (-> & _).
Qed.

Abbreviation rsafe := (safe store_step chained (fun _ => True) past_grows).

Lemma writes_safe {A} (t : Task StoreEff A) w : writes_ok t -> rsafe t (fun _ _ => True) w.
Proof.
  revert w. induction t as [A a|A X e k IH|A S B body IHb s k IHk]; intros w; simpl; [done| |done].
  intros [He Hk] w1 _ Hc _ x w2 Hx _. split_and!; [by eapply chained_step|by eapply step_past|by apply IH].
Qed.

Lemma chained_restart w w' : chained w -> store_restart w w' -> chained w'.
Proof. intros Hc (Hdb & _ & _ & Hp). eapply chained_next; [done| |done]. by rewrite Hdb. Qed.

Lemma new_store_chained : chained new_store.
Proof.
  split; [done|done|]. intros i j a b _ Ha Hb. apply list_lookup_singleton_Some in Ha as [_ <-].
  by apply list_lookup_singleton_Some in Hb as [_ <-].
Qed.

(** The tables of a run are in order, and what is proved of every operation on its own holds of every
    finished one. *)
Lemma store_run_safe (Q : StoreOp -> World -> StoreAnswer -> World -> Prop) c :
  (forall op born, stable past_grows (Q op born)) ->
  (forall op w, chained w -> rsafe (run_op op) (Q op w) w) ->
  store_run c ->
  chained (cf_world c)
  /\ forall i th a, cf_threads c i = Some th -> th_task th = Ret a -> Q (th_op th) (th_born th) a (cf_world c).
Proof.
  intros HQ Hops Hrun. eapply (pool_safe store_step store_restart run_op chained (fun _ => True) past_grows Q);
    [done|apply chained_restart|by intros op w Hc _; apply Hops|done|apply new_store_chained|exact Hrun|done].
Qed.
End related.
End runs.

(** * Concrete stores

    A server that answers every statement, and the runs in which operations follow one another
    ([play]).  The codec of a few events of one session, with an identity for what JSON keeps; snapshots are not
    encodable in it. *)

Section play.
Context `{U : UuidLib} `{J : JsonLib} `{L : !StoreLib}.

(** Every statement succeeds. *)
Definition serve X (e : StoreEff X) (w : World) : X * World :=
  let after tx owner := mkWorld tx owner (sw_past w ++ [tx_db tx]) in
  match e in StoreEff X return X * World with
  | Query f => (inl (f (tx_db (sw_tx w))), after (sw_tx w) (sw_owner w))
  | Transact t => let '(r, tx) := t (sw_tx w) in (r, after tx (sw_owner w))
  | CacheCall f => let '(r, c) := f (tx_cache (sw_tx w)) in (r, after (mkTxState (tx_db (sw_tx w)) c) (sw_owner w))
  | OwnerCall f => let '(r, owner) := f (sw_owner w) in (r, after (sw_tx w) owner)
  end.

Lemma serve_step X (e : StoreEff X) w : store_step X e w (serve X e w).1 (serve X e w).2.
Proof.
  destruct e as [A f|A t|A f|A f]; simpl.
  - split; [done|]. auto.
  - destruct (t (sw_tx w)) as [r tx] eqn:E; simpl. split; [done|]. simpl. auto.
  - destruct (f (tx_cache (sw_tx w))) as [r c] eqn:E; simpl. split; [done|]. simpl. auto.
  - destruct (f (sw_owner w)) as [r o] eqn:E; simpl. split; [done|]. simpl. auto.
Qed.

(** The operations one after the other, each with its answer. *)
Fixpoint play (ops : list StoreOp) (w : World) : list StoreAnswer * World :=
  match ops with
  | [] => ([], w)
  | op :: ops =>
      match run_task serve 0 (run_op op) w with
      | Some (a, w1) => let '(answers, w2) := play ops w1 in (a :: answers, w2)
      | None => ([], w)
      end
  end.

Lemma play_run n ops ts w :
  pool_run store_step store_restart run_op new_store (mkConfig ts w) -> (forall i, n <= i -> ts i = None) ->
  exists ts', pool_run store_step store_restart run_op new_store (mkConfig ts' (play ops w).2)
    /\ (forall i, i < n -> ts' i = ts i)
    /\ forall i a, (play ops w).1 !! i = Some a ->
         exists op born, ops !! i = Some op /\ ts' (n + i) = Some (mkThread op born (Ret a)).
Proof.
  revert n ts w. induction ops as [|op ops IH]; intros n ts w Hrun Hts; simpl; [by exists ts|].
  destruct (run_task serve 0 (run_op op) w) as [[a w1]|] eqn:E; [|by exists ts].
  destruct (pool_drive store_step store_restart run_op serve serve_step _ _ _ n op a w1 Hrun (Hts n (Nat.le_refl n)) E)
    as (ts1 & Hrun1 & Hn & Hother).
  destruct (IH (S n) ts1 w1 Hrun1) as (ts2 & Hrun2 & Hsame & Hans); [intros i Hi; rewrite Hother by lia; apply Hts; lia|].
  destruct (play ops w1) as [answers w2]. exists ts2. split_and!; [done|intros i Hi; rewrite Hsame, Hother by lia; done|].
  intros [|i] b; simpl.
  - intros [= <-]. exists op, w. split; [done|]. by rewrite Nat.add_0_r, Hsame by lia.
  - intros Hb. destruct (Hans i b Hb) as (op' & born & Hop & Hth). exists op', born. split; [done|].
    by rewrite <- Nat.add_succ_comm.
Qed.

(** A run of the store in which the operations follow one another. *)
Lemma played ops : exists c, store_run c /\ cf_world c = (play ops new_store).2
  /\ forall i a, (play ops new_store).1 !! i = Some a ->
       exists op born, ops !! i = Some op /\ cf_threads c i = Some (mkThread op born (Ret a)).
Proof.
  destruct (play_run 0 ops no_threads new_store) as (ts & Hrun & _ & Hans); [constructor|done|].
  by exists (mkConfig ts (play ops new_store).2).
Qed.
End play.

Module StoreDemo.
Definition session : SessionId := Hysec "00000000000000000000".
Definition worker : SessionId := Hysec "11111111111111111111".
Definition message : MessageId := from_uuid (Demo.Uuid128 1 eq_refl).
Definition part : PartId := from_uuid (Demo.Uuid128 2 eq_refl).
Definition tool_call : ToolCallId := from_uuid (Demo.Uuid128 3 eq_refl).
Definition other_owner : OwnerRunId := mkOwnerRunId (U := Demo.uuid_lib) (Demo.Uuid128 4 eq_refl).

(** The number big-endian bytes stand for. *)
Fixpoint be_value (s : string) (acc : N) : N :=
  match s with EmptyString => acc | String c s => be_value s (acc * 256 + N_of_ascii c) end.

Lemma be_value_bytes k n acc : be_value (be_bytes k n) acc = (acc * 256 ^ N.of_nat k + n `mod` 256 ^ N.of_nat k)%N.
Proof.
  revert acc. induction k as [|k IH]; intros acc; cbn [be_bytes be_value].
  - rewrite N.pow_0_r, N.mod_1_r. lia.
  - rewrite IH, N_ascii_embedding by (apply N.mod_lt; lia).
    rewrite Nat2N.inj_succ, N.pow_succ_r', (N.mul_comm 256), N.Div0.mod_mul_r. lia.
Qed.

(** An event by the first letter of its text. *)
Definition from_str (s : string) : option Event.t :=
  match s with
  | String "T" title => Some (Event.SessionTitled session title)
  | String "M" _ => Some (Event.MessageStarted session message Role.Assistant None None)
  | String "C" _ => Some (Event.ToolCallRequested session message part tool_call (StrNewtype "shell") Demo.JNull)
  | String "E" reason => Some (Event.ToolError session message part tool_call reason (Some Demo.JNull))
  | String "F" _ => Some (Event.MessageFinished session message Role.Assistant FinishReason.Cancelled None (Some FinishCause.Interrupted))
  | String "R" hash => Some (Event.WorkflowRunStarted session demo_run demo_identity hash demo_owner [demo_plan])
  | String "I" reason => Some (Event.WorkflowRunFinished session demo_run WorkflowRunStatus.Interrupted (Some reason))
  | String "S" _ => Some (Event.SessionStatus session Demo.JNull)
  | String "A" handle => Some (Event.AgentRegistered session worker handle None (StrNewtype "worker") SubagentMode.Resident)
  | String "X" handle => Some (Event.AgentActivityChanged session handle RosterStatus.Failed (Some "stopped"))
  | _ => None
  end.

Definition to_string (e : Event.t) : option string :=
  match e with
  | Event.SessionTitled s title => Some ("T" +:+ title)
  | Event.MessageStarted _ _ _ _ _ => Some "M"
  | Event.ToolCallRequested _ _ _ _ _ _ => Some "C"
  | Event.ToolError _ _ _ _ reason _ => Some ("E" +:+ reason)
  | Event.MessageFinished _ _ _ _ _ _ => Some "F"
  | Event.WorkflowRunStarted _ _ _ hash _ _ => Some ("R" +:+ hash)
  | Event.WorkflowRunFinished _ _ _ (Some reason) => Some ("I" +:+ reason)
  | Event.SessionStatus _ _ => Some "S"
  | Event.AgentRegistered _ _ handle _ _ _ => Some ("A" +:+ handle)
  | Event.AgentActivityChanged _ handle _ _ => Some ("X" +:+ handle)
  | _ => None
  end.

#[global] Instance store_lib : StoreLib (U := Demo.uuid_lib) (J := Demo.json_lib).
Proof.
  refine {|
    event_to_string := to_string;
    event_from_str := from_str;
    json_string s := s;
    uuid_hyphenated u := uuid_as_bytes u;
    uuid_from_slice s := if decide (String.length s = 16) then Demo.of_bits (be_value s 0) else None;
    snapshot_to_vec _ := None;
    snapshot_from_slice _ := None;
    json_reread v := v;
    json_reread_number n := n;
    sql_run_started s := match s with String "R" _ => true | _ => false end;
    code_value _ := Demo.JNull;
    resume_value _ _ := Demo.JNull;
    append_time seq := Z.of_N seq;
  |}.
  intros []; [by left|by right..].
Defined.

#[global] Instance store_laws : StoreLaws store_lib.
Proof.
  split.
  - intros u. cbn -[be_bytes be_value]. rewrite length_be_bytes, decide_True, be_value_bytes by done.
    rewrite N.mul_0_l, N.add_0_l, N.mod_small; [apply Demo.of_bits_bits|]. apply N.ltb_lt, (Demo.bits_ok u).
  - apply uuid_bytes_inj.
  - by intros sn b.
  - intros event payload session run workflow hash owner stages _. simpl.
    by destruct payload as [|[[] [] [] [] [] [] [] []] s].
Qed.
End StoreDemo.
