(* ===== verification/StoreSpec.v ===== *)
(** * What transactions keep ([StoreTx])

    A fold of a session's rows up to its last event is a valid base as long as its anchor row is
    there: rows are only appended with fresh sequences or deleted with their whole session.  Every
    transaction of the store keeps valid bases valid ([Tame]); a fold that starts from valid bases is a full replay. *)

From S2P Require Import Prelude Result RustStr Platform Ids Scope Wire Workflow Usage Events Team Projection Transcript Snapshot Effects StoreDb StoreTx Store Claims Journal Recovery StoreBuilt.

Section spec.
Context `{U : UuidLib} `{J : JsonLib} `{L : !StoreLib}.
Implicit Types (db : Db) (st : TxState) (p : Projection) (key : string) (row : LogRow).
Local Open Scope N_scope.

(** ** Rows *)

Fixpoint increasing (seqs : list N) : Prop :=
  match seqs with
  | [] => True
  | n :: seqs => Forall (N.lt n) seqs /\ increasing seqs
  end.

Lemma increasing_app l k :
  increasing (l ++ k) <-> increasing l /\ increasing k /\ (forall x y, x ∈ l -> y ∈ k -> x < y).
Proof.
  induction l as [|n l IH]; simpl; [split; [intros H; repeat split; [done|]; set_solver|by intros (_ & ? & _)]|].
  rewrite Forall_app, IH. split.
  - intros [[Hl Hk] (Hil & Hik & Hlk)]. split; [by split|]. split; [done|]. intros x y [->|Hx]%elem_of_cons Hy; [|by apply Hlk].
    by eapply Forall_forall in Hk.
  - intros ([Hl Hil] & Hik & Hlk). split; [split; [done|]|split; [done|split; [done|]]].
    + apply Forall_forall. intros y Hy. apply Hlk; [by left|done].
    + intros x y Hx Hy. apply Hlk; [by right|done].
Qed.

Lemma increasing_filter (P : LogRow -> Prop) `{!forall x, Decision (P x)} rows :
  increasing (lr_seq <$> rows) -> increasing (lr_seq <$> filter P rows).
Proof.
  induction rows as [|r rows IH]; simpl; [done|]. intros [Hr Hi]. rewrite filter_cons. case_decide; [|by apply IH].
  simpl. split; [|by apply IH]. rewrite Forall_fmap in *. apply Forall_forall. intros x [_ Hx]%list_elem_of_filter.
  by eapply Forall_forall in Hr.
Qed.

Lemma filter_none {A} (P : A -> Prop) `{!forall x, Decision (P x)} (rows : list A) : Forall (fun x => ~ P x) rows -> filter P rows = [].
Proof. induction 1 as [|x l Hx _ IH]; [done|]. by rewrite filter_cons, decide_False. Qed.

Lemma filter_every {A} (P : A -> Prop) `{!forall x, Decision (P x)} (rows : list A) : Forall P rows -> filter P rows = rows.
Proof. induction 1 as [|x l Hx _ IH]; [done|]. by rewrite filter_cons, decide_True, IH. Qed.

Definition upto (n : N) (rows : list LogRow) : list LogRow := filter (fun row => lr_seq row <= n) rows.
Definition after (n : N) (rows : list LogRow) : list LogRow := filter (fun row => n < lr_seq row) rows.

Lemma upto_after n rows : increasing (lr_seq <$> rows) -> upto n rows ++ after n rows = rows.
Proof.
  unfold upto, after. induction rows as [|r rows IH]; simpl; [done|]. intros [Hr Hi].
  rewrite !filter_cons. destruct (decide (lr_seq r <= n)).
  - rewrite (decide_False (P := n < lr_seq r)) by lia. simpl. by rewrite IH.
  - rewrite (decide_True (P := n < lr_seq r)) by lia. rewrite Forall_fmap in Hr.
    assert (filter (fun row => lr_seq row <= n) rows = []) as ->.
    { apply filter_none. eapply Forall_impl; [exact Hr|]. simpl. intros x Hx. unfold compose in Hx. lia. }
    simpl. f_equal. apply filter_every. eapply Forall_impl; [exact Hr|]. simpl. intros x Hx. unfold compose in Hx. lia.
Qed.

(** The rows from [n] on start with the row [n], or skip it. *)
Lemma from_after n rows :
  increasing (lr_seq <$> rows) ->
  match filter (fun row => n <= lr_seq row) rows with
  | r :: rest => if decide (lr_seq r = n) then rest = after n rows /\ r ∈ rows
                 else forall r', r' ∈ rows -> lr_seq r' <> n
  | [] => forall r', r' ∈ rows -> lr_seq r' <> n
  end.
Proof.
  unfold after. induction rows as [|r rows IH]; simpl; [set_solver|]. intros [Hr Hi]. rewrite !filter_cons.
  rewrite Forall_fmap in Hr. destruct (decide (n <= lr_seq r)) as [Hle|Hgt].
  - case_decide as Heq.
    + rewrite (decide_False (P := n < lr_seq r)) by lia. split; [|by left]. subst n. clear IH.
      rewrite !filter_every; [done|..]; (eapply Forall_impl; [exact Hr|]); simpl; intros x Hx; unfold compose in Hx; lia.
    + intros r' [->|Hr']%elem_of_cons; [done|]. eapply Forall_forall in Hr; [|exact Hr']. simpl in Hr. lia.
  - specialize (IH Hi). rewrite (decide_False (P := n < lr_seq r)) by lia.
    destruct (filter (fun row => n <= lr_seq row) rows) as [|r0 rest].
    + intros r' [->|Hr']%elem_of_cons; [lia|by apply IH].
    + case_decide.
      * destruct IH as [-> Hin]. split; [done|by right].
      * intros r' [->|Hr']%elem_of_cons; [lia|by apply IH].
Qed.

(** ** Folding rows *)

Lemma decode_row_error row e : decode_row row = inr e -> e = SeJson.
Proof. unfold decode_row. destruct (event_from_str _); [done|]. by intros [= <-]. Qed.

Lemma fold_rows_spec rows p n :
  fold_rows rows p n = match try_map decode_row rows with
                       | inl envs => inl (foldl apply p envs, n + N.of_nat (length envs))
                       | inr e => inr e
                       end.
Proof.
  revert p n. induction rows as [|row rows IH]; intros p n; simpl; [by rewrite N.add_0_r|].
  destruct (decode_row row) as [env|e]; [|done]. rewrite IH. destruct (try_map decode_row rows); [|done].
  simpl. f_equal. f_equal. lia.
Qed.

Lemma try_map_app {A B Err} (f : A -> B + Err) l k :
  try_map f (l ++ k) = let? xs := try_map f l in let? ys := try_map f k in inl (xs ++ ys)%list.
Proof.
  induction l as [|x l IH]; simpl; [by destruct (try_map f k)|]. destruct (f x); [|done]. rewrite IH.
  destruct (try_map f l); [|done]. by destruct (try_map f k).
Qed.

Lemma decoded_seqs rows envs : try_map decode_row rows = inl envs -> env_seq <$> envs = lr_seq <$> rows.
Proof.
  intros H%try_map_ok. induction H as [|row env rows envs Hr _ IH]; [done|]. rewrite !fmap_cons, IH. f_equal.
  unfold decode_row in Hr. destruct (event_from_str _); [|done]. by injection Hr as <-.
Qed.

(** What a read of the session means: the fold of its decoded rows. *)
Definition session_fold (session : SessionId) db : Projection + StoreError :=
  let? envs := replay session db in inl (from_events envs).

(** ** Tables *)

Record db_wf db : Prop := {
  dw_sorted : increasing (lr_seq <$> db_log db);
  dw_range : forall row, row ∈ db_log db -> 0 < lr_seq row <= db_last_seq db;
  dw_last : db_last_seq db <= MAX_ROWID;
}.

Definition valid_base db key p : Prop :=
  p_last_seq p <= db_last_seq db
  /\ forall row, row ∈ rows_of key db -> lr_seq row = p_last_seq p ->
       exists envs, try_map decode_row (upto (p_last_seq p) (rows_of key db)) = inl envs /\ p = from_events envs.

Record db_evolves db db' : Prop := {
  de_wf : db_wf db -> db_wf db';
  de_base : forall key p, db_wf db -> valid_base db key p -> valid_base db' key p;
  de_snapshots : forall key sn, db_snapshots db' !! key = Some sn -> db_snapshots db !! key = Some sn;
}.

#[global] Instance db_evolves_preorder : PreOrder db_evolves.
Proof.
  split; [by intros db; split|]. intros d1 d2 d3 [w1 b1 s1] [w2 b2 s2]. split; [auto|auto|]. intros key row H. auto.
Qed.

(** Writes to other tables. *)
Lemma evolves_aside db db' :
  db_log db' = db_log db -> db_last_seq db' = db_last_seq db -> db_snapshots db' = db_snapshots db -> db_evolves db db'.
Proof.
  intros Hl Hn Hs. split; [| |by rewrite Hs].
  - intros [H1 H2 H3]. split; rewrite ?Hl, ?Hn; done.
  - intros key p _. unfold valid_base, rows_of. by rewrite Hl, Hn.
Qed.

Lemma rows_of_wf key db : db_wf db -> increasing (lr_seq <$> rows_of key db).
Proof. intros H. apply increasing_filter, H. Qed.

Lemma evolves_append db row :
  lr_seq row = db_last_seq db + 1 -> lr_seq row <= MAX_ROWID ->
  db_evolves db (db <| db_log ::= fun log => (log ++ [row])%list |> <| db_last_seq := lr_seq row |>).
Proof.
  intros Hseq Hmax. split; [| |done].
  - intros [Hs Hr Hl]. split; simpl; [|intros r [Hr'|Hr']%elem_of_app|done].
    + rewrite fmap_app. apply increasing_app. split; [done|]. split; [by repeat constructor|].
      intros x y (r & -> & Hx)%list_elem_of_fmap Hy%list_elem_of_singleton. subst y. specialize (Hr _ Hx). lia.
    + specialize (Hr _ Hr'). lia.
    + apply list_elem_of_singleton in Hr' as ->. lia.
  - intros key p Hwf [Hle Hb]. split; simpl; [lia|]. unfold rows_of. simpl. rewrite filter_app.
    intros r Hr Heq. assert (filter (fun x => lr_session x = key) [row] = [] \/ filter (fun x => lr_session x = key) [row] = [row])
      as [Hf|Hf] by (rewrite filter_cons; case_decide; auto); rewrite Hf in *; rewrite ?app_nil_r in *.
    + by apply (Hb r).
    + apply elem_of_app in Hr as [Hr|Hr%list_elem_of_singleton]; [|subst; lia].
      destruct (Hb r Hr Heq) as (envs & He & ->). exists envs. split; [|done]. rewrite <- He. f_equal.
      unfold upto. rewrite filter_app, filter_cons, decide_False by lia. by rewrite app_nil_r.
Qed.

Lemma evolves_delete (keys : gset string) db db' :
  db_log db' = filter (fun row => lr_session row ∉ keys) (db_log db) -> db_last_seq db' = db_last_seq db ->
  (forall key sn, db_snapshots db' !! key = Some sn -> db_snapshots db !! key = Some sn) -> db_evolves db db'.
Proof.
  intros Hlog Hlast Hsnap. split; [| |done].
  - intros [Hs Hr Hl]. split; rewrite ?Hlog, ?Hlast; [by apply increasing_filter| |done].
    intros row [_ Hin]%list_elem_of_filter. by apply Hr.
  - intros key p _ [Hle Hb]. split; [by rewrite Hlast|].
    destruct (decide (key ∈ keys)) as [Hin|Hout].
    + unfold rows_of. rewrite Hlog. by intros row [<- [Hn _]%list_elem_of_filter]%list_elem_of_filter.
    + assert (rows_of key db' = rows_of key db) as ->; [|done]. unfold rows_of. rewrite Hlog, list_filter_filter.
      apply list_filter_iff. intros row. split; [by intros [? _]|]. intros <-. by split.
Qed.

(** ** Programs *)

Lemma cache_within_trans c1 c2 c3 extra :
  cache_within c1 None c2 -> cache_within c2 extra c3 -> cache_within c1 extra c3.
Proof.
  intros H12 H23 session entry [He|(e & He & Heq)]%H23; [by left|]. right.
  apply H12 in He as [?|(e' & He' & Heq')]; [done|]. exists e'. split; [done|congruence].
Qed.

Record tx_evolves st st' : Prop := {
  te_db : db_evolves (tx_db st) (tx_db st');
  te_cache : cache_within (tx_cache st) None (tx_cache st');
}.

#[global] Instance tx_evolves_preorder : PreOrder tx_evolves.
Proof.
  split; [intros st; split; [done|apply cache_within_refl]|].
  intros s1 s2 s3 [d1 c1] [d2 c2]. split; [by etrans|by eapply cache_within_trans].
Qed.

Definition Tame {A} (t : Tx A) : Prop := forall st, tx_evolves st (t st).2.

#[global] Instance db_evolves_rel : StoreRel db_evolves.
Proof.
  split; [apply _|..].
  - intros db db' [Hl Hn Hs _ _ _]. by apply evolves_aside.
  - intros db row ? ? _. by apply evolves_append.
  - intros db key. apply (evolves_delete {[key]}); [|done..]. simpl. apply list_filter_iff. set_solver.
  - intros db key. apply (evolves_delete {[key]}); [|done|].
    + simpl. apply list_filter_iff. set_solver.
    + intros k sn. simpl. by intros [_ H]%lookup_delete_Some.
  - intros db key row _. by apply evolves_aside.
  - intros db key row _ _ _. by apply evolves_aside.
  - intros db rows _. by apply evolves_aside.
  - intros db row _ _. by apply evolves_aside.
  - intros db key row owner now _. by apply evolves_aside.
Qed.

Lemma built_cache_within A (t : Tx A) : Built t -> forall st, cache_within (tx_cache st) None (tx_cache (t st).2).
Proof.
  induction 1 as [A a|A e|A f|session|A B t f _ IHt _ IHf|A t _ IH|A B t f g t' _ IHt _ IHf _ IHg Ht'|f Hf|id row
    |session payload Hw|key|keys|actor owner|actor owner|claim|key row Hs Hr|where_ set_ Hset|row Hrow|key owner now]; intros st;
    simpl; try apply cache_within_refl.
  - unfold tx_cache_get. pose proof (cache_get_within session (tx_cache st)) as Hc. by destruct (cache_get session (tx_cache st)).
  - unfold tx_bind. specialize (IHt st). destruct (t st) as [[a|e] st'] eqn:Et; [|done]. eapply cache_within_trans; [exact IHt|apply IHf; by eexists _, _].
  - specialize (IH st). unfold transact. by destruct (t st) as [[a|e] st'].
  - rewrite Ht'. specialize (IHt st). destruct (t st) as [[a|e] st']; (eapply cache_within_trans; [exact IHt|]); [apply IHf|apply IHg].
  - unfold insert_session. destruct (db_sessions _ !! id); [apply cache_within_refl|].
    destruct (match sr_parent_id row with None => true | Some _ => _ end); apply cache_within_refl.
  - unfold insert_log. case_decide; apply cache_within_refl.
  - unfold try_claim_new_tx. destruct (db_claims _ !! _); [destruct (_ && _)|]; apply cache_within_refl.
  - unfold recover_claim_tx. destruct (db_claims _ !! _); [destruct (_ && _)|]; apply cache_within_refl.
  - unfold set_released. destruct (is_current _ _); apply cache_within_refl.
  - unfold insert_journal. destruct (_ || _); apply cache_within_refl.
  - unfold insert_resume. destruct (_ || _); apply cache_within_refl.
  - unfold take_first_live. destruct (first_live _ _); apply cache_within_refl.
Qed.

Lemma built_tame {A} (t : Tx A) : Built t -> Tame t.
Proof.
  intros Ht st. split; [by apply (built_rel db_evolves)|by apply built_cache_within].
Qed.
End spec.

(** ** Folds are replays *)

Section exact.
Context `{U : UuidLib} `{J : JsonLib} `{L : !StoreLib}.
Implicit Types (db : Db) (st : TxState) (p : Projection) (key : string).
Local Open Scope N_scope.

(** What a fold over rows yields. *)
Definition fold_value (r : Projection * N + StoreError) : Projection + StoreError := let? x := r in inl x.1.

Lemma full_exact session db :
  fold_value (fold_rows (rows_of (SessionId_storage_key session) db) Projection_default 0) = session_fold session db.
Proof. rewrite fold_rows_spec. unfold session_fold, replay. by destruct (try_map _ _). Qed.

Lemma seq_param_small db p : db_wf db -> p_last_seq p <= db_last_seq db -> seq_param (p_last_seq p) = p_last_seq p.
Proof. intros [_ _ Hmax] Hle. unfold seq_param. lia. Qed.

Lemma anchored_exact session db base r :
  db_wf db -> valid_base db (SessionId_storage_key session) base ->
  fold_anchored base (select_from (SessionId_storage_key session) (seq_param (p_last_seq base)) db) = Some r ->
  fold_value r = session_fold session db.
Proof.
  intros Hwf [Hle Hbase]. rewrite (seq_param_small db) by done. unfold fold_anchored, select_from.
  pose proof (rows_of_wf (SessionId_storage_key session) _ Hwf) as Hinc.
  pose proof (from_after (p_last_seq base) _ Hinc) as Hfrom.
  destruct (filter _ _) as [|row rest]; [done|]. case_decide as Hanchor; [|done]. destruct Hfrom as [-> Hrow]. intros [= <-].
  destruct (Hbase _ Hrow Hanchor) as (envs & Henvs & Hfold). unfold session_fold, replay.
  rewrite <- (upto_after (p_last_seq base) _ Hinc) at 2. rewrite try_map_app, Henvs, fold_rows_spec.
  destruct (try_map decode_row (after _ _)) as [envs'|e]; [|done]. simpl. f_equal.
  rewrite Hfold at 1. unfold from_events. by rewrite foldl_app.
Qed.

Lemma max_last (seqs : list N) : increasing seqs -> foldr N.max 0 seqs = default 0 (last seqs).
Proof.
  induction seqs as [|n seqs IH] using rev_ind; [done|]. intros (Hi & _ & Hn)%increasing_app.
  rewrite last_snoc, foldr_app. simpl. assert (forall m, m ∈ seqs -> m < n) as Hlt by (intros m Hm; apply Hn; set_solver).
  clear IH Hn Hi. rewrite N.max_0_r. induction seqs as [|m seqs IH]; [done|]. simpl. rewrite IH by set_solver.
  assert (m < n) by (apply Hlt; set_solver). lia.
Qed.

(** A fold of the whole log is a valid base. *)
Lemma session_fold_valid session db p :
  db_wf db -> session_fold session db = inl p -> valid_base db (SessionId_storage_key session) p.
Proof.
  intros Hwf. unfold session_fold, replay. set (rows := rows_of _ db).
  destruct (try_map decode_row rows) as [envs|] eqn:E; [|done]. intros [= <-].
  pose proof (rows_of_wf (SessionId_storage_key session) _ Hwf : increasing (lr_seq <$> rows)) as Hinc.
  assert (Hin : forall row, row ∈ rows -> lr_seq row <= p_last_seq (from_events envs)).
  { intros row Hrow. pose proof (decoded_seqs _ _ E) as Hs. assert (lr_seq row ∈ env_seq <$> envs) as Henv.
    { rewrite Hs. apply list_elem_of_fmap. by exists row. }
    apply list_elem_of_fmap in Henv as (env & -> & Henv). by apply last_seq_ge. }
  split.
  - unfold from_events. rewrite foldl_last_seq, (decoded_seqs _ _ E), max_last by done.
    destruct (last (lr_seq <$> rows)) as [n|] eqn:El; simpl; [|lia].
    apply last_Some_elem_of, list_elem_of_fmap in El as (row & -> & [_ Hrow]%list_elem_of_filter).
    by apply (dw_range db).
  - intros row _ _. exists envs. split; [|done]. fold rows. unfold upto. rewrite filter_every; [done|].
    by apply Forall_forall.
Qed.

(** ** Bases that are kept *)

(** Every projection a fold may start from is one of its session's log. *)
Record bases_ok st : Prop := {
  bo_wf : db_wf (tx_db st);
  bo_cache : forall session entry, pc_entries (tx_cache st) !! session = Some entry ->
    valid_base (tx_db st) (SessionId_storage_key session) (en_projection entry);
  bo_snapshots : forall key sn p, db_snapshots (tx_db st) !! key = Some sn -> usable_snapshot sn = Some p ->
    valid_base (tx_db st) key p;
}.

Lemma bases_ok_evolves st st' : tx_evolves st st' -> bases_ok st -> bases_ok st'.
Proof.
  intros [[Hwf Hbase Hsnap] Hcache] [H1 H2 H3]. split; [auto| |eauto].
  intros session entry [He|(e & He & Heq)]%Hcache; [done|]. rewrite <- Heq. eauto.
Qed.

Lemma tame_bases {A} (t : Tx A) st : Tame t -> bases_ok st -> bases_ok (t st).2.
Proof. intros Ht. apply bases_ok_evolves, Ht. Qed.

Lemma fold_exact session base st :
  db_wf (tx_db st) -> (forall p, base = Some p -> valid_base (tx_db st) (SessionId_storage_key session) p) ->
  exists r, fold (M := Tx) session base st = (r, st)
    /\ (let? x := r in inl (fo_projection x)) = session_fold session (tx_db st).
Proof.
  intros Hwf Hbase. assert (exists r, fold_full (M := Tx) (SessionId_storage_key session) st = (r, st)
    /\ (let? x := r in inl (fo_projection x)) = session_fold session (tx_db st)) as Hfull.
  { unfold fold_full. simpl. unfold tx_bind, tx_read. rewrite <- full_exact.
    destruct (fold_rows _ _ _) as [[p n]|e]; simpl; eauto. }
  unfold fold. destruct base as [p|]; [|done]. case_decide; [|done]. simpl. unfold tx_bind at 1, tx_read at 1.
  destruct (fold_anchored _ _) as [r|] eqn:Ha; [|done]. apply anchored_exact in Ha; [|done|by apply Hbase].
  rewrite <- Ha. destruct r as [[q n]|e]; simpl; eauto.
Qed.

(** Inside a transaction a projection is the replay of the log as the transaction sees it. *)
Lemma replay_projection_exact session st :
  bases_ok st -> exists cache, replay_projection session st = (session_fold session (tx_db st), st <| tx_cache := cache |>).
Proof.
  intros [Hwf Hcache Hsnap]. unfold replay_projection, tx_bind at 1, transaction_base, tx_bind at 1, tx_cache_get.
  pose proof (cache_get_base session (tx_cache st)) as Hget. destruct (cache_get session (tx_cache st)) as [base cache] eqn:E.
  exists cache. simpl in *. set (st' := st <| tx_cache := cache |>).
  assert (forall base', (forall p, base' = Some p -> valid_base (tx_db st) (SessionId_storage_key session) p) ->
    tx_bind (fold (M := Tx) session base') (fun folded => tx_ret (fo_projection folded)) st'
    = (session_fold session (tx_db st), st')) as Hfold.
  { intros base' Hb. destruct (fold_exact session base' st') as (r & Hr & Hv); [done|done|].
    unfold tx_bind. rewrite Hr. change (tx_db st') with (tx_db st) in Hv. rewrite <- Hv. by destruct r. }
  destruct base as [b|].
  - apply (Hfold (Some (ba_projection b))). intros p [= <-]. destruct (Hget b eq_refl) as (entry & He & ->). by apply Hcache.
  - apply (Hfold (db_snapshots (tx_db st) !! SessionId_storage_key session ≫= usable_snapshot)). intros p (sn & Hsn & Hp)%bind_Some. by eapply Hsnap.
Qed.

(** The same, in front of what uses it. *)
Lemma replay_then {A} session (f : Projection -> Tx A) st :
  bases_ok st -> exists st0, bases_ok st0 /\ tx_db st0 = tx_db st
    /\ tx_bind (replay_projection session) f st
       = match session_fold session (tx_db st) with inl p => f p st0 | inr e => (inr e, st0) end.
Proof.
  intros Hok. exists (replay_projection session st).2. split; [by apply tame_bases; [apply built_tame, replay_projection_built|]|].
  unfold tx_bind. destruct (replay_projection_exact session st Hok) as [cache ->]. split; [done|].
  by destruct (session_fold session (tx_db st)).
Qed.

Lemma cache_new_none session : pc_entries cache_new !! session = None.
Proof. apply lookup_empty. Qed.

(** The store as it is created. *)
Lemma empty_bases : bases_ok (mkTxState Db_empty cache_new).
Proof.
  split.
  - split; [done|by intros r Hr%elem_of_nil|done].
  - intros s e He. simpl in He. by rewrite cache_new_none in He.
  - intros k sn p He. change (db_snapshots _) with (∅ : gmap string SnapshotRow) in He. by rewrite lookup_empty in He.
Qed.
End exact.

(** Step over the read of a projection, in a hypothesis or in the goal. *)
Tactic Notation "replay_in" hyp(H) "with" constr(Hok) "as" ident(st) ident(Hst) ident(Hdb) :=
  match type of H with
  | context [tx_bind (replay_projection ?s) ?f ?st0] =>
      let Hx := fresh in destruct (replay_then s f st0 Hok) as (st & Hst & Hdb & Hx); rewrite Hx in H; clear Hx
  end.
Tactic Notation "replay_goal" "with" constr(Hok) "as" ident(st) ident(Hst) ident(Hdb) :=
  match goal with
  | |- context [tx_bind (replay_projection ?s) ?f ?st0] =>
      let Hx := fresh in destruct (replay_then s f st0 Hok) as (st & Hst & Hdb & Hx); rewrite Hx; clear Hx
  end.

(** * Appending events ([StoreTx])

    What an append does to the log: the session's rows grow by the events, in order, with fresh
    sequences; the other sessions' rows stay.  When the codec gives the events back, the session then
    folds to its fold before, with the new envelopes applied. *)

Section append.
Context `{U : UuidLib} `{J : JsonLib} `{L : !StoreLib}.
Implicit Types (db : Db) (st : TxState) (key : string).
Local Open Scope N_scope.

(** ** Programs that write side tables only *)

Definition Sideways {A} (t : Tx A) : Prop :=
  forall st, same_core (tx_db st) (tx_db (t st).2) /\ tx_cache (t st).2 = tx_cache st.

Lemma same_core_refl db : same_core db db.
Proof. by split. Qed.

Lemma same_core_trans db1 db2 db3 : same_core db1 db2 -> same_core db2 db3 -> same_core db1 db3.
Proof. intros [] []. split; congruence. Qed.

Lemma sideways_ret {A} (a : A) : Sideways (tx_ret a).
Proof. intros st. split; [apply same_core_refl|done]. Qed.

Lemma sideways_bind {A B} (t : Tx A) (f : A -> Tx B) : Sideways t -> (forall a, Sideways (f a)) -> Sideways (tx_bind t f).
Proof.
  intros Ht Hf st. unfold tx_bind. destruct (Ht st) as [H1 H2]. destruct (t st) as [[a|e] st1]; [|done]. simpl in *.
  destruct (Hf a st1) as [H3 H4]. split; [by eapply same_core_trans|congruence].
Qed.

Lemma sideways_write f : (forall db, same_core db (f db)) -> Sideways (tx_write f).
Proof. intros Hf st. split; [apply Hf|done]. Qed.

Lemma sideways_session id row : Sideways (insert_session id row).
Proof.
  intros st. unfold insert_session. destruct (db_sessions _ !! id); [by split|].
  by destruct (match sr_parent_id row with None => true | Some _ => _ end).
Qed.

Lemma sideways_team_run root ts : Sideways (ensure_team_run root ts).
Proof. apply sideways_bind; [apply sideways_session|intros _]. by apply sideways_write. Qed.

Lemma materialize_sideways root event ts : Sideways (materialize_event_side_tables root event ts).
Proof.
  unfold materialize_event_side_tables.
  destruct event; repeat first [apply sideways_ret | apply sideways_team_run | apply sideways_session
    | by apply sideways_write | apply sideways_bind; [|intros ?] | match goal with |- Sideways (match ?x with _ => _ end) => destruct x end].
Qed.

(** ** What was appended *)

Record appended (session : SessionId) (envs : list Envelope) st st' : Prop := {
  ap_rows : exists rows,
    rows_of (SessionId_storage_key session) (tx_db st') = (rows_of (SessionId_storage_key session) (tx_db st) ++ rows)%list
    /\ Forall2 (fun row env => lr_seq row = env_seq env /\ lr_ts row = env_ts_millis env
                  /\ event_to_string (env_event env) = Some (lr_payload row)) rows envs;
  ap_other : forall key, key <> SessionId_storage_key session -> rows_of key (tx_db st') = rows_of key (tx_db st);
  ap_fresh : increasing (env_seq <$> envs) /\ Forall (fun env => db_last_seq (tx_db st) < env_seq env) envs;
  ap_last : Forall (fun env => env_seq env <= db_last_seq (tx_db st')) envs /\ db_last_seq (tx_db st) <= db_last_seq (tx_db st');
  ap_cache : tx_cache st' = tx_cache st;
  ap_claims : db_claims (tx_db st') = db_claims (tx_db st);
  ap_journal : db_journal (tx_db st') = db_journal (tx_db st);
  ap_resumes : db_resumes (tx_db st') = db_resumes (tx_db st);
}.

Lemma appended_nil session st : appended session [] st st.
Proof. split; [exists []; by rewrite app_nil_r|done|done|split; [done|lia]|done..]. Qed.

Lemma appended_trans session envs1 envs2 st1 st2 st3 :
  appended session envs1 st1 st2 -> appended session envs2 st2 st3 -> appended session (envs1 ++ envs2) st1 st3.
Proof.
  intros [(r1 & H1 & F1) O1 [I1 L1] [M1 N1] C1 A1 B1 D1] [(r2 & H2 & F2) O2 [I2 L2] [M2 N2] C2 A2 B2 D2]. split.
  - exists (r1 ++ r2)%list. split; [by rewrite H2, H1, app_assoc|by apply Forall2_app].
  - intros key Hk. by rewrite O2, O1.
  - rewrite fmap_app. split.
    + apply increasing_app. split_and!; [done|done|]. intros x y (e1 & -> & He1)%list_elem_of_fmap (e2 & -> & He2)%list_elem_of_fmap.
      eapply Forall_forall in M1; [|exact He1]. eapply Forall_forall in L2; [|exact He2]. simpl in *. lia.
    + apply Forall_app. split; [done|]. eapply Forall_impl; [exact L2|]. simpl. intros. lia.
  - split; [|lia]. apply Forall_app. split; [|done]. eapply Forall_impl; [exact M1|]. simpl. intros. lia.
  - congruence.
  - congruence.
  - congruence.
  - congruence.
Qed.

Lemma append_appended session event st env st' :
  append_event_in_transaction session event st = (inl env, st') -> appended session [env] st st' /\ env_event env = event.
Proof.
  unfold append_event_in_transaction, tx_bind, json_event. destruct (event_to_string event) as [payload|] eqn:Ep; simpl; [|done].
  unfold insert_log. case_decide as Hmax; simpl; [|done]. set (seq := db_last_seq (tx_db st) + 1) in *. set (row := mkLogRow _ _ _ _).
  match goal with |- context [materialize_event_side_tables _ _ _ ?s] => set (st1 := s) end. pose proof (materialize_sideways session event (append_time seq) st1) as [[Hl Hn _ Hc Hj Hr] Hcache].
  destruct (materialize_event_side_tables _ _ _ st1) as [[u|e] st2]; [|done]. simpl in *. intros [= <- <-]. split; [|done].
  assert (forall key, rows_of key (tx_db st2) = (rows_of key (tx_db st) ++ filter (fun row => lr_session row = key) [row])%list) as Hrows.
  { intros key. unfold rows_of. by rewrite Hl, filter_app. }
  split; simpl; try done.
  - exists [row]. rewrite Hrows, filter_cons, decide_True by done. split; [done|]. by repeat constructor.
  - intros key Hk. rewrite Hrows, filter_cons, decide_False by (by intros <-). by rewrite app_nil_r.
  - split; [by repeat constructor|]. apply Forall_singleton. simpl. lia.
  - rewrite Hn. split; [by apply Forall_singleton|lia].
Qed.

Lemma append_map_appended session events st envs st' :
  tx_map (append_event_in_transaction session) events st = (inl envs, st') ->
  appended session envs st st' /\ env_event <$> envs = events.
Proof.
  revert st envs. induction events as [|event events IH]; intros st envs; simpl; [intros [= <- <-]; split; [apply appended_nil|done]|].
  unfold tx_bind at 1. destruct (append_event_in_transaction session event st) as [[env|e] st1] eqn:E; [|done].
  apply append_appended in E as [Ha He]. unfold tx_bind. destruct (tx_map _ events st1) as [[envs1|e] st2] eqn:E2; [|done].
  intros [= <- <-]. apply IH in E2 as [Ha2 He2]. split; [by apply (appended_trans session [env] envs1 st st1 st2)|].
  rewrite fmap_cons. by rewrite He, He2.
Qed.

(** The codec gives the event back. *)
Definition codec_keeps (event : Event.t) : Prop :=
  forall payload, event_to_string event = Some payload -> event_from_str payload = Some event.

Lemma appended_fold session envs st st' p :
  appended session envs st st' -> Forall (fun env => codec_keeps (env_event env)) envs ->
  session_fold session (tx_db st) = inl p -> session_fold session (tx_db st') = inl (foldl apply p envs).
Proof.
  intros [(rows & Hrows & Hr) _ _ _ _ _ _ _] Hc. unfold session_fold, replay. rewrite Hrows, try_map_app.
  destruct (try_map decode_row (rows_of _ (tx_db st))) as [envs0|]; [|done]. intros [= <-].
  assert (try_map decode_row rows = inl envs) as ->; [|simpl; by rewrite from_events_app].
  apply try_map_ok. clear Hrows. induction Hr as [|row env rows envs (Hs & Ht & He) _ IH]; [constructor|].
  apply Forall_cons in Hc as [Hk Hc]. constructor; [|by apply IH]. unfold decode_row. rewrite (Hk _ He), Hs, Ht. by destruct env.
Qed.

Lemma appended_other session envs st st' other :
  appended session envs st st' -> SessionId_storage_key other <> SessionId_storage_key session ->
  session_fold other (tx_db st') = session_fold other (tx_db st).
Proof. intros Ha Hne. unfold session_fold, replay. by rewrite (ap_other _ _ _ _ Ha). Qed.

(** New envelopes come after everything folded so far. *)
Lemma fold_last_seq session db p :
  db_wf db -> session_fold session db = inl p -> p_last_seq p <= db_last_seq db.
Proof. intros Hwf Hp. by apply (session_fold_valid session db p Hwf Hp). Qed.
End append.

(** * Deleting a session ([Store])

    The recursive query finds exactly the descendants of a session by the parent links of the session
    table, within as many rounds as there are rows; the deletion removes the rows of these sessions,
    and no other, from the six tables it covers, and nothing at all when the log grew past the row the
    caller named. *)

Section delete.
Context `{U : UuidLib} `{J : JsonLib} `{L : !StoreLib}.
Implicit Types (db : Db) (sessions : gmap string SessionRow) (tree : gset string) (key : string).

(** ** The tree of a session *)

(** [child] names [parent] in the session table. *)
Definition parent_link sessions (parent child : string) : Prop :=
  exists sn, sessions !! child = Some sn /\ sr_parent_id sn = Some parent.

Definition children sessions tree : gset string := dom (filter (fun entry => child_of tree entry.2 = true) sessions).

Lemma elem_of_children sessions tree child :
  child ∈ children sessions tree <-> exists parent, parent ∈ tree /\ parent_link sessions parent child.
Proof.
  unfold children, parent_link. rewrite elem_of_dom. unfold is_Some. setoid_rewrite map_lookup_filter_Some. unfold child_of. simpl.
  split.
  - intros (sn & Hsn & Hc). destruct (sr_parent_id sn) as [parent|] eqn:E; [|done]. apply bool_decide_eq_true in Hc. eauto.
  - intros (parent & Hp & sn & Hsn & Hpar). exists sn. split; [done|]. rewrite Hpar. by apply bool_decide_eq_true.
Qed.

(** Nothing but descendants. *)
Lemma session_tree_sound fuel sessions tree key :
  key ∈ session_tree fuel sessions tree -> exists root, root ∈ tree /\ rtc (parent_link sessions) root key.
Proof.
  revert tree. induction fuel as [|fuel IH]; intros tree; simpl; [intros H; by exists key; split; [|apply rtc_refl]|].
  intros (root & [Hr|Hr]%elem_of_union & Hpath)%IH; [by exists root|].
  apply elem_of_children in Hr as (parent & Hp & Hlink). exists parent. split; [done|]. by eapply rtc_l.
Qed.

Lemma session_tree_grows fuel sessions tree : tree ⊆ session_tree fuel sessions tree.
Proof. revert tree. induction fuel as [|fuel IH]; intros tree; simpl; [done|]. etrans; [|apply IH]. set_solver. Qed.

Lemma session_tree_fixed fuel sessions tree : children sessions tree ⊆ tree -> session_tree fuel sessions tree = tree.
Proof.
  intros Hc. revert tree Hc. induction fuel as [|fuel IH]; intros tree Hc; simpl; [done|].
  change (dom _) with (children sessions tree).
  assert (tree ∪ children sessions tree = tree) as -> by set_solver. by apply IH.
Qed.

(** Enough rounds close the set: a round that is not the last adds a row of the table. *)
Lemma session_tree_closed fuel sessions tree :
  size (dom sessions ∖ tree) <= fuel -> children sessions (session_tree fuel sessions tree) ⊆ session_tree fuel sessions tree.
Proof.
  revert tree. induction fuel as [|fuel IH]; intros tree Hsize; simpl.
  - intros child Hc. pose proof Hc as (parent & _ & sn & Hsn & _)%elem_of_children.
    destruct (decide (child ∈ tree)); [done|]. exfalso. assert (child ∈ dom sessions ∖ tree) as Hin.
    { apply elem_of_difference. split; [by eapply elem_of_dom_2|done]. }
    assert (size (dom sessions ∖ tree) <> 0) by (apply size_non_empty_iff; set_solver). lia.
  - change (dom _) with (children sessions tree). destruct (decide (children sessions tree ⊆ tree)) as [Hsub|Hnot].
    + assert (tree ∪ children sessions tree = tree) as -> by set_solver. by rewrite session_tree_fixed.
    + apply IH. destruct (set_choose_or_empty (children sessions tree ∖ tree)) as [[child [Hc Hn]%elem_of_difference]|He].
      2: { destruct Hnot. intros x Hx. destruct (decide (x ∈ tree)) as [|Hx']; [done|]. exfalso. apply (not_elem_of_empty (C := gset string) x). apply He. by apply elem_of_difference. }
      assert (child ∈ dom sessions) as Hdom by (apply elem_of_children in Hc as (p & _ & sn & Hsn & _); by eapply elem_of_dom_2).
      assert (dom sessions ∖ (tree ∪ children sessions tree) ⊂ dom sessions ∖ tree) as Hlt by (split; set_solver).
      apply subset_size in Hlt. lia.
Qed.

(** The query finds the session and its descendants. *)
Lemma tree_keys_spec key db other :
  other ∈ tree_keys key db <-> rtc (parent_link (db_sessions db)) key other.
Proof.
  unfold tree_keys. set (tree := session_tree _ _ _). split.
  - intros (root & ->%elem_of_singleton & Hpath)%session_tree_sound. done.
  - assert (children (db_sessions db) tree ⊆ tree) as Hclosed.
    { apply session_tree_closed. rewrite <- size_dom. apply subseteq_size. set_solver. }
    assert (key ∈ tree) as Hkey by (apply session_tree_grows; set_solver).
    induction 1 as [k|k1 k2 k3 H12 _ IH] in Hkey |- *; [done|]. apply IH. apply Hclosed, elem_of_children. eauto.
Qed.

(** ** The deletion *)

(** The six tables without the rows of the keys; the others as they were. *)
Record without (keys : list string) db db' : Prop := {
  wo_log : db_log db' = filter (fun row => lr_session row ∉ keys) (db_log db);
  wo_ledger : db_ledger db' = filter (fun row => le_session row ∉ keys) (db_ledger db);
  wo_resumes : db_resumes db' = filter (fun row => rr_session_key row ∉ keys) (db_resumes db);
  wo_open : forall s m, (s, m) ∈ db_open db' <-> (s, m) ∈ db_open db /\ s ∉ keys;
  wo_snapshots : forall k, db_snapshots db' !! k = if decide (k ∈ keys) then None else db_snapshots db !! k;
  wo_blobs : forall k b, db_blobs db' !! (k, b) = if decide (k ∈ keys) then None else db_blobs db !! (k, b);
  wo_rest : db_last_seq db' = db_last_seq db /\ db_sessions db' = db_sessions db /\ db_team_runs db' = db_team_runs db
    /\ db_team_members db' = db_team_members db /\ db_mail db' = db_mail db /\ db_tasks db' = db_tasks db
    /\ db_claims db' = db_claims db /\ db_journal db' = db_journal db;
}.

Lemma filter_notin_cons {A} (f : A -> string) k keys (l : list A) :
  filter (fun x => f x <> k) (filter (fun x => f x ∉ keys) l) = filter (fun x => f x ∉ k :: keys) l.
Proof. rewrite list_filter_filter. apply list_filter_iff. intros x. rewrite not_elem_of_cons. naive_solver. Qed.

Lemma filter_notin_nil {A} (f : A -> string) (l : list A) : filter (fun x => f x ∉ []) l = l.
Proof. apply filter_every, Forall_forall. intros x _. apply not_elem_of_nil. Qed.

Lemma decide_cons {A} (i k : string) keys (x y : A) :
  (if decide (i ∈ k :: keys) then x else y) = if decide (i = k) then x else if decide (i ∈ keys) then x else y.
Proof.
  destruct (decide (i = k)) as [->|Hne]; [by rewrite decide_True by left|].
  destruct (decide (i ∈ keys)) as [Hin|Hin]; [by rewrite decide_True by (by right)|].
  rewrite decide_False; [done|]. by intros [?|?]%elem_of_cons.
Qed.

Lemma delete_keys_without keys db : without keys db (foldr delete_key db keys).
Proof.
  induction keys as [|k keys [H1 H2 H3 H4 H5 H6 H7]]; simpl.
  { split; rewrite ?filter_notin_nil; try done. intros s m. split; [|by intros []]. intros ?. split; [done|apply not_elem_of_nil]. }
  split; simpl.
  - by rewrite H1, filter_notin_cons.
  - by rewrite H2, filter_notin_cons.
  - by rewrite H3, filter_notin_cons.
  - intros s m. rewrite elem_of_filter, H4, not_elem_of_cons. simpl. naive_solver.
  - intros i. rewrite decide_cons, <- H5. destruct (decide (i = k)) as [->|Hne]; [apply lookup_delete_eq|by apply lookup_delete_ne].
  - intros i b. rewrite decide_cons, <- H6, map_lookup_filter. destruct (db_blobs _ !! (i, b)) as [blob|]; simpl; [|by case_decide].
    destruct (decide (i = k)) as [->|Hne]; case_guard; simpl in *; done.
  - done.
Qed.

Lemma without_log_first key keys db db' :
  key ∈ keys -> without keys (db <| db_log ::= filter (fun row => lr_session row <> key) |>) db' -> without keys db db'.
Proof.
  intros Hkey [H1 H2 H3 H4 H5 H6 H7]. split; [|done..]. rewrite H1. simpl. rewrite list_filter_filter.
  apply list_filter_iff. set_solver.
Qed.

Lemma without_fold session keys db db' :
  SessionId_storage_key session ∈ keys -> without keys db db' -> session_fold session db' = inl Projection_default.
Proof.
  intros Hkey [Hlog _ _ _ _ _ _]. unfold session_fold, replay, rows_of. rewrite Hlog, filter_none; [done|].
  apply Forall_forall. intros row [Hout _]%list_elem_of_filter Heq. by rewrite Heq in Hout.
Qed.

(** C20: deleting a session removes exactly the session and the descendants its parent links give (the
    recursive query ends and is complete): their rows leave the log, the usage ledger, the index of
    open messages, the pending resumes, the snapshots and the saved file states, everything else stays
    as it was, and each of these sessions then folds to the empty projection.  When the caller names
    the last row it knows and the log has another one, nothing changes and the call says so. *)
Theorem delete_session_exact (session : SessionId) (last_seq : option EventSeq) (st : TxState) :
  let key := SessionId_storage_key session in
  let rows := rows_of key (tx_db st) in
  match last_seq with
  | Some n => max_seq rows = Some (seq_param n) \/ transact (delete_session_tx session last_seq) st = (inl None, st)
  | None => True
  end
  /\ (match last_seq with Some n => max_seq rows = Some (seq_param n) | None => True end ->
      exists keys st',
        transact (delete_session_tx session last_seq) st = (inl (Some (keys, bool_decide (rows <> []))), st')
        /\ (forall k, k ∈ keys <-> rtc (parent_link (db_sessions (tx_db st))) key k)
        /\ without keys (tx_db st) (tx_db st') /\ tx_cache st' = tx_cache st
        /\ forall s, SessionId_storage_key s ∈ keys -> session_fold s (tx_db st') = inl Projection_default).
Proof.
  intros key rows. unfold delete_session_tx, transact, tx_bind, tx_read. simpl. split.
  - destruct last_seq as [n|]; [|done]. destruct (decide (max_seq rows = Some (seq_param n))) as [|Hne]; [by left|right].
    fold key rows. rewrite bool_decide_false by done. simpl. by destruct st.
  - intros Hn. fold key rows.
    assert ((match last_seq with None => true | Some n => bool_decide (max_seq rows = Some (seq_param n)) end) = true) as ->.
    { destruct last_seq as [n|]; [by apply bool_decide_eq_true|done]. }
    assert (negb (bool_decide (rows <> [])) && bool_decide (is_Some last_seq) = false) as Hgo.
    { destruct last_seq as [n|]; [|apply andb_false_r]. rewrite (bool_decide_true (rows <> [])); [done|]. by intros Hnil; rewrite Hnil in Hn. }
    simpl. rewrite Hgo. simpl. set (db1 := (tx_db st) <| db_log ::= filter (fun row => lr_session row <> key) |>).
    exists (elements (tree_keys key db1)), (st <| tx_db := foldr delete_key db1 (elements (tree_keys key db1)) |>).
    assert (forall k, k ∈ elements (tree_keys key db1) <-> rtc (parent_link (db_sessions (tx_db st))) key k) as Hkeys.
    { intros k. rewrite elem_of_elements. apply (tree_keys_spec key db1). }
    assert (without (elements (tree_keys key db1)) (tx_db st) (foldr delete_key db1 (elements (tree_keys key db1)))) as Hwo.
    { apply (without_log_first key); [apply Hkeys, rtc_refl|apply delete_keys_without]. }
    split_and!; [done|done|done|done|]. intros s Hs. by eapply without_fold.
Qed.
End delete.
