(* ===== verification/ReadSpec.v ===== *)
(** * Reads are replays ([Store], [ProjCache], [StoreTx])

    The operations of the store run as tasks of one process over shared tables and a shared cache, in
    any interleaving of their statements, with statements failing and the process restarting at any
    time.  Whatever base a read starts from, the projection it returns is the replay of the session's
    log at some moment between its call and its return. *)

From S2P Require Import Prelude RustStr Platform Ids Scope Wire Workflow Usage Events Team Projection Transcript Snapshot Result Effects StoreDb StoreTx Store Claims Journal WfAdmission Recovery Mailbox StoreBuilt Concurrent StorePool StoreSpec.

Section world.
Context `{U : UuidLib} `{J : JsonLib} `{L : !StoreLib}.

(** ** What holds of every run *)

(** JSON keeps the projections a replay of the tables gives. *)
Definition json_keeps (db : Db) : Prop :=
  forall session p, session_fold session db = inl p -> kept_projection json_reread json_reread_number p.

Definition world_ok (w : World) : Prop := bases_ok (sw_tx w) /\ current w.
Definition world_kept (w : World) : Prop := Forall json_keeps (sw_past w).

Record world_grows (w w' : World) : Prop := {
  wg_past : past_grows w w';
  wg_wf : db_wf (tx_db (sw_tx w)) -> db_wf (tx_db (sw_tx w'));
  wg_base : forall key p, db_wf (tx_db (sw_tx w)) -> valid_base (tx_db (sw_tx w)) key p -> valid_base (tx_db (sw_tx w')) key p;
}.
#[global] Instance world_grows_preorder : PreOrder world_grows.
Proof.
  split; [by split|]. intros w1 w2 w3 [p1 f1 b1] [p2 f2 b2]. split; [by etrans|auto|auto].
Qed.

(** A read answers with a replay of one of them, or a statement failed. *)
Definition read_answer (session : SessionId) (born : World) (r : Projection + StoreError) (w : World) : Prop :=
  r = inr SeSqlite \/ exists db, db ∈ since born w /\ r = session_fold session db.

Definition op_answer (op : StoreOp) (born : World) (r : StoreAnswer) (w : World) : Prop :=
  match op with
  | OpRead session => exists a, r = AnRead a /\ read_answer session born a w
  | _ => True
  end.
(** ** Calls *)

Lemma evolves_grows w w' :
  sw_past w' = sw_past w ++ [tx_db (sw_tx w')] -> tx_evolves (sw_tx w) (sw_tx w') -> world_ok w ->
  world_ok w' /\ world_grows w w'.
Proof.
  intros Hpast He [Hok _]. split; [split|].
  - by eapply bases_ok_evolves.
  - unfold current. by rewrite Hpast, last_snoc.
  - destruct He as [[Hwf Hb _] _]. split; [|done|done]. unfold past_grows. rewrite Hpast. by eexists.
Qed.

(** Calls that keep every base valid on their own. *)
Definition benign {X} (e : StoreEff X) : Prop :=
  match e with
  | Query _ | OwnerCall _ => True
  | Transact t => Tame t
  | CacheCall f => forall c, cache_within c None (f c).2
  end.

Lemma benign_step X (e : StoreEff X) w x w' :
  benign e -> world_ok w -> store_step X e w x w' -> world_ok w' /\ world_grows w w'.
Proof.
  intros He Hok [Hpast Hstep]. apply evolves_grows; [done| |done]. clear Hpast Hok. destruct e as [A f|A t|A f|A f]; simpl in *.
  - by destruct Hstep as (_ & -> & _).
  - destruct Hstep as (_ & [Ht|(_ & Hdb & Hc)]); [|split; [by rewrite Hdb|done]].
    specialize (He (sw_tx w)). by rewrite <- Ht in He.
  - destruct Hstep as (_ & Hdb & Hf). split; [by rewrite Hdb|]. specialize (He (tx_cache (sw_tx w))). by rewrite <- Hf in He.
  - by destruct Hstep as (-> & _).
Qed.

Abbreviation wsafe := (safe store_step world_ok world_kept world_grows).

Lemma safe_benign {X Y} (e : StoreEff X) (k : X -> Task StoreEff Y) Q w :
  benign e -> (forall x w', wsafe (k x) Q w') -> wsafe (Call e k) Q w.
Proof.
  intros He Hk w1 _ HI _ x w2 Hx _. destruct (benign_step _ _ _ _ _ He HI Hx) as [HI2 HR]. split_and!; [done..|]. apply Hk.
Qed.

Lemma safe_benign_try {X Y} (e : StoreEff (X + StoreError)) (g : X -> StoreTask Y) Q w :
  benign e -> (forall r w', wsafe (match r with inl x => g x | inr err => Ret (inr err) end) Q w') ->
  wsafe (try_bind (call e) g) Q w.
Proof. apply safe_benign. Qed.

(** ** Reads *)

Section read.
Context (session : SessionId) (born : World).
Abbreviation key := (SessionId_storage_key session).

(** A projection a read may start from. *)
Definition starts (p : Projection) (w : World) : Prop :=
  db_wf (tx_db (sw_tx w)) /\ valid_base (tx_db (sw_tx w)) key p.

Lemma starts_grows p w w' : world_grows w w' -> starts p w -> starts p w'.
Proof. intros [_ Hwf Hb] [H1 H2]. split; auto. Qed.

Record answered (p : Projection) (w : World) : Prop := {
  an_replay : exists db, db ∈ since born w /\ session_fold session db = inl p;
  an_starts : starts p w;
}.

Lemma answered_grows p w w' : world_grows w w' -> answered p w -> answered p w'.
Proof.
  intros Hw [(db & Hdb & Hp) Hs]. split; [|by eapply starts_grows]. exists db. split; [by eapply since_grows; [apply Hw|]|done].
Qed.

Definition present (w : World) : Prop := world_grows born w /\ sw_past born <> [].

Lemma present_grows w w' : world_grows w w' -> present w -> present w'.
Proof. intros Hw [Hb Hne]. split; [by etrans|done]. Qed.

Definition folded_answer (r : Folded + StoreError) (w : World) : Prop :=
  match r with
  | inl folded => answered (fo_projection folded) w
  | inr e => read_answer session born (inr e) w
  end.

(** What a fold of the tables of [w] gives is an answer. *)
Lemma replayed_answer (r : Projection * N + StoreError) b w :
  present w -> world_ok w -> fold_value r = session_fold session (tx_db (sw_tx w)) ->
  match r with
  | inl (p, n) => folded_answer (inl (mkFolded p n b)) w
  | inr e => folded_answer (inr e) w
  end.
Proof.
  intros [Hborn Hne] Hok Hr. pose proof (since_now _ _ (wg_past _ _ Hborn) (proj2 Hok) Hne) as Hin.
  destruct r as [[p n]|e]; simpl in *; [|right; by eexists]. destruct Hok as [[Hwf _ _] _].
  split; simpl; [by eexists|]. split; [done|]. by apply session_fold_valid.
Qed.

(** A query answers from the tables of one moment, or fails. *)
Lemma safe_query {A Y} (f : Db -> A) (k : A + StoreError -> Task StoreEff Y) Q w :
  present w ->
  (forall w1 w2, world_grows w w1 -> present w2 -> world_ok w2 -> sw_tx w2 = sw_tx w1 -> world_grows w1 w2 ->
     world_ok w1 -> wsafe (k (inl (f (tx_db (sw_tx w2))))) Q w2) ->
  (forall w', wsafe (k (inr SeSqlite)) Q w') ->
  wsafe (Call (Query f) k) Q w.
Proof.
  intros Hp Hk HQ w1 Hw HI _ x w2 Hx _. destruct (benign_step _ (Query f) _ _ _ Logic.I HI Hx) as [HI2 HR].
  split_and!; [done..|]. destruct Hx as (_ & [->| ->] & Htx & _); [|apply HQ].
  rewrite <- Htx. apply (Hk w1); [done| |done..]. by eapply present_grows; [|eapply present_grows].
Qed.

Lemma fold_full_safe w : present w -> wsafe (fold_full (M := StoreTask) key) folded_answer w.
Proof.
  intros Hp. unfold fold_full. cbn [conn_bind conn_read conn_ret conn_fail task_conn try_bind bind_task call].
  apply safe_query; [done| |by left]. intros w1 w2 _ Hp2 Hok _ _ _.
  pose proof (replayed_answer (fold_rows (rows_of key (tx_db (sw_tx w2))) Projection_default 0) true w2 Hp2 Hok
    (full_exact _ _)) as Ha. by destruct (fold_rows _ _ _) as [[p n]|e].
Qed.

Lemma fold_safe base w :
  present w -> (forall p, base = Some p -> starts p w) ->
  wsafe (fold (M := StoreTask) session base) folded_answer w.
Proof.
  intros Hp Hbase. unfold fold. destruct base as [p|]; [|by apply fold_full_safe].
  case_decide; [|by apply fold_full_safe]. cbn [conn_bind conn_read conn_ret conn_fail task_conn try_bind bind_task call].
  apply safe_query; [done| |by left].
  intros w1 w2 Hw Hp2 Hok Htx Hw2 _. specialize (Hbase p eq_refl).
  apply (starts_grows _ _ _ Hw), (starts_grows _ _ _ Hw2) in Hbase as [Hwf Hb].
  destruct (fold_anchored _ _) as [r|] eqn:Ha; [|by apply fold_full_safe].
  pose proof (replayed_answer r false w2 Hp2 Hok (anchored_exact _ _ _ _ Hwf Hb Ha)) as Hr. by destruct r as [[q n]|e].
Qed.

(** *** What a read writes back *)

Lemma cache_put_step (f : ProjectionCache -> unit * ProjectionCache) p w x w' :
  (forall c, cache_within c (Some (session, p)) (f c).2) -> starts p w -> world_ok w ->
  store_step unit (CacheCall f) w x w' -> world_ok w' /\ world_grows w w'.
Proof.
  intros Hf [_ Hp] [[Hwf Hc Hs] _] (Hpast & _ & Hdb & Hx). specialize (Hf (tx_cache (sw_tx w))). rewrite <- Hx in Hf. simpl in Hf.
  split; [split; [split|]|split].
  - by rewrite Hdb.
  - rewrite Hdb. intros s e [[= -> Heq]|(e' & He & Heq)]%Hf; rewrite <- Heq; [done|by apply Hc].
  - by rewrite Hdb.
  - unfold current. by rewrite Hpast, last_snoc.
  - unfold past_grows. rewrite Hpast. by eexists.
  - by rewrite Hdb.
  - by rewrite Hdb.
Qed.

Lemma answered_kept p w : world_kept w -> answered p w -> kept_projection json_reread json_reread_number p.
Proof.
  intros Hk [(db & Hdb & Hp) _]. unfold world_kept, since in *. rewrite <- (take_drop (pred (length (sw_past born))) (sw_past w)) in Hk.
  apply Forall_app in Hk as [_ Hk]. eapply Forall_forall in Hk; [|exact Hdb]. by eapply Hk.
Qed.

Context `{!StoreLaws L}.

(** The tables after a snapshot was written: at most one row is new, and it decodes to [p]. *)
Lemma persist_outcome p st :
  kept_projection json_reread json_reread_number p ->
  let st' := (persist_snapshot session p st).2 in
  tx_cache st' = tx_cache st /\ db_log (tx_db st') = db_log (tx_db st) /\ db_last_seq (tx_db st') = db_last_seq (tx_db st)
  /\ forall k sn q, db_snapshots (tx_db st') !! k = Some sn -> usable_snapshot sn = Some q ->
       db_snapshots (tx_db st) !! k = Some sn \/ k = key /\ q = p.
Proof.
  intros Hkept. unfold persist_snapshot. destruct (encode_snapshot _ _) as [payload|] eqn:Henc; simpl; [|by auto].
  pose proof (decode_encode_kept _ _ _ _ _ _ snapshot_serde Hkept Henc) as Hdec.
  destruct (existsb _ _); simpl; [|by auto]. split_and!; [done..|]. intros k sn q.
  destruct (decide (k = key)) as [->|Hne]; [|rewrite lookup_insert_ne by done; by left].
  rewrite lookup_insert_eq. intros [= <-]. unfold usable_snapshot. simpl. rewrite Hdec. simpl.
  case_decide; [|done]. intros [= <-]. by right.
Qed.

Lemma persist_step p w x w' :
  answered p w -> world_ok w -> world_kept w ->
  store_step _ (Transact (persist_snapshot session p)) w x w' -> world_ok w' /\ world_grows w w'.
Proof.
  intros Ha Hok Hk (Hpast & _ & [Hx|(_ & Hdb & Hc)]).
  - pose proof (persist_outcome p (sw_tx w) (answered_kept _ _ Hk Ha)) as Ho. rewrite <- Hx in Ho. simpl in Ho.
    destruct Ho as (Hc & Hl & Hn & Hs). destruct Hok as [[Hwf Hcache Hsnap] _].
    assert (forall k q, valid_base (tx_db (sw_tx w)) k q -> valid_base (tx_db (sw_tx w')) k q) as Hb.
    { intros k q. unfold valid_base, rows_of. by rewrite Hl, Hn. }
    assert (db_wf (tx_db (sw_tx w'))) as Hwf' by (destruct Hwf; split; rewrite ?Hl, ?Hn; done).
    split; [split; [split|]|split]; [done|..].
    + rewrite Hc. intros s e He. by apply Hb, Hcache.
    + intros k sn q Hsn Hq. apply Hb. destruct (Hs k sn q Hsn Hq) as [Hold|[-> ->]]; [by eapply Hsnap|]. apply Ha.
    + unfold current. by rewrite Hpast, last_snoc.
    + unfold past_grows. rewrite Hpast. by eexists.
    + done.
    + auto.
  - apply evolves_grows; [done| |done]. split; [by rewrite Hdb|done].
Qed.

(** *** The read *)

Lemma read_returns p w : answered p w -> read_answer session born (inl p) w.
Proof. intros [(db & Hdb & Hp) _]. right. by exists db. Qed.

(** Putting the answer into the cache, or forgetting the session. *)
Lemma put_safe p (f : ProjectionCache -> unit * ProjectionCache) w :
  (forall c, cache_within c (Some (session, p)) (f c).2) -> answered p w ->
  wsafe (let* _ := call (CacheCall f) in Ret (inl p)) (read_answer session born) w.
Proof.
  intros Hf Ha w1 Hw HI _ x w2 Hx _. apply (answered_grows _ _ _ Hw) in Ha.
  destruct (cache_put_step f p w1 x w2 Hf (an_starts _ _ Ha) HI Hx) as [HI2 HR]. split_and!; [done..|].
  simpl. apply read_returns. by eapply answered_grows.
Qed.

Lemma cache_within_weaken c extra c' : cache_within c None c' -> cache_within c extra c'.
Proof. intros H s e [He|He]%H; [done|by right]. Qed.

Lemma interval_step w x w' :
  world_ok w -> store_step _ (CacheCall (fun c => (pc_snapshot_interval c, c))) w x w' -> world_ok w' /\ world_grows w w'.
Proof. apply benign_step. intros c. apply cache_within_refl. Qed.

Lemma write_back_safe p persisted unpersisted w :
  answered p w -> wsafe (write_back session p persisted unpersisted) (read_answer session born) w.
Proof.
  intros Ha. unfold write_back. case_decide.
  { apply (put_safe p); [|done]. intros c. apply cache_within_weaken, (cache_remove_all_within [session]). }
  intros w1 Hw HI _ interval w2 Hx _. apply (answered_grows _ _ _ Hw) in Ha.
  destruct (interval_step _ _ _ HI Hx) as [HI2 HR]. apply (answered_grows _ _ _ HR) in Ha. split_and!; [done..|].
  cbn [bind_task]. match goal with |- context [bind_task (if ?b then _ else _) _] => destruct b end;
    [|apply (put_safe p); [intros c; apply cache_put_within|done]].
  clear Hx HI HR Hw w1 w. intros w3 Hw HI3 HK3 r w4 Hx _. apply (answered_grows _ _ _ Hw) in Ha.
  destruct (persist_step p w3 r w4 Ha HI3 HK3 Hx) as [HI4 HR]. split_and!; [done..|].
  apply (answered_grows _ _ _ HR) in Ha. destruct r; (apply (put_safe p); [intros c; apply cache_put_within|done]).
Qed.

Lemma read_from_safe base w :
  present w -> (forall b, base = Some b -> starts (ba_projection b) w) ->
  wsafe (read_from session base) (read_answer session born) w.
Proof.
  intros Hp Hbase. unfold read_from. destruct (match base with Some _ => _ | None => _ end) as [n m].
  apply safe_try. eapply safe_mono; [|apply fold_safe; [exact Hp|]].
  - intros [folded|e] w' Ha; [|done]. destruct (if fo_rebuilt folded then _ else _) as [a b]. by apply write_back_safe.
  - intros p. destruct base as [b|]; [|done]. intros [= <-]. by apply Hbase.
Qed.

Lemma cached_projection_safe w : present w -> wsafe (cached_projection session) (read_answer session born) w.
Proof.
  intros Hp w1 Hw HI _ cached w2 Hx _.
  destruct (benign_step _ (CacheCall (cache_get session)) _ _ _ (fun c => cache_get_within session c) HI Hx) as [HI2 HR].
  split_and!; [done..|]. pose proof (present_grows _ _ HR (present_grows _ _ Hw Hp)) as Hp2. simpl. destruct cached as [b|].
  - apply read_from_safe; [done|]. intros b' [= <-]. destruct Hx as (_ & _ & Hdb & Hf).
    destruct (cache_get_base session (tx_cache (sw_tx w1)) b ltac:(by rewrite <- Hf)) as (entry & He & ->).
    destruct HI as [[Hwf Hc _] _]. split; rewrite Hdb; [done|by apply Hc].
  - unfold load_snapshot. cbn [conn_bind conn_read conn_ret conn_fail task_conn try_bind bind_task call].
    apply safe_query; [done| |by left]. intros w3 w4 _ Hp4 Hok _ _ _.
    apply read_from_safe; [done|]. intros b (p & (sn & Hsn & Hu)%bind_Some & ->)%fmap_Some.
    destruct Hok as [[Hwf _ Hs] _]. split; [done|]. by eapply Hs.
Qed.
End read.

(** ** The other operations *)

Section operations.
Context `{!StoreLaws L}.

Lemma cached_projection_any session w : wsafe (cached_projection session) (fun _ _ => True) w.
Proof.
  intros w1 Hw HI HK x w2 Hx HK2. assert (present w1 w1) as Hp by (split; [done|apply current_nonempty, HI]).
  destruct (cached_projection_safe session w1 w1 Hp w1 ltac:(done) HI HK x w2 Hx HK2) as (? & ? & Hk).
  split_and!; [done..|]. by eapply safe_mono; [|exact Hk].
Qed.

Lemma warm_safe session w : wsafe (warm_projection session) (fun _ _ => True) w.
Proof. apply safe_try. eapply safe_mono; [|apply cached_projection_any]. by intros []. Qed.

Lemma safe_after_warm {X} session (t : StoreTask X) w :
  (forall w', wsafe t (fun _ _ => True) w') -> wsafe (let! _ := warm_projection session in t) (fun _ _ => True) w.
Proof. intros Ht. apply safe_try. eapply safe_mono; [|apply warm_safe]. by intros []. Qed.

Lemma quiet_safe {X} (t : StoreTask X) w :
  wsafe t (fun _ _ => True) w -> wsafe (quiet t) (fun _ _ => True) w.
Proof. intros Ht. apply safe_bind. eapply safe_mono; [|exact Ht]. done. Qed.
End operations.
End world.

(** Walks through a task whose calls are benign. *)
Ltac safe_step :=
  match goal with
  | |- safe _ _ _ _ (let! _ := warm_projection _ in _) _ _ => apply safe_after_warm; intros ?
  | |- safe _ _ _ _ (Call _ _) _ _ => apply safe_benign; [simpl; try exact Logic.I; try solve [apply built_tame; solve_built]|intros ? ?]
  | |- safe _ _ _ _ (try_bind (Ret _) _) _ _ => cbn [try_bind bind_task]
  | |- safe _ _ _ _ (try_bind (call _) _) _ _ => apply safe_benign_try; [simpl; try exact Logic.I; try solve [apply built_tame; solve_built]|intros ? ?]
  | |- safe _ _ _ _ (call _) _ _ => unfold call
  | |- safe _ _ _ _ (Ret _) _ _ => exact Logic.I
  | |- safe _ _ _ _ (match ?x with _ => _ end) _ _ => destruct x
  | |- safe _ _ _ _ (bind_task (Ret _) _) _ _ => cbn [bind_task]
  | |- safe _ _ _ _ (bind_task (call _) _) _ _ => unfold call; cbn [bind_task]
  end.

Section result.
Context `{U : UuidLib} `{J : JsonLib} `{L : !StoreLib} `{!StoreLaws L}.
Abbreviation wsafe := (safe store_step world_ok world_kept world_grows).

Lemma close_open_turns_safe session cause reason w : wsafe (close_open_turns session cause reason) (fun _ _ => True) w.
Proof. unfold close_open_turns. repeat safe_step. Qed.

Lemma recover_turns_safe owner w : wsafe (recover_interrupted_turns owner) (fun _ _ => True) w.
Proof.
  unfold recover_interrupted_turns, require_runtime_owner. repeat safe_step. apply safe_fold. intros report key w2.
  unfold recover_key. destruct (decode_session_key key) as [session|]; [|repeat safe_step].
  apply safe_try. eapply safe_mono; [|apply close_open_turns_safe]. by intros [].
Qed.

Lemma delete_safe session n w : wsafe (delete_session_where session n) (fun _ _ => True) w.
Proof. unfold delete_session_where. repeat safe_step. intros c. apply cache_remove_all_within. Qed.

Lemma quiet_op_safe op w :
  match op with OpRead _ => True | _ => wsafe (run_op op) (fun _ _ => True) w end.
Proof.
  destruct op; [done|..]; apply quiet_safe; try apply delete_safe; try apply recover_turns_safe; try apply close_open_turns_safe.
  all: unfold append_event, list_sessions, session_info, record_usage, read_usage, try_claim_new, recover_claim, release_claim.
  all: unfold commit_resident_mutation, claim_admission, start_admission, finalize_admission, recover_nonterminal_admissions.
  all: unfold admit_workflow_run, select_workflow, recover_nonterminal_workflows, checkpoint_for_handoff, begin_handoff_resume.
  all: unfold append_direct_mail, append_harness_mail, append_channel_mail, recover_resident_actor, finalize_resident_with_reason.
  all: unfold require_runtime_owner; repeat safe_step.
Qed.

Lemma op_answer_stable op born : stable world_grows (op_answer op born).
Proof.
  intros r w w' Hw. destruct op; simpl; try done. intros (a & -> & [->|(db & Hdb & Ha)]); eexists; (split; [done|]).
  - by left.
  - right. exists db. split; [by eapply since_grows; [apply Hw|]|done].
Qed.

Lemma op_safe op w : world_ok w -> wsafe (run_op op) (op_answer op w) w.
Proof.
  intros Hok. pose proof (quiet_op_safe op w) as Hq. destruct op; try exact Hq.
  apply safe_bind. eapply safe_mono; [|apply (cached_projection_safe _ w); split; [done|apply current_nonempty, Hok]].
  intros a w' Ha. by exists a.
Qed.

Lemma restart_ok w w' : world_ok w -> store_restart w w' -> world_ok w'.
Proof.
  intros [[Hwf Hc Hs] _] (Hdb & Hcache & _ & Hp). split; [split|].
  - by rewrite Hdb.
  - rewrite Hcache. intros s e He. by rewrite cache_new_none in He.
  - by rewrite Hdb.
  - unfold current. by rewrite Hp, last_snoc.
Qed.

(** The past only grows along a run. *)
Lemma kept_before (c c' : Config (E := StoreEff) (A := StoreAnswer)) :
  pool_step store_step store_restart run_op c c' -> world_kept (cf_world c') -> world_kept (cf_world c).
Proof.
  intros Hs. destruct (pool_step_past _ _ Hs) as [tail Hp]. unfold world_kept. rewrite Hp. by intros [? _]%Forall_app.
Qed.

Lemma new_store_ok : world_ok new_store.
Proof.
  split; [apply empty_bases|done].
Qed.

Lemma store_run_world c :
  store_run c -> Forall json_keeps (sw_past (cf_world c)) ->
  world_ok (cf_world c)
  /\ forall i th a, cf_threads c i = Some th -> th_task th = Ret a -> op_answer (th_op th) (th_born th) a (cf_world c).
Proof.
  intros Hrun Hkept. by destruct (pool_safe store_step store_restart run_op world_ok world_kept world_grows op_answer
    op_answer_stable restart_ok (fun op w Hok _ => op_safe op w Hok) kept_before new_store c new_store_ok Hrun Hkept).
Qed.

(** C5: in every run of the store, with its operations interleaved statement by statement, with
    statements failing and the process restarting at any time, a read that returns a projection
    returns the replay of the session's log as it was at one moment between the read's call and its
    return, whatever cached projection or durable snapshot it started from; a read that fails met a
    failing statement, or the replay fails at that moment.  (JSON is assumed to keep the projections
    the tables fold to, which snapshots need.)  Moreover the log is in order and no sequence is reused. *)
Theorem reads_are_replays (c : Config) :
  store_run c -> Forall json_keeps (sw_past (cf_world c)) ->
  db_wf (tx_db (sw_tx (cf_world c)))
  /\ forall i th session r,
       cf_threads c i = Some th -> th_op th = OpRead session -> th_task th = Ret r ->
       exists a, r = AnRead a
         /\ (a = inr SeSqlite
             \/ exists db, db ∈ since (th_born th) (cf_world c)
                  /\ a = (let? envs := replay session db in inl (from_events envs))).
Proof.
  intros Hrun Hkept. destruct (store_run_world c Hrun Hkept) as [[[Hwf _ _] _] Hts].
  split; [done|]. intros i th session r Hth Hop Hr. specialize (Hts i th r Hth Hr). rewrite Hop in Hts. exact Hts.
Qed.
End result.

(** ** Example: a title is appended, and then the session is read *)

(** No event that JSON could change in the log. *)
Record untold (p : Projection (U := Demo.uuid_lib) (J := Demo.json_lib)) : Prop := {
  un_metadata : sp_metadata (p_session p) = None;
  un_permission : sp_permission (p_session p) = None;
  un_archived : sp_archived (p_session p) = None;
  un_messages : sp_messages (p_session p) = [];
  un_revert : sp_revert (p_session p) = None;
}.

Lemma untold_kept p : untold p -> kept_projection (json_reread (StoreLib := StoreDemo.store_lib)) (json_reread_number (StoreLib := StoreDemo.store_lib)) p.
Proof.
  intros [H1 H2 H3 H4 H5]. split.
  - by rewrite H1.
  - intros l. by rewrite H2.
  - intros n. by rewrite H3.
  - unfold Transcript.all_messages. by rewrite H4, H5.
Qed.

Definition tells_nothing (e : Event.t (U := Demo.uuid_lib) (J := Demo.json_lib)) : bool :=
  match e with
  | Event.SessionTitled _ _ | Event.WorkflowRunStarted _ _ _ _ _ _ | Event.WorkflowRunFinished _ _ _ _ | Event.SessionStatus _ _
  | Event.AgentRegistered _ _ _ _ _ _ | Event.AgentActivityChanged _ _ _ _ => true
  | _ => false
  end.

Lemma untold_titles envs : Forall (fun env => tells_nothing (env_event env) = true) envs -> untold (from_events envs).
Proof.
  unfold from_events. assert (untold Projection_default) as H0 by done. revert H0. generalize (Projection_default (U := Demo.uuid_lib) (J := Demo.json_lib)).
  induction envs as [|env envs IH]; intros p Hp; [done|]. intros [Ht Hall]%Forall_cons. simpl. apply IH; [|done].
  destruct (apply_cases p env) as [->|[n ->]]; [done|]. destruct Hp as [H1 H2 H3 H4 H5].
  destruct (env_event env); try done; split; simpl; try done; unfold on_workflow_run_finished; by case_match.
Qed.

Definition titled (db : Db (U := Demo.uuid_lib)) : bool :=
  forallb (fun row => match StoreDemo.from_str (lr_payload row) with Some e => tells_nothing e | None => true end) (db_log db).

Lemma titled_keeps db : titled db = true -> json_keeps db.
Proof.
  intros Hlog session p. unfold session_fold, replay. destruct (try_map decode_row _) as [envs|] eqn:E; [|done].
  intros [= <-]. apply untold_kept, untold_titles. apply try_map_ok in E.
  assert (Forall (fun row => row ∈ db_log db) (rows_of (SessionId_storage_key session) db)) as Hrows.
  { apply Forall_forall. by intros row [_ Hrow]%list_elem_of_filter. }
  induction E as [|row env rows envs Hr _ IH]; [constructor|]. apply Forall_cons in Hrows as [Hin Hrows].
  constructor; [|by apply IH]. unfold titled in Hlog. apply forallb_forall with (x := row) in Hlog; [|by apply list_elem_of_In].
  unfold decode_row in Hr. change (event_from_str (lr_payload row)) with (StoreDemo.from_str (lr_payload row)) in Hr.
  destruct (StoreDemo.from_str (lr_payload row)) as [e|]; [|done]. by injection Hr as <-.
Qed.

Definition title_ops : list StoreOp :=
  [OpAppend StoreDemo.session (Event.SessionTitled StoreDemo.session "a title"); OpRead StoreDemo.session].

Definition read_title (a : option StoreAnswer) : option string :=
  match a with Some (AnRead (inl p)) => sp_title (p_session p) | _ => None end.

(** The read finds the title. *)
Lemma reads_are_replays_witness :
  read_title ((play title_ops new_store).1 !! 1) = Some "a title"
  /\ exists db p, db ∈ sw_past (play title_ops new_store).2 /\ session_fold StoreDemo.session db = inl p
       /\ sp_title (p_session p) = Some "a title".
Proof.
  assert (read_title ((play title_ops new_store).1 !! 1) = Some "a title") as Htitle by (vm_compute; reflexivity).
  split; [exact Htitle|]. destruct (played title_ops) as (c & Hrun & Hw & Hans).
  destruct ((play title_ops new_store).1 !! 1) as [a|] eqn:Ea; [|done]. destruct (Hans 1 a Ea) as (op & born & [= <-] & Hth).
  destruct (reads_are_replays c Hrun) as [_ Hreads].
  - rewrite Hw. assert (forallb titled (sw_past (play title_ops new_store).2) = true) as H by (vm_compute; reflexivity).
    apply Forall_forall. intros db Hdb. apply titled_keeps. apply forallb_forall with (x := db) in H; [done|]. by apply list_elem_of_In.
  - destruct (Hreads 1 _ StoreDemo.session a Hth eq_refl eq_refl) as (r & -> & [->|(db & Hdb & ->)]); [done|].
    simpl in Htitle, Hdb. rewrite Hw in Hdb. exists db. unfold session_fold. destruct (replay _ db) as [envs|]; [|done].
    exists (from_events envs). split_and!; [|done|done]. unfold since in Hdb.
    apply list_elem_of_lookup in Hdb as [k Hk]. rewrite lookup_drop in Hk. by apply list_elem_of_lookup_2 in Hk.
Defined.
