(* ===== verification/ClaimSpec.v ===== *)
(** * Claims fence ([Claims])

    Claim rows only move forward, so a claim that was lost is never current again; and an operation
    made for a claim succeeds only while the claim is current. *)

From S2P Require Import Prelude RustStr Platform Ids Scope Wire Workflow Usage Events Team Projection Result Runs Effects StoreDb StoreTx Store Claims Journal WfAdmission Recovery Mailbox StoreBuilt Concurrent StorePool.

Section claims.
Context `{U : UuidLib} `{J : JsonLib} `{L : !StoreLib}.
Implicit Types (db : Db) (claim : ActorClaim).
Local Open Scope N_scope.

(** ** Rows move forward *)

(** A larger epoch, or the same claim, perhaps released since. *)
Definition claim_le (row row' : ClaimRow) : Prop :=
  cl_epoch row < cl_epoch row'
  \/ cl_epoch row = cl_epoch row' /\ cl_owner row = cl_owner row'
     /\ (cl_state row = ClaimState.Released -> cl_state row' = ClaimState.Released).

Definition claims_le db db' : Prop :=
  forall key row, db_claims db !! key = Some row -> exists row', db_claims db' !! key = Some row' /\ claim_le row row'.

Lemma claim_le_trans row1 row2 row3 : claim_le row1 row2 -> claim_le row2 row3 -> claim_le row1 row3.
Proof. unfold claim_le. intros [H1|(H1 & H2 & H3)] [H4|(H4 & H5 & H6)]; [left; lia..|right]. split_and!; [lia|congruence|auto]. Qed.

#[global] Instance claims_le_preorder : PreOrder claims_le.
Proof.
  split; [intros db key row H; exists row; split; [done|by right]|]. intros d1 d2 d3 H12 H23 key row H.
  destruct (H12 _ _ H) as (r2 & H2 & Hle). destruct (H23 _ _ H2) as (r3 & H3 & Hle'). exists r3. split; [done|].
  by eapply claim_le_trans.
Qed.

Lemma claims_le_same db db' : db_claims db' = db_claims db -> claims_le db db'.
Proof. intros Heq key row H. exists row. rewrite Heq. split; [done|by right]. Qed.

#[global] Instance claims_le_rel : StoreRel claims_le.
Proof.
  split; [apply _|..]; try (intros; by apply claims_le_same).
  - intros db db' H. by apply claims_le_same, H.
  - intros db key row Hrow k old Hold. destruct (decide (k = key)) as [->|Hne].
    + exists row. simpl. rewrite lookup_insert_eq. split; [done|]. rewrite Hold in Hrow.
      destruct Hrow as [Hrow|(He & Ho & Hs)]; [left; lia|right]. by split_and!.
    + exists old. simpl. rewrite lookup_insert_ne by done. split; [done|by right].
Qed.

(** A current claim, then not: never again. *)
Lemma current_between claim db1 db2 db3 :
  claims_le db1 db2 -> claims_le db2 db3 -> is_current claim db1 = true -> is_current claim db3 = true ->
  is_current claim db2 = true.
Proof.
  unfold is_current, claim_row. intros H12 H23 H1 H3.
  destruct (db_claims db1 !! _) as [r1|] eqn:E1; [|done]. destruct (H12 _ _ E1) as (r2 & E2 & Hle12). rewrite E2.
  destruct (H23 _ _ E2) as (r3 & E3 & Hle23). rewrite E3 in H3. simpl in *.
  destruct (bool_decide (cl_epoch r1 = _) && _) eqn:B1; [|done]. apply andb_prop in B1 as [Ee1%bool_decide_eq_true Eo1%bool_decide_eq_true].
  destruct (bool_decide (cl_epoch r3 = _) && _) eqn:B3; [|done]. apply andb_prop in B3 as [Ee3%bool_decide_eq_true Eo3%bool_decide_eq_true].
  apply bool_decide_eq_true in H1, H3. unfold claim_le in *.
  assert (cl_epoch r2 = epoch_get (ac_epoch claim) /\ cl_owner r2 = ac_owner_run_id claim /\ cl_state r2 = ClaimState.Active) as (He & Ho & Hs).
  { destruct Hle12 as [?|(? & ? & Hr12)]; [destruct Hle23 as [?|(? & ? & ?)]; lia|]. split_and!; [lia|congruence|].
    destruct Hle23 as [?|(? & ? & Hr23)]; [lia|]. destruct (cl_state r2); [done|]. by rewrite Hr23 in H3. }
  simpl. rewrite (bool_decide_true (cl_epoch r2 = _)), (bool_decide_true (cl_owner r2 = _)) by done. simpl.
  by rewrite bool_decide_true.
Qed.

(** ** Fenced operations *)

(** The claim an operation is made for. *)
Definition op_claim (op : StoreOp) : option ActorClaim :=
  match op with
  | OpCommit claim _ _ => Some claim
  | OpAdmission claim _ => am_actor_claim claim
  | OpStart _ claim _ | OpFinalize _ _ _ claim _ | OpAdmitRun claim _ _ | OpSelect claim _ _
  | OpDirectMail _ _ _ _ _ claim | OpChannelMail _ _ _ _ _ claim => claim
  | OpRecoverResident recovered _ _ _ => Some (rc_claim recovered)
  | _ => None
  end.

(** A program that only succeeds while the claim is current. *)
Definition Fenced {A} claim (t : Tx A) : Prop :=
  forall st, match (t st).1 with inl _ => is_current claim (tx_db st) = true | inr _ => True end.

Lemma fenced_bind {A B} claim (t : Tx A) (f : A -> Tx B) : Fenced claim t -> Fenced claim (tx_bind t f).
Proof.
  intros Ht st. specialize (Ht st). unfold tx_bind. destruct (t st) as [[a|e] st']; simpl in *; [|done].
  by destruct (f a st') as [[b|e] st2].
Qed.

Lemma fence_fenced claim : Fenced claim (fence_actor_claim claim).
Proof.
  intros st. unfold fence_actor_claim, tx_bind, tx_read. destruct (epoch_param _ _); simpl; [|done].
  by destruct (is_current claim (tx_db st)).
Qed.

Lemma fence_optional_fenced claim : Fenced claim (fence_optional (Some claim)).
Proof. apply fence_fenced. Qed.

Lemma fenced_transact {A} claim (t : Tx A) : Fenced claim t -> Fenced claim (transact t).
Proof. intros Ht st. specialize (Ht st). unfold transact. by destruct (t st) as [[a|e] st']. Qed.

Lemma claim_fences claim :
  (forall session events, Fenced claim (commit_resident_mutation_tx claim session events))
  /\ (forall admission now, am_actor_claim admission = Some claim -> Fenced claim (claim_admission_tx admission now))
  /\ (forall operation now, Fenced claim (start_admission_tx operation (Some claim) now))
  /\ (forall operation terminal reason now, Fenced claim (finalize_admission_tx operation terminal reason (Some claim) now))
  /\ (forall session event run hash, Fenced claim (admit_tx (Some claim) session event run hash))
  /\ (forall session event, Fenced claim (select_tx (Some claim) session event))
  /\ (forall root from address kind body, Fenced claim (direct_mail_tx root from address kind body (Some claim)))
  /\ (forall root from channel kind body, Fenced claim (channel_mail_tx root from channel kind body (Some claim)))
  /\ (forall epoch root handle now, Fenced claim (recover_resident_tx (mkRecoveredActorClaim claim epoch) root handle now)).
Proof.
  split_and!; intros; try (apply fenced_bind, fence_fenced).
  unfold claim_admission_tx. rewrite H. apply fenced_bind, fence_fenced.
Qed.

(** *** As tasks of a pool *)

Abbreviation rsafe := (safe store_step (chained claims_le) (fun _ => True) past_grows).

(** What a successful answer of an operation says. *)
Definition fence_answer {X} claim (born : World) (r : X + StoreError) (w : World) : Prop :=
  match r with
  | inl _ => exists db, db ∈ since born w /\ is_current claim db = true
  | inr _ => True
  end.

Lemma claims_le_snapshot db key sn : claims_le db (db <| db_snapshots ::= <[key := sn]> |>).
Proof. by apply claims_le_same. Qed.

Lemma fenced_call_safe {X Y} claim (t : Tx X) (f : X -> StoreTask Y) born w :
  Built t -> Fenced claim t -> (forall x, exists r, f x = Ret r) -> past_grows born w -> sw_past born <> [] ->
  rsafe (try_bind (call (Transact (transact t))) f) (fence_answer claim born) w.
Proof.
  intros Hb Hf Hret Hw Hne w1 Hw1 Hc _ x w2 Hx _.
  assert (call_ok (Transact (transact t))) as Hok by (apply writer_built; by apply built_transact).
  pose proof (chained_step claims_le claims_le_snapshot _ _ _ _ _ Hok Hc Hx) as Hc2.
  pose proof (step_past _ _ _ _ _ Hx) as Hp. split_and!; [done..|]. destruct x as [x|e]; simpl; [|done].
  destruct (Hret x) as [r ->]. simpl. destruct r; simpl; [|done]. exists (tx_db (sw_tx w1)). split.
  - eapply since_grows; [exact Hp|]. apply since_now; [by etrans|apply Hc|done].
  - destruct Hx as (_ & _ & [Ht|(He & _)]); [|done]. pose proof (fenced_transact _ _ Hf (sw_tx w1)) as H. by rewrite <- Ht in H.
Qed.

Lemma fenced_alone_safe {X} claim (t : Tx X) born w :
  Built t -> Fenced claim t -> past_grows born w -> sw_past born <> [] ->
  rsafe (call (Transact (transact t))) (fence_answer claim born) w.
Proof.
  intros Hb Hf Hw Hne w1 Hw1 Hc _ x w2 Hx HK.
  destruct (fenced_call_safe claim t (fun x => Ret (inl x)) born w Hb Hf ltac:(by eexists) Hw Hne w1 Hw1 Hc ltac:(done) x w2 Hx HK)
    as (? & ? & Ha). split_and!; [done..|]. by destruct x.
Qed.

Definition claim_answer (op : StoreOp) (born : World) (r : StoreAnswer) (w : World) : Prop :=
  past_grows born w
  /\ forall claim, op_claim op = Some claim -> r = AnDone None -> exists db, db ∈ since born w /\ is_current claim db = true.

Lemma quiet_fenced {X} claim (t : StoreTask X) born w :
  rsafe t (fence_answer claim born) w ->
  rsafe (quiet t) (fun r w => r = AnDone None -> exists db, db ∈ since born w /\ is_current claim db = true) w.
Proof. intros Ht. apply safe_bind. eapply safe_mono; [|exact Ht]. intros [x|e] w' Ha Hr; [exact Ha|done]. Qed.

Lemma warm_fenced {X} claim session (t : StoreTask X) born w :
  past_grows born w -> (forall w', past_grows born w' -> rsafe t (fence_answer claim born) w') ->
  rsafe (let! _ := warm_projection session in t) (fence_answer claim born) w.
Proof.
  intros Hw Ht. apply safe_try. eapply safe_mono; [|apply (safe_grows _ _ _ past_grows _ (fun _ _ => True) born); [exact Hw|]].
  2: { apply writes_safe; [apply _|apply claims_le_snapshot|]. unfold warm_projection. solve_writes. apply cached_projection_writes. }
  intros [u|e] w' [_ Hw']; [by apply Ht|done].
Qed.

Lemma op_claims_safe op w : chained claims_le w -> rsafe (run_op op) (claim_answer op w) w.
Proof.
  intros Hc. pose proof (current_nonempty _ (ch_current _ _ Hc)) as Hne.
  enough (rsafe (run_op op) (fun r w' => forall claim, op_claim op = Some claim -> r = AnDone None ->
    exists db, db ∈ since w w' /\ is_current claim db = true) w) as Hsafe.
  { eapply safe_mono; [|apply (safe_grows _ _ _ past_grows _ _ w _ ltac:(reflexivity) Hsafe)]. intros r w' [Hr Hw]. by split. }
  destruct (op_claim op) as [claim|] eqn:Eop.
  - enough (rsafe (run_op op) (fun r w' => r = AnDone None -> exists db, db ∈ since w w' /\ is_current claim db = true) w) as H.
    { eapply safe_mono; [|exact H]. by intros r w' Hr claim' [= <-]. }
    destruct (claim_fences claim) as (H1 & H2 & H3 & H4 & H5 & H6 & H7 & H8 & H9).
    destruct op; simpl in Eop; simplify_eq; apply quiet_fenced.
    + unfold commit_resident_mutation. destruct (existsb _ _); [done|]. apply fenced_alone_safe; [solve_built|auto|reflexivity|exact Hne].
    + unfold claim_admission. case_decide; [done|]. apply fenced_alone_safe; [solve_built|auto|reflexivity|exact Hne].
    + unfold start_admission. apply fenced_alone_safe; [solve_built|auto|reflexivity|exact Hne].
    + unfold finalize_admission. apply fenced_alone_safe; [solve_built|auto|reflexivity|exact Hne].
    + unfold admit_workflow_run. destruct event; try done. case_decide; [|done]. apply fenced_alone_safe; [solve_built|auto|reflexivity|exact Hne].
    + unfold select_workflow. destruct event; try done. case_decide; [|done]. apply fenced_alone_safe; [solve_built|auto|reflexivity|exact Hne].
    + unfold append_direct_mail. apply fenced_alone_safe; [solve_built|auto|reflexivity|exact Hne].
    + unfold append_channel_mail. apply fenced_alone_safe; [solve_built|auto|reflexivity|exact Hne].
    + destruct recovered as [claim' epoch]. unfold recover_resident_actor. simpl. repeat (apply warm_fenced; [done|]; intros).
      apply fenced_alone_safe; [solve_built|auto|done|exact Hne].
  - eapply safe_mono; [|apply writes_safe; [apply _|apply claims_le_snapshot|apply run_op_writes]].
    by intros r w' _ claim'.
Qed.

Lemma claim_answer_stable op born : stable past_grows (claim_answer op born).
Proof.
  intros r w w' Hw [Hb Hr]. split; [by etrans|]. intros claim Hop Ha. destruct (Hr claim Hop Ha) as (db & Hdb & Hc).
  exists db. split; [by eapply since_grows|done].
Qed.

(** ** Lost claims *)

(** The actor's row has a larger epoch, or this claim was released. *)
Definition lost claim db : Prop :=
  exists row, db_claims db !! SessionId_storage_key (ac_actor_id claim) = Some row
    /\ (epoch_get (ac_epoch claim) < cl_epoch row
        \/ cl_epoch row = epoch_get (ac_epoch claim) /\ cl_state row = ClaimState.Released).

Lemma lost_stays claim db db' : claims_le db db' -> lost claim db -> is_current claim db' = false.
Proof.
  intros Hle (row & Hrow & Hl). destruct (Hle _ _ Hrow) as (row' & Hrow' & Hr). unfold is_current, claim_row. rewrite Hrow'. simpl.
  destruct (bool_decide (cl_epoch row' = _)) eqn:Ee; [|done]. apply bool_decide_eq_true in Ee. simpl.
  destruct (bool_decide (cl_owner row' = _)); [|done]. unfold claim_le in Hr.
  destruct Hl as [Hl|[He Hs]]; [lia|]. destruct Hr as [?|(_ & _ & Hrel)]; [lia|]. by rewrite Hrel.
Qed.

Lemma takeover_loses actor owner row st st' claim :
  recover_claim_tx actor owner st = (inl (Some row), st') -> ac_actor_id claim = actor ->
  is_current claim (tx_db st) = true -> lost claim (tx_db st').
Proof.
  unfold recover_claim_tx, is_current, claim_row. intros Ht <-. destruct (db_claims (tx_db st) !! _) as [old|] eqn:E; [|done].
  destruct (_ && _) in Ht; [|done]. injection Ht as <- <-. intros Hc. eexists. simpl. rewrite lookup_insert_eq. split; [done|]. simpl in *.
  destruct (bool_decide (cl_epoch old = _)) eqn:Ee; [|done]. apply bool_decide_eq_true in Ee. left. lia.
Qed.

Lemma since_index born w db : db ∈ since born w -> exists k, (pred (length (sw_past born)) <= k)%nat /\ sw_past w !! k = Some db.
Proof. intros [k Hk]%list_elem_of_lookup. unfold since in Hk. rewrite lookup_drop in Hk. eexists. split; [|exact Hk]. lia. Qed.

(** C10: in every run of the store the claim rows only move forward: an actor's epoch never falls, and
    while it stays the owner stays and a release is final.  So once a claim is lost, by a takeover or
    a release, it is never current again.  And an operation made for a claim (a resident's events, an
    admission, its start and its end, a Workflow admission or selection, mail, a resident's recovery)
    succeeds only if the claim was current at one moment between the operation's call and its return:
    never when the claim was already lost when the operation started. *)
Theorem actor_claims_fenced (c : Config) :
  store_run c ->
  (forall i j a b, (i <= j)%nat -> sw_past (cf_world c) !! i = Some a -> sw_past (cf_world c) !! j = Some b ->
     claims_le a b /\ forall claim, lost claim a -> is_current claim b = false)
  /\ forall n th claim,
       cf_threads c n = Some th -> op_claim (th_op th) = Some claim -> th_task th = Ret (AnDone None) ->
       (exists db, db ∈ since (th_born th) (cf_world c) /\ is_current claim db = true)
       /\ forall db, db ∈ sw_past (th_born th) -> ~ lost claim db.
Proof.
  intros Hrun. destruct (store_run_safe claims_le claim_answer c claim_answer_stable op_claims_safe Hrun)
    as [[_ _ Hle] Hts].
  split; [intros i j a b Hij Ha Hb; pose proof (Hle i j a b Hij Ha Hb); split; [done|intros claim; by apply lost_stays]|].
  intros n th claim Hth Hop Ht. destruct (Hts n th _ Hth Ht) as [[tail Hpast] Hans].
  destruct (Hans claim Hop eq_refl) as (db & Hdb & Hcur). split; [by exists db|].
  intros db0 [i Hi]%list_elem_of_lookup Hlost. destruct (since_index _ _ _ Hdb) as (k & Hk & Hpk).
  assert (sw_past (cf_world c) !! i = Some db0) as Hi' by (rewrite Hpast; by apply lookup_app_l_Some).
  apply lookup_lt_Some in Hi. rewrite (lost_stays claim db0 db) in Hcur; [done|apply (Hle i k); [lia|done|done]|done].
Qed.
End claims.

(** ** Example: a claim, a takeover, and a late append of the first owner *)

Definition claim_of (epoch : positive) (owner : OwnerRunId) : ActorClaim :=
  mkActorClaim StoreDemo.session (mkActorEpoch (N.pos epoch)) owner.

Definition takeover_ops : list StoreOp :=
  [OpClaimActor StoreDemo.session demo_owner;
   OpCommit (claim_of 1 demo_owner) StoreDemo.session [Event.SessionTitled StoreDemo.session "first"];
   OpRecoverClaim StoreDemo.session StoreDemo.other_owner;
   OpCommit (claim_of 1 demo_owner) StoreDemo.session [Event.SessionTitled StoreDemo.session "late"]].

Definition failed (a : StoreAnswer) : option (option StoreError) := match a with AnDone e => Some e | AnRead _ => None end.

(** The first owner's append succeeds, the one after the takeover does not. *)
Lemma actor_claims_fenced_witness :
  (failed <$> (play takeover_ops new_store).1) = [Some None; Some None; Some None; Some (Some (StaleActorClaim StoreDemo.session))]
  /\ exists db, db ∈ sw_past (play takeover_ops new_store).2 /\ is_current (claim_of 1 demo_owner) db = true.
Proof.
  assert (bool_decide ((failed <$> (play takeover_ops new_store).1)
    = [Some None; Some None; Some None; Some (Some (StaleActorClaim StoreDemo.session))]) = true) as Hans by (vm_compute; reflexivity).
  apply bool_decide_eq_true in Hans. split; [exact Hans|]. destruct (played takeover_ops) as (c & Hrun & Hw & Hth).
  assert ((failed <$> (play takeover_ops new_store).1) !! 1 = Some (Some None)) as H1 by (by rewrite Hans).
  rewrite list_lookup_fmap in H1. destruct ((play takeover_ops new_store).1 !! 1) as [a|] eqn:Ea; [|done].
  destruct a as [r|e]; [done|]. injection H1 as ->. destruct (Hth 1 _ Ea) as (op & born & [= <-] & Hc).
  destruct (actor_claims_fenced c Hrun) as [_ Hfence].
  destruct (Hfence 1 _ (claim_of 1 demo_owner) Hc eq_refl eq_refl) as [(db & Hdb & Hcur) _].
  exists db. split; [|done]. rewrite Hw in Hdb. destruct (since_index _ _ _ Hdb) as (k & _ & Hk). by apply list_elem_of_lookup_2 in Hk.
Defined.
