(* ===== verification/JournalSpec.v ===== *)
(** * The admission journal ([Journal])

    Rows only move along the lifecycle, terminal rows are final, and the flag of a row, which says
    that the operation's units were due back, is set once: whoever is told to return the units is told
    so in the transaction that set it. *)

From S2P Require Import Prelude RustStr Platform Ids Scope Wire Workflow Usage Events Team Projection Result Runs Effects StoreDb StoreTx Store Claims Journal WfAdmission Recovery Mailbox StoreBuilt Concurrent StorePool.

Section journal.
Context `{U : UuidLib} `{J : JsonLib} `{L : !StoreLib}.
Implicit Types (db : Db) (key : OperationId * N) (row : JournalRow).

(** ** Rows along a run *)

(** Only an admission that ended has its flag set. *)
Definition journal_ok db : Prop :=
  forall key row, db_journal db !! key = Some row -> jr_released row = true -> AdmissionState.is_terminal (jr_state row) = true.

Record journal_le db db' : Prop := {
  jl_rows : forall key row, db_journal db !! key = Some row ->
    exists row', db_journal db' !! key = Some row' /\ rtc journal_step row row';
  jl_ok : journal_ok db -> journal_ok db';
}.

#[global] Instance journal_le_preorder : PreOrder journal_le.
Proof.
  split; [intros db; split; [by eauto using rtc_refl|done]|]. intros d1 d2 d3 [r12 o12] [r23 o23]. split; [|auto].
  intros key row H. destruct (r12 _ _ H) as (r2 & H2 & Hs). destruct (r23 _ _ H2) as (r3 & H3 & Hs'). exists r3.
  split; [done|by etrans].
Qed.

Lemma journal_le_same db db' : db_journal db' = db_journal db -> journal_le db db'.
Proof. intros Heq. split; unfold journal_ok; rewrite Heq; [by eauto using rtc_refl|done]. Qed.

Lemma journal_step_ok row row' :
  journal_step row row' -> (jr_released row = true -> AdmissionState.is_terminal (jr_state row) = true) ->
  jr_released row' = true -> AdmissionState.is_terminal (jr_state row') = true.
Proof.
  intros [_ [Hs Hs' Hr|_ Ht _ _|_ Ht _|_ _ _ Hr]] Hok Hrel; [|done|by rewrite Ht|congruence].
  rewrite Hr in Hrel. specialize (Hok Hrel). by rewrite Hs in Hok.
Qed.

#[global] Instance journal_le_rel : StoreRel journal_le.
Proof.
  split; [apply _|..]; try (intros; by apply journal_le_same).
  - intros db db' H. by apply journal_le_same, H.
  - intros db key row Hnone Hs Hr. split.
    + intros k r Hk. exists r. simpl. rewrite lookup_insert_ne by (intros ->; by rewrite Hnone in Hk). by split; [|apply rtc_refl].
    + intros Hok k r. simpl. intros [[<- <-]|[_ Hk]]%lookup_insert_Some Hrel; [congruence|by eapply Hok].
  - intros db rows Hrows. split.
    + intros k r Hk. simpl. destruct (rows !! k) as [r'|] eqn:E.
      * destruct (Hrows _ _ E) as (r0 & H0 & Hstep). assert (r0 = r) as -> by congruence. exists r'.
        split; [by apply lookup_union_Some_l|by apply rtc_once].
      * exists r. split; [by rewrite lookup_union_r|apply rtc_refl].
    + intros Hok k r'. simpl. intros [Hk|[_ Hk]]%lookup_union_Some_raw Hrel; [|by eapply Hok].
      destruct (Hrows _ _ Hk) as (r0 & H0 & Hstep). eapply journal_step_ok; [exact Hstep|by eapply Hok|done].
Qed.

Lemma rtc_same_admission row row' : rtc journal_step row row' -> same_admission row row'.
Proof.
  induction 1 as [row|r1 r2 r3 [H12 _] _ H23]; [done|]. destruct H12, H23. split; congruence.
Qed.

Lemma rtc_terminal row row' : rtc journal_step row row' -> AdmissionState.is_terminal (jr_state row) = true -> row' = row.
Proof.
  destruct 1 as [row|r1 r2 r3 [_ Hmove] _]; [done|]. intros Ht. exfalso.
  destruct Hmove as [Hs|[Hs|Hs]|[Hs|[Hs|Hs]]|Hs]; by rewrite Hs in Ht.
Qed.

(** ** Flags set by a transaction *)

(** The flag of [key] is set between the two tables. *)
Definition turned db db' key : Prop :=
  exists row row', db_journal db !! key = Some row /\ jr_released row = false
    /\ db_journal db' !! key = Some row' /\ jr_released row' = true.

(** A record tells of the row with its key. *)
Lemma decode_record_spec key row record :
  decode_record (key, row) = inl record ->
  (ad_operation record, ad_ordinal record) = key /\ ad_released record = jr_released row /\ ad_state record = jr_state row.
Proof.
  destruct key as [operation ordinal]. unfold decode_record. intros H.
  repeat (destruct (ensure _ _); [|done]). destruct (decode_session_key _); [|done].
  destruct (decode_actor _); [|done]. repeat (destruct (ensure _ _); [|done]). by injection H as <-.
Qed.

Lemma Forall2_elem_l {A B} (P : A -> B -> Prop) l k x : Forall2 P l k -> x ∈ l -> exists y, y ∈ k /\ P x y.
Proof. induction 1 as [|a b l k Hab _ IH]; [by intros ?%elem_of_nil|]. intros [->|Hx]%elem_of_cons; [exists b; set_solver|set_solver]. Qed.

Lemma Forall2_elem_r {A B} (P : A -> B -> Prop) l k y : Forall2 P l k -> y ∈ k -> exists x, x ∈ l /\ P x y.
Proof. intros H%Forall2_flip Hy. destruct (Forall2_elem_l _ _ _ _ H Hy) as (x & ? & ?). by exists x. Qed.

Definition reported (records : list AdmissionRecord) key : Prop :=
  exists record, record ∈ records /\ (ad_operation record, ad_ordinal record) = key /\ ad_released record = true.

(** An update of rows that have not ended reports exactly the flags it sets. *)
Lemma update_reports where_ set_ st rows st' records :
  journal_ok (tx_db st) ->
  (forall key row, where_ key row = true -> AdmissionState.is_terminal (jr_state row) = false) ->
  update_journal where_ set_ st = (inl rows, st') -> try_map decode_record rows = inl records ->
  forall key, turned (tx_db st) (tx_db st') key <-> reported records key.
Proof.
  intros Hok Hlive. unfold update_journal. intros [= <- <-] Hrec%try_map_ok key. simpl.
  set (hit := filter _ _) in *. unfold reported. split.
  - intros (row & row' & Hrow & Hr & Hrow' & Hr'). simpl in Hrow'.
    apply lookup_union_Some_raw in Hrow' as [Hhit|[_ Hold]]; [|congruence].
    apply elem_of_map_to_list in Hhit. destruct (Forall2_elem_l _ _ _ _ Hrec Hhit) as (record & Hin & Hd%decode_record_spec).
    destruct Hd as (Hkey & Hrel & _). exists record. by rewrite Hrel.
  - intros (record & Hin & <- & Hrel). destruct (Forall2_elem_r _ _ _ _ Hrec Hin) as ([key row'] & Hhit & Hd).
    apply decode_record_spec in Hd as (-> & Hrel' & _). apply elem_of_map_to_list in Hhit. pose proof Hhit as Hhit'.
    apply lookup_fmap_Some in Hhit as (row & <- & [Hrow Hw]%map_lookup_filter_Some). exists row, (set_ row).
    split_and!; [done| | |by rewrite <- Hrel'].
    + apply not_true_is_false. intros Htrue. apply (Hok _ _ Hrow) in Htrue. pose proof (Hlive _ _ Hw) as Hl. simpl in Hl. congruence.
    + simpl. by apply lookup_union_Some_l.
Qed.

Lemma live_states states row :
  in_states states row = true -> forallb (fun s => negb (AdmissionState.is_terminal s)) states = true ->
  AdmissionState.is_terminal (jr_state row) = false.
Proof.
  intros Hs%in_states_spec Hall. apply forallb_forall with (x := jr_state row) in Hall; [|by apply list_elem_of_In].
  by apply negb_true_iff.
Qed.

(** An update that can only hit one key changes one row. *)
Lemma one_key_list {A} (m : gmap (OperationId * N) A) key entry rest :
  map_to_list m = entry :: rest -> (forall k x, m !! k = Some x -> k = key) -> entry.1 = key /\ rest = [].
Proof.
  intros Hm Hkey. assert (forall e, e ∈ map_to_list m -> e.1 = key) as Hall.
  { intros [k x] He%elem_of_map_to_list. by eapply Hkey. }
  pose proof (NoDup_fst_map_to_list m) as Hnd. rewrite Hm in Hnd, Hall. split; [apply Hall; set_solver|].
  destruct rest as [|e rest]; [done|]. exfalso. rewrite !fmap_cons in Hnd. apply NoDup_cons in Hnd as [Hn _]. apply Hn.
  rewrite (Hall entry) by set_solver. rewrite <- (Hall e) by set_solver. by left.
Qed.

Lemma update_single where_ set_ key st entry rows st' :
  (forall k row, where_ k row = true -> k = key) ->
  update_journal where_ set_ st = (inl (entry :: rows), st') -> entry.1 = key /\ rows = [].
Proof.
  intros Hkey. unfold update_journal. intros [= Hrows _]. eapply one_key_list; [exact Hrows|].
  intros k x (row & _ & [_ Hw]%map_lookup_filter_Some)%lookup_fmap_Some. by eapply Hkey.
Qed.

(** ** Finalizing *)

(** A transaction that leaves the journal alone turns nothing. *)
Lemma turned_same db db' key : db_journal db' = db_journal db -> ~ turned db db' key.
Proof. intros Heq (row & row' & Hrow & Hr & Hrow' & Hr'). rewrite Heq in Hrow'. congruence. Qed.

Lemma fence_optional_journal claim st : (fence_optional claim st).2 = st.
Proof.
  destruct claim as [claim|]; [|done]. simpl. unfold fence_actor_claim, tx_bind, tx_read.
  destruct (epoch_param _ _); [|done]. simpl. by destruct (is_current claim (tx_db st)).
Qed.

Lemma existing_record_same operation st record st' : existing_record operation st = (inl record, st') -> st' = st.
Proof.
  unfold existing_record. intros (row & st1 & [= _ <-] & (r & st2 & [_ ->]%tx_try_ok & H)%tx_bind_ok)%tx_bind_ok.
  by destruct r; [injection H|].
Qed.

Lemma update_rows where_ set_ st rows st' :
  update_journal where_ set_ st = (inl rows, st') -> forall key row', (key, row') ∈ rows ->
  exists row, db_journal (tx_db st) !! key = Some row /\ where_ key row = true /\ set_ row = row'.
Proof.
  unfold update_journal. intros [= <- _] key row' He%elem_of_map_to_list.
  apply lookup_fmap_Some in He as (row & Hset & [Hrow Hw]%map_lookup_filter_Some). by exists row.
Qed.

Lemma finalize_reports operation terminal reason claim now st outcome st' :
  journal_ok (tx_db st) ->
  finalize_admission_tx operation terminal reason claim now st = (inl outcome, st') ->
  (fi_release_required outcome = true <-> turned (tx_db st) (tx_db st') (operation, 0%N))
  /\ ad_state (fi_record outcome) = AdmissionTerminal.state terminal.
Proof.
  intros Hok. unfold finalize_admission_tx. intros (u & st1 & Hf & H)%tx_bind_ok.
  pose proof (fence_optional_journal claim st) as Hst. rewrite Hf in Hst. simpl in Hst. subst st1.
  apply tx_bind_ok in H as (actor & st1 & [_ ->]%tx_try_ok & H). apply tx_bind_ok in H as (rows & st2 & Hu & H).
  match type of Hu with update_journal ?w ?s _ = _ => set (where_ := w) in Hu; set (set_ := s) in Hu end.
  assert (forall key row, where_ key row = true -> key = (operation, 0%N) /\ AdmissionState.is_terminal (jr_state row) = false) as Hlive.
  { intros key row [[[Hk Hs]%andb_prop _]%andb_prop _]%andb_prop. split; [|by eapply live_states].
    by apply andb_prop in Hk as [Hk%bool_decide_eq_true _]. }
  pose proof (fun recs => update_reports where_ set_ st rows st2 recs Hok (fun k r H => proj2 (Hlive k r H)) Hu) as Hrep.
  destruct rows as [|entry rows].
  - apply tx_bind_ok in H as (record & st3 & Hex & H). case_decide as Hstate; [|done]. injection H as <- <-. simpl.
    rewrite (existing_record_same _ _ _ _ Hex). split; [|done]. split; [done|]. intros (r & Hr & _)%(Hrep [] eq_refl).
    by apply elem_of_nil in Hr.
  - apply tx_bind_ok in H as (record & st3 & [Hd ->]%tx_try_ok & H). injection H as <- <-. simpl.
    destruct (update_single _ _ _ _ _ _ _ (fun k r H => proj1 (Hlive k r H)) Hu) as [Hkey ->].
    rewrite (Hrep [record]) by (simpl; by rewrite Hd). destruct entry as [key row']. simpl in Hkey. subst key.
    pose proof Hd as (Hk & Hr & Hs)%decode_record_spec. split.
    + split; [intros Ht; exists record; by split_and!; [left| |]|]. by intros (r & ->%list_elem_of_singleton & _ & ?).
    + rewrite Hs. destruct (update_rows where_ set_ st _ st2 Hu (operation, 0%N) row' ltac:(by left)) as (row & _ & _ & <-). done.
Qed.

(** ** Aborting *)

Lemma report_update where_ set_ st records st' :
  journal_ok (tx_db st) ->
  (forall key row, where_ key row = true -> AdmissionState.is_terminal (jr_state row) = false) ->
  (let^ rows := update_journal where_ set_ in tx_try (try_map decode_record rows)) st = (inl records, st') ->
  forall key, turned (tx_db st) (tx_db st') key <-> reported records key.
Proof.
  intros Hok Hlive (rows & st1 & Hu & [Hrec ->]%tx_try_ok)%tx_bind_ok. by eapply update_reports.
Qed.

Lemma abort_recovered_reports recovered reason now st records st' :
  journal_ok (tx_db st) -> abort_recovered_in_transaction recovered reason now st = (inl records, st') ->
  forall key, turned (tx_db st) (tx_db st') key <-> reported records key.
Proof.
  intros Hok (epoch & st1 & [_ ->]%tx_try_ok & H)%tx_bind_ok. revert H. apply report_update; [done|].
  intros key row [_ Hs]%andb_prop. by eapply live_states.
Qed.

Lemma set_released_journal claim st : db_journal (tx_db (set_released claim st).2) = db_journal (tx_db st).
Proof. unfold set_released. by destruct (is_current claim (tx_db st)). Qed.

Lemma release_claim_reports claim now st records st' :
  journal_ok (tx_db st) -> release_claim_tx claim now st = (inl records, st') ->
  forall key, turned (tx_db st) (tx_db st') key <-> reported records key.
Proof.
  intros Hok (current & st1 & [= <- <-] & H)%tx_bind_ok key. destruct (is_current claim (tx_db st)); simpl in H.
  - apply tx_bind_ok in H as (recs & st2 & Hab & H). apply tx_bind_ok in H as (released & st3 & Hrel & [= <- <-]).
    pose proof (set_released_journal claim st2) as Hj. rewrite Hrel in Hj. simpl in Hj.
    rewrite <- (report_update _ _ st recs st2 Hok) with (2 := Hab); [unfold turned; by rewrite Hj|].
    intros k row [_ Hs]%andb_prop. by eapply live_states.
  - apply tx_bind_ok in H as (row & st2 & [= <- <-] & H). destruct (claim_row claim (tx_db st)) as [row|]; [|done].
    case_decide; [|done]. injection H as <- <-. split; [by intros ?%turned_same|].
    by intros (r & Hr%elem_of_nil & _).
Qed.

(** ** Runs *)

Lemma journal_le_snapshot db k sn : journal_le db (db <| db_snapshots ::= <[k := sn]> |>).
Proof. by apply journal_le_same. Qed.

Lemma journal_run c : store_run c -> chained journal_le (cf_world c).
Proof.
  intros Hrun. refine (proj1 (store_run_safe journal_le (fun _ _ _ _ => True) c _ _ Hrun)); [done|].
  intros op w _. apply writes_safe; [apply _|apply journal_le_snapshot|apply run_op_writes].
Qed.

Lemma journal_run_ok c db : store_run c -> db ∈ sw_past (cf_world c) -> journal_ok db.
Proof.
  intros Hrun [i Hi]%list_elem_of_lookup. destruct (journal_run c Hrun) as [_ H0 Hle].
  apply (Hle 0 i Db_empty db); [lia|done|done|]. intros key row. unfold Db_empty. simpl. by rewrite lookup_empty.
Qed.

(** C11: in every run of the store an admission keeps its identity and only moves along its lifecycle
    (accepted, started, ended; back to the queue at recovery), and once it ended its row never changes
    again.  Its flag, which says that the operation's units were due back when it ended, is set at most
    once, by the transaction that ends a started admission; and the finalization, the recovery, the
    takeover and the release of an actor's claim tell their caller to return the units exactly for the rows whose flag
    their own transaction set.  So no unit is returned twice, and none is forgotten. *)
Theorem admissions_released_once (c : Config) :
  store_run c ->
  (forall i j a b key row, i <= j -> sw_past (cf_world c) !! i = Some a -> sw_past (cf_world c) !! j = Some b ->
     db_journal a !! key = Some row ->
     exists row', db_journal b !! key = Some row' /\ same_admission row row' /\ rtc journal_step row row'
       /\ (AdmissionState.is_terminal (jr_state row) = true -> row' = row)
       /\ (jr_released row = true -> AdmissionState.is_terminal (jr_state row) = true))
  /\ (forall i j k l a b d e key, i <= j -> j <= k -> k <= l ->
        sw_past (cf_world c) !! i = Some a -> sw_past (cf_world c) !! j = Some b ->
        sw_past (cf_world c) !! k = Some d -> sw_past (cf_world c) !! l = Some e ->
        turned a b key -> ~ turned d e key)
  /\ forall st, tx_db st ∈ sw_past (cf_world c) ->
       (forall operation terminal reason claim now outcome st',
          finalize_admission_tx operation terminal reason claim now st = (inl outcome, st') ->
          (fi_release_required outcome = true <-> turned (tx_db st) (tx_db st') (operation, 0%N))
          /\ ad_state (fi_record outcome) = AdmissionTerminal.state terminal)
       /\ (forall recovered reason now records st',
             abort_recovered_in_transaction recovered reason now st = (inl records, st') ->
             forall key, turned (tx_db st) (tx_db st') key <-> reported records key)
       /\ (forall claim now records st', release_claim_tx claim now st = (inl records, st') ->
             forall key, turned (tx_db st) (tx_db st') key <-> reported records key)
       /\ (forall reason now rows records st',
             recover_admissions_tx reason now st = (inl rows, st') -> try_map decode_record rows = inl records ->
             forall key, turned (tx_db st) (tx_db st') key <-> reported records key).
Proof.
  intros Hrun. destruct (journal_run c Hrun) as [_ _ Hle]. split_and!.
  - intros i j a b key row Hij Ha Hb Hrow. destruct (jl_rows _ _ (Hle i j a b Hij Ha Hb) key row Hrow) as (row' & Hrow' & Hstep).
    exists row'. split_and!; [done|by apply rtc_same_admission|done|by apply rtc_terminal|].
    eapply (journal_run_ok c a Hrun); [by eapply list_elem_of_lookup_2|exact Hrow].
  - intros i j k l a b d e key Hij Hjk Hkl Ha Hb Hd He (r1 & r2 & _ & _ & Hr2 & Hset) (r3 & r4 & Hr3 & Hunset & _).
    destruct (jl_rows _ _ (Hle j k b d Hjk Hb Hd) key r2 Hr2) as (r3' & Hr3' & Hstep).
    rewrite (rtc_terminal _ _ Hstep) in Hr3'; [congruence|].
    eapply (journal_run_ok c b Hrun); [by eapply list_elem_of_lookup_2|exact Hr2|done].
  - intros st Hst. pose proof (journal_run_ok c _ Hrun Hst) as Hok. split_and!.
    + intros *. by apply finalize_reports.
    + intros *. by apply abort_recovered_reports.
    + intros *. by apply release_claim_reports.
    + intros reason now rows records st'. apply update_reports; [done|]. intros key row [_ Hs]%andb_prop. by eapply live_states.
Qed.
End journal.
(** ** Example: an admission that is completed twice *)

Definition demo_operation : OperationId := from_storage_uuid (U := Demo.uuid_lib) (Demo.Uuid128 5 eq_refl).
Definition demo_admission : AdmissionClaim :=
  mkAdmissionClaim demo_operation StoreDemo.tool_call StoreDemo.session "0123456789abcdef0123456789abcdef" 1 None.

Definition admission_ops : list StoreOp :=
  [OpAdmission demo_admission 1; OpStart demo_operation None 2;
   OpFinalize demo_operation AdmissionTerminal.Completed "done" None 3;
   OpFinalize demo_operation AdmissionTerminal.Completed "done" None 4].

Definition flag (db : Db (U := Demo.uuid_lib)) (key : OperationId * N) : option bool := jr_released <$> db_journal db !! key.

Lemma flags_turned a b key : flag a key = Some false -> flag b key = Some true -> turned a b key.
Proof. intros (r & Hr & Ha)%fmap_Some (r' & Hr' & Hb)%fmap_Some. by exists r, r'. Qed.

(** The first finalization sets the flag, the second finds it set. *)
Lemma admissions_released_once_witness :
  exists a b d, sw_past (play admission_ops new_store).2 !! 2 = Some a /\ sw_past (play admission_ops new_store).2 !! 3 = Some b
    /\ sw_past (play admission_ops new_store).2 !! 4 = Some d
    /\ turned a b (demo_operation, 0%N) /\ ~ turned b d (demo_operation, 0%N).
Proof.
  assert (bool_decide ((fun db => flag db (demo_operation, 0%N)) <$> sw_past (play admission_ops new_store).2
    = [None; Some false; Some false; Some true; Some true]) = true) as Hf by (vm_compute; reflexivity).
  apply bool_decide_eq_true in Hf. destruct (played admission_ops) as (c & Hrun & Hw & _). rewrite <- Hw in *. clear Hw.
  destruct (sw_past (cf_world c)) as [|d0 [|d1 [|d2 [|d3 [|d4 []]]]]] eqn:Hp; try discriminate.
  exists d2, d3, d4. injection Hf as _ _ H2 H3 _. pose proof (flags_turned d2 d3 (demo_operation, 0%N) H2 H3) as Ht.
  split_and!; [done..|]. destruct (admissions_released_once c Hrun) as (_ & Honce & _).
  eapply (Honce 2 3 3 4); [lia..|rewrite Hp; reflexivity|rewrite Hp; reflexivity|rewrite Hp; reflexivity|rewrite Hp; reflexivity|exact Ht].
Defined.
