(* ===== verification/CloseSpec.v ===== *)
(** * Closing turns ([Recovery])

    The events that close a session's open turns do what they are for: in the fold of the log after
    them every message that was open is finished, its open tools have failed, the members its turn
    owned are cancelled, and nothing else of the transcript changed; a second pass writes nothing. *)

From S2P Require Import Prelude RustStr Platform Ids Scope Wire Workflow Usage Events Team Projection Transcript Result Effects StoreDb StoreTx Store Claims WfAdmission Recovery StoreBuilt StoreSpec Runs StorePool.

(** ** Editing one element after the other *)

Section sweep.
Context {A K Op : Type} `{!EqDecision K} (key : A -> K) (kop : Op -> K) (ed : Op -> A -> A) (ops : A -> list Op).
Hypothesis ed_key : forall o x, key (ed o x) = key x.
Hypothesis ops_key : forall x o, o ∈ ops x -> kop o = key x.

Definition edit (l : list A) (o : Op) : list A := update_last (fun y => key y = kop o) (ed o) l.

Lemma update_last_focus (P : A -> Prop) `{!forall x, Decision (P x)} f l x k :
  Forall (fun y => ~ P y) k -> P x -> update_last P f (l ++ x :: k) = l ++ f x :: k.
Proof.
  intros Hk Hx. unfold update_last. rewrite reverse_app, reverse_cons, <- app_assoc. simpl.
  assert (update_first P f (reverse k ++ x :: reverse l) = reverse k ++ f x :: reverse l) as ->.
  { assert (Forall (fun y => ~ P y) (reverse k)) as Hr by (by apply Forall_reverse). clear Hk.
    induction Hr as [|y r Hy _ IH]; simpl; [by rewrite decide_True|]. by rewrite decide_False, IH. }
  rewrite reverse_app, reverse_cons, !reverse_involutive, <- app_assoc. done.
Qed.

Lemma sweep_one l x k os :
  Forall (fun y => key y <> key x) k -> (forall o, o ∈ os -> kop o = key x) ->
  foldl edit (l ++ x :: k) os = l ++ foldl (fun x o => ed o x) x os :: k.
Proof.
  revert x. induction os as [|o os IH]; intros x Hk Hos; [done|]. simpl. unfold edit at 2.
  rewrite update_last_focus; [|eapply Forall_impl; [exact Hk|]; intros y Hy; by rewrite (Hos o) by (by left)|rewrite (Hos o) by (by left); done].
  rewrite IH; [done| |]; [by rewrite ed_key|intros o' Ho']. rewrite ed_key. apply Hos. by right.
Qed.

(** Operations grouped by the element they are for act on each element alone. *)
Lemma sweep l :
  NoDup (key <$> l) -> foldl edit l (l ≫= ops) = (fun x => foldl (fun x o => ed o x) x (ops x)) <$> l.
Proof.
  set (net := fun x => foldl (fun x o => ed o x) x (ops x)).
  assert (forall k l, NoDup (key <$> k) -> foldl edit (l ++ k) (k ≫= ops) = l ++ (net <$> k)) as Hgen; [|by apply (Hgen l [])].
  clear l. induction k as [|x k IH]; intros l Hnd; [done|]. rewrite fmap_cons in Hnd. apply NoDup_cons in Hnd as [Hx Hnd].
  rewrite bind_cons, foldl_app, sweep_one.
  - change (l ++ ?y :: k) with (l ++ [y] ++ k). rewrite app_assoc, IH by done. rewrite <- app_assoc. done.
  - apply Forall_forall. intros y Hy Heq. apply Hx. rewrite <- Heq. by apply list_elem_of_fmap_2.
  - intros o. apply ops_key.
Qed.
End sweep.

Lemma fmap_update_last {A B} (h : A -> B) (P : A -> Prop) (P' : B -> Prop) `{!forall x, Decision (P x)} `{!forall x, Decision (P' x)} f g l :
  (forall x, P x <-> P' (h x)) -> (forall x, h (f x) = g (h x)) -> h <$> update_last P f l = update_last P' g (h <$> l).
Proof.
  intros HP Hf. unfold update_last. rewrite fmap_reverse. f_equal. rewrite <- fmap_reverse. generalize (reverse l). clear l.
  induction l as [|x l IH]; [done|]. rewrite fmap_cons. cbn [update_first]. destruct (decide (P x)) as [Hx|Hx].
  - rewrite decide_True by (by apply HP). by rewrite fmap_cons, Hf.
  - rewrite decide_False by (by rewrite <- HP). by rewrite fmap_cons, IH.
Qed.

Lemma update_last_iff {A} (P P' : A -> Prop) `{!forall x, Decision (P x)} `{!forall x, Decision (P' x)} f l :
  (forall x, P x <-> P' x) -> update_last P f l = update_last P' f l.
Proof. intros HP. rewrite <- (list_fmap_id (update_last P f l)), (fmap_update_last (fun x => x) P P' f f) by done. by rewrite list_fmap_id. Qed.

Lemma update_last_id {A} (P : A -> Prop) `{!forall x, Decision (P x)} l : update_last P (fun x => x) l = l.
Proof. unfold update_last. by rewrite update_first_id, reverse_involutive. Qed.

Lemma alter_position {A} (P : A -> Prop) `{!forall x, Decision (P x)} f l idx :
  position P l = Some idx -> alter f idx l = update_first P f l.
Proof.
  revert idx. induction l as [|x l IH]; intros idx; simpl; [done|]. destruct (decide (P x)); [by intros [= <-]|].
  intros (i & Hi & ->)%fmap_Some. simpl. by rewrite <- (IH i).
Qed.

Lemma update_last_cons_not {A} (P : A -> Prop) `{!forall x, Decision (P x)} f x l :
  ~ P x -> update_last P f (x :: l) = x :: update_last P f l.
Proof.
  intros Hx. unfold update_last. rewrite reverse_cons.
  assert (update_first P f (reverse l ++ [x]) = update_first P f (reverse l) ++ [x]) as ->.
  { induction (reverse l) as [|y r IH]; simpl; [by rewrite decide_False|]. destruct (decide (P y)); [done|]. by rewrite IH. }
  by rewrite reverse_snoc.
Qed.

Lemma update_first_last {A K} `{!EqDecision K} (key : A -> K) k f (l : list A) :
  NoDup (key <$> l) -> update_first (fun x => key x = k) f l = update_last (fun x => key x = k) f l.
Proof.
  induction l as [|x l IH]; [done|]. rewrite fmap_cons. intros [Hx Hnd]%NoDup_cons. cbn [update_first].
  destruct (decide (key x = k)) as [Hk|Hk].
  - symmetry. apply (update_last_focus (fun x => key x = k) f [] x l); [|done]. apply Forall_forall. intros y Hy Heq.
    apply Hx. rewrite Hk, <- Heq. by apply list_elem_of_fmap_2.
  - by rewrite update_last_cons_not, IH.
Qed.

Lemma position_none {A} (P : A -> Prop) `{!forall x, Decision (P x)} l : position P l = None -> Forall (fun x => ~ P x) l.
Proof.
  induction l as [|x l IH]; simpl; [done|]. destruct (decide (P x)); [done|]. intros Hn%fmap_None. constructor; auto.
Qed.

Section close.
Context `{U : UuidLib} `{J : JsonLib} `{L : !StoreLib}.
Implicit Types (p : Projection) (m : MessageProjection) (x : PartProjection) (env : Envelope).

(** ** What closing means *)

(** A message but its update time. *)
Definition untimed m : MessageProjection := m <| msg_time_updated := None |>.

Definition failed_part (reason code : string) x : PartProjection :=
  match open_tool x with
  | Some _ => set_tool_state (fun state => ToolPartState.Error (tool_input state) reason (Some (code_value code))) x
  | None => x
  end.

Definition closed_message (reason code : string) (cause : option FinishCause.t) m : MessageProjection :=
  if is_open_message m then
    m <| msg_parts ::= map (failed_part reason code) |> <| msg_finish := Some FinishReason.Cancelled |>
      <| msg_cause := cause |> <| msg_tokens := None |>
  else m.

Definition closed_member (reason : string) (calls : list ToolCallId) (member : MemberProjection) : MemberProjection :=
  if closes_member calls member
  then member <| mp_status := MemberRunStatus.Cancelled |> <| mp_summary := reason |> else member.

(** ** One closing event *)

(** The events that close turns. *)
Definition is_close_event (e : Event.t) : bool :=
  match e with
  | Event.ToolError _ _ _ _ _ _ | Event.MemberFinished _ _ _ _ _ => true
  | Event.MessageFinished _ _ _ _ None _ => true
  | _ => false
  end.

Definition event_message (e : Event.t) : option MessageId :=
  match e with
  | Event.ToolError _ message _ _ _ _ | Event.MessageFinished _ message _ _ _ _ => Some message
  | _ => None
  end.

Definition message_edit (e : Event.t) m : MessageProjection :=
  match e with
  | Event.ToolError _ _ part _ text value =>
      m <| msg_parts ::= update_last (fun x => part_id x = part)
             (set_tool_state (fun state => ToolPartState.Error (tool_input state) text value)) |>
  | Event.MessageFinished _ _ _ finish tokens cause =>
      m <| msg_finish := Some finish |> <| msg_cause := cause |> <| msg_tokens := tokens |>
  | _ => m
  end.

Lemma untimed_messages id (f : MessageProjection -> MessageProjection) g p :
  (forall m, untimed (f m) = g (untimed m)) ->
  untimed <$> sp_messages (p_session (update_message id f p))
  = update_last (fun m => msg_id m = id) g (untimed <$> sp_messages (p_session p)).
Proof. intros Hf. by apply fmap_update_last. Qed.

Lemma untimed_stamp e ts m : is_message_started e = false -> untimed (stamp e ts m) = untimed m.
Proof. unfold stamp. intros ->. done. Qed.

Lemma apply_new_session p env :
  (p_last_seq p < env_seq env)%N ->
  p_session (apply p env) = p_session (stamp_message_time (env_event env) (env_ts_millis env) (apply_event (env_event env) p)).
Proof.
  intros Hseq. unfold apply. destruct (env_seq env =? 0)%N eqn:E0; [done|]. by rewrite (proj2 (N.leb_gt _ _)) by lia.
Qed.

(** A new closing event edits its message. *)
Lemma apply_close_messages p env :
  is_close_event (env_event env) = true -> (p_last_seq p < env_seq env)%N ->
  untimed <$> sp_messages (p_session (apply p env))
  = match event_message (env_event env) with
    | Some id => update_last (fun m => msg_id m = id) (message_edit (env_event env)) (untimed <$> sp_messages (p_session p))
    | None => untimed <$> sp_messages (p_session p)
    end.
Proof.
  intros He Hseq. rewrite apply_new_session by done. destruct (env_event env); try discriminate;
    unfold stamp_message_time; cbn [changed_message apply_event event_message]; [destruct tokens; [done|]|..].
  - rewrite (untimed_messages _ _ (fun m => m)) by (intros m; by apply untimed_stamp).
    rewrite update_last_id. unfold on_message_finished.
    assert (legacy_sum p message None = None) as -> by (unfold legacy_sum; by destruct (message_ref p message)).
    by apply untimed_messages.
  - rewrite (untimed_messages _ _ (fun m => m)) by (intros m; by apply untimed_stamp).
    rewrite update_last_id. by apply untimed_messages.
  - unfold on_session, on_member_finished, update_member. simpl. by destruct (position _ _).
Qed.

(** ** All closing events: the messages *)

Definition message_key m : option MessageId := Some (msg_id m).
Definition close_edit : list MessageProjection -> Event.t -> list MessageProjection :=
  edit message_key event_message message_edit.

Lemma foldl_close_messages p envs :
  Forall (fun env => is_close_event (env_event env) = true) envs -> increasing (env_seq <$> envs) ->
  Forall (fun env => p_last_seq p < env_seq env)%N envs ->
  untimed <$> sp_messages (p_session (foldl apply p envs))
  = foldl close_edit (untimed <$> sp_messages (p_session p)) (env_event <$> envs).
Proof.
  revert p. induction envs as [|env envs IH]; intros p; [done|]. rewrite !fmap_cons. simpl.
  intros [He Hall]%Forall_cons [Hlt Hinc] [Hseq _]%Forall_cons. rewrite IH; [|done|done|].
  - f_equal. rewrite apply_close_messages by done. unfold close_edit, edit.
    destruct (event_message (env_event env)) as [id|].
    + apply update_last_iff. intros m. unfold message_key. split; [by intros ->|by intros [= ->]].
    + rewrite update_last_not; [done|]. by apply Forall_forall.
  - rewrite apply_last_seq, N.max_r by lia. by rewrite Forall_fmap in Hlt.
Qed.

Lemma message_edit_key e m : message_key (message_edit e m) = message_key m.
Proof. by destruct e. Qed.

Lemma close_events_key session reason code cause m e :
  e ∈ message_close_events session reason code cause m -> event_message e = message_key m.
Proof.
  unfold message_close_events. destruct (is_open_message m); [|by intros ?%elem_of_nil].
  intros [(tool & -> & _)%list_elem_of_fmap|He%list_elem_of_singleton]%elem_of_app; [done|by subst].
Qed.

(** The open tools of a message fail one after the other. *)
Definition open_tool_list x : list (PartId * ToolCallId) := option_list (open_tool x).
Definition fail_tool (reason code : string) (_ : PartId * ToolCallId) x : PartProjection :=
  set_tool_state (fun state => ToolPartState.Error (tool_input state) reason (Some (code_value code))) x.

Lemma open_tools_bind m : open_tools m = msg_parts m ≫= open_tool_list.
Proof. unfold open_tools. induction (msg_parts m) as [|x l IH]; [done|]. rewrite bind_cons, <- IH. unfold open_tool_list. simpl. by destruct (open_tool x). Qed.

Lemma fail_tools (reason code : string) m :
  NoDup (part_id <$> msg_parts m) ->
  foldl (edit part_id fst (fail_tool reason code)) (msg_parts m) (open_tools m) = map (failed_part reason code) (msg_parts m).
Proof.
  intros Hnd. rewrite open_tools_bind, (sweep part_id fst _ open_tool_list) by
    (done || (intros o x; apply set_tool_state_id) || (intros x o; unfold open_tool_list, open_tool; destruct x as [| |? ? ? []]; simpl; set_solver)).
  apply map_ext. intros x. unfold open_tool_list, failed_part. by destruct (open_tool x).
Qed.

Lemma foldl_tool_errors session reason code id tools m :
  foldl (fun m e => message_edit e m) m ((fun tool => Event.ToolError session id tool.1 tool.2 reason (Some (code_value code))) <$> tools)
  = m <| msg_parts := foldl (edit part_id fst (fail_tool reason code)) (msg_parts m) tools |>.
Proof. revert m. induction tools as [|tool tools IH]; intros m; [by destruct m|]. rewrite fmap_cons. simpl. by rewrite IH. Qed.

Lemma close_message_net session reason code cause m :
  NoDup (part_id <$> msg_parts m) ->
  foldl (fun m e => message_edit e m) m (message_close_events session reason code cause m) = closed_message reason code cause m.
Proof.
  intros Hnd. unfold message_close_events, closed_message. destruct (is_open_message m); [|done].
  rewrite foldl_app, foldl_tool_errors, fail_tools by done. by destruct m.
Qed.

Lemma close_edit_none l events : Forall (fun e => event_message e = None) events -> foldl close_edit l events = l.
Proof.
  revert l. induction events as [|e events IH]; intros l; [done|]. intros [He Hall]%Forall_cons. simpl.
  unfold close_edit at 2, edit. rewrite update_last_not; [by apply IH|]. apply Forall_forall. intros m _. by rewrite He.
Qed.

Lemma bind_untimed session reason code cause ms :
  ms ≫= message_close_events session reason code cause
  = (untimed <$> ms) ≫= message_close_events session reason code cause.
Proof. induction ms as [|m ms IH]; [done|]. by rewrite fmap_cons, !bind_cons, <- IH. Qed.

(** The messages after all closing events. *)
Lemma close_messages session reason code cause p envs members :
  transcript_wf p -> increasing (env_seq <$> envs) -> Forall (fun env => p_last_seq p < env_seq env)%N envs ->
  env_event <$> envs = (members ++ (sp_messages (p_session p) ≫= message_close_events session reason code cause))%list ->
  Forall (fun e => event_message e = None) members -> Forall (fun env => is_close_event (env_event env) = true) envs ->
  untimed <$> sp_messages (p_session (foldl apply p envs))
  = untimed <$> (closed_message reason code cause <$> sp_messages (p_session p)).
Proof.
  intros [[Hids Hparts] _] Hinc Hseq Hev Hmem Hclose. simpl in Hids, Hparts. rewrite fmap_app in Hids.
  apply NoDup_app in Hids as [Hids _]. apply Forall_app in Hparts as [Hparts _].
  rewrite foldl_close_messages by done. rewrite Hev, foldl_app, bind_untimed. rewrite (close_edit_none _ members) by done.
  assert (NoDup (message_key <$> (untimed <$> sp_messages (p_session p)))) as Hnd.
  { assert (message_key <$> (untimed <$> sp_messages (p_session p)) = Some <$> (msg_id <$> sp_messages (p_session p))) as ->
      by by rewrite <- !list_fmap_compose.
    by apply NoDup_fmap_2; [apply _|]. }
  unfold close_edit. rewrite (sweep message_key event_message message_edit) by
    (apply message_edit_key || (intros m e; apply close_events_key) || exact Hnd).
  rewrite <- !list_fmap_compose. apply list_fmap_ext. intros i m Hm. unfold compose.
  apply list_elem_of_lookup_2 in Hm. eapply Forall_forall in Hparts; [|exact Hm].
  rewrite close_message_net by exact Hparts. unfold closed_message. change (is_open_message (untimed m)) with (is_open_message m).
  by destruct (is_open_message m).
Qed.

(** ** Members *)

Lemma update_member_keys id (f : MemberProjection -> MemberProjection) s :
  (forall entry, mp_member (f entry) = mp_member entry) ->
  NoDup (mp_member <$> sp_members s) -> NoDup (mp_member <$> sp_members (update_member id f s)).
Proof.
  intros Hf Hnd. unfold update_member. destruct (position _ _) as [idx|] eqn:E; simpl.
  - rewrite (alter_position _ f _ _ E), (update_first_key _ mp_member) by (intros; apply Hf). done.
  - rewrite fmap_app. apply NoDup_app. split_and!; [done| |apply NoDup_singleton].
    intros k (m & -> & Hm)%list_elem_of_fmap Hk%list_elem_of_singleton. rewrite Hf in Hk. simpl in Hk.
    apply position_none in E. eapply Forall_forall in E; [|exact Hm]. done.
Qed.

Lemma on_session_members (f : SessionProjection -> SessionProjection) p :
  (forall s, sp_members (f s) = sp_members s) -> sp_members (p_session (on_session f p)) = sp_members (p_session p).
Proof. intros Hf. apply Hf. Qed.

Lemma apply_event_members e p :
  sp_members (p_session (apply_event e p)) = sp_members (p_session p)
  \/ exists id f, (forall entry, mp_member (f entry) = mp_member entry)
       /\ sp_members (p_session (apply_event e p)) = sp_members (update_member id f (p_session p)).
Proof.
  destruct e; cbn [apply_event];
    try (left; reflexivity);
    try (right; eexists _, _; split; [|reflexivity]; intros m; by repeat case_match);
    left; try (apply on_session_members; intros s;
         unfold on_agent_model_override_set, on_session_archived, on_workflow_stage_finished, on_workflow_run_finished;
         by repeat case_match).
  - unfold on_message_started. by case_match.
  - unfold on_message_finished. by destruct (legacy_sum p message tokens).
  - unfold on_tool_call_requested, upsert_tool. by repeat case_match.
  - unfold on_context_compacted. by repeat case_match.
  - unfold on_usage_recorded. by case_match.
  - unfold apply_revert. case_match; [|done]. simpl. by destruct (sp_revert (p_session p)).
  - by case_match.
Qed.

Lemma stamp_members e ts p : sp_members (p_session (stamp_message_time e ts p)) = sp_members (p_session p).
Proof. unfold stamp_message_time. by destruct (changed_message e). Qed.

(** The rows of the members have distinct ids, whatever the log. *)
Lemma members_unique envs : NoDup (mp_member <$> sp_members (p_session (from_events envs))).
Proof.
  apply from_events_ind; [apply NoDup_nil_2|]. intros p env Hp. destruct (apply_cases p env) as [->|[n ->]]; [done|].
  simpl. rewrite stamp_members. destruct (apply_event_members (env_event env) p) as [->|(id & f & Hf & ->)]; [done|].
  by apply update_member_keys.
Qed.

Definition member_key (entry : MemberProjection) : option MemberId := Some (mp_member entry).
Definition event_member (e : Event.t) : option MemberId :=
  match e with Event.MemberFinished _ member _ _ _ => Some member | _ => None end.
Definition member_edit (e : Event.t) (entry : MemberProjection) : MemberProjection :=
  match e with
  | Event.MemberFinished _ _ status summary child =>
      let entry := entry <| mp_status := status |> <| mp_summary := summary |> in
      if decide (is_Some child) then entry <| mp_child := child |> else entry
  | _ => entry
  end.
Definition member_edits : list MemberProjection -> Event.t -> list MemberProjection :=
  edit member_key event_member member_edit.

Lemma member_edit_key e entry : member_key (member_edit e entry) = member_key entry.
Proof. destruct e; try done. simpl. by case_decide. Qed.

Lemma member_edits_keys l e : mp_member <$> member_edits l e = mp_member <$> l.
Proof. unfold member_edits, edit. apply update_last_key. intros entry _. pose proof (member_edit_key e entry) as H. by injection H. Qed.

Lemma member_edits_none l events : Forall (fun e => event_member e = None) events -> foldl member_edits l events = l.
Proof.
  intros He. revert l. induction He as [|e events He _ IH]; intros l; [done|]. simpl. rewrite IH. unfold member_edits, edit.
  apply update_last_not, Forall_forall. intros entry _. by rewrite He.
Qed.

Lemma apply_close_members p env :
  is_close_event (env_event env) = true -> (p_last_seq p < env_seq env)%N -> NoDup (mp_member <$> sp_members (p_session p)) ->
  (forall id, event_member (env_event env) = Some id -> id ∈ mp_member <$> sp_members (p_session p)) ->
  sp_members (p_session (apply p env)) = member_edits (sp_members (p_session p)) (env_event env).
Proof.
  intros He Hseq Hnd Hin. rewrite apply_new_session, stamp_members by done. unfold member_edits, edit.
  destruct (env_event env) eqn:Eev; try discriminate; cbn [apply_event event_member] in *.
  - destruct tokens; [done|]. rewrite update_last_not by (by apply Forall_forall). unfold on_message_finished.
    by destruct (legacy_sum p message None).
  - by rewrite update_last_not by (by apply Forall_forall).
  - specialize (Hin member eq_refl). unfold on_session, on_member_finished, update_member. simpl.
    destruct (position _ _) as [idx|] eqn:Epos; simpl.
    + rewrite (alter_position _ _ _ _ Epos). rewrite (update_first_last mp_member) by done.
      apply update_last_iff. intros entry. unfold member_key. split; [by intros ->|by intros [= ->]].
    + apply position_none in Epos. apply list_elem_of_fmap in Hin as (entry & -> & Hentry). eapply Forall_forall in Epos; [|exact Hentry]. done.
Qed.

Lemma foldl_close_members p envs :
  Forall (fun env => is_close_event (env_event env) = true) envs -> increasing (env_seq <$> envs) ->
  Forall (fun env => p_last_seq p < env_seq env)%N envs -> NoDup (mp_member <$> sp_members (p_session p)) ->
  (forall env id, env ∈ envs -> event_member (env_event env) = Some id -> id ∈ mp_member <$> sp_members (p_session p)) ->
  sp_members (p_session (foldl apply p envs)) = foldl member_edits (sp_members (p_session p)) (env_event <$> envs).
Proof.
  revert p. induction envs as [|env envs IH]; intros p; [done|]. rewrite !fmap_cons. simpl.
  intros [He Hall]%Forall_cons [Hlt Hinc] [Hseq _]%Forall_cons Hnd Hin.
  assert (sp_members (p_session (apply p env)) = member_edits (sp_members (p_session p)) (env_event env)) as Happ.
  { apply apply_close_members; [done..|]. intros id. apply Hin. by left. }
  rewrite IH; [by rewrite Happ|done|done| |by rewrite Happ, member_edits_keys|].
  - rewrite apply_last_seq, N.max_r by lia. by rewrite Forall_fmap in Hlt.
  - intros env' id Henv'. rewrite Happ, member_edits_keys. apply Hin. by right.
Qed.

Lemma filter_fmap_bind {A B} (f : A -> bool) (g : A -> B) (l : list A) :
  g <$> filter (fun a => f a = true) l = l ≫= (fun a => if f a then [g a] else []).
Proof.
  induction l as [|a l IH]; [done|]. rewrite bind_cons, filter_cons, <- IH. by destruct (f a).
Qed.

(** The members after events that finish some of them. *)
Lemma finish_members (hit : MemberProjection -> bool) (ev : MemberProjection -> Event.t) p envs later :
  (forall entry, event_member (ev entry) = Some (mp_member entry)) ->
  increasing (env_seq <$> envs) -> Forall (fun env => p_last_seq p < env_seq env)%N envs ->
  NoDup (mp_member <$> sp_members (p_session p)) ->
  env_event <$> envs = ((ev <$> filter (fun member => hit member = true) (sp_members (p_session p))) ++ later)%list ->
  Forall (fun e => event_member e = None) later -> Forall (fun env => is_close_event (env_event env) = true) envs ->
  sp_members (p_session (foldl apply p envs))
  = (fun entry => if hit entry then member_edit (ev entry) entry else entry) <$> sp_members (p_session p).
Proof.
  intros Hkey Hinc Hseq Hnd Hev Hlater Hclose. rewrite foldl_close_members by
    (done || (intros env id Henv Hid; assert (env_event env ∈ env_event <$> envs) as Hin by (by apply list_elem_of_fmap_2);
      rewrite Hev in Hin; apply elem_of_app in Hin as [(entry & Heq & [_ Hentry]%list_elem_of_filter)%list_elem_of_fmap|Hin];
      [rewrite Heq, Hkey in Hid; injection Hid as <-; by apply list_elem_of_fmap_2
      |eapply Forall_forall in Hlater; [|exact Hin]; congruence])).
  rewrite Hev, foldl_app, filter_fmap_bind. clear Hev Hinc Hseq Hclose.
  rewrite (member_edits_none _ later) by done.
  unfold member_edits. rewrite (sweep member_key event_member member_edit).
  - apply list_fmap_ext. intros i entry _. by destruct (hit entry).
  - apply member_edit_key.
  - intros entry e. destruct (hit entry); [|by intros ?%elem_of_nil]. by intros ->%list_elem_of_singleton.
  - unfold member_key. assert ((fun entry => Some (mp_member entry)) <$> sp_members (p_session p) = Some <$> (mp_member <$> sp_members (p_session p))) as ->
      by (by rewrite <- list_fmap_compose). by apply NoDup_fmap_2; [apply _|].
Qed.

(** The members after all closing events. *)
Lemma close_members session reason calls p envs later :
  increasing (env_seq <$> envs) -> Forall (fun env => p_last_seq p < env_seq env)%N envs ->
  NoDup (mp_member <$> sp_members (p_session p)) ->
  env_event <$> envs = ((member_close_event session reason <$>
    filter (fun member => closes_member calls member = true) (sp_members (p_session p))) ++ later)%list ->
  Forall (fun e => event_member e = None) later -> Forall (fun env => is_close_event (env_event env) = true) envs ->
  sp_members (p_session (foldl apply p envs)) = closed_member reason calls <$> sp_members (p_session p).
Proof.
  intros Hinc Hseq Hnd Hev Hlater Hclose.
  rewrite (finish_members (closes_member calls) (member_close_event session reason) p envs later) by done.
  apply list_fmap_ext. intros i entry _. unfold closed_member. destruct (closes_member calls entry); [|done]. simpl.
  case_decide; by destruct entry.
Qed.

(** ** The transaction *)

(** What the events are for. *)
Record turns_closed (reason code : string) (cause : option FinishCause.t) (members_too : bool) p p' : Prop := {
  tc_messages : untimed <$> sp_messages (p_session p') = untimed <$> (closed_message reason code cause <$> sp_messages (p_session p));
  tc_members : sp_members (p_session p')
    = if members_too then closed_member reason (open_calls p) <$> sp_members (p_session p) else sp_members (p_session p);
}.

Lemma close_event_kinds session p reason code cause members_too :
  Forall (fun e => is_close_event e = true) (open_turn_terminal_events session p reason code cause members_too)
  /\ Forall (fun e => event_message e = None)
       (if members_too then member_close_event session reason <$>
          filter (fun member => closes_member (open_calls p) member = true) (sp_members (p_session p)) else [])
  /\ Forall (fun e => event_member e = None) (sp_messages (p_session p) ≫= message_close_events session reason code cause).
Proof.
  assert (Forall (fun e => is_close_event e = true /\ event_member e = None)
    (sp_messages (p_session p) ≫= message_close_events session reason code cause)) as Hms.
  { apply Forall_forall. intros e (m & He & _)%list_elem_of_bind. unfold message_close_events in He.
    destruct (is_open_message m); [|by apply elem_of_nil in He].
    apply elem_of_app in He as [(tool & -> & _)%list_elem_of_fmap|He%list_elem_of_singleton]; [done|by subst]. }
  assert (Forall (fun e => is_close_event e = true /\ event_message e = None)
    (if members_too then member_close_event session reason <$>
       filter (fun member => closes_member (open_calls p) member = true) (sp_members (p_session p)) else [])) as Hmem.
  { destruct members_too; [|constructor]. apply Forall_forall. by intros e (entry & -> & _)%list_elem_of_fmap. }
  split_and!; [apply Forall_app; split|..]; (eapply Forall_impl; [first [exact Hms|exact Hmem]|]); by intros e [].
Qed.

Lemma terminal_events_close session p envs reason code cause members_too :
  transcript_wf p -> NoDup (mp_member <$> sp_members (p_session p)) ->
  increasing (env_seq <$> envs) -> Forall (fun env => p_last_seq p < env_seq env)%N envs ->
  env_event <$> envs = open_turn_terminal_events session p reason code cause members_too ->
  turns_closed reason code cause members_too p (foldl apply p envs).
Proof.
  intros Hwf Hnd Hinc Hseq Hev. destruct (close_event_kinds session p reason code cause members_too) as (H1 & H2 & H3).
  assert (Forall (fun env => is_close_event (env_event env) = true) envs) as Hclose.
  { rewrite <- Hev, Forall_fmap in H1. exact H1. }
  split.
  - eapply close_messages; [done|done|done|exact Hev|exact H2|exact Hclose].
  - destruct members_too.
    + by eapply close_members.
    + rewrite foldl_close_members; [|done|done|done|done|].
      * rewrite Hev. unfold open_turn_terminal_events. rewrite app_nil_l. by apply member_edits_none.
      * intros env id Henv Hid. assert (env_event env ∈ env_event <$> envs) as Hin by (by apply list_elem_of_fmap_2).
        rewrite Hev in Hin. eapply Forall_forall in H3; [|exact Hin]. congruence.
Qed.

(** A closed message is not open, and keeps nothing open. *)
Lemma closed_not_open reason code cause m : is_open_message (closed_message reason code cause m) = false.
Proof. unfold closed_message. destruct (is_open_message m) eqn:E; [|done]. unfold is_open_message. simpl. by rewrite andb_false_r. Qed.

Lemma open_untimed ms : existsb is_open_message ms = existsb is_open_message (untimed <$> ms).
Proof. induction ms as [|m ms IH]; [done|]. rewrite fmap_cons. simpl. by rewrite <- IH. Qed.

Lemma turns_closed_none reason code cause members_too p p' :
  turns_closed reason code cause members_too p p' -> has_open_message p' = false.
Proof.
  intros [Hm _]. unfold has_open_message. rewrite open_untimed, Hm, <- open_untimed. apply not_true_is_false.
  intros (m & (m0 & -> & _)%list_elem_of_In%list_elem_of_fmap & Hopen)%existsb_exists. by rewrite closed_not_open in Hopen.
Qed.

Lemma session_fold_from session db p : session_fold session db = inl p -> exists envs, p = from_events envs.
Proof. unfold session_fold. destruct (replay session db) as [envs|]; [|done]. intros [= <-]. by exists envs. Qed.

(** Appending the closing events of a projection closes its turns. *)
Lemma append_closes session reason code cause members_too st p envs st1 :
  bases_ok st -> session_fold session (tx_db st) = inl p ->
  tx_map (append_event_in_transaction session) (open_turn_terminal_events session p reason code cause members_too) st = (inl envs, st1) ->
  Forall codec_keeps (env_event <$> envs) ->
  session_fold session (tx_db st1) = inl (foldl apply p envs)
  /\ turns_closed reason code cause members_too p (foldl apply p envs) /\ appended session envs st st1.
Proof.
  intros Hok Hp Happ Hcodec. apply append_map_appended in Happ as [Ha Hev]. rewrite Forall_fmap in Hcodec. split_and!; [|destruct (ap_fresh _ _ _ _ Ha) as [Hinc Hfresh]|done].
  - by eapply appended_fold.
  - destruct (session_fold_from _ _ _ Hp) as [envs0 Hfrom].
    eapply terminal_events_close; [rewrite Hfrom; apply from_events_wf|rewrite Hfrom; apply members_unique|done| |done].
    apply fold_last_seq in Hp; [|apply Hok]. eapply Forall_impl; [exact Hfresh|]. simpl. lia.
Qed.
End close.

Section theorem.
Context `{U : UuidLib} `{J : JsonLib} `{L : !StoreLib}.

(** C17: closing a session's open turns does what it is for.  The events the transaction appends are
    read back as what they are (the codec keeps them); then the session folds to its fold before with
    these events applied, in which, when a message was open, every open message is cancelled with the
    cause, each of its pending or running tools has failed with the reason while every other part is
    kept, the members of those calls and no other are cancelled, and otherwise nothing was written.
    No message is open any more, the index names none, the other sessions fold as before, and closing
    again, for whatever cause, appends nothing. *)
Theorem close_open_turns_exact (session : SessionId) (cause : FinishCause.t) (reason : string) (st st' : TxState) (envs : list Envelope) :
  bases_ok st -> close_open_turns_tx session cause reason st = (inl envs, st') -> Forall codec_keeps (env_event <$> envs) ->
  exists p, session_fold session (tx_db st) = inl p
    /\ session_fold session (tx_db st') = inl (foldl apply p envs)
    /\ (if has_open_message p then turns_closed reason (cause_code cause) (Some cause) true p (foldl apply p envs) else envs = [])
    /\ has_open_message (foldl apply p envs) = false
    /\ (forall message, (SessionId_storage_key session, message) ∉ db_open (tx_db st'))
    /\ (forall other, SessionId_storage_key other <> SessionId_storage_key session ->
          session_fold other (tx_db st') = session_fold other (tx_db st))
    /\ forall cause' reason', (close_open_turns_tx session cause' reason' st').1 = inl [].
Proof.
  intros Hok Hrun Hcodec. assert (bases_ok st') as Hok'.
  { replace st' with (close_open_turns_tx session cause reason st).2 by (by rewrite Hrun).
    apply tame_bases; [|done]. apply built_tame, close_open_turns_built. }
  unfold close_open_turns_tx at 1 in Hrun. replay_in Hrun with Hok as st0 Hok0 Hdb0.
  rewrite <- Hdb0 in *. clear st Hok Hdb0. destruct (session_fold session (tx_db st0)) as [p|e] eqn:Hp; [|done].
  exists p. split; [done|]. unfold tx_bind in Hrun. destruct (tx_map _ _ st0) as [[envs'|e] st1] eqn:Happ; [|done]. simpl in Hrun.
  injection Hrun as -> Hst.
  assert (Hst' : tx_db st' = (tx_db st1) <| db_open ::= filter (fun row => row.1 <> SessionId_storage_key session) |>) by (by rewrite <- Hst).
  assert (Hfold' : forall s, session_fold s (tx_db st') = session_fold s (tx_db st1)) by (intros s; by rewrite Hst'). clear Hst.
  assert (session_fold session (tx_db st1) = inl (foldl apply p envs)
    /\ (if has_open_message p then turns_closed reason (cause_code cause) (Some cause) true p (foldl apply p envs) else envs = [])
    /\ appended session envs st0 st1 /\ has_open_message (foldl apply p envs) = false) as (Hfold & Hclosed & Happended & Hnone).
  { destruct (has_open_message p) eqn:Hopen.
    - destruct (append_closes session reason (cause_code cause) (Some cause) true st0 p envs st1) as (? & Hc & ?); [done..|].
      split_and!; [done..|]. by eapply turns_closed_none.
    - injection Happ as <- <-. split_and!; [done..|apply appended_nil|done]. }
  rewrite Hfold'. split_and!; [done..| | |].
  - intros message. rewrite Hst'. simpl. by intros [Hne _]%elem_of_filter.
  - intros other Hother. rewrite Hfold'. by eapply appended_other.
  - intros cause' reason'. unfold close_open_turns_tx. replay_goal with Hok' as st2 Hok2 Hdb2.
    rewrite Hfold', Hfold, Hnone. done.
Qed.
End theorem.

(** ** A turn that was interrupted *)

Definition interrupted_turn : TxState :=
  (tx_map (append_event_in_transaction StoreDemo.session)
     [Event.MessageStarted StoreDemo.session StoreDemo.message Role.Assistant None None;
      Event.ToolCallRequested StoreDemo.session StoreDemo.message StoreDemo.part StoreDemo.tool_call (StrNewtype "shell") Demo.JNull]
     (mkTxState Db_empty cache_new)).2.

Definition closing_demo : (list Envelope + StoreError) * TxState :=
  close_open_turns_tx StoreDemo.session FinishCause.Interrupted INTERRUPTED_REASON interrupted_turn.

(** The two events the codec of the example keeps. *)
Definition closing_events (events : list Event.t) : bool :=
  match events with
  | [Event.ToolError s1 m1 p t r (Some Demo.JNull); Event.MessageFinished s2 m2 Role.Assistant FinishReason.Cancelled None (Some FinishCause.Interrupted)] =>
      bool_decide (s1 = StoreDemo.session) && bool_decide (m1 = StoreDemo.message) && bool_decide (p = StoreDemo.part)
      && bool_decide (t = StoreDemo.tool_call) && bool_decide (s2 = StoreDemo.session) && bool_decide (m2 = StoreDemo.message)
  | _ => false
  end.

Lemma closing_events_kept events : closing_events events = true -> Forall codec_keeps events /\ length events = 2.
Proof.
  unfold closing_events. repeat case_match; try done. intros H'. repeat (apply andb_true_iff in H' as [H' ?%bool_decide_eq_true]).
  apply bool_decide_eq_true in H'. subst. split; [|done]. repeat constructor; by intros payload [= <-].
Qed.

Lemma close_open_turns_exact_witness :
  exists p envs, session_fold StoreDemo.session (tx_db interrupted_turn) = inl p /\ has_open_message p = true
    /\ closing_demo.1 = inl envs /\ length envs = 2
    /\ session_fold StoreDemo.session (tx_db closing_demo.2) = inl (foldl apply p envs)
    /\ has_open_message (foldl apply p envs) = false.
Proof.
  assert (bases_ok interrupted_turn) as Hok.
  { apply (tame_bases (tx_map (append_event_in_transaction StoreDemo.session) _) (mkTxState Db_empty cache_new)); [|apply empty_bases].
    apply built_tame. solve_built. }
  assert (match closing_demo.1 with inl envs => closing_events (env_event <$> envs) | inr _ => false end = true) as Hevents by (vm_compute; reflexivity).
  assert (match session_fold StoreDemo.session (tx_db interrupted_turn) with inl p => has_open_message p | inr _ => false end = true) as Hopen by (vm_compute; reflexivity).
  destruct closing_demo as [[envs|e] st'] eqn:Hrun; [|done]. simpl in Hevents. apply closing_events_kept in Hevents as [Hcodec Hlen]. 
  destruct (close_open_turns_exact StoreDemo.session FinishCause.Interrupted INTERRUPTED_REASON interrupted_turn st' envs Hok Hrun Hcodec)
    as (p & Hp & Hp' & _ & Hnone & _).
  exists p, envs. rewrite length_fmap in Hlen. split_and!; try done. by rewrite Hp in Hopen.
Defined.
