(* ===== verification/HandoffSpec.v ===== *)
(** * Handoff ([Recovery])

    A checkpoint is refused while a tool is open or another resume of the session is pending; it
    closes the open turn without touching a part or a member.  A pending resume is taken once, with
    the marker that says so, in one transaction. *)

From stdpp Require Import sorting.
From S2P Require Import Prelude RustStr Platform Ids Scope Wire Workflow Usage Events Team Projection Transcript Result Runs Effects StoreDb StoreTx Store Claims Journal WfAdmission Recovery Mailbox StoreBuilt Concurrent StorePool StoreSpec ReadSpec CloseSpec.

Section handoff.
Context `{U : UuidLib} `{J : JsonLib} `{L : !StoreLib}.
Implicit Types (db : Db) (st : TxState) (rows : list ResumeRow).

(** ** The table of pending resumes *)

Definition live_rows (key : string) rows : list ResumeRow := filter (fun row => live_resume key row = true) rows.

Inductive resume_step rows : list ResumeRow -> Prop :=
  | rs_add row :
      rr_taken row = None -> rr_id row ∉ rr_id <$> rows -> live_rows (rr_session_key row) rows = [] ->
      resume_step rows (rows ++ [row])
  | rs_take key row owner now :
      row ∈ live_rows key rows ->
      resume_step rows (map (fun old => if decide (rr_id old = rr_id row) then old <| rr_taken := Some (owner, now) |> else old) rows)
  | rs_drop key : resume_step rows (filter (fun row => rr_session_key row <> key) rows).

Definition resumes_le db db' : Prop := rtc resume_step (db_resumes db) (db_resumes db').

Lemma resumes_le_same db db' : db_resumes db' = db_resumes db -> resumes_le db db'.
Proof. unfold resumes_le. intros ->. apply rtc_refl. Qed.

Lemma first_live_in key db row : first_live key db = Some row -> row ∈ live_rows key (db_resumes db).
Proof.
  unfold first_live. intros Hh. apply head_Some_elem_of in Hh. by rewrite merge_sort_Permutation in Hh.
Qed.

Lemma first_live_none key db : first_live key db = None <-> live_rows key (db_resumes db) = [].
Proof.
  unfold first_live. change (filter _ (db_resumes db)) with (live_rows key (db_resumes db)).
  rewrite head_None. split; intros H; [|by rewrite H]. apply Permutation_nil_r. rewrite <- H. symmetry. apply merge_sort_Permutation.
Qed.

#[global] Instance resumes_le_rel : StoreRel resumes_le.
Proof.
  split; try (intros; by apply resumes_le_same).
  - split; [intros db; apply rtc_refl|intros d1 d2 d3; unfold resumes_le; by etrans].
  - intros db db' H. by apply resumes_le_same, H.
  - intros db key. apply rtc_once, rs_drop.
  - intros db row Hrow Hold. apply rtc_once, rs_add; [done| |].
    + intros (old & Heq & Hin)%list_elem_of_fmap. eapply Forall_forall in Hold as [Hid _]; [|exact Hin]. by apply Hid.
    + apply filter_none. eapply Forall_impl; [exact Hold|]. intros old [_ Hl]. by rewrite Hl.
  - intros db key row owner now Hrow%first_live_in. apply rtc_once. by eapply rs_take.
Qed.

(** Ids are distinct, and a session has at most one live row. *)
Record resumes_ok rows : Prop := {
  ro_ids : NoDup (rr_id <$> rows);
  ro_live : forall key, length (live_rows key rows) <= 1;
}.

Lemma taken_dead key row : rr_taken row <> None -> live_resume key row = false.
Proof. intros Hr. unfold live_resume. rewrite (bool_decide_false (rr_taken row = None)) by done. apply andb_false_r. Qed.

Lemma live_rows_take key (P : ResumeRow -> Prop) `{!forall x, Decision (P x)} owner now rows :
  live_rows key (map (fun old => if decide (P old) then old <| rr_taken := Some (owner, now) |> else old) rows)
  = filter (fun old => ~ P old) (live_rows key rows).
Proof.
  unfold live_rows. induction rows as [|old rows IH]; [done|]. cbn [map]. rewrite !filter_cons.
  destruct (decide (P old)) as [HP|HP].
  - rewrite decide_False by (by rewrite taken_dead).
    rewrite IH. case_decide; [|done]. by rewrite filter_cons, decide_False by (intros Hn; by apply Hn).
  - rewrite IH. case_decide; [|done]. by rewrite filter_cons, decide_True.
Qed.

Lemma map_ids (f : ResumeRow -> ResumeRow) rows : (forall x, rr_id (f x) = rr_id x) -> rr_id <$> map f rows = rr_id <$> rows.
Proof. intros Hf. change (map f rows) with (f <$> rows). rewrite <- list_fmap_compose. apply list_fmap_ext. intros i x _. apply Hf. Qed.

Lemma resume_step_ok rows rows' : resume_step rows rows' -> resumes_ok rows -> resumes_ok rows'.
Proof.
  intros Hs [Hids Hlive]. destruct Hs as [row Hnone Hid Hno|key row owner now _|key].
  - split.
    + rewrite fmap_app. apply NoDup_app. split_and!; [done|set_solver|apply NoDup_singleton].
    + intros key. unfold live_rows in *. rewrite filter_app, length_app, filter_cons. case_decide as Hl; [|rewrite filter_nil; simpl; pose proof (Hlive key); lia].
      apply andb_prop in Hl as [<-%bool_decide_eq_true _]. by rewrite Hno.
  - split.
    + rewrite map_ids; [done|]. intros x. by case_decide.
    + intros key'. rewrite live_rows_take. etrans; [apply length_filter|apply Hlive].
  - split.
    + eapply sublist_NoDup; [exact Hids|]. apply fmap_sublist, sublist_filter.
    + intros key'. assert (live_rows key' (filter (fun row => rr_session_key row <> key) rows)
        = filter (fun row => rr_session_key row <> key) (live_rows key' rows)) as ->.
      { unfold live_rows. rewrite !list_filter_filter. apply list_filter_iff. naive_solver. }
      etrans; [apply length_filter|apply Hlive].
Qed.

(** ** A checkpoint *)

(** What the handoff leaves of an open message: everything but the end. *)
Definition handed_off m : MessageProjection :=
  if is_open_message m
  then m <| msg_finish := Some FinishReason.Cancelled |> <| msg_cause := Some FinishCause.Handoff |> <| msg_tokens := None |>
  else m.

(** What a checkpoint answers, and what it leaves. *)
Definition checkpoint_outcome (session : SessionId) (owner : OwnerRunId) (generation : N) (prompt : string)
    (resume : ResumeId) (now : Z) st (r : HandoffCheckpoint + StoreError) st' : Prop :=
  let key := SessionId_storage_key session in
  let pending := live_rows key (db_resumes (tx_db st)) in
  match r with
  | inr e =>
      tx_db st' = tx_db st
      /\ (pending <> [] -> e = ResumeAlreadyPending session)
      /\ (pending = [] -> forall p, session_fold session (tx_db st) = inl p -> has_open_tools p = true -> e = HandoffBoundaryUnsafe session)
  | inl checkpoint =>
      pending = [] /\ (exists p, session_fold session (tx_db st) = inl p /\ has_open_tools p = false
        /\ (Forall codec_keeps (env_event <$> hc_envelopes checkpoint) ->
            exists p', session_fold session (tx_db st') = inl p'
              /\ untimed <$> sp_messages (p_session p') = untimed <$> (handed_off <$> sp_messages (p_session p))
              /\ sp_members (p_session p') = sp_members (p_session p)))
      /\ db_resumes (tx_db st') = db_resumes (tx_db st) ++ [mkResumeRow resume key owner generation prompt None now]
      /\ hc_resume checkpoint = mkPendingResume resume session owner generation prompt now
  end.

Lemma live_exists key rows : existsb (live_resume key) rows = true <-> live_rows key rows <> [].
Proof.
  unfold live_rows. induction rows as [|row rows IH]; simpl; [done|]. rewrite filter_cons.
  destruct (live_resume key row); simpl; [by split|]. by rewrite IH.
Qed.

Lemma no_open_parts reason code p :
  has_open_tools p = false ->
  forall m, m ∈ sp_messages (p_session p) -> closed_message reason code (Some FinishCause.Handoff) m = handed_off m.
Proof.
  intros Hno m Hm. unfold closed_message, handed_off. destruct (is_open_message m) eqn:Hopen; [|done].
  assert (open_tools m = []) as Htools.
  { destruct (decide (open_tools m = [])) as [|Hne]; [done|]. exfalso. apply not_true_iff_false in Hno. apply Hno, existsb_exists.
    exists m. split; [by apply list_elem_of_In|]. rewrite Hopen. simpl. by apply bool_decide_eq_true. }
  assert (map (failed_part reason code) (msg_parts m) = msg_parts m) as Hparts.
  { unfold open_tools in Htools. induction (msg_parts m) as [|x l IH]; [done|]. cbn [omap list_omap] in Htools. cbn [map].
    unfold failed_part at 1. destruct (open_tool x); [done|]. by rewrite IH. }
  destruct m. unfold set. simpl in *. by rewrite Hparts.
Qed.

Lemma checkpoint_exact session owner generation prompt (resume : ResumeId) now st :
  bases_ok st ->
  checkpoint_outcome session owner generation prompt resume now st
    (transact (checkpoint_tx session owner generation prompt resume now) st).1
    (transact (checkpoint_tx session owner generation prompt resume now) st).2.
Proof.
  intros Hok. set (key := SessionId_storage_key session).
  destruct (existsb (live_resume key) (db_resumes (tx_db st))) eqn:Hlive.
  { assert (checkpoint_tx session owner generation prompt resume now st = (inr (ResumeAlreadyPending session), st)) as Hrun.
    { unfold checkpoint_tx, tx_bind at 1, tx_read at 1. fold key. by rewrite Hlive. }
    unfold transact. rewrite Hrun. split_and!; [done..|]. apply live_exists in Hlive. by intros Hn. }
  assert (live_rows key (db_resumes (tx_db st)) = []) as Hnone.
  { destruct (decide (live_rows key (db_resumes (tx_db st)) = [])) as [|Hne]; [done|]. apply live_exists in Hne. congruence. }
  unfold transact. destruct (checkpoint_tx _ _ _ _ _ _ st) as [r st1] eqn:Hrun. unfold checkpoint_tx in Hrun.
  unfold tx_bind at 1, tx_read in Hrun. fold key in Hrun. rewrite Hlive in Hrun. replay_in Hrun with Hok as st0 Hok0 Hdb0.
  unfold checkpoint_outcome. fold key. rewrite <- Hdb0 in *. clear Hdb0 Hlive.
  destruct r as [checkpoint|e]; simpl.
  - destruct (session_fold session (tx_db st0)) as [p|] eqn:Hp; [|done].
    destruct (has_open_tools p) eqn:Htools; [done|]. apply tx_bind_ok in Hrun as (envs & st2 & Happ & Hrun).
    apply tx_bind_ok in Hrun as (u & st3 & Hclear & Hrun). apply tx_bind_ok in Hrun as (u' & st4 & Hins & [= <- <-]).
    assert (db_resumes (tx_db st2) = db_resumes (tx_db st0)) as Hsame.
    { apply append_map_appended in Happ as [Ha _]. apply Ha. }
    assert (exists open, st3 = st2 <| tx_db ::= fun db => db <| db_open := open |> |>) as [open ->].
    { revert Hclear. case_decide; intros [= _ <-]; [exists (db_open (tx_db st2)); by destruct st2 as [[] ?]|by eexists]. }
    set (st3 := st2 <| tx_db ::= fun db => db <| db_open := open |> |>) in *.
    assert (st4 = st3 <| tx_db ::= fun db => db <| db_resumes ::= fun rows => rows ++ [mkResumeRow resume key owner generation prompt None now] |> |>) as ->.
    { revert Hins. unfold insert_resume. destruct (_ || _); [done|]. by intros [= _ <-]. }
    split_and!; [done| |simpl; by rewrite Hsame|done]. exists p. split_and!; [done..|]. intros Hcodec.
    destruct (append_closes session HANDOFF_REASON "HANDOFF" (Some FinishCause.Handoff) false st0 p envs st2) as (Hfold & [Hms Hmem] & _);
      [done..|]. exists (foldl apply p envs). split_and!; [|rewrite Hms; f_equal|exact Hmem].
    + exact Hfold.
    + apply list_fmap_ext. intros i m Hm%list_elem_of_lookup_2. by apply no_open_parts with (p := p).
  - split_and!; [done..|]. intros _ p Hp Htools. rewrite Hp, Htools in Hrun. by injection Hrun.
Qed.

(** ** Taking a resume *)

Definition resume_outcome (session : SessionId) (owner : OwnerRunId) (now : Z) st (r : option HandoffResumeStart + StoreError) st' : Prop :=
  let key := SessionId_storage_key session in
  let pending := live_rows key (db_resumes (tx_db st)) in
  match r with
  | inr e => tx_db st' = tx_db st /\ pending <> []
  | inl None => tx_db st' = tx_db st /\ pending = []
  | inl (Some start) =>
      exists row, pending = [row] /\ decode_pending_resume row = inl (hs_resume start)
        /\ (forall other, other ∈ db_resumes (tx_db st') <->
              other = row <| rr_taken := Some (owner, now) |> \/ other ∈ db_resumes (tx_db st) /\ rr_id other <> rr_id row)
        /\ live_rows key (db_resumes (tx_db st')) = []
        /\ env_event (hs_envelope start)
           = Event.SessionStatus session (resume_value (uuid_hyphenated (as_uuid (rr_id row))) (rr_generation row))
        /\ (codec_keeps (env_event (hs_envelope start)) -> forall p, session_fold session (tx_db st) = inl p ->
              session_fold session (tx_db st') = inl (apply p (hs_envelope start))
              /\ untimed <$> sp_messages (p_session (apply p (hs_envelope start))) = untimed <$> sp_messages (p_session p)
              /\ sp_members (p_session (apply p (hs_envelope start))) = sp_members (p_session p))
  end.

Lemma live_one key rows row : resumes_ok rows -> row ∈ live_rows key rows -> live_rows key rows = [row].
Proof.
  intros [_ Hlive] Hrow. specialize (Hlive key). destruct (live_rows key rows) as [|r1 [|r2 l]]; simpl in *; [by apply elem_of_nil in Hrow| |lia].
  by apply list_elem_of_singleton in Hrow as ->.
Qed.

Lemma take_rows rows row owner now :
  NoDup (rr_id <$> rows) -> row ∈ rows ->
  forall other, other ∈ map (fun old => if decide (rr_id old = rr_id row) then old <| rr_taken := Some (owner, now) |> else old) rows
    <-> other = row <| rr_taken := Some (owner, now) |> \/ other ∈ rows /\ rr_id other <> rr_id row.
Proof.
  intros Hnd Hrow other. change (map ?f rows) with (f <$> rows). rewrite list_elem_of_fmap. split.
  - intros (old & -> & Hold). case_decide as Hid; [left|by right]. f_equal.
    apply list_elem_of_lookup in Hrow as [i Hi], Hold as [k Hk].
    assert (i = k) as <-; [|congruence]. eapply NoDup_lookup; [exact Hnd| |]; rewrite list_lookup_fmap; [by rewrite Hi|by rewrite Hk; simpl; rewrite Hid].
  - intros [->|[Hother Hne]]; [exists row; by rewrite decide_True|exists other; by rewrite decide_False].
Qed.

Lemma status_keeps session status p env :
  env_event env = Event.SessionStatus session status ->
  untimed <$> sp_messages (p_session (apply p env)) = untimed <$> sp_messages (p_session p)
  /\ sp_members (p_session (apply p env)) = sp_members (p_session p).
Proof.
  intros He. destruct (apply_cases p env) as [->|[n ->]]; [done|]. rewrite He. done.
Qed.

Lemma take_live_none key row owner now rows :
  resumes_ok rows -> live_rows key rows = [row] ->
  live_rows key (map (fun old => if decide (rr_id old = rr_id row) then old <| rr_taken := Some (owner, now) |> else old) rows) = [].
Proof.
  intros Hok Hl. rewrite live_rows_take, Hl. rewrite filter_cons, decide_False by (intros Hn; by apply Hn). done.
Qed.

Lemma resume_exact session owner now st :
  resumes_ok (db_resumes (tx_db st)) -> bases_ok st ->
  resume_outcome session owner now st (transact (begin_handoff_tx session owner now) st).1
    (transact (begin_handoff_tx session owner now) st).2.
Proof.
  intros Hres Hok. unfold transact. destruct (begin_handoff_tx session owner now st) as [r st1] eqn:Hrun.
  unfold begin_handoff_tx, tx_bind at 1, take_first_live in Hrun. set (key := SessionId_storage_key session) in *.
  destruct (first_live key (tx_db st)) as [row|] eqn:Hfirst.
  2: { injection Hrun as <- <-. split; [done|]. by apply first_live_none. }
  pose proof (first_live_in _ _ _ Hfirst) as Hin. pose proof (live_one _ _ _ Hres Hin) as Hone.
  set (st0 := st <| tx_db ::= take_resume (rr_id row) owner now |>) in *.
  destruct r as [[start|]|e]; unfold resume_outcome; fold key; simpl.
  - apply tx_bind_ok in Hrun as (resume & st2 & [Hdecode ->]%tx_try_ok & (env & st3 & Happ & [= <- <-])%tx_bind_ok).
    apply append_appended in Happ as [Ha Hev]. exists row. simpl. rewrite Hone.
    assert (db_resumes (tx_db st3) = db_resumes (tx_db st0)) as -> by apply Ha.
    split_and!; [done|done|apply take_rows; [apply Hres|]|by apply take_live_none| |].
    + by apply list_elem_of_filter in Hin as [_ Hin].
    + rewrite Hev. unfold decode_pending_resume in Hdecode. destruct (decode_session_key _); [|done]. by injection Hdecode as <-.
    + intros Hcodec p Hp. split; [|by eapply status_keeps].
      eapply (appended_fold session [env] st0); [exact Ha|by apply Forall_singleton|exact Hp].
  - by apply tx_bind_ok in Hrun as (resume & st2 & _ & (env & st3 & _ & [=])%tx_bind_ok).
  - split; [done|]. by rewrite Hone.
Qed.

Lemma resumes_run c : store_run c -> chained resumes_le (cf_world c).
Proof.
  intros Hrun. assert (forall db k sn, resumes_le db (db <| db_snapshots ::= <[k := sn]> |>)) as Hsnap by (intros; by apply resumes_le_same).
  refine (proj1 (store_run_safe resumes_le (fun _ _ _ _ => True) c _ _ Hrun)); [done|].
  intros op w _. apply writes_safe; [apply _|exact Hsnap|apply run_op_writes].
Qed.

End handoff.

Section result.
Context `{U : UuidLib} `{J : JsonLib} `{L : !StoreLib} `{!StoreLaws L}.

(** C18: in every run of the store the table of pending resumes only changes by steps that add a live
    row with a new id for a session that has none, take a live row, or drop a session's rows; so ids stay
    distinct and a session has at most one live row.  In every world a run reaches, a checkpoint is
    refused, and changes nothing, when the session has a live row or an open tool; otherwise the
    session then folds to what it was with its open messages cancelled for the handoff, no part and no
    member touched, and the row is added.  Taking a resume takes the session's one live row and
    no other, so that none is left, and appends in the same transaction the marker, which changes
    neither messages nor members; without a live row it changes nothing. *)
Theorem handoff_resumed_once (c : Config) :
  store_run c -> Forall json_keeps (sw_past (cf_world c)) ->
  (forall i j a b, i <= j -> sw_past (cf_world c) !! i = Some a -> sw_past (cf_world c) !! j = Some b ->
     rtc resume_step (db_resumes a) (db_resumes b) /\ resumes_ok (db_resumes a))
  /\ let st := sw_tx (cf_world c) in
     (forall session owner generation prompt (resume : ResumeId) now,
        let outcome := transact (checkpoint_tx session owner generation prompt resume now) st in
        checkpoint_outcome session owner generation prompt resume now st outcome.1 outcome.2)
     /\ (forall session owner now,
           let outcome := transact (begin_handoff_tx session owner now) st in
           resume_outcome session owner now st outcome.1 outcome.2).
Proof.
  intros Hrun Hkept. destruct (resumes_run c Hrun) as [Hcur H0 Hle].
  assert (forall i a, sw_past (cf_world c) !! i = Some a -> resumes_ok (db_resumes a)) as Hok.
  { intros i a Ha. pose proof (Hle 0 i Db_empty a ltac:(lia) H0 Ha : rtc resume_step _ _) as Hs.
    assert (resumes_ok (db_resumes Db_empty)) as He by (split; [apply NoDup_nil_2|simpl; lia]). revert He.
    induction Hs as [rows|r1 r2 r3 H12 _ IH]; [done|]. intros H1. apply IH. by eapply resume_step_ok. }
  destruct (store_run_world c Hrun Hkept) as [[Hbases _] _].
  split; [intros i j a b Hij Ha Hb; split; [by eapply Hle|by eapply Hok]|]. split; intros *.
  - by apply checkpoint_exact.
  - apply resume_exact; [|done]. unfold current in Hcur. rewrite last_lookup in Hcur. by eapply Hok.
Qed.
End result.

(** ** Example: a checkpoint, and the resume after it *)

Definition demo_resume : ResumeId := from_uuid (Demo.Uuid128 6 eq_refl).

Definition handoff_ops : list StoreOp :=
  [OpClaimOwner (inl tt) demo_owner; OpCheckpoint StoreDemo.session demo_owner 7 "go on" demo_resume 3].

Definition taken_prompt (r : option HandoffResumeStart + StoreError) : option string :=
  match r with inl (Some start) => Some (pr_prompt (hs_resume start)) | _ => None end.

Lemma handoff_resumed_once_witness :
  let st := sw_tx (play handoff_ops new_store).2 in
  exists start st', transact (begin_handoff_tx StoreDemo.session StoreDemo.other_owner 5) st = (inl (Some start), st')
    /\ pr_prompt (hs_resume start) = "go on" /\ live_rows (SessionId_storage_key StoreDemo.session) (db_resumes (tx_db st')) = [].
Proof.
  intros st. destruct (played handoff_ops) as (c & Hrun & Hw & _).
  assert (taken_prompt (transact (begin_handoff_tx StoreDemo.session StoreDemo.other_owner 5) st).1 = Some "go on") as Hprompt
    by (vm_compute; reflexivity).
  assert (forallb titled (sw_past (play handoff_ops new_store).2) = true) as H by (vm_compute; reflexivity).
  rewrite <- Hw in H. destruct (handoff_resumed_once c Hrun) as (_ & _ & Htake).
  { apply Forall_forall. intros db Hdb. apply titled_keeps. apply forallb_forall with (x := db) in H; [done|]. by apply list_elem_of_In. }
  specialize (Htake StoreDemo.session StoreDemo.other_owner 5%Z). rewrite Hw in Htake. fold st in Htake.
  destruct (transact _ st) as [[[start|]|e] st']; try discriminate. simpl in Htake.
  exists start, st'. split; [done|]. split; [by injection Hprompt|]. by destruct Htake as (row & _ & _ & _ & Hnone & _).
Defined.
