(* ===== verification/AdmissionSpec.v ===== *)
(** * Workflow runs in the store ([WfAdmission])

    A run is admitted once per id, never over a running one; and at start-up the runs that other processes left
    running, and no other, are marked interrupted, each once. *)

From S2P Require Import Prelude RustStr Text Platform Ids Scope Wire Workflow Usage Events Team Projection Transcript Result Effects StoreDb StoreTx Store Claims WfAdmission Runs Recovery StoreBuilt Concurrent StorePool StoreSpec ReadSpec CloseSpec.

Section runs.
Context `{U : UuidLib} `{J : JsonLib} `{L : !StoreLib}.
Implicit Types (db : Db) (st : TxState) (p : Projection) (session : SessionId).

(** ** Starts in the log *)

Definition start_of (e : Event.t) : option (WorkflowRunId * string) :=
  match e with Event.WorkflowRunStarted _ run _ hash _ _ => Some (run, hash) | _ => None end.

Definition seen_runs p : gset WorkflowRunId := wp_seen_runs (workflow_of (p_session p)).

Lemma seen_same p p' : sp_workflow (p_session p') = sp_workflow (p_session p) -> seen_runs p' = seen_runs p.
Proof. unfold seen_runs, workflow_of. by intros ->. Qed.

Lemma seen_update id f s : wp_seen_runs (workflow_of (update_workflow_run id f s)) = wp_seen_runs (workflow_of s).
Proof. by rewrite workflow_of_update. Qed.

(** An event adds the run it starts, at most. *)
Lemma apply_event_seen e p run :
  run ∈ seen_runs (apply_event e p) -> run ∈ seen_runs p \/ exists hash, start_of e = Some (run, hash).
Proof.
  destruct e; cbn [apply_event on_session on_team p_session set];
    try (by left);
    try (intros Hrun; left; revert Hrun;
         match goal with |- _ ∈ ?x -> _ ∈ ?y => assert (x = y) as ->; [apply seen_same|done] end;
         unfold on_agent_model_override_set, on_session_archived, on_member_spawned,
           on_member_status_changed, on_member_finished, on_subagent_reported, update_member,
           on_message_started, on_message_finished, on_tool_call_requested, upsert_tool,
           on_context_compacted, on_usage_recorded, apply_revert;
         by repeat (case_match || case_decide)).
  2-12: (intros Hrun; left; revert Hrun;
    match goal with |- _ ∈ ?x -> _ ∈ ?y => assert (x = y) as ->; [|done] end; unfold seen_runs; simpl).
  - unfold seen_runs. simpl. unfold on_workflow_run_started. rewrite workflow_of_with. case_decide; [by left|]. simpl.
    intros [->%elem_of_singleton|Hrun]%elem_of_union; [right; by eexists|by left].
  - apply seen_update.
  - apply seen_update.
  - apply seen_update.
  - unfold on_workflow_stage_finished. case_match; [apply seen_update|done].
  - unfold on_workflow_run_finished. case_match; [apply seen_update|done].
  - unfold on_member_spawned, update_member. by case_match.
  - unfold on_member_status_changed, update_member. by case_match.
  - unfold on_member_finished, update_member. by case_match.
  - unfold on_subagent_reported, update_member. by case_match.
  - unfold apply_revert. destruct (position _ _); [|done]. simpl. by destruct (sp_revert (p_session p)).
  - unfold on_session_unreverted. by destruct (sp_revert (p_session p)).
Qed.

Lemma apply_seen p env run :
  run ∈ seen_runs (apply p env) -> run ∈ seen_runs p \/ exists hash, start_of (env_event env) = Some (run, hash).
Proof.
  destruct (apply_cases p env) as [->|[n ->]]; [by left|]. intros Hrun. apply apply_event_seen. revert Hrun.
  match goal with |- _ ∈ ?x -> _ ∈ ?y => assert (x = y) as ->; [|done] end. apply seen_same.
  unfold stamp_message_time. by case_match.
Qed.

Lemma fold_seen envs run :
  run ∈ seen_runs (from_events envs) -> exists env hash, env ∈ envs /\ start_of (env_event env) = Some (run, hash).
Proof.
  induction envs as [|env envs IH] using rev_ind; [by intros ?%elem_of_empty|]. rewrite from_events_app. simpl.
  intros [(e & hash & He & Hs)%IH|[hash Hs]]%apply_seen.
  - exists e, hash. split; [|done]. apply elem_of_app. by left.
  - exists env, hash. split; [|done]. apply elem_of_app. right. by left.
Qed.

(** A projection a log folds to has its run among the runs it saw. *)
Lemma fold_run_seen envs r : run_projection (from_events envs) = Some r -> wr_id r ∈ seen_runs (from_events envs).
Proof.
  intros (w & Hw & Hr)%bind_Some. destruct (foldl_workflow Projection_default envs default_workflow_wf) as [_ Hwf].
  apply Hwf. unfold workflow_of. change (foldl apply Projection_default envs) with (from_events envs). by rewrite Hw.
Qed.

Lemma existing_hash_none run envs :
  existing_hash run envs = None <-> forall env hash, env ∈ envs -> start_of (env_event env) <> Some (run, hash).
Proof.
  unfold existing_hash. rewrite head_None. split.
  - intros Hnil env hash Henv Hs. apply (not_elem_of_nil hash). rewrite <- Hnil. apply list_elem_of_omap. exists env. split; [done|].
    destruct (env_event env); try done. injection Hs as -> ->. by rewrite decide_True.
  - intros Hno. destruct (omap _ envs) as [|h l] eqn:E; [done|]. exfalso.
    assert (h ∈ h :: l) as Hh by left. rewrite <- E in Hh. apply list_elem_of_omap in Hh as (env & Henv & Hs).
    destruct (env_event env) eqn:Ev; try done. case_decide; [|done]. subst. injection Hs as ->. apply (Hno env h Henv). by rewrite Ev.
Qed.

(** ** Admission *)

(** What an admission answers, and what it leaves. *)
Definition admit_outcome session (event : Event.t) (run : WorkflowRunId) (hash : string) (owner : OwnerRunId)
    st (r : WorkflowAdmissionOutcome + StoreError) st' : Prop :=
  match r with
  | inl (RunAdmitted env) =>
      env_event env = event
      /\ exists p, session_fold session (tx_db st) = inl p /\ run ∉ seen_runs p /\ active_run p = None
           /\ (codec_keeps event ->
               session_fold session (tx_db st') = inl (apply p env)
               /\ (exists r, active_run (apply p env) = Some r /\ wr_id r = run /\ wr_request_hash r = hash /\ wr_owner r = owner)
               /\ forall st2 event2 hash2 envs2, replay session (tx_db st2) = inl envs2 ->
                    rows_of (SessionId_storage_key session) (tx_db st') `prefix_of` rows_of (SessionId_storage_key session) (tx_db st2) ->
                    (admit_tx None session event2 run hash2 st2).1 = inl (if decide (hash = hash2) then AdmissionExisting else AdmissionConflict))
  | inl AdmissionExisting => tx_db st' = tx_db st /\ exists envs, replay session (tx_db st) = inl envs /\ existing_hash run envs = Some hash
  | inl AdmissionConflict =>
      tx_db st' = tx_db st /\ exists envs hash', replay session (tx_db st) = inl envs /\ existing_hash run envs = Some hash' /\ hash' <> hash
  | inl (AdmissionBusy active) =>
      tx_db st' = tx_db st
      /\ exists envs r, replay session (tx_db st) = inl envs /\ existing_hash run envs = None
           /\ active_run (from_events envs) = Some r /\ wr_id r = active
  | inr _ => tx_db st' = tx_db st
  end.

Lemma start_installs p env session run workflow hash owner stages :
  env_event env = Event.WorkflowRunStarted session run workflow hash owner stages ->
  (p_last_seq p < env_seq env)%N -> run ∉ seen_runs p ->
  exists r, active_run (apply p env) = Some r /\ wr_id r = run /\ wr_request_hash r = hash /\ wr_owner r = owner.
Proof.
  intros He Hseq Hrun. unfold active_run, run_projection. rewrite apply_new_session, He by done. simpl.
  unfold seen_runs in Hrun. unfold on_workflow_run_started, with_workflow. simpl.
  change (default WorkflowProjection_default (sp_workflow (p_session p))) with (workflow_of (p_session p)).
  rewrite (decide_False (P := run ∈ _)) by done. simpl. by eexists.
Qed.

Lemma fence_keeps claim st : (fence_optional claim st).2 = st.
Proof.
  destruct claim as [claim|]; [|done]. simpl. unfold fence_actor_claim, tx_bind, tx_read.
  destruct (epoch_param _ _); [|done]. simpl. by destruct (is_current claim (tx_db st)).
Qed.

Lemma existing_hash_start run hash session workflow owner stages envs env :
  env_event env = Event.WorkflowRunStarted session run workflow hash owner stages ->
  existing_hash run envs = None -> forall later, existing_hash run (envs ++ env :: later) = Some hash.
Proof.
  intros He Hnone later. unfold existing_hash in *. apply head_None in Hnone. rewrite omap_app, Hnone. simpl.
  by rewrite He, decide_True.
Qed.

(** The events a session had stay a prefix of its replay. *)
Lemma replay_prefix session env st st1 envs tail db2 envs2 :
  appended session [env] st st1 -> codec_keeps (env_event env) ->
  replay session (tx_db st) = inl envs ->
  rows_of (SessionId_storage_key session) db2 = rows_of (SessionId_storage_key session) (tx_db st1) ++ tail ->
  replay session db2 = inl envs2 -> exists later, envs2 = envs ++ env :: later.
Proof.
  intros Ha Hc Henvs Htail. unfold replay in *. rewrite Htail.
  destruct (ap_rows _ _ _ _ Ha) as (rows & -> & Hrow). rewrite !try_map_app, Henvs. simpl.
  inversion Hrow as [|row e rows' l (Hs & Ht & He) Hnil Hr Hl]; subst. inversion Hnil; subst. simpl. unfold decode_row at 1.
  rewrite (Hc _ He), Hs, Ht. destruct (try_map decode_row tail) as [later|]; [|done]. simpl. intros [= <-]. exists later.
  rewrite <- app_assoc. by destruct env.
Qed.

Lemma admit_exact claim session run workflow hash owner stages st :
  db_wf (tx_db st) ->
  let event := Event.WorkflowRunStarted session run workflow hash owner stages in
  admit_outcome session event run hash owner st (transact (admit_tx claim session event run hash) st).1
    (transact (admit_tx claim session event run hash) st).2.
Proof.
  intros Hwf event. unfold transact. destruct (admit_tx claim session event run hash st) as [r st1] eqn:Hrun.
  destruct r as [outcome|e]; [|done]. unfold admit_tx in Hrun. apply tx_bind_ok in Hrun as (u & st0 & Hfence & Hrun).
  assert (st0 = st) as -> by (pose proof (fence_keeps claim st) as Hf; by rewrite Hfence in Hf).
  apply tx_bind_ok in Hrun as (envs & st2 & Hrep & Hrun).
  assert (replay session (tx_db st) = inl envs /\ st2 = st) as [Henvs ->] by (apply tx_bind_ok in Hrep as (rows & st3 & [= <- <-] & [? ->]%tx_try_ok); done).
  destruct (existing_hash run envs) as [hash'|] eqn:Hhash.
  { injection Hrun as <- <-. case_decide as Hd; [subst hash'|]; split; [done|by eexists|done|by eexists _, _]. }
  destruct (active_run (from_events envs)) as [active|] eqn:Hactive; [injection Hrun as <- <-; split; [done|by eexists _, _]|].
  apply tx_bind_ok in Hrun as (env & st3 & Happ & [= <- <-]). apply append_appended in Happ as [Ha Hev].
  assert (session_fold session (tx_db st) = inl (from_events envs)) as Hfold by (unfold session_fold; by rewrite Henvs).
  assert (run ∉ seen_runs (from_events envs)) as Hnew.
  { intros (e & h & He & Hs)%fold_seen. by eapply existing_hash_none in Hhash. }
  split; [done|]. exists (from_events envs). split_and!; [done..|]. intros Hcodec.
  assert (Forall (fun env => codec_keeps (env_event env)) [env]) as Hc by (apply Forall_singleton; by rewrite Hev).
  split_and!; [exact (appended_fold session [env] st st3 _ Ha Hc Hfold)| |].
  - eapply start_installs; [exact Hev| |done]. destruct (ap_fresh _ _ _ _ Ha) as [_ [Hf _]%Forall_cons].
    apply fold_last_seq in Hfold; [|done]. lia.
  - intros st2 event2 hash2 envs2 Hrep2 [tail Htail]. unfold admit_tx, tx_bind. simpl. unfold replay_workflow_events, tx_bind, tx_read.
    change (try_map decode_row (rows_of (SessionId_storage_key session) (tx_db st2))) with (replay session (tx_db st2)). rewrite Hrep2. simpl.
    assert (exists later, envs2 = envs ++ env :: later) as [later ->].
    { eapply replay_prefix; [exact Ha|by rewrite Hev|exact Henvs|exact Htail|exact Hrep2]. }
    rewrite (existing_hash_start run hash session workflow owner stages envs env) by (by rewrite Hev || done). simpl. done.
Qed.

(** ** Recovery *)

(** The run another process left running. *)
Definition foreign_run (owner : OwnerRunId) p : option WorkflowRunProjection :=
  run ← active_run p; if decide (wr_owner run = owner) then None else Some run.

(** The recovery of the session's run. *)
Definition interruption session (run : WorkflowRunProjection) (reason : string) : Event.t :=
  Event.WorkflowRunFinished session (wr_id run) WorkflowRunStatus.Interrupted (Some (chars_take 2048 reason)).

(** The key of the session is read back. *)
Definition readable session : Prop := decode_session_key (SessionId_storage_key session) = Some session.

Lemma active_running p run : active_run p = Some run <-> run_projection p = Some run /\ wr_status run = WorkflowRunStatus.Running.
Proof.
  unfold active_run. rewrite bind_Some. split.
  - intros (r & Hr & Hs). case_decide; [|done]. by injection Hs as <-.
  - intros [Hr Hs]. exists run. by rewrite decide_True.
Qed.

Lemma decoded_wf key session : decode_session_key key = Some session -> SessionId_wf session.
Proof.
  unfold decode_session_key. destruct (utf8_valid key).
  - destruct (SessionId_from_str key) eqn:E; [|done]. intros [= <-]. by eapply SessionId_from_str_wf.
  - by intros (u & _ & ->)%fmap_Some.
Qed.

Lemma recover_one owner reason key st r st' :
  bases_ok st -> recover_session owner reason key st = (inl r, st') ->
  bases_ok st'
  /\ match decode_session_key key with
     | None => r = None /\ tx_db st' = tx_db st
     | Some session =>
         exists p, session_fold session (tx_db st) = inl p
         /\ match foreign_run owner p with
            | None => r = None /\ tx_db st' = tx_db st
            | Some run => exists env st0, r = Some env /\ env_event env = interruption session run reason
                            /\ tx_db st0 = tx_db st /\ appended session [env] st0 st'
            end
     end.
Proof.
  intros Hok Hrun. split.
  { replace st' with (recover_session owner reason key st).2 by (by rewrite Hrun). apply tame_bases; [|done].
    apply built_tame. unfold recover_session. solve_built. }
  unfold recover_session in Hrun. destruct (decode_session_key key) as [session|]; [|by injection Hrun as <- <-].
  replay_in Hrun with Hok as st0 Hok0 Hdb0. rewrite <- Hdb0 in Hrun |- *. destruct (session_fold session (tx_db st0)) as [p|]; [|done].
  exists p. split; [done|]. unfold foreign_run, active_run. destruct (run_projection p) as [run|]; simpl; [|by injection Hrun as <- <-].
  destruct (decide (wr_status run = WorkflowRunStatus.Running)) as [Hs|Hs].
  2: { rewrite bool_decide_true in Hrun by done. simpl in *. by injection Hrun as <- <-. }
  rewrite bool_decide_false in Hrun by (intros Hn; by apply Hn). simpl in *.
  destruct (decide (wr_owner run = owner)) as [Ho|Ho]; [rewrite bool_decide_true in Hrun by done; by injection Hrun as <- <-|].
  rewrite bool_decide_false in Hrun by done. apply tx_bind_ok in Hrun as (env & st2 & Happ & [= <- <-]).
  apply append_appended in Happ as [Ha Hev]. by exists env, st0.
Qed.

(** After the event the run is over. *)
Lemma interrupted_fold session run reason p env :
  active_run p = Some run -> env_event env = interruption session run reason -> (p_last_seq p < env_seq env)%N ->
  active_run (apply p env) = None
  /\ exists r, run_projection (apply p env) = Some r /\ wr_id r = wr_id run /\ wr_status r = WorkflowRunStatus.Interrupted
       /\ wr_error r = Some (chars_take 2048 reason)
       /\ Forall (fun row => WorkflowStageStatus.is_terminal (ws_status row) = true) (wr_stages r).
Proof.
  intros [Hrun Hs]%active_running He Hseq.
  assert (exists r, run_projection (apply p env) = Some r /\ wr_id r = wr_id run /\ wr_status r = WorkflowRunStatus.Interrupted
    /\ wr_error r = Some (chars_take 2048 reason)
    /\ Forall (fun row => WorkflowStageStatus.is_terminal (ws_status row) = true) (wr_stages r)) as (r & Hr & H1 & H2 & H3).
  { apply bind_Some in Hrun as (w & Hw & Hr). unfold run_projection. rewrite apply_new_session, He by done. simpl.
    unfold on_workflow_run_finished, update_workflow_run. simpl. rewrite Hw. simpl. rewrite Hr. simpl. rewrite decide_True, Hs by done. simpl.
    eexists. split_and!; [done..|]. simpl. apply Forall_fmap, Forall_true. intros row. apply stop_stage_terminal. }
  split; [|by exists r]. unfold active_run. rewrite Hr. simpl. by rewrite H2.
Qed.

Definition about session (env : Envelope) : Prop := Event.session_of (env_event env) = Some session.
#[global] Instance about_dec session env : Decision (about session env).
Proof. unfold about. apply _. Defined.

(** What recovery did to a session that folded to [p]. *)
Definition recovered (owner : OwnerRunId) (reason : string) session p (envs : list Envelope) (after : Projection + StoreError) : Prop :=
  match foreign_run owner p with
  | None => filter (about session) envs = [] /\ after = inl p
  | Some run =>
      exists env, filter (about session) envs = [env] /\ env_event env = interruption session run reason
        /\ (p_last_seq p < env_seq env)%N /\ after = inl (apply p env)
  end.

Lemma foreign_interrupted owner session run reason p env :
  foreign_run owner p = Some run -> env_event env = interruption session run reason -> (p_last_seq p < env_seq env)%N ->
  foreign_run owner (apply p env) = None.
Proof.
  intros (r & Hr & Ho)%bind_Some He Hseq. case_decide; [done|]. injection Ho as ->.
  destruct (interrupted_fold session run reason p env Hr He Hseq) as [Hnone _]. unfold foreign_run. by rewrite Hnone.
Qed.

Context `{!UuidLaws U}.

(** One more key. *)
Lemma recover_next owner reason session p key r st st1 envs after :
  bases_ok st -> readable session -> session_fold session (tx_db st) = inl p ->
  recover_session owner reason key st = (inl r, st1) -> Forall codec_keeps (env_event <$> option_list r) ->
  (forall p1, session_fold session (tx_db st1) = inl p1 ->
     foreign_run owner p1 = None \/ p1 = p /\ key <> SessionId_storage_key session -> recovered owner reason session p1 envs after) ->
  recovered owner reason session p (option_list r ++ envs) after.
Proof.
  intros Hok Hread Hp Hrun Hcodec IH. destruct (recover_one _ _ _ _ _ _ Hok Hrun) as [_ Hone]. unfold readable in Hread.
  destruct (decode_session_key key) as [s|] eqn:Hkey.
  2: { destruct Hone as [-> Hdb]. apply IH; [by rewrite Hdb|]. right. split; [done|]. intros ->. by rewrite Hread in Hkey. }
  destruct Hone as (p0 & Hp0 & Hone). destruct (decide (s = session)) as [->|Hne].
  - rewrite Hp in Hp0. injection Hp0 as <-. destruct (foreign_run owner p) as [run|] eqn:Hforeign.
    2: { destruct Hone as [-> Hdb]. apply IH; [by rewrite Hdb|by left]. }
    destruct Hone as (env & st0 & -> & Hev & Hdb & Ha). simpl in *.
    assert (p_last_seq p < env_seq env)%N as Hseq.
    { apply fold_last_seq in Hp; [|apply Hok]. destruct (ap_fresh _ _ _ _ Ha) as [_ [Hf _]%Forall_cons]. rewrite Hdb in Hf. lia. }
    assert (session_fold session (tx_db st1) = inl (apply p env)) as Hp1.
    { apply (appended_fold session [env] st0); [exact Ha|apply Forall_singleton; by apply Forall_cons in Hcodec as [Hc _]|by rewrite Hdb]. }
    pose proof (foreign_interrupted _ _ _ _ _ _ Hforeign Hev Hseq) as Hnone.
    specialize (IH _ Hp1 (or_introl Hnone)). unfold recovered in *. rewrite Hforeign. rewrite Hnone in IH. destruct IH as [Hno ->].
    exists env. rewrite filter_cons, decide_True, Hno by (unfold about; by rewrite Hev). done.
  - assert (SessionId_storage_key session <> SessionId_storage_key s) as Hkeys.
    { intros Heq. apply Hne. symmetry. apply SessionId_storage_key_inj; [by eapply decoded_wf|by eapply decoded_wf|done]. }
    assert (session_fold session (tx_db st1) = inl p /\ filter (about session) (option_list r) = []) as [Hp1 Hno].
    { destruct (foreign_run owner p0) as [run|]; [|by destruct Hone as [-> ->]].
      destruct Hone as (env & st0 & -> & Hev & Hdb & Ha). split; [by rewrite (appended_other _ _ _ _ _ Ha), Hdb by done|].
      simpl. rewrite filter_cons, decide_False; [done|]. unfold about. rewrite Hev. simpl. congruence. }
    assert (recovered owner reason session p envs after) as Hrec.
    { apply IH; [done|]. right. split; [done|]. intros ->. congruence. }
    unfold recovered in *. by rewrite filter_app, Hno.
Qed.

Lemma recover_keys owner reason session keys st p rs st' :
  bases_ok st -> readable session -> session_fold session (tx_db st) = inl p ->
  tx_map (recover_session owner reason) keys st = (inl rs, st') -> Forall codec_keeps (env_event <$> omap id rs) ->
  foreign_run owner p = None \/ SessionId_storage_key session ∈ keys ->
  recovered owner reason session p (omap id rs) (session_fold session (tx_db st')).
Proof.
  revert st p rs. induction keys as [|key keys IH]; intros st p rs Hok Hread Hp.
  - intros [= <- <-] _ Hin. unfold recovered. destruct (foreign_run owner p); [by destruct Hin as [|?%elem_of_nil]|]. done.
  - simpl. intros (r & st1 & Hone & Hrun)%tx_bind_ok. apply tx_bind_ok in Hrun as (rs1 & st2 & Hrest & [= <- <-]).
    assert (omap id (r :: rs1) = option_list r ++ omap id rs1) as -> by (by destruct r).
    rewrite fmap_app, Forall_app. intros [Hc1 Hc2] Hin. eapply recover_next; [done|done|done|exact Hone|done|].
    intros p1 Hp1 Hkey. destruct (recover_one _ _ _ _ _ _ Hok Hone) as [Hok1 _]. eapply IH; [done|done|done|exact Hrest|done|].
    destruct Hkey as [|[-> Hkey]]; [by left|]. destruct Hin as [|[|Hin]%elem_of_cons]; [by left|by destruct Hkey|by right].
Qed.

(** Every row of the log holds a payload the store wrote. *)
Definition log_written (db : Db) : Prop := Forall (fun row => written (lr_payload row)) (db_log db).
Definition written_le (a b : Db) : Prop := log_written a -> log_written b.
#[global] Instance written_le_preorder : PreOrder written_le.
Proof. unfold written_le. split; [by intros db|intros d1 d2 d3; auto]. Qed.

Lemma written_le_sublist (a b : Db) : db_log b ⊆ db_log a -> written_le a b.
Proof. unfold written_le, log_written. rewrite !Forall_forall. auto. Qed.

#[global] Instance written_le_rel : StoreRel written_le.
Proof.
  split; [apply _|..]; try (intros; by apply written_le_sublist).
  - intros db db' [Hl _ _ _ _ _]. apply written_le_sublist. by rewrite Hl.
  - intros db row _ _ Hw Hdb. unfold log_written. simpl. by rewrite Forall_app, Forall_singleton.
  - intros db key. apply written_le_sublist. simpl. intros row Hr. by apply list_elem_of_filter in Hr as [_ ?].
  - intros db key. apply written_le_sublist. simpl. intros row Hr. by apply list_elem_of_filter in Hr as [_ ?].
Qed.

Lemma run_log_written c : store_run c -> log_written (tx_db (sw_tx (cf_world c))).
Proof.
  intros Hrun. assert (chained written_le (cf_world c)) as [Hc H0 Hle].
  { refine (proj1 (store_run_safe written_le (fun _ _ _ _ => True) c _ _ Hrun)); [done|].
    intros op w _. apply writes_safe; [apply _|by intros; apply written_le_sublist|apply run_op_writes]. }
  unfold current in Hc. rewrite last_lookup in Hc. apply (Hle 0 _ _ _ (Nat.le_0_l _) H0 Hc). by apply Forall_nil.
Qed.

Lemma foreign_key `{!StoreLaws L} owner session p run db :
  log_written db -> session_fold session db = inl p -> foreign_run owner p = Some run ->
  SessionId_storage_key session ∈ started_keys db.
Proof.
  intros Hw Hp (r & [Hr _]%active_running & _)%bind_Some. unfold session_fold in Hp. destruct (replay session db) as [envs|] eqn:Hrep; [|done].
  injection Hp as <-. apply fold_run_seen, fold_seen in Hr as (env & hash & Henv & Hstart). apply try_map_ok in Hrep.
  apply list_elem_of_lookup in Henv as [i Hi]. destruct (Forall2_lookup_r _ _ _ _ _ Hrep Hi) as (row & Hlook & Hdec).
  apply list_elem_of_lookup_2, list_elem_of_filter in Hlook as [Hkey Hrow].
  unfold started_keys. apply btree_keys_elem. apply not_eq_None_Some. intros Hnone%not_elem_of_list_to_map. apply Hnone.
  rewrite <- list_fmap_compose. apply list_elem_of_fmap. exists row. split; [by rewrite <- Hkey|]. apply list_elem_of_filter. split; [|done].
  unfold decode_row in Hdec. destruct (event_from_str (lr_payload row)) as [event|] eqn:Ev; [|done]. injection Hdec as <-.
  unfold log_written in Hw. rewrite Forall_forall in Hw. destruct (Hw row Hrow) as [event0 Hwrite]. destruct event; try done.
  by eapply sql_finds_written.
Qed.
End runs.

(** ** The theorems *)

Section result.
Context `{U : UuidLib} `{J : JsonLib} `{L : !StoreLib} `{!StoreLaws L} `{!UuidLaws U}.

(** C12: admitting Workflow runs, in every world a run of the store reaches.  A run is recorded only
    when the log has no start of its id and no other run is running; the session then folds to what it
    was with the start applied, which leaves exactly this run running, and from then on, as long as
    the log keeps the session's rows, admitting the id again answers that it exists when the hash is
    the same and a conflict when not.  In the other cases (the run exists, its
    hash differs, another run is active, the actor's claim is stale) nothing is written and the
    answer says which it is. *)
Theorem workflow_run_admitted_once (c : Config) :
  store_run c -> Forall json_keeps (sw_past (cf_world c)) ->
  let st := sw_tx (cf_world c) in
  forall claim session run workflow hash owner stages,
    let event := Event.WorkflowRunStarted session run workflow hash owner stages in
    let outcome := transact (admit_tx claim session event run hash) st in
    admit_outcome session event run hash owner st outcome.1 outcome.2.
Proof.
  intros Hrun Hkept st *. destruct (store_run_world c Hrun Hkept) as [[Hbases _] _]. apply admit_exact, Hbases.
Qed.

(** C16: recovering Workflow runs, in every world a run of the store reaches.  When the
    recovery at start-up succeeds, then in each session whose last run another process left running
    it has appended exactly one event, after which that run is interrupted with the reason, no stage
    of it is pending or running and no run is active; no event is appended to any other session, which
    folds as before.  The
    sessions are those whose key in the log decodes to them; others the recovery skips. *)
Theorem workflow_runs_recovered_once (c : Config) (owner : OwnerRunId) (reason : string) (envs : list Envelope) (st' : TxState) :
  store_run c -> Forall json_keeps (sw_past (cf_world c)) ->
  let st := sw_tx (cf_world c) in
  transact (recover_workflows_tx owner reason) st = (inl envs, st') -> Forall codec_keeps (env_event <$> envs) ->
  forall session p, readable session -> session_fold session (tx_db st) = inl p ->
    match foreign_run owner p with
    | None => filter (about session) envs = [] /\ session_fold session (tx_db st') = inl p
    | Some run =>
        exists env r, filter (about session) envs = [env]
          /\ session_fold session (tx_db st') = inl (apply p env) /\ active_run (apply p env) = None
          /\ run_projection (apply p env) = Some r /\ wr_id r = wr_id run /\ wr_status r = WorkflowRunStatus.Interrupted
          /\ wr_error r = Some (chars_take 2048 reason)
          /\ Forall (fun row => WorkflowStageStatus.is_terminal (ws_status row) = true) (wr_stages r)
    end.
Proof.
  intros Hrun Hkept st Htx Hcodec session p Hread Hp. destruct (store_run_world c Hrun Hkept) as [[Hbases _] _].
  unfold transact in Htx. destruct (recover_workflows_tx owner reason st) as [[envs1|e] st1] eqn:Hrec; [|done]. injection Htx as -> ->.
  apply tx_bind_ok in Hrec as (keys & st0 & [= <- <-] & (rs & st2 & Hmap & [= <- <-])%tx_bind_ok).
  assert (recovered owner reason session p (omap id rs) (session_fold session (tx_db st2))) as Hspec.
  { eapply recover_keys; [exact Hbases|exact Hread|exact Hp|exact Hmap|exact Hcodec|].
    destruct (foreign_run owner p) as [run|] eqn:E; [right; eapply foreign_key; [by apply run_log_written|exact Hp|exact E]|by left]. }
  unfold recovered in Hspec. destruct (foreign_run owner p) as [run|] eqn:E; [|exact Hspec].
  destruct Hspec as (env & Hone & Hev & Hseq & Hfold). unfold foreign_run in E. apply bind_Some in E as (r0 & Hactive & Ho).
  case_decide; [done|]. injection Ho as ->.
  destruct (interrupted_fold session run reason p env Hactive Hev Hseq) as (Hnone & r & Hr & Hrest). by exists env, r.
Qed.
End result.

(** ** Example: a run is admitted, admitted again, and interrupted by another process *)

Definition demo_start (hash : string) : Event.t :=
  Event.WorkflowRunStarted StoreDemo.session demo_run demo_identity hash demo_owner [demo_plan].

Definition admission_demo : list StoreOp := [OpAdmitRun None StoreDemo.session (demo_start "hash")].

Lemma admission_demo_world :
  exists c, store_run c /\ cf_world c = (play admission_demo new_store).2 /\ Forall json_keeps (sw_past (cf_world c)).
Proof.
  destruct (played admission_demo) as (c & Hrun & Hw & _). exists c. split_and!; [done..|].
  assert (forallb titled (sw_past (play admission_demo new_store).2) = true) as H by (vm_compute; reflexivity). rewrite <- Hw in H.
  apply Forall_forall. intros db Hdb. apply titled_keeps. apply forallb_forall with (x := db) in H; [done|]. by apply list_elem_of_In.
Qed.

Definition is_conflict (r : WorkflowAdmissionOutcome + StoreError) : bool := match r with inl AdmissionConflict => true | _ => false end.

Lemma workflow_run_admitted_once_witness :
  let st := sw_tx (play admission_demo new_store).2 in
  exists envs hash, replay StoreDemo.session (tx_db st) = inl envs /\ existing_hash demo_run envs = Some hash /\ hash <> "other"
    /\ (transact (admit_tx None StoreDemo.session (demo_start "other") demo_run "other") st).1 = inl AdmissionConflict.
Proof.
  destruct admission_demo_world as (c & Hrun & Hw & Hkept).
  pose proof (workflow_run_admitted_once c Hrun Hkept None StoreDemo.session demo_run demo_identity "other" demo_owner [demo_plan]) as Ha.
  rewrite Hw in Ha. set (st := sw_tx (play admission_demo new_store).2) in *. intros st'. subst st'.
  assert (is_conflict (transact (admit_tx None StoreDemo.session (demo_start "other") demo_run "other") st).1 = true) as Hc by (vm_compute; reflexivity).
  unfold demo_start in *. destruct (transact _ st) as [[[]|] st']; try discriminate. destruct Ha as (_ & envs & hash & H1 & H2 & H3).
  by exists envs, hash.
Defined.

Definition kept_interruption (envs : list Envelope) : bool :=
  match env_event <$> envs with
  | [Event.WorkflowRunFinished s r WorkflowRunStatus.Interrupted (Some _)] => bool_decide (s = StoreDemo.session) && bool_decide (r = demo_run)
  | _ => false
  end.

Lemma kept_interruption_keeps envs : kept_interruption envs = true -> Forall codec_keeps (env_event <$> envs).
Proof.
  unfold kept_interruption. destruct (env_event <$> envs) as [|e []]; try done; [|by destruct e; repeat case_match].
  destruct e; try done. destruct status, error; try done. intros [->%bool_decide_eq_true ->%bool_decide_eq_true]%andb_prop.
  repeat constructor. by intros payload [= <-].
Qed.

Lemma workflow_runs_recovered_once_witness :
  let st := sw_tx (play admission_demo new_store).2 in
  exists p run env st', session_fold StoreDemo.session (tx_db st) = inl p /\ foreign_run StoreDemo.other_owner p = Some run
    /\ transact (recover_workflows_tx StoreDemo.other_owner "restart") st = (inl [env], st')
    /\ active_run (apply p env) = None.
Proof.
  destruct admission_demo_world as (c & Hrun & Hw & Hkept). intros st.
  assert (match (transact (recover_workflows_tx StoreDemo.other_owner "restart") st).1 with inl envs => kept_interruption envs | _ => false end = true) as Henvs
    by (vm_compute; reflexivity).
  assert (match session_fold StoreDemo.session (tx_db st) with inl p => bool_decide (is_Some (foreign_run StoreDemo.other_owner p)) | _ => false end = true) as Hforeign
    by (vm_compute; reflexivity).
  destruct (transact _ st) as [[envs|e] st'] eqn:Htx; [|discriminate]. unfold st in Htx. rewrite <- Hw in Htx.
  pose proof (workflow_runs_recovered_once c StoreDemo.other_owner "restart" envs st' Hrun Hkept Htx
    (kept_interruption_keeps _ Henvs) StoreDemo.session) as Hrec. rewrite Hw in Hrec. fold st in Hrec.
  destruct (session_fold StoreDemo.session (tx_db st)) as [p|]; [|discriminate].
  specialize (Hrec p eq_refl eq_refl). apply bool_decide_eq_true in Hforeign as [run Hr]. rewrite Hr in Hrec.
  destruct Hrec as (env & r & Hone & _ & Hnone & _). exists p, run, env, st'. split_and!; [done..| |done].
  do 2 f_equal. rewrite <- Hone. symmetry. apply filter_every. unfold kept_interruption in Henvs.
  destruct envs as [|e0 [|]]; try discriminate; simpl in Henvs; [|by destruct (env_event e0); try discriminate; repeat case_match].
  apply Forall_singleton. unfold about. destruct (env_event e0); try discriminate. destruct status, error; try discriminate.
  apply andb_prop in Henvs as [->%bool_decide_eq_true _]. done.
Defined.
