(* ===== verification/ResidentSpec.v ===== *)
(** * Stopping a resident actor ([Mailbox])

    The transaction that stops a resident closes its turns, its rows on its parent's log and its
    admissions, marks it failed in the roster and releases its claim; when it has run, it has nothing
    left to do. *)

From S2P Require Import Prelude RustStr Platform Ids Scope Wire Workflow Usage Events Team Projection Transcript Result Runs Effects StoreDb StoreTx Store Claims Journal WfAdmission Recovery Mailbox StoreBuilt Concurrent StorePool StoreSpec ReadSpec CloseSpec.

Section resident.
Context `{U : UuidLib} `{J : JsonLib} `{L : !StoreLib}.
Implicit Types (db : Db) (st : TxState) (p : Projection) (session actor root : SessionId) (claim : ActorClaim).

(** ** Events that leave the transcript *)

Definition aside_event (e : Event.t) : bool :=
  match e with Event.MemberFinished _ _ _ _ _ | Event.AgentActivityChanged _ _ _ _ => true | _ => false end.

Lemma apply_aside p env :
  aside_event (env_event env) = true ->
  sp_messages (p_session (apply p env)) = sp_messages (p_session p)
  /\ sp_parent (p_session (apply p env)) = sp_parent (p_session p).
Proof.
  intros He. destruct (apply_cases p env) as [->|[n ->]]; [done|]. destruct (env_event env); try discriminate; [|done].
  unfold stamp_message_time. simpl. unfold on_member_finished, update_member. by destruct (position _ _).
Qed.

Lemma apply_close_team p env : is_close_event (env_event env) = true -> p_team (apply p env) = p_team p.
Proof.
  intros He. destruct (apply_cases p env) as [->|[n ->]]; [done|]. destruct (env_event env); try discriminate; [|done|done].
  destruct tokens; [done|]. unfold stamp_message_time. simpl. unfold on_message_finished. by destruct (legacy_sum _ _ _).
Qed.

Lemma apply_close_parent p env : is_close_event (env_event env) = true -> sp_parent (p_session (apply p env)) = sp_parent (p_session p).
Proof.
  intros He. destruct (apply_cases p env) as [->|[n ->]]; [done|]. destruct (env_event env); try discriminate; [|done|].
  - destruct tokens; [done|]. unfold stamp_message_time. simpl. unfold on_message_finished. by destruct (legacy_sum _ _ _).
  - unfold stamp_message_time. simpl. unfold on_member_finished, update_member. by destruct (position _ _).
Qed.

Lemma apply_activity_members p env root handle status task :
  env_event env = Event.AgentActivityChanged root handle status task -> sp_members (p_session (apply p env)) = sp_members (p_session p).
Proof. intros He. destruct (apply_cases p env) as [->|[n ->]]; [done|]. by rewrite He. Qed.

(** A property the appended events keep holds of every session's fold afterwards. *)
Lemma appended_keeps (I : Projection -> Prop) session envs st st' t p :
  appended session envs st st' -> Forall codec_keeps (env_event <$> envs) ->
  (forall q env, env ∈ envs -> I q -> I (apply q env)) ->
  session_fold t (tx_db st) = inl p -> I p -> exists p', session_fold t (tx_db st') = inl p' /\ I p'.
Proof.
  intros Ha Hc HI Hp Ip. destruct (decide (SessionId_storage_key t = SessionId_storage_key session)) as [Hkey|Hkey].
  - assert (session_fold session (tx_db st) = inl p) as Hp' by (revert Hp; unfold session_fold, replay; by rewrite Hkey).
    exists (foldl apply p envs). split.
    + assert (session_fold session (tx_db st') = inl (foldl apply p envs)) as <- by (eapply appended_fold; [exact Ha|by rewrite Forall_fmap in Hc|done]).
      unfold session_fold, replay. by rewrite Hkey.
    + clear Ha Hc Hp Hp'. revert p Ip. induction envs as [|env envs IH]; intros p Ip; [done|]. simpl. apply IH.
      * intros q e He. apply HI. by right.
      * apply HI; [by left|done].
  - exists p. split; [|done]. by rewrite (appended_other _ _ _ _ _ Ha Hkey).
Qed.

Lemma same_log_fold t db db' : db_log db' = db_log db -> session_fold t db' = session_fold t db.
Proof. intros Hl. unfold session_fold, replay, rows_of. by rewrite Hl. Qed.

(** ** What is left of a stopped resident *)

Definition no_live_row actor p : Prop :=
  Forall (fun row => mp_child row = Some actor -> is_live_status (mp_status row) = false) (sp_members (p_session p)).

Definition failed_entry root handle actor db : Prop :=
  exists p entry, session_fold root db = inl p /\ team_roster (p_team p) !! canonical_member (p_team p) handle = Some entry
    /\ re_session entry = actor /\ re_mode entry = SubagentMode.Resident /\ re_status entry = RosterStatus.Failed.

Record resident_stopped claim root handle db : Prop := {
  rs_turns : exists p, session_fold (ac_actor_id claim) db = inl p /\ has_open_message p = false
    /\ forall parent, sp_parent (p_session p) = Some parent ->
         exists q, session_fold parent db = inl q /\ no_live_row (ac_actor_id claim) q;
  rs_admissions : forall key row, db_journal db !! key = Some row ->
    bound_to (Some (SessionId_storage_key (ac_actor_id claim), epoch_get (ac_epoch claim))) row = true ->
    jr_state row <> AdmissionState.Accepted /\ jr_state row <> AdmissionState.Started;
  rs_roster : failed_entry root handle (ac_actor_id claim) db;
  rs_claim : cl_state <$> claim_row claim db = Some ClaimState.Released;
}.

(** ** Step by step *)

Lemma effects_exact actor reason st envs st' :
  bases_ok st -> append_resident_effects actor reason st = (inl envs, st') -> Forall codec_keeps (env_event <$> envs) ->
  bases_ok st' /\ (exists p', session_fold actor (tx_db st') = inl p' /\ has_open_message p' = false)
  /\ exists st0, tx_db st0 = tx_db st /\ appended actor envs st0 st'
       /\ Forall (fun env => is_close_event (env_event env) = true) envs.
Proof.
  intros Hok Hrun Hcodec. split.
  { replace st' with (append_resident_effects actor reason st).2 by (by rewrite Hrun). apply tame_bases; [|done].
    apply built_tame. solve_built. }
  unfold append_resident_effects in Hrun. replay_in Hrun with Hok as st0 Hok0 Hdb0.
  destruct (session_fold actor (tx_db st)) as [p|] eqn:Hp; [|done]. rewrite <- Hdb0 in Hp.
  destruct (append_closes actor reason "STALE_ACTOR_CLAIM" None true st0 p envs st' Hok0 Hp Hrun Hcodec) as (Hfold & Hclosed & Ha).
  split; [eexists; split; [exact Hfold|by eapply turns_closed_none]|]. exists st0. split_and!; [done..|].
  apply append_map_appended in Hrun as [_ Hev].
  destruct (close_event_kinds actor p reason "STALE_ACTOR_CLAIM" None true) as (H1 & _). rewrite <- Hev, Forall_fmap in H1. exact H1.
Qed.

Lemma events_all (P : Event.t -> Prop) envs events :
  env_event <$> envs = events -> Forall P events -> Forall (fun env => P (env_event env)) envs.
Proof. intros <-. by rewrite Forall_fmap. Qed.

Lemma tx_map_fmap {A B C} (f : B -> Tx C) (g : A -> B) xs st : tx_map (fun x => f (g x)) xs st = tx_map f (g <$> xs) st.
Proof.
  revert st. induction xs as [|x xs IH]; intros st; [done|]. rewrite fmap_cons. simpl. unfold tx_bind.
  destruct (f (g x) st) as [[c|e] st1]; [|done]. by rewrite IH.
Qed.

Definition live_child actor (row : MemberProjection) : bool :=
  bool_decide (mp_child row = Some actor) && is_live_status (mp_status row).

Lemma finished_rows actor parent reason status p envs :
  is_live_status status = false -> NoDup (mp_member <$> sp_members (p_session p)) ->
  increasing (env_seq <$> envs) -> Forall (fun env => p_last_seq p < env_seq env)%N envs ->
  env_event <$> envs = ((fun row => Event.MemberFinished parent (mp_member row) status reason (Some actor)) <$>
    filter (fun row => live_child actor row = true) (sp_members (p_session p))) ->
  no_live_row actor (foldl apply p envs).
Proof.
  intros Hstatus Hnd Hinc Hseq Hev. unfold no_live_row.
  rewrite (finish_members (live_child actor) (fun row => Event.MemberFinished parent (mp_member row) status reason (Some actor)) p envs []);
    [|done..|by rewrite app_nil_r|constructor|].
  - apply Forall_fmap, Forall_true. intros row. unfold compose. destruct (live_child actor row) eqn:E; [done|].
    intros Hchild. unfold live_child in E. rewrite Hchild, bool_decide_true in E by done. exact E.
  - apply (events_all (fun e => is_close_event e = true) _ _ Hev), Forall_fmap, Forall_true. done.
Qed.

Lemma close_rows_exact actor status reason st envs st' p :
  bases_ok st -> is_live_status status = false -> close_parent_member_rows actor status reason st = (inl envs, st') ->
  Forall codec_keeps (env_event <$> envs) -> session_fold actor (tx_db st) = inl p ->
  bases_ok st'
  /\ (forall parent, sp_parent (p_session p) = Some parent ->
        exists q, session_fold parent (tx_db st') = inl q /\ no_live_row actor q)
  /\ exists st0 session, tx_db st0 = tx_db st /\ appended session envs st0 st'
       /\ Forall (fun env => is_close_event (env_event env) = true /\ aside_event (env_event env) = true) envs.
Proof.
  intros Hok Hstatus Hrun Hcodec Hp. split.
  { replace st' with (close_parent_member_rows actor status reason st).2 by (by rewrite Hrun). apply tame_bases; [|done].
    apply built_tame. solve_built. }
  unfold close_parent_member_rows in Hrun. replay_in Hrun with Hok as st0 Hok0 Hdb0. rewrite Hp in Hrun.
  destruct (sp_parent (p_session p)) as [parent|].
  2: { injection Hrun as <- <-. split; [done|]. exists st0, actor. split; [done|]. split; [apply appended_nil|constructor]. }
  replay_in Hrun with Hok0 as st1 Hok1 Hdb1. destruct (session_fold parent (tx_db st0)) as [q|] eqn:Hq; [|done]. rewrite <- Hdb1 in Hq.
  rewrite (tx_map_fmap (append_event_in_transaction parent) (fun row => Event.MemberFinished parent (mp_member row) status reason (Some actor))) in Hrun.
  apply append_map_appended in Hrun as [Ha Hev]. split.
  - intros parent' [= <-]. exists (foldl apply q envs). split; [by eapply appended_fold; [exact Ha|by rewrite Forall_fmap in Hcodec|done]|].
    destruct (session_fold_from _ _ _ Hq) as [envs0 Hfrom]. destruct (ap_fresh _ _ _ _ Ha) as [Hinc Hfresh].
    eapply finished_rows; [exact Hstatus|rewrite Hfrom; apply members_unique|done| |exact Hev].
    apply fold_last_seq in Hq; [|apply Hok1]. eapply Forall_impl; [exact Hfresh|]. simpl. lia.
  - exists st1, parent. split; [congruence|]. split; [done|].
    apply (events_all (fun e => is_close_event e = true /\ aside_event e = true) _ _ Hev), Forall_fmap, Forall_true. done.
Qed.

Lemma abort_bound_exact key epoch reason now st records st' :
  abort_bound key epoch reason now st = (inl records, st') ->
  db_log (tx_db st') = db_log (tx_db st)
  /\ forall k row, db_journal (tx_db st') !! k = Some row -> bound_to (Some (key, epoch)) row = true ->
       jr_state row <> AdmissionState.Accepted /\ jr_state row <> AdmissionState.Started.
Proof.
  intros (rows & st1 & Hupd & [_ ->]%tx_try_ok)%tx_bind_ok. unfold update_journal in Hupd. injection Hupd as _ <-. split; [done|]. simpl.
  intros k row Hrow Hb. apply lookup_union_Some_raw in Hrow as [Hrow|[Hnone Hrow]].
  - by apply lookup_fmap_Some in Hrow as (old & <- & _).
  - rewrite lookup_fmap, fmap_None, map_lookup_filter_None in Hnone. destruct Hnone as [Hnone|Hnone]; [congruence|].
    specialize (Hnone row Hrow). cbn [fst snd] in Hnone. rewrite Hb in Hnone. split; intros Hs; apply Hnone; unfold in_states; by rewrite Hs.
Qed.

(** ** The roster *)

Lemma roster_keys_same T T' :
  dom (team_roster T') = dom (team_roster T) -> forall raw, canonical_member T' raw = canonical_member T raw.
Proof.
  intros Hdom raw. unfold canonical_member. assert (is_Some (team_roster T' !! raw) <-> is_Some (team_roster T !! raw)) as Hsome by (by rewrite <- !elem_of_dom, Hdom).
  rewrite (bool_decide_ext _ _ Hsome). destruct (_ || _); [done|].
  assert (only_match (filter (fun key => leaf key = raw) (roster_keys T')) = only_match (filter (fun key => leaf key = raw) (roster_keys T))) as ->; [|done].
  assert (filter (fun key => leaf key = raw) (roster_keys T') ≡ₚ filter (fun key => leaf key = raw) (roster_keys T)) as Hperm.
  { apply filter_Permutation. apply NoDup_Permutation; [apply roster_keys_NoDup..|].
    intros k. rewrite !roster_keys_elem. by rewrite <- !elem_of_dom, Hdom. }
  unfold only_match. revert Hperm. generalize (filter (fun key => leaf key = raw) (roster_keys T')) (filter (fun key => leaf key = raw) (roster_keys T)).
  intros l k Hperm. pose proof (Permutation_length Hperm) as Hlen. destruct l as [|x [|y l]], k as [|x' [|y' k]]; try done.
  by apply Permutation_singleton_r in Hperm as [= ->].
Qed.

Lemma activity_roster p env root handle reason entry :
  env_event env = activity_failed root handle reason -> (p_last_seq p < env_seq env)%N ->
  team_roster (p_team p) !! handle = Some entry ->
  dom (team_roster (p_team (apply p env))) = dom (team_roster (p_team p))
  /\ exists entry', team_roster (p_team (apply p env)) !! handle = Some entry' /\ re_session entry' = re_session entry
       /\ re_mode entry' = re_mode entry /\ re_status entry' = RosterStatus.Failed.
Proof.
  intros He Hseq Hentry. assert (canonical_member (p_team p) handle = handle) as Hcanon.
  { unfold canonical_member. rewrite (bool_decide_true (is_Some (team_roster (p_team p) !! handle))) by eauto. by rewrite orb_true_r. }
  assert (p_team (apply p env) = on_agent_activity_changed handle RosterStatus.Failed (Some reason) (p_team p)) as ->.
  { unfold apply. destruct (env_seq env =? 0)%N eqn:E0; [by rewrite He|]. rewrite (proj2 (N.leb_gt _ _)) by lia. by rewrite He. }
  unfold on_agent_activity_changed. rewrite Hcanon. simpl. split; [by rewrite dom_alter_L|].
  rewrite lookup_alter_eq, Hentry. simpl. eexists. split; [done|]. unfold set_activity. rewrite !decide_True by done.
  unfold finish_work. destruct (re_resident_work _); simpl; by destruct (_ && _).
Qed.

(** ** The whole transaction *)

Lemma current_released claim st : is_current claim (tx_db st) = true ->
  exists st', set_released claim st = (inl true, st') /\ db_log (tx_db st') = db_log (tx_db st)
    /\ db_journal (tx_db st') = db_journal (tx_db st) /\ cl_state <$> claim_row claim (tx_db st') = Some ClaimState.Released.
Proof.
  intros Hc. unfold set_released. rewrite Hc. eexists. split_and!; [done..|]. unfold is_current, claim_row in *. simpl.
  rewrite lookup_alter_eq. destruct (db_claims (tx_db st) !! _) as [[epoch owner state]|]; [|done]. simpl in *.
  by destruct (bool_decide (epoch = _) && bool_decide (owner = _)).
Qed.

(** The actor's fold keeps its closed turns and its parent over events that are aside. *)
Definition turns_done (parent : option SessionId) p : Prop := has_open_message p = false /\ sp_parent (p_session p) = parent.

Lemma turns_done_aside parent p env : aside_event (env_event env) = true -> turns_done parent p -> turns_done parent (apply p env).
Proof. intros He [Hopen Hpar]. destruct (apply_aside p env He) as [Hm Hp]. unfold turns_done, has_open_message. by rewrite Hm, Hp. Qed.

(** The last event, on the log of the root. *)
Lemma activity_exact root handle reason actor st env st' p entry :
  db_wf (tx_db st) ->
  append_event_in_transaction root (activity_failed root handle reason) st = (inl env, st') -> codec_keeps (env_event env) ->
  session_fold root (tx_db st) = inl p -> team_roster (p_team p) !! handle = Some entry ->
  re_session entry = actor -> re_mode entry = SubagentMode.Resident ->
  (exists q entry', session_fold root (tx_db st') = inl q
    /\ (forall raw, canonical_member (p_team q) raw = canonical_member (p_team p) raw)
    /\ team_roster (p_team q) !! handle = Some entry' /\ re_session entry' = actor
    /\ re_mode entry' = SubagentMode.Resident /\ re_status entry' = RosterStatus.Failed)
  /\ db_journal (tx_db st') = db_journal (tx_db st)
  /\ (forall t parent q, session_fold t (tx_db st) = inl q -> turns_done parent q ->
        exists q', session_fold t (tx_db st') = inl q' /\ turns_done parent q')
  /\ (forall t child q, session_fold t (tx_db st) = inl q -> no_live_row child q ->
        exists q', session_fold t (tx_db st') = inl q' /\ no_live_row child q').
Proof.
  intros Hwf Happ Hc Hp Hentry Hsession Hmode. apply append_appended in Happ as [Ha Hev].
  assert (Forall codec_keeps (env_event <$> [env])) as Hcs by (by apply Forall_singleton). split_and!.
  - assert (p_last_seq p < env_seq env)%N as Hseq.
    { apply fold_last_seq in Hp; [|done]. destruct (ap_fresh _ _ _ _ Ha) as [_ [Hf _]%Forall_cons]. lia. }
    destruct (activity_roster p env root handle reason entry Hev Hseq Hentry) as (Hdom & entry' & He' & H1 & H2 & H3).
    exists (apply p env), entry'. split_and!; [|by apply roster_keys_same|done|congruence|congruence|done].
    eapply (appended_fold root [env]); [exact Ha|by apply Forall_singleton|done].
  - apply Ha.
  - intros t parent q. apply (appended_keeps (turns_done parent) root [env] st st' t q Ha Hcs).
    intros q0 e ->%list_elem_of_singleton. apply turns_done_aside. by rewrite Hev.
  - intros t child q. apply (appended_keeps (no_live_row child) root [env] st st' t q Ha Hcs).
    intros q0 e ->%list_elem_of_singleton. unfold no_live_row. by erewrite apply_activity_members by (rewrite Hev; reflexivity).
Qed.

Lemma stop_exact claim root handle reason status now st envs records st' :
  bases_ok st -> is_live_status status = false ->
  stop_resident_tx claim root handle reason status now st = (inl (envs, records), st') ->
  Forall codec_keeps (env_event <$> envs) -> resident_stopped claim root handle (tx_db st').
Proof.
  intros Hok Hstatus Hrun Hcodec. unfold stop_resident_tx in Hrun. replay_in Hrun with Hok as st0 Hok0 Hdb0.
  set (actor := ac_actor_id claim) in *. destruct (session_fold root (tx_db st)) as [p|] eqn:Hp; [|done]. rewrite <- Hdb0 in Hp. clear st Hok Hdb0.
  destruct (team_roster (p_team p) !! _) as [entry|] eqn:Hentry; [|done]. destruct (_ || _) eqn:Hmatch in Hrun; [done|].
  apply orb_false_iff in Hmatch as [Hsession%bool_decide_eq_false Hmode%bool_decide_eq_false]. apply dec_stable in Hsession, Hmode.
  apply tx_bind_ok in Hrun as (effects & st1 & Heff & Hrun). apply tx_bind_ok in Hrun as (closed & st2 & Hclose & Hrun).
  apply tx_bind_ok in Hrun as (epoch & st3 & [Hepoch ->]%tx_try_ok & Hrun). apply tx_bind_ok in Hrun as (recs & st4 & Habort & Hrun).
  apply tx_bind_ok in Hrun as (activity & st5 & Happ & Hrun). apply tx_bind_ok in Hrun as (released & st6 & Hrel & Hrun).
  destruct released; [|done]. injection Hrun as <- <- <-. rewrite !fmap_app, !Forall_app in Hcodec. destruct Hcodec as (Hc1 & Hc2 & Hc3).
  assert (epoch = epoch_get (ac_epoch claim)) as -> by (unfold epoch_param in Hepoch; case_decide; [by injection Hepoch|done]).
  destruct (effects_exact _ _ _ _ _ Hok0 Heff Hc1) as (Hok1 & (pa1 & Hpa1 & Hopen) & st0' & Hdb0 & Ha1 & Hk1).
  destruct (close_rows_exact _ _ _ _ _ _ _ Hok1 Hstatus Hclose Hc2 Hpa1) as (Hok2 & Hpar & st1' & s2 & Hdb1 & Ha2 & Hk2).
  destruct (abort_bound_exact _ _ _ _ _ _ _ Habort) as [Hlog4 Hjournal].
  assert (bases_ok st4) as Hok4 by (replace st4 with (abort_bound (SessionId_storage_key actor) (epoch_get (ac_epoch claim)) reason now st2).2 by (by rewrite Habort);
    apply tame_bases; [apply built_tame, abort_bound_built|done]).
  assert (exists pr, session_fold root (tx_db st4) = inl pr /\ p_team pr = p_team p) as (pr & Hpr & Hteam).
  { rewrite (same_log_fold _ _ _ Hlog4). rewrite <- Hdb0 in Hp.
    destruct (appended_keeps (fun q => p_team q = p_team p) _ _ _ _ root p Ha1 Hc1) as (pr1 & Hpr1 & Ht1); [|done..|].
    { intros q env Henv <-. apply apply_close_team. by eapply Forall_forall in Hk1. }
    rewrite <- Hdb1 in Hpr1. apply (appended_keeps (fun q => p_team q = p_team p) _ _ _ _ root pr1 Ha2 Hc2); [|done..].
    intros q env Henv <-. apply apply_close_team. by eapply Forall_forall in Hk2 as [? _]. }
  assert (exists pa, session_fold actor (tx_db st4) = inl pa /\ turns_done (sp_parent (p_session pa1)) pa) as (pa & Hpa & Hdone).
  { rewrite (same_log_fold _ _ _ Hlog4). rewrite <- Hdb1 in Hpa1. apply (appended_keeps _ _ _ _ _ actor pa1 Ha2 Hc2); [|done|by split].
    intros q env Henv. apply turns_done_aside. by eapply Forall_forall in Hk2 as [_ ?]. }
  rewrite <- Hteam in Hentry, Happ.
  destruct (activity_exact _ _ _ actor _ _ _ _ _ (bo_wf _ Hok4) Happ ltac:(by apply Forall_cons in Hc3 as [? _]) Hpr Hentry Hsession Hmode)
    as ((q & entry' & Hq & Hcanon & Hentry' & H1 & H2 & H3) & Hj5 & Hturns & Hrows).
  assert (is_current claim (tx_db st5) = true) as Hcur by (unfold set_released in Hrel; by destruct (is_current claim (tx_db st5))).
  destruct (current_released claim st5 Hcur) as (st7 & Hst7 & Hl7 & Hj7 & Hcl). rewrite Hrel in Hst7. injection Hst7 as <-.
  split.
  - destruct (Hturns _ _ _ Hpa Hdone) as (pa5 & Hpa5 & Hopen5 & Hpar5). exists pa5. split_and!; [by rewrite (same_log_fold _ _ _ Hl7)|done|].
    intros parent Hparent. rewrite Hpar5 in Hparent. destruct (Hpar parent Hparent) as (qp & Hqp & Hno).
    destruct (Hrows parent actor qp) as (qp' & Hqp' & Hno'); [by rewrite (same_log_fold _ _ _ Hlog4)|done|]. exists qp'.
    by rewrite (same_log_fold _ _ _ Hl7).
  - rewrite Hj7, Hj5. exact Hjournal.
  - exists q, entry'. rewrite (same_log_fold _ _ _ Hl7), Hcanon. done.
  - exact Hcl.
Qed.

Lemma stop_again claim root handle reason status now st :
  bases_ok st -> (epoch_get (ac_epoch claim) <= MAX_ROWID)%N ->
  failed_entry root handle (ac_actor_id claim) (tx_db st) -> cl_state <$> claim_row claim (tx_db st) = Some ClaimState.Released ->
  exists st', transact (finalize_resident_tx claim root handle reason status now) st = (inl ([], []), st') /\ tx_db st' = tx_db st.
Proof.
  intros Hok Hepoch (p & entry & Hp & Hentry & H1 & H2 & H3) Hclaim.
  assert (is_current claim (tx_db st) = false) as Hcur.
  { unfold is_current. destruct (claim_row claim (tx_db st)) as [row|]; [|done]. injection Hclaim as Hr. by rewrite Hr. }
  unfold transact, finalize_resident_tx.
  assert (fence_actor_claim claim st = (inr (StaleActorClaim (ac_actor_id claim)), st)) as ->.
  { unfold fence_actor_claim, epoch_param. rewrite decide_True by done. unfold tx_bind, tx_read. simpl. by rewrite Hcur. }
  rewrite decide_True by done. unfold released_resident_matches, epoch_param. rewrite decide_True by done.
  unfold tx_bind at 1 2 3, tx_read at 1. simpl. rewrite decide_True by done.
  replay_goal with Hok as st0 Hok0 Hdb0. rewrite Hp. simpl. rewrite Hentry, !bool_decide_true by done. simpl. by exists st0.
Qed.
End resident.

Section result.
Context `{U : UuidLib} `{J : JsonLib} `{L : !StoreLib} `{!StoreLaws L}.

(** C19: stopping a resident actor, in every world a run of the store reaches.  A stop that returns
    either found the claim current and did all of it: no turn of the actor is open, no row
    of its parent shows it live, no admission bound to it is accepted or started, its roster row is
    failed and the claim is released; or the claim was already released and the row failed, and
    it wrote nothing.  (The codec is assumed to keep the appended events.)  Either way stopping it again, for whatever reason,
    succeeds and writes nothing; and a stop that fails has written nothing. *)
Theorem resident_stopped_once (c : Config) :
  store_run c -> Forall json_keeps (sw_past (cf_world c)) ->
  let st := sw_tx (cf_world c) in
  forall claim root handle reason status now, is_live_status status = false ->
    match transact (finalize_resident_tx claim root handle reason status now) st with
    | (inr _, st') => tx_db st' = tx_db st
    | (inl (envs, records), st') =>
        Forall codec_keeps (env_event <$> envs) ->
        (is_current claim (tx_db st) = true /\ resident_stopped claim root handle (tx_db st')
         \/ is_current claim (tx_db st) = false /\ envs = [] /\ records = [] /\ tx_db st' = tx_db st
            /\ failed_entry root handle (ac_actor_id claim) (tx_db st)
            /\ cl_state <$> claim_row claim (tx_db st) = Some ClaimState.Released)
        /\ forall reason' status' now', exists st2,
             transact (finalize_resident_tx claim root handle reason' status' now') st' = (inl ([], []), st2) /\ tx_db st2 = tx_db st'
    end.
Proof.
  intros Hrun Hkept st *. intros Hstatus. destruct (store_run_world c Hrun Hkept) as [[Hok _] _]. fold st in Hok.
  assert (bases_ok (finalize_resident_tx claim root handle reason status now st).2) as Hok'.
  { apply tame_bases; [|done]. apply built_tame, finalize_resident_built. }
  unfold transact at 1. destruct (finalize_resident_tx claim root handle reason status now st) as [[[envs records]|e] st'] eqn:Htx; [|done].
  intros Hcodec. simpl in Hok'. unfold finalize_resident_tx in Htx.
  assert (fence_actor_claim claim st = (if decide (epoch_get (ac_epoch claim) <= MAX_ROWID)%N
    then (if is_current claim (tx_db st) then inl tt else inr (StaleActorClaim (ac_actor_id claim)))
    else inr (ActorClaimData "actor epoch exceeds SQLite INTEGER range"), st)) as Hfence.
  { unfold fence_actor_claim, epoch_param, tx_bind, tx_read. case_decide; [|done]. simpl. by destruct (is_current claim (tx_db st)). }
  rewrite Hfence in Htx. case_decide as Hepoch; [|by rewrite decide_False in Htx].
  destruct (is_current claim (tx_db st)) eqn:Hcur.
  - assert (resident_stopped claim root handle (tx_db st')) as Hstopped by (eapply stop_exact; [exact Hok|exact Hstatus|exact Htx|exact Hcodec]). split; [by left|].
    intros *. apply stop_again; [done|done|apply Hstopped|apply Hstopped].
  - rewrite decide_True in Htx by done. apply tx_bind_ok in Htx as (matches & st1 & Hm & Htx). destruct matches; [|done]. injection Htx as <- <- <-.
    unfold released_resident_matches in Hm. apply tx_bind_ok in Hm as (u & st2 & [_ ->]%tx_try_ok & (row & st3 & [= <- <-] & Hm)%tx_bind_ok).
    case_decide as Hclaim; [|by injection Hm]. replay_in Hm with Hok as st4 Hok4 Hdb4.
    destruct (session_fold root (tx_db st)) as [p|] eqn:Hp; [|done]. injection Hm as Hentry ->.
    assert (failed_entry root handle (ac_actor_id claim) (tx_db st)) as Hfailed.
    { destruct (team_roster (p_team p) !! _) as [entry|] eqn:E; [|done]. exists p, entry. split_and!; [done|exact E|..];
        by repeat (apply andb_prop in Hentry as [Hentry ?%bool_decide_eq_true] || apply bool_decide_eq_true in Hentry). }
    split; [right; by split_and!|]. intros *. apply stop_again; [done|done|by rewrite Hdb4|by rewrite Hdb4].
Qed.
End result.

(** ** Example: a worker is registered, claimed, and stopped *)

Definition worker_claim : ActorClaim := mkActorClaim StoreDemo.worker (mkActorEpoch 1) demo_owner.

Definition worker_ops : list StoreOp :=
  [OpAppend StoreDemo.session (Event.AgentRegistered StoreDemo.session StoreDemo.worker "builder" None (StrNewtype "worker") SubagentMode.Resident);
   OpClaimActor StoreDemo.worker demo_owner].

(** One event, which the codec of the example keeps. *)
Definition kept_activity (envs : list Envelope) : bool :=
  match env_event <$> envs with
  | [Event.AgentActivityChanged s _ RosterStatus.Failed (Some task)] => bool_decide (s = StoreDemo.session) && bool_decide (task = "stopped")
  | _ => false
  end.

Lemma kept_activity_keeps envs : kept_activity envs = true -> Forall codec_keeps (env_event <$> envs).
Proof.
  unfold kept_activity. destruct (env_event <$> envs) as [|e []]; try done; [|by destruct e; repeat case_match].
  destruct e; try done. destruct status, current_task; try done. intros [->%bool_decide_eq_true ->%bool_decide_eq_true]%andb_prop.
  repeat constructor. by intros payload [= <-].
Qed.

Lemma resident_stopped_once_witness :
  let st := sw_tx (play worker_ops new_store).2 in
  exists envs records st', transact (finalize_resident_tx worker_claim StoreDemo.session "builder" "stopped" MemberRunStatus.Cancelled 3) st
      = (inl (envs, records), st')
    /\ is_current worker_claim (tx_db st) = true /\ resident_stopped worker_claim StoreDemo.session "builder" (tx_db st').
Proof.
  intros st. destruct (played worker_ops) as (c & Hrun & Hw & _).
  assert (forallb titled (sw_past (play worker_ops new_store).2) = true) as H by (vm_compute; reflexivity). rewrite <- Hw in H.
  assert (match (transact (finalize_resident_tx worker_claim StoreDemo.session "builder" "stopped" MemberRunStatus.Cancelled 3) st).1 with
          | inl (envs, _) => kept_activity envs | inr _ => false end = true) as Henvs by (vm_compute; reflexivity).
  assert (is_current worker_claim (tx_db st) = true) as Hcur by (vm_compute; reflexivity).
  pose proof (resident_stopped_once c Hrun ltac:(apply Forall_forall; intros db Hdb; apply titled_keeps;
    apply forallb_forall with (x := db) in H; [exact H|by apply list_elem_of_In]) worker_claim StoreDemo.session "builder" "stopped"
    MemberRunStatus.Cancelled 3%Z eq_refl) as Hstop.
  rewrite Hw in Hstop. fold st in Hstop. destruct (transact _ st) as [[[envs records]|e] st']; [|discriminate].
  destruct (Hstop (kept_activity_keeps envs Henvs)) as [[[_ Hs]|(Hno & _)] _]; [|by rewrite Hcur in Hno].
  by exists envs, records, st'.
Defined.
