(* ===== verification/Processes.v ===== *)
(** * Processes over a shared world

    Operating-system processes, each running one task: a process may be killed between any two of its
    calls, what it holds is then taken back by [kill], and the others go on.  [psafe] is a
    rely-guarantee logic for one process whose steps and obligations depend on which process it is:
    [G i] is what process [i] does, [R i] what the others do to it. *)

From Stdlib Require Import FunctionalExtensionality.
From S2P Require Import Prelude Result Effects.

Section processes.
Context {E : Type -> Type} {W : Type}.
Context (step : nat -> forall X, E X -> W -> X -> W -> Prop) (kill : nat -> W -> W -> Prop).
Context {Op A : Type} (run : Op -> Task E A).

(** ** Execution *)

(** One step of a task: a call, or one turn round a loop. *)
Definition task_step (i : nat) {B} (t : Task E B) (w : W) (t' : Task E B) (w' : W) : Prop :=
  match t in Task _ B return Task E B -> Prop with
  | Ret _ => fun _ => False
  | Call e k => fun t' => exists x, step i _ e w x w' /\ t' = k x
  | Iter body s k => fun t' =>
      w' = w /\ t' = bind_task (body s) (fun r => match r with inl s => Iter body s k | inr b => k b end)
  end t'.

Record Process := mkProcess {
  pr_op : Op;
  pr_task : Task E A;
}.

Record System := mkSystem {
  sys_processes : nat -> option Process;
  sys_world : W;
}.

Definition no_processes : nat -> option Process := fun _ => None.
Definition set_process (i : nat) (p : option Process) (ps : nat -> option Process) : nat -> option Process :=
  fun j => if decide (j = i) then p else ps j.

Inductive system_step : System -> System -> Prop :=
  | sys_spawn i op ps w :
      ps i = None -> system_step (mkSystem ps w) (mkSystem (set_process i (Some (mkProcess op (run op))) ps) w)
  | sys_call i p t' ps w w' :
      ps i = Some p -> task_step i (pr_task p) w t' w' ->
      system_step (mkSystem ps w) (mkSystem (set_process i (Some (mkProcess (pr_op p) t')) ps) w')
  | sys_kill i p ps w w' :
      ps i = Some p -> kill i w w' -> system_step (mkSystem ps w) (mkSystem (set_process i None ps) w').

(** What can happen from [w] on. *)
Inductive system_run (w : W) : System -> Prop :=
  | sys_start : system_run w (mkSystem no_processes w)
  | sys_next c c' : system_run w c -> system_step c c' -> system_run w c'.

(** ** The logic of one process *)

Context (I : W -> Prop) (R G : nat -> W -> W -> Prop) `{R_preorder : forall i, PreOrder (R i)}.

Fixpoint psafe (i : nat) {B} (t : Task E B) : (B -> W -> Prop) -> W -> Prop :=
  match t in Task _ B return (B -> W -> Prop) -> W -> Prop with
  | Ret b => fun Q w => Q b w
  | Call e k => fun Q w =>
      forall w1, R i w w1 -> I w1 -> forall x w2, step i _ e w1 x w2 -> I w2 /\ G i w1 w2 /\ psafe i (k x) Q w2
  | Iter body s k => fun Q w =>
      exists Inv : _ -> W -> Prop, Inv s w /\ (forall s w w', Inv s w -> R i w w' -> Inv s w')
        /\ forall s w, Inv s w -> psafe i (body s) (fun r w => match r with
             | inl s => Inv s w | inr b => psafe i (k b) Q w end) w
  end.

Lemma psafe_mono i {B} (t : Task E B) (Q Q' : B -> W -> Prop) w :
  (forall b w, Q b w -> Q' b w) -> psafe i t Q w -> psafe i t Q' w.
Proof.
  intros HQ. revert Q Q' w HQ. induction t as [B b|B X e k IH|B S C body IHb s k IHk]; intros Q Q' w HQ; simpl; [auto| |].
  - intros H w1 Hw HI x w2 Hx. destruct (H w1 Hw HI x w2 Hx) as (? & ? & Hk). split_and!; [done..|]. by eapply IH.
  - intros (Inv & Hs & Hst & Hb). exists Inv. split_and!; [done..|]. intros s' w' Hw'.
    eapply IHb; [|by apply Hb]. intros [s1|b] w1; [done|]. by apply IHk.
Qed.

Lemma psafe_bind i {B C} (t : Task E B) (f : B -> Task E C) (Q : C -> W -> Prop) w :
  psafe i t (fun b w => psafe i (f b) Q w) w -> psafe i (bind_task t f) Q w.
Proof.
  revert f Q w. induction t as [B b|B X e k IH|B S D body IHb s k IHk]; intros f Q w; simpl; [done| |].
  - intros H w1 Hw HI x w2 Hx. destruct (H w1 Hw HI x w2 Hx) as (? & ? & Hk). split_and!; [done..|]. by apply IH.
  - intros (Inv & Hs & Hst & Hb). exists Inv. split_and!; [done..|]. intros s' w' Hw'.
    eapply psafe_mono; [|by apply Hb]. intros [s1|b] w1; [done|]. by apply IHk.
Qed.

Lemma psafe_try i {B C Err} (t : Task E (B + Err)) (f : B -> Task E (C + Err)) (Q : C + Err -> W -> Prop) w :
  psafe i t (fun r w => match r with inl b => psafe i (f b) Q w | inr err => Q (inr err) w end) w ->
  psafe i (try_bind t f) Q w.
Proof. intros H. apply psafe_bind. revert H. apply psafe_mono. by intros []. Qed.

Definition pstable i {B} (Q : B -> W -> Prop) : Prop := forall b w w', R i w w' -> Q b w -> Q b w'.

Lemma psafe_stable i {B} (t : Task E B) (Q : B -> W -> Prop) w w' :
  pstable i Q -> R i w w' -> psafe i t Q w -> psafe i t Q w'.
Proof.
  intros HQ Hw. destruct t as [B b|B X e k|B S C body s k]; simpl; [by apply HQ| |].
  - intros H w1 Hw1. apply H. by etrans.
  - intros (Inv & Hs & Hst & Hb). exists Inv. split_and!; [|done..]. by eapply Hst.
Qed.

Lemma task_step_safe i {B} (t t' : Task E B) (Q : B -> W -> Prop) w w' :
  I w -> psafe i t Q w -> task_step i t w t' w' ->
  psafe i t' Q w' /\ (I w' /\ G i w w' \/ w' = w).
Proof.
  intros HI. destruct t as [B b|B X e k|B S C body s k]; simpl; [done| |].
  - intros H (x & Hx & ->). destruct (H w ltac:(reflexivity) HI x w' Hx) as (? & ? & ?). auto.
  - intros (Inv & Hs & Hst & Hb) [-> ->]. split; [|by right]. apply psafe_bind. eapply psafe_mono; [|by apply Hb].
    intros [s'|b] w1; [|done]. intros Hw1. exists Inv. by split_and!.
Qed.

(** ** Runs *)

Context (Q : Op -> A -> W -> Prop).
Hypothesis Q_stable : forall i op, pstable i (Q op).
Hypothesis G_R : forall i j w w', i <> j -> G i w w' -> R j w w'.
(** A process starts with nothing; a killed one loses what it had. *)
Context (none : nat -> W -> Prop).
Hypothesis none_R : forall i j w w', i <> j -> G i w w' -> none j w -> none j w'.
Hypothesis kill_safe : forall i w w', I w -> kill i w w' ->
  I w' /\ none i w' /\ forall j, j <> i -> R j w w' /\ (none j w -> none j w').
Hypothesis run_safe : forall i op w, I w -> none i w -> psafe i (run op) (Q op) w.

Definition system_safe (c : System) : Prop :=
  I (sys_world c)
  /\ forall i, match sys_processes c i with
       | Some p => psafe i (pr_task p) (Q (pr_op p)) (sys_world c)
       | None => none i (sys_world c)
       end.

Lemma system_step_safe c c' : system_safe c -> system_step c c' -> system_safe c'.
Proof.
  intros (HI & Hps) Hstep. destruct Hstep as [i op ps w Hi|i p t' ps w w' Hi Ht|i p ps w w' Hi Hk]; simpl in *.
  - split; [done|]. intros j. simpl. unfold set_process. case_decide as Hj; [|apply Hps].
    subst j. apply run_safe; [done|]. specialize (Hps i). by rewrite Hi in Hps.
  - pose proof (Hps i) as Hpi. rewrite Hi in Hpi.
    destruct (task_step_safe i _ _ _ _ _ HI Hpi Ht) as [Ht' Hw]. unfold set_process.
    assert (I w' /\ forall j, i <> j -> match ps j with Some p => psafe j (pr_task p) (Q (pr_op p)) w' | None => none j w' end) as [HI' Hj].
    { destruct Hw as [[HI' HG]| -> ]; (split; [done|]); [|intros j _; apply Hps].
      intros j Hij. specialize (Hps j). destruct (ps j) as [p'|]; [|by eapply none_R].
      eapply psafe_stable; [apply Q_stable|by eapply G_R|done]. }
    split; [done|]. simpl. intros j. case_decide as Hji; [subst j; done|]. apply Hj. congruence.
  - destruct (kill_safe _ _ _ HI Hk) as (HI' & Hn & Hj). split; [done|]. simpl. intros j. unfold set_process.
    case_decide as Hji; [by subst j|]. destruct (Hj j Hji) as [HR Hnone]. specialize (Hps j).
    destruct (ps j) as [p'|]; [|by apply Hnone]. eapply psafe_stable; [apply Q_stable|done|done].
Qed.

Lemma system_safe_run w0 c : I w0 -> (forall i, none i w0) -> system_run w0 c -> system_safe c.
Proof.
  intros HI Hn. induction 1 as [|c c' _ IH Hs]; [by split|]. by eapply system_step_safe.
Qed.

(** What every step of a run does, and what every finished process has established. *)
Lemma system_run_step w0 c c' : I w0 -> (forall i, none i w0) -> system_run w0 c -> system_step c c' ->
  I (sys_world c) /\ I (sys_world c')
  /\ (sys_world c' = sys_world c \/ (exists i, G i (sys_world c) (sys_world c'))
      \/ exists i, kill i (sys_world c) (sys_world c')).
Proof.
  intros HI Hn Hrun Hs. pose proof (system_safe_run _ _ HI Hn Hrun) as Hc.
  pose proof (system_step_safe _ _ Hc Hs) as [HI' _]. destruct Hc as [HI0 Hps]. split_and!; [done..|].
  destruct Hs as [i op ps w Hi|i p t' ps w w' Hi Ht|i p ps w w' Hi Hk]; simpl in *; [by left| |right; right; by exists i].
  specialize (Hps i). rewrite Hi in Hps. destruct (task_step_safe i _ _ _ _ _ HI0 Hps Ht) as [_ [[_ HG]|Hw]]; [|by left].
  right; left; by exists i.
Qed.

Lemma system_run_done w0 c i p a : I w0 -> (forall i, none i w0) -> system_run w0 c ->
  sys_processes c i = Some p -> pr_task p = Ret a -> Q (pr_op p) a (sys_world c).
Proof.
  intros HI Hn Hrun Hi Ha. destruct (system_safe_run _ _ HI Hn Hrun) as [_ Hps]. specialize (Hps i).
  rewrite Hi, Ha in Hps. done.
Qed.
End processes.

(** ** Running one process alone *)

Lemma bind_task_assoc {E A B C} (t : Task E A) (g : A -> Task E B) (f : B -> Task E C) :
  bind_task (bind_task t g) f = bind_task t (fun a => bind_task (g a) f).
Proof.
  revert g. induction t as [A a|A X e k IH|A S D body _ s k IH]; intros g; simpl; [done| |];
    f_equal; apply functional_extensionality; intros x; apply IH.
Qed.

Section drive.
Context {E : Type -> Type} {W : Type}.
Context (step : nat -> forall X, E X -> W -> X -> W -> Prop) (kill : nat -> W -> W -> Prop).
Context {Op A : Type} (run : Op -> Task E A).
Context (i : nat) (h : forall X, E X -> W -> X * W).
Hypothesis h_step : forall X (e : E X) w, step i X e w (h X e w).1 (h X e w).2.

Inductive task_steps {B} : Task E B -> W -> Task E B -> W -> Prop :=
  | task_steps_refl t w : task_steps t w t w
  | task_steps_next t w t1 w1 t2 w2 : task_step step i t w t1 w1 -> task_steps t1 w1 t2 w2 -> task_steps t w t2 w2.

Lemma task_steps_trans {B} (t1 t2 t3 : Task E B) w1 w2 w3 :
  task_steps t1 w1 t2 w2 -> task_steps t2 w2 t3 w3 -> task_steps t1 w1 t3 w3.
Proof. induction 1; [done|]. intros H3. econstructor; [done|auto]. Qed.

Lemma task_step_bind {B D} (t t' : Task E B) (f : B -> Task E D) w w' :
  task_step step i t w t' w' -> task_step step i (bind_task t f) w (bind_task t' f) w'.
Proof.
  destruct t as [B b|B X e k|B S F body s k]; simpl; [done| |].
  - intros (x & Hx & ->). by exists x.
  - intros [-> ->]. split; [done|]. rewrite bind_task_assoc. f_equal. apply functional_extensionality. by intros [].
Qed.

Lemma task_steps_bind {B D} (t t' : Task E B) (f : B -> Task E D) w w' :
  task_steps t w t' w' -> task_steps (bind_task t f) w (bind_task t' f) w'.
Proof. induction 1; [constructor|]. econstructor; [by apply task_step_bind|done]. Qed.

Lemma process_task_steps fuel {B} (t : Task E B) w b w' : run_task h fuel t w = Some (b, w') -> task_steps t w (Ret b) w'.
Proof.
  revert w b w'. induction t as [B b0|B X e k IH|B S F body IHb s k IHk]; intros w b w'; simpl.
  - intros [= <- <-]. constructor.
  - pose proof (h_step X e w) as Hs. destruct (h X e w) as [x w1]. intros H%IH. econstructor; [|exact H]. by exists x.
  - generalize fuel at 3. intros n. revert s w. induction n as [|n IHn]; intros s w; simpl; [done|].
    destruct (run_task h fuel (body s) w) as [[r w1]|] eqn:Er; [|done]. intros Hr.
    econstructor; [by split|]. eapply task_steps_trans; [by apply task_steps_bind, (IHb s)|]. simpl.
    destruct r as [s1|b1]; [by apply IHn|by apply IHk in Hr].
Qed.

Lemma system_steps w0 ps w p t' w' :
  system_run step kill run w0 (mkSystem ps w) -> ps i = Some p -> task_steps (pr_task p) w t' w' ->
  exists ps', system_run step kill run w0 (mkSystem ps' w') /\ ps' i = Some (mkProcess (pr_op p) t')
    /\ forall j, j <> i -> ps' j = ps j.
Proof.
  intros Hrun Hi Hs. remember (pr_task p) as t eqn:Ht. revert ps p Hrun Hi Ht.
  induction Hs as [t w|t w t1 w1 t2 w2 Hs _ IH]; intros ps p Hrun Hi ->.
  - exists ps. split_and!; [done| |done]. rewrite Hi. by destruct p.
  - destruct (IH (set_process i (Some (mkProcess (pr_op p) t1)) ps) (mkProcess (pr_op p) t1))
      as (ps' & Hrun' & Hi' & Hj); [|unfold set_process; by rewrite decide_True|done|].
    + eapply sys_next; [exact Hrun|]. by eapply sys_call.
    + exists ps'. split_and!; [done..|]. intros j Hne. rewrite Hj by done. unfold set_process. by rewrite decide_False.
Qed.

(** An operation that starts now and runs to its end *)
Lemma system_drive fuel w0 ps w op a w' :
  system_run step kill run w0 (mkSystem ps w) -> ps i = None -> run_task h fuel (run op) w = Some (a, w') ->
  exists ps', system_run step kill run w0 (mkSystem ps' w') /\ ps' i = Some (mkProcess op (Ret a))
    /\ forall j, j <> i -> ps' j = ps j.
Proof.
  intros Hrun Hi Ht. destruct (system_steps w0 (set_process i (Some (mkProcess op (run op))) ps) w (mkProcess op (run op)) (Ret a) w')
    as (ps' & Hrun' & Hi' & Hj).
  - eapply sys_next; [exact Hrun|by constructor].
  - unfold set_process. by rewrite decide_True.
  - by eapply process_task_steps.
  - exists ps'. split_and!; [done..|]. intros j Hne. rewrite Hj by done. unfold set_process. by rewrite decide_False.
Qed.
End drive.
