(* ===== verification/UpdMeta.v ===== *)
(** * The updater: signed release metadata and trust roots

    metadata.rs, error.rs, layout.rs, trust.rs and verify.rs of hya-updater.  Bytes are strings of
    bytes; i64 times are [Z].  A path is the list of its components as [Path::components] gives them
    (an absolute path starts with the component "/"), so paths print without redundant separators. *)

From stdpp Require Import pretty.
From S2P Require Import Prelude RustStr Text Result.

(** ** Paths *)

Abbreviation Path := (list string).

Definition SLASH : ascii := "/"%char.
Definition is_absolute (s : string) : bool := starts_with "/" s.

(** The components of a relative path that is appended to another. *)
Definition is_component (s : string) : Prop := s <> "" /\ s <> ".".
#[global] Instance is_component_dec s : Decision (is_component s) := _.
Definition relative_components (s : string) : Path := filter is_component (split_char SLASH s).

(** [PathBuf::from(s)]: a leading [.] is kept. *)
Definition path_from (s : string) : Path :=
  if is_absolute s then "/" :: relative_components s else
  match split_char SLASH s with
  | "." :: rest => "." :: filter is_component rest
  | segments => filter is_component segments
  end.

(** [p.join(s)] *)
Definition join (p : Path) (s : string) : Path :=
  if is_absolute s then path_from s else
  match p with [] => path_from s | _ => p ++ relative_components s end.

(** [p.starts_with(base)], [p.strip_prefix(base)] and [p.parent()] *)
Fixpoint path_strip_prefix (base p : Path) : option Path :=
  match base, p with
  | [], _ => Some p
  | b :: base, c :: p => if decide (b = c) then path_strip_prefix base p else None
  | _ :: _, [] => None
  end.
Definition path_starts_with (base p : Path) : bool :=
  match path_strip_prefix base p with Some _ => true | None => false end.
Definition parent (p : Path) : option Path := if decide (p = [] \/ p = ["/"]) then None else Some (removelast p).

(** [p.display()] *)
Definition display (p : Path) : string :=
  match p with
  | "/" :: rest => "/" +:+ String.concat "/" rest
  | p => String.concat "/" p
  end.

(** ** Errors *)

Inductive UpdaterError :=
  | UnknownTrustRoot (key_id : string)
  | InvalidTrustRootKey
  | InvalidSignature
  | NonIncreasingSequence (sequence floor : N)
  | PlatformMismatch (got want : string)
  | NotYetValid
  | Expired
  | UnsupportedProtocol (got supported : N)
  | UpdaterTooOld (have need : string)
  | ArtifactDigestMismatch (name : string)
  | SmokeFailed (message : string)
  | OwnershipViolation (message : string)
  | LeaseUnavailable (message : string)
  | StaleOwnerGeneration
  | InvalidMetadata (message : string).

(** ** Metadata *)

Record TrustRoot := mkTrustRoot {
  tr_key_id : string;
  tr_verifying_key : string;
}.

Record ArtifactDigest := mkArtifactDigest {
  ad_name : string;
  ad_size : N;
  ad_sha256_hex : string;
}.

Definition SUPPORTED_PROTOCOL_VERSION : N := 1.

Record ReleaseMetadata := mkReleaseMetadata {
  rm_sequence : N;
  rm_platform : string;
  rm_artifacts : list ArtifactDigest;
  rm_not_before : Z;
  rm_not_after : Z;
  rm_recovery : bool;
  rm_protocol_version : N;
  rm_min_updater_version : string;
  rm_key_id : string;
  rm_signature : string;
}.

Record VerifiedRelease := mkVerifiedRelease {
  vr_sequence : N;
  vr_platform : string;
  vr_artifacts : list ArtifactDigest;
  vr_recovery : bool;
  vr_protocol_version : N;
  vr_min_updater_version : string;
  vr_key_id : string;
}.

(** The body that is signed: every field but the signature. *)
Record CanonicalMetadata := mkCanonicalMetadata {
  cm_sequence : N;
  cm_platform : string;
  cm_artifacts : list ArtifactDigest;
  cm_not_before : Z;
  cm_not_after : Z;
  cm_recovery : bool;
  cm_protocol_version : N;
  cm_min_updater_version : string;
  cm_key_id : string;
}.

Record TrustRootRecord := mkTrustRootRecord {
  trr_key_id : string;
  trr_verifying_key_hex : string;
}.

(** The crates below: ed25519-dalek, sha2, serde_json on the types of this file, and the version the
    build puts into hya-version.  The errors of serde_json are texts. *)
Class UpdateLib := {
  VerifyingKey : Type;
  Signature : Type;
  verifying_key_from_bytes : string -> option VerifyingKey;
  signature_from_slice : string -> option Signature;
  verify : VerifyingKey -> string -> Signature -> bool;
  sha256_digest : string -> string;
  canonical_to_vec : CanonicalMetadata -> string + string;
  trust_roots_to_string_pretty : list TrustRootRecord -> string + string;
  trust_roots_from_str : string -> list TrustRootRecord + string;
  BACKEND_VERSION : string;
}.

(** ** layout.rs *)

Record UpdaterLayout := mkUpdaterLayout {
  ul_root : Path;
  ul_trust_roots : Path;
  ul_accepted_floor : Path;
  ul_journal : Path;
  ul_lease : Path;
  ul_authorization : Path;
  ul_generation : Path;
  ul_selector : Path;
  ul_releases : Path;
}.

Definition layout (root : Path) : UpdaterLayout :=
  {| ul_root := root;
     ul_trust_roots := join root "trust_roots.json";
     ul_accepted_floor := join root "accepted_floor";
     ul_journal := join root "activation.journal";
     ul_lease := join root "updater.lock";
     ul_authorization := join root "authorization.json";
     ul_generation := join root "generation";
     ul_selector := join root "current";
     ul_releases := join root "releases" |}.

Definition release_directory (root : Path) (sequence : N) : Path :=
  join (ul_releases (layout root)) (pretty sequence).

Definition assert_tcb_outside_candidate (root : Path) (candidate_sequence : N) : unit + UpdaterError :=
  let layout := layout root in
  let candidate := release_directory root candidate_sequence in
  let? _ := try_each (fun path =>
    if path_starts_with candidate path then
      inr (OwnershipViolation ("protected path `" +:+ display path +:+ "` must not live under candidate `"
             +:+ display candidate +:+ "`"))
    else if match path_strip_prefix root path with
            | Some rel => path_starts_with ["releases"] rel
            | None => false
            end then
      inr (OwnershipViolation ("protected path `" +:+ display path +:+ "` must not be under releases/"))
    else inl tt)
    [ul_trust_roots layout; ul_accepted_floor layout; ul_journal layout; ul_authorization layout;
     ul_generation layout; ul_selector layout] in
  if decide (ul_releases layout <> join root "releases") then
    inr (OwnershipViolation "releases directory must be root/releases")
  else inl tt.

Definition forbidden_names : list string :=
  ["sessions.sqlite"; "sessions.db"; "session.db"; "auth.json"; "credentials"; "secrets"].

Section verify.
Context `{C : UpdateLib}.

(** ** verify.rs *)

Definition METADATA_DOMAIN : string := "hya.updater.release-metadata.v1".
Definition UPDATER_PACKAGE_VERSION : string := BACKEND_VERSION.

Definition bytes_any (p : ascii -> bool) (s : string) : bool := negb (bytes_all (fun c => negb (p c)) s).

Definition check_artifact (artifact : ArtifactDigest) : unit + UpdaterError :=
  if is_empty (ad_name artifact) then inr (InvalidMetadata "artifact name must be non-empty")
  else if bool_decide (String.length (ad_sha256_hex artifact) <> 64%nat)
          || negb (bytes_all is_ascii_hexdigit (ad_sha256_hex artifact)) then
    inr (InvalidMetadata ("artifact `" +:+ ad_name artifact +:+ "` digest must be 64 lower-hex chars"))
  else if bytes_any is_ascii_uppercase (ad_sha256_hex artifact) then
    inr (InvalidMetadata ("artifact `" +:+ ad_name artifact +:+ "` digest must be lower-hex"))
  else inl tt.

Definition canonical_of (metadata : ReleaseMetadata) : CanonicalMetadata :=
  {| cm_sequence := rm_sequence metadata;
     cm_platform := rm_platform metadata;
     cm_artifacts := rm_artifacts metadata;
     cm_not_before := rm_not_before metadata;
     cm_not_after := rm_not_after metadata;
     cm_recovery := rm_recovery metadata;
     cm_protocol_version := rm_protocol_version metadata;
     cm_min_updater_version := rm_min_updater_version metadata;
     cm_key_id := rm_key_id metadata |}.

Definition canonical_metadata_payload (metadata : ReleaseMetadata) : string + UpdaterError :=
  if is_empty (rm_platform metadata) then inr (InvalidMetadata "platform must be non-empty")
  else if is_empty (rm_key_id metadata) then inr (InvalidMetadata "key_id must be non-empty")
  else if is_empty (rm_min_updater_version metadata) then
    inr (InvalidMetadata "min_updater_version must be non-empty")
  else if decide (rm_not_after metadata < rm_not_before metadata)%Z then
    inr (InvalidMetadata "not_after must be >= not_before")
  else if decide (rm_artifacts metadata = []) then inr (InvalidMetadata "artifacts must be non-empty")
  else
    let? _ := try_each check_artifact (rm_artifacts metadata) in
    match canonical_to_vec (canonical_of metadata) with
    | inl json => inl (METADATA_DOMAIN +:+ String zero json)
    | inr error => inr (InvalidMetadata ("serialize canonical metadata: " +:+ error))
    end.

(** [version_cmp]'s [parse] *)
Definition version_parse (value : string) : list N + UpdaterError :=
  if is_empty value then inr (InvalidMetadata "version string must be non-empty") else
  try_map (fun part =>
    match parse_u64 part with
    | inl n => inl n
    | inr _ => inr (InvalidMetadata ("version `" +:+ value +:+ "` must be dotted numeric semver"))
    end) (split_char "."%char value).

(** [Vec::resize(len, 0)], here never to a shorter length, and [Vec]'s [Ord] *)
Definition resize (len : nat) (xs : list N) : list N := take len xs ++ replicate (len - length xs) 0%N.
Fixpoint vec_cmp (a b : list N) : comparison :=
  match a, b with
  | [], [] => Eq
  | [], _ :: _ => Lt
  | _ :: _, [] => Gt
  | x :: a, y :: b => match (x ?= y)%N with Eq => vec_cmp a b | o => o end
  end.

Definition version_cmp (left right : string) : comparison + UpdaterError :=
  let? a := version_parse left in
  let? b := version_parse right in
  let len := Nat.max (length a) (length b) in
  inl (vec_cmp (resize len a) (resize len b)).

Definition verify_release_metadata (metadata : ReleaseMetadata) (roots : list TrustRoot) (floor : N)
    (now_unix : Z) (host_platform : string) : VerifiedRelease + UpdaterError :=
  if decide (rm_protocol_version metadata <> SUPPORTED_PROTOCOL_VERSION) then
    inr (UnsupportedProtocol (rm_protocol_version metadata) SUPPORTED_PROTOCOL_VERSION)
  else
  let? order := version_cmp UPDATER_PACKAGE_VERSION (rm_min_updater_version metadata) in
  if decide (order = Lt) then inr (UpdaterTooOld UPDATER_PACKAGE_VERSION (rm_min_updater_version metadata))
  else if decide (rm_sequence metadata <= floor)%N then inr (NonIncreasingSequence (rm_sequence metadata) floor)
  else if decide (rm_platform metadata <> host_platform) then
    inr (PlatformMismatch (rm_platform metadata) host_platform)
  else if decide (now_unix < rm_not_before metadata)%Z then inr NotYetValid
  else if decide (rm_not_after metadata < now_unix)%Z then inr Expired
  else
    match find_first (fun root => tr_key_id root = rm_key_id metadata) roots with
    | None => inr (UnknownTrustRoot (rm_key_id metadata))
    | Some root =>
        match verifying_key_from_bytes (tr_verifying_key root) with
        | None => inr InvalidTrustRootKey
        | Some verifying_key =>
            let? payload := canonical_metadata_payload metadata in
            match signature_from_slice (rm_signature metadata) with
            | None => inr InvalidSignature
            | Some signature =>
                if verify verifying_key payload signature then
                  inl {| vr_sequence := rm_sequence metadata;
                         vr_platform := rm_platform metadata;
                         vr_artifacts := rm_artifacts metadata;
                         vr_recovery := rm_recovery metadata;
                         vr_protocol_version := rm_protocol_version metadata;
                         vr_min_updater_version := rm_min_updater_version metadata;
                         vr_key_id := rm_key_id metadata |}
                else inr InvalidSignature
            end
        end
    end.

Definition verify_artifact_bytes (verified : VerifiedRelease) (name bytes : string) : unit + UpdaterError :=
  match find_first (fun a => ad_name a = name) (vr_artifacts verified) with
  | None => inr (InvalidMetadata ("artifact `" +:+ name +:+ "` not present in verified release"))
  | Some expected =>
      if decide (ad_size expected <> N.of_nat (String.length bytes)) then inr (ArtifactDigestMismatch name)
      else if decide (hex_bytes (sha256_digest bytes) <> ad_sha256_hex expected) then
        inr (ArtifactDigestMismatch name)
      else inl tt
  end.

(** ** trust.rs *)

Definition hex_nibble (b : ascii) : N + UpdaterError :=
  if is_ascii_digit b then inl (byte_val b - 48)%N
  else if in_range 97 102 b then inl (byte_val b - 97 + 10)%N
  else inr InvalidTrustRootKey.

(** [hex.as_bytes().chunks(2)]: an odd last byte would be a chunk of its own, on which the source's
    [chunk[1]] panics; [decode_hex_key] only gets here with 64 bytes. *)
Fixpoint decode_pairs (hex : string) : string + UpdaterError :=
  match hex with
  | String a (String b hex) =>
      let? hi := hex_nibble a in
      let? lo := hex_nibble b in
      let? rest := decode_pairs hex in
      inl (String (ascii_of_N (N.lor (N.shiftl hi 4) lo)) rest)
  | _ => inl EmptyString
  end.

Definition decode_hex_key (hex : string) : string + UpdaterError :=
  if bool_decide (String.length hex <> 64%nat) || negb (bytes_all is_ascii_hexdigit hex) then inr InvalidTrustRootKey
  else if bytes_any is_ascii_uppercase hex then
    inr (InvalidMetadata "verifying_key_hex must be lower-hex")
  else decode_pairs hex.

(** [load_trust_roots] once the file is read *)
Definition parse_trust_roots (text : string) : list TrustRoot + UpdaterError :=
  match trust_roots_from_str text with
  | inr error => inr (InvalidMetadata ("parse trust roots: " +:+ error))
  | inl [] => inr (InvalidMetadata "trust roots file must list at least one root")
  | inl roots =>
      try_map (fun record =>
        if is_empty (trr_key_id record) then inr (InvalidMetadata "trust root key_id must be non-empty")
        else
          let? verifying_key := decode_hex_key (trr_verifying_key_hex record) in
          inl (mkTrustRoot (trr_key_id record) verifying_key)) roots
  end.

(** The text [write_trust_roots] writes *)
Definition trust_roots_text (roots : list TrustRoot) : string + UpdaterError :=
  match trust_roots_to_string_pretty
          ((fun root => mkTrustRootRecord (tr_key_id root) (hex_bytes (tr_verifying_key root))) <$> roots) with
  | inl json => inl (json +:+ String LF EmptyString)
  | inr error => inr (InvalidMetadata ("serialize trust roots: " +:+ error))
  end.

(** [std::str::from_utf8] of a chunk of two bytes, with the text of its error *)
Definition utf8_second (a b : ascii) : bool :=
  let a := byte_val a in
  if (a =? 0xE0)%N then in_range 0xA0 0xBF b
  else if (a =? 0xED)%N then in_range 0x80 0x9F b
  else if (a =? 0xF0)%N then in_range 0x90 0xBF b
  else if (a =? 0xF4)%N then in_range 0x80 0x8F b
  else in_range 0x80 0xBF b.
Definition from_utf8_pair (a b : ascii) : string + string :=
  let ascii := in_range 0 127 in
  if ascii a then
    if ascii b then inl (String a (String b EmptyString))
    else if in_range 0xC2 0xF4 b then inr "incomplete utf-8 byte sequence from index 1"
    else inr "invalid utf-8 sequence of 1 bytes from index 1"
  else if in_range 0xC2 0xDF a && utf8_second a b then inl (String a (String b EmptyString))
  else if in_range 0xE0 0xF4 a && utf8_second a b then inr "incomplete utf-8 byte sequence from index 0"
  else inr "invalid utf-8 sequence of 1 bytes from index 0".

(** cli.rs: [parse_trust_root]; its chunks are read by [u8::from_str_radix(.., 16)]. *)
Fixpoint parse_pairs (key_id hex : string) : string + string :=
  match hex with
  | String a (String b hex) =>
      let? text := from_utf8_pair a b in
      match from_str_radix 8 16 text with
      | inr e => inr ("invalid hex in key `" +:+ key_id +:+ "`: " +:+ parse_int_error_text e)
      | inl v => let? rest := parse_pairs key_id hex in inl (String (ascii_of_N v) rest)
      end
  | _ => inl EmptyString
  end.

Definition parse_trust_root (entry : string) : TrustRoot + string :=
  match split_once "="%char entry with
  | None => inr ("--root expects KEY_ID=HEX32, got `" +:+ entry +:+ "`")
  | Some (key_id, hex) =>
      if decide (String.length hex <> 64%nat) then
        inr ("verifying key for `" +:+ key_id +:+ "` must be 64 hex chars")
      else
        let? key := parse_pairs key_id hex in
        inl (mkTrustRoot key_id key)
  end.
End verify.
