(* ===== verification/UpdJournal.v ===== *)
(** * The updater: file system, activation journal, selector and lease

    The calls on files and directories, and journal.rs and lease.rs of hya-updater as tasks of file-system calls, one definition per
    function.  A lease is dropped by an [Unlock] where its owner goes out of scope. *)

From stdpp Require Import pretty.
From S2P Require Import Prelude Result RustStr Text Effects UpdMeta.

(** * The file system the updater works on

    Files by path with their contents, and directories.  One call of the program is one effect; any
    call may fail, a write that fails may have written a part, and a removal that fails may have
    removed a part.  What a process wrote stays when it is killed.  Files of the package and of the
    smoke command are outside: a read of them may answer anything.  No other program changes the
    updater's root, no symbolic links lead into it, and a [stat] of one of its paths does not fail. *)

(** [std::io::Error]: whether its kind is [NotFound], and its text *)
Record IoError := mkIoError {
  io_not_found : bool;
  io_text : string;
}.

(** [std::process::ExitStatus]: [success()] and its text *)
Record ExitStatus := mkExitStatus {
  es_success : bool;
  es_text : string;
}.

Inductive FsEff : Type -> Type :=
  (** [fs::read_to_string], and [fs::read] and [is_dir] on the package *)
  | ReadToString (p : Path) : FsEff (string + IoError)
  | ReadPackage (p : Path) : FsEff (string + IoError)
  | IsPackageDir (p : Path) : FsEff bool
  | PathExists (p : Path) : FsEff bool
  | IsFile (p : Path) : FsEff bool
  | CreateDirAll (p : Path) : FsEff (unit + IoError)
  (** [File::create]; [OpenOptions] that create without truncating, to append or to lock *)
  | CreateFile (p : Path) : FsEff (unit + IoError)
  | OpenFile (p : Path) : FsEff (unit + IoError)
  | WriteAll (p : Path) (bytes : string) : FsEff (unit + IoError)
  | SyncAll (p : Path) : FsEff (unit + IoError)
  | Rename (a b : Path) : FsEff (unit + IoError)
  | Metadata (p : Path) : FsEff (unit + IoError)
  | SetExecutable (p : Path) : FsEff (unit + IoError)
  | RemoveDirAll (p : Path) : FsEff (unit + IoError)
  (** [Command::new(p).args(..).current_dir(..).status()] *)
  | RunCommand (p : Path) (args : list string) (dir : Path) : FsEff (ExitStatus + IoError)
  | ProcessId : FsEff N
  (** nanoseconds since the epoch, 0 before it *)
  | Nanos : FsEff N.

Record Disk := mkDisk {
  d_files : gmap Path string;
  d_dirs : gset Path;
}.
#[export] Instance eta_disk : EtaRecord Disk :=
  fun d => {| d_files := d_files d; d_dirs := d_dirs d |}.

(** The directories from the top down to [p]. *)
Definition ancestors (p : Path) : gset Path := list_to_set ((fun n => take n p) <$> seq 0 (S (length p))).
#[global] Arguments ancestors : simpl never.

Definition exists_on (d : Disk) (p : Path) : Prop := is_Some (d_files d !! p) \/ p ∈ d_dirs d.
#[global] Instance exists_on_dec d p : Decision (exists_on d p) := _.

Definition parent_on (d : Disk) (p : Path) : Prop := match parent p with Some q => q ∈ d_dirs d | None => False end.

#[global] Instance parent_on_dec d p : Decision (parent_on d p).
Proof. unfold parent_on. destruct (parent p); apply _. Defined.

(** [p] is [base] or below it. *)
Definition below (base p : Path) : Prop := path_starts_with base p = true.
#[global] Instance below_dec base p : Decision (below base p) := decide (_ = true).

Definition append_to (p : Path) (bytes : string) (d : Disk) : Disk := d <| d_files ::= alter (fun c => c +:+ bytes) p |>.
Definition create_on (p : Path) (d : Disk) : Disk := d <| d_files ::= <[p := ""]> |>.
Definition open_on (p : Path) (d : Disk) : Disk :=
  match d_files d !! p with Some _ => d | None => create_on p d end.
Definition remove_on (p : Path) (d : Disk) : Disk :=
  mkDisk (filter (fun '(q, _) => ~ below p q) (d_files d)) (filter (fun q => ~ below p q) (d_dirs d)).

(** [d'] is [d] without some of what is below [p]. *)
Definition partly_removed (p : Path) (d d' : Disk) : Prop :=
  d_files d' ⊆ d_files d /\ d_dirs d' ⊆ d_dirs d
  /\ (forall q, ~ below p q -> d_files d' !! q = d_files d !! q /\ (q ∈ d_dirs d -> q ∈ d_dirs d')).

Definition fails {A} (r : A + IoError) : Prop := match r with inl _ => False | inr _ => True end.

(** What a call may answer, and the disk after it. *)
Definition fs_step X (e : FsEff X) (d : Disk) (x : X) (d' : Disk) : Prop :=
  match e in FsEff X return X -> Prop with
  | ReadToString p => fun r =>
      d' = d /\ match r with
                | inl text => d_files d !! p = Some text
                | inr e => io_not_found e = true -> d_files d !! p = None
                end
  | ReadPackage _ => fun _ => d' = d
  | IsPackageDir _ => fun _ => d' = d
  | PathExists p => fun b => d' = d /\ b = bool_decide (exists_on d p)
  | IsFile p => fun b => d' = d /\ b = bool_decide (is_Some (d_files d !! p))
  | CreateDirAll p => fun r =>
      d_files d' = d_files d
      /\ match r with
         | inl _ => d_dirs d' = d_dirs d ∪ ancestors p
         | inr _ => d_dirs d ⊆ d_dirs d' /\ d_dirs d' ⊆ d_dirs d ∪ ancestors p
         end
  | CreateFile p => fun r => fails r /\ d' = d \/ r = inl tt /\ parent_on d p /\ p ∉ d_dirs d /\ d' = create_on p d
  | OpenFile p => fun r => fails r /\ d' = d \/ r = inl tt /\ parent_on d p /\ p ∉ d_dirs d /\ d' = open_on p d
  | WriteAll p bytes => fun r =>
      match r with
      | inl _ => d' = append_to p bytes d
      | inr _ => exists written rest, bytes = written +:+ rest /\ d' = append_to p written d
      end
  | SyncAll _ => fun _ => d' = d
  | Rename a b => fun r =>
      fails r /\ d' = d
      \/ r = inl tt /\ exists text, d_files d !! a = Some text /\ b ∉ d_dirs d
         /\ d' = d <| d_files := <[b := text]> (delete a (d_files d)) |>
  | Metadata _ => fun _ => d' = d
  | SetExecutable _ => fun _ => d' = d
  | RemoveDirAll p => fun r =>
      match r with inl _ => d' = remove_on p d | inr _ => partly_removed p d d' end
  | RunCommand _ _ _ => fun _ => d' = d
  | ProcessId => fun _ => d' = d
  | Nanos => fun _ => d' = d
  end x.

(** A disk that answers every call, with no process but the caller. *)
Definition missing : IoError := mkIoError true "No such file or directory (os error 2)".
Definition fs_do X (e : FsEff X) (d : Disk) : X * Disk :=
  let open p d' : (unit + IoError) * Disk :=
    if decide (parent_on d p /\ p ∉ d_dirs d) then (inl tt, d') else (inr missing, d) in
  match e in FsEff X return X * Disk with
  | ReadToString p => (match d_files d !! p with Some text => inl text | None => inr missing end, d)
  | ReadPackage p => (match d_files d !! p with Some text => inl text | None => inr missing end, d)
  | IsPackageDir p => (bool_decide (p ∈ d_dirs d), d)
  | PathExists p => (bool_decide (exists_on d p), d)
  | IsFile p => (bool_decide (is_Some (d_files d !! p)), d)
  | CreateDirAll p => (inl tt, mkDisk (d_files d) (d_dirs d ∪ ancestors p))
  | CreateFile p => open p (create_on p d)
  | OpenFile p => open p (open_on p d)
  | WriteAll p bytes => (inl tt, append_to p bytes d)
  | SyncAll _ => (inl tt, d)
  | Rename a b =>
      match d_files d !! a with
      | Some text => if decide (b ∈ d_dirs d) then (inr missing, d) else
                     (inl tt, d <| d_files := <[b := text]> (delete a (d_files d)) |>)
      | None => (inr missing, d)
      end
  | Metadata _ => (inl tt, d)
  | SetExecutable _ => (inl tt, d)
  | RemoveDirAll p => (inl tt, remove_on p d)
  | RunCommand _ _ _ => (inl (mkExitStatus true "exit status: 0"), d)
  | ProcessId => (7%N, d)
  | Nanos => (1%N, d)
  end.


Lemma fs_do_step X (e : FsEff X) d : fs_step X e d (fs_do X e d).1 (fs_do X e d).2.
Proof.
  destruct e; simpl; try done.
  - split; [done|]. by destruct (d_files d !! p).
  - case_decide as Hp; simpl; [destruct Hp|]; auto.
  - case_decide as Hp; simpl; [destruct Hp|]; auto.
  - destruct (d_files d !! a) as [text|] eqn:Ha; simpl; [|auto]. case_decide; simpl; [auto|]. right. eauto.
Qed.

(** * Journal, selector and lease *)

(** The calls of the updater: the file system, [flock] with [LOCK_EX | LOCK_NB] on the lease (whether
    it returned 0), the release of the lease, and the clock of the retry window. *)
Inductive UpdEff : Type -> Type :=
  | Fs {X} (e : FsEff X) : UpdEff X
  | Flock : UpdEff bool
  | Unlock : UpdEff unit
  | PastDeadline : UpdEff bool
  | Sleep : UpdEff unit.

Abbreviation UTask A := (Task UpdEff A).
Abbreviation UResult A := (Task UpdEff (A + UpdaterError)%type).

Definition fs {X} (e : FsEff X) : UTask X := call (Fs e).

(** [.map_err(|e| UpdaterError::InvalidMetadata(format!("{label}: {e}")))] *)
Definition invalid (label text : string) : UpdaterError := InvalidMetadata (label +:+ ": " +:+ text).
Definition fs_or {A} (label : string) (e : FsEff (A + IoError)%type) : UResult A :=
  map_error (fun e => invalid label (io_text e)) (fs e).
Definition or_invalid {A} (label : string) (r : A + string) : UResult A :=
  Ret (match r with inl a => inl a | inr e => inr (invalid label e) end).

Module ActivationPhase.
Inductive t := Prepare | Committed | Aborted.
End ActivationPhase.
#[export] Instance phase_eq_dec : EqDecision ActivationPhase.t.
Proof. solve_decision. Defined.

Record ActivationJournalRecord := mkActivationJournalRecord {
  jr_phase : ActivationPhase.t;
  jr_sequence : N;
  jr_previous_sequence : N;
  jr_owner_token : string;
  jr_generation : N;
}.

Record ActivationSelector := mkActivationSelector {
  as_current_sequence : N;
  as_accepted_floor : N;
  as_generation : N;
}.

Record ActivationAuthorization := mkActivationAuthorization {
  aa_candidate_sequence : N;
  aa_expected_generation : N;
  aa_owner_token : string;
}.
#[export] Instance authorization_eq_dec : EqDecision ActivationAuthorization.
Proof. solve_decision. Defined.

(** serde_json on journal records and authorizations; errors as texts. *)
Class JournalLib := {
  record_to_string : ActivationJournalRecord -> string + string;
  record_from_str : string -> ActivationJournalRecord + string;
  authorization_to_vec : ActivationAuthorization -> string + string;
  authorization_from_str : string -> ActivationAuthorization + string;
}.

Section journal.
Context `{JL : JournalLib}.

(** ** journal.rs *)

Definition journal_path (root : Path) : Path := ul_journal (layout root).
Definition selector_path (root : Path) : Path := ul_selector (layout root).
Definition floor_path (root : Path) : Path := ul_accepted_floor (layout root).

(** A file that holds one number; without the file it is 0. *)
Definition read_number (p : Path) (parse_label read_label : string) : UResult N :=
  let* r := fs (ReadToString p) in
  Ret (match r with
       | inl text =>
           match parse_u64 (trim text) with
           | inl n => inl n
           | inr e => inr (invalid parse_label (parse_int_error_text e))
           end
       | inr e => if io_not_found e then inl 0%N else inr (invalid read_label (io_text e))
       end).

Definition read_floor (root : Path) : UResult N :=
  read_number (floor_path root) "accepted floor parse" "read accepted floor".

Definition read_selector (root : Path) : UResult ActivationSelector :=
  let! current := read_number (selector_path root) "selector parse" "read selector" in
  let! floor := read_floor root in
  let! generation := read_number (ul_generation (layout root)) "generation parse" "read generation" in
  Ret (inl (mkActivationSelector current floor generation)).

(** A file replaced by a temporary one that holds [n] on a line. *)
Definition replace_number (tmp p : Path) (label : string) (n : N) : UResult unit :=
  let! _ := fs_or ("create " +:+ label +:+ " temp") (CreateFile tmp) in
  let! _ := fs_or ("write " +:+ label +:+ " temp") (WriteAll tmp (pretty n +:+ String LF EmptyString)) in
  let! _ := fs_or ("fsync " +:+ label +:+ " temp") (SyncAll tmp) in
  fs_or ("atomic " +:+ label +:+ " rename") (Rename tmp p).

Definition write_floor (root : Path) (sequence : N) : UResult unit :=
  replace_number (join root "accepted_floor.tmp") (floor_path root) "floor" sequence.

Definition write_generation (root : Path) (generation : N) : UResult unit :=
  replace_number (join root "generation.tmp") (ul_generation (layout root)) "generation" generation.

(** The last record of a journal's text *)
Definition journal_line (last : option ActivationJournalRecord) (line : string)
    : option ActivationJournalRecord + UpdaterError :=
  let line := trim line in
  if is_empty line then inl last else
  match record_from_str line with
  | inl record => inl (Some record)
  | inr e => inr (invalid "parse journal record" e)
  end.
Definition parse_journal (text : string) : option ActivationJournalRecord + UpdaterError :=
  try_fold journal_line None (lines text).

Definition read_last_journal_record (root : Path) : UResult (option ActivationJournalRecord) :=
  let* r := fs (ReadToString (journal_path root)) in
  Ret (match r with
       | inl text => parse_journal text
       | inr e => if io_not_found e then inl None else inr (invalid "read journal" (io_text e))
       end).

(** [if let Some(parent) = p.parent() { fs::create_dir_all(parent)? }] *)
Definition create_parent (p : Path) (label : string) : UResult unit :=
  match parent p with
  | Some parent => fs_or label (CreateDirAll parent)
  | None => Ret (inl tt)
  end.

(** [writeln!] on a file writes the line and the line feed one after the other. *)
Definition write_journal (root : Path) (record : ActivationJournalRecord) : UResult unit :=
  let! _ := create_parent (journal_path root) "create journal parent" in
  let! _ := fs_or "open journal" (OpenFile (journal_path root)) in
  let! line := or_invalid "serialize journal record" (record_to_string record) in
  let! _ := fs_or "write journal" (WriteAll (journal_path root) line) in
  let! _ := fs_or "write journal" (WriteAll (journal_path root) (String LF EmptyString)) in
  fs_or "fsync journal" (SyncAll (journal_path root)).

Definition journal_prepare_owned (root : Path) (sequence previous_sequence : N) (owner_token : string)
    (generation : N) : UResult unit :=
  write_journal root
    {| jr_phase := ActivationPhase.Prepare;
       jr_sequence := sequence;
       jr_previous_sequence := previous_sequence;
       jr_owner_token := owner_token;
       jr_generation := generation |}.

(** [generation.checked_add(1).ok_or(StaleOwnerGeneration)] *)
Definition next_generation (generation : N) : N + UpdaterError :=
  if decide (generation + 1 <= u64_max)%N then inl (generation + 1)%N else inr StaleOwnerGeneration.

Definition commit_activation_unlocked (root : Path) (sequence previous_generation : N) : UResult ActivationSelector :=
  let! previous_selector := read_selector root in
  if decide (as_generation previous_selector <> previous_generation) then Ret (inr StaleOwnerGeneration) else
  let! generation := Ret (next_generation previous_generation) in
  let previous := as_current_sequence previous_selector in
  let previous_floor := as_accepted_floor previous_selector in
  if decide (sequence <= previous_floor)%N then Ret (inr (NonIncreasingSequence sequence previous_floor)) else
  let! _ := create_parent (selector_path root) "create selector parent" in
  let! _ := replace_number (join root "current.tmp") (selector_path root) "selector" sequence in
  let! _ := write_floor root sequence in
  let! _ := write_generation root generation in
  let! owner := read_last_journal_record root in
  let! _ := write_journal root
    {| jr_phase := ActivationPhase.Committed;
       jr_sequence := sequence;
       jr_previous_sequence := previous;
       jr_owner_token := default "" (jr_owner_token <$> owner);
       jr_generation := generation |} in
  Ret (inl (mkActivationSelector sequence sequence generation)).

Definition commit_activation_owned (root : Path) (sequence : N) (owner_token : string) (generation : N)
    : UResult ActivationSelector :=
  let! last := read_last_journal_record root in
  match last with
  | None => Ret (inr StaleOwnerGeneration)
  | Some last =>
      if decide (jr_phase last <> ActivationPhase.Prepare \/ jr_sequence last <> sequence
                 \/ jr_owner_token last <> owner_token \/ jr_generation last <> generation) then
        Ret (inr StaleOwnerGeneration)
      else commit_activation_unlocked root sequence generation
  end.

Definition with_phase (phase : ActivationPhase.t) (last : ActivationJournalRecord) (generation : N) : ActivationJournalRecord :=
  {| jr_phase := phase;
     jr_sequence := jr_sequence last;
     jr_previous_sequence := jr_previous_sequence last;
     jr_owner_token := jr_owner_token last;
     jr_generation := generation |}.

Definition recover_activation_locked (root : Path) : UResult ActivationSelector :=
  let! selector := read_selector root in
  let! last := read_last_journal_record root in
  match last with
  | None => Ret (inl selector)
  | Some last =>
      match jr_phase last with
      | ActivationPhase.Committed | ActivationPhase.Aborted => Ret (inl selector)
      | ActivationPhase.Prepare =>
          if decide (as_current_sequence selector = jr_sequence last) then
            let! _ := (if decide (as_accepted_floor selector < jr_sequence last)%N
                       then write_floor root (jr_sequence last) else Ret (inl tt)) in
            let! generation := Ret (next_generation (jr_generation last)) in
            let! _ := write_generation root generation in
            let! _ := write_journal root (with_phase ActivationPhase.Committed last generation) in
            Ret (inl (mkActivationSelector (jr_sequence last)
                        (N.max (jr_sequence last) (as_accepted_floor selector)) generation))
          else
            let! _ := write_journal root (with_phase ActivationPhase.Aborted last (jr_generation last)) in
            Ret (inl selector)
      end
  end.

(** ** lease.rs *)

(** The bounded retry of a busy lease *)
Definition lock_round (_ : unit) : UTask (unit + (unit + UpdaterError)) :=
  let* locked := call Flock in
  if locked : bool then Ret (inr (inl tt)) else
  let* late := call PastDeadline in
  if late : bool then Ret (inr (inr (LeaseUnavailable "updater root is already owned"))) else
  let* _ := call Sleep in
  Ret (inl tt).

Definition acquire_file (root : Path) : UResult unit :=
  let! _ := fs_or "create updater root" (CreateDirAll root) in
  let! _ := map_error (fun e => LeaseUnavailable ("open updater lease: " +:+ io_text e))
              (fs (OpenFile (ul_lease (layout root)))) in
  Iter lock_round tt Ret.

(** [let _lease = acquire(root)?; body] *)
Definition with_lease {A} (root : Path) (body : UResult A) : UResult A :=
  let! _ := acquire_file root in
  let* r := body in
  let* _ := call Unlock in
  Ret r.

Definition recover_activation (root : Path) : UResult ActivationSelector :=
  with_lease root (recover_activation_locked root).

(** [UpdaterOwner]: the token; its lease is the one that is held. *)
Definition owner_token : UTask string :=
  let* id := fs ProcessId in
  let* nonce := fs Nanos in
  Ret (pretty id +:+ "-" +:+ pretty nonce).

Definition persist_issuance (root : Path) (authorization : ActivationAuthorization) : UResult unit :=
  let! body := or_invalid "serialize authorization" (authorization_to_vec authorization) in
  let! _ := fs_or "write authorization" (CreateFile (ul_authorization (layout root))) in
  fs_or "write authorization" (WriteAll (ul_authorization (layout root)) body).

Definition read_issuance (root : Path) : UResult (option ActivationAuthorization) :=
  let* r := fs (ReadToString (ul_authorization (layout root))) in
  Ret (match r with
       | inl text =>
           match authorization_from_str text with
           | inl a => inl (Some a)
           | inr e => inr (invalid "parse authorization" e)
           end
       | inr e => if io_not_found e then inl None else inr (invalid "read authorization" (io_text e))
       end).

Definition authorize (token : string) (root : Path) (candidate_sequence expected_generation : N)
    : UResult ActivationAuthorization :=
  let! current := read_selector root in
  if decide (as_generation current <> expected_generation) then Ret (inr StaleOwnerGeneration) else
  let authorization := mkActivationAuthorization candidate_sequence expected_generation token in
  let! _ := persist_issuance root authorization in
  Ret (inl authorization).

Definition write_authorization (token : string) (path : Path) (authorization : ActivationAuthorization) : UResult unit :=
  if decide (aa_owner_token authorization <> token) then Ret (inr StaleOwnerGeneration) else
  let! body := or_invalid "serialize authorization" (authorization_to_vec authorization) in
  let! _ := fs_or "create authorization" (CreateFile path) in
  let! _ := fs_or "write authorization" (WriteAll path body) in
  fs_or "sync authorization" (SyncAll path).

Definition prepare_activation (token : string) (root : Path) (authorization : ActivationAuthorization)
    (previous_sequence : N) : UResult unit :=
  if decide (aa_owner_token authorization <> token) then Ret (inr StaleOwnerGeneration) else
  journal_prepare_owned root (aa_candidate_sequence authorization) previous_sequence
    (aa_owner_token authorization) (aa_expected_generation authorization).

Definition commit_activation (token : string) (root : Path) (authorization : ActivationAuthorization)
    : UResult ActivationSelector :=
  if decide (aa_owner_token authorization <> token) then Ret (inr StaleOwnerGeneration) else
  commit_activation_owned root (aa_candidate_sequence authorization) (aa_owner_token authorization)
    (aa_expected_generation authorization).
End journal.
