(* ===== verification/Updater.v ===== *)
(** * The updater: packages, staging, smoke test and the pipeline

    fetch.rs, stage.rs, smoke.rs, pipeline.rs, the tasks of trust.rs and layout.rs, and the commands of
    cli.rs that work on an updater root.  The mode a staged artifact gets is not part of [Disk]. *)

From stdpp Require Import pretty.
From S2P Require Import Prelude RustStr Text Result Effects UpdMeta UpdJournal.

Section pipeline.
Context `{C : UpdateLib} `{JL : JournalLib}.

(** layout.rs: [assert_no_session_or_secret_reads] *)
Definition assert_no_session_or_secret_reads (root : Path) : UResult unit :=
  each_task (fun name =>
    let path := join root name in
    let* found := fs (PathExists path) in
    if found : bool then
      Ret (inr (OwnershipViolation ("updater root must not contain runtime secret/session path `" +:+ display path +:+ "`")))
    else Ret (inl tt)) forbidden_names.

(** ** trust.rs *)

Definition load_trust_roots (path : Path) : UResult (list TrustRoot) :=
  let! text := fs_or ("read trust roots " +:+ display path) (ReadToString path) in
  Ret (parse_trust_roots text).

Definition write_trust_roots (path : Path) (roots : list TrustRoot) : UResult unit :=
  let! text := Ret (trust_roots_text roots) in
  let! _ := create_parent path "create trust roots parent" in
  let! _ := fs_or "write trust roots" (CreateFile path) in
  fs_or "write trust roots" (WriteAll path text).

(** ** fetch.rs *)

Definition resolve_package_source (source : string) : Path + UpdaterError :=
  if is_empty source then inr (InvalidMetadata "package source must be non-empty") else
  match strip_prefix "file://" source with
  | Some rest => if is_empty rest then inr (InvalidMetadata "file:// URL must include a path") else inl (path_from rest)
  | None =>
      if contains_str "://" source then
        inr (InvalidMetadata ("package source `" +:+ source +:+
          "` uses an unsupported scheme; download outside the TCB and pass a local path or file:// URL"))
      else inl (path_from source)
  end.

(** [name.split(['/', '\\']).any(|part| part == "..")] *)
Definition BACKSLASH : ascii := "\"%char.
Definition has_parent_part (name : string) : bool :=
  existsb (fun part => existsb (fun part => bool_decide (part = "..")) (split_char BACKSLASH part)) (split_char SLASH name).

(** The guard that both fetching and staging have. *)
Definition check_artifact_name (name : string) : unit + UpdaterError :=
  if is_empty name || starts_with "/" name || starts_with (String BACKSLASH "") name || has_parent_part name then
    inr (InvalidMetadata ("artifact name `" +:+ name +:+ "` must be a relative path without `..`"))
  else inl tt.

Record FetchedArtifact := mkFetchedArtifact {
  fa_name : string;
  fa_bytes : string;
}.

Definition fetch_artifact (package_dir : Path) (out : list FetchedArtifact) (artifact : ArtifactDigest)
    : UResult (list FetchedArtifact) :=
  let name := ad_name artifact in
  let! _ := Ret (check_artifact_name name) in
  let path := join package_dir name in
  let! bytes := fs_or ("read package artifact `" +:+ name +:+ "` (" +:+ display path +:+ ")") (ReadPackage path) in
  Ret (inl (out ++ [mkFetchedArtifact name bytes])).

Definition fetch_artifacts_from_dir (package_dir : Path) (verified : VerifiedRelease) : UResult (list FetchedArtifact) :=
  let* is_dir := fs (IsPackageDir package_dir) in
  if is_dir : bool then fold_task (fetch_artifact package_dir) [] (vr_artifacts verified)
  else Ret (inr (InvalidMetadata ("package directory missing: " +:+ display package_dir))).

(** ** stage.rs *)

Record StagedRelease := mkStagedRelease {
  sr_sequence : N;
  sr_root : Path;
}.
Definition staged_directory (staged : StagedRelease) : Path := release_directory (sr_root staged) (sr_sequence staged).

Definition stage_artifact (verified : VerifiedRelease) (dir : Path) (artifact : string * string) : UResult unit :=
  let '(name, bytes) := artifact in
  let about label := label +:+ " `" +:+ name +:+ "`" in
  let! _ := Ret (check_artifact_name name) in
  let! _ := Ret (verify_artifact_bytes verified name bytes) in
  let path := join dir name in
  let* found := fs (PathExists path) in
  if found : bool then Ret (inr (InvalidMetadata ("artifact `" +:+ name +:+ "` already present in stage"))) else
  let! _ := create_parent path (about "create artifact parent for") in
  let! _ := fs_or (about "create artifact") (CreateFile path) in
  let! _ := fs_or (about "write artifact") (WriteAll path bytes) in
  let! _ := fs_or (about "fsync artifact") (SyncAll path) in
  let! _ := fs_or (about "stat artifact" +:+ " for mode") (Metadata path) in
  fs_or ("set executable mode on artifact `" +:+ name +:+ "`") (SetExecutable path).

(** The completeness check at the end *)
Definition check_staged (dir : Path) (expected : ArtifactDigest) : UResult unit :=
  let* found := fs (IsFile (join dir (ad_name expected))) in
  if found : bool then Ret (inl tt) else Ret (inr (InvalidMetadata ("missing staged artifact `" +:+ ad_name expected +:+ "`"))).

Definition stage_verified_release (root : Path) (verified : VerifiedRelease) (artifacts : list (string * string))
    : UResult StagedRelease :=
  let! _ := Ret (assert_tcb_outside_candidate root (vr_sequence verified)) in
  if decide (length artifacts <> length (vr_artifacts verified)) then
    Ret (inr (InvalidMetadata "staged artifact count must match verified release"))
  else
    let staged := mkStagedRelease (vr_sequence verified) root in
    let dir := staged_directory staged in
    let* found := fs (PathExists dir) in
    if found : bool then
      Ret (inr (InvalidMetadata ("release sequence " +:+ pretty (vr_sequence verified) +:+ " already staged")))
    else
      let! _ := fs_or "create stage directory" (CreateDirAll dir) in
      let! _ := each_task (stage_artifact verified dir) artifacts in
      let! _ := each_task (check_staged dir) (vr_artifacts verified) in
      Ret (inl staged).

(** ** smoke.rs *)

Definition smoke_staged_release (staged : StagedRelease) (relative_command : string) (args : list string) : UResult unit :=
  if is_empty relative_command then Ret (inr (SmokeFailed "smoke command must be non-empty"))
  else if is_absolute relative_command || has_parent_part relative_command then
    Ret (inr (SmokeFailed "smoke command must be a relative path without `..`"))
  else
    let dir := staged_directory staged in
    let command_path := join dir relative_command in
    let* found := fs (IsFile command_path) in
    if found : bool then
      let! status := map_error (fun e => SmokeFailed ("spawn smoke `" +:+ display command_path +:+ "`: " +:+ io_text e))
                       (fs (RunCommand command_path args dir)) in
      if es_success status then Ret (inl tt)
      else Ret (inr (SmokeFailed ("smoke exited with " +:+ es_text status)))
    else Ret (inr (SmokeFailed ("smoke binary missing: " +:+ display command_path))).

(** ** pipeline.rs *)

Record ApplyOptions := mkApplyOptions {
  ao_metadata : ReleaseMetadata;
  ao_package_source : string;
  ao_trust_roots : option (list TrustRoot);
  ao_host_platform : string;
  ao_now_unix : Z;
  ao_smoke_command : option string;
  ao_smoke_args : list string;
  ao_activation : option ActivationAuthorization;
}.

Record ApplyResult := mkApplyResult {
  ar_verified : VerifiedRelease;
  ar_staged : StagedRelease;
  ar_activated : option ActivationSelector;
  ar_recovered_before : ActivationSelector;
}.

(** The authorization has to be the issued one, for this candidate and the present generation. *)
Definition check_issuance (root : Path) (options : ApplyOptions) (recovered_before : ActivationSelector) : UResult unit :=
  match ao_activation options with
  | None => Ret (inl tt)
  | Some auth =>
      let! issued := read_issuance root in
      if decide (issued <> Some auth \/ aa_candidate_sequence auth <> rm_sequence (ao_metadata options)
                 \/ aa_expected_generation auth <> as_generation recovered_before) then
        Ret (inr StaleOwnerGeneration)
      else Ret (inl tt)
  end.

Definition activate (root : Path) (verified : VerifiedRelease) (auth : ActivationAuthorization) : UResult ActivationSelector :=
  let! previous := read_selector root in
  if decide (as_generation previous <> aa_expected_generation auth) then Ret (inr StaleOwnerGeneration) else
  let! _ := journal_prepare_owned root (vr_sequence verified) (as_current_sequence previous) (aa_owner_token auth)
              (aa_expected_generation auth) in
  commit_activation_owned root (vr_sequence verified) (aa_owner_token auth) (aa_expected_generation auth).

Definition try_some {A B} (f : A -> UResult B) (x : option A) : UResult (option B) :=
  match x with
  | Some x => let! y := f x in Ret (inl (Some y))
  | None => Ret (inl None)
  end.

(** [apply_update] from the moment the lease is held *)
Definition apply_locked (root : Path) (options : ApplyOptions) : UResult ApplyResult :=
  let! recovered_before := recover_activation_locked root in
  let! _ := check_issuance root options recovered_before in
  let! roots := match ao_trust_roots options with
                | Some roots => Ret (inl roots)
                | None => load_trust_roots (ul_trust_roots (layout root))
                end in
  let! verified := Ret (verify_release_metadata (ao_metadata options) roots (as_accepted_floor recovered_before)
                          (ao_now_unix options) (ao_host_platform options)) in
  let! _ := Ret (assert_tcb_outside_candidate root (vr_sequence verified)) in
  let! package_dir := Ret (resolve_package_source (ao_package_source options)) in
  let! fetched := fetch_artifacts_from_dir package_dir verified in
  let artifacts := (fun item => (fa_name item, fa_bytes item)) <$> fetched in
  let! staged := stage_verified_release root verified artifacts in
  let! _ := try_some (fun command => smoke_staged_release staged command (ao_smoke_args options)) (ao_smoke_command options) in
  let! activated := try_some (activate root verified) (ao_activation options) in
  Ret (inl (mkApplyResult verified staged activated recovered_before)).

Definition apply_update (root : Path) (options : ApplyOptions) : UResult ApplyResult :=
  let! _ := assert_no_session_or_secret_reads root in
  with_lease root (apply_locked root options).

Definition discard_locked (root : Path) (sequence : N) : UResult unit :=
  let! selector := read_selector root in
  if decide (sequence = 0%N) then Ret (inr (InvalidMetadata "cannot discard sequence 0"))
  else if decide (sequence = as_current_sequence selector) then
    Ret (inr (InvalidMetadata ("cannot discard currently selected sequence " +:+ pretty sequence)))
  else if decide (sequence <= as_accepted_floor selector)%N then
    Ret (inr (InvalidMetadata ("cannot discard sequence " +:+ pretty sequence +:+ " at or below accepted floor "
           +:+ pretty (as_accepted_floor selector))))
  else
    let dir := release_directory root sequence in
    let* found := fs (PathExists dir) in
    if found : bool then fs_or ("discard staged release " +:+ display dir) (RemoveDirAll dir)
    else Ret (inr (InvalidMetadata ("staged release " +:+ pretty sequence +:+ " not found"))).

Definition discard_staged_release (root : Path) (sequence : N) : UResult unit :=
  with_lease root (discard_locked root sequence).

(** ** cli.rs *)

(** [UpdateCommand::Authorize] once the confirmation is there: the generation is read before the lease
    is taken. *)
Definition run_authorize (root : Path) (sequence : N) (out : Path) : UResult ActivationAuthorization :=
  let! selector := read_selector root in
  let generation := as_generation selector in
  with_lease root (
    let* token := owner_token in
    let! authorization := authorize token root sequence generation in
    let! _ := write_authorization token out authorization in
    Ret (inl authorization)).
End pipeline.
