(* ===== verification/UpdSpec.v ===== *)
(** * What release verification and trust roots promise

    Versions compare as their numbers, padded with zeros; a release is accepted exactly when every
    check holds, a refusal names a check that fails, and what is signed determines the whole metadata;
    trust roots are read back as they were written. *)

From stdpp Require Import pretty.
From S2P Require Import Prelude RustStr Text Result UpdMeta.

(** ** Versions *)

(** The number at a place of a version; places after the last hold 0. *)
Definition place (a : list N) (i : nat) : N := default 0%N (a !! i).

(** [a] is older than [b]: it is smaller at the first place where they differ. *)
Definition older (a b : list N) : Prop :=
  exists i, (forall j, j < i -> place a j = place b j) /\ (place a i < place b i)%N.

Lemma place_resize n a i : length a <= n -> place (resize n a) i = place a i.
Proof.
  intros Hn. unfold place, resize. rewrite take_ge by done. destruct (decide (i < length a)) as [Hi|Hi].
  - by rewrite lookup_app_l.
  - rewrite lookup_app_r by lia. rewrite (lookup_ge_None_2 a) by lia. simpl.
    destruct (decide (i - length a < n - length a)).
    + by rewrite lookup_replicate_2.
    + by rewrite lookup_ge_None_2 by (rewrite length_replicate; lia).
Qed.

Lemma older_cons x y a b : older (x :: a) (y :: b) <-> (x < y)%N \/ x = y /\ older a b.
Proof.
  split.
  - intros ([|i] & Heq & Hlt); [by left|]. right. pose proof (Heq 0 ltac:(lia)) as H0. split; [done|].
    exists i. split; [|done]. intros j Hj. apply (Heq (S j)). lia.
  - intros [Hlt|(-> & i & Heq & Hlt)].
    + exists 0. split; [lia|done].
    + exists (S i). split; [|done]. intros [|j] Hj; [done|]. apply Heq. lia.
Qed.

Lemma vec_cmp_order a b : length a = length b ->
  match vec_cmp a b with
  | Lt => older a b
  | Gt => older b a
  | Eq => a = b
  end.
Proof.
  revert b. induction a as [|x a IH]; intros [|y b] Hlen; try done. simpl in *. specialize (IH b ltac:(lia)).
  destruct (N.compare_spec x y) as [-> |Hlt|Hgt].
  - destruct (vec_cmp a b); [by subst|rewrite older_cons; by right..].
  - rewrite older_cons. by left.
  - rewrite older_cons. by left.
Qed.

Lemma older_irrefl a b : (forall i, place a i = place b i) -> ~ older a b.
Proof. intros Heq (i & _ & Hlt). rewrite Heq in Hlt. lia. Qed.

Lemma older_asym a b : older a b -> ~ older b a.
Proof.
  intros (i & Hi & Hlt) (j & Hj & Hgt). destruct (decide (i < j)) as [Hij|Hij].
  - rewrite (Hj i Hij) in Hlt. lia.
  - destruct (decide (j < i)) as [Hji|Hji]; [rewrite (Hi j Hji) in Hgt; lia|].
    assert (i = j) as -> by lia. lia.
Qed.

Lemma older_resize n m a b : length a <= n -> length b <= m -> older (resize n a) (resize m b) <-> older a b.
Proof.
  intros Ha Hb. unfold older. apply exist_proper. intros i.
  rewrite (place_resize n a), (place_resize m b) by done. apply and_iff_compat_r, forall_proper. intros j.
  by rewrite (place_resize n a), (place_resize m b).
Qed.

Lemma length_resize n a : length (resize n a) = n.
Proof. unfold resize. rewrite length_app, length_take, length_replicate. lia. Qed.

(** [version_cmp] orders versions by their first different place. *)
Lemma version_cmp_exact left right o : version_cmp left right = inl o <->
  exists a b, version_parse left = inl a /\ version_parse right = inl b
  /\ match o with
     | Lt => older a b
     | Gt => older b a
     | Eq => forall i, place a i = place b i
     end.
Proof.
  unfold version_cmp.
  destruct (version_parse left) as [a|]; [|split; [done|naive_solver]].
  destruct (version_parse right) as [b|]; [|split; [done|naive_solver]].
  set (n := Nat.max (length a) (length b)).
  pose proof (vec_cmp_order (resize n a) (resize n b) ltac:(by rewrite !length_resize)) as Hv.
  assert (match vec_cmp (resize n a) (resize n b) with
          | Lt => older a b | Gt => older b a | Eq => forall i, place a i = place b i end) as Hc.
  { destruct (vec_cmp _ _); [|by rewrite older_resize in Hv by lia..].
    intros i. by rewrite <- (place_resize n a), <- (place_resize n b), Hv by lia. }
  clear Hv. cbv zeta. fold n. split.
  - intros [= <-]. by exists a, b.
  - intros (a' & b' & [= <-] & [= <-] & Ho). f_equal.
    assert (forall x y, older x y -> (forall i, place y i = place x i) -> False) as Hsym.
    { intros x y Hxy Heq. by apply (older_irrefl x y). }
    destruct (vec_cmp _ _), o; try done; exfalso;
      first [by eapply older_irrefl|by eapply Hsym|by eapply older_asym].
Qed.

(** ** Verification *)

(** What canonicalization of JSON and the trust-root file's format keep (serde_json). *)
Class UpdateLaws (C : UpdateLib) : Prop := {
  canonical_to_vec_inj m1 m2 bytes : canonical_to_vec m1 = inl bytes -> canonical_to_vec m2 = inl bytes -> m1 = m2;
  trust_roots_reread records text : trust_roots_to_string_pretty records = inl text ->
    trust_roots_from_str (text +:+ String LF EmptyString) = inl records;
}.

Section verify.
Context `{C : UpdateLib}.

Definition lower_hex (s : string) : Prop := bytes_all (fun c => is_ascii_digit c || in_range 97 102 c) s = true.

Definition artifact_ok (a : ArtifactDigest) : Prop :=
  ad_name a <> "" /\ String.length (ad_sha256_hex a) = 64 /\ lower_hex (ad_sha256_hex a).

Record metadata_ok (m : ReleaseMetadata) : Prop := {
  mo_platform : rm_platform m <> "";
  mo_key_id : rm_key_id m <> "";
  mo_version : rm_min_updater_version m <> "";
  mo_times : (rm_not_before m <= rm_not_after m)%Z;
  mo_artifacts : rm_artifacts m <> [];
  mo_each : Forall artifact_ok (rm_artifacts m);
}.

Lemma is_empty_spec s : is_empty s = true <-> s = "".
Proof. by destruct s. Qed.

Lemma lower_hex_spec s : bytes_all is_ascii_hexdigit s = true /\ bytes_any is_ascii_uppercase s = false <-> lower_hex s.
Proof.
  unfold lower_hex, bytes_any. rewrite negb_false_iff, <- andb_true_iff.
  assert (forall p q t, bytes_all p t && bytes_all q t = bytes_all (fun c => p c && q c) t) as ->.
  { intros p q t. induction t as [|c t IH]; simpl; [done|]. rewrite <- IH. destruct (p c), (q c); simpl; try done. by rewrite andb_false_r. }
  assert (forall p q t, (forall c, p c = q c) -> bytes_all p t = bytes_all q t) as Hext.
  { intros p q t Hpq. induction t as [|c t IH]; simpl; [done|]. by rewrite Hpq, IH. }
  erewrite Hext; [done|]. intros c. simpl. unfold is_ascii_hexdigit, is_ascii_digit, is_ascii_uppercase, in_range. lia.
Qed.

Lemma check_artifact_ok a : check_artifact a = inl tt <-> artifact_ok a.
Proof.
  unfold check_artifact, artifact_ok. rewrite <- lower_hex_spec.
  destruct (is_empty (ad_name a)) eqn:En; [apply is_empty_spec in En; split; [done|by intros [? _]]|].
  assert (ad_name a <> "") as Hn by (intros ?%is_empty_spec; congruence).
  case_bool_decide as Hlen; simpl; [split; [done|by intros (_ & ? & _)]|].
  destruct (bytes_all _ _); simpl; [|split; [done|by intros (_ & _ & ? & _)]].
  destruct (bytes_any _ _); [split; [done|by intros (_ & _ & _ & ?)]|]. split; [|done]. intros _.
  split_and!; [done|lia|done|done].
Qed.

(** The payload: the checks hold, and what is signed is the domain, a zero byte and the JSON of the body. *)
Lemma canonical_metadata_payload_exact m payload : canonical_metadata_payload m = inl payload <->
  metadata_ok m /\ exists json, canonical_to_vec (canonical_of m) = inl json
  /\ payload = METADATA_DOMAIN +:+ String zero json.
Proof.
  unfold canonical_metadata_payload.
  destruct (is_empty (rm_platform m)) eqn:E1; [apply is_empty_spec in E1; split; [done|by intros [[] _]]|].
  destruct (is_empty (rm_key_id m)) eqn:E2; [apply is_empty_spec in E2; split; [done|by intros [[] _]]|].
  destruct (is_empty (rm_min_updater_version m)) eqn:E3; [apply is_empty_spec in E3; split; [done|by intros [[] _]]|].
  case_decide as E4; [split; [done|]; intros [[] _]; lia|].
  case_decide as E5; [split; [done|by intros [[] _]]|].
  destruct (try_each check_artifact (rm_artifacts m)) as [[]|e] eqn:E6.
  - assert (metadata_ok m) as Hm.
    { apply try_each_ok in E6. constructor; try (intros ?%is_empty_spec; congruence); [lia|done|].
      eapply Forall_impl; [exact E6|]. intros a. apply check_artifact_ok. }
    destruct (canonical_to_vec _) as [json|e]; split; [intros [= <-]; eauto|by intros (_ & ? & [= <-] & ->)|done|by intros (_ & ? & ? & _)].
  - split; [done|]. intros [Hm _]. apply mo_each in Hm. exfalso.
    assert (try_each check_artifact (rm_artifacts m) = inl tt) as H; [|congruence].
    apply try_each_ok. eapply Forall_impl; [exact Hm|]. intros a. by apply check_artifact_ok.
Qed.

Definition verified_of (m : ReleaseMetadata) : VerifiedRelease :=
  {| vr_sequence := rm_sequence m;
     vr_platform := rm_platform m;
     vr_artifacts := rm_artifacts m;
     vr_recovery := rm_recovery m;
     vr_protocol_version := rm_protocol_version m;
     vr_min_updater_version := rm_min_updater_version m;
     vr_key_id := rm_key_id m |}.

(** The first root of a key id *)
Definition root_of (roots : list TrustRoot) (key_id : string) (root : TrustRoot) : Prop :=
  exists pre post, roots = pre ++ root :: post /\ tr_key_id root = key_id /\ Forall (fun r => tr_key_id r <> key_id) pre.

(** The metadata is signed by this root. *)
Definition signed_by (root : TrustRoot) (m : ReleaseMetadata) : Prop :=
  exists key payload signature,
    verifying_key_from_bytes (tr_verifying_key root) = Some key
    /\ canonical_metadata_payload m = inl payload
    /\ signature_from_slice (rm_signature m) = Some signature
    /\ verify key payload signature = true.

Record acceptable (m : ReleaseMetadata) (roots : list TrustRoot) (floor : N) (now : Z) (host : string) : Prop := {
  ac_protocol : rm_protocol_version m = SUPPORTED_PROTOCOL_VERSION;
  ac_version : exists have need, version_parse UPDATER_PACKAGE_VERSION = inl have
    /\ version_parse (rm_min_updater_version m) = inl need /\ ~ older have need;
  ac_sequence : (floor < rm_sequence m)%N;
  ac_platform : rm_platform m = host;
  ac_time : (rm_not_before m <= now <= rm_not_after m)%Z;
  ac_signed : exists root, root_of roots (rm_key_id m) root /\ signed_by root m;
}.

(** What a refusal says of the metadata *)
Definition refusal (m : ReleaseMetadata) (roots : list TrustRoot) (floor : N) (now : Z) (host : string) (e : UpdaterError) : Prop :=
  match e with
  | UnsupportedProtocol got supported =>
      got = rm_protocol_version m /\ supported = SUPPORTED_PROTOCOL_VERSION /\ got <> supported
  | UpdaterTooOld have need =>
      have = UPDATER_PACKAGE_VERSION /\ need = rm_min_updater_version m
      /\ exists a b, version_parse have = inl a /\ version_parse need = inl b /\ older a b
  | NonIncreasingSequence sequence f => sequence = rm_sequence m /\ f = floor /\ (sequence <= f)%N
  | PlatformMismatch got want => got = rm_platform m /\ want = host /\ got <> want
  | NotYetValid => (now < rm_not_before m)%Z
  | Expired => (rm_not_after m < now)%Z
  | UnknownTrustRoot key_id => key_id = rm_key_id m /\ Forall (fun r => tr_key_id r <> key_id) roots
  | InvalidTrustRootKey =>
      exists root, root_of roots (rm_key_id m) root /\ verifying_key_from_bytes (tr_verifying_key root) = None
  | InvalidSignature =>
      exists root, root_of roots (rm_key_id m) root /\ ~ signed_by root m
  | InvalidMetadata _ =>
      (forall a b, ~ (version_parse UPDATER_PACKAGE_VERSION = inl a /\ version_parse (rm_min_updater_version m) = inl b))
      \/ ~ metadata_ok m \/ forall json, canonical_to_vec (canonical_of m) <> inl json
  | _ => False
  end.

Lemma find_root roots key_id :
  match find_first (fun root => tr_key_id root = key_id) roots with
  | Some root => root_of roots key_id root
  | None => Forall (fun r => tr_key_id r <> key_id) roots
  end.
Proof.
  induction roots as [|r roots IH]; simpl; [done|]. case_decide as Hr.
  - exists [], roots. by split_and!.
  - destruct (find_first _ _) as [root|]; [|by constructor].
    destruct IH as (pre & post & -> & Hid & Hpre). exists (r :: pre), post. split_and!; [done..|by constructor].
Qed.

Lemma root_of_unique roots key_id r1 r2 : root_of roots key_id r1 -> root_of roots key_id r2 -> r1 = r2.
Proof.
  intros (pre1 & post1 & H1 & Hid1 & Hpre1) (pre2 & post2 & H2 & Hid2 & Hpre2). subst roots.
  revert pre2 H2 Hpre2. induction Hpre1 as [|x pre1 Hx _ IH]; intros [|y pre2]; simpl; intros H2 Hpre2.
  - congruence.
  - inversion Hpre2; simplify_eq.
  - simplify_eq.
  - simplify_eq. apply IH with pre2; [done|by inversion Hpre2].
Qed.

Lemma version_parse_error s e : version_parse s = inr e -> exists text, e = InvalidMetadata text.
Proof.
  unfold version_parse. destruct (is_empty s); [intros [= <-]; eauto|].
  intros (part & _ & Hp)%try_map_error. destruct (parse_u64 part); simplify_eq; eauto.
Qed.

Lemma version_cmp_error l r e : version_cmp l r = inr e ->
  (exists text, e = InvalidMetadata text) /\ forall a b, ~ (version_parse l = inl a /\ version_parse r = inl b).
Proof.
  unfold version_cmp. destruct (version_parse l) as [a|e1] eqn:E1.
  - destruct (version_parse r) as [b|e2] eqn:E2; [done|]. intros [= <-].
    split; [by eapply version_parse_error|naive_solver].
  - intros [= <-]. split; [by eapply version_parse_error|naive_solver].
Qed.

Lemma payload_error m e : canonical_metadata_payload m = inr e ->
  (exists text, e = InvalidMetadata text) /\ (~ metadata_ok m \/ forall json, canonical_to_vec (canonical_of m) <> inl json).
Proof.
  intros He. split.
  - revert He. unfold canonical_metadata_payload. repeat case_match; try (intros [= <-]; by eauto); try done.
    match goal with H : try_each _ _ = inr _ |- _ => apply try_each_error in H as (a & _ & Ha) end.
    intros [= <-]. revert Ha. unfold check_artifact. repeat case_match; intros [= <-]; eauto.
  - destruct (canonical_to_vec (canonical_of m)) as [json|] eqn:Ej; [left|by right].
    intros Hm. assert (canonical_metadata_payload m = inl (METADATA_DOMAIN +:+ String zero json)); [|congruence].
    apply canonical_metadata_payload_exact. eauto.
Qed.

Lemma verify_signature m roots floor now host root :
  rm_protocol_version m = SUPPORTED_PROTOCOL_VERSION ->
  (exists have need, version_parse UPDATER_PACKAGE_VERSION = inl have
    /\ version_parse (rm_min_updater_version m) = inl need /\ ~ older have need) ->
  (floor < rm_sequence m)%N -> rm_platform m = host -> (rm_not_before m <= now <= rm_not_after m)%Z ->
  root_of roots (rm_key_id m) root ->
  match verify_release_metadata m roots floor now host with
  | inl v => signed_by root m /\ v = verified_of m
  | inr e => ~ signed_by root m /\ refusal m roots floor now host e
  end.
Proof.
  intros Hp (have & need & Hh & Hn & Hold) Hs Hhost Hnow Hroot. unfold verify_release_metadata.
  rewrite decide_False by (by intros []).
  destruct (version_cmp _ _) as [o|e] eqn:Eo; [|apply version_cmp_error in Eo as [_ Eo]; by destruct (Eo have need)].
  apply version_cmp_exact in Eo as (a & b & Ha & Hb & Ho). assert (a = have) as -> by congruence. assert (b = need) as -> by congruence.
  rewrite decide_False by (intros ->; by apply Hold). rewrite decide_False by lia. rewrite decide_False by (by intros []).
  rewrite !decide_False by lia. pose proof (find_root roots (rm_key_id m)) as Hf.
  destruct (find_first _ _) as [root'|].
  2:{ destruct Hroot as (pre & post & -> & Hid & _). apply Forall_app in Hf as [_ Hf]. inversion Hf; by simplify_eq. }
  rewrite (root_of_unique _ _ _ _ Hf Hroot). clear Hf root'.
  destruct (verifying_key_from_bytes _) as [key|] eqn:Ek.
  2:{ split; [by intros (? & ? & ? & ? & _); congruence|]. by exists root. }
  destruct (canonical_metadata_payload m) as [payload|e] eqn:Ep.
  2:{ split; [by intros (? & ? & ? & _ & ? & _); congruence|]. apply payload_error in Ep as [[text ->] Hbad]. by right. }
  assert (forall P : Prop, P -> P) as Hid by done.
  destruct (signature_from_slice _) as [sig|] eqn:Es.
  2:{ assert (~ signed_by root m) by (intros (? & ? & ? & _ & _ & ? & _); congruence). split; [done|]. by exists root. }
  destruct (verify key payload sig) eqn:Ev.
  - split; [|done]. by exists key, payload, sig.
  - assert (~ signed_by root m) by (intros (? & ? & ? & ? & ? & ? & ?); simplify_eq; congruence).
    split; [done|]. by exists root.
Qed.

Lemma verify_exact m roots floor now host :
  match verify_release_metadata m roots floor now host with
  | inl v => acceptable m roots floor now host /\ v = verified_of m
  | inr e => ~ acceptable m roots floor now host /\ refusal m roots floor now host e
  end.
Proof.
  destruct (decide (rm_protocol_version m = SUPPORTED_PROTOCOL_VERSION)) as [Hp|Hp].
  2:{ unfold verify_release_metadata. rewrite decide_True by done. split; [by intros []|]. simpl. by split_and!. }
  destruct (version_cmp UPDATER_PACKAGE_VERSION (rm_min_updater_version m)) as [o|e] eqn:Eo.
  2:{ unfold verify_release_metadata. rewrite decide_False by (by intros []). rewrite Eo.
      apply version_cmp_error in Eo as [[text ->] Hno]. split; [intros []; naive_solver|by left]. }
  pose proof Eo as (a & b & Ha & Hb & Ho)%version_cmp_exact.
  destruct (decide (o = Lt)) as [->|Hlt].
  { unfold verify_release_metadata. rewrite decide_False by (by intros []). rewrite Eo, decide_True by done.
    split; [intros [_ (x & y & Hx & Hy & Hxy)]; apply Hxy; congruence|]. simpl. split_and!; [done..|]. by exists a, b. }
  assert (~ older a b) as Hold.
  { destruct o; [by apply older_irrefl|done|by apply older_asym]. }
  destruct (decide (rm_sequence m <= floor)%N) as [Hs|Hs].
  { unfold verify_release_metadata. rewrite decide_False by (by intros []). rewrite Eo, decide_False, decide_True by done.
    split; [intros []; lia|]. done. }
  destruct (decide (rm_platform m = host)) as [Hh|Hh].
  2:{ unfold verify_release_metadata. rewrite decide_False by (by intros []). rewrite Eo, !decide_False, decide_True by done.
      split; [by intros []|]. done. }
  destruct (decide (now < rm_not_before m)%Z) as [Hb1|Hb1].
  { unfold verify_release_metadata. rewrite decide_False by (by intros []). rewrite Eo, !decide_False, decide_True by (done || by intros []).
    split; [intros []; lia|]. done. }
  destruct (decide (rm_not_after m < now)%Z) as [Hb2|Hb2].
  { unfold verify_release_metadata. rewrite decide_False by (by intros []). rewrite Eo, !decide_False, decide_True by (done || by intros []).
    split; [intros []; lia|]. done. }
  pose proof (find_root roots (rm_key_id m)) as Hf.
  destruct (find_first (fun root => tr_key_id root = rm_key_id m) roots) as [root|] eqn:Ef.
  - pose proof (verify_signature m roots floor now host root Hp ltac:(by exists a, b) ltac:(lia) Hh ltac:(lia) Hf) as Hv.
    destruct (verify_release_metadata m roots floor now host) as [v|e]; destruct Hv as [Hsig Hv]; (split; [|done]).
    + constructor; [done|by exists a, b|lia|done|lia|by exists root].
    + intros [_ _ _ _ _ (root' & Hr' & Hsig')]. by rewrite (root_of_unique _ _ _ _ Hr' Hf) in Hsig'.
  - unfold verify_release_metadata. rewrite decide_False by (by intros []). rewrite Eo, !decide_False by (done || by intros []).
    rewrite Ef. split; [|done]. intros [_ _ _ _ _ (root & (pre & post & -> & Hid & _) & _)].
    apply Forall_app in Hf as [_ Hf]. inversion Hf; by simplify_eq.
Qed.

(** C9: A release is accepted exactly when the protocol is the supported one, the updater is not older
    than it asks for, its sequence passes the floor, platform and time fit and the first trust root of
    its key id signed it; a refusal names a check that fails; and the signed bytes determine every field
    but the signature. *)
Theorem accepted_release_exact `{!UpdateLaws C} :
  (forall m roots floor now host v, verify_release_metadata m roots floor now host = inl v <->
     acceptable m roots floor now host /\ v = verified_of m)
  /\ (forall m roots floor now host e, verify_release_metadata m roots floor now host = inr e ->
     ~ acceptable m roots floor now host /\ refusal m roots floor now host e)
  /\ (forall m1 m2 payload, canonical_metadata_payload m1 = inl payload -> canonical_metadata_payload m2 = inl payload ->
     verified_of m1 = verified_of m2 /\ rm_not_before m1 = rm_not_before m2 /\ rm_not_after m1 = rm_not_after m2).
Proof.
  split_and!.
  - intros m roots floor now host v. pose proof (verify_exact m roots floor now host) as Hv.
    destruct (verify_release_metadata _ _ _ _ _) as [v'|e]; destruct Hv as [Ha Hv].
    + subst v'. split; [by intros [= <-]|by intros [_ ->]].
    + split; [done|by intros [? _]].
  - intros m roots floor now host e He. pose proof (verify_exact m roots floor now host) as Hv. by rewrite He in Hv.
  - intros m1 m2 payload (_ & j1 & H1 & ->)%canonical_metadata_payload_exact (_ & j2 & H2 & Heq)%canonical_metadata_payload_exact.
    apply app_inj_l_str in Heq as [= ->]. pose proof (canonical_to_vec_inj _ _ _ H1 H2) as Hc.
    unfold canonical_of in Hc. injection Hc as ? ? ? ? ? ? ? ? ?. unfold verified_of. split_and!; congruence.
Qed.
End verify.

(** ** Trust roots *)

Section trust.
Context `{C : UpdateLib}.

Lemma hex_nibble_digit d : (d < 16)%N ->
  hex_nibble (hex_digit d) = inl d /\ is_ascii_digit (hex_digit d) || in_range 97 102 (hex_digit d) = true.
Proof.
  intros Hd. assert (d = 0 \/ d = 1 \/ d = 2 \/ d = 3 \/ d = 4 \/ d = 5 \/ d = 6 \/ d = 7 \/ d = 8 \/ d = 9
    \/ d = 10 \/ d = 11 \/ d = 12 \/ d = 13 \/ d = 14 \/ d = 15)%N as Hc by lia. naive_solver.
Qed.

Lemma byte_of_nibbles c : N.lor (N.shiftl (byte_val c / 16) 4) (byte_val c `mod` 16) = byte_val c.
Proof. by destruct c as [[] [] [] [] [] [] [] []]. Qed.

Lemma hex_pair c : exists a b, hex_n 2 (byte_val c) = String a (String b EmptyString)
  /\ hex_nibble a = inl (byte_val c / 16)%N /\ hex_nibble b = inl (byte_val c `mod` 16)%N
  /\ ascii_of_N (N.lor (N.shiftl (byte_val c / 16) 4) (byte_val c `mod` 16)) = c
  /\ (is_ascii_digit a || in_range 97 102 a) = true /\ (is_ascii_digit b || in_range 97 102 b) = true.
Proof.
  pose proof (N_ascii_bounded c) as Hc. fold (byte_val c) in Hc.
  assert (byte_val c / 16 < 16)%N as Hhi by (apply N.Div0.div_lt_upper_bound; lia).
  pose proof (N.mod_lt (byte_val c) 16 ltac:(done)) as Hlo.
  exists (hex_digit (byte_val c / 16)), (hex_digit (byte_val c `mod` 16)).
  destruct (hex_nibble_digit _ Hhi) as [H1 H2], (hex_nibble_digit _ Hlo) as [H3 H4]. split_and!; try done.
  - cbn [hex_n]. change (16 ^ N.of_nat 1)%N with 16%N. change (16 ^ N.of_nat 0)%N with 1%N.
    by rewrite N.div_1_r, (N.mod_small (_ / _)).
  - rewrite byte_of_nibbles. apply ascii_N_embedding.
Qed.

Lemma decode_pairs_hex s : decode_pairs (hex_bytes s) = inl s.
Proof.
  induction s as [|c s IH]; [done|]. cbn [hex_bytes].
  destruct (hex_pair c) as (a & b & -> & Ha & Hb & Hc & _). cbn [String.append decode_pairs].
  by rewrite Ha, Hb, IH, Hc.
Qed.

Lemma hex_bytes_lower s : lower_hex (hex_bytes s).
Proof.
  unfold lower_hex. induction s as [|c s IH]; [done|]. cbn [hex_bytes].
  destruct (hex_pair c) as (a & b & -> & _ & _ & _ & Ha & Hb). cbn [String.append bytes_all]. by rewrite Ha, Hb.
Qed.

Lemma decode_hex_key_hex key : String.length key = 32 -> decode_hex_key (hex_bytes key) = inl key.
Proof.
  intros Hlen. unfold decode_hex_key. rewrite bool_decide_false by (rewrite length_hex_bytes, Hlen; lia).
  destruct (proj2 (lower_hex_spec _) (hex_bytes_lower key)) as [-> ->]. simpl. apply decode_pairs_hex.
Qed.

Definition root_ok (r : TrustRoot) : Prop := tr_key_id r <> "" /\ String.length (tr_verifying_key r) = 32.

Lemma decode_pairs_length n hex key : String.length hex = 2 * n -> decode_pairs hex = inl key -> String.length key = n.
Proof.
  revert hex key. induction n as [|n IH]; intros [|a [|b hex]] key Hlen; try (simpl in Hlen; lia).
  - by intros [= <-].
  - cbn [decode_pairs]. destruct (hex_nibble a), (hex_nibble b), (decode_pairs hex) as [rest|] eqn:E; try done.
    intros [= <-]. simpl in *. f_equal. apply (IH hex); [lia|done].
Qed.

Lemma decode_hex_key_length hex key : decode_hex_key hex = inl key -> String.length key = 32.
Proof.
  unfold decode_hex_key. case_bool_decide as Hlen; simpl; [done|]. destruct (bytes_all _ _); simpl; [|done].
  destruct (bytes_any _ _); [done|]. apply decode_pairs_length. lia.
Qed.

Lemma parse_trust_roots_ok text roots : parse_trust_roots text = inl roots -> roots <> [] /\ Forall root_ok roots.
Proof.
  unfold parse_trust_roots. destruct (trust_roots_from_str text) as [[|r rs]|]; [done| |done].
  intros H%try_map_ok. split; [by inversion H|]. clear text. induction H as [|x y xs ys Hxy _ IH]; constructor; [|done].
  destruct (is_empty (trr_key_id x)) eqn:Ee; [done|].
  destruct (decode_hex_key _) as [key|] eqn:Ek; [|done]. injection Hxy as <-. split; simpl.
  - intros H%is_empty_spec. congruence.
  - by eapply decode_hex_key_length.
Qed.

(** Trust roots written by [write_trust_roots] are loaded as they were; and whatever file is loaded, it gives at
    least one root, and every root has a key id and a key of 32 bytes. *)
Theorem trust_roots_roundtrip `{!UpdateLaws C} (roots : list TrustRoot) (text : string) :
  (roots <> [] -> Forall root_ok roots -> trust_roots_text roots = inl text -> parse_trust_roots text = inl roots)
  /\ (parse_trust_roots text = inl roots -> roots <> [] /\ Forall root_ok roots).
Proof.
  split; [|apply parse_trust_roots_ok]. intros Hne Hroots. unfold trust_roots_text, parse_trust_roots.
  destruct (trust_roots_to_string_pretty _) as [json|] eqn:Ej; [|done]. intros [= <-].
  rewrite (trust_roots_reread _ _ Ej).
  destruct roots as [|r roots]; [done|]. apply try_map_ok.
  apply (Forall2_fmap_l _ _ (r :: roots)). eapply Forall_Forall2_diag, Forall_impl; [exact Hroots|].
  intros [id key] [Hid Hkey]; simpl in *. destruct (is_empty id) eqn:Ee; [by apply is_empty_spec in Ee|].
  by rewrite decode_hex_key_hex.
Qed.
End trust.
