(* ===== verification/UpdInv.v ===== *)
(** * The invariant of an updater root

    Paths and the texts of journals; then [inv]: what holds of the disk after every single call of a process that holds the lease, wherever it
    is cut off: selector and floor are equal, or the journal ends with the [Prepare] record of the release
    that is just selected; and the selected release is complete and signed by a trusted root.  [dsafe] is
    the logic of code that runs while the lease is held. *)

From stdpp Require Import pretty.
From S2P Require Import Prelude Result RustStr Text Effects UpdMeta UpdJournal Updater UpdSpec.

(** * Paths and journal texts of the updater

    Where the updater's files lie relative to each other, and what a journal reads as after an append
    that was written in part, in full without its line feed, or in full. *)

(** ** Paths *)

(** A file name without a separator. *)
Definition plain (s : string) : Prop := contains SLASH s = false /\ is_component s.
#[global] Instance plain_dec s : Decision (plain s) := _.

Lemma plain_relative s : contains SLASH s = false -> is_absolute s = false.
Proof. by destruct s as [|[[] [] [] [] [] [] [] []] s]. Qed.

Lemma join_plain p s : plain s -> join p s = p ++ [s].
Proof.
  intros [Hs Hc]. unfold join. rewrite plain_relative by done. unfold path_from, relative_components.
  rewrite plain_relative, split_char_plain by done. assert (filter is_component [s] = [s]) as Hf.
  { rewrite filter_cons, decide_True by done. by rewrite filter_nil. }
  destruct p as [|x p]; [|by rewrite Hf].
  destruct Hc as [Hne Hdot]. destruct s as [|[[] [] [] [] [] [] [] []] [|c s]]; try (rewrite Hf; reflexivity). by destruct Hdot.
Qed.

Lemma strip_prefix_path base p : path_strip_prefix base (base ++ p) = Some p.
Proof. induction base as [|b base IH]; simpl; [by destruct p|]. by rewrite decide_True. Qed.

Lemma path_strip_prefix_Some base p r : path_strip_prefix base p = Some r <-> p = base ++ r.
Proof.
  split; [|intros ->; apply strip_prefix_path]. revert p. induction base as [|b base IH]; intros [|c p]; simpl; intros H; try by simplify_eq.
  case_decide as Hb; [|done]. subst. by rewrite (IH _ H).
Qed.

Lemma below_spec base p : below base p <-> exists r, p = base ++ r.
Proof.
  unfold below, path_starts_with. destruct (path_strip_prefix base p) as [r|] eqn:E.
  - apply path_strip_prefix_Some in E. naive_solver.
  - split; [done|]. intros [r ->]. by rewrite strip_prefix_path in E.
Qed.

Lemma below_app a b c : below (a ++ b) (a ++ c) <-> below b c.
Proof.
  rewrite !below_spec. split; intros [r Hr].
  - rewrite <- app_assoc in Hr. apply app_inv_head in Hr. by exists r.
  - exists r. by rewrite Hr, app_assoc.
Qed.

Lemma ancestors_app p q : ancestors p ⊆ ancestors (p ++ q).
Proof.
  intros x. unfold ancestors. rewrite !elem_of_list_to_set, !list_elem_of_fmap. intros (n & -> & Hn).
  apply elem_of_seq in Hn. exists n. split; [by rewrite take_app_le by lia|]. apply elem_of_seq. rewrite length_app. lia.
Qed.

Lemma in_ancestors x p : x ∈ ancestors p <-> exists r, p = x ++ r.
Proof.
  unfold ancestors. rewrite elem_of_list_to_set, list_elem_of_fmap. split.
  - intros (n & -> & _). exists (drop n p). by rewrite take_drop.
  - intros [r ->]. exists (length x). rewrite take_app_length. split; [done|]. apply elem_of_seq. rewrite length_app. lia.
Qed.

Lemma pretty_plain (n : N) : plain (pretty n).
Proof.
  assert (forall s, bytes_all is_ascii_digit s = true -> contains SLASH s = false) as Hslash.
  { induction s as [|c s IH]; [done|]. cbn [bytes_all contains]. intros [Hc Hs]%andb_true_iff.
    rewrite (IH Hs), orb_false_r. apply bool_decide_false. by intros ->. }
  pose proof (pretty_N_digits n) as Hd. split; [by apply Hslash|]. split; [apply pretty_N_nonempty|].
  intros Heq. by rewrite Heq in Hd.
Qed.

Definition control_names : list string :=
  ["current"; "accepted_floor"; "generation"; "activation.journal"; "authorization.json"; "trust_roots.json"; "updater.lock"].

Lemma not_control x : bool_decide (x ∈ control_names) = false -> x ∉ control_names.
Proof. apply bool_decide_eq_false. Qed.

Section paths.
Context (root : Path).

(** A file of the updater itself. *)
Definition at_root (x : string) : Path := root ++ [x].

Lemma join_root x : bool_decide (plain x) = true -> join root x = at_root x.
Proof. intros H%bool_decide_eq_true. by apply join_plain. Qed.

Lemma layout_paths :
  selector_path root = at_root "current" /\ floor_path root = at_root "accepted_floor"
  /\ journal_path root = at_root "activation.journal" /\ ul_generation (layout root) = at_root "generation"
  /\ ul_authorization (layout root) = at_root "authorization.json" /\ ul_lease (layout root) = at_root "updater.lock"
  /\ ul_trust_roots (layout root) = at_root "trust_roots.json".
Proof. unfold selector_path, floor_path, journal_path. cbn. by rewrite !join_root. Qed.

Lemma release_directory_eq n : release_directory root n = root ++ ["releases"; pretty n].
Proof.
  unfold release_directory. simpl. rewrite join_root by done. rewrite join_plain by apply pretty_plain.
  unfold at_root. by rewrite <- app_assoc.
Qed.

Lemma release_below_root n x : ~ below (release_directory root n) (at_root x).
Proof.
  rewrite release_directory_eq. unfold at_root. rewrite below_app, below_spec. by intros [r [=]].
Qed.

Lemma releases_apart n m p : n <> m -> below (release_directory root n) p -> ~ below (release_directory root m) p.
Proof.
  rewrite !release_directory_eq, !below_spec. intros Hne [r ->] [r' Heq].
  rewrite <- !app_assoc in Heq. apply app_inv_head in Heq. simpl in Heq. injection Heq as Heq _. by apply pretty_N_inj in Heq.
Qed.

Lemma parent_app p x : x <> "/" -> parent (p ++ [x]) = Some p.
Proof.
  intros Hx. unfold parent. rewrite decide_False; [by rewrite removelast_last|].
  intros [H|H]; [by destruct p|]. destruct p as [|c [|]]; simplify_eq/=.
Qed.
End paths.

(** ** Texts *)

Lemma terminated_lines_app xs ys : ys <> [] -> terminated_lines (xs ++ ys) = (strip_cr <$> xs) ++ terminated_lines ys.
Proof.
  intros Hys. induction xs as [|x xs IH]; [done|]. cbn [app fmap list_fmap].
  rewrite <- IH. destruct (xs ++ ys) as [|z zs] eqn:E; [|done]. apply app_eq_nil in E as [_ ->]. done.
Qed.

(** A text whose last line is ended. *)
Definition ended (t : string) : Prop := t = "" \/ exists u, t = u +:+ String LF EmptyString.

Lemma lines_app t x : ended t -> lines (t +:+ x) = lines t ++ lines x.
Proof.
  intros [->|[u ->]]; [done|]. unfold lines.
  rewrite <- app_assoc_str. cbn [String.append]. rewrite !split_char_app.
  rewrite !terminated_lines_app by apply split_char_nonempty.
  by rewrite <- app_assoc.
Qed.

Lemma lines_one x : contains LF x = false -> lines x = if is_empty x then [] else [x].
Proof. intros Hx. unfold lines. by rewrite split_char_plain. Qed.

Lemma lines_ended x : contains LF x = false -> lines (x +:+ String LF EmptyString) = [strip_cr x].
Proof. intros Hx. unfold lines. rewrite split_char_app, split_char_plain by done. done. Qed.

(** Text in braces keeps its ends when it is trimmed. *)
Lemma trim_start_brace s : trim_start (String "{" s) = String "{" s.
Proof.
  destruct (graphic_not_ws "{"%char eq_refl) as (H1 & H2 & _ & H3 & _). cbn [trim_start]. rewrite H1.
  destruct s as [|b [|c s]]; [done|by rewrite H2|by rewrite H2, H3].
Qed.

Lemma trim_rev_brace s : trim_rev (String "}" s) = String "}" s.
Proof.
  destruct (graphic_not_ws "}"%char eq_refl) as (H1 & _ & H2 & _ & H3). cbn [trim_rev]. rewrite H1.
  destruct s as [|b [|c s]]; [done|by rewrite H2|by rewrite H2, H3].
Qed.

Lemma trim_rev_keeps s : exists r, trim_rev (s +:+ "{") = r +:+ "{".
Proof.
  assert (forall n s, String.length s <= n -> exists r, trim_rev (s +:+ "{") = r +:+ "{") as H; [|by eapply H].
  clear s. induction n as [|n IH]; intros [|a s] Hlen; try (simpl in Hlen; lia); try (by exists "").
  cbn [String.append trim_rev]. destruct (ws1 a); [apply IH; simpl in Hlen; lia|].
  destruct s as [|b s]; cbn [String.append].
  - destruct (graphic_not_ws "{"%char eq_refl) as (_ & H2 & _). rewrite H2. by exists (String a "").
  - destruct (ws2 b a); [apply IH; simpl in Hlen; lia|]. destruct s as [|c s]; cbn [String.append].
    + destruct (graphic_not_ws "{"%char eq_refl) as (_ & _ & _ & H3 & _). rewrite H3. by exists (String a (String b "")).
    + destruct (ws3 c b a); [apply IH; simpl in Hlen; lia|]. by exists (String a (String b (String c s))).
Qed.

Lemma trim_brace s : exists r, trim (String "{" s) = String "{" r.
Proof.
  unfold trim, trim_end. rewrite trim_start_brace, rev_string_cons.
  destruct (trim_rev_keeps (rev_string s)) as [r ->]. rewrite rev_string_app. by exists (rev_string r).
Qed.

Lemma trim_braces s : trim (String "{" (s +:+ "}")) = String "{" (s +:+ "}").
Proof.
  unfold trim, trim_end. rewrite trim_start_brace, rev_string_cons, rev_string_app.
  change (rev_string "}") with "}". cbn [String.append]. rewrite trim_rev_brace.
  rewrite rev_string_cons, rev_string_app, rev_string_involutive. done.
Qed.

Lemma strip_cr_braces s : strip_cr (String "{" (s +:+ "}")) = String "{" (s +:+ "}").
Proof.
  unfold strip_cr. destruct (strip_suffix _ _) as [r|] eqn:E; [|done]. apply strip_suffix_Some in E.
  exfalso. apply (f_equal rev_string) in E. rewrite rev_string_cons, !rev_string_app in E. done.
Qed.

(** What serde_json guarantees of the lines of a journal: every record is written as an object on one line and read
    back, and neither a part of it nor one object after another is read. *)
Class JournalLaws (JL : JournalLib) : Prop := {
  record_writes r : exists line, record_to_string r = inl line;
  record_line r line : record_to_string r = inl line ->
    contains LF line = false /\ exists body, line = String "{" (body +:+ "}");
  record_reread r line : record_to_string r = inl line -> record_from_str line = inl r;
  record_cut r written rest : record_to_string r = inl (written +:+ rest) -> rest <> "" ->
    exists e, record_from_str (trim written) = inr e;
  record_trailing r line r' written rest : record_to_string r = inl line ->
    record_to_string r' = inl (written +:+ rest) -> written <> "" ->
    exists e, record_from_str (trim (line +:+ written)) = inr e;
}.

Section journal.
Context `{JL : JournalLib} `{!JournalLaws JL}.

Lemma parse_journal_app t x : ended t ->
  parse_journal (t +:+ x) = match parse_journal t with inl o => try_fold journal_line o (lines x) | inr e => inr e end.
Proof. intros Ht. unfold parse_journal. by rewrite lines_app, try_fold_app. Qed.

(** What a part of a record's line reads as. *)
Lemma journal_line_record o r line : record_to_string r = inl line -> journal_line o line = inl (Some r).
Proof.
  intros Hr. destruct (record_line _ _ Hr) as (_ & body & Hl). unfold journal_line. subst line.
  rewrite trim_braces. simpl. by rewrite (record_reread _ _ Hr).
Qed.

Lemma braces_nonempty s x : is_empty (trim (String "{" s +:+ x)) = false.
Proof. cbn [String.append]. by destruct (trim_brace (s +:+ x)) as [r ->]. Qed.

Lemma contains_prefix c a b : contains c (a +:+ b) = false -> contains c a = false.
Proof. rewrite contains_app. by intros [? _]%orb_false_iff. Qed.

Lemma lines_part r written rest : record_to_string r = inl (written +:+ rest) ->
  lines written = if is_empty written then [] else [written].
Proof. intros Hr. apply lines_one. destruct (record_line _ _ Hr) as [Hlf _]. by eapply contains_prefix. Qed.

(** A record's line cut short after text that is ended. *)
Lemma parse_journal_cut t o r written rest : ended t -> parse_journal t = inl o ->
  record_to_string r = inl (written +:+ rest) -> rest <> "" ->
  written = "" \/ exists e, parse_journal (t +:+ written) = inr e.
Proof.
  intros Ht Ho Hr Hrest. destruct written as [|c written]; [by left|right].
  rewrite parse_journal_app, Ho, (lines_part _ _ _ Hr) by done. cbn [is_empty try_fold].
  destruct (record_line _ _ Hr) as (_ & body & Hl). injection Hl as -> _.
  destruct (record_cut _ _ _ Hr Hrest) as [e He]. unfold journal_line.
  pose proof (braces_nonempty written "") as Hne. rewrite app_nil_r_str in Hne. rewrite Hne, He. by eexists.
Qed.

Lemma parse_journal_line t o r line : ended t -> parse_journal t = inl o -> record_to_string r = inl line ->
  parse_journal (t +:+ line) = inl (Some r) /\ parse_journal (t +:+ line +:+ String LF EmptyString) = inl (Some r).
Proof.
  intros Ht Ho Hr. destruct (record_line _ _ Hr) as (Hlf & body & Hl).
  rewrite !parse_journal_app, Ho by done. rewrite lines_ended, lines_one by done.
  rewrite Hl, strip_cr_braces, <- Hl. assert (is_empty line = false) as -> by by rewrite Hl.
  cbn [try_fold]. by rewrite (journal_line_record _ _ _ Hr).
Qed.

(** A record's line after another that has no line feed, in part or in full: nothing reads it any more. *)
Lemma parse_journal_joined t o r line r' written rest : ended t -> parse_journal t = inl o ->
  record_to_string r = inl line -> record_to_string r' = inl (written +:+ rest) -> written <> "" ->
  (exists e, parse_journal (t +:+ line +:+ written) = inr e)
  /\ (rest = "" -> exists e, parse_journal (t +:+ line +:+ written +:+ String LF EmptyString) = inr e).
Proof.
  intros Ht Ho Hr Hr' Hw. destruct (record_line _ _ Hr) as (Hlf & body & Hl).
  destruct (record_line _ _ Hr') as (Hlf' & body' & Hl').
  destruct (record_trailing _ _ _ _ _ Hr Hr' Hw) as [e He].
  assert (contains LF (line +:+ written) = false) as Hlw.
  { rewrite contains_app, Hlf. by eapply contains_prefix. }
  assert (forall o, exists e, journal_line o (line +:+ written) = inr e) as Hj.
  { intros o'. unfold journal_line. rewrite Hl. rewrite braces_nonempty, <- Hl, He. by eexists. }
  split.
  - rewrite parse_journal_app, Ho, lines_one by done.
    assert (is_empty (line +:+ written) = false) as -> by by rewrite Hl.
    cbn [try_fold]. destruct (Hj o) as [e' ->]. by eexists.
  - intros ->. rewrite (app_assoc_str line written), parse_journal_app, Ho, lines_ended by done. cbn [try_fold].
    rewrite app_nil_r_str in Hl'. rewrite Hl, Hl'.
    replace (String "{" (body +:+ "}") +:+ String "{" (body' +:+ "}"))
      with (String "{" ((body +:+ "}" +:+ String "{" body') +:+ "}")) by (cbn [String.append]; by rewrite <- !app_assoc_str).
    rewrite strip_cr_braces. destruct (Hj o) as [e' He']. rewrite Hl, Hl' in He'. cbn [String.append] in He' |- *.
    rewrite <- !app_assoc_str in He' |- *. cbn [String.append] in He' |- *. rewrite He'. by eexists.
Qed.

(** ** The forms of a journal *)

(** The text of a journal and its last record; [None]: it cannot be read. *)
Inductive JournalText : string -> option (option ActivationJournalRecord) -> Prop :=
  | text_ended t o : ended t -> parse_journal t = inl o -> JournalText t (Some o)
  | text_open t o r line : ended t -> parse_journal t = inl o -> record_to_string r = inl line ->
      JournalText (t +:+ line) (Some (Some r))
  | text_unreadable t e : parse_journal t = inr e -> JournalText t None.

Lemma journal_text_parse t o : JournalText t o ->
  match o with Some o => parse_journal t = inl o | None => exists e, parse_journal t = inr e end.
Proof. destruct 1 as [t o Ht Ho|t o r line Ht Ho Hr|t e He]; [done|by eapply parse_journal_line|by eexists]. Qed.

Lemma ended_line t line : ended (t +:+ line +:+ String LF EmptyString).
Proof. right. exists (t +:+ line). by rewrite <- app_assoc_str. Qed.

(** Appending part of a record to a text that can be read. *)
Lemma journal_text_part t o r written rest : JournalText t (Some o) -> record_to_string r = inl (written +:+ rest) ->
  JournalText (t +:+ written) (Some o) \/ JournalText (t +:+ written) None
  \/ rest = "" /\ JournalText (t +:+ written) (Some (Some r)).
Proof.
  intros Ht Hr. destruct (decide (written = "")) as [->|Hw]; [left; by rewrite app_nil_r_str|].
  inversion Ht as [t' o' He Ho|t' o' r' line He Ho Hr'|]; subst; clear Ht.
  - destruct (decide (rest = "")) as [->|Hrest].
    + right; right. split; [done|]. rewrite app_nil_r_str in Hr. by eapply text_open.
    + destruct (parse_journal_cut _ _ _ _ _ He Ho Hr Hrest) as [|[e Hp]]; [done|]. right; left. by eapply text_unreadable.
  - right; left. destruct (parse_journal_joined _ _ _ _ _ _ _ He Ho Hr' Hr Hw) as [[e Hp] _].
    rewrite <- app_assoc_str. by eapply text_unreadable.
Qed.

(** Appending a whole line. *)
Lemma journal_text_line t o r line : JournalText t (Some o) -> record_to_string r = inl line ->
  JournalText (t +:+ line +:+ String LF EmptyString) (Some (Some r))
  \/ JournalText (t +:+ line +:+ String LF EmptyString) None.
Proof.
  intros Ht Hr. inversion Ht as [t' o' He Ho|t' o' r' line' He Ho Hr'|]; subst; clear Ht.
  - left. apply text_ended; [apply ended_line|]. by eapply parse_journal_line.
  - right. rewrite <- (app_nil_r_str line) in Hr. destruct (record_line _ _ Hr) as (_ & body & Hl).
    destruct (parse_journal_joined _ _ _ _ _ _ _ He Ho Hr' Hr) as [_ Hp]; [rewrite app_nil_r_str in Hl; by rewrite Hl|].
    destruct (Hp eq_refl) as [e Hp']. rewrite <- app_assoc_str. by eapply text_unreadable.
Qed.
End journal.

(** * The invariant of an updater root *)

(** ** Code that only works on the disk *)

Definition disk_only {X} (e : UpdEff X) : Prop := match e with Fs _ => True | _ => False end.
Definition disk_step X (e : UpdEff X) (d : Disk) (x : X) (d' : Disk) : Prop :=
  match e in UpdEff X return X -> Prop with
  | Fs e => fun x => fs_step _ e d x d'
  | _ => fun _ => d' = d
  end x.

Section logic.
Context (J : Disk -> Prop) (G : Disk -> Disk -> Prop).

(** Every call keeps [J] and does [G]; [Q] holds at the end. *)
Fixpoint dsafe {A} (t : UTask A) : (A -> Disk -> Prop) -> Disk -> Prop :=
  match t in Task _ A return (A -> Disk -> Prop) -> Disk -> Prop with
  | Ret a => fun Q d => Q a d
  | Call e k => fun Q d => disk_only e /\ forall x d', disk_step _ e d x d' -> J d' /\ G d d' /\ dsafe (k x) Q d'
  | Iter _ _ _ => fun _ _ => False
  end.

Lemma dsafe_mono {A} (t : UTask A) (Q Q' : A -> Disk -> Prop) d :
  (forall a d, Q a d -> Q' a d) -> dsafe t Q d -> dsafe t Q' d.
Proof.
  intros HQ. revert Q Q' d HQ. induction t as [A a|A X e k IH|A S B body _ s k _]; intros Q Q' d HQ; simpl; [auto| |done].
  intros [He H]. split; [done|]. intros x d' Hx. destruct (H x d' Hx) as (? & ? & ?). split_and!; [done..|]. by eapply IH.
Qed.

Lemma dsafe_bind {A B} (t : UTask A) (f : A -> UTask B) (Q : B -> Disk -> Prop) d :
  dsafe t (fun a d => dsafe (f a) Q d) d -> dsafe (bind_task t f) Q d.
Proof.
  revert f Q d. induction t as [A a|A X e k IH|A S C body _ s k _]; intros f Q d; simpl; [done| |done].
  intros [He H]. split; [done|]. intros x d' Hx. destruct (H x d' Hx) as (? & ? & ?). split_and!; [done..|]. by apply IH.
Qed.

Lemma dsafe_try {A B} (t : UResult A) (f : A -> UResult B) (Q : B + UpdaterError -> Disk -> Prop) d :
  dsafe t (fun r d => match r with inl a => dsafe (f a) Q d | inr e => Q (inr e) d end) d ->
  dsafe (try_bind t f) Q d.
Proof. intros H. apply dsafe_bind. revert H. apply dsafe_mono. by intros []. Qed.

Lemma dsafe_try_ret {A B} (r : A + UpdaterError) (f : A -> UResult B) (Q : B + UpdaterError -> Disk -> Prop) d :
  match r with inl a => dsafe (f a) Q d | inr e => Q (inr e) d end -> dsafe (try_bind (Ret r) f) Q d.
Proof. by destruct r. Qed.

Lemma dsafe_fs {X B} (e : FsEff X) (f : X -> UTask B) (Q : B -> Disk -> Prop) d :
  (forall x d', fs_step _ e d x d' -> J d' /\ G d d' /\ dsafe (f x) Q d') -> dsafe (bind_task (fs e) f) Q d.
Proof. intros H. by split. Qed.

Lemma dsafe_fs_or {A} label (e : FsEff (A + IoError)%type) (Q : A + UpdaterError -> Disk -> Prop) d :
  (forall r d', fs_step _ e d r d' -> J d' /\ G d d'
     /\ Q (match r with inl a => inl a | inr e => inr (invalid label (io_text e)) end) d') ->
  dsafe (fs_or label e) Q d.
Proof. intros H. by split. Qed.

Lemma dsafe_or_invalid {A} label (r : A + string) (Q : A + UpdaterError -> Disk -> Prop) d :
  (forall a, r = inl a -> Q (inl a) d) -> (forall e, Q (inr e) d) -> dsafe (or_invalid label r) Q d.
Proof. intros Hok Herr. unfold or_invalid. simpl. destruct r; [by apply Hok|apply Herr]. Qed.

(** A [for] loop by an invariant over the elements done. *)
Lemma dsafe_fold {A S} (f : S -> A -> UResult S) (P : list A -> S -> Disk -> Prop) s xs (Q : S + UpdaterError -> Disk -> Prop) d :
  P [] s d ->
  (forall done x rest s d, xs = done ++ x :: rest -> P done s d ->
     dsafe (f s x) (fun r d => match r with inl s => P (done ++ [x]) s d | inr e => Q (inr e) d end) d) ->
  (forall s d, P xs s d -> Q (inl s) d) ->
  dsafe (fold_task f s xs) Q d.
Proof.
  intros H0 Hstep HQ. assert (forall post pre s d, xs = pre ++ post -> P pre s d ->
    dsafe (fold_task f s post) Q d) as Hgen; [|by apply (Hgen xs [])].
  clear s d H0. induction post as [|x post IH]; intros pre s d Heq HP; simpl.
  - apply HQ. by rewrite Heq, app_nil_r.
  - apply dsafe_try. eapply dsafe_mono; [|by eapply Hstep]. intros [s'|e] d'; [|done].
    apply IH. by rewrite <- app_assoc.
Qed.
End logic.

(** ** What calls touch *)

Section touches.
Implicit Types (d : Disk).

(** [d'] is [d] but for the files of [ps], and with no fewer directories. *)
Record touches (ps : list Path) d d' : Prop := {
  to_files q : q ∉ ps -> d_files d' !! q = d_files d !! q;
  to_dirs : d_dirs d ⊆ d_dirs d';
}.

Lemma touches_refl ps d : touches ps d d.
Proof. by constructor. Qed.

Lemma touches_trans ps d1 d2 d3 : touches ps d1 d2 -> touches ps d2 d3 -> touches ps d1 d3.
Proof. intros [F1 D1] [F2 D2]. constructor; [intros q Hq; by rewrite F2, F1|set_solver]. Qed.

Lemma touches_more ps ps' d d' : ps ⊆ ps' -> touches ps d d' -> touches ps' d d'.
Proof. intros Hp [F D]. constructor; [|done]. intros q Hq. apply F. set_solver. Qed.

(** What the calls on one file touch *)
Lemma create_touches p d : touches [p] d (create_on p d).
Proof. constructor; [|done]. intros q Hq. simpl. by rewrite lookup_insert_ne by set_solver. Qed.

Lemma open_touches p d : touches [p] d (open_on p d).
Proof. unfold open_on. destruct (d_files d !! p); [apply touches_refl|apply create_touches]. Qed.

Lemma append_touches p bytes d : touches [p] d (append_to p bytes d).
Proof. constructor; [|done]. intros q Hq. simpl. by rewrite lookup_alter_ne by set_solver. Qed.

Lemma append_lookup p bytes text d : d_files d !! p = Some text -> d_files (append_to p bytes d) !! p = Some (text +:+ bytes).
Proof. intros Hp. simpl. by rewrite lookup_alter_eq, Hp. Qed.

Lemma create_lookup p d : d_files (create_on p d) !! p = Some "".
Proof. simpl. by rewrite lookup_insert_eq. Qed.
End touches.

(** ** What the disk says *)

Section inv.
Context `{C : UpdateLib} `{JL : JournalLib} (root : Path) (Trusted : string -> Prop).
Implicit Types (d : Disk).

Definition number_on d (p : Path) : option N :=
  match d_files d !! p with
  | None => Some 0%N
  | Some text => match parse_u64 (trim text) with inl n => Some n | inr _ => None end
  end.

Record sees d (c f g : N) : Prop := {
  sees_current : number_on d (at_root root "current") = Some c;
  sees_floor : number_on d (at_root root "accepted_floor") = Some f;
  sees_generation : number_on d (at_root root "generation") = Some g;
}.

(** The last record of the journal; [None]: it cannot be read. *)
Definition journal_on d (o : option (option ActivationJournalRecord)) : Prop :=
  match d_files d !! at_root root "activation.journal" with
  | None => o = Some None
  | Some text => JournalText text o
  end.

(** Release [n] is on the disk as a trusted root signed it. *)
Definition artifact_on d (n : N) (verified : VerifiedRelease) (a : ArtifactDigest) : Prop :=
  check_artifact_name (ad_name a) = inl tt
  /\ exists bytes, d_files d !! join (release_directory root n) (ad_name a) = Some bytes
     /\ verify_artifact_bytes verified (ad_name a) bytes = inl tt.

Definition genuine d (n : N) : Prop :=
  exists m r, Trusted (tr_verifying_key r) /\ signed_by r m /\ rm_sequence m = n
  /\ Forall (artifact_on d n (verified_of m)) (rm_artifacts m).

(** Where selector [c], floor [f], generation [g] and the journal stand to each other. *)
Definition phase (c f g : N) (last : option (option ActivationJournalRecord)) : Prop :=
  match last with
  | Some (Some r) =>
      match jr_phase r with
      | ActivationPhase.Prepare =>
          (c = f /\ (f < jr_sequence r)%N /\ jr_generation r = g)
          \/ (c = jr_sequence r /\ (f < c)%N /\ jr_generation r = g /\ (g + 1 <= u64_max)%N)
          \/ (c = jr_sequence r /\ f = c /\ (g = jr_generation r \/ g = jr_generation r + 1)%N
              /\ (jr_generation r + 1 <= u64_max)%N)
      | _ => c = f
      end
  | _ => c = f
  end.

Definition trusted_file d : Prop :=
  forall text roots, d_files d !! at_root root "trust_roots.json" = Some text -> parse_trust_roots text = inl roots ->
    Forall (fun r => Trusted (tr_verifying_key r)) roots.

Record inv d : Prop := {
  inv_phase : exists c f g o, sees d c f g /\ journal_on d o /\ phase c f g o /\ (c = 0%N \/ genuine d c);
  inv_trusted : trusted_file d;
}.

(** The updater's directory and the file of its lease are there. *)
Definition ready d : Prop := ancestors root ⊆ d_dirs d /\ is_Some (d_files d !! at_root root "updater.lock").

Definition J d : Prop := inv d /\ ready d.

(** The selector moves only to the release that the issued authorization names, at the generation it names. *)
Definition authorized d d' (c' g : N) : Prop :=
  exists text auth r, d_files d !! at_root root "authorization.json" = Some text
  /\ authorization_from_str text = inl auth
  /\ aa_candidate_sequence auth = c' /\ aa_expected_generation auth = g
  /\ journal_on d (Some (Some r)) /\ jr_phase r = ActivationPhase.Prepare /\ jr_sequence r = c'
  /\ jr_owner_token r = aa_owner_token auth /\ genuine d' c'.

Definition advances d d' : Prop :=
  forall c f g c' f' g', sees d c f g -> sees d' c' f' g' ->
    (c <= c' /\ f <= f' /\ g <= g')%N /\ (c' <> c -> (f < c')%N /\ authorized d d' c' g).

(** ** Calls that leave the updater's own files alone *)

(** Same files of the updater itself but for those of [names], and nothing missing from the selected release. *)
Record spares (names : list string) d d' : Prop := {
  sp_files x : x ∈ control_names -> x ∉ names -> d_files d' !! at_root root x = d_files d !! at_root root x;
  sp_dirs : ancestors root ⊆ d_dirs d -> ancestors root ⊆ d_dirs d';
  sp_selected c : number_on d (at_root root "current") = Some c -> genuine d c -> genuine d' c;
}.

Lemma sees_unique d c f g c' f' g' : sees d c f g -> sees d c' f' g' -> c = c' /\ f = f' /\ g = g'.
Proof. intros [] []. split_and!; congruence. Qed.

Lemma journal_on_unique `{!JournalLaws JL} d o o' : journal_on d o -> journal_on d o' -> o = o'.
Proof.
  unfold journal_on. destruct (d_files d !! _) as [t|]; [|congruence].
  intros H1%journal_text_parse H2%journal_text_parse. destruct o, o'; naive_solver congruence.
Qed.

Lemma number_same d d' p : d_files d' !! p = d_files d !! p -> number_on d' p = number_on d p.
Proof. unfold number_on. by intros ->. Qed.

Lemma spares_refl names d : spares names d d.
Proof. by constructor. Qed.

Lemma spares_trans names d1 d2 d3 : "current" ∉ names -> spares names d1 d2 -> spares names d2 d3 -> spares names d1 d3.
Proof.
  intros Hc [F1 D1 S1] [F2 D2 S2]. constructor.
  - intros x Hx Hn. by rewrite F2, F1.
  - auto.
  - intros c Hs Hg. apply S2; [|by apply S1]. rewrite <- Hs. apply number_same, F1; [set_solver|done].
Qed.

Lemma spares_more names names' d d' : names ⊆ names' -> spares names d d' -> spares names' d d'.
Proof. intros Hn []. constructor; [|done..]. intros x Hx Hn'. apply sp_files0; [done|set_solver]. Qed.

Lemma spares_sees names d d' c f g : Forall (fun x => x ∉ names) ["current"; "accepted_floor"; "generation"] ->
  spares names d d' -> sees d c f g <-> sees d' c f g.
Proof.
  intros Hn Hs. rewrite !Forall_cons in Hn. destruct Hn as (? & ? & ? & _).
  split; intros []; constructor;
    (erewrite number_same; [eassumption|]); first [apply (sp_files names d d' Hs)|symmetry; apply (sp_files names d d' Hs)]; set_solver.
Qed.

Lemma spares_journal names d d' o : "activation.journal" ∉ names -> spares names d d' -> journal_on d o <-> journal_on d' o.
Proof. intros Hn Hs. unfold journal_on. rewrite (sp_files names d d' Hs) by set_solver. done. Qed.

Lemma spares_ready names d d' : "updater.lock" ∉ names -> spares names d d' -> ready d -> ready d'.
Proof. intros Hn Hs [Hd Hl]. split; [by eapply sp_dirs|]. rewrite (sp_files names d d' Hs) by set_solver. done. Qed.

(** Such a call keeps the invariant; authorization and lease are not part of it. *)
Lemma spares_inv d d' : spares ["authorization.json"; "updater.lock"] d d' -> inv d -> inv d' /\ advances d d'.
Proof.
  intros Hs [(c & f & g & o & Hsees & Hj & Hp & Hg) Ht]. set (names := ["authorization.json"; "updater.lock"]) in *.
  assert (sees d' c f g) as Hsees' by (eapply (spares_sees names d); [repeat constructor; set_solver|done..]).
  split; [constructor|].
  - exists c, f, g, o. split_and!; [done| |done|].
    + eapply (spares_journal names d); [set_solver|done..].
    + destruct Hg as [->|Hg]; [by left|right]. eapply sp_selected; [done|apply Hsees|done].
  - intros text roots. rewrite (sp_files _ d d' Hs) by set_solver. apply Ht.
  - intros c0 f0 g0 c1 f1 g1 H0 H1. destruct (sees_unique _ _ _ _ _ _ _ Hsees H0) as (-> & -> & ->).
    destruct (sees_unique _ _ _ _ _ _ _ Hsees' H1) as (-> & -> & ->). split; [lia|done].
Qed.

Lemma spares_J d d' : spares ["authorization.json"] d d' -> J d -> J d' /\ advances d d'.
Proof.
  intros Hs [Hinv Hr]. assert (spares ["authorization.json"; "updater.lock"] d d') as Hs' by (eapply spares_more; [|done]; set_solver).
  destruct (spares_inv d d' Hs' Hinv) as [Hinv' HA]. split_and!; [|done]. split; [done|].
  eapply (spares_ready ["authorization.json"] d); [set_solver|done..].
Qed.

(** Neither one of the updater's own files nor part of the selected release. *)
Definition free d (p : Path) : Prop :=
  Forall (fun x => p <> at_root root x) control_names
  /\ forall c, number_on d (at_root root "current") = Some c -> ~ below (release_directory root c) p.

Lemma at_root_inj x y : at_root root x = at_root root y -> x = y.
Proof. unfold at_root. by intros [= ?]%app_inv_head. Qed.

Lemma free_at_root d x : x ∉ control_names -> free d (at_root root x).
Proof.
  intros Hx. split; [|intros c _; apply release_below_root]. apply Forall_forall. intros y Hy Heq%at_root_inj. by subst.
Qed.

Lemma join_relative p name : p <> [] -> check_artifact_name name = inl tt -> join p name = p ++ relative_components name.
Proof.
  intros Hp. unfold check_artifact_name. destruct (starts_with "/" name) eqn:Es; [by rewrite orb_true_r|]. intros _.
  unfold join, is_absolute. rewrite Es. by destruct p.
Qed.

Lemma release_nonempty n : release_directory root n <> [].
Proof. rewrite release_directory_eq. by destruct root. Qed.

Lemma artifact_below n name : check_artifact_name name = inl tt ->
  below (release_directory root n) (join (release_directory root n) name).
Proof.
  intros Hn. rewrite join_relative by (done || apply release_nonempty). apply below_spec. by eexists.
Qed.

Lemma genuine_same d d' n : (forall q, below (release_directory root n) q -> d_files d' !! q = d_files d !! q) ->
  genuine d n -> genuine d' n.
Proof.
  intros Hsame (m & r & HT & Hs & Hn & Hall). exists m, r. split_and!; [done..|].
  eapply Forall_impl; [exact Hall|]. intros a (Hname & bytes & Hb & Hv). split; [done|]. exists bytes. split; [|done].
  rewrite <- Hb. by apply Hsame, artifact_below.
Qed.

Lemma touches_spares names ps d d' : touches ps d d' ->
  Forall (fun p => (exists x, x ∈ names /\ p = at_root root x) \/ free d p) ps -> spares names d d'.
Proof.
  intros [F D] Hps. rewrite Forall_forall in Hps. constructor.
  - intros x Hx Hn. apply F. intros Hp. destruct (Hps _ Hp) as [(y & Hy & Heq%at_root_inj)|[Hf _]]; [by subst|].
    rewrite Forall_forall in Hf. by apply (Hf x Hx).
  - set_solver.
  - intros c Hc. apply genuine_same. intros q Hq. apply F. intros Hp.
    destruct (Hps _ Hp) as [(y & Hy & ->)|[_ Hf]]; [by eapply release_below_root|by eapply Hf].
Qed.

Lemma touches_free_J p d d' : J d -> free d p -> touches [p] d d' -> J d' /\ advances d d'.
Proof.
  intros HJ Hf Ht. apply spares_J; [|done]. eapply touches_spares; [done|]. apply Forall_singleton. by right.
Qed.
End inv.
