(* ===== verification/UpdActivate.v ===== *)
(** * Recovery and activation under the invariant

    The rules for reads and writes; then [recover_activation_locked] and the activating half of [apply_update], call by call. *)

From stdpp Require Import pretty.
From S2P Require Import Prelude Result RustStr Text Effects UpdMeta UpdJournal Updater UpdSpec UpdInv.

(** * The updater's reads and writes under the invariant

    Rules of [dsafe] for the functions of [UpdJournal]: what the reads return, and what replacing a number
    file and appending to the journal do at every call. *)

Section ops.
Context `{C : UpdateLib} `{JL : JournalLib} `{!JournalLaws JL} (root : Path) (Trusted : string -> Prop).
Implicit Types (d : Disk).

Abbreviation J := (J root Trusted).
Abbreviation advances := (advances root Trusted).
Abbreviation safe := (dsafe J advances).
Abbreviation sees := (sees root).
Abbreviation journal_on := (journal_on root).
Abbreviation file x := (at_root root x).

Lemma same_J d : J d -> J d /\ advances d d.
Proof. intros HJ. apply spares_J; [apply spares_refl|done]. Qed.

(** ** Reads *)

Lemma read_number_safe p l1 l2 (Q : N + UpdaterError -> Disk -> Prop) d :
  J d -> (forall n, number_on d p = Some n -> Q (inl n) d) -> (forall e, Q (inr e) d) ->
  safe (read_number p l1 l2) Q d.
Proof.
  intros HJ Hok Herr. apply dsafe_fs. intros r d' [-> Hr]. destruct (same_J d HJ) as [? ?]. split_and!; [done..|].
  simpl. destruct r as [text|e].
  - destruct (parse_u64 (trim text)) as [n|e] eqn:Ep; [|done]. apply Hok. unfold number_on. by rewrite Hr, Ep.
  - destruct (io_not_found e); [|done]. apply Hok. unfold number_on. by rewrite Hr.
Qed.

Lemma read_selector_safe (Q : ActivationSelector + UpdaterError -> Disk -> Prop) d :
  J d -> (forall c f g, sees d c f g -> Q (inl (mkActivationSelector c f g)) d) -> (forall e, Q (inr e) d) ->
  safe (read_selector root) Q d.
Proof.
  intros HJ Hok Herr. destruct (layout_paths root) as (Hc & Hf & _ & Hg & _).
  unfold read_selector, read_floor. rewrite Hc, Hf, Hg. clear Hc Hf Hg.
  apply dsafe_try, read_number_safe; [done| |done]. intros c Hc.
  apply dsafe_try, read_number_safe; [done| |done]. intros f Hf.
  apply dsafe_try, read_number_safe; [done| |done]. intros g Hg.
  by apply Hok.
Qed.

Lemma read_last_safe (Q : option ActivationJournalRecord + UpdaterError -> Disk -> Prop) d :
  J d -> (forall o, journal_on d (Some o) -> Q (inl o) d) -> (forall e, Q (inr e) d) ->
  safe (read_last_journal_record root) Q d.
Proof.
  intros HJ Hok Herr. apply dsafe_fs. intros r d' [-> Hr]. destruct (same_J d HJ) as [? ?]. split_and!; [done..|].
  destruct (layout_paths root) as (_ & _ & Hp & _). rewrite Hp in Hr. clear Hp.
  destruct HJ as [[(c & f & g & o & _ & Hj & _) _] _]. destruct r as [text|e].
  - pose proof Hj as Hj'. unfold UpdInv.journal_on in Hj'. rewrite Hr in Hj'. apply journal_text_parse in Hj'.
    destruct o as [o|]; [rewrite Hj'; by apply Hok|]. destruct Hj' as [e ->]. apply Herr.
  - destruct (io_not_found e); [|apply Herr]. apply Hok. unfold UpdInv.journal_on. by rewrite Hr.
Qed.

(** ** Writes *)

(** What one call on a free file or on the file [x] of the updater may do *)
Lemma replace_number_safe x label n (Q : unit + UpdaterError -> Disk -> Prop) d tmp :
  J d -> free root d tmp -> file x <> tmp ->
  (forall d0 d', J d0 -> touches [tmp] d d0 -> touches [tmp; file x] d0 d' ->
     d_files d' !! file x = Some (pretty n +:+ String LF EmptyString) -> J d' /\ advances d0 d' /\ Q (inl tt) d') ->
  (forall e d', J d' -> touches [tmp] d d' -> Q (inr e) d') ->
  safe (replace_number tmp (file x) label n) Q d.
Proof.
  intros HJ Hfree Hx Hok Herr. unfold replace_number.
  assert (forall d0, touches [tmp] d d0 -> free root d0 tmp) as Hfree'.
  { intros d0 Ht. destruct Hfree as [Hf1 Hf2]. split; [done|]. intros c Hc. apply Hf2. rewrite <- Hc. symmetry.
    apply number_same, Ht. intros Heq%list_elem_of_singleton. rewrite Forall_forall in Hf1. apply (Hf1 "current"); [set_solver|done]. }
  assert (forall d0 d', J d0 -> touches [tmp] d d0 -> touches [tmp] d0 d' -> J d' /\ advances d0 d') as Hkeep.
  { intros d0 d' HJ0 Ht0 Ht. eapply touches_free_J; [done|by apply Hfree'|done]. }
  pose proof (touches_refl [tmp] d) as Ht0.
  apply dsafe_try, dsafe_fs_or. intros r d1 Hr. simpl in Hr.
  assert (touches [tmp] d d1 /\ (r = inl tt -> d_files d1 !! tmp = Some "")) as [Ht1 Hl1].
  { destruct Hr as [[Hf ->]|(-> & _ & _ & ->)]; [split; [done|by destruct r]|]. split; [apply create_touches|intros _; apply create_lookup]. }
  destruct (Hkeep d d1 HJ Ht0 Ht1) as [HJ1 HA1]. split_and!; [done..|]. destruct r as [[]|e]; [|by apply Herr].
  specialize (Hl1 eq_refl). clear Hr.
  apply dsafe_try, dsafe_fs_or. intros r d2 Hr. simpl in Hr.
  assert (touches [tmp] d1 d2 /\ (r = inl tt -> d_files d2 !! tmp = Some (pretty n +:+ String LF EmptyString))) as [Ht2 Hl2].
  { destruct r as [[]|e].
    - subst d2. split; [apply append_touches|].
      intros _. exact (append_lookup tmp _ "" d1 Hl1).
    - destruct Hr as (w & rest & _ & ->). split; [apply append_touches|done]. }
  destruct (Hkeep d1 d2 HJ1 Ht1 Ht2) as [HJ2 HA2]. pose proof (touches_trans _ _ _ _ Ht1 Ht2) as Ht2'.
  split_and!; [done..|]. destruct r as [[]|e]; [|by apply Herr]. specialize (Hl2 eq_refl). clear Hr.
  apply dsafe_try, dsafe_fs_or. intros r d3 Hr. cbn in Hr. subst d3. destruct (same_J d2 HJ2) as [_ HA2']. split_and!; [done..|].
  destruct r as [[]|e]; [|by apply Herr].
  apply dsafe_fs_or. intros r d3 Hr. simpl in Hr.
  destruct Hr as [[Hf ->]|(-> & text & Htext & _ & ->)].
  - split_and!; [done..|]. destruct r; [done|]. by apply Herr.
  - rewrite Hl2 in Htext. injection Htext as <-. apply Hok; [done..| |].
    + constructor; [|done]. intros q Hq. simpl. rewrite lookup_insert_ne, lookup_delete_ne by set_solver. done.
    + simpl. by rewrite lookup_insert_eq.
Qed.

Lemma number_written d p n : fits 64 n -> d_files d !! p = Some (pretty n +:+ String LF EmptyString) -> number_on d p = Some n.
Proof. intros Hn Hp. unfold number_on. by rewrite Hp, trim_number, parse_u64_pretty. Qed.

(** A journal that cannot be read, and whose last line is ended: appending does not make it readable. *)
Definition broken d : Prop :=
  exists t e, d_files d !! file "activation.journal" = Some t /\ ended t /\ parse_journal t = inr e.

(** Appending a record: afterwards the journal is as before, cannot be read, or ends with the record. *)
Definition appended d d' (o : option ActivationJournalRecord) (r : ActivationJournalRecord) (ok : bool) : Prop :=
  touches [file "activation.journal"] d d'
  /\ exists o', journal_on d' o' /\ (o' = Some (Some r) \/ (o' = None /\ (ok = true -> broken d')) \/ ok = false /\ o' = Some o).

Lemma create_parent_safe p l q (Q : unit + UpdaterError -> Disk -> Prop) d :
  J d -> parent p = Some q -> (forall r d', J d' -> touches [] d d' -> Q r d') -> safe (create_parent p l) Q d.
Proof.
  intros HJ Hp HQ. unfold create_parent. rewrite Hp. apply dsafe_fs_or. intros r d' (Hf & Hd).
  assert (touches [] d d') as Ht.
  { constructor; [by rewrite Hf|]. destruct r; [rewrite Hd; set_solver|by destruct Hd]. }
  assert (J d' /\ advances d d') as [HJ' HA].
  { apply spares_J; [|done]. eapply touches_spares; [done|]. constructor. }
  split_and!; [done..|]. by apply HQ.
Qed.

(** A journal that changes in a way the phase allows *)
Lemma journal_J d d' c f g o' : J d -> sees d c f g -> touches [file "activation.journal"] d d' ->
  journal_on d' o' -> phase c f g o' -> J d' /\ advances d d'.
Proof.
  intros [[(c0 & f0 & g0 & o & Hs & _ & _ & Hg) HT] Hr] Hs' Ht Hj Hp.
  destruct (sees_unique _ _ _ _ _ _ _ _ Hs Hs') as (-> & -> & ->).
  assert (spares root Trusted ["activation.journal"] d d') as Hsp.
  { eapply touches_spares; [done|]. apply Forall_singleton. left. exists "activation.journal". split; [set_solver|done]. }
  assert (sees d' c f g) as Hsees' by (eapply (spares_sees root Trusted ["activation.journal"] d); [repeat constructor; set_solver|done..]).
  split; [split; [constructor|]|].
  - exists c, f, g, o'. split_and!; [done..|]. destruct Hg as [->|Hg]; [by left|right].
    eapply sp_selected; [done|apply Hs|done].
  - intros text roots. rewrite (sp_files _ _ _ _ _ Hsp) by set_solver. apply HT.
  - eapply (spares_ready root Trusted ["activation.journal"] d); [set_solver|done..].
  - intros c0 f0 g0 c1 f1 g1 H0 H1. destruct (sees_unique _ _ _ _ _ _ _ _ Hs H0) as (-> & -> & ->).
    destruct (sees_unique _ _ _ _ _ _ _ _ Hsees' H1) as (-> & -> & ->). split; [lia|done].
Qed.

Lemma touches_sees d d' c f g : touches [file "activation.journal"] d d' -> sees d c f g -> sees d' c f g.
Proof.
  intros Ht Hs. eapply (spares_sees root Trusted ["activation.journal"] d d'); [repeat constructor; set_solver| |exact Hs].
  eapply touches_spares; [done|]. apply Forall_singleton. left. exists "activation.journal". split; [set_solver|done].
Qed.

Lemma write_journal_safe r (Q : unit + UpdaterError -> Disk -> Prop) d c f g o :
  J d -> sees d c f g -> journal_on d (Some o) -> phase c f g (Some o) -> phase c f g None -> phase c f g (Some (Some r)) ->
  (forall d', J d' -> appended d d' o r true -> Q (inl tt) d') ->
  (forall e d', J d' -> appended d d' o r false -> Q (inr e) d') ->
  safe (write_journal root r) Q d.
Proof.
  intros HJ Hs Hj Hpo Hpn Hpr Hok Herr. unfold write_journal.
  destruct (layout_paths root) as (_ & _ & -> & _). set (p := file "activation.journal").
  assert (forall d' o' b, touches [p] d d' -> journal_on d' o' ->
    (o' = Some (Some r) \/ (o' = None /\ (b = true -> broken d')) \/ b = false /\ o' = Some o) ->
    appended d d' o r b) as Happ by (intros; split; eauto).
  assert (forall d1 d2 o', J d1 -> touches [p] d d1 -> touches [p] d1 d2 -> journal_on d2 o' ->
    (o' = Some (Some r) \/ o' = None \/ o' = Some o) -> J d2 /\ advances d1 d2) as Hstep.
  { intros d1 d2 o' HJ1 Ht1 Ht2 Hj2 Ho'. eapply journal_J; [done|by eapply touches_sees|done..|].
    by destruct Ho' as [ -> | [ -> | -> ]]. }
  apply dsafe_try. eapply create_parent_safe; [done|by apply parent_app|]. intros res d1 HJ1 Ht1.
  assert (journal_on d1 (Some o)) as Hj1 by (unfold UpdInv.journal_on in *; by rewrite (to_files _ _ _ Ht1) by set_solver).
  apply (touches_more [] [p]) in Ht1; [|set_solver].
  destruct res as [[]|e]; [|apply Herr; eauto].
  (* open *)
  apply dsafe_try, dsafe_fs_or. intros res d2 Hr. simpl in Hr.
  assert (touches [p] d1 d2 /\ journal_on d2 (Some o)
    /\ (res = inl tt -> exists t, d_files d2 !! p = Some t /\ JournalText t (Some o))) as (Ht2 & Hj2 & Hl2).
  { destruct Hr as [[Hf ->]|(-> & _ & _ & ->)]; [split_and!; [apply touches_refl|done|by destruct res]|].
    split; [apply open_touches|]. unfold UpdInv.journal_on in *. fold p in Hj1 |- *. unfold open_on.
    destruct (d_files d1 !! p) as [t|] eqn:Ep; [rewrite Ep; eauto|]. rewrite create_lookup.
    injection Hj1 as ->. assert (JournalText "" (Some None)) by (apply text_ended; [by left|done]). eauto. }
  destruct (Hstep d1 d2 _ HJ1 Ht1 Ht2 Hj2 ltac:(auto)) as [HJ2 HA2]. pose proof (touches_trans _ _ _ _ Ht1 Ht2) as Ht2'.
  split_and!; [done..|]. destruct res as [[]|e]; [|apply Herr; eauto]. destruct (Hl2 eq_refl) as (t & Hp & Htext). clear Hr Hl2.
  apply dsafe_try, dsafe_or_invalid; [|intros e; apply Herr; eauto]. intros line Hline.
  (* the line *)
  apply dsafe_try, dsafe_fs_or. intros res d3 Hr. simpl in Hr.
  assert (exists written rest o', line = written +:+ rest /\ d3 = append_to p written d2 /\ (res = inl tt -> written = line)
    /\ JournalText (t +:+ written) o' /\ (o' = Some (Some r) \/ o' = None \/ o' = Some o)) as (w & rest & o3 & Hw & -> & Hres & Ht3 & Ho3).
  { assert (exists written rest, line = written +:+ rest /\ d3 = append_to p written d2 /\ (res = inl tt -> written = line))
      as (w & rest & Hw & Hd & Hres).
    { destruct res as [[]|e]; [exists line, ""; by rewrite app_nil_r_str|]. destruct Hr as (w & rest & ? & ?). by exists w, rest. }
    pose proof Hline as Hline'. rewrite Hw in Hline'.
    destruct (journal_text_part _ _ _ _ _ Htext Hline') as [Hx|[Hx|[_ Hx]]]; eauto 15. }
  clear Hr. assert (d_files (append_to p w d2) !! p = Some (t +:+ w)) as Hp3 by by apply append_lookup.
  assert (journal_on (append_to p w d2) o3) as Hj3 by (unfold UpdInv.journal_on; fold p; by rewrite Hp3).
  destruct (Hstep d2 (append_to p w d2) o3 HJ2 Ht2' (append_touches _ _ _) Hj3 Ho3) as [HJ3 HA3].
  pose proof (touches_trans _ _ _ _ Ht2' (append_touches p w d2)) as Ht3'.
  split_and!; [done..|]. destruct res as [[]|e].
  2:{ apply Herr; [done|]. eapply Happ; [done..|]. naive_solver. }
  specialize (Hres eq_refl). subst w. clear Hw rest.
  (* the line feed *)
  apply dsafe_try, dsafe_fs_or. intros res d4 Hr. simpl in Hr.
  assert (touches [p] (append_to p line d2) d4 /\ (res = inl tt -> exists o4, journal_on d4 o4 /\ (o4 = Some (Some r) \/ o4 = None /\ broken d4))
    /\ exists o4, journal_on d4 o4 /\ (o4 = Some (Some r) \/ o4 = None \/ o4 = Some o)) as (Ht4 & Hok4 & o4 & Hj4 & Ho4).
  { assert (forall o4, JournalText (t +:+ line +:+ String LF "") o4 -> journal_on (append_to p (String LF "") (append_to p line d2)) o4) as Hfull.
    { intros o4 Ho4. unfold UpdInv.journal_on. fold p. rewrite (append_lookup _ _ _ _ Hp3). by rewrite <- app_assoc_str. }
    assert (exists o4, journal_on (append_to p (String LF "") (append_to p line d2)) o4
        /\ (o4 = Some (Some r) \/ o4 = None /\ broken (append_to p (String LF "") (append_to p line d2)))) as Hx.
    { destruct (journal_text_line _ _ _ _ Htext Hline) as [Hx|Hx]; [eauto|]. exists None. split; [auto|]. right. split; [done|].
      apply journal_text_parse in Hx as [e He]. exists (t +:+ line +:+ String LF ""), e.
      rewrite (append_lookup _ _ _ _ Hp3), <- app_assoc_str. split_and!; [done|apply ended_line|done]. }
    destruct res as [[]|e].
    - subst d4. split_and!; [apply append_touches|done|naive_solver].
    - destruct Hr as (w & rest & Hw & ->). split_and!; [apply append_touches|done|].
      destruct w as [|a [|b w]]; cbn in Hw; [|injection Hw as <- _; naive_solver|done].
      exists o3. split; [|done]. unfold UpdInv.journal_on. fold p. rewrite (append_lookup _ _ _ _ Hp3). by rewrite app_nil_r_str. }
  destruct (Hstep _ d4 o4 HJ3 Ht3' Ht4 Hj4 Ho4) as [HJ4 HA4]. pose proof (touches_trans _ _ _ _ Ht3' Ht4) as Ht4'.
  split_and!; [done..|]. destruct res as [[]|e]; [|apply Herr; [done|]; eapply Happ; [done..|]; naive_solver].
  destruct (Hok4 eq_refl) as (o5 & Hj5 & Ho5). clear Hr.
  apply dsafe_fs_or. intros res d5 Hr. cbn in Hr. subst d5. destruct (same_J d4 HJ4) as [_ HA]. split_and!; [done..|].
  destruct res as [[]|e]; [apply Hok|apply Herr]; [done| |done|]; eapply Happ; [done|exact Hj5| |done|exact Hj5|]; naive_solver.
Qed.

(** Appending to a broken journal *)
Lemma write_journal_broken_safe r (Q : unit + UpdaterError -> Disk -> Prop) d c f g :
  J d -> sees d c f g -> broken d -> phase c f g None ->
  (forall r d', J d' -> touches [file "activation.journal"] d d' -> sees d' c f g -> journal_on d' None -> Q r d') ->
  safe (write_journal root r) Q d.
Proof.
  intros HJ Hs (t & e & Hp & Hend & Hbad) Hpn HQ. unfold write_journal.
  destruct (layout_paths root) as (_ & _ & -> & _). set (p := file "activation.journal") in *.
  set (extends := fun d' => exists x, d_files d' !! p = Some (t +:+ x)).
  assert (forall d', extends d' -> journal_on d' None) as Hext.
  { intros d' [x Hx]. unfold UpdInv.journal_on. fold p. rewrite Hx. apply (text_unreadable _ e).
    by rewrite parse_journal_app, Hbad. }
  assert (extends d) as Hext0 by (exists ""; by rewrite app_nil_r_str).
  assert (forall d1 bytes, extends d1 -> extends (append_to p bytes d1)) as Happend.
  { intros d1 bytes [x Hx]. exists (x +:+ bytes). by rewrite (append_lookup _ _ _ _ Hx), app_assoc_str. }
  assert (forall d1 d2, J d1 -> touches [p] d d1 -> touches [p] d1 d2 -> extends d2 -> J d2 /\ advances d1 d2) as Hstep.
  { intros d1 d2 HJ1 Ht1 Ht2 Hx2. eapply journal_J; [done|by eapply touches_sees|done|by apply Hext|done]. }
  assert (forall res d', J d' -> touches [p] d d' -> extends d' -> Q res d') as HQ'.
  { intros res d' HJ' Ht' Hx'. apply HQ; [done..| |by apply Hext]. by eapply touches_sees. }
  assert (forall l bytes d1 Q', J d1 -> touches [p] d d1 -> extends d1 ->
    (forall res d', J d' -> touches [p] d d' -> extends d' -> Q' res d') -> safe (fs_or l (WriteAll p bytes)) Q' d1) as Hwrite.
  { intros l bytes d1 Q' HJ1 Ht1 Hx1 HQ1. apply dsafe_fs_or. intros res d2 Hr. cbn in Hr.
    assert (exists w, d2 = append_to p w d1) as [w ->] by (destruct res; [eauto|destruct Hr as (w & ? & _ & ->); eauto]).
    destruct (Hstep d1 (append_to p w d1) HJ1 Ht1 (append_touches _ _ _) (Happend _ _ Hx1)) as [HJ2 HA2].
    split_and!; [done..|]. apply HQ1; [done| |by apply Happend]. eapply touches_trans; [done|apply append_touches]. }
  apply dsafe_try. eapply create_parent_safe; [done|by apply parent_app|]. intros res d1 HJ1 Ht1.
  assert (extends d1) as Hx1 by (destruct Hext0 as [x Hx]; exists x; by rewrite (to_files _ _ _ Ht1) by set_solver).
  apply (touches_more [] [p]) in Ht1; [|set_solver].
  destruct res as [[]|e']; [|by apply HQ'].
  apply dsafe_try, dsafe_fs_or. intros res d2 Hr. cbn in Hr.
  assert (d2 = d1) as ->.
  { destruct Hr as [[_ ->]|(_ & _ & _ & ->)]; [done|]. unfold open_on. by destruct Hx1 as [x ->]. }
  destruct (same_J d1 HJ1) as [_ HA1]. split_and!; [done..|]. destruct res as [[]|e']; [|by apply HQ'].
  apply dsafe_try, dsafe_or_invalid; [|intros ?; by apply HQ']. intros line _.
  apply dsafe_try, Hwrite; [done..|]. intros res d2 HJ2 Ht2 Hx2. destruct res as [[]|e']; [|by apply HQ'].
  apply dsafe_try, Hwrite; [done..|]. intros res d3 HJ3 Ht3 Hx3. destruct res as [[]|e']; [|by apply HQ'].
  apply dsafe_fs_or. intros res d4 Hr4. cbn in Hr4. subst d4. destruct (same_J d3 HJ3) as [_ HA3].
  split_and!; [done..|]. by apply HQ'.
Qed.
End ops.

(** * Recovery and activation under the invariant *)

Section activate.
Context `{C : UpdateLib} `{JL : JournalLib} `{!JournalLaws JL} (root : Path) (Trusted : string -> Prop).
Implicit Types (d : Disk).

Abbreviation J := (J root Trusted).
Abbreviation advances := (advances root Trusted).
Abbreviation safe := (dsafe J advances).
Abbreviation sees := (sees root).
Abbreviation journal_on := (journal_on root).
Abbreviation file x := (at_root root x).
Abbreviation spares := (spares root Trusted).

(** The files recovery and activation write *)
Definition state_files : list Path :=
  at_root root <$> ["current"; "accepted_floor"; "generation"; "activation.journal";
                    "current.tmp"; "accepted_floor.tmp"; "generation.tmp"].

(** New numbers that the phase allows *)
Lemma numbers_J d0 d' c f g c' f' g' o : J d0 -> sees d0 c f g -> journal_on d0 o ->
  sees d' c' f' g' -> spares ["current"; "accepted_floor"; "generation"] d0 d' -> phase c' f' g' o ->
  (c <= c' /\ f <= f' /\ g <= g')%N ->
  c' = c \/ (f < c')%N /\ authorized root Trusted d0 d' c' g ->
  J d' /\ advances d0 d' /\ journal_on d' o.
Proof.
  intros [[(c0 & f0 & g0 & o0 & Hs0 & Hj0 & _ & Hg) HT] Hr] Hs Hj Hs' Hsp Hp Hle Hsw.
  destruct (sees_unique _ _ _ _ _ _ _ _ Hs0 Hs) as (-> & -> & ->).
  assert (journal_on d' o) as Hj'.
  { eapply (spares_journal root Trusted ["current"; "accepted_floor"; "generation"] d0); [set_solver|done..]. }
  split_and!; [split; [constructor|]| |done].
  - exists c', f', g', o. split_and!; [done..|]. destruct Hsw as [->|(_ & ? & ? & ? & _ & _ & _ & _ & _ & _ & _ & _ & Hgen)]; [|by right].
    destruct Hg as [->|Hg]; [by left|right]. eapply sp_selected; [exact Hsp|apply Hs|done].
  - intros text roots. rewrite (sp_files _ _ _ _ _ Hsp) by set_solver. apply HT.
  - eapply (spares_ready root Trusted ["current"; "accepted_floor"; "generation"] d0); [set_solver|done..].
  - intros c1 f1 g1 c2 f2 g2 H1 H2. destruct (sees_unique _ _ _ _ _ _ _ _ Hs H1) as (-> & -> & ->).
    destruct (sees_unique _ _ _ _ _ _ _ _ Hs' H2) as (-> & -> & ->). split; [done|]. intros Hne. by destruct Hsw.
Qed.

(** The file [x] got the number [n]; the temporary file is gone. *)
Definition set_number d d' (tmp x : string) (n : N) : Prop :=
  touches [file tmp; file x] d d' /\ number_on d' (file x) = Some n.

Lemma set_number_spares d d' tmp x n : tmp ∉ control_names -> set_number d d' tmp x n -> spares [x] d d'.
Proof.
  intros Htmp [Ht _]. eapply touches_spares; [exact Ht|]. rewrite Forall_cons, Forall_singleton. split.
  - right. by apply free_at_root.
  - left. exists x. split; [set_solver|done].
Qed.

Lemma set_number_other d d' tmp x n y : set_number d d' tmp x n -> tmp ∉ control_names -> y ∈ control_names -> y <> x ->
  number_on d' (file y) = number_on d (file y).
Proof.
  intros [Ht _] Htmp Hy Hyx. apply number_same, Ht.
  intros [Heq|Heq%list_elem_of_singleton]%elem_of_cons; apply at_root_inj in Heq; by subst.
Qed.

Lemma touches_tmp_spares names d d' tmp : tmp ∉ control_names -> touches [file tmp] d d' -> spares names d d'.
Proof. intros Htmp Ht. eapply touches_spares; [done|]. apply Forall_singleton. right. by apply free_at_root. Qed.

Lemma touches_tmp_state d d' tmp c f g o : tmp ∉ control_names -> touches [file tmp] d d' ->
  sees d c f g -> journal_on d o -> sees d' c f g /\ journal_on d' o.
Proof.
  intros Htmp Ht Hs Hj. pose proof (touches_tmp_spares [] _ _ _ Htmp Ht) as Hsp. split.
  - eapply (spares_sees root Trusted [] d d'); [repeat constructor; set_solver|done..].
  - eapply (spares_journal root Trusted [] d d'); [set_solver|done..].
Qed.

(** A number other than the selector's *)
Lemma set_value_safe x label tmp n c' f' g' (Q : unit + UpdaterError -> Disk -> Prop) d c f g o :
  J d -> sees d c f g -> journal_on d o -> fits 64 n -> tmp ∉ control_names -> x ∈ ["accepted_floor"; "generation"] -> tmp <> x ->
  (forall d0 d', sees d0 c f g -> set_number d0 d' tmp x n -> sees d' c f' g') -> c' = c ->
  [file tmp; file x] ⊆ state_files ->
  (f <= f' /\ g <= g')%N -> phase c f' g' o ->
  (forall d', J d' -> touches state_files d d' -> sees d' c f' g' -> journal_on d' o -> Q (inl tt) d') ->
  (forall e d', J d' -> Q (inr e) d') ->
  safe (replace_number (file tmp) (file x) label n) Q d.
Proof.
  intros HJ Hs Hj Hn Htmp Hx Hne Hset -> Hfiles Hle Hp Hok Herr.
  apply replace_number_safe; [done|by apply free_at_root|by intros ?%at_root_inj| |auto].
  intros d0 d' HJ0 Ht0 Ht Hf. assert (set_number d0 d' tmp x n) as Hsn by (split; [done|by apply number_written]).
  destruct (touches_tmp_state _ _ _ _ _ _ _ Htmp Ht0 Hs Hj) as [Hs0 Hj0].
  pose proof (set_number_spares _ _ _ _ _ Htmp Hsn) as Hsp.
  destruct (numbers_J d0 d' c f g c f' g' o HJ0 Hs0 Hj0 (Hset _ _ Hs0 Hsn)) as (HJ' & HA & Hj'); [|done|lia|by left|].
  - eapply spares_more; [|exact Hsp]. set_solver.
  - split_and!; [done..|]. apply Hok; [done| |by eapply Hset|done].
    eapply touches_trans; (eapply touches_more; [|eassumption]); set_solver.
Qed.

Lemma write_floor_safe n (Q : unit + UpdaterError -> Disk -> Prop) d c f g o :
  J d -> sees d c f g -> journal_on d o -> fits 64 n -> (f <= n)%N -> phase c n g o ->
  (forall d', J d' -> touches state_files d d' -> sees d' c n g -> journal_on d' o -> Q (inl tt) d') ->
  (forall e d', J d' -> Q (inr e) d') ->
  safe (write_floor root n) Q d.
Proof.
  intros HJ Hs Hj Hn Hle Hp Hok Herr. unfold write_floor.
  destruct (layout_paths root) as (_ & -> & _). rewrite join_root by done.
  assert ("accepted_floor.tmp" ∉ control_names) as Htmp by by apply not_control.
  eapply set_value_safe with (c' := c) (f' := n) (g' := g); try done; [by constructor| |by unfold state_files; set_solver].
  intros d0 d' Hs0 Hset. constructor; [..|]; [|apply Hset|];
    (rewrite (set_number_other _ _ _ _ _ _ Hset Htmp); [apply Hs0|unfold control_names; set_solver|done]).
Qed.

Lemma write_generation_safe n (Q : unit + UpdaterError -> Disk -> Prop) d c f g o :
  J d -> sees d c f g -> journal_on d o -> fits 64 n -> (g <= n)%N -> phase c f n o ->
  (forall d', J d' -> touches state_files d d' -> sees d' c f n -> journal_on d' o -> Q (inl tt) d') ->
  (forall e d', J d' -> Q (inr e) d') ->
  safe (write_generation root n) Q d.
Proof.
  intros HJ Hs Hj Hn Hle Hp Hok Herr. unfold write_generation.
  destruct (layout_paths root) as (_ & _ & _ & -> & _). rewrite join_root by done.
  assert ("generation.tmp" ∉ control_names) as Htmp by by apply not_control.
  eapply set_value_safe with (c' := c) (f' := f) (g' := n); try done; [by constructor; constructor| |by unfold state_files; set_solver].
  intros d0 d' Hs0 Hset. constructor; [..|]; [| |apply Hset];
    (rewrite (set_number_other _ _ _ _ _ _ Hset Htmp); [apply Hs0|unfold control_names; set_solver|done]).
Qed.

(** The selector: it may move to a release whose [Prepare] record is the journal's last. *)
Lemma write_selector_safe n (Q : unit + UpdaterError -> Disk -> Prop) d c f g r :
  J d -> sees d c f g -> journal_on d (Some (Some r)) -> fits 64 n -> (c <= n)%N -> (f < n)%N -> phase n f g (Some (Some r)) ->
  (forall d0 d', touches state_files d d0 -> touches state_files d0 d' -> journal_on d0 (Some (Some r)) ->
     authorized root Trusted d0 d' n g) ->
  (forall d', J d' -> touches state_files d d' -> sees d' n f g -> journal_on d' (Some (Some r)) -> Q (inl tt) d') ->
  (forall e d', J d' -> Q (inr e) d') ->
  safe (replace_number (join root "current.tmp") (selector_path root) "selector" n) Q d.
Proof.
  intros HJ Hs Hj Hn Hle Hlt Hp Hauth Hok Herr.
  destruct (layout_paths root) as (-> & _). rewrite join_root by done.
  assert ("current.tmp" ∉ control_names) as Htmp by by apply not_control.
  apply replace_number_safe; [done|by apply free_at_root|by intros ?%at_root_inj| |auto].
  intros d0 d' HJ0 Ht0 Ht Hf. assert (set_number d0 d' "current.tmp" "current" n) as Hsn by (split; [done|by apply number_written]).
  destruct (touches_tmp_state _ _ _ _ _ _ _ Htmp Ht0 Hs Hj) as [Hs0 Hj0].
  assert (sees d' n f g) as Hs'.
  { constructor; [apply Hsn|..]; (rewrite (set_number_other _ _ _ _ _ _ Hsn Htmp); [apply Hs0|unfold control_names; set_solver|done]). }
  assert (touches state_files d d0) as Ht0' by (eapply touches_more; [|done]; unfold state_files; set_solver).
  assert (touches state_files d0 d') as Ht' by (eapply touches_more; [|done]; unfold state_files; set_solver).
  pose proof (set_number_spares _ _ _ _ _ Htmp Hsn) as Hsp.
  destruct (numbers_J d0 d' c f g n f g _ HJ0 Hs0 Hj0 Hs') as (HJ' & HA & Hj'); [|done|lia|right; by eauto|].
  - eapply spares_more; [|exact Hsp]. set_solver.
  - split_and!; [done..|]. apply Hok; [done|by eapply touches_trans|done|done].
Qed.

(** ** Recovery *)

(** Nothing is pending: the journal does not end with a [Prepare] record, or it cannot be read, whatever
    is appended. *)
Definition settled d : Prop :=
  (exists o, journal_on d (Some o) /\ forall r, o = Some r -> jr_phase r <> ActivationPhase.Prepare) \/ broken root d.

Lemma broken_journal d : broken root d -> journal_on d None.
Proof. intros (t & e & Ht & _ & He). unfold UpdInv.journal_on. rewrite Ht. by eapply text_unreadable. Qed.

Lemma appended_settled d d' o r : appended root d d' o r true -> jr_phase r <> ActivationPhase.Prepare -> settled d'.
Proof.
  intros [_ (o' & Hj & Ho)] Hr. destruct Ho as [->|[[-> Hb]|[? _]]]; [|right; by apply Hb|done].
  left. exists (Some r). split; [done|]. by intros ? [= <-].
Qed.

Lemma next_generation_ok g : (g + 1 <= u64_max)%N -> next_generation g = inl (g + 1)%N.
Proof. intros H. unfold next_generation. by rewrite decide_True. Qed.

Lemma appended_state d d' o r ok : appended root d d' o r ok -> touches state_files d d'.
Proof. intros [Ht _]. eapply touches_more; [|done]. unfold state_files. set_solver. Qed.

Lemma state_free d d' x : touches state_files d d' -> x ∈ ["authorization.json"; "trust_roots.json"; "updater.lock"] ->
  d_files d' !! file x = d_files d !! file x.
Proof.
  intros Ht Hx. apply Ht. unfold state_files. intros (y & Heq%at_root_inj & Hy)%list_elem_of_fmap. set_solver.
Qed.

Lemma state_genuine d d' n : touches state_files d d' -> genuine root Trusted d n -> genuine root Trusted d' n.
Proof.
  intros Ht. apply genuine_same. intros q Hq. apply Ht. unfold state_files.
  intros (y & -> & _)%list_elem_of_fmap. by eapply release_below_root.
Qed.

(** A [Prepare] record of the selected release, once the floor is there *)
Lemma finish_recovery_safe r (Q : ActivationSelector + UpdaterError -> Disk -> Prop) d c f g :
  J d -> (f <= c)%N -> sees d c c g -> journal_on d (Some (Some r)) -> jr_phase r = ActivationPhase.Prepare -> c = jr_sequence r ->
  (g = jr_generation r \/ g = jr_generation r + 1)%N -> (jr_generation r + 1 <= u64_max)%N ->
  (forall d', J d' -> touches state_files d d' -> sees d' c c (jr_generation r + 1) -> settled d' ->
     Q (inl (mkActivationSelector c c (jr_generation r + 1))) d') ->
  (forall e d', J d' -> Q (inr e) d') ->
  safe (let! generation := Ret (next_generation (jr_generation r)) in
        let! _ := write_generation root generation in
        let! _ := write_journal root (with_phase ActivationPhase.Committed r generation) in
        Ret (inl (mkActivationSelector (jr_sequence r) (N.max (jr_sequence r) f) generation))) Q d.
Proof.
  intros HJ Hfc Hs Hj Hphase Hc Hg Hmax Hok Herr. rewrite next_generation_ok by done.
  apply dsafe_try_ret, dsafe_try.
  eapply write_generation_safe with (o := Some (Some r)); [done..| | | |auto]; [lia|unfold phase; rewrite Hphase; right; right; lia|].
  intros d1 HJ1 Ht1 Hs1 Hj1. apply dsafe_try.
  eapply write_journal_safe; [done..| | | | |auto].
  - unfold phase. rewrite Hphase. right; right. lia.
  - done.
  - done.
  - intros d2 HJ2 Happ. simpl. rewrite <- Hc, N.max_l by done. apply (Hok d2); [done| | |by eapply appended_settled].
    + eapply touches_trans; [done|by eapply appended_state].
    + apply (touches_sees root Trusted d1); [apply Happ|done].
Qed.

(** What a recovery that succeeds leaves: selector and floor are equal, and nothing is pending. *)
Lemma recover_locked_safe (Q : ActivationSelector + UpdaterError -> Disk -> Prop) d :
  J d ->
  (forall d' c g, J d' -> touches state_files d d' -> sees d' c c g -> settled d' ->
     Q (inl (mkActivationSelector c c g)) d') ->
  (forall e d', J d' -> Q (inr e) d') ->
  safe (recover_activation_locked root) Q d.
Proof.
  intros HJ Hok Herr. pose proof HJ as [[(c & f & g & o & Hs & Hj & Hp & _) _] _]. unfold recover_activation_locked.
  apply dsafe_try, read_selector_safe; [done| |auto]. intros c1 f1 g1 Hs1.
  destruct (sees_unique _ _ _ _ _ _ _ _ Hs Hs1) as (<- & <- & <-). clear Hs1.
  apply dsafe_try, read_last_safe; [done| |auto]. intros last Hj1.
  pose proof (journal_on_unique root Trusted _ _ _ Hj Hj1) as ->. clear Hj1. simpl.
  destruct last as [r|]; [|simpl in Hp; subst f; eapply Hok; [done|apply touches_refl|done|left; by exists None]].
  destruct (jr_phase r) eqn:Hphase; unfold phase in Hp; rewrite Hphase in Hp.
  - case_decide as Hcs.
    + assert (f <= c /\ (g = jr_generation r \/ g = jr_generation r + 1) /\ jr_generation r + 1 <= u64_max)%N
        as (Hfc & Hg & Hmax) by lia.
      apply dsafe_try. case_decide as Hfl.
      * rewrite <- Hcs. eapply write_floor_safe with (o := Some (Some r)); [done..| | | | |auto].
        -- destruct Hs as [Hcur _ _]. unfold number_on in Hcur. destruct (d_files d !! file "current"); [|by injection Hcur as <-].
           destruct (parse_u64 _) as [n|] eqn:Ep; [|done]. injection Hcur as <-. by eapply parse_u64_fits.
        -- lia.
        -- unfold phase. rewrite Hphase. right; right. lia.
        -- intros d1 HJ1 Ht1 Hs1 Hj1. rewrite Hcs. eapply (finish_recovery_safe r _ d1 c f g); [done..| |auto].
           intros d2 HJ2 Ht2. apply Hok; [done|]. by eapply touches_trans.
      * simpl. assert (f = c) as -> by lia. eapply (finish_recovery_safe r _ d c c g); [done..|eauto|auto].
    + assert (c = f) as <- by lia. apply dsafe_try. eapply write_journal_safe; [done..| | | | |auto].
      * unfold phase. rewrite Hphase. left. lia.
      * done.
      * done.
      * intros d1 HJ1 Happ. simpl. apply (Hok d1 c g); [done|by eapply appended_state| |by eapply appended_settled].
        apply (touches_sees root Trusted d); [apply Happ|done].
  - simpl. subst f. eapply Hok; [done|apply touches_refl|done|]. left. exists (Some r). split; [done|]. intros ? [= <-]. congruence.
  - simpl. subst f. eapply Hok; [done|apply touches_refl|done|]. left. exists (Some r). split; [done|]. intros ? [= <-]. congruence.
Qed.

(** ** Activation *)

(** The issued authorization is on the disk. *)
Definition issued d (auth : ActivationAuthorization) : Prop :=
  exists text, d_files d !! file "authorization.json" = Some text /\ authorization_from_str text = inl auth.

Lemma issued_state d d' auth : touches state_files d d' -> issued d auth -> issued d' auth.
Proof. intros Ht (text & Hf & Ha). exists text. split; [|done]. rewrite <- Hf. eapply state_free; [done|set_solver]. Qed.

Lemma commit_safe auth r c (Q : ActivationSelector + UpdaterError -> Disk -> Prop) d :
  J d -> sees d c c (aa_expected_generation auth) -> journal_on d (Some (Some r)) ->
  jr_phase r = ActivationPhase.Prepare -> jr_sequence r = aa_candidate_sequence auth ->
  jr_owner_token r = aa_owner_token auth -> jr_generation r = aa_expected_generation auth ->
  (c < aa_candidate_sequence auth)%N -> fits 64 (aa_candidate_sequence auth) ->
  genuine root Trusted d (aa_candidate_sequence auth) -> issued d auth ->
  (forall d', J d' -> touches state_files d d' ->
     sees d' (aa_candidate_sequence auth) (aa_candidate_sequence auth) (aa_expected_generation auth + 1) ->
     Q (inl (mkActivationSelector (aa_candidate_sequence auth) (aa_candidate_sequence auth) (aa_expected_generation auth + 1))) d') ->
  (forall e d', J d' -> Q (inr e) d') ->
  safe (commit_activation_unlocked root (aa_candidate_sequence auth) (aa_expected_generation auth)) Q d.
Proof.
  set (n := aa_candidate_sequence auth). set (g := aa_expected_generation auth).
  intros HJ Hs Hj Hph Hseq Htok Hgen Hlt Hfit Hgenuine Hiss Hok Herr. unfold commit_activation_unlocked.
  apply dsafe_try, read_selector_safe; [done| |auto]. intros c0 f0 g0 Hs0.
  destruct (sees_unique _ _ _ _ _ _ _ _ Hs Hs0) as (<- & <- & <-). simpl as_generation. rewrite decide_False by (by intros []).
  apply dsafe_try_ret. unfold next_generation. case_decide as Hmax; [|by apply Herr]. cbn [as_current_sequence as_accepted_floor].
  rewrite decide_False by lia. apply dsafe_try.
  eapply create_parent_safe; [done|destruct (layout_paths root) as (-> & _); by apply parent_app|].
  intros res d1 HJ1 Ht1. destruct res as [[]|e]; [|by apply Herr].
  assert (touches state_files d d1) as Ht1' by (apply (touches_more []); [apply list_subseteq_nil|done]).
  assert (sees d1 c c g) as Hs1.
  { apply (touches_sees root Trusted d); [|done]. apply (touches_more []); [apply list_subseteq_nil|done]. }
  assert (journal_on d1 (Some (Some r))) as Hj1 by (unfold UpdInv.journal_on; by rewrite (to_files _ _ _ Ht1) by set_solver).
  assert (phase n c g (Some (Some r)) /\ phase n n g (Some (Some r)) /\ phase n n (g + 1) (Some (Some r))) as (Hp1 & Hp2 & Hp3).
  { unfold phase. rewrite Hph. split_and!; [right; left|right; right..]; lia. }
  apply dsafe_try. eapply write_selector_safe; [done..|lia|lia|done| | |auto].
  { intros d2 d3 Ht2 Ht3 Hj2.
    destruct (issued_state d1 d2 auth Ht2 (issued_state _ _ _ Ht1' Hiss)) as (text & Hf & Ha).
    exists text, auth, r. split_and!; try done.
    eapply state_genuine; [exact Ht3|]. eapply state_genuine; [exact Ht2|]. by eapply state_genuine. }
  intros d2 HJ2 Ht2 Hs2 Hj2. apply dsafe_try. eapply write_floor_safe with (o := Some (Some r)); [done..|lia|done| |auto].
  intros d3 HJ3 Ht3 Hs3 Hj3. apply dsafe_try. eapply write_generation_safe with (o := Some (Some r)); [done..|lia|done| |auto].
  intros d4 HJ4 Ht4 Hs4 Hj4. apply dsafe_try, read_last_safe; [done| |auto]. intros o5 Hj5.
  pose proof (journal_on_unique root Trusted _ _ _ Hj4 Hj5) as [= <-].
  apply dsafe_try. eapply write_journal_safe; [done..| | | |auto]; [done|done|].
  intros d5 HJ5 Happ. apply Hok; [done| |].
  - eapply touches_trans; [done|]. eapply touches_trans; [done|]. eapply touches_trans; [done|].
    eapply touches_trans; [done|]. by eapply appended_state.
  - apply (touches_sees root Trusted d4); [apply Happ|done].
Qed.

Lemma activate_safe verified auth c g (Q : ActivationSelector + UpdaterError -> Disk -> Prop) d :
  J d -> sees d c c g -> settled d -> vr_sequence verified = aa_candidate_sequence auth ->
  (c < aa_candidate_sequence auth)%N -> fits 64 (aa_candidate_sequence auth) ->
  genuine root Trusted d (aa_candidate_sequence auth) -> issued d auth ->
  (forall d', J d' -> sees d' (aa_candidate_sequence auth) (aa_candidate_sequence auth) (aa_expected_generation auth + 1) ->
     Q (inl (mkActivationSelector (aa_candidate_sequence auth) (aa_candidate_sequence auth) (aa_expected_generation auth + 1))) d') ->
  (forall e d', J d' -> Q (inr e) d') ->
  safe (activate root verified auth) Q d.
Proof.
  intros HJ Hs Hset Hv Hlt Hfit Hgen Hiss Hok Herr. unfold activate.
  apply dsafe_try, read_selector_safe; [done| |auto]. intros c0 f0 g0 Hs0.
  destruct (sees_unique _ _ _ _ _ _ _ _ Hs Hs0) as (<- & <- & <-). cbn [as_generation as_current_sequence]. clear Hs0.
  case_decide as Hg; [by apply Herr|]. subst g. rewrite Hv.
  set (r := {| jr_phase := ActivationPhase.Prepare; jr_sequence := aa_candidate_sequence auth; jr_previous_sequence := c;
               jr_owner_token := aa_owner_token auth; jr_generation := aa_expected_generation auth |}).
  apply dsafe_try. unfold journal_prepare_owned. fold r.
  assert (forall e d', J d' -> Q (inr e) d') as Herr' by done.
  destruct Hset as [(o & Hj & Ho)|Hbroken].
  - eapply write_journal_safe; [done..| | | | |auto].
    + destruct o as [r'|]; [|done]. unfold phase. specialize (Ho _ eq_refl). by destruct (jr_phase r').
    + done.
    + unfold phase. cbn. left. lia.
    + intros d1 HJ1 [Ht1 (o1 & Hj1 & Ho1)]. unfold commit_activation_owned.
      apply dsafe_try, read_last_safe; [done| |auto]. intros last Hj1'.
      pose proof (journal_on_unique root Trusted _ _ _ Hj1 Hj1') as ->. destruct Ho1 as [[= ->]|[[? _]|[? _]]]; [|done..].
      rewrite decide_False by (cbn; naive_solver).
      eapply commit_safe with (r := r) (c := c); try done.
      * by apply (touches_sees root Trusted d).
      * eapply state_genuine; [|done]. eapply touches_more; [|done]. unfold state_files; set_solver.
      * eapply issued_state; [|done]. eapply touches_more; [|done]. unfold state_files; set_solver.
      * intros d2 HJ2 _. by apply Hok.
  - eapply write_journal_broken_safe; [done..|]. intros res d1 HJ1 Ht1 Hs1 Hj1. destruct res as [[]|e]; [|by apply Herr].
    unfold commit_activation_owned. apply dsafe_try, read_last_safe; [done| |auto]. intros last Hj1'.
    by pose proof (journal_on_unique root Trusted _ _ _ Hj1 Hj1').
Qed.
End activate.
