(* ===== verification/UpdStage.v ===== *)
(** * Staging, discarding and authorizing under the invariant

    Staging writes below the candidate's directory only, and what it leaves is complete; [apply_locked],
    [discard_locked] and the owner's [authorize] keep the invariant at every call. *)

From stdpp Require Import pretty.
From S2P Require Import Prelude RustStr Text Result Effects UpdMeta UpdJournal Updater UpdSpec UpdInv UpdActivate.

Section stage.
Context `{C : UpdateLib} `{JL : JournalLib} `{!JournalLaws JL} (root : Path) (Trusted : string -> Prop).
Implicit Types (d : Disk).

Abbreviation J := (J root Trusted).
Abbreviation advances := (advances root Trusted).
Abbreviation safe := (dsafe J advances).
Abbreviation sees := (sees root).
Abbreviation file x := (at_root root x).
Abbreviation dir n := (release_directory root n).

(** The updater's control files never lie in a release. *)
Lemma tcb_outside n : assert_tcb_outside_candidate root n = inl tt.
Proof.
  unfold assert_tcb_outside_candidate.
  assert (forall x, x <> "releases" -> path_starts_with (dir n) (file x) = false
    /\ match path_strip_prefix root (file x) with Some rel => path_starts_with ["releases"] rel | None => false end = false) as Hx.
  { intros x Hx. split; [apply not_true_is_false, release_below_root|].
    unfold at_root. rewrite strip_prefix_path. unfold path_starts_with. simpl. by rewrite decide_False by congruence. }
  match goal with |- (match try_each ?f ?l with _ => _ end) = _ => assert (try_each f l = inl tt) as -> end.
  - apply try_each_ok. cbn [layout ul_trust_roots ul_accepted_floor ul_journal ul_authorization ul_generation ul_selector].
    rewrite !join_root by done.
    assert (Forall (fun x => x <> "releases")
      ["trust_roots.json"; "accepted_floor"; "activation.journal"; "authorization.json"; "generation"; "current"]) as Hnames
      by (rewrite !Forall_cons; by split_and!).
    change [file "trust_roots.json"; file "accepted_floor"; file "activation.journal"; file "authorization.json";
            file "generation"; file "current"]
      with (at_root root <$> ["trust_roots.json"; "accepted_floor"; "activation.journal"; "authorization.json"; "generation"; "current"]).
    rewrite Forall_fmap. eapply Forall_impl; [exact Hnames|]. intros x Hne. simpl.
    destruct (Hx x Hne) as [-> Hrel]. by destruct (path_strip_prefix root (file x)) as [rel|]; [rewrite Hrel|].
  - by rewrite decide_False by (by intros []).
Qed.

(** [d'] is [d] but for what is below the directory of release [n]. *)
Record staged_from (n : N) d d' : Prop := {
  sf_files q : ~ below (dir n) q -> d_files d' !! q = d_files d !! q;
  sf_dirs : d_dirs d ⊆ d_dirs d';
}.

Lemma staged_refl n d : staged_from n d d.
Proof. by constructor. Qed.

Lemma staged_trans n d1 d2 d3 : staged_from n d1 d2 -> staged_from n d2 d3 -> staged_from n d1 d3.
Proof. intros [F1 D1] [F2 D2]. constructor; [intros q Hq; by rewrite F2, F1|set_solver]. Qed.

Lemma touches_staged n p d d' : below (dir n) p -> touches [p] d d' -> staged_from n d d'.
Proof. intros Hp [F D]. constructor; [|done]. intros q Hq. apply F. intros ->%list_elem_of_singleton. done. Qed.

Lemma touches_nil_staged n d d' : touches [] d d' -> staged_from n d d'.
Proof. intros [F D]. constructor; [|done]. intros q _. apply F. set_solver. Qed.

Lemma staged_file n d d' x : staged_from n d d' -> d_files d' !! file x = d_files d !! file x.
Proof. intros Hs. apply (sf_files _ _ _ Hs), release_below_root. Qed.

Lemma staged_sees n d d' c f g : staged_from n d d' -> sees d c f g -> sees d' c f g.
Proof. intros Hs []. constructor; (erewrite number_same; [eassumption|by apply (staged_file n)]). Qed.

Lemma staged_settled n d d' : staged_from n d d' -> settled root d -> settled root d'.
Proof.
  intros Hs Hset. unfold settled, broken, UpdInv.journal_on in *. by rewrite (staged_file n d d').
Qed.

Lemma staged_J n d d' c f g : J d -> sees d c f g -> n <> c -> staged_from n d d' -> J d' /\ advances d d'.
Proof.
  intros HJ Hs Hne Hst. apply spares_J; [|done]. constructor.
  - intros x _ _. by apply (staged_file n).
  - pose proof (sf_dirs _ _ _ Hst). set_solver.
  - intros c' Hc'. assert (c' = c) as -> by (destruct Hs; congruence). apply genuine_same. intros q Hq.
    apply (sf_files _ _ _ Hst). by eapply releases_apart.
Qed.

(** ** One artifact *)

Definition artifact_staged (n : N) (verified : VerifiedRelease) d (item : string * string) : Prop :=
  check_artifact_name item.1 = inl tt /\ verify_artifact_bytes verified item.1 item.2 = inl tt
  /\ d_files d !! join (dir n) item.1 = Some item.2.

Lemma stage_artifact_safe n verified item (Q : unit + UpdaterError -> Disk -> Prop) d c f g :
  J d -> sees d c f g -> n <> c -> dir n ∈ d_dirs d ->
  (forall d', J d' -> staged_from n d d' -> artifact_staged n verified d' item ->
     d_files d !! join (dir n) item.1 = None ->
     (forall q, q <> join (dir n) item.1 -> d_files d' !! q = d_files d !! q) -> Q (inl tt) d') ->
  (forall e d', J d' -> Q (inr e) d') ->
  safe (stage_artifact verified (dir n) item) Q d.
Proof.
  destruct item as [name bytes]. intros HJ Hs Hne Hdir Hok Herr. unfold stage_artifact. cbn [fst snd] in *.
  apply dsafe_try_ret. destruct (check_artifact_name name) as [[]|e] eqn:Hname; [|by apply Herr].
  apply dsafe_try_ret. destruct (verify_artifact_bytes verified name bytes) as [[]|e] eqn:Hv; [|by apply Herr].
  pose proof (artifact_below root n name Hname) as Hbelow. set (p := join (dir n) name) in *.
  assert (forall d1 d2, J d1 -> staged_from n d d1 -> staged_from n d1 d2 -> J d2 /\ advances d1 d2) as Hstep.
  { intros d1 d2 HJ1 Hst1 Hst2. eapply staged_J; [done|by eapply staged_sees|done|done]. }
  apply dsafe_fs. intros found d1 [-> Hfound]. destruct (same_J root Trusted d HJ) as [_ HA]. split_and!; [done..|]. clear HA.
  destruct found; [by apply Herr|]. symmetry in Hfound. apply bool_decide_eq_false in Hfound.
  assert (d_files d !! p = None) as Hnone by (apply eq_None_not_Some; intros ?; apply Hfound; by left).
  apply dsafe_try. assert (exists q, parent p = Some q) as [q Hq].
  { unfold parent. rewrite decide_False; [eauto|]. intros Hp. apply Hfound. right.
    assert (p = dir n) as ->; [|done]. apply below_spec in Hbelow as [r Hr]. rewrite Hr in Hp |- *.
    rewrite release_directory_eq in Hp |- *. destruct root as [|? [|]]; destruct Hp as [Hp|Hp]; discriminate Hp. }
  eapply create_parent_safe; [done..|]. intros res d1 HJ1 Ht1. pose proof (touches_nil_staged n _ _ Ht1) as Hst1.
  destruct res as [[]|e]; [|by apply Herr].
  apply dsafe_try, dsafe_fs_or. intros res d2 Hr. cbn in Hr.
  assert (touches [p] d1 d2 /\ (res = inl tt -> d_files d2 !! p = Some "")) as [Ht2 Hl2].
  { destruct Hr as [[Hf ->]|(-> & _ & _ & ->)]; [split; [apply touches_refl|by destruct res]|]. split; [apply create_touches|intros _; apply create_lookup]. }
  destruct (Hstep d1 d2 HJ1 Hst1 (touches_staged _ _ _ _ Hbelow Ht2)) as [HJ2 HA2].
  split_and!; [done..|]. destruct res as [[]|e]; [|by apply Herr]. specialize (Hl2 eq_refl). clear Hr.
  pose proof (staged_trans _ _ _ _ Hst1 (touches_staged _ _ _ _ Hbelow Ht2)) as Hst2.
  apply dsafe_try, dsafe_fs_or. intros res d3 Hr. cbn in Hr.
  assert (touches [p] d2 d3 /\ (res = inl tt -> d_files d3 !! p = Some bytes)) as [Ht3 Hl3].
  { destruct res as [[]|e].
    - subst d3. split; [apply append_touches|]. intros _. exact (append_lookup p _ "" d2 Hl2).
    - destruct Hr as (w & rest & _ & ->). split; [apply append_touches|done]. }
  destruct (Hstep d2 d3 HJ2 Hst2 (touches_staged _ _ _ _ Hbelow Ht3)) as [HJ3 HA3].
  split_and!; [done..|]. destruct res as [[]|e]; [|by apply Herr]. specialize (Hl3 eq_refl). clear Hr.
  pose proof (staged_trans _ _ _ _ Hst2 (touches_staged _ _ _ _ Hbelow Ht3)) as Hst3.
  destruct (same_J root Trusted d3 HJ3) as [_ HA].
  apply dsafe_try, dsafe_fs_or. intros res d4 Hr. cbn in Hr. subst d4. split_and!; [done..|]. destruct res as [[]|e]; [|by apply Herr].
  apply dsafe_try, dsafe_fs_or. intros res d4 Hr. cbn in Hr. subst d4. split_and!; [done..|]. destruct res as [[]|e]; [|by apply Herr].
  apply dsafe_fs_or. intros res d4 Hr. cbn in Hr. subst d4. split_and!; [done..|]. destruct res as [[]|e]; [|by apply Herr].
  apply Hok; [done..|].
  intros q' Hq'. rewrite (to_files _ _ _ Ht3), (to_files _ _ _ Ht2), (to_files _ _ _ Ht1) by set_solver. done.
Qed.

(** ** The whole release *)

(** A call that only reads *)
Lemma read_only_safe {X B} (e : FsEff X) (k : X -> UTask B) (Q : B -> Disk -> Prop) d :
  (forall x d', fs_step _ e d x d' -> d' = d) -> J d -> (forall x, fs_step _ e d x d -> safe (k x) Q d) ->
  safe (bind_task (fs e) k) Q d.
Proof.
  intros He HJ Hk. apply dsafe_fs. intros x d' Hx. pose proof (He x d' Hx) as ->.
  destruct (same_J root Trusted d HJ). split_and!; [done..|]. by apply Hk.
Qed.

Lemma check_staged_safe n verified (Q : unit + UpdaterError -> Disk -> Prop) d :
  J d -> Q (inl tt) d -> (forall e, Q (inr e) d) -> safe (each_task (check_staged (dir n)) (vr_artifacts verified)) Q d.
Proof.
  intros HJ Hok Herr. apply (dsafe_fold _ _ _ (fun _ _ d' => d' = d)); [done| |by intros [] d' ->].
  intros done_ a rest [] d' _ ->. unfold check_staged. apply read_only_safe; [by intros x d' [-> _]|done|].
  intros [] _; [done|apply Herr].
Qed.

Lemma stage_verified_release_safe n verified artifacts (Q : StagedRelease + UpdaterError -> Disk -> Prop) d c f g :
  J d -> sees d c f g -> n <> c -> vr_sequence verified = n ->
  (forall d', J d' -> staged_from n d d' -> Forall (artifact_staged n verified d') artifacts ->
     Q (inl (mkStagedRelease n root)) d') ->
  (forall e d', J d' -> Q (inr e) d') ->
  safe (stage_verified_release root verified artifacts) Q d.
Proof.
  intros HJ Hs Hne Hv Hok Herr. unfold stage_verified_release. rewrite tcb_outside. apply dsafe_try_ret.
  case_decide as Hlen; [by apply Herr|]. unfold staged_directory. cbn [sr_root sr_sequence]. rewrite Hv.
  apply read_only_safe; [by intros x d' [-> _]|done|]. intros [] Hfound; [by apply Herr|].
  apply dsafe_try, dsafe_fs_or. intros res d1 Hr. cbn in Hr. destruct Hr as (Hf1 & Hd1).
  assert (staged_from n d d1 /\ (res = inl tt -> dir n ∈ d_dirs d1)) as [Hst1 Hdir1].
  { destruct res as [[]|e]; split; try done.
    - constructor; [by rewrite Hf1|rewrite Hd1; set_solver].
    - intros _. rewrite Hd1. apply elem_of_union_r, in_ancestors. exists []. by rewrite app_nil_r.
    - constructor; [by rewrite Hf1|by destruct Hd1]. }
  destruct (staged_J n d d1 c f g HJ Hs Hne Hst1) as [HJ1 HA1]. split_and!; [done..|].
  destruct res as [[]|e]; [|by apply Herr]. specialize (Hdir1 eq_refl).
  apply dsafe_try. apply (dsafe_fold _ _ _ (fun items _ d' => J d' /\ staged_from n d1 d' /\ Forall (artifact_staged n verified d') items)).
  - by split_and!; [done|apply staged_refl|constructor].
  - intros items item rest [] d2 _ (HJ2 & Hst2 & Hall). pose proof (staged_trans _ _ _ _ Hst1 Hst2) as Hst.
    eapply stage_artifact_safe; [done|by eapply staged_sees|done|by apply (sf_dirs _ _ _ Hst2)| |auto].
    intros d3 HJ3 Hst3 Hitem Hnew Hother. split_and!; [done|by eapply staged_trans|].
    apply Forall_app. split; [|by apply Forall_singleton].
    eapply Forall_impl; [exact Hall|]. intros [name bytes] (Hn & Hb & Hl). split_and!; [done..|].
    rewrite Hother; [done|]. intros Heq. cbn [fst snd] in *. congruence.
  - intros [] d2 (HJ2 & Hst2 & Hall). apply dsafe_try. apply check_staged_safe; [done| |auto].
    apply Hok; [done|by eapply staged_trans|done].
Qed.

Lemma smoke_safe staged command args (Q : unit + UpdaterError -> Disk -> Prop) d :
  J d -> Q (inl tt) d -> (forall e, Q (inr e) d) -> safe (smoke_staged_release staged command args) Q d.
Proof.
  intros HJ Hok Herr. unfold smoke_staged_release. destruct (is_empty command); [apply Herr|].
  destruct (_ || _); [apply Herr|]. apply read_only_safe; [by intros x d' [-> _]|done|]. intros [] _; [|apply Herr].
  apply dsafe_try, dsafe_bind. cbn [fs]. destruct (same_J root Trusted d HJ) as [_ HA]. split; [done|].
  intros x d' Hx. cbn in Hx. subst d'. split_and!; [done..|]. cbn.
  destruct x as [status|e]; [|apply Herr]. destruct (es_success status); [apply Hok|apply Herr].
Qed.

Lemma fetch_safe package verified (Q : list FetchedArtifact + UpdaterError -> Disk -> Prop) d :
  J d -> (forall items, fa_name <$> items = ad_name <$> vr_artifacts verified -> Q (inl items) d) -> (forall e, Q (inr e) d) ->
  safe (fetch_artifacts_from_dir package verified) Q d.
Proof.
  intros HJ Hok Herr. destruct (same_J root Trusted d HJ) as [_ HA]. unfold fetch_artifacts_from_dir.
  apply read_only_safe; [by intros x d' ->|done|]. intros [] _; [|apply Herr].
  apply (dsafe_fold _ _ _ (fun xs items d' => d' = d /\ fa_name <$> items = ad_name <$> xs)); [done| |].
  - intros xs a rest items d' _ [-> Hitems]. unfold fetch_artifact. apply dsafe_try_ret.
    destruct (check_artifact_name (ad_name a)) as [[]|e]; [|apply Herr].
    apply dsafe_try, dsafe_fs_or. intros res d' Hr. cbn in Hr. subst d'. split_and!; [done..|].
    destruct res as [bytes|e]; [|apply Herr]. split; [done|]. by rewrite !fmap_app, Hitems.
  - intros items d' [-> Hitems]. by apply Hok.
Qed.

Lemma staged_genuine n m r d items : Trusted (tr_verifying_key r) -> signed_by r m -> rm_sequence m = n ->
  fa_name <$> items = ad_name <$> rm_artifacts m ->
  Forall (artifact_staged n (verified_of m) d) ((fun item => (fa_name item, fa_bytes item)) <$> items) ->
  genuine root Trusted d n.
Proof.
  intros HT Hsig Hn Hnames Hall. exists m, r. split_and!; [done..|]. clear HT Hsig Hn.
  revert Hall. generalize (verified_of m). intros v Hall. revert items Hnames Hall.
  induction (rm_artifacts m) as [|a arts IH]; intros [|item items] Hnames Hall; try done.
  cbn in Hnames. injection Hnames as Hname Hnames. cbn in Hall. apply Forall_cons in Hall as [(Hc & Hv & Hf) Hall]. constructor.
  - cbn [fst snd] in *. rewrite Hname in *. split; [done|]. by exists (fa_bytes item).
  - by apply (IH items).
Qed.

(** ** The operations while the lease is held *)

(** Options whose numbers are of their type and whose own trust roots are trusted *)
Definition options_ok (options : ApplyOptions) : Prop :=
  fits 64 (rm_sequence (ao_metadata options))
  /\ match ao_trust_roots options with
     | Some roots => Forall (fun r => Trusted (tr_verifying_key r)) roots
     | None => True
     end.

(** What [apply_update] reports of the activation *)
Definition activation_reported (options : ApplyOptions) (result : ApplyResult) d : Prop :=
  match ao_activation options, ar_activated result with
  | None, None => True
  | Some auth, Some selector =>
      selector = mkActivationSelector (aa_candidate_sequence auth) (aa_candidate_sequence auth) (aa_expected_generation auth + 1)
      /\ aa_candidate_sequence auth = rm_sequence (ao_metadata options)
      /\ sees d (as_current_sequence selector) (as_accepted_floor selector) (as_generation selector)
  | _, _ => False
  end.

Lemma check_issuance_safe options recovered (Q : unit + UpdaterError -> Disk -> Prop) d :
  J d ->
  ((forall auth, ao_activation options = Some auth -> issued root d auth
      /\ aa_candidate_sequence auth = rm_sequence (ao_metadata options)) -> Q (inl tt) d) ->
  (forall e, Q (inr e) d) -> safe (check_issuance root options recovered) Q d.
Proof.
  intros HJ Hok Herr. unfold check_issuance. destruct (ao_activation options) as [auth|]; [|by apply Hok].
  apply dsafe_try. unfold read_issuance. apply read_only_safe; [by intros x d' [-> _]|done|]. intros r [_ Hr].
  destruct (layout_paths root) as (_ & _ & _ & _ & Ha & _). rewrite Ha in Hr. clear Ha. cbn.
  destruct r as [text|e]; [|destruct (io_not_found e); [|apply Herr]; case_decide as Hc; [apply Herr|]; naive_solver].
  destruct (authorization_from_str text) as [a|e] eqn:Ea; [|apply Herr]. case_decide as Hc; [apply Herr|].
  apply Hok. intros auth' [= <-]. destruct (decide (Some a = Some auth)) as [[= ->]|]; [|by destruct Hc; left].
  destruct (decide (aa_candidate_sequence auth = rm_sequence (ao_metadata options))); [|by destruct Hc; right; left].
  split; [|done]. by exists text.
Qed.

Lemma load_roots_safe options (Q : list TrustRoot + UpdaterError -> Disk -> Prop) d :
  J d -> options_ok options ->
  (forall roots, Forall (fun r => Trusted (tr_verifying_key r)) roots -> Q (inl roots) d) -> (forall e, Q (inr e) d) ->
  safe (match ao_trust_roots options with
        | Some roots => Ret (inl roots)
        | None => load_trust_roots (ul_trust_roots (layout root))
        end) Q d.
Proof.
  intros HJ [_ Hroots] Hok Herr. destruct (ao_trust_roots options) as [roots|]; [by apply Hok|].
  unfold load_trust_roots. destruct (layout_paths root) as (_ & _ & _ & _ & _ & _ & Ht). rewrite Ht. clear Ht.
  destruct (same_J root Trusted d HJ) as [_ HA].
  apply dsafe_try, dsafe_fs_or. intros r d' [-> Hr]. split_and!; [done..|]. destruct r as [text|e]; [|apply Herr]. cbn.
  destruct (parse_trust_roots text) as [roots|e] eqn:Ep; [|apply Herr]. apply Hok.
  destruct HJ as [[_ HT] _]. by eapply HT.
Qed.

Lemma apply_locked_safe options (Q : ApplyResult + UpdaterError -> Disk -> Prop) d :
  J d -> options_ok options ->
  (forall result d', J d' -> activation_reported options result d' -> Q (inl result) d') ->
  (forall e d', J d' -> Q (inr e) d') -> safe (apply_locked root options) Q d.
Proof.
  intros HJ Hopt Hok Herr. unfold apply_locked.
  apply dsafe_try, recover_locked_safe; [done| |auto]. intros d1 c g HJ1 _ Hs1 Hset1. clear d HJ.
  apply dsafe_try, check_issuance_safe; [done| |auto]. intros Hauth.
  apply dsafe_try, load_roots_safe; [done..| |auto]. intros roots Hroots.
  apply dsafe_try_ret. cbn [as_accepted_floor]. set (m := ao_metadata options) in *.
  pose proof (verify_exact m roots c (ao_now_unix options) (ao_host_platform options)) as Hv.
  destruct (verify_release_metadata _ _ _ _ _) as [v|e]; [|by apply Herr]. destruct Hv as [Hacc ->].
  pose proof (ac_sequence _ _ _ _ _ Hacc) as Hlt.
  destruct (ac_signed _ _ _ _ _ Hacc) as (r & (pre & post & -> & _) & Hsig).
  assert (Trusted (tr_verifying_key r)) as HT by (apply Forall_app in Hroots as [_ Hr]; by apply Forall_cons in Hr as [? _]).
  rewrite tcb_outside. apply dsafe_try_ret. apply dsafe_try_ret.
  destruct (resolve_package_source _) as [package|e]; [|by apply Herr].
  apply dsafe_try, fetch_safe; [done| |auto]. intros items Hnames.
  apply dsafe_try. eapply (stage_verified_release_safe (rm_sequence m)); [done..|lia|done| |auto].
  intros d2 HJ2 Hst Hstaged. pose proof (staged_genuine _ _ _ _ _ HT Hsig eq_refl Hnames Hstaged) as Hgen.
  pose proof (staged_sees _ _ _ _ _ _ Hst Hs1) as Hs2. pose proof (staged_settled _ _ _ Hst Hset1) as Hset2.
  apply dsafe_try. assert (forall (Q' : option unit + UpdaterError -> Disk -> Prop), (forall x, Q' (inl x) d2) -> (forall e, Q' (inr e) d2) ->
    safe (try_some (fun command => smoke_staged_release (mkStagedRelease (rm_sequence m) root) command (ao_smoke_args options))
            (ao_smoke_command options)) Q' d2) as Hsmoke.
  { intros Q' Hq He. unfold try_some. destruct (ao_smoke_command options); [|apply Hq]. apply dsafe_try, smoke_safe; [done|apply Hq|done]. }
  apply Hsmoke; [|auto]. intros _. clear Hsmoke. apply dsafe_try. unfold try_some.
  unfold activation_reported in Hok. destruct (ao_activation options) as [auth|] eqn:Eauth.
  - destruct (Hauth auth eq_refl) as [Hiss Hcand]. apply dsafe_try.
    eapply (activate_safe root Trusted (verified_of m) auth c g); [done..| | | | | |auto].
    + rewrite Hcand. lia.
    + rewrite Hcand. apply Hopt.
    + by rewrite Hcand.
    + destruct Hiss as (text & Hf & Ha). exists text. split; [|done]. rewrite <- Hf. by apply (staged_file _ _ _ _ Hst).
    + intros d3 HJ3 Hs3. apply Hok; [done|]. by split_and!.
  - by apply Hok.
Qed.

Lemma discard_locked_safe n (Q : unit + UpdaterError -> Disk -> Prop) d :
  J d -> (forall r d', J d' -> Q r d') -> safe (discard_locked root n) Q d.
Proof.
  intros HJ HQ. unfold discard_locked. apply dsafe_try, read_selector_safe; [done| |auto]. intros c f g Hs.
  cbn [as_current_sequence as_accepted_floor]. case_decide; [by apply HQ|]. case_decide as Hne; [by apply HQ|].
  case_decide; [by apply HQ|]. apply read_only_safe; [by intros x d' [-> _]|done|]. intros [] _; [|by apply HQ].
  apply dsafe_fs_or. intros r d' Hr. cbn in Hr.
  assert (partly_removed (dir n) d d') as (Hsub & Hdirs & Hkeep).
  { destruct r; [|done]. subst d'. unfold partly_removed, remove_on. cbn. split_and!.
    - apply map_filter_subseteq.
    - set_solver.
    - intros q Hq. split; [|set_solver]. destruct (d_files d !! q) as [t|] eqn:Eq.
      + by apply map_lookup_filter_Some.
      + apply map_lookup_filter_None. by left. }
  assert (J d' /\ advances d d') as [HJ' HA].
  { apply spares_J; [|done]. constructor.
    - intros x _ _. apply Hkeep, release_below_root.
    - intros Hroot q Hq. apply Hkeep; [|by apply Hroot]. intros Hb%below_spec. destruct Hb as [t ->].
      apply in_ancestors in Hq as [u Hu]. rewrite release_directory_eq in Hu.
      apply (f_equal length) in Hu. rewrite !length_app in Hu. simpl in Hu. lia.
    - intros c' Hc'. assert (c' = c) as -> by (destruct Hs; congruence). apply genuine_same. intros q Hq.
      apply Hkeep. by eapply releases_apart. }
  split_and!; [done..|]. by apply HQ.
Qed.

(** A file outside of the updater's directory *)
Lemma outside_free d p : path_starts_with root p = false -> free root d p.
Proof.
  intros Hp. assert (forall q, p <> root ++ q) as Hne.
  { intros q ->. assert (below root (root ++ q)) as H; [apply below_spec; by eexists|]. unfold below in H. congruence. }
  split; [apply Forall_forall; intros x _; apply Hne|]. intros c _ [r Hr]%below_spec.
  rewrite release_directory_eq, <- app_assoc in Hr. by eapply Hne.
Qed.

Lemma write_file_safe l1 l2 p bytes (Q : unit + UpdaterError -> Disk -> Prop) d :
  (forall d1 d2, J d1 -> touches [p] d d1 -> touches [p] d1 d2 -> J d2 /\ advances d1 d2) -> J d ->
  (forall r d', J d' -> touches [p] d d' -> Q r d') ->
  safe (let! _ := fs_or l1 (CreateFile p) in fs_or l2 (WriteAll p bytes)) Q d.
Proof.
  intros Hstep HJ HQ. apply dsafe_try, dsafe_fs_or. intros r d1 Hr. cbn in Hr.
  assert (touches [p] d d1) as Ht1 by (destruct Hr as [[_ ->]|(_ & _ & _ & ->)]; [apply touches_refl|apply create_touches]).
  destruct (Hstep d d1 HJ (touches_refl _ _) Ht1) as [HJ1 HA1]. split_and!; [done..|].
  destruct r as [[]|e]; [|by apply HQ]. clear Hr. apply dsafe_fs_or. intros r d2 Hr. cbn in Hr.
  assert (touches [p] d1 d2) as Ht2.
  { destruct r; [subst d2; apply append_touches|]. destruct Hr as (w & _ & _ & ->). apply append_touches. }
  destruct (Hstep d1 d2 HJ1 Ht1 Ht2) as [HJ2 HA2]. split_and!; [done..|]. apply HQ; [done|by eapply touches_trans].
Qed.

Lemma authorize_safe n g out (Q : ActivationAuthorization + UpdaterError -> Disk -> Prop) d :
  J d -> path_starts_with root out = false -> (forall r d', J d' -> Q r d') ->
  safe (let* token := owner_token in
        let! authorization := authorize token root n g in
        let! _ := write_authorization token out authorization in
        Ret (inl authorization)) Q d.
Proof.
  intros HJ Hout HQ. unfold owner_token. apply dsafe_bind.
  apply read_only_safe; [by intros x d' ->|done|]. intros id _.
  apply read_only_safe; [by intros x d' ->|done|]. intros nonce _. cbn [dsafe].
  set (token := pretty id +:+ "-" +:+ pretty nonce). apply dsafe_try. unfold authorize.
  apply dsafe_try, read_selector_safe; [done| |auto]. intros c f g' _. cbn [as_generation].
  case_decide; [by apply HQ|]. apply dsafe_try. unfold persist_issuance.
  apply dsafe_try, dsafe_or_invalid; [|auto]. intros body _.
  destruct (layout_paths root) as (_ & _ & _ & _ & Ha & _). rewrite Ha. clear Ha.
  apply write_file_safe; [|done|].
  { intros d1 d2 HJ1 _ Ht2. apply spares_J; [|done]. eapply touches_spares; [done|]. apply Forall_singleton. left.
    exists "authorization.json". split; [set_solver|done]. }
  intros r d1 HJ1 _. destruct r as [[]|e]; [|by apply HQ]. cbn [dsafe]. apply dsafe_try. unfold write_authorization.
  cbn [aa_owner_token]. rewrite decide_False by (by intros []).
  apply dsafe_try, dsafe_or_invalid; [|auto]. intros body' _.
  assert (forall d2 d3, J d2 -> touches [out] d2 d3 -> J d3 /\ advances d2 d3) as Hstep.
  { intros d2 d3 HJ2 Ht. eapply touches_free_J; [done|by apply outside_free|done]. }
  apply dsafe_try, dsafe_fs_or. intros r d2 Hr. cbn in Hr.
  assert (touches [out] d1 d2) as Ht2 by (destruct Hr as [[_ ->]|(_ & _ & _ & ->)]; [apply touches_refl|apply create_touches]).
  destruct (Hstep d1 d2 HJ1 Ht2) as [HJ2 HA2]. split_and!; [done..|]. destruct r as [[]|e]; [|by apply HQ]. clear Hr.
  apply dsafe_try, dsafe_fs_or. intros r d3 Hr. cbn in Hr.
  assert (touches [out] d2 d3) as Ht3.
  { destruct r; [subst d3; apply append_touches|]. destruct Hr as (w & _ & _ & ->). apply append_touches. }
  destruct (Hstep d2 d3 HJ2 Ht3) as [HJ3 HA3]. split_and!; [done..|]. destruct r as [[]|e]; [|by apply HQ]. clear Hr.
  destruct (same_J root Trusted d3 HJ3) as [_ HA].
  apply dsafe_fs_or. intros r d4 Hr. cbn in Hr. subst d4. split_and!; [done..|]. destruct r as [[]|e]; by apply HQ.
Qed.
End stage.
