(* ===== verification/UpdRun.v ===== *)
(** * Processes on one updater root

    Any number of processes that apply, recover, discard and authorize on the same root, in any
    interleaving of their calls; calls fail and processes are killed at any time.  The lease makes the
    code that runs under it alone on the disk, so that [dsafe] becomes [psafe]. *)

From stdpp Require Import pretty.
From S2P Require Import Prelude Result RustStr Text Effects Processes UpdMeta UpdJournal Updater UpdSpec UpdInv UpdActivate UpdStage.

Section world.
Context `{C : UpdateLib} `{JL : JournalLib} (root : Path) (Trusted : string -> Prop).

(** The disk, and which process holds the lease *)
Record UpdWorld := mkUpdWorld {
  uw_disk : Disk;
  uw_holder : option nat;
}.

(** One call of process [i]; [flock] may also fail for other reasons than a holder. *)
Definition upd_step (i : nat) X (e : UpdEff X) (w : UpdWorld) (x : X) (w' : UpdWorld) : Prop :=
  match e in UpdEff X return X -> Prop with
  | Fs e => fun x => uw_holder w' = uw_holder w /\ fs_step _ e (uw_disk w) x (uw_disk w')
  | Flock => fun locked =>
      uw_disk w' = uw_disk w
      /\ if locked then uw_holder w = None /\ uw_holder w' = Some i else uw_holder w' = uw_holder w
  | Unlock => fun _ => uw_disk w' = uw_disk w /\ uw_holder w' = if decide (uw_holder w = Some i) then None else uw_holder w
  | PastDeadline => fun _ => w' = w
  | Sleep => fun _ => w' = w
  end x.

(** The operating system takes back the lease of a killed process. *)
Definition upd_kill (i : nat) (w w' : UpdWorld) : Prop :=
  uw_disk w' = uw_disk w /\ uw_holder w' = if decide (uw_holder w = Some i) then None else uw_holder w.

(** The operations; a capability is written outside of the updater's directory. *)
Inductive UpdOp :=
  | OpApply (options : ApplyOptions) (ok : options_ok Trusted options)
  | OpRecover
  | OpDiscard (sequence : N)
  | OpAuthorize (sequence : N) (out : Path) (ok : path_starts_with root out = false)
  | OpStatus.

Inductive UpdAnswer :=
  | AnApply (r : ApplyResult + UpdaterError)
  | AnSelector (r : ActivationSelector + UpdaterError)
  | AnDone (r : option UpdaterError).

Definition finished {A} (t : UResult A) : UTask UpdAnswer :=
  let* r := t in Ret (AnDone (match r with inl _ => None | inr e => Some e end)).

Definition run_upd (op : UpdOp) : UTask UpdAnswer :=
  match op with
  | OpApply options _ => let* r := apply_update root options in Ret (AnApply r)
  | OpRecover => let* r := recover_activation root in Ret (AnSelector r)
  | OpDiscard sequence => finished (discard_staged_release root sequence)
  | OpAuthorize sequence out _ => finished (run_authorize root sequence out)
  | OpStatus => finished (read_selector root)
  end.

Abbreviation upd_run := (system_run upd_step upd_kill run_upd).
Abbreviation upd_system_step := (system_step upd_step upd_kill run_upd).

(** ** Invariant, rely and guarantee *)

Abbreviation inv := (inv root Trusted).
Abbreviation advances := (advances root Trusted).
Abbreviation sees := (sees root).
Abbreviation J := (J root Trusted).

Definition rooted d : Prop := ancestors root ⊆ d_dirs d.
Definition leased d : Prop := is_Some (d_files d !! at_root root "updater.lock").

Definition I (w : UpdWorld) : Prop := inv (uw_disk w) /\ (uw_holder w <> None -> ready root (uw_disk w)).

(** The numbers do not fall. *)
Definition grows d d' : Prop :=
  forall c f g c' f' g', sees d c f g -> sees d' c' f' g' -> (c <= c' /\ f <= f' /\ g <= g')%N.

Record common (w w' : UpdWorld) : Prop := {
  co_rooted : rooted (uw_disk w) -> rooted (uw_disk w');
  co_leased : leased (uw_disk w) -> leased (uw_disk w');
  co_inv : inv (uw_disk w) -> inv (uw_disk w') /\ grows (uw_disk w) (uw_disk w');
}.

(** What the others do: nothing while [i] holds the lease, and they do not take it for [i]. *)
Record R (i : nat) (w w' : UpdWorld) : Prop := {
  rely_common : common w w';
  rely_holder : uw_holder w = Some i -> w' = w;
  rely_none : uw_holder w <> Some i -> uw_holder w' <> Some i;
}.

Record G (i : nat) (w w' : UpdWorld) : Prop := {
  guar_common : common w w';
  guar_advances : advances (uw_disk w) (uw_disk w');
  guar_holder j : j <> i -> uw_holder w = Some j -> w' = w;
  guar_none j : j <> i -> uw_holder w <> Some j -> uw_holder w' <> Some j;
}.

Definition none (i : nat) (w : UpdWorld) : Prop := uw_holder w <> Some i.

Lemma inv_sees d : inv d -> exists c f g, sees d c f g.
Proof. intros [(c & f & g & o & Hs & _) _]. by exists c, f, g. Qed.

Lemma grows_refl d : grows d d.
Proof. intros c f g c' f' g' H1 H2. destruct (sees_unique _ _ _ _ _ _ _ _ H1 H2) as (-> & -> & ->). lia. Qed.

Lemma grows_trans d1 d2 d3 : inv d2 -> grows d1 d2 -> grows d2 d3 -> grows d1 d3.
Proof.
  intros (c & f & g & Hs)%inv_sees H1 H2 c1 f1 g1 c3 f3 g3 Hs1 Hs3.
  specialize (H1 _ _ _ _ _ _ Hs1 Hs). specialize (H2 _ _ _ _ _ _ Hs Hs3). lia.
Qed.

Lemma advances_grows d d' : advances d d' -> grows d d'.
Proof. intros H c f g c' f' g' Hs Hs'. by destruct (H _ _ _ _ _ _ Hs Hs'). Qed.

#[local] Instance common_preorder : PreOrder common.
Proof.
  split.
  - intros w. constructor; [done..|]. intros Hi. split; [done|apply grows_refl].
  - intros w1 w2 w3 [R1 L1 I1] [R2 L2 I2]. constructor; [auto..|]. intros Hi.
    destruct (I1 Hi) as [Hi2 Hg1]. destruct (I2 Hi2) as [Hi3 Hg2]. split; [done|by apply (grows_trans _ (uw_disk w2))].
Qed.

#[local] Instance R_preorder i : PreOrder (R i).
Proof.
  split.
  - intros w. by constructor.
  - intros w1 w2 w3 [C1 H1 N1] [C2 H2 N2]. constructor.
    + by etrans.
    + intros Hh. pose proof (H1 Hh) as ->. auto.
    + auto.
Qed.

Lemma G_R i j w w' : i <> j -> G i w w' -> R j w w'.
Proof. intros Hij [Hc _ Hh Hn]. constructor; [done|by apply Hh|by apply Hn]. Qed.

Lemma same_common w w' : uw_disk w' = uw_disk w -> common w w'.
Proof. intros Hd. constructor; rewrite Hd; [done..|]. intros ?. split; [done|apply grows_refl]. Qed.

Lemma same_advances d : inv d -> advances d d.
Proof. intros Hi. by apply spares_inv; [apply spares_refl|]. Qed.

Lemma upd_kill_safe i w w' : I w -> upd_kill i w w' ->
  I w' /\ none i w' /\ forall j, j <> i -> R j w w' /\ (none j w -> none j w').
Proof.
  intros [Hi Hr] [Hd Hh]. split_and!.
  - unfold I. rewrite Hd. split; [done|]. rewrite Hh. case_decide; [done|auto].
  - unfold none. rewrite Hh. by case_decide.
  - intros j Hj. assert (none j w -> none j w') as Hn by (unfold none; rewrite Hh; case_decide; congruence).
    split; [|done]. constructor; [by apply same_common| |exact Hn].
    intros Hw. destruct w as [d h], w' as [d' h']. simpl in *. subst. by rewrite decide_False by congruence.
Qed.

Abbreviation psafe := (Processes.psafe upd_step I R G).

(** ** Under the lease *)

Lemma locked_psafe i {A} (t : UTask A) (Q : A -> Disk -> Prop) w :
  uw_holder w = Some i -> J (uw_disk w) -> dsafe J advances t Q (uw_disk w) ->
  psafe i t (fun a w => uw_holder w = Some i /\ J (uw_disk w) /\ Q a (uw_disk w)) w.
Proof.
  revert Q w. induction t as [A a|A X e k IH|A S B body _ s k _]; intros Q w Hh HJ; [by intros ?| |done].
  intros [He Hk] w1 Hw1 HI1 x w2 Hx. pose proof (rely_holder _ _ _ Hw1 Hh) as ->.
  destruct e as [X e| | | |]; try done. destruct Hx as [Hh2 Hx].
  destruct (Hk x (uw_disk w2) Hx) as (HJ2 & HA & Hsafe). destruct HJ as [Hinv Hready]. destruct HJ2 as [Hinv2 Hready2].
  split_and!.
  - by split.
  - constructor; [|done| |].
    + constructor; [by intros _; apply Hready2|by intros _; apply Hready2|]. intros _. split; [done|by apply advances_grows].
    + intros j Hj Hj'. congruence.
    + intros j Hj Hn. congruence.
  - apply IH; [congruence|by split|done].
Qed.

Lemma unlock_psafe i {B} (k : unit -> UTask B) (Q : B -> UpdWorld -> Prop) w :
  uw_holder w = Some i -> J (uw_disk w) ->
  (forall w', uw_disk w' = uw_disk w -> none i w' -> psafe i (k tt) Q w') ->
  psafe i (bind_task (call Unlock) k) Q w.
Proof.
  intros Hh [Hinv Hready] Hk w1 Hw1 HI1 [] w2 [Hd2 Hh2]. pose proof (rely_holder _ _ _ Hw1 Hh) as ->.
  rewrite decide_True in Hh2 by done. split_and!.
  - unfold I. by rewrite Hd2, Hh2.
  - constructor.
    + by apply same_common.
    + rewrite Hd2. by apply same_advances.
    + intros j Hj Hj'. congruence.
    + intros j Hj Hj'. by rewrite Hh2.
  - apply Hk; [done|]. unfold none. by rewrite Hh2.
Qed.

(** ** Without the lease *)

(** A call that only reads; while nothing is held, the invariant is all that is known. *)
Lemma free_read_psafe i {X B} (e : FsEff X) (k : X -> UTask B) (Q : B -> UpdWorld -> Prop) w :
  (forall x d d', fs_step _ e d x d' -> d' = d) ->
  none i w -> (forall x w', none i w' -> psafe i (k x) Q w') -> psafe i (bind_task (fs e) k) Q w.
Proof.
  intros He Hn Hk w1 Hw1 HI1 x w2 [Hh2 Hx]. apply He in Hx as Hd2. pose proof (rely_none _ _ _ Hw1 Hn) as Hn1.
  split_and!.
  - unfold I. rewrite Hd2, Hh2. apply HI1.
  - constructor.
    + by apply same_common.
    + rewrite Hd2. apply same_advances, HI1.
    + intros j Hj _. destruct w1, w2. simpl in *. by subst.
    + intros j Hj. by rewrite Hh2.
  - apply Hk. unfold none. by rewrite Hh2.
Qed.

(** A call of the lease's own directory and file *)
Lemma free_step i w1 w2 : none i w1 -> I w1 -> uw_holder w2 = uw_holder w1 ->
  spares root Trusted ["authorization.json"; "updater.lock"] (uw_disk w1) (uw_disk w2) ->
  (leased (uw_disk w1) -> leased (uw_disk w2)) -> (ready root (uw_disk w1) -> uw_disk w2 = uw_disk w1) ->
  I w2 /\ G i w1 w2.
Proof.
  intros Hn [Hinv Hready] Hh Hsp Hl Hsame. destruct (spares_inv _ _ _ _ Hsp Hinv) as [Hinv2 HA]. split.
  - split; [done|]. rewrite Hh. intros Hne. rewrite Hsame; by apply Hready.
  - constructor; [|done| |].
    + constructor; [apply (sp_dirs _ _ _ _ _ Hsp)|done|]. intros _. split; [done|by apply advances_grows].
    + intros j Hj Hj'. assert (uw_disk w2 = uw_disk w1) as Hd by (apply Hsame, Hready; by rewrite Hj').
      destruct w1, w2. simpl in *. by subst.
    + intros j Hj. by rewrite Hh.
Qed.

Lemma acquire_psafe i (Q : unit + UpdaterError -> UpdWorld -> Prop) w :
  none i w ->
  (forall w', uw_holder w' = Some i -> J (uw_disk w') -> Q (inl tt) w') ->
  (forall e w', none i w' -> Q (inr e) w') ->
  psafe i (acquire_file root) Q w.
Proof.
  intros Hn Hok Herr. unfold acquire_file. apply psafe_try, psafe_bind.
  intros w1 Hw1 HI1 r w2 [Hh2 Hr]. pose proof (rely_none _ _ _ Hw1 Hn) as Hn1. cbn in Hr. destruct Hr as (Hf & Hd).
  assert (d_dirs (uw_disk w1) ⊆ d_dirs (uw_disk w2) /\ d_dirs (uw_disk w2) ⊆ d_dirs (uw_disk w1) ∪ ancestors root
    /\ (r = inl tt -> rooted (uw_disk w2))) as (Hd1 & Hd2 & Hrooted).
  { destruct r as [[]|e]; [|by destruct Hd]. unfold rooted. rewrite Hd.
    split_and!; [apply union_subseteq_l|done|intros _; apply union_subseteq_r]. }
  assert (touches [] (uw_disk w1) (uw_disk w2)) as Ht by (constructor; [by rewrite Hf|done]).
  destruct (free_step i w1 w2 Hn1 HI1 Hh2) as [HI2 HG2].
  { eapply touches_spares; [done|constructor]. }
  { unfold leased. by rewrite Hf. }
  { intros [Ha _]. destruct (uw_disk w1) as [f1 d1], (uw_disk w2) as [f2 d2]. cbn in *. subst f2. f_equal. apply leibniz_equiv, (anti_symm (⊆)); [|done].
    etrans; [exact Hd2|]. by apply union_least. }
  assert (none i w2) as Hn2 by (unfold none; by rewrite Hh2). split_and!; [done..|].
  destruct r as [[]|e]; [|by apply Herr]. cbn [Processes.psafe]. specialize (Hrooted eq_refl). clear Hd Hd1 Hd2 Hf Ht HI1 Hw1 HG2 HI2.
  apply psafe_try, psafe_bind. destruct (layout_paths root) as (_ & _ & _ & _ & _ & Hl & _). rewrite Hl. clear Hl.
  intros w3 Hw3 HI3 r w4 [Hh4 Hr]. pose proof (rely_none _ _ _ Hw3 Hn2) as Hn3. cbn in Hr.
  pose proof (co_rooted _ _ (rely_common _ _ _ Hw3) Hrooted) as Hroot3.
  set (p := at_root root "updater.lock") in *.
  assert (touches [p] (uw_disk w3) (uw_disk w4) /\ (leased (uw_disk w3) -> uw_disk w4 = uw_disk w3) /\ (r = inl tt -> leased (uw_disk w4)))
    as (Ht & Hsame & Hleased).
  { destruct Hr as [[Hf ->]|(-> & _ & _ & ->)]; [split_and!; [apply touches_refl|done|by destruct r]|].
    split; [apply open_touches|]. unfold open_on, leased. fold p. destruct (d_files (uw_disk w3) !! p) eqn:Ep.
    - split; [done|]. intros _. rewrite Ep. eauto.
    - split; [by intros [? ?]|]. intros _. cbn. rewrite lookup_insert_eq. eauto. }
  destruct (free_step i w3 w4 Hn3 HI3 Hh4) as [HI4 HG4].
  { eapply touches_spares; [done|]. apply Forall_singleton. left. exists "updater.lock". split; [set_solver|done]. }
  { intros Hl3. by rewrite Hsame. }
  { intros [_ Hl3]. by apply Hsame. }
  assert (none i w4) as Hn4 by (unfold none; by rewrite Hh4). split_and!; [done..|].
  destruct r as [[]|e]; [|by apply Herr]. cbn [Processes.psafe]. specialize (Hleased eq_refl).
  pose proof (to_dirs _ _ _ Ht) as Hdirs. assert (rooted (uw_disk w4)) as Hroot4 by (unfold rooted in *; by etrans).
  (* the retry loop *)
  exists (fun _ w => none i w /\ rooted (uw_disk w) /\ leased (uw_disk w)). split_and!; [done..| |].
  { intros _ w5 w6 (Hn5 & Hr5 & Hl5) H56. split_and!; [by eapply rely_none|by eapply co_rooted; [apply H56|]|by eapply co_leased; [apply H56|]]. }
  intros [] w5 (Hn5 & Hr5 & Hl5). unfold lock_round.
  intros w6 Hw6 HI6 locked w7 Hx. pose proof (rely_none _ _ _ Hw6 Hn5) as Hn6.
  pose proof (co_rooted _ _ (rely_common _ _ _ Hw6) Hr5) as Hr6. pose proof (co_leased _ _ (rely_common _ _ _ Hw6) Hl5) as Hl6.
  cbn in Hx. destruct Hx as [Hd7 Hh7]. destruct locked.
  - destruct Hh7 as [Hh6 Hh7]. split_and!.
    + unfold I. rewrite Hd7. split; [apply HI6|by split].
    + constructor; [by apply same_common|rewrite Hd7; apply same_advances, HI6|intros j _; congruence|intros j Hj _; congruence].
    + cbn. apply Hok; [done|]. rewrite Hd7. split; [apply HI6|by split].
  - assert (forall w8, uw_disk w8 = uw_disk w6 -> uw_holder w8 = uw_holder w6 -> w8 = w6) as Heq.
    { intros [] ? ?. destruct w6. simpl in *. by subst. }
    pose proof (Heq _ Hd7 Hh7) as ->. clear Hd7 Hh7.
    assert (forall w8, I w8 -> G i w8 w8) as HG.
    { intros w8 [H8 _]. constructor; [done|by apply same_advances|done|done]. }
    split_and!; [done|by apply HG|]. cbn.
    intros w8 Hw8 HI8 late w9 ->. pose proof (rely_none _ _ _ Hw8 Hn6) as Hn8. split_and!; [done|by apply HG|].
    destruct late; cbn; [by apply Herr|].
    intros w9 Hw9 HI9 [] w10 ->. split_and!; [done|by apply HG|by eapply rely_none| |].
    + eapply (co_rooted _ _ (rely_common _ _ _ Hw9)), (co_rooted _ _ (rely_common _ _ _ Hw8)); done.
    + eapply (co_leased _ _ (rely_common _ _ _ Hw9)), (co_leased _ _ (rely_common _ _ _ Hw8)); done.
Qed.

Lemma with_lease_psafe i {A} (body : UResult A) (QD : A + UpdaterError -> Disk -> Prop) (Q : A + UpdaterError -> UpdWorld -> Prop) w :
  none i w -> (forall d, J d -> dsafe J advances body QD d) ->
  (forall r w', none i w' -> J (uw_disk w') -> QD r (uw_disk w') -> Q r w') -> (forall e w', none i w' -> Q (inr e) w') ->
  psafe i (with_lease root body) Q w.
Proof.
  intros Hn Hbody Hok Herr. unfold with_lease. apply psafe_try, acquire_psafe; [done| |done].
  intros w1 Hh1 HJ1. apply psafe_bind. eapply psafe_mono; [|by apply locked_psafe, Hbody]. cbn beta.
  intros r w2 (Hh2 & HJ2 & HQ2). apply unlock_psafe; [done..|]. intros w3 Hd3 Hn3. apply Hok; [done|by rewrite Hd3..].
Qed.

(** ** The operations *)

(** What a finished operation has established, however long ago *)
Definition at_least d (c f g : N) : Prop :=
  inv d /\ exists c' f' g', sees d c' f' g' /\ (c <= c' /\ f <= f' /\ g <= g')%N.

Definition established (op : UpdOp) (a : UpdAnswer) (w : UpdWorld) : Prop :=
  match op, a with
  | OpApply options _, AnApply (inl result) =>
      match ao_activation options, ar_activated result with
      | None, None => True
      | Some auth, Some selector =>
          let n := rm_sequence (ao_metadata options) in
          aa_candidate_sequence auth = n
          /\ selector = mkActivationSelector n n (aa_expected_generation auth + 1)
          /\ at_least (uw_disk w) n n (aa_expected_generation auth + 1)
      | _, _ => False
      end
  | OpRecover, AnSelector (inl selector) =>
      as_current_sequence selector = as_accepted_floor selector
      /\ at_least (uw_disk w) (as_current_sequence selector) (as_accepted_floor selector) (as_generation selector)
  | _, _ => True
  end.

Lemma at_least_sees d c f g : inv d -> sees d c f g -> at_least d c f g.
Proof. intros Hi Hs. split; [done|]. exists c, f, g. split; [done|lia]. Qed.

Lemma at_least_stable d d' c f g : (inv d -> inv d' /\ grows d d') -> at_least d c f g -> at_least d' c f g.
Proof.
  intros Hg (Hi & c1 & f1 & g1 & Hs & Hle). destruct (Hg Hi) as [Hi' Hgr]. split; [done|].
  destruct (inv_sees _ Hi') as (c' & f' & g' & Hs'). exists c', f', g'. split; [done|]. specialize (Hgr _ _ _ _ _ _ Hs Hs'). lia.
Qed.

Lemma established_stable i op : Processes.pstable R i (established op).
Proof.
  intros a w w' [[_ _ Hco] _ _] He. destruct op as [options Hopt| | | |], a as [r|r|r]; try done.
  - destruct r as [result|]; [|done]. cbn in *. destruct (ao_activation options), (ar_activated result); try done.
    destruct He as (Hc & Hs & Hl). split_and!; [done..|]. by eapply at_least_stable.
  - destruct r as [selector|]; [|done]. destruct He as [Heq Hl]. split; [done|]. by eapply at_least_stable.
Qed.
End world.

Section runs.
Context `{C : UpdateLib} `{JL : JournalLib} `{!JournalLaws JL} (root : Path) (Trusted : string -> Prop).

Abbreviation upd_run := (system_run upd_step upd_kill (run_upd root Trusted)).
Abbreviation upd_system_step := (system_step upd_step upd_kill (run_upd root Trusted)).
Abbreviation psafe := (Processes.psafe upd_step (I root Trusted) (R root Trusted) (G root Trusted)).
Abbreviation established := (established root Trusted).

Lemma read_selector_psafe i {B} (k : ActivationSelector + UpdaterError -> UTask B) (P : B -> UpdWorld -> Prop) w :
  none i w -> (forall r w', none i w' -> psafe i (k r) P w') -> psafe i (bind_task (read_selector root) k) P w.
Proof.
  assert (forall p l1 l2 Q' w, none i w -> (forall r w', none i w' -> Q' r w') -> psafe i (read_number p l1 l2) Q' w) as Hnum.
  { intros p l1 l2 Q' w0 Hn HQ. apply free_read_psafe; [by intros x d d' [-> _]|done|]. intros x w' Hn'. by apply HQ. }
  intros Hn Hk. apply psafe_bind. unfold read_selector, read_floor.
  apply psafe_try, Hnum; [done|]. intros r1 w1 Hn1. destruct r1 as [c|e]; [|by apply Hk].
  apply psafe_try, Hnum; [done|]. intros r2 w2 Hn2. destruct r2 as [f|e]; [|by apply Hk].
  apply psafe_try, Hnum; [done|]. intros r3 w3 Hn3. destruct r3 as [g|e]; by apply Hk.
Qed.

Lemma finished_psafe i {A} (t : UResult A) op w : (forall o, established op (AnDone o) = fun _ => True) ->
  psafe i t (fun _ _ => True) w -> psafe i (finished t) (established op) w.
Proof. intros Hop Ht. apply psafe_bind. revert Ht. apply psafe_mono. intros r w' _. cbn [Processes.psafe]. by rewrite Hop. Qed.

Lemma each_free_psafe i names (P : unit + UpdaterError -> UpdWorld -> Prop) w :
  none i w -> (forall r w', none i w' -> P r w') ->
  psafe i (each_task (fun name =>
    let path := join root name in
    let* found := fs (PathExists path) in
    if found : bool then
      Ret (inr (OwnershipViolation ("updater root must not contain runtime secret/session path `" +:+ display path +:+ "`")))
    else Ret (inl tt)) names) P w.
Proof.
  intros Hn HP. unfold each_task. revert w Hn. induction names as [|name names IH]; intros w Hn; cbn [fold_task]; [by apply HP|].
  apply psafe_try. apply free_read_psafe; [by intros x d d' [-> _]|done|]. intros [] w' Hn'; [by apply HP|by apply IH].
Qed.

Lemma run_upd_psafe i op w : I root Trusted w -> none i w -> psafe i (run_upd root Trusted op) (established op) w.
Proof.
  intros HI Hn. destruct op as [options Hopt| |n|n out Hout|]; cbn [run_upd].
  - apply psafe_bind. unfold apply_update. apply psafe_try. apply each_free_psafe; [done|].
    intros r w1 Hn1. destruct r as [[]|e]; [|done].
    eapply (with_lease_psafe root Trusted i _ (fun r d => match r with
      | inl result => activation_reported root options result d | inr _ => True end)); [done| | |done].
    + intros d HJ. apply apply_locked_safe; [done..| |done]. by intros result d' _.
    + intros r w' _ [Hinv _] Hr. destruct r as [result|]; [|done]. cbn. unfold activation_reported in Hr.
      destruct (ao_activation options) as [auth|], (ar_activated result) as [sel|]; try done.
      destruct Hr as (-> & Hc & Hs). cbn in Hs. rewrite Hc in *. split_and!; [done..|]. by apply at_least_sees.
  - apply psafe_bind. unfold recover_activation.
    eapply (with_lease_psafe root Trusted i _ (fun r d => match r with
      | inl s => as_current_sequence s = as_accepted_floor s /\ sees root d (as_current_sequence s) (as_accepted_floor s) (as_generation s)
      | inr _ => True end)); [done| | |done].
    + intros d HJ. apply recover_locked_safe; [done| |done]. intros d' c g _ _ Hs _. by split.
    + intros r w' _ [Hinv _] Hr. destruct r as [s|]; [|done]. destruct Hr as [Heq Hs]. split; [done|]. by apply at_least_sees.
  - apply finished_psafe; [done|]. unfold discard_staged_release.
    eapply (with_lease_psafe root Trusted i _ (fun _ _ => True)); [done| |done..].
    intros d HJ. by apply discard_locked_safe.
  - apply finished_psafe; [done|]. unfold run_authorize. apply read_selector_psafe; [done|].
    intros r w1 Hn1. destruct r as [selector|e]; [|done].
    eapply (with_lease_psafe root Trusted i _ (fun _ _ => True)); [done| |done..].
    intros d HJ. by apply authorize_safe.
  - unfold finished. by apply read_selector_psafe.
Qed.

(** Selector and floor are equal, or the journal's last record is the [Prepare] of the release that is
    selected; and the selected release is on the disk as a trusted root signed it. *)
Definition consistent d : Prop :=
  exists c f g, sees root d c f g /\ (f <= c)%N /\ (c = 0%N \/ genuine root Trusted d c)
  /\ ((f < c)%N -> exists r, journal_on root d (Some (Some r)) /\ jr_phase r = ActivationPhase.Prepare
        /\ jr_sequence r = c /\ jr_generation r = g).

Lemma inv_consistent d : inv root Trusted d -> consistent d.
Proof.
  intros [(c & f & g & o & Hs & Hj & Hp & Hg) _]. exists c, f, g. split; [done|]. unfold phase in Hp.
  destruct o as [[r|]|]; [|split_and!; [lia|done|lia]..].
  destruct (jr_phase r) eqn:Hph; [|split_and!; [lia|done|lia]..].
  split_and!; [lia|done|]. intros Hlt. exists r. split_and!; [done..|lia|lia].
Qed.

Lemma upd_step_advances i w w' : inv root Trusted (uw_disk w) -> upd_kill i w w' -> advances root Trusted (uw_disk w) (uw_disk w').
Proof. intros Hi [Hd _]. rewrite Hd. by apply same_advances. Qed.

(** C6: On an updater root, whatever processes apply, recover, discard and authorize at the same time, and wherever a
    call fails or a process is killed: selector and floor differ only while the journal ends with the
    [Prepare] record of the selected release; the selected release is complete and signed by a trusted root;
    selector, floor and generation never fall; the selector moves only to the release, past the floor, that
    the issued authorization names at the present generation; and an operation that succeeded has
    established what it reports. *)
Theorem updates_crash_safe (w0 : UpdWorld) sys :
  inv root Trusted (uw_disk w0) -> uw_holder w0 = None -> upd_run w0 sys ->
  consistent (uw_disk (sys_world sys))
  /\ (forall sys', upd_system_step sys sys' -> advances root Trusted (uw_disk (sys_world sys)) (uw_disk (sys_world sys')))
  /\ (forall i p a, sys_processes sys i = Some p -> pr_task p = Ret a -> established (pr_op p) a (sys_world sys)).
Proof.
  intros Hinv Hh Hrun.
  assert (I root Trusted w0) as HI by (split; [done|by rewrite Hh]).
  assert (forall i, none i w0) as Hn by (intros i; unfold none; by rewrite Hh).
  assert (forall i j w w', i <> j -> G root Trusted i w w' -> none j w -> none j w') as HnR.
  { intros i j w w' Hij [_ _ _ HG] Hj. by apply HG. }
  pose proof (R_preorder root Trusted) as HRp.
  pose proof (system_safe_run upd_step upd_kill (run_upd root Trusted) (I root Trusted) (R root Trusted) (G root Trusted)
    established (fun i op => established_stable root Trusted i op) (G_R root Trusted) none HnR (upd_kill_safe root Trusted)
    run_upd_psafe w0 sys HI Hn Hrun) as Hsafe.
  split_and!.
  - apply inv_consistent, Hsafe.
  - intros sys' Hstep. destruct (system_run_step upd_step upd_kill (run_upd root Trusted) (I root Trusted) (R root Trusted) (G root Trusted)
      established (fun i op => established_stable root Trusted i op) (G_R root Trusted) none HnR (upd_kill_safe root Trusted)
      run_upd_psafe w0 sys sys' HI Hn Hrun Hstep) as ([Hi _] & _ & [-> |[[i HG]|[i Hk]]]).
    + by apply same_advances.
    + apply HG.
    + by eapply upd_step_advances.
  - intros i p a Hi Ha. exact (system_run_done upd_step upd_kill (run_upd root Trusted) (I root Trusted) (R root Trusted) (G root Trusted)
      established (fun i op => established_stable root Trusted i op) (G_R root Trusted) none HnR (upd_kill_safe root Trusted)
      run_upd_psafe w0 sys i p a HI Hn Hrun Hi Ha).
Qed.
End runs.

(** * When recovery gets through

    [recovery_completes]: with a journal that can be read, a recovery whose calls succeed ends with selector
    and floor on one complete release.  [torn_journal_blocks]: an append to the journal that was cut in the
    middle of a line makes every later recovery and every later [apply_update] fail. *)

(** ** Running tasks *)

Lemma run_loop_bind {W} {A B S D} (body : S -> W -> option ((S + D) * W)) (k : D -> W -> option (A * W))
    (f : A -> W -> option (B * W)) n s w :
  run_loop body (fun b w => match k b w with Some (a, w1) => f a w1 | None => None end) n s w
  = match run_loop body k n s w with Some (a, w1) => f a w1 | None => None end.
Proof.
  revert s w. induction n as [|n IH]; intros s w; simpl; [done|].
  destruct (body s w) as [[[s1|b] w1]|]; [apply IH|done|done].
Qed.

Lemma run_loop_ext {W} {A S D} (body : S -> W -> option ((S + D) * W)) (k l : D -> W -> option (A * W)) n s w :
  (forall b w, k b w = l b w) -> run_loop body k n s w = run_loop body l n s w.
Proof.
  intros Hk. revert s w. induction n as [|n IH]; intros s w; simpl; [done|].
  destruct (body s w) as [[[s1|b] w1]|]; [apply IH|apply Hk|done].
Qed.

Lemma run_task_bind {E : Type -> Type} {W} (h : forall X, E X -> W -> X * W) n {A B} (t : Task E A) (f : A -> Task E B) w :
  run_task h n (bind_task t f) w = match run_task h n t w with Some (a, w1) => run_task h n (f a) w1 | None => None end.
Proof.
  revert f w. induction t as [A a|A X e k IH|A S D body _ s k IH]; intros f w; simpl; [done| |].
  - destruct (h X e w) as [x w1]. apply IH.
  - rewrite <- run_loop_bind. apply run_loop_ext. intros b w1. apply IH.
Qed.

Section live.
Context `{C : UpdateLib} `{JL : JournalLib} `{!JournalLaws JL} (root : Path) (Trusted : string -> Prop).
Implicit Types (d : Disk).

(** A process whose calls all succeed where they can, alone on the root *)
Definition upd_do (i : nat) X (e : UpdEff X) (w : UpdWorld) : X * UpdWorld :=
  match e in UpdEff X return X * UpdWorld with
  | Fs e => let '(x, d) := fs_do _ e (uw_disk w) in (x, mkUpdWorld d (uw_holder w))
  | Flock => match uw_holder w with
             | None => (true, mkUpdWorld (uw_disk w) (Some i))
             | Some _ => (false, w)
             end
  | Unlock => (tt, mkUpdWorld (uw_disk w) (if decide (uw_holder w = Some i) then None else uw_holder w))
  | PastDeadline => (true, w)
  | Sleep => (tt, w)
  end.

Lemma upd_do_step i X (e : UpdEff X) w : upd_step i X e w (upd_do i X e w).1 (upd_do i X e w).2.
Proof.
  destruct e as [X e| | | |]; simpl; try done.
  - pose proof (fs_do_step X e (uw_disk w)) as Hs. by destruct (fs_do X e (uw_disk w)) as [x d].
  - by destruct (uw_holder w) eqn:E; simpl.
Qed.

(** The task [t] returns [a] and leaves the disk [d']. *)
Definition returns {A} (i : nat) (t : UTask A) d (a : A) d' : Prop :=
  run_task (upd_do i) 1 t (mkUpdWorld d (Some i)) = Some (a, mkUpdWorld d' (Some i)).

Lemma returns_try {A B} i (t : UResult A) (f : A -> UResult B) d a d1 b d2 :
  returns i t d (inl a) d1 -> returns i (f a) d1 b d2 -> returns i (try_bind t f) d b d2.
Proof. unfold returns, try_bind. intros Ht Hf. by rewrite run_task_bind, Ht. Qed.

Lemma returns_fs_or {A} i label (e : FsEff (A + IoError)%type) d a d' :
  fs_do _ e d = (inl a, d') -> returns i (fs_or label e) d (inl a) d'.
Proof. intros He. unfold returns. cbn. by rewrite He. Qed.

(** No file of the updater is a directory, and its directory is there. *)
Definition writable d : Prop :=
  ancestors root ⊆ d_dirs d
  /\ Forall (fun x => at_root root x ∉ d_dirs d)
       (control_names ++ ["current.tmp"; "accepted_floor.tmp"; "generation.tmp"]).

Lemma writable_same d d' : d_dirs d' = d_dirs d -> writable d -> writable d'.
Proof. unfold writable. by intros ->. Qed.

Lemma writable_path d x : writable d -> x ∈ control_names ++ ["current.tmp"; "accepted_floor.tmp"; "generation.tmp"] ->
  x <> "/" -> parent_on d (at_root root x) /\ at_root root x ∉ d_dirs d.
Proof.
  intros [Hr Hd] Hx Hne. rewrite Forall_forall in Hd. split; [|by apply Hd]. unfold parent_on, at_root.
  rewrite parent_app by done. apply Hr, in_ancestors. exists []. by rewrite app_nil_r.
Qed.

Lemma read_number_returns i p l1 l2 d n : number_on d p = Some n -> returns i (read_number p l1 l2) d (inl n) d.
Proof.
  intros Hn. unfold returns. cbn. unfold number_on in Hn. destruct (d_files d !! p) as [text|]; [|by injection Hn as <-].
  by destruct (parse_u64 (trim text)); simplify_eq.
Qed.

Lemma read_selector_returns i d c f g : sees root d c f g -> returns i (read_selector root) d (inl (mkActivationSelector c f g)) d.
Proof.
  intros [Hc Hf Hg]. destruct (layout_paths root) as (Ec & Ef & _ & Eg & _). unfold read_selector, read_floor. rewrite Ec, Ef, Eg.
  eapply returns_try; [by apply read_number_returns|]. eapply returns_try; [by apply read_number_returns|].
  eapply returns_try; [by apply read_number_returns|]. done.
Qed.

Lemma read_last_returns i d o : journal_on root d (Some o) -> returns i (read_last_journal_record root) d (inl o) d.
Proof.
  intros Hj. destruct (layout_paths root) as (_ & _ & Ej & _). unfold returns, read_last_journal_record. rewrite Ej. cbn.
  unfold journal_on in Hj. destruct (d_files d !! _) as [text|]; [|by injection Hj as ->].
  apply journal_text_parse in Hj. by rewrite Hj.
Qed.

Lemma replace_number_returns i x label n d (tmp : string) :
  writable d -> x ∈ control_names -> tmp ∈ ["current.tmp"; "accepted_floor.tmp"; "generation.tmp"] -> x <> "/" -> tmp <> "/" ->
  exists d', returns i (replace_number (at_root root tmp) (at_root root x) label n) d (inl tt) d' /\ d_dirs d' = d_dirs d.
Proof.
  intros Hw Hx Htmp Hxs Hts. destruct (writable_path d tmp Hw) as [Hp Ht]; [apply elem_of_app; by right|done|].
  destruct (writable_path d x Hw) as [_ Hxd]; [apply elem_of_app; by left|done|].
  eexists. split.
  - unfold replace_number. eapply returns_try; [apply returns_fs_or; cbn; by rewrite decide_True|].
    eapply returns_try; [apply returns_fs_or; reflexivity|]. eapply returns_try; [apply returns_fs_or; reflexivity|].
    apply returns_fs_or. cbn. rewrite lookup_alter_eq, lookup_insert_eq. cbn. by rewrite decide_False.
  - done.
Qed.

Lemma write_journal_returns i r d : writable d ->
  exists d', returns i (write_journal root r) d (inl tt) d' /\ d_dirs d' = d_dirs d.
Proof.
  intros Hw. destruct (layout_paths root) as (_ & _ & Ej & _). unfold write_journal. rewrite Ej.
  destruct (writable_path d "activation.journal" Hw) as [Hp Hd]; [set_solver|done|].
  destruct (record_writes r) as [line Hline]. set (p := at_root root "activation.journal") in *.
  assert (d_dirs d ∪ ancestors root = d_dirs d) as Hdirs by (rewrite union_comm_L; apply subseteq_union_1_L, Hw).
  eexists. split.
  - eapply returns_try.
    { unfold create_parent, p, at_root. rewrite parent_app by done. apply returns_fs_or. cbn. rewrite Hdirs. reflexivity. }
    eapply returns_try.
    { apply returns_fs_or. cbn. rewrite decide_True by done. reflexivity. }
    eapply returns_try; [unfold returns, or_invalid; rewrite Hline; reflexivity|].
    eapply returns_try; [apply returns_fs_or; reflexivity|]. eapply returns_try; [apply returns_fs_or; reflexivity|].
    apply returns_fs_or. reflexivity.
  - cbn. unfold open_on. cbn. by destruct (d_files d !! p).
Qed.

(** ** Recovery *)

Lemma writes_returns {A} i (r : ActivationJournalRecord) (n : N) (a : A) d : writable d -> forall (floor : bool) m,
  exists d', returns i (let! _ := (if floor then write_floor root m else Ret (inl tt)) in
                        let! generation := Ret (inl n) in
                        let! _ := write_generation root generation in
                        let! _ := write_journal root (with_phase ActivationPhase.Committed r generation) in
                        Ret (inl a)) d (inl a) d'.
Proof.
  intros Hw floor m. destruct (layout_paths root) as (_ & Ef & _ & Eg & _).
  assert (exists d1, returns i (if floor then write_floor root m else Ret (inl tt)) d (inl tt) d1 /\ d_dirs d1 = d_dirs d)
    as (d1 & Hr1 & Hd1).
  { destruct floor; [|by exists d]. unfold write_floor. rewrite Ef, join_root by done.
    apply replace_number_returns; [done|set_solver..|done|done]. }
  assert (exists d2, returns i (write_generation root n) d1 (inl tt) d2 /\ d_dirs d2 = d_dirs d1) as (d2 & Hr2 & Hd2).
  { unfold write_generation. rewrite Eg, join_root by done.
    apply replace_number_returns; [by eapply writable_same|set_solver..|done|done]. }
  destruct (write_journal_returns i (with_phase ActivationPhase.Committed r n) d2) as (d3 & Hr3 & _).
  { eapply writable_same; [exact Hd2|]. by eapply writable_same. }
  exists d3. eapply returns_try; [exact Hr1|]. eapply returns_try; [done|]. eapply returns_try; [exact Hr2|].
  by eapply returns_try; [exact Hr3|].
Qed.

Lemma recover_locked_returns i d o : inv root Trusted d -> writable d -> journal_on root d (Some o) ->
  exists s d', returns i (recover_activation_locked root) d (inl s) d'.
Proof.
  intros [(c & f & g & o' & Hs & Hj & Hp & _) _] Hw Hj'. pose proof (journal_on_unique root Trusted _ _ _ Hj Hj') as ->.
  unfold recover_activation_locked.
  set (selector := mkActivationSelector c f g).
  assert (forall k s d', returns i (k selector o) d (inl s) d' ->
    returns i (let! selector := read_selector root in let! last := read_last_journal_record root in k selector last) d
      (inl (s : ActivationSelector)) d') as Hreads.
  { intros k s d' Hk. eapply returns_try; [by apply read_selector_returns|]. by eapply returns_try; [apply read_last_returns|]. }
  match goal with |- exists s d', returns i (let! selector := _ in let! last := _ in @?k selector last) d _ _ =>
    enough (exists s d', returns i (k selector o) d (inl s) d') as (s & d' & Hr) by (exists s, d'; exact (Hreads k s d' Hr)) end.
  cbn beta.
  destruct o as [r|]; [|by exists selector, d].
  destruct (jr_phase r) eqn:Hph; [|by exists selector, d..]. cbn [as_current_sequence as_accepted_floor selector].
  case_decide as Hc.
  - unfold phase in Hp. rewrite Hph in Hp. rewrite next_generation_ok by lia.
    destruct (writes_returns i r (jr_generation r + 1)
      (mkActivationSelector (jr_sequence r) (jr_sequence r `max` f) (jr_generation r + 1)) d Hw
      (bool_decide (f < jr_sequence r)%N) (jr_sequence r)) as [d' Hr].
    eexists _, d'. case_decide as Hf; [rewrite bool_decide_true in Hr by done|rewrite bool_decide_false in Hr by done]; exact Hr.
  - destruct (write_journal_returns i (with_phase ActivationPhase.Aborted r (jr_generation r)) d Hw) as (d' & Hr & _).
    exists selector, d'. by eapply returns_try.
Qed.

Lemma dsafe_returns (P : Disk -> Prop) (Rel : Disk -> Disk -> Prop) i {A} (t : UTask A) (Q : A -> Disk -> Prop) d a d' :
  dsafe P Rel t Q d -> returns i t d a d' -> Q a d'.
Proof.
  unfold returns. revert Q d. induction t as [A a0|A X e k IH|A S B body _ s k _]; intros Q d; [|simpl|done].
  - by intros HQ [= <- <-].
  - intros [He Hk]. destruct e as [X e| | | |]; try done. cbn.
    pose proof (fs_do_step X e d) as Hs. destruct (fs_do X e d) as [x d1]. destruct (Hk x d1 Hs) as (_ & _ & Hsafe).
    by apply IH.
Qed.

Lemma acquire_returns i d : writable d ->
  run_task (upd_do i) 1 (acquire_file root) (mkUpdWorld d None)
  = Some (inl tt, mkUpdWorld (open_on (at_root root "updater.lock") d) (Some i)).
Proof.
  intros Hw. destruct (layout_paths root) as (_ & _ & _ & _ & _ & El & _).
  assert (d_dirs d ∪ ancestors root = d_dirs d) as Hdirs by (rewrite union_comm_L; apply subseteq_union_1_L, Hw).
  destruct (writable_path d "updater.lock" Hw) as [Hp Hl]; [set_solver|done|].
  unfold acquire_file, try_bind. rewrite El. rewrite run_task_bind. cbn. rewrite Hdirs.
  rewrite decide_True by by destruct d. cbn. by destruct d.
Qed.

(** C23: With a journal that can be read, a recovery whose calls succeed ends: it releases the lease, and selector and
    floor are then equal, on no release or on one that is complete and signed by a trusted root. *)
Theorem recovery_completes (i : nat) d o :
  inv root Trusted d -> writable d -> journal_on root d (Some o) ->
  exists s d', run_task (upd_do i) 1 (run_upd root Trusted (OpRecover root Trusted)) (mkUpdWorld d None)
      = Some (AnSelector (inl s), mkUpdWorld d' None)
    /\ as_current_sequence s = as_accepted_floor s
    /\ sees root d' (as_current_sequence s) (as_accepted_floor s) (as_generation s)
    /\ (as_current_sequence s = 0%N \/ genuine root Trusted d' (as_current_sequence s)).
Proof.
  intros Hinv Hw Hj. destruct (layout_paths root) as (_ & _ & _ & _ & _ & El & _).
  assert (d_dirs d ∪ ancestors root = d_dirs d) as Hdirs by (rewrite union_comm_L; apply subseteq_union_1_L, Hw).
  destruct (writable_path d "updater.lock" Hw) as [Hp Hl]; [set_solver|done|].
  set (p := at_root root "updater.lock") in *. set (d1 := open_on p d).
  assert (d_dirs d1 = d_dirs d) as Hd1 by (unfold d1, open_on; by destruct (d_files d !! p)).
  assert (spares root Trusted ["authorization.json"; "updater.lock"] d d1) as Hsp.
  { eapply touches_spares; [apply open_touches|]. apply Forall_singleton. left. exists "updater.lock". split; [set_solver|done]. }
  assert (J root Trusted d1) as HJ1.
  { split; [by apply (spares_inv _ _ d)|]. split; [rewrite Hd1; apply Hw|].
    unfold d1, open_on. fold p. destruct (d_files d !! p) eqn:Ep; [rewrite Ep; eauto|]. cbn. rewrite lookup_insert_eq. eauto. }
  assert (journal_on root d1 (Some o)) as Hj1.
  { eapply (spares_journal root Trusted ["authorization.json"; "updater.lock"] d d1); [set_solver|done..]. }
  destruct (recover_locked_returns i d1 o) as (s & d' & Hr); [apply HJ1|by eapply writable_same|done|].
  exists s, d'.
  assert (J root Trusted d' /\ as_current_sequence s = as_accepted_floor s
    /\ sees root d' (as_current_sequence s) (as_accepted_floor s) (as_generation s)) as (HJ' & Heq & Hs).
  { set (post := fun (r : ActivationSelector + UpdaterError) d => match r with
      | inl s => J root Trusted d /\ as_current_sequence s = as_accepted_floor s
          /\ sees root d (as_current_sequence s) (as_accepted_floor s) (as_generation s)
      | inr _ => True end).
    assert (dsafe (J root Trusted) (advances root Trusted) (recover_activation_locked root) post d1) as Hsafe.
    { apply recover_locked_safe; [done| |done]. intros d2 c g HJ2 _ Hs _. by split_and!. }
    exact (dsafe_returns _ _ _ _ _ _ _ _ Hsafe Hr). }
  split_and!; [|done..|].
  - cbn [run_upd]. unfold recover_activation, with_lease, try_bind. rewrite !run_task_bind, (acquire_returns i d Hw).
    fold p d1. rewrite run_task_bind, Hr. cbn. by rewrite decide_True.
  - destruct HJ' as [[(c & f & g & o' & Hs' & _ & _ & Hg) _] _]. by destruct (sees_unique _ _ _ _ _ _ _ _ Hs Hs') as (-> & _).
Qed.

(** ** A torn journal *)

(** The code ends with an error, and no call changed the disk. *)
Definition blocked {A} (t : UResult A) d : Prop :=
  dsafe (fun _ => True) (fun d d' => d' = d) t (fun r d' => d' = d /\ exists e, r = inr e) d.

Lemma blocked_try {A B} (t : UResult A) (f : A -> UResult B) d : blocked t d -> blocked (try_bind t f) d.
Proof. intros Ht. apply dsafe_try. revert Ht. apply dsafe_mono. intros r d' [-> [e ->]]. eauto. Qed.

Lemma read_selector_then {B} (f : ActivationSelector -> UResult B) d :
  (forall s, blocked (f s) d) -> blocked (try_bind (read_selector root) f) d.
Proof.
  intros Hf. unfold read_selector, read_floor. apply dsafe_try. unfold blocked in Hf.
  assert (forall p l1 l2 (Q' : N + UpdaterError -> Disk -> Prop), (forall r, Q' r d) ->
    dsafe (fun _ => True) (fun d d' => d' = d) (read_number p l1 l2) Q' d) as Hnum.
  { intros p l1 l2 Q' HQ. apply dsafe_fs. intros x d' [-> _]. split_and!; [done..|]. apply HQ. }
  apply dsafe_try, Hnum. intros [c|e]; [|eauto]. apply dsafe_try, Hnum. intros [f'|e]; [|eauto].
  apply dsafe_try, Hnum. intros [g|e]; [|eauto]. cbn. apply Hf.
Qed.

Lemma unreadable_blocks {A} (f : option ActivationJournalRecord -> UResult A) d text e :
  d_files d !! at_root root "activation.journal" = Some text -> parse_journal text = inr e ->
  blocked (try_bind (read_last_journal_record root) f) d.
Proof.
  intros Hf He. destruct (layout_paths root) as (_ & _ & Ej & _). apply dsafe_try. unfold read_last_journal_record. rewrite Ej.
  apply dsafe_fs. intros x d' [-> Hx]. split_and!; [done..|]. cbn. destruct x as [text'|e'].
  - rewrite Hf in Hx. injection Hx as <-. rewrite He. eauto.
  - destruct (io_not_found e'); [|eauto]. rewrite Hf in Hx. by specialize (Hx eq_refl).
Qed.

(** C33: Once an append to the journal was cut in the middle of a record, every recovery and every [apply_update] that
    holds the lease fails without changing anything. *)
Theorem torn_journal_blocks d t o r written rest options :
  ended t -> parse_journal t = inl o -> record_to_string r = inl (written +:+ rest) -> written <> "" -> rest <> "" ->
  d_files d !! at_root root "activation.journal" = Some (t +:+ written) ->
  blocked (recover_activation_locked root) d /\ blocked (apply_locked root options) d.
Proof.
  intros Ht Ho Hr Hw Hrest Hf. destruct (parse_journal_cut _ _ _ _ _ Ht Ho Hr Hrest) as [|[e He]]; [done|].
  assert (blocked (recover_activation_locked root) d) as Hrec.
  { unfold recover_activation_locked. apply read_selector_then. intros s. by eapply unreadable_blocks. }
  split; [done|]. by apply blocked_try.
Qed.
End live.
