(* ===== verification/UpdDemo.v ===== *)
(** * A concrete updater root

    Codecs that satisfy the laws asked of serde_json, a signature scheme, and the runs in which the witnesses
    of the updater's theorems take place. *)

From stdpp Require Import pretty.
From S2P Require Import Prelude RustStr Text Result Effects Processes UpdMeta UpdJournal Updater UpdSpec UpdInv UpdActivate UpdStage UpdRun.

Module UpdDemo.
(** ** A codec: the number a value is encoded as, bit by bit *)

Fixpoint bits (p : positive) : string :=
  match p with
  | xH => "}"
  | xO p => String "0" (bits p)
  | xI p => String "1" (bits p)
  end.

Fixpoint read_bits (s : string) : option positive :=
  match s with
  | String "}" EmptyString => Some xH
  | String "0" s => xO <$> read_bits s
  | String "1" s => xI <$> read_bits s
  | _ => None
  end.

Lemma read_bits_bits p : read_bits (bits p) = Some p.
Proof. induction p as [p IH|p IH|]; cbn; [by rewrite IH..|done]. Qed.

Lemma read_bits_more p w : w <> "" -> read_bits (bits p +:+ w) = None.
Proof. intros Hw. induction p as [p IH|p IH|]; cbn; [by rewrite IH..|by destruct w]. Qed.

Lemma read_bits_cut p w rest : bits p = w +:+ rest -> rest <> "" -> read_bits w = None.
Proof.
  intros Hp Hrest. revert w Hp. induction p as [p IH|p IH|]; intros [|c w] Hp; cbn in Hp; try done.
  - injection Hp as <- Hp. cbn. by rewrite (IH _ Hp).
  - injection Hp as <- Hp. cbn. by rewrite (IH _ Hp).
  - injection Hp as <- Hp. destruct w; [by destruct rest|done].
Qed.

Lemma bits_graphic p : bytes_all is_ascii_graphic (bits p) = true.
Proof. induction p as [p IH|p IH|]; cbn [bits bytes_all]; [rewrite IH; reflexivity..|reflexivity]. Qed.

Lemma bits_body p : exists body, bits p = body +:+ "}".
Proof.
  induction p as [p [b IH]|p [b IH]|]; cbn; [exists (String "1" b)|exists (String "0" b)|exists ""]; [by rewrite IH..|done].
Qed.

Section codec.
Context {A : Type} `{Countable A}.
Definition print (a : A) : string := String "{" (bits (encode a)).
Definition parse (s : string) : A + string :=
  match s with
  | String "{" s => match read_bits s ≫= decode with Some a => inl a | None => inr "expected value" end
  | _ => inr "expected value"
  end.

Lemma parse_print a : parse (print a) = inl a.
Proof. cbn. by rewrite read_bits_bits; cbn; rewrite decode_encode. Qed.

Lemma print_graphic a : bytes_all is_ascii_graphic (print a) = true.
Proof. unfold print. cbn [bytes_all]. by rewrite bits_graphic. Qed.

Lemma graphic_app_l (s t : string) : bytes_all is_ascii_graphic (s +:+ t) = true -> bytes_all is_ascii_graphic s = true.
Proof. rewrite bytes_all_app. by intros [? _]%andb_true_iff. Qed.

Lemma graphic_no_lf s : bytes_all is_ascii_graphic s = true -> contains LF s = false.
Proof.
  induction s as [|c s IH]; [done|]. cbn [bytes_all contains]. intros [Hc Hs]%andb_true_iff.
  rewrite (IH Hs), orb_false_r. apply bool_decide_false. by intros ->.
Qed.

Lemma print_inj a b : print a = print b -> a = b.
Proof. intros Heq. apply (f_equal parse) in Heq. rewrite !parse_print in Heq. by injection Heq. Qed.

Lemma parse_cut a w rest : print a = w +:+ rest -> rest <> "" -> exists e, parse (trim w) = inr e.
Proof.
  intros Hp Hrest. pose proof (print_graphic a) as Hg. rewrite Hp in Hg. apply graphic_app_l in Hg.
  rewrite trim_graphic by done. destruct w as [|c w]; [by eexists|]. injection Hp as <- Hp. cbn.
  rewrite (read_bits_cut _ _ _ Hp Hrest). by eexists.
Qed.

Lemma parse_more a b w rest : print b = w +:+ rest -> w <> "" -> exists e, parse (trim (print a +:+ w)) = inr e.
Proof.
  intros Hp Hw. pose proof (print_graphic b) as Hg. rewrite Hp in Hg. apply graphic_app_l in Hg.
  rewrite trim_graphic by (by rewrite bytes_all_app, print_graphic, Hg). cbn. rewrite read_bits_more by done. by eexists.
Qed.
End codec.

(** ** The libraries *)

Definition phase_code (p : ActivationPhase.t) : N :=
  match p with ActivationPhase.Prepare => 0 | ActivationPhase.Committed => 1 | ActivationPhase.Aborted => 2 end.
Definition phase_of (n : N) : ActivationPhase.t :=
  match n with 0%N => ActivationPhase.Prepare | 1%N => ActivationPhase.Committed | _ => ActivationPhase.Aborted end.

#[export] Instance record_eq_dec : EqDecision ActivationJournalRecord.
Proof. solve_decision. Defined.
#[export] Program Instance record_countable : Countable ActivationJournalRecord :=
  inj_countable' (fun r => (jr_owner_token r, (phase_code (jr_phase r), (jr_sequence r, (jr_previous_sequence r, jr_generation r)))))
    (fun x => let '(t, (p, (s, (v, g)))) := x in mkActivationJournalRecord (phase_of p) s v t g) _.
Next Obligation. by intros [[] ? ? ? ?]. Qed.

#[export] Program Instance authorization_countable : Countable ActivationAuthorization :=
  inj_countable' (fun a => (aa_owner_token a, (aa_candidate_sequence a, aa_expected_generation a)))
    (fun x => let '(t, (s, g)) := x in mkActivationAuthorization s g t) _.
Next Obligation. by intros []. Qed.

#[export] Instance journal_lib : JournalLib := {|
  record_to_string r := inl (print r);
  record_from_str := parse;
  authorization_to_vec a := inl (print a);
  authorization_from_str := parse;
|}.

#[export] Instance journal_laws : JournalLaws journal_lib.
Proof.
  split; cbn.
  - intros r. by eexists.
  - intros r line [= <-]. split; [apply graphic_no_lf, print_graphic|]. destruct (bits_body (encode r)) as [body Hb].
    exists body. unfold print. by rewrite Hb.
  - intros r line [= <-]. apply parse_print.
  - intros r w rest [= Hp] Hrest. exact (parse_cut r w rest Hp Hrest).
  - intros r line r' w rest [= <-] [= Hp] Hw. exact (parse_more r r' w rest Hp Hw).
Qed.

#[export] Instance artifact_eq_dec : EqDecision ArtifactDigest.
Proof. solve_decision. Defined.
#[export] Program Instance artifact_countable : Countable ArtifactDigest :=
  inj_countable' (fun a => (ad_sha256_hex a, (ad_name a, ad_size a)))
    (fun x => let '(h, (n, s)) := x in mkArtifactDigest n s h) _.
Next Obligation. by intros []. Qed.

#[export] Instance canonical_eq_dec : EqDecision CanonicalMetadata.
Proof. solve_decision. Defined.
#[export] Program Instance canonical_countable : Countable CanonicalMetadata :=
  inj_countable' (fun m => (cm_artifacts m, ((cm_platform m, (cm_min_updater_version m, cm_key_id m)),
      (cm_sequence m, (cm_not_before m, (cm_not_after m, (cm_recovery m, cm_protocol_version m)))))))
    (fun x => let '(arts, ((p, (v, k)), (s, (b, (a, (r, n)))))) := x in mkCanonicalMetadata s p arts b a r n v k) _.
Next Obligation. by intros []. Qed.

#[export] Instance root_eq_dec : EqDecision TrustRootRecord.
Proof. solve_decision. Defined.
#[export] Program Instance root_countable : Countable TrustRootRecord :=
  inj_countable' (fun r => (trr_verifying_key_hex r, trr_key_id r)) (fun x => mkTrustRootRecord x.2 x.1) _.
Next Obligation. by intros []. Qed.

(** The first 32 bytes of a text, filled up: as a digest. *)
Fixpoint first_bytes (n : nat) (s : string) : string :=
  match n, s with
  | O, _ => EmptyString
  | S n, EmptyString => String zero (first_bytes n EmptyString)
  | S n, String c s => String c (first_bytes n s)
  end.

(** A signature is the key followed by what is signed. *)
#[export] Instance update_lib : UpdateLib := {|
  VerifyingKey := string;
  Signature := string;
  verifying_key_from_bytes := Some;
  signature_from_slice := Some;
  verify key payload signature := bool_decide (signature = key +:+ payload);
  sha256_digest := first_bytes 32;
  canonical_to_vec m := inl (print m);
  trust_roots_to_string_pretty roots := inl (print roots);
  trust_roots_from_str text := parse (trim text);
  BACKEND_VERSION := "0.43.2";
|}.

#[export] Instance update_laws : UpdateLaws update_lib.
Proof.
  split; cbn.
  - intros m1 m2 bytes H1 H2. apply print_inj. rewrite <- H2 in H1. exact (inl_inj _ _ H1).
  - intros records text [= <-]. pose proof (trim_line (print records) (print_graphic records)) as Htrim.
    change (parse (trim (print records +:+ String LF "")) = inl records). unfold LF. rewrite Htrim. apply parse_print.
Qed.

(** ** A root, a package and a signed release *)

Definition root : Path := ["/"; "updater"].
Definition key : string := first_bytes 32 "release key".
Definition trust_root : TrustRoot := mkTrustRoot "ci" key.
Definition Trusted (k : string) : Prop := k = key.
Definition payload_bytes : string := "hya v2".
Definition platform : string := "x86_64-linux".

Definition unsigned : ReleaseMetadata :=
  {| rm_sequence := 2; rm_platform := platform;
     rm_artifacts := [mkArtifactDigest "bin/hya" 6 (hex_bytes (sha256_digest payload_bytes))];
     rm_not_before := 0; rm_not_after := 1000; rm_recovery := false; rm_protocol_version := 1;
     rm_min_updater_version := "0.34"; rm_key_id := "ci"; rm_signature := "" |}.
Definition signature : string :=
  match canonical_metadata_payload unsigned with inl payload => key +:+ payload | inr _ => "" end.
Definition metadata : ReleaseMetadata :=
  {| rm_sequence := 2; rm_platform := platform;
     rm_artifacts := rm_artifacts unsigned;
     rm_not_before := 0; rm_not_after := 1000; rm_recovery := false; rm_protocol_version := 1;
     rm_min_updater_version := "0.34"; rm_key_id := "ci"; rm_signature := signature |}.

Definition roots_text : string := match trust_roots_text [trust_root] with inl text => text | inr _ => "" end.

Definition disk : Disk :=
  {| d_files := list_to_map [(at_root root "trust_roots.json", roots_text); (["/"; "package"; "bin"; "hya"], payload_bytes)];
     d_dirs := list_to_set [["/"]; root; ["/"; "package"]; ["/"; "package"; "bin"]; ["/"; "tmp"]] |}.

Definition authorization : ActivationAuthorization := mkActivationAuthorization 2 0 "7-1".

Definition options : ApplyOptions :=
  {| ao_metadata := metadata; ao_package_source := "file:///package"; ao_trust_roots := None;
     ao_host_platform := platform; ao_now_unix := 100; ao_smoke_command := Some "bin/hya"; ao_smoke_args := ["--version"];
     ao_activation := Some authorization |}.

Lemma options_are_ok : options_ok Trusted options.
Proof. by split. Qed.

(** The operations one after the other, each in a process of its own *)
Fixpoint play (i : nat) (ops : list (UpdOp root Trusted)) (w : UpdWorld) : list UpdAnswer * UpdWorld :=
  match ops with
  | [] => ([], w)
  | op :: ops =>
      match run_task (upd_do i) 1 (run_upd root Trusted op) w with
      | Some (a, w1) => let '(answers, w2) := play (S i) ops w1 in (a :: answers, w2)
      | None => ([], w)
      end
  end.

Definition update_ops : list (UpdOp root Trusted) :=
  [OpAuthorize root Trusted 2 ["/"; "tmp"; "capability"] eq_refl; OpApply root Trusted options options_are_ok; OpRecover root Trusted].

Definition played := play 0 update_ops (mkUpdWorld disk None).


(** Like [play], with the operations and their answers listed *)
Lemma play_pool i ops ps w answers w' :
  system_run upd_step upd_kill (run_upd root Trusted) (mkUpdWorld disk None) (mkSystem ps w) -> (forall j, i <= j -> ps j = None) ->
  play i ops w = (answers, w') -> length answers = length ops ->
  exists ps', system_run upd_step upd_kill (run_upd root Trusted) (mkUpdWorld disk None) (mkSystem ps' w')
    /\ (forall j, j < i -> ps' j = ps j)
    /\ forall k op a, ops !! k = Some op -> answers !! k = Some a -> ps' (i + k) = Some (mkProcess op (Ret a)).
Proof.
  revert i ps w answers w'. induction ops as [|op ops IH]; intros i ps w answers w' Hrun Hnone Hplay Hlen.
  - injection Hplay as <- <-. exists ps. by split_and!.
  - cbn [play] in Hplay. destruct (run_task (upd_do i) 1 (run_upd root Trusted op) w) as [[a w1]|] eqn:Er;
      [|injection Hplay as <- <-; by simpl in Hlen].
    destruct (play (S i) ops w1) as [answers1 w2] eqn:Ep. injection Hplay as <- <-.
    destruct (system_drive upd_step upd_kill (run_upd root Trusted) i (upd_do i) (upd_do_step i) 1 _ _ _ _ _ _
      Hrun (Hnone i ltac:(lia)) Er) as (ps1 & Hrun1 & Hi1 & Hj1).
    destruct (IH (S i) ps1 w1 answers1 w2 Hrun1) as (ps2 & Hrun2 & Hlow & Hps2); [|done|by injection Hlen|].
    { intros j Hj. rewrite Hj1 by lia. apply Hnone. lia. }
    exists ps2. split_and!; [done| |].
    + intros j Hj. rewrite Hlow by lia. apply Hj1. lia.
    + intros [|k] op' a' Hop Ha; cbn in Hop, Ha.
      * rewrite Nat.add_0_r, Hlow by lia. by simplify_eq.
      * rewrite Nat.add_succ_r. by apply (Hps2 k).
Qed.

#[export] Instance trust_root_eq_dec : EqDecision TrustRoot.
Proof. solve_decision. Defined.

#[export] Instance selector_eq_dec : EqDecision ActivationSelector.
Proof. solve_decision. Defined.
#[export] Instance verified_eq_dec : EqDecision VerifiedRelease.
Proof. solve_decision. Defined.

Lemma inl_by {A B} `{EqDecision A} (r : A + B) (a : A) :
  match r with inl b => bool_decide (b = a) | inr _ => false end = true -> r = inl a.
Proof. destruct r; [|done]. by intros ->%bool_decide_eq_true. Qed.

Lemma roots_text_parses : parse_trust_roots roots_text = inl [trust_root].
Proof. apply inl_by. by vm_compute. Qed.

Lemma sees_by (d : Disk) c f g :
  bool_decide ((number_on d (at_root root "current"), number_on d (at_root root "accepted_floor"), number_on d (at_root root "generation"))
    = (Some c, Some f, Some g)) = true -> sees root d c f g.
Proof. intros H%bool_decide_eq_true. by injection H. Qed.

Lemma trusted_by (d : Disk) :
  bool_decide (d_files d !! at_root root "trust_roots.json" = Some roots_text) = true -> trusted_file root Trusted d.
Proof.
  intros Hd%bool_decide_eq_true text roots Ht Hp. pose proof roots_text_parses as Hr.
  rewrite Hd in Ht. injection Ht as <-. rewrite Hr in Hp. injection Hp as <-. by apply Forall_singleton.
Qed.

Lemma disk_inv : inv root Trusted disk.
Proof.
  split; [|apply trusted_by; by vm_compute]. exists 0%N, 0%N, 0%N, (Some None). split_and!; [|by vm_compute|done|by left].
  apply sees_by. by vm_compute.
Qed.

(** ** The witnesses *)

Definition as_meant (p : list UpdAnswer * UpdWorld) : bool :=
  match p with
  | ([AnDone None; AnApply (inl result); AnSelector (inl selector)], w) =>
      bool_decide (ar_activated result = Some (mkActivationSelector 2 2 1))
      && bool_decide (selector = mkActivationSelector 2 2 1) && bool_decide (uw_holder w = None)
  | _ => false
  end.

Lemma as_meant_spec p : as_meant p = true ->
  exists result selector w, p = ([AnDone None; AnApply (inl result); AnSelector (inl selector)], w)
  /\ ar_activated result = Some (mkActivationSelector 2 2 1).
Proof.
  destruct p as [[|[?|?|[?|]] [|[[result|]|?|?] [|[?|[selector|]|?] [|]]]] w]; try discriminate.
  intros [[Ha%bool_decide_eq_true _]%andb_true_iff _]%andb_true_iff. by exists result, selector, w.
Qed.

Lemma updates_as_meant : as_meant played = true.
Proof. by vm_compute. Qed.

Lemma updates_crash_safe_witness : exists ps w result,
  ps 1 = Some (mkProcess (OpApply root Trusted options options_are_ok) (Ret (AnApply (inl result))))
  /\ ar_activated result = Some (mkActivationSelector 2 2 1)
  /\ consistent root Trusted (uw_disk w)
  /\ (forall sys', system_step upd_step upd_kill (run_upd root Trusted) (mkSystem ps w) sys' ->
        advances root Trusted (uw_disk w) (uw_disk (sys_world sys')))
  /\ at_least root Trusted (uw_disk w) 2 2 1.
Proof.
  destruct (as_meant_spec _ updates_as_meant) as (result & selector & w & Ep & Ha). unfold played in Ep.
  destruct (play_pool 0 update_ops (fun _ => None) (mkUpdWorld disk None) _ _ (sys_start _ _ _ _) (fun _ _ => eq_refl) Ep eq_refl)
    as (ps & Hrun & _ & Hps).
  pose proof (Hps 1 _ _ eq_refl eq_refl) as H1. cbn [Nat.add] in H1.
  destruct (updates_crash_safe root Trusted (mkUpdWorld disk None) (mkSystem ps w) disk_inv eq_refl Hrun) as (Hc & Hs & Hd).
  exists ps, w, result. split_and!; [done..|]. specialize (Hd 1 _ _ H1 eq_refl). cbn in Hd. rewrite Ha in Hd. apply Hd.
Defined.

(** The process was killed behind the move of the selector. *)
Definition pending_record : ActivationJournalRecord := mkActivationJournalRecord ActivationPhase.Prepare 2 0 "7-1" 0.
Definition pending_text : string := print pending_record +:+ String LF EmptyString.
Definition pending : Disk :=
  let d := uw_disk played.2 in
  mkDisk (<[at_root root "activation.journal" := pending_text]>
           (delete (at_root root "accepted_floor") (delete (at_root root "generation") (d_files d)))) (d_dirs d).

Lemma pending_genuine : genuine root Trusted pending 2.
Proof.
  pose proof (verify_exact metadata [trust_root] 0 100 platform) as Hv.
  rewrite (inl_by (verify_release_metadata metadata [trust_root] 0 100 platform) (verified_of metadata)) in Hv by by vm_compute.
  destruct Hv as [[_ _ _ _ _ (r & (pre & post & Heq & _) & Hsigned)] _].
  exists metadata, r. split_and!; [|done..|].
  - destruct pre as [|? [|? ?]]; [|discriminate..]. injection Heq as <- _. reflexivity.
  - apply Forall_singleton. split; [apply inl_by; by vm_compute|]. exists payload_bytes.
    split; [apply (bool_decide_eq_true_1 _); by vm_compute|apply inl_by; by vm_compute].
Qed.

Lemma pending_journal : journal_on root pending (Some (Some pending_record)).
Proof.
  assert (d_files pending !! at_root root "activation.journal" = Some pending_text) as Hj by apply lookup_insert_eq.
  unfold journal_on. rewrite Hj. apply text_ended; [right; by eexists|]. apply (parse_journal_line "" None pending_record (print pending_record)).
  - by left.
  - done.
  - done.
Qed.

Lemma pending_inv : inv root Trusted pending.
Proof.
  split; [|apply trusted_by; by vm_compute]. exists 2%N, 0%N, 0%N, (Some (Some pending_record)). split_and!.
  - apply sees_by. by vm_compute.
  - apply pending_journal.
  - right; left. by vm_compute.
  - right. apply pending_genuine.
Qed.

Lemma pending_writable : writable root pending.
Proof.
  assert (bool_decide (writable root pending) = true) as H%bool_decide_eq_true; [by vm_compute|done].
Qed.

Lemma recovery_completes_witness : exists s d',
  run_task (upd_do 3) 1 (run_upd root Trusted (OpRecover root Trusted)) (mkUpdWorld pending None)
    = Some (AnSelector (inl s), mkUpdWorld d' None)
  /\ as_current_sequence s = as_accepted_floor s
  /\ sees root d' (as_current_sequence s) (as_accepted_floor s) (as_generation s)
  /\ (as_current_sequence s = 0%N \/ genuine root Trusted d' (as_current_sequence s)).
Proof. apply (recovery_completes root Trusted 3 pending (Some pending_record) pending_inv pending_writable pending_journal). Defined.

(** The next append was cut behind its first byte. *)
Definition torn : Disk :=
  mkDisk (<[at_root root "activation.journal" := pending_text +:+ "{"]> (d_files pending)) (d_dirs pending).

Lemma torn_journal_blocks_witness :
  blocked (recover_activation_locked root) torn /\ blocked (apply_locked root options) torn.
Proof.
  apply (torn_journal_blocks root torn pending_text (Some pending_record) pending_record "{" (bits (encode pending_record)) options).
  - right. by eexists.
  - apply (parse_journal_line "" None pending_record (print pending_record)); [by left|reflexivity..].
  - reflexivity.
  - discriminate.
  - destruct (encode pending_record); discriminate.
  - apply lookup_insert_eq.
Defined.

Lemma accepted_release_exact_witness : acceptable metadata [trust_root] 0 100 platform.
Proof.
  destruct accepted_release_exact as (Hok & _ & _). apply (Hok metadata [trust_root] 0%N 100%Z platform (verified_of metadata)).
  apply inl_by. by vm_compute.
Defined.

Lemma trust_roots_roundtrip_witness : root_ok trust_root /\ parse_trust_roots roots_text = inl [trust_root].
Proof.
  assert (root_ok trust_root) as Hok by (split; [discriminate|reflexivity]). split; [done|].
  apply (trust_roots_roundtrip [trust_root] roots_text); [discriminate|by apply Forall_singleton|reflexivity].
Defined.
End UpdDemo.
