(* ===== verification/RelayLink.v ===== *)
(** * Relay links ([hya-relay/src/link.rs])

    The string a client needs to reach a backend through a relay: where the relay is published, the room,
    a transport hint and, in the fragment, two keys.  The parsers and printers of links and proxy URLs,
    and how a link and its room relate. *)

From stdpp Require Import pretty.
From S2P Require Import Prelude Result RustStr Text.

(** Unpadded base64url and base32, SHA-256 and HMAC-SHA256 (key, then message), of crates the code uses *)
Class RelayLib := {
  b64url_encode : string -> string;
  b64url_decode : string -> option string;
  base32_nopad_encode : string -> string;
  sha256 : string -> string;
  hmac_sha256 : string -> string -> string;
}.

Definition ROOM_ID_LEN : nat := 26.
Definition DEFAULT_SECURE_PORT : N := 443.
Definition DEFAULT_INSECURE_PORT : N := 80.
Definition SECURE_SCHEME : string := "hya".
Definition INSECURE_SCHEME : string := "hya+insecure".
Definition BASE32_ALPHABET : string := "abcdefghijklmnopqrstuvwxyz234567".

Definition OPEN_TOKEN_CONTEXT : string := "hya.relay.v1/open" +:+ String (ascii_of_nat 0) EmptyString.

Module KeyField.
Inductive t := ServerKey | Psk.
End KeyField.

Inductive LinkError :=
  | UnknownScheme (scheme : string)
  | InvalidHost (host : string)
  | InvalidPort (port : string)
  | InvalidPath (path : string)
  | MissingRoom
  | InvalidRoomId (room : string)
  | UnknownTransport (transport : string)
  | InvalidQuery (message : string)
  | MissingFragment
  | InvalidFragment
  | InvalidBase64 (field : KeyField.t)
  | InvalidKeyLength (field : KeyField.t) (len : nat).

Module Transport.
Inductive t := Auto | Grpc | Ws.
#[global] Instance eq_dec : EqDecision t.
Proof. solve_decision. Defined.

Definition as_str (transport : t) : string :=
  match transport with Auto => "auto" | Grpc => "grpc" | Ws => "ws" end.

Definition from_str (text : string) : t + LinkError :=
  if decide (text = "auto") then inl Auto
  else if decide (text = "grpc") then inl Grpc
  else if decide (text = "ws") then inl Ws
  else inr (UnknownTransport text).
End Transport.

Module WsRoute.
Inductive t := Host | Accept | Open.
Definition as_str (route : t) : string := match route with Host => "host" | Accept => "accept" | Open => "open" end.
End WsRoute.

Record RelayAddress := mkRelayAddress {
  ra_secure : bool;
  ra_host : string;
  ra_port : N;
  ra_prefix : string;
}.

Record RelayLink := mkRelayLink {
  rl_address : RelayAddress;
  rl_room_id : string;
  rl_transport : Transport.t;
  rl_server_key : string;
  rl_psk : string;
}.

(** ** Parsing *)

Definition HASH : ascii := "#"%char.
Definition SLASH : ascii := "/"%char.

(** [RoomId::parse] *)
Definition RoomId_parse (text : string) : string + LinkError :=
  if decide (String.length text = ROOM_ID_LEN /\ bytes_all (fun b => contains b BASE32_ALPHABET) text = true)
  then inl text else inr (InvalidRoomId text).

Definition redact_input (text : string) : string :=
  match split_once HASH text with
  | Some (before, _) => before +:+ "#<redacted>"
  | None => text
  end.

Definition default_port (secure : bool) : N := if secure then DEFAULT_SECURE_PORT else DEFAULT_INSECURE_PORT.

(** [text.split_at(text.find(c).unwrap_or(text.len()))] *)
Definition split_find (c : ascii) (text : string) : string * string :=
  match split_once c text with
  | Some (l, r) => (l, String c r)
  | None => (text, EmptyString)
  end.

Definition split_scheme (text : string) : (string * string) + LinkError :=
  match split_str "://" text with
  | Some parts => inl parts
  | None => inr (UnknownScheme (match split_once ":"%char text with Some (scheme, _) => scheme | None => EmptyString end))
  end.

Definition parse_port (text : string) : N + LinkError :=
  let valid := negb (is_empty text) && bytes_all is_ascii_digit text in
  match from_str_radix 16 10 text with
  | inl port => if valid && bool_decide (port <> 0%N) then inl port else inr (InvalidPort (redact_input text))
  | inr _ => inr (InvalidPort (redact_input text))
  end.

Definition split_authority (authority : string) : (string * option N) + LinkError :=
  let? (host, port) :=
    (if starts_with "[" authority then
       match split_once "]"%char authority with
       | Some (l, rest) =>
           let host := l +:+ "]" in
           if is_empty rest then inl (host, None) else
           match strip_prefix ":" rest with
           | Some port => inl (host, Some port)
           | None => inr (InvalidHost (redact_input authority))
           end
       | None => inr (InvalidHost (redact_input authority))
       end
     else
       match split_once ":"%char authority with
       | Some (host, port) => inl (host, Some port)
       | None => inl (authority, None)
       end) in
  match port with
  | None => inl (host, None)
  | Some text => let? port := parse_port text in inl (host, Some port)
  end.

Definition is_one_of (bytes : string) (b : ascii) : bool := contains b bytes.

Definition valid_host (host : string) : bool :=
  match inner ← strip_prefix "[" host; strip_suffix "]" inner with
  | Some inner =>
      negb (is_empty inner) && contains ":"%char inner
      && bytes_all (fun b => is_ascii_hexdigit b || is_one_of ":." b) inner
  | None =>
      negb (is_empty host) && bytes_all (fun b => is_ascii_alphanumeric b || is_one_of "-._" b) host
  end.

Definition parse_host (host : string) : string + LinkError :=
  if valid_host host then inl (to_ascii_lowercase host) else inr (InvalidHost (redact_input host)).

Definition valid_segment (segment : string) : bool :=
  negb (is_empty segment) && bool_decide (segment <> ".") && bool_decide (segment <> "..")
  && bytes_all (fun b => is_ascii_alphanumeric b || is_one_of "-._~" b) segment.

Definition parse_prefix (prefix : string) : string + LinkError :=
  let trimmed := default prefix (strip_prefix "/" prefix) in
  if is_empty trimmed then inl EmptyString else
  try_fold (fun out segment =>
    if valid_segment segment then inl (out +:+ "/" +:+ segment) else inr (InvalidPath (redact_input prefix)))
    EmptyString (split_char SLASH trimmed).

Definition query_pair (transport : option Transport.t) (pair : string) : option Transport.t + LinkError :=
  if is_empty pair then inl transport else
  let '(key, value) := default (pair, EmptyString) (split_once "="%char pair) in
  if decide (key = "t") then
    match transport with
    | Some _ => inr (InvalidQuery "t given more than once")
    | None => let? t := Transport.from_str value in inl (Some t)
    end
  else inl transport.

Definition parse_query (query : string) : Transport.t + LinkError :=
  let? transport := try_fold query_pair None (split_char "&"%char query) in
  inl (default Transport.Auto transport).

(** [scheme://authority/[prefix/]room[?query]] *)
Definition parse_public_part (before_fragment : string) : (RelayAddress * string * Transport.t) + LinkError :=
  let? (scheme, rest) := split_scheme before_fragment in
  let? secure := (if decide (scheme = SECURE_SCHEME) then inl true
                  else if decide (scheme = INSECURE_SCHEME) then inl false else inr (UnknownScheme scheme)) in
  let '(path_part, query) := default (rest, EmptyString) (split_once "?"%char rest) in
  let '(authority, path) := split_find SLASH path_part in
  let? (host, port) := split_authority authority in
  let? host := parse_host host in
  let path := default path (strip_prefix "/" path) in
  if is_empty path then inr MissingRoom else
  let '(prefix, room) := default (EmptyString, path) (rsplit_once SLASH path) in
  if is_empty room then inr (InvalidPath path) else
  let? prefix := parse_prefix prefix in
  let? room_id := RoomId_parse room in
  let? transport := parse_query query in
  inl (mkRelayAddress secure host (default (default_port secure) port) prefix, room_id, transport).

(** [RelayAddress::new] *)
Definition RelayAddress_new (secure : bool) (host : string) (port : option N) (prefix : string) : RelayAddress + LinkError :=
  let? host := parse_host host in
  let? port := match port with
               | Some 0%N => inr (InvalidPort "0")
               | Some port => inl port
               | None => inl (default_port secure)
               end in
  let? prefix := parse_prefix (default prefix (strip_suffix "/" prefix)) in
  inl (mkRelayAddress secure host port prefix).

(** [RelayAddress::parse_proxy_url] *)
Definition parse_proxy_url (url : string) : RelayAddress + LinkError :=
  let? (scheme, rest) := split_scheme url in
  let? secure := (if decide (scheme = "https") then inl true
                  else if decide (scheme = "http") then inl false else inr (UnknownScheme scheme)) in
  if contains "?"%char rest || contains HASH rest then inr (InvalidPath (redact_input rest)) else
  let '(authority, path) := split_find SLASH rest in
  let? (host, port) := split_authority authority in
  let path := default path (strip_suffix "/" path) in
  let? host := parse_host host in
  let? prefix := parse_prefix path in
  inl (mkRelayAddress secure host (default (default_port secure) port) prefix).

(** ** Printing *)

Definition authority (a : RelayAddress) : string :=
  if decide (ra_port a = default_port (ra_secure a)) then ra_host a else ra_host a +:+ ":" +:+ pretty (ra_port a).

Definition origin (a : RelayAddress) : string := (if ra_secure a then "https" else "http") +:+ "://" +:+ authority a.
Definition base_url (a : RelayAddress) : string := origin a +:+ ra_prefix a.

Definition ws_url (a : RelayAddress) (route : WsRoute.t) : string :=
  (if ra_secure a then "wss" else "ws") +:+ "://" +:+ authority a +:+ ra_prefix a +:+ "/hya.relay.v1/ws/" +:+ WsRoute.as_str route.

Definition link_scheme (a : RelayAddress) : string := if ra_secure a then SECURE_SCHEME else INSECURE_SCHEME.

Definition redacted (l : RelayLink) : string :=
  link_scheme (rl_address l) +:+ "://" +:+ authority (rl_address l) +:+ ra_prefix (rl_address l) +:+ "/" +:+ rl_room_id l.

Definition with_transport (l : RelayLink) (transport : Transport.t) : RelayLink :=
  mkRelayLink (rl_address l) (rl_room_id l) transport (rl_server_key l) (rl_psk l).

(** [RelayLink::parse_public] *)
Definition parse_public (text : string) : (RelayAddress * string * Transport.t) + LinkError :=
  parse_public_part (match split_once HASH text with Some (before, _) => before | None => text end).

Section keys.
Context `{L : RelayLib}.

Definition decode_key (text : string) (field : KeyField.t) : string + LinkError :=
  match b64url_decode text with
  | None => inr (InvalidBase64 field)
  | Some bytes =>
      if decide (String.length bytes <> 32%nat) then inr (InvalidKeyLength field (String.length bytes)) else inl bytes
  end.

(** [RelayLink::parse] *)
Definition RelayLink_parse (text : string) : RelayLink + LinkError :=
  let '(before_fragment, fragment) :=
    match split_once HASH text with
    | Some (before, fragment) => (before, Some fragment)
    | None => (text, None)
    end in
  let? (address, room_id, transport) := parse_public_part before_fragment in
  let? fragment := match fragment with
                   | Some fragment => if is_empty fragment then inr MissingFragment else inl fragment
                   | None => inr MissingFragment
                   end in
  match split_char "."%char fragment with
  | [key; psk] =>
      let? server_key := decode_key key KeyField.ServerKey in
      let? psk := decode_key psk KeyField.Psk in
      inl (mkRelayLink address room_id transport server_key psk)
  | _ => inr InvalidFragment
  end.

Definition to_secret_string (l : RelayLink) : string :=
  redacted l
  +:+ (if decide (rl_transport l <> Transport.Auto) then "?t=" +:+ Transport.as_str (rl_transport l) else EmptyString)
  +:+ "#" +:+ b64url_encode (rl_server_key l) +:+ "." +:+ b64url_encode (rl_psk l).

(** [RoomId::from_ed25519] *)
Definition RoomId_from_ed25519 (pubkey : string) : string :=
  str_take ROOM_ID_LEN (to_ascii_lowercase (base32_nopad_encode (sha256 pubkey))).

(** [OpenToken::derive], [OpenToken::hash] ([hya-relay/src/keys.rs]) *)
Definition OpenToken_derive (psk room : string) : string := hmac_sha256 psk (OPEN_TOKEN_CONTEXT +:+ room).
Definition open_token_hash (token : string) : string := sha256 token.
Definition open_token (l : RelayLink) : string := OpenToken_derive (rl_psk l) (rl_room_id l).
End keys.

(** ** Well-formed parts *)

Definition host_ok (host : string) : Prop := valid_host host = true /\ to_ascii_lowercase host = host.
Definition prefix_of (segments : list string) : string := String.concat "" ((fun s => "/" +:+ s) <$> segments).
Definition prefix_ok (prefix : string) : Prop :=
  exists segments, Forall (fun s => valid_segment s = true) segments /\ prefix = prefix_of segments.
Definition port_ok (port : N) : Prop := (0 < port)%N /\ fits 16 port.

Record address_ok (a : RelayAddress) : Prop := {
  ao_host : host_ok (ra_host a);
  ao_port : port_ok (ra_port a);
  ao_prefix : prefix_ok (ra_prefix a);
}.

Definition room_ok (room : string) : Prop := RoomId_parse room = inl room.

Record link_ok (l : RelayLink) : Prop := {
  lo_address : address_ok (rl_address l);
  lo_room : room_ok (rl_room_id l);
  lo_server_key : String.length (rl_server_key l) = 32;
  lo_psk : String.length (rl_psk l) = 32;
}.

(** The bytes of the public part between scheme and query *)
Definition link_byte (b : ascii) : bool := is_ascii_alphanumeric b || is_one_of "[]:-._~/" b.

Lemma alphanumeric_lower b : is_ascii_alphanumeric (ascii_lower b) = is_ascii_alphanumeric b.
Proof. destruct b as [[] [] [] [] [] [] [] []]; reflexivity. Qed.
Lemma hexdigit_lower b : is_ascii_hexdigit (ascii_lower b) = is_ascii_hexdigit b.
Proof. destruct b as [[] [] [] [] [] [] [] []]; reflexivity. Qed.
Lemma lower_idemp b : ascii_lower (ascii_lower b) = ascii_lower b.
Proof. destruct b as [[] [] [] [] [] [] [] []]; reflexivity. Qed.
Lemma lower_eq b c : is_ascii_alphabetic c = false -> ascii_lower b = c <-> b = c.
Proof.
  intros Hc. unfold ascii_lower. destruct (is_ascii_uppercase b) eqn:Hb.
  - split; intros <-.
    + destruct b as [[] [] [] [] [] [] [] []]; (discriminate Hb || discriminate Hc).
    + unfold is_ascii_alphabetic in Hc. by rewrite Hb in Hc.
  - done.
Qed.

Lemma lower_lower s : to_ascii_lowercase (to_ascii_lowercase s) = to_ascii_lowercase s.
Proof. induction s as [|c s IH]; simpl; [done|]. by rewrite lower_idemp, IH. Qed.

Lemma bytes_all_lower (p : ascii -> bool) s : (forall b, p (ascii_lower b) = p b) ->
  bytes_all p (to_ascii_lowercase s) = bytes_all p s.
Proof. intros Hp. induction s as [|c s IH]; simpl; [done|]. by rewrite Hp, IH. Qed.

Lemma is_one_of_lower bytes b : bytes_all (fun c => negb (is_ascii_alphabetic c)) bytes = true ->
  is_one_of bytes (ascii_lower b) = is_one_of bytes b.
Proof.
  unfold is_one_of. induction bytes as [|c bytes IH]; simpl; [done|]. intros [Hc Hbs]%andb_true_iff.
  rewrite IH by done. f_equal. apply bool_decide_ext. apply negb_true_iff in Hc.
  pose proof (lower_eq b c Hc) as [H1 H2]. split; intros Heq; symmetry; [apply H1|apply H2]; by symmetry.
Qed.

Lemma strip_prefix_lower c s : is_ascii_alphabetic c = false ->
  strip_prefix (String c "") (to_ascii_lowercase s) = to_ascii_lowercase <$> strip_prefix (String c "") s.
Proof.
  intros Hc. destruct s as [|d s]; simpl; [done|].
  destruct (decide (c = d)) as [->|Hne].
  - rewrite decide_True; [done|]. symmetry. by apply lower_eq.
  - rewrite decide_False; [done|]. intros Heq. apply Hne. symmetry. by apply (proj1 (lower_eq d c Hc)).
Qed.

Lemma strip_suffix_lower c s : is_ascii_alphabetic c = false ->
  strip_suffix (String c "") (to_ascii_lowercase s) = to_ascii_lowercase <$> strip_suffix (String c "") s.
Proof.
  intros Hc. assert (forall s, to_ascii_lowercase s = String c "" <-> s = String c "") as Heq.
  { intros [|d [|e s']]; simpl; [done| |].
    - split; intros [= Hd]; f_equal; by apply (lower_eq d c Hc).
    - split; intros [= ?]; done. }
  induction s as [|d s IH]; cbn [strip_suffix to_ascii_lowercase]; [done|].
  pose proof (Heq (String d s)) as Hd. cbn [to_ascii_lowercase] in Hd. destruct (decide (String d s = String c "")) as [Hs|Hs].
  - rewrite decide_True by by apply Hd. done.
  - rewrite decide_False by (intros H; by apply Hs, Hd). rewrite IH. by destruct (strip_suffix _ s).
Qed.

Lemma valid_host_lower host : valid_host (to_ascii_lowercase host) = valid_host host.
Proof.
  unfold valid_host. rewrite strip_prefix_lower by done.
  assert (forall s, is_empty (to_ascii_lowercase s) = is_empty s) as He by by intros [].
  assert (forall p s, (forall b, p (ascii_lower b) = p b) -> bytes_all p (to_ascii_lowercase s) = bytes_all p s) as Hall
    by (intros; by apply bytes_all_lower).
  destruct (strip_prefix "[" host) as [inner|]; cbn [fmap option_fmap option_map mbind option_bind].
  - rewrite strip_suffix_lower by done. destruct (strip_suffix "]" inner) as [inner'|]; cbn [fmap option_fmap option_map].
    + rewrite He, Hall by (intros b; by rewrite hexdigit_lower, is_one_of_lower). f_equal. f_equal.
      induction inner' as [|c inner' IH]; cbn [contains to_ascii_lowercase]; [done|]. rewrite IH. f_equal.
      apply bool_decide_ext. by apply lower_eq.
    + rewrite He, Hall; [done|]. intros b. by rewrite alphanumeric_lower, is_one_of_lower.
  - rewrite He, Hall; [done|]. intros b. by rewrite alphanumeric_lower, is_one_of_lower.
Qed.

Lemma parse_host_ok host h : parse_host host = inl h -> host_ok h.
Proof.
  unfold parse_host. destruct (valid_host host) eqn:Hv; [|done]. intros [= <-].
  split; [by rewrite valid_host_lower|apply lower_lower].
Qed.

Lemma parse_ok_host h : host_ok h -> parse_host h = inl h.
Proof. intros [Hv Hl]. unfold parse_host. by rewrite Hv, Hl. Qed.

(** ** Prefixes *)

Lemma valid_segment_bytes s : valid_segment s = true -> s <> "" /\ bytes_all link_byte s = true /\ contains SLASH s = false.
Proof.
  unfold valid_segment. intros [[[He _]%andb_true_iff _]%andb_true_iff Hb]%andb_true_iff.
  split; [by intros ->|]. split.
  - revert Hb. apply bytes_all_impl. intros c. unfold link_byte. intros [-> |Hc]%orb_true_iff; [done|].
    apply orb_true_iff. right. revert Hc. unfold is_one_of. destruct c as [[] [] [] [] [] [] [] []]; vm_compute; done.
  - by eapply bytes_all_contains.
Qed.

Lemma prefix_of_cons s segments : prefix_of (s :: segments) = String SLASH (s +:+ prefix_of segments).
Proof. unfold prefix_of. cbn [fmap list_fmap]. destruct segments; cbn; [by rewrite app_nil_r_str|done]. Qed.

Lemma split_prefix_of s segments : Forall (fun s => contains SLASH s = false) (s :: segments) ->
  split_char SLASH (s +:+ prefix_of segments) = s :: segments.
Proof.
  revert s. induction segments as [|t segments IH]; intros s [Hs Hall]%Forall_cons.
  - unfold prefix_of. cbn. rewrite app_nil_r_str. by apply split_char_plain.
  - rewrite prefix_of_cons, split_char_app, split_char_plain, IH by done. done.
Qed.

Lemma fold_segments (e : LinkError) out segments p :
  try_fold (fun out segment => if valid_segment segment then inl (out +:+ "/" +:+ segment) else inr e) out segments = inl p
  <-> Forall (fun s => valid_segment s = true) segments /\ p = out +:+ prefix_of segments.
Proof.
  revert out. induction segments as [|s segments IH]; intros out; cbn [try_fold].
  - unfold prefix_of. cbn. rewrite app_nil_r_str. split; [by intros [= ->]|by intros [_ ->]].
  - rewrite Forall_cons, prefix_of_cons. destruct (valid_segment s) eqn:Hs.
    + rewrite IH. replace ((out +:+ "/" +:+ s) +:+ prefix_of segments) with (out +:+ String SLASH (s +:+ prefix_of segments));
        [naive_solver|]. by rewrite <- app_assoc_str.
    + naive_solver.
Qed.

Lemma segments_slash segments : Forall (fun s => valid_segment s = true) segments ->
  Forall (fun s => contains SLASH s = false) segments.
Proof. intros H. eapply Forall_impl; [exact H|]. intros s Hs. by apply valid_segment_bytes. Qed.

Lemma parse_prefix_ok prefix p : parse_prefix prefix = inl p -> prefix_ok p.
Proof.
  unfold parse_prefix. destruct (is_empty _) eqn:He.
  - intros [= <-]. by exists [].
  - intros [Hall ->]%fold_segments. by exists (split_char SLASH (default prefix (strip_prefix "/" prefix))).
Qed.

(** A prefix is read with or without its slash. *)
Lemma parse_ok_prefix p : prefix_ok p -> parse_prefix p = inl p /\ forall q, p = String SLASH q -> parse_prefix q = inl p.
Proof.
  intros ([|s segments] & Hall & ->); [by split|]. rewrite prefix_of_cons.
  pose proof (split_prefix_of s segments (segments_slash _ Hall)) as Hsplit.
  pose proof Hall as Hs%Forall_inv. apply valid_segment_bytes in Hs as (Hne & _ & Hslash).
  assert (forall prefix, default prefix (strip_prefix "/" prefix) = s +:+ prefix_of segments ->
    parse_prefix prefix = inl (String SLASH (s +:+ prefix_of segments))) as Hgen.
  { intros prefix Hd. unfold parse_prefix. rewrite Hd. destruct s as [|c s]; [done|]. cbn [is_empty String.append].
    change (String c (s +:+ prefix_of segments)) with (String c s +:+ prefix_of segments). rewrite Hsplit.
    apply fold_segments. split; [done|]. by rewrite prefix_of_cons. }
  split; [by apply Hgen|]. intros q [= <-]. apply Hgen. destruct s as [|c s]; [done|].
  cbn [String.append strip_prefix]. cbn in Hslash. apply orb_false_iff in Hslash as [Hc _]. apply bool_decide_eq_false in Hc.
  unfold SLASH in Hc. by rewrite decide_False by congruence.
Qed.

Lemma prefix_bytes p : prefix_ok p -> bytes_all link_byte p = true.
Proof.
  intros (segments & Hall & ->). induction Hall as [|s segments Hs _ IH]; [done|].
  rewrite prefix_of_cons. cbn [bytes_all]. rewrite bytes_all_app, IH. apply valid_segment_bytes in Hs as (_ & -> & _). done.
Qed.

(** ** Authorities *)

Lemma pretty_port p : port_ok p -> parse_port (pretty p) = inl p.
Proof.
  intros [Hp Hf]. unfold parse_port. rewrite pretty_N_digits, from_str_radix_pretty by done.
  pose proof (pretty_N_nonempty p) as Hne. rewrite bool_decide_true by lia. by destruct (pretty p).
Qed.

Lemma parse_port_ok text p : parse_port text = inl p -> port_ok p.
Proof.
  unfold parse_port. destruct (from_str_radix 16 10 text) as [q|] eqn:Hq; [|done].
  destruct (_ && _) eqn:Hb; [|done]. intros [= <-]. apply andb_true_iff in Hb as [_ Hb%bool_decide_eq_true].
  split; [lia|]. by eapply from_str_radix_fits.
Qed.

Lemma default_port_ok secure : port_ok (default_port secure).
Proof. destruct secure; vm_compute; split; congruence. Qed.

Lemma valid_host_cases h : valid_host h = true ->
  (exists inner, h = "[" +:+ inner +:+ "]" /\ bytes_all (fun b => is_ascii_hexdigit b || is_one_of ":." b) inner = true)
  \/ h <> "" /\ bytes_all (fun b => is_ascii_alphanumeric b || is_one_of "-._" b) h = true.
Proof.
  unfold valid_host. destruct (strip_prefix "[" h) as [h'|] eqn:Hp; cbn [mbind option_bind].
  - destruct (strip_suffix "]" h') as [inner|] eqn:Hs.
    + intros [_ Hb]%andb_true_iff. left. exists inner. apply strip_prefix_Some in Hp as ->. by apply strip_suffix_Some in Hs as ->.
    + intros [He Hb]%andb_true_iff. right. split; [by intros ->|done].
  - intros [He Hb]%andb_true_iff. right. split; [by intros ->|done].
Qed.

Lemma host_bytes h : valid_host h = true ->
  h <> "" /\ bytes_all (fun b => link_byte b && bool_decide (b <> SLASH)) h = true.
Proof.
  intros [(inner & -> & Hb)|[Hne Hb]]%valid_host_cases.
  - split; [done|]. rewrite !bytes_all_app. cbn [bytes_all]. rewrite andb_true_r.
    repeat (apply andb_true_iff; split); try by vm_compute.
    revert Hb. apply bytes_all_impl. intros [[] [] [] [] [] [] [] []]; vm_compute; done.
  - split; [done|]. revert Hb. apply bytes_all_impl. intros [[] [] [] [] [] [] [] []]; vm_compute; done.
Qed.

Lemma digits_bytes s : bytes_all is_ascii_digit s = true -> bytes_all (fun b => link_byte b && bool_decide (b <> SLASH)) s = true.
Proof. apply bytes_all_impl. intros [[] [] [] [] [] [] [] []]; vm_compute; done. Qed.

Lemma authority_bytes a : address_ok a -> bytes_all (fun b => link_byte b && bool_decide (b <> SLASH)) (authority a) = true.
Proof.
  intros [[Hh _] _ _]. apply host_bytes in Hh as [_ Hh]. unfold authority. case_decide; [done|].
  rewrite !bytes_all_app, Hh, (digits_bytes (pretty _)) by apply pretty_N_digits. done.
Qed.

(** A host, bracketed or not, and the text after it are told apart. *)
Lemma split_authority_host h : valid_host h = true ->
  split_authority h = inl (h, None) /\
  forall text, split_authority (h +:+ String ":" text) = (let? port := parse_port text in inl (h, Some port)).
Proof.
  unfold split_authority. intros [(inner & -> & Hb)|[Hne Hb]]%valid_host_cases.
  - assert (contains "]"%char ("[" +:+ inner) = false) as Hin by by cbn; eapply bytes_all_contains.
    rewrite app_assoc_str. split.
    + change (starts_with "[" _) with true. cbv match. by rewrite (split_once_app "]"%char ("[" +:+ inner) "").
    + intros text. change (starts_with "[" _) with true. cbv match.
      assert (split_once "]"%char ((("[" +:+ inner) +:+ "]") +:+ String ":" text) = Some ("[" +:+ inner, String ":" text)) as ->; [|done].
      rewrite <- (split_once_app "]"%char ("[" +:+ inner) (String ":" text) Hin), <- app_assoc_str. done.
  - assert (contains ":"%char h = false) as Hc by by eapply bytes_all_contains.
    assert (forall r, starts_with "[" (h +:+ r) = false) as Hs.
    { destruct h as [|c h]; [done|]. cbn in Hb. apply andb_true_iff in Hb as [Hb _]. intros r. clear Hc Hne.
      destruct c as [[] [] [] [] [] [] [] []]; (discriminate Hb || reflexivity). }
    split.
    + pose proof (Hs "") as Hs'. rewrite app_nil_r_str in Hs'. rewrite Hs'.
      by rewrite (proj2 (split_once_None _ _) Hc).
    + intros text. rewrite Hs. by rewrite split_once_app.
Qed.

(** The authority of an address is split back into its host and its port, when it shows one. *)
Lemma split_authority_printed a : address_ok a ->
  split_authority (authority a) = inl (ra_host a, if decide (ra_port a = default_port (ra_secure a)) then None else Some (ra_port a)).
Proof.
  intros [[Hh _] Hp _]. destruct (split_authority_host _ Hh) as [H1 H2]. unfold authority. case_decide; [done|].
  change (":" +:+ pretty (ra_port a)) with (String ":" (pretty (ra_port a))). rewrite H2. by rewrite pretty_port.
Qed.

Lemma split_authority_port_ok text host port : split_authority text = inl (host, Some port) -> port_ok port.
Proof.
  unfold split_authority. repeat case_match; simplify_eq; try done; intros; simplify_eq; by eapply parse_port_ok.
Qed.

Lemma split_authority_ok secure text host port : split_authority text = inl (host, port) ->
  port_ok (default (default_port secure) port).
Proof. destruct port; cbn; [by apply split_authority_port_ok|intros _; apply default_port_ok]. Qed.

(** ** The public part *)

Lemma split_find_slash a r : contains SLASH a = false -> split_find SLASH (a +:+ String SLASH r) = (a, String SLASH r).
Proof. intros Ha. unfold split_find. by rewrite split_once_app. Qed.

Lemma split_find_none a : contains SLASH a = false -> split_find SLASH a = (a, EmptyString).
Proof. intros Ha. unfold split_find. by rewrite (proj2 (split_once_None _ _) Ha). Qed.

Lemma link_bytes_plain s : bytes_all link_byte s = true -> contains "?"%char s = false /\ contains HASH s = false.
Proof. intros Hs. split; by eapply bytes_all_contains. Qed.

Lemma authority_plain a : address_ok a -> contains SLASH (authority a) = false /\ bytes_all link_byte (authority a) = true.
Proof.
  intros Ha%authority_bytes. split; [by eapply bytes_all_contains|].
  revert Ha. apply bytes_all_impl. by intros b [? _]%andb_true_iff.
Qed.

Lemma room_bytes room : room_ok room -> room <> "" /\ contains SLASH room = false /\ bytes_all link_byte room = true.
Proof.
  unfold room_ok, RoomId_parse. case_decide as H; [|done]. destruct H as [Hlen Hb]. intros _. split; [by intros ->|].
  split; [by eapply bytes_all_contains|]. revert Hb. apply bytes_all_impl. intros [[] [] [] [] [] [] [] []]; vm_compute; done.
Qed.

(** Prefix and room as the path of a link, which is read without its first slash *)
Lemma split_path p room : prefix_ok p -> room_ok room ->
  exists path, p +:+ String SLASH room = String SLASH path /\ is_empty path = false /\
    exists q, default (EmptyString, path) (rsplit_once SLASH path) = (q, room) /\ parse_prefix q = inl p.
Proof.
  intros Hp (Hne & Hslash & _)%room_bytes. pose proof (parse_ok_prefix _ Hp) as [Hpp Hpq].
  destruct Hp as ([|s segments] & Hall & Heq).
  - exists room. split; [by subst|]. split; [by destruct room|]. exists "".
    rewrite (proj2 (rsplit_once_None _ _) Hslash). split; [done|]. by subst.
  - rewrite prefix_of_cons in Heq. exists ((s +:+ prefix_of segments) +:+ String SLASH room).
    split; [by subst|]. split; [by destruct (s +:+ prefix_of segments)|].
    exists (s +:+ prefix_of segments). rewrite rsplit_once_app by done. split; [done|]. by apply Hpq.
Qed.

Definition public_path (a : RelayAddress) (room : string) : string := authority a +:+ ra_prefix a +:+ "/" +:+ room.

Lemma public_path_bytes a room : address_ok a -> room_ok room -> bytes_all link_byte (public_path a room) = true.
Proof.
  intros Ha Hr. pose proof (authority_plain _ Ha) as [_ H1]. pose proof (prefix_bytes _ (ao_prefix _ Ha)) as H2.
  apply room_bytes in Hr as (_ & _ & H3). unfold public_path. by rewrite !bytes_all_app, H1, H2, H3.
Qed.

Definition query_text (t : Transport.t) : string :=
  if decide (t <> Transport.Auto) then "?t=" +:+ Transport.as_str t else EmptyString.

Lemma split_query s t : contains "?"%char s = false ->
  exists query, default (s +:+ query_text t, EmptyString) (split_once "?"%char (s +:+ query_text t)) = (s, query)
    /\ parse_query query = inl t.
Proof.
  intros Hs. destruct t; cbn [query_text].
  - exists "". rewrite app_nil_r_str, (proj2 (split_once_None _ _) Hs). by vm_compute.
  - exists "t=grpc". change (query_text Transport.Grpc) with (String "?" "t=grpc"). rewrite split_once_app by done. by vm_compute.
  - exists "t=ws". change (query_text Transport.Ws) with (String "?" "t=ws"). rewrite split_once_app by done. by vm_compute.
Qed.

Lemma split_link_scheme a rest : split_scheme (link_scheme a +:+ "://" +:+ rest) = inl (link_scheme a, rest).
Proof. unfold link_scheme. by destruct (ra_secure a). Qed.

Lemma default_port_shown a :
  default (default_port (ra_secure a)) (if decide (ra_port a = default_port (ra_secure a)) then None else Some (ra_port a)) = ra_port a.
Proof. by case_decide. Qed.

(** What is printed of a link before its fragment is read back. *)
Lemma parse_public_printed a room t : address_ok a -> room_ok room ->
  parse_public_part (link_scheme a +:+ "://" +:+ public_path a room +:+ query_text t) = inl (a, room, t).
Proof.
  intros Ha Hr. unfold parse_public_part. rewrite split_link_scheme.
  pose proof (link_bytes_plain _ (public_path_bytes _ _ Ha Hr)) as [Hq _].
  destruct (split_query _ t Hq) as (query & Hsplit & Hquery).
  destruct (split_path _ _ (ao_prefix _ Ha) Hr) as (path & Hpath & Hne & q & Hrs & Hpp).
  pose proof (authority_plain _ Ha) as [Hau _].
  assert (split_find SLASH (public_path a room) = (authority a, String SLASH path)) as Hfind.
  { unfold public_path. change ("/" +:+ room) with (String SLASH room). rewrite Hpath. by apply split_find_slash. }
  pose proof (room_bytes _ Hr) as (Hrne & _ & _).
  assert (is_empty room = false) as Hre by by destruct room.
  replace (if decide (link_scheme a = SECURE_SCHEME) then inl true
           else if decide (link_scheme a = INSECURE_SCHEME) then inl false else inr (UnknownScheme (link_scheme a)))
    with (@inl bool LinkError (ra_secure a)) by by unfold link_scheme; destruct (ra_secure a).
  cbv match. rewrite Hsplit, Hfind, split_authority_printed by done. cbv match.
  rewrite parse_ok_host by apply Ha. cbv zeta.
  change (default (String SLASH path) (strip_prefix "/" (String SLASH path))) with path. rewrite Hne, Hrs, Hre, Hpp. unfold room_ok in Hr. rewrite Hr, Hquery, default_port_shown.
  by destruct a.
Qed.

Lemma RoomId_parse_ok text room : RoomId_parse text = inl room -> room_ok room.
Proof. unfold room_ok, RoomId_parse. case_decide as H; [|done]. intros [= <-]. by rewrite decide_True. Qed.

Lemma parse_public_part_ok s a room t : parse_public_part s = inl (a, room, t) -> address_ok a /\ room_ok room.
Proof.
  unfold parse_public_part. destruct (split_scheme s) as [[scheme rest]|]; [|done].
  destruct (if decide (scheme = SECURE_SCHEME) then _ else _) as [secure|]; [|done].
  destruct (default _ _) as [path_part query]. destruct (split_find _ _) as [au path].
  destruct (split_authority au) as [[host port]|] eqn:Hau; [|done].
  destruct (parse_host host) as [h|] eqn:Hh; [|done]. cbv zeta. destruct (is_empty _); [done|].
  destruct (default (EmptyString, _) _) as [p r]. destruct (is_empty r); [done|].
  destruct (parse_prefix p) as [p'|] eqn:Hp; [|done]. destruct (RoomId_parse r) as [r'|] eqn:Hr; [|done].
  destruct (parse_query query); [|done]. intros [= <- <- <-].
  split; [|by eapply RoomId_parse_ok]. split; cbn.
  - by eapply parse_host_ok.
  - by eapply split_authority_ok.
  - by eapply parse_prefix_ok.
Qed.

(** ** Proxy URLs *)

Lemma parse_proxy_url_ok url a : parse_proxy_url url = inl a -> address_ok a.
Proof.
  unfold parse_proxy_url. destruct (split_scheme url) as [[scheme rest]|]; [|done].
  destruct (if decide (scheme = "https") then _ else _) as [secure|]; [|done].
  destruct (_ || _); [done|]. destruct (split_find _ _) as [au path].
  destruct (split_authority au) as [[host port]|] eqn:Hau; [|done]. cbv zeta.
  destruct (parse_host host) as [h|] eqn:Hh; [|done]. destruct (parse_prefix _) as [p|] eqn:Hp; [|done]. intros [= <-].
  split; cbn; [by eapply parse_host_ok|by eapply split_authority_ok|by eapply parse_prefix_ok].
Qed.

Lemma RelayAddress_new_ok secure host port prefix a : (forall p, port = Some p -> fits 16 p) ->
  RelayAddress_new secure host port prefix = inl a -> address_ok a.
Proof.
  intros Hfits. unfold RelayAddress_new. destruct (parse_host host) as [h|] eqn:Hh; [|done].
  destruct (match port with Some _ => _ | None => _ end) as [p|] eqn:Hp; [|done].
  destruct (parse_prefix _) as [q|] eqn:Hq; [|done]. intros [= <-].
  split; cbn; [by eapply parse_host_ok| |by eapply parse_prefix_ok].
  destruct port as [[|port]|]; simplify_eq; [|apply default_port_ok]. split; [lia|by apply Hfits].
Qed.

Lemma prefix_shape p : prefix_ok p -> p = "" \/ exists q, p = String SLASH q.
Proof. intros ([|s segments] & _ & ->); [by left|]. right. rewrite prefix_of_cons. eauto. Qed.

(** A prefix does not end in a slash. *)
Lemma prefix_unslashed p : prefix_ok p -> strip_suffix "/" p = None.
Proof.
  intros ([|s segments] & Hall & ->); [done|]. rewrite prefix_of_cons.
  destruct (strip_suffix "/" _) as [r|] eqn:Hr; [|done]. exfalso. apply strip_suffix_Some in Hr.
  apply (f_equal (split_char SLASH)) in Hr.
  change (split_char SLASH ("" +:+ String SLASH (s +:+ prefix_of segments)) = split_char SLASH (r +:+ String SLASH "")) in Hr.
  rewrite !split_char_app, split_prefix_of in Hr by by apply segments_slash.
  assert ("" ∈ s :: segments) as Hin.
  { pose proof (split_char_nonempty SLASH r). destruct (split_char SLASH r) as [|x xs]; [done|].
    cbn in Hr. injection Hr as _ Hr. rewrite Hr. apply elem_of_app. right. by apply list_elem_of_singleton. }
  by apply (proj1 (Forall_forall _ _) Hall) in Hin.
Qed.

Lemma split_url_scheme a rest : split_scheme ((if ra_secure a then "https" else "http") +:+ "://" +:+ rest)
  = inl (if ra_secure a then "https" else "http", rest).
Proof. by destruct (ra_secure a). Qed.

Lemma parse_printed_url a : address_ok a -> parse_proxy_url (base_url a) = inl a.
Proof.
  intros Ha. unfold parse_proxy_url, base_url, origin. rewrite <- !app_assoc_str, split_url_scheme.
  replace (if decide ((if ra_secure a then "https" else "http") = "https") then inl true
           else if decide ((if ra_secure a then "https" else "http") = "http") then inl false
           else inr (UnknownScheme (if ra_secure a then "https" else "http"))) with (@inl bool LinkError (ra_secure a))
    by by destruct (ra_secure a).
  cbv match. pose proof (authority_plain _ Ha) as [Hau Hb]. pose proof (prefix_bytes _ (ao_prefix _ Ha)) as Hp.
  assert (bytes_all link_byte (authority a +:+ ra_prefix a) = true) as [-> ->]%link_bytes_plain
    by by rewrite bytes_all_app, Hb, Hp.
  assert (split_find SLASH (authority a +:+ ra_prefix a) = (authority a, ra_prefix a)) as ->.
  { destruct (prefix_shape _ (ao_prefix _ Ha)) as [-> | [q ->]].
    - rewrite app_nil_r_str. by apply split_find_none.
    - by apply split_find_slash. }
  cbn [orb]. rewrite split_authority_printed by done. cbv match.
  rewrite parse_ok_host by apply Ha. rewrite prefix_unslashed by apply Ha. cbn [default from_option].
  rewrite (proj1 (parse_ok_prefix _ (ao_prefix _ Ha))), default_port_shown. by destruct a.
Qed.

(** ** Keys *)

(** What the code relies on of the three codecs *)
Definition b64_byte (b : ascii) : bool := is_ascii_alphanumeric b || is_one_of "-_" b.
Definition b32_byte (b : ascii) : bool := contains b "ABCDEFGHIJKLMNOPQRSTUVWXYZ234567".

Class RelayLaws (L : RelayLib) : Prop := {
  b64_decode_encode : forall s, b64url_decode (b64url_encode s) = Some s;
  b64_bytes : forall s, bytes_all b64_byte (b64url_encode s) = true;
  b32_bytes : forall s, bytes_all b32_byte (base32_nopad_encode s) = true;
  b32_length : forall s, String.length (base32_nopad_encode s) = (8 * String.length s + 4) `div` 5;
  sha256_length : forall s, String.length (sha256 s) = 32;
}.

Lemma length_to_lowercase s : String.length (to_ascii_lowercase s) = String.length s.
Proof. induction s as [|c s IH]; cbn; [done|]. by rewrite IH. Qed.

Lemma lower_b32 s : bytes_all b32_byte s = true -> bytes_all (fun b => contains b BASE32_ALPHABET) (to_ascii_lowercase s) = true.
Proof.
  induction s as [|c s IH]; cbn [bytes_all to_ascii_lowercase]; [done|]. intros [Hc Hs]%andb_true_iff. rewrite IH by done.
  rewrite andb_true_r. clear IH Hs. destruct c as [[] [] [] [] [] [] [] []]; (discriminate Hc || reflexivity).
Qed.

Section secrets.
Context {L : RelayLib} {Laws : RelayLaws L}.

Lemma b64_plain s : contains "."%char (b64url_encode s) = false.
Proof. eapply bytes_all_contains; [apply b64_bytes|done]. Qed.

Lemma decode_encoded s field : String.length s = 32 -> decode_key (b64url_encode s) field = inl s.
Proof. intros Hs. unfold decode_key. rewrite b64_decode_encode, Hs. done. Qed.

Lemma decode_key_length text field k : decode_key text field = inl k -> String.length k = 32.
Proof. unfold decode_key. destruct (b64url_decode text) as [b|]; [|done]. case_decide as H; [done|]. intros [= <-]. done. Qed.

Lemma redacted_public l : redacted l = link_scheme (rl_address l) +:+ "://" +:+ public_path (rl_address l) (rl_room_id l).
Proof. done. Qed.

Lemma split_secret l : link_ok l ->
  split_once HASH (to_secret_string l)
  = Some (redacted l +:+ query_text (rl_transport l), b64url_encode (rl_server_key l) +:+ "." +:+ b64url_encode (rl_psk l)).
Proof.
  intros [Ha Hr _ _]. unfold to_secret_string. fold (query_text (rl_transport l)). rewrite app_assoc_str.
  apply (split_once_app HASH). rewrite contains_app. apply orb_false_iff. split; [|by destruct (rl_transport l)].
  rewrite redacted_public, !contains_app. pose proof (public_path_bytes _ _ Ha Hr) as [_ ->]%link_bytes_plain.
  unfold link_scheme. by destruct (ra_secure _).
Qed.

Lemma parse_redacted l : link_ok l ->
  parse_public_part (redacted l +:+ query_text (rl_transport l)) = inl (rl_address l, rl_room_id l, rl_transport l).
Proof. intros [Ha Hr _ _]. rewrite redacted_public, <- !app_assoc_str. by apply parse_public_printed. Qed.

Lemma parse_secret l : link_ok l -> RelayLink_parse (to_secret_string l) = inl l.
Proof.
  intros Hl. unfold RelayLink_parse. rewrite split_secret, parse_redacted by done.
  assert (is_empty (b64url_encode (rl_server_key l) +:+ "." +:+ b64url_encode (rl_psk l)) = false) as ->
    by by destruct (b64url_encode (rl_server_key l)).
  change ("." +:+ b64url_encode (rl_psk l)) with (String "." (b64url_encode (rl_psk l))).
  rewrite split_char_app, !split_char_plain by apply b64_plain. cbn [app].
  rewrite !decode_encoded by apply Hl. by destruct l.
Qed.

Lemma parse_ok text l : RelayLink_parse text = inl l -> link_ok l.
Proof.
  unfold RelayLink_parse. destruct (match split_once HASH text with Some _ => _ | None => _ end) as [before fragment].
  destruct (parse_public_part before) as [[[a room] t]|] eqn:Hpub; [|done].
  destruct (match fragment with Some _ => _ | None => _ end) as [f|]; [|done].
  destruct (split_char "." f) as [|key [|psk []]]; try done.
  destruct (decode_key key _) as [k|] eqn:Hk; [|done]. destruct (decode_key psk _) as [p|] eqn:Hp; [|done]. intros [= <-].
  apply parse_public_part_ok in Hpub as [Ha Hr]. apply decode_key_length in Hk. apply decode_key_length in Hp. by split.
Qed.

(** The room of a public key is a room id. *)
Lemma derived_room_ok pubkey : room_ok (RoomId_from_ed25519 pubkey).
Proof.
  unfold room_ok, RoomId_parse. rewrite decide_True; [done|]. unfold RoomId_from_ed25519. split.
  - rewrite length_str_take, length_to_lowercase, b32_length, sha256_length. done.
  - pose proof (b32_bytes (sha256 pubkey)) as Hb. apply (lower_b32 (base32_nopad_encode (sha256 pubkey))) in Hb.
    destruct (str_take_app ROOM_ID_LEN (to_ascii_lowercase (base32_nopad_encode (sha256 pubkey)))) as [r Hr].
    rewrite Hr, bytes_all_app in Hb. by apply andb_true_iff in Hb as [Hb _].
Qed.
End secrets.
