(* ===== verification/RelayProxy.v ===== *)
(** * The relay proxy core ([hya-relay/src/proxy/mod.rs])

    Rooms registered by hosts, streams admitted to them, and the counts that bound both.  What the code shares through
    [Arc] is an object of a store: a [Room] under its generation, a [StreamSlot], a [PendingRegistration] and an [EarlyData]
    under the key of the handle.  An operation is what the code does under one hold of the state lock, and a drop of a handle is an operation;
    [proxy_step] interleaves them. *)

From S2P Require Import Prelude RustStr Text RelayLink.

(** ** Errors ([hya-relay/src/proto.rs]) *)

Module RelayErrorCode.
Inductive t := Unspecified | Cancelled | Unknown | InvalidArgument | DeadlineExceeded | NotFound | AlreadyExists | PermissionDenied
  | ResourceExhausted | FailedPrecondition | Internal | Unavailable | Unauthenticated.
#[global] Instance eq_dec : EqDecision t.
Proof. solve_decision. Defined.

(** [code as i32] *)
Definition as_i32 (code : t) : Z :=
  match code with
  | Unspecified => 0 | Cancelled => 1 | Unknown => 2 | InvalidArgument => 3 | DeadlineExceeded => 4 | NotFound => 5
  | AlreadyExists => 6 | PermissionDenied => 7 | ResourceExhausted => 8 | FailedPrecondition => 9 | Internal => 13
  | Unavailable => 14 | Unauthenticated => 16
  end.

(** [RelayErrorCode::try_from(i32)] *)
Definition try_from (code : Z) : option t :=
  find_first (fun c => as_i32 c = code) [Unspecified; Cancelled; Unknown; InvalidArgument; DeadlineExceeded; NotFound;
    AlreadyExists; PermissionDenied; ResourceExhausted; FailedPrecondition; Internal; Unavailable; Unauthenticated].
End RelayErrorCode.

Record RelayError := mkRelayError { re_code : Z; re_message : string }.
#[global] Instance RelayError_eq_dec : EqDecision RelayError.
Proof. solve_decision. Defined.

Definition RelayError_new (code : RelayErrorCode.t) (message : string) : RelayError :=
  mkRelayError (RelayErrorCode.as_i32 code) message.
Definition error_code (e : RelayError) : RelayErrorCode.t := default RelayErrorCode.Unknown (RelayErrorCode.try_from (re_code e)).

Definition room_offline : RelayError := RelayError_new RelayErrorCode.NotFound "room is offline".
Definition shutting_down : RelayError := RelayError_new RelayErrorCode.Unavailable "the proxy is shutting down".

(** ** State *)

(** The limits that bound state ([limits.rs]); the durations raise the events of the loops, and the byte rate of a stream only
    delays it. *)
Record ProxyLimits := mkProxyLimits {
  max_rooms : N;
  max_streams_per_room : N;
  max_streams_per_peer : N;
  max_streams : N;
  max_rooms_per_peer : N;
  max_pending_registrations_per_peer : N;
  max_pending_registrations : N;
  max_chunk_data : N;
  early_data_limit : N;
  max_early_data_bytes : N;
}.

Definition ProxyLimits_default : ProxyLimits :=
  mkProxyLimits 1024 64 256 8192 16 8 256 (256 * 1024) (64 * 1024) (64 * 1024 * 1024).

(** A room.  Its token is a child of the shutdown token: [rm_cancelled] is its own cancellation.  The channel of stream ids
    is the queue [rm_incoming] of at most [rm_capacity] ids while [rm_receiving]. *)
Record Room := mkRoom {
  rm_id : string;
  rm_generation : N;
  rm_peer : string;
  rm_cancelled : bool;
  rm_replaced : bool;
  rm_incoming : list string;
  rm_capacity : N;
  rm_receiving : bool;
  rm_streams : N;
  rm_open_token_hash : string;
}.
#[export] Instance Room_eta : EtaRecord Room := fun r => {| rm_id := rm_id r; rm_generation := rm_generation r;
  rm_peer := rm_peer r; rm_cancelled := rm_cancelled r; rm_replaced := rm_replaced r; rm_incoming := rm_incoming r;
  rm_capacity := rm_capacity r; rm_receiving := rm_receiving r; rm_streams := rm_streams r;
  rm_open_token_hash := rm_open_token_hash r |}.

(** The receiving end of the [oneshot] a slot's host leg arrives on *)
Inductive Arrival (Leg : Type) := Waiting | Arrived (leg : Leg) | Closed.
Arguments Waiting {Leg}.
Arguments Arrived {Leg} leg.
Arguments Closed {Leg}.

Record StreamSlot (Leg : Type) := mkStreamSlot {
  ss_room : N;
  ss_peer : string;
  ss_stream_id : string;
  ss_arrival : Arrival Leg;
}.
Arguments mkStreamSlot {Leg}.
Arguments ss_room {Leg}.
Arguments ss_peer {Leg}.
Arguments ss_stream_id {Leg}.
Arguments ss_arrival {Leg}.
#[export] Instance StreamSlot_eta Leg : EtaRecord (StreamSlot Leg) := fun s => {| ss_room := ss_room s; ss_peer := ss_peer s;
  ss_stream_id := ss_stream_id s; ss_arrival := ss_arrival s |}.

(** [State], what the lock protects; a room is named by its generation and a pending open by the slot its sender delivers to. *)
Record State := mkState {
  st_rooms : gmap string N;
  st_pending : gmap string N;
  st_peer_streams : gmap string N;
  st_peer_rooms : gmap string N;
  st_peer_pending_registrations : gmap string N;
  st_pending_registrations : N;
  st_streams : N;
  st_next_generation : N;
}.
#[export] Instance State_eta : EtaRecord State := fun s => {| st_rooms := st_rooms s; st_pending := st_pending s;
  st_peer_streams := st_peer_streams s; st_peer_rooms := st_peer_rooms s;
  st_peer_pending_registrations := st_peer_pending_registrations s; st_pending_registrations := st_pending_registrations s;
  st_streams := st_streams s; st_next_generation := st_next_generation s |}.

(** [EarlyData], with whether its opener's loop is in a [select!] it entered while the buffer had room *)
Record EarlyData := mkEarlyData { ed_bytes : N; ed_reading : bool }.

(** [Inner] with the objects of its handles.  [px_registrations] are the live [RoomRegistration]s; [px_cancelling] are rooms
    taken from the map whose token the code is about to cancel after releasing the lock, with whether it marks them replaced. *)
Record Proxy (Leg : Type) := mkProxy {
  px_state : State;
  px_early_data : N;
  px_shutdown : bool;
  px_room : gmap N Room;
  px_slot : gmap N (StreamSlot Leg);
  px_registering : gmap N string;
  px_registrations : gset N;
  px_cancelling : gmap N bool;
  px_early : gmap N EarlyData;
  px_next_key : N;
}.
Arguments mkProxy {Leg}.
Arguments px_state {Leg}.
Arguments px_early_data {Leg}.
Arguments px_shutdown {Leg}.
Arguments px_room {Leg}.
Arguments px_slot {Leg}.
Arguments px_registering {Leg}.
Arguments px_registrations {Leg}.
Arguments px_cancelling {Leg}.
Arguments px_early {Leg}.
Arguments px_next_key {Leg}.
#[export] Instance Proxy_eta Leg : EtaRecord (Proxy Leg) := fun s => {| px_state := px_state s; px_early_data := px_early_data s;
  px_shutdown := px_shutdown s; px_room := px_room s; px_slot := px_slot s; px_registering := px_registering s;
  px_registrations := px_registrations s; px_cancelling := px_cancelling s; px_early := px_early s;
  px_next_key := px_next_key s |}.

(** [fetch_add] and [fetch_sub] of an [AtomicUsize] *)
Definition fetch_add (x n : N) : N := ((x + n) `mod` 2 ^ 64)%N.
Definition fetch_sub (x n : N) : N := ((x + (2 ^ 64 - n `mod` 2 ^ 64)) `mod` 2 ^ 64)%N.

(** [decrement] *)
Definition decrement (counts : gmap string N) (peer : string) : gmap string N :=
  match counts !! peer with
  | Some count => let count := (count - 1)%N in
                  if decide (count = 0%N) then delete peer counts else <[peer := count]> counts
  | None => counts
  end.

Definition count_of (counts : gmap string N) (peer : string) : N := default 0%N (counts !! peer).

Section proxy.
Context `{L : RelayLib} {Leg : Type} (limits : ProxyLimits).
Implicit Types (s : Proxy Leg).

Definition ProxyCore_new : Proxy Leg :=
  mkProxy (mkState ∅ ∅ ∅ ∅ ∅ 0 0 0) 0 false ∅ ∅ ∅ ∅ ∅ ∅ 0.

Record ProxyStats := mkProxyStats { ps_rooms : N; ps_streams : N; ps_pending_streams : N; ps_pending_registrations : N; ps_early_data_bytes : N }.

Definition stats s : ProxyStats :=
  mkProxyStats (N.of_nat (size (st_rooms (px_state s)))) (st_streams (px_state s)) (N.of_nat (size (st_pending (px_state s))))
    (st_pending_registrations (px_state s)) (px_early_data s).

(** The token of a room is cancelled. *)
Definition room_cancelled s (generation : N) : bool :=
  px_shutdown s || match px_room s !! generation with Some room => rm_cancelled room | None => false end.

(** ** Registration *)

Definition begin_registration s (peer : string) : Proxy Leg * (N + RelayError) :=
  let state := px_state s in
  if decide (max_pending_registrations limits <= st_pending_registrations state)%N then
    (s, inr (RelayError_new RelayErrorCode.ResourceExhausted "the proxy has the maximum number of pending registrations")) else
  let state := state <| st_peer_pending_registrations ::= entry_update peer 0%N (fun n => n) |> in
  if decide (max_pending_registrations_per_peer limits <= count_of (st_peer_pending_registrations state) peer)%N then
    (s <| px_state := state |>,
     inr (RelayError_new RelayErrorCode.ResourceExhausted "this client has the maximum number of pending registrations")) else
  let state := state <| st_peer_pending_registrations ::= entry_update peer 0%N (N.add 1) |>
                     <| st_pending_registrations ::= N.add 1 |> in
  let key := px_next_key s in
  (s <| px_state := state |> <| px_registering ::= <[key := peer]> |> <| px_next_key ::= N.add 1 |>, inl key).

(** [Drop for PendingRegistration] *)
Definition drop_pending_registration s (key : N) (peer : string) : Proxy Leg :=
  s <| px_state ::= fun state => state <| st_peer_pending_registrations ::= fun m => decrement m peer |>
                                       <| st_pending_registrations ::= fun n => (n - 1)%N |> |>
    <| px_registering ::= delete key |>.

(** [register_room] up to [drop(state)]: the generation of the new room, and of the room it replaces. *)
Definition register_room s (room_id open_token_hash peer : string) : Proxy Leg * ((N * option N) + RelayError) :=
  let state := px_state s in
  if px_shutdown s then (s, inr shutting_down) else
  let previous := st_rooms state !! room_id in
  if bool_decide (previous = None) && bool_decide (max_rooms limits <= N.of_nat (size (st_rooms state)))%N then
    (s, inr (RelayError_new RelayErrorCode.ResourceExhausted "the proxy serves the maximum number of rooms")) else
  let old := previous ≫= fun generation => px_room s !! generation in
  let replaces_own := match old with Some room => bool_decide (rm_peer room = peer) | None => false end in
  let held := count_of (st_peer_rooms state) peer in
  if negb replaces_own && bool_decide (max_rooms_per_peer limits <= held)%N then
    (s, inr (RelayError_new RelayErrorCode.ResourceExhausted "this client has the maximum number of rooms")) else
  let generation := (st_next_generation state + 1)%N in
  let room := mkRoom room_id generation peer false false [] (N.max (max_streams_per_room limits) 1) true 0 open_token_hash in
  let peer_rooms := match old with Some old => decrement (st_peer_rooms state) (rm_peer old) | None => st_peer_rooms state end in
  let state := state <| st_next_generation := generation |> <| st_rooms ::= <[room_id := generation]> |>
                     <| st_peer_rooms := entry_update peer 0%N (N.add 1) peer_rooms |> in
  (s <| px_state := state |> <| px_room ::= <[generation := room]> |> <| px_registrations ::= union {[generation]} |>
     <| px_cancelling ::= match previous with Some old => insert old true | None => fun m => m end |>,
   inl (generation, previous)).

(** The cancellation that follows a replacement or an eviction *)
Definition cancel_room s (generation : N) (replaced : bool) : Proxy Leg :=
  s <| px_room ::= alter (fun room => room <| rm_replaced ::= orb replaced |> <| rm_cancelled := true |>) generation |>
    <| px_cancelling ::= delete generation |>.

(** [Drop for RoomRegistration] up to the release of the lock *)
Definition drop_registration s (generation : N) (room : Room) : Proxy Leg :=
  let state := px_state s in
  let current := bool_decide (st_rooms state !! rm_id room = Some generation) in
  let state := if current then state <| st_rooms ::= delete (rm_id room) |> <| st_peer_rooms ::= fun m => decrement m (rm_peer room) |>
               else state in
  s <| px_state := state |> <| px_registrations ::= fun live => live ∖ {[generation]} |>
    <| px_cancelling ::= fun m => <[generation := default false (m !! generation)]> m |>.

Definition update_open_token s (generation : N) (open_token_hash : string) : Proxy Leg :=
  s <| px_room ::= alter (fun room => room <| rm_open_token_hash := open_token_hash |>) generation |>.

(** ** Streams *)

(** [Room::open_token_matches] *)
Definition open_token_matches (room : Room) (presented : string) : bool :=
  bool_decide (open_token_hash presented = rm_open_token_hash room).

(** [incoming.try_send(stream_id)] *)
Definition try_send (room : Room) (stream_id : string) : Room + RelayError :=
  if negb (rm_receiving room) then inr room_offline
  else if decide (rm_capacity room <= N.of_nat (length (rm_incoming room)))%N then
    inr (RelayError_new RelayErrorCode.ResourceExhausted "the room has too many unannounced streams")
  else inl (room <| rm_incoming ::= fun ids => ids ++ [stream_id] |>).

(** [admit_stream], whose loop draws random ids until one is not pending; [None] while it draws *)
Definition admit_stream s (room_id open_token peer : string) (draws : list string) : option (Proxy Leg * (N + RelayError)) :=
  let state := px_state s in
  if px_shutdown s then Some (s, inr shutting_down) else
  match (generation ← st_rooms state !! room_id; room ← px_room s !! generation;
         if open_token_matches room open_token then Some (generation, room) else None) with
  | None => Some (s, inr room_offline)
  | Some (generation, room) =>
      if decide (max_streams_per_room limits <= rm_streams room)%N then
        Some (s, inr (RelayError_new RelayErrorCode.ResourceExhausted "the room has the maximum number of streams"))
      else if decide (max_streams_per_peer limits <= count_of (st_peer_streams state) peer)%N then
        Some (s, inr (RelayError_new RelayErrorCode.ResourceExhausted "this client has the maximum number of streams"))
      else if decide (max_streams limits <= st_streams state)%N then
        Some (s, inr (RelayError_new RelayErrorCode.ResourceExhausted "the proxy carries the maximum number of streams"))
      else
        stream_id ← find_first (fun id => st_pending state !! id = None) draws;
        Some match try_send room stream_id with
             | inr error => (s, inr error)
             | inl room =>
                 let key := px_next_key s in
                 let state := state <| st_pending ::= <[stream_id := key]> |>
                                    <| st_peer_streams ::= entry_update peer 0%N (N.add 1) |> <| st_streams ::= N.add 1 |> in
                 (s <| px_state := state |>
                    <| px_room ::= <[generation := room <| rm_streams ::= fun n => fetch_add n 1 |>]> |>
                    <| px_slot ::= <[key := mkStreamSlot generation peer stream_id Waiting]> |>
                    <| px_next_key ::= N.add 1 |>, inl key)
             end
  end.

(** [Drop for StreamSlot] *)
Definition drop_slot s (key : N) (slot : StreamSlot Leg) : Proxy Leg :=
  s <| px_state ::= fun state => state <| st_pending ::= delete (ss_stream_id slot) |>
                                       <| st_streams ::= fun n => (n - 1)%N |>
                                       <| st_peer_streams ::= fun m => decrement m (ss_peer slot) |> |>
    <| px_room ::= alter (fun room => room <| rm_streams ::= fun n => fetch_sub n 1 |>) (ss_room slot) |>
    <| px_slot ::= delete key |>.

Definition expire_pending s (stream_id : string) : Proxy Leg * bool :=
  (s <| px_state ::= fun state => state <| st_pending ::= delete stream_id |> |>,
   bool_decide (is_Some (st_pending (px_state s) !! stream_id))).

(** [deliver_accept]: the transport comes back when nobody waits for it. *)
Definition deliver_accept s (stream_id : string) (leg : Leg) : Proxy Leg * (unit + Leg) :=
  match st_pending (px_state s) !! stream_id with
  | None => (s, inr leg)
  | Some key =>
      let s := s <| px_state ::= fun state => state <| st_pending ::= delete stream_id |> |> in
      match px_slot s !! key with
      | Some (mkStreamSlot _ _ _ Waiting) => (s <| px_slot ::= alter (fun slot => slot <| ss_arrival := Arrived leg |>) key |>, inl tt)
      | _ => (s, inr leg)
      end
  end.

(** The receiving ends: the control stream's [incoming.recv()], and the opener's [arrival], which it drops before its slot *)
Definition take_incoming s (generation : N) : Proxy Leg :=
  s <| px_room ::= alter (fun room => room <| rm_incoming ::= tail |>) generation |>.
Definition close_incoming s (generation : N) : Proxy Leg :=
  s <| px_room ::= alter (fun room => room <| rm_incoming := [] |> <| rm_receiving := false |>) generation |>.
Definition close_arrival s (key : N) : Proxy Leg :=
  s <| px_slot ::= alter (fun slot => slot <| ss_arrival := Closed |>) key |>.

(** ** Early data *)

(** [early_data]: the handle of the opener that holds slot [key] *)
Definition early_data s (key : N) : Proxy Leg := s <| px_early ::= <[key := mkEarlyData 0 false]> |>.
Definition early_data_available s : bool := bool_decide (px_early_data s < max_early_data_bytes limits)%N.
(** The opener's loop enters [select!]: it reads when the buffer has room. *)
Definition early_select s (key : N) (early : EarlyData) : Proxy Leg :=
  s <| px_early ::= <[key := mkEarlyData (ed_bytes early) (early_data_available s)]> |>.
(** [EarlyData::add] *)
Definition early_data_add s (key : N) (early : EarlyData) (bytes : N) : Proxy Leg :=
  s <| px_early ::= <[key := mkEarlyData (ed_bytes early + bytes) false]> |> <| px_early_data ::= fun n => fetch_add n bytes |>.
(** [Drop for EarlyData] *)
Definition drop_early_data s (key : N) (early : EarlyData) : Proxy Leg :=
  s <| px_early ::= delete key |> <| px_early_data ::= fun n => fetch_sub n (ed_bytes early) |>.

Definition shutdown s : Proxy Leg := s <| px_shutdown := true |>.

Definition room_closed_error s : RelayError :=
  if px_shutdown s then shutting_down else RelayError_new RelayErrorCode.Unavailable "room went offline".
Definition host_closed_error s (room : Room) : RelayError :=
  if px_shutdown s then shutting_down
  else if rm_replaced room then RelayError_new RelayErrorCode.AlreadyExists "room was registered by a newer control stream"
  else RelayError_new RelayErrorCode.Unavailable "room closed".

(** ** Steps

    A task drops its handles in the reverse order of their creation: an opener's early data goes before its slot. *)

Inductive Label :=
  | LBegin (peer : string) (reply : N + RelayError)
  | LEndRegistration (key : N)
  | LRegister (room_id hash peer : string) (reply : (N * option N) + RelayError)
  | LEvict (generation : N)
  | LCancel (generation : N)
  | LUpdateToken (generation : N) (hash : string)
  | LAdmit (room_id open_token peer : string) (reply : N + RelayError)
  | LDropSlot (key : N)
  | LExpire (stream_id : string) (expired : bool)
  | LDeliver (stream_id : string) (leg : Leg) (reply : unit + Leg)
  | LIncoming (generation : N)
  | LCloseIncoming (generation : N)
  | LCloseArrival (key : N)
  | LEarly (key : N)
  | LEarlySelect (key : N)
  | LEarlyAdd (key bytes : N)
  | LEarlyDrop (key : N)
  | LShutdown.

Inductive proxy_step s : Label -> Proxy Leg -> Prop :=
  | step_begin peer s' r : begin_registration s peer = (s', r) -> proxy_step s (LBegin peer r) s'
  | step_end_registration key peer : px_registering s !! key = Some peer ->
      proxy_step s (LEndRegistration key) (drop_pending_registration s key peer)
  | step_register room_id hash peer s' r : register_room s room_id hash peer = (s', r) ->
      proxy_step s (LRegister room_id hash peer r) s'
  | step_evict generation room : generation ∈ px_registrations s -> px_room s !! generation = Some room ->
      proxy_step s (LEvict generation) (drop_registration s generation room)
  | step_cancel generation replaced : px_cancelling s !! generation = Some replaced ->
      proxy_step s (LCancel generation) (cancel_room s generation replaced)
  | step_update_token generation hash : generation ∈ px_registrations s ->
      proxy_step s (LUpdateToken generation hash) (update_open_token s generation hash)
  | step_admit room_id open_token peer draws s' r : admit_stream s room_id open_token peer draws = Some (s', r) ->
      proxy_step s (LAdmit room_id open_token peer r) s'
  | step_drop_slot key slot : px_slot s !! key = Some slot -> px_early s !! key = None ->
      proxy_step s (LDropSlot key) (drop_slot s key slot)
  | step_expire key slot s' b : px_slot s !! key = Some slot -> expire_pending s (ss_stream_id slot) = (s', b) ->
      proxy_step s (LExpire (ss_stream_id slot) b) s'
  | step_deliver stream_id leg s' r : deliver_accept s stream_id leg = (s', r) -> proxy_step s (LDeliver stream_id leg r) s'
  | step_incoming generation : proxy_step s (LIncoming generation) (take_incoming s generation)
  | step_close_incoming generation : proxy_step s (LCloseIncoming generation) (close_incoming s generation)
  | step_close_arrival key : proxy_step s (LCloseArrival key) (close_arrival s key)
  | step_early key : is_Some (px_slot s !! key) -> px_early s !! key = None -> proxy_step s (LEarly key) (early_data s key)
  | step_early_select key early : px_early s !! key = Some early -> proxy_step s (LEarlySelect key) (early_select s key early)
  | step_early_add key early bytes : px_early s !! key = Some early -> ed_reading early = true -> (bytes <= max_chunk_data limits)%N ->
      proxy_step s (LEarlyAdd key bytes) (early_data_add s key early bytes)
  | step_early_drop key early : px_early s !! key = Some early -> proxy_step s (LEarlyDrop key) (drop_early_data s key early)
  | step_shutdown : proxy_step s LShutdown (shutdown s).

Inductive proxy_run : Proxy Leg -> list Label -> Proxy Leg -> Prop :=
  | run_nil s : proxy_run s [] s
  | run_snoc s s' s'' labels label : proxy_run s labels s' -> proxy_step s' label s'' -> proxy_run s (labels ++ [label]) s''.

Definition reachable s : Prop := exists labels, proxy_run ProxyCore_new labels s.
End proxy.
