(* ===== verification/RelayInv.v ===== *)
(** * The proxy's counts are exact

    What each count of the proxy's state counts, and that every step of [RelayProxy] keeps the counts exact and within the
    limits: one invariant per group of handles (registrations in progress, rooms, streams, early data). *)

From S2P Require Import Prelude RustStr Text RelayLink RelayProxy.

(** ** Counting *)

Section mcount.
Context {K A : Type} `{Countable K}.
Implicit Types (m : gmap K A) (P Q : A -> Prop).

(** How many entries satisfy [P] *)
Definition mcount P `{!forall x, Decision (P x)} m : N := N.of_nat (size (filter (fun kx => P kx.2) m)).

Context P `{!forall x, Decision (P x)}.

Lemma mcount_empty : mcount P ∅ = 0%N.
Proof. unfold mcount. by rewrite map_filter_empty, map_size_empty. Qed.

Lemma mcount_insert m k x : m !! k = None -> mcount P (<[k:=x]> m) = (mcount P m + if decide (P x) then 1 else 0)%N.
Proof.
  intros Hk. unfold mcount. destruct (decide (P x)) as [Hx|Hx].
  - rewrite map_filter_insert_True by done. rewrite map_size_insert_None by (by apply map_lookup_filter_None; left). lia.
  - rewrite map_filter_insert_not' by (try done; intros y; congruence). lia.
Qed.

Lemma mcount_delete m k x : m !! k = Some x -> mcount P m = (mcount P (delete k m) + if decide (P x) then 1 else 0)%N.
Proof. intros Hk. rewrite <- (insert_delete_id m k x Hk) at 1. apply mcount_insert, lookup_delete_eq. Qed.

Lemma mcount_delete_None m k : m !! k = None -> mcount P (delete k m) = mcount P m.
Proof. intros Hk. by rewrite delete_id. Qed.

Lemma mcount_le m : (mcount P m <= N.of_nat (size m))%N.
Proof.
  unfold mcount. pose proof (map_size_filter (fun kx => P kx.2) m). lia.
Qed.

Lemma mcount_ext Q `{!forall x, Decision (Q x)} m : (forall k x, m !! k = Some x -> P x <-> Q x) -> mcount P m = mcount Q m.
Proof. intros HPQ. unfold mcount. f_equal. f_equal. apply map_filter_ext. intros k x Hk. cbn. by eapply HPQ. Qed.

Lemma mcount_alter (f : A -> A) m k : (forall x, P (f x) <-> P x) -> mcount P (alter f k m) = mcount P m.
Proof.
  intros Hf. destruct (m !! k) as [x|] eqn:Hk.
  - rewrite (mcount_delete m k x Hk). rewrite (mcount_delete (alter f k m) k (f x)) by (by rewrite lookup_alter_eq, Hk).
    rewrite delete_alter_eq. by rewrite (decide_ext _ _ _ _ (Hf x)).
  - by rewrite alter_id by (by intros; simplify_eq).
Qed.
End mcount.

(** A projection that an update keeps is kept by the whole map. *)
Lemma fmap_alter_same {A B} (proj : A -> B) (f : A -> A) (k : N) (m : gmap N A) :
  (forall x, proj (f x) = proj x) -> proj <$> alter f k m = proj <$> m.
Proof.
  intros Hf. apply map_eq. intros i. rewrite !lookup_fmap. destruct (decide (k = i)) as [->|Hne].
  - rewrite lookup_alter_eq. destruct (m !! i); cbn; [by rewrite Hf|done].
  - by rewrite lookup_alter_ne.
Qed.

Lemma fmap_alter_comm {A B} (proj : A -> B) (f : A -> A) (g : B -> B) (k : N) (m : gmap N A) :
  (forall x, proj (f x) = g (proj x)) -> proj <$> alter f k m = alter g k (proj <$> m).
Proof.
  intros Hf. apply map_eq. intros i. rewrite !lookup_fmap. destruct (decide (k = i)) as [->|Hne].
  - rewrite !lookup_alter_eq, lookup_fmap. destruct (m !! i); cbn; [by rewrite Hf|done].
  - by rewrite !lookup_alter_ne, lookup_fmap.
Qed.

Lemma fmap_insert_same {A B} (proj : A -> B) (k : N) (x y : A) (m : gmap N A) :
  m !! k = Some x -> proj y = proj x -> proj <$> <[k:=y]> m = proj <$> m.
Proof. intros Hk Hy. rewrite fmap_insert, Hy. apply insert_id. by rewrite lookup_fmap, Hk. Qed.

(** ** Counts per client *)

(** Counts of some things by client, without empty entries *)
Definition counts_ok (counts : gmap string N) (count : string -> N) : Prop :=
  forall p, count_of counts p = count p /\ counts !! p <> Some 0%N.

Lemma counts_ok_add counts count count' peer : counts_ok counts count ->
  (forall p, count' p = count p + if decide (peer = p) then 1 else 0)%N ->
  counts_ok (entry_update peer 0%N (N.add 1) counts) count'.
Proof.
  intros Hok Hc p. destruct (Hok p) as [Hp Hz]. unfold count_of in *. rewrite Hc, lookup_entry_update.
  case_decide; subst; cbn.
  - split; [lia|]. intros [= ?]. lia.
  - split; [lia|done].
Qed.

Lemma counts_ok_sub counts count count' peer : counts_ok counts count ->
  (forall p, count p = count' p + if decide (peer = p) then 1 else 0)%N ->
  counts_ok (decrement counts peer) count'.
Proof.
  intros Hok Hc p. destruct (Hok p) as [Hp Hz]. destruct (Hok peer) as [Hpeer Hzpeer]. unfold count_of, decrement in *.
  pose proof (Hc p) as Hcp. pose proof (Hc peer) as Hcpeer. rewrite decide_True in Hcpeer by done.
  destruct (counts !! peer) as [n|] eqn:Hn; cbn in Hpeer; [|lia]. destruct (decide (n - 1 = 0)%N) as [Hn0|Hn0].
  - destruct (decide (peer = p)) as [->|Hne].
    + rewrite lookup_delete_eq. cbn. split; [lia|done].
    + rewrite lookup_delete_ne by done. split; [lia|done].
  - destruct (decide (peer = p)) as [->|Hne].
    + rewrite lookup_insert_eq. cbn. split; [lia|intros [= ?]; lia].
    + rewrite lookup_insert_ne by done. split; [lia|done].
Qed.

Lemma counts_ok_ext counts count count' : counts_ok counts count -> (forall p, count' p = count p) -> counts_ok counts count'.
Proof. intros Hok He p. rewrite He. apply Hok. Qed.

Lemma count_of_entry counts peer p : count_of (entry_update peer 0%N (fun n => n) counts) p = count_of counts p.
Proof. unfold count_of. rewrite lookup_entry_update. case_decide; by subst. Qed.

Lemma entry_kept (counts : gmap string N) peer : is_Some (counts !! peer) -> entry_update peer 0%N (fun n => n) counts = counts.
Proof. intros [n Hn]. unfold entry_update. rewrite Hn. by apply insert_id. Qed.

Section invariant.
Context `{L : RelayLib} {Leg : Type} (limits : ProxyLimits).
Hypothesis usize_limit : fits 64 (max_streams_per_room limits).
Hypothesis early_fits : fits 64 (max_early_data_bytes limits + max_chunk_data limits * max_streams limits).

(** ** Registrations in progress *)

Record registering_ok (peer_pending : gmap string N) (pending : N) (registering : gmap N string) : Prop := {
  rg_pending : pending = N.of_nat (size registering);
  rg_peers p : count_of peer_pending p = mcount (eq p) registering;
  rg_no_zero p : (0 < max_pending_registrations_per_peer limits)%N -> peer_pending !! p <> Some 0%N;
  rg_limit : (pending <= max_pending_registrations limits)%N;
  rg_peer_limit p : (mcount (eq p) registering <= max_pending_registrations_per_peer limits)%N;
}.

Lemma registering_entry counts pending registering peer :
  registering_ok counts pending registering ->
  (max_pending_registrations_per_peer limits <= count_of (entry_update peer 0%N (fun n => n) counts) peer)%N ->
  registering_ok (entry_update peer 0%N (fun n => n) counts) pending registering.
Proof.
  intros [H1 H2 H3 H4 H5] Hle. rewrite count_of_entry in Hle. split; try done.
  - intros p. by rewrite count_of_entry.
  - intros p Hpos. rewrite entry_kept; [by apply H3|]. unfold count_of in Hle. destruct (counts !! peer); [done|cbn in Hle; lia].
Qed.

Lemma registering_begin counts pending registering peer key :
  registering_ok counts pending registering -> registering !! key = None ->
  (pending < max_pending_registrations limits)%N -> (count_of counts peer < max_pending_registrations_per_peer limits)%N ->
  registering_ok (entry_update peer 0%N (N.add 1) (entry_update peer 0%N (fun n => n) counts)) (1 + pending) (<[key := peer]> registering).
Proof.
  intros [H1 H2 H3 H4 H5] Hk Hlt Hplt. split.
  - rewrite map_size_insert_None by done. lia.
  - intros p. rewrite mcount_insert by done. pose proof (H2 p) as Hp. unfold count_of in *. rewrite lookup_entry_update.
    case_decide; subst.
    + rewrite lookup_entry_update, decide_True by done. cbn. rewrite decide_True by done. lia.
    + rewrite lookup_entry_update, decide_False by done. rewrite decide_False by done. lia.
  - intros p Hpos. rewrite lookup_entry_update. case_decide; [by intros [= ?]; lia|].
    rewrite lookup_entry_update. rewrite decide_False by done. by apply H3.
  - lia.
  - intros p. rewrite mcount_insert by done. pose proof (H5 p). case_decide; [|lia]. subst. rewrite <- H2. lia.
Qed.

Lemma registering_end counts pending registering peer key :
  registering_ok counts pending registering -> registering !! key = Some peer ->
  registering_ok (decrement counts peer) (pending - 1) (delete key registering).
Proof.
  intros [H1 H2 H3 H4 H5] Hk.
  pose proof (fun p => mcount_delete (eq p) registering key peer Hk) as Hc.
  split.
  - rewrite map_size_delete_Some by done. lia.
  - intros p. pose proof (H2 p) as Hp. pose proof (H2 peer) as Hpeer. pose proof (Hc p) as Hcp. pose proof (Hc peer) as Hcpeer.
    rewrite (decide_True (P := peer = peer)) in Hcpeer by done.
    unfold count_of, decrement in *. destruct (counts !! peer) as [n|] eqn:Hn; cbn in Hpeer; [|lia].
    destruct (decide (p = peer)) as [->|Hne].
    + destruct (decide (n - 1 = 0)%N); [rewrite lookup_delete_eq; cbn; lia|rewrite lookup_insert_eq; cbn; lia].
    + destruct (decide (n - 1 = 0)%N); [rewrite lookup_delete_ne by congruence|rewrite lookup_insert_ne by congruence]; lia.
  - intros p Hpos. unfold decrement. pose proof (H3 p Hpos) as Hz. destruct (counts !! peer) as [n|] eqn:Hn; [|done].
    destruct (decide (n - 1 = 0)%N); destruct (decide (peer = p)) as [->|Hne].
    + by rewrite lookup_delete_eq.
    + by rewrite lookup_delete_ne.
    + rewrite lookup_insert_eq. by intros [= ?].
    + by rewrite lookup_insert_ne.
  - lia.
  - intros p. pose proof (H5 p). pose proof (Hc p). lia.
Qed.

(** ** Rooms *)

(** What the rooms invariant reads of a room *)
Record Face := mkFace { fc_id : string; fc_peer : string; fc_cancelled : bool; fc_replaced : bool }.
Definition face (room : Room) : Face := mkFace (rm_id room) (rm_peer room) (rm_cancelled room) (rm_replaced room).

Local Abbreviation held_by faces p := (fun g : N => fc_peer <$> (faces : gmap N Face) !! g = Some (p : string)).

Record rooms_ok (rooms : gmap string N) (peer_rooms : gmap string N) (next : N) (faces : gmap N Face)
    (registrations : gset N) (cancelling : gmap N bool) : Prop := {
  ro_current id g : rooms !! id = Some g -> g ∈ registrations /\ cancelling !! g = None
    /\ exists f, faces !! g = Some f /\ fc_id f = id /\ fc_cancelled f = false;
  ro_registered g : g ∈ registrations -> is_Some (faces !! g);
  ro_old g : is_Some (faces !! g) -> (0 < g <= next)%N;
  ro_cancelling g : is_Some (cancelling !! g) -> is_Some (faces !! g);
  ro_counts : counts_ok peer_rooms (fun p => mcount (held_by faces p) rooms);
  ro_gone g f : faces !! g = Some f -> rooms !! fc_id f = Some g \/ fc_cancelled f = true \/ is_Some (cancelling !! g);
  ro_replaced g f : faces !! g = Some f -> fc_replaced f = true \/ cancelling !! g = Some true ->
    exists g' f', (g < g')%N /\ faces !! g' = Some f' /\ fc_id f' = fc_id f;
  ro_limit : (N.of_nat (size rooms) <= max_rooms limits)%N;
  ro_peer_limit p : (mcount (held_by faces p) rooms <= max_rooms_per_peer limits)%N;
}.

Lemma held_by_new faces g f p rooms : faces !! g = None ->
  (forall (id : string) g', rooms !! id = Some g' -> is_Some (faces !! g')) ->
  mcount (held_by (<[g := f]> faces) p) rooms = mcount (held_by faces p) rooms.
Proof.
  intros Hg Hrooms. apply mcount_ext. intros id g' Hid. cbn. rewrite lookup_insert_ne; [done|].
  intros ->. apply Hrooms in Hid. rewrite Hg in Hid. by destruct Hid.
Qed.

(** The count of each client, before and after room [id] becomes the new [g] *)
Lemma held_by_register faces rooms g f id p : faces !! g = None ->
  (forall (id : string) g', rooms !! id = Some g' -> is_Some (faces !! g')) ->
  (mcount (held_by (<[g := f]> faces) p) (<[id := g]> rooms)
    + (if decide (fc_peer <$> (rooms !! id ≫= fun g => faces !! g) = Some p) then 1 else 0)
   = mcount (held_by faces p) rooms + (if decide (fc_peer f = p) then 1 else 0))%N.
Proof.
  intros Hg Hrooms. rewrite <- (insert_delete_eq rooms id g), mcount_insert by apply lookup_delete_eq.
  rewrite held_by_new by (try done; intros i g'; rewrite lookup_delete_Some; intros [_ ?]; by eapply Hrooms).
  rewrite (decide_ext (fc_peer <$> <[g := f]> faces !! g = Some p) (fc_peer f = p)).
  2:{ rewrite lookup_insert_eq. cbn. split; [by intros [= <-]|by intros <-]. }
  destruct (rooms !! id) as [gp|] eqn:Hprev; cbn [mbind option_bind].
  - rewrite (mcount_delete (held_by faces p) rooms id gp Hprev). cbn beta. lia.
  - rewrite mcount_delete_None by done. destruct (decide (fc_peer <$> None = Some p)); [done|lia].
Qed.

Lemma rooms_faces rooms peer_rooms next faces registrations cancelling id g :
  rooms_ok rooms peer_rooms next faces registrations cancelling -> rooms !! id = Some g -> is_Some (faces !! g).
Proof. intros Hok Hid. destruct (ro_current _ _ _ _ _ _ Hok _ _ Hid) as (_ & _ & f & -> & _). done. Qed.

(** The clients' room counts after a registration *)
Lemma register_counts rooms peer_rooms faces f g :
  counts_ok peer_rooms (fun p => mcount (held_by faces p) rooms) -> faces !! g = None ->
  (forall id g', rooms !! id = Some g' -> is_Some (faces !! g')) ->
  let old := rooms !! fc_id f ≫= fun g => faces !! g in
  counts_ok (entry_update (fc_peer f) 0%N (N.add 1) (match old with Some f => decrement peer_rooms (fc_peer f) | None => peer_rooms end))
    (fun p => mcount (held_by (<[g := f]> faces) p) (<[fc_id f := g]> rooms)).
Proof.
  intros H5 Hfresh Hrooms old.
  pose proof (fun p => held_by_register faces rooms g f (fc_id f) p Hfresh Hrooms) as Hcount. fold old in Hcount.
  assert (forall p, (if decide (fc_peer <$> old = Some p) then 1 else 0) <= mcount (held_by faces p) rooms)%N as Hle.
  { intros p. case_decide as Hd; [|lia]. destruct (rooms !! fc_id f) as [gp|] eqn:Hp; [|done].
    rewrite (mcount_delete (held_by faces p) rooms _ _ Hp). cbn beta. rewrite decide_True; [lia|]. done. }
  eapply (counts_ok_add _ (fun p => mcount (held_by faces p) rooms - if decide (fc_peer <$> old = Some p) then 1 else 0)%N).
  - destruct old as [fo|] eqn:Ho; cbn [fmap option_fmap option_map].
    + eapply counts_ok_sub; [exact H5|]. intros p. pose proof (Hle p) as Hlp. cbn in Hlp |- *.
      destruct (decide (Some (fc_peer fo) = Some p)), (decide (fc_peer fo = p)); try congruence; lia.
    + eapply counts_ok_ext; [exact H5|]. intros p. cbn. destruct (decide (None = Some p)); [done|lia].
  - intros p. pose proof (Hcount p). pose proof (Hle p). cbn beta in *. lia.
Qed.

(** A room that is replaced, or about to be, has a successor. *)
Lemma register_replaced rooms peer_rooms next faces registrations cancelling f g f' :
  rooms_ok rooms peer_rooms next faces registrations cancelling -> fc_replaced f = false ->
  <[(next + 1)%N := f]> faces !! g = Some f' ->
  fc_replaced f' = true
  \/ (match rooms !! fc_id f with Some g => <[g := true]> cancelling | None => cancelling end) !! g = Some true ->
  exists g'' f'', (g < g'')%N /\ <[(next + 1)%N := f]> faces !! g'' = Some f'' /\ fc_id f'' = fc_id f'.
Proof.
  intros Hok Hr Hf' Hwhy. pose proof Hok as [H1 H2 H3 H4 _ _ H7 _ _].
  assert (forall g', is_Some (faces !! g') -> (g' < next + 1)%N) as Hlt by (intros g' Hg'%H3; lia).
  assert (fc_replaced f' = true \/ cancelling !! g = Some true \/ rooms !! fc_id f = Some g) as Hcases.
  { destruct Hwhy as [|Hwhy]; [by left|right]. destruct (rooms !! fc_id f) as [gp|]; [|by left].
    apply lookup_insert_Some in Hwhy as [[<- _]|[_ ?]]; auto. }
  apply lookup_insert_Some in Hf' as [[<- <-]|[Hne Hf']].
  - destruct Hcases as [?|[Hcg|Hcur]]; [congruence|..].
    + pose proof (Hlt (next + 1)%N (H4 _ (mk_is_Some _ _ Hcg))). lia.
    + pose proof (Hlt (next + 1)%N (rooms_faces _ _ _ _ _ _ _ _ Hok Hcur)). lia.
  - assert (fc_replaced f' = true \/ cancelling !! g = Some true \/ fc_id f' = fc_id f) as Hcases'.
    { destruct Hcases as [?|[?|Hcur]]; auto. right; right. destruct (H1 _ _ Hcur) as (_ & _ & f'' & ? & <- & _). congruence. }
    destruct (decide (fc_id f' = fc_id f)) as [Heq|Hid].
    + exists (next + 1)%N, f. rewrite lookup_insert_eq. split; [apply Hlt; eauto|done].
    + assert (fc_replaced f' = true \/ cancelling !! g = Some true) as Hold by tauto.
      destruct (H7 _ _ Hf' Hold) as (g'' & f'' & Hg & Hf'' & Heq). exists g'', f''. split; [done|]. split; [|done].
      rewrite lookup_insert_ne; [done|]. intros <-. pose proof (Hlt (next + 1)%N (mk_is_Some _ _ Hf'')). lia.
Qed.

(** Registering room [id] for a client, over the room [previous] that has it *)
Lemma rooms_register rooms peer_rooms next faces registrations cancelling f :
  rooms_ok rooms peer_rooms next faces registrations cancelling -> fc_cancelled f = false -> fc_replaced f = false ->
  let previous := rooms !! fc_id f in
  let old := previous ≫= fun g => faces !! g in
  (previous = None -> (N.of_nat (size rooms) < max_rooms limits)%N) ->
  (fc_peer <$> old <> Some (fc_peer f) -> (count_of peer_rooms (fc_peer f) < max_rooms_per_peer limits)%N) ->
  rooms_ok (<[fc_id f := (next + 1)%N]> rooms)
    (entry_update (fc_peer f) 0%N (N.add 1) (match old with Some f => decrement peer_rooms (fc_peer f) | None => peer_rooms end))
    (next + 1) (<[(next + 1)%N := f]> faces) ({[(next + 1)%N]} ∪ registrations)
    (match previous with Some g => <[g := true]> cancelling | None => cancelling end).
Proof.
  intros Hok Hc Hr previous old Hsize Hheld. pose proof Hok as [H1 H2 H3 H4 H5 H6 H7 H8 H9].
  set (g := (next + 1)%N). assert (faces !! g = None) as Hfresh.
  { apply eq_None_not_Some. intros Hs%H3. unfold g in Hs. lia. }
  pose proof (fun id g' => rooms_faces _ _ _ _ _ _ id g' Hok) as Hrooms.
  assert (forall g', is_Some (faces !! g') -> g <> g') as Hne by (intros g' [f' Hf] <-; congruence).
  assert (forall g', cancelling !! g' = None -> Some g' <> previous ->
    (match previous with Some g => <[g := true]> cancelling | None => cancelling end) !! g' = None) as Hcan.
  { intros g' Hg' Hp. destruct previous as [gp|]; [|done]. rewrite lookup_insert_ne; [done|congruence]. }
  split.
  - intros id g' [[<- <-]|[Hid' Hid]]%lookup_insert_Some.
    + split; [set_solver|]. split.
      * apply Hcan; [|intros Hp; symmetry in Hp; by apply Hrooms, Hne in Hp].
        apply eq_None_not_Some. intros Hs%H4. by apply Hne in Hs.
      * exists f. by rewrite lookup_insert_eq.
    + destruct (H1 _ _ Hid) as (Hreg & Hcg & f' & Hf' & Hfid & Hfc). split; [set_solver|]. split.
      * apply Hcan; [done|]. intros Hp. symmetry in Hp. destruct (H1 _ _ Hp) as (_ & _ & f'' & Hf'' & Hfid'' & _). congruence.
      * exists f'. rewrite lookup_insert_ne; [done|]. apply Hne. eauto.
  - intros g' [->%elem_of_singleton|Hin]%elem_of_union; [by rewrite lookup_insert_eq|].
    rewrite lookup_insert_ne; [by apply H2|]. by apply Hne, H2.
  - intros g' [f' Hf']. apply lookup_insert_Some in Hf' as [[<- _]|[_ Hf']]; [unfold g; lia|].
    assert (0 < g' <= next)%N as Hold by (apply H3; eauto). unfold g. lia.
  - intros g' Hg'. apply lookup_insert_is_Some'. right. destruct previous as [gp|] eqn:Hp; [|by apply H4].
    apply lookup_insert_is_Some' in Hg' as [<-|Hg']; [by eapply Hrooms|by apply H4].
  - by apply register_counts.
  - intros g' f' [[<- <-]|[Hg' Hf']]%lookup_insert_Some; [left; by rewrite lookup_insert_eq|].
    destruct (decide (fc_id f = fc_id f')) as [Heq|Hid'].
    + right. destruct (H6 _ _ Hf') as [Hcur|[Hcf|Hcg]]; [right|by left|right].
      * unfold previous. rewrite Heq, Hcur. by rewrite lookup_insert_eq.
      * destruct previous; [|done]. apply lookup_insert_is_Some'. by right.
    + rewrite lookup_insert_ne by done. destruct (H6 _ _ Hf') as [Hcur|[Hcf|Hcg]]; [by left|right; by left|right; right].
      destruct previous; [|done]. apply lookup_insert_is_Some'. by right.
  - intros g' f' Hf' Hwhy. by eapply register_replaced.
  - destruct previous as [gp|] eqn:Hp; unfold previous in Hp.
    + rewrite map_size_insert_Some by (by eexists). done.
    + rewrite map_size_insert_None by done. specialize (Hsize eq_refl). lia.
  - intros p. pose proof (held_by_register faces rooms g f (fc_id f) p Hfresh Hrooms) as Hcp. fold previous old in Hcp.
    pose proof (H9 p) as Hp9. destruct (H5 (fc_peer f)) as [Hcf _].
    destruct (decide (fc_peer f = p)) as [<-|]; [|lia]. destruct (decide (fc_peer <$> old = Some (fc_peer f))) as [|Hno]; [lia|].
    specialize (Hheld Hno). lia.
Qed.

(** Dropping a registration: its room leaves the map when the map still has it. *)
Lemma rooms_evict rooms peer_rooms next faces registrations cancelling g f :
  rooms_ok rooms peer_rooms next faces registrations cancelling -> faces !! g = Some f ->
  let current := bool_decide (rooms !! fc_id f = Some g) in
  rooms_ok (if current then delete (fc_id f) rooms else rooms) (if current then decrement peer_rooms (fc_peer f) else peer_rooms)
    next faces (registrations ∖ {[g]}) (<[g := default false (cancelling !! g)]> cancelling).
Proof.
  intros Hok Hf current. pose proof Hok as [H1 H2 H3 H4 H5 H6 H7 H8 H9].
  assert (forall id g', (if current then delete (fc_id f) rooms else rooms) !! id = Some g' -> rooms !! id = Some g' /\ g' <> g) as Hsub.
  { intros id g' Hid. unfold current in Hid. case_bool_decide as Hcur.
    - apply lookup_delete_Some in Hid as [Hne Hid]. split; [done|]. intros ->. destruct (H1 _ _ Hid) as (_ & _ & f' & ? & ? & _). congruence.
    - split; [done|]. intros ->. destruct (H1 _ _ Hid) as (_ & _ & f' & ? & ? & _). congruence. }
  split.
  - intros id g' [Hid Hne]%Hsub. destruct (H1 _ _ Hid) as (Hreg & Hcg & Hf'). split; [set_solver|]. split; [|done].
    by rewrite lookup_insert_ne.
  - intros g' [Hin _]%elem_of_difference. by apply H2.
  - done.
  - intros g' [<-|Hg']%lookup_insert_is_Some'; [by eexists|by apply H4].
  - unfold current. case_bool_decide as Hcur; [|done]. eapply counts_ok_sub; [exact H5|]. intros p. cbn beta.
    rewrite (mcount_delete (held_by faces p) rooms _ _ Hcur). cbn beta. rewrite Hf. cbn [fmap option_fmap option_map].
    destruct (decide (Some (fc_peer f) = Some p)), (decide (fc_peer f = p)); congruence || lia.
  - intros g' f' Hf'. destruct (decide (g = g')) as [<-|Hne]; [right; right; by rewrite lookup_insert_eq|].
    destruct (H6 _ _ Hf') as [Hcur|[?|?]]; [|right; by left|right; right; by rewrite lookup_insert_ne].
    left. unfold current. case_bool_decide as Hc; [|done]. rewrite lookup_delete_ne; [done|]. intros Heq. congruence.
  - intros g' f' Hf' Hwhy. apply (H7 _ _ Hf'). destruct Hwhy as [?|Hwhy]; [by left|right].
    apply lookup_insert_Some in Hwhy as [[<- Hd]|[_ ?]]; [|done]. by destruct (cancelling !! g) as [[]|].
  - unfold current. case_bool_decide as Hc; [|done]. pose proof (map_size_delete_Some (fc_id f) rooms (mk_is_Some _ _ Hc)). lia.
  - intros p. pose proof (H9 p). unfold current. case_bool_decide as Hc; [|done].
    rewrite (mcount_delete (held_by faces p) rooms _ _ Hc) in H. lia.
Qed.

(** Cancelling a room that left the map *)
Lemma rooms_cancel rooms peer_rooms next faces registrations cancelling g replaced :
  rooms_ok rooms peer_rooms next faces registrations cancelling -> cancelling !! g = Some replaced ->
  rooms_ok rooms peer_rooms next
    (alter (fun f => mkFace (fc_id f) (fc_peer f) true (replaced || fc_replaced f)) g faces) registrations (delete g cancelling).
Proof.
  intros Hok Hg. pose proof Hok as [H1 H2 H3 H4 H5 H6 H7 H8 H9].
  set (mark := fun f => mkFace (fc_id f) (fc_peer f) true (replaced || fc_replaced f)).
  assert (forall g', fc_peer <$> alter mark g faces !! g' = fc_peer <$> faces !! g') as Hpeer.
  { intros g'. destruct (decide (g = g')) as [<-|Hne]; [rewrite lookup_alter_eq; by destruct (faces !! g)|by rewrite lookup_alter_ne]. }
  assert (forall p, mcount (held_by (alter mark g faces) p) rooms = mcount (held_by faces p) rooms) as Hcount.
  { intros p. apply mcount_ext. intros id g' _. cbn beta. by rewrite Hpeer. }
  assert (forall g' f', alter mark g faces !! g' = Some f' ->
    exists f0, faces !! g' = Some f0 /\ fc_id f' = fc_id f0 /\ (g = g' /\ f' = mark f0 \/ g <> g' /\ f' = f0)) as Hinv.
  { intros g' f'. destruct (decide (g = g')) as [<-|Hne]; [rewrite lookup_alter_eq|rewrite lookup_alter_ne by done; eauto 6].
    destruct (faces !! g) as [f0|]; [|done]. intros [= <-]. eauto 6. }
  assert (forall g' f0, faces !! g' = Some f0 -> exists f', alter mark g faces !! g' = Some f' /\ fc_id f' = fc_id f0) as Hback.
  { intros g' f0 Hf0. destruct (decide (g = g')) as [<-|Hne]; [rewrite lookup_alter_eq, Hf0; cbn; by eexists|].
    rewrite lookup_alter_ne by done. eauto. }
  split; try done.
  - intros id g' Hid. destruct (H1 _ _ Hid) as (Hreg & Hcg & f' & Hf' & Hfid & Hfc). split; [done|].
    assert (g <> g') as Hne by congruence. rewrite lookup_delete_ne, lookup_alter_ne by done. eauto.
  - intros g' Hin. destruct (H2 _ Hin) as [f0 Hf0]. destruct (Hback _ _ Hf0) as (f' & -> & _). done.
  - intros g' [f' Hf']. destruct (Hinv _ _ Hf') as (f0 & Hf0 & _). apply H3. eauto.
  - intros g' [b Hb]. apply lookup_delete_Some in Hb as [_ Hb]. destruct (H4 g' (mk_is_Some _ _ Hb)) as [f0 Hf0].
    destruct (Hback _ _ Hf0) as (f' & -> & _). done.
  - eapply counts_ok_ext; [exact H5|exact Hcount].
  - intros g' f' Hf'. destruct (Hinv _ _ Hf') as (f0 & Hf0 & Hid & [[<- ->]|[Hne ->]]); [right; by left|].
    rewrite lookup_delete_ne by done. by apply H6.
  - intros g' f' Hf' Hwhy. destruct (Hinv _ _ Hf') as (f0 & Hf0 & Hid & Hcases).
    assert (fc_replaced f0 = true \/ cancelling !! g' = Some true) as Hold.
    { destruct Hcases as [[<- ->]|[Hne ->]].
      - rewrite lookup_delete_eq in Hwhy. destruct Hwhy as [Hwhy|]; [|done]. cbn in Hwhy.
        apply orb_true_iff in Hwhy as [->|?]; [by right|by left].
      - by rewrite lookup_delete_ne in Hwhy. }
    destruct (H7 _ _ Hf0 Hold) as (g'' & f'' & Hlt & Hf'' & Heq). destruct (Hback _ _ Hf'') as (f3 & Hf3 & Hid3).
    exists g'', f3. split_and!; [done|done|congruence].
  - intros p. by rewrite Hcount.
Qed.

(** ** Streams *)

Record streams_ok (slots : gmap N (StreamSlot Leg)) (pending : gmap string N) (peer_streams : gmap string N) (streams : N)
    (counts : gmap N N) : Prop := {
  so_streams : streams = N.of_nat (size slots);
  so_peers : counts_ok peer_streams (fun p => mcount (fun slot => ss_peer slot = p) slots);
  so_rooms g n : counts !! g = Some n -> n = mcount (fun slot => ss_room slot = g) slots;
  so_room k slot : slots !! k = Some slot -> is_Some (counts !! ss_room slot);
  so_pending id k : pending !! id = Some k -> exists slot, slots !! k = Some slot /\ ss_stream_id slot = id
    /\ forall leg, ss_arrival slot <> Arrived leg;
  so_limit : (streams <= max_streams limits)%N;
  so_peer_limit p : (mcount (fun slot => ss_peer slot = p) slots <= max_streams_per_peer limits)%N;
  so_room_limit g : (mcount (fun slot => ss_room slot = g) slots <= max_streams_per_room limits)%N;
}.

Lemma fetch_add_small x : (x < max_streams_per_room limits)%N -> fetch_add x 1 = (x + 1)%N.
Proof. intros Hx. unfold fetch_add. pose proof usize_limit as Hf. unfold fits, umax in Hf. apply N.mod_small. lia. Qed.

Lemma fetch_sub_add x : (x + 1 <= max_streams_per_room limits)%N -> fetch_sub (x + 1) 1 = x.
Proof.
  intros Hx. unfold fetch_sub. pose proof usize_limit as Hf. unfold fits, umax in Hf.
  rewrite (N.mod_small 1) by done. replace (x + 1 + (2 ^ 64 - 1))%N with (x + 1 * 2 ^ 64)%N by lia.
  rewrite N.Div0.mod_add. apply N.mod_small. lia.
Qed.

Lemma streams_new_room slots pending peer_streams streams counts g :
  streams_ok slots pending peer_streams streams counts -> counts !! g = None ->
  streams_ok slots pending peer_streams streams (<[g := 0%N]> counts).
Proof.
  intros [H1 H2 H3 H4 H5 H6 H7 H8] Hg. split; try done.
  - intros g' n [[<- <-]|[_ Hn]]%lookup_insert_Some; [|by apply H3].
    rewrite (mcount_ext _ (fun _ => False)).
    + unfold mcount. rewrite map_empty_filter_2 by (intros ? ? ? []). by rewrite map_size_empty.
    + intros k slot Hk. split; [|done]. intros <-. apply H4 in Hk. rewrite Hg in Hk. by destruct Hk.
  - intros k slot Hk. apply lookup_insert_is_Some'. right. by eapply H4.
Qed.

Lemma streams_admit slots pending peer_streams streams counts g n peer id key :
  streams_ok slots pending peer_streams streams counts -> counts !! g = Some n -> slots !! key = None ->
  (n < max_streams_per_room limits)%N -> (count_of peer_streams peer < max_streams_per_peer limits)%N ->
  (streams < max_streams limits)%N ->
  streams_ok (<[key := mkStreamSlot g peer id Waiting]> slots) (<[id := key]> pending)
    (entry_update peer 0%N (N.add 1) peer_streams) (1 + streams) (<[g := fetch_add n 1]> counts).
Proof.
  intros Hok Hg Hk Hn Hp Hs. pose proof Hok as [H1 H2 H3 H4 H5 H6 H7 H8].
  pose proof (fun P HP => mcount_insert P (H0 := HP) slots key (mkStreamSlot g peer id Waiting) Hk) as Hins. cbn in Hins.
  split.
  - rewrite map_size_insert_None by done. lia.
  - eapply counts_ok_add; [exact H2|]. intros p. by rewrite Hins.
  - intros g' n' [[<- <-]|[Hne Hn']]%lookup_insert_Some; rewrite Hins; cbn.
    + rewrite decide_True by done. rewrite fetch_add_small by done. by rewrite (H3 _ _ Hg).
    + rewrite decide_False by done. rewrite (H3 _ _ Hn'). lia.
  - intros k slot [[<- <-]|[Hne Hslot]]%lookup_insert_Some; cbn; [by rewrite lookup_insert_eq|].
    apply lookup_insert_is_Some'. right. by eapply H4.
  - intros id' k [[<- <-]|[Hne Hid]]%lookup_insert_Some; [exists (mkStreamSlot g peer id Waiting); by rewrite lookup_insert_eq|].
    destruct (H5 _ _ Hid) as (slot & Hslot & ?). exists slot. rewrite lookup_insert_ne; [done|]. intros <-. congruence.
  - lia.
  - intros p. rewrite Hins. cbn. pose proof (H7 p). case_decide as Hd; [|lia]. subst. destruct (H2 p) as [Hc _]. lia.
  - intros g'. rewrite Hins. cbn. pose proof (H8 g'). case_decide as Hd; [|lia]. subst. rewrite <- (H3 _ _ Hg). lia.
Qed.

Lemma streams_drop slots pending peer_streams streams counts key slot :
  streams_ok slots pending peer_streams streams counts -> slots !! key = Some slot ->
  streams_ok (delete key slots) (delete (ss_stream_id slot) pending) (decrement peer_streams (ss_peer slot)) (streams - 1)
    (alter (fun n => fetch_sub n 1) (ss_room slot) counts).
Proof.
  intros Hok Hk. pose proof Hok as [H1 H2 H3 H4 H5 H6 H7 H8]. split.
  - rewrite map_size_delete_Some by done. lia.
  - eapply counts_ok_sub; [exact H2|]. intros p. cbn beta. by rewrite (mcount_delete _ slots key slot Hk).
  - intros g n Hn. pose proof (mcount_delete (fun slot => ss_room slot = g) slots key slot Hk) as Hg. pose proof (H8 g) as Hlim. cbn beta in Hg.
    destruct (decide (ss_room slot = g)) as [<-|Hne].
    + rewrite lookup_alter_eq in Hn. destruct (counts !! ss_room slot) as [n0|] eqn:Hn0; [|done]. injection Hn as <-.
      rewrite (H3 _ _ Hn0), Hg. apply fetch_sub_add. lia.
    + rewrite lookup_alter_ne in Hn by done. rewrite (H3 _ _ Hn). lia.
  - intros k slot' [_ Hslot]%lookup_delete_Some. destruct (H4 _ _ Hslot) as [n Hn].
    destruct (decide (ss_room slot = ss_room slot')) as [->|]; [rewrite lookup_alter_eq, Hn; by eexists|rewrite lookup_alter_ne; eauto].
  - intros id k [Hne Hid]%lookup_delete_Some. destruct (H5 _ _ Hid) as (slot' & Hslot & Hsid & Harr).
    exists slot'. split; [|done]. rewrite lookup_delete_ne; [done|]. intros <-. congruence.
  - lia.
  - intros p. pose proof (H7 p) as Hp. rewrite (mcount_delete _ slots key slot Hk) in Hp. lia.
  - intros g. pose proof (H8 g) as Hg. rewrite (mcount_delete _ slots key slot Hk) in Hg. lia.
Qed.

Lemma streams_unpend slots pending peer_streams streams counts id :
  streams_ok slots pending peer_streams streams counts -> streams_ok slots (delete id pending) peer_streams streams counts.
Proof. intros [H1 H2 H3 H4 H5 H6 H7 H8]. split; try done. intros id' k [_ Hid]%lookup_delete_Some. by apply H5. Qed.

(** The leg of a slot that is not pending, and the closing of its channel *)
Lemma streams_arrival slots pending peer_streams streams counts key a :
  streams_ok slots pending peer_streams streams counts ->
  (forall leg, a = Arrived leg -> forall id, pending !! id <> Some key) ->
  streams_ok (alter (fun slot => slot <| ss_arrival := a |>) key slots) pending peer_streams streams counts.
Proof.
  intros [H1 H2 H3 H4 H5 H6 H7 H8] Ha.
  assert (size (alter (fun slot : StreamSlot Leg => slot <| ss_arrival := a |>) key slots) = size slots) as Hsize.
  { rewrite <- (map_size_fmap (fun _ => tt) slots), <- (map_size_fmap (fun _ => tt) (alter _ key slots)).
    by rewrite (fmap_alter_same (fun _ => tt)). }
  split; rewrite ?Hsize; try done.
  - eapply counts_ok_ext; [exact H2|]. intros p. by apply mcount_alter.
  - intros g n Hn. rewrite mcount_alter by done. by apply H3.
  - intros k slot Hslot. destruct (decide (key = k)) as [<-|Hne].
    + rewrite lookup_alter_eq in Hslot. destruct (slots !! key) as [s0|] eqn:Hs; [|done]. injection Hslot as <-. exact (H4 key s0 Hs).
    + rewrite lookup_alter_ne in Hslot by done. by eapply H4.
  - intros id k Hid. destruct (H5 _ _ Hid) as (slot & Hslot & Hsid & Harr). destruct (decide (key = k)) as [<-|Hne].
    + exists (slot <| ss_arrival := a |>). rewrite lookup_alter_eq, Hslot. split; [done|]. split; [done|].
      intros leg Hl. by eapply Ha.
    + exists slot. by rewrite lookup_alter_ne.
  - intros p. by rewrite mcount_alter.
  - intros g. by rewrite mcount_alter.
Qed.

(** ** Early data *)

Definition early_sum (m : gmap N EarlyData) : N := map_fold (fun _ early total => ed_bytes early + total)%N 0%N m.
Definition msum (m : gmap N N) : N := map_fold (fun _ n total => n + total)%N 0%N m.

Lemma early_sum_insert m k e : m !! k = None -> early_sum (<[k:=e]> m) = (ed_bytes e + early_sum m)%N.
Proof. intros Hk. unfold early_sum. apply (map_fold_insert_L (fun _ early total => ed_bytes early + total)%N); [|done]. intros. lia. Qed.

Lemma early_sum_delete m k e : m !! k = Some e -> early_sum m = (ed_bytes e + early_sum (delete k m))%N.
Proof. intros Hk. rewrite <- (insert_delete_id m k e Hk) at 1. apply early_sum_insert, lookup_delete_eq. Qed.

Lemma early_sum_update m k e e' : m !! k = Some e -> (early_sum (<[k:=e']> m) + ed_bytes e = ed_bytes e' + early_sum m)%N.
Proof.
  intros Hk. rewrite (early_sum_delete m k e Hk), <- (insert_delete_eq m k e'), early_sum_insert by apply lookup_delete_eq. lia.
Qed.

Lemma msum_insert m k n : m !! k = None -> msum (<[k:=n]> m) = (n + msum m)%N.
Proof. intros Hk. unfold msum. apply (map_fold_insert_L (fun _ n total => n + total)%N); [|done]. intros. lia. Qed.

Lemma msum_delete m k n : m !! k = Some n -> msum m = (n + msum (delete k m))%N.
Proof. intros Hk. rewrite <- (insert_delete_id m k n Hk) at 1. apply msum_insert, lookup_delete_eq. Qed.

Lemma msum_bound m b : (forall k n, m !! k = Some n -> n <= b)%N -> (msum m <= b * N.of_nat (size m))%N.
Proof.
  induction m as [|k n m Hk IH] using map_ind; intros Hb; [change (0 <= b * 0)%N; lia|].
  rewrite msum_insert, map_size_insert_None by done. pose proof (Hb k n (lookup_insert_eq _ _ _)).
  assert (msum m <= b * N.of_nat (size m))%N; [|lia]. apply IH. intros k' n' Hk'. apply (Hb k'). rewrite lookup_insert_ne; [done|congruence].
Qed.

(** The total is the sum of the handles.  Only the last chunk of each handle, read before the total reached its limit, can exceed
    the limit: [last] holds those chunks, none for a handle whose loop may read another. *)
Record early_ok (total : N) (early : gmap N EarlyData) (last : gmap N N) : Prop := {
  eo_sum : total = early_sum early;
  eo_last k n : last !! k = Some n -> (n <= max_chunk_data limits)%N
    /\ exists e, early !! k = Some e /\ (n <= ed_bytes e)%N /\ ed_reading e = false;
  eo_reading k e : early !! k = Some e -> ed_reading e = true -> (0 < max_early_data_bytes limits)%N;
  eo_bound : (early_sum early < max_early_data_bytes limits + msum last)%N \/ max_early_data_bytes limits = 0%N /\ early_sum early = 0%N;
}.

Lemma early_last_size total early last : early_ok total early last -> (N.of_nat (size last) <= N.of_nat (size early))%N.
Proof.
  intros [_ Hl _ _]. apply N2Z.inj_le. rewrite !nat_N_Z. apply inj_le. rewrite <- !size_dom. apply subseteq_size.
  intros k [n Hn]%elem_of_dom. destruct (Hl _ _ Hn) as (_ & e & He & _). apply elem_of_dom. eauto.
Qed.

(** The documented bound: at most one chunk over the limit per waiting stream *)
Lemma early_bounded total early last : early_ok total early last ->
  (total <= max_early_data_bytes limits + max_chunk_data limits * N.of_nat (size early))%N.
Proof.
  intros Hok. pose proof (early_last_size _ _ _ Hok) as Hs. destruct Hok as [-> Hl _ Hb].
  pose proof (msum_bound last (max_chunk_data limits) (fun k n Hn => proj1 (Hl k n Hn))). destruct Hb as [Hb|[_ ->]]; [nia|lia].
Qed.

Lemma early_new total early last k : early_ok total early last -> early !! k = None ->
  early_ok total (<[k := mkEarlyData 0 false]> early) last.
Proof.
  intros [H1 H2 H3 H4] Hk. split; rewrite ?early_sum_insert by done; try done.
  - intros k' n Hn. destruct (H2 _ _ Hn) as (Hn' & e & He & ?). split; [done|]. exists e.
    rewrite lookup_insert_ne; [done|]. intros <-. congruence.
  - by intros k' e [[<- <-]|[_ He]]%lookup_insert_Some; [|apply (H3 k')].
Qed.

(** Entering [select!], with room in the buffer or without *)
Lemma early_enter total early last k e : early_ok total early last -> early !! k = Some e ->
  let reading := bool_decide (total < max_early_data_bytes limits)%N in
  early_ok total (<[k := mkEarlyData (ed_bytes e) reading]> early) (if reading then delete k last else last).
Proof.
  intros [H1 H2 H3 H4] Hk reading. pose proof (early_sum_update early k e (mkEarlyData (ed_bytes e) reading) Hk) as Hu.
  cbn [ed_bytes] in Hu. assert (early_sum (<[k := mkEarlyData (ed_bytes e) reading]> early) = early_sum early) as Hs by lia.
  split; rewrite ?Hs; [done|..].
  - intros k' n Hn. assert (last !! k' = Some n /\ (k <> k' \/ reading = false)) as [Hlast Hkk].
    { destruct reading; [apply lookup_delete_Some in Hn as [??]; auto|auto]. }
    destruct (H2 _ _ Hlast) as (Hn' & e' & He & Hle & Hr). split; [done|]. destruct (decide (k = k')) as [<-|Hne].
    + destruct Hkk as [|Hf]; [done|]. exists (mkEarlyData (ed_bytes e) reading). rewrite lookup_insert_eq. assert (e' = e) as -> by congruence. done.
    + exists e'. by rewrite lookup_insert_ne.
  - intros k' e' [[<- <-]|[_ He]]%lookup_insert_Some; [|by apply (H3 k')]. cbn. unfold reading. case_bool_decide; [lia|done].
  - unfold reading. case_bool_decide; [left; lia|done].
Qed.

Lemma early_add total early last k e n : early_ok total early last -> early !! k = Some e -> ed_reading e = true ->
  (n <= max_chunk_data limits)%N ->
  early_ok (total + n) (<[k := mkEarlyData (ed_bytes e + n) false]> early) (<[k := n]> last).
Proof.
  intros [H1 H2 H3 H4] Hk Hr Hn. pose proof (early_sum_update early k e (mkEarlyData (ed_bytes e + n) false) Hk) as Hu. cbn [ed_bytes] in Hu.
  assert (last !! k = None) as Hl.
  { destruct (last !! k) as [m|] eqn:Hm; [|done]. destruct (H2 _ _ Hm) as (_ & e' & He & _ & Hf). congruence. }
  split; [lia| | |].
  - intros k' m [[<- <-]|[Hne Hm]]%lookup_insert_Some.
    + split; [done|]. exists (mkEarlyData (ed_bytes e + n) false). rewrite lookup_insert_eq. cbn. split; [done|]. split; [lia|done].
    + destruct (H2 _ _ Hm) as (Hn' & e' & He & ?). split; [done|]. exists e'. by rewrite lookup_insert_ne.
  - by intros k' e' [[<- <-]|[_ He]]%lookup_insert_Some; [|apply (H3 k')].
  - rewrite msum_insert by done. pose proof (H3 _ _ Hk Hr). left. lia.
Qed.

Lemma early_drop total early last k e : early_ok total early last -> early !! k = Some e ->
  early_ok (total - ed_bytes e) (delete k early) (delete k last).
Proof.
  intros [H1 H2 H3 H4] Hk. pose proof (early_sum_delete early k e Hk) as Hd. split; [lia|..].
  - intros k' n [Hne Hn]%lookup_delete_Some. destruct (H2 _ _ Hn) as (Hn' & e' & He & ?). split; [done|]. exists e'. by rewrite lookup_delete_ne.
  - intros k' e' [_ He]%lookup_delete_Some. by apply (H3 k').
  - destruct H4 as [H4|H4]; [left|right; lia]. destruct (last !! k) as [n|] eqn:Hn.
    + rewrite (msum_delete _ _ _ Hn) in H4. destruct (H2 _ _ Hn) as (_ & e' & He & Hle & _). simplify_eq. lia.
    + rewrite (delete_id last) by done. lia.
Qed.

(** ** The invariant *)

(** Every handle has a key already drawn, and early data belongs to a slot. *)
Record keys_ok (s : Proxy Leg) : Prop := {
  ky_slot k : is_Some (px_slot s !! k) -> (k < px_next_key s)%N;
  ky_registering k : is_Some (px_registering s !! k) -> (k < px_next_key s)%N;
  ky_early k : is_Some (px_early s !! k) -> is_Some (px_slot s !! k);
}.

Record proxy_ok (s : Proxy Leg) : Prop := {
  px_registering_ok : registering_ok (st_peer_pending_registrations (px_state s)) (st_pending_registrations (px_state s)) (px_registering s);
  px_rooms_ok : rooms_ok (st_rooms (px_state s)) (st_peer_rooms (px_state s)) (st_next_generation (px_state s))
    (face <$> px_room s) (px_registrations s) (px_cancelling s);
  px_streams_ok : streams_ok (px_slot s) (st_pending (px_state s)) (st_peer_streams (px_state s)) (st_streams (px_state s))
    (rm_streams <$> px_room s);
  px_early_ok : exists last, early_ok (px_early_data s) (px_early s) last;
  px_keys_ok : keys_ok s;
}.

Lemma new_ok : proxy_ok ProxyCore_new.
Proof.
  assert (forall (K A : Type) (E : EqDecision K) (C : Countable K) (P : A -> Prop) (D : forall x, Decision (P x)) (b : N),
    (mcount P (∅ : gmap K A) <= b)%N) as Hnone by (intros; rewrite mcount_empty; lia).
  split; cbn.
  - split; [done|done|done|lia|]. intros p. apply Hnone.
  - split; try done; try lia.
    + by intros g [f Hf].
    + by intros g [f Hf].
    + change (0 <= max_rooms limits)%N. lia.
  - split; try done; try lia; intros; apply Hnone.
  - exists ∅. split; try done. change (0 < max_early_data_bytes limits + 0 \/ max_early_data_bytes limits = 0 /\ 0 = 0)%N. lia.
  - split; cbn; intros k [x Hx]; done.
Qed.

Implicit Types s : Proxy Leg.

Lemma begin_ok s peer s' r : proxy_ok s -> begin_registration limits s peer = (s', r) -> proxy_ok s'.
Proof.
  intros [H1 H2 H3 H4 [K1 K2 K3]]. unfold begin_registration. case_decide as Hmax; [intros [= <- <-]; by split|].
  case_decide as Hpeer; intros [= <- <-]; split; cbn; try done.
  - by apply registering_entry.
  - apply registering_begin; [done|..|lia|].
    + apply eq_None_not_Some. intros Hk%K2. lia.
    + cbn in Hpeer. rewrite count_of_entry in Hpeer. lia.
  - split; cbn; [intros k Hk%K1; lia| |done].
    intros k [<-|Hk%K2]%lookup_insert_is_Some'; lia.
Qed.

Lemma register_ok s room_id hash peer s' r : proxy_ok s -> register_room limits s room_id hash peer = (s', r) -> proxy_ok s'.
Proof.
  intros Hok. pose proof Hok as [H1 H2 H3 H4 [K1 K2 K3]]. unfold register_room.
  destruct (px_shutdown s); [by intros [= <- <-]|]. destruct (_ && _) eqn:Hsize; [by intros [= <- <-]|].
  destruct (negb _ && _) eqn:Hheld; [by intros [= <- <-]|]. intros [= <- <-].
  set (f := mkFace room_id peer false false).
  assert ((st_rooms (px_state s) !! room_id ≫= fun g => (face <$> px_room s) !! g)
    = face <$> (st_rooms (px_state s) !! room_id ≫= fun g => px_room s !! g)) as Hold.
  { destruct (st_rooms (px_state s) !! room_id); cbn; [apply lookup_fmap|done]. }
  split; cbn; try done.
  - pose proof (rooms_register _ _ _ _ _ _ f H2 eq_refl eq_refl) as Hreg. cbn [fc_id fc_peer f] in Hreg.
    rewrite fmap_insert. rewrite Hold in Hreg.
    assert (forall (o : option Room) m, match face <$> o with Some f => decrement m (fc_peer f) | None => m end
      = match o with Some old => decrement m (rm_peer old) | None => m end) as Hdec by by intros [].
    rewrite Hdec in Hreg. destruct (st_rooms (px_state s) !! room_id) as [gp|] eqn:Hp.
    + apply Hreg; [done|]. intros Hne. cbn [mbind option_bind] in *. destruct (px_room s !! gp) as [old|]; cbn in *.
      * apply andb_false_iff in Hheld as [Hheld|Hheld]; [|apply bool_decide_eq_false in Hheld; lia].
        apply negb_false_iff, bool_decide_eq_true in Hheld. congruence.
      * apply bool_decide_eq_false in Hheld. lia.
    + apply Hreg; [intros _|intros _]; cbn in *; [apply bool_decide_eq_false in Hsize; lia|apply bool_decide_eq_false in Hheld; lia].
  - rewrite fmap_insert. apply streams_new_room; [done|]. rewrite lookup_fmap.
    destruct (px_room s !! (st_next_generation (px_state s) + 1)%N) as [room|] eqn:Hroom; [|done].
    assert (is_Some ((face <$> px_room s) !! (st_next_generation (px_state s) + 1)%N)) as Ho by by rewrite lookup_fmap, Hroom.
    apply (ro_old _ _ _ _ _ _ H2) in Ho. lia.
Qed.

Lemma evict_ok s g room : proxy_ok s -> px_room s !! g = Some room -> proxy_ok (drop_registration s g room).
Proof.
  intros [H1 H2 H3 H4 [K1 K2 K3]] Hroom.
  assert ((face <$> px_room s) !! g = Some (face room)) as Hface by by rewrite lookup_fmap, Hroom.
  pose proof (rooms_evict _ _ _ _ _ _ _ _ H2 Hface) as He. cbn [fc_id fc_peer face] in He. unfold drop_registration.
  case_bool_decide; by split.
Qed.

Lemma cancel_ok s g replaced : proxy_ok s -> px_cancelling s !! g = Some replaced -> proxy_ok (cancel_room s g replaced).
Proof.
  intros [H1 H2 H3 H4 [K1 K2 K3]] Hg. split; cbn; try done.
  - rewrite (fmap_alter_comm face _ (fun f => mkFace (fc_id f) (fc_peer f) true (replaced || fc_replaced f))) by done.
    by apply rooms_cancel.
  - by rewrite fmap_alter_same.
Qed.

(** An update of a room that touches neither its identity nor its stream count *)
Lemma room_update_ok s (f : Room -> Room) g : (forall room, face (f room) = face room) -> (forall room, rm_streams (f room) = rm_streams room) ->
  proxy_ok s -> proxy_ok (s <| px_room ::= alter f g |>).
Proof. intros Hf Hs [H1 H2 H3 H4 [K1 K2 K3]]. split; cbn; try done; by rewrite fmap_alter_same. Qed.

Lemma try_send_face room id room' : try_send room id = inl room' -> face room' = face room /\ rm_streams room' = rm_streams room.
Proof. unfold try_send. destruct (negb _); [done|]. case_decide; [done|]. by intros [= <-]. Qed.

Lemma admit_ok s room_id token peer draws s' r : proxy_ok s ->
  admit_stream limits s room_id token peer draws = Some (s', r) -> proxy_ok s'.
Proof.
  intros Hok. pose proof Hok as [H1 H2 H3 H4 [K1 K2 K3]]. unfold admit_stream. destruct (px_shutdown s); [by intros [= <- <-]|].
  destruct (st_rooms (px_state s) !! room_id ≫= _) as [[g room]|] eqn:Hfound; [|by intros [= <- <-]].
  apply bind_Some in Hfound as (g' & Hg' & Hfound). apply bind_Some in Hfound as (room' & Hroom' & Hfound).
  destruct (open_token_matches _ _); [|done]. injection Hfound as -> ->.
  case_decide as Hr; [by intros [= <- <-]|]. case_decide as Hp; [by intros [= <- <-]|].
  case_decide as Hs; [by intros [= <- <-]|]. destruct (find_first _ draws) as [id|] eqn:Hid; [|done]. cbn [mbind option_bind].
  destruct (try_send room id) as [room'|] eqn:Hsend; [|by intros [= <- <-]]. intros [= <- <-].
  apply try_send_face in Hsend as [Hface Hstreams].
  assert (px_slot s !! px_next_key s = None) as Hfresh by (apply eq_None_not_Some; intros Hk%K1; lia).
  split; cbn; try done.
  - rewrite (fmap_insert_same face g room); [done|done|]. by rewrite <- Hface.
  - rewrite fmap_insert. cbn. rewrite Hstreams. apply streams_admit; try done; [by rewrite lookup_fmap, Hroom'|lia..].
  - split; cbn; [|intros k Hk%K2; lia|].
    + intros k [<-|Hk%K1]%lookup_insert_is_Some'; lia.
    + intros k Hk%K3. apply lookup_insert_is_Some'. by right.
Qed.

Lemma drop_slot_ok s key slot : proxy_ok s -> px_slot s !! key = Some slot -> px_early s !! key = None -> proxy_ok (drop_slot s key slot).
Proof.
  intros [H1 H2 H3 H4 [K1 K2 K3]] Hk He. split; cbn; try done.
  - by rewrite fmap_alter_same.
  - rewrite (fmap_alter_comm rm_streams _ (fun n => fetch_sub n 1)) by done. by apply streams_drop.
  - split; cbn; [|done|].
    + intros k [_ Hs]%lookup_delete_is_Some. by apply K1.
    + intros k Hs. apply lookup_delete_is_Some. split; [|by apply K3]. intros <-. rewrite He in Hs. by destruct Hs.
Qed.

Lemma arrival_ok s key a : proxy_ok s -> (forall leg, a = Arrived leg -> forall id, st_pending (px_state s) !! id <> Some key) ->
  proxy_ok (s <| px_slot ::= alter (fun slot => slot <| ss_arrival := a |>) key |>).
Proof.
  intros [H1 H2 H3 H4 [K1 K2 K3]] Ha. split; cbn; try done; [by apply streams_arrival|].
  split; cbn; [|done|].
  - intros k Hs%lookup_alter_is_Some. by apply K1.
  - intros k Hs%K3. by apply lookup_alter_is_Some.
Qed.

Lemma unpend_ok s id : proxy_ok s -> proxy_ok (s <| px_state ::= fun state => state <| st_pending ::= delete id |> |>).
Proof. intros [H1 H2 H3 H4 [K1 K2 K3]]. split; cbn; try done. by apply streams_unpend. Qed.

Lemma deliver_ok s id leg s' r : proxy_ok s -> deliver_accept s id leg = (s', r) -> proxy_ok s'.
Proof.
  intros Hok. unfold deliver_accept. destruct (st_pending (px_state s) !! id) as [key|] eqn:Hp; [|by intros [= <- <-]].
  pose proof (unpend_ok s id Hok) as Hun. destruct (px_slot s !! key) as [[g peer sid []]|] eqn:Hslot; cbn; rewrite Hslot;
    intros [= <- <-]; try done.
  refine (arrival_ok (s <| px_state ::= fun state => state <| st_pending ::= delete id |> |>) key (Arrived leg) Hun _).
  intros _ _ id'. cbn. intros [Hne Hid']%lookup_delete_Some. pose proof (px_streams_ok _ Hok) as Hs.
  destruct (so_pending _ _ _ _ _ Hs _ _ Hp) as (slot & Hslot1 & <- & _), (so_pending _ _ _ _ _ Hs _ _ Hid') as (slot' & Hslot2 & <- & _).
  congruence.
Qed.

(** What the handles of early data hold never reaches the width of the counter. *)
Lemma early_within s total (early : gmap N EarlyData) last : proxy_ok s -> size early = size (px_early s) ->
  early_ok total early last -> (total < 2 ^ 64)%N.
Proof.
  intros [H1 H2 H3 _ [K1 K2 K3]] Heq Hok. pose proof (early_bounded _ _ _ Hok) as Hb. rewrite Heq in Hb.
  assert (size (px_early s) <= size (px_slot s)) as Hsize.
  { rewrite <- !size_dom. apply subseteq_size. intros k Hin%elem_of_dom%K3. by apply elem_of_dom. }
  pose proof (so_limit _ _ _ _ _ H3) as Hlim. rewrite (so_streams _ _ _ _ _ H3) in Hlim.
  pose proof early_fits as Hf. unfold fits, umax in Hf.
  assert (max_chunk_data limits * N.of_nat (size (px_early s)) <= max_chunk_data limits * max_streams limits)%N; [|lia].
  apply N.mul_le_mono_l. lia.
Qed.

Lemma early_add_exact s key e n : proxy_ok s -> px_early s !! key = Some e -> ed_reading e = true -> (n <= max_chunk_data limits)%N ->
  fetch_add (px_early_data s) n = (px_early_data s + n)%N.
Proof.
  intros Hok Hk Hr Hn. unfold fetch_add. apply N.mod_small. destruct (px_early_ok _ Hok) as [last H4].
  eapply early_within; [exact Hok| |by eapply early_add]. by rewrite map_size_insert_Some by eauto.
Qed.

Lemma early_drop_exact s key e : proxy_ok s -> px_early s !! key = Some e ->
  fetch_sub (px_early_data s) (ed_bytes e) = (px_early_data s - ed_bytes e)%N.
Proof.
  intros Hok Hk. destruct (px_early_ok _ Hok) as [last H4]. pose proof (early_within _ _ _ _ Hok eq_refl H4) as Hlt.
  pose proof (early_sum_delete _ _ _ Hk) as Hd. rewrite <- (eo_sum _ _ _ H4) in Hd. unfold fetch_sub.
  rewrite (N.mod_small (ed_bytes e)) by lia.
  replace (px_early_data s + (2 ^ 64 - ed_bytes e))%N with (px_early_data s - ed_bytes e + 1 * 2 ^ 64)%N by lia.
  rewrite N.Div0.mod_add. apply N.mod_small. lia.
Qed.

Lemma early_step_ok s s' : proxy_ok s -> forall label, proxy_step limits s label s' ->
  (match label with LEarly _ | LEarlySelect _ | LEarlyAdd _ _ | LEarlyDrop _ => True | _ => False end) -> proxy_ok s'.
Proof.
  intros Hok label Hstep Hl. pose proof Hok as [H1 H2 H3 [last H4] [K1 K2 K3]]. destruct Hstep; try done.
  - split; cbn; try done; [eexists; by apply early_new|]. split; cbn; [done|done|].
    intros k [<-|Hk]%lookup_insert_is_Some'; [done|by apply K3].
  - split; cbn; try done; [eexists; by eapply early_enter|]. split; cbn; [done|done|].
    intros k [<-|Hk]%lookup_insert_is_Some'; apply K3; eauto.
  - split; cbn; try done.
    + rewrite (early_add_exact s key early bytes) by done. eexists. by apply early_add.
    + split; cbn; [done|done|]. intros k [<-|Hk]%lookup_insert_is_Some'; apply K3; eauto.
  - split; cbn; try done.
    + rewrite (early_drop_exact s key early) by done. eexists. by eapply early_drop.
    + split; cbn; [done|done|]. intros k [_ Hk]%lookup_delete_is_Some. by apply K3.
Qed.

Lemma step_ok s label s' : proxy_ok s -> proxy_step limits s label s' -> proxy_ok s'.
Proof.
  intros Hok Hstep. pose proof (early_step_ok s s' Hok label Hstep) as Hearly. destruct Hstep; try (by apply Hearly).
  - by eapply begin_ok.
  - destruct Hok as [H1 H2 H3 H4 [K1 K2 K3]]. split; cbn; try done; [by apply registering_end|].
    split; cbn; [done| |done]. intros k [_ Hs]%lookup_delete_is_Some. by apply K2.
  - by eapply register_ok.
  - by apply evict_ok.
  - by apply cancel_ok.
  - by apply room_update_ok.
  - by eapply admit_ok.
  - by apply drop_slot_ok.
  - unfold expire_pending in *. simplify_eq. by apply unpend_ok.
  - by eapply deliver_ok.
  - by apply room_update_ok.
  - by apply room_update_ok.
  - by apply arrival_ok.
  - by destruct Hok as [H1 H2 H3 H4 [K1 K2 K3]].
Qed.

Lemma run_ok s labels s' : proxy_ok s -> proxy_run limits s labels s' -> proxy_ok s'.
Proof. intros Hok Hrun. induction Hrun as [|s s1 s2 labels label _ IH Hstep]; [done|]. exact (step_ok _ _ _ (IH Hok) Hstep). Qed.

Lemma reachable_ok s : reachable limits s -> proxy_ok s.
Proof. intros [labels Hrun]. eapply run_ok; [apply new_ok|done]. Qed.
End invariant.
