(* ===== verification/RelayStream.v ===== *)
(** * The relay's streams ([hya-relay/src/proxy/host.rs], [stream.rs])

    The host's registration and control loop, the opener's wait for its host, and the splice of the two legs.  A loop is a
    step on what it received and on whether its send was taken; the frames it sent are kept in the order sent. *)

From stdpp Require Import pretty.
From S2P Require Import Prelude Result RustStr Text RelayLink RelayProxy.

(** ** Frames ([hya.relay.v1]) *)

Record Heartbeat := mkHeartbeat { hb_seq : N; hb_pong : bool }.
Record Register := mkRegister { rg_ed25519_pubkey : string; rg_signature : string; rg_open_token_hash : string }.
Record UpdateOpenToken := mkUpdateOpenToken { ut_open_token_hash : string; ut_signature : string }.

Module HostFrame.
Inductive t := Register (r : Register) | Heartbeat (h : Heartbeat) | UpdateOpenToken (u : UpdateOpenToken).
End HostFrame.

Module ProxyToHost.
Inductive t := Challenge (nonce : string) | Registered (room_id : string) | Heartbeat (h : Heartbeat) | Incoming (stream_id : string)
  | Error (e : RelayError) | OpenTokenUpdated.
End ProxyToHost.

Module Chunk.
Inductive t := Open (room_id open_token : string) | Accept (stream_id : string) | Data (bytes : string) | Close
  | Heartbeat (h : Heartbeat) | Error (e : RelayError) | Opened.
End Chunk.

(** How a send ended within its deadline *)
Inductive SendResult := Sent | Gone | Stalled.

(** What [transport.next()] gave: a timeout, the end of the stream, an error (with a status or not), or a frame, which may be
    empty *)
Inductive Next (Frame : Type) := NextIdle | NextEnd | NextStatus (code : RelayErrorCode.t) (message : string) | NextFailed
  | NextChunk (frame : option Frame).
Arguments NextIdle {Frame}.
Arguments NextEnd {Frame}.
Arguments NextStatus {Frame} code message.
Arguments NextFailed {Frame}.
Arguments NextChunk {Frame} frame.

(** ** Registration *)

(** [ed25519_dalek]: keys and strict verification of a message and its signature *)
Class Ed25519 := {
  VerifyingKey : Type;
  from_bytes : string -> option VerifyingKey;
  verify_strict : VerifyingKey -> string -> string -> bool;
}.

Definition REGISTER_SIGNING_CONTEXT : string := "hya.relay.v1/register/v2" +:+ String (ascii_of_nat 0) EmptyString.
Definition UPDATE_OPEN_TOKEN_SIGNING_CONTEXT : string := "hya.relay.v1/update-open-token/v1" +:+ String (ascii_of_nat 0) EmptyString.
Definition signing_message (context nonce hash : string) : string := context +:+ nonce +:+ hash.
Definition register_signing_message (nonce open_token_hash : string) : string :=
  signing_message REGISTER_SIGNING_CONTEXT nonce open_token_hash.
Definition update_open_token_signing_message (nonce open_token_hash : string) : string :=
  signing_message UPDATE_OPEN_TOKEN_SIGNING_CONTEXT nonce open_token_hash.

Definition unauthenticated (message : string) : RelayError := RelayError_new RelayErrorCode.Unauthenticated message.

Definition token_hash (bytes : string) : string + RelayError :=
  if decide (String.length bytes = 32) then inl bytes
  else inr (RelayError_new RelayErrorCode.InvalidArgument "open_token_hash must be 32 bytes (upgrade the host)").

Definition signature (bytes : string) : string + RelayError :=
  if decide (String.length bytes = 64) then inl bytes else inr (unauthenticated "ed25519 signature must be 64 bytes").

Section host.
Context `{L : RelayLib} `{E : Ed25519}.

Record Verified := mkVerified { vf_room_id : string; vf_key : VerifyingKey; vf_open_token_hash : string }.

Definition verify_registration (nonce : string) (register : Register) : Verified + RelayError :=
  let? open_token_hash := token_hash (rg_open_token_hash register) in
  let? key := if decide (String.length (rg_ed25519_pubkey register) = 32) then inl (rg_ed25519_pubkey register)
              else inr (unauthenticated "ed25519 public key must be 32 bytes") in
  let? signature := signature (rg_signature register) in
  match from_bytes key with
  | None => inr (unauthenticated "invalid ed25519 key")
  | Some verifying_key =>
      if verify_strict verifying_key (register_signing_message nonce open_token_hash) signature
      then inl (mkVerified (RoomId_from_ed25519 key) verifying_key open_token_hash)
      else inr (unauthenticated "registration signature does not verify")
  end.

Definition verify_update (nonce : string) (key : VerifyingKey) (update : UpdateOpenToken) : string + RelayError :=
  let? open_token_hash := token_hash (ut_open_token_hash update) in
  let? signature := signature (ut_signature update) in
  if verify_strict key (update_open_token_signing_message nonce open_token_hash) signature then inl open_token_hash
  else inr (unauthenticated "open token update signature does not verify").

(** [register]: what the first frame after the challenge leads to; [inr None] when the host went away.  [shutdown] is the branch of
    the cancelled proxy, and [challenge] how the challenge was taken. *)
Definition register {Leg} (limits : ProxyLimits) (s : Proxy Leg) (nonce peer : string) (challenge : SendResult) (shutdown : bool)
    (first : Next HostFrame.t) : Proxy Leg * ((N * option N * Verified) + option RelayError) :=
  match challenge with
  | Gone | Stalled => (s, inr None)
  | Sent =>
      if shutdown then (s, inr (Some shutting_down)) else
      match first with
      | NextIdle => (s, inr (Some (RelayError_new RelayErrorCode.DeadlineExceeded "registration timed out")))
      | NextEnd | NextStatus _ _ | NextFailed => (s, inr None)
      | NextChunk (Some (HostFrame.Register register)) =>
          match verify_registration nonce register with
          | inr error => (s, inr (Some error))
          | inl verified =>
              let '(s, registered) := register_room limits s (vf_room_id verified) (vf_open_token_hash verified) peer in
              (s, match registered with inl (generation, previous) => inl (generation, previous, verified) | inr error => inr (Some error) end)
          end
      | NextChunk _ => (s, inr (Some (RelayError_new RelayErrorCode.InvalidArgument "the first host frame must be `register`")))
      end
  end.

(** One turn of [run_host]'s loop on a registered room: the room's token was cancelled, the stream is idle, a stream id arrived to
    announce, or the transport gave something. *)
Inductive HostEvent := HostCancelled (e : RelayError) | HostIdle | HostIncoming (stream_id : string) | HostNext (next : Next HostFrame.t).

(** What a turn sends, the token hash it sets, and the outcome that ends the loop *)
Record HostTurn := mkHostTurn { ht_frame : option ProxyToHost.t; ht_token : option string; ht_outcome : option (option RelayError) }.

Definition host_stalled : RelayError := RelayError_new RelayErrorCode.DeadlineExceeded "host stopped reading its control stream".

Definition host_send (frame : ProxyToHost.t) (token : option string) (send : SendResult) : HostTurn :=
  mkHostTurn (match send with Sent => Some frame | _ => None end) token
    (match send with Sent => None | Gone => Some None | Stalled => Some (Some host_stalled) end).

Definition host_end (outcome : option RelayError) : HostTurn := mkHostTurn None None (Some outcome).

Definition host_turn (nonce : string) (key : VerifyingKey) (event : HostEvent) (send : SendResult) : HostTurn :=
  match event with
  | HostCancelled error => host_end (Some error)
  | HostIdle => host_end (Some (RelayError_new RelayErrorCode.DeadlineExceeded "host control stream idle"))
  | HostIncoming stream_id => host_send (ProxyToHost.Incoming stream_id) None send
  | HostNext (NextChunk (Some (HostFrame.Heartbeat (mkHeartbeat seq false)))) =>
      host_send (ProxyToHost.Heartbeat (mkHeartbeat seq true)) None send
  | HostNext (NextChunk (Some (HostFrame.Heartbeat _))) => mkHostTurn None None None
  | HostNext (NextChunk (Some (HostFrame.UpdateOpenToken update))) =>
      match verify_update nonce key update with
      | inl hash => host_send ProxyToHost.OpenTokenUpdated (Some hash) send
      | inr error => host_end (Some error)
      end
  | HostNext (NextChunk (Some (HostFrame.Register _))) =>
      host_end (Some (RelayError_new RelayErrorCode.FailedPrecondition "the room is already registered on this stream"))
  | HostNext (NextChunk None) => host_end (Some (RelayError_new RelayErrorCode.InvalidArgument "empty host frame"))
  | HostNext _ => host_end None
  end.
End host.

(** ** Data streams *)

Definition pong (seq : N) : Chunk.t := Chunk.Heartbeat (mkHeartbeat seq true).

Section stream.
Context (limits : ProxyLimits).

Definition oversized : RelayError :=
  RelayError_new RelayErrorCode.ResourceExhausted ("chunk data exceeds the " +:+ pretty (max_chunk_data limits) +:+ " byte limit").
Definition too_large (bytes : string) : bool := bool_decide (max_chunk_data limits < N.of_nat (String.length bytes))%N.

(** [first_frame] *)
Definition first_frame (shutdown : bool) (next : Next Chunk.t) : Chunk.t + option RelayError :=
  if shutdown then inr (Some shutting_down) else
  match next with
  | NextIdle => inr (Some (RelayError_new RelayErrorCode.DeadlineExceeded "no handshake frame in time"))
  | NextEnd | NextStatus _ _ | NextFailed => inr None
  | NextChunk (Some frame) => inl frame
  | NextChunk None => inr (Some (RelayError_new RelayErrorCode.InvalidArgument "empty handshake frame"))
  end.

(** [run_accept] after its first frame: the leg delivered, or the error it ends with *)
Definition run_accept {Leg} (s : Proxy Leg) (first : Chunk.t + option RelayError) (leg : Leg) : Proxy Leg * (unit + option RelayError) :=
  match first with
  | inr error => (s, inr error)
  | inl (Chunk.Accept stream_id) =>
      let '(s, delivered) := deliver_accept s stream_id leg in
      (s, match delivered with
          | inl _ => inl tt
          | inr _ => inr (Some (RelayError_new RelayErrorCode.NotFound "unknown, expired, or already accepted stream id"))
          end)
  | inl _ => (s, inr (Some (RelayError_new RelayErrorCode.InvalidArgument "the first frame of an Accept stream must be `accept`")))
  end.

(** [run_open] up to its slot *)
Definition run_open `{L : RelayLib} {Leg} (s : Proxy Leg) (first : Chunk.t + option RelayError) (peer : string) (draws : list string)
    : option (Proxy Leg * (N + option RelayError)) :=
  match first with
  | inr error => Some (s, inr error)
  | inl (Chunk.Open room_id open_token) =>
      match RoomId_parse room_id with
      | inr _ => Some (s, inr (Some (RelayError_new RelayErrorCode.InvalidArgument "malformed room id")))
      | inl _ =>
          '(s, admitted) ← admit_stream limits s room_id open_token peer draws;
          Some (s, match admitted with inl key => inl key | inr error => inr (Some error) end)
      end
  | inl _ => Some (s, inr (Some (RelayError_new RelayErrorCode.InvalidArgument "the first frame of an Open stream must be `open`")))
  end.

(** *** The opener's wait *)

(** What is buffered for the host, and the pongs sent to the opener *)
Record Wait := mkWait { wt_early : list Chunk.t; wt_bytes : N; wt_closed : bool; wt_deadline_passed : bool; wt_answered : list Chunk.t }.
#[export] Instance Wait_eta : EtaRecord Wait := fun w => {| wt_early := wt_early w; wt_bytes := wt_bytes w; wt_closed := wt_closed w;
  wt_deadline_passed := wt_deadline_passed w; wt_answered := wt_answered w |}.

Definition wait_start : Wait := mkWait [] 0 false false [].

(** The branches of its [select!]: the room's token, the host leg or the loss of its sender, the deadline with the answer of
    [expire_pending], and the opener *)
Inductive WaitEvent := WaitCancelled (closed : RelayError) | WaitLeg | WaitLost (closed : RelayError) | WaitDeadline (expired : bool)
  | WaitNext (next : Next Chunk.t).

(** [WaitOn] goes on waiting, [WaitSpliced] has its leg, [WaitFail] ends with an error for the opener and [WaitEnd] without. *)
Inductive WaitTurn := WaitOn (w : Wait) | WaitSpliced (w : Wait) | WaitFail (e : RelayError) | WaitEnd.

(** The opener is read, without a deadline, while it is open, under its own limit and [available] under the proxy's. *)
Definition wait_reads (available : bool) (w : Wait) : bool :=
  negb (wt_closed w) && bool_decide (wt_bytes w < early_data_limit limits)%N && available.

Definition wait_turn (w : Wait) (event : WaitEvent) (send : SendResult) : WaitTurn :=
  match event with
  | WaitCancelled closed | WaitLost closed => WaitFail closed
  | WaitLeg => WaitSpliced w
  | WaitDeadline expired =>
      if expired then WaitFail (RelayError_new RelayErrorCode.Unavailable "the host did not accept the stream in time")
      else WaitOn (w <| wt_deadline_passed := true |>)
  | WaitNext (NextEnd | NextChunk (Some Chunk.Close)) => WaitOn (w <| wt_closed := true |> <| wt_early ::= fun l => l ++ [Chunk.Close] |>)
  | WaitNext (NextStatus _ _ | NextFailed) => WaitEnd
  | WaitNext NextIdle => WaitOn w
  | WaitNext (NextChunk (Some (Chunk.Data bytes))) =>
      if too_large bytes then WaitFail oversized
      else WaitOn (w <| wt_bytes ::= N.add (N.of_nat (String.length bytes)) |> <| wt_early ::= fun l => l ++ [Chunk.Data bytes] |>)
  | WaitNext (NextChunk (Some (Chunk.Heartbeat (mkHeartbeat seq false)))) =>
      match send with
      | Sent => WaitOn (w <| wt_answered ::= fun l => l ++ [pong seq] |>)
      | Gone => WaitOn w
      | Stalled => WaitEnd
      end
  | WaitNext (NextChunk (Some (Chunk.Heartbeat _))) => WaitOn w
  | WaitNext (NextChunk (Some (Chunk.Error _))) => WaitEnd
  | WaitNext (NextChunk _) => WaitFail (RelayError_new RelayErrorCode.InvalidArgument "unexpected frame on an Open stream")
  end.

(** *** The splice *)

Inductive Fault := Both (e : RelayError) | ToDestination (e : RelayError) | ToSource (e : RelayError).
#[export] Instance Fault_eq_dec : EqDecision Fault.
Proof. solve_decision. Defined.

Definition stalled : Fault := Both (RelayError_new RelayErrorCode.DeadlineExceeded "a stream peer stopped reading").
Definition gone (sent_to_destination : bool) : Fault :=
  let error := RelayError_new RelayErrorCode.Unavailable "the other side went away" in
  if sent_to_destination then ToSource error else ToDestination error.

(** What one turn of [pump] sends to its destination and answers its source, and how it ends the pump *)
Record PumpTurn := mkPumpTurn { pt_forwarded : option Chunk.t; pt_answered : option Chunk.t; pt_result : option (unit + Fault) }.

Definition forward (frame : Chunk.t) (send : SendResult) : option Chunk.t * option Fault :=
  match send with Sent => (Some frame, None) | Gone => (None, Some (gone true)) | Stalled => (None, Some stalled) end.

Definition pump_fault (fault : Fault) : PumpTurn := mkPumpTurn None None (Some (inr fault)).

Definition pump_forward (frame : Chunk.t) (ends : bool) (send : SendResult) : PumpTurn :=
  match forward frame send with
  | (sent, Some fault) => mkPumpTurn sent None (Some (inr fault))
  | (sent, None) => mkPumpTurn sent None (if ends then Some (inl tt) else None)
  end.

(** A turn of [pump]; [source_closed] says whether the source's own sending half is closed. *)
Definition pump_turn (source_closed : bool) (next : Next Chunk.t) (send : SendResult) : PumpTurn :=
  match next with
  | NextIdle => pump_fault (Both (RelayError_new RelayErrorCode.DeadlineExceeded "stream idle"))
  | NextStatus code message => pump_fault (ToDestination (RelayError_new code message))
  | NextFailed => pump_fault (gone false)
  | NextChunk (Some (Chunk.Data bytes)) =>
      if too_large bytes then pump_fault (Both oversized) else pump_forward (Chunk.Data bytes) false send
  | NextEnd | NextChunk (None | Some Chunk.Close) => pump_forward Chunk.Close true send
  | NextChunk (Some (Chunk.Heartbeat (mkHeartbeat seq false))) =>
      if source_closed then mkPumpTurn None None None else
      match send with
      | Sent => mkPumpTurn None (Some (pong seq)) None
      | Gone => mkPumpTurn None None None
      | Stalled => pump_fault stalled
      end
  | NextChunk (Some (Chunk.Heartbeat _)) => mkPumpTurn None None None
  | NextChunk (Some (Chunk.Error error)) => pump_fault (ToDestination error)
  | NextChunk (Some (Chunk.Open _ _ | Chunk.Accept _ | Chunk.Opened)) =>
      pump_fault (Both (RelayError_new RelayErrorCode.InvalidArgument "handshake frame on a spliced stream"))
  end.

(** Both legs: the frames each was sent, whether its sending half is closed, the pumps that ended, and the errors that end the
    splice, for the opener and for the host *)
Record Splice := mkSplice {
  sp_to_opener : list Chunk.t;
  sp_to_host : list Chunk.t;
  sp_opener_closed : bool;
  sp_host_closed : bool;
  sp_up_done : bool;
  sp_down_done : bool;
  sp_outcome : option (option RelayError * option RelayError);
}.
#[export] Instance Splice_eta : EtaRecord Splice := fun s => {| sp_to_opener := sp_to_opener s; sp_to_host := sp_to_host s;
  sp_opener_closed := sp_opener_closed s; sp_host_closed := sp_host_closed s; sp_up_done := sp_up_done s;
  sp_down_done := sp_down_done s; sp_outcome := sp_outcome s |}.

Definition from_opener (fault : Fault) : option RelayError * option RelayError :=
  match fault with Both e => (Some e, Some e) | ToDestination e => (None, Some e) | ToSource e => (Some e, None) end.
Definition from_host (fault : Fault) : option RelayError * option RelayError :=
  let '(to_host, to_opener) := from_opener fault in (to_opener, to_host).

Definition list_of {A} (o : option A) : list A := match o with Some x => [x] | None => [] end.

(** The early frames, until one is not taken; [sends] says how each is taken, and those past its end are. *)
Fixpoint forward_early (sp : Splice) (early : list Chunk.t) (sends : list SendResult) : Splice :=
  match early with
  | [] => sp
  | frame :: early =>
      let '(send, sends) := match sends with send :: sends => (send, sends) | [] => (Sent, []) end in
      match forward frame send with
      | (_, Some fault) => sp <| sp_outcome := Some (from_opener fault) |>
      | (sent, None) =>
          forward_early (sp <| sp_to_host ::= fun l => l ++ list_of sent |>
                            <| sp_host_closed ::= orb (match frame with Chunk.Close => true | _ => false end) |>) early sends
      end
  end.

(** [splice] up to its loop *)
Definition splice_start (early : list Chunk.t) (opener_closed : bool) (sends : list SendResult) : Splice :=
  forward_early (mkSplice [] [] false false opener_closed false None) early sends.

(** [run_open] with its host leg: the opener is told, or the host that the opener is gone. *)
Definition run_spliced (w : Wait) (opened : SendResult) (sends : list SendResult) : Splice + RelayError :=
  match opened with
  | Sent => inl (splice_start (wt_early w) (wt_closed w) sends)
  | Gone | Stalled => inr (RelayError_new RelayErrorCode.Unavailable "the opener went away")
  end.

Inductive SpliceEvent := SpliceCancelled (closed : RelayError) | Up (next : Next Chunk.t) (send : SendResult)
  | Down (next : Next Chunk.t) (send : SendResult).

(** A turn of the loop, while neither an outcome nor the end of both pumps stops it *)
Definition splice_turn (sp : Splice) (event : SpliceEvent) : option Splice :=
  match sp_outcome sp with
  | Some _ => None
  | None =>
      if sp_up_done sp && sp_down_done sp then None else
      match event with
      | SpliceCancelled closed => Some (sp <| sp_outcome := Some (Some closed, Some closed) |>)
      | Up next send =>
          if sp_up_done sp then None else
          let turn := pump_turn (sp_opener_closed sp) next send in
          Some (sp <| sp_to_host ::= fun l => l ++ list_of (pt_forwarded turn) |> <| sp_to_opener ::= fun l => l ++ list_of (pt_answered turn) |>
                   <| sp_host_closed ::= orb (bool_decide (pt_result turn = Some (inl tt))) |>
                   <| sp_up_done := bool_decide (pt_result turn = Some (inl tt)) |>
                   <| sp_outcome := match pt_result turn with Some (inr fault) => Some (from_opener fault) | _ => None end |>)
      | Down next send =>
          if sp_down_done sp then None else
          let turn := pump_turn (sp_host_closed sp) next send in
          Some (sp <| sp_to_opener ::= fun l => l ++ list_of (pt_forwarded turn) |> <| sp_to_host ::= fun l => l ++ list_of (pt_answered turn) |>
                   <| sp_opener_closed ::= orb (bool_decide (pt_result turn = Some (inl tt))) |>
                   <| sp_down_done := bool_decide (pt_result turn = Some (inl tt)) |>
                   <| sp_outcome := match pt_result turn with Some (inr fault) => Some (from_host fault) | _ => None end |>)
      end
  end.

(** [finish]: the last error of each leg *)
Definition splice_finish (sp : Splice) : Splice :=
  let '(to_opener, to_host) := default (None, None) (sp_outcome sp) in
  sp <| sp_to_opener ::= fun l => l ++ list_of (Chunk.Error <$> to_opener) |>
     <| sp_to_host ::= fun l => l ++ list_of (Chunk.Error <$> to_host) |>
     <| sp_opener_closed := true |> <| sp_host_closed := true |>.
End stream.

(** ** What a direction carries *)

(** The frames a direction carries end to end *)
Definition carried (frame : Chunk.t) : Prop := match frame with Chunk.Data _ | Chunk.Close => True | _ => False end.
#[export] Instance carried_dec frame : Decision (carried frame).
Proof. destruct frame; cbn; apply _. Defined.

(** What of these a reading stands for: the end of a stream and an empty frame are a [Close]. *)
Definition frames_of (next : Next Chunk.t) : list Chunk.t :=
  match next with
  | NextChunk (Some (Chunk.Data bytes)) => [Chunk.Data bytes]
  | NextEnd | NextChunk (None | Some Chunk.Close) => [Chunk.Close]
  | _ => []
  end.

Section carry.
Context (limits : ProxyLimits).

(** Data within the limit, and then, once closed, one [Close] *)
Definition shape (closed : bool) (frames : list Chunk.t) : Prop :=
  exists data, Forall (fun bytes => too_large limits bytes = false) data
    /\ frames = (Chunk.Data <$> data) ++ (if closed then [Chunk.Close] else []).

Lemma shape_data frames bytes : shape false frames -> too_large limits bytes = false -> shape false (frames ++ [Chunk.Data bytes]).
Proof.
  intros (data & Hall & ->) Hb. exists (data ++ [bytes]). rewrite fmap_app, !app_nil_r. split; [|done].
  apply Forall_app. by repeat constructor.
Qed.

Lemma shape_close frames : shape false frames -> shape true (frames ++ [Chunk.Close]).
Proof. intros (data & Hall & ->). exists data. by rewrite app_nil_r. Qed.

Lemma shape_carried closed frames : shape closed frames -> filter carried frames = frames.
Proof.
  intros (data & _ & ->). rewrite filter_app. f_equal; [|by destruct closed].
  induction data as [|bytes data IH]; [done|]. cbn [fmap list_fmap]. rewrite filter_cons_True by done. by f_equal.
Qed.

(** *** Waiting *)

Definition byte_count (frames : list Chunk.t) : N :=
  foldr (fun f n => (match f with Chunk.Data bytes => N.of_nat (String.length bytes) | _ => 0 end) + n)%N 0%N frames.

Lemma byte_count_app a b : byte_count (a ++ b) = (byte_count a + byte_count b)%N.
Proof. unfold byte_count. induction a as [|f a IH]; cbn; [done|]. rewrite IH. lia. Qed.

Record wait_ok (w : Wait) (input : list Chunk.t) : Prop := {
  wo_input : wt_early w = input;
  wo_shape : shape (wt_closed w) (wt_early w);
  wo_bytes : wt_bytes w = byte_count (wt_early w);
  wo_limit : (wt_bytes w < early_data_limit limits + max_chunk_data limits)%N \/ wt_bytes w = 0%N;
}.

(** The turns of an opener's wait, with what its readings carry *)
Inductive wait_run : Wait -> list Chunk.t -> Prop :=
  | wait_run_nil : wait_run wait_start []
  | wait_run_turn w input event send w' : wait_run w input ->
      (forall next, event = WaitNext next -> wait_reads limits true w = true) ->
      wait_turn limits w event send = WaitOn w' ->
      wait_run w' (input ++ match event with WaitNext next => frames_of next | _ => [] end).

Lemma wait_turn_ok w input event send w' : wait_ok w input ->
  (forall next, event = WaitNext next -> wait_reads limits true w = true) ->
  wait_turn limits w event send = WaitOn w' ->
  wait_ok w' (input ++ match event with WaitNext next => frames_of next | _ => [] end).
Proof.
  intros Hok Hreads. pose proof Hok as [H1 H2 H3 H4].
  assert (forall w0, WaitOn w = WaitOn w0 -> wait_ok w0 (input ++ [])) as Hkeep by (rewrite app_nil_r; by intros w0 [= <-]).
  destruct event as [| | |expired|next]; cbn [wait_turn]; try done.
  - destruct expired; [done|]. intros [= <-]. rewrite app_nil_r. by split.
  - specialize (Hreads next eq_refl). unfold wait_reads in Hreads.
    apply andb_true_iff in Hreads as [[Hopen%negb_true_iff Hroom%bool_decide_eq_true]%andb_true_iff _]. rewrite Hopen in H2.
    assert (wait_ok (w <| wt_closed := true |> <| wt_early ::= fun l => l ++ [Chunk.Close] |>) (input ++ [Chunk.Close])) as Hclose.
    { split; cbn; [by rewrite H1|by apply shape_close| |done]. rewrite byte_count_app. cbn. lia. }
    destruct next as [| | | |[[| |bytes| |[seq []]| |]|]]; cbn [frames_of]; try done; try (by intros [= <-]); try apply Hkeep.
    + destruct (too_large limits bytes) eqn:Hlarge; [done|]. intros [= <-].
      pose proof Hlarge as Hle%bool_decide_eq_false. split; cbn; [by rewrite H1|rewrite Hopen; by apply shape_data| |left; lia].
      rewrite byte_count_app. cbn. lia.
    + destruct send; [|apply Hkeep|done]. intros [= <-]. rewrite app_nil_r. split; cbn; try done. by rewrite Hopen.
Qed.

Lemma wait_run_ok w input : wait_run w input -> wait_ok w input.
Proof.
  induction 1 as [|w input event send w' _ IH Hreads Hturn].
  - split; cbn; [done| |done|by right]. exists []. done.
  - by eapply wait_turn_ok.
Qed.

(** *** The pumps *)

Lemma pump_turn_spec source_closed next send t : pump_turn limits source_closed next send = t ->
  match pt_result t with
  | None => list_of (pt_forwarded t) = frames_of next /\ Forall (fun f => exists bytes, f = Chunk.Data bytes /\ too_large limits bytes = false) (frames_of next)
  | Some (inl _) => list_of (pt_forwarded t) = frames_of next /\ frames_of next = [Chunk.Close]
  | Some (inr _) => pt_forwarded t = None
  end /\ (pt_answered t = None \/ exists seq, pt_answered t = Some (pong seq)).
Proof.
  intros <-. destruct next as [| | | |[[| |bytes| |[seq []]| |]|]]; cbn [pump_turn frames_of];
    try destruct (too_large limits bytes) eqn:Hlarge; try destruct source_closed; try destruct send; cbn; eauto 10.
Qed.

(** One direction: what was sent carries a prefix of what was read, all of it while nothing failed. *)
Record dir_ok (sent : list Chunk.t) (done failed : bool) (input : list Chunk.t) : Prop := {
  di_shape : exists closed, shape closed (filter carried sent) /\ (failed = false -> closed = done);
  di_prefix : filter carried sent `prefix_of` input;
  di_all : failed = false -> filter carried sent = input;
}.

Lemma dir_answer sent done failed input t source_closed next send : dir_ok sent done failed input ->
  pump_turn limits source_closed next send = t -> dir_ok (sent ++ list_of (pt_answered t)) done failed input.
Proof.
  intros Hok Ht%pump_turn_spec. assert (filter carried (sent ++ list_of (pt_answered t)) = filter carried sent) as Heq.
  { rewrite filter_app. destruct Ht as [_ [-> |[seq ->]]]; cbn; by rewrite app_nil_r. }
  destruct Hok as [H1 H2 H3]. split; rewrite Heq; done.
Qed.

Lemma dir_turn sent input t source_closed next send : dir_ok sent false false input ->
  pump_turn limits source_closed next send = t ->
  dir_ok (sent ++ list_of (pt_forwarded t)) (bool_decide (pt_result t = Some (inl tt)))
    (match pt_result t with Some (inr _) => true | _ => false end) (input ++ frames_of next).
Proof.
  intros [(closed & Hshape & Hclosed) H2 H3] [Ht _]%pump_turn_spec. specialize (Hclosed eq_refl) as ->. specialize (H3 eq_refl) as <-.
  destruct (pt_result t) as [[[]|fault]|]; cbn.
  - destruct Ht as [-> Hw]. rewrite Hw. split; rewrite filter_app; cbn; [exists true; split; [by apply shape_close|done]|done|done].
  - rewrite Ht. cbn. rewrite app_nil_r. split; [by exists false|by apply prefix_app_r|done].
  - destruct Ht as [-> Hw].
    assert (frames_of next = [] \/ exists b, frames_of next = [Chunk.Data b] /\ too_large limits b = false) as [-> |(b & -> & Hb)].
    { destruct next as [| | | |[[]|]]; cbn in *; eauto; apply Forall_inv in Hw as (b & ? & ?); simplify_eq; eauto. }
    + rewrite !app_nil_r. split; [by exists false|done|done].
    + split; rewrite filter_app; cbn; [exists false; split; [by apply shape_data|done]|done|done].
Qed.

(** *** The splice *)

Record splice_ok (sp : Splice) (up down : list Chunk.t) : Prop := {
  sk_up : dir_ok (sp_to_host sp) (sp_up_done sp) (bool_decide (sp_outcome sp <> None)) up;
  sk_down : dir_ok (sp_to_opener sp) (sp_down_done sp) (bool_decide (sp_outcome sp <> None)) down;
}.

(** The turns of a splice, with what the readings of each leg carry *)
Inductive splice_run (sp : Splice) : list Chunk.t -> list Chunk.t -> Splice -> Prop :=
  | splice_run_nil : splice_run sp [] [] sp
  | splice_run_turn up down sp' event sp'' : splice_run sp up down sp' -> splice_turn limits sp' event = Some sp'' ->
      splice_run sp (up ++ match event with Up next _ => frames_of next | _ => [] end)
        (down ++ match event with Down next _ => frames_of next | _ => [] end) sp''.

Lemma dir_fail sent done failed input : dir_ok sent done failed input -> dir_ok sent done true input.
Proof. intros [(closed & Hs & _) H2 _]. split; [by exists closed|done|done]. Qed.

Lemma splice_turn_ok sp up down event sp' : splice_ok sp up down -> splice_turn limits sp event = Some sp' ->
  splice_ok sp' (up ++ match event with Up next _ => frames_of next | _ => [] end) (down ++ match event with Down next _ => frames_of next | _ => [] end).
Proof.
  intros [Hup Hdown]. unfold splice_turn. destruct (sp_outcome sp) eqn:Hout; [done|]. rewrite bool_decide_false in Hup, Hdown by naive_solver.
  destruct (_ && _); [done|]. destruct event as [closed|next send|next send].
  - intros [= <-]. rewrite !app_nil_r. split; cbn; by eapply dir_fail.
  - destruct (sp_up_done sp) eqn:Hd; [done|]. intros [= <-]. rewrite app_nil_r. set (t := pump_turn _ _ _ _).
    pose proof (dir_turn _ _ t _ _ _ Hup eq_refl) as Hu. pose proof (dir_answer _ _ _ _ t _ _ _ Hdown eq_refl) as Hdn.
    split; cbn; destruct (pt_result t) as [[[]|fault]|]; cbn in *; done || by eapply dir_fail.
  - destruct (sp_down_done sp) eqn:Hd; [done|]. intros [= <-]. rewrite app_nil_r. set (t := pump_turn _ _ _ _).
    pose proof (dir_turn _ _ t _ _ _ Hdown eq_refl) as Hu. pose proof (dir_answer _ _ _ _ t _ _ _ Hup eq_refl) as Hdn.
    split; cbn; destruct (pt_result t) as [[[]|fault]|]; cbn in *; done || by eapply dir_fail.
Qed.

Lemma splice_run_ok sp up0 down0 up down sp' : splice_ok sp up0 down0 -> splice_run sp up down sp' -> splice_ok sp' (up0 ++ up) (down0 ++ down).
Proof.
  intros Hok. induction 1 as [|up down sp' event sp'' _ IH Hturn]; [by rewrite !app_nil_r|].
  rewrite !app_assoc. by eapply splice_turn_ok.
Qed.

(** *** Early data *)

Lemma shape_prefix closed a b : shape closed (a ++ b) -> exists c, shape c a /\ (b = [] -> c = closed).
Proof.
  revert closed. induction a as [|f a IH]; intros closed (data & Hall & Heq).
  - exists (match b with [] => closed | _ => false end). split; [|by intros ->]. destruct b; [by exists data|by exists []].
  - destruct data as [|d data]; cbn in Heq.
    + destruct closed; [|done]. injection Heq as -> [-> ->]%app_eq_nil. exists true. split; [by exists []|done].
    + injection Heq as -> Heq. apply Forall_cons in Hall as [Hd Hall].
      destruct (IH closed (ex_intro _ data (conj Hall Heq))) as (c & (data' & Hall' & ->) & Hc).
      exists c. split; [|done]. exists (d :: data'). split; [by constructor|done].
Qed.

Lemma forward_early_spec sp early sends : sp_outcome sp = None ->
  exists taken rest, early = taken ++ rest /\ sp_to_host (forward_early sp early sends) = sp_to_host sp ++ taken
    /\ sp_to_opener (forward_early sp early sends) = sp_to_opener sp
    /\ sp_up_done (forward_early sp early sends) = sp_up_done sp /\ sp_down_done (forward_early sp early sends) = sp_down_done sp
    /\ (sp_outcome (forward_early sp early sends) = None -> rest = []).
Proof.
  revert sp sends. induction early as [|f early IH]; intros sp sends Hout.
  - exists [], []. cbn. by rewrite app_nil_r.
  - cbn [forward_early]. destruct (match sends with [] => _ | _ => _ end) as [[] sends']; cbn [forward].
    + set (sp1 := sp <| sp_to_host ::= fun l => l ++ list_of (Some f) |>
                     <| sp_host_closed ::= orb (match f with Chunk.Close => true | _ => false end) |>).
      destruct (IH sp1 sends' Hout) as (taken & rest & -> & -> & -> & -> & -> & Hnone).
      exists (f :: taken), rest. split_and!; try done. cbn. by rewrite <- app_assoc.
    + exists [], (f :: early). split_and!; try done. cbn. by rewrite app_nil_r.
    + exists [], (f :: early). split_and!; try done. cbn. by rewrite app_nil_r.
Qed.

Lemma splice_start_ok early closed sends : shape closed early -> splice_ok (splice_start early closed sends) early [].
Proof.
  intros Hshape. unfold splice_start. set (sp := mkSplice [] [] false false closed false None).
  destruct (forward_early_spec sp early sends eq_refl) as (taken & rest & -> & Hhost & Hopener & Hup & Hdown & Hnone).
  destruct (shape_prefix _ _ _ Hshape) as (c & Hc & Hrest). pose proof (shape_carried _ _ Hc) as Hcarried. split.
  - rewrite Hhost, Hup. cbn. split; rewrite Hcarried; [exists c; split; [done|]|by apply prefix_app_r|].
    + intros Hf%bool_decide_eq_false. apply Hrest, Hnone. by apply dec_stable.
    + intros Hf%bool_decide_eq_false. rewrite Hnone by (by apply dec_stable). by rewrite app_nil_r.
  - rewrite Hopener, Hdown. split; cbn; [exists false; split; [by exists []|done]|done|done].
Qed.
End carry.
