(* ===== verification/RelaySpec.v ===== *)
(** * What the relay promises

    Links and proxy URLs are read back as they are printed, and an error of a malformed link shows none of its fragment; the
    counts of every reachable proxy are exact; a token opens its room and nothing else does; a leg is delivered once;
    registrations are signed; a spliced stream arrives in order.  [RelayDemo] gives concrete codecs and a run. *)

From S2P Require Import Prelude Result RustStr Text Workflow RelayLink RelayProxy RelayInv RelayStream.

Section links.
Context {L : RelayLib} {Laws : RelayLaws L}.

(** ** Errors *)

(** Every failure of a link that has a fragment comes from the part before the [#], whatever follows it, or is one of the
    four errors of fragments. *)
Definition fragment_error (e : LinkError) : Prop :=
  match e with
  | MissingFragment | InvalidFragment | InvalidBase64 _ | InvalidKeyLength _ _ => True
  | _ => False
  end.

Lemma parse_split before fragment : contains HASH before = false ->
  RelayLink_parse (before +:+ String HASH fragment) =
  (let? (address, room_id, transport) := parse_public_part before in
   let? fragment := if is_empty fragment then inr MissingFragment else inl fragment in
   match split_char "."%char fragment with
   | [key; psk] =>
       let? server_key := decode_key key KeyField.ServerKey in
       let? psk := decode_key psk KeyField.Psk in
       inl (mkRelayLink address room_id transport server_key psk)
   | _ => inr InvalidFragment
   end).
Proof. intros Hb. unfold RelayLink_parse. by rewrite split_once_app. Qed.

Lemma decode_key_error text field e : decode_key text field = inr e -> fragment_error e.
Proof. unfold decode_key. destruct (b64url_decode text) as [b|]; [case_decide|]; intros [= <-]; done. Qed.

(** C21: A link is read back as it is printed: the parser accepts exactly the links whose host, port, prefix, room and keys are well formed
    ([link_ok]); parsing [to_secret_string] of such a link gives the link, its public part the address, room and
    transport, its redacted form the same without the hint, and the proxy URL of its address the address.  A link assembled from
    a parsed proxy URL, the room of a public key and two keys is such a link. *)
Theorem relay_link_roundtrip :
  (forall l, link_ok l <-> exists text, RelayLink_parse text = inl l)
  /\ (forall l, link_ok l ->
        RelayLink_parse (to_secret_string l) = inl l
        /\ parse_public (to_secret_string l) = inl (rl_address l, rl_room_id l, rl_transport l)
        /\ parse_public (redacted l) = inl (rl_address l, rl_room_id l, Transport.Auto)
        /\ parse_proxy_url (base_url (rl_address l)) = inl (rl_address l))
  /\ (forall url a pubkey t server_key psk, parse_proxy_url url = inl a ->
        String.length server_key = 32 -> String.length psk = 32 ->
        link_ok (mkRelayLink a (RoomId_from_ed25519 pubkey) t server_key psk)).
Proof.
  split; [|split].
  - intros l. split; [intros Hl; exists (to_secret_string l); by apply parse_secret|intros [text Hl]; by eapply parse_ok].
  - intros l Hl. split; [by apply parse_secret|]. split.
    { unfold parse_public. rewrite split_secret by done. by apply parse_redacted. }
    split; [|by apply parse_printed_url, Hl].
    pose proof (parse_redacted (with_transport l Transport.Auto)) as Hr. cbn in Hr. rewrite app_nil_r_str in Hr.
    unfold parse_public. assert (split_once HASH (redacted l) = None) as ->; [|apply Hr; by destruct Hl].
    apply split_once_None. pose proof (split_secret l Hl) as Hs. apply split_once_Some in Hs as [_ Hs].
    rewrite contains_app in Hs. by apply orb_false_iff in Hs as [Hs _].
  - intros url a pubkey t server_key psk Ha Hk Hp. split; [by eapply parse_proxy_url_ok|apply derived_room_ok|done|done].
Qed.

(** No error shows key text: when a link with a fragment is refused, either the error is that of the part before the [#] and
    the same for every fragment, or it is one of the fragment errors, which carry the key's name and decoded
    length only; a link pasted where a proxy URL is expected is refused with its scheme alone, and a proxy URL
    with a fragment with the text before the [#] alone. *)
Theorem link_errors_reveal_nothing :
  (forall before fragment e, contains HASH before = false -> RelayLink_parse (before +:+ String HASH fragment) = inr e ->
     fragment_error e
     \/ parse_public (before +:+ String HASH fragment) = inr e
        /\ forall other, RelayLink_parse (before +:+ String HASH other) = inr e)
  /\ (forall l, link_ok l -> parse_proxy_url (to_secret_string l) = inr (UnknownScheme (link_scheme (rl_address l))))
  /\ (forall (secure : bool) rest fragment, contains HASH rest = false ->
        parse_proxy_url ((if secure then "https://" else "http://") +:+ rest +:+ String HASH fragment)
        = inr (InvalidPath (rest +:+ "#<redacted>"))).
Proof.
  split; [|split].
  - intros before fragment e Hb. rewrite parse_split by done. unfold parse_public. rewrite split_once_app by done.
    destruct (parse_public_part before) as [[[a room] t]|e'] eqn:Hpub.
    + destruct (is_empty fragment); [intros [= <-]; by left|].
      destruct (split_char "." fragment) as [|key [|psk []]]; try (intros [= <-]; by left).
      destruct (decode_key key _) eqn:Hk; [|intros [= <-]; left; by eapply decode_key_error].
      destruct (decode_key psk _) eqn:Hp; [done|intros [= <-]; left; by eapply decode_key_error].
    + intros [= <-]. right. split; [done|]. intros other. by rewrite parse_split, Hpub.
  - intros l Hl. unfold to_secret_string. rewrite redacted_public, <- !app_assoc_str. unfold parse_proxy_url.
    rewrite split_link_scheme. unfold link_scheme. by destruct (ra_secure _).
  - intros secure rest fragment Hr. unfold parse_proxy_url.
    assert (forall r, split_scheme ((if secure then "https://" else "http://") +:+ r) = inl (if secure then "https" else "http", r)) as ->
      by by destruct secure.
    replace (if decide ((if secure then "https" else "http") = "https") then inl true
             else if decide ((if secure then "https" else "http") = "http") then inl false
             else inr (UnknownScheme (if secure then "https" else "http"))) with (@inl bool LinkError secure)
      by by destruct secure.
    cbv match. rewrite (contains_app HASH). cbn [contains]. rewrite bool_decide_true, orb_true_l, !orb_true_r by done.
    unfold redact_input. by rewrite split_once_app.
Qed.
End links.

(** ** The proxy *)

Section proxy.
Context {L : RelayLib} {Leg : Type} (limits : ProxyLimits).
Implicit Types s : Proxy Leg.

(** The room is registered, and the token is the one its host registered the hash of. *)
Definition opens s (room_id open_token : string) : bool :=
  match (generation ← st_rooms (px_state s) !! room_id; px_room s !! generation) with
  | Some room => open_token_matches room open_token
  | None => false
  end.

Lemma opens_found s room_id open_token :
  (generation ← st_rooms (px_state s) !! room_id; room ← px_room s !! generation;
   if open_token_matches room open_token then Some (generation, room) else None)
  = if opens s room_id open_token
    then (generation ← st_rooms (px_state s) !! room_id; room ← px_room s !! generation; Some (generation, room)) else None.
Proof.
  unfold opens. destruct (st_rooms (px_state s) !! room_id) as [g|]; cbn; [|done].
  destruct (px_room s !! g) as [room|]; cbn; [|done]. by destruct (open_token_matches room open_token).
Qed.

(** What an [Open] is answered without its room's token *)
Definition closed_answer (shutdown : bool) (room_id : string) : RelayError :=
  match RoomId_parse room_id with
  | inr _ => RelayError_new RelayErrorCode.InvalidArgument "malformed room id"
  | inl _ => if shutdown then shutting_down else room_offline
  end.

(** C14: Without a room's token an opener learns nothing: an [Open] whose token is not that of a registered room
    is answered the same whether the room is online or not, from the message and the shutdown of the proxy alone, and changes
    nothing; and whoever is admitted, or refused for any other reason, presented the token. *)
Theorem wrong_token_is_offline s room_id open_token peer draws :
  (opens s room_id open_token = false ->
     run_open limits s (inl (Chunk.Open room_id open_token)) peer draws
     = Some (s, inr (Some (closed_answer (px_shutdown s) room_id))))
  /\ (forall s' r, run_open limits s (inl (Chunk.Open room_id open_token)) peer draws = Some (s', r) ->
        r = inr (Some (closed_answer (px_shutdown s) room_id)) \/
        exists g room, st_rooms (px_state s) !! room_id = Some g /\ px_room s !! g = Some room
          /\ open_token_hash open_token = rm_open_token_hash room).
Proof.
  unfold run_open, closed_answer, admit_stream. rewrite opens_found. split.
  - intros ->. destruct (RoomId_parse room_id); [|done]. by destruct (px_shutdown s).
  - intros s' r. destruct (RoomId_parse room_id); [|by intros [= <- <-]; left]. destruct (px_shutdown s); [by intros [= <- <-]; left|].
    destruct (opens s room_id open_token) eqn:Ho; [|by intros [= <- <-]; left]. intros _. right. revert Ho. unfold opens.
    destruct (st_rooms (px_state s) !! room_id) as [g|] eqn:Hg; cbn; [|done]. destruct (px_room s !! g) as [room|] eqn:Hr; [|done].
    intros Hm%bool_decide_eq_true. by exists g, room.
Qed.

(** Within the limits, the holder of a room's token is admitted. *)
Lemma admit_admits s room_id open_token peer draws g room id :
  px_shutdown s = false -> st_rooms (px_state s) !! room_id = Some g -> px_room s !! g = Some room ->
  open_token_hash open_token = rm_open_token_hash room ->
  rm_receiving room = true -> (N.of_nat (length (rm_incoming room)) < rm_capacity room)%N ->
  (rm_streams room < max_streams_per_room limits)%N ->
  (count_of (st_peer_streams (px_state s)) peer < max_streams_per_peer limits)%N ->
  (st_streams (px_state s) < max_streams limits)%N ->
  find_first (fun id => st_pending (px_state s) !! id = None) draws = Some id ->
  exists s', admit_stream limits s room_id open_token peer draws = Some (s', inl (px_next_key s))
    /\ (rm_incoming <$> px_room s' !! g) = Some (rm_incoming room ++ [id])
    /\ px_slot s' !! px_next_key s = Some (mkStreamSlot g peer id Waiting)
    /\ st_pending (px_state s') !! id = Some (px_next_key s).
Proof.
  intros Hs Hg Hroom Htok Hrecv Hcap Hr Hp Hst Hid. unfold admit_stream. rewrite Hs, Hg. cbn [mbind option_bind].
  rewrite Hroom. cbn [mbind option_bind]. unfold open_token_matches. rewrite bool_decide_true by done.
  rewrite !decide_False by lia. rewrite Hid. cbn [mbind option_bind]. unfold try_send. rewrite Hrecv. cbn [negb].
  rewrite decide_False by lia. eexists. split; [done|]. cbn. by rewrite !lookup_insert_eq.
Qed.

(** A link opens its room: once a host registered the room of a link with the hash of the link's token, an opener that
    holds the link is admitted, within the limits, with a stream id that was not pending; its id is announced on that host's
    control stream, and an [Accept] with the id gives the opener the host's leg. *)
Theorem link_opens_its_room (l : RelayLink) s host s1 g previous peer draws id leg :
  register_room limits s (rl_room_id l) (open_token_hash (open_token l)) host = (s1, inl (g, previous)) ->
  (0 < max_streams_per_room limits)%N ->
  (count_of (st_peer_streams (px_state s)) peer < max_streams_per_peer limits)%N ->
  (st_streams (px_state s) < max_streams limits)%N ->
  find_first (fun id => st_pending (px_state s) !! id = None) draws = Some id ->
  exists s2 key, admit_stream limits s1 (rl_room_id l) (open_token l) peer draws = Some (s2, inl key)
    /\ (rm_incoming <$> px_room s2 !! g) = Some [id]
    /\ (exists s3, deliver_accept s2 id leg = (s3, inl tt) /\ (ss_arrival <$> px_slot s3 !! key) = Some (Arrived leg)).
Proof.
  intros Hreg Hroom Hpeer Hstreams Hid. unfold register_room in Hreg. destruct (px_shutdown s) eqn:Hs; [done|].
  destruct (_ && _); [done|]. destruct (negb _ && _); [done|]. injection Hreg as <- <- _.
  match goal with |- context [admit_stream limits ?p _ _ _ _] => set (s1 := p) end.
  set (g := (st_next_generation (px_state s) + 1)%N) in *.
  destruct (admit_admits s1 (rl_room_id l) (open_token l) peer draws g
    (mkRoom (rl_room_id l) g host false false [] (N.max (max_streams_per_room limits) 1) true 0 (open_token_hash (open_token l))) id)
    as (s2 & Hadmit & Hinc & Hslot & Hpend); try done; [apply lookup_insert_eq|apply lookup_insert_eq|cbn; lia|].
  clearbody s1. exists s2, (px_next_key s1). split; [done|]. split; [done|]. unfold deliver_accept. rewrite Hpend. cbn. rewrite Hslot.
  eexists. split; [done|]. cbn. by rewrite lookup_alter_eq, Hslot.
Qed.

(** ** Reachable proxies *)

Hypothesis usize_limit : fits 64 (max_streams_per_room limits).
Hypothesis early_fits : fits 64 (max_early_data_bytes limits + max_chunk_data limits * max_streams limits).

(** C13: The proxy's counts are exact and within the limits in every state it can reach, whatever the order of its
    operations and of the drops of its handles: streams, streams per client and per room, rooms and rooms per client,
    registrations in progress, and the early data, which exceeds its limit by at most one chunk per waiting stream; the
    counts of streams and rooms per client have no entry for a client that has none. *)
Theorem proxy_counts_exact s : reachable limits s ->
  let state := px_state s in
  (st_streams state = N.of_nat (size (px_slot s)) /\ st_streams state <= max_streams limits)%N
  /\ (forall p, count_of (st_peer_streams state) p = mcount (fun slot => ss_peer slot = p) (px_slot s)
        /\ count_of (st_peer_streams state) p <= max_streams_per_peer limits /\ st_peer_streams state !! p <> Some 0)%N
  /\ (forall g room, px_room s !! g = Some room -> rm_streams room = mcount (fun slot => ss_room slot = g) (px_slot s)
        /\ rm_streams room <= max_streams_per_room limits)%N
  /\ (N.of_nat (size (st_rooms state)) <= max_rooms limits)%N
  /\ (forall p, count_of (st_peer_rooms state) p = mcount (fun g => rm_peer <$> px_room s !! g = Some p) (st_rooms state)
        /\ count_of (st_peer_rooms state) p <= max_rooms_per_peer limits /\ st_peer_rooms state !! p <> Some 0)%N
  /\ (st_pending_registrations state = N.of_nat (size (px_registering s))
        /\ st_pending_registrations state <= max_pending_registrations limits)%N
  /\ (forall p, count_of (st_peer_pending_registrations state) p = mcount (eq p) (px_registering s)
        /\ count_of (st_peer_pending_registrations state) p <= max_pending_registrations_per_peer limits)%N
  /\ (px_early_data s = early_sum (px_early s)
        /\ px_early_data s <= max_early_data_bytes limits + max_chunk_data limits * N.of_nat (size (px_early s)))%N.
Proof.
  intros Hs. apply (reachable_ok limits usize_limit early_fits) in Hs as [[] H2 [] [last H4] _]. destruct H2.
  assert (forall p, mcount (fun g => fc_peer <$> (face <$> px_room s) !! g = Some p) (st_rooms (px_state s))
    = mcount (fun g => rm_peer <$> px_room s !! g = Some p) (st_rooms (px_state s))) as Hpeers.
  { intros p. apply mcount_ext. intros id g _. cbn. rewrite lookup_fmap. by destruct (px_room s !! g). }
  cbv zeta. split_and!; try done.
  - intros p. destruct (so_peers p) as [-> Hz]. by split_and!.
  - intros g room Hroom. rewrite (so_rooms g (rm_streams room)); [done|]. by rewrite lookup_fmap, Hroom.
  - intros p. destruct (ro_counts p) as [-> Hz]. rewrite <- Hpeers. by split_and!.
  - intros p. rewrite rg_peers. by split.
  - by apply eo_sum in H4.
  - by apply early_bounded in H4.
Qed.

(** C22: Streams follow their room: in every reachable state a room of the map has a live registration, its own id and an
    uncancelled token; the token of a room that left the map is cancelled or about to be, so that each of its streams ends;
    dropping a registration takes its own room from the map and no newer one; and a host is told that its room was
    registered again only when it was. *)
Theorem streams_follow_rooms s : reachable limits s ->
  (forall id g, st_rooms (px_state s) !! id = Some g -> g ∈ px_registrations s
     /\ exists room, px_room s !! g = Some room /\ rm_id room = id /\ room_cancelled s g = px_shutdown s)
  /\ (forall key slot, px_slot s !! key = Some slot -> exists room, px_room s !! ss_room slot = Some room
     /\ (st_rooms (px_state s) !! rm_id room = Some (ss_room slot) \/ room_cancelled s (ss_room slot) = true
         \/ is_Some (px_cancelling s !! ss_room slot)))
  /\ (forall g room id, px_room s !! g = Some room ->
     st_rooms (px_state (drop_registration s g room)) !! id
     = if decide (st_rooms (px_state s) !! id = Some g) then None else st_rooms (px_state s) !! id)
  /\ (forall g room, px_room s !! g = Some room ->
     host_closed_error s room = RelayError_new RelayErrorCode.AlreadyExists "room was registered by a newer control stream" ->
     exists g' room', (g < g')%N /\ px_room s !! g' = Some room' /\ rm_id room' = rm_id room).
Proof.
  intros Hs. apply (reachable_ok limits usize_limit early_fits) in Hs as [_ [H1 H2 _ _ _ H6 H7 _ _] H3 _ _].
  assert (forall g f, (face <$> px_room s) !! g = Some f -> exists room, px_room s !! g = Some room /\ f = face room) as Hface.
  { intros g f. rewrite lookup_fmap. destruct (px_room s !! g) as [room|]; [|done]. intros [= <-]. eauto. }
  split_and!.
  - intros id g Hid. destruct (H1 _ _ Hid) as (Hreg & _ & f & Hf & <- & Hc). apply Hface in Hf as (room & Hroom & ->).
    split; [done|]. exists room. unfold room_cancelled. rewrite Hroom. cbn in Hc. rewrite Hc, orb_false_r. done.
  - intros key slot Hslot. destruct (so_room _ _ _ _ _ _ H3 _ _ Hslot) as [n Hn]. rewrite lookup_fmap in Hn.
    destruct (px_room s !! ss_room slot) as [room|] eqn:Hroom; [|done]. exists room. split; [done|].
    unfold room_cancelled. rewrite Hroom. destruct (H6 (ss_room slot) (face room)) as [Hc|[Hc|Hc]]; [by rewrite lookup_fmap, Hroom|by left|..].
    + right; left. cbn in Hc. by rewrite Hc, orb_true_r.
    + by right; right.
  - intros g room id Hroom. unfold drop_registration. assert (forall id', st_rooms (px_state s) !! id' = Some g -> id' = rm_id room) as Hid.
    { intros id' (_ & _ & f & Hf & <- & _)%H1. apply Hface in Hf as (room' & Hroom' & ->). simplify_eq. done. }
    case_bool_decide as Hc; cbn; case_decide as Hd; try done.
    + rewrite (Hid _ Hd). apply lookup_delete_eq.
    + rewrite lookup_delete_ne; [done|]. intros <-. done.
    + by rewrite (Hid _ Hd) in Hd.
  - intros g room Hroom Herr. assert (rm_replaced room = true) as Hr.
    { unfold host_closed_error in Herr. destruct (px_shutdown s); [done|]. by destruct (rm_replaced room). }
    destruct (H7 g (face room)) as (g' & f & Hlt & Hf & Hid); [by rewrite lookup_fmap, Hroom|by left|].
    apply Hface in Hf as (room' & Hroom' & ->). by exists g', room'.
Qed.
(** *** Delivery *)

(** How a step treats a slot that exists: it drops it, keeps it, closes its channel, or, when it is pending, fills it. *)
Definition slot_step s s' (key : N) (slot : StreamSlot Leg) : Prop :=
  px_slot s' !! key = None \/ exists arrival, px_slot s' !! key = Some (slot <| ss_arrival := arrival |>)
    /\ (arrival = ss_arrival slot \/ arrival = Closed \/ exists id, st_pending (px_state s) !! id = Some key).

Lemma slot_kept s s' key slot : px_slot s !! key = Some slot -> px_slot s' = px_slot s -> slot_step s s' key slot.
Proof. intros Hk Heq. right. exists (ss_arrival slot). rewrite Heq, Hk. destruct slot; cbn. auto. Qed.

Lemma begin_slots s peer s' r : begin_registration limits s peer = (s', r) -> px_slot s' = px_slot s /\ st_pending (px_state s') = st_pending (px_state s).
Proof. unfold begin_registration. repeat case_decide; by intros [= <- <-]. Qed.

Lemma register_slots s room_id hash peer s' r : register_room limits s room_id hash peer = (s', r) ->
  px_slot s' = px_slot s /\ st_pending (px_state s') = st_pending (px_state s).
Proof.
  unfold register_room. destruct (px_shutdown s); [by intros [= <- <-]|]. destruct (_ && _); [by intros [= <- <-]|].
  destruct (negb _ && _); [by intros [= <- <-]|]. by intros [= <- <-].
Qed.

Lemma admit_slots s room_id token peer draws s' r : admit_stream limits s room_id token peer draws = Some (s', r) ->
  s' = s \/ exists g id, px_slot s' = <[px_next_key s := mkStreamSlot g peer id Waiting]> (px_slot s)
    /\ st_pending (px_state s') = <[id := px_next_key s]> (st_pending (px_state s)).
Proof.
  unfold admit_stream. destruct (px_shutdown s); [by intros [= <- <-]; left|].
  destruct (st_rooms (px_state s) !! room_id ≫= _) as [[g room]|]; [|by intros [= <- <-]; left].
  repeat (case_decide; [by intros [= <- <-]; left|]). destruct (find_first _ draws) as [id|]; [|done]. cbn [mbind option_bind].
  destruct (try_send room id) as [room'|]; [|by intros [= <- <-]; left]. intros [= <- <-]. right. by exists g, id.
Qed.

Lemma deliver_slots s id leg s' r : deliver_accept s id leg = (s', r) ->
  (px_slot s' = px_slot s \/ exists key, st_pending (px_state s) !! id = Some key
     /\ px_slot s' = alter (fun slot => slot <| ss_arrival := Arrived leg |>) key (px_slot s))
  /\ st_pending (px_state s') = delete id (st_pending (px_state s)).
Proof.
  unfold deliver_accept. destruct (st_pending (px_state s) !! id) as [key|] eqn:Hp.
  - destruct (px_slot s !! key) as [[g peer sid []]|] eqn:Hk; cbn; rewrite Hk; intros [= <- <-]; cbn; split; auto. right. by exists key.
  - intros [= <- <-]. split; [by left|]. by rewrite delete_id.
Qed.

Lemma slot_altered s s' key k slot arrival : px_slot s !! key = Some slot ->
  px_slot s' = alter (fun slot => slot <| ss_arrival := arrival |>) k (px_slot s) ->
  (k = key -> arrival = Closed \/ exists id, st_pending (px_state s) !! id = Some key) -> slot_step s s' key slot.
Proof.
  intros Hk Heq Ha. right. destruct (decide (k = key)) as [->|Hne].
  - exists arrival. rewrite Heq, lookup_alter_eq, Hk. split; [done|]. right. by apply Ha.
  - exists (ss_arrival slot). rewrite Heq, lookup_alter_ne, Hk by done. destruct slot; cbn. auto.
Qed.

(** What a step does to a slot, and that it makes no existing slot pending again *)
Lemma step_slot s label s' key : proxy_ok limits s -> proxy_step limits s label s' -> (key < px_next_key s)%N ->
  (forall slot, px_slot s !! key = Some slot -> slot_step s s' key slot)
  /\ (px_slot s !! key = None -> px_slot s' !! key = None)
  /\ (forall id, st_pending (px_state s') !! id = Some key -> st_pending (px_state s) !! id = Some key).
Proof.
  intros Hok Hstep Hkey.
  assert (px_slot s' = px_slot s -> (forall id, st_pending (px_state s') !! id = Some key -> st_pending (px_state s) !! id = Some key) ->
    (forall slot, px_slot s !! key = Some slot -> slot_step s s' key slot) /\ (px_slot s !! key = None -> px_slot s' !! key = None)
    /\ (forall id, st_pending (px_state s') !! id = Some key -> st_pending (px_state s) !! id = Some key)) as Hkeep.
  { intros Heq Hp. split; [|split; [by rewrite Heq|done]]. intros slot Hs. by apply slot_kept. }
  assert (forall i id, delete i (st_pending (px_state s)) !! id = Some key -> st_pending (px_state s) !! id = Some key) as Hdel
    by by intros i id [_ ?]%lookup_delete_Some.
  destruct Hstep; try (apply Hkeep; cbn; done).
  - apply begin_slots in H as [Hs Hp]. apply Hkeep; [done|]. by rewrite Hp.
  - apply register_slots in H as [Hs Hp]. apply Hkeep; [done|]. by rewrite Hp.
  - apply Hkeep; cbn; [done|]. by case_bool_decide.
  - apply admit_slots in H as [->|(g & id & Hs & Hp)]; [by apply Hkeep|]. split_and!.
    + intros slot Hslot. right. exists (ss_arrival slot). rewrite Hs, lookup_insert_ne, Hslot by lia. destruct slot; cbn. auto.
    + intros Hnone. by rewrite Hs, lookup_insert_ne by lia.
    + intros id'. rewrite Hp. intros [[_ ?]|[_ ?]]%lookup_insert_Some; [lia|done].
  - split_and!; cbn; [|by rewrite lookup_delete_None; right|apply Hdel].
    intros slot' Hs. unfold slot_step. cbn. destruct (decide (key0 = key)) as [->|Hne]; [left; apply lookup_delete_eq|].
    right. exists (ss_arrival slot'). rewrite lookup_delete_ne, Hs by done. destruct slot'; cbn. auto.
  - unfold expire_pending in *. simplify_eq. apply Hkeep; [done|]. apply Hdel.
  - apply deliver_slots in H as [Hs Hp]. destruct Hs as [Hs|(k & Hk & Hs)]; [apply Hkeep; [done|]; rewrite Hp; apply Hdel|].
    split_and!; [|by rewrite Hs; intros Hn; apply lookup_alter_None|rewrite Hp; apply Hdel].
    intros slot Hslot. eapply slot_altered; [done|exact Hs|]. intros <-. right. eauto.
  - split_and!; cbn; [|by intros Hn; apply lookup_alter_None|done].
    intros slot Hslot. eapply slot_altered; [done|done|]. by left.
Qed.

Lemma step_key s label s' : proxy_step limits s label s' -> (px_next_key s <= px_next_key s')%N.
Proof.
  intros Hstep. destruct Hstep; cbn; try lia.
  - unfold begin_registration in H. repeat case_decide; injection H as <- <-; cbn; lia.
  - unfold register_room in H. destruct (px_shutdown s); [by injection H as <- <-|]. destruct (_ && _); [by injection H as <- <-|].
    destruct (negb _ && _); injection H as <- <-; cbn; lia.
  - unfold admit_stream in H. destruct (px_shutdown s); [injection H as <- <-; lia|].
    destruct (st_rooms (px_state s) !! room_id ≫= _) as [[g room]|]; [|injection H as <- <-; lia].
    repeat (case_decide; [injection H as <- <-; lia|]). destruct (find_first _ draws) as [id|]; [|done]. cbn [mbind option_bind] in H.
    destruct (try_send room id); injection H as <- <-; cbn; lia.
  - unfold expire_pending in *. simplify_eq. cbn. lia.
  - unfold deliver_accept in H. destruct (st_pending (px_state s) !! stream_id) as [k|]; [|injection H as <- <-; lia].
    cbn in H. destruct (px_slot s !! k) as [[? ? ? []]|]; injection H as <- <-; cbn; lia.
Qed.

(** Along a run, a slot that is not pending is never filled. *)
Lemma run_slot s labels s' key slot : proxy_ok limits s -> proxy_run limits s labels s' -> px_slot s !! key = Some slot ->
  (forall id, st_pending (px_state s) !! id <> Some key) ->
  (key < px_next_key s')%N /\ (forall id, st_pending (px_state s') !! id <> Some key)
  /\ (px_slot s' !! key = None \/ exists arrival, px_slot s' !! key = Some (slot <| ss_arrival := arrival |>)
        /\ (arrival = ss_arrival slot \/ arrival = Closed)).
Proof.
  intros Hok Hrun Hslot Hp. induction Hrun as [s|s s1 s2 labels label Hrun IH Hstep].
  - split; [apply (ky_slot _ (px_keys_ok _ _ Hok)); eauto|]. split; [done|]. right. exists (ss_arrival slot). rewrite Hslot. destruct slot; cbn. auto.
  - destruct (IH Hok Hslot Hp) as (Hkey & Hp1 & Hs1). pose proof (run_ok limits usize_limit early_fits _ _ _ Hok Hrun) as Hok1.
    destruct (step_slot _ _ _ _ Hok1 Hstep Hkey) as (Hfill & Hgone & Hpend).
    split; [pose proof (step_key _ _ _ Hstep); lia|]. split; [intros id Hid; by eapply Hp1, Hpend|].
    destruct Hs1 as [Hnone|(a & Ha & Hcases)]; [left; by apply Hgone|].
    destruct (Hfill _ Ha) as [?|(a' & Ha' & [->|[->|[id Hid]]])]; [by left|..].
    + right. exists a. split; [by rewrite Ha'|done].
    + right. exists Closed. split; [by rewrite Ha'|by right].
    + by apply Hp1 in Hid.
Qed.

(** C7: A host leg reaches its opener at most once: an [Accept] that succeeds fills the one waiting slot that is pending under its
    id, which is then pending no more; an expired stream is pending no more either; and from then on, in every run, whatever
    ids are drawn, the slot's leg stays what it was until the opener closes or drops it. *)
Theorem accept_delivered_once s : reachable limits s ->
  (forall id leg s', deliver_accept s id leg = (s', inl tt) -> exists key slot, st_pending (px_state s) !! id = Some key
     /\ px_slot s !! key = Some slot /\ ss_stream_id slot = id /\ ss_arrival slot = Waiting
     /\ px_slot s' !! key = Some (slot <| ss_arrival := Arrived leg |>) /\ forall id', st_pending (px_state s') !! id' <> Some key)
  /\ (forall key slot s' expired id', px_slot s !! key = Some slot -> expire_pending s (ss_stream_id slot) = (s', expired) ->
     st_pending (px_state s') !! id' <> Some key)
  /\ (forall key slot labels s' slot', px_slot s !! key = Some slot -> (forall id, st_pending (px_state s) !! id <> Some key) ->
     proxy_run limits s labels s' -> px_slot s' !! key = Some slot' ->
     ss_arrival slot' = ss_arrival slot \/ ss_arrival slot' = Closed).
Proof.
  intros Hs. apply (reachable_ok limits usize_limit early_fits) in Hs as Hok. pose proof (px_streams_ok _ _ Hok) as Hst.
  assert (forall id key slot, st_pending (px_state s) !! id = Some key -> px_slot s !! key = Some slot -> ss_stream_id slot = id) as Hid.
  { intros id key slot Hp Hk. destruct (so_pending _ _ _ _ _ _ Hst _ _ Hp) as (slot' & Hk' & <- & _). congruence. }
  split_and!.
  - intros id leg s'. unfold deliver_accept. destruct (st_pending (px_state s) !! id) as [key|] eqn:Hp; [|done].
    cbn. destruct (px_slot s !! key) as [[g peer sid []]|] eqn:Hk; [|done..]. intros [= <-].
    exists key, (mkStreamSlot g peer sid Waiting). split; [done|]. split; [done|]. split; [by eapply Hid|]. split; [done|].
    split; [cbn; by rewrite lookup_alter_eq, Hk|]. intros id'. cbn. intros [Hne Hp']%lookup_delete_Some.
    pose proof (Hid _ _ _ Hp Hk). pose proof (Hid _ _ _ Hp' Hk). congruence.
  - intros key slot s' expired id' Hk [= <- _]. cbn. intros [Hne Hp']%lookup_delete_Some. by pose proof (Hid _ _ _ Hp' Hk).
  - intros key slot labels s' slot' Hk Hp Hrun Hk'. destruct (run_slot _ _ _ _ _ Hok Hrun Hk Hp) as (_ & _ & [Hn|(a & Ha & Hc)]); [congruence|].
    rewrite Ha in Hk'. by injection Hk' as <-.
Qed.
End proxy.

(** ** Registration *)

Lemma append_length_inj (a b c d : string) : a +:+ b = c +:+ d -> String.length b = String.length d -> a = c /\ b = d.
Proof.
  revert c. induction a as [|x a IH]; intros [|y c] Heq Hlen; cbn in Heq.
  - by subst.
  - subst b. cbn in Hlen. rewrite length_app_str in Hlen. lia.
  - subst d. cbn in Hlen. rewrite length_app_str in Hlen. lia.
  - injection Heq as -> Heq. by destruct (IH c Heq Hlen) as [-> ->].
Qed.

(** C15: A room is registered, and its token replaced, by the holder of its key alone: a registration that succeeds carried a signature
    that verifies under the presented key over the context, the challenge of this control stream and the token hash, and registers the
    room derived from that key with that hash; one that fails changes nothing; a later frame sets a token only with such a signature over
    the update's context; and no registration message is an update message or one for another challenge or hash. *)
Theorem registration_authentic {L : RelayLib} {E : Ed25519} {Leg : Type} (limits : ProxyLimits) (s : Proxy Leg) nonce peer challenge shutdown first :
  (forall s' g previous v, register limits s nonce peer challenge shutdown first = (s', inl (g, previous, v)) ->
     exists r, first = NextChunk (Some (HostFrame.Register r)) /\ from_bytes (rg_ed25519_pubkey r) = Some (vf_key v)
       /\ verify_strict (vf_key v) (register_signing_message nonce (rg_open_token_hash r)) (rg_signature r) = true
       /\ st_rooms (px_state s') !! RoomId_from_ed25519 (rg_ed25519_pubkey r) = Some g
       /\ (rm_open_token_hash <$> px_room s' !! g) = Some (rg_open_token_hash r) /\ (rm_peer <$> px_room s' !! g) = Some peer)
  /\ (forall s' e, register limits s nonce peer challenge shutdown first = (s', inr e) -> s' = s)
  /\ (forall key event send hash, ht_token (host_turn nonce key event send) = Some hash ->
     exists u, event = HostNext (NextChunk (Some (HostFrame.UpdateOpenToken u))) /\ hash = ut_open_token_hash u
       /\ String.length hash = 32 /\ verify_strict key (update_open_token_signing_message nonce hash) (ut_signature u) = true)
  /\ (forall nonce' hash hash', register_signing_message nonce hash <> update_open_token_signing_message nonce' hash')
  /\ (forall nonce' hash hash', String.length hash = String.length hash' ->
     register_signing_message nonce hash = register_signing_message nonce' hash' -> nonce = nonce' /\ hash = hash').
Proof.
  split_and!.
  - intros s' g previous v. unfold register. destruct challenge; [|done..]. destruct shutdown; [done|].
    destruct first as [| | | |[[r| |]|]]; try done. destruct (verify_registration nonce r) as [v0|] eqn:Hv; [|done].
    destruct (register_room _ _ _ _ _) as [s0 [[g0 prev0]|]] eqn:Hreg; [|done]. intros [= <- <- <- <-]. exists r.
    revert Hv. unfold verify_registration, token_hash, signature.
    destruct (decide (String.length (rg_open_token_hash r) = 32)); [|done].
    destruct (decide (String.length (rg_ed25519_pubkey r) = 32)); [|done].
    destruct (decide (String.length (rg_signature r) = 64)); [|done].
    destruct (from_bytes _) as [key|] eqn:Hkey; [|done]. destruct (verify_strict _ _ _) eqn:Hver; [|done]. intros [= <-].
    cbn in *. split_and!; try done; revert Hreg; unfold register_room; destruct (px_shutdown s); try done;
      destruct (_ && _); try done; destruct (negb _ && _); try done; intros [= <- <- _]; cbn; by rewrite lookup_insert_eq.
  - intros s' e. unfold register. destruct challenge; [|by intros [= <- _]..]. destruct shutdown; [by intros [= <- _]|].
    destruct first as [| | | |[[r| |]|]]; try by intros [= <- _]. destruct (verify_registration nonce r) as [v0|] eqn:Hv; [|by intros [= <- _]].
    unfold register_room. destruct (px_shutdown s); [by intros [= <- _]|]. destruct (_ && _); [by intros [= <- _]|].
    destruct (negb _ && _); [by intros [= <- _]|done].
  - intros key event send hash. destruct event as [| | |[| | | |[[|[seq []]|u]|]]]; cbn [host_turn]; try (by destruct send).
    unfold verify_update, token_hash, signature. destruct (decide _); [|done]. destruct (decide _); [|done].
    destruct (verify_strict _ _ _) eqn:Hver; [|done]. intros [= <-]. exists u. done.
  - intros nonce' hash hash'. done.
  - intros nonce' hash hash' Hlen. unfold register_signing_message, signing_message. rewrite !app_assoc_str. intros Heq.
    apply append_length_inj in Heq as [Heq ->]; [|done]. split; [|done]. cbn in Heq. by injection Heq.
Qed.

(** ** Streams *)

(** C8: A relayed stream arrives as it was sent: what the host leg was sent of data and closes, early data first, is a prefix of
    what the opener sent, and all of it while the splice runs without a fault, and likewise for the opener; every data frame is within
    the chunk limit, a close is the last frame of its direction and ends no other; heartbeats and handshake frames are not
    forwarded; and the early data an opener may buffer exceeds its limit by less than one chunk. *)
Theorem relay_carries_in_order (limits : ProxyLimits) w waited opened sends sp0 up down sp :
  wait_run limits w waited -> run_spliced w opened sends = inl sp0 -> splice_run limits sp0 up down sp ->
  let to_host := filter carried (sp_to_host (splice_finish sp)) in
  let to_opener := filter carried (sp_to_opener (splice_finish sp)) in
  to_host `prefix_of` waited ++ up /\ to_opener `prefix_of` down
  /\ (sp_outcome sp = None -> to_host = waited ++ up /\ to_opener = down
        /\ shape limits (sp_up_done sp) to_host /\ shape limits (sp_down_done sp) to_opener)
  /\ (exists c, shape limits c to_host) /\ (exists c, shape limits c to_opener)
  /\ wt_bytes w = byte_count waited
  /\ (wt_bytes w < early_data_limit limits + max_chunk_data limits \/ wt_bytes w = 0)%N.
Proof.
  intros Hw%wait_run_ok Hsp Hrun to_host to_opener. destruct Hw as [<- Hshape Hbytes Hlimit].
  assert (splice_ok limits sp (wt_early w ++ up) down) as [[(c1 & Hs1 & Hc1) Hp1 Ha1] [(c2 & Hs2 & Hc2) Hp2 Ha2]].
  { destruct opened; [|done..]. injection Hsp as <-. apply (splice_run_ok limits (splice_start (wt_early w) (wt_closed w) sends) _ [] _ down); [|done].
    cbn. by apply splice_start_ok. }
  assert (to_host = filter carried (sp_to_host sp) /\ to_opener = filter carried (sp_to_opener sp)) as [-> ->].
  { unfold to_host, to_opener, splice_finish. destruct (default (None, None) (sp_outcome sp)) as [[e1|] [e2|]]; cbn;
      rewrite ?filter_app; cbn; rewrite ?app_nil_r; done. }
  split_and!; try done; eauto. intros Hout. rewrite Hout in *. specialize (Hc1 eq_refl) as ->. specialize (Hc2 eq_refl) as ->.
  split_and!; try done; auto.
Qed.

(** An empty frame ends a direction of a spliced stream, as the end of the stream does. *)
Lemma empty_frame_ends_direction limits source_closed :
  pump_turn limits source_closed (NextChunk None) Sent = pump_turn limits source_closed NextEnd Sent
  /\ pt_forwarded (pump_turn limits source_closed (NextChunk None) Sent) = Some Chunk.Close.
Proof. done. Qed.

(** A scheme error shows what stands before the first colon, a fragment included. *)
Lemma scheme_error_shows_fragment : parse_proxy_url "room#c2VjcmV0.cHNr: copied" = inr (UnknownScheme "room#c2VjcmV0.cHNr").
Proof. vm_compute. reflexivity. Qed.

(** ** Concrete codecs *)

Module RelayDemo.
Definition letter (n : N) : ascii := ascii_of_N (65 + n `mod` 26).
Fixpoint letters (n : nat) (s : string) : string :=
  match n with
  | O => EmptyString
  | S n => String (letter (match s with String b _ => byte_val b | EmptyString => 0%N end))
                  (letters n (match s with String _ s => s | EmptyString => s end))
  end.

#[global] Instance lib : RelayLib := {|
  b64url_encode := hex_bytes;
  b64url_decode := unhex_pairs;
  base32_nopad_encode := fun s => letters ((8 * String.length s + 4) `div` 5) s;
  sha256 := fun s => str_take 32 (s +:+ "00000000000000000000000000000000");
  hmac_sha256 := fun key message => str_take 32 (key +:+ message);
|}.

Lemma letters_bytes n s : bytes_all b32_byte (letters n s) = true.
Proof.
  revert s. induction n as [|n IH]; intros s; cbn [letters bytes_all]; [done|]. rewrite IH, andb_true_r.
  generalize (match s with String b _ => byte_val b | EmptyString => 0%N end). intros v. unfold letter.
  pose proof (N.mod_lt v 26 ltac:(done)). generalize dependent (v `mod` 26)%N. intros k Hk.
  assert (k ∈ (N.of_nat <$> seq 0 26)) as Hin.
  { apply list_elem_of_fmap. exists (N.to_nat k). split; [lia|]. apply elem_of_seq. lia. }
  revert k Hin Hk. apply (proj1 (Forall_forall (fun k => (k < 26)%N -> b32_byte (ascii_of_N (65 + k)) = true) _)).
  repeat constructor.
Qed.

Lemma letters_length n s : String.length (letters n s) = n.
Proof. revert s. induction n as [|n IH]; intros s; cbn; [done|]. by rewrite IH. Qed.

Lemma hex_b64 s : bytes_all b64_byte (hex_bytes s) = true.
Proof.
  induction s as [|b s IH]; [done|]. change (hex_bytes (String b s)) with (hex_n 2 (byte_val b) +:+ hex_bytes s).
  rewrite bytes_all_app, IH, andb_true_r. clear IH. destruct b as [[] [] [] [] [] [] [] []]; vm_compute; reflexivity.
Qed.

Lemma padded_length s : String.length (str_take 32 (s +:+ "00000000000000000000000000000000")) = 32.
Proof. rewrite length_str_take, length_app_str. cbn [String.length]. lia. Qed.

#[global] Instance laws : RelayLaws lib.
Proof.
  split.
  - exact unhex_pairs_hex_bytes.
  - exact hex_b64.
  - intros s. apply letters_bytes.
  - intros s. apply letters_length.
  - exact padded_length.
Qed.

Definition key_text : string := "0123456789abcdefghijklmnopqrstuv".
Definition address : RelayAddress := mkRelayAddress true "relay.example.com" 8443 "/team/hya".
Definition link : RelayLink :=
  mkRelayLink address (RoomId_from_ed25519 "0123456789ABCDEFGHIJKLMNOPQRSTUV") Transport.Ws key_text key_text.

Lemma parsed_address : parse_proxy_url "https://Relay.Example.com:8443/team/hya/" = inl address.
Proof. by vm_compute. Qed.

Definition local_link : RelayLink :=
  mkRelayLink (mkRelayAddress false "[::1]" 80 "/a") "qrstuvwxyznopqrstuvwxyz234" Transport.Auto key_text key_text.
Definition local_text : string :=
  "hya+insecure://[::1]:80//a/qrstuvwxyznopqrstuvwxyz234?x=1#" +:+ hex_bytes key_text +:+ "." +:+ hex_bytes key_text.

Lemma parsed_link : RelayLink_parse local_text = inl local_link.
Proof. vm_compute. reflexivity. Qed.

Lemma printed_link : redacted local_link = "hya+insecure://[::1]/a/qrstuvwxyznopqrstuvwxyz234".
Proof. vm_compute. reflexivity. Qed.
(** A proxy with the link's room, and an opener that holds the link *)
Definition limits : ProxyLimits := ProxyLimits_default.
Definition room : string := rl_room_id link.
Definition host : string := "10.0.0.1".
Definition opener : string := "10.0.0.2".
Definition proxy0 : Proxy N := ProxyCore_new.
Definition proxy1 : Proxy N := (register_room limits proxy0 room (open_token_hash (open_token link)) host).1.
Definition proxy2 : Proxy N :=
  match admit_stream limits proxy1 room (open_token link) opener ["s1"] with Some (s, _) => s | None => proxy1 end.

Lemma usize_limit : fits 64 (max_streams_per_room limits).
Proof. vm_compute. discriminate. Qed.
Lemma early_fits : fits 64 (max_early_data_bytes limits + max_chunk_data limits * max_streams limits).
Proof. vm_compute. discriminate. Qed.

Lemma registered : (register_room limits proxy0 room (open_token_hash (open_token link)) host).2 = inl (1%N, None).
Proof. vm_compute. reflexivity. Qed.

Lemma admitted : (snd <$> admit_stream limits proxy1 room (open_token link) opener ["s1"]) = Some (inl 0%N).
Proof. vm_compute. reflexivity. Qed.

Lemma admission : admit_stream limits proxy1 room (open_token link) opener ["s1"] = Some (proxy2, inl 0%N).
Proof.
  pose proof admitted as Ha. unfold proxy2. destruct (admit_stream limits proxy1 room (open_token link) opener ["s1"]) as [[s r]|]; [|discriminate Ha].
  injection Ha as ->. reflexivity.
Qed.

Lemma reached : reachable limits proxy2.
Proof.
  eexists. eapply run_snoc; [eapply run_snoc; [apply run_nil|]|].
  - apply (step_register _ _ room (open_token_hash (open_token link)) host proxy1 (inl (1%N, None))).
    rewrite <- registered. apply surjective_pairing.
  - exact (step_admit _ _ _ _ _ _ _ _ admission).
Qed.

Lemma one_stream : st_streams (px_state proxy2) = 1%N /\ st_rooms (px_state proxy2) !! room = Some 1%N
  /\ px_slot proxy2 !! 0%N = Some (mkStreamSlot 1%N opener "s1" Waiting).
Proof. vm_compute. split_and!; reflexivity. Qed.

Lemma delivered : (deliver_accept proxy2 "s1" 7%N).2 = inl tt.
Proof. vm_compute. reflexivity. Qed.

(** Signatures that repeat the message *)
#[global] Instance ed25519 : Ed25519 := {|
  VerifyingKey := string;
  from_bytes := Some;
  verify_strict := fun key message signature => bool_decide (signature = str_take 64 (key +:+ message));
|}.

Definition registration : Register :=
  mkRegister key_text (str_take 64 (key_text +:+ register_signing_message "nonce" key_text)) key_text.

Lemma register_signed : (register limits proxy0 "nonce" host Sent false (NextChunk (Some (HostFrame.Register registration)))).2
  = inl (1%N, None, mkVerified (RoomId_from_ed25519 key_text) key_text key_text).
Proof. vm_compute. reflexivity. Qed.

(** Early data, then a splice in which the opener closes *)
Definition waited : list Chunk.t := [] ++ [Chunk.Data "ab"].
Definition wait : Wait := mkWait [Chunk.Data "ab"] 2 false false [].

Lemma wait_reached : wait_run limits wait waited.
Proof.
  eapply (wait_run_turn _ wait_start [] (WaitNext (NextChunk (Some (Chunk.Data "ab")))) Sent); [apply wait_run_nil|..].
  - intros next _. vm_compute. reflexivity.
  - vm_compute. reflexivity.
Qed.

Definition spliced0 : Splice := splice_start (wt_early wait) (wt_closed wait) [].
Definition turn (sp : Splice) (event : SpliceEvent) : Splice := default sp (splice_turn limits sp event).
Definition spliced : Splice :=
  turn (turn (turn spliced0 (Up (NextChunk (Some (Chunk.Heartbeat (mkHeartbeat 5 false)))) Sent))
    (Down (NextChunk (Some (Chunk.Data "x"))) Sent)) (Up NextEnd Sent).

Lemma spliced_reached : splice_run limits spliced0 [Chunk.Close] [Chunk.Data "x"] spliced.
Proof.
  eapply (splice_run_turn _ _ [] [Chunk.Data "x"] _ (Up NextEnd Sent));
    [eapply (splice_run_turn _ _ [] [] _ (Down (NextChunk (Some (Chunk.Data "x"))) Sent));
      [eapply (splice_run_turn _ _ [] [] _ (Up (NextChunk (Some (Chunk.Heartbeat (mkHeartbeat 5 false)))) Sent)); [apply splice_run_nil|]|]|];
    vm_compute; reflexivity.
Qed.
End RelayDemo.

(** A link with keys, whose room is that of a key, and one whose prefix begins with an empty segment *)
Lemma relay_link_roundtrip_witness :
  RelayLink_parse (to_secret_string RelayDemo.link) = inl RelayDemo.link
  /\ parse_proxy_url (base_url RelayDemo.address) = inl RelayDemo.address
  /\ link_ok RelayDemo.local_link /\ redacted RelayDemo.local_link = "hya+insecure://[::1]/a/qrstuvwxyznopqrstuvwxyz234".
Proof.
  pose proof (relay_link_roundtrip (L := RelayDemo.lib)) as (Hiff & Hround & Hissued).
  assert (link_ok RelayDemo.link) as Hl by (eapply Hissued; [exact RelayDemo.parsed_address|reflexivity|reflexivity]).
  destruct (Hround _ Hl) as (H1 & _ & _ & H2). split; [exact H1|]. split; [exact H2|].
  split; [apply Hiff; exists RelayDemo.local_text; exact RelayDemo.parsed_link|exact RelayDemo.printed_link].
Defined.

Lemma link_errors_reveal_nothing_witness :
  RelayLink_parse ("hya://host/team/room" +:+ String HASH "secret.secret") = inr (InvalidRoomId "room")
  /\ forall other, RelayLink_parse ("hya://host/team/room" +:+ String HASH other) = inr (InvalidRoomId "room").
Proof.
  pose proof (link_errors_reveal_nothing (L := RelayDemo.lib)) as (Hparse & _). split; [vm_compute; reflexivity|].
  destruct (Hparse "hya://host/team/room" "secret.secret" (InvalidRoomId "room")) as [[]|[_ H]];
    [vm_compute; reflexivity|vm_compute; reflexivity|exact H].
Defined.

Lemma wrong_token_is_offline_witness :
  run_open RelayDemo.limits RelayDemo.proxy2 (inl (Chunk.Open RelayDemo.room "guess")) "10.0.0.3" [] = Some (RelayDemo.proxy2, inr (Some room_offline)).
Proof.
  destruct (wrong_token_is_offline RelayDemo.limits RelayDemo.proxy2 RelayDemo.room "guess" "10.0.0.3" []) as [Hclosed _].
  assert (opens RelayDemo.proxy2 RelayDemo.room "guess" = false) as Ho by (vm_compute; reflexivity).
  rewrite (Hclosed Ho). do 3 f_equal.
Defined.

Lemma link_opens_its_room_witness :
  exists s2 key, admit_stream RelayDemo.limits RelayDemo.proxy1 RelayDemo.room (open_token RelayDemo.link) RelayDemo.opener ["s1"] = Some (s2, inl key)
    /\ exists s3, deliver_accept s2 "s1" 7%N = (s3, inl tt).
Proof.
  destruct (link_opens_its_room RelayDemo.limits RelayDemo.link RelayDemo.proxy0 RelayDemo.host RelayDemo.proxy1 1%N None RelayDemo.opener ["s1"] "s1" 7%N)
    as (s2 & key & Hadmit & _ & s3 & Hleg & _).
  - rewrite <- RelayDemo.registered. apply surjective_pairing.
  - vm_compute. reflexivity.
  - vm_compute. reflexivity.
  - vm_compute. reflexivity.
  - vm_compute. reflexivity.
  - exists s2, key. split; [exact Hadmit|]. exists s3. exact Hleg.
Defined.

Lemma proxy_counts_exact_witness :
  st_streams (px_state RelayDemo.proxy2) = 1%N
  /\ count_of (st_peer_streams (px_state RelayDemo.proxy2)) RelayDemo.opener = mcount (fun slot => ss_peer slot = RelayDemo.opener) (px_slot RelayDemo.proxy2).
Proof.
  pose proof (proxy_counts_exact RelayDemo.limits RelayDemo.usize_limit RelayDemo.early_fits RelayDemo.proxy2 RelayDemo.reached) as (_ & Hp & _).
  split; [apply RelayDemo.one_stream|apply (Hp RelayDemo.opener)].
Defined.

Lemma streams_follow_rooms_witness : 1%N ∈ px_registrations RelayDemo.proxy2.
Proof.
  pose proof (streams_follow_rooms RelayDemo.limits RelayDemo.usize_limit RelayDemo.early_fits RelayDemo.proxy2 RelayDemo.reached) as (Hrooms & _).
  apply (Hrooms RelayDemo.room 1%N). apply RelayDemo.one_stream.
Defined.

Lemma accept_delivered_once_witness : exists key slot,
  px_slot RelayDemo.proxy2 !! key = Some slot /\ ss_stream_id slot = "s1"
  /\ px_slot (deliver_accept RelayDemo.proxy2 "s1" 7%N).1 !! key = Some (slot <| ss_arrival := Arrived 7%N |>).
Proof.
  pose proof (accept_delivered_once RelayDemo.limits RelayDemo.usize_limit RelayDemo.early_fits RelayDemo.proxy2 RelayDemo.reached) as (Hd & _).
  destruct (Hd "s1" 7%N (deliver_accept RelayDemo.proxy2 "s1" 7%N).1) as (key & slot & _ & Hslot & Hid & _ & Harr & _).
  - rewrite <- RelayDemo.delivered. apply surjective_pairing.
  - exists key, slot. split; [exact Hslot|]. split; [exact Hid|exact Harr].
Defined.

Lemma registration_authentic_witness :
  st_rooms (px_state (register RelayDemo.limits RelayDemo.proxy0 "nonce" RelayDemo.host Sent false
    (NextChunk (Some (HostFrame.Register RelayDemo.registration)))).1) !! RoomId_from_ed25519 RelayDemo.key_text = Some 1%N.
Proof.
  destruct (registration_authentic RelayDemo.limits RelayDemo.proxy0 "nonce" RelayDemo.host Sent false
    (NextChunk (Some (HostFrame.Register RelayDemo.registration)))) as (Hreg & _).
  edestruct Hreg as (r & Hr & _ & _ & Hroom & _); [rewrite <- RelayDemo.register_signed; apply surjective_pairing|].
  injection Hr as <-. exact Hroom.
Defined.

Lemma relay_carries_in_order_witness :
  filter carried (sp_to_host (splice_finish RelayDemo.spliced)) `prefix_of` [Chunk.Data "ab"; Chunk.Close]
  /\ filter carried (sp_to_host RelayDemo.spliced) = [Chunk.Data "ab"; Chunk.Close].
Proof.
  pose proof (relay_carries_in_order RelayDemo.limits RelayDemo.wait RelayDemo.waited Sent [] RelayDemo.spliced0 [Chunk.Close] [Chunk.Data "x"]
    RelayDemo.spliced RelayDemo.wait_reached eq_refl RelayDemo.spliced_reached) as (Hprefix & _).
  split; [exact Hprefix|vm_compute; reflexivity].
Defined.
